(* ===== verification/_CoqProject ===== *)
-Q . S2P
Prelude.v
ByteStrings.v
Buffer.v
Packet.v
ProtocolCodec.v
SessionManager.v
DeliveryIdentity.v
MessageDeliveryDeduplicator.v
ReceiverDeliveryTracker.v
OfflineMessageStore.v
PrivateReplayAdmission.v
DurablePrivateRecovery.v
TimerQueue.v
EventLoop.v
Channel.v
TcpConnection.v
PacketTransport.v
TcpServer.v
Connector.v
CircularQueue.v
MpmcBlockingQueue.v
ThreadPool.v
BusinessExecutor.v
BusinessLanes.v
BusinessMoves.v
BusinessInvariant.v
BusinessLedger.v
BusinessExecutorSafety.v
BusinessTheorems.v
BusinessCoroutine.v
GroupTypes.v
GroupApplicationService.v
OutboxRelay.v
MessageTypes.v
MessageApplicationService.v
KeyValueEngine.v
DomainEvents.v
LocalPrivateStore.v
LocalStoreKeys.v
LocalStoreModel.v
LocalStoreInvariant.v
LocalStoreChanges.v
LocalStoreSteps.v
LocalStorePersist.v
LocalStoreBatch.v
LocalStoreSending.v
LocalStoreConfirm.v
LocalStoreQueries.v
LocalStoreRead.v
LocalStoreEvents.v
LocalStorePages.v
LocalStoreRecovery.v
LocalStoreRuns.v
LocalStoreExample.v
LocalStoreTheorems.v
LocalRepository.v
FileTypes.v
FileApplicationService.v
FileProgress.v
FileWorld.v
LocalFilesystemStorage.v
LocalStorageReads.v
LocalStorageWrites.v
LocalStoragePaths.v
FileRepository.v
FileRepositoryAdapter.v
FileTables.v
FileExample.v
FileMoves.v
FileOperations.v
FileRules.v
FileFinalizeRules.v
FileUploads.v
FileBegin.v
FileReadiness.v
FileService.v
FileDownload.v
FileAvailability.v
FileServiceSafety.v
FileServiceExample.v
