(* ===== verification/Prelude.v ===== *)
(** * TinyIMX: a verification of the messaging core

    TinyIMX is an instant-messaging server in C++.  Clients keep a TCP connection to a
    gateway; the gateway frames and parses packets, keeps the sessions of users, runs the
    work of a conversation in order on a pool of threads, routes messages to the sessions
    of their receivers, retries and deduplicates deliveries, and calls back-end services
    (users, social graph, groups, messages, files) over gRPC.  The message service can
    keep private messages in a local store on RocksDB; services publish events from an
    outbox; the file service takes uploads in chunks and hands out verified ranges.  This
    development models the parts that carry the program's own logic and proves them
    correct.  It reads next to the source: definitions keep the names of the functions and
    members they translate, and every file names the source files it models.

    ** Parts, files and correspondence

    Shared: [Prelude.v] has the machine integers ([u16], [u32], [u64] with notations in
    [width_scope]), the list operations of [std::vector] and [std::copy], runs of step
    functions with their refinement and invariant principles, sums over finite maps, and
    the tactics of the development.  [ByteStrings.v] has [std::string] as the list of its
    bytes, its order, and numbers as text.

    Network, [src/common/net] and [src/common/protocol]:
    - [Buffer.v]: the vector with its two indices, and the interface [ByteBuffer];
      [Packet.v]: message types, headers and packets; [ProtocolCodec.v]: [Encode] and
      [Decode] against [ByteBuffer], with the list of bytes as a second instance.
    - [TimerQueue.v]: timers and the functor queue of their loop; [EventLoop.v]: the owner
      of a loop between [epoll_wait] and the functors, interleaved with other threads;
      [Channel.v]: interest masks and their registration with epoll.
    - [TcpConnection.v]: a connection on its buffers and its channel; [TcpServer.v]: the
      connections of a server over several loops; [Connector.v]: outgoing attempts;
      [PacketTransport.v]: [SendPacket], [HandleMessage] and the dispatch of
      [HandlePacket] of [src/gateway/GatewayServer.cpp], the codec over connections.

    Concurrency, [src/common/concurrency]: [CircularQueue.v], the ring buffer with the
    interface [BoundedQueue]; [MpmcBlockingQueue.v], the blocking queue on any such queue;
    [ThreadPool.v], workers, submitters, pause, the three shutdowns and the manager, with
    the interface [TaskPool].

    Gateway, [src/gateway]:
    - [SessionManager.v]: users, connections and session generations;
      [DeliveryIdentity.v]: keys of deliveries and of ordered work;
      [MessageDeliveryDeduplicator.v]: exclusive execution of a delivery;
      [ReceiverDeliveryTracker.v]: attempts, acknowledgements and the windows that bound
      them; [OfflineMessageStore.v]: messages kept for a login;
      [PrivateReplayAdmission.v] and [DurablePrivateRecovery.v]: the obligation to replay
      private messages, and the schedule that finds recipients with pending ones.
    - [BusinessExecutor.v]: ordered lanes, budgets, deadlines and asynchronous work over
      any [TaskPool].  [BusinessLanes.v], [BusinessMoves.v], [BusinessInvariant.v],
      [BusinessLedger.v] and [BusinessExecutorSafety.v] carry its proof: every step is a
      move of pieces of work.  [BusinessTheorems.v] has the theorems.
      [BusinessCoroutine.v]: the runner of the coroutines asynchronous tasks are.

    Groups, [src/services/group/application]: [GroupTypes.v], commands, results, the
    repository port and the permission policy; [GroupApplicationService.v], the handlers.

    Outbox, [src/services/outbox]: [OutboxRelay.v], the poll, worker and renewal threads
    and the shutdown of the relay.

    Messages, [src/services/message] and [src/services/eventing]:
    - [MessageTypes.v] and [MessageApplicationService.v]: the handlers over the port
      [MessageRepositoryPort]; [DomainEvents.v]: events and their codec.
    - [KeyValueEngine.v]: what is used of RocksDB, the class [Engine].
      [LocalPrivateStore.v]: the store of private messages on any engine, every
      operation in a state-and-exception monad.  [LocalStoreKeys.v] to
      [LocalStoreRuns.v]: the contents a store represents, the invariant, and what each
      operation does to them, single sends ([LocalStorePersist.v]), batches of sends
      ([LocalStoreBatch.v], [LocalStoreSending.v]), confirmations ([LocalStoreConfirm.v]),
      up to runs of all of them; [LocalStoreExample.v]: a concrete store;
      [LocalStoreTheorems.v]: the theorems.  [LocalRepository.v]: the port on the store.

    Files, [src/services/file], [src/services/repository/FileRepository.cpp]:
    - [FileTypes.v]: data and the two ports; [FileApplicationService.v]: the handlers;
      [FileProgress.v]: the progress of an upload.
    - [FileWorld.v]: the state the service shares with the rest of the system (tables,
      disk, cache of verified objects), the system calls on it as single steps between
      which others act, and the logic of invariants for such computations.  The ghost field
      [digested] remembers the strings that verifications and range reads digested.
      [LocalFilesystemStorage.v]: the storage on these calls; [LocalStorageReads.v],
      [LocalStorageWrites.v] and [LocalStoragePaths.v]: what reads return, what writes
      publish, and which paths keys lead to.
    - [FileRepository.v]: the tables, the statements and the parsing of rows;
      [FileRepositoryAdapter.v]: the transactions.  [FileTables.v]: well-formed tables and
      the rows read back; [FileMoves.v]: the changes operations make; [FileOperations.v]:
      a weakest precondition for transactions; [FileRules.v] and [FileFinalizeRules.v]: a
      rule per operation.  [FileUploads.v]: the abstract upload machine and the refinement;
      [FileBegin.v]: repeated declarations; [FileReadiness.v]: the two tests for a complete
      upload.
    - [FileService.v]: the paths of parts and objects, the ports as instances on one world
      and the invariant that ties tables to disk; [FileDownload.v], [FileAvailability.v],
      [FileServiceSafety.v]: what downloads return, that they complete, and runs of
      requests; [FileExample.v] and [FileServiceExample.v]: uploads and downloads that run.

    ** Interfaces

    The codec uses the buffer through [ByteBuffer], the blocking queue the ring buffer
    through [BoundedQueue], the executor the pool through [TaskPool] with [TaskPoolLaws],
    the services their storage through [GroupRepositoryPort], [MessageRepositoryPort],
    [FileRepositoryPort] and [FileStoragePort], the local store its engine through
    [Engine] with [EngineLaws] and JSON through [JsonLibrary] with [JsonLaws], the files
    SHA-256 through [Sha256] with [Sha256Laws].  Theorems about a client are proved from
    the laws of the interface; instances discharge the laws.  [Serves] in
    [LocalRepository.v] is what the message service needs of a repository to drain pending
    messages, and the local store is shown to serve.  [tables_repository] and
    [disk_storage] in [FileService.v] put the repository and the storage under the file
    service.

    ** Conventions

    A method becomes a function on the state record; a method that both changes the object
    and returns a value returns a pair.  [None] is what the source leaves undefined or
    aborts on (a failed [assert], an access outside a container, a past-the-end iterator),
    so a theorem that a run is [Some] is a theorem that this never happens.  A mutex makes
    each section one step; where the source releases it, steps are separate and theorems
    quantify over all interleavings.  Clocks, random values, results of system calls and
    of the database, the C++ hash and the liveness of [weak_ptr]s are arguments.  Unsigned
    arithmetic wraps at its width.  Log output and metrics are left out.

    ** What the theorems show

    - Transport: the buffer is a byte queue; encoding then decoding is the identity on
      packet streams, however the stream is cut; decoding is total and stops at the first
      incomplete or refused frame; over a connection packets arrive once and in order.
    - Connections, servers, loops: bytes leave in order and nothing is sent after the end;
      callbacks come in order and at most once; a server's counters balance and [Stop]
      leaves no connection; a loop does not wait again before it ran the functors queued so
      far, nor after it was told to quit; a cancelled timer never runs; descriptors of a
      connector have one owner.
    - Threads: the blocking queue loses no wake-up and no item; a pool shut down gracefully
      has run every task once that a newer one did not replace; the tasks of a lane run in order and one at a time within the
      budgets, each has one outcome, and a drained executor stays drained; a coroutine is
      resumed by one thread at a time and ends once.
    - Gateway state: sessions stay coherent, old generations never return; delivery
      windows are exact and bounded; replay obligations are never lost.
    - Outbox: every claimed record is settled once, and published only after the broker
      confirmed; no wake-up is lost; a shutdown leaves nothing behind.
    - Groups: the service is an exact gate in front of the repository; mute timestamps are
      exactly those of RFC 3339.
    - Local store: runs of sends, batches, confirmations, reads and publications refine
      transitions of abstract contents whatever writes fail, and their answers are true;
      acknowledged messages and unpublished events survive every crash; sends are
      idempotent; queries, counters and pages are those of the contents; the index of
      events answers as the engine would; a client of the service drains its messages.
    - Files: operations of the repository refine an abstract upload machine whatever
      fails, also when the outcome of a commit is unknown; tables, disk and cache stay in
      agreement under interleaved requests; what a client downloads has the declared size
      and SHA-256 even if the disk is tampered with, unless two of the digested strings
      collide; a repeated declaration is recognised;
      progress is exact and agrees with the test inside the finalizing transaction.

    Where a component does not do what it means to, a theorem shows the run: a shutdown of
    the relay that never ends ([relay_shutdown_stuck]), a lost [Resume] and a stuck
    [Start] of the pool, a half-close that is forgotten ([connection_half_close]), a
    [Quit] that is lost ([quit_before_loop_lost]), and others.

    ** Fuel and bounds

    Loops that do not recurse on their data have a bound that is never reached: one more
    than the readable bytes in [DecodeLoop] (a turn consumes a header) and [capacity_] in
    [ClearLoop] (a turn removes an element), where running out is [None] and excluded by
    the theorems; the bytes to write in [WriteAll] and to read in [ReadLoop] (a turn moves
    a byte or ends); the number of blocks in [VerifyLoop]; one more than the declared
    size of a part in [CopyPart] (a turn reads a byte or ends; of a longer part the rest is
    not read, since the comparison of sizes refuses it in any case); twenty digits for a 64-bit number in [digits].  [drain]
    and [Download] are clients: their bound is the number of requests they make, and
    [service_drains_store] says how many are enough.  Theorems about 64-bit counters that
    would repeat after wrap-around bound the length of the history below 2^64; the others
    hold with wrap-around.

    ** Not modelled

    The request handlers of [GatewayServer], which glue RPC clients and JSON to the parts
    above; the peer transport between gateways; [TcpClient], [EventLoopThread] and
    addresses, which wrap system calls; the JSON protocols of clients; the gRPC servers and
    clients; the MySQL repositories but for that of files, whose statements follow the same
    pattern; RocketMQ, ZooKeeper and Redis access; the intelligence services;
    configuration, logging, metrics and the TLS of connections; the Qt client, benchmarks,
    examples and tests.  Of the modelled parts: allocation failures, exceptions of callbacks
    where the source does not catch them, the physical write groups of the local store, and
    what the component list says of each. *)
From Stdlib Require Import ZArith Lia.
From Stdlib.Strings Require Import Byte.
From stdpp Require Import base list numbers gmap strings.

#[global] Set Default Goal Selector "!".

(** ** Machine integers

    Unsigned integers of width [w] are integers of [Z]; every place where the
    source computes on them wraps the result with [u16], [u32] or [u64]. *)
Definition u16 (z : Z) : Z := (z `mod` 2 ^ 16)%Z.
Definition u32 (z : Z) : Z := (z `mod` 2 ^ 32)%Z.
Definition u64 (z : Z) : Z := (z `mod` 2 ^ 64)%Z.

Declare Scope width_scope.
Delimit Scope width_scope with width.
Notation "x +₃₂ y" := (u32 (x + y)) (at level 50, left associativity) : width_scope.
Notation "x +₆₄ y" := (u64 (x + y)) (at level 50, left associativity) : width_scope.
Notation "x -₆₄ y" := (u64 (x - y)) (at level 50, left associativity) : width_scope.
Notation "x *₆₄ y" := (u64 (x * y)) (at level 40, left associativity) : width_scope.

Definition is_u16 (z : Z) : Prop := (0 ≤ z < 2 ^ 16)%Z.
Definition is_u32 (z : Z) : Prop := (0 ≤ z < 2 ^ 32)%Z.
Definition is_u64 (z : Z) : Prop := (0 ≤ z < 2 ^ 64)%Z.

Create HintDb tinyimx.

Section MachineIntegers.
Local Open Scope Z_scope.

Lemma u16_range z : is_u16 (u16 z).
Proof. apply Z.mod_pos_bound. lia. Qed.
Lemma u32_range z : is_u32 (u32 z).
Proof. apply Z.mod_pos_bound. lia. Qed.
Lemma u64_range z : is_u64 (u64 z).
Proof. apply Z.mod_pos_bound. lia. Qed.

Lemma u16_small z : is_u16 z → u16 z = z.
Proof. apply Z.mod_small. Qed.
Lemma u32_small z : is_u32 z → u32 z = z.
Proof. apply Z.mod_small. Qed.
Lemma u64_small z : is_u64 z → u64 z = z.
Proof. apply Z.mod_small. Qed.

Lemma u64_add_l a b : u64 (u64 a + b) = u64 (a + b).
Proof. unfold u64. by rewrite Zplus_mod_idemp_l. Qed.

Lemma u64_sub_l a b : u64 (u64 a - b) = u64 (a - b).
Proof. unfold u64. by rewrite Zminus_mod_idemp_l. Qed.

End MachineIntegers.

#[export] Hint Resolve u16_range u32_range u64_range : tinyimx.

(** ** Tactics *)

(** Case analysis on the scrutinee of a match or conditional of the goal. *)
Ltac case_goal :=
  match goal with
  | |- context [match ?x with _ => _ end] =>
      lazymatch x with
      | context [match _ with _ => _ end] => fail
      | _ => destruct x eqn:?
      end
  end.

(** The same on a hypothesis; contradictory branches are closed. *)
Ltac case_hyp H :=
  match type of H with
  | context [match ?x with _ => _ end] =>
      lazymatch x with
      | context [match _ with _ => _ end] => fail
      | _ => destruct x eqn:?
      end
  end.

Ltac case_hyps H := repeat (case_hyp H; simplify_eq/=; try done).

(** Boolean guards of the source turned into propositions. *)
Ltac reflect_guards :=
  repeat match goal with
  | H : (_ && _) = true |- _ => apply andb_true_iff in H as [? ?]
  | H : (_ || _) = false |- _ => apply orb_false_iff in H as [? ?]
  | H : negb _ = true |- _ => apply negb_true_iff in H
  | H : negb _ = false |- _ => apply negb_false_iff in H
  | H : (_ =? _)%Z = true |- _ => apply Z.eqb_eq in H
  | H : (_ =? _)%Z = false |- _ => apply Z.eqb_neq in H
  | H : (_ <? _)%Z = true |- _ => apply Z.ltb_lt in H
  | H : (_ <? _)%Z = false |- _ => apply Z.ltb_ge in H
  | H : (_ <=? _)%Z = true |- _ => apply Z.leb_le in H
  | H : (_ <=? _)%Z = false |- _ => apply Z.leb_gt in H
  | H : (_ =? _)%nat = true |- _ => apply Nat.eqb_eq in H
  | H : (_ =? _)%nat = false |- _ => apply Nat.eqb_neq in H
  | H : (_ <? _)%nat = true |- _ => apply Nat.ltb_lt in H
  | H : (_ <? _)%nat = false |- _ => apply Nat.ltb_ge in H
  | H : (_ <=? _)%nat = true |- _ => apply Nat.leb_le in H
  | H : (_ <=? _)%nat = false |- _ => apply Nat.leb_gt in H
  | H : bool_decide _ = true |- _ => apply bool_decide_eq_true in H
  | H : bool_decide _ = false |- _ => apply bool_decide_eq_false in H
  end.

(** ** Lists *)

(** [std::copy] of [xs] over [l] starting at index [i]. *)
Definition splice {A} (i : nat) (xs l : list A) : list A :=
  take i l ++ xs ++ drop (i + length xs) l.

(** [std::vector::resize(n)], new elements being [d]. *)
Definition vec_resize {A} (n : nat) (d : A) (l : list A) : list A :=
  take n l ++ replicate (n - length l) d.

(** The elements of [l] at the indices [i .. j). *)
Definition slice {A} (i j : nat) (l : list A) : list A := take (j - i) (drop i l).

Section Lists.
Context {A : Type}.
Implicit Types l xs : list A.

Lemma length_splice i xs l :
  i + length xs ≤ length l → length (splice i xs l) = length l.
Proof.
  intros ?. unfold splice. rewrite !length_app, length_take, length_drop. lia.
Qed.

Lemma length_vec_resize n d l : length (vec_resize n d l) = n.
Proof. unfold vec_resize. rewrite length_app, length_take, length_replicate. lia. Qed.

Lemma length_slice i j l : i ≤ j → j ≤ length l → length (slice i j l) = j - i.
Proof. intros. unfold slice. rewrite length_take, length_drop. lia. Qed.

Lemma slice_splice_snoc i j xs l :
  i ≤ j → j + length xs ≤ length l →
  slice i (j + length xs) (splice j xs l) = slice i j l ++ xs.
Proof.
  intros Hij Hlen. unfold slice, splice.
  rewrite drop_app_le by (rewrite length_take; lia).
  rewrite skipn_firstn_comm.
  rewrite take_app_ge by (rewrite length_take, length_drop; lia).
  f_equal. rewrite take_app_le by (rewrite length_take, length_drop; lia).
  rewrite length_take, length_drop. apply take_ge. lia.
Qed.

Lemma slice_vec_resize i j n d l :
  j ≤ length l → j ≤ n → slice i j (vec_resize n d l) = slice i j l.
Proof.
  intros Hj Hn. unfold slice, vec_resize.
  destruct (decide (i ≤ j)) as [Hij|].
  2: { by replace (j - i) with 0 by lia. }
  rewrite drop_app_le by (rewrite length_take; lia).
  rewrite take_app_le by (rewrite length_drop, length_take; lia).
  rewrite skipn_firstn_comm, take_take. f_equal. lia.
Qed.

Lemma slice_splice_same i xs l :
  i + length xs ≤ length l → slice i (i + length xs) (splice i xs l) = xs.
Proof.
  intros Hlen. unfold slice, splice.
  rewrite drop_app_ge by (rewrite length_take; lia).
  rewrite length_take_le by lia. rewrite Nat.sub_diag, drop_0.
  rewrite take_app_le by lia. apply take_ge. lia.
Qed.

Lemma slice_drop k i j l : k ≤ j - i → slice (i + k) j l = drop k (slice i j l).
Proof.
  intros. unfold slice. rewrite skipn_firstn_comm, drop_drop. f_equal. lia.
Qed.

Lemma slice_take k i j l : k ≤ j - i → slice i (i + k) l = take k (slice i j l).
Proof. intros. unfold slice. rewrite take_take. f_equal. lia. Qed.

Lemma slice_empty i l : slice i i l = [].
Proof. unfold slice. by rewrite Nat.sub_diag. Qed.

End Lists.

(** ** Runs and refinement *)

(** A sequence of operations, stopping at the first one that fails. *)
Fixpoint run {S O : Type} (step : S → O → option S) (s : S) (ops : list O) : option S :=
  match ops with
  | [] => Some s
  | op :: ops' => s' ← step s op; run step s' ops'
  end.

Lemma run_app {S O : Type} (step : S → O → option S) ops ops' s :
  run step s (ops ++ ops') = s' ← run step s ops; run step s' ops'.
Proof. revert s. induction ops as [|op ops IH]; intros s; simpl; [done|]. by destruct (step s op); simpl. Qed.

(** Both sides fail, or both succeed with related states. *)
Definition lift_opt {A B} (R : A → B → Prop) (x : option A) (y : option B) : Prop :=
  match x, y with
  | Some a, Some b => R a b
  | None, None => True
  | _, _ => False
  end.

Lemma run_refines {S T O : Type} (R : S → T → Prop) stepS stepT :
  (∀ s t (op : O), R s t → lift_opt R (stepS s op) (stepT t op)) →
  ∀ ops s t, R s t → lift_opt R (run stepS s ops) (run stepT t ops).
Proof.
  intros Hstep ops. induction ops as [|op ops IH]; intros s t HR; [done|].
  pose proof (Hstep s t op HR) as Hs. simpl.
  destruct (stepS s op), (stepT t op); try done. by apply IH.
Qed.

Lemma run_invariant {S O : Type} (P : S → Prop) (step : S → O → option S) :
  (∀ s op s', P s → step s op = Some s' → P s') →
  ∀ ops s s', P s → run step s ops = Some s' → P s'.
Proof.
  intros Hstep ops. induction ops as [|op ops IH]; simpl; intros s s' HP Hr.
  - by simplify_eq.
  - destruct (step s op) as [s1|] eqn:E; simplify_eq/=. by eapply IH, Hr; eauto.
Qed.

(** ** Sums over maps *)

Definition total {K A} `{Countable K} (f : K → A → Z) (m : gmap K A) : Z :=
  map_fold (λ k a acc, (f k a + acc)%Z) 0%Z m.

Section Totals.
Context {K A : Type} `{Countable K}.
Implicit Types (f g : K → A → Z) (m : gmap K A).
Local Open Scope Z_scope.

Lemma total_empty f : total f ∅ = 0.
Proof. apply map_fold_empty. Qed.

Lemma total_insert_new f m k a : m !! k = None → total f (<[k := a]> m) = f k a + total f m.
Proof.
  intros Hk. unfold total.
  apply (map_fold_insert_L (λ k a acc, f k a + acc) 0 k a m); [intros; lia|done].
Qed.

Lemma total_delete f m k a : m !! k = Some a → total f (delete k m) = total f m - f k a.
Proof.
  intros Hk. rewrite <-(insert_id m k a Hk) at 2. rewrite <-insert_delete_eq.
  rewrite total_insert_new by apply lookup_delete_eq. lia.
Qed.

Lemma total_insert_old f m k a b :
  m !! k = Some a → total f (<[k := b]> m) = total f m - f k a + f k b.
Proof.
  intros Hk. rewrite <-insert_delete_eq, total_insert_new by apply lookup_delete_eq.
  rewrite (total_delete f m k a Hk). lia.
Qed.

Lemma total_nonneg f m : (∀ k a, m !! k = Some a → 0 ≤ f k a) → 0 ≤ total f m.
Proof.
  induction m as [|k a m Hk IH] using map_ind; intros Hf; [by rewrite total_empty|].
  rewrite total_insert_new by done. assert (0 ≤ f k a) by (apply Hf, lookup_insert_eq).
  assert (0 ≤ total f m); [|lia]. apply IH. intros j b Hj. apply Hf.
  rewrite lookup_insert_ne; [done|]. congruence.
Qed.

(** A sum of non-negative terms bounds each of them. *)
Lemma total_lookup_le f m k a :
  (∀ k a, m !! k = Some a → 0 ≤ f k a) → m !! k = Some a → f k a ≤ total f m.
Proof.
  intros Hf Hk. pose proof (total_delete f m k a Hk).
  assert (0 ≤ total f (delete k m)); [|lia].
  apply total_nonneg. intros j b [_ Hj]%lookup_delete_Some. by apply Hf.
Qed.

Lemma total_ext f g m : (∀ k a, m !! k = Some a → f k a = g k a) → total f m = total g m.
Proof.
  induction m as [|k a m Hk IH] using map_ind; intros Hf; [by rewrite !total_empty|].
  rewrite !total_insert_new by done. f_equal; [apply Hf, lookup_insert_eq|].
  apply IH. intros j b Hj. apply Hf. rewrite lookup_insert_ne; [done|]. congruence.
Qed.

Lemma total_zero f m : (∀ k a, m !! k = Some a → f k a = 0) → total f m = 0.
Proof.
  induction m as [|k a m Hk IH] using map_ind; intros Hf; [by rewrite total_empty|].
  rewrite total_insert_new by done. rewrite IH, Hf; [done|apply lookup_insert_eq|].
  intros j b Hj. apply Hf. rewrite lookup_insert_ne; [done|]. congruence.
Qed.

Lemma total_plus f g m : total (λ k a, f k a + g k a) m = total f m + total g m.
Proof.
  induction m as [|k a m Hk IH] using map_ind; [by rewrite !total_empty|].
  rewrite !total_insert_new by done. lia.
Qed.

Lemma total_size m : total (λ _ _, 1) m = Z.of_nat (size m).
Proof.
  induction m as [|k a m Hk IH] using map_ind; [by rewrite total_empty, map_size_empty|].
  rewrite total_insert_new, map_size_insert_None by done. lia.
Qed.

End Totals.

#[global] Arguments total : simpl never.

(** Rewrites the sums of a map that changed at one key. *)
Ltac totals :=
  repeat first
    [ erewrite total_insert_new by eassumption
    | erewrite total_insert_old by eassumption
    | erewrite total_delete by eassumption ].

(** An element replaced is an element deleted and one added. *)
Lemma insert_Permutation {A} (l : list A) i x y :
  l !! i = Some x → <[i := y]> l ≡ₚ y :: delete i l.
Proof.
  revert i. induction l as [|z l IH]; intros [|i] Hi; simplify_eq/=; [done|].
  rewrite (IH i Hi). apply Permutation_swap.
Qed.

(** ** Sums over lists *)

Definition lsum {A} (f : A → Z) (l : list A) : Z := foldr (λ x acc, (f x + acc)%Z) 0%Z l.

#[global] Arguments lsum : simpl never.

(** The indicator of a decidable fact. *)
Definition ind (P : Prop) `{Decision P} : Z := if decide P then 1%Z else 0%Z.

Section ListSums.
Context {A : Type}.
Implicit Types (f g : A → Z) (l : list A).
Local Open Scope Z_scope.

Lemma lsum_nil f : lsum f [] = 0.
Proof. done. Qed.

Lemma lsum_cons f x l : lsum f (x :: l) = f x + lsum f l.
Proof. done. Qed.

Lemma lsum_app f l k : lsum f (l ++ k) = lsum f l + lsum f k.
Proof. unfold lsum. induction l as [|x l IH]; cbn; [done|]. rewrite IH. lia. Qed.

Lemma lsum_snoc f l x : lsum f (l ++ [x]) = lsum f l + f x.
Proof. rewrite lsum_app. unfold lsum. cbn. lia. Qed.

Lemma lsum_delete f l i x : l !! i = Some x → lsum f (delete i l) = lsum f l - f x.
Proof.
  revert i. induction l as [|y l IH]; intros [|i] Hi; simplify_eq/=; rewrite ?lsum_cons; [lia|].
  rewrite (IH i Hi). lia.
Qed.

Lemma lsum_insert f l i x y :
  l !! i = Some x → lsum f (<[i := y]> l) = lsum f l - f x + f y.
Proof.
  revert i. induction l as [|z l IH]; intros [|i] Hi; simplify_eq/=; rewrite ?lsum_cons; [lia|].
  rewrite IH by done. lia.
Qed.

Lemma lsum_nonneg f l : (∀ x, 0 ≤ f x) → 0 ≤ lsum f l.
Proof. intros Hf. induction l as [|x l IH]; [done|]. rewrite lsum_cons. specialize (Hf x). lia. Qed.

Lemma lsum_lookup_le f l i x : (∀ x, 0 ≤ f x) → l !! i = Some x → f x ≤ lsum f l.
Proof.
  intros Hf Hi. pose proof (lsum_delete f l i x Hi). pose proof (lsum_nonneg f (delete i l) Hf). lia.
Qed.

Lemma lsum_ext f g l : (∀ x, x ∈ l → f x = g x) → lsum f l = lsum g l.
Proof.
  induction l as [|x l IH]; intros Hf; [done|]. rewrite !lsum_cons, (Hf x), IH; [done| |left].
  intros y Hy. apply Hf. by right.
Qed.

Lemma lsum_plus f g l : lsum (λ x, f x + g x) l = lsum f l + lsum g l.
Proof. unfold lsum. induction l as [|x l IH]; cbn; [done|]. lia. Qed.

Lemma lsum_one l : lsum (λ _, 1) l = Z.of_nat (length l).
Proof. unfold lsum. induction l as [|x l IH]; cbn -[Z.of_nat]; [done|]. lia. Qed.

Lemma lsum_fmap {B} f (g : B → A) (l : list B) : lsum f (g <$> l) = lsum (λ x, f (g x)) l.
Proof. unfold lsum. induction l as [|x l IH]; cbn; [done|]. by rewrite <-IH. Qed.

Lemma lsum_le f g l : (∀ x, f x ≤ g x) → lsum f l ≤ lsum g l.
Proof.
  intros Hf. induction l as [|x l IH]; [done|]. rewrite !lsum_cons. specialize (Hf x). lia.
Qed.

Lemma lsum_pos f l : (∀ x, 0 ≤ f x) → 0 < lsum f l → ∃ x, x ∈ l ∧ 0 < f x.
Proof.
  intros Hf. induction l as [|x l IH]; [done|]. rewrite lsum_cons. intros Hl.
  destruct (decide (0 < f x)).
  - exists x. by split; [left|].
  - destruct IH as (y & ? & ?); [specialize (Hf x); lia|]. exists y. by split; [right|].
Qed.

Lemma lsum_elem_le f l x : (∀ x, 0 ≤ f x) → x ∈ l → f x ≤ lsum f l.
Proof. intros Hf [i Hi]%list_elem_of_lookup. by eapply lsum_lookup_le. Qed.

#[global] Instance lsum_perm f : Proper ((≡ₚ) ==> (=)) (lsum f).
Proof. intros l k Hlk. unfold lsum. induction Hlk; cbn; lia. Qed.

End ListSums.

Lemma ind_true (P : Prop) `{Decision P} : P → ind P = 1%Z.
Proof. intros. unfold ind. by rewrite decide_True. Qed.
Lemma ind_false (P : Prop) `{Decision P} : ¬ P → ind P = 0%Z.
Proof. intros. unfold ind. by rewrite decide_False. Qed.
Lemma ind_range (P : Prop) `{Decision P} : (0 ≤ ind P ≤ 1)%Z.
Proof. unfold ind. destruct (decide P); lia. Qed.

(** Rewrites the sums of lists that changed at one position. *)
Ltac lsums :=
  repeat first
    [ rewrite lsum_snoc
    | rewrite lsum_cons
    | erewrite lsum_delete by eassumption
    | erewrite lsum_insert by eassumption ].
