(* ===== verification/ByteStrings.v ===== *)
(** * Byte strings

    [std::string] as the list of its bytes: literals, and the lexicographic order
    on unsigned bytes by which [std::map<std::string, ...>] and the storage engine
    order their keys, with the lemmas on prefixes that range scans rest on. *)
From Stdlib Require Import ZArith Lia.
From Stdlib Require String Ascii.
From stdpp Require Import base list numbers sorting.
From S2P Require Import Prelude.

Local Open Scope Z_scope.

(** The bytes of a literal. *)
Fixpoint str (s : String.string) : list Z :=
  match s with
  | String.EmptyString => []
  | String.String c s => Z.of_N (Ascii.N_of_ascii c) :: str s
  end.

(** [size()] and [empty()]. *)
Definition bsize (s : list Z) : Z := Z.of_nat (length s).
Definition bempty (s : list Z) : bool := match s with [] => true | _ => false end.

(** ** The order *)

Fixpoint lex (a b : list Z) : comparison :=
  match a, b with
  | [], [] => Eq
  | [], _ => Lt
  | _, [] => Gt
  | x :: a, y :: b => match x ?= y with Eq => lex a b | c => c end
  end.

Definition blt (a b : list Z) : Prop := lex a b = Lt.
Definition ble (a b : list Z) : Prop := lex a b ≠ Gt.

#[export] Instance blt_dec a b : Decision (blt a b).
Proof. unfold blt. solve_decision. Defined.
#[export] Instance ble_dec a b : Decision (ble a b).
Proof. unfold ble. solve_decision. Defined.

Lemma lex_refl a : lex a a = Eq.
Proof. induction a as [|x a IH]; [done|]. cbn. by rewrite Z.compare_refl. Qed.

Lemma lex_eq a b : lex a b = Eq ↔ a = b.
Proof.
  split; [|intros ->; apply lex_refl].
  revert b. induction a as [|x a IH]; intros [|y b]; try done. cbn.
  destruct (Z.compare_spec x y) as [->| |]; try done. by intros ->%IH.
Qed.

Lemma lex_antisym a b : lex b a = CompOpp (lex a b).
Proof.
  revert b. induction a as [|x a IH]; intros [|y b]; try done. cbn.
  rewrite (Z.compare_antisym x y). destruct (x ?= y); [apply IH|done|done].
Qed.

Lemma blt_irrefl a : ¬ blt a a.
Proof. unfold blt. by rewrite lex_refl. Qed.

Lemma blt_cons x a y b : blt (x :: a) (y :: b) ↔ x < y ∨ x = y ∧ blt a b.
Proof.
  unfold blt. cbn. destruct (Z.compare_spec x y); split; try done; try (by left); try (by right).
  all: intros [?|[? ?]]; (done || lia).
Qed.

#[export] Instance blt_trans : Transitive blt.
Proof.
  intros a b c. revert b c.
  induction a as [|x a IH]; intros [|y b] [|z c]; try done.
  rewrite !blt_cons. intros [?|[-> ?]] [?|[-> ?]]; try (left; lia).
  right. split; [done|]. by eapply IH.
Qed.

Lemma ble_blt a b : ble a b ↔ a = b ∨ blt a b.
Proof.
  unfold ble, blt. split.
  - destruct (lex a b) eqn:E; try done; [left; by apply lex_eq|by right].
  - intros [->|E]; [by rewrite lex_refl|by rewrite E].
Qed.

Lemma ble_refl a : ble a a.
Proof. rewrite ble_blt. by left. Qed.

Lemma not_ble a b : ¬ ble a b ↔ blt b a.
Proof. unfold ble, blt. rewrite (lex_antisym a b). destruct (lex a b); naive_solver. Qed.

Lemma blt_ble_trans a b c : blt a b → ble b c → blt a c.
Proof. rewrite ble_blt. intros ? [<-|?]; [done|by etrans]. Qed.

Lemma ble_blt_trans a b c : ble a b → blt b c → blt a c.
Proof. rewrite ble_blt. intros [->|?] ?; [done|by etrans]. Qed.

Lemma ble_trans a b c : ble a b → ble b c → ble a c.
Proof. rewrite !ble_blt. intros [->|?] [->|?]; eauto. right. by etrans. Qed.

Lemma blt_ble a b : blt a b → ble a b.
Proof. rewrite ble_blt. by right. Qed.

Lemma blt_app p a b : blt (p ++ a) (p ++ b) ↔ blt a b.
Proof. induction p as [|x p IH]; [done|]. cbn. rewrite blt_cons. naive_solver lia. Qed.

Lemma ble_app p a b : ble (p ++ a) (p ++ b) ↔ ble a b.
Proof. rewrite !ble_blt, blt_app. naive_solver. Qed.

(** ** Prefixes *)

(** [starts_with]. *)
Definition starts_with (p k : list Z) : bool := bool_decide (p `prefix_of` k).

Lemma ble_prefix p k : p `prefix_of` k → ble p k.
Proof.
  intros [t ->]. rewrite <- (app_nil_r p) at 1. rewrite ble_app. by destruct t.
Qed.

(** What lies between a prefix and a key with that prefix has the prefix. *)
Lemma prefix_convex p k k' : ble p k → ble k k' → p `prefix_of` k' → p `prefix_of` k.
Proof.
  intros H1 H2 [t ->]. revert k H1 H2. induction p as [|x p IH]; intros k H1 H2; [apply prefix_nil|].
  destruct k as [|y k]; [done|]. cbn in H2.
  rewrite ble_blt in H1, H2. rewrite !blt_cons in H1, H2.
  assert (x = y) as <-.
  { destruct H1 as [[= <-]|[?|[? _]]], H2 as [[= ->]|[?|[? _]]]; try lia; done. }
  apply prefix_cons, IH; rewrite ble_blt.
  - destruct H1 as [[= ?]|[?|[_ ?]]]; [by left|lia|by right].
  - destruct H2 as [[= ?]|[?|[_ ?]]]; [by left|lia|by right].
Qed.

(** Keys above a prefix without having it are above every key that has it. *)
Lemma prefix_above p k k' :
  ble p k → ¬ p `prefix_of` k → p `prefix_of` k' → blt k' k.
Proof.
  intros H1 Hn H2. apply not_ble. intros H3. by apply Hn, (prefix_convex p k k').
Qed.

(** A scan from a prefix on that stops at the first key without it finds the keys
    with the prefix. *)
Fixpoint take_while {A} (P : A → bool) (l : list A) : list A :=
  match l with
  | [] => []
  | x :: l => if P x then x :: take_while P l else []
  end.

Lemma take_while_scan {A} (key : A → list Z) (p : list Z) (l : list A) :
  StronglySorted (λ x y, blt (key x) (key y)) l →
  Forall (λ x, ble p (key x)) l →
  take_while (λ x, starts_with p (key x)) l = filter (λ x, p `prefix_of` key x) l.
Proof.
  intros Hs Hf. induction l as [|x l IH]; [done|].
  apply StronglySorted_cons in Hs as [Hx Hs]. apply list.Forall_cons in Hf as [Hp Hf].
  cbn [take_while]. unfold starts_with at 1. case_bool_decide as Hpre.
  - rewrite list.filter_cons_True by done. f_equal. by apply IH.
  - rewrite list.filter_cons_False by done. symmetry. clear IH.
    induction l as [|y l IH]; [done|].
    apply list.Forall_cons in Hx as [Hy Hx]. apply list.Forall_cons in Hf as [Hpy Hf].
    apply StronglySorted_cons in Hs as [_ Hs].
    rewrite list.filter_cons_False; [by apply IH|].
    intros Hpre'. apply Hpre, (prefix_convex p (key x) (key y)); [done| |done].
    by apply blt_ble.
Qed.

(** Sublists of sorted lists are sorted. *)
Lemma sorted_sublist {B} (R : B → B → Prop) (l l' : list B) :
  l `sublist_of` l' → StronglySorted R l' → StronglySorted R l.
Proof.
  intros Hl. induction Hl as [|x l l' Hl IH|x l l' Hl IH]; intros Hs; [constructor|..];
    apply StronglySorted_cons in Hs as [Hx Hs]; [|by apply IH].
  apply StronglySorted_cons. split; [|by apply IH]. rewrite list.Forall_forall in Hx |- *. intros y Hy. apply Hx.
  by eapply elem_of_sublist.
Qed.

(** ** Numbers as text *)

(** [std::to_string] of a number of at most twenty digits. *)
Fixpoint digits (fuel : nat) (n : Z) (acc : list Z) : list Z :=
  match fuel with
  | O => acc
  | S fuel =>
      let acc := (48 + n `mod` 10) :: acc in
      if n <? 10 then acc else digits fuel (n `div` 10) acc
  end.
Definition to_string (n : Z) : list Z := digits 20 n [].

Lemma digits_value fuel n acc :
  0 ≤ n < 10 ^ Z.of_nat fuel →
  ∃ ds, digits fuel n acc = ds ++ acc ∧ foldl (λ v d, 10 * v + (d - 48)) 0 ds = n ∧
        Forall (λ d, 48 ≤ d ≤ 57) ds.
Proof.
  revert n acc. induction fuel as [|fuel IH]; intros n acc Hn.
  { exists []. cbn in *. repeat split; [lia|constructor]. }
  cbn [digits]. pose proof (Z.mod_pos_bound n 10) as Hm. destruct (Z.ltb_spec n 10) as [Hlt|Hlt].
  - exists [48 + n `mod` 10]. split; [done|]. cbn. rewrite Z.mod_small by lia. split; [lia|].
    repeat constructor; lia.
  - destruct (IH (n `div` 10) ((48 + n `mod` 10) :: acc)) as (ds & -> & Hv & Hf).
    { rewrite Nat2Z.inj_succ, Z.pow_succ_r in Hn by lia. split; [apply Z.div_pos; lia|].
      apply Z.div_lt_upper_bound; lia. }
    exists (ds ++ [48 + n `mod` 10]). split; [by rewrite <- app_assoc|]. rewrite foldl_app, Hv. cbn.
    split; [|apply Forall_app; repeat constructor; auto; lia].
    pose proof (Z.div_mod n 10). lia.
Qed.

Lemma to_string_inj m n : is_u64 m → is_u64 n → to_string m = to_string n → m = n.
Proof.
  unfold is_u64, to_string. intros Hm Hn Heq.
  destruct (digits_value 20 m []) as (ds & Em & Vm & _); [lia|].
  destruct (digits_value 20 n []) as (ds' & En & Vn & _); [lia|].
  rewrite Em, En, !app_nil_r in Heq. by rewrite <- Vm, <- Vn, Heq.
Qed.

Lemma to_string_digits n : is_u64 n → Forall (λ d, 48 ≤ d ≤ 57) (to_string n).
Proof.
  unfold is_u64, to_string. intros Hn. destruct (digits_value 20 n []) as (ds & -> & _ & Hf); [lia|].
  by rewrite app_nil_r.
Qed.

(** Two lists cut at the first occurrence of an element. *)
Lemma split_at {A} (c : A) (a a' b b' : list A) :
  c ∉ a → c ∉ a' → a ++ c :: b = a' ++ c :: b' → a = a' ∧ b = b'.
Proof.
  revert a'. induction a as [|x a IH]; intros [|y a'] Ha Ha' Heq; simplify_eq/=; [done|..].
  - by destruct Ha'; left.
  - by destruct Ha; left.
  - apply not_elem_of_cons in Ha as [_ Ha], Ha' as [_ Ha']. by destruct (IH a') as [-> ->].
Qed.

Lemma digits_chars fuel n acc : Forall (λ d, 48 ≤ d ≤ 57) acc → Forall (λ d, 48 ≤ d ≤ 57) (digits fuel n acc).
Proof.
  revert n acc. induction fuel as [|fuel IH]; intros n acc Hacc; [done|]. cbn [digits].
  assert (Forall (λ d, 48 ≤ d ≤ 57) ((48 + n `mod` 10) :: acc)).
  { constructor; [|done]. pose proof (Z.mod_pos_bound n 10). lia. }
  destruct (_ <? _); [done|]. by apply IH.
Qed.

(** A character that is not a digit. *)
Lemma to_string_no n c : ¬ 48 ≤ c ≤ 57 → c ∉ to_string n.
Proof.
  intros Hc Hin. pose proof (digits_chars 20 n [] ltac:(constructor)) as Hf.
  by apply Hc, (proj1 (list.Forall_forall _ _) Hf _ Hin).
Qed.

Lemma digits_length fuel : ∀ n acc, (fuel ≠ 0 → length acc < length (digits fuel n acc))%nat ∧
  (length (digits fuel n acc) ≤ fuel + length acc)%nat.
Proof.
  induction fuel as [|fuel IH]; intros n acc; [done|]. cbn [digits].
  case (n <? 10); cbn; [lia|]. destruct (IH (n `div` 10) ((48 + n `mod` 10) :: acc)) as [H1 H2].
  cbn in *. destruct fuel; cbn in *; lia.
Qed.

Lemma to_string_not_nil n : to_string n ≠ [].
Proof.
  unfold to_string. destruct (digits_length 20 n []) as [H _]. intros E. rewrite E in H. cbn in H. lia.
Qed.

Lemma to_string_length n : is_u64 n → (0 < length (to_string n) ≤ 20)%nat.
Proof.
  intros _. unfold to_string. destruct (digits_length 20 n []) as [H1 H2]. cbn [length] in *.
  split; [apply H1; lia|lia].
Qed.

(** ** White space *)

(** [std::isspace] in the C locale. *)
Definition isspace (c : Z) : bool := ((9 <=? c) && (c <=? 13)) || (c =? 32).

(** [erase(begin, find_if(not_space))]. *)
Fixpoint TrimLeft (s : list Z) : list Z :=
  match s with
  | [] => []
  | c :: s' => if isspace c then TrimLeft s' else s
  end.

Lemma TrimLeft_spec s : ∃ l, s = l ++ TrimLeft s ∧ Forall (λ c, isspace c = true) l ∧
  ∀ c r, TrimLeft s = c :: r → isspace c = false.
Proof.
  induction s as [|c s (l & Hs & Hl & Hc)]; simpl; [by exists []|].
  destruct (isspace c) eqn:Hi.
  - exists (c :: l). split; [by rewrite Hs at 1|]. split; [by constructor|done].
  - exists []. split; [done|]. split; [constructor|]. by intros ?? [= <- _].
Qed.
