(* ===== verification/Buffer.v ===== *)
(** * The byte buffer of the network layer

    Models [src/common/net/Buffer.h] and [src/common/net/Buffer.cpp]: a vector
    with a reader and a writer index, the eight byte prepend area included.
    Operations whose [assert] fails return [None].  [ByteBuffer] is what the
    frame codec relies on; the last section shows that [Buffer] provides it. *)
From Stdlib Require Import ZArith Lia.
From Stdlib.Strings Require Import Byte.
From stdpp Require Import base list numbers.
From S2P Require Import Prelude.

(** ** State *)

Definition kCheapPrepend : nat := 8.
Definition kInitialSize : nat := 1024.
Definition kExtraBufferSize : Z := 65536.

Record Buffer := MkBuffer {
  buffer_ : list byte;
  reader_index_ : nat;
  writer_index_ : nat;
}.

(** ** Operations *)

(** [Buffer::Buffer]. *)
Definition NewBuffer (initial_size : nat) : Buffer :=
  MkBuffer (replicate (kCheapPrepend + initial_size) x00) kCheapPrepend kCheapPrepend.

Definition ReadableBytes (b : Buffer) : nat := writer_index_ b - reader_index_ b.

Definition WritableBytes (b : Buffer) : nat := length (buffer_ b) - writer_index_ b.

Definition PrependableBytes (b : Buffer) : nat := reader_index_ b.

(** [Peek()] points at the readable bytes; this is what may be read there. *)
Definition Peek (b : Buffer) : list byte :=
  slice (reader_index_ b) (writer_index_ b) (buffer_ b).

Definition HasWritten (b : Buffer) (len : nat) : option Buffer :=
  if len <=? WritableBytes b
  then Some (MkBuffer (buffer_ b) (reader_index_ b) (writer_index_ b + len))
  else None.

Definition Unwrite (b : Buffer) (len : nat) : option Buffer :=
  if len <=? ReadableBytes b
  then Some (MkBuffer (buffer_ b) (reader_index_ b) (writer_index_ b - len))
  else None.

Definition RetrieveAll (b : Buffer) : Buffer :=
  MkBuffer (buffer_ b) kCheapPrepend kCheapPrepend.

Definition Retrieve (b : Buffer) (len : nat) : option Buffer :=
  if len <=? ReadableBytes b then
    if len <? ReadableBytes b
    then Some (MkBuffer (buffer_ b) (reader_index_ b + len) (writer_index_ b))
    else Some (RetrieveAll b)
  else None.

(** [RetrieveUntil(end)]: the pointer is given as its offset from [Begin()]. *)
Definition RetrieveUntil (b : Buffer) (end_ : nat) : option Buffer :=
  if (reader_index_ b <=? end_) && (end_ <=? writer_index_ b)
  then Retrieve b (end_ - reader_index_ b)
  else None.

Definition RetrieveAsString (b : Buffer) (len : nat) : option (list byte * Buffer) :=
  if len <=? ReadableBytes b
  then let result := take len (Peek b) in
       b' ← Retrieve b len; Some (result, b')
  else None.

Definition RetrieveAllAsString (b : Buffer) : option (list byte * Buffer) :=
  RetrieveAsString b (ReadableBytes b).

Definition MakeSpace (b : Buffer) (len : nat) : Buffer :=
  if WritableBytes b + PrependableBytes b <? len + kCheapPrepend
  then MkBuffer (vec_resize (writer_index_ b + len) x00 (buffer_ b))
                (reader_index_ b) (writer_index_ b)
  else
    let readable := ReadableBytes b in
    MkBuffer (splice kCheapPrepend (Peek b) (buffer_ b))
             kCheapPrepend (kCheapPrepend + readable).

Definition EnsureWritableBytes (b : Buffer) (len : nat) : Buffer :=
  if len <=? WritableBytes b then b else MakeSpace b len.

(** The copy of [data] to [BeginWrite()]. *)
Definition CopyToBeginWrite (b : Buffer) (data : list byte) : Buffer :=
  MkBuffer (splice (writer_index_ b) data (buffer_ b)) (reader_index_ b) (writer_index_ b).

(** [Append]; a null [data] pointer is [None]. *)
Definition Append (b : Buffer) (data : option (list byte)) : option Buffer :=
  match data with
  | None => Some b
  | Some data =>
      if length data =? 0 then Some b
      else HasWritten (CopyToBeginWrite (EnsureWritableBytes b (length data)) data)
                      (length data)
  end.

(** What a system call reports: an [errno], or its data. *)
Inductive SysResult (A : Type) :=
| SysError (errno : Z)
| SysOk (a : A).
Arguments SysError {A} errno.
Arguments SysOk {A} a.

(** The bytes [readv] may store: the writable area, and the stack buffer when
    the writable area is smaller than it. *)
Definition ReadCapacity (b : Buffer) : Z :=
  let writable := Z.of_nat (WritableBytes b) in
  if (writable <? kExtraBufferSize)%Z then (writable + kExtraBufferSize)%Z else writable.

(** [ReadFd]: [r] is what [readv] does, the bytes it stored in order over the
    two areas. *)
Definition ReadFd (b : Buffer) (r : SysResult (list byte)) : option (Buffer * SysResult nat) :=
  match r with
  | SysError e => Some (b, SysError e)
  | SysOk data =>
      let writable := WritableBytes b in
      let n := length data in
      if n <=? writable then
        Some (MkBuffer (splice (writer_index_ b) data (buffer_ b))
                       (reader_index_ b) (writer_index_ b + n), SysOk n)
      else
        let b1 := MkBuffer (splice (writer_index_ b) (take writable data) (buffer_ b))
                           (reader_index_ b) (length (buffer_ b)) in
        b2 ← Append b1 (Some (drop writable data));
        Some (b2, SysOk n)
  end.

(** [WriteFd]: [r] is what [write] does, the number of bytes it accepted; it is
    called with the readable bytes only when there are some. *)
Definition WriteFd (b : Buffer) (r : SysResult nat) : option (Buffer * SysResult nat) :=
  if ReadableBytes b =? 0 then Some (b, SysOk 0)
  else match r with
       | SysError e => Some (b, SysError e)
       | SysOk n => b' ← Retrieve b n; Some (b', SysOk n)
       end.

(** ** Well-formedness *)

(** The prepend area, the readable bytes and the writable area partition the
    vector. *)
Definition wf (b : Buffer) : Prop :=
  kCheapPrepend ≤ reader_index_ b ≤ writer_index_ b ∧
  writer_index_ b ≤ length (buffer_ b).

Lemma wf_NewBuffer n : wf (NewBuffer n).
Proof. unfold wf, NewBuffer, kCheapPrepend; simpl. rewrite length_replicate. lia. Qed.

Lemma Peek_NewBuffer n : Peek (NewBuffer n) = [].
Proof. apply slice_empty. Qed.

Lemma length_Peek b : wf b → length (Peek b) = ReadableBytes b.
Proof. intros [[??]?]. apply length_slice; lia. Qed.

Lemma MakeSpace_spec b len :
  wf b → WritableBytes b < len →
  wf (MakeSpace b len) ∧ Peek (MakeSpace b len) = Peek b ∧
  len ≤ WritableBytes (MakeSpace b len).
Proof.
  intros Hwf Hlt. pose proof (length_Peek b Hwf) as Hpk. destruct Hwf as [[??]?].
  unfold MakeSpace, wf, WritableBytes, PrependableBytes, ReadableBytes, kCheapPrepend in *.
  destruct (Nat.ltb_spec (length (buffer_ b) - writer_index_ b + reader_index_ b)
                         (len + 8)); simpl.
  - rewrite length_vec_resize. split_and!; try lia.
    apply slice_vec_resize; simpl; lia.
  - rewrite length_splice by lia. split_and!; try lia.
    unfold Peek at 1; cbn [buffer_ reader_index_ writer_index_].
    rewrite <-Hpk. apply (slice_splice_same 8). lia.
Qed.

Lemma EnsureWritableBytes_spec b len :
  wf b →
  wf (EnsureWritableBytes b len) ∧ Peek (EnsureWritableBytes b len) = Peek b ∧
  len ≤ WritableBytes (EnsureWritableBytes b len).
Proof.
  intros Hwf. unfold EnsureWritableBytes.
  destruct (Nat.leb_spec len (WritableBytes b)); [done|].
  by apply MakeSpace_spec.
Qed.

(** Writing [data] in the writable area and advancing the writer index. *)
Lemma write_spec b data :
  wf b → length data ≤ WritableBytes b →
  let b' := MkBuffer (splice (writer_index_ b) data (buffer_ b))
                     (reader_index_ b) (writer_index_ b + length data) in
  wf b' ∧ Peek b' = Peek b ++ data.
Proof.
  intros [[??]?] Hw. unfold WritableBytes in Hw. split.
  - unfold wf; simpl. rewrite length_splice by lia. lia.
  - apply slice_splice_snoc; lia.
Qed.

Lemma Append_spec b data :
  wf b → ∃ b', Append b (Some data) = Some b' ∧ wf b' ∧ Peek b' = Peek b ++ data.
Proof.
  intros Hwf. unfold Append.
  destruct (Nat.eqb_spec (length data) 0) as [->%nil_length_inv|].
  { exists b. by rewrite app_nil_r. }
  destruct (EnsureWritableBytes_spec b (length data) Hwf) as (Hwf' & Hpk & Hw).
  destruct (write_spec _ data Hwf' Hw) as [Hwf'' Hpk''].
  unfold HasWritten.
  assert (WritableBytes (CopyToBeginWrite (EnsureWritableBytes b (length data)) data)
          = WritableBytes (EnsureWritableBytes b (length data))) as Heq.
  { unfold WritableBytes in *; simpl. destruct Hwf' as [[??]?].
    rewrite length_splice; lia. }
  rewrite Heq. destruct (Nat.leb_spec (length data)
    (WritableBytes (EnsureWritableBytes b (length data)))); [|lia].
  eexists; split_and!; [done..|]. simpl. by rewrite Hpk'', Hpk.
Qed.

Lemma Retrieve_spec b len :
  wf b → len ≤ ReadableBytes b →
  ∃ b', Retrieve b len = Some b' ∧ wf b' ∧ Peek b' = drop len (Peek b).
Proof.
  intros Hwf Hle. pose proof (length_Peek b Hwf) as Hpk.
  destruct Hwf as [[??]?]. unfold Retrieve.
  destruct (Nat.leb_spec len (ReadableBytes b)); [|lia].
  unfold ReadableBytes in *.
  destruct (Nat.ltb_spec len (writer_index_ b - reader_index_ b));
    eexists; split_and!; try done; unfold wf; simpl; try lia.
  - apply slice_drop. lia.
  - rewrite drop_ge by lia. apply slice_empty.
Qed.

Lemma Retrieve_overrun b len : ReadableBytes b < len → Retrieve b len = None.
Proof. intros. unfold Retrieve. destruct (Nat.leb_spec len (ReadableBytes b)); [lia|done]. Qed.

Lemma RetrieveAsString_spec b len :
  wf b → len ≤ ReadableBytes b →
  ∃ b', RetrieveAsString b len = Some (take len (Peek b), b') ∧
        wf b' ∧ Peek b' = drop len (Peek b).
Proof.
  intros Hwf Hle. destruct (Retrieve_spec b len Hwf Hle) as (b' & Hr & ?).
  exists b'. unfold RetrieveAsString. rewrite Hr.
  by destruct (Nat.leb_spec len (ReadableBytes b)); [|lia].
Qed.

Lemma Unwrite_spec b len :
  wf b → len ≤ ReadableBytes b →
  ∃ b', Unwrite b len = Some b' ∧ wf b' ∧
        Peek b' = take (ReadableBytes b - len) (Peek b).
Proof.
  intros [[??]?] Hle. unfold Unwrite.
  destruct (Nat.leb_spec len (ReadableBytes b)); [|lia].
  unfold ReadableBytes in *. eexists; split_and!; [done|unfold wf; simpl; lia|].
  unfold Peek; simpl. rewrite <-slice_take by lia. f_equal. lia.
Qed.

Lemma ReadFd_spec b data :
  wf b →
  ∃ b', ReadFd b (SysOk data) = Some (b', SysOk (length data)) ∧
        wf b' ∧ Peek b' = Peek b ++ data.
Proof.
  intros Hwf. unfold ReadFd.
  destruct (Nat.leb_spec (length data) (WritableBytes b)).
  { destruct (write_spec b data Hwf) as [??]; [done|]. by eexists. }
  destruct (write_spec b (take (WritableBytes b) data) Hwf) as [Hwf1 Hpk1].
  { rewrite length_take. lia. }
  rewrite length_take, Nat.min_l in Hwf1, Hpk1 by lia.
  replace (writer_index_ b + WritableBytes b) with (length (buffer_ b)) in Hwf1, Hpk1
    by (destruct Hwf as [[??]?]; unfold WritableBytes; lia).
  destruct (Append_spec _ (drop (WritableBytes b) data) Hwf1) as (b2 & -> & ? & Hpk2).
  exists b2. split_and!; [done..|]. by rewrite Hpk2, Hpk1, <-app_assoc, take_drop.
Qed.

(** ** The queue a buffer implements *)

(** The operations of a client.  A pointer it hands to [RetrieveUntil] is [Peek()] plus an
    offset; before [HasWritten] it asks for the space and copies the bytes to
    [BeginWrite()], no more than it asked for. *)
Inductive BufferOp :=
| OpAppend (data : list byte)
| OpAppendNull
| OpEnsureWritable (len : nat)
| OpHasWritten (len : nat) (data : list byte)
| OpRetrieve (len : nat)
| OpRetrieveUntil (offset : Z)
| OpRetrieveAll
| OpRetrieveAsString (len : nat)
| OpRetrieveAllAsString
| OpUnwrite (len : nat)
| OpReadFd (r : SysResult (list byte))
| OpWriteFd (r : SysResult nat).

(** An operation on a buffer and the strings handed out so far. *)
Definition buffer_step (st : Buffer * list (list byte)) (op : BufferOp) : option (Buffer * list (list byte)) :=
  let '(b, out) := st in
  let quiet (r : option Buffer) := b ← r; Some (b, out) in
  let answer (r : option (list byte * Buffer)) := '(s, b) ← r; Some (b, out ++ [s]) in
  match op with
  | OpAppend data => quiet (Append b (Some data))
  | OpAppendNull => quiet (Append b None)
  | OpEnsureWritable len => quiet (Some (EnsureWritableBytes b len))
  | OpHasWritten len data =>
      if length data <=? len
      then quiet (HasWritten (CopyToBeginWrite (EnsureWritableBytes b len) data) (length data))
      else None
  | OpRetrieve len => quiet (Retrieve b len)
  | OpRetrieveUntil offset => quiet (RetrieveUntil b (Z.to_nat (Z.of_nat (reader_index_ b) + offset)))
  | OpRetrieveAll => quiet (Some (RetrieveAll b))
  | OpRetrieveAsString len => answer (RetrieveAsString b len)
  | OpRetrieveAllAsString => answer (RetrieveAllAsString b)
  | OpUnwrite len => quiet (Unwrite b len)
  | OpReadFd r => quiet (fst <$> ReadFd b r)
  | OpWriteFd r => quiet (fst <$> WriteFd b r)
  end.

(** Retrieval from a queue. *)
Definition queue_drop (q : list byte) (len : nat) : option (list byte) :=
  if len <=? length q then Some (drop len q) else None.

(** The same operations on the sequence of readable bytes. *)
Definition queue_step (st : list byte * list (list byte)) (op : BufferOp) : option (list byte * list (list byte)) :=
  let '(q, out) := st in
  let quiet (r : option (list byte)) := q ← r; Some (q, out) in
  match op with
  | OpAppend data => Some (q ++ data, out)
  | OpAppendNull | OpEnsureWritable _ => Some (q, out)
  | OpHasWritten len data => if length data <=? len then Some (q ++ data, out) else None
  | OpRetrieve len => quiet (queue_drop q len)
  | OpRetrieveUntil offset => if (offset <? 0)%Z then None else quiet (queue_drop q (Z.to_nat offset))
  | OpRetrieveAll => Some ([], out)
  | OpRetrieveAsString len => q' ← queue_drop q len; Some (q', out ++ [take len q])
  | OpRetrieveAllAsString => Some ([], out ++ [q])
  | OpUnwrite len => if len <=? length q then Some (take (length q - len) q, out) else None
  | OpReadFd (SysError _) => Some (q, out)
  | OpReadFd (SysOk data) => Some (q ++ data, out)
  | OpWriteFd r =>
      if length q =? 0 then Some (q, out)
      else match r with
           | SysError _ => Some (q, out)
           | SysOk n => quiet (queue_drop q n)
           end
  end.

(** [b] holds the queue [q], and the same strings were handed out. *)
Definition represents (st : Buffer * list (list byte)) (sq : list byte * list (list byte)) : Prop :=
  wf st.1 ∧ Peek st.1 = sq.1 ∧ st.2 = sq.2.

Lemma Retrieve_represents b q len :
  wf b → Peek b = q →
  lift_opt (λ b q, wf b ∧ Peek b = q) (Retrieve b len) (queue_drop q len).
Proof.
  intros Hwf <-. unfold queue_drop. rewrite length_Peek by done.
  destruct (Nat.leb_spec len (ReadableBytes b)).
  - by destruct (Retrieve_spec b len) as (? & -> & ?).
  - by rewrite Retrieve_overrun.
Qed.

Lemma quiet_represents (out : list (list byte)) (rb : option Buffer) (rq : option (list byte)) :
  lift_opt (λ b q, wf b ∧ Peek b = q) rb rq →
  lift_opt represents (b ← rb; Some (b, out)) (q ← rq; Some (q, out)).
Proof. destruct rb, rq; cbn; [intros [? ?]; by split_and!|done..]. Qed.

Lemma HasWritten_represents b q len data : wf b → Peek b = q → length data ≤ len →
  lift_opt (λ b q, wf b ∧ Peek b = q)
    (HasWritten (CopyToBeginWrite (EnsureWritableBytes b len) data) (length data)) (Some (q ++ data)).
Proof.
  intros Hwf <- Hle. destruct (EnsureWritableBytes_spec b len Hwf) as (Hwf' & Hpk & Hw).
  unfold HasWritten. assert (WritableBytes (CopyToBeginWrite (EnsureWritableBytes b len) data) =
                             WritableBytes (EnsureWritableBytes b len)) as ->.
  { unfold WritableBytes, CopyToBeginWrite. cbn [buffer_ writer_index_]. f_equal. apply length_splice.
    destruct Hwf'. unfold WritableBytes in Hw. lia. }
  destruct (Nat.leb_spec (length data) (WritableBytes (EnsureWritableBytes b len))); [|lia].
  cbn [lift_opt CopyToBeginWrite buffer_ reader_index_ writer_index_]. rewrite <- Hpk.
  apply write_spec; [done|lia].
Qed.

Lemma RetrieveUntil_represents b q offset : wf b → Peek b = q →
  lift_opt (λ b q, wf b ∧ Peek b = q)
    (RetrieveUntil b (Z.to_nat (Z.of_nat (reader_index_ b) + offset)))
    (if (offset <? 0)%Z then None else queue_drop q (Z.to_nat offset)).
Proof.
  intros Hwf Hq. pose proof (length_Peek b Hwf) as Hlen. pose proof Hwf as [[? ?] ?]. unfold RetrieveUntil.
  destruct (Z.ltb_spec offset 0).
  { destruct (Nat.leb_spec (reader_index_ b) (Z.to_nat (Z.of_nat (reader_index_ b) + offset)));
      [unfold kCheapPrepend in *; lia|done]. }
  destruct (Nat.leb_spec (reader_index_ b) (Z.to_nat (Z.of_nat (reader_index_ b) + offset))); [|lia].
  replace (Z.to_nat (Z.of_nat (reader_index_ b) + offset)) with (reader_index_ b + Z.to_nat offset) by lia.
  cbn [andb]. rewrite Nat.add_comm, Nat.add_sub. unfold ReadableBytes in *.
  destruct (Nat.leb_spec (Z.to_nat offset + reader_index_ b) (writer_index_ b)).
  - by apply Retrieve_represents.
  - unfold queue_drop. subst q. rewrite Hlen.
    destruct (Nat.leb_spec (Z.to_nat offset) (writer_index_ b - reader_index_ b)); [lia|done].
Qed.

Lemma RetrieveAsString_represents b q out len : wf b → Peek b = q →
  lift_opt represents ('(s, b) ← RetrieveAsString b len; Some (b, out ++ [s]))
    (q' ← queue_drop q len; Some (q', out ++ [take len q])).
Proof.
  intros Hwf <-. unfold queue_drop. rewrite length_Peek by done.
  destruct (Nat.leb_spec len (ReadableBytes b)).
  - destruct (RetrieveAsString_spec b len) as (b' & -> & ? & ?); [done|done|]. by split_and!.
  - unfold RetrieveAsString. by destruct (Nat.leb_spec len (ReadableBytes b)); [lia|].
Qed.

Lemma buffer_step_represents st sq op :
  represents st sq → lift_opt represents (buffer_step st op) (queue_step sq op).
Proof.
  destruct st as [b out], sq as [q out']. intros (Hwf & Hq & Ho). cbn [fst snd] in *. subst out'.
  destruct op as [data| |len|len data|len|offset| |len| |len|[e|data]|r]; cbn [buffer_step queue_step].
  - destruct (Append_spec b data Hwf) as (? & -> & ? & ?). split_and!; cbn; congruence.
  - done.
  - destruct (EnsureWritableBytes_spec b len Hwf) as (? & ? & _). split_and!; cbn; congruence.
  - destruct (Nat.leb_spec (length data) len); [|done].
    by apply (quiet_represents out _ (Some (q ++ data))), HasWritten_represents.
  - by apply quiet_represents, Retrieve_represents.
  - pose proof (quiet_represents out _ _ (RetrieveUntil_represents b q offset Hwf Hq)) as H.
    by destruct (offset <? 0)%Z.
  - split_and!; [|apply slice_empty|done]. destruct Hwf as [[??]?].
    unfold wf; cbn [buffer_ reader_index_ writer_index_ RetrieveAll fst]. lia.
  - by apply RetrieveAsString_represents.
  - unfold RetrieveAllAsString. pose proof (RetrieveAsString_represents b q out (ReadableBytes b) Hwf Hq) as H.
    unfold queue_drop in H. rewrite <- Hq, length_Peek, Nat.leb_refl in H by done.
    cbn in H. rewrite drop_ge, take_ge, Hq in H by (rewrite length_Peek; done). exact H.
  - subst q. rewrite length_Peek by done.
    destruct (Nat.leb_spec len (ReadableBytes b)) as [Hle|Hgt].
    + by destruct (Unwrite_spec b len Hwf Hle) as (? & -> & ? & ?).
    + unfold Unwrite. by destruct (Nat.leb_spec len (ReadableBytes b)); [lia|].
  - done.
  - destruct (ReadFd_spec b data Hwf) as (? & -> & ? & ?). split_and!; cbn; congruence.
  - unfold WriteFd. replace (ReadableBytes b) with (length q)
      by (subst q; by apply length_Peek).
    destruct (length q =? 0); [done|]. destruct r as [e|n]; [done|].
    pose proof (quiet_represents out _ _ (Retrieve_represents b q n Hwf Hq)) as HR.
    by destruct (Retrieve b n).
Qed.

(** C4: From any buffer that holds the bytes [q], every sequence of the public operations
    that change a buffer (appends, reservations of space and direct writes to it,
    retrievals by length, up to a pointer, as a string or of everything, roll-backs,
    [readv]s and [write]s) either fails exactly where the byte queue fails, or leaves a
    well-formed buffer holding exactly the bytes of the queue, having handed out the same
    strings: growth and compaction never lose, duplicate or reorder a byte. *)
Theorem buffer_refines_queue b q ops :
  represents b q → lift_opt represents (run buffer_step b ops) (run queue_step q ops).
Proof. apply run_refines, buffer_step_represents. Qed.

Lemma buffer_refines_queue_witness :
  lift_opt represents
    (run buffer_step (NewBuffer 4, [])
       [OpAppend [x01; x02; x03]; OpRetrieveUntil 1; OpRetrieveAsString 1; OpHasWritten 2 [x0b];
        OpReadFd (SysOk [x04; x05; x06; x07; x08; x09; x0a])])
    (Some ([x03; x0b; x04; x05; x06; x07; x08; x09; x0a], [[x02]])).
Proof.
  apply (buffer_refines_queue (NewBuffer 4, []) ([], [])
    [OpAppend [x01; x02; x03]; OpRetrieveUntil 1; OpRetrieveAsString 1; OpHasWritten 2 [x0b];
     OpReadFd (SysOk [x04; x05; x06; x07; x08; x09; x0a])]).
  split; [apply wf_NewBuffer | split; [apply Peek_NewBuffer | reflexivity]].
Defined.

(** ** What the codec relies on *)

Class ByteBuffer (B : Type) := {
  bb_valid : B → Prop;
  bb_readable : B → nat;
  bb_peek : B → list byte;
  bb_append : B → list byte → option B;
  bb_retrieve : B → nat → option B;
  bb_retrieve_string : B → nat → option (list byte * B);
}.

Class ByteBufferLaws (B : Type) `{ByteBuffer B} := {
  bb_readable_peek b : bb_valid b → bb_readable b = length (bb_peek b);
  bb_append_spec b data :
    bb_valid b →
    ∃ b', bb_append b data = Some b' ∧ bb_valid b' ∧ bb_peek b' = bb_peek b ++ data;
  bb_retrieve_spec b len :
    bb_valid b → len ≤ length (bb_peek b) →
    ∃ b', bb_retrieve b len = Some b' ∧ bb_valid b' ∧ bb_peek b' = drop len (bb_peek b);
  bb_retrieve_string_spec b len :
    bb_valid b → len ≤ length (bb_peek b) →
    ∃ b', bb_retrieve_string b len = Some (take len (bb_peek b), b') ∧
          bb_valid b' ∧ bb_peek b' = drop len (bb_peek b);
}.

#[export] Instance Buffer_ByteBuffer : ByteBuffer Buffer := {
  bb_valid := wf;
  bb_readable := ReadableBytes;
  bb_peek := Peek;
  bb_append := λ b data, Append b (Some data);
  bb_retrieve := Retrieve;
  bb_retrieve_string := RetrieveAsString;
}.

#[export] Instance Buffer_ByteBufferLaws : ByteBufferLaws Buffer.
Proof.
  split; simpl; intros.
  - by rewrite length_Peek.
  - by apply Append_spec.
  - apply Retrieve_spec; [done|]. by rewrite <-length_Peek.
  - apply RetrieveAsString_spec; [done|]. by rewrite <-length_Peek.
Qed.
