(* ===== verification/Packet.v ===== *)
(** * Packets and message types

    Models [src/common/protocol/Packet.h] and [src/common/protocol/Packet.cpp].
    [MessageType] is the scoped enumeration over [uint16_t]; a value of the
    underlying type that no enumerator names, which a [static_cast] can produce,
    is [kUnnamed]. *)
From Stdlib Require Import ZArith Lia.
From Stdlib.Strings Require Import Byte.
From stdpp Require Import base list numbers strings.
From S2P Require Import Prelude.

Local Open Scope Z_scope.

(** ** Data *)

Inductive MessageType :=
| kUnknown
| kLoginRequest
| kLoginResponse
| kChatMessage
| kChatAck
| kReadRequest
| kReadResponse
| kHistoryRequest
| kHistoryResponse
| kConversationListRequest
| kConversationListResponse
| kFriendListRequest
| kFriendListResponse
| kFriendRequestCreateRequest
| kFriendRequestCreateResponse
| kFriendRequestListRequest
| kFriendRequestListResponse
| kFriendRequestAcceptRequest
| kFriendRequestAcceptResponse
| kFriendRequestRejectRequest
| kFriendRequestRejectResponse
| kChatDelivery
| kChatDeliveryAck
| kUserProfileRequest
| kUserProfileResponse
| kCreateGroupRequest
| kCreateGroupResponse
| kGetGroupRequest
| kGetGroupResponse
| kUpdateGroupRequest
| kUpdateGroupResponse
| kDisbandGroupRequest
| kDisbandGroupResponse
| kJoinGroupRequest
| kJoinGroupResponse
| kLeaveGroupRequest
| kLeaveGroupResponse
| kInviteGroupMemberRequest
| kInviteGroupMemberResponse
| kKickGroupMemberRequest
| kKickGroupMemberResponse
| kSetGroupMemberRoleRequest
| kSetGroupMemberRoleResponse
| kSetGroupMemberMuteRequest
| kSetGroupMemberMuteResponse
| kTransferGroupOwnershipRequest
| kTransferGroupOwnershipResponse
| kListGroupMembersRequest
| kListGroupMembersResponse
| kListMyGroupsRequest
| kListMyGroupsResponse
| kGroupMessageSendRequest
| kGroupMessageSendResponse
| kGroupMessageDelivery
| kGroupMessageDeliveryAck
| kBeginFileUploadRequest
| kBeginFileUploadResponse
| kGetFileUploadSessionRequest
| kGetFileUploadSessionResponse
| kCancelFileUploadRequest
| kCancelFileUploadResponse
| kGatewayForwardChatRequest
| kGatewayForwardChatResponse
| kGatewayForwardGroupMessageRequest
| kGatewayForwardGroupMessageResponse
| kHeartbeat
| kError
| kUnnamed (value : Z).

#[export] Instance MessageType_eq_dec : EqDecision MessageType.
Proof. solve_decision. Defined.

(** [static_cast<std::uint16_t>(type)]. *)
Definition MessageTypeValue (type : MessageType) : Z :=
  match type with
  | kUnknown => 0
  | kLoginRequest => 1001
  | kLoginResponse => 1002
  | kChatMessage => 2001
  | kChatAck => 2002
  | kReadRequest => 2003
  | kReadResponse => 2004
  | kHistoryRequest => 2005
  | kHistoryResponse => 2006
  | kConversationListRequest => 2007
  | kConversationListResponse => 2008
  | kFriendListRequest => 2009
  | kFriendListResponse => 2010
  | kFriendRequestCreateRequest => 2011
  | kFriendRequestCreateResponse => 2012
  | kFriendRequestListRequest => 2013
  | kFriendRequestListResponse => 2014
  | kFriendRequestAcceptRequest => 2015
  | kFriendRequestAcceptResponse => 2016
  | kFriendRequestRejectRequest => 2017
  | kFriendRequestRejectResponse => 2018
  | kChatDelivery => 2019
  | kChatDeliveryAck => 2020
  | kUserProfileRequest => 2021
  | kUserProfileResponse => 2022
  | kCreateGroupRequest => 2023
  | kCreateGroupResponse => 2024
  | kGetGroupRequest => 2025
  | kGetGroupResponse => 2026
  | kUpdateGroupRequest => 2027
  | kUpdateGroupResponse => 2028
  | kDisbandGroupRequest => 2029
  | kDisbandGroupResponse => 2030
  | kJoinGroupRequest => 2031
  | kJoinGroupResponse => 2032
  | kLeaveGroupRequest => 2033
  | kLeaveGroupResponse => 2034
  | kInviteGroupMemberRequest => 2035
  | kInviteGroupMemberResponse => 2036
  | kKickGroupMemberRequest => 2037
  | kKickGroupMemberResponse => 2038
  | kSetGroupMemberRoleRequest => 2039
  | kSetGroupMemberRoleResponse => 2040
  | kSetGroupMemberMuteRequest => 2041
  | kSetGroupMemberMuteResponse => 2042
  | kTransferGroupOwnershipRequest => 2043
  | kTransferGroupOwnershipResponse => 2044
  | kListGroupMembersRequest => 2045
  | kListGroupMembersResponse => 2046
  | kListMyGroupsRequest => 2047
  | kListMyGroupsResponse => 2048
  | kGroupMessageSendRequest => 2049
  | kGroupMessageSendResponse => 2050
  | kGroupMessageDelivery => 2051
  | kGroupMessageDeliveryAck => 2052
  | kBeginFileUploadRequest => 2053
  | kBeginFileUploadResponse => 2054
  | kGetFileUploadSessionRequest => 2055
  | kGetFileUploadSessionResponse => 2056
  | kCancelFileUploadRequest => 2057
  | kCancelFileUploadResponse => 2058
  | kGatewayForwardChatRequest => 3001
  | kGatewayForwardChatResponse => 3002
  | kGatewayForwardGroupMessageRequest => 3003
  | kGatewayForwardGroupMessageResponse => 3004
  | kHeartbeat => 9001
  | kError => 9999
  | kUnnamed value => value
  end.

(** [static_cast<MessageType>(value)]. *)
Definition MessageTypeOfValue (value : Z) : MessageType :=
  match value with
  | 0 => kUnknown
  | 1001 => kLoginRequest
  | 1002 => kLoginResponse
  | 2001 => kChatMessage
  | 2002 => kChatAck
  | 2003 => kReadRequest
  | 2004 => kReadResponse
  | 2005 => kHistoryRequest
  | 2006 => kHistoryResponse
  | 2007 => kConversationListRequest
  | 2008 => kConversationListResponse
  | 2009 => kFriendListRequest
  | 2010 => kFriendListResponse
  | 2011 => kFriendRequestCreateRequest
  | 2012 => kFriendRequestCreateResponse
  | 2013 => kFriendRequestListRequest
  | 2014 => kFriendRequestListResponse
  | 2015 => kFriendRequestAcceptRequest
  | 2016 => kFriendRequestAcceptResponse
  | 2017 => kFriendRequestRejectRequest
  | 2018 => kFriendRequestRejectResponse
  | 2019 => kChatDelivery
  | 2020 => kChatDeliveryAck
  | 2021 => kUserProfileRequest
  | 2022 => kUserProfileResponse
  | 2023 => kCreateGroupRequest
  | 2024 => kCreateGroupResponse
  | 2025 => kGetGroupRequest
  | 2026 => kGetGroupResponse
  | 2027 => kUpdateGroupRequest
  | 2028 => kUpdateGroupResponse
  | 2029 => kDisbandGroupRequest
  | 2030 => kDisbandGroupResponse
  | 2031 => kJoinGroupRequest
  | 2032 => kJoinGroupResponse
  | 2033 => kLeaveGroupRequest
  | 2034 => kLeaveGroupResponse
  | 2035 => kInviteGroupMemberRequest
  | 2036 => kInviteGroupMemberResponse
  | 2037 => kKickGroupMemberRequest
  | 2038 => kKickGroupMemberResponse
  | 2039 => kSetGroupMemberRoleRequest
  | 2040 => kSetGroupMemberRoleResponse
  | 2041 => kSetGroupMemberMuteRequest
  | 2042 => kSetGroupMemberMuteResponse
  | 2043 => kTransferGroupOwnershipRequest
  | 2044 => kTransferGroupOwnershipResponse
  | 2045 => kListGroupMembersRequest
  | 2046 => kListGroupMembersResponse
  | 2047 => kListMyGroupsRequest
  | 2048 => kListMyGroupsResponse
  | 2049 => kGroupMessageSendRequest
  | 2050 => kGroupMessageSendResponse
  | 2051 => kGroupMessageDelivery
  | 2052 => kGroupMessageDeliveryAck
  | 2053 => kBeginFileUploadRequest
  | 2054 => kBeginFileUploadResponse
  | 2055 => kGetFileUploadSessionRequest
  | 2056 => kGetFileUploadSessionResponse
  | 2057 => kCancelFileUploadRequest
  | 2058 => kCancelFileUploadResponse
  | 3001 => kGatewayForwardChatRequest
  | 3002 => kGatewayForwardChatResponse
  | 3003 => kGatewayForwardGroupMessageRequest
  | 3004 => kGatewayForwardGroupMessageResponse
  | 9001 => kHeartbeat
  | 9999 => kError
  | _ => kUnnamed value
  end.

Record PacketHeader := MkPacketHeader {
  magic : Z;
  version : Z;
  header_type : Z;
  header_flags : Z;
  reserved : Z;
  header_seq : Z;
  body_size : Z;
}.

Record Packet := MkPacket {
  type : MessageType;
  flags : Z;
  seq : Z;
  body : list byte;
}.

Definition kProtocolMagic : Z := 0x54494D58.
Definition kProtocolVersion : Z := 1.
Definition kPacketHeaderSize : nat := 20.
Definition kDefaultMaxBodySize : Z := 1024 * 1024.

(** ** Classification *)

Definition MessageTypeToString (type : MessageType) : string :=
  match type with
  | kUnknown => "unknown"
  | kLoginRequest => "login_request"
  | kLoginResponse => "login_response"
  | kChatMessage => "chat_message"
  | kChatAck => "chat_ack"
  | kReadRequest => "read_request"
  | kReadResponse => "read_response"
  | kHistoryRequest => "history_request"
  | kHistoryResponse => "history_response"
  | kFriendListRequest => "friend_list_request"
  | kFriendListResponse => "friend_list_response"
  | kConversationListRequest => "conversation_list_request"
  | kConversationListResponse => "conversation_list_response"
  | kFriendRequestCreateRequest => "friend_request_create_request"
  | kFriendRequestCreateResponse => "friend_request_create_response"
  | kFriendRequestListRequest => "friend_request_list_request"
  | kFriendRequestListResponse => "friend_request_list_response"
  | kFriendRequestAcceptRequest => "friend_request_accept_request"
  | kFriendRequestAcceptResponse => "friend_request_accept_response"
  | kFriendRequestRejectRequest => "friend_request_reject_request"
  | kFriendRequestRejectResponse => "friend_request_reject_response"
  | kChatDelivery => "chat_delivery"
  | kChatDeliveryAck => "chat_delivery_ack"
  | kUserProfileRequest => "user_profile_request"
  | kUserProfileResponse => "user_profile_response"
  | kCreateGroupRequest => "create_group_request"
  | kCreateGroupResponse => "create_group_response"
  | kGetGroupRequest => "get_group_request"
  | kGetGroupResponse => "get_group_response"
  | kUpdateGroupRequest => "update_group_request"
  | kUpdateGroupResponse => "update_group_response"
  | kDisbandGroupRequest => "disband_group_request"
  | kDisbandGroupResponse => "disband_group_response"
  | kJoinGroupRequest => "join_group_request"
  | kJoinGroupResponse => "join_group_response"
  | kLeaveGroupRequest => "leave_group_request"
  | kLeaveGroupResponse => "leave_group_response"
  | kInviteGroupMemberRequest => "invite_group_member_request"
  | kInviteGroupMemberResponse => "invite_group_member_response"
  | kKickGroupMemberRequest => "kick_group_member_request"
  | kKickGroupMemberResponse => "kick_group_member_response"
  | kSetGroupMemberRoleRequest => "set_group_member_role_request"
  | kSetGroupMemberRoleResponse => "set_group_member_role_response"
  | kSetGroupMemberMuteRequest => "set_group_member_mute_request"
  | kSetGroupMemberMuteResponse => "set_group_member_mute_response"
  | kTransferGroupOwnershipRequest => "transfer_group_ownership_request"
  | kTransferGroupOwnershipResponse => "transfer_group_ownership_response"
  | kListGroupMembersRequest => "list_group_members_request"
  | kListGroupMembersResponse => "list_group_members_response"
  | kListMyGroupsRequest => "list_my_groups_request"
  | kListMyGroupsResponse => "list_my_groups_response"
  | kGroupMessageSendRequest => "group_message_send_request"
  | kGroupMessageSendResponse => "group_message_send_response"
  | kGroupMessageDelivery => "group_message_delivery"
  | kGroupMessageDeliveryAck => "group_message_delivery_ack"
  | kBeginFileUploadRequest => "begin_file_upload_request"
  | kBeginFileUploadResponse => "begin_file_upload_response"
  | kGetFileUploadSessionRequest => "get_file_upload_session_request"
  | kGetFileUploadSessionResponse => "get_file_upload_session_response"
  | kCancelFileUploadRequest => "cancel_file_upload_request"
  | kCancelFileUploadResponse => "cancel_file_upload_response"
  | kGatewayForwardChatRequest => "gateway_forward_chat_request"
  | kGatewayForwardChatResponse => "gateway_forward_chat_response"
  | kGatewayForwardGroupMessageRequest => "gateway_forward_group_message_request"
  | kGatewayForwardGroupMessageResponse => "gateway_forward_group_message_response"
  | kHeartbeat => "heartbeat"
  | kError => "error"
  | _ => "invalid"
  end.

Definition IsKnownMessageType (type : MessageType) : bool :=
  match type with
  | kLoginRequest | kLoginResponse | kChatMessage | kChatAck | kReadRequest | kReadResponse
  | kHistoryRequest | kHistoryResponse | kFriendListRequest | kFriendListResponse
  | kConversationListRequest | kConversationListResponse | kFriendRequestCreateRequest
  | kFriendRequestCreateResponse | kFriendRequestListRequest | kFriendRequestListResponse
  | kFriendRequestAcceptRequest | kFriendRequestAcceptResponse | kFriendRequestRejectRequest
  | kFriendRequestRejectResponse | kChatDelivery | kChatDeliveryAck | kUserProfileRequest
  | kUserProfileResponse | kCreateGroupRequest | kCreateGroupResponse | kGetGroupRequest
  | kGetGroupResponse | kUpdateGroupRequest | kUpdateGroupResponse | kDisbandGroupRequest
  | kDisbandGroupResponse | kJoinGroupRequest | kJoinGroupResponse | kLeaveGroupRequest
  | kLeaveGroupResponse | kInviteGroupMemberRequest | kInviteGroupMemberResponse
  | kKickGroupMemberRequest | kKickGroupMemberResponse | kSetGroupMemberRoleRequest
  | kSetGroupMemberRoleResponse | kSetGroupMemberMuteRequest | kSetGroupMemberMuteResponse
  | kTransferGroupOwnershipRequest | kTransferGroupOwnershipResponse
  | kListGroupMembersRequest | kListGroupMembersResponse | kListMyGroupsRequest
  | kListMyGroupsResponse | kGroupMessageSendRequest | kGroupMessageSendResponse
  | kGroupMessageDelivery | kGroupMessageDeliveryAck | kBeginFileUploadRequest
  | kBeginFileUploadResponse | kGetFileUploadSessionRequest | kGetFileUploadSessionResponse
  | kCancelFileUploadRequest | kCancelFileUploadResponse | kGatewayForwardChatRequest
  | kGatewayForwardChatResponse | kGatewayForwardGroupMessageRequest
  | kGatewayForwardGroupMessageResponse | kHeartbeat | kError => true
  | _ => false
  end.

Definition IsGatewayInternalMessageType (type : MessageType) : bool :=
  match type with
  | kGatewayForwardChatRequest | kGatewayForwardChatResponse
  | kGatewayForwardGroupMessageRequest | kGatewayForwardGroupMessageResponse => true
  | _ => false
  end.

(** ** Properties *)

(** The types a [Packet] can hold: an unnamed value is a [uint16_t] that is not
    the value of an enumerator. *)
Definition type_wf (t : MessageType) : Prop :=
  MessageTypeOfValue (MessageTypeValue t) = t ∧ is_u16 (MessageTypeValue t).

Lemma known_type_wf t : IsKnownMessageType t = true → type_wf t.
Proof. by destruct t. Qed.

Lemma MessageTypeOfValue_Value v : MessageTypeValue (MessageTypeOfValue v) = v.
Proof.
  unfold MessageTypeOfValue.
  destruct v as [|p|p]; try done.
  repeat (first [done | destruct p as [p|p|]]).
Qed.

Lemma MessageTypeOfValue_wf v : is_u16 v → type_wf (MessageTypeOfValue v).
Proof. intros Hv. unfold type_wf. by rewrite MessageTypeOfValue_Value. Qed.

(** The enumerators, found back from their names. *)
Definition named_types : list MessageType :=
  MessageTypeOfValue <$>
    ([0; 1001; 1002] ++ (Z.add 2001 <$> seqZ 0 58) ++ [3001; 3002; 3003; 3004; 9001; 9999]).

Definition TypeOfName (name : string) : option MessageType :=
  head (filter (λ t, MessageTypeToString t = name) named_types).

Lemma TypeOfName_ToString t : IsKnownMessageType t = true →
  TypeOfName (MessageTypeToString t) = Some t.
Proof. destruct t; (done || (intros; vm_compute; reflexivity)). Qed.

(** The classification of message types is exact: a type is known iff it is a
    named enumerator other than [kUnknown]; gateway-internal types are known;
    the names of two known types never coincide and never are the name
    ["invalid"]; and the wire value determines the type. *)
Theorem message_type_classification t :
  (IsKnownMessageType t = true ↔ t ≠ kUnknown ∧ ∀ v, t ≠ kUnnamed v) ∧
  (IsGatewayInternalMessageType t = true → IsKnownMessageType t = true) ∧
  (IsKnownMessageType t = true →
     MessageTypeToString t ≠ "invalid" ∧
     MessageTypeOfValue (MessageTypeValue t) = t ∧
     ∀ t', IsKnownMessageType t' = true →
           MessageTypeToString t = MessageTypeToString t' → t = t').
Proof.
  split_and!.
  - destruct t; split; try done; intros [H1 H2]; try done. by destruct (H2 value).
  - by destruct t.
  - intros Hk. split_and!.
    + by destruct t.
    + by apply known_type_wf.
    + intros t' Hk' Heq. apply TypeOfName_ToString in Hk, Hk'. congruence.
Qed.
