(* ===== verification/ProtocolCodec.v ===== *)
(** * The TIMX frame codec

    Models [src/common/protocol/ProtocolCodec.h] and [ProtocolCodec.cpp]: the
    twenty byte header in network byte order and the decoding loop over a byte
    buffer.  The codec is written against [Buffer.ByteBuffer]; a list of bytes is
    another instance of it and serves as the reference the buffer is compared
    with.  The decoding loop carries fuel; [Decode] supplies one more than the
    readable bytes, which is enough because each turn consumes a header. *)
From Stdlib Require Import ZArith Lia.
From Stdlib.Strings Require Import Byte.
From stdpp Require Import base list numbers strings.
From S2P Require Import Prelude Buffer Packet.

Local Open Scope Z_scope.

(** ** Network byte order *)

Definition byte_of_Z (z : Z) : byte := default x00 (Byte.of_N (Z.to_N (z `mod` 256))).
Definition Z_of_byte (b : byte) : Z := Z.of_N (Byte.to_N b).

(** The bytes of [htons(value)] and [htonl(value)] in memory. *)
Definition be16 (z : Z) : list byte := [byte_of_Z (z `div` 256); byte_of_Z z].
Definition be32 (z : Z) : list byte := be16 (z `div` 65536) ++ be16 z.

(** The byte at an offset of the data pointer. *)
Definition at_offset (data : list byte) (i : nat) : Z := Z_of_byte (nth i data x00).

Definition ReadUint16 (data : list byte) : Z :=
  at_offset data 0 * 256 + at_offset data 1.
Definition ReadUint32 (data : list byte) : Z :=
  ReadUint16 data * 65536 + ReadUint16 (drop 2 data).

(** ** Data *)

Inductive DecodeStatus :=
| kOk | kNeedMoreData | kInvalidMagic | kUnsupportedVersion | kBodyTooLarge
| kInvalidMessageType.

#[export] Instance DecodeStatus_eq_dec : EqDecision DecodeStatus.
Proof. solve_decision. Defined.

Record DecodeResult := MkDecodeResult {
  status : DecodeStatus;
  packets : list Packet;
  error_message : string;
}.

Definition DecodeStatusToString (s : DecodeStatus) : string :=
  match s with
  | kOk => "ok"
  | kNeedMoreData => "need_more_data"
  | kInvalidMagic => "invalid_magic"
  | kUnsupportedVersion => "unsupported_version"
  | kBodyTooLarge => "body_too_large"
  | kInvalidMessageType => "invalid_message_type"
  end.

Definition ParseHeader (data : list byte) : PacketHeader := {|
  magic := ReadUint32 data;
  version := ReadUint16 (drop 4 data);
  header_type := ReadUint16 (drop 6 data);
  header_flags := ReadUint16 (drop 8 data);
  reserved := ReadUint16 (drop 10 data);
  header_seq := ReadUint32 (drop 12 data);
  body_size := ReadUint32 (drop 16 data);
|}.

(** ** The codec over a byte buffer *)

Section Codec.
Context {B : Type} `{ByteBuffer B}.
Variable max_body_size_ : Z.

Definition AppendUint16 (b : B) (value : Z) : option B := bb_append b (be16 value).
Definition AppendUint32 (b : B) (value : Z) : option B := bb_append b (be32 value).

Definition ValidatePacketForEncode (packet : Packet) : string + unit :=
  if negb (IsKnownMessageType (type packet)) then inl "invalid message type"
  else if max_body_size_ <? Z.of_nat (length (body packet)) then inl "packet body is too large"
  else inr tt.

(** [Encode]: [inl] is the error message of a call that returns [false] and
    leaves the output as it is, [inr] the output of one that returns [true]. *)
Definition Encode (packet : Packet) (output : option B) : option (string + B) :=
  match output with
  | None => Some (inl "output buffer is null")
  | Some b =>
      match ValidatePacketForEncode packet with
      | inl e => Some (inl e)
      | inr _ =>
          b ← AppendUint32 b kProtocolMagic;
          b ← AppendUint16 b kProtocolVersion;
          b ← AppendUint16 b (MessageTypeValue (type packet));
          b ← AppendUint16 b (flags packet);
          b ← AppendUint16 b 0;
          b ← AppendUint32 b (seq packet);
          b ← AppendUint32 b (u32 (Z.of_nat (length (body packet))));
          b ← (if (length (body packet) =? 0)%nat then Some b else bb_append b (body packet));
          Some (inr b)
      end
  end.

(** The status of a call that ran out of complete frames. *)
Definition FinalStatus (packets : list Packet) : DecodeStatus :=
  match packets with [] => kNeedMoreData | _ :: _ => kOk end.

(** The [while] loop of [Decode] with [packets] found so far. *)
Fixpoint DecodeLoop (fuel : nat) (packets : list Packet) (input : B)
  : option (DecodeResult * B) :=
  match fuel with
  | O => None
  | S fuel =>
      if (kPacketHeaderSize <=? bb_readable input)%nat then
        let header := ParseHeader (bb_peek input) in
        if negb (magic header =? kProtocolMagic) then
          Some (MkDecodeResult kInvalidMagic packets "invalid protocol magic", input)
        else if negb (version header =? kProtocolVersion) then
          Some (MkDecodeResult kUnsupportedVersion packets "unsupported protocol version", input)
        else if max_body_size_ <? body_size header then
          Some (MkDecodeResult kBodyTooLarge packets "packet body is too large", input)
        else
          let message_type := MessageTypeOfValue (header_type header) in
          if negb (IsKnownMessageType message_type) then
            Some (MkDecodeResult kInvalidMessageType packets "invalid message type", input)
          else
            let full_packet_size := (kPacketHeaderSize + Z.to_nat (body_size header))%nat in
            if (bb_readable input <? full_packet_size)%nat then
              Some (MkDecodeResult (FinalStatus packets) packets "", input)
            else
              input ← bb_retrieve input kPacketHeaderSize;
              '(body, input) ←
                (if 0 <? body_size header
                 then bb_retrieve_string input (Z.to_nat (body_size header))
                 else Some ([], input));
              let packet := MkPacket message_type (header_flags header)
                                     (header_seq header) body in
              DecodeLoop fuel (packets ++ [packet]) input
      else Some (MkDecodeResult (FinalStatus packets) packets "", input)
  end.

Definition Decode (input : option B) : option (DecodeResult * option B) :=
  match input with
  | None => Some (MkDecodeResult kNeedMoreData [] "input buffer is null", None)
  | Some b =>
      '(r, b') ← DecodeLoop (S (bb_readable b)) [] b; Some (r, Some b')
  end.

End Codec.

(** ** Byte order lemmas *)

Lemma Z_of_byte_range b : 0 ≤ Z_of_byte b < 256.
Proof. unfold Z_of_byte. pose proof (Byte.to_N_bounded b). lia. Qed.

Lemma Z_of_byte_of_Z z : Z_of_byte (byte_of_Z z) = z `mod` 256.
Proof.
  unfold Z_of_byte, byte_of_Z. pose proof (Z.mod_pos_bound z 256 ltac:(lia)).
  destruct (Byte.of_N (Z.to_N (z `mod` 256))) eqn:E; simpl.
  - apply Byte.to_of_N in E. rewrite E. lia.
  - apply Byte.of_N_None_iff in E. lia.
Qed.

Lemma byte_of_Z_of_byte b : byte_of_Z (Z_of_byte b) = b.
Proof.
  unfold byte_of_Z. pose proof (Z_of_byte_range b).
  rewrite Z.mod_small by done. unfold Z_of_byte. by rewrite N2Z.id, Byte.of_to_N.
Qed.

Lemma byte_of_Z_eq z b : z `mod` 256 = Z_of_byte b → byte_of_Z z = b.
Proof.
  intros Hz. rewrite <-(byte_of_Z_of_byte b). unfold byte_of_Z.
  by rewrite Hz, Z.mod_small by apply Z_of_byte_range.
Qed.

Lemma ReadUint16_be16 z rest : ReadUint16 (be16 z ++ rest) = u16 z.
Proof.
  unfold ReadUint16, at_offset; simpl. rewrite !Z_of_byte_of_Z.
  unfold u16. Z.to_euclidean_division_equations. lia.
Qed.

Lemma ReadUint32_be32 z rest : ReadUint32 (be32 z ++ rest) = u32 z.
Proof.
  unfold ReadUint32, be32. rewrite <-app_assoc, ReadUint16_be16.
  change (drop 2 (be16 (z `div` 65536) ++ be16 z ++ rest)) with (be16 z ++ rest).
  rewrite ReadUint16_be16. unfold u16, u32. Z.to_euclidean_division_equations. lia.
Qed.

Lemma ReadUint16_range data : is_u16 (ReadUint16 data).
Proof.
  unfold ReadUint16, at_offset, is_u16.
  pose proof (Z_of_byte_range (nth 0 data x00)). pose proof (Z_of_byte_range (nth 1 data x00)).
  lia.
Qed.

Lemma ReadUint32_range data : is_u32 (ReadUint32 data).
Proof.
  unfold ReadUint32, is_u32. pose proof (ReadUint16_range data).
  pose proof (ReadUint16_range (drop 2 data)). unfold is_u16 in *. lia.
Qed.

Lemma be16_ReadUint16 a b rest : be16 (ReadUint16 (a :: b :: rest)) = [a; b].
Proof.
  unfold be16, ReadUint16, at_offset; simpl.
  pose proof (Z_of_byte_range a). pose proof (Z_of_byte_range b).
  f_equal; [|f_equal]; apply byte_of_Z_eq; Z.to_euclidean_division_equations; lia.
Qed.

Lemma be32_ReadUint32 a b c d rest : be32 (ReadUint32 (a :: b :: c :: d :: rest)) = [a; b; c; d].
Proof.
  unfold be32, ReadUint32.
  change (drop 2 (a :: b :: c :: d :: rest)) with (c :: d :: rest).
  pose proof (ReadUint16_range (a :: b :: c :: d :: rest)) as Hr1.
  pose proof (ReadUint16_range (c :: d :: rest)) as Hr2. unfold is_u16 in *.
  replace ((_ * 65536 + ReadUint16 (c :: d :: rest)) `div` 65536)
    with (ReadUint16 (a :: b :: c :: d :: rest)) by (Z.to_euclidean_division_equations; lia).
  rewrite be16_ReadUint16.
  assert (∀ x y, be16 (x * 65536 + y) = be16 y) as Hm.
  { intros x y. unfold be16. f_equal; [|f_equal]; apply byte_of_Z_eq;
      rewrite Z_of_byte_of_Z; Z.to_euclidean_division_equations; lia. }
  by rewrite Hm, be16_ReadUint16.
Qed.

(** ** The reference: frames at the head of a byte sequence *)

Inductive Frame :=
| FrameNone
| FrameBad (s : DecodeStatus) (m : string)
| FramePacket (p : Packet) (rest : list byte).

Definition frame (max : Z) (bs : list byte) : Frame :=
  if (kPacketHeaderSize <=? length bs)%nat then
    let header := ParseHeader bs in
    if negb (magic header =? kProtocolMagic) then FrameBad kInvalidMagic "invalid protocol magic"
    else if negb (version header =? kProtocolVersion) then
      FrameBad kUnsupportedVersion "unsupported protocol version"
    else if max <? body_size header then FrameBad kBodyTooLarge "packet body is too large"
    else if negb (IsKnownMessageType (MessageTypeOfValue (header_type header))) then
      FrameBad kInvalidMessageType "invalid message type"
    else if (length bs <? kPacketHeaderSize + Z.to_nat (body_size header))%nat then FrameNone
    else FramePacket
           (MkPacket (MessageTypeOfValue (header_type header)) (header_flags header)
                     (header_seq header)
                     (take (Z.to_nat (body_size header)) (drop kPacketHeaderSize bs)))
           (drop (kPacketHeaderSize + Z.to_nat (body_size header)) bs)
  else FrameNone.

(** [Decodes max bs ps e rest]: taking complete frames off [bs] gives [ps] and
    leaves [rest], where an incomplete frame ([e = None]) or a refused header
    begins. *)
Inductive Decodes (max : Z) :
  list byte → list Packet → option (DecodeStatus * string) → list byte → Prop :=
| Decodes_none bs : frame max bs = FrameNone → Decodes max bs [] None bs
| Decodes_bad bs s m : frame max bs = FrameBad s m → Decodes max bs [] (Some (s, m)) bs
| Decodes_packet bs p rest ps e rest' :
    frame max bs = FramePacket p rest → Decodes max rest ps e rest' →
    Decodes max bs (p :: ps) e rest'.

#[local] Hint Constructors Decodes : tinyimx.

Definition DecodeOutcome (ps : list Packet) (e : option (DecodeStatus * string)) : DecodeResult :=
  match e with
  | None => MkDecodeResult (FinalStatus ps) ps ""
  | Some (s, m) => MkDecodeResult s ps m
  end.

Lemma frame_packet_shorter max bs p rest :
  frame max bs = FramePacket p rest → (length rest + kPacketHeaderSize ≤ length bs)%nat.
Proof.
  unfold frame. intros Hf. case_hyps Hf. reflect_guards.
  rewrite length_drop. unfold kPacketHeaderSize in *. lia.
Qed.

Lemma frame_bad_status max bs s m :
  frame max bs = FrameBad s m → s ≠ kOk ∧ s ≠ kNeedMoreData.
Proof. unfold frame. intros Hf. by case_hyps Hf. Qed.

Lemma Decodes_bad_status max bs ps st m rest :
  Decodes max bs ps (Some (st, m)) rest → st ≠ kOk ∧ st ≠ kNeedMoreData.
Proof.
  intros HD. remember (Some (st, m)) as e. induction HD; simplify_eq; [|by auto].
  by eapply frame_bad_status.
Qed.

Lemma Decodes_det max bs ps e rest ps' e' rest' :
  Decodes max bs ps e rest → Decodes max bs ps' e' rest' →
  ps = ps' ∧ e = e' ∧ rest = rest'.
Proof.
  intros HD. revert ps' e' rest'.
  induction HD as [|bs s m|bs p rest ps e rest2 Hf _ IH]; intros ps1 e1 rest1 HD1;
    inversion HD1; subst; try (split_and!; congruence); try congruence.
  match goal with H : frame _ _ = FramePacket ?p' ?r', HD' : Decodes _ _ _ _ _ |- _ =>
    assert (p = p' ∧ rest = r') as [<- <-] by (split; congruence) end.
  match goal with HD' : Decodes _ rest _ _ _ |- _ => by apply IH in HD' as (-> & -> & ->) end.
Qed.

Section Loop.
Context {B : Type} `{ByteBufferLaws B}.
Variable max : Z.

(** One turn of the loop. *)
Lemma DecodeLoop_turn fuel ps (b : B) :
  bb_valid b →
  match frame max (bb_peek b) with
  | FrameNone => DecodeLoop max (S fuel) ps b =
                   Some (MkDecodeResult (FinalStatus ps) ps "", b)
  | FrameBad s m => DecodeLoop max (S fuel) ps b = Some (MkDecodeResult s ps m, b)
  | FramePacket p rest =>
      ∃ b', bb_valid b' ∧ bb_peek b' = rest ∧
            DecodeLoop max (S fuel) ps b = DecodeLoop max fuel (ps ++ [p]) b'
  end.
Proof.
  intros Hv. unfold frame. cbn [DecodeLoop]. rewrite (bb_readable_peek b Hv).
  set (hd := ParseHeader (bb_peek b)).
  destruct (Nat.leb_spec kPacketHeaderSize (length (bb_peek b))) as [Hlen|]; [|done].
  destruct (negb (magic hd =? _)); [done|]. destruct (negb (version hd =? _)); [done|].
  destruct (max <? body_size hd); [done|].
  destruct (negb (IsKnownMessageType _)); [done|].
  destruct (Nat.ltb_spec (length (bb_peek b)) (kPacketHeaderSize + Z.to_nat (body_size hd)));
    [done|].
  destruct (bb_retrieve_spec b kPacketHeaderSize Hv Hlen) as (b1 & -> & Hv1 & Hp1).
  cbn [mbind option_bind].
  destruct (Z.ltb_spec 0 (body_size hd)) as [Hpos|Hzero].
  - destruct (bb_retrieve_string_spec b1 (Z.to_nat (body_size hd)) Hv1)
      as (b2 & -> & Hv2 & Hp2).
    { rewrite Hp1, length_drop. lia. }
    exists b2. rewrite Hp2, Hp1, drop_drop. done.
  - replace (Z.to_nat (body_size hd)) with 0%nat by lia. exists b1.
    rewrite Hp1, Nat.add_0_r. done.
Qed.

Lemma DecodeLoop_spec fuel ps (b : B) :
  bb_valid b → (length (bb_peek b) < fuel)%nat →
  ∃ ps' e b', bb_valid b' ∧ Decodes max (bb_peek b) ps' e (bb_peek b') ∧
    DecodeLoop max fuel ps b = Some (DecodeOutcome (ps ++ ps') e, b').
Proof.
  revert ps b. induction fuel as [|fuel IH]; intros ps b Hv Hf; [lia|].
  pose proof (DecodeLoop_turn fuel ps b Hv) as Ht.
  destruct (frame max (bb_peek b)) as [|s m|p rest] eqn:Hfr.
  - exists [], None, b. rewrite app_nil_r. eauto with tinyimx.
  - exists [], (Some (s, m)), b. rewrite app_nil_r. eauto with tinyimx.
  - destruct Ht as (b1 & Hv1 & Hp1 & ->). apply frame_packet_shorter in Hfr as Hs.
    unfold kPacketHeaderSize in Hs.
    destruct (IH (ps ++ [p]) b1 Hv1) as (ps' & e & b' & ? & HD & ->); [rewrite Hp1; lia|].
    exists (p :: ps'), e, b'. rewrite <-app_assoc, Hp1 in *. eauto with tinyimx.
Qed.

Lemma Decode_spec (b : B) :
  bb_valid b →
  ∃ ps e b', bb_valid b' ∧ Decodes max (bb_peek b) ps e (bb_peek b') ∧
    Decode max (Some b) = Some (DecodeOutcome ps e, Some b').
Proof.
  intros Hv. destruct (DecodeLoop_spec (S (bb_readable b)) [] b Hv)
    as (ps & e & b' & ? & ? & Hl).
  { rewrite bb_readable_peek by done. lia. }
  exists ps, e, b'. unfold Decode. by rewrite Hl.
Qed.

End Loop.

Lemma DecodeOutcome_packets ps e : packets (DecodeOutcome ps e) = ps.
Proof. by destruct e as [[??]|]. Qed.

(** ** Frames and more input *)

Lemma at_offset_app bs s i : (i < length bs)%nat → at_offset (bs ++ s) i = at_offset bs i.
Proof. intros. unfold at_offset. by rewrite app_nth1. Qed.

Lemma ReadUint16_app bs s : (2 ≤ length bs)%nat → ReadUint16 (bs ++ s) = ReadUint16 bs.
Proof. intros. unfold ReadUint16. by rewrite !at_offset_app by lia. Qed.

Lemma ReadUint32_app bs s : (4 ≤ length bs)%nat → ReadUint32 (bs ++ s) = ReadUint32 bs.
Proof.
  intros. unfold ReadUint32. rewrite drop_app_le by lia.
  by rewrite !ReadUint16_app by (rewrite ?length_drop; lia).
Qed.

Lemma ParseHeader_app bs s :
  (kPacketHeaderSize ≤ length bs)%nat → ParseHeader (bs ++ s) = ParseHeader bs.
Proof.
  unfold kPacketHeaderSize. intros. unfold ParseHeader. rewrite !drop_app_le by lia.
  by rewrite !ReadUint32_app, !ReadUint16_app by (rewrite ?length_drop; lia).
Qed.

Lemma frame_app max bs s :
  match frame max bs with
  | FrameNone => True
  | FrameBad st m => frame max (bs ++ s) = FrameBad st m
  | FramePacket p rest => frame max (bs ++ s) = FramePacket p (rest ++ s)
  end.
Proof.
  unfold frame. destruct (Nat.leb_spec kPacketHeaderSize (length bs)) as [Hlen|]; [|done].
  rewrite (ParseHeader_app _ _ Hlen), length_app.
  destruct (Nat.leb_spec kPacketHeaderSize (length bs + length s)); [|lia].
  set (hd := ParseHeader bs).
  destruct (negb (magic hd =? _)); [done|]. destruct (negb (version hd =? _)); [done|].
  destruct (max <? body_size hd); [done|]. destruct (negb (IsKnownMessageType _)); [done|].
  destruct (Nat.ltb_spec (length bs) (kPacketHeaderSize + Z.to_nat (body_size hd))); [done|].
  destruct (Nat.ltb_spec (length bs + length s) (kPacketHeaderSize + Z.to_nat (body_size hd)));
    [lia|].
  rewrite !drop_app_le by lia.
  by rewrite take_app_le by (rewrite length_drop; lia).
Qed.

Lemma Decodes_app max bs ps rest s ps2 e rest2 :
  Decodes max bs ps None rest → Decodes max (rest ++ s) ps2 e rest2 →
  Decodes max (bs ++ s) (ps ++ ps2) e rest2.
Proof.
  intros HD HD2. remember None as n. induction HD; simplify_eq/=; [done|].
  pose proof (frame_app max bs s) as Hf. rewrite H in Hf. eauto with tinyimx.
Qed.

Lemma Decodes_app_bad max bs ps st m rest s :
  Decodes max bs ps (Some (st, m)) rest →
  Decodes max (bs ++ s) ps (Some (st, m)) (rest ++ s).
Proof.
  intros HD. remember (Some (st, m)) as n.
  induction HD; simplify_eq/=; pose proof (frame_app max bs s) as Hf; rewrite H in Hf;
    eauto with tinyimx.
Qed.

(** ** The wire format *)

(** The frame of [p] with [r] in the reserved field. *)
Definition wire (p : Packet) (r : Z) : list byte :=
  be32 kProtocolMagic ++ be16 kProtocolVersion ++ be16 (MessageTypeValue (type p)) ++
  be16 (flags p) ++ be16 r ++ be32 (seq p) ++ be32 (u32 (Z.of_nat (length (body p)))) ++ body p.

(** The values the fields of a [Packet] can have; a body the header can size. *)
Definition packet_wf (p : Packet) : Prop :=
  is_u16 (flags p) ∧ is_u32 (seq p) ∧ is_u32 (Z.of_nat (length (body p))).

Definition encodable (max : Z) (p : Packet) : Prop :=
  ValidatePacketForEncode max p = inr tt ∧ packet_wf p.

Lemma ValidatePacketForEncode_spec max p :
  ValidatePacketForEncode max p = inr tt ↔
  IsKnownMessageType (type p) = true ∧ Z.of_nat (length (body p)) ≤ max.
Proof.
  unfold ValidatePacketForEncode. destruct (IsKnownMessageType (type p)); simpl;
    destruct (Z.ltb_spec max (Z.of_nat (length (body p)))); split; (done || lia || by intros []).
Qed.

Lemma length_wire p r : length (wire p r) = (kPacketHeaderSize + length (body p))%nat.
Proof. done. Qed.

Lemma ParseHeader_wire p r s :
  packet_wf p → is_u16 r → IsKnownMessageType (type p) = true →
  ParseHeader (wire p r ++ s) =
  MkPacketHeader kProtocolMagic kProtocolVersion (MessageTypeValue (type p)) (flags p) r
                 (seq p) (Z.of_nat (length (body p))).
Proof.
  intros (Hf & Hs & Hb) Hr [_ Ht]%known_type_wf. unfold ParseHeader, wire.
  rewrite <-!app_assoc.
  cbn [be32 be16 app drop]. f_equal;
    lazymatch goal with
    | |- ReadUint16 (byte_of_Z (Z.div ?z 256) :: byte_of_Z _ :: ?l) = _ =>
        etransitivity; [apply (ReadUint16_be16 z l)|]; by apply u16_small
    | |- ReadUint32 (_ :: _ :: _ :: byte_of_Z ?z :: ?l) = _ =>
        etransitivity; [apply (ReadUint32_be32 z l)|];
        rewrite ?u32_small by auto with tinyimx; try done
    end.
Qed.

Lemma frame_wire max p r s :
  encodable max p → is_u16 r → frame max (wire p r ++ s) = FramePacket p s.
Proof.
  intros [[Hk Hm]%ValidatePacketForEncode_spec Hwf] Hr. unfold frame.
  rewrite ParseHeader_wire, length_app, length_wire by done.
  cbn [magic version body_size header_type header_flags header_seq].
  destruct (Nat.leb_spec kPacketHeaderSize (kPacketHeaderSize + length (body p) + length s));
    [|lia].
  rewrite !Z.eqb_refl; cbn [negb].
  destruct (Z.ltb_spec max (Z.of_nat (length (body p)))); [lia|].
  destruct (known_type_wf _ Hk) as [-> _]. rewrite Hk, Nat2Z.id; cbn [negb].
  destruct (Nat.ltb_spec (kPacketHeaderSize + length (body p) + length s)
                         (kPacketHeaderSize + length (body p))); [lia|].
  f_equal.
  - destruct p as [t f sq bd]; f_equal. apply (take_app_length bd s).
  - rewrite <-(length_wire p r). apply drop_app_length.
Qed.

(** A complete frame is the wire image of the packet it gives, whatever the
    reserved field holds. *)
Lemma frame_inv max bs p rest :
  frame max bs = FramePacket p rest →
  encodable max p ∧ ∃ r, is_u16 r ∧ bs = wire p r ++ rest.
Proof.
  unfold frame. intros Hf. destruct (Nat.leb_spec kPacketHeaderSize (length bs)); [|done].
  remember (ParseHeader bs) as hd eqn:Hhd.
  destruct (negb (magic hd =? _)) eqn:Hm; [done|].
  destruct (negb (version hd =? _)) eqn:Hv; [done|].
  destruct (max <? body_size hd) eqn:Hb; [done|].
  destruct (negb (IsKnownMessageType _)) eqn:Hk; [done|].
  destruct (length bs <? _)%nat eqn:Hl; [done|]. injection Hf as <- <-. reflect_guards.
  assert (is_u32 (body_size hd)) as Hbs by (subst hd; apply ReadUint32_range). pose proof Hbs as [? _].
  set (pk := MkPacket _ _ _ _).
  assert (length (body pk) = Z.to_nat (body_size hd)) as Hbody.
  { unfold pk; cbn [body]. rewrite length_take, length_drop. lia. }
  split.
  - split; [apply ValidatePacketForEncode_spec; split; [done|lia]|].
    split_and!; [subst hd; apply ReadUint16_range|subst hd; apply ReadUint32_range|].
    by rewrite Hbody, Z2Nat.id.
  - exists (reserved hd). split; [subst hd; apply ReadUint16_range|]. unfold wire.
    rewrite Hbody, Z2Nat.id, u32_small by done. cbn [type flags seq body pk].
    rewrite MessageTypeOfValue_Value, <-Hm, <-Hv. clear -H Hhd. unfold kPacketHeaderSize in *.
    do 20 (destruct bs as [|? bs]; [simpl in H; lia|]).
    subst hd. unfold ParseHeader at 1 2 3 4 5 6 7; cbn [drop magic version header_type
      header_flags reserved header_seq body_size].
    rewrite !be32_ReadUint32, !be16_ReadUint16. cbn [app drop Nat.add].
    rewrite take_drop. done.
Qed.

Lemma Encode_spec {B} `{ByteBufferLaws B} max p (b : B) :
  bb_valid b → ValidatePacketForEncode max p = inr tt →
  ∃ b', Encode max p (Some b) = Some (inr b') ∧ bb_valid b' ∧
        bb_peek b' = bb_peek b ++ wire p 0.
Proof.
  intros Hv Hval. unfold Encode, AppendUint32, AppendUint16. rewrite Hval.
  do 7 (match goal with |- context [bb_append ?b ?d] =>
    destruct (bb_append_spec b d) as (? & -> & ? & ?); [done|]; cbn [mbind option_bind] end).
  assert (∃ b', (if (length (body p) =? 0)%nat then Some x5 else bb_append x5 (body p)) = Some b' ∧
            bb_valid b' ∧ bb_peek b' = bb_peek x5 ++ body p) as (b' & -> & ? & ?).
  { destruct (Nat.eqb_spec (length (body p)) 0) as [->%nil_length_inv|].
    - exists x5. by rewrite app_nil_r.
    - by apply bb_append_spec. }
  exists b'. split_and!; [done..|].
  repeat match goal with H : bb_peek ?x = _ |- context [bb_peek ?x] => rewrite H; clear H end.
  unfold wire. by rewrite <-!app_assoc.
Qed.

(** ** Properties of the codec *)

(** Encoding packets one after the other; [None] when a packet is refused. *)
Definition EncodeInto {B} `{ByteBuffer B} (max : Z) (b : B) (p : Packet) : option B :=
  match Encode max p (Some b) with Some (inr b') => Some b' | _ => None end.

Lemma EncodeInto_all {B} `{ByteBufferLaws B} max (b : B) ps :
  bb_valid b → Forall (encodable max) ps →
  ∃ b', run (EncodeInto max) b ps = Some b' ∧ bb_valid b' ∧
        bb_peek b' = bb_peek b ++ concat ((λ p, wire p 0) <$> ps).
Proof.
  intros Hv Hps. revert b Hv. induction Hps as [|p ps [Hp _] _ IH]; intros b Hv.
  { exists b. by rewrite app_nil_r. }
  destruct (Encode_spec max p b Hv Hp) as (b1 & He & Hv1 & Hp1).
  destruct (IH b1 Hv1) as (b' & ? & ? & Hp').
  exists b'. cbn [run].
  replace (EncodeInto max b p) with (Some b1) by (unfold EncodeInto; by rewrite He).
  cbn [mbind option_bind].
  split_and!; [done..|]. by rewrite Hp', Hp1, <-app_assoc.
Qed.

Lemma Decodes_wire max ps :
  Forall (encodable max) ps → Decodes max (concat ((λ p, wire p 0) <$> ps)) ps None [].
Proof.
  induction 1 as [|p ps Hp _ IH]; [by constructor|].
  econstructor; [|done]. by apply frame_wire.
Qed.

(** The two at the network layer's buffer. *)
Lemma Buffer_EncodeInto_all max (b : Buffer) ps :
  wf b → Forall (encodable max) ps →
  ∃ b', run (EncodeInto max) b ps = Some b' ∧ wf b' ∧
        Peek b' = Peek b ++ concat ((λ p, wire p 0) <$> ps).
Proof. pose proof (EncodeInto_all max b ps) as HE. exact HE. Qed.

Lemma Buffer_Decode_spec max (b : Buffer) :
  wf b →
  ∃ ps e b', wf b' ∧ Decodes max (Peek b) ps e (Peek b') ∧
    Decode max (Some b) = Some (DecodeOutcome ps e, Some b').
Proof. pose proof (Decode_spec max b) as HD. exact HD. Qed.

(** C1: every stream of packets the codec accepts is recovered from its frames:
    encoding the packets into an empty buffer and decoding it gives exactly these
    packets, in order, with status [kOk] ([kNeedMoreData] for no packet), and
    leaves no byte. *)
Theorem encode_decode_roundtrip (max : Z) (b : Buffer) (ps : list Packet) :
  wf b → Peek b = [] → Forall (encodable max) ps →
  ∃ b1 b2, run (EncodeInto max) b ps = Some b1 ∧
    Decode max (Some b1) = Some (MkDecodeResult (FinalStatus ps) ps "", Some b2) ∧
    wf b2 ∧ Peek b2 = [].
Proof.
  intros Hv Hb Hps. destruct (Buffer_EncodeInto_all max b ps Hv Hps) as (b1 & He & Hv1 & Hp1).
  destruct (Buffer_Decode_spec max b1 Hv1) as (ps' & e & b2 & ? & HD & Hdec).
  rewrite Hb in Hp1. rewrite Hp1 in HD.
  destruct (Decodes_det _ _ _ _ _ _ _ _ (Decodes_wire max ps Hps) HD) as (<- & <- & Hr).
  exists b1, b2. done.
Qed.

(** C2: decoding does not depend on how the byte stream is cut: if decoding the
    bytes received so far stopped for want of data, then decoding what it left
    followed by new bytes [s] gives, after the packets already found, the same
    packets, the same leftover and the same refusal as decoding the whole stream
    at once. *)
Theorem decode_incremental (max : Z) (b b1 b2 whole : Buffer) (s : list byte) r1 r2 b2' :
  wf b → Decode max (Some b) = Some (r1, Some b1) →
  status r1 = kOk ∨ status r1 = kNeedMoreData →
  wf b2 → Peek b2 = Peek b1 ++ s → Decode max (Some b2) = Some (r2, Some b2') →
  wf whole → Peek whole = Peek b ++ s →
  ∃ r whole', Decode max (Some whole) = Some (r, Some whole') ∧
    packets r = packets r1 ++ packets r2 ∧ Peek whole' = Peek b2' ∧
    error_message r = error_message r2 ∧
    status r = match status r2 with
               | kOk | kNeedMoreData => FinalStatus (packets r1 ++ packets r2)
               | st => st
               end.
Proof.
  intros Hv Hd1 Hst Hv2 Hp2 Hd2 Hw Hpw.
  destruct (Buffer_Decode_spec max b Hv) as (ps1 & e1 & b1' & _ & HD1 & Hd1').
  destruct (Buffer_Decode_spec max b2 Hv2) as (ps2 & e2 & b2'' & _ & HD2 & Hd2').
  destruct (Buffer_Decode_spec max whole Hw) as (ps & e & w' & _ & HD & Hd).
  simplify_eq. rewrite Hp2 in HD2. rewrite Hpw in HD.
  assert (e1 = None) as ->.
  { destruct e1 as [[st m]|]; [exfalso|done].
    apply Decodes_bad_status in HD1 as []. by destruct Hst. }
  destruct (Decodes_det _ _ _ _ _ _ _ _ (Decodes_app _ _ _ _ _ _ _ _ HD1 HD2) HD)
    as (<- & <- & Hrest).
  exists (DecodeOutcome (ps1 ++ ps2) e2), w'. rewrite !DecodeOutcome_packets, Hd.
  split_and!; [done|done|by symmetry|by destruct e2 as [[??]|]|].
  destruct e2 as [[st m]|]; simpl; [|by destruct ps2].
  apply Decodes_bad_status in HD2 as []. by destruct st.
Qed.

Lemma encode_decode_roundtrip_witness :
  let ps := [MkPacket kChatMessage 3 70000 [x68; x69]; MkPacket kHeartbeat 0 1 []] in
  ∃ b1 b2, run (EncodeInto 4) (NewBuffer 8) ps = Some b1 ∧
    Decode 4 (Some b1) = Some (MkDecodeResult kOk ps "", Some b2) ∧ wf b2 ∧ Peek b2 = [].
Proof.
  apply (encode_decode_roundtrip 4 (NewBuffer 8)
           [MkPacket kChatMessage 3 70000 [x68; x69]; MkPacket kHeartbeat 0 1 []]).
  - apply wf_NewBuffer.
  - apply Peek_NewBuffer.
  - repeat (constructor; [split; [done|repeat split; done]|]). constructor.
Defined.

Lemma decode_incremental_witness :
  let bs := be32 kProtocolMagic ++ be16 1 ++ be16 9001 ++ be16 0 ++ be16 0 ++ be32 7 in
  let s := be32 1 ++ [x21; x54] in
  let mk bs := MkBuffer (replicate 8 x00 ++ bs) 8 (8 + length bs) in
  ∃ r whole', Decode 4 (Some (mk (bs ++ s))) = Some (r, Some whole') ∧
    packets r = [MkPacket kHeartbeat 0 7 [x21]].
Proof.
  cbv zeta.
  destruct (decode_incremental 4
    (MkBuffer (replicate 8 x00 ++ be32 kProtocolMagic ++ be16 1 ++ be16 9001 ++ be16 0 ++
               be16 0 ++ be32 7) 8 24)
    (MkBuffer (replicate 8 x00 ++ be32 kProtocolMagic ++ be16 1 ++ be16 9001 ++ be16 0 ++
               be16 0 ++ be32 7) 8 24)
    (MkBuffer (replicate 8 x00 ++ (be32 kProtocolMagic ++ be16 1 ++ be16 9001 ++ be16 0 ++
               be16 0 ++ be32 7) ++ be32 1 ++ [x21; x54]) 8 30)
    (MkBuffer (replicate 8 x00 ++ (be32 kProtocolMagic ++ be16 1 ++ be16 9001 ++ be16 0 ++
               be16 0 ++ be32 7) ++ be32 1 ++ [x21; x54]) 8 30)
    (be32 1 ++ [x21; x54])
    (MkDecodeResult kNeedMoreData [] "")
    (MkDecodeResult kOk [MkPacket kHeartbeat 0 7 [x21]] "")
    (MkBuffer (replicate 8 x00 ++ (be32 kProtocolMagic ++ be16 1 ++ be16 9001 ++ be16 0 ++
               be16 0 ++ be32 7) ++ be32 1 ++ [x21; x54]) 29 30))
    as (r & w & Hd & Hp & _); [..|by exists r, w].
  all: try (vm_compute; reflexivity).
  - unfold wf; vm_compute; lia.
  - by right.
  - unfold wf; vm_compute; lia.
  - unfold wf; vm_compute; lia.
Defined.

(** The concatenated frames of [ps], with some value in each reserved field. *)
Definition wire_of (ps : list Packet) (w : list byte) : Prop :=
  ∃ ws, w = concat ws ∧ Forall2 (λ p x, ∃ r, is_u16 r ∧ x = wire p r) ps ws.

Lemma Decodes_sound max bs ps e rest :
  Decodes max bs ps e rest →
  Forall (encodable max) ps ∧ ∃ w, bs = w ++ rest ∧ wire_of ps w.
Proof.
  induction 1 as [| |bs p rest ps e rest' Hf _ (Hps & w & -> & ws & -> & Hws)].
  - split; [done|]. exists []. split; [done|]. by exists [].
  - split; [done|]. exists []. split; [done|]. by exists [].
  - apply frame_inv in Hf as [Hp (r & Hr & ->)]. split; [by constructor|].
    exists (wire p r ++ concat ws). split; [by rewrite <-app_assoc|].
    exists (wire p r :: ws). split; [done|]. constructor; eauto.
Qed.

(** C3: decoding is total and accounts for every byte: on any buffer it returns,
    and what it consumed is exactly the concatenation of the frames of the
    packets it reports (whose reserved fields it ignores), each packet having a
    known type, a body within the limit and fields within their widths; it
    consumes nothing past the last complete frame, so the bytes left either are
    an incomplete frame or begin with the header it refused. *)
Theorem decode_sound (max : Z) (b : Buffer) :
  wf b →
  ∃ r b' w, Decode max (Some b) = Some (r, Some b') ∧ wf b' ∧
    Peek b = w ++ Peek b' ∧ wire_of (packets r) w ∧ Forall (encodable max) (packets r) ∧
    match frame max (Peek b') with
    | FrameNone => status r = FinalStatus (packets r)
    | FrameBad s m => status r = s ∧ error_message r = m
    | FramePacket _ _ => False
    end.
Proof.
  intros Hv. destruct (Buffer_Decode_spec max b Hv) as (ps & e & b' & Hv' & HD & Hd).
  pose proof (Decodes_sound _ _ _ _ _ HD) as (Hps & w & Hw & Hws).
  exists (DecodeOutcome ps e), b', w. rewrite DecodeOutcome_packets.
  split_and!; [done..|]. clear -HD.
  assert (∀ ps', match frame max (Peek b') with
          | FrameNone => status (DecodeOutcome (ps' ++ ps) e) = FinalStatus (ps' ++ ps)
          | FrameBad s m => status (DecodeOutcome (ps' ++ ps) e) = s ∧
                            error_message (DecodeOutcome (ps' ++ ps) e) = m
          | FramePacket _ _ => False end) as Hg; [|by apply (Hg [])].
  induction HD as [bs H|bs s m H|bs p rest ps e rest' H _ IH]; intros ps'; rewrite ?H; try done.
  specialize (IH (ps' ++ [p])). by rewrite <-app_assoc in IH.
Qed.

Lemma decode_sound_witness :
  ∃ r b' w, Decode 4 (Some (NewBuffer 3)) = Some (r, Some b') ∧ wf b' ∧
    Peek (NewBuffer 3) = w ++ Peek b' ∧ wire_of (packets r) w.
Proof.
  destruct (decode_sound 4 (NewBuffer 3) (wf_NewBuffer 3)) as (r & b' & w & ? & ? & ? & ? & _).
  by exists r, b', w.
Defined.
