(* ===== verification/SessionManager.v ===== *)
(** * Authenticated sessions of a gateway

    Models [src/gateway/SessionManager.h] and [SessionManager.cpp]: the two maps
    from users to sessions and from connection names to sessions, and the epochs
    that distinguish the generations of a session.  A [TcpConnection] object is
    its address and its name; a [TcpConnectionPtr] is an option, and a
    [weak_ptr] is the object it was made from together with the set of objects
    that still exist, which is an argument of the operations that call
    [lock()].  The mutex makes each operation one step. *)
From Stdlib Require Import ZArith Lia.
From stdpp Require Import base gmap strings numbers option.
From S2P Require Import Prelude.

Local Open Scope Z_scope.
Local Open Scope width_scope.

(** ** Data *)

Record Connection := MkConnection { address : Z; Name : string }.

#[export] Instance Connection_eq_dec : EqDecision Connection.
Proof. solve_decision. Defined.
#[export] Instance Connection_countable : Countable Connection.
Proof.
  apply (inj_countable' (λ c, (address c, Name c)) (λ p, MkConnection p.1 p.2)). by intros [].
Defined.

(** The [TcpConnection] objects that exist. *)
Abbreviation Live := (gset Connection).

Record SessionSnapshot := MkSessionSnapshot {
  ss_user_id : Z;
  ss_epoch : Z;
  ss_connection : Connection;
}.

Record SessionBindResult := MkSessionBindResult {
  success : bool;
  replaced : bool;
  old_connection : option Connection;
  bind_epoch : Z;
}.

Record SessionUnbindResult := MkSessionUnbindResult {
  unbound : bool;
  unbound_user_id : Z;
  unbound_epoch : Z;
}.

Record SessionRecord := MkSessionRecord {
  connection : Connection;
  epoch : Z;
  connection_key : string;
}.

Record ConnectionSessionRecord := MkConnectionSessionRecord {
  csr_user_id : Z;
  csr_epoch : Z;
}.

#[export] Instance ConnectionSessionRecord_eq_dec : EqDecision ConnectionSessionRecord.
Proof. solve_decision. Defined.

Record SessionManager := MkSessionManager {
  user_sessions_ : gmap Z SessionRecord;
  connection_sessions_ : gmap string ConnectionSessionRecord;
  next_epoch_ : Z;
}.

Definition NewSessionManager : SessionManager := MkSessionManager ∅ ∅ 1.

(** ** Operations *)

(** [weak_ptr::lock]. *)
Definition lock (live : Live) (c : Connection) : option Connection :=
  if bool_decide (c ∈ live) then Some c else None.

Definition ConnectionKey (c : option Connection) : string :=
  match c with None => "" | Some c => Name c end.

(** [AllocateEpochLocked]: the epoch and the next one to issue. *)
Definition AllocateEpochLocked (next : Z) : Z * Z :=
  let next := if next =? 0 then 1 else next in
  let epoch := next in
  let next := next +₆₄ 1 in
  let next := if next =? 0 then 1 else next in
  (epoch, next).

Definition NoBind : SessionBindResult := MkSessionBindResult false false None 0.

(** Step 1 of [BindOrReplace]: give up the current session of the user. *)
Definition DropUserSession (live : Live) (m : SessionManager) (user_id : Z) (new_key : string)
  : SessionManager * option Connection :=
  match user_sessions_ m !! user_id with
  | None => (m, None)
  | Some old_record =>
      let replaced_by :=
        match lock live (connection old_record) with
        | Some c => if bool_decide (connection_key old_record ≠ new_key) then Some c else None
        | None => None
        end in
      let connections :=
        match connection_sessions_ m !! connection_key old_record with
        | Some r =>
            if (csr_user_id r =? user_id) && (csr_epoch r =? epoch old_record)
            then delete (connection_key old_record) (connection_sessions_ m)
            else connection_sessions_ m
        | None => connection_sessions_ m
        end in
      (MkSessionManager (delete user_id (user_sessions_ m)) connections (next_epoch_ m),
       replaced_by)
  end.

(** Step 2: the connection gives up its previous owner. *)
Definition DropConnectionOwner (m : SessionManager) (new_key : string) : SessionManager :=
  match connection_sessions_ m !! new_key with
  | None => m
  | Some old_owner =>
      let users :=
        match user_sessions_ m !! csr_user_id old_owner with
        | Some r =>
            if (epoch r =? csr_epoch old_owner) && bool_decide (connection_key r = new_key)
            then delete (csr_user_id old_owner) (user_sessions_ m)
            else user_sessions_ m
        | None => user_sessions_ m
        end in
      MkSessionManager users (delete new_key (connection_sessions_ m)) (next_epoch_ m)
  end.

(** Step 3: a new generation. *)
Definition InstallSession (m : SessionManager) (user_id : Z) (c : Connection)
  : SessionManager * Z :=
  let '(new_epoch, next) := AllocateEpochLocked (next_epoch_ m) in
  (MkSessionManager
     (<[user_id := MkSessionRecord c new_epoch (Name c)]> (user_sessions_ m))
     (<[Name c := MkConnectionSessionRecord user_id new_epoch]> (connection_sessions_ m))
     next,
   new_epoch).

Definition BindOrReplace (live : Live) (m : SessionManager) (user_id : Z) (c : option Connection)
  : SessionManager * SessionBindResult :=
  match c with
  | None => (m, NoBind)
  | Some conn =>
      if user_id =? 0 then (m, NoBind)
      else
        let new_key := ConnectionKey c in
        if bool_decide (new_key = "") then (m, NoBind)
        else
          let '(m1, old) := DropUserSession live m user_id new_key in
          let m2 := DropConnectionOwner m1 new_key in
          let '(m3, new_epoch) := InstallSession m2 user_id conn in
          (m3, MkSessionBindResult true (bool_decide (is_Some old)) old new_epoch)
  end.

Definition Bind (live : Live) (m : SessionManager) (user_id : Z) (c : option Connection)
  : SessionManager * bool :=
  let '(m', r) := BindOrReplace live m user_id c in (m', success r).

Definition NoUnbind : SessionUnbindResult := MkSessionUnbindResult false 0 0.

Definition UnbindIfCurrent (live : Live) (m : SessionManager) (c : option Connection)
  : SessionManager * SessionUnbindResult :=
  match c with
  | None => (m, NoUnbind)
  | Some conn =>
      let key := ConnectionKey c in
      if bool_decide (key = "") then (m, NoUnbind)
      else match connection_sessions_ m !! key with
      | None => (m, NoUnbind)
      | Some reverse =>
          let connections := delete key (connection_sessions_ m) in
          match user_sessions_ m !! csr_user_id reverse with
          | None => (MkSessionManager (user_sessions_ m) connections (next_epoch_ m), NoUnbind)
          | Some current =>
              let same_generation :=
                (epoch current =? csr_epoch reverse) &&
                bool_decide (connection_key current = key) in
              let users := delete (csr_user_id reverse) (user_sessions_ m) in
              let current_connection := lock live (connection current) in
              if negb same_generation ||
                 bool_decide (current_connection = None) ||
                 bool_decide (current_connection ≠ Some conn)
              then
                (MkSessionManager
                   (if same_generation && bool_decide (current_connection = None)
                    then users else user_sessions_ m)
                   connections (next_epoch_ m), NoUnbind)
              else
                (MkSessionManager users connections (next_epoch_ m),
                 MkSessionUnbindResult true (csr_user_id reverse) (csr_epoch reverse))
          end
      end
  end.

Definition UnbindByConnection (live : Live) (m : SessionManager) (c : option Connection)
  : SessionManager := (UnbindIfCurrent live m c).1.

Definition FindSession (live : Live) (m : SessionManager) (user_id : Z) : option SessionSnapshot :=
  if user_id =? 0 then None
  else
    r ← user_sessions_ m !! user_id;
    c ← lock live (connection r);
    Some (MkSessionSnapshot user_id (epoch r) c).

Definition FindSessionByConnection (live : Live) (m : SessionManager) (c : option Connection)
  : option SessionSnapshot :=
  match c with
  | None => None
  | Some conn =>
      let key := ConnectionKey c in
      if bool_decide (key = "") then None
      else
        reverse ← connection_sessions_ m !! key;
        r ← user_sessions_ m !! csr_user_id reverse;
        if negb (epoch r =? csr_epoch reverse) || bool_decide (connection_key r ≠ key)
        then None
        else
          current ← lock live (connection r);
          if bool_decide (current ≠ conn) then None
          else Some (MkSessionSnapshot (csr_user_id reverse) (csr_epoch reverse) current)
  end.

Definition IsCurrent (live : Live) (m : SessionManager) (user_id epoch_ : Z)
    (c : option Connection) : bool :=
  match c with
  | None => false
  | Some conn =>
      if (user_id =? 0) || (epoch_ =? 0) then false
      else match user_sessions_ m !! user_id with
      | None => false
      | Some r =>
          if negb (epoch r =? epoch_) || bool_decide (connection_key r ≠ ConnectionKey c)
          then false
          else bool_decide (lock live (connection r) = Some conn)
      end
  end.

Definition FindConnection (live : Live) (m : SessionManager) (user_id : Z) : option Connection :=
  ss_connection <$> FindSession live m user_id.

Definition FindUserByConnection (live : Live) (m : SessionManager) (c : option Connection)
  : option Z := ss_user_id <$> FindSessionByConnection live m c.

Definition IsOnline (live : Live) (m : SessionManager) (user_id : Z) : bool :=
  bool_decide (is_Some (FindConnection live m user_id)).

Definition OnlineCount (m : SessionManager) : nat := size (user_sessions_ m).

#[global] Arguments BindOrReplace : simpl never.
#[global] Arguments UnbindIfCurrent : simpl never.
#[global] Arguments InstallSession : simpl never.
#[global] Arguments AllocateEpochLocked : simpl never.

(** ** Coherence of the two maps *)

(** The maps are inverse to each other, generation by generation. *)
Record coherent (m : SessionManager) : Prop := {
  coherent_user u r :
    user_sessions_ m !! u = Some r →
    connection_sessions_ m !! connection_key r = Some (MkConnectionSessionRecord u (epoch r)) ∧
    connection_key r = Name (connection r) ∧ connection_key r ≠ "" ∧ u ≠ 0 ∧ epoch r ≠ 0;
  coherent_connection k x :
    connection_sessions_ m !! k = Some x →
    ∃ r, user_sessions_ m !! csr_user_id x = Some r ∧ epoch r = csr_epoch x ∧
         connection_key r = k;
  coherent_next : 0 < next_epoch_ m < 2 ^ 64;
}.

(** Removing one session, both ways. *)
Definition without (m : SessionManager) (u : Z) (k : string) : SessionManager :=
  MkSessionManager (delete u (user_sessions_ m)) (delete k (connection_sessions_ m)) (next_epoch_ m).

Lemma without_user m u k u' r :
  user_sessions_ (without m u k) !! u' = Some r ↔ u ≠ u' ∧ user_sessions_ m !! u' = Some r.
Proof. apply lookup_delete_Some. Qed.

Lemma coherent_without m u r :
  coherent m → user_sessions_ m !! u = Some r → coherent (without m u (connection_key r)).
Proof.
  intros Hm Hr. destruct (coherent_user _ Hm _ _ Hr) as (Hk & _).
  split; simpl.
  - intros u' r' [Hne Hr']%lookup_delete_Some.
    destruct (coherent_user _ Hm _ _ Hr') as (Hk' & ?). split; [|done].
    rewrite lookup_delete_ne; [done|]. congruence.
  - intros k x [Hne Hx]%lookup_delete_Some.
    destruct (coherent_connection _ Hm _ _ Hx) as (r' & Hr' & ? & ?).
    exists r'. split; [|done]. rewrite lookup_delete_ne; [done|]. congruence.
  - apply Hm.
Qed.

Lemma DropUserSession_eq live m u k :
  coherent m →
  (DropUserSession live m u k).1 =
  match user_sessions_ m !! u with
  | Some r => without m u (connection_key r)
  | None => m
  end.
Proof.
  intros Hm. unfold DropUserSession. destruct (user_sessions_ m !! u) as [r|] eqn:Hr; [|done].
  destruct (coherent_user _ Hm _ _ Hr) as (-> & _). simpl. by rewrite !Z.eqb_refl.
Qed.

Lemma DropConnectionOwner_eq m k :
  coherent m →
  DropConnectionOwner m k =
  match connection_sessions_ m !! k with
  | Some x => without m (csr_user_id x) k
  | None => m
  end.
Proof.
  intros Hm. unfold DropConnectionOwner.
  destruct (connection_sessions_ m !! k) as [x|] eqn:Hx; [|done].
  destruct (coherent_connection _ Hm _ _ Hx) as (r & -> & -> & ->).
  by rewrite Z.eqb_refl, bool_decide_true.
Qed.

Lemma coherent_DropUserSession live m u k :
  coherent m →
  coherent (DropUserSession live m u k).1 ∧
  user_sessions_ (DropUserSession live m u k).1 !! u = None.
Proof.
  intros Hm. rewrite DropUserSession_eq by done.
  destruct (user_sessions_ m !! u) as [r|] eqn:Hr; [|done].
  split; [by apply coherent_without|]. apply lookup_delete_eq.
Qed.

Lemma coherent_DropConnectionOwner m k :
  coherent m →
  coherent (DropConnectionOwner m k) ∧ connection_sessions_ (DropConnectionOwner m k) !! k = None.
Proof.
  intros Hm. rewrite DropConnectionOwner_eq by done.
  destruct (connection_sessions_ m !! k) as [x|] eqn:Hx; [|done].
  split; [|apply lookup_delete_eq].
  destruct (coherent_connection _ Hm _ _ Hx) as (r & Hr & _ & <-). by apply coherent_without.
Qed.

Lemma AllocateEpochLocked_spec next :
  0 < next < 2 ^ 64 →
  AllocateEpochLocked next = (next, if next =? 2 ^ 64 - 1 then 1 else next + 1).
Proof.
  intros Hn. unfold AllocateEpochLocked, u64.
  destruct (Z.eqb_spec next 0); [lia|].
  destruct (Z.eqb_spec next (2 ^ 64 - 1)) as [->|]; [done|].
  rewrite Z.mod_small by lia. destruct (Z.eqb_spec (next + 1) 0); [lia|done].
Qed.

Lemma coherent_InstallSession m u c :
  coherent m → u ≠ 0 → Name c ≠ "" →
  user_sessions_ m !! u = None → connection_sessions_ m !! Name c = None →
  coherent (InstallSession m u c).1.
Proof.
  intros Hm Hu Hc Hnu Hnc. unfold InstallSession.
  rewrite AllocateEpochLocked_spec by apply Hm. split; simpl.
  - intros u' r [[<- <-]|[Hne Hr]]%lookup_insert_Some; simpl.
    + rewrite lookup_insert_eq. pose proof (coherent_next _ Hm). split_and!; try done. lia.
    + destruct (coherent_user _ Hm _ _ Hr) as (Hk & ?). split; [|done].
      rewrite lookup_insert_ne; [done|]. congruence.
  - intros k x [[<- <-]|[Hne Hx]]%lookup_insert_Some; simpl.
    + rewrite lookup_insert_eq. eauto.
    + destruct (coherent_connection _ Hm _ _ Hx) as (r & Hr & ?). exists r. split; [|done].
      rewrite lookup_insert_ne; [done|]. congruence.
  - pose proof (coherent_next _ Hm). destruct (Z.eqb_spec (next_epoch_ m) (2 ^ 64 - 1)); lia.
Qed.

(** What [BindOrReplace] leaves before installing the new session. *)
Definition Vacate (live : Live) (m : SessionManager) (u : Z) (k : string) : SessionManager :=
  DropConnectionOwner (DropUserSession live m u k).1 k.

Lemma coherent_Vacate live m u k :
  coherent m →
  coherent (Vacate live m u k) ∧ user_sessions_ (Vacate live m u k) !! u = None ∧
  connection_sessions_ (Vacate live m u k) !! k = None.
Proof.
  intros Hm. destruct (coherent_DropUserSession live m u k Hm) as [Hm1 Hu].
  destruct (coherent_DropConnectionOwner _ k Hm1) as [Hm2 Hk].
  unfold Vacate. split_and!; [done| |done].
  rewrite DropConnectionOwner_eq by done. case_match; [|done].
  simpl. rewrite lookup_delete. by case_decide.
Qed.

Lemma next_epoch_Vacate live m u k : next_epoch_ (Vacate live m u k) = next_epoch_ m.
Proof.
  unfold Vacate, DropConnectionOwner, DropUserSession. by repeat case_match.
Qed.

Lemma BindOrReplace_bound live m u c :
  u ≠ 0 → Name c ≠ "" →
  (BindOrReplace live m u (Some c)).1 = (InstallSession (Vacate live m u (Name c)) u c).1 ∧
  success (BindOrReplace live m u (Some c)).2 = true ∧
  bind_epoch (BindOrReplace live m u (Some c)).2 =
    (AllocateEpochLocked (next_epoch_ m)).1.
Proof.
  intros Hu Hc. unfold BindOrReplace, Vacate; simpl.
  destruct (Z.eqb_spec u 0); [done|]. rewrite bool_decide_false by done.
  rewrite <-(next_epoch_Vacate live m u (Name c)). unfold Vacate.
  destruct (DropUserSession live m u (Name c)) as [m1 old]. simpl.
  unfold InstallSession.
  by destruct (AllocateEpochLocked (next_epoch_ (DropConnectionOwner m1 (Name c)))).
Qed.

Lemma coherent_BindOrReplace live m u c :
  coherent m → coherent (BindOrReplace live m u c).1.
Proof.
  intros Hm. destruct c as [c|]; [|done].
  destruct (decide (u = 0)) as [->|Hu]; [done|].
  destruct (decide (Name c = "")) as [He|Hc].
  { unfold BindOrReplace; simpl. destruct (Z.eqb_spec u 0); [done|].
    by rewrite bool_decide_true. }
  destruct (BindOrReplace_bound live m u c Hu Hc) as (-> & _).
  destruct (coherent_Vacate live m u (Name c) Hm) as (? & ? & ?).
  by apply coherent_InstallSession.
Qed.

(** The connections that exist have distinct names. *)
Definition distinct_names (live : Live) : Prop :=
  ∀ c c', c ∈ live → c' ∈ live → Name c = Name c' → c = c'.

Lemma lock_Some live c c' : lock live c = Some c' ↔ c' = c ∧ c ∈ live.
Proof. unfold lock. case_bool_decide; split; naive_solver. Qed.

Lemma lock_None live c : lock live c = None ↔ c ∉ live.
Proof. unfold lock. case_bool_decide; naive_solver. Qed.

(** Unbinding an existing connection removes its session, both ways, or does
    nothing when it has none. *)
Lemma UnbindIfCurrent_eq live m c :
  coherent m → distinct_names live → c ∈ live →
  (UnbindIfCurrent live m (Some c)).1 =
  match connection_sessions_ m !! Name c with
  | Some x => without m (csr_user_id x) (Name c)
  | None => m
  end.
Proof.
  intros Hm Hlive Hc. unfold UnbindIfCurrent; simpl.
  destruct (connection_sessions_ m !! Name c) as [x|] eqn:Hx.
  2: { by case_bool_decide. }
  destruct (coherent_connection _ Hm _ _ Hx) as (r & Hr & He & Hk).
  destruct (coherent_user _ Hm _ _ Hr) as (_ & Hn & Hne & _).
  rewrite bool_decide_false by congruence.
  rewrite Hr, He, Hk, Z.eqb_refl, bool_decide_true by done. simpl.
  destruct (lock live (connection r)) as [c'|] eqn:Hl; simpl.
  - apply lock_Some in Hl as [-> Hlr].
    assert (connection r = c) as Heq by (apply Hlive; congruence).
    rewrite Heq, bool_decide_false by naive_solver. done.
  - done.
Qed.

Lemma coherent_UnbindIfCurrent live m c :
  coherent m → distinct_names live → c ∈ live →
  coherent (UnbindIfCurrent live m (Some c)).1.
Proof.
  intros Hm Hlive Hc. rewrite UnbindIfCurrent_eq by done.
  destruct (connection_sessions_ m !! Name c) as [x|] eqn:Hx; [|done].
  destruct (coherent_connection _ Hm _ _ Hx) as (r & Hr & _ & <-). by apply coherent_without.
Qed.

(** ** The sessions of a running gateway *)

(** [ever] holds the connection objects that have existed: an object does not
    come back once it is destroyed. *)
Record World := MkWorld { mgr : SessionManager; live : Live; ever : Live }.

(** Connections appear, with a name no existing connection has, and disappear;
    the gateway binds and unbinds existing ones. *)
Inductive Event :=
| EvOpen (c : Connection)
| EvDestroy (c : Connection)
| EvBind (user_id : Z) (c : Connection)
| EvUnbind (c : Connection).

Definition world_step (w : World) (ev : Event) : option World :=
  match ev with
  | EvOpen c =>
      if bool_decide (set_Exists (λ c', Name c' = Name c) (live w)) || bool_decide (c ∈ ever w)
      then None
      else Some (MkWorld (mgr w) ({[c]} ∪ live w) ({[c]} ∪ ever w))
  | EvDestroy c => Some (MkWorld (mgr w) (live w ∖ {[c]}) (ever w))
  | EvBind u c =>
      if bool_decide (c ∈ live w)
      then Some (MkWorld (BindOrReplace (live w) (mgr w) u (Some c)).1 (live w) (ever w))
      else None
  | EvUnbind c =>
      if bool_decide (c ∈ live w)
      then Some (MkWorld (UnbindIfCurrent (live w) (mgr w) (Some c)).1 (live w) (ever w))
      else None
  end.

Definition InitialWorld : World := MkWorld NewSessionManager ∅ ∅.

Record world_ok (w : World) : Prop := {
  ok_coherent : coherent (mgr w);
  ok_names : distinct_names (live w);
  ok_live : live w ⊆ ever w;
  ok_recorded u r : user_sessions_ (mgr w) !! u = Some r → connection r ∈ ever w;
}.

Lemma world_ok_initial : world_ok InitialWorld.
Proof.
  assert (coherent NewSessionManager) as Hc.
  { split; simpl; [intros ??; by rewrite lookup_empty..|lia]. }
  split; simpl; [done|intros c c' Hin; set_solver|done|intros ??; by rewrite lookup_empty].
Qed.

(** The user map after a bind: the user's record is new, the other records are
    old ones. *)
Lemma user_sessions_Vacate live m u k u' r :
  coherent m → user_sessions_ (Vacate live m u k) !! u' = Some r →
  user_sessions_ m !! u' = Some r.
Proof.
  intros Hm. destruct (coherent_DropUserSession live m u k Hm) as [Hm1 _].
  unfold Vacate. rewrite DropConnectionOwner_eq by done. intros Hr.
  assert (user_sessions_ (DropUserSession live m u k).1 !! u' = Some r) as Hr1.
  { destruct (connection_sessions_ (DropUserSession live m u k).1 !! k); [|done].
    by apply without_user in Hr as []. }
  rewrite DropUserSession_eq in Hr1 by done. destruct (user_sessions_ m !! u) eqn:E; [|done].
  by apply without_user in Hr1 as [].
Qed.

Lemma BindOrReplace_unbound live m u c :
  u = 0 ∨ Name c = "" → (BindOrReplace live m u (Some c)).1 = m.
Proof.
  unfold BindOrReplace; simpl. destruct (Z.eqb_spec u 0); [done|].
  by intros [?| ->].
Qed.

Lemma user_sessions_Bind live m u c u' r :
  coherent m → user_sessions_ (BindOrReplace live m u (Some c)).1 !! u' = Some r →
  user_sessions_ m !! u' = Some r ∨ u' = u ∧ r = MkSessionRecord c (next_epoch_ m) (Name c).
Proof.
  intros Hm. destruct (decide (u = 0 ∨ Name c = "")) as [Hbad|Hgood].
  { rewrite BindOrReplace_unbound by done. auto. }
  destruct (BindOrReplace_bound live m u c) as (-> & _); [naive_solver..|].
  unfold InstallSession. rewrite next_epoch_Vacate, AllocateEpochLocked_spec by apply Hm. simpl.
  intros [[<- <-]|[Hne Hr]]%lookup_insert_Some; [by right|].
  left. by eapply user_sessions_Vacate.
Qed.

Lemma user_sessions_Unbind live m c u r :
  coherent m → distinct_names live → c ∈ live →
  user_sessions_ (UnbindIfCurrent live m (Some c)).1 !! u = Some r →
  user_sessions_ m !! u = Some r.
Proof.
  intros. rewrite UnbindIfCurrent_eq in * by done. case_match; [|done].
  by apply without_user in H2 as [].
Qed.

Lemma world_ok_step w ev w' : world_ok w → world_step w ev = Some w' → world_ok w'.
Proof.
  intros [Hm Hl He Hr] Hs. destruct ev as [c|c|u c|c]; simpl in Hs.
  - destruct (bool_decide _ || _) eqn:Hc; simplify_eq. reflect_guards.
    split; simpl; [done| |set_solver|intros u r Hur; apply Hr in Hur; set_solver].
    intros c1 c2 [->%elem_of_singleton|H1]%elem_of_union [->%elem_of_singleton|H2]%elem_of_union Hn;
      [done| | |by apply Hl]; exfalso;
      match goal with H : ¬ set_Exists _ _ |- _ => apply H end; [exists c2|exists c1]; done.
  - simplify_eq. split; simpl; [done| |set_solver|done].
    intros c1 c2 ??. apply Hl; set_solver.
  - case_bool_decide as Hc; simplify_eq. split; simpl; [by apply coherent_BindOrReplace|done..|].
    intros u' r Hur. apply user_sessions_Bind in Hur as [Hur|[-> ->]]; [by eauto|by apply He|done].
  - case_bool_decide as Hc; simplify_eq. split; simpl; [by apply coherent_UnbindIfCurrent|done..|].
    intros u' r Hur. eapply Hr, user_sessions_Unbind; done.
Qed.

Lemma world_ok_run evs w : run world_step InitialWorld evs = Some w → world_ok w.
Proof. apply (run_invariant world_ok _ world_ok_step), world_ok_initial. Qed.

(** C37: whatever connections come and go and however users log in on them, the
    two maps of the session manager stay inverse to each other: a user's session
    record is found from its connection's name with the same epoch, a connection
    belongs to at most one user, and no stale reverse entry is left behind. *)
Theorem sessions_coherent (evs : list Event) (w : World) :
  run world_step InitialWorld evs = Some w → coherent (mgr w).
Proof. intros Hw. by apply world_ok_run in Hw as []. Qed.

Lemma sessions_coherent_witness :
  ∃ w, run world_step InitialWorld
         [EvOpen (MkConnection 1 "a"); EvBind 7 (MkConnection 1 "a"); EvOpen (MkConnection 2 "b");
          EvBind 7 (MkConnection 2 "b"); EvUnbind (MkConnection 1 "a")] = Some w ∧
       coherent (mgr w).
Proof.
  destruct (run world_step InitialWorld
         [EvOpen (MkConnection 1 "a"); EvBind 7 (MkConnection 1 "a"); EvOpen (MkConnection 2 "b");
          EvBind 7 (MkConnection 2 "b"); EvUnbind (MkConnection 1 "a")]) as [w|] eqn:Hw;
    [|vm_compute in Hw; discriminate].
  exists w. split; [reflexivity|]. apply (sessions_coherent _ _ Hw).
Defined.

(** ** What binding and unbinding do to the sessions *)

Lemma Vacate_user live m u k u' r :
  coherent m →
  user_sessions_ (Vacate live m u k) !! u' = Some r ↔
  user_sessions_ m !! u' = Some r ∧ u' ≠ u ∧ connection_key r ≠ k.
Proof.
  intros Hm. destruct (coherent_Vacate live m u k Hm) as (Hv & Hu & Hk). split.
  - intros Hr. split_and!; [by eapply user_sessions_Vacate|congruence|].
    intros <-. destruct (coherent_user _ Hv _ _ Hr) as (? & _). congruence.
  - intros (Hr & Hne & Hkey). destruct (coherent_DropUserSession live m u k Hm) as [Hm1 _].
    assert (user_sessions_ (DropUserSession live m u k).1 !! u' = Some r) as Hr1.
    { rewrite DropUserSession_eq by done. destruct (user_sessions_ m !! u) eqn:E; [|done].
      by apply without_user. }
    unfold Vacate. rewrite DropConnectionOwner_eq by done.
    destruct (connection_sessions_ (DropUserSession live m u k).1 !! k) as [x|] eqn:Hx; [|done].
    apply without_user. split; [|done]. intros Heq.
    destruct (coherent_connection _ Hm1 _ _ Hx) as (r' & Hr' & _ & Hk'). congruence.
Qed.

Lemma Unbind_user live m c u r :
  coherent m → distinct_names live → c ∈ live →
  user_sessions_ (UnbindIfCurrent live m (Some c)).1 !! u = Some r ↔
  user_sessions_ m !! u = Some r ∧ connection_key r ≠ Name c.
Proof.
  intros Hm Hl Hc. rewrite UnbindIfCurrent_eq by done.
  destruct (connection_sessions_ m !! Name c) as [x|] eqn:Hx.
  - destruct (coherent_connection _ Hm _ _ Hx) as (r' & Hr' & _ & Hk').
    rewrite without_user. split.
    + intros [Hne Hr]. split; [done|]. intros Heq.
      destruct (coherent_user _ Hm _ _ Hr) as (Hk & _). rewrite Heq, Hx in Hk. by simplify_eq.
    + intros [Hr Hne]. split; [|done]. intros Heq. congruence.
  - split; [|by intros []]. intros Hr. split; [done|]. intros Heq.
    destruct (coherent_user _ Hm _ _ Hr) as (Hk & _). congruence.
Qed.

(** Dropping the records of connection [c] ends exactly the session on it. *)
Lemma FindSession_dropped live m m' c u :
  coherent m → distinct_names live → c ∈ live →
  (∀ r, user_sessions_ m' !! u = Some r ↔
        user_sessions_ m !! u = Some r ∧ connection_key r ≠ Name c) →
  FindSession live m' u =
  if decide (FindConnection live m u = Some c) then None else FindSession live m u.
Proof.
  intros Hm Hl Hc Hu. unfold FindConnection, FindSession. destruct (u =? 0); [by case_decide|].
  destruct (user_sessions_ m !! u) as [r|] eqn:Hr; simpl.
  2: { destruct (user_sessions_ m' !! u) as [r|] eqn:Hr'; [|done].
       by destruct (proj1 (Hu r) eq_refl). }
  destruct (coherent_user _ Hm _ _ Hr) as (_ & Hk & _).
  destruct (decide (connection_key r = Name c)) as [Heq|Hne].
  - replace (user_sessions_ m' !! u) with (@None SessionRecord).
    2: { symmetry. apply eq_None_not_Some. intros [r' [? ?]%Hu]. congruence. }
    simpl. destruct (lock live (connection r)) as [c'|] eqn:Hlk; simpl; [|done].
    apply lock_Some in Hlk as [-> Hin]. rewrite decide_True; [done|].
    f_equal. apply Hl; congruence.
  - replace (user_sessions_ m' !! u) with (Some r) by (symmetry; by apply Hu). simpl.
    destruct (lock live (connection r)) as [c'|] eqn:Hlk; simpl; [|done].
    apply lock_Some in Hlk as [-> Hin]. rewrite decide_False; [done|]. congruence.
Qed.

Lemma FindSession_record live m u r :
  coherent m → user_sessions_ m !! u = Some r → connection r ∈ live →
  FindSession live m u = Some (MkSessionSnapshot u (epoch r) (connection r)).
Proof.
  intros Hm Hr Hin. destruct (coherent_user _ Hm _ _ Hr) as (_ & _ & _ & Hu & _).
  unfold FindSession. destruct (Z.eqb_spec u 0); [done|]. rewrite Hr. simpl.
  unfold lock. by rewrite bool_decide_true.
Qed.

Lemma IsCurrent_iff live m u e c :
  coherent m →
  IsCurrent live m u e (Some c) = true ↔
  FindSession live m u = Some (MkSessionSnapshot u e c).
Proof.
  intros Hm. unfold IsCurrent, FindSession; simpl.
  destruct (Z.eqb_spec u 0); [done|]. simpl.
  destruct (user_sessions_ m !! u) as [r|] eqn:Hr; simpl; [|by destruct (e =? 0)].
  destruct (coherent_user _ Hm _ _ Hr) as (_ & Hk & _ & _ & He).
  destruct (Z.eqb_spec (epoch r) e) as [<-|Hne]; simpl.
  - destruct (Z.eqb_spec (epoch r) 0); [done|].
    destruct (lock live (connection r)) as [c'|] eqn:Hl; simpl.
    + apply lock_Some in Hl as [-> Hin]. destruct (decide (connection r = c)) as [<-|Hcne].
      * rewrite bool_decide_false by naive_solver. by rewrite bool_decide_true.
      * case_bool_decide; [|rewrite bool_decide_false by congruence]; split; congruence.
    + by case_bool_decide.
  - destruct (e =? 0); (split; [done|]); destruct (lock live (connection r)); simpl; congruence.
Qed.

Lemma FindSessionByConnection_iff live m c s :
  coherent m → c ∈ live → distinct_names live →
  FindSessionByConnection live m (Some c) = Some s ↔
  FindSession live m (ss_user_id s) = Some s ∧ ss_connection s = c.
Proof.
  intros Hm Hc Hl. unfold FindSessionByConnection; simpl. split.
  - case_bool_decide; [done|].
    destruct (connection_sessions_ m !! Name c) as [x|] eqn:Hx; simpl; [|done].
    destruct (coherent_connection _ Hm _ _ Hx) as (r & Hr & He & Hk). rewrite Hr; simpl.
    rewrite He, Hk, Z.eqb_refl, bool_decide_false by naive_solver. simpl.
    destruct (lock live (connection r)) as [c'|] eqn:Hlk; simpl; [|done].
    apply lock_Some in Hlk as [-> Hin].
    destruct (decide (connection r = c)) as [Hrc|]; [|by rewrite bool_decide_true].
    rewrite bool_decide_false by naive_solver. intros ?; simplify_eq/=.
    split; [|done]. rewrite (FindSession_record live m (csr_user_id x) r) by done.
    by rewrite He.
  - intros [Hf <-]. unfold FindSession in Hf. destruct (Z.eqb_spec (ss_user_id s) 0); [done|].
    destruct (user_sessions_ m !! ss_user_id s) as [r|] eqn:Hr; simplify_eq/=.
    destruct (lock live (connection r)) as [c'|] eqn:Hlk; simplify_eq/=.
    apply lock_Some in Hlk as [-> Hin].
    destruct (coherent_user _ Hm _ _ Hr) as (Hx & Hk & Hne & _). rewrite <-Hf; simpl.
    rewrite <-Hk, bool_decide_false by done. rewrite Hx; simpl. rewrite <-Hf in Hr; simpl in Hr.
    rewrite Hr; simpl. rewrite Z.eqb_refl, bool_decide_false by naive_solver; simpl.
    unfold lock. rewrite bool_decide_true by done; simpl. by rewrite bool_decide_false by naive_solver.
Qed.

(** ** Properties of the session manager *)

Lemma replaced_old_connection live m u c :
  coherent m → distinct_names live → c ∈ live → u ≠ 0 → Name c ≠ "" →
  old_connection (BindOrReplace live m u (Some c)).2 =
    (c' ← FindConnection live m u; if decide (c' = c) then None else Some c').
Proof.
  intros Hm Hl Hc Hu Hn. unfold BindOrReplace; simpl.
  destruct (Z.eqb_spec u 0); [done|]. rewrite bool_decide_false by done.
  destruct (DropUserSession live m u (Name c)) as [m1 old] eqn:Hd.
  destruct (InstallSession (DropConnectionOwner m1 (Name c)) u c) as [m3 e]. simpl.
  unfold DropUserSession in Hd. unfold FindConnection, FindSession.
  destruct (Z.eqb_spec u 0); [done|].
  destruct (user_sessions_ m !! u) as [r|] eqn:Hr; simplify_eq/=; [|done].
  destruct (coherent_user _ Hm _ _ Hr) as (_ & Hk & _).
  destruct (lock live (connection r)) as [c'|] eqn:Hlk; simpl; [|done].
  apply lock_Some in Hlk as [-> Hin]. case_decide as Hcc.
  - rewrite bool_decide_false; [done|]. intros H; apply H. congruence.
  - rewrite bool_decide_true; [done|]. intros ?. apply Hcc, Hl; congruence.
Qed.

(** binding user [u] to an existing connection [c] succeeds with a non-zero
    epoch; afterwards [u]'s session, the session on [c] and the current
    generation all are that one; the connection [u] was on before, when it still
    exists and is another one, is reported for closing; another user's session
    ends exactly when it was on [c], and is otherwise untouched. *)
Theorem bind_or_replace_functional (w : World) (u : Z) (c : Connection) m' r :
  world_ok w → c ∈ live w → u ≠ 0 → Name c ≠ "" →
  BindOrReplace (live w) (mgr w) u (Some c) = (m', r) →
  let s := MkSessionSnapshot u (bind_epoch r) c in
  success r = true ∧ bind_epoch r ≠ 0 ∧
  FindSession (live w) m' u = Some s ∧
  FindSessionByConnection (live w) m' (Some c) = Some s ∧
  IsCurrent (live w) m' u (bind_epoch r) (Some c) = true ∧
  old_connection r =
    (c' ← FindConnection (live w) (mgr w) u; if decide (c' = c) then None else Some c') ∧
  ∀ u', u' ≠ u →
    FindSession (live w) m' u' =
    if decide (FindConnection (live w) (mgr w) u' = Some c) then None
    else FindSession (live w) (mgr w) u'.
Proof.
  intros [Hm Hl _ _] Hc Hu Hn Hb s.
  destruct (BindOrReplace_bound (live w) (mgr w) u c Hu Hn) as (Hm' & Hs & He).
  pose proof (coherent_BindOrReplace (live w) (mgr w) u (Some c) Hm) as Hcoh.
  pose proof (replaced_old_connection (live w) (mgr w) u c Hm Hl Hc Hu Hn) as Hold.
  rewrite AllocateEpochLocked_spec in He by apply Hm.
  rewrite Hb in *; cbn [fst snd] in *.
  assert (user_sessions_ m' !! u = Some (MkSessionRecord c (bind_epoch r) (Name c))) as Hur.
  { rewrite Hm', He. unfold InstallSession.
    rewrite next_epoch_Vacate, AllocateEpochLocked_spec by apply Hm. apply lookup_insert_eq. }
  assert (FindSession (live w) m' u = Some s) as Hf by (by apply (FindSession_record _ _ _ _ Hcoh Hur)).
  split_and!; [done|pose proof (coherent_next _ Hm); lia|done| |by apply IsCurrent_iff|done|].
  { by apply FindSessionByConnection_iff. }
  intros u' Hne. apply FindSession_dropped; [done..|]. intros r'. rewrite Hm'.
  unfold InstallSession. destruct (AllocateEpochLocked _). simpl.
  rewrite lookup_insert_ne by done. rewrite Vacate_user by done. naive_solver.
Qed.

(** Unbinding an existing connection [c] ends exactly the session that is on
    [c]: every other session keeps its user, epoch and connection, so the late
    disconnect of a connection a user has already left never ends the user's new
    session.  The result reports the session that ended. *)
Theorem unbind_exact (w : World) (c : Connection) m' r :
  world_ok w → c ∈ live w → UnbindIfCurrent (live w) (mgr w) (Some c) = (m', r) →
  (∀ u, FindSession (live w) m' u =
        if decide (FindConnection (live w) (mgr w) u = Some c) then None
        else FindSession (live w) (mgr w) u) ∧
  r = match FindSessionByConnection (live w) (mgr w) (Some c) with
      | Some s => MkSessionUnbindResult true (ss_user_id s) (ss_epoch s)
      | None => NoUnbind
      end.
Proof.
  intros [Hm Hl _ _] Hc Hb. split.
  { intros u. apply FindSession_dropped; [done..|]. intros r'.
    replace m' with (UnbindIfCurrent (live w) (mgr w) (Some c)).1 by (by rewrite Hb).
    by apply Unbind_user. }
  revert Hb. unfold UnbindIfCurrent, FindSessionByConnection; simpl.
  case_bool_decide; [naive_solver|].
  destruct (connection_sessions_ (mgr w) !! Name c) as [x|] eqn:Hx; simpl; [|naive_solver].
  destruct (coherent_connection _ Hm _ _ Hx) as (rec & Hr & He & Hk).
  rewrite Hr; cbn [mbind option_bind]. rewrite He, Hk, Z.eqb_refl.
  destruct (lock (live w) (connection rec)) as [c'|] eqn:Hlk; cbn [mbind option_bind].
  - destruct (decide (c' = c)) as [->|Hne]; repeat case_bool_decide; simpl;
      try congruence; exfalso; match goal with H : ¬ (_ ≠ _) |- _ => apply H; congruence end.
  - repeat case_bool_decide; simpl; congruence.
Qed.

(** The world the witnesses use: user 7 logged in on "a", then on "b". *)
Definition conn_a : Connection := MkConnection 1 "a".
Definition conn_b : Connection := MkConnection 2 "b".
Definition demo_events : list Event :=
  [EvOpen conn_a; EvBind 7 conn_a; EvOpen conn_b].
Definition demo_world : World := default InitialWorld (run world_step InitialWorld demo_events).

Lemma demo_world_ok : world_ok demo_world.
Proof. apply (world_ok_run demo_events). vm_compute. reflexivity. Qed.

Lemma bind_or_replace_functional_witness :
  let r := (BindOrReplace (live demo_world) (mgr demo_world) 7 (Some conn_b)).2 in
  success r = true ∧ bind_epoch r = 2 ∧ old_connection r = Some conn_a.
Proof.
  destruct (bind_or_replace_functional demo_world 7 conn_b
    (BindOrReplace (live demo_world) (mgr demo_world) 7 (Some conn_b)).1
    (BindOrReplace (live demo_world) (mgr demo_world) 7 (Some conn_b)).2)
    as (Hs & _ & _ & _ & _ & Ho & _).
  - apply demo_world_ok.
  - vm_compute. reflexivity.
  - done.
  - done.
  - apply surjective_pairing.
  - split; [exact Hs|]. split; [vm_compute; reflexivity|]. rewrite Ho. vm_compute. reflexivity.
Defined.

Lemma unbind_exact_witness :
  let w := default InitialWorld (world_step demo_world (EvBind 7 conn_b)) in
  FindSession (live w) (UnbindIfCurrent (live w) (mgr w) (Some conn_a)).1 7 =
  Some (MkSessionSnapshot 7 2 conn_b).
Proof.
  cbv zeta.
  destruct (unbind_exact (default InitialWorld (world_step demo_world (EvBind 7 conn_b))) conn_a
    (UnbindIfCurrent (live (default InitialWorld (world_step demo_world (EvBind 7 conn_b))))
       (mgr (default InitialWorld (world_step demo_world (EvBind 7 conn_b)))) (Some conn_a)).1
    (UnbindIfCurrent (live (default InitialWorld (world_step demo_world (EvBind 7 conn_b))))
       (mgr (default InitialWorld (world_step demo_world (EvBind 7 conn_b)))) (Some conn_a)).2)
    as (Hf & _).
  - apply (world_ok_run (demo_events ++ [EvBind 7 conn_b])). vm_compute. reflexivity.
  - vm_compute. reflexivity.
  - apply surjective_pairing.
  - rewrite Hf. vm_compute. reflexivity.
Defined.

(** *** Generations *)

(** Generation [(u, e, c)] has been issued and is no longer current. *)
Definition superseded (w : World) (u e : Z) (c : Connection) : Prop :=
  e < next_epoch_ (mgr w) ∧
  ∀ r, user_sessions_ (mgr w) !! u = Some r → epoch r = e → connection r = c → c ∉ live w.

Lemma next_epoch_step w ev w' :
  world_ok w → world_step w ev = Some w' → next_epoch_ (mgr w) < 2 ^ 64 - 1 →
  next_epoch_ (mgr w) ≤ next_epoch_ (mgr w') ≤ next_epoch_ (mgr w) + 1.
Proof.
  intros [Hm Hl _ _] Hs Hn.
  destruct ev as [c|c|u c|c]; simpl in Hs.
  - case_match; simplify_eq/=. lia.
  - simplify_eq/=. lia.
  - case_bool_decide; simplify_eq/=. destruct (decide (u = 0 ∨ Name c = "")) as [Hbad|Hgood].
    { rewrite BindOrReplace_unbound by done. lia. }
    destruct (BindOrReplace_bound (live w) (mgr w) u c) as (-> & _); [naive_solver..|].
    unfold InstallSession. rewrite next_epoch_Vacate, AllocateEpochLocked_spec by apply Hm.
    cbn [fst next_epoch_]. destruct (Z.eqb_spec (next_epoch_ (mgr w)) (2 ^ 64 - 1)); lia.
  - case_bool_decide; simplify_eq/=. rewrite UnbindIfCurrent_eq by done.
    case_match; simpl; lia.
Qed.

Lemma superseded_step w ev w' u e c :
  world_ok w → superseded w u e c → c ∈ ever w → world_step w ev = Some w' →
  next_epoch_ (mgr w) < 2 ^ 64 - 1 → superseded w' u e c ∧ c ∈ ever w'.
Proof.
  intros Hok [He Hst] Hc Hs Hn. pose proof (next_epoch_step w ev w' Hok Hs Hn) as Hnext.
  destruct Hok as [Hm Hl _ _].
  assert (c ∈ ever w') as Hc'.
  { destruct ev; simpl in Hs; case_hyps Hs; set_solver. }
  split; [split; [lia|]|done]. intros r Hr Her Hcr.
  destruct ev as [c'|c'|u' c'|c']; simpl in Hs.
  - destruct (bool_decide _ || _) eqn:Hg; simplify_eq/=. reflect_guards.
    apply not_elem_of_union. split; [|by eapply Hst]. set_solver.
  - simplify_eq/=. pose proof (Hst r Hr eq_refl eq_refl). set_solver.
  - case_bool_decide; simplify_eq/=.
    apply user_sessions_Bind in Hr as [Hr|[-> ->]]; [by eapply Hst| |done]. simpl in *. lia.
  - case_bool_decide; simplify_eq/=. eapply Hst; [|done..].
    by eapply user_sessions_Unbind.
Qed.

Lemma superseded_run evs w w' u e c :
  world_ok w → superseded w u e c → c ∈ ever w → run world_step w evs = Some w' →
  next_epoch_ (mgr w) + Z.of_nat (length evs) < 2 ^ 64 → superseded w' u e c ∧ world_ok w'.
Proof.
  revert w. induction evs as [|ev evs IH]; intros w Hok Hs Hc Hr Hn; simplify_eq/=; [done|].
  destruct (world_step w ev) as [w1|] eqn:Hw1; simplify_eq/=.
  destruct (superseded_step w ev w1 u e c) as [Hs1 Hc1]; [done..|lia|].
  pose proof (next_epoch_step w ev w1 Hok Hw1 ltac:(lia)).
  eapply (IH w1); [by eapply world_ok_step|done..|lia].
Qed.

(** A session generation that has been issued and is not current any more
    (replaced, unbound, or its connection gone) is never current again, through
    any further history short of the 2^64 - 1 logins after which epochs repeat:
    work queued under an old generation can always be recognised as stale. *)
Theorem stale_generation_never_current (evs evs' : list Event) (w w' : World) u e c :
  run world_step InitialWorld evs = Some w → c ∈ ever w → e < next_epoch_ (mgr w) →
  IsCurrent (live w) (mgr w) u e (Some c) = false →
  run world_step w evs' = Some w' →
  next_epoch_ (mgr w) + Z.of_nat (length evs') < 2 ^ 64 →
  IsCurrent (live w') (mgr w') u e (Some c) = false.
Proof.
  intros Hw%world_ok_run Hc He Hcur Hw' Hn.
  assert (superseded w u e c) as Hs.
  { split; [done|]. intros r Hr <- <- Hin. apply not_true_iff_false in Hcur. apply Hcur.
    apply IsCurrent_iff; [apply Hw|]. apply FindSession_record; [apply Hw|done..]. }
  destruct (superseded_run evs' w w' u e c Hw Hs Hc Hw' Hn) as [[_ Hs'] Hok'].
  apply not_true_iff_false. rewrite IsCurrent_iff by apply Hok'.
  unfold FindSession. destruct (u =? 0); [done|].
  destruct (user_sessions_ (mgr w') !! u) as [r|] eqn:Hr; simpl; [|done].
  destruct (lock (live w') (connection r)) as [c'|] eqn:Hlk; simpl; [|done].
  apply lock_Some in Hlk as [-> Hin]. intros ?; simplify_eq. by eapply Hs'.
Qed.

Lemma stale_generation_never_current_witness :
  let w := default InitialWorld (world_step demo_world (EvBind 7 conn_b)) in
  let w' := default InitialWorld (run world_step w [EvUnbind conn_b; EvBind 7 conn_a]) in
  IsCurrent (live w') (mgr w') 7 1 (Some conn_a) = false.
Proof.
  cbv zeta.
  apply (stale_generation_never_current (demo_events ++ [EvBind 7 conn_b])
           [EvUnbind conn_b; EvBind 7 conn_a]
           (default InitialWorld (world_step demo_world (EvBind 7 conn_b)))).
  all: vm_compute; reflexivity.
Defined.
