(* ===== verification/DeliveryIdentity.v ===== *)
(** * Delivery identities

    Models [src/gateway/DeliveryIdentity.h], the key under which a delivery to a
    recipient is tracked, and [src/gateway/PresenceOrderingKey.h] and
    [src/gateway/GroupDeliveryOrdering.h], the keys under which the gateway
    orders work.  [std::hash<std::uint64_t>] and the environment are arguments. *)
From Stdlib Require Import ZArith Lia.
From stdpp Require Import base gmap numbers.
From S2P Require Import Prelude.

Local Open Scope Z_scope.
Local Open Scope width_scope.

Inductive DeliveryDomain := kPrivateMessage | kGroupMessage.

#[export] Instance DeliveryDomain_eq_dec : EqDecision DeliveryDomain.
Proof. solve_decision. Defined.
#[export] Instance DeliveryDomain_countable : Countable DeliveryDomain.
Proof.
  apply (inj_countable' (λ d, match d with kPrivateMessage => true | kGroupMessage => false end)
           (λ b : bool, if b then kPrivateMessage else kGroupMessage)).
  by intros [].
Defined.

Record DeliveryIdentity := MkDeliveryIdentity {
  domain : DeliveryDomain;
  message_id : Z;
  recipient_user_id : Z;
}.

#[export] Instance DeliveryIdentity_eq_dec : EqDecision DeliveryIdentity.
Proof. solve_decision. Defined.
#[export] Instance DeliveryIdentity_countable : Countable DeliveryIdentity.
Proof.
  apply (inj_countable' (λ i, (domain i, message_id i, recipient_user_id i))
           (λ p, MkDeliveryIdentity p.1.1 p.1.2 p.2)).
  by intros [].
Defined.

(** [DeliveryIdentity::Valid]. *)
Definition Valid (i : DeliveryIdentity) : bool :=
  negb (message_id i =? 0) && negb (recipient_user_id i =? 0).

Definition PrivateDeliveryIdentity (message_id recipient_user_id : Z) : DeliveryIdentity :=
  MkDeliveryIdentity kPrivateMessage message_id recipient_user_id.

Definition GroupDeliveryIdentity (message_id recipient_user_id : Z) : DeliveryIdentity :=
  MkDeliveryIdentity kGroupMessage message_id recipient_user_id.

Definition DomainValue (d : DeliveryDomain) : Z :=
  match d with kPrivateMessage => 1 | kGroupMessage => 2 end.

Definition DeliveryIdentityHash (hash : Z → Z) (value : DeliveryIdentity) : Z :=
  let a := DomainValue (domain value) in
  let b := hash (message_id value) in
  let c := hash (recipient_user_id value) in
  Z.lxor (Z.lxor a (((b +₆₄ 0x9e3779b97f4a7c15) +₆₄ u64 (Z.shiftl a 6)) +₆₄ Z.shiftr a 2))
         (((c +₆₄ 0x9e3779b97f4a7c15) +₆₄ u64 (Z.shiftl b 6)) +₆₄ Z.shiftr b 2).

(** [recipient_order_enabled] is the setting read from the environment. *)
Definition GroupDeliveryOrderingKey (hash : Z → Z) (recipient_order_enabled : bool)
    (message_id recipient_user_id : Z) : Z :=
  if negb recipient_order_enabled then message_id
  else DeliveryIdentityHash hash (GroupDeliveryIdentity message_id recipient_user_id).

Definition PresenceUserOrderingKey (user_id : Z) : Z :=
  Z.lxor user_id 0x70726573656e6365.

Lemma lxor_is_u64 x y : is_u64 x → is_u64 y → is_u64 (Z.lxor x y).
Proof.
  intros [Hx0 Hx] [Hy0 Hy].
  assert (0 ≤ Z.lxor x y) as Hnn by (apply Z.lxor_nonneg; lia). split; [done|].
  destruct (decide (Z.lxor x y = 0)) as [->|Hne]; [lia|].
  apply Z.log2_lt_cancel. change (Z.log2 (2 ^ 64)) with 64.
  pose proof (Z.log2_lxor x y Hx0 Hy0).
  assert (Z.log2 x < 64) by (destruct (decide (x = 0)) as [->|]; [done|apply Z.log2_lt_pow2; lia]).
  assert (Z.log2 y < 64) by (destruct (decide (y = 0)) as [->|]; [done|apply Z.log2_lt_pow2; lia]).
  lia.
Qed.

Lemma PresenceUserOrderingKey_involutive u :
  PresenceUserOrderingKey (PresenceUserOrderingKey u) = u.
Proof.
  unfold PresenceUserOrderingKey. by rewrite Z.lxor_assoc, Z.lxor_nilpotent, Z.lxor_0_r.
Qed.

(** The presence ordering key is a bijection of the 64-bit user ids: work of
    two users is serialised together only if they are the same user, and every
    key is that of a user. *)
Theorem presence_key_bijection u :
  is_u64 u →
  is_u64 (PresenceUserOrderingKey u) ∧
  PresenceUserOrderingKey (PresenceUserOrderingKey u) = u ∧
  (∀ v, PresenceUserOrderingKey v = PresenceUserOrderingKey u → v = u).
Proof.
  intros Hu. split_and!.
  - apply lxor_is_u64; [done|]. split; lia.
  - apply PresenceUserOrderingKey_involutive.
  - intros v Hv. apply (f_equal PresenceUserOrderingKey) in Hv.
    by rewrite !PresenceUserOrderingKey_involutive in Hv.
Qed.

Lemma presence_key_bijection_witness : is_u64 (PresenceUserOrderingKey 10001).
Proof. apply (presence_key_bijection 10001). split; lia. Defined.
