(* ===== verification/MessageDeliveryDeduplicator.v ===== *)
(** * Deduplication of delivery work in one gateway process

    Models [src/gateway/MessageDeliveryDeduplicator.h] and
    [MessageDeliveryDeduplicator.cpp]: which deliveries are being executed, and
    the most recent ones that were delivered. *)
From Stdlib Require Import ZArith Lia.
From stdpp Require Import base gmap list numbers.
From S2P Require Import Prelude DeliveryIdentity.

(** ** Data *)

Inductive MessageDeliveryDedupBeginStatus :=
| kAcquired | kAlreadyProcessing | kAlreadyDelivered | kInvalidArgument.

Inductive State := kProcessing | kDelivered.

#[export] Instance State_eq_dec : EqDecision State.
Proof. solve_decision. Defined.

Record Deduplicator := MkDeduplicator {
  max_recent_delivered_ : nat;
  states_ : gmap DeliveryIdentity State;
  delivered_order_ : list DeliveryIdentity;
}.

Definition NewDeduplicator (max_recent_delivered : nat) : Deduplicator :=
  MkDeduplicator (Nat.max max_recent_delivered 1) ∅ [].

(** ** Operations *)

Definition Begin (d : Deduplicator) (identity : DeliveryIdentity)
  : Deduplicator * MessageDeliveryDedupBeginStatus :=
  if negb (Valid identity) then (d, kInvalidArgument)
  else match states_ d !! identity with
  | None => (MkDeduplicator (max_recent_delivered_ d)
               (<[identity := kProcessing]> (states_ d)) (delivered_order_ d), kAcquired)
  | Some kDelivered => (d, kAlreadyDelivered)
  | Some kProcessing => (d, kAlreadyProcessing)
  end.

(** The loop of [TrimDeliveredLocked]. *)
Fixpoint TrimLoop (max : nat) (states : gmap DeliveryIdentity State) (order : list DeliveryIdentity)
  : gmap DeliveryIdentity State * list DeliveryIdentity :=
  match order with
  | [] => (states, [])
  | oldest :: rest =>
      if max <? length order then
        TrimLoop max
          (if decide (states !! oldest = Some kDelivered) then delete oldest states else states)
          rest
      else (states, order)
  end.

Definition TrimDeliveredLocked (d : Deduplicator) : Deduplicator :=
  let '(states, order) := TrimLoop (max_recent_delivered_ d) (states_ d) (delivered_order_ d) in
  MkDeduplicator (max_recent_delivered_ d) states order.

Definition MarkDelivered (d : Deduplicator) (identity : DeliveryIdentity) : Deduplicator * bool :=
  if negb (Valid identity) then (d, false)
  else match states_ d !! identity with
  | None => (d, false)
  | Some kDelivered => (d, true)
  | Some kProcessing =>
      (TrimDeliveredLocked
         (MkDeduplicator (max_recent_delivered_ d) (<[identity := kDelivered]> (states_ d))
                         (delivered_order_ d ++ [identity])), true)
  end.

Definition Abort_ (d : Deduplicator) (identity : DeliveryIdentity) : Deduplicator * bool :=
  if negb (Valid identity) then (d, false)
  else match states_ d !! identity with
  | None => (d, true)
  | Some kDelivered => (d, false)
  | Some kProcessing =>
      (MkDeduplicator (max_recent_delivered_ d) (delete identity (states_ d)) (delivered_order_ d),
       true)
  end.

(** The private-message overloads. *)
Definition kPrivateCompatibilityRecipient : Z := 1.

Definition BeginPrivate (d : Deduplicator) (message_id : Z) :=
  Begin d (PrivateDeliveryIdentity message_id kPrivateCompatibilityRecipient).
Definition MarkDeliveredPrivate (d : Deduplicator) (message_id : Z) :=
  MarkDelivered d (PrivateDeliveryIdentity message_id kPrivateCompatibilityRecipient).
Definition AbortPrivate (d : Deduplicator) (message_id : Z) :=
  Abort_ d (PrivateDeliveryIdentity message_id kPrivateCompatibilityRecipient).

Definition Size (d : Deduplicator) : nat := size (states_ d).
Definition DeliveredCount (d : Deduplicator) : nat := length (delivered_order_ d).

(** ** Invariant *)

(** [delivered_order_] lists the delivered identities, each once, and is bounded. *)
Record dedup_ok (d : Deduplicator) : Prop := {
  ok_max : 1 ≤ max_recent_delivered_ d;
  ok_bound : length (delivered_order_ d) ≤ max_recent_delivered_ d;
  ok_nodup : NoDup (delivered_order_ d);
  ok_order i : i ∈ delivered_order_ d ↔ states_ d !! i = Some kDelivered;
}.

Lemma dedup_ok_new n : dedup_ok (NewDeduplicator n).
Proof.
  split; simpl; [lia|lia|constructor|].
  intros i. rewrite lookup_empty. split; [set_solver|done].
Qed.

(** After one delivery the order exceeds its bound by at most one, so trimming
    forgets the oldest identity or nothing. *)
Lemma TrimDeliveredLocked_eq max states order :
  1 ≤ max → length order ≤ max →
  ∀ i, i ∉ order →
  (∀ j, j ∈ order → states !! j = Some kDelivered) →
  TrimLoop max (<[i := kDelivered]> states) (order ++ [i]) =
  if decide (length order = max) then
    match order with
    | oldest :: rest => (delete oldest (<[i := kDelivered]> states), rest ++ [i])
    | [] => (<[i := kDelivered]> states, [i])
    end
  else (<[i := kDelivered]> states, order ++ [i]).
Proof.
  intros Hmax Hlen i Hi Hst. destruct order as [|o rest]; simpl in *.
  { by destruct max as [|m]; [lia|]. }
  rewrite length_app; simpl. destruct (Nat.ltb_spec max (S (length rest + 1))).
  - rewrite (decide_True (P := S (length rest) = max)) by lia.
    rewrite decide_True.
    2: { rewrite lookup_insert_ne by set_solver. apply Hst. set_solver. }
    assert (length (rest ++ [i]) = max) as Hl by (rewrite length_app; simpl; lia).
    destruct (rest ++ [i]) as [|x l] eqn:E; [done|]. simpl.
    destruct (Nat.ltb_spec max (S (length l))); [simpl in Hl; lia|done].
  - by rewrite decide_False by lia.
Qed.

(** Trimming as the invariant sees it. *)
Lemma MarkDelivered_ok d i :
  dedup_ok d → dedup_ok (MarkDelivered d i).1.
Proof.
  intros [Hmax Hb Hnd Ho]. unfold MarkDelivered.
  destruct (Valid i); simpl; [|done].
  destruct (states_ d !! i) as [[|]|] eqn:Hi; simpl; try done.
  assert (i ∉ delivered_order_ d) as Hni by (rewrite Ho; congruence).
  unfold TrimDeliveredLocked; simpl.
  rewrite TrimDeliveredLocked_eq by (try done; intros j; apply Ho).
  destruct (decide (length (delivered_order_ d) = max_recent_delivered_ d)) as [Hl|Hl].
  - destruct (delivered_order_ d) as [|o rest] eqn:Hord; [simpl in *; lia|].
    apply list.NoDup_cons in Hnd as [Hor Hnd].
    split; simpl in *; [done|rewrite length_app; simpl; lia| |].
    + apply list.NoDup_app. split_and!; [done| |apply NoDup_singleton]. set_solver.
    + intros j. rewrite lookup_delete, lookup_insert. specialize (Ho j).
      case_decide; [set_solver|]. case_decide; set_solver.
  - split; simpl; [done|rewrite length_app; simpl; lia| |].
    + apply list.NoDup_app. split_and!; [done| |apply NoDup_singleton]. set_solver.
    + intros j. rewrite lookup_insert. specialize (Ho j). case_decide; set_solver.
Qed.

(** ** Histories *)

Inductive DedupOp :=
| OpBegin (i : DeliveryIdentity)
| OpMarkDelivered (i : DeliveryIdentity)
| OpAbort (i : DeliveryIdentity).

Definition dedup_step (d : Deduplicator) (op : DedupOp) : Deduplicator :=
  match op with
  | OpBegin i => (Begin d i).1
  | OpMarkDelivered i => (MarkDelivered d i).1
  | OpAbort i => (Abort_ d i).1
  end.

Definition dedup_run : Deduplicator → list DedupOp → Deduplicator := foldl dedup_step.

Lemma dedup_ok_step d op : dedup_ok d → dedup_ok (dedup_step d op).
Proof.
  intros Hd. pose proof Hd as [Hmax Hb Hnd Ho]. destruct op as [i|i|i]; simpl.
  - unfold Begin. destruct (Valid i); simpl; [|done].
    destruct (states_ d !! i) as [[|]|] eqn:Hi; simpl; try done.
    split; simpl; try done. intros j. rewrite Ho, lookup_insert. case_decide; naive_solver.
  - by apply MarkDelivered_ok.
  - unfold Abort_. destruct (Valid i); simpl; [|done].
    destruct (states_ d !! i) as [[|]|] eqn:Hi; simpl; try done.
    split; simpl; try done. intros j. rewrite Ho, lookup_delete. case_decide; naive_solver.
Qed.

Lemma dedup_ok_run d ops : dedup_ok d → dedup_ok (dedup_run d ops).
Proof. revert d. induction ops; simpl; eauto using dedup_ok_step. Qed.

Lemma states_MarkDelivered_ne d i j :
  dedup_ok d → i ≠ j → states_ d !! j ≠ Some kDelivered →
  states_ (MarkDelivered d i).1 !! j = states_ d !! j.
Proof.
  intros [Hmax Hb Hnd Ho] Hne Hj. unfold MarkDelivered.
  destruct (Valid i); simpl; [|done].
  destruct (states_ d !! i) as [[|]|] eqn:Hi; simpl; try done.
  unfold TrimDeliveredLocked; simpl.
  rewrite TrimDeliveredLocked_eq by (first [done|rewrite Ho; congruence|intros ?; apply Ho]).
  repeat case_match; simplify_eq/=; rewrite ?lookup_delete_ne, ?lookup_insert_ne;
    try done; intros ->; apply Hj, Ho; set_solver.
Qed.

(** A delivery in execution is forgotten only by its own completion or abort. *)
Lemma processing_step d op i :
  dedup_ok d → states_ d !! i = Some kProcessing →
  op ≠ OpMarkDelivered i → op ≠ OpAbort i →
  states_ (dedup_step d op) !! i = Some kProcessing.
Proof.
  intros Hd Hi Hm Ha. destruct op as [j|j|j]; simpl.
  - unfold Begin. destruct (Valid j); simpl; [|done].
    destruct (states_ d !! j) as [[|]|] eqn:Hj; simpl; try done.
    rewrite lookup_insert_ne; [done|congruence].
  - rewrite states_MarkDelivered_ne; [done|done|congruence|congruence].
  - unfold Abort_. destruct (Valid j); simpl; [|done].
    destruct (states_ d !! j) as [[|]|] eqn:Hj; simpl; try done.
    rewrite lookup_delete_ne; [done|congruence].
Qed.

(** execution ownership of a delivery is exclusive: from the [Begin] that
    acquires an identity until the owner marks it delivered or aborts it, every
    other [Begin] of that identity, in any interleaving with work on other
    identities (and with the eviction of old ones), reports it as already being
    processed. *)
Theorem dedup_exclusive_ownership (n : nat) (before ops : list DedupOp) (i : DeliveryIdentity) d :
  Begin (dedup_run (NewDeduplicator n) before) i = (d, kAcquired) →
  OpMarkDelivered i ∉ ops → OpAbort i ∉ ops →
  Begin (dedup_run d ops) i = (dedup_run d ops, kAlreadyProcessing).
Proof.
  intros Hb Hm Ha.
  pose proof (dedup_ok_run _ before (dedup_ok_new n)) as Hok0.
  pose proof (dedup_ok_step _ (OpBegin i) Hok0) as Hok. simpl in Hok. rewrite Hb in Hok; simpl in Hok.
  assert (Valid i = true ∧ states_ d !! i = Some kProcessing) as [Hv Hp].
  { unfold Begin in Hb. destruct (Valid i); simpl in Hb; [|done].
    destruct (states_ _ !! i) as [[|]|]; simplify_eq/=. by rewrite lookup_insert_eq. }
  clear Hb Hok0. revert d Hok Hp. induction ops as [|op ops IH]; intros d Hok Hp; simpl.
  - unfold Begin. by rewrite Hv, Hp.
  - apply IH; [set_solver|set_solver|by apply dedup_ok_step|].
    apply processing_step; set_solver.
Qed.

Lemma dedup_exclusive_ownership_witness :
  let i := GroupDeliveryIdentity 5 9 in
  let j := GroupDeliveryIdentity 5 8 in
  let d := dedup_run (Begin (NewDeduplicator 1) i).1
             [OpBegin j; OpMarkDelivered j; OpBegin (GroupDeliveryIdentity 6 8);
              OpMarkDelivered (GroupDeliveryIdentity 6 8)] in
  Begin d i = (d, kAlreadyProcessing).
Proof.
  cbv zeta.
  apply (dedup_exclusive_ownership 1 []
           [OpBegin (GroupDeliveryIdentity 5 8); OpMarkDelivered (GroupDeliveryIdentity 5 8);
            OpBegin (GroupDeliveryIdentity 6 8); OpMarkDelivered (GroupDeliveryIdentity 6 8)]
           (GroupDeliveryIdentity 5 9)).
  - vm_compute. reflexivity.
  - intros H. repeat (apply elem_of_cons in H as [H|H]; [discriminate|]).
    by apply elem_of_nil in H.
  - intros H. repeat (apply elem_of_cons in H as [H|H]; [discriminate|]).
    by apply elem_of_nil in H.
Defined.

(** *** The window of recent deliveries *)

Definition is_mark (op : DedupOp) : bool :=
  match op with OpMarkDelivered _ => true | _ => false end.

(** At most [k] deliveries were recorded after [i]. *)
Definition recent (d : Deduplicator) (i : DeliveryIdentity) (k : nat) : Prop :=
  ∃ l1 l2, delivered_order_ d = l1 ++ i :: l2 ∧ length l2 ≤ k.

Lemma max_recent_step d op : max_recent_delivered_ (dedup_step d op) = max_recent_delivered_ d.
Proof.
  destruct op; simpl; unfold Begin, MarkDelivered, Abort_, TrimDeliveredLocked; simpl;
    repeat case_match; done.
Qed.

Lemma MarkDelivered_order d j :
  dedup_ok d →
  delivered_order_ (MarkDelivered d j).1 = delivered_order_ d ∨
  delivered_order_ (MarkDelivered d j).1 = delivered_order_ d ++ [j] ∨
  length (delivered_order_ d) = max_recent_delivered_ d ∧
  delivered_order_ (MarkDelivered d j).1 = tail (delivered_order_ d) ++ [j].
Proof.
  intros [Hmax Hb Hnd Ho]. unfold MarkDelivered. destruct (Valid j); simpl; [|by left].
  destruct (states_ d !! j) as [[|]|] eqn:Hj; simpl; try by left.
  unfold TrimDeliveredLocked; simpl.
  rewrite TrimDeliveredLocked_eq by (first [done|rewrite Ho; congruence|intros ?; apply Ho]).
  case_decide; [|by right; left]. right; right. split; [done|].
  by destruct (delivered_order_ d).
Qed.

Lemma recent_step d op i k :
  dedup_ok d → recent d i k → k + 1 < max_recent_delivered_ d ∨ is_mark op = false →
  recent (dedup_step d op) i (if is_mark op then k + 1 else k).
Proof.
  intros Hd (l1 & l2 & Ho & Hl) Hk. destruct op as [j|j|j]; simpl in *.
  - exists l1, l2. unfold Begin. repeat case_match; done.
  - destruct Hk as [Hk|]; [|done].
    destruct (MarkDelivered_order d j Hd) as [Hr|[Hr|[Hlen Hr]]]; rewrite Ho in Hr.
    + exists l1, l2. split; [done|lia].
    + exists l1, (l2 ++ [j]). rewrite length_app; simpl. split; [by rewrite Hr, <-app_assoc|lia].
    + rewrite Ho, length_app in Hlen; simpl in Hlen. destruct l1 as [|o l1]; [simpl in *; lia|].
      exists l1, (l2 ++ [j]). rewrite length_app; simpl in *.
      split; [by rewrite Hr, <-app_assoc|lia].
  - exists l1, l2. unfold Abort_. repeat case_match; done.
Qed.

Lemma recent_run ops d i k :
  dedup_ok d → recent d i k →
  k + length (List.filter is_mark ops) < max_recent_delivered_ d →
  ∃ k', recent (dedup_run d ops) i k'.
Proof.
  revert d k. induction ops as [|op ops IH]; intros d k Hd Hr Hk; simpl in *; [by eauto|].
  eapply IH; [by apply dedup_ok_step|apply recent_step; [done..|]|];
    rewrite ?max_recent_step; destruct (is_mark op); simpl in *; auto; lia.
Qed.

(** A delivered identity stays recognised through the next
    [max_recent_delivered - 1] deliveries, whatever else happens in between:
    [Begin] answers [kAlreadyDelivered] and never hands the work out again. *)
Theorem dedup_recent_window (n : nat) (before ops : list DedupOp) (i : DeliveryIdentity) :
  let d := dedup_run (NewDeduplicator n) before in
  states_ d !! i = Some kProcessing → Valid i = true →
  length (List.filter is_mark ops) < Nat.max n 1 →
  let d' := dedup_run (MarkDelivered d i).1 ops in
  Begin d' i = (d', kAlreadyDelivered).
Proof.
  intros d Hi Hv Hlen d'.
  pose proof (dedup_ok_run _ before (dedup_ok_new n)) as Hok. fold d in Hok.
  assert (max_recent_delivered_ d = Nat.max n 1) as Hmax.
  { subst d. clear. change (Nat.max n 1) with (max_recent_delivered_ (NewDeduplicator n)).
    generalize (NewDeduplicator n). induction before as [|op ops IH]; intros d; simpl; [done|].
    by rewrite IH, max_recent_step. }
  assert (recent (MarkDelivered d i).1 i 0) as Hrec.
  { destruct (MarkDelivered_order d i Hok) as [Hr|[Hr|[_ Hr]]].
    - exfalso. assert (i ∉ delivered_order_ d) as Hni by (rewrite (ok_order _ Hok); congruence).
      pose proof (MarkDelivered_ok d i Hok) as Hok1. apply Hni. rewrite <-Hr.
      rewrite (ok_order _ Hok1). unfold MarkDelivered. rewrite Hv, Hi; simpl.
      unfold TrimDeliveredLocked; simpl. destruct Hok.
      rewrite TrimDeliveredLocked_eq by (try done; intros ?; apply ok_order0).
      repeat case_match; simplify_eq/=; rewrite ?lookup_delete_ne, ?lookup_insert_eq;
        try done; intros ->; set_solver.
    - exists (delivered_order_ d), []. done.
    - exists (tail (delivered_order_ d)), []. done. }
  destruct (recent_run ops (MarkDelivered d i).1 i 0) as (k & l1 & l2 & Ho & _).
  - by apply MarkDelivered_ok.
  - done.
  - pose proof (max_recent_step d (OpMarkDelivered i)) as Hm. simpl in Hm. rewrite Hm, Hmax. lia.
  - pose proof (dedup_ok_run _ ops (MarkDelivered_ok d i Hok)) as Hok'.
    assert (states_ d' !! i = Some kDelivered) as Hs.
    { apply (ok_order _ Hok'). rewrite Ho. set_solver. }
    unfold Begin. by rewrite Hv, Hs.
Qed.

Lemma dedup_recent_window_witness :
  let i := GroupDeliveryIdentity 5 9 in
  let j := GroupDeliveryIdentity 5 8 in
  let d := dedup_run (NewDeduplicator 2) [OpBegin i; OpBegin j] in
  let d' := dedup_run (MarkDelivered d i).1 [OpMarkDelivered j] in
  Begin d' i = (d', kAlreadyDelivered).
Proof.
  cbv zeta.
  apply (dedup_recent_window 2
    [OpBegin (GroupDeliveryIdentity 5 9); OpBegin (GroupDeliveryIdentity 5 8)]
    [OpMarkDelivered (GroupDeliveryIdentity 5 8)] (GroupDeliveryIdentity 5 9)).
  - vm_compute. reflexivity.
  - vm_compute. reflexivity.
  - vm_compute. lia.
Defined.
