(* ===== verification/ReceiverDeliveryTracker.v ===== *)
(** * Receiver acknowledgements in one gateway process

    Models [src/gateway/ReceiverDeliveryTracker.h], [ReceiverDeliveryTracker.cpp]
    and [src/gateway/PrivateReceiverAck.h]: the attempts to deliver a message
    that wait for the receiver's acknowledgement, the window that bounds them and
    the most recent confirmed ones.  Counters are [std::size_t] with their
    wrap-around; times are nanoseconds of the recovery clock and are arguments,
    as is the resolution of that clock.  [None] is an access through a missing
    window record ([at()] or a past-the-end iterator); a failed allocation is
    not modelled. *)
From Stdlib Require Import ZArith Lia.
From stdpp Require Import base gmap list numbers.
From S2P Require Import Prelude DeliveryIdentity.

Local Open Scope Z_scope.
Local Open Scope width_scope.

(** ** Data *)

Inductive ReceiverDeliveryRegisterStatus :=
| kRegistered | kRetryRegistered | kDuplicateAttempt | kAlreadyConfirmed | kReceiverMismatch
| kInvalidArgument | kWindowFull | kWaitingAck.

Inductive ReceiverDeliveryAckStatus :=
| kAckConfirmed | kAckDuplicate | kAckUnknownMessage | kAckReceiverMismatch | kAckUnknownAttempt
| kAckInvalidArgument.

Inductive ReceiverDeliveryRetryRegisterStatus :=
| kRetryRetryRegistered | kRetryAlreadyConfirmed | kRetryStaleAttempt | kRetryAttemptLimitReached
| kRetryReceiverMismatch | kRetryDuplicateAttempt | kRetryUnknownMessage | kRetryInvalidArgument.

Record ReceiverDeliverySnapshot := MkSnapshot {
  snap_domain : DeliveryDomain;
  snap_message_id : Z;
  snap_receiver_user_id : Z;
  snap_current_delivery_seq : Z;
  snap_attempt_count : Z;
  snap_confirmed : bool;
}.

Record WindowOptions := MkWindowOptions {
  max_waiting_entries : Z;
  max_waiting_per_recipient : Z;
  max_waiting_bytes : Z;
  max_bytes_per_recipient : Z;
  max_attempt_sequences : Z;
  recovery_resend_cooldown_ms : Z;
}.

Definition DefaultWindowOptions : WindowOptions :=
  MkWindowOptions 200000 64 (256 * 1024 * 1024) (1024 * 1024) 64 5000.

Record WindowStats := MkWindowStats {
  stat_waiting_entries : Z;
  stat_waiting_bytes : Z;
  stat_waiting_recipients : Z;
  stat_attempt_sequences : Z;
}.

Record ReplayRegistration := MkReplayRegistration {
  replay_status : ReceiverDeliveryRegisterStatus;
  replay_delivery_seq : Z;
  reused_attempt : bool;
}.

Inductive EntryState := kEntryWaitingAck | kEntryConfirmed.

#[export] Instance EntryState_eq_dec : EqDecision EntryState.
Proof. solve_decision. Defined.

Record Entry := MkEntry {
  current_delivery_seq : Z;
  attempt_count : Z;
  state : EntryState;
  attempt_seqs : gset Z;
  wire_bytes : Z;
  last_attempt_at : Z;
}.

Record RecipientWindow := MkRecipientWindow { rw_entries : Z; rw_bytes : Z }.

Record Tracker := MkTracker {
  max_recent_confirmed_ : Z;
  window_options_ : WindowOptions;
  entries_ : gmap DeliveryIdentity Entry;
  private_receivers_ : gmap Z Z;
  confirmed_order_ : list DeliveryIdentity;
  waiting_by_recipient_ : gmap Z RecipientWindow;
  waiting_entries_ : Z;
  waiting_bytes_ : Z;
  attempt_sequences_ : Z;
}.

Definition NewTracker (max_recent_confirmed : Z) (o : WindowOptions) : Tracker :=
  MkTracker (Z.max max_recent_confirmed 1)
    (MkWindowOptions (Z.max 1 (max_waiting_entries o)) (Z.max 1 (max_waiting_per_recipient o))
       (Z.max 1 (max_waiting_bytes o)) (Z.max 1 (max_bytes_per_recipient o))
       (Z.max 1 (max_attempt_sequences o)) (Z.max (recovery_resend_cooldown_ms o) 1))
    ∅ ∅ [] ∅ 0 0 0.

(** ** Operations *)

Definition set_size (s : gset Z) : Z := Z.of_nat (size s).

Definition ByteRoomLocked (t : Tracker) (recipient extra : Z) : bool :=
  let o := window_options_ t in
  let bytes := match waiting_by_recipient_ t !! recipient with
               | None => 0 | Some w => rw_bytes w end in
  (waiting_bytes_ t <=? max_waiting_bytes o) &&
  (extra <=? max_waiting_bytes o -₆₄ waiting_bytes_ t) &&
  (bytes <=? max_bytes_per_recipient o) &&
  (extra <=? max_bytes_per_recipient o -₆₄ bytes).

(** The branch of [RegisterAttemptLocked] for an identity without an entry,
    once it is admitted. *)
Definition InsertEntry (t : Tracker) (identity : DeliveryIdentity) (delivery_seq bytes now : Z)
  : Tracker :=
  let entry := MkEntry delivery_seq 1 kEntryWaitingAck {[delivery_seq]} bytes now in
  let recipient := default (MkRecipientWindow 0 0)
                     (waiting_by_recipient_ t !! recipient_user_id identity) in
  MkTracker (max_recent_confirmed_ t) (window_options_ t)
    (<[identity := entry]> (entries_ t))
    (match domain identity with
     | kPrivateMessage =>
         (* [emplace] keeps an existing value *)
         match private_receivers_ t !! message_id identity with
         | Some _ => private_receivers_ t
         | None => <[message_id identity := recipient_user_id identity]> (private_receivers_ t)
         end
     | kGroupMessage => private_receivers_ t
     end)
    (confirmed_order_ t)
    (<[recipient_user_id identity :=
         MkRecipientWindow (rw_entries recipient +₆₄ 1) (rw_bytes recipient +₆₄ bytes)]>
       (waiting_by_recipient_ t))
    (waiting_entries_ t +₆₄ 1) (waiting_bytes_ t +₆₄ bytes) (attempt_sequences_ t +₆₄ 1).

(** Replaces the entry of [identity] by [entry], which accounts for [extra] more
    bytes and [seqs] more attempts. *)
Definition UpdateEntry (t : Tracker) (identity : DeliveryIdentity) (entry : Entry)
    (extra seqs : Z) : option Tracker :=
  match waiting_by_recipient_ t !! recipient_user_id identity with
  | None => None
  | Some w =>
      Some (MkTracker (max_recent_confirmed_ t) (window_options_ t)
        (<[identity := entry]> (entries_ t)) (private_receivers_ t) (confirmed_order_ t)
        (<[recipient_user_id identity := MkRecipientWindow (rw_entries w) (rw_bytes w +₆₄ extra)]>
           (waiting_by_recipient_ t))
        (waiting_entries_ t) (waiting_bytes_ t +₆₄ extra) (attempt_sequences_ t +₆₄ seqs))
  end.

Definition ExtraBytes (entry : Entry) (bytes : Z) : Z :=
  if wire_bytes entry <? bytes then bytes - wire_bytes entry else 0.

Definition PrivateReceiverKnown (t : Tracker) (identity : DeliveryIdentity) : bool :=
  match domain identity with
  | kPrivateMessage => bool_decide (is_Some (private_receivers_ t !! message_id identity))
  | kGroupMessage => false
  end.

Definition RegisterAttemptLocked (t : Tracker) (identity : DeliveryIdentity)
    (delivery_seq bytes now : Z) : option (Tracker * ReceiverDeliveryRegisterStatus) :=
  let o := window_options_ t in
  match entries_ t !! identity with
  | None =>
      if PrivateReceiverKnown t identity then Some (t, kReceiverMismatch)
      else
        let recipient_entries :=
          match waiting_by_recipient_ t !! recipient_user_id identity with
          | None => 0 | Some w => rw_entries w end in
        if (max_waiting_entries o <=? waiting_entries_ t) ||
           (max_waiting_per_recipient o <=? recipient_entries) ||
           negb (ByteRoomLocked t (recipient_user_id identity) bytes)
        then Some (t, kWindowFull)
        else Some (InsertEntry t identity delivery_seq bytes now, kRegistered)
  | Some entry =>
      if decide (state entry = kEntryConfirmed) then Some (t, kAlreadyConfirmed)
      else if decide (delivery_seq ∈ attempt_seqs entry) then Some (t, kDuplicateAttempt)
      else
        let extra := ExtraBytes entry bytes in
        if (max_attempt_sequences o <=? set_size (attempt_seqs entry)) ||
           negb (ByteRoomLocked t (recipient_user_id identity) extra)
        then Some (t, kWindowFull)
        else
          t' ← UpdateEntry t identity
                 (MkEntry delivery_seq (attempt_count entry +₃₂ 1) (state entry)
                    ({[delivery_seq]} ∪ attempt_seqs entry)
                    (wire_bytes entry +₆₄ extra) now) extra 1;
          Some (t', kRetryRegistered)
  end.

Definition RegisterAttempt (t : Tracker) (identity : DeliveryIdentity)
    (delivery_seq bytes now : Z) : option (Tracker * ReceiverDeliveryRegisterStatus) :=
  if negb (Valid identity) || (delivery_seq =? 0) then Some (t, kInvalidArgument)
  else RegisterAttemptLocked t identity delivery_seq bytes now.

(** [uncertainty] is [Clock::Uncertainty()]. *)
Definition RegisterReplayAttempt (uncertainty : Z) (t : Tracker) (identity : DeliveryIdentity)
    (proposed_seq bytes now : Z) : option (Tracker * ReplayRegistration) :=
  if negb (Valid identity) || (proposed_seq =? 0)
  then Some (t, MkReplayRegistration kInvalidArgument 0 false)
  else
    let register :=
      '(t', st) ← RegisterAttemptLocked t identity proposed_seq bytes now;
      Some (t', MkReplayRegistration st
                  (match st with kRegistered | kRetryRegistered => proposed_seq | _ => 0 end)
                  false) in
    match entries_ t !! identity with
    | None => register
    | Some entry =>
        if decide (state entry = kEntryConfirmed) then register
        else if now <? last_attempt_at entry +
                       recovery_resend_cooldown_ms (window_options_ t) * 1000000 + uncertainty
        then Some (t, MkReplayRegistration kWaitingAck 0 false)
        else if max_attempt_sequences (window_options_ t) <=? set_size (attempt_seqs entry) then
          let extra := ExtraBytes entry bytes in
          if negb (ByteRoomLocked t (recipient_user_id identity) extra)
          then Some (t, MkReplayRegistration kWindowFull 0 false)
          else
            t' ← UpdateEntry t identity
                   (MkEntry (current_delivery_seq entry) (attempt_count entry) (state entry)
                      (attempt_seqs entry) (wire_bytes entry +₆₄ extra) now) extra 0;
            Some (t', MkReplayRegistration kRetryRegistered (current_delivery_seq entry) true)
        else register
    end.

Definition RegisterRetryAttempt (t : Tracker) (identity : DeliveryIdentity)
    (expected_timed_out_delivery_seq new_delivery_seq max_attempts now : Z)
  : Tracker * ReceiverDeliveryRetryRegisterStatus :=
  if negb (Valid identity) || (expected_timed_out_delivery_seq =? 0) ||
     (new_delivery_seq =? 0) || (max_attempts =? 0)
  then (t, kRetryInvalidArgument)
  else match entries_ t !! identity with
  | None =>
      (t, if PrivateReceiverKnown t identity then kRetryReceiverMismatch else kRetryUnknownMessage)
  | Some entry =>
      if decide (state entry = kEntryConfirmed) then (t, kRetryAlreadyConfirmed)
      else if negb (current_delivery_seq entry =? expected_timed_out_delivery_seq)
      then (t, kRetryStaleAttempt)
      else if (max_attempts <=? attempt_count entry) ||
              (max_attempt_sequences (window_options_ t) <=? set_size (attempt_seqs entry))
      then (t, kRetryAttemptLimitReached)
      else if decide (new_delivery_seq ∈ attempt_seqs entry) then (t, kRetryDuplicateAttempt)
      else
        (MkTracker (max_recent_confirmed_ t) (window_options_ t)
           (<[identity := MkEntry new_delivery_seq (attempt_count entry +₃₂ 1) (state entry)
                            ({[new_delivery_seq]} ∪ attempt_seqs entry) (wire_bytes entry) now]>
              (entries_ t))
           (private_receivers_ t) (confirmed_order_ t) (waiting_by_recipient_ t)
           (waiting_entries_ t) (waiting_bytes_ t) (attempt_sequences_ t +₆₄ 1),
         kRetryRetryRegistered)
  end.

(** One turn of the loop of [TrimConfirmedLocked]. *)
Definition ForgetOldest (t : Tracker) (oldest : DeliveryIdentity) (rest : list DeliveryIdentity)
  : Tracker :=
  match entries_ t !! oldest with
  | Some e =>
      if decide (state e = kEntryConfirmed) then
        MkTracker (max_recent_confirmed_ t) (window_options_ t) (delete oldest (entries_ t))
          (match domain oldest with
           | kPrivateMessage => delete (message_id oldest) (private_receivers_ t)
           | kGroupMessage => private_receivers_ t
           end) rest (waiting_by_recipient_ t) (waiting_entries_ t) (waiting_bytes_ t)
          (attempt_sequences_ t -₆₄ set_size (attempt_seqs e))
      else
        MkTracker (max_recent_confirmed_ t) (window_options_ t) (entries_ t)
          (private_receivers_ t) rest (waiting_by_recipient_ t) (waiting_entries_ t)
          (waiting_bytes_ t) (attempt_sequences_ t)
  | None =>
      MkTracker (max_recent_confirmed_ t) (window_options_ t) (entries_ t)
        (private_receivers_ t) rest (waiting_by_recipient_ t) (waiting_entries_ t)
        (waiting_bytes_ t) (attempt_sequences_ t)
  end.

Fixpoint TrimLoop (order : list DeliveryIdentity) (t : Tracker) : Tracker :=
  match order with
  | [] => t
  | oldest :: rest =>
      if max_recent_confirmed_ t <? Z.of_nat (length order)
      then TrimLoop rest (ForgetOldest t oldest rest) else t
  end.

Definition TrimConfirmedLocked (t : Tracker) : Tracker := TrimLoop (confirmed_order_ t) t.

(** The state of [Acknowledge] before trimming, [entry] being the one confirmed
    and [w] the window of its recipient. *)
Definition ConfirmEntry (t : Tracker) (identity : DeliveryIdentity) (entry : Entry)
    (w : RecipientWindow) : Tracker :=
  let entries := rw_entries w -₆₄ 1 in
  MkTracker (max_recent_confirmed_ t) (window_options_ t)
    (<[identity := MkEntry (current_delivery_seq entry) (attempt_count entry) kEntryConfirmed
                     (attempt_seqs entry) 0 (last_attempt_at entry)]> (entries_ t))
    (private_receivers_ t) (confirmed_order_ t ++ [identity])
    (if entries =? 0 then delete (recipient_user_id identity) (waiting_by_recipient_ t)
     else <[recipient_user_id identity :=
              MkRecipientWindow entries (rw_bytes w -₆₄ wire_bytes entry)]>
            (waiting_by_recipient_ t))
    (waiting_entries_ t -₆₄ 1) (waiting_bytes_ t -₆₄ wire_bytes entry) (attempt_sequences_ t).

Definition Acknowledge (t : Tracker) (identity : DeliveryIdentity) (delivery_seq : Z)
  : option (Tracker * ReceiverDeliveryAckStatus) :=
  if negb (Valid identity) || (delivery_seq =? 0) then Some (t, kAckInvalidArgument)
  else match entries_ t !! identity with
  | None =>
      Some (t, if PrivateReceiverKnown t identity then kAckReceiverMismatch else kAckUnknownMessage)
  | Some entry =>
      if decide (delivery_seq ∉ attempt_seqs entry) then Some (t, kAckUnknownAttempt)
      else if decide (state entry = kEntryConfirmed) then Some (t, kAckDuplicate)
      else
        w ← waiting_by_recipient_ t !! recipient_user_id identity;
        Some (TrimConfirmedLocked (ConfirmEntry t identity entry w), kAckConfirmed)
  end.

Definition SnapshotOf (identity : DeliveryIdentity) (e : Entry) : ReceiverDeliverySnapshot :=
  MkSnapshot (domain identity) (message_id identity) (recipient_user_id identity)
    (current_delivery_seq e) (attempt_count e) (bool_decide (state e = kEntryConfirmed)).

Definition GetSnapshot (t : Tracker) (identity : DeliveryIdentity)
  : option ReceiverDeliverySnapshot :=
  if negb (Valid identity) then None
  else SnapshotOf identity <$> entries_ t !! identity.

(** The private-message overloads. *)
Definition RegisterAttemptPrivate (t : Tracker) (message_id receiver_user_id delivery_seq now : Z) :=
  RegisterAttempt t (PrivateDeliveryIdentity message_id receiver_user_id) delivery_seq 0 now.

Definition RegisterRetryAttemptPrivate (t : Tracker)
    (message_id receiver_user_id expected_timed_out_delivery_seq new_delivery_seq max_attempts now : Z) :=
  RegisterRetryAttempt t (PrivateDeliveryIdentity message_id receiver_user_id)
    expected_timed_out_delivery_seq new_delivery_seq max_attempts now.

Definition AcknowledgePrivate (t : Tracker) (message_id receiver_user_id delivery_seq : Z) :=
  Acknowledge t (PrivateDeliveryIdentity message_id receiver_user_id) delivery_seq.

Definition GetSnapshotPrivate (t : Tracker) (message_id : Z) : option ReceiverDeliverySnapshot :=
  if message_id =? 0 then None
  else
    recipient ← private_receivers_ t !! message_id;
    let identity := PrivateDeliveryIdentity message_id recipient in
    SnapshotOf identity <$> entries_ t !! identity.

Definition Size (t : Tracker) : Z := Z.of_nat (size (entries_ t)).
Definition ConfirmedCount (t : Tracker) : Z := Z.of_nat (length (confirmed_order_ t)).
Definition GetWindowStats (t : Tracker) : WindowStats :=
  MkWindowStats (waiting_entries_ t) (waiting_bytes_ t)
    (Z.of_nat (size (waiting_by_recipient_ t))) (attempt_sequences_ t).

(** [ProcessPrivateReceiverAck]: [confirm] is the result of the callback that
    asks the message service to record the confirmation, and the last component
    says whether it was called. *)
Definition ProcessPrivateReceiverAck (t : Tracker) (message_id authenticated_receiver sequence : Z)
    (confirm : bool) : option (Tracker * ReceiverDeliveryAckStatus * bool * bool) :=
  '(t', status) ← AcknowledgePrivate t message_id authenticated_receiver sequence;
  match status with
  | kAckConfirmed | kAckDuplicate => Some (t', status, confirm, true)
  | _ => Some (t', status, false, false)
  end.

(** ** Invariant *)

Definition waiting (e : Entry) : bool := bool_decide (state e = kEntryWaitingAck).

(** What an entry contributes to the counters, overall and for a recipient. *)
Definition one_of (_ : DeliveryIdentity) (e : Entry) : Z := if waiting e then 1 else 0.
Definition bytes_of (_ : DeliveryIdentity) (e : Entry) : Z := if waiting e then wire_bytes e else 0.
Definition seqs_of (_ : DeliveryIdentity) (e : Entry) : Z := set_size (attempt_seqs e).
Definition for_recipient (r : Z) (f : DeliveryIdentity → Entry → Z) (i : DeliveryIdentity)
    (e : Entry) : Z := if decide (recipient_user_id i = r) then f i e else 0.

Definition count_for (t : Tracker) (r : Z) : Z := total (for_recipient r one_of) (entries_ t).
Definition bytes_for (t : Tracker) (r : Z) : Z := total (for_recipient r bytes_of) (entries_ t).

Record options_ok (o : WindowOptions) : Prop := {
  opt_entries : 1 ≤ max_waiting_entries o < 2 ^ 64;
  opt_per_recipient : 1 ≤ max_waiting_per_recipient o < 2 ^ 64;
  opt_bytes : 1 ≤ max_waiting_bytes o < 2 ^ 64;
  opt_recipient_bytes : 1 ≤ max_bytes_per_recipient o < 2 ^ 64;
  opt_attempts : 1 ≤ max_attempt_sequences o < 2 ^ 64;
}.

Record entry_ok (o : WindowOptions) (i : DeliveryIdentity) (e : Entry) : Prop := {
  entry_valid : Valid i = true;
  entry_current : current_delivery_seq e ∈ attempt_seqs e;
  entry_bytes : 0 ≤ wire_bytes e;
  entry_attempts : 1 ≤ set_size (attempt_seqs e) ≤ max_attempt_sequences o;
  entry_count : attempt_count e = u32 (set_size (attempt_seqs e));
}.

(** Everything but the bound on the confirmed entries. *)
Record tracker_core (t : Tracker) : Prop := {
  core_options : options_ok (window_options_ t);
  core_max : 1 ≤ max_recent_confirmed_ t;
  core_entries i e : entries_ t !! i = Some e → entry_ok (window_options_ t) i e;
  core_waiting : waiting_entries_ t = total one_of (entries_ t);
  core_bytes : waiting_bytes_ t = total bytes_of (entries_ t);
  core_sequences : attempt_sequences_ t = u64 (total seqs_of (entries_ t));
  core_recipient r :
    waiting_by_recipient_ t !! r =
    if count_for t r =? 0 then None else Some (MkRecipientWindow (count_for t r) (bytes_for t r));
  core_waiting_bound : waiting_entries_ t ≤ max_waiting_entries (window_options_ t);
  core_bytes_bound : waiting_bytes_ t ≤ max_waiting_bytes (window_options_ t);
  core_recipient_bound r :
    count_for t r ≤ max_waiting_per_recipient (window_options_ t) ∧
    bytes_for t r ≤ max_bytes_per_recipient (window_options_ t);
  core_nodup : NoDup (confirmed_order_ t);
  core_order i :
    i ∈ confirmed_order_ t ↔ ∃ e, entries_ t !! i = Some e ∧ state e = kEntryConfirmed;
  core_private m r :
    private_receivers_ t !! m = Some r ↔ is_Some (entries_ t !! PrivateDeliveryIdentity m r);
}.

Definition tracker_ok (t : Tracker) : Prop :=
  tracker_core t ∧ Z.of_nat (length (confirmed_order_ t)) ≤ max_recent_confirmed_ t.

Lemma tracker_ok_new n o :
  is_u64 (max_waiting_entries o) → is_u64 (max_waiting_per_recipient o) →
  is_u64 (max_waiting_bytes o) → is_u64 (max_bytes_per_recipient o) →
  is_u64 (max_attempt_sequences o) → tracker_ok (NewTracker n o).
Proof.
  unfold is_u64. intros. split; [|simpl; lia].
  split; simpl; unfold count_for, bytes_for; simpl; rewrite ?total_empty; try lia; try done.
  - split; simpl; lia.
  - intros r. rewrite !total_empty. lia.
  - constructor.
  - intros i. rewrite elem_of_nil. setoid_rewrite lookup_empty. naive_solver.
  - intros m r. rewrite !lookup_empty. split; [done|]. by intros [? ?].
Qed.

Section Counters.
Variable t : Tracker.
Hypothesis Hok : tracker_core t.

Lemma one_of_nonneg i e : 0 ≤ one_of i e.
Proof. unfold one_of. case_match; lia. Qed.

Lemma bytes_of_nonneg i e : entries_ t !! i = Some e → 0 ≤ bytes_of i e.
Proof.
  intros He. unfold bytes_of. case_match; [|lia]. by apply (core_entries _ Hok) in He as [].
Qed.

Lemma for_recipient_nonneg r f i e : 0 ≤ f i e → 0 ≤ for_recipient r f i e.
Proof. unfold for_recipient. case_decide; lia. Qed.

Lemma count_for_nonneg r : 0 ≤ count_for t r.
Proof. apply total_nonneg. intros. apply for_recipient_nonneg, one_of_nonneg. Qed.

Lemma bytes_for_nonneg r : 0 ≤ bytes_for t r.
Proof.
  apply total_nonneg. intros i e He. by apply for_recipient_nonneg, bytes_of_nonneg.
Qed.

Lemma waiting_nonneg : 0 ≤ waiting_entries_ t ∧ 0 ≤ waiting_bytes_ t.
Proof.
  rewrite (core_waiting _ Hok), (core_bytes _ Hok).
  split; apply total_nonneg; intros; [apply one_of_nonneg|by apply bytes_of_nonneg].
Qed.

(** A recipient without a window record has no bytes waiting. *)
Lemma bytes_for_zero r : count_for t r = 0 → bytes_for t r = 0.
Proof.
  intros Hz. apply total_zero. intros i e He. unfold for_recipient. case_decide as Hr; [|done].
  assert (for_recipient r one_of i e ≤ count_for t r) as Hle.
  { apply (total_lookup_le (for_recipient r one_of)); [|done].
    intros. apply for_recipient_nonneg, one_of_nonneg. }
  unfold for_recipient, one_of, bytes_of in *. rewrite decide_True in Hle by done.
  destruct (waiting e); lia.
Qed.

(** A waiting entry is counted for its recipient, so the window record exists. *)
Lemma window_of_waiting i e :
  entries_ t !! i = Some e → waiting e = true →
  waiting_by_recipient_ t !! recipient_user_id i =
    Some (MkRecipientWindow (count_for t (recipient_user_id i)) (bytes_for t (recipient_user_id i)))
  ∧ 1 ≤ count_for t (recipient_user_id i) ∧ 1 ≤ waiting_entries_ t ∧
  wire_bytes e ≤ bytes_for t (recipient_user_id i) ∧ wire_bytes e ≤ waiting_bytes_ t.
Proof.
  intros He Hw.
  assert (1 ≤ count_for t (recipient_user_id i)) as Hc.
  { etrans; [|apply (total_lookup_le (for_recipient (recipient_user_id i) one_of) _ i e); [|done]].
    - unfold for_recipient, one_of. rewrite decide_True, Hw by done. lia.
    - intros. apply for_recipient_nonneg, one_of_nonneg. }
  split_and!; [|done|..].
  - rewrite (core_recipient _ Hok).
    by destruct (Z.eqb_spec (count_for t (recipient_user_id i)) 0); [lia|].
  - rewrite (core_waiting _ Hok). etrans; [|apply (total_lookup_le one_of _ i e); [|done]].
    + unfold one_of. rewrite Hw. lia.
    + intros. apply one_of_nonneg.
  - etrans; [|apply (total_lookup_le (for_recipient (recipient_user_id i) bytes_of) _ i e); [|done]].
    + unfold for_recipient, bytes_of. rewrite decide_True, Hw by done. lia.
    + intros. by apply for_recipient_nonneg, bytes_of_nonneg.
  - rewrite (core_bytes _ Hok). etrans; [|apply (total_lookup_le bytes_of _ i e); [|done]].
    + unfold bytes_of. rewrite Hw. lia.
    + intros. by apply bytes_of_nonneg.
Qed.

(** What the admission test of the byte window means. *)
Lemma ByteRoomLocked_spec r extra :
  0 ≤ extra → ByteRoomLocked t r extra = true ↔
  waiting_bytes_ t + extra ≤ max_waiting_bytes (window_options_ t) ∧
  bytes_for t r + extra ≤ max_bytes_per_recipient (window_options_ t).
Proof.
  intros He. unfold ByteRoomLocked. rewrite (core_recipient _ Hok r).
  pose proof (core_bytes_bound _ Hok). pose proof (core_recipient_bound _ Hok r) as [_ ?].
  pose proof waiting_nonneg as [_ ?]. pose proof (bytes_for_nonneg r).
  destruct (core_options _ Hok).
  replace (match (if count_for t r =? 0 then None
                  else Some (MkRecipientWindow (count_for t r) (bytes_for t r)))
           with Some w => rw_bytes w | None => 0 end) with (bytes_for t r).
  2: { destruct (Z.eqb_spec (count_for t r) 0); simpl; [|done]. by apply bytes_for_zero. }
  rewrite !u64_small by (unfold is_u64; lia).
  rewrite !andb_true_iff, !Z.leb_le. lia.
Qed.

End Counters.

Lemma private_identity i : domain i = kPrivateMessage →
  i = PrivateDeliveryIdentity (message_id i) (recipient_user_id i).
Proof. by destruct i as [[] m r]. Qed.

(** What [f] contributed for the identity before its entry is replaced. *)
Definition old (f : DeliveryIdentity → Entry → Z) (t : Tracker) (i : DeliveryIdentity) : Z :=
  from_option (f i) 0 (entries_ t !! i).

Lemma total_set f t i e :
  total f (<[i := e]> (entries_ t)) = total f (entries_ t) + (f i e - old f t i).
Proof.
  unfold old. destruct (entries_ t !! i) as [e0|] eqn:He; simpl.
  - rewrite (total_insert_old _ _ _ e0) by done. lia.
  - rewrite total_insert_new by done. lia.
Qed.

(** Replacing one entry keeps the invariant when the counters move by what the
    entry contributes. *)
Lemma core_set t t' i e' (d := one_of i e' - old one_of t i)
    (db := bytes_of i e' - old bytes_of t i) (ds := seqs_of i e' - old seqs_of t i) :
  tracker_core t → entries_ t' = <[i := e']> (entries_ t) →
  max_recent_confirmed_ t' = max_recent_confirmed_ t → window_options_ t' = window_options_ t →
  entry_ok (window_options_ t) i e' →
  waiting_entries_ t' = waiting_entries_ t + d → waiting_bytes_ t' = waiting_bytes_ t + db →
  attempt_sequences_ t' = attempt_sequences_ t +₆₄ ds →
  (∀ r, waiting_by_recipient_ t' !! r =
     if decide (recipient_user_id i = r) then
       if count_for t r + d =? 0 then None
       else Some (MkRecipientWindow (count_for t r + d) (bytes_for t r + db))
     else waiting_by_recipient_ t !! r) →
  waiting_entries_ t' ≤ max_waiting_entries (window_options_ t) →
  waiting_bytes_ t' ≤ max_waiting_bytes (window_options_ t) →
  count_for t (recipient_user_id i) + d ≤ max_waiting_per_recipient (window_options_ t) →
  bytes_for t (recipient_user_id i) + db ≤ max_bytes_per_recipient (window_options_ t) →
  NoDup (confirmed_order_ t') →
  (∀ j, j ∈ confirmed_order_ t' ↔
     (j = i ∧ state e' = kEntryConfirmed) ∨ (j ≠ i ∧ j ∈ confirmed_order_ t)) →
  (∀ m r, private_receivers_ t' !! m = Some r ↔
     PrivateDeliveryIdentity m r = i ∨ private_receivers_ t !! m = Some r) →
  tracker_core t'.
Proof.
  intros Hok HE Hm HO He Hw Hb Hs Hr Bw Bb Brc Brb Hnd Hord Hp.
  assert (∀ r, count_for t' r = count_for t r + if decide (recipient_user_id i = r) then d else 0)
    as Hcf.
  { intros r. unfold count_for. rewrite HE, total_set. f_equal. unfold old, for_recipient, d, old.
    destruct (entries_ t !! i); simpl; case_decide; lia. }
  assert (∀ r, bytes_for t' r = bytes_for t r + if decide (recipient_user_id i = r) then db else 0)
    as Hbf.
  { intros r. unfold bytes_for. rewrite HE, total_set. f_equal. unfold old, for_recipient, db, old.
    destruct (entries_ t !! i); simpl; case_decide; lia. }
  destruct Hok as [Hopt Hmax Hent Hw0 Hby Hsq Hrec Hwb Hbb Hrb Hnd0 Hord0 Hpr].
  split; rewrite ?HO, ?Hm; try done.
  - intros j e. rewrite HE. intros [[<- <-]|[_ Hj]]%lookup_insert_Some; [done|by apply Hent].
  - by rewrite Hw, HE, total_set, Hw0.
  - by rewrite Hb, HE, total_set, Hby.
  - by rewrite Hs, HE, total_set, Hsq, u64_add_l.
  - intros r. rewrite Hr, Hcf, Hbf, Hrec. case_decide; [done|]. by rewrite !Z.add_0_r.
  - intros r. rewrite Hcf, Hbf. specialize (Hrb r). case_decide; subst; lia.
  - intros j. rewrite Hord, HE, Hord0. setoid_rewrite lookup_insert_Some. naive_solver.
  - intros m r. rewrite Hp, HE, lookup_insert_is_Some, Hpr.
    destruct (decide (i = PrivateDeliveryIdentity m r)); naive_solver.
Qed.

Lemma InsertEntry_ok t i seq bytes now :
  tracker_core t → entries_ t !! i = None → Valid i = true → 0 ≤ bytes →
  PrivateReceiverKnown t i = false →
  waiting_entries_ t < max_waiting_entries (window_options_ t) →
  count_for t (recipient_user_id i) < max_waiting_per_recipient (window_options_ t) →
  ByteRoomLocked t (recipient_user_id i) bytes = true →
  tracker_core (InsertEntry t i seq bytes now).
Proof.
  intros Hok Hi Hv Hb Hp Hwe Hre [Hroom Hroomr]%ByteRoomLocked_spec; [|done..].
  pose proof (waiting_nonneg t Hok) as [??]. pose proof (count_for_nonneg t (recipient_user_id i)).
  pose proof (bytes_for_nonneg t Hok (recipient_user_id i)). destruct (core_options _ Hok).
  set (e := MkEntry seq 1 kEntryWaitingAck {[seq]} bytes now).
  assert (set_size {[seq]} = 1) as Hs1 by (unfold set_size; by rewrite size_singleton).
  assert (∀ f, old f t i = 0) as Hold by (intros f; unfold old; by rewrite Hi).
  apply (core_set t _ i e); rewrite ?Hold; change (one_of i e) with 1;
    change (bytes_of i e) with bytes; change (seqs_of i e) with (set_size {[seq]});
    rewrite ?Hs1; cbn [InsertEntry waiting_entries_ waiting_bytes_ attempt_sequences_
      confirmed_order_ private_receivers_ waiting_by_recipient_]; try done;
    rewrite ?u64_small by (unfold is_u64; lia); try lia.
  - split; simpl; [done|set_solver|done|rewrite Hs1; lia|by rewrite Hs1].
  - intros r. rewrite lookup_insert, !(core_recipient _ Hok). case_decide as Hr; [|done].
    subst r. set (r := recipient_user_id i) in *.
    destruct (Z.eqb_spec (count_for t r + (1 - 0)) 0); [lia|]. f_equal.
    destruct (Z.eqb_spec (count_for t r) 0) as [Hz|]; simpl.
    + rewrite (bytes_for_zero t r) in * by done. rewrite Hz in *.
      rewrite !u64_small by (unfold is_u64; lia). f_equal; lia.
    + rewrite !u64_small by (unfold is_u64; lia). f_equal; lia.
  - apply (core_nodup _ Hok).
  - intros j. split; [|naive_solver]. intros Hj. right. split; [|done]. intros ->.
    apply (core_order _ Hok) in Hj as (? & ? & ?). congruence.
  - intros m r. pose proof (core_private _ Hok) as Hpr. unfold PrivateReceiverKnown in Hp.
    destruct (domain i) eqn:Hd.
    + apply private_identity in Hd as Hid. case_bool_decide as Hnone; [done|].
      apply eq_None_not_Some in Hnone. rewrite Hnone, lookup_insert_Some, Hid.
      unfold PrivateDeliveryIdentity. naive_solver.
    + split; [by right|]. intros [<-|]; done.
Qed.

(** What registering an attempt never touches. *)
Definition same_frame (t t' : Tracker) : Prop :=
  confirmed_order_ t' = confirmed_order_ t ∧ max_recent_confirmed_ t' = max_recent_confirmed_ t ∧
  window_options_ t' = window_options_ t.

Lemma same_frame_refl t : same_frame t t.
Proof. done. Qed.
#[local] Hint Resolve same_frame_refl : core.

(** [UpdateEntry] on a waiting entry finds the window record of the recipient. *)
Lemma UpdateEntry_ok t i e0 e extra seqs :
  tracker_core t → entries_ t !! i = Some e0 → state e0 = kEntryWaitingAck →
  state e = kEntryWaitingAck → entry_ok (window_options_ t) i e →
  0 ≤ extra → ByteRoomLocked t (recipient_user_id i) extra = true →
  wire_bytes e = wire_bytes e0 + extra →
  set_size (attempt_seqs e) = set_size (attempt_seqs e0) + seqs →
  ∃ t', UpdateEntry t i e extra seqs = Some t' ∧ tracker_core t' ∧ same_frame t t' ∧
        entries_ t' = <[i := e]> (entries_ t).
Proof.
  intros Hok Hi Hs0 Hs He Hx [Hroom Hroomr]%ByteRoomLocked_spec Hb Hq; [|done..].
  assert (waiting e0 = true) as Hw0 by (unfold waiting; by rewrite Hs0).
  assert (waiting e = true) as Hw by (unfold waiting; by rewrite Hs).
  pose proof (waiting_nonneg t Hok) as [??]. pose proof (bytes_for_nonneg t Hok (recipient_user_id i)).
  pose proof (window_of_waiting t Hok i e0 Hi Hw0) as (Hwin & Hc & _).
  destruct (core_options _ Hok). pose proof (core_recipient_bound _ Hok (recipient_user_id i)).
  unfold UpdateEntry. rewrite Hwin. eexists. split; [done|split; [|done]].
  assert (one_of i e - old one_of t i = 0) as D1
    by (unfold old, one_of; rewrite Hi; simpl; rewrite Hw, Hw0; lia).
  assert (bytes_of i e - old bytes_of t i = extra) as D2
    by (unfold old, bytes_of; rewrite Hi; simpl; rewrite Hw, Hw0; lia).
  assert (seqs_of i e - old seqs_of t i = seqs) as D3
    by (unfold old, seqs_of; rewrite Hi; simpl; lia).
  apply (core_set t _ i e); rewrite ?D1, ?D2, ?D3; cbn [waiting_entries_ waiting_bytes_
      attempt_sequences_ confirmed_order_ private_receivers_ waiting_by_recipient_ rw_entries rw_bytes];
    rewrite ?u64_small by (unfold is_u64; lia); try done; try lia; try by apply Hok.
  - intros r. rewrite lookup_insert. case_decide as Hr; [|done]. subst r.
    rewrite Z.add_0_r. destruct (Z.eqb_spec (count_for t (recipient_user_id i)) 0); [lia|done].
  - intros j. rewrite Hs. split; [|naive_solver]. intros Hj. right. split; [|done]. intros ->.
    apply (core_order _ Hok) in Hj as (? & ? & ?). congruence.
  - intros m r. split; [by right|]. intros [<-|]; [|done]. apply (core_private _ Hok). eauto.
Qed.

Lemma ExtraBytes_spec e bytes : 0 ≤ ExtraBytes e bytes ∧
  wire_bytes e + ExtraBytes e bytes = Z.max (wire_bytes e) bytes.
Proof. unfold ExtraBytes. case_match; reflect_guards; lia. Qed.

Lemma set_size_insert x (s : gset Z) : x ∉ s → set_size ({[x]} ∪ s) = set_size s + 1.
Proof. intros. unfold set_size. rewrite size_union, size_singleton by set_solver. lia. Qed.

Lemma u32_add_l a b : u32 (u32 a + b) = u32 (a + b).
Proof. unfold u32. by rewrite Zplus_mod_idemp_l. Qed.

(** The entry after one more attempt is well formed while the limit is not
    reached. *)
Lemma entry_ok_attempt o i e seq bytes now :
  entry_ok o i e → seq ∉ attempt_seqs e → set_size (attempt_seqs e) < max_attempt_sequences o →
  0 ≤ bytes →
  entry_ok o i (MkEntry seq (attempt_count e +₃₂ 1) (state e) ({[seq]} ∪ attempt_seqs e) bytes now).
Proof.
  intros [Hv Hc Hb Ha Hn] Hs Hl ?.
  split; simpl; rewrite ?set_size_insert by done; [done|set_solver|done|lia|].
  by rewrite Hn, u32_add_l.
Qed.

Lemma wire_bytes_bound t i e : tracker_core t → entries_ t !! i = Some e →
  state e = kEntryWaitingAck → 0 ≤ wire_bytes e ≤ waiting_bytes_ t.
Proof.
  intros Hok Hi Hs. pose proof (core_entries _ Hok _ _ Hi) as [_ _ ? _ _].
  assert (waiting e = true) as Hw by (unfold waiting; by rewrite Hs).
  pose proof (window_of_waiting t Hok i e Hi Hw). lia.
Qed.

Lemma wire_bytes_wrap t i e extra : tracker_core t → entries_ t !! i = Some e →
  state e = kEntryWaitingAck → 0 ≤ extra →
  ByteRoomLocked t (recipient_user_id i) extra = true → wire_bytes e +₆₄ extra = wire_bytes e + extra.
Proof.
  intros Hok Hi Hs Hx [Hroom _]%ByteRoomLocked_spec; [|done..].
  pose proof (wire_bytes_bound t i e Hok Hi Hs). pose proof (opt_bytes _ (core_options _ Hok)).
  apply u64_small. unfold is_u64. lia.
Qed.

Lemma waiting_iff e : state e ≠ kEntryConfirmed ↔ state e = kEntryWaitingAck.
Proof. destruct (state e); naive_solver. Qed.

(** [RegisterAttemptLocked] always returns, and from a coherent tracker to one. *)
Lemma RegisterAttemptLocked_ok t i seq bytes now :
  tracker_core t → Valid i = true → 0 ≤ bytes →
  ∃ t' st, RegisterAttemptLocked t i seq bytes now = Some (t', st) ∧ tracker_core t' ∧
           same_frame t t'.
Proof.
  intros Hok Hv Hb. unfold RegisterAttemptLocked. destruct (entries_ t !! i) as [e|] eqn:Hi.
  - case_decide as Hs; [by eauto 10|]. apply waiting_iff in Hs. case_decide as Hin; [by eauto 10|].
    case_match eqn:Hg; [by eauto 10|]. reflect_guards.
    pose proof (ExtraBytes_spec e bytes) as [??]. pose proof (core_entries _ Hok _ _ Hi) as He.
    rewrite (wire_bytes_wrap t i) by done.
    edestruct (UpdateEntry_ok t i e) as (t' & Heq & Hok' & Hf & _);
      [done|done|done|..|erewrite Heq; simpl; eauto 10]; simpl; try done.
    + apply entry_ok_attempt; try done. destruct He. lia.
    + by apply set_size_insert.
  - case_match eqn:Hp; [by eauto 10|]. case_match eqn:Hg; [by eauto 10|]. reflect_guards.
    do 2 eexists. split; [done|]. split; [|done]. apply InsertEntry_ok; try done.
    pose proof (core_recipient _ Hok (recipient_user_id i)) as Hr. rewrite Hr in *.
    destruct (Z.eqb_spec (count_for t (recipient_user_id i)) 0) as [->|]; done.
Qed.

Lemma RegisterAttempt_ok t i seq bytes now :
  tracker_core t → 0 ≤ bytes →
  ∃ t' st, RegisterAttempt t i seq bytes now = Some (t', st) ∧ tracker_core t' ∧ same_frame t t'.
Proof.
  intros Hok Hb. unfold RegisterAttempt. case_match eqn:Hg; [by eauto 10|]. reflect_guards.
  by apply RegisterAttemptLocked_ok.
Qed.

Lemma RegisterReplayAttempt_ok unc t i seq bytes now :
  tracker_core t → 0 ≤ bytes →
  ∃ t' r, RegisterReplayAttempt unc t i seq bytes now = Some (t', r) ∧ tracker_core t' ∧
          same_frame t t'.
Proof.
  intros Hok Hb. unfold RegisterReplayAttempt. case_match eqn:Hg; [by eauto 10|]. reflect_guards.
  edestruct (RegisterAttemptLocked_ok t i seq bytes now) as (t' & st & Heq & Hok' & Hf); [done..|].
  rewrite Heq. simpl. destruct (entries_ t !! i) as [e|] eqn:Hi; [|by eauto 10].
  case_decide as Hs; [by eauto 10|]. apply waiting_iff in Hs.
  case_match; [by eauto 10|]. case_match; [|by eauto 10].
  case_match eqn:Hroom; [by eauto 10|]. reflect_guards.
  pose proof (ExtraBytes_spec e bytes) as [??]. pose proof (core_entries _ Hok _ _ Hi) as [].
  rewrite (wire_bytes_wrap t i) by done.
  edestruct (UpdateEntry_ok t i e) as (t2 & Heq2 & Hok2 & Hf2 & _);
    [done|done|done|..|erewrite Heq2; simpl; eauto 10]; simpl; try done; try lia.
  split; simpl; [done..|lia| |]; done.
Qed.

(** A retry is an update that adds an attempt and no bytes. *)
Lemma RegisterRetryAttempt_ok t i expected seq limit now :
  tracker_core t →
  tracker_core (RegisterRetryAttempt t i expected seq limit now).1 ∧
  same_frame t (RegisterRetryAttempt t i expected seq limit now).1.
Proof.
  intros Hok. unfold RegisterRetryAttempt. case_match eqn:Hg; [done|]. reflect_guards.
  destruct (entries_ t !! i) as [e|] eqn:Hi; [|by case_match].
  case_decide as Hs; [done|]. apply waiting_iff in Hs. case_match; [done|].
  case_match eqn:Hl; [done|]. reflect_guards. case_decide as Hin; [done|]. simpl.
  split; [|done]. pose proof (core_entries _ Hok _ _ Hi) as He. pose proof He as [].
  pose proof (wire_bytes_bound t i e Hok Hi Hs).
  pose proof (core_bytes_bound _ Hok). pose proof (core_options _ Hok) as [].
  assert (ByteRoomLocked t (recipient_user_id i) 0 = true) as Hroom.
  { apply ByteRoomLocked_spec; [done|lia|].
    pose proof (core_recipient_bound _ Hok (recipient_user_id i)). lia. }
  edestruct (UpdateEntry_ok t i e
    (MkEntry seq (attempt_count e +₃₂ 1) (state e) ({[seq]} ∪ attempt_seqs e) (wire_bytes e) now) 0 1)
    as (t' & Heq & Hok' & _ & _); simpl; try done; try lia.
  - by apply entry_ok_attempt; [..|lia|].
  - by apply set_size_insert.
  - revert Heq Hok'. unfold UpdateEntry.
    destruct (waiting_by_recipient_ t !! recipient_user_id i) as [w|] eqn:Hw; [|done].
    intros [= <-]. pose proof (waiting_nonneg t Hok).
    assert (waiting e = true) as Hwt by (unfold waiting; by rewrite Hs).
    pose proof (window_of_waiting t Hok i e Hi Hwt) as (Hwin & _). simplify_eq.
    pose proof (core_recipient_bound _ Hok (recipient_user_id i)).
    pose proof (bytes_for_nonneg t Hok (recipient_user_id i)). simpl.
    rewrite !Z.add_0_r, !(u64_small (_ _)) by (unfold is_u64; lia).
    by rewrite (insert_id (waiting_by_recipient_ t)) by done.
Qed.

(** Confirming a waiting entry releases its share of the window. *)
Lemma ConfirmEntry_ok t i e w :
  tracker_core t → entries_ t !! i = Some e → state e = kEntryWaitingAck →
  waiting_by_recipient_ t !! recipient_user_id i = Some w →
  tracker_core (ConfirmEntry t i e w).
Proof.
  intros Hok Hi Hs Hw.
  assert (waiting e = true) as Hwt by (unfold waiting; by rewrite Hs).
  pose proof (window_of_waiting t Hok i e Hi Hwt) as (Hwin & Hc & Hcw & Hbr & Hbw). simplify_eq.
  pose proof (waiting_nonneg t Hok) as [??]. pose proof (core_waiting_bound _ Hok).
  pose proof (core_bytes_bound _ Hok). destruct (core_options _ Hok).
  pose proof (core_recipient_bound _ Hok (recipient_user_id i)) as [??].
  pose proof (core_entries _ Hok _ _ Hi) as He. destruct He.
  set (e' := MkEntry (current_delivery_seq e) (attempt_count e) kEntryConfirmed (attempt_seqs e) 0
               (last_attempt_at e)).
  assert (one_of i e' - old one_of t i = -1) as D1
    by (unfold old, one_of; rewrite Hi; simpl; rewrite Hwt; simpl; lia).
  assert (bytes_of i e' - old bytes_of t i = - wire_bytes e) as D2
    by (unfold old, bytes_of; rewrite Hi; simpl; rewrite Hwt; simpl; lia).
  assert (seqs_of i e' - old seqs_of t i = 0) as D3
    by (unfold old, seqs_of; rewrite Hi; simpl; lia).
  assert (i ∉ confirmed_order_ t) as Hni.
  { intros Hin. apply (core_order _ Hok) in Hin as (? & ? & ?). congruence. }
  apply (core_set t _ i e'); rewrite ?D1, ?D2, ?D3; cbn [ConfirmEntry waiting_entries_
      waiting_bytes_ attempt_sequences_ confirmed_order_ private_receivers_ waiting_by_recipient_
      rw_entries rw_bytes]; rewrite ?u64_small by (unfold is_u64; lia); try done; try lia.
  - symmetry. rewrite (core_sequences _ Hok), u64_add_l. by rewrite Z.add_0_r.
  - intros r. case_decide as Hr.
    + subst r. replace (_ + -1) with (count_for t (recipient_user_id i) - 1) by lia.
      case_match; [by rewrite lookup_delete_eq|]. rewrite lookup_insert_eq. do 2 f_equal.
    + by case_match; [rewrite lookup_delete_ne|rewrite lookup_insert_ne].
  - apply list.NoDup_app. split; [apply Hok|]. split; [|apply NoDup_singleton].
    intros j Hj ->%list_elem_of_singleton. done.
  - intros j. rewrite elem_of_app, list_elem_of_singleton. simpl.
    destruct (decide (j = i)); naive_solver.
  - intros m r. split; [by right|]. intros [<-|]; [|done]. apply (core_private _ Hok). eauto.
Qed.

(** Forgetting the oldest confirmed entry. *)
Lemma ForgetOldest_ok t i rest :
  tracker_core t → confirmed_order_ t = i :: rest →
  tracker_core (ForgetOldest t i rest) ∧
  max_recent_confirmed_ (ForgetOldest t i rest) = max_recent_confirmed_ t ∧
  confirmed_order_ (ForgetOldest t i rest) = rest ∧
  entries_ (ForgetOldest t i rest) = delete i (entries_ t).
Proof.
  intros Hok Ho.
  assert (i ∈ confirmed_order_ t) as (e & Hi & Hs)%(core_order _ Hok) by (rewrite Ho; left).
  unfold ForgetOldest. rewrite Hi, decide_True by done. split; [|done].
  assert (waiting e = false) as Hwt by (unfold waiting; by rewrite Hs).
  assert (one_of i e = 0 ∧ bytes_of i e = 0) as [Hz1 Hz2]
    by (unfold one_of, bytes_of; by rewrite Hwt).
  assert (∀ r f, f i e = 0 →
    total (for_recipient r f) (delete i (entries_ t)) = total (for_recipient r f) (entries_ t)) as Hr.
  { intros r f Hf. rewrite (total_delete _ _ i e) by done.
    assert (for_recipient r f i e = 0) by (unfold for_recipient; by case_decide). lia. }
  destruct Hok as [Hopt Hmax Hent Hw0 Hby Hsq Hrec Hwb Hbb Hrb Hnd Hord Hpr].
  rewrite Ho in Hnd. apply list.NoDup_cons in Hnd as [Hni Hnd].
  split; cbn [window_options_ max_recent_confirmed_ entries_ waiting_entries_ waiting_bytes_
    attempt_sequences_ waiting_by_recipient_ confirmed_order_ private_receivers_]; try done.
  - intros j e' [_ Hj]%lookup_delete_Some. by apply Hent.
  - rewrite Hw0, (total_delete _ _ i e) by done. lia.
  - rewrite Hby, (total_delete _ _ i e) by done. lia.
  - rewrite Hsq, u64_sub_l. f_equal. by rewrite (total_delete _ _ i e) by done.
  - intros r. rewrite Hrec. unfold count_for, bytes_for. simpl. by rewrite !Hr.
  - intros r. unfold count_for, bytes_for. simpl. rewrite !Hr by done. apply Hrb.
  - intros j. setoid_rewrite lookup_delete_Some. specialize (Hord j).
    rewrite Ho, elem_of_cons in Hord.
    destruct (decide (j = i)) as [->|]; [|naive_solver]. naive_solver.
  - intros m r. rewrite lookup_delete_is_Some, <-Hpr. destruct (domain i) eqn:Hd.
    + apply private_identity in Hd. rewrite lookup_delete_Some.
      assert (private_receivers_ t !! message_id i = Some (recipient_user_id i)) as Hp
        by (apply Hpr; rewrite <-Hd; eauto).
      rewrite Hd. unfold PrivateDeliveryIdentity. naive_solver.
    + split; [|naive_solver]. intros Hm. split; [|done]. intros ->. done.
Qed.

(** The loop of [TrimConfirmedLocked] keeps the newest confirmed entries. *)
Lemma TrimLoop_ok order : ∀ t,
  tracker_core t → confirmed_order_ t = order →
  tracker_ok (TrimLoop order t) ∧
  max_recent_confirmed_ (TrimLoop order t) = max_recent_confirmed_ t ∧
  ∃ dropped, order = dropped ++ confirmed_order_ (TrimLoop order t) ∧
    (dropped = [] ∨ Z.of_nat (length (confirmed_order_ (TrimLoop order t))) = max_recent_confirmed_ t) ∧
    ∀ j, j ∉ dropped → entries_ (TrimLoop order t) !! j = entries_ t !! j.
Proof.
  induction order as [|i rest IH]; intros t Hok Ho; simpl.
  - pose proof (core_max _ Hok). split; [split; [done|]; rewrite Ho; simpl; lia|].
    split; [done|]. exists []. rewrite Ho. naive_solver.
  - case_match eqn:Hl; reflect_guards.
    + destruct (ForgetOldest_ok t i rest Hok Ho) as (Hok' & Hm & Ho' & He).
      destruct (IH _ Hok' Ho') as (Hok2 & Hm2 & dropped & Hd & Hlen & Hj).
      split; [done|]. split; [by rewrite Hm2|]. exists (i :: dropped). rewrite <-Hm.
      split; [simpl; by rewrite <-Hd|]. split.
      * right. destruct Hlen as [Hlen|]; [|done].
        destruct Hok2 as [_ Hle]. rewrite Hm2, Hm in Hle. rewrite Hm.
        rewrite Hlen in Hd. simpl in Hd. rewrite <-Hd in *. simpl in *. lia.
      * intros j Hnj%not_elem_of_cons. rewrite Hj, He by tauto. apply lookup_delete_ne. naive_solver.
    + split; [split; [done|]; rewrite Ho; simpl; lia|]. split; [done|]. exists []. rewrite Ho. naive_solver.
Qed.

Lemma Acknowledge_ok t i seq :
  tracker_ok t → ∃ t' st, Acknowledge t i seq = Some (t', st) ∧ tracker_ok t'.
Proof.
  intros Hok. unfold Acknowledge. case_match eqn:Hg; [by eauto|].
  destruct (entries_ t !! i) as [e|] eqn:Hi; [|by eauto]. case_decide; [by eauto|].
  case_decide as Hs; [by eauto|]. apply waiting_iff in Hs. destruct Hok as [Hok _].
  assert (waiting e = true) as Hwt by (unfold waiting; by rewrite Hs).
  pose proof (window_of_waiting t Hok i e Hi Hwt) as (Hwin & _). rewrite Hwin. simpl.
  do 2 eexists. split; [done|]. by apply TrimLoop_ok; [apply ConfirmEntry_ok|].
Qed.

(** ** Histories *)

Inductive TrackerOp :=
| OpRegister (i : DeliveryIdentity) (seq : Z) (bytes : N) (now : Z)
| OpReplay (uncertainty : Z) (i : DeliveryIdentity) (seq : Z) (bytes : N) (now : Z)
| OpRetry (i : DeliveryIdentity) (expected seq limit now : Z)
| OpAck (i : DeliveryIdentity) (seq : Z).

Definition tracker_step (t : Tracker) (op : TrackerOp) : option Tracker :=
  match op with
  | OpRegister i seq bytes now => fst <$> RegisterAttempt t i seq (Z.of_N bytes) now
  | OpReplay u i seq bytes now => fst <$> RegisterReplayAttempt u t i seq (Z.of_N bytes) now
  | OpRetry i expected seq limit now => Some (RegisterRetryAttempt t i expected seq limit now).1
  | OpAck i seq => fst <$> Acknowledge t i seq
  end.

Lemma tracker_ok_frame t t' : tracker_ok t → tracker_core t' → same_frame t t' → tracker_ok t'.
Proof. intros [_ Hl] Hok (Ho & Hm & _). split; [done|]. by rewrite Ho, Hm. Qed.

Lemma tracker_step_ok t op : tracker_ok t → ∃ t', tracker_step t op = Some t' ∧ tracker_ok t'.
Proof.
  intros Hok. destruct op as [i s b now|u i s b now|i x s l now|i s]; simpl.
  - destruct (RegisterAttempt_ok t i s (Z.of_N b) now) as (t' & st & -> & ? & ?); [apply Hok|lia|].
    eexists. split; [done|]. by eapply tracker_ok_frame.
  - destruct (RegisterReplayAttempt_ok u t i s (Z.of_N b) now) as (t' & st & -> & ? & ?);
      [apply Hok|lia|]. eexists. split; [done|]. by eapply tracker_ok_frame.
  - destruct (RegisterRetryAttempt_ok t i x s l now) as [??]; [apply Hok|].
    eexists. split; [done|]. by eapply tracker_ok_frame.
  - destruct (Acknowledge_ok t i s Hok) as (t' & st & -> & ?). by eexists.
Qed.

Lemma tracker_run_ok ops : ∀ t, tracker_ok t →
  ∃ t', run tracker_step t ops = Some t' ∧ tracker_ok t'.
Proof.
  induction ops as [|op ops IH]; intros t Hok; simpl; [by eauto|].
  destruct (tracker_step_ok t op Hok) as (t1 & -> & Hok1). by apply IH.
Qed.

Definition options_u64 (o : WindowOptions) : Prop :=
  is_u64 (max_waiting_entries o) ∧ is_u64 (max_waiting_per_recipient o) ∧
  is_u64 (max_waiting_bytes o) ∧ is_u64 (max_bytes_per_recipient o) ∧
  is_u64 (max_attempt_sequences o).

Lemma tracker_reachable n o ops : options_u64 o →
  ∃ t, run tracker_step (NewTracker n o) ops = Some t ∧ tracker_ok t.
Proof. intros (?&?&?&?&?). apply tracker_run_ok. by apply tracker_ok_new. Qed.

(** Trimming leaves the window alone. *)
Lemma TrimLoop_window order : ∀ t,
  window_options_ (TrimLoop order t) = window_options_ t ∧
  waiting_entries_ (TrimLoop order t) = waiting_entries_ t ∧
  waiting_bytes_ (TrimLoop order t) = waiting_bytes_ t.
Proof.
  induction order as [|i rest IH]; intros t; simpl; [done|]. case_match; [|done].
  destruct (IH (ForgetOldest t i rest)) as (-> & -> & ->).
  unfold ForgetOldest. by repeat case_match.
Qed.

(** The limits never change. *)
Lemma tracker_step_limits t op t' : tracker_ok t → tracker_step t op = Some t' →
  window_options_ t' = window_options_ t ∧ max_recent_confirmed_ t' = max_recent_confirmed_ t.
Proof.
  intros Hok. destruct op as [i s b now|u i s b now|i x s l now|i s]; simpl.
  - destruct (RegisterAttempt_ok t i s (Z.of_N b) now) as (? & st & -> & ? & (?&?&?)); [apply Hok|lia|].
    by intros [= <-].
  - destruct (RegisterReplayAttempt_ok u t i s (Z.of_N b) now) as (? & st & -> & ? & (?&?&?));
      [apply Hok|lia|]. by intros [= <-].
  - destruct (RegisterRetryAttempt_ok t i x s l now) as [? (?&?&?)]; [apply Hok|]. by intros [= <-].
  - unfold Acknowledge. intros H. repeat case_match; simplify_eq/=; try done.
    destruct (waiting_by_recipient_ t !! recipient_user_id i) as [w|] eqn:Hw; simplify_eq/=.
    unfold TrimConfirmedLocked. split; [by apply (TrimLoop_window _ (ConfirmEntry t i e w))|].
    assert (state e = kEntryWaitingAck) by by apply waiting_iff.
    destruct (TrimLoop_ok (confirmed_order_ (ConfirmEntry t i e w)) (ConfirmEntry t i e w))
      as (_ & ? & _); [|done..]. apply ConfirmEntry_ok; [apply Hok|done..].
Qed.

Lemma tracker_run_limits ops : ∀ t t', tracker_ok t → run tracker_step t ops = Some t' →
  window_options_ t' = window_options_ t ∧ max_recent_confirmed_ t' = max_recent_confirmed_ t.
Proof.
  induction ops as [|op ops IH]; intros t t' Hok; simpl; [by intros [= <-]|].
  destruct (tracker_step_ok t op Hok) as (t1 & Hs & Hok1). rewrite Hs. intros Hr.
  destruct (IH _ _ Hok1 Hr) as [-> ->]. by eapply tracker_step_limits.
Qed.

(** Every entry waits and is counted by the window, or is one of the recent
    confirmed ones. *)
Lemma Size_split t : tracker_core t → Size t = waiting_entries_ t + ConfirmedCount t.
Proof.
  intros Hok. unfold Size, ConfirmedCount. rewrite (core_waiting _ Hok).
  assert (size (filter (λ p, state p.2 = kEntryConfirmed) (entries_ t)) =
          length (confirmed_order_ t)) as Hc.
  { rewrite <-size_dom. erewrite <-(size_list_to_set (C := gset DeliveryIdentity)) by apply Hok.
    apply set_size_proper. intros i. rewrite elem_of_dom, elem_of_list_to_set, (core_order _ Hok).
    unfold is_Some. setoid_rewrite map_lookup_filter_Some. done. }
  rewrite <-Hc. clear Hc Hok. induction (entries_ t) as [|i e m Hi IH] using map_ind; [done|].
  rewrite total_insert_new, map_size_insert_None, map_filter_insert by done.
  unfold one_of at 1, waiting. case_decide as Hs; simpl in Hs.
  - rewrite Hs, map_size_insert_None by (apply map_lookup_filter_None; by left).
    rewrite bool_decide_false by done. lia.
  - apply waiting_iff in Hs. rewrite Hs, bool_decide_true, delete_id by done. lia.
Qed.

(** The recipients with an entry that waits. *)
Definition waiting_recipients (t : Tracker) : gset Z :=
  set_map recipient_user_id (dom (filter (λ p, waiting p.2 = true) (entries_ t))).

Lemma elem_of_waiting_recipients t r :
  r ∈ waiting_recipients t ↔ ∃ i e, entries_ t !! i = Some e ∧ waiting e = true ∧ recipient_user_id i = r.
Proof.
  unfold waiting_recipients. rewrite elem_of_map. setoid_rewrite elem_of_dom. unfold is_Some.
  setoid_rewrite map_lookup_filter_Some. simpl. naive_solver.
Qed.

Lemma count_for_zero t r : tracker_core t → count_for t r = 0 ↔ r ∉ waiting_recipients t.
Proof.
  intros Hok. rewrite elem_of_waiting_recipients. split.
  - intros Hz (i & e & Hi & Hw & <-). pose proof (window_of_waiting t Hok i e Hi Hw). lia.
  - intros Hn. apply total_zero. intros i e Hi. unfold for_recipient, one_of. case_decide; [|done].
    destruct (waiting e) eqn:Hw; [|done]. exfalso. eauto 10.
Qed.

Lemma waiting_windows t : tracker_core t → dom (waiting_by_recipient_ t) = waiting_recipients t.
Proof.
  intros Hok. apply set_eq. intros r. rewrite elem_of_dom, (core_recipient _ Hok r).
  pose proof (count_for_zero t r Hok) as Hz. destruct (Z.eqb_spec (count_for t r) 0) as [E|E].
  - split; [by intros [? ?]|]. intros Hin. by apply Hz in E.
  - split; [|by eauto]. intros _. destruct (decide (r ∈ waiting_recipients t)) as [|Hn]; [done|]. by apply Hz in Hn.
Qed.

(** The attempts that are remembered, from the limits. *)
Lemma sequences_bound t :
  tracker_core t →
  0 ≤ total seqs_of (entries_ t) ≤ max_attempt_sequences (window_options_ t) * Size t.
Proof.
  intros Hok. pose proof (core_entries _ Hok) as He. destruct (core_options _ Hok) as [_ _ _ _ Ho]. unfold Size. clear Hok.
  induction (entries_ t) as [|i e m Hi IH] using map_ind; [rewrite total_empty, map_size_empty; lia|].
  rewrite total_insert_new, map_size_insert_None by done.
  assert (0 ≤ total seqs_of m ≤ max_attempt_sequences (window_options_ t) * Z.of_nat (size m)).
  { apply IH. intros j e' Hj. apply He. rewrite lookup_insert_ne; [done|]. intros ->. congruence. }
  destruct (He i e) as [_ _ _ ? _]; [apply lookup_insert_eq|]. unfold seqs_of at 1 3. lia.
Qed.

(** ** Properties *)

(** C38: For every history of registrations, replays, retries and acknowledgements no
    operation touches a missing window record, and every counter equals what it counts:
    the entries that still wait and their bytes, overall and in the record of each
    recipient, which exists exactly for the recipients with such an entry, the number of
    these recipients, and the attempts of all remembered entries modulo [2^64] (exactly
    when the limits allow fewer).  They stay within the configured limits (each at
    least one), an entry keeps at most the configured number of attempts, and at
    most [max_recent_confirmed] confirmed entries are remembered. *)
Theorem tracker_window_safe n o ops :
  options_u64 o →
  ∃ t, run tracker_step (NewTracker n o) ops = Some t ∧
    stat_waiting_entries (GetWindowStats t) = total one_of (entries_ t) ∧
    stat_waiting_bytes (GetWindowStats t) = total bytes_of (entries_ t) ∧
    stat_waiting_recipients (GetWindowStats t) = Z.of_nat (size (waiting_recipients t)) ∧
    stat_attempt_sequences (GetWindowStats t) = u64 (total seqs_of (entries_ t)) ∧
    (Z.max 1 (max_attempt_sequences o) * (Z.max 1 (max_waiting_entries o) + Z.max n 1) < 2 ^ 64 →
     stat_attempt_sequences (GetWindowStats t) = total seqs_of (entries_ t)) ∧
    (∀ r, waiting_by_recipient_ t !! r =
       if decide (r ∈ waiting_recipients t) then
         Some (MkRecipientWindow (total (for_recipient r one_of) (entries_ t))
                 (total (for_recipient r bytes_of) (entries_ t)))
       else None) ∧
    stat_waiting_entries (GetWindowStats t) ≤ Z.max 1 (max_waiting_entries o) ∧
    stat_waiting_bytes (GetWindowStats t) ≤ Z.max 1 (max_waiting_bytes o) ∧
    (∀ r, total (for_recipient r one_of) (entries_ t) ≤ Z.max 1 (max_waiting_per_recipient o) ∧
          total (for_recipient r bytes_of) (entries_ t) ≤ Z.max 1 (max_bytes_per_recipient o)) ∧
    (∀ i e, entries_ t !! i = Some e →
       Valid i = true ∧ current_delivery_seq e ∈ attempt_seqs e ∧
       set_size (attempt_seqs e) ≤ Z.max 1 (max_attempt_sequences o)) ∧
    ConfirmedCount t ≤ Z.max n 1 ∧
    Size t = stat_waiting_entries (GetWindowStats t) + ConfirmedCount t.
Proof.
  intros Ho. assert (tracker_ok (NewTracker n o)) as H0.
  { destruct Ho as (?&?&?&?&?). by apply tracker_ok_new. }
  destruct (tracker_run_ok ops _ H0) as (t & Hr & Hok & Hc). exists t. split; [done|].
  destruct (tracker_run_limits ops _ _ H0 Hr) as [Hopt Hmax].
  pose proof (core_waiting_bound _ Hok) as Hw. pose proof (core_bytes_bound _ Hok) as Hb.
  pose proof (core_recipient_bound _ Hok) as Hrb. pose proof (core_entries _ Hok) as He.
  pose proof (sequences_bound t Hok) as Hsq. pose proof (Size_split t Hok) as Hsz.
  rewrite Hopt in Hw, Hb, Hrb, He, Hsq. rewrite Hmax in Hc.
  cbn [NewTracker window_options_ max_attempt_sequences max_waiting_entries max_recent_confirmed_] in Hsq, Hw, Hc.
  split_and!; try apply Hok; try done.
  - cbn [GetWindowStats stat_waiting_recipients]. by rewrite <-size_dom, waiting_windows.
  - intros Hfit. cbn [GetWindowStats stat_attempt_sequences]. rewrite (core_sequences _ Hok). apply u64_small.
    unfold is_u64. unfold ConfirmedCount in Hsz. nia.
  - intros r. rewrite (core_recipient _ Hok r). pose proof (count_for_zero t r Hok) as Hz.
    destruct (Z.eqb_spec (count_for t r) 0) as [E|E]; [by rewrite decide_False by (by apply Hz)|].
    rewrite decide_True; [done|]. destruct (decide (r ∈ waiting_recipients t)) as [|Hn]; [done|]. by apply Hz in Hn.
  - intros i e Hi. destruct (He i e Hi). naive_solver.
Qed.

Lemma tracker_window_safe_witness :
  let i := PrivateDeliveryIdentity 7 2 in
  let j := GroupDeliveryIdentity 8 2 in
  options_u64 DefaultWindowOptions ∧
  ∃ t, run tracker_step (NewTracker 1 DefaultWindowOptions)
         [OpRegister i 1 100 0; OpRegister j 2 50 0; OpRetry i 1 3 5 9; OpAck i 1] = Some t ∧
       GetWindowStats t = MkWindowStats 1 50 1 3 ∧ ConfirmedCount t ≤ 1.
Proof.
  intros i j. assert (options_u64 DefaultWindowOptions) as Ho
    by (unfold options_u64, is_u64; simpl; lia).
  split; [done|].
  destruct (tracker_window_safe 1 DefaultWindowOptions
    [OpRegister i 1 100 0; OpRegister j 2 50 0; OpRetry i 1 3 5 9; OpAck i 1] Ho)
    as (t & Hr & _ & _ & _ & _ & _ & _ & _ & _ & _ & _ & Hc & _).
  exists t. split; [exact Hr|]. split; [|exact Hc].
  revert Hr. vm_compute. intros [= <-]. reflexivity.
Defined.

(** Acknowledging an attempt of a waiting entry. *)
Lemma Acknowledge_waiting t i e seq :
  tracker_ok t → entries_ t !! i = Some e → state e = kEntryWaitingAck →
  seq ∈ attempt_seqs e → seq ≠ 0 →
  ∃ t', Acknowledge t i seq = Some (t', kAckConfirmed) ∧ tracker_ok t' ∧
    waiting_entries_ t' = waiting_entries_ t - 1 ∧
    waiting_bytes_ t' = waiting_bytes_ t - wire_bytes e ∧
    entries_ t' !! i = Some (MkEntry (current_delivery_seq e) (attempt_count e) kEntryConfirmed
                               (attempt_seqs e) 0 (last_attempt_at e)) ∧
    (∀ j e', entries_ t !! j = Some e' → state e' = kEntryWaitingAck → j ≠ i →
             entries_ t' !! j = Some e').
Proof.
  intros [Hok _] Hi Hs Hin Hnz. pose proof (core_entries _ Hok _ _ Hi) as [Hv _ Hb _ _].
  assert (waiting e = true) as Hwt by (unfold waiting; by rewrite Hs).
  pose proof (window_of_waiting t Hok i e Hi Hwt) as (Hwin & Hc & Hcw & Hbr & Hbw).
  unfold Acknowledge. rewrite Hv, Hi, Hwin, decide_False, decide_False by (rewrite ?Hs; naive_solver).
  destruct (Z.eqb_spec seq 0); [done|]. simpl. eexists. split; [done|].
  pose proof (ConfirmEntry_ok t i e _ Hok Hi Hs Hwin) as Hok1.
  set (t1 := ConfirmEntry t i e _) in *. unfold TrimConfirmedLocked.
  destruct (TrimLoop_ok (confirmed_order_ t1) t1 Hok1 eq_refl)
    as (Hok2 & Hmax & dropped & Hd & Hlen & Hkeep).
  pose proof (core_options _ Hok) as []. pose proof (core_max _ Hok).
  pose proof (core_waiting_bound _ Hok). pose proof (core_bytes_bound _ Hok).
  split; [done|]. destruct (TrimLoop_window (confirmed_order_ t1) t1) as (_ & -> & ->).
  split; [by apply u64_small; unfold is_u64; lia|].
  split; [by apply u64_small; unfold is_u64; lia|].
  pose proof (core_nodup _ Hok1) as Hnd. split.
  - rewrite Hkeep; [apply lookup_insert_eq|]. intros Hdr.
    destruct Hlen as [->|Hlen]; [by apply elem_of_nil in Hdr|].
    set (kept := confirmed_order_ (TrimLoop _ t1)) in *. clearbody kept.
    change (confirmed_order_ t1) with (confirmed_order_ t ++ [i]) in Hd, Hnd.
    destruct kept as [|x l _] using rev_ind.
    + simpl in Hlen. change (max_recent_confirmed_ t1) with (max_recent_confirmed_ t) in Hlen. lia.
    + rewrite Hd in Hnd. rewrite app_assoc in Hd. apply app_inj_tail in Hd as [_ <-].
      apply list.NoDup_app in Hnd as (_ & Hnd & _). apply (Hnd i Hdr). set_solver.
  - intros j e' Hj Hs' Hji. rewrite Hkeep; [by unfold t1; simpl; rewrite lookup_insert_ne|].
    intros Hdr. assert (j ∈ confirmed_order_ t1) as Hjo by (rewrite Hd; set_solver).
    apply (core_order _ Hok1) in Hjo as (e2 & He2 & Hs2). revert He2. unfold t1; simpl.
    rewrite lookup_insert_ne by done. congruence.
Qed.

(** the first acknowledgement of any attempt of a waiting entry, current or
    superseded, confirms it and releases its bytes; the other waiting entries
    are untouched.  From then on, while it is remembered, acknowledgements of
    its attempts are duplicates and no new attempt or retry is accepted, and
    none of these changes anything. *)
Theorem acknowledge_confirms_once n o ops t i e seq :
  options_u64 o → run tracker_step (NewTracker n o) ops = Some t →
  entries_ t !! i = Some e → state e = kEntryWaitingAck → seq ∈ attempt_seqs e → seq ≠ 0 →
  ∃ t', Acknowledge t i seq = Some (t', kAckConfirmed) ∧
    stat_waiting_entries (GetWindowStats t') = stat_waiting_entries (GetWindowStats t) - 1 ∧
    stat_waiting_bytes (GetWindowStats t') = stat_waiting_bytes (GetWindowStats t) - wire_bytes e ∧
    (∀ j e', entries_ t !! j = Some e' → state e' = kEntryWaitingAck → j ≠ i →
             entries_ t' !! j = Some e') ∧
    GetSnapshot t' i = Some (MkSnapshot (domain i) (message_id i) (recipient_user_id i)
                               (current_delivery_seq e) (attempt_count e) true) ∧
    (∀ seq', seq' ∈ attempt_seqs e → seq' ≠ 0 → Acknowledge t' i seq' = Some (t', kAckDuplicate)) ∧
    (∀ seq' bytes now, seq' ≠ 0 → RegisterAttempt t' i seq' bytes now = Some (t', kAlreadyConfirmed)) ∧
    (∀ expected seq' limit now, expected ≠ 0 → seq' ≠ 0 → limit ≠ 0 →
       RegisterRetryAttempt t' i expected seq' limit now = (t', kRetryAlreadyConfirmed)).
Proof.
  intros Ho Hr Hi Hs Hin Hnz. destruct (tracker_reachable n o ops Ho) as (t0 & Hr0 & Hok).
  rewrite Hr in Hr0. simplify_eq.
  destruct (Acknowledge_waiting t0 i e seq Hok Hi Hs Hin Hnz)
    as (t' & Ha & Hok' & Hw & Hb & Hi' & Hother).
  exists t'. pose proof (core_entries _ (proj1 Hok') _ _ Hi') as [Hv _ _ _ _].
  split; [done|]. split; [done|]. split; [done|]. split; [done|].
  unfold GetSnapshot, Acknowledge, RegisterAttempt, RegisterAttemptLocked, RegisterRetryAttempt.
  rewrite Hv, Hi'. simpl. split; [done|]. split_and!.
  - intros seq' Hin' Hn. apply Z.eqb_neq in Hn as ->. rewrite decide_False by naive_solver. done.
  - intros seq' bytes now Hn. by apply Z.eqb_neq in Hn as ->.
  - intros x seq' limit now Hn1 Hn2 Hn3. apply Z.eqb_neq in Hn1 as ->, Hn2 as ->, Hn3 as ->. done.
Qed.

Lemma acknowledge_confirms_once_witness :
  let i := GroupDeliveryIdentity 8 2 in
  ∃ t t', run tracker_step (NewTracker 1 DefaultWindowOptions)
            [OpRegister i 1 50 0; OpRetry i 1 3 5 9] = Some t ∧
    Acknowledge t i 1 = Some (t', kAckConfirmed) ∧
    Acknowledge t' i 3 = Some (t', kAckDuplicate).
Proof.
  intros i.
  set (ops := [OpRegister i 1 50 0; OpRetry i 1 3 5 9]).
  destruct (run tracker_step (NewTracker 1 DefaultWindowOptions) ops) as [t|] eqn:Hr;
    [|vm_compute in Hr; discriminate Hr].
  assert (entries_ t !! i = Some (MkEntry 3 2 kEntryWaitingAck {[1; 3]} 50 9)) as Hi.
  { vm_compute in Hr. injection Hr as <-. vm_compute. reflexivity. }
  edestruct (acknowledge_confirms_once 1 DefaultWindowOptions ops t i)
    as (t' & Ha & _ & _ & _ & _ & Hd & _); [|exact Hr|exact Hi|..].
  - unfold options_u64, is_u64; simpl; lia.
  - reflexivity.
  - instantiate (1 := 1). set_solver.
  - lia.
  - exists t, t'. split; [done|]. split; [exact Ha|]. apply Hd; [set_solver|lia].
Defined.

(** a private message has one receiver.  While an entry for it is
    remembered, an acknowledgement, a registration or a retry in the name of
    another user is refused as a mismatch and changes nothing, and the lookup
    by message id returns that receiver's entry. *)
Theorem private_receiver_exclusive n o ops t m r r' e :
  options_u64 o → run tracker_step (NewTracker n o) ops = Some t →
  entries_ t !! PrivateDeliveryIdentity m r = Some e → r' ≠ r → r' ≠ 0 →
  (∀ seq, seq ≠ 0 → AcknowledgePrivate t m r' seq = Some (t, kAckReceiverMismatch)) ∧
  (∀ seq now, seq ≠ 0 → RegisterAttemptPrivate t m r' seq now = Some (t, kReceiverMismatch)) ∧
  (∀ expected seq limit now, expected ≠ 0 → seq ≠ 0 → limit ≠ 0 →
     RegisterRetryAttemptPrivate t m r' expected seq limit now = (t, kRetryReceiverMismatch)) ∧
  (∀ seq confirm, seq ≠ 0 →
     ProcessPrivateReceiverAck t m r' seq confirm = Some (t, kAckReceiverMismatch, false, false)) ∧
  GetSnapshotPrivate t m = Some (SnapshotOf (PrivateDeliveryIdentity m r) e).
Proof.
  intros Ho Hr Hi Hne Hnz. destruct (tracker_reachable n o ops Ho) as (t0 & Hr0 & Hok & _).
  rewrite Hr in Hr0. simplify_eq.
  pose proof (core_entries _ Hok _ _ Hi) as [Hv _ _ _ _].
  assert (private_receivers_ t0 !! m = Some r) as Hp by (apply (core_private _ Hok); eauto).
  assert (entries_ t0 !! PrivateDeliveryIdentity m r' = None) as Hi'.
  { apply eq_None_not_Some. intros Hs%(core_private _ Hok). congruence. }
  assert (Valid (PrivateDeliveryIdentity m r') = true) as Hv'
    by (revert Hv; unfold Valid; simpl; repeat case_match; reflect_guards; try done;
        intros; reflect_guards; lia).
  assert (m ≠ 0) as Hm by (revert Hv; unfold Valid; simpl; intros; reflect_guards; lia).
  assert (PrivateReceiverKnown t0 (PrivateDeliveryIdentity m r') = true) as Hk.
  { unfold PrivateReceiverKnown; simpl. apply bool_decide_eq_true. eauto. }
  unfold ProcessPrivateReceiverAck, AcknowledgePrivate, RegisterAttemptPrivate,
    RegisterRetryAttemptPrivate, GetSnapshotPrivate, Acknowledge, RegisterAttempt,
    RegisterAttemptLocked, RegisterRetryAttempt. rewrite Hv', Hi', Hk, Hp. simpl. rewrite Hi.
  apply Z.eqb_neq in Hm as ->. split_and!; try done; intros;
    repeat match goal with H : ?x ≠ 0 |- context [?x =? 0] => apply Z.eqb_neq in H as -> end; done.
Qed.

Lemma private_receiver_exclusive_witness :
  ∃ t, run tracker_step (NewTracker 1 DefaultWindowOptions)
         [OpRegister (PrivateDeliveryIdentity 7 2) 1 50 0] = Some t ∧
       AcknowledgePrivate t 7 3 1 = Some (t, kAckReceiverMismatch).
Proof.
  set (ops := [OpRegister (PrivateDeliveryIdentity 7 2) 1 50 0]).
  destruct (run tracker_step (NewTracker 1 DefaultWindowOptions) ops) as [t|] eqn:Hr;
    [|vm_compute in Hr; discriminate Hr].
  assert (entries_ t !! PrivateDeliveryIdentity 7 2 = Some (MkEntry 1 1 kEntryWaitingAck {[1]} 50 0))
    as Hi.
  { vm_compute in Hr. injection Hr as <-. vm_compute. reflexivity. }
  exists t. split; [reflexivity|].
  apply (private_receiver_exclusive 1 DefaultWindowOptions ops t 7 2 3
           (MkEntry 1 1 kEntryWaitingAck {[1]} 50 0));
    [unfold options_u64, is_u64; simpl; lia|exact Hr|exact Hi|lia..].
Defined.

(** of all the timers that expire for the same attempt at most one retry
    is accepted.  An accepted retry names the current attempt, respects both
    attempt limits and makes the new sequence current; every further retry that
    names the old attempt is then refused as stale, and an acknowledgement of
    the old attempt still confirms the delivery. *)
Theorem retry_wins_once n o ops t i e expected seq limit now t' :
  options_u64 o → run tracker_step (NewTracker n o) ops = Some t →
  entries_ t !! i = Some e → is_u32 limit →
  RegisterRetryAttempt t i expected seq limit now = (t', kRetryRetryRegistered) →
  current_delivery_seq e = expected ∧ attempt_count e < limit ∧
  GetSnapshot t' i = Some (MkSnapshot (domain i) (message_id i) (recipient_user_id i) seq
                             (attempt_count e + 1) false) ∧
  (∀ seq' limit' now', seq' ≠ 0 → limit' ≠ 0 →
     RegisterRetryAttempt t' i expected seq' limit' now' = (t', kRetryStaleAttempt)) ∧
  (∃ t2, Acknowledge t' i expected = Some (t2, kAckConfirmed)).
Proof.
  intros Ho Hr Hi Hl. destruct (tracker_reachable n o ops Ho) as (t0 & Hr0 & Hok).
  rewrite Hr in Hr0. simplify_eq. pose proof (core_entries _ (proj1 Hok) _ _ Hi) as [Hv Hc _ _ Hn].
  pose proof (RegisterRetryAttempt_ok t0 i expected seq limit now (proj1 Hok)) as [Hcore Hframe].
  revert Hcore Hframe. unfold RegisterRetryAttempt. rewrite Hv, Hi.
  repeat (case_goal; [by intros ?? [=]|]). simpl in *. reflect_guards. intros Hcore Hframe [= <-].
  assert (state e = kEntryWaitingAck) as Hs by by apply waiting_iff.
  set (t1 := MkTracker _ _ _ _ _ _ _ _ _) in *. subst expected.
  assert (entries_ t1 !! i = Some (MkEntry seq (attempt_count e +₃₂ 1) (state e)
    ({[seq]} ∪ attempt_seqs e) (wire_bytes e) now)) as Hi1 by apply lookup_insert_eq.
  assert (attempt_count e +₃₂ 1 = attempt_count e + 1) as Hp.
  { apply u32_small. unfold is_u32 in *. rewrite Hn in *. pose proof (u32_range (set_size (attempt_seqs e))).
    unfold is_u32 in *. lia. }
  split; [done|]. split; [done|]. unfold GetSnapshot. rewrite Hv, Hi1. simpl. split_and!.
  - unfold SnapshotOf. simpl. by rewrite Hp, Hs.
  - intros seq' limit' now' Hz1%Z.eqb_neq Hz2%Z.eqb_neq. rewrite Hz1, Hz2.
    destruct (Z.eqb_spec (current_delivery_seq e) 0); [done|]. simpl.
    rewrite decide_False by by rewrite Hs.
    destruct (Z.eqb_spec seq (current_delivery_seq e)); [by subst|done].
  - eapply (Acknowledge_waiting t1 i _ (current_delivery_seq e)) in Hi1 as (t2 & ? & _);
      [eauto|by eapply tracker_ok_frame|done|set_solver|done].
Qed.

Lemma retry_wins_once_witness :
  let i := PrivateDeliveryIdentity 7 2 in
  ∃ t t', run tracker_step (NewTracker 1 DefaultWindowOptions) [OpRegister i 1 50 0] = Some t ∧
    RegisterRetryAttempt t i 1 2 3 9 = (t', kRetryRetryRegistered) ∧
    RegisterRetryAttempt t' i 1 4 3 9 = (t', kRetryStaleAttempt).
Proof.
  intros i. set (ops := [OpRegister i 1 50 0]).
  destruct (run tracker_step (NewTracker 1 DefaultWindowOptions) ops) as [t|] eqn:Hr;
    [|vm_compute in Hr; discriminate Hr].
  assert (entries_ t !! i = Some (MkEntry 1 1 kEntryWaitingAck {[1]} 50 0)
          ∧ (RegisterRetryAttempt t i 1 2 3 9).2 = kRetryRetryRegistered) as [Hi Hst].
  { vm_compute in Hr. injection Hr as <-. vm_compute. split; reflexivity. }
  destruct (RegisterRetryAttempt t i 1 2 3 9) as [t' st] eqn:Hreg. simpl in Hst. subst st.
  exists t, t'. split; [reflexivity|]. split; [exact Hreg|].
  apply (retry_wins_once 1 DefaultWindowOptions ops t i (MkEntry 1 1 kEntryWaitingAck {[1]} 50 0)
           1 2 3 9 t');
    [unfold options_u64, is_u64; simpl; lia|exact Hr|exact Hi|unfold is_u32; lia|exact Hreg|lia..].
Defined.
