(* ===== verification/OfflineMessageStore.v ===== *)
(** * Offline messages kept by a gateway

    Models [src/gateway/OfflineMessageStore.h] and [OfflineMessageStore.cpp]: per
    user, a queue of at most [max_messages_per_user] packets that a login pops.
    The mutex makes every operation one step.  [None] is [pop_front] on an empty
    [std::deque], which is undefined. *)
From Stdlib Require Import ZArith Lia.
From stdpp Require Import base gmap list numbers.
From S2P Require Import Prelude Packet.

Local Open Scope Z_scope.
Local Open Scope width_scope.

Record OfflineMessageStore := MkStore {
  max_messages_per_user_ : Z;
  messages_ : gmap Z (list Packet);
}.

Definition NewOfflineMessageStore (max_messages_per_user : Z) : OfflineMessageStore :=
  MkStore max_messages_per_user ∅.

(** ** Operations *)

Definition pop_front {A} (q : list A) : option (A * list A) :=
  match q with [] => None | x :: q' => Some (x, q') end.

Definition Store (s : OfflineMessageStore) (user_id : Z) (packet : Packet)
  : option (OfflineMessageStore * bool) :=
  if user_id =? 0 then Some (s, false)
  else
    let queue := default [] (messages_ s !! user_id) in
    queue ← (if max_messages_per_user_ s <=? Z.of_nat (length queue)
             then snd <$> pop_front queue else Some queue);
    Some (MkStore (max_messages_per_user_ s)
            (<[user_id := queue ++ [packet]]> (messages_ s)), true).

(** The loop of [PopAll]: moves the queue, oldest first, to the result. *)
Fixpoint DrainLoop (queue result : list Packet) : list Packet :=
  match queue with
  | [] => result
  | front :: queue => DrainLoop queue (result ++ [front])
  end.

Definition PopAll (s : OfflineMessageStore) (user_id : Z) : OfflineMessageStore * list Packet :=
  match messages_ s !! user_id with
  | None => (s, [])
  | Some queue =>
      (MkStore (max_messages_per_user_ s) (delete user_id (messages_ s)), DrainLoop queue [])
  end.

Definition PendingCount (s : OfflineMessageStore) (user_id : Z) : Z :=
  match messages_ s !! user_id with
  | None => 0
  | Some queue => Z.of_nat (length queue)
  end.

(** The sum wraps as [std::size_t] does; its order is that of the map. *)
Definition TotalCount (s : OfflineMessageStore) : Z :=
  map_fold (λ _ q sum, sum +₆₄ Z.of_nat (length q)) 0 (messages_ s).

Definition MaxMessagesPerUser (s : OfflineMessageStore) : Z := max_messages_per_user_ s.

(** ** Histories and what a user is owed *)

Inductive StoreOp := OpStore (user_id : Z) (packet : Packet) | OpPopAll (user_id : Z).

Definition store_step (s : OfflineMessageStore) (op : StoreOp) : option OfflineMessageStore :=
  match op with
  | OpStore u p => fst <$> Store s u p
  | OpPopAll u => Some (PopAll s u).1
  end.

(** The packets stored for [u] since its last [PopAll], oldest first. *)
Fixpoint owed (u : Z) (acc : list Packet) (ops : list StoreOp) : list Packet :=
  match ops with
  | [] => acc
  | OpStore v p :: ops => owed u (if bool_decide (u = v ∧ u ≠ 0) then acc ++ [p] else acc) ops
  | OpPopAll v :: ops => owed u (if bool_decide (u = v) then [] else acc) ops
  end.

(** The newest [n] elements. *)
Definition newest {A} (n : Z) (l : list A) : list A := drop (length l - Z.to_nat n) l.

Lemma newest_length {A} n (l : list A) : 0 ≤ n → Z.of_nat (length (newest n l)) ≤ n.
Proof. intros. unfold newest. rewrite length_drop. lia. Qed.

Lemma newest_short {A} n (l : list A) : Z.of_nat (length l) ≤ n → newest n l = l.
Proof. intros. unfold newest. replace (length l - Z.to_nat n)%nat with 0%nat by lia. done. Qed.

(** Dropping the oldest of a full queue before pushing keeps the newest. *)
Lemma newest_snoc {A} n (l : list A) x : 1 ≤ n →
  newest n (l ++ [x]) =
  (if n <=? Z.of_nat (length (newest n l)) then tail (newest n l) else newest n l) ++ [x].
Proof.
  intros Hn. unfold newest. rewrite length_app, length_drop. simpl.
  case_match; reflect_guards.
  - replace (length l + 1 - Z.to_nat n)%nat with (S (length l - Z.to_nat n)) by lia.
    rewrite drop_app_le by lia. f_equal.
    rewrite <-Nat.add_1_r, <-drop_drop. by destruct (drop (length l - Z.to_nat n) l).
  - replace (length l - Z.to_nat n)%nat with 0%nat by lia.
    by replace (length l + 1 - Z.to_nat n)%nat with 0%nat by lia.
Qed.

Lemma DrainLoop_all queue : ∀ result, DrainLoop queue result = result ++ queue.
Proof.
  induction queue as [|x q IH]; intros r; simpl; [by rewrite app_nil_r|].
  rewrite IH, <-app_assoc. done.
Qed.

(** The refinement relation: every queue holds the newest owed packets. *)
Definition store_refines (s : OfflineMessageStore) (f : Z → list Packet) : Prop :=
  ∀ u, default [] (messages_ s !! u) = newest (max_messages_per_user_ s) (f u).

Definition owed_step (f : Z → list Packet) (op : StoreOp) (u : Z) : list Packet :=
  owed u (f u) [op].

Lemma store_step_refines s f op : 1 ≤ max_messages_per_user_ s → store_refines s f →
  ∃ s', store_step s op = Some s' ∧ store_refines s' (owed_step f op) ∧
        max_messages_per_user_ s' = max_messages_per_user_ s.
Proof.
  intros Hm HR. destruct op as [v p|v]; simpl.
  - unfold Store. destruct (Z.eqb_spec v 0) as [->|Hv]; simpl.
    { eexists. split; [done|]. split; [|done]. intros u. rewrite HR. unfold owed_step; simpl.
      by rewrite bool_decide_false by naive_solver. }
    pose proof (newest_snoc (max_messages_per_user_ s) (f v) p Hm) as Hsn.
    rewrite <-(HR v) in Hsn. revert Hsn. case_match eqn:Hl; intros Hsn; reflect_guards.
    + destruct (default [] (messages_ s !! v)) as [|x q]; simpl in *; [lia|].
      eexists. split; [done|]. split; [|done]. intros u. unfold owed_step; simpl.
      rewrite lookup_insert. case_decide; case_bool_decide; naive_solver.
    + simpl. eexists. split; [done|]. split; [|done]. intros u. unfold owed_step; simpl.
      rewrite lookup_insert. case_decide; case_bool_decide; naive_solver.
  - unfold PopAll. eexists. split; [done|]. split; [|by case_match]. intros u.
    specialize (HR u). unfold owed_step; simpl. case_match eqn:Hv; simpl.
    + rewrite lookup_delete. case_decide; case_bool_decide; simplify_eq/=; try done.
    + case_bool_decide; [|done]. subst. by rewrite Hv.
Qed.

Lemma store_run_refines ops : ∀ s f, 1 ≤ max_messages_per_user_ s → store_refines s f →
  ∃ s', run store_step s ops = Some s' ∧ store_refines s' (λ u, owed u (f u) ops) ∧
        max_messages_per_user_ s' = max_messages_per_user_ s.
Proof.
  induction ops as [|op ops IH]; intros s f Hm HR; simpl; [by eauto|].
  destruct (store_step_refines s f op Hm HR) as (s1 & -> & HR1 & Hm1).
  destruct (IH s1 (owed_step f op)) as (s' & Hr & HR' & Hm'); [by rewrite Hm1|done|].
  exists s'. split; [done|]. split; [|congruence]. intros u. rewrite (HR' u).
  unfold owed_step; simpl. by destruct op.
Qed.

Lemma TotalCount_total s :
  TotalCount s = u64 (total (λ _ q, Z.of_nat (length q)) (messages_ s)).
Proof.
  unfold TotalCount, total.
  induction (messages_ s) as [|u q m Hu Hf IH] using map_first_key_ind; [done|].
  rewrite !map_fold_insert_first_key by done. rewrite IH. unfold u64.
  rewrite Zplus_mod_idemp_l. f_equal. lia.
Qed.

(** ** Properties *)

(** With a positive limit, after every history of stores and pops no queue
    operation is undefined, [PopAll] hands over exactly the newest
    [max_messages_per_user] packets stored for the user since its last
    [PopAll], oldest first, leaves the user without pending packets and the
    other users untouched, [PendingCount] is the number it would hand over, and
    [TotalCount] is the number over all users, as a [std::size_t]. *)
Theorem offline_pop_all_newest n ops u :
  1 ≤ n →
  ∃ s, run store_step (NewOfflineMessageStore n) ops = Some s ∧
    (PopAll s u).2 = newest n (owed u [] ops) ∧
    PendingCount s u = Z.of_nat (length (newest n (owed u [] ops))) ∧
    PendingCount s u ≤ n ∧ PendingCount (PopAll s u).1 u = 0 ∧
    TotalCount s = u64 (total (λ _ q, Z.of_nat (length q)) (messages_ s)) ∧
    ∀ v, v ≠ u → messages_ (PopAll s u).1 !! v = messages_ s !! v.
Proof.
  intros Hn.
  destruct (store_run_refines ops (NewOfflineMessageStore n) (λ _, [])) as (s & Hr & HR & Hm);
    [done|by intros v|]. simpl in Hm.
  exists s. split; [done|]. pose proof (HR u) as Hu. rewrite Hm in Hu. simpl in Hu.
  pose proof (newest_length n (owed u [] ops)).
  unfold PopAll, PendingCount. destruct (messages_ s !! u) as [q|] eqn:Hq; simpl in *.
  - rewrite DrainLoop_all, lookup_delete_eq, Hu. split_and!; try done; [lia|apply TotalCount_total|].
    intros v Hv. by rewrite lookup_delete_ne.
  - rewrite Hq, <-Hu. split_and!; try done; [simpl; lia|apply TotalCount_total].
Qed.

Lemma offline_pop_all_newest_witness :
  let p i := MkPacket kLoginRequest 0 i [] in
  ∃ s, run store_step (NewOfflineMessageStore 2)
         [OpStore 5 (p 1); OpStore 5 (p 2); OpStore 6 (p 9); OpStore 5 (p 3)] = Some s ∧
       (PopAll s 5).2 = [p 2; p 3].
Proof.
  intros p.
  destruct (offline_pop_all_newest 2
    [OpStore 5 (p 1); OpStore 5 (p 2); OpStore 6 (p 9); OpStore 5 (p 3)] 5)
    as (s & Hr & Hp & _); [lia|].
  exists s. split; [exact Hr|]. rewrite Hp. reflexivity.
Defined.

(** The constructor accepts a limit of zero, and with it the first [Store]
    for any user pops from an empty deque. *)
Theorem offline_zero_limit_undefined u p :
  u ≠ 0 → Store (NewOfflineMessageStore 0) u p = None.
Proof. intros Hu. unfold Store. apply Z.eqb_neq in Hu as ->. done. Qed.

Lemma offline_zero_limit_undefined_witness :
  Store (NewOfflineMessageStore 0) 5 (MkPacket kLoginRequest 0 1 []) = None.
Proof. apply (offline_zero_limit_undefined 5). lia. Defined.
