(* ===== verification/PrivateReplayAdmission.v ===== *)
(** * Admission of private-message replay

    Models [src/gateway/PrivateReplayAdmission.h] and [PrivateReplayAdmission.cpp]:
    per user, the obligation to start the replay of its private messages, the
    leases handed to the tasks that should do so, and the timer turn that hands
    out leases round-robin.  The mutex makes the operations of the admission
    atomic, but a lease first exchanges its [settled_] flag and only then calls
    its owner, so these are two steps here.  Times are nanoseconds and arguments
    of the operations ([now_] is injected in the source too).  The admission is
    owned by a [shared_ptr], as the gateway makes it, so [weak_from_this] does
    not throw; a failed allocation is not modelled. *)
From Stdlib Require Import ZArith Lia.
From stdpp Require Import base gmap list sorting numbers.
From S2P Require Import Prelude.

Local Open Scope Z_scope.
Local Open Scope width_scope.

(** ** Data *)

Record Token := MkToken {
  user_id : Z;
  token_epoch : Z;
  token_generation : Z;
  token_attempt : Z;
}.

#[export] Instance Token_eq_dec : EqDecision Token.
Proof. solve_decision. Defined.

Record Stats := MkStats {
  retained : Z;
  peak_retained : Z;
  ensured : Z;
  coalesced : Z;
  claims : Z;
  readmissions : Z;
  started : Z;
  deferred : Z;
  retired : Z;
  stopped : bool;
}.

Record Entry := MkEntry {
  epoch : Z;
  generation : Z;
  attempt : Z;
  deferrals : Z;
  due : Z;
  in_flight : bool;
}.

Record Admission := MkAdmission {
  entries_ : gmap Z Entry;
  next_generation_ : Z;
  scan_cursor_ : Z;
  stats_ : Stats;
}.

Definition NewAdmission : Admission :=
  MkAdmission ∅ 1 0 (MkStats 0 0 0 0 0 0 0 0 0 false).

(** The phase of a lease: [settled_] not yet exchanged, exchanged by
    [MarkStarted] or by the destructor with the call to the owner still to come,
    and done. *)
Inductive Phase := Armed | Starting | Dropping | Settled.

Record Attempt := MkAttempt { token_ : Token; phase : Phase }.

(** ** Operations *)

Definition entry_count (a : Admission) : Z := Z.of_nat (size (entries_ a)).

Definition Ensure (a : Admission) (user epoch' now : Z) : Admission * bool :=
  let s := stats_ a in
  if (user =? 0) || (epoch' =? 0) then (a, false)
  else if stopped s then (a, false)
  else
    let insert retired' :=
      let entries := <[user := MkEntry epoch' (next_generation_ a) 0 0 now false]> (entries_ a) in
      (MkAdmission entries (next_generation_ a +₆₄ 1) (scan_cursor_ a)
         (MkStats (retained s) (Z.max (peak_retained s) (Z.of_nat (size entries)))
            (ensured s +₆₄ 1) (coalesced s) (claims s) (readmissions s) (started s) (deferred s)
            retired' (stopped s)), true) in
    match entries_ a !! user with
    | Some e =>
        if epoch' <=? epoch e then
          (MkAdmission (entries_ a) (next_generation_ a) (scan_cursor_ a)
             (MkStats (retained s) (peak_retained s) (ensured s) (coalesced s +₆₄ 1) (claims s)
                (readmissions s) (started s) (deferred s) (retired s) (stopped s)), false)
        else insert (retired s +₆₄ 1)
    | None => insert (retired s)
    end.

(** [e] is the entry of [user]; a null pointer is [None]. *)
Definition ClaimLocked (a : Admission) (user : Z) (e : Entry) (now : Z)
  : Admission * option Attempt :=
  if in_flight e || (now <? due e) then (a, None)
  else
    let s := stats_ a in
    let token := MkToken user (epoch e) (generation e) (attempt e +₆₄ 1) in
    (MkAdmission
       (<[user := MkEntry (epoch e) (generation e) (token_attempt token) (deferrals e) (due e) true]>
          (entries_ a))
       (next_generation_ a) (scan_cursor_ a)
       (MkStats (retained s) (peak_retained s) (ensured s) (coalesced s) (claims s +₆₄ 1)
          (if 1 <? token_attempt token then readmissions s +₆₄ 1 else readmissions s)
          (started s) (deferred s) (retired s) (stopped s)),
     Some (MkAttempt token Armed)).

Definition Claim (a : Admission) (user epoch' now : Z) : Admission * option Attempt :=
  if stopped (stats_ a) then (a, None)
  else match entries_ a !! user with
  | None => (a, None)
  | Some e => if negb (epoch e =? epoch') then (a, None) else ClaimLocked a user e now
  end.

(** The iterators of the ordered map: its keys in order, [begin()] and
    [upper_bound()]; [None] is [end()].  [++it] is the upper bound of the key. *)
Definition keys (a : Admission) : list Z := merge_sort Z.le (elements (dom (entries_ a))).
Definition begin (a : Admission) : option Z := head (keys a).
Definition upper_bound (a : Admission) (k : Z) : option Z := head (filter (λ x, k < x) (keys a)).

(** The loop of [TakeDue]; [None] is a dereference of [end()]. *)
Fixpoint TakeLoop (n : nat) (submit_budget now : Z) (a : Admission) (it : option Z)
    (result : list Attempt) : option (Admission * list Attempt) :=
  match n with
  | O => Some (a, result)
  | S n =>
      if Z.of_nat (length result) <? submit_budget then
        k ← match it with Some k => Some k | None => begin a end;
        e ← entries_ a !! k;
        let a := MkAdmission (entries_ a) (next_generation_ a) k (stats_ a) in
        let '(a, claim) := ClaimLocked a k e now in
        TakeLoop n submit_budget now a (upper_bound a k) (result ++ option_list claim)
      else Some (a, result)
  end.

Definition TakeDue (a : Admission) (scan_budget submit_budget now : Z)
  : option (Admission * list Attempt) :=
  if stopped (stats_ a) || (entry_count a =? 0) || (submit_budget =? 0) then Some (a, [])
  else
    let scans := Z.min scan_budget (entry_count a) in
    TakeLoop (Z.to_nat scans) submit_budget now a (upper_bound a (scan_cursor_ a)) [].

Definition Matches (t : Token) (e : Entry) : bool :=
  (token_epoch t =? epoch e) && (token_generation t =? generation e) &&
  (token_attempt t =? attempt e) && in_flight e.

Definition Started (a : Admission) (token : Token) : Admission * bool :=
  let s := stats_ a in
  if stopped s then (a, false)
  else match entries_ a !! user_id token with
  | None => (a, false)
  | Some e =>
      if negb (Matches token e) then (a, false)
      else (MkAdmission (delete (user_id token) (entries_ a)) (next_generation_ a) (scan_cursor_ a)
              (MkStats (retained s) (peak_retained s) (ensured s) (coalesced s) (claims s)
                 (readmissions s) (started s +₆₄ 1) (deferred s) (retired s) (stopped s)), true)
  end.

Definition millisecond : Z := 1000000.

(** The deterministic jitter, in 64-bit arithmetic. *)
Definition Jitter (t : Token) : Z :=
  Z.lxor (Z.lxor (user_id t *₆₄ 11400714819323198485)
                 (token_generation t *₆₄ 6364136223846793005)) (token_attempt t) mod 126.

Definition Abandoned (a : Admission) (token : Token) (now : Z) : Admission :=
  let s := stats_ a in
  if stopped s then a
  else match entries_ a !! user_id token with
  | None => a
  | Some e =>
      if negb (Matches token e) then a
      else
        let shift := Z.min (deferrals e) 3 in
        let delay := 250 * Z.shiftl 1 shift * millisecond in
        MkAdmission
          (<[user_id token :=
               MkEntry (epoch e) (generation e) (attempt e)
                 (if deferrals e <? 3 then deferrals e + 1 else deferrals e)
                 (now + delay + Jitter token * millisecond) false]> (entries_ a))
          (next_generation_ a) (scan_cursor_ a)
          (MkStats (retained s) (peak_retained s) (ensured s) (coalesced s) (claims s)
             (readmissions s) (started s) (deferred s +₆₄ 1) (retired s) (stopped s))
  end.

Definition Retire (a : Admission) (user epoch' : Z) : Admission :=
  let s := stats_ a in
  match entries_ a !! user with
  | Some e =>
      if epoch e =? epoch' then
        MkAdmission (delete user (entries_ a)) (next_generation_ a) (scan_cursor_ a)
          (MkStats (retained s) (peak_retained s) (ensured s) (coalesced s) (claims s)
             (readmissions s) (started s) (deferred s) (retired s +₆₄ 1) (stopped s))
      else a
  | None => a
  end.

Definition Stop (a : Admission) : Admission :=
  let s := stats_ a in
  MkAdmission ∅ (next_generation_ a) (scan_cursor_ a)
    (MkStats (retained s) (peak_retained s) (ensured s) (coalesced s) (claims s)
       (readmissions s) (started s) (deferred s) (retired s +₆₄ entry_count a) true).

Definition Resume (a : Admission) : Admission :=
  let s := stats_ a in
  MkAdmission (entries_ a) (next_generation_ a) (scan_cursor_ a)
    (MkStats (retained s) (peak_retained s) (ensured s) (coalesced s) (claims s)
       (readmissions s) (started s) (deferred s) (retired s) false).

Definition GetStats (a : Admission) : Stats :=
  let s := stats_ a in
  MkStats (entry_count a) (peak_retained s) (ensured s) (coalesced s) (claims s)
    (readmissions s) (started s) (deferred s) (retired s) (stopped s).

(** The exchange of [settled_] by [MarkStarted] and by the destructor of a
    lease; the one that comes first wins. *)
Definition MarkStarted (l : Attempt) : Attempt :=
  match phase l with Armed => MkAttempt (token_ l) Starting | _ => l end.
Definition Destroy (l : Attempt) : Attempt :=
  match phase l with Armed => MkAttempt (token_ l) Dropping | _ => l end.

(** The call to the owner after the exchange. *)
Definition Settle (a : Admission) (l : Attempt) (now : Z) : Admission * Attempt * bool :=
  match phase l with
  | Starting => let '(a', ok) := Started a (token_ l) in (a', MkAttempt (token_ l) Settled, ok)
  | Dropping => (Abandoned a (token_ l) now, MkAttempt (token_ l) Settled, false)
  | _ => (a, l, false)
  end.

(** ** The round-robin scan *)

Lemma elem_of_keys a k : k ∈ keys a ↔ is_Some (entries_ a !! k).
Proof. unfold keys. rewrite merge_sort_Permutation, elem_of_elements. apply elem_of_dom. Qed.

Lemma keys_dom a a' : dom (entries_ a) = dom (entries_ a') → keys a = keys a'.
Proof. unfold keys. by intros ->. Qed.

Lemma length_keys a : length (keys a) = size (entries_ a).
Proof. unfold keys. rewrite merge_sort_Permutation. apply size_dom. Qed.

Lemma keys_sorted a : StronglySorted Z.lt (keys a).
Proof.
  assert (NoDup (keys a)) as Hnd by (unfold keys; rewrite merge_sort_Permutation; apply NoDup_elements).
  assert (StronglySorted Z.le (keys a)) as Hs by (apply (StronglySorted_merge_sort Z.le); apply _).
  revert Hnd Hs. generalize (keys a) as l. intros l Hnd Hs.
  induction Hs as [|x l Hs IH Hx]; constructor; apply list.NoDup_cons in Hnd as [Hni Hnd]; [by auto|].
  rewrite list.Forall_forall in *. intros y Hy. specialize (Hx y Hy).
  assert (x ≠ y) by naive_solver. lia.
Qed.

Lemma filter_all {A} (P : A → Prop) `{∀ x, Decision (P x)} l : Forall P l → filter P l = l.
Proof. induction 1; [done|]. rewrite filter_cons_True by done. by f_equal. Qed.

Lemma filter_none {A} (P : A → Prop) `{∀ x, Decision (P x)} l :
  Forall (λ x, ¬ P x) l → filter P l = [].
Proof. induction 1; [done|]. by rewrite filter_cons_False. Qed.

(** A value splits a strictly sorted list in the elements up to it and those
    above it. *)
Lemma filter_split (l : list Z) c : StronglySorted Z.lt l →
  ∃ p, (p ≤ length l)%nat ∧ filter (λ k, c < k) l = drop p l ∧ filter (λ k, k ≤ c) l = take p l.
Proof.
  induction l as [|x l IH]; intros Hs; [by exists 0%nat|].
  apply StronglySorted_cons in Hs as [Hx Hs]. destruct (decide (c < x)).
  - exists 0%nat. split; [lia|].
    rewrite filter_all, filter_none; [done|constructor; [lia|]|constructor; [lia|]];
      (eapply list.Forall_impl; [exact Hx|]; simpl; intros; lia).
  - destruct (IH Hs) as (p & Hp & Hd & Ht). exists (S p). simpl.
    rewrite filter_cons_False, filter_cons_True, Hd, Ht by lia. split; [lia|done].
Qed.

(** The elements above the one at [p] start at [p + 1]. *)
Lemma filter_above (l : list Z) p k : StronglySorted Z.lt l → l !! p = Some k →
  filter (λ x, k < x) l = drop (S p) l.
Proof.
  revert p. induction l as [|x l IH]; intros p Hs Hp; [done|].
  apply StronglySorted_cons in Hs as [Hx Hs]. destruct p as [|p]; simplify_eq/=.
  - rewrite filter_cons_False by lia. apply filter_all, Hx.
  - rewrite filter_cons_False; [by apply IH|].
    rewrite list.Forall_forall in Hx. apply list_elem_of_lookup_2 in Hp. specialize (Hx k Hp). lia.
Qed.

Lemma head_drop {A} (l : list A) p : head (drop p l) = l !! p.
Proof. revert p. induction l as [|x l IH]; intros [|p]; simpl; auto. Qed.

(** The users after the cursor, then those up to it. *)
Definition scan_order (a : Admission) : list Z :=
  filter (λ k, scan_cursor_ a < k) (keys a) ++ filter (λ k, k ≤ scan_cursor_ a) (keys a).

(** A user whose lease can be handed out at [now]. *)
Definition claimable (a : Admission) (now k : Z) : bool :=
  match entries_ a !! k with
  | Some e => negb (in_flight e) && (due e <=? now)
  | None => false
  end.

(** The scan as a loop over a list of users. *)
Fixpoint TakeList (ks : list Z) (submit_budget now : Z) (a : Admission) (result : list Attempt)
  : Admission * list Attempt :=
  match ks with
  | [] => (a, result)
  | k :: ks =>
      if Z.of_nat (length result) <? submit_budget then
        match entries_ a !! k with
        | Some e =>
            let a := MkAdmission (entries_ a) (next_generation_ a) k (stats_ a) in
            let '(a, claim) := ClaimLocked a k e now in
            TakeList ks submit_budget now a (result ++ option_list claim)
        | None => (a, result)
        end
      else (a, result)
  end.

Lemma ClaimLocked_dom a k e now : entries_ a !! k = Some e →
  dom (entries_ (ClaimLocked a k e now).1) = dom (entries_ a).
Proof.
  intros Hk. unfold ClaimLocked. case_match; simpl; [done|]. apply dom_insert_lookup_L. eauto.
Qed.

(** The iterator loop visits the users cyclically from the position of [it]. *)
Lemma TakeLoop_list n : ∀ p submit now a it result,
  (p ≤ length (keys a))%nat → (n ≤ length (keys a))%nat → it = keys a !! p →
  TakeLoop n submit now a it result =
  Some (TakeList (take n (drop p (keys a) ++ keys a)) submit now a result).
Proof.
  induction n as [|n IH]; intros p submit now a it result Hp Hn Hit; simpl; [done|].
  set (q := if decide (p < length (keys a))%nat then p else 0%nat).
  assert (∃ k, keys a !! q = Some k) as [k Hk].
  { apply lookup_lt_is_Some. unfold q. case_decide; lia. }
  assert (match it with Some k => Some k | None => begin a end = Some k) as Hcur.
  { rewrite Hit. unfold q in Hk. case_decide as Hl.
    - by rewrite Hk.
    - rewrite (lookup_ge_None_2 (keys a) p) by lia. unfold begin. by destruct (keys a). }
  assert (take (S n) (drop p (keys a) ++ keys a) = k :: take n (drop (S q) (keys a) ++ keys a)) as Hl.
  { unfold q in *. case_decide.
    - by rewrite (drop_S (keys a) k p).
    - rewrite (drop_ge (keys a) p) by lia. destruct (keys a) as [|x ks]; simplify_eq/=.
      f_equal. rewrite drop_0, take_app_le by lia. done. }
  rewrite Hcur, Hl. simpl. destruct (_ <? submit); [|done].
  assert (is_Some (entries_ a !! k)) as [e He]
    by (apply elem_of_keys; by eapply list_elem_of_lookup_2).
  rewrite He. simpl. destruct (ClaimLocked _ k e now) as [a2 claim] eqn:Hc.
  assert (dom (entries_ a2) = dom (entries_ a)) as Hd.
  { change a2 with (a2, claim).1. rewrite <-Hc. by rewrite ClaimLocked_dom. }
  apply keys_dom in Hd. rewrite <-Hd. rewrite <-Hd in Hn, Hk.
  apply IH; [apply lookup_lt_Some in Hk; lia|lia|].
  unfold upper_bound. by rewrite (filter_above _ q), head_drop by (done || apply keys_sorted).
Qed.

(** ** Interleavings

    A world is the admission, every lease handed out so far and, as a ghost, the
    tokens for which [MarkStarted] returned true. *)
Record World := MkWorld { adm : Admission; leases : list Attempt; began : list Token }.

Definition NewWorld : World := MkWorld NewAdmission [] [].

Inductive ReplayStep :=
| SEnsure (user epoch now : Z)
| SClaim (user epoch now : Z)
| STakeDue (scan_budget submit_budget now : Z)
| SMarkStarted (i : nat)
| SDestroy (i : nat)
| SSettle (i : nat) (now : Z)
| SRetire (user epoch : Z)
| SStop
| SResume.

(** [None] is a dereference of [end()] in [TakeDue]. *)
Definition replay_step (w : World) (s : ReplayStep) : option World :=
  let '(MkWorld a ls log) := w in
  match s with
  | SEnsure u e now => Some (MkWorld (Ensure a u e now).1 ls log)
  | SClaim u e now =>
      let '(a', claim) := Claim a u e now in Some (MkWorld a' (ls ++ option_list claim) log)
  | STakeDue scan submit now =>
      '(a', new) ← TakeDue a scan submit now; Some (MkWorld a' (ls ++ new) log)
  | SMarkStarted i =>
      Some (match ls !! i with Some l => MkWorld a (<[i := MarkStarted l]> ls) log | None => w end)
  | SDestroy i =>
      Some (match ls !! i with Some l => MkWorld a (<[i := Destroy l]> ls) log | None => w end)
  | SSettle i now =>
      match ls !! i with
      | None => Some w
      | Some l =>
          let '(a', l', ok) := Settle a l now in
          Some (MkWorld a' (<[i := l']> ls) (if (ok : bool) then log ++ [token_ l] else log))
      end
  | SRetire u e => Some (MkWorld (Retire a u e) ls log)
  | SStop => Some (MkWorld (Stop a) ls log)
  | SResume => Some (MkWorld (Resume a) ls log)
  end.

Definition token_of (u : Z) (e : Entry) : Token := MkToken u (epoch e) (generation e) (attempt e).
Definition lease_id (l : Attempt) : Z * Z := (token_generation (token_ l), token_attempt (token_ l)).

(** [n] bounds the generations and attempts made so far. *)
Record replay_ok (n : Z) (w : World) : Prop := {
  ok_gen : next_generation_ (adm w) = ensured (stats_ (adm w)) + 1;
  ok_counts : ensured (stats_ (adm w)) =
    started (stats_ (adm w)) + retired (stats_ (adm w)) + entry_count (adm w);
  ok_nonneg : 0 ≤ retired (stats_ (adm w));
  ok_bound : ensured (stats_ (adm w)) ≤ n;
  ok_started : started (stats_ (adm w)) = Z.of_nat (length (began w));
  ok_entry u e : entries_ (adm w) !! u = Some e →
    1 ≤ generation e < next_generation_ (adm w) ∧ 0 ≤ attempt e ≤ n ∧ 0 ≤ deferrals e ≤ 3;
  ok_inj u v e e' : entries_ (adm w) !! u = Some e → entries_ (adm w) !! v = Some e' →
    generation e = generation e' → u = v;
  ok_lease l : l ∈ leases w → token_generation (token_ l) < next_generation_ (adm w);
  ok_lease_entry l u e : l ∈ leases w → entries_ (adm w) !! u = Some e →
    token_generation (token_ l) = generation e →
    user_id (token_ l) = u ∧ token_epoch (token_ l) = epoch e ∧ token_attempt (token_ l) ≤ attempt e;
  ok_nodup : NoDup (lease_id <$> leases w);
  ok_flight u e : entries_ (adm w) !! u = Some e → in_flight e = true →
    ∃ l, l ∈ leases w ∧ token_ l = token_of u e ∧ phase l ≠ Settled;
  ok_began_nodup : NoDup (token_generation <$> began w);
  ok_began t : t ∈ began w → token_generation t < next_generation_ (adm w) ∧
    ∀ u e, entries_ (adm w) !! u = Some e → generation e ≠ token_generation t;
  ok_stopped : stopped (stats_ (adm w)) = true → entries_ (adm w) = ∅;
}.

Lemma replay_ok_new : replay_ok 0 NewWorld.
Proof.
  split; simpl; try done; try apply NoDup_nil_2; intros *; rewrite ?lookup_empty, ?elem_of_nil;
    done.
Qed.

Lemma replay_ok_mono n m w : replay_ok n w → n ≤ m → replay_ok m w.
Proof.
  intros [] Hn. split; try done; [lia|]. intros u e He. destruct (ok_entry0 u e He) as (?&?&?). lia.
Qed.

(** Handing out one lease. *)
Lemma ClaimLocked_ok n a ls log u e now a' c :
  replay_ok n (MkWorld a ls log) → entries_ a !! u = Some e → attempt e + 1 ≤ n → n < 2 ^ 64 →
  ClaimLocked a u e now = (a', c) →
  replay_ok n (MkWorld a' (ls ++ option_list c) log).
Proof.
  intros Hok He Ha Hn. unfold ClaimLocked. case_match eqn:Hg; intros [= <- <-]; simpl.
  { by rewrite app_nil_r. }
  reflect_guards. destruct Hok as [Hgen Hcnt Hnn Hb Hst Hent Hinj Hl Hle Hnd Hfl Hbn Hbg Hstop].
  simpl in *. destruct (Hent u e He) as (Hg1 & Ha1 & Hd1).
  rewrite u64_small by (unfold is_u64; lia).
  set (e' := MkEntry _ _ _ _ _ _). set (l := MkAttempt _ _).
  assert (∀ v f, <[u := e']> (entries_ a) !! v = Some f →
    ∃ f0, entries_ a !! v = Some f0 ∧ generation f = generation f0 ∧ epoch f = epoch f0 ∧
          attempt f0 ≤ attempt f) as Hold.
  { intros v f [[<- <-]|[_ Hv]]%lookup_insert_Some; [exists e|exists f]; simpl; split_and!; auto; lia. }
  split; simpl; try done.
  - unfold entry_count in *. simpl. rewrite map_size_insert_Some; [done|eauto].
  - intros v f [[<- <-]|[_ Hv]]%lookup_insert_Some; [simpl; lia|by apply (Hent v)].
  - intros v1 v2 f1 f2 (g1 & H1 & Hg1' & _)%Hold (g2 & H2 & Hg2' & _)%Hold Heq.
    apply (Hinj v1 v2 g1 g2); congruence.
  - intros x [Hx| ->%list_elem_of_singleton]%elem_of_app; [by apply Hl|simpl; lia].
  - intros x v f [Hx| ->%list_elem_of_singleton]%elem_of_app Hv Heq.
    + destruct (Hold v f Hv) as (f0 & Hf0 & Hg0 & He0 & Ha0).
      destruct (Hle x v f0 Hx Hf0) as (?&?&?); [congruence|]. split_and!; [done|congruence|lia].
    + apply lookup_insert_Some in Hv as [[<- <-]|[Hne Hv]]; simpl in *; [by split_and!; try lia|].
      destruct Hne. by apply (Hinj u v e f).
  - rewrite fmap_app. simpl. apply list.NoDup_app. split; [done|]. split; [|apply NoDup_singleton].
    intros x (y & -> & Hy)%list_elem_of_fmap [= H1 H2]%list_elem_of_singleton.
    destruct (Hle y u e Hy He H1) as (_ & _ & ?). lia.
  - intros v f [[<- <-]|[Hne Hv]]%lookup_insert_Some Hf.
    + exists l. split; [set_solver|]. done.
    + destruct (Hfl v f Hv Hf) as (x & Hx & ?). exists x. split; [set_solver|done].
  - intros t Ht. destruct (Hbg t Ht) as [? Hno]. split; [done|].
    intros v f (f0 & Hf0 & -> & _)%Hold. by apply (Hno v).
  - intros Hs. rewrite (Hstop Hs), lookup_empty in He. done.
Qed.

(** Changing the phase of a lease; only a lease no entry waits for is settled. *)
Lemma lease_set_ok n a ls log i l l' :
  replay_ok n (MkWorld a ls log) → ls !! i = Some l → token_ l' = token_ l →
  (phase l' = Settled → phase l = Settled ∨
     ∀ u e, entries_ a !! u = Some e → in_flight e = true → token_of u e ≠ token_ l) →
  replay_ok n (MkWorld a (<[i := l']> ls) log).
Proof.
  intros Hok Hi Ht Hs. destruct Hok as [Hgen Hcnt Hnn Hb Hst Hent Hinj Hl Hle Hnd Hfl Hbn Hbg Hstop].
  simpl in *. pose proof (list_elem_of_lookup_2 _ _ _ Hi) as Hli.
  assert (∀ x, x ∈ <[i := l']> ls → ∃ y, y ∈ ls ∧ token_ y = token_ x) as Hin.
  { intros x (j & Hj)%list_elem_of_lookup.
    apply list_lookup_insert_Some in Hj as [(<- & <- & _)|[_ Hj]]; [by eauto|].
    apply list_elem_of_lookup_2 in Hj. eauto. }
  split; simpl; try done.
  - intros x (y & Hy & <-)%Hin. by apply Hl.
  - intros x u e (y & Hy & <-)%Hin. by apply Hle.
  - rewrite list_fmap_insert, list_insert_id; [done|]. rewrite list_lookup_fmap, Hi. simpl.
    unfold lease_id. by rewrite Ht.
  - intros u e He Hf. destruct (Hfl u e He Hf) as (x & Hx & Hxt & Hxp).
    apply list_elem_of_lookup in Hx as [j Hj]. destruct (decide (i = j)) as [<-|Hij].
    + simplify_eq. exists l'. split; [|split; [congruence|]].
      * eapply list_elem_of_lookup_2, list_lookup_insert_eq, lookup_lt_Some, Hi.
      * intros [?|Hno]%Hs; [done|]. by apply (Hno u e).
    + exists x. split; [|done]. apply (list_elem_of_lookup_2 _ j). by rewrite list_lookup_insert_ne.
Qed.

(** Dropping the entry of a user, because its work started or it is retired. *)
Lemma erase_ok n a ls log u e st log' a' :
  replay_ok n (MkWorld a ls log) → entries_ a !! u = Some e → entries_ a' = delete u (entries_ a) →
  next_generation_ a' = next_generation_ a → ensured (stats_ a') = ensured (stats_ a) →
  stopped (stats_ a') = stopped (stats_ a) →
  (st = true ∧ log' = log ++ [token_of u e] ∧ retired (stats_ a') = retired (stats_ a) ∧
     started (stats_ a') = started (stats_ a) + 1 ∨
   st = false ∧ log' = log ∧ retired (stats_ a') = retired (stats_ a) + 1 ∧
     started (stats_ a') = started (stats_ a)) →
  replay_ok n (MkWorld a' ls log').
Proof.
  intros Hok He HE HG Hen Hsp Hlog.
  destruct Hok as [Hgen Hcnt Hnn Hb Hst Hent Hinj Hl Hle Hnd Hfl Hbn Hbg Hstop]. simpl in *.
  assert (entry_count a' = entry_count a - 1) as Hsz.
  { unfold entry_count. rewrite HE, map_size_delete, He. simpl.
    assert (size (entries_ a) ≠ 0%nat); [|lia]. intros Hz%map_size_empty_inv. by rewrite Hz in He. }
  split; simpl; rewrite ?HG, ?Hen, ?Hsp, ?HE; try done.
  - destruct Hlog as [(_ & _ & -> & ->)|(_ & _ & -> & ->)]; lia.
  - destruct Hlog as [(_ & _ & -> & _)|(_ & _ & -> & _)]; lia.
  - destruct Hlog as [(_ & -> & _ & ->)|(_ & -> & _ & ->)]; rewrite ?length_app; simpl; lia.
  - intros v f [_ Hv]%lookup_delete_Some. by apply (Hent v).
  - intros v1 v2 f1 f2 [_ H1]%lookup_delete_Some [_ H2]%lookup_delete_Some. by apply Hinj.
  - intros x v f Hx [_ Hv]%lookup_delete_Some. by apply Hle.
  - intros v f [_ Hv]%lookup_delete_Some. by apply Hfl.
  - destruct Hlog as [(_ & -> & _)|(_ & -> & _)]; [|done]. rewrite fmap_app. apply list.NoDup_app.
    split; [done|]. split; [|apply NoDup_singleton].
    intros g (t & -> & Ht)%list_elem_of_fmap Hg%list_elem_of_singleton. simpl in Hg.
    destruct (Hbg t Ht) as [_ Hno]. by apply (Hno u e He).
  - intros t Ht. assert (t ∈ log ∨ t = token_of u e) as [Hin| ->].
    { destruct Hlog as [(_ & -> & _)|(_ & -> & _)]; [|by left]. set_solver. }
    + destruct (Hbg t Hin) as [? Hno]. split; [done|]. intros v f [_ Hv]%lookup_delete_Some. eauto.
    + split; [by apply (Hent u e He)|]. intros v f [Hne Hv]%lookup_delete_Some Hg.
      destruct Hne. symmetry. by apply (Hinj v u f e).
  - intros Hs. by rewrite (Hstop Hs), delete_empty.
Qed.

(** Operations that only touch counters outside the invariant, or the cursor. *)
Lemma same_ok n a a' ls log :
  replay_ok n (MkWorld a ls log) → entries_ a' = entries_ a →
  next_generation_ a' = next_generation_ a → ensured (stats_ a') = ensured (stats_ a) →
  started (stats_ a') = started (stats_ a) → retired (stats_ a') = retired (stats_ a) →
  (stopped (stats_ a') = true → stopped (stats_ a) = true) →
  replay_ok n (MkWorld a' ls log).
Proof.
  intros [] HE HG Hen Hs Hr Hsp. unfold entry_count in *.
  split; simpl in *; unfold entry_count; rewrite ?HE, ?HG, ?Hen, ?Hs, ?Hr; auto.
Qed.

(** Installing an entry of a new generation, in place of an older one or not. *)
Lemma install_ok n a ls log u ep now a' :
  replay_ok n (MkWorld a ls log) →
  entries_ a' = <[u := MkEntry ep (next_generation_ a) 0 0 now false]> (entries_ a) →
  next_generation_ a' = next_generation_ a + 1 → ensured (stats_ a') = ensured (stats_ a) + 1 →
  started (stats_ a') = started (stats_ a) →
  retired (stats_ a') = retired (stats_ a) + (if entries_ a !! u is Some _ then 1 else 0) →
  stopped (stats_ a) = false → stopped (stats_ a') = false →
  replay_ok (n + 1) (MkWorld a' ls log).
Proof.
  intros Hok HE HG Hen Hs Hr Hsp Hsp'.
  destruct Hok as [Hgen Hcnt Hnn Hb Hst Hent Hinj Hl Hle Hnd Hfl Hbn Hbg Hstop]. simpl in *.
  assert (0 ≤ n) by (unfold entry_count in *; lia).
  split; simpl; unfold entry_count in *; rewrite ?HE, ?HG, ?Hen, ?Hs, ?Hr; try done; try lia.
  - destruct (entries_ a !! u) eqn:Hu.
    + rewrite map_size_insert_Some by eauto. lia.
    + rewrite map_size_insert_None by done. lia.
  - case_match; lia.
  - intros v f [[<- <-]|[_ Hv]]%lookup_insert_Some; simpl; [lia|].
    destruct (Hent v f Hv) as (?&?&?). lia.
  - intros v1 v2 f1 f2 [[<- <-]|[_ H1]]%lookup_insert_Some [[<- <-]|[_ H2]]%lookup_insert_Some Heq;
      simpl in *; [done| | |by apply (Hinj v1 v2 f1 f2)].
    + destruct (Hent v2 f2 H2). lia.
    + destruct (Hent v1 f1 H1). lia.
  - intros l Hx. specialize (Hl l Hx). lia.
  - intros l v f Hx [[<- <-]|[_ Hv]]%lookup_insert_Some Heq; simpl in *; [|by apply Hle].
    specialize (Hl l Hx). lia.
  - intros v f [[<- <-]|[_ Hv]]%lookup_insert_Some Hf; [done|by apply Hfl].
  - intros t Ht. destruct (Hbg t Ht) as [Hlt Hno]. split; [lia|].
    intros v f [[<- <-]|[_ Hv]]%lookup_insert_Some; simpl; [lia|by apply (Hno v)].
  - congruence.
Qed.

Lemma Ensure_ok n a ls log u ep now :
  replay_ok n (MkWorld a ls log) → n + 2 < 2 ^ 64 →
  replay_ok (n + 1) (MkWorld (Ensure a u ep now).1 ls log).
Proof.
  intros Hok Hn. pose proof (replay_ok_mono n (n + 1) _ Hok ltac:(lia)) as Hok'.
  pose proof Hok as [Hgen Hcnt Hnn Hb Hst _ _ _ _ _ _ _ _ _]. simpl in *.
  unfold entry_count in Hcnt.
  unfold Ensure. case_match; [done|]. case_match; [done|].
  destruct (entries_ a !! u) as [e|] eqn:Hu; [case_match|].
  - by eapply same_ok.
  - eapply install_ok; try done; simpl; rewrite ?Hu; try done; rewrite u64_small; unfold is_u64; lia.
  - eapply install_ok; try done; simpl; rewrite ?Hu; try done; rewrite ?u64_small by (unfold is_u64; lia); lia.
Qed.

Lemma Retire_ok n a ls log u ep :
  replay_ok n (MkWorld a ls log) → n < 2 ^ 64 → replay_ok n (MkWorld (Retire a u ep) ls log).
Proof.
  intros Hok Hn. unfold Retire. destruct (entries_ a !! u) as [e|] eqn:Hu; [|done].
  case_match; [|done]. eapply (erase_ok n a ls log u e false); try done. right. simpl. split_and!; try done.
  pose proof Hok as [Hgen Hcnt Hnn Hb Hst _ _ _ _ _ _ _ _ _]. simpl in *.
  assert (size (entries_ a) ≠ 0%nat) by (intros Hz%map_size_empty_inv; by rewrite Hz in Hu).
  unfold entry_count in Hcnt. apply u64_small. unfold is_u64. lia.
Qed.

Lemma Stop_ok n a ls log :
  replay_ok n (MkWorld a ls log) → n < 2 ^ 64 → replay_ok n (MkWorld (Stop a) ls log).
Proof.
  intros [Hgen Hcnt Hnn Hb Hst Hent Hinj Hl Hle Hnd Hfl Hbn Hbg Hstop] Hn. unfold entry_count in *.
  simpl in *. split; simpl; unfold entry_count; simpl; try done;
    rewrite ?map_size_empty; rewrite ?u64_small by (unfold is_u64; lia); try lia;
    intros *; rewrite ?lookup_empty; try done.
  intros Ht. split; [by apply Hbg|]. intros ??. by rewrite lookup_empty.
Qed.

(** A token that matches an entry is the entry's current one. *)
Lemma Matches_token t e : Matches t e = true → t = token_of (user_id t) e ∧ in_flight e = true.
Proof.
  unfold Matches. intros. reflect_guards. split; [|done]. destruct t; unfold token_of; simpl in *.
  by subst.
Qed.

Lemma Matches_token_of u e : in_flight e = true → Matches (token_of u e) e = true.
Proof. intros Hf. unfold Matches, token_of. simpl. by rewrite !Z.eqb_refl, Hf. Qed.

Lemma Abandoned_ok n a ls log t now :
  replay_ok n (MkWorld a ls log) → replay_ok n (MkWorld (Abandoned a t now) ls log).
Proof.
  intros Hok. unfold Abandoned. case_match; [done|].
  destruct (entries_ a !! user_id t) as [e|] eqn:Hu; [|done]. case_match eqn:Hm; [done|].
  reflect_guards. set (e' := MkEntry _ _ _ _ _ _).
  destruct Hok as [Hgen Hcnt Hnn Hb Hst Hent Hinj Hl Hle Hnd Hfl Hbn Hbg Hstop]. simpl in *.
  assert (∀ v f, <[user_id t := e']> (entries_ a) !! v = Some f →
    ∃ f0, entries_ a !! v = Some f0 ∧ generation f = generation f0 ∧ epoch f = epoch f0 ∧
          attempt f0 = attempt f) as Hold.
  { intros v f [[<- <-]|[_ Hv]]%lookup_insert_Some; [exists e|exists f]; done. }
  split; simpl; try done; unfold entry_count in *; simpl.
  - by rewrite map_size_insert_Some by eauto.
  - intros v f [[<- <-]|[_ Hv]]%lookup_insert_Some; [|by apply (Hent v)].
    destruct (Hent _ e Hu) as (?&?&?). simpl. split_and!; try done; try case_match; reflect_guards; lia.
  - intros v1 v2 f1 f2 (g1 & H1 & Hg1' & _)%Hold (g2 & H2 & Hg2' & _)%Hold Heq.
    apply (Hinj v1 v2 g1 g2); congruence.
  - intros x v f Hx (f0 & Hf0 & -> & -> & <-)%Hold. by apply Hle.
  - intros v f [[<- <-]|[_ Hv]]%lookup_insert_Some; [done|by apply Hfl].
  - intros x Hx. destruct (Hbg x Hx) as [? Hno]. split; [done|].
    intros v f (f0 & Hf0 & -> & _)%Hold. by apply (Hno v).
Qed.

(** After the call of its owner no in-flight entry waits for the lease. *)
Lemma Started_releases a t u e : (stopped (stats_ a) = true → entries_ a = ∅) →
  entries_ (Started a t).1 !! u = Some e → in_flight e = true → token_of u e ≠ t.
Proof.
  intros Hst He Hf <-. revert He. unfold Started. destruct (stopped (stats_ a)) eqn:Hs.
  { simpl. by rewrite Hst, lookup_empty. }
  simpl. destruct (entries_ a !! u) as [e0|] eqn:Hu; simpl; [|by rewrite Hu].
  case_match eqn:Hm; simpl; [|by rewrite lookup_delete_eq].
  rewrite Hu. intros ?; simplify_eq. by rewrite Matches_token_of in Hm.
Qed.

Lemma Abandoned_releases a t now u e : (stopped (stats_ a) = true → entries_ a = ∅) →
  entries_ (Abandoned a t now) !! u = Some e → in_flight e = true → token_of u e ≠ t.
Proof.
  intros Hst He Hf <-. revert He. unfold Abandoned. destruct (stopped (stats_ a)) eqn:Hs.
  { simpl. by rewrite Hst, lookup_empty. }
  simpl. destruct (entries_ a !! u) as [e0|] eqn:Hu; simpl; [|by rewrite Hu].
  case_match eqn:Hm; simpl; [|rewrite lookup_insert_eq; intros Heq%(inj Some); by rewrite <-Heq in Hf].
  rewrite Hu. intros ?; simplify_eq. by rewrite Matches_token_of in Hm.
Qed.

Lemma Started_ok n a ls log t a' ok :
  replay_ok n (MkWorld a ls log) → n < 2 ^ 64 → Started a t = (a', ok) →
  replay_ok n (MkWorld a' ls (if ok then log ++ [t] else log)).
Proof.
  intros Hok Hn. unfold Started. case_match; [by intros [= <- <-]|].
  destruct (entries_ a !! user_id t) as [e|] eqn:Hu; [|by intros [= <- <-]].
  case_match eqn:Hm; intros [= <- <-]; [done|]. reflect_guards. apply Matches_token in Hm as [-> _].
  eapply (erase_ok n a ls log (user_id t) e true); try done. left. simpl. split_and!; try done.
  pose proof Hok as [Hgen Hcnt Hnn Hb Hst _ _ _ _ _ _ _ _ _]. simpl in *.
  assert (size (entries_ a) ≠ 0%nat) by (intros Hz%map_size_empty_inv; by rewrite Hz in Hu).
  unfold entry_count in Hcnt. apply u64_small. unfold is_u64. lia.
Qed.

Lemma Settle_ok n a ls log i l now a' l' ok :
  replay_ok n (MkWorld a ls log) → n < 2 ^ 64 → ls !! i = Some l → Settle a l now = (a', l', ok) →
  replay_ok n (MkWorld a' (<[i := l']> ls) (if ok then log ++ [token_ l] else log)).
Proof.
  intros Hok Hn Hi. unfold Settle. destruct (phase l) eqn:Hp.
  - intros [= <- <- <-]. by rewrite list_insert_id.
  - destruct (Started a (token_ l)) as [a1 b] eqn:Hs. intros [= <- <- <-].
    pose proof (Started_ok n a ls log _ a1 b Hok Hn Hs) as Hok1.
    eapply lease_set_ok; [done|done|done|]. intros _. right. intros u e.
    change a1 with (a1, b).1. rewrite <-Hs. apply Started_releases, Hok.
  - intros [= <- <- <-]. pose proof (Abandoned_ok n a ls log (token_ l) now Hok) as Hok1.
    eapply lease_set_ok; [done|done|done|]. intros _. right. intros u e.
    apply Abandoned_releases, Hok.
  - intros [= <- <- <-]. by rewrite list_insert_id.
Qed.

(** What a timer turn over the users [ks] hands out: it claims, in order, those
    that are claimable until the budget is used. *)
Lemma TakeList_users submit now ks : ∀ a result,
  NoDup ks → (∀ k, k ∈ ks → is_Some (entries_ a !! k)) →
  ∃ a' new, TakeList ks submit now a result = (a', result ++ new) ∧
    ((λ l, user_id (token_ l)) <$> new) =
      take (Z.to_nat submit - length result) (filter (λ k, claimable a now k = true) ks).
Proof.
  induction ks as [|k ks IH]; intros a result Hnd Hin; simpl.
  { exists a, []. by rewrite app_nil_r, filter_nil, take_nil. }
  apply list.NoDup_cons in Hnd as [Hk Hnd]. case_match eqn:Hb; reflect_guards.
  2: { exists a, []. rewrite app_nil_r. split; [done|].
       by replace (Z.to_nat submit - length result)%nat with 0%nat by lia. }
  destruct (Hin k) as [e He]; [set_solver|]. rewrite He.
  destruct (ClaimLocked _ k e now) as [a1 c] eqn:Hc.
  assert (∀ j, j ≠ k → entries_ a1 !! j = entries_ a !! j) as Hsame.
  { intros j Hj. revert Hc. unfold ClaimLocked. case_match; intros [= <- _]; simpl; [done|].
    by rewrite lookup_insert_ne. }
  destruct (IH a1 (result ++ option_list c)) as (a' & new & Heq & Hu).
  { done. }
  { intros j Hj. rewrite Hsame by naive_solver. apply Hin. set_solver. }
  assert (filter (λ j, claimable a1 now j = true) ks = filter (λ j, claimable a now j = true) ks) as Hf.
  { clear -Hsame Hk. induction ks as [|j ks IHk]; [done|]. apply not_elem_of_cons in Hk as [Hne Hk].
    assert (claimable a1 now j = claimable a now j) as Hj
      by (unfold claimable; by rewrite (Hsame j) by done).
    by rewrite !filter_cons, Hj, IHk. }
  rewrite Hf in Hu. exists a', (option_list c ++ new). rewrite Heq, app_assoc. split; [done|].
  assert (claimable a now k = negb (in_flight e || (now <? due e))) as Hck.
  { unfold claimable. rewrite He, negb_orb. f_equal. rewrite Z.ltb_antisym. by rewrite negb_involutive. }
  revert Hc. unfold ClaimLocked. case_match; intros [= _ <-]; simpl.
  - rewrite filter_cons_False by (by rewrite Hck). by rewrite app_nil_r in Hu.
  - rewrite filter_cons_True by done.
    replace (Z.to_nat submit - length result)%nat
      with (S (Z.to_nat submit - (length result + 1)))%nat by lia.
    simpl. f_equal. rewrite length_app in Hu. exact Hu.
Qed.

(** A turn preserves the invariant: no user is claimed twice in it. *)
Lemma TakeList_ok submit now n ks : ∀ a ls log result,
  n < 2 ^ 64 → NoDup ks → (∀ k e, k ∈ ks → entries_ a !! k = Some e → attempt e + 1 ≤ n) →
  replay_ok n (MkWorld a (ls ++ result) log) →
  replay_ok n (MkWorld (TakeList ks submit now a result).1 (ls ++ (TakeList ks submit now a result).2) log).
Proof.
  induction ks as [|k ks IH]; intros a ls log result Hn Hnd Hin Hok; simpl; [done|].
  apply list.NoDup_cons in Hnd as [Hk Hnd]. case_match; [|done].
  destruct (entries_ a !! k) as [e|] eqn:He; [|done].
  set (a0 := MkAdmission _ _ _ _). assert (replay_ok n (MkWorld a0 (ls ++ result) log)) as Hok0
    by by eapply same_ok.
  destruct (ClaimLocked a0 k e now) as [a1 c] eqn:Hc. apply IH; try done.
  - intros j f Hj Hf. apply (Hin j); [set_solver|]. rewrite <-Hf. revert Hc. unfold ClaimLocked.
    case_match; intros [= <- _]; simpl; [done|]. rewrite lookup_insert_ne; [done|naive_solver].
  - rewrite app_assoc. eapply (ClaimLocked_ok n a0); try done. apply (Hin k); [set_solver|done].
Qed.

Lemma scan_order_keys a : scan_order a ≡ₚ keys a.
Proof.
  unfold scan_order.
  destruct (filter_split (keys a) (scan_cursor_ a) (keys_sorted a)) as (p & _ & -> & ->).
  rewrite (comm (++)). by rewrite take_drop.
Qed.

(** [TakeDue] is the loop over the users after the cursor, then those up to it. *)
Lemma TakeDue_list a scan submit now :
  stopped (stats_ a) = false → entries_ a ≠ ∅ → 0 < submit → 0 ≤ scan →
  TakeDue a scan submit now =
  Some (TakeList (take (Z.to_nat scan) (scan_order a)) submit now a []).
Proof.
  intros Hs Hne Hsub Hsc. unfold TakeDue. rewrite Hs.
  destruct (Z.eqb_spec (entry_count a) 0) as [Hz|Hz].
  { destruct Hne. apply map_size_empty_inv. unfold entry_count in Hz. lia. }
  destruct (Z.eqb_spec submit 0); [lia|]. simpl. pose proof (length_keys a) as Hlen.
  unfold upper_bound, scan_order.
  destruct (filter_split (keys a) (scan_cursor_ a) (keys_sorted a)) as (p & Hp & -> & ->).
  rewrite head_drop. unfold entry_count in *. rewrite (TakeLoop_list _ p) by (done || lia).
  do 2 f_equal. rewrite take_app, take_app, length_drop.
  destruct (decide (Z.to_nat scan ≤ length (keys a))%nat).
  - replace (Z.to_nat (scan `min` _)) with (Z.to_nat scan) by lia. f_equal.
    rewrite take_take. f_equal. lia.
  - replace (Z.to_nat (scan `min` _)) with (length (keys a)) by lia.
    rewrite !(take_ge (drop p (keys a))) by (rewrite length_drop; lia). f_equal.
    rewrite (take_ge (take p (keys a))) by (rewrite length_take; lia). f_equal. lia.
Qed.

Lemma scan_prefix a scan : NoDup (take scan (scan_order a)) ∧
  ∀ k, k ∈ take scan (scan_order a) → is_Some (entries_ a !! k).
Proof.
  assert (NoDup (scan_order a)) as Hnd.
  { rewrite scan_order_keys. unfold keys. rewrite merge_sort_Permutation. apply NoDup_elements. }
  split; [eapply sublist_NoDup; [exact Hnd|apply sublist_take]|].
  intros k Hk. apply elem_of_keys. rewrite <-scan_order_keys. eapply elem_of_take in Hk as (?&?&?).
  by eapply list_elem_of_lookup_2.
Qed.

Lemma TakeDue_ok n a ls log scan submit now :
  replay_ok n (MkWorld a ls log) → n + 1 < 2 ^ 64 → 0 ≤ submit → 0 ≤ scan →
  ∃ a' new, TakeDue a scan submit now = Some (a', new) ∧
            replay_ok (n + 1) (MkWorld a' (ls ++ new) log).
Proof.
  intros Hok Hn Hsub Hsc. pose proof (replay_ok_mono n (n + 1) _ Hok ltac:(lia)) as Hok'.
  destruct (stopped (stats_ a) || (entry_count a =? 0) || (submit =? 0)) eqn:Hg.
  { exists a, []. unfold TakeDue. rewrite Hg, app_nil_r. done. }
  reflect_guards. rewrite TakeDue_list; try done; [| |lia].
  2: { intros Hem. unfold entry_count in *. rewrite Hem in *. done. }
  destruct (scan_prefix a (Z.to_nat scan)) as [Hnd Hin].
  eexists _, _. split; [f_equal; apply surjective_pairing|].
  apply TakeList_ok; try done; [|by rewrite app_nil_r].
  intros k e _ He. destruct (ok_entry _ _ Hok k e He) as (_ & ? & _). lia.
Qed.

(** The budgets are [std::size_t]. *)
Definition step_typed (s : ReplayStep) : Prop :=
  match s with STakeDue scan submit _ => 0 ≤ scan ∧ 0 ≤ submit | _ => True end.

Lemma replay_step_ok n w s : replay_ok n w → n + 2 < 2 ^ 64 → step_typed s →
  ∃ w', replay_step w s = Some w' ∧ replay_ok (n + 1) w'.
Proof.
  destruct w as [a ls log]. intros Hok Hn Ht.
  pose proof (replay_ok_mono n (n + 1) _ Hok ltac:(lia)) as Hok'.
  destruct s as [u e now|u e now|scan submit now|i|i|i now|u e| |]; simpl.
  - eexists. split; [done|]. apply Ensure_ok; [done|lia].
  - destruct (Claim a u e now) as [a1 c] eqn:Hc. eexists. split; [done|]. revert Hc. unfold Claim.
    case_match; [intros [= <- <-]; by rewrite app_nil_r|].
    destruct (entries_ a !! u) as [f|] eqn:Hu; [|intros [= <- <-]; by rewrite app_nil_r].
    case_match; [intros [= <- <-]; by rewrite app_nil_r|]. intros Hc.
    eapply (ClaimLocked_ok (n + 1) a); try done; [|lia].
    destruct (ok_entry _ _ Hok u f Hu) as (_ & ? & _). lia.
  - destruct Ht. destruct (TakeDue_ok n a ls log scan submit now) as (a' & new & -> & ?);
      [done|lia..|]. by eexists.
  - eexists. split; [done|]. destruct (ls !! i) as [l|] eqn:Hi; [|done].
    eapply lease_set_ok; try done; unfold MarkStarted; case_match; simpl; auto; congruence.
  - eexists. split; [done|]. destruct (ls !! i) as [l|] eqn:Hi; [|done].
    eapply lease_set_ok; try done; unfold Destroy; case_match; simpl; auto; congruence.
  - destruct (ls !! i) as [l|] eqn:Hi; [|by eexists].
    destruct (Settle a l now) as [[a' l'] b] eqn:Hs. eexists. split; [done|].
    eapply Settle_ok; try done. lia.
  - eexists. split; [done|]. apply Retire_ok; [done|lia].
  - eexists. split; [done|]. apply Stop_ok; [done|lia].
  - eexists. split; [done|]. by eapply same_ok.
Qed.

Lemma replay_run_ok steps : ∀ n w, replay_ok n w → n + Z.of_nat (length steps) + 1 < 2 ^ 64 →
  Forall step_typed steps →
  ∃ w', run replay_step w steps = Some w' ∧ replay_ok (n + Z.of_nat (length steps)) w'.
Proof.
  induction steps as [|s steps IH]; intros n w Hok Hn Ht; cbn [length run] in *.
  { rewrite Z.add_0_r. by eauto. }
  inversion Ht; subst. destruct (replay_step_ok n w s Hok) as (w1 & -> & Hok1); [lia|done|].
  destruct (IH (n + 1) w1 Hok1) as (w' & Hr & Hok'); [lia|done|].
  exists w'. split; [done|]. by replace (n + Z.of_nat (S (length steps)))
    with (n + 1 + Z.of_nat (length steps)) by lia.
Qed.

(** ** Properties *)

(** In every interleaving of operations and lease settlements (fewer than
    2^64 - 1 of them) no iterator is dereferenced at the end, and an obligation
    is never lost: an entry marked in flight has exactly one lease that carries
    its token, and that lease is not settled yet, so it will start the work or
    re-arm the entry.  The work of a generation starts at most once, and every
    obligation accepted is started, retired or still retained. *)
Theorem replay_obligation_retained steps :
  Z.of_nat (length steps) + 1 < 2 ^ 64 → Forall step_typed steps →
  ∃ w, run replay_step NewWorld steps = Some w ∧
    (∀ u e, entries_ (adm w) !! u = Some e → in_flight e = true →
       ∃ i l, leases w !! i = Some l ∧ token_ l = token_of u e ∧ phase l ≠ Settled ∧
         ∀ j l', leases w !! j = Some l' → token_ l' = token_ l → j = i) ∧
    NoDup (token_generation <$> began w) ∧
    started (GetStats (adm w)) = Z.of_nat (length (began w)) ∧
    ensured (GetStats (adm w)) =
      started (GetStats (adm w)) + retired (GetStats (adm w)) + retained (GetStats (adm w)).
Proof.
  intros Hn Ht. destruct (replay_run_ok steps 0 NewWorld replay_ok_new) as (w & Hr & Hok); [lia|done|].
  exists w. split; [done|]. destruct Hok. split; [|by split_and!].
  intros u e He Hf. destruct (ok_flight0 u e He Hf) as (l & Hl & Htk & Hp).
  apply list_elem_of_lookup in Hl as [i Hi]. exists i, l. split_and!; try done.
  intros j l' Hj Hjt. eapply (NoDup_lookup _ j i (lease_id l)); [done|..];
    rewrite list_lookup_fmap; [rewrite Hj|rewrite Hi]; simpl; unfold lease_id; by rewrite ?Hjt.
Qed.

Lemma replay_obligation_retained_witness :
  let steps := [SEnsure 7 1 0; SClaim 7 1 0; SDestroy 0; SSettle 0 5; STakeDue 8 8 1000000000;
                SMarkStarted 1; SSettle 1 0] in
  ∃ w, run replay_step NewWorld steps = Some w ∧
       began w = [MkToken 7 1 1 2] ∧ ensured (GetStats (adm w)) = 1 ∧
       NoDup (token_generation <$> began w).
Proof.
  intros steps. destruct (replay_obligation_retained steps) as (w & Hr & _ & Hnd & _).
  - simpl. lia.
  - repeat constructor; simpl; lia.
  - exists w. split; [exact Hr|]. split; [|split; [|exact Hnd]];
      vm_compute in Hr; injection Hr as <-; reflexivity.
Defined.

(** A timer turn serves the users round-robin.  It hands out, in the cyclic
    order that starts after the cursor, one lease for each of the first
    [scan_budget] users that is due and not in flight, up to [submit_budget]
    leases; it never touches a missing entry. *)
Theorem take_due_round_robin a scan submit now :
  stopped (stats_ a) = false → entries_ a ≠ ∅ → 0 < submit → 0 ≤ scan →
  ∃ a' new, TakeDue a scan submit now = Some (a', new) ∧
    ((λ l, user_id (token_ l)) <$> new) =
      take (Z.to_nat submit)
        (filter (λ k, claimable a now k = true) (take (Z.to_nat scan) (scan_order a))) ∧
    scan_order a ≡ₚ elements (dom (entries_ a)).
Proof.
  intros Hs Hne Hsub Hsc. rewrite TakeDue_list by done.
  destruct (scan_prefix a (Z.to_nat scan)) as [Hnd Hin].
  destruct (TakeList_users submit now (take (Z.to_nat scan) (scan_order a)) a [] Hnd Hin)
    as (a' & new & Heq & Hu).
  exists a', new. split; [by rewrite Heq|]. split; [rewrite Hu; f_equal; simpl; lia|].
  rewrite scan_order_keys. unfold keys. by rewrite merge_sort_Permutation.
Qed.

Lemma take_due_round_robin_witness :
  let a := MkAdmission (entries_ (Ensure (Ensure (Ensure NewAdmission 3 1 0).1 5 1 0).1 9 1 90).1) 4 3
             (stats_ NewAdmission) in
  ∃ a' new, TakeDue a 3 2 10 = Some (a', new) ∧ (λ l, user_id (token_ l)) <$> new = [5; 3].
Proof.
  intros a. destruct (take_due_round_robin a 3 2 10) as (a' & new & Heq & Hu & _);
    [reflexivity|intros H; apply (f_equal size) in H; vm_compute in H; discriminate H|lia|lia|].
  exists a', new. split; [exact Heq|]. rewrite Hu. vm_compute. reflexivity.
Defined.

(** Dropping the lease of a claimed user re-arms it: the entry can be
    claimed again after at least 250 ms, doubled with every deferral up to
    2000 ms, plus a jitter below 126 ms; the entry keeps its epoch, generation and
    attempt, so the dropped lease can no longer settle it. *)
Theorem abandoned_rearms_with_backoff a u e now :
  stopped (stats_ a) = false → entries_ a !! u = Some e → in_flight e = true →
  0 ≤ deferrals e ≤ 3 →
  let a' := Abandoned a (token_of u e) now in
  ∃ e', entries_ a' !! u = Some e' ∧ in_flight e' = false ∧
    epoch e' = epoch e ∧ generation e' = generation e ∧ attempt e' = attempt e ∧
    deferrals e' = Z.min (deferrals e + 1) 3 ∧
    now + 250 * 2 ^ deferrals e * millisecond ≤ due e' ≤
      now + (250 * 2 ^ deferrals e + 125) * millisecond ∧
    due e' ≤ now + 2125 * millisecond ∧
    (∀ later, due e' ≤ later → claimable a' later u = true) ∧
    Started a' (token_of u e) = (a', false) ∧ Abandoned a' (token_of u e) now = a'.
Proof.
  intros Hs Hu Hf Hd a'.
  assert (a' = MkAdmission (<[u := MkEntry (epoch e) (generation e) (attempt e)
      (if deferrals e <? 3 then deferrals e + 1 else deferrals e)
      (now + 250 * Z.shiftl 1 (Z.min (deferrals e) 3) * millisecond
       + Jitter (token_of u e) * millisecond) false]> (entries_ a)) (next_generation_ a)
      (scan_cursor_ a) (stats_ a')) as Ha'.
  { unfold a', Abandoned. rewrite Hs. simpl. by rewrite Hu, Matches_token_of by done. }
  assert (stopped (stats_ a') = false) as Hs'.
  { unfold a', Abandoned. rewrite Hs. simpl. by rewrite Hu, Matches_token_of by done. }
  set (e' := MkEntry _ _ _ _ _ false) in Ha'.
  assert (entries_ a' !! u = Some e') as He' by (rewrite Ha'; apply lookup_insert_eq).
  assert (Matches (token_of u e) e' = false) as Hm by (unfold Matches; simpl; by rewrite andb_false_r).
  assert (0 ≤ Jitter (token_of u e) < 126) by (apply Z.mod_pos_bound; lia).
  assert (Z.shiftl 1 (Z.min (deferrals e) 3) = 2 ^ deferrals e) as Hsh
    by (rewrite Z.shiftl_1_l, Z.min_l by lia; done).
  assert (2 ^ deferrals e ≤ 2 ^ 3) by (apply Z.pow_le_mono_r; lia).
  exists e'. split; [done|]. split; [done|]. split_and!; try done.
  - simpl. case_match; reflect_guards; lia.
  - unfold e', millisecond. cbn [due]. rewrite Hsh. lia.
  - unfold e', millisecond. cbn [due]. rewrite Hsh. lia.
  - unfold e', millisecond. cbn [due]. rewrite Hsh. lia.
  - intros later Hl. unfold claimable. rewrite He'. simpl. apply Z.leb_le. exact Hl.
  - unfold Started. rewrite Hs'. simpl. by rewrite He', Hm.
  - unfold Abandoned at 1. rewrite Hs'. simpl. by rewrite He', Hm.
Qed.

Lemma abandoned_rearms_with_backoff_witness :
  let a := (Claim (Ensure NewAdmission 7 1 0).1 7 1 0).1 in
  ∃ e', entries_ (Abandoned a (MkToken 7 1 1 1) 10) !! 7 = Some e' ∧ in_flight e' = false ∧
        250000010 ≤ due e' ≤ 375000010.
Proof.
  intros a. assert (entries_ a !! 7 = Some (MkEntry 1 1 1 0 0 true)) as Ha by reflexivity.
  destruct (abandoned_rearms_with_backoff a 7 _ 10 eq_refl Ha eq_refl) as (e' & He & Hf & _ & _ & _ & _ & Hd & _).
  - simpl. lia.
  - exists e'. split; [exact He|]. split; [exact Hf|].
    unfold millisecond in Hd. simpl in Hd. lia.
Defined.
