(* ===== verification/DurablePrivateRecovery.v ===== *)
(** * Recovery of pending private messages

    Models [src/gateway/DurablePrivateRecovery.h]: the schedule that finds
    recipients with pending messages by scanning the store in pages, and grants
    one replay lease per session.  A lease is an object its owner holds and drops
    at any time; the world is the shared state with the leases in hand.
    Time is a number of milliseconds; the counters have their width. *)
From Stdlib Require Import ZArith Lia.
From stdpp Require Import base gmap list sorting numbers.
From S2P Require Import Prelude.
Local Open Scope Z_scope.
Local Open Scope width_scope.

(** ** Data *)

Record Options := MkOptions {
  max_session_states : Z;
  max_active_replays : Z;
  query_interval : Z;
  failure_backoff : Z;
}.

Record ReplayState := MkReplay {
  rp_epoch : Z; rp_generation : Z; rp_cursor : Z; rp_active : bool;
}.

Record State := MkState {
  stopped : bool;
  query_active : bool;
  query_generation : Z;
  cursor : Z;
  replay_generation : Z;
  next_query : Z;
  recipients : list Z;
  sessions : gmap Z ReplayState;
  active_replays : Z;
}.

(** The leases; a finished one has no effect any more. *)
Record QueryAttempt := MkQuery { q_generation : Z; q_cursor : Z; q_finished : bool }.
Record ReplayAttempt := MkLease {
  l_user : Z; l_epoch : Z; l_generation : Z; l_cursor : Z; l_finished : bool;
}.

Definition Limit : Z := 256.

(** ** Operations on the state *)

Section Operations.
Variable o : Options.

(** The limits the constructor of [State] puts in. *)
Definition session_limit : Z := Z.max 1 (max_session_states o).
Definition replay_limit : Z := Z.max 1 (max_active_replays o).

Definition NewState : State := MkState true false 0 0 0 0 [] ∅ 0.

Definition Resume (s : State) : State :=
  MkState false false (query_generation s +₆₄ 1) 0 (replay_generation s) 0 [] ∅ 0.

Definition Stop (s : State) : State :=
  MkState true false (query_generation s +₆₄ 1) (cursor s) (replay_generation s) (next_query s)
    [] ∅ 0.

Definition AcquireQuery (s : State) (now : Z) : State * option QueryAttempt :=
  if stopped s || query_active s || negb (bool_decide (recipients s = [])) || (now <? next_query s)
  then (s, None)
  else
    let generation := query_generation s +₆₄ 1 in
    (MkState (stopped s) true generation (cursor s) (replay_generation s) (next_query s)
       (recipients s) (sessions s) (active_replays s),
     Some (MkQuery generation (cursor s) false)).

(** The check of a page: strictly increasing from the cursor. *)
Fixpoint page_ok (previous : Z) (ids : list Z) : bool :=
  match ids with
  | [] => true
  | id :: ids => negb (id =? 0) && (previous <? id) && page_ok id ids
  end.
Definition page_last (previous : Z) (ids : list Z) : Z := default previous (list.last ids).

Definition QueryCurrent (s : State) (q : QueryAttempt) : bool :=
  negb (q_finished q) && negb (stopped s) && query_active s &&
  (query_generation s =? q_generation q).

Definition QueryComplete (s : State) (q : QueryAttempt) (ids : list Z) (has_more : bool) (now : Z)
  : State * QueryAttempt * bool :=
  let n := Z.of_nat (length ids) in
  if (Limit <? n) || (has_more && negb (n =? Limit)) then (s, q, false)
  else if negb (page_ok (q_cursor q) ids) then (s, q, false)
  else if negb (QueryCurrent s q) then (s, q, false)
  else
    (MkState (stopped s) false (query_generation s)
       (if has_more then page_last (q_cursor q) ids else 0) (replay_generation s)
       (now + query_interval o) ids (sessions s) (active_replays s),
     MkQuery (q_generation q) (q_cursor q) true, true).

Definition QueryFail (s : State) (q : QueryAttempt) (now : Z) : State * QueryAttempt :=
  ((if QueryCurrent s q
    then MkState (stopped s) false (query_generation s) (cursor s) (replay_generation s)
           (now + failure_backoff o) (recipients s) (sessions s) (active_replays s)
    else s),
   MkQuery (q_generation q) (q_cursor q) true).

Definition TakeRecipients (s : State) (budget : nat) : State * list Z :=
  if stopped s then (s, [])
  else
    let count := Nat.min budget (Nat.min 32 (length (recipients s))) in
    (MkState (stopped s) (query_active s) (query_generation s) (cursor s) (replay_generation s)
       (next_query s) (drop count (recipients s)) (sessions s) (active_replays s),
     take count (recipients s)).

Definition with_sessions (s : State) (m : gmap Z ReplayState) (n : Z) : State :=
  MkState (stopped s) (query_active s) (query_generation s) (cursor s) (replay_generation s)
    (next_query s) (recipients s) m n.

(** [BeginReplay] once the session is known to have the epoch and to be idle. *)
Definition GrantReplay (s : State) (user : Z) (r : ReplayState) : State * option ReplayAttempt :=
  let g := replay_generation s +₆₄ 1 in
  (MkState (stopped s) (query_active s) (query_generation s) (cursor s) g
     (next_query s) (recipients s)
     (<[user := MkReplay (rp_epoch r) g (rp_cursor r) true]> (sessions s)) (active_replays s +₆₄ 1),
   Some (MkLease user (rp_epoch r) g (rp_cursor r) false)).

Definition BeginReplay (s : State) (user epoch : Z) : State * option ReplayAttempt :=
  if (user =? 0) || (epoch =? 0) then (s, None)
  else if stopped s then (s, None)
  else match sessions s !! user with
  | Some r =>
      if negb (rp_epoch r =? epoch) then
        if epoch <? rp_epoch r then (s, None)
        else
          let fresh := MkReplay epoch 0 0 false in
          let s := with_sessions s (<[user := fresh]> (sessions s))
                     (if rp_active r then active_replays s -₆₄ 1 else active_replays s) in
          if replay_limit <=? active_replays s then (s, None) else GrantReplay s user fresh
      else if rp_active r then (s, None)
      else if replay_limit <=? active_replays s then (s, None)
      else GrantReplay s user r
  | None =>
      if replay_limit <=? active_replays s then (s, None)
      else if session_limit <=? Z.of_nat (size (sessions s)) then (s, None)
      else GrantReplay s user (MkReplay epoch 0 0 false)
  end.

Definition Retire (s : State) (user epoch : Z) : State :=
  match sessions s !! user with
  | None => s
  | Some r =>
      if negb (rp_epoch r =? epoch) then s
      else with_sessions s (delete user (sessions s))
             (if rp_active r then active_replays s -₆₄ 1 else active_replays s)
  end.

Definition ReplayCurrent (s : State) (l : ReplayAttempt) : bool :=
  negb (l_finished l) && negb (stopped s) &&
  match sessions s !! l_user l with
  | None => false
  | Some r => (rp_epoch r =? l_epoch l) && (rp_generation r =? l_generation l) && rp_active r
  end.

Definition finish_lease (l : ReplayAttempt) : ReplayAttempt :=
  MkLease (l_user l) (l_epoch l) (l_generation l) (l_cursor l) true.

(** [FinishLocked], with the cursor [c] if there is a new one. *)
Definition FinishReplay (s : State) (l : ReplayAttempt) (c : option Z) : State :=
  match sessions s !! l_user l with
  | None => s
  | Some r =>
      with_sessions s
        (<[l_user l := MkReplay (rp_epoch r) (rp_generation r) (default (rp_cursor r) c) false]>
           (sessions s))
        (active_replays s -₆₄ 1)
  end.

Definition ReplayComplete (s : State) (l : ReplayAttempt) (last_message_id : Z) (has_more : bool)
  : State * ReplayAttempt * bool :=
  if has_more && (last_message_id <=? l_cursor l) then (s, l, false)
  else if negb (ReplayCurrent s l) then (s, l, false)
  else (FinishReplay s l (Some (if has_more then last_message_id else 0)), finish_lease l, true).

(** [Release], which the destructor of a lease calls. *)
Definition ReplayRelease (s : State) (l : ReplayAttempt) : State * ReplayAttempt :=
  (if ReplayCurrent s l then FinishReplay s l None else s, finish_lease l).

(** ** The world *)

(** [scan] and [taken] are not in the source: the recipients the current scan of
    the store has found, and those of them that were taken. *)
Record World := MkWorld {
  st : State;
  queries : list QueryAttempt;
  replays : list ReplayAttempt;
  scan : list Z;
  taken : list Z;
}.

Definition NewWorld : World := MkWorld NewState [] [] [] [].

Inductive Op :=
| OResume
| OStop
| OAcquireQuery (now : Z)
| OQueryComplete (i : nat) (ids : list Z) (has_more : bool) (now : Z)
| OQueryFail (i : nat) (now : Z)
| ODropQuery (i : nat) (now : Z)
| OTake (budget : nat)
| OBegin (user epoch : Z)
| OReplayComplete (i : nat) (last_message_id : Z) (has_more : bool)
| ODropReplay (i : nat)
| ORetire (user epoch : Z).

Definition world_step (w : World) (op : Op) : World :=
  let s := st w in
  match op with
  | OResume => MkWorld (Resume s) (queries w) (replays w) [] []
  | OStop => MkWorld (Stop s) (queries w) (replays w) [] []
  | OAcquireQuery now =>
      let '(s, q) := AcquireQuery s now in
      MkWorld s (queries w ++ option_list q) (replays w) (scan w) (taken w)
  | OQueryComplete i ids has_more now =>
      match queries w !! i with
      | None => w
      | Some q =>
          let '(s, q', ok) := QueryComplete s q ids has_more now in
          let first := q_cursor q =? 0 in
          MkWorld s (<[i := q']> (queries w)) (replays w)
            (if (ok : bool) then (if first then [] else scan w) ++ ids else scan w)
            (if ok && first then [] else taken w)
      end
  | OQueryFail i now =>
      match queries w !! i with
      | None => w
      | Some q => let '(s, q') := QueryFail s q now in
                  MkWorld s (<[i := q']> (queries w)) (replays w) (scan w) (taken w)
      end
  | ODropQuery i now =>
      match queries w !! i with
      | None => w
      | Some q => let '(s, _) := QueryFail s q now in
                  MkWorld s (delete i (queries w)) (replays w) (scan w) (taken w)
      end
  | OTake budget =>
      let '(s, ids) := TakeRecipients s budget in
      MkWorld s (queries w) (replays w) (scan w) (taken w ++ ids)
  | OBegin user epoch =>
      let '(s, l) := BeginReplay s user epoch in
      MkWorld s (queries w) (replays w ++ option_list l) (scan w) (taken w)
  | OReplayComplete i last_message_id has_more =>
      match replays w !! i with
      | None => w
      | Some l => let '(s, l', _) := ReplayComplete s l last_message_id has_more in
                  MkWorld s (queries w) (<[i := l']> (replays w)) (scan w) (taken w)
      end
  | ODropReplay i =>
      match replays w !! i with
      | None => w
      | Some l => let '(s, _) := ReplayRelease s l in
                  MkWorld s (queries w) (delete i (replays w)) (scan w) (taken w)
      end
  | ORetire user epoch => MkWorld (Retire s user epoch) (queries w) (replays w) (scan w) (taken w)
  end.

Definition world_run : World → list Op → World := foldl world_step.

End Operations.

(** ** Scans *)

Record scan_ok (n : Z) (w : World) : Prop := {
  sc_generation : 0 ≤ query_generation (st w) ≤ n;
  sc_queries : Forall (λ q, q_generation q ≤ query_generation (st w)) (queries w);
  sc_once : NoDup (q_generation <$> queries w);
  sc_current : Forall (λ q, QueryCurrent (st w) q = true → q_cursor q = cursor (st w)) (queries w);
  sc_empty : query_active (st w) = true → recipients (st w) = [];
  sc_scan : stopped (st w) = false → scan w = taken w ++ recipients (st w);
  sc_sorted : StronglySorted Z.lt (scan w);
  sc_cursor : stopped (st w) = false → cursor (st w) ≠ 0 →
    list.last (scan w) = Some (cursor (st w));
}.

Lemma page_sorted p ids :
  page_ok p ids = true → StronglySorted Z.lt ids ∧ Forall (λ x, p < x) ids.
Proof.
  revert p. induction ids as [|x ids IH]; intros p; simpl; [by repeat constructor|].
  intros Hp. reflect_guards. destruct (IH x) as [Hs Hf]; [done|]. split.
  - by constructor.
  - constructor; [done|]. eapply list.Forall_impl; [exact Hf|]. simpl. lia.
Qed.

Lemma sorted_snoc_page l p ids :
  StronglySorted Z.lt l → list.last l = Some p → page_ok p ids = true →
  StronglySorted Z.lt (l ++ ids).
Proof.
  intros Hl Hp Hi. destruct (page_sorted p ids Hi) as [Hs Hf].
  apply StronglySorted_app_2; [|done|done].
  intros x1 x2 Hx1 Hx2. rewrite list.Forall_forall in Hf. specialize (Hf x2 Hx2).
  destruct l as [|a l'] using rev_ind; [done|]. rewrite last_snoc in Hp. simplify_eq.
  apply elem_of_app in Hx1 as [Hx1|Hx1%list_elem_of_singleton]; [|by subst].
  apply StronglySorted_app_1_elem_of with (x1 := x1) (x2 := p) in Hl; [lia|done|].
  by apply list_elem_of_singleton.
Qed.

(** What the leases of sessions leave alone. *)
Definition same_query (s s' : State) : Prop :=
  stopped s' = stopped s ∧ query_active s' = query_active s ∧
  query_generation s' = query_generation s ∧ cursor s' = cursor s ∧ recipients s' = recipients s.

Lemma scan_frame n w w' :
  scan_ok n w → same_query (st w) (st w') → queries w' = queries w → scan w' = scan w →
  taken w' = taken w → scan_ok (n + 1) w'.
Proof.
  intros [] (E1 & E2 & E3 & E4 & E5) Q1 Q2 Q3.
  split; rewrite ?E1, ?E2, ?E3, ?E4, ?E5, ?Q1, ?Q2, ?Q3; try done; [lia|].
  eapply list.Forall_impl; [done|]. intros q Hq. unfold QueryCurrent. by rewrite E1, E2, E3.
Qed.

Section Scans.
Variable o : Options.

Lemma GrantReplay_query s u r : same_query s (GrantReplay s u r).1.
Proof. by split_and!. Qed.

Lemma BeginReplay_query s u e : same_query s (BeginReplay o s u e).1.
Proof. unfold BeginReplay. repeat case_match; by split_and!. Qed.

Lemma FinishReplay_query s l c : same_query s (FinishReplay s l c).
Proof. unfold FinishReplay. case_match; by split_and!. Qed.

Lemma Retire_query s u e : same_query s (Retire s u e).
Proof. unfold Retire. repeat case_match; by split_and!. Qed.

(** A query whose generation has passed is not current. *)
Lemma old_query s q : q_generation q < query_generation s → QueryCurrent s q = false.
Proof. intros Hg. unfold QueryCurrent. rewrite (proj2 (Z.eqb_neq _ _)) by lia. by rewrite andb_false_r. Qed.

Lemma generations_insert (l : list QueryAttempt) i q f :
  l !! i = Some q → q_generation <$> <[i := MkQuery (q_generation q) (q_cursor q) f]> l = q_generation <$> l.
Proof.
  intros Hi. rewrite list_fmap_insert. apply list_insert_id. by rewrite list_lookup_fmap, Hi.
Qed.

Lemma NoDup_fmap_delete {A B} (f : A → B) (l : list A) i : NoDup (f <$> l) → NoDup (f <$> delete i l).
Proof. intros Hl. eapply sublist_NoDup; [exact Hl|]. apply fmap_sublist, sublist_delete. Qed.

(** No query is current while none is active. *)
Lemma inactive_query s q : query_active s = false → QueryCurrent s q = false.
Proof. intros E. unfold QueryCurrent. by rewrite E, andb_false_r. Qed.

(** [Fail], by its owner or by the destructor of the lease. *)
Lemma QueryFail_scan n w i q now qs :
  scan_ok n w → queries w !! i = Some q →
  Forall (λ q, q_generation q ≤ query_generation (st w)) qs → NoDup (q_generation <$> qs) →
  (∀ q0, q0 ∈ qs → q0 ∈ queries w ∨ q_finished q0 = true) →
  scan_ok (n + 1) (MkWorld (QueryFail o (st w) q now).1 qs (replays w) (scan w) (taken w)).
Proof.
  intros Hok Hi Hq Hn Hin. unfold QueryFail. simpl.
  destruct (QueryCurrent (st w) q) eqn:Hc; destruct Hok; (split; simpl; try done; [lia|]).
  - apply list.Forall_forall. intros q0 _ E. by rewrite inactive_query in E.
  - apply list.Forall_forall. intros q0 Hq0 E. destruct (Hin q0 Hq0) as [Hq0'|Hf].
    + rewrite list.Forall_forall in sc_current0. by apply sc_current0.
    + unfold QueryCurrent in E. by rewrite Hf in E.
Qed.

Lemma QueryComplete_scan n w i q ids more now :
  scan_ok n w → queries w !! i = Some q →
  scan_ok (n + 1) (world_step o w (OQueryComplete i ids more now)).
Proof.
  intros Hok Hi. simpl. rewrite Hi. unfold QueryComplete.
  assert (scan_ok (n + 1) (MkWorld (st w) (<[i := q]> (queries w)) (replays w) (scan w) (taken w)))
    as Hsame.
  { rewrite list_insert_id by done. by eapply scan_frame; [exact Hok|split_and!|..]. }
  destruct (_ || _) eqn:Hlen; [done|]. destruct (page_ok (q_cursor q) ids) eqn:Hpage; [|done].
  destruct (QueryCurrent (st w) q) eqn:Hc; [|done]. simpl. clear Hsame.
  destruct Hok. pose proof (Forall_lookup_1 _ _ _ _ sc_current0 Hi Hc) as Hcur.
  assert (stopped (st w) = false ∧ query_active (st w) = true) as [Hst Hact].
  { unfold QueryCurrent in Hc. by reflect_guards. }
  pose proof (sc_scan0 Hst) as Hscan. rewrite (sc_empty0 Hact), app_nil_r in Hscan.
  split; simpl; try done; rewrite ?(generations_insert _ _ _ _ Hi); try done; [lia|..].
  - apply Forall_insert; [done|]. simpl. by apply (Forall_lookup_1 _ _ _ _ sc_queries0 Hi).
  - apply list.Forall_forall. intros q0 _ E. by rewrite inactive_query in E.
  - intros _. destruct (q_cursor q =? 0); [done|]. by rewrite Hscan.
  - destruct (Z.eqb_spec (q_cursor q) 0) as [Hz|Hz]; [by eapply page_sorted|].
    eapply sorted_snoc_page; [done| |exact Hpage]. rewrite Hcur in *. auto.
  - intros _. destruct more; [|done]. intros _. unfold page_last.
    destruct ids as [|x ids] using rev_ind; [by rewrite orb_true_r in Hlen|].
    rewrite last_snoc, (assoc_L (++)), last_snoc. done.
Qed.

Lemma scan_ok_step n w op : scan_ok n w → n + 1 < 2 ^ 64 → scan_ok (n + 1) (world_step o w op).
Proof.
  intros Hok Hn. destruct op as [| |now|i ids more now|i now|i now|b|u e|i m more|i|u e].
  1-2: destruct Hok; split; simpl; rewrite ?u64_small by (unfold is_u64; lia); try done;
    [lia|eapply list.Forall_impl; [exact sc_queries0|]; simpl; lia| |constructor];
    apply list.Forall_forall; intros q _ E; by rewrite inactive_query in E.
  - simpl. unfold AcquireQuery. destruct (_ || _) eqn:Hg.
    { rewrite app_nil_r. by eapply scan_frame; [exact Hok|split_and!|..]. }
    reflect_guards. destruct Hok. simpl. rewrite u64_small by (unfold is_u64; lia).
    split; simpl; try done; rewrite ?fmap_app; [lia|..].
    + apply Forall_app. split; [|by repeat constructor].
      eapply list.Forall_impl; [exact sc_queries0|]. simpl. lia.
    + apply list.NoDup_app. split_and!; [done| |by apply NoDup_singleton].
      intros x (q & -> & Hq)%list_elem_of_fmap. rewrite list.Forall_forall in sc_queries0.
      specialize (sc_queries0 q Hq). simpl in *. rewrite list_elem_of_singleton. lia.
    + apply Forall_app. split; [|by repeat constructor].
      eapply list.Forall_impl; [exact sc_queries0|]. intros q Hq E.
      rewrite old_query in E; [done|]. simpl in *. lia.
  - simpl. destruct (queries w !! i) as [q|] eqn:Hi.
    + pose proof (QueryComplete_scan n w i q ids more now Hok Hi) as Hc. simpl in Hc. by rewrite Hi in Hc.
    + by eapply scan_frame; [exact Hok|split_and!|..].
  - simpl. destruct (queries w !! i) as [q|] eqn:Hi; [|by eapply scan_frame; [exact Hok|split_and!|..]].
    apply (QueryFail_scan _ _ i); try done.
    + apply Forall_insert; [apply Hok|]. apply (Forall_lookup_1 _ _ _ _ (sc_queries _ _ Hok) Hi).
    + rewrite (generations_insert _ _ _ _ Hi). apply Hok.
    + intros q0 [j Hj]%list_elem_of_lookup. apply list_lookup_insert_Some in Hj as [(-> & <- & _)|[_ Hj]].
      * by right.
      * left. by eapply list_elem_of_lookup_2.
  - simpl. destruct (queries w !! i) as [q|] eqn:Hi; [|by eapply scan_frame; [exact Hok|split_and!|..]].
    apply (QueryFail_scan _ _ i); try done.
    + apply Forall_delete, Hok.
    + apply NoDup_fmap_delete, Hok.
    + intros q0 Hq0. left. eapply elem_of_sublist; [exact Hq0|]. apply sublist_delete.
  - simpl. unfold TakeRecipients. destruct (stopped (st w)) eqn:Hs.
    + rewrite app_nil_r. by eapply scan_frame; [exact Hok|split_and!|..].
    + destruct Hok. split; simpl; try done; [lia|..].
      * eapply list.Forall_impl; [exact sc_current0|]. intros q Hq E. apply Hq.
        unfold QueryCurrent in *. simpl in *. by rewrite Hs.
      * intros E. by rewrite (sc_empty0 E), drop_nil.
      * intros _. by rewrite <-(assoc_L (++)), take_drop, <-sc_scan0.
      * auto.
  - simpl. pose proof (BeginReplay_query (st w) u e) as Hb. destruct (BeginReplay o (st w) u e) as [s l].
    by eapply scan_frame.
  - simpl. destruct (replays w !! i); [|by eapply scan_frame; [exact Hok|split_and!|..]].
    unfold ReplayComplete. repeat case_match; simplify_eq; eapply scan_frame; try done;
      try apply FinishReplay_query; by split_and!.
  - simpl. destruct (replays w !! i); [|by eapply scan_frame; [exact Hok|split_and!|..]].
    unfold ReplayRelease. repeat case_match; simplify_eq; eapply scan_frame; try done;
      try apply FinishReplay_query; by split_and!.
  - simpl. eapply scan_frame; [done|apply Retire_query|done..].
Qed.
End Scans.

(** ** Leases *)

Definition is_active (_ : Z) (r : ReplayState) : Z := if rp_active r then 1 else 0.

(** The lease an active session was granted. *)
Definition granted (u : Z) (r : ReplayState) (l : ReplayAttempt) : Prop :=
  l_user l = u ∧ l_epoch l = rp_epoch r ∧ l_generation l = rp_generation r ∧ l_finished l = false.

Section Leases.
Variable o : Options.
Hypothesis limit_fits : is_u64 (max_active_replays o).

Record lease_ok (n : Z) (w : World) : Prop := {
  le_generation : 0 ≤ replay_generation (st w) ≤ n;
  le_leases : Forall (λ l, l_generation l ≤ replay_generation (st w)) (replays w);
  le_once : NoDup (l_generation <$> replays w);
  le_count : active_replays (st w) = total is_active (sessions (st w));
  le_limit : active_replays (st w) ≤ replay_limit o;
  le_sessions : Z.of_nat (size (sessions (st w))) ≤ session_limit o;
  le_stopped : stopped (st w) = true → sessions (st w) = ∅;
  le_granted u r : sessions (st w) !! u = Some r → rp_active r = true →
    ∃ l, l ∈ replays w ∧ granted u r l;
}.

Lemma is_active_nonneg u r : 0 ≤ is_active u r.
Proof. unfold is_active. destruct (rp_active r); lia. Qed.

Lemma active_le_size m : total is_active m ≤ Z.of_nat (size m).
Proof.
  rewrite <-total_size. pose proof (total_nonneg (λ u r, 1 - is_active u r) m) as Hn.
  assert (total (λ _ _, 1) m = total is_active m + total (λ u r, 1 - is_active u r) m) as ->.
  { rewrite <-total_plus. apply total_ext. lia. }
  enough (0 ≤ total (λ u r, 1 - is_active u r) m) by lia. apply Hn.
  intros u r _. unfold is_active. destruct (rp_active r); lia.
Qed.

Lemma granted_current s u r l :
  stopped s = false → sessions s !! u = Some r → rp_active r = true → granted u r l →
  ReplayCurrent s l = true.
Proof.
  intros Hs Hu Ha (El & He & Hg & Hf). unfold ReplayCurrent.
  by rewrite El, Hs, Hu, Ha, Hf, He, Hg, !Z.eqb_refl.
Qed.

Lemma current_granted s l :
  ReplayCurrent s l = true →
  ∃ r, sessions s !! l_user l = Some r ∧ rp_active r = true ∧ granted (l_user l) r l ∧
       stopped s = false.
Proof.
  unfold ReplayCurrent. intros Hc. destruct (sessions s !! l_user l) as [r|]; [|by rewrite andb_false_r in Hc].
  reflect_guards. exists r. by split_and!.
Qed.

(** The leases of a world have different generations. *)
Lemma same_lease n w l l' :
  lease_ok n w → l ∈ replays w → l' ∈ replays w → l_generation l = l_generation l' → l = l'.
Proof.
  intros Hok [i Hi]%list_elem_of_lookup [j Hj]%list_elem_of_lookup Hg.
  assert (i = j) as ->; [|congruence].
  apply (NoDup_lookup (l_generation <$> replays w) i j (l_generation l)); [apply Hok|..].
  - by rewrite list_lookup_fmap, Hi.
  - rewrite list_lookup_fmap, Hj. simpl. by rewrite Hg.
Qed.

(** A step that leaves the sessions alone. *)
Lemma lease_frame n w w' :
  lease_ok n w → sessions (st w') = sessions (st w) → stopped (st w') = stopped (st w) →
  active_replays (st w') = active_replays (st w) →
  replay_generation (st w') = replay_generation (st w) → replays w' = replays w →
  lease_ok (n + 1) w'.
Proof.
  intros [] E1 E2 E3 E4 E5. split; rewrite ?E1, ?E2, ?E3, ?E4, ?E5; try done. lia.
Qed.

(** A session ends its replay, or its lease is dropped. *)
Lemma FinishReplay_ok n w i l c ls :
  lease_ok n w → replays w !! i = Some l → ReplayCurrent (st w) l = true →
  Forall (λ l, l_generation l ≤ replay_generation (st w)) ls → NoDup (l_generation <$> ls) →
  (∀ l', l' ∈ replays w → l' ≠ l → l' ∈ ls) →
  lease_ok (n + 1) (MkWorld (FinishReplay (st w) l c) (queries w) ls (scan w) (taken w)).
Proof.
  intros Hok Hi Hc Hg Hn Hin. destruct (current_granted _ _ Hc) as (r & Hr & Ha & Hgr & Hs).
  unfold FinishReplay. rewrite Hr. pose proof (active_le_size (sessions (st w))).
  pose proof (total_lookup_le is_active _ _ _ (λ k a _, is_active_nonneg k a) Hr) as Hle.
  unfold is_active in Hle at 1. rewrite Ha in Hle.
  pose proof (le_limit _ _ Hok). pose proof Hok as [? ? ? Hcnt ? ? ? Hgd].
  assert (active_replays (st w) -₆₄ 1 = active_replays (st w) - 1) as Hdec.
  { apply u64_small. unfold is_u64, replay_limit in *. lia. }
  split; simpl; try done; rewrite ?Hdec; [lia|..].
  - rewrite Hcnt, (total_insert_old _ _ _ _ _ Hr). unfold is_active at 3 4. rewrite Ha. simpl. lia.
  - lia.
  - by rewrite map_size_insert_Some.
  - congruence.
  - intros u r' Hu Ha'. destruct (decide (u = l_user l)) as [->|Hne].
    { rewrite lookup_insert_eq in Hu. by simplify_eq. }
    rewrite lookup_insert_ne in Hu by done. destruct (Hgd u r' Hu Ha') as (l' & Hl' & Hg').
    exists l'. split; [|done]. apply Hin; [done|]. intros ->. by destruct Hg' as [? _].
Qed.

(** The count after the session of a user was replaced by an idle one, or
    erased. *)
Lemma count_without s u r :
  active_replays s = total is_active (sessions s) → active_replays s ≤ replay_limit o →
  sessions s !! u = Some r →
  (if rp_active r then active_replays s -₆₄ 1 else active_replays s) =
  total is_active (sessions s) - is_active u r.
Proof.
  intros Hc Hl Hr.
  pose proof (total_lookup_le is_active _ _ _ (λ k a _, is_active_nonneg k a) Hr) as Hle.
  unfold is_active in *. destruct (rp_active r); [|lia]. rewrite u64_small; [lia|].
  unfold is_u64, replay_limit in *. lia.
Qed.

Lemma reset_session n w u r e :
  lease_ok n w → sessions (st w) !! u = Some r →
  lease_ok n (MkWorld (with_sessions (st w) (<[u := MkReplay e 0 0 false]> (sessions (st w)))
      (if rp_active r then active_replays (st w) -₆₄ 1 else active_replays (st w)))
    (queries w) (replays w) (scan w) (taken w)).
Proof.
  intros Hok Hr. pose proof Hok as [? ? ? Hcnt Hlim ? Hst Hgd].
  pose proof (count_without _ _ _ Hcnt Hlim Hr) as Hc. pose proof (is_active_nonneg u r).
  split; simpl; try done; rewrite ?Hc.
  - rewrite (total_insert_old _ _ _ _ _ Hr).
    change (is_active u (MkReplay e 0 0 false)) with 0. lia.
  - lia.
  - by rewrite map_size_insert_Some.
  - intros E. rewrite (Hst E) in Hr. by rewrite lookup_empty in Hr.
  - intros u' r' Hu Ha. destruct (decide (u' = u)) as [->|].
    + rewrite lookup_insert_eq in Hu. by simplify_eq.
    + rewrite lookup_insert_ne in Hu by done. by apply Hgd.
Qed.

Lemma GrantReplay_ok n w u r :
  lease_ok n w → n + 1 < 2 ^ 64 → stopped (st w) = false → active_replays (st w) < replay_limit o →
  (∀ r0, sessions (st w) !! u = Some r0 → rp_active r0 = false) →
  (sessions (st w) !! u = None → Z.of_nat (size (sessions (st w))) < session_limit o) →
  lease_ok (n + 1) (MkWorld (GrantReplay (st w) u r).1 (queries w)
    (replays w ++ option_list (GrantReplay (st w) u r).2) (scan w) (taken w)).
Proof.
  intros [? Hl Hn Hcnt Hlim Hsz Hst Hgd] Hbound Hs Hact Hidle Hroom. simpl.
  pose proof (total_nonneg is_active (sessions (st w)) (λ k a _, is_active_nonneg k a)).
  assert (replay_generation (st w) +₆₄ 1 = replay_generation (st w) + 1) as Hg
    by (apply u64_small; unfold is_u64; lia).
  assert (active_replays (st w) +₆₄ 1 = active_replays (st w) + 1) as Ha
    by (apply u64_small; unfold is_u64, replay_limit in *; lia).
  rewrite Hg, Ha. split; simpl; try done; [lia|..].
  - apply Forall_app. split; [|by repeat constructor].
    eapply list.Forall_impl; [exact Hl|]. simpl. lia.
  - rewrite fmap_app. apply list.NoDup_app. split_and!; [done| |by apply NoDup_singleton].
    intros x (l & -> & Hin)%list_elem_of_fmap. rewrite list.Forall_forall in Hl.
    specialize (Hl l Hin). simpl in *. rewrite list_elem_of_singleton. lia.
  - destruct (sessions (st w) !! u) as [r0|] eqn:Hu.
    + rewrite (total_insert_old _ _ _ _ _ Hu). unfold is_active at 2 3.
      rewrite (Hidle r0 eq_refl). simpl. lia.
    + rewrite total_insert_new by done. unfold is_active at 1. simpl. lia.
  - lia.
  - destruct (sessions (st w) !! u) as [r0|] eqn:Hu.
    + by rewrite map_size_insert_Some.
    + rewrite map_size_insert_None by done. specialize (Hroom eq_refl). lia.
  - congruence.
  - intros u' r' Hu Ha'. destruct (decide (u' = u)) as [->|].
    + rewrite lookup_insert_eq in Hu. simplify_eq. eexists. rewrite elem_of_app.
      split; [right; by apply list_elem_of_singleton|done].
    + rewrite lookup_insert_ne in Hu by done. destruct (Hgd _ _ Hu Ha') as (l & Hin & ?).
      exists l. rewrite elem_of_app. auto.
Qed.

Lemma BeginReplay_ok n w u e :
  lease_ok n w → n + 1 < 2 ^ 64 → lease_ok (n + 1) (world_step o w (OBegin u e)).
Proof.
  intros Hok Hn. simpl.
  assert (∀ s' : State, lease_ok n (MkWorld s' (queries w) (replays w) (scan w) (taken w)) →
    lease_ok (n + 1) (MkWorld s' (queries w) (replays w ++ []) (scan w) (taken w))) as Hnone.
  { intros s' Hs'. rewrite app_nil_r. by eapply lease_frame. }
  assert (lease_ok n (MkWorld (st w) (queries w) (replays w) (scan w) (taken w))) as Hok'
    by (by destruct w).
  unfold BeginReplay. destruct (_ || _); [by apply Hnone|].
  destruct (stopped (st w)) eqn:Hs; [by apply Hnone|].
  destruct (sessions (st w) !! u) as [r|] eqn:Hr.
  - destruct (negb (rp_epoch r =? e)).
    + destruct (e <? rp_epoch r); [by apply Hnone|].
      pose proof (reset_session n w u r e Hok Hr) as Hok1.
      destruct (replay_limit o <=? _) eqn:Hl; [by apply Hnone|]. reflect_guards.
      apply (GrantReplay_ok _ _ u (MkReplay e 0 0 false)) in Hok1; try done; simpl.
      * intros r0 Hu. rewrite lookup_insert_eq in Hu. by simplify_eq.
      * by rewrite lookup_insert_eq.
    + destruct (rp_active r) eqn:Ha; [by apply Hnone|].
      destruct (replay_limit o <=? _) eqn:Hl; [by apply Hnone|]. reflect_guards.
      apply (GrantReplay_ok _ _ u r) in Hok; try done; [|congruence]. by intros r0 [= <-]%(eq_trans (eq_sym Hr)).
  - destruct (replay_limit o <=? _) eqn:Hl; [by apply Hnone|].
    destruct (session_limit o <=? _) eqn:Hl2; [by apply Hnone|]. reflect_guards.
    apply (GrantReplay_ok _ _ u (MkReplay e 0 0 false)) in Hok; try done. intros r0. by rewrite Hr.
Qed.

Lemma Retire_lease_ok n w u e :
  lease_ok n w → lease_ok (n + 1) (world_step o w (ORetire u e)).
Proof.
  intros Hok. simpl. unfold Retire. destruct (sessions (st w) !! u) as [r|] eqn:Hr;
    [|by eapply lease_frame]. destruct (negb _); [by eapply lease_frame|].
  pose proof Hok as [? ? ? Hcnt Hlim ? Hst Hgd].
  pose proof (count_without _ _ _ Hcnt Hlim Hr) as Hc. pose proof (is_active_nonneg u r).
  split; simpl; try done; rewrite ?Hc; [lia|..].
  - by rewrite (total_delete _ _ _ _ Hr).
  - lia.
  - rewrite map_size_delete_Some by done. lia.
  - intros E. rewrite (Hst E) in Hr. by rewrite lookup_empty in Hr.
  - intros u' r' [_ Hu]%lookup_delete_Some Ha. by apply Hgd.
Qed.

Lemma lease_generations (l : list ReplayAttempt) i x :
  l !! i = Some x → l_generation <$> <[i := finish_lease x]> l = l_generation <$> l.
Proof.
  intros Hi. rewrite list_fmap_insert. apply list_insert_id. by rewrite list_lookup_fmap, Hi.
Qed.

(** A lease that is not current is in nobody's way. *)
Lemma stale_lease n w i l ls :
  lease_ok n w → replays w !! i = Some l → ReplayCurrent (st w) l = false →
  Forall (λ l, l_generation l ≤ replay_generation (st w)) ls → NoDup (l_generation <$> ls) →
  (∀ l', l' ∈ replays w → l' ≠ l → l' ∈ ls) →
  lease_ok (n + 1) (MkWorld (st w) (queries w) ls (scan w) (taken w)).
Proof.
  intros [] Hi Hc Hg Hn Hin. split; simpl; try done; [lia|].
  intros u r Hu Ha. destruct (le_granted0 u r Hu Ha) as (l' & Hl' & Hg').
  exists l'. split; [|done]. apply Hin; [done|]. intros ->.
  destruct (stopped (st w)) eqn:Hs.
  - rewrite (le_stopped0 eq_refl) in Hu. by rewrite lookup_empty in Hu.
  - by rewrite (granted_current (st w) u r l Hs Hu Ha Hg') in Hc.
Qed.

Lemma ReplayComplete_ok n w i m more :
  lease_ok n w → lease_ok (n + 1) (world_step o w (OReplayComplete i m more)).
Proof.
  intros Hok. simpl. destruct (replays w !! i) as [l|] eqn:Hi; [|by eapply lease_frame].
  assert (lease_ok (n + 1) (MkWorld (st w) (queries w) (<[i := l]> (replays w)) (scan w) (taken w)))
    as Hsame by (rewrite list_insert_id by done; by eapply lease_frame).
  unfold ReplayComplete. destruct (_ && _); [done|].
  destruct (ReplayCurrent (st w) l) eqn:Hc; [|done]. simpl.
  apply (FinishReplay_ok _ _ i); try done.
  - apply Forall_insert; [apply Hok|]. apply (Forall_lookup_1 _ _ _ _ (le_leases _ _ Hok) Hi).
  - rewrite (lease_generations _ _ _ Hi). apply Hok.
  - intros l' [j Hj]%list_elem_of_lookup Hne. apply list_elem_of_lookup. exists j.
    rewrite list_lookup_insert_ne; [done|]. intros ->. congruence.
Qed.

Lemma ReplayRelease_ok n w i :
  lease_ok n w → lease_ok (n + 1) (world_step o w (ODropReplay i)).
Proof.
  intros Hok. simpl. destruct (replays w !! i) as [l|] eqn:Hi; [|by eapply lease_frame].
  assert (∀ l', l' ∈ replays w → l' ≠ l → l' ∈ delete i (replays w)) as Hin.
  { intros l' Hl' Hne. rewrite (delete_Permutation _ _ _ Hi) in Hl'.
    by apply elem_of_cons in Hl' as [?|?]. }
  unfold ReplayRelease. destruct (ReplayCurrent (st w) l) eqn:Hc.
  - apply (FinishReplay_ok _ _ i); try done; [apply Forall_delete, Hok|apply NoDup_fmap_delete, Hok].
  - apply (stale_lease _ _ i l); try done; [apply Forall_delete, Hok|apply NoDup_fmap_delete, Hok].
Qed.

Lemma lease_ok_step n w op :
  lease_ok n w → n + 1 < 2 ^ 64 → lease_ok (n + 1) (world_step o w op).
Proof.
  intros Hok Hn. destruct op as [| |now|i ids more now|i now|i now|b|u e|i m more|i|u e];
    [..|by apply BeginReplay_ok|by apply ReplayComplete_ok|by apply ReplayRelease_ok|by apply Retire_lease_ok];
    simpl.
  1-2: destruct Hok; split; simpl; try done; rewrite ?map_size_empty;
    unfold replay_limit, session_limit in *; try lia.
  - unfold AcquireQuery. destruct (_ || _); by eapply lease_frame.
  - destruct (queries w !! i); [|by eapply lease_frame]. unfold QueryComplete.
    repeat case_match; simplify_eq; by eapply lease_frame.
  - destruct (queries w !! i) as [q|]; [|by eapply lease_frame]. unfold QueryFail.
    destruct (QueryCurrent (st w) q); by eapply lease_frame.
  - destruct (queries w !! i) as [q|]; [|by eapply lease_frame]. unfold QueryFail.
    destruct (QueryCurrent (st w) q); by eapply lease_frame.
  - unfold TakeRecipients. destruct (stopped (st w)) eqn:Hs; [by eapply lease_frame|].
    eapply lease_frame; by rewrite ?Hs.
Qed.

Lemma world_run_ok ops : ∀ n w,
  lease_ok n w → scan_ok n w → n + Z.of_nat (length ops) < 2 ^ 64 →
  let w' := world_run o w ops in ∃ m, lease_ok m w' ∧ scan_ok m w'.
Proof.
  induction ops as [|op ops IH]; intros n w Hl Hs Hn; simpl in *; [by exists n|].
  apply (IH (n + 1)); [apply lease_ok_step|apply scan_ok_step|]; try done; lia.
Qed.

Lemma NewWorld_ok : lease_ok 0 NewWorld ∧ scan_ok 0 NewWorld.
Proof.
  split; split; simpl; try done; try constructor; unfold replay_limit, session_limit; try lia.
  all: rewrite ?map_size_empty; lia.
Qed.

(** leases of replays.  In every sequence of fewer than 2^64 calls, with
    leases completed, dropped or kept in any order: the count of active replays
    is the number of active sessions and stays within its limit, as does the
    number of sessions; every active session has exactly one lease in hand that
    is current, so no session is blocked by a lease that is gone and no two
    replays of a session run at once. *)
Theorem recovery_leases ops :
  Z.of_nat (length ops) < 2 ^ 64 →
  let w := world_run o NewWorld ops in
  active_replays (st w) = total is_active (sessions (st w)) ∧
  active_replays (st w) ≤ replay_limit o ∧
  Z.of_nat (size (sessions (st w))) ≤ session_limit o ∧
  (∀ u r, sessions (st w) !! u = Some r → rp_active r = true →
    ∃ l, l ∈ replays w ∧ l_user l = u ∧ ReplayCurrent (st w) l = true) ∧
  (∀ l l', l ∈ replays w → l' ∈ replays w → l_user l = l_user l' →
    ReplayCurrent (st w) l = true → ReplayCurrent (st w) l' = true → l = l').
Proof.
  intros Hn w. destruct NewWorld_ok as [Hl Hs].
  destruct (world_run_ok ops 0 NewWorld Hl Hs) as (m & Hok & _); [lia|]. fold w in Hok.
  split_and!; try apply Hok.
  - intros u r Hu Ha. destruct (le_granted _ _ Hok u r Hu Ha) as (l & Hin & Hg). exists l.
    split_and!; [done|by destruct Hg|]. eapply granted_current; try done.
    destruct (stopped (st w)) eqn:E; [|done]. rewrite (le_stopped _ _ Hok E) in Hu.
    by rewrite lookup_empty in Hu.
  - intros l l' Hin Hin' Hu (r & Hr & _ & (_ & _ & Hg & _) & _)%current_granted
      (r' & Hr' & _ & (_ & _ & Hg' & _) & _)%current_granted.
    apply (same_lease m w); try done. congruence.
Qed.

(** Scans.  While the schedule runs, the recipients found by the current
    scan are those taken followed by those that wait to be taken, in strictly
    increasing order: none is skipped, taken twice or lost, and the next page of
    the scan starts after the last of them. *)
Theorem recovery_scan ops :
  Z.of_nat (length ops) < 2 ^ 64 →
  let w := world_run o NewWorld ops in
  stopped (st w) = false →
  scan w = taken w ++ recipients (st w) ∧ StronglySorted Z.lt (scan w) ∧
  (cursor (st w) ≠ 0 → list.last (scan w) = Some (cursor (st w))).
Proof.
  intros Hn w Hst. destruct NewWorld_ok as [Hl Hs].
  destruct (world_run_ok ops 0 NewWorld Hl Hs) as (m & _ & Hok); [lia|]. fold w in Hok.
  split_and!; [by apply (sc_scan _ _ Hok)|apply Hok|by apply (sc_cursor _ _ Hok)].
Qed.

End Leases.

Definition sample_options : Options := MkOptions 10 2 100 500.
Definition sample_ops : list Op :=
  [OResume; OAcquireQuery 0; OQueryComplete 0 [3; 8; 9] false 5; OTake 2; OBegin 3 1; OBegin 8 1;
   OBegin 9 4; OReplayComplete 0 40 true; OBegin 9 4; OBegin 8 2; ODropReplay 1].

Lemma recovery_leases_witness :
  let w := world_run sample_options NewWorld sample_ops in
  active_replays (st w) = 2 ∧ total is_active (sessions (st w)) = 2 ∧
  ∃ l, l ∈ replays w ∧ l_user l = 8 ∧ ReplayCurrent (st w) l = true.
Proof.
  intros w.
  destruct (recovery_leases sample_options ltac:(unfold is_u64; simpl; lia) sample_ops
    ltac:(simpl; lia)) as (Hc & _ & _ & Hg & _).
  fold w in Hc, Hg. assert (active_replays (st w) = 2) as E by (vm_compute; reflexivity).
  split; [exact E|]. split; [rewrite <-Hc; exact E|].
  apply (Hg 8 (MkReplay 2 4 0 true)); vm_compute; reflexivity.
Defined.

Lemma recovery_scan_witness :
  let w := world_run sample_options NewWorld sample_ops in
  taken w = [3; 8] ∧ recipients (st w) = [9] ∧ scan w = taken w ++ recipients (st w).
Proof.
  intros w. destruct (recovery_scan sample_options ltac:(unfold is_u64; simpl; lia) sample_ops
    ltac:(simpl; lia)) as (Hs & _); [vm_compute; reflexivity|]. fold w in Hs.
  split; [vm_compute; reflexivity|]. split; [vm_compute; reflexivity|]. exact Hs.
Defined.
