(* ===== verification/TimerQueue.v ===== *)
(** * Timers of an event loop

    Models [src/common/net/TimerQueue.h], [TimerQueue.cpp], [Timer.h], [Timer.cpp],
    [TimerId.h] and the part of [EventLoop.cpp] the timers use: the queue of
    functors that other threads post to the loop.

    The loop thread runs [AddTimerInLoop], [CancelInLoop] and [HandleRead];
    other threads only reserve a sequence, mark a pending cancellation and post
    a functor.  [HandleRead] calls user callbacks, during which other threads
    run and the callback itself adds and cancels timers, so it is split in its
    beginning, the turns of its loop and its end.  Times are nanoseconds of the
    steady clock and arguments of the steps.  A callback is the number that
    names it; a callback that throws, a failed allocation and a failing
    [timerfd_settime] are not modelled. *)
From Stdlib Require Import ZArith Lia.
From stdpp Require Import base gmap list sorting numbers.
From S2P Require Import Prelude.

Local Open Scope Z_scope.
Local Open Scope width_scope.

(** ** Data *)

Record TimerId := MkTimerId { owner_ : option Z; tid_sequence : Z }.

Definition TimerId_IsValid (i : TimerId) : bool :=
  bool_decide (is_Some (owner_ i)) && negb (tid_sequence i =? 0).

Definition InvalidTimerId : TimerId := MkTimerId None 0.

(** [interval_] is in milliseconds. *)
Record Timer := MkTimer {
  callback_ : Z;
  expiration_ : Z;
  interval_ : Z;
  sequence_ : Z;
}.

Definition IsRepeat (t : Timer) : bool := 0 <? interval_ t.

Definition Restart (t : Timer) (restart_time : Z) : Timer :=
  if negb (IsRepeat t) then t
  else MkTimer (callback_ t) (restart_time + interval_ t * 1000000) (interval_ t) (sequence_ t).

Record Entry := MkEntry { expiration : Z; sequence : Z }.

#[export] Instance Entry_eq_dec : EqDecision Entry.
Proof. solve_decision. Defined.

(** The value given to [timerfd_settime]; zero disarms. *)
Record itimerspec := MkItimerspec { tv_sec : Z; tv_nsec : Z }.

Record TimerQueue := MkTimerQueue {
  self : Z;
  valid_ : bool;
  timer_fd_ : Z * itimerspec;
  schedule_ : list Entry;
  timers_ : gmap Z Timer;
  next_sequence_ : Z;
  calling_expired_timers_ : bool;
  canceling_sequences_ : gset Z;
  pending_add_sequences_ : gset Z;
  pending_cancel_sequences_ : gset Z;
}.

(** A queue with an open timer descriptor; [timer_fd_] is the time and the value
    of the last [timerfd_settime]. *)
Definition NewTimerQueue (this : Z) : TimerQueue :=
  MkTimerQueue this true (0, MkItimerspec 0 0) [] ∅ 1 false ∅ ∅ ∅.

Definition IsValid (q : TimerQueue) : bool := valid_ q.

(** ** The ordered set of entries *)

Definition EntryLess (left right : Entry) : bool :=
  if expiration left <? expiration right then true
  else if expiration right <? expiration left then false
  else sequence left <? sequence right.

(** [std::set::insert]: the flag tells whether the entry is new. *)
Fixpoint set_insert (e : Entry) (s : list Entry) : list Entry * bool :=
  match s with
  | [] => ([e], true)
  | x :: s' =>
      if EntryLess e x then (e :: s, true)
      else if EntryLess x e then let '(r, b) := set_insert e s' in (x :: r, b)
      else (s, false)
  end.

Definition set_erase (e : Entry) (s : list Entry) : list Entry :=
  filter (λ x, EntryLess e x || EntryLess x e = true) s.

(** The entries before [upper_bound(e)], and those from it. *)
Fixpoint split_upper_bound (e : Entry) (s : list Entry) : list Entry * list Entry :=
  match s with
  | [] => ([], [])
  | x :: s' =>
      if EntryLess e x then ([], s)
      else let '(l, r) := split_upper_bound e s' in (x :: l, r)
  end.

(** ** Operations of the queue *)

Definition nanoseconds_per_second : Z := 1000000000.

(** The value [ResetTimerfd] computes for a delay; [duration_cast] truncates
    towards zero. *)
Definition TimerSpec (delay : Z) : itimerspec :=
  let delay := if delay <=? 0 then 1 else delay in
  let seconds_part := Z.quot delay nanoseconds_per_second in
  MkItimerspec seconds_part (delay - seconds_part * nanoseconds_per_second).

Definition set_fd (q : TimerQueue) (fd : Z * itimerspec) : TimerQueue :=
  MkTimerQueue (self q) (valid_ q) fd (schedule_ q) (timers_ q) (next_sequence_ q)
    (calling_expired_timers_ q) (canceling_sequences_ q) (pending_add_sequences_ q)
    (pending_cancel_sequences_ q).

Definition ResetTimerfd (q : TimerQueue) (expiration now : Z) : TimerQueue :=
  if negb (valid_ q) then q else set_fd q (now, TimerSpec (expiration - now)).

Definition DisarmTimerfd (q : TimerQueue) (now : Z) : TimerQueue :=
  if negb (valid_ q) then q else set_fd q (now, MkItimerspec 0 0).

Definition ResetTimerfdToNext (q : TimerQueue) (now : Z) : TimerQueue :=
  match schedule_ q with
  | [] => DisarmTimerfd q now
  | e :: _ => ResetTimerfd q (expiration e) now
  end.

(** The part of [AddTimer] before [RunInLoop]; [None] is the empty id. *)
Definition AddTimer (q : TimerQueue) (has_callback : bool) : TimerQueue * option Z :=
  if negb has_callback || negb (IsValid q) then (q, None)
  else
    let sequence := next_sequence_ q in
    (MkTimerQueue (self q) (valid_ q) (timer_fd_ q) (schedule_ q) (timers_ q)
       (next_sequence_ q +₆₄ 1) (calling_expired_timers_ q) (canceling_sequences_ q)
       ({[sequence]} ∪ pending_add_sequences_ q) (pending_cancel_sequences_ q), Some sequence).

(** The part of [Cancel] before [RunInLoop]. *)
Definition Cancel (q : TimerQueue) (timer_id : TimerId) : TimerQueue * bool :=
  if negb (TimerId_IsValid timer_id) || negb (bool_decide (owner_ timer_id = Some (self q))) ||
     negb (IsValid q)
  then (q, false)
  else
    let sequence := tid_sequence timer_id in
    (MkTimerQueue (self q) (valid_ q) (timer_fd_ q) (schedule_ q) (timers_ q) (next_sequence_ q)
       (calling_expired_timers_ q) (canceling_sequences_ q) (pending_add_sequences_ q)
       (if decide (sequence ∈ pending_add_sequences_ q)
        then {[sequence]} ∪ pending_cancel_sequences_ q else pending_cancel_sequences_ q), true).

Definition set_timers (q : TimerQueue) (schedule : list Entry) (timers : gmap Z Timer) : TimerQueue :=
  MkTimerQueue (self q) (valid_ q) (timer_fd_ q) schedule timers (next_sequence_ q)
    (calling_expired_timers_ q) (canceling_sequences_ q) (pending_add_sequences_ q)
    (pending_cancel_sequences_ q).

(** Adding a timer to [timers_] and [schedule_], undone if either refuses it. *)
Definition Emplace (q : TimerQueue) (t : Timer) : TimerQueue * bool :=
  match timers_ q !! sequence_ t with
  | Some _ => (q, false)
  | None =>
      let '(schedule, inserted) := set_insert (MkEntry (expiration_ t) (sequence_ t)) (schedule_ q) in
      if inserted : bool
      then (set_timers q schedule (<[sequence_ t := t]> (timers_ q)), true)
      else (q, false)
  end.

Definition AddTimerInLoop (q : TimerQueue) (callback expiration interval sequence now : Z)
  : TimerQueue :=
  let canceled_before_add := bool_decide (sequence ∈ pending_cancel_sequences_ q) in
  let q :=
    MkTimerQueue (self q) (valid_ q) (timer_fd_ q) (schedule_ q) (timers_ q) (next_sequence_ q)
      (calling_expired_timers_ q) (canceling_sequences_ q)
      (pending_add_sequences_ q ∖ {[sequence]}) (pending_cancel_sequences_ q ∖ {[sequence]}) in
  if canceled_before_add then q
  else
    let entry := MkEntry expiration sequence in
    let earliest_changed :=
      match schedule_ q with [] => true | first :: _ => EntryLess entry first end in
    let '(q, added) := Emplace q (MkTimer callback expiration interval sequence) in
    if (added : bool) && earliest_changed then ResetTimerfd q expiration now else q.

Definition CancelInLoop (q : TimerQueue) (seq now : Z) : TimerQueue :=
  match timers_ q !! seq with
  | Some t =>
      let earliest_removed :=
        match schedule_ q with [] => false | first :: _ => sequence first =? seq end in
      let q := set_timers q (set_erase (MkEntry (expiration_ t) seq) (schedule_ q))
                 (delete seq (timers_ q)) in
      if earliest_removed then ResetTimerfdToNext q now else q
  | None =>
      if calling_expired_timers_ q then
        MkTimerQueue (self q) (valid_ q) (timer_fd_ q) (schedule_ q) (timers_ q) (next_sequence_ q)
          (calling_expired_timers_ q) ({[seq]} ∪ canceling_sequences_ q)
          (pending_add_sequences_ q) (pending_cancel_sequences_ q)
      else q
  end.

(** The loop of [HandleRead] over the due entries: their timers are moved out of
    [timers_]. *)
Fixpoint CollectExpired (entries : list Entry) (timers : gmap Z Timer) : gmap Z Timer * list Timer :=
  match entries with
  | [] => (timers, [])
  | e :: entries =>
      match timers !! sequence e with
      | None => CollectExpired entries timers
      | Some t =>
          let '(timers', expired) := CollectExpired entries (delete (sequence e) timers) in
          (timers', t :: expired)
      end
  end.

(** [HandleRead] up to its call loop, once the descriptor was read. *)
Definition HandleReadBegin (q : TimerQueue) (now : Z) : TimerQueue * list Timer :=
  let '(due, rest) := split_upper_bound (MkEntry now (2 ^ 64 - 1)) (schedule_ q) in
  let '(timers, expired) := CollectExpired due (timers_ q) in
  (MkTimerQueue (self q) (valid_ q) (timer_fd_ q) rest timers (next_sequence_ q) true ∅
     (pending_add_sequences_ q) (pending_cancel_sequences_ q), expired).

(** The test of the call loop: is the callback of [t] run? *)
Definition ShouldRun (q : TimerQueue) (t : Timer) : bool :=
  bool_decide (sequence_ t ∉ canceling_sequences_ q).

(** The loop that restarts the repeating timers. *)
Fixpoint RestartLoop (q : TimerQueue) (expired : list Timer) (restart_time : Z) : TimerQueue :=
  match expired with
  | [] => q
  | t :: expired =>
      if negb (IsRepeat t) then RestartLoop q expired restart_time
      else if bool_decide (sequence_ t ∈ canceling_sequences_ q)
      then RestartLoop q expired restart_time
      else RestartLoop (Emplace q (Restart t restart_time)).1 expired restart_time
  end.

(** [HandleRead] from the end of its call loop; [now] is the clock when the
    descriptor is armed again. *)
Definition HandleReadEnd (q : TimerQueue) (expired : list Timer) (restart_time now : Z) : TimerQueue :=
  let q := MkTimerQueue (self q) (valid_ q) (timer_fd_ q) (schedule_ q) (timers_ q)
             (next_sequence_ q) false (canceling_sequences_ q) (pending_add_sequences_ q)
             (pending_cancel_sequences_ q) in
  let q := RestartLoop q expired restart_time in
  let q := MkTimerQueue (self q) (valid_ q) (timer_fd_ q) (schedule_ q) (timers_ q)
             (next_sequence_ q) (calling_expired_timers_ q) ∅ (pending_add_sequences_ q)
             (pending_cancel_sequences_ q) in
  ResetTimerfdToNext q now.

(** ** The loop, the other threads and the callbacks *)

Inductive Functor := FAdd (t : Timer) | FCancel (seq : Z).

(** [reserved] and [marked] are the calls of other threads between their first
    part and the post of their functor; [batch] is the [HandleRead] in progress:
    its time, all its expired timers and those still to be called; [ran] is a
    ghost, the callbacks run so far with the time of their [HandleRead]. *)
Record Sys := MkSys {
  tq : TimerQueue;
  reserved : list Timer;
  marked : list Z;
  functors : list Functor;
  batch : option (Z * list Timer * list Timer);
  ran : list (Timer * Z);
}.

Definition NewSys (this : Z) : Sys := MkSys (NewTimerQueue this) [] [] [] None [].

Inductive Event :=
| EReserve (callback expiration interval : Z)
| EPost (i : nat)
| EMark (id : TimerId)
| EPostCancel (i : nat)
| ERunFunctor (now : Z)
| ELoopAdd (callback expiration interval now : Z)
| ELoopCancel (id : TimerId) (now : Z)
| ERead (now : Z)
| ECall
| EReadEnd (restart_time now : Z).

(** An id is only made by [AddTimer], so its sequence was handed out. *)
Definition known (q : TimerQueue) (id : TimerId) : bool := tid_sequence id <? next_sequence_ q.

(** An event that is not possible leaves the state. *)
Definition sys_step (s : Sys) (ev : Event) : Sys :=
  let '(MkSys q rs ms fs b log) := s in
  match ev with
  | EReserve cb ex iv =>
      match AddTimer q true with
      | (q', Some seq) => MkSys q' (rs ++ [MkTimer cb ex iv seq]) ms fs b log
      | (q', None) => MkSys q' rs ms fs b log
      end
  | EPost i =>
      match rs !! i with
      | Some t => MkSys q (delete i rs) ms (fs ++ [FAdd t]) b log
      | None => s
      end
  | EMark id =>
      if known q id then
        let '(q', ok) := Cancel q id in
        MkSys q' rs (if ok : bool then ms ++ [tid_sequence id] else ms) fs b log
      else s
  | EPostCancel i =>
      match ms !! i with
      | Some seq => MkSys q rs (delete i ms) (fs ++ [FCancel seq]) b log
      | None => s
      end
  | ERunFunctor now =>
      match b, fs with
      | None, FAdd t :: fs =>
          MkSys (AddTimerInLoop q (callback_ t) (expiration_ t) (interval_ t) (sequence_ t) now)
            rs ms fs b log
      | None, FCancel seq :: fs => MkSys (CancelInLoop q seq now) rs ms fs b log
      | _, _ => s
      end
  | ELoopAdd cb ex iv now =>
      match AddTimer q true with
      | (q', Some seq) => MkSys (AddTimerInLoop q' cb ex iv seq now) rs ms fs b log
      | (q', None) => MkSys q' rs ms fs b log
      end
  | ELoopCancel id now =>
      if known q id then
        let '(q', ok) := Cancel q id in
        MkSys (if ok : bool then CancelInLoop q' (tid_sequence id) now else q') rs ms fs b log
      else s
  | ERead now =>
      match b with
      | None => let '(q', expired) := HandleReadBegin q now in
                MkSys q' rs ms fs (Some (now, expired, expired)) log
      | Some _ => s
      end
  | ECall =>
      match b with
      | Some (now, all, t :: rest) =>
          MkSys q rs ms fs (Some (now, all, rest))
            (if ShouldRun q t then log ++ [(t, now)] else log)
      | _ => s
      end
  | EReadEnd restart now =>
      match b with
      | Some (_, all, []) => MkSys (HandleReadEnd q all restart now) rs ms fs None log
      | _ => s
      end
  end.

Definition sys_run : Sys → list Event → Sys := foldl sys_step.

(** ** The schedule and the timers agree *)

Definition entry_lt (a b : Entry) : Prop :=
  expiration a < expiration b ∨ (expiration a = expiration b ∧ sequence a < sequence b).

Lemma EntryLess_spec a b : EntryLess a b = true ↔ entry_lt a b.
Proof. unfold EntryLess, entry_lt. repeat case_match; reflect_guards; rewrite ?Z.ltb_lt; intuition lia. Qed.

Lemma EntryLess_false a b : EntryLess a b = false ↔ ¬ entry_lt a b.
Proof. rewrite <-EntryLess_spec. by destruct (EntryLess a b). Qed.

Lemma entry_lt_total a b : ¬ entry_lt a b → ¬ entry_lt b a → a = b.
Proof. destruct a, b. unfold entry_lt; simpl. intros. f_equal; lia. Qed.

#[export] Instance entry_lt_trans : Transitive entry_lt.
Proof. intros [] [] []. unfold entry_lt; simpl. lia. Qed.

Lemma entry_lt_irrefl a : ¬ entry_lt a a.
Proof. unfold entry_lt. lia. Qed.

Definition entry_of (t : Timer) : Entry := MkEntry (expiration_ t) (sequence_ t).

Record queue_ok (q : TimerQueue) : Prop := {
  q_valid : valid_ q = true;
  q_sorted : StronglySorted entry_lt (schedule_ q);
  q_sequence k t : timers_ q !! k = Some t → sequence_ t = k;
  q_schedule e : e ∈ schedule_ q ↔ ∃ t, timers_ q !! sequence e = Some t ∧ entry_of t = e;
}.

Lemma set_insert_spec e s : StronglySorted entry_lt s → e ∉ s →
  ∃ s', set_insert e s = (s', true) ∧ StronglySorted entry_lt s' ∧ (∀ x, x ∈ s' ↔ x = e ∨ x ∈ s) ∧
    head s' = match s with
              | [] => Some e
              | x :: _ => if EntryLess e x then Some e else Some x
              end.
Proof.
  induction s as [|x s IH]; intros Hs Hn; simpl.
  { eexists. split; [done|]. split; [repeat constructor|]. split; [set_solver|done]. }
  apply StronglySorted_cons in Hs as [Hx Hs]. apply not_elem_of_cons in Hn as [Hne Hn].
  destruct (EntryLess e x) eqn:Hl.
  - apply EntryLess_spec in Hl. eexists. split; [done|]. split; [|split; [set_solver|done]].
    apply StronglySorted_cons. split; [|by apply StronglySorted_cons]. constructor; [done|].
    eapply list.Forall_impl; [exact Hx|]. intros y Hy. by etrans.
  - apply EntryLess_false in Hl. destruct (EntryLess x e) eqn:Hr.
    + apply EntryLess_spec in Hr. destruct (IH Hs Hn) as (s' & -> & Hs' & Hin & _).
      eexists. split; [done|]. split; [|split; [|done]].
      * apply StronglySorted_cons. split; [|done]. apply list.Forall_forall.
        intros y [->|Hy]%Hin; [done|]. rewrite list.Forall_forall in Hx. by apply Hx.
      * intros y. rewrite !elem_of_cons, Hin. tauto.
    + apply EntryLess_false in Hr. destruct Hne. by apply entry_lt_total.
Qed.

Lemma set_erase_spec e s x : x ∈ set_erase e s ↔ x ∈ s ∧ x ≠ e.
Proof.
  unfold set_erase. rewrite list_elem_of_filter, orb_true_iff, !EntryLess_spec. split.
  - intros [[H|H] Hx]; (split; [done|]); intros ->; by apply entry_lt_irrefl in H.
  - intros [Hx Hne]. split; [|done].
    destruct (EntryLess e x) eqn:H1; [left; by apply EntryLess_spec|].
    destruct (EntryLess x e) eqn:H2; [right; by apply EntryLess_spec|].
    apply EntryLess_false in H1, H2. destruct Hne. by apply entry_lt_total.
Qed.

Lemma filter_sorted {A} (R : A → A → Prop) (P : A → Prop) `{∀ x, Decision (P x)} s :
  StronglySorted R s → StronglySorted R (filter P s).
Proof.
  induction 1 as [|x s Hs IH Hx]; [constructor|]. rewrite filter_cons. case_decide; [|done].
  constructor; [done|]. apply list.Forall_forall. intros y [_ Hy]%list_elem_of_filter.
  rewrite list.Forall_forall in Hx. by apply Hx.
Qed.

(** Splitting at an upper bound. *)
Lemma split_upper_bound_spec e s l r : StronglySorted entry_lt s →
  split_upper_bound e s = (l, r) →
  s = l ++ r ∧ (∀ x, x ∈ l → ¬ entry_lt e x) ∧ (∀ x, x ∈ r → entry_lt e x).
Proof.
  revert l. induction s as [|x s IH]; intros l Hs; simpl.
  { intros [= <- <-]. set_solver. }
  apply StronglySorted_cons in Hs as [Hx Hs]. destruct (EntryLess e x) eqn:Hl.
  - apply EntryLess_spec in Hl. intros [= <- <-]. split_and!; [done|set_solver|].
    intros y [->|Hy]%elem_of_cons; [done|]. rewrite list.Forall_forall in Hx. etrans; [done|auto].
  - apply EntryLess_false in Hl. destruct (split_upper_bound e s) as [l' r'] eqn:Hsp.
    intros [= <- <-]. destruct (IH l' Hs eq_refl) as (-> & Hl' & Hr'). split_and!; [done| |done].
    intros y [->|Hy]%elem_of_cons; auto.
Qed.

Lemma Emplace_ok q t : queue_ok q → timers_ q !! sequence_ t = None →
  ∃ s, Emplace q t = (set_timers q s (<[sequence_ t := t]> (timers_ q)), true) ∧
    queue_ok (set_timers q s (<[sequence_ t := t]> (timers_ q))) ∧
    head s = match schedule_ q with
             | [] => Some (entry_of t)
             | x :: _ => if EntryLess (entry_of t) x then Some (entry_of t) else Some x
             end.
Proof.
  intros [Hv Hs Hq Hsch] Ht. unfold Emplace. rewrite Ht.
  assert (entry_of t ∉ schedule_ q) as Hn.
  { intros (t' & Ht' & _)%Hsch. simpl in Ht'. congruence. }
  destruct (set_insert_spec (entry_of t) (schedule_ q) Hs Hn) as (s & Heq & Hss & Hin & Hh).
  exists s. unfold entry_of in Heq at 1. rewrite Heq. split; [done|]. split; [|done].
  split; simpl; [done|done|..].
  - intros k t' [[<- <-]|[_ Hk]]%lookup_insert_Some; auto.
  - intros e. rewrite Hin, Hsch. split.
    + intros [->|(t' & Ht' & <-)]; [exists t; by rewrite lookup_insert_eq|].
      exists t'. split; [|done]. rewrite lookup_insert_ne; [done|]. intros Hk. simpl in *. congruence.
    + intros (t' & [[Hk <-]|[Hk Ht']]%lookup_insert_Some & <-); [by left|right; eauto].
Qed.

Lemma erase_timer_ok q t seq : queue_ok q → timers_ q !! seq = Some t →
  queue_ok (set_timers q (set_erase (MkEntry (expiration_ t) seq) (schedule_ q))
              (delete seq (timers_ q))).
Proof.
  intros [Hv Hs Hq Hsch] Ht. split; simpl; [done|by apply filter_sorted|..].
  - intros k t' [_ Hk]%lookup_delete_Some. by apply Hq.
  - intros e. rewrite set_erase_spec, Hsch. pose proof (Hq _ _ Ht) as Hqt. split.
    + intros [(t' & Ht' & <-) Hne]. exists t'. split; [|done]. rewrite lookup_delete_ne; [done|].
      intros Hk. simpl in *. assert (t' = t) as -> by congruence. apply Hne. unfold entry_of.
      congruence.
    + intros (t' & [Hk Ht']%lookup_delete_Some & <-). split; [by eauto|].
      intros [= _ Heq]. simpl in *. congruence.
Qed.

(** The timers moved out by [HandleRead] are those of the entries. *)
Lemma CollectExpired_spec es : ∀ ts ts' expired,
  CollectExpired es ts = (ts', expired) →
  StronglySorted entry_lt es → (∀ k t, ts !! k = Some t → sequence_ t = k) →
  (∀ e, e ∈ es → ∃ t, ts !! sequence e = Some t ∧ entry_of t = e) →
  entry_of <$> expired = es ∧ (∀ t, t ∈ expired → ts !! sequence_ t = Some t) ∧
  ∀ k, ts' !! k = if decide (k ∈ sequence <$> es) then None else ts !! k.
Proof.
  induction es as [|e es IH]; intros ts ts' expired; simpl.
  { intros [= <- <-] _ _ _. split; [done|]. split; [set_solver|done]. }
  intros Heq [Hx Hs]%StronglySorted_cons Hq Hin.
  destruct (Hin e) as (t & Ht & Het); [set_solver|]. rewrite Ht in Heq.
  destruct (CollectExpired es (delete (sequence e) ts)) as [ts1 ex1] eqn:Hc.
  injection Heq as <- <-.
  assert (∀ e', e' ∈ es → sequence e' ≠ sequence e) as Hne.
  { intros e' He' Hseq. destruct (Hin e') as (t' & Ht' & Het'); [set_solver|].
    rewrite Hseq in Ht'. simplify_eq. rewrite list.Forall_forall in Hx.
    by apply (entry_lt_irrefl (entry_of t)), Hx. }
  destruct (IH _ _ _ Hc Hs) as (He1 & Hin1 & Hk1).
  - intros k t' [_ Hk]%lookup_delete_Some. auto.
  - intros e' He'. destruct (Hin e') as (t' & Ht' & Het'); [set_solver|]. exists t'.
    rewrite lookup_delete_ne; [done|]. intros Hd. by apply (Hne e' He').
  - split; [rewrite fmap_cons; by rewrite Het, He1|]. split.
    { intros t' [->|Ht'%Hin1]%elem_of_cons; [by rewrite (Hq _ _ Ht)|].
      by apply lookup_delete_Some in Ht' as [_ ?]. }
    intros k. rewrite Hk1. simpl.
    destruct (decide (k = sequence e)) as [->|Hke].
    + rewrite (decide_True (P := _ ∈ _ :: _)) by left. case_decide; [done|].
      apply lookup_delete_eq.
    + rewrite lookup_delete_ne by done.
      destruct (decide (k ∈ sequence <$> es)) as [Hi|Hi].
      * by rewrite decide_True by by right.
      * rewrite decide_False; [done|]. by intros [?|?]%elem_of_cons.
Qed.

(** What [HandleReadBegin] takes: the timers due at [now], in order. *)
Lemma HandleReadBegin_spec q now q' expired :
  queue_ok q → (∀ k t, timers_ q !! k = Some t → k < 2 ^ 64) →
  HandleReadBegin q now = (q', expired) →
  queue_ok q' ∧ StronglySorted entry_lt (entry_of <$> expired) ∧
  (∀ t, t ∈ expired ↔ timers_ q !! sequence_ t = Some t ∧ expiration_ t ≤ now) ∧
  (∀ k t, timers_ q' !! k = Some t ↔ timers_ q !! k = Some t ∧ now < expiration_ t) ∧
  q' = MkTimerQueue (self q) (valid_ q) (timer_fd_ q) (schedule_ q') (timers_ q') (next_sequence_ q)
         true ∅ (pending_add_sequences_ q) (pending_cancel_sequences_ q).
Proof.
  intros [Hv Hs Hq Hsch] Hw. unfold HandleReadBegin.
  destruct (split_upper_bound (MkEntry now (2 ^ 64 - 1)) (schedule_ q)) as [due rest] eqn:Hsp.
  destruct (CollectExpired due (timers_ q)) as [ts ex] eqn:Hc. intros [= <- <-].
  destruct (split_upper_bound_spec _ _ _ _ Hs Hsp) as (Hsplit & Hdue & Hrest).
  rewrite Hsplit in Hs. pose proof (StronglySorted_app_1_l _ _ _ Hs) as Hsd.
  pose proof (StronglySorted_app_1_r _ _ _ Hs) as Hsr.
  destruct (CollectExpired_spec due _ _ _ Hc Hsd Hq) as (Hex & Hint & Hts).
  { intros e He. apply Hsch. rewrite Hsplit. apply elem_of_app. by left. }
  assert (∀ k t, timers_ q !! k = Some t → entry_of t ∈ due ++ rest) as Hall.
  { intros k t Hk. rewrite <-Hsplit. apply Hsch. exists t. simpl. by rewrite (Hq _ _ Hk). }
  assert (∀ k t, timers_ q !! k = Some t → entry_of t ∈ due ↔ expiration_ t ≤ now) as Hd.
  { intros k t Hk. pose proof (Hw _ _ Hk). pose proof (Hq _ _ Hk). split.
    - intros H1%Hdue. unfold entry_lt in H1. simpl in H1. lia.
    - intros Hle. destruct (elem_of_app due rest (entry_of t)) as [[H1|H1] _]; [by eapply Hall|done|].
      apply Hrest in H1. unfold entry_lt in H1. simpl in H1. lia. }
  assert (∀ k t, timers_ q !! k = Some t → k ∈ sequence <$> due ↔ entry_of t ∈ due) as Hkd.
  { intros k t Hk. rewrite list_elem_of_fmap. split.
    - intros (e & -> & He). assert (e ∈ schedule_ q) as (t' & Ht' & <-)%Hsch
        by (rewrite Hsplit; apply elem_of_app; by left).
      by simplify_eq.
    - intros He. exists (entry_of t). simpl. by rewrite (Hq _ _ Hk). }
  split; [|split; [|split; [|split]]]; cbn [timers_ schedule_]; try done.
  - split; cbn [valid_ timers_ schedule_]; try done.
    + intros k t. rewrite Hts. case_decide; [done|]. apply Hq.
    + intros e. split.
      * intros He. assert (e ∈ schedule_ q) as (t & Ht & <-)%Hsch
          by (rewrite Hsplit; apply elem_of_app; by right).
        exists t. split; [|done]. rewrite Hts, decide_False; [done|].
        rewrite (Hkd _ t) by done. intros H1%Hdue. by apply Hrest in He.
      * intros (t & Ht & <-). rewrite Hts in Ht. case_decide as Hin; [done|].
        rewrite (Hkd _ t) in Hin by done. by apply Hall, elem_of_app in Ht as [?|?].
  - by rewrite Hex.
  - intros t. split.
    + intros Hin. pose proof (Hint t Hin) as Ht. split; [done|]. apply (Hd _ t Ht).
      rewrite <-Hex. by apply list_elem_of_fmap_2.
    + intros [Ht Hle]. apply (Hd _ t Ht) in Hle. rewrite <-Hex in Hle.
      apply list_elem_of_fmap in Hle as (t' & Heq & Hin). pose proof (Hint t' Hin) as Ht'.
      injection Heq as _ Hse. rewrite <-Hse in Ht'. by simplify_eq.
  - intros k t. rewrite Hts. case_decide as Hin; split; try done.
    + intros [Hk Hlt]. rewrite (Hkd _ t), (Hd k t) in Hin by done. lia.
    + intros Hk. split; [done|]. rewrite (Hkd _ t), (Hd k t) in Hin by done. lia.
    + by intros [? _].
Qed.

(** The descriptor is armed for the first entry, or disarmed. *)
Definition fd_ok (q : TimerQueue) : Prop :=
  match head (schedule_ q) with
  | None => (timer_fd_ q).2 = MkItimerspec 0 0
  | Some e => ∃ now, timer_fd_ q = (now, TimerSpec (expiration e - now))
  end.

(** What the loop thread's operations never touch. *)
Definition same_shared (q q' : TimerQueue) : Prop :=
  self q' = self q ∧ next_sequence_ q' = next_sequence_ q ∧
  calling_expired_timers_ q' = calling_expired_timers_ q.

Lemma ResetTimerfdToNext_ok q now : queue_ok q →
  queue_ok (ResetTimerfdToNext q now) ∧ fd_ok (ResetTimerfdToNext q now) ∧
  ResetTimerfdToNext q now = set_fd q (timer_fd_ (ResetTimerfdToNext q now)).
Proof.
  intros Hq. unfold ResetTimerfdToNext, ResetTimerfd, DisarmTimerfd. pose proof (q_valid _ Hq) as ->.
  simpl. destruct (schedule_ q) as [|e s] eqn:Hs; (split; [by destruct Hq; split|]; split; [|done]);
    unfold fd_ok; simpl; rewrite Hs; simpl; eauto.
Qed.

Lemma CancelInLoop_spec q seq now : queue_ok q →
  queue_ok (CancelInLoop q seq now) ∧ same_shared q (CancelInLoop q seq now) ∧
  timers_ (CancelInLoop q seq now) = delete seq (timers_ q) ∧
  pending_add_sequences_ (CancelInLoop q seq now) = pending_add_sequences_ q ∧
  pending_cancel_sequences_ (CancelInLoop q seq now) = pending_cancel_sequences_ q ∧
  canceling_sequences_ (CancelInLoop q seq now) =
    (if bool_decide (timers_ q !! seq = None) && calling_expired_timers_ q
     then {[seq]} ∪ canceling_sequences_ q else canceling_sequences_ q) ∧
  (fd_ok q → fd_ok (CancelInLoop q seq now)).
Proof.
  intros Hq. unfold CancelInLoop. destruct (timers_ q !! seq) as [t|] eqn:Ht.
  - pose proof (erase_timer_ok q t seq Hq Ht) as Hq'.
    set (q' := set_timers q _ _) in *. rewrite (bool_decide_false (Some t = None)) by done. simpl.
    destruct (schedule_ q) as [|e s] eqn:Hs.
    { exfalso. assert (entry_of t ∈ schedule_ q) as Hin; [|rewrite Hs in Hin; set_solver].
      apply (q_schedule _ Hq). exists t. by rewrite <-(q_sequence _ Hq _ _ Ht) in Ht. }
    case_match eqn:He; reflect_guards.
    + destruct (ResetTimerfdToNext_ok q' now Hq') as (? & ? & Heq). rewrite Heq in *.
      split_and!; try done.
    + split_and!; try done. unfold fd_ok. simpl. rewrite Hs. simpl.
      unfold q', set_timers; cbn [schedule_]. unfold set_erase. rewrite filter_cons_True; [done|].
      apply orb_true_iff. rewrite !EntryLess_spec. unfold entry_lt; simpl. lia.
  - rewrite bool_decide_true by done. case_match; simpl; split_and!; try done;
      try (by rewrite delete_id); by destruct Hq; split.
Qed.

Lemma AddTimerInLoop_spec q cb ex iv seq now (t := MkTimer cb ex iv seq) :
  queue_ok q → timers_ q !! seq = None →
  queue_ok (AddTimerInLoop q cb ex iv seq now) ∧ same_shared q (AddTimerInLoop q cb ex iv seq now) ∧
  timers_ (AddTimerInLoop q cb ex iv seq now) =
    (if decide (seq ∈ pending_cancel_sequences_ q) then timers_ q else <[seq := t]> (timers_ q)) ∧
  pending_add_sequences_ (AddTimerInLoop q cb ex iv seq now) =
    pending_add_sequences_ q ∖ {[seq]} ∧
  pending_cancel_sequences_ (AddTimerInLoop q cb ex iv seq now) =
    pending_cancel_sequences_ q ∖ {[seq]} ∧
  canceling_sequences_ (AddTimerInLoop q cb ex iv seq now) = canceling_sequences_ q ∧
  (fd_ok q → fd_ok (AddTimerInLoop q cb ex iv seq now)).
Proof.
  intros Hq Ht. unfold AddTimerInLoop. set (q0 := MkTimerQueue _ _ _ _ _ _ _ _ _ _).
  assert (queue_ok q0) as Hq0 by by destruct Hq; split.
  case_bool_decide as Hc; [rewrite decide_True by done; by split_and!|rewrite decide_False by done].
  destruct (Emplace_ok q0 t Hq0 Ht) as (s & Heq & Hq' & Hh).
  change (MkTimer cb ex iv seq) with t. rewrite Heq.
  set (q' := set_timers q0 _ _) in *. cbn [andb]. pose proof (q_valid _ Hq') as Hv.
  change (MkEntry ex seq) with (entry_of t).
  assert (fd_ok q → schedule_ q ≠ [] → (match schedule_ q with [] => true
    | first :: _ => EntryLess (entry_of t) first end) = false → fd_ok q') as Hkeep.
  { unfold fd_ok, q', set_timers; simpl. rewrite Hh. unfold q0; simpl.
    destruct (schedule_ q); [done|]. intros ? _ ->. done. }
  destruct (match schedule_ q0 with [] => true | first :: _ => EntryLess (entry_of t) first end) eqn:He.
  - unfold ResetTimerfd. rewrite Hv. simpl. split_and!; try done; [by destruct Hq'; split|].
    intros _. unfold fd_ok; simpl. rewrite Hh. unfold q0 in *; simpl in *.
    destruct (schedule_ q) as [|x l]; [by eexists|]. rewrite He. by eexists.
  - split_and!; try done. intros Hfd. apply Hkeep; [done| |done]. unfold q0 in He; simpl in He.
    by destruct (schedule_ q).
Qed.

Lemma Restart_sequence t r : sequence_ (Restart t r) = sequence_ t.
Proof. unfold Restart. by case_match. Qed.

Lemma RestartLoop_spec r ts : ∀ q,
  queue_ok q → NoDup (sequence_ <$> ts) → (∀ t, t ∈ ts → timers_ q !! sequence_ t = None) →
  let q' := RestartLoop q ts r in
  queue_ok q' ∧ same_shared q q' ∧
  pending_add_sequences_ q' = pending_add_sequences_ q ∧
  pending_cancel_sequences_ q' = pending_cancel_sequences_ q ∧
  canceling_sequences_ q' = canceling_sequences_ q ∧
  (∀ k t', timers_ q' !! k = Some t' ↔ timers_ q !! k = Some t' ∨
     ∃ t, t ∈ ts ∧ sequence_ t = k ∧ IsRepeat t = true ∧ k ∉ canceling_sequences_ q ∧ t' = Restart t r).
Proof.
  induction ts as [|t ts IH]; intros q Hq Hnd Hno; cbn [RestartLoop].
  { split_and!; try done. intros k t'. set_solver. }
  rewrite fmap_cons in Hnd. apply list.NoDup_cons in Hnd as [Hni Hnd].
  destruct (IsRepeat t) eqn:Hr; cbn [negb]; [case_bool_decide as Hc|].
  - destruct (IH q Hq Hnd) as (?&?&?&?&?&Hk); [intros; apply Hno; by right|].
    split_and!; try done. intros k t'. rewrite Hk. split; (intros [?|(x & Hx & ?)]; [by left|]).
    + right. exists x. split; [by right|done].
    + right. apply elem_of_cons in Hx as [->|Hx]; [destruct_and!; by subst|by exists x].
  - assert (timers_ q !! sequence_ (Restart t r) = None) as Ht
      by (rewrite Restart_sequence; apply Hno; by left).
    destruct (Emplace_ok q (Restart t r) Hq Ht) as (s & Heq & Hq1 & _). rewrite Heq. cbn [fst].
    set (q1 := set_timers q _ _) in *. rewrite Restart_sequence in *.
    destruct (IH q1 Hq1 Hnd) as (?&?&?&?&?&Hk).
    { intros x Hx. unfold q1; cbn [set_timers timers_]. rewrite Restart_sequence.
      rewrite lookup_insert_ne; [apply Hno; by right|].
      intros He. apply Hni. rewrite He. by apply list_elem_of_fmap_2. }
    split_and!; try done. intros k t'. rewrite Hk. unfold q1; cbn [set_timers timers_ canceling_sequences_].
    rewrite Restart_sequence, lookup_insert_Some. split.
    + intros [[[<- <-]|[? ?]]|(x & Hx & ?)]; [|by left|].
      * right. exists t. split; [by left|done].
      * right. exists x. split; [by right|done].
    + intros [Hk'|(x & Hx & Hs & Hrx & Hcx & ->)].
      * left. right. split; [|done]. intros <-. congruence.
      * apply elem_of_cons in Hx as [->|Hx]; [left; by left|]. right. by exists x.
  - destruct (IH q Hq Hnd) as (?&?&?&?&?&Hk); [intros; apply Hno; by right|].
    split_and!; try done. intros k t'. rewrite Hk. split; (intros [?|(x & Hx & ?)]; [by left|]).
    + right. exists x. split; [by right|done].
    + right. apply elem_of_cons in Hx as [->|Hx]; [destruct_and!; congruence|by exists x].
Qed.

Lemma HandleReadEnd_spec q ts r now :
  queue_ok q → NoDup (sequence_ <$> ts) → (∀ t, t ∈ ts → timers_ q !! sequence_ t = None) →
  let q' := HandleReadEnd q ts r now in
  queue_ok q' ∧ fd_ok q' ∧ self q' = self q ∧ next_sequence_ q' = next_sequence_ q ∧
  calling_expired_timers_ q' = false ∧
  pending_add_sequences_ q' = pending_add_sequences_ q ∧
  pending_cancel_sequences_ q' = pending_cancel_sequences_ q ∧
  (∀ k t', timers_ q' !! k = Some t' ↔ timers_ q !! k = Some t' ∨
     ∃ t, t ∈ ts ∧ sequence_ t = k ∧ IsRepeat t = true ∧ k ∉ canceling_sequences_ q ∧ t' = Restart t r).
Proof.
  intros Hq Hnd Hno. unfold HandleReadEnd. set (q0 := MkTimerQueue _ _ _ _ _ _ false _ _ _).
  destruct (RestartLoop_spec r ts q0) as (Hq1 & (Hs1 & Hn1 & Hc1) & Hpa & Hpc & _ & Hk);
    [by destruct Hq; split|done|done|].
  set (q1 := RestartLoop q0 ts r) in *. set (q2 := MkTimerQueue _ _ _ _ _ _ _ ∅ _ _).
  destruct (ResetTimerfdToNext_ok q2 now) as (? & ? & Heq); [by destruct Hq1; split|].
  cbv zeta. rewrite Heq in *. by split_and!.
Qed.

(** ** The invariant of the interleavings *)

Definition adds (fs : list Functor) : list Timer :=
  omap (λ f, match f with FAdd t => Some t | FCancel _ => None end) fs.
Definition cancels (fs : list Functor) : list Z :=
  omap (λ f, match f with FCancel k => Some k | FAdd _ => None end) fs.

(** The sequences handed out whose timer is not in the loop yet. *)
Definition pend (s : Sys) : list Z := sequence_ <$> (reserved s ++ adds (functors s)).

Definition oneshots (log : list (Timer * Z)) : list Z :=
  sequence_ <$> filter (λ t, IsRepeat t = false) (fst <$> log).

Record batch_ok (q : TimerQueue) (now : Z) (all rest : list Timer) : Prop := {
  b_suffix : rest `suffix_of` all;
  b_nodup : NoDup (sequence_ <$> all);
  b_timer t : t ∈ all → 1 ≤ sequence_ t < next_sequence_ q ∧ expiration_ t ≤ now ∧
    sequence_ t ∉ pending_add_sequences_ q ∧ timers_ q !! sequence_ t = None;
}.

Record sys_ok (n : Z) (s : Sys) : Prop := {
  s_queue : queue_ok (tq s);
  s_next : 1 ≤ next_sequence_ (tq s) ≤ n + 1;
  s_nodup : NoDup (pend s);
  s_pend k : k ∈ pending_add_sequences_ (tq s) ↔ k ∈ pend s;
  s_pend_cancel k : k ∈ pending_cancel_sequences_ (tq s) → k ∈ pending_add_sequences_ (tq s);
  s_pend_bound k : k ∈ pending_add_sequences_ (tq s) → 1 ≤ k < next_sequence_ (tq s);
  s_timers k t : timers_ (tq s) !! k = Some t →
    1 ≤ k < next_sequence_ (tq s) ∧ k ∉ pending_add_sequences_ (tq s);
  s_calling : calling_expired_timers_ (tq s) = bool_decide (is_Some (batch s));
  s_batch now all rest : batch s = Some (now, all, rest) → batch_ok (tq s) now all rest;
  s_cancels k : k ∈ marked s ++ cancels (functors s) →
    k < next_sequence_ (tq s) ∧
    (k ∈ pending_add_sequences_ (tq s) → k ∈ pending_cancel_sequences_ (tq s));
  s_fd : batch s = None → fd_ok (tq s);
  s_early t now : (t, now) ∈ ran s → expiration_ t ≤ now;
  s_once : NoDup (oneshots (ran s));
  s_spent k : k ∈ oneshots (ran s) → k < next_sequence_ (tq s) ∧
    k ∉ pending_add_sequences_ (tq s) ∧ timers_ (tq s) !! k = None ∧
    ∀ now all rest, batch s = Some (now, all, rest) →
      k ∉ sequence_ <$> rest ∧ ∀ t, t ∈ all → sequence_ t = k → IsRepeat t = false;
}.

Lemma sys_ok_new this : sys_ok 0 (NewSys this).
Proof.
  split; simpl; try done; try lia; try (by constructor); try set_solver.
  - split; simpl; [done|constructor|done|]. intros e. split; [set_solver|].
    intros (t & Ht & _). by rewrite lookup_empty in Ht.
Qed.

Lemma sys_ok_mono n m s : sys_ok n s → n ≤ m → sys_ok m s.
Proof. intros [] ?. split; try done. lia. Qed.

(** A sequence whose timer is known not to run any more. *)
Definition dead (s : Sys) (k : Z) : Prop :=
  k < next_sequence_ (tq s) ∧ timers_ (tq s) !! k = None ∧
  (k ∈ pending_add_sequences_ (tq s) → k ∈ pending_cancel_sequences_ (tq s)) ∧
  ∀ now all rest, batch s = Some (now, all, rest) → k ∈ sequence_ <$> all →
    k ∈ canceling_sequences_ (tq s).

Lemma reserve_ok n q rs ms fs b log cb ex iv q' k :
  sys_ok n (MkSys q rs ms fs b log) → n + 2 < 2 ^ 64 → AddTimer q true = (q', Some k) →
  sys_ok (n + 1) (MkSys q' (rs ++ [MkTimer cb ex iv k]) ms fs b log) ∧ k = next_sequence_ q.
Proof.
  intros [Hq Hn Hnd Hp Hpc Hpb Ht Hc Hb Hcs Hfd He Ho Hs] Hlim. simpl in *.
  unfold AddTimer, IsValid. rewrite (q_valid _ Hq). simpl. intros [= <- <-]. split; [|done].
  assert (next_sequence_ q +₆₄ 1 = next_sequence_ q + 1) as Hnx by (apply u64_small; unfold is_u64; lia).
  set (k := next_sequence_ q) in *.
  assert (k ∉ pending_add_sequences_ q) as Hk by (intros Hk%Hpb; lia).
  assert (pend (MkSys q (rs ++ [MkTimer cb ex iv k]) ms fs b log) ≡ₚ k :: pend (MkSys q rs ms fs b log))
    as Hperm.
  { unfold pend; simpl. rewrite !fmap_app. simpl. solve_Permutation. }
  split; simpl; rewrite ?Hnx; try done.
  - by destruct Hq; split.
  - lia.
  - change (NoDup (pend (MkSys q (rs ++ [MkTimer cb ex iv k]) ms fs b log))). rewrite Hperm.
    apply list.NoDup_cons. split; [|done]. by rewrite <-Hp.
  - intros j. change (j ∈ {[k]} ∪ pending_add_sequences_ q ↔
      j ∈ pend (MkSys q (rs ++ [MkTimer cb ex iv k]) ms fs b log)).
    rewrite Hperm, elem_of_union, elem_of_singleton, Hp, elem_of_cons. done.
  - intros j Hj%Hpc. apply elem_of_union. by right.
  - intros j [->%elem_of_singleton|Hj%Hpb]%elem_of_union; lia.
  - intros j t Hj. destruct (Ht j t Hj) as [? ?]. split; [lia|].
    intros [->%elem_of_singleton|?]%elem_of_union; [lia|done].
  - intros now all rest Hball. destruct (Hb _ _ _ Hball) as [Hsu Hbn Hbt]. split; try done.
    intros t Htin. simpl. destruct (Hbt t Htin) as (?&?&?&?). split_and!; try done; try lia.
    intros [Hkk%elem_of_singleton|?]%elem_of_union; [lia|done].
  - intros j Hj. destruct (Hcs j Hj) as [? Hjc]. split; [lia|].
    intros [->%elem_of_singleton|?]%elem_of_union; [lia|auto].
  - intros j Hj. destruct (Hs j Hj) as (?&?&?&?). split_and!; try done; [lia|].
    intros [->%elem_of_singleton|?]%elem_of_union; [lia|done].
Qed.

(** A pending timer reaches the loop. *)
Lemma add_in_loop_ok n q rs ms fs rs' fs' b log t now :
  sys_ok n (MkSys q rs ms fs b log) →
  pend (MkSys q rs ms fs b log) ≡ₚ sequence_ t :: pend (MkSys q rs' ms fs' b log) →
  (∀ k, k ∈ cancels fs' → k ∈ cancels fs) →
  sys_ok n (MkSys (AddTimerInLoop q (callback_ t) (expiration_ t) (interval_ t) (sequence_ t) now)
              rs' ms fs' b log).
Proof.
  intros [Hq Hn Hnd Hp Hpc Hpb Ht Hc Hb Hcs Hfd He Ho Hs] Hperm Hsub. simpl in *.
  set (k := sequence_ t) in *.
  assert (k ∈ pending_add_sequences_ q) as Hk by (apply Hp; rewrite Hperm; left).
  rewrite Hperm in Hnd. apply list.NoDup_cons in Hnd as [Hni Hnd].
  destruct (timers_ q !! k) as [t0|] eqn:Htk; [by destruct (Ht _ _ Htk)|].
  destruct (AddTimerInLoop_spec q (callback_ t) (expiration_ t) (interval_ t) k now Hq Htk)
    as (Hq' & (_ & Hnx & Hca) & Hts & Hpa & Hpca & Hcan & Hfd').
  set (q' := AddTimerInLoop _ _ _ _ _ _) in *.
  assert (∀ j, j ∈ pending_add_sequences_ q' ↔ j ∈ pending_add_sequences_ q ∧ j ≠ k) as Hj.
  { intros j. rewrite Hpa, elem_of_difference, elem_of_singleton. done. }
  assert (∀ j, j ≠ k → timers_ q' !! j = timers_ q !! j) as Htj.
  { intros j Hne. rewrite Hts. case_decide; [done|]. by rewrite lookup_insert_ne. }
  split; simpl; rewrite ?Hnx, ?Hca; try done.
  - intros j. rewrite Hj, Hp. change (pend (MkSys q' rs' ms fs' b log)) with (pend (MkSys q rs' ms fs' b log)).
    rewrite Hperm, elem_of_cons. split; [intros [[?|?] ?]; done|]. intros Hin. split; [by right|].
    intros ->. done.
  - intros j. rewrite Hpca, Hj, elem_of_difference, elem_of_singleton. intros [??]. auto.
  - intros j [? _]%Hj. auto.
  - intros j tj. rewrite Hj. destruct (decide (j = k)) as [->|Hne].
    + intros _. split; [auto|]. tauto.
    + rewrite Htj by done. intros Hl. destruct (Ht _ _ Hl). split; [done|]. tauto.
  - intros nw all rest Hball. destruct (Hb _ _ _ Hball) as [Hsu Hbn Hbt]. split; try done.
    intros x Hx. destruct (Hbt x Hx) as (?&?&Hxp&Hxt). rewrite Hnx. split_and!; try done; try lia.
    + rewrite Hj. tauto.
    + rewrite Htj; [done|]. intros Heq. by rewrite Heq in Hxp.
  - intros j Hin. destruct (Hcs j) as [? Hjc].
    { apply elem_of_app in Hin as [?|?]; apply elem_of_app; auto. }
    split; [done|]. rewrite Hj, Hpca, elem_of_difference, elem_of_singleton. intros [??]. auto.
  - auto.
  - intros j Hin. destruct (Hs j Hin) as (?&Hjp&Hjt&?). split_and!; try done.
    + rewrite Hj. tauto.
    + rewrite Htj; [done|]. intros ->. done.
Qed.

Lemma cancel_in_loop_ok n q rs ms fs fs' b log k now :
  sys_ok n (MkSys q rs ms fs b log) → adds fs' = adds fs → (∀ j, j ∈ cancels fs' → j ∈ cancels fs) →
  sys_ok n (MkSys (CancelInLoop q k now) rs ms fs' b log).
Proof.
  intros [Hq Hn Hnd Hp Hpc Hpb Ht Hc Hb Hcs Hfd He Ho Hs] Hadd Hsub. simpl in *.
  destruct (CancelInLoop_spec q k now Hq) as (Hq' & (_ & Hnx & Hca) & Hts & Hpa & Hpca & Hcan & Hfd').
  set (q' := CancelInLoop q k now) in *.
  assert (∀ j, timers_ q !! j = None → timers_ q' !! j = None) as Hnone.
  { intros j Hj. rewrite Hts. apply lookup_delete_None. auto. }
  unfold pend in *; simpl in *.
  split; simpl; unfold pend; simpl; rewrite ?Hnx, ?Hca, ?Hpa, ?Hpca, ?Hadd; try done.
  - intros j t. rewrite Hts. intros [_ Hj]%lookup_delete_Some. by apply (Ht j t).
  - intros nw all rest Hball. destruct (Hb _ _ _ Hball) as [Hsu Hbn Hbt]. split; try done.
    intros x Hx. destruct (Hbt x Hx) as (?&?&?&?). rewrite Hnx, Hpa. split_and!; auto; lia.
  - intros j Hin. apply Hcs. apply elem_of_app in Hin as [?|?]; apply elem_of_app; auto.
  - auto.
  - intros j Hin. destruct (Hs j Hin) as (?&?&?&?). split_and!; auto.
Qed.

(** Changes outside the queue that keep what is pending. *)
Lemma perm_ok n q rs ms fs rs' ms' fs' b log :
  sys_ok n (MkSys q rs ms fs b log) →
  pend (MkSys q rs' ms' fs' b log) ≡ₚ pend (MkSys q rs ms fs b log) →
  (∀ k, k ∈ ms' ++ cancels fs' → k ∈ ms ++ cancels fs) →
  sys_ok n (MkSys q rs' ms' fs' b log).
Proof.
  intros [Hq Hn Hnd Hp Hpc Hpb Ht Hc Hb Hcs Hfd He Ho Hs] Hperm Hsub. simpl in *.
  split; simpl; try done.
  - by rewrite Hperm.
  - intros j. by rewrite Hperm.
  - intros j Hj. by apply Hcs, Hsub.
Qed.

Lemma mark_ok n q rs ms fs b log id q' ok :
  sys_ok n (MkSys q rs ms fs b log) → known q id = true → Cancel q id = (q', ok) →
  sys_ok n (MkSys q' rs (if ok then ms ++ [tid_sequence id] else ms) fs b log) ∧
  (ok = true → tid_sequence id ∈ pending_add_sequences_ q' →
   tid_sequence id ∈ pending_cancel_sequences_ q').
Proof.
  intros Hok Hkn. unfold known in Hkn. reflect_guards. unfold Cancel.
  case_match; intros [= <- <-]; [by split|]. set (k := tid_sequence id) in *.
  destruct Hok as [Hq Hn Hnd Hp Hpc Hpb Ht Hc Hb Hcs Hfd He Ho Hs]. simpl in *.
  set (pc := if decide (k ∈ pending_add_sequences_ q)
             then {[k]} ∪ pending_cancel_sequences_ q else pending_cancel_sequences_ q).
  assert (∀ j, j ∈ pc ↔ j ∈ pending_cancel_sequences_ q ∨ (j = k ∧ k ∈ pending_add_sequences_ q)) as Hj.
  { intros j. unfold pc. destruct (decide (k ∈ pending_add_sequences_ q)) as [Hin|Hin];
      [rewrite elem_of_union, elem_of_singleton|]; tauto. }
  split.
  - split; simpl; try done.
    + by destruct Hq; split.
    + intros j [?|[-> ?]]%Hj; auto.
    + intros nw all rest Hball. by destruct (Hb _ _ _ Hball); split.
    + intros j Hin. rewrite Hj. rewrite <-app_assoc in Hin.
      apply elem_of_app in Hin as [Hin|[Hin|Hin]%elem_of_app].
      * destruct (Hcs j) as [? ?]; [apply elem_of_app; auto|]. split; [done|auto].
      * apply list_elem_of_singleton in Hin as ->. split; [done|auto].
      * destruct (Hcs j) as [? ?]; [apply elem_of_app; auto|]. split; [done|auto].
  - intros _ Hk. simpl in *. apply Hj. auto.
Qed.

Lemma sorted_nodup l : StronglySorted entry_lt l → NoDup l.
Proof.
  induction 1 as [|x l Hs IH Hx]; constructor; [|done]. intros Hin.
  rewrite list.Forall_forall in Hx. by apply (entry_lt_irrefl x), Hx.
Qed.

Lemma fmap_nodup_inj {A B} (f : A → B) l x y :
  NoDup (f <$> l) → x ∈ l → y ∈ l → f x = f y → x = y.
Proof.
  intros Hnd [i Hi]%list_elem_of_lookup [j Hj]%list_elem_of_lookup Heq.
  assert (i = j) as ->; [|congruence].
  apply (NoDup_lookup _ i j (f x) Hnd); rewrite list_lookup_fmap; [by rewrite Hi|].
  rewrite Hj. simpl. by rewrite Heq.
Qed.

Lemma oneshots_app log t now : oneshots (log ++ [(t, now)]) =
  oneshots log ++ (if IsRepeat t then [] else [sequence_ t]).
Proof.
  unfold oneshots. rewrite fmap_app, list.filter_app, fmap_app. f_equal. simpl.
  destruct (IsRepeat t) eqn:Hr; [rewrite filter_cons_False by congruence|rewrite filter_cons_True by done];
    done.
Qed.

Lemma read_ok n q rs ms fs log now q' expired :
  sys_ok n (MkSys q rs ms fs None log) → n < 2 ^ 64 → HandleReadBegin q now = (q', expired) →
  sys_ok n (MkSys q' rs ms fs (Some (now, expired, expired)) log).
Proof.
  intros [Hq Hn Hnd Hp Hpc Hpb Ht Hc Hb Hcs Hfd He Ho Hs] Hlim Heq. simpl in *.
  destruct (HandleReadBegin_spec q now q' expired) as (Hq' & Hsorted & Hin & Hts & Hq'eq);
    [done| |done|].
  { intros k t Hk. destruct (Ht k t Hk). lia. }
  assert (next_sequence_ q' = next_sequence_ q ∧ pending_add_sequences_ q' = pending_add_sequences_ q
    ∧ pending_cancel_sequences_ q' = pending_cancel_sequences_ q
    ∧ calling_expired_timers_ q' = true) as (Hnx & Hpa & Hpca & Hca) by by rewrite Hq'eq.
  assert (∀ k, timers_ q !! k = None → timers_ q' !! k = None) as Hnone.
  { intros k Hk. apply eq_None_not_Some. intros [t [? _]%Hts]. congruence. }
  split; simpl; rewrite ?Hnx, ?Hpa, ?Hpca, ?Hca; try done.
  - intros k t [Hk _]%Hts. by apply (Ht k t).
  - intros nw all rest [= <- <- <-]. split; [done| |].
    + apply (NoDup_fmap_2_strong _).
      * intros x y [Hx _]%Hin [Hy _]%Hin Hxy. rewrite Hxy in Hx. congruence.
      * by eapply NoDup_fmap_1, sorted_nodup.
    + intros t [Hk Hle]%Hin. rewrite Hnx, Hpa. destruct (Ht _ _ Hk). split_and!; try done; try lia.
      apply eq_None_not_Some. intros [t' [Hk' Hlt]%Hts]. rewrite Hk in Hk'. simplify_eq. lia.
  - intros k Hk. destruct (Hs k Hk) as (?&?&Hkt&_). split_and!; auto.
    intros nw all rest [= <- <- <-]. split.
    + intros (t & -> & [? _]%Hin)%list_elem_of_fmap. congruence.
    + intros t [? _]%Hin <-. congruence.
Qed.

Lemma call_ok n q rs ms fs log now all t rest :
  sys_ok n (MkSys q rs ms fs (Some (now, all, t :: rest)) log) →
  sys_ok n (MkSys q rs ms fs (Some (now, all, rest)) (if ShouldRun q t then log ++ [(t, now)] else log)).
Proof.
  intros [Hq Hn Hnd Hp Hpc Hpb Ht Hc Hb Hcs Hfd He Ho Hs]. simpl in *.
  destruct (Hb _ _ _ eq_refl) as [[done Hall] Hbn Hbt].
  assert (t ∈ all) as Hta by (rewrite Hall; apply elem_of_app; right; left).
  assert (sequence_ t ∉ sequence_ <$> rest) as Htr.
  { rewrite Hall, fmap_app, fmap_cons in Hbn. apply list.NoDup_app in Hbn as (_ & _ & Hbn).
    by apply list.NoDup_cons in Hbn as [? _]. }
  destruct (Hbt t Hta) as (Htn & Hte & Htp & Htt).
  assert (∀ x, x ∈ all → sequence_ x = sequence_ t → x = t) as Huniq.
  { intros x Hx Heq. by eapply fmap_nodup_inj. }
  assert (∀ k, k ∈ oneshots (if ShouldRun q t then log ++ [(t, now)] else log) →
    k ∈ oneshots log ∨ k = sequence_ t ∧ IsRepeat t = false) as Hnew.
  { intros k. case_match; [|by left]. rewrite oneshots_app. destruct (IsRepeat t).
    - rewrite app_nil_r. by left.
    - intros [?| ->%list_elem_of_singleton]%elem_of_app; auto. }
  split; simpl; try done.
  - intros nw al rs' [= <- <- <-]. split; try done. exists (done ++ [t]). by rewrite <-app_assoc.
  - intros x nw. case_match; [|apply He].
    intros [?|[= -> ->]%list_elem_of_singleton]%elem_of_app; auto.
  - case_match; [|done]. rewrite oneshots_app. destruct (IsRepeat t) eqn:Hr; [by rewrite app_nil_r|].
    apply list.NoDup_app. split; [done|]. split; [|apply NoDup_singleton].
    intros k Hk ->%list_elem_of_singleton. destruct (Hs _ Hk) as (_ & _ & _ & Hbk).
    destruct (Hbk _ _ _ eq_refl) as [Hnin _]. apply Hnin. rewrite fmap_cons. left.
  - intros k [Hk|[-> Hr]]%Hnew.
    + destruct (Hs _ Hk) as (? & ? & ? & Hbk). split_and!; try done.
      intros nw al rs' [= <- <- <-]. destruct (Hbk _ _ _ eq_refl) as [Hnin ?]. split; [|done].
      intros Hkr. apply Hnin. rewrite fmap_cons. by right.
    + split_and!; try done; [lia|]. intros nw al rs' [= <- <- <-]. split; [done|].
      intros x Hx Heq. by rewrite (Huniq x Hx Heq).
Qed.

Lemma read_end_ok n q rs ms fs log now0 all r now :
  sys_ok n (MkSys q rs ms fs (Some (now0, all, [])) log) →
  sys_ok n (MkSys (HandleReadEnd q all r now) rs ms fs None log).
Proof.
  intros [Hq Hn Hnd Hp Hpc Hpb Ht Hc Hb Hcs Hfd He Ho Hs]. simpl in *.
  destruct (Hb _ _ _ eq_refl) as [_ Hbn Hbt].
  destruct (HandleReadEnd_spec q all r now Hq Hbn) as (Hq' & Hfd' & _ & Hnx & Hca & Hpa & Hpca & Hts).
  { intros t Hin. by apply Hbt. }
  set (q' := HandleReadEnd q all r now) in *.
  split; simpl; rewrite ?Hnx, ?Hpa, ?Hpca, ?Hca; try done.
  - intros k t [Hk|(x & Hx & <- & _)]%Hts; [by apply (Ht k t)|]. by destruct (Hbt x Hx) as (?&?&?&?).
  - intros k Hk. destruct (Hs k Hk) as (?&?&Hkt&Hbk). destruct (Hbk _ _ _ eq_refl) as [_ Hone].
    split_and!; try done. apply eq_None_not_Some.
    intros [t' [?|(x & Hx & Heq & Hr & _)]%Hts]; [congruence|].
    rewrite (Hone x Hx Heq) in Hr. done.
Qed.

Lemma adds_app fs f : adds (fs ++ [f]) = adds fs ++ adds [f].
Proof. apply omap_app. Qed.
Lemma cancels_app fs f : cancels (fs ++ [f]) = cancels fs ++ cancels [f].
Proof. apply omap_app. Qed.

Lemma sys_step_ok n s ev : sys_ok n s → n + 2 < 2 ^ 64 → sys_ok (n + 1) (sys_step s ev).
Proof.
  destruct s as [q rs ms fs b log]. intros Hok Hn.
  pose proof (sys_ok_mono n (n + 1) _ Hok ltac:(lia)) as Hok'.
  pose proof (q_valid _ (s_queue _ _ Hok)) as Hv. simpl in Hv.
  destruct ev as [cb ex iv|i|id|i|now|cb ex iv now|id now|now| |r now]; simpl.
  - destruct (AddTimer q true) as [q' [k|]] eqn:Ha.
    + by eapply reserve_ok.
    + revert Ha. unfold AddTimer, IsValid. by rewrite Hv.
  - destruct (rs !! i) as [t|] eqn:Hi; [|done]. eapply perm_ok; [done|..].
    + unfold pend; simpl. rewrite adds_app. apply fmap_Permutation.
      pose proof (delete_Permutation rs i t Hi) as Hd. set (rest := delete i rs) in *. clearbody rest.
      rewrite Hd. simpl. solve_Permutation.
    + intros k. rewrite cancels_app. simpl. by rewrite app_nil_r.
  - case_match eqn:Hk; [|done]. destruct (Cancel q id) as [q' ok] eqn:Hc.
    by eapply mark_ok.
  - destruct (ms !! i) as [k|] eqn:Hi; [|done]. eapply perm_ok; [done|..].
    + unfold pend; simpl. by rewrite adds_app, app_nil_r.
    + intros j. rewrite cancels_app. pose proof (delete_Permutation ms i k Hi) as Hd.
      set (rest := delete i ms) in *. clearbody rest. rewrite Hd. simpl.
      rewrite elem_of_cons, !elem_of_app, list_elem_of_singleton. tauto.
  - destruct b as [?|]; [done|]. destruct fs as [|[t|k] fs]; [done|..].
    + eapply add_in_loop_ok; [done|..]; [|done]. unfold pend; simpl. rewrite !fmap_app. simpl.
      solve_Permutation.
    + eapply cancel_in_loop_ok; [done|done|]. intros j. by right.
  - destruct (AddTimer q true) as [q' [k|]] eqn:Ha.
    + destruct (reserve_ok n q rs ms fs b log cb ex iv q' k Hok ltac:(lia) Ha) as [Hr _].
      eapply (add_in_loop_ok _ _ _ _ _ _ _ _ _ (MkTimer cb ex iv k)); [done| |done].
      unfold pend; simpl. rewrite !fmap_app. simpl. solve_Permutation.
    + revert Ha. unfold AddTimer, IsValid. by rewrite Hv.
  - case_match eqn:Hk; [|done]. destruct (Cancel q id) as [q' ok] eqn:Hc.
    destruct (mark_ok _ _ _ _ _ _ _ _ _ _ Hok' Hk Hc) as [Hm _]. destruct ok.
    + eapply cancel_in_loop_ok; [|done|done]. eapply perm_ok; [done|done|]. set_solver.
    + done.
  - destruct b as [?|]; [done|]. destruct (HandleReadBegin q now) as [q' ex] eqn:Hr.
    eapply read_ok; [done|lia|done].
  - destruct b as [[[now all] [|t rest]]|]; [done| |done]. by apply call_ok.
  - destruct b as [[[now0 all] [|t rest]]|]; [|done|done]. by eapply read_end_ok.
Qed.

Lemma sys_run_ok evs : ∀ n s, sys_ok n s → n + Z.of_nat (length evs) + 1 < 2 ^ 64 →
  sys_ok (n + Z.of_nat (length evs)) (sys_run s evs).
Proof.
  induction evs as [|ev evs IH]; intros n s Hok Hn; cbn [length sys_run foldl] in *.
  - by rewrite Z.add_0_r.
  - replace (n + Z.of_nat (S (length evs))) with (n + 1 + Z.of_nat (length evs)) by lia.
    apply IH; [|lia]. apply sys_step_ok; [done|lia].
Qed.

Lemma sys_reachable this evs : Z.of_nat (length evs) + 1 < 2 ^ 64 →
  sys_ok (Z.of_nat (length evs)) (sys_run (NewSys this) evs).
Proof. intros. apply (sys_run_ok evs 0); [apply sys_ok_new|lia]. Qed.

(** ** Cancellation *)

Definition runs (s : Sys) (k : Z) : list (Timer * Z) := filter (λ p, sequence_ p.1 = k) (ran s).

Lemma AddTimer_dead q q' k : AddTimer q true = (q', Some k) → valid_ q = true →
  next_sequence_ q + 1 < 2 ^ 64 → 0 ≤ next_sequence_ q →
  k = next_sequence_ q ∧ next_sequence_ q' = next_sequence_ q + 1 ∧ timers_ q' = timers_ q ∧
  canceling_sequences_ q' = canceling_sequences_ q ∧
  pending_add_sequences_ q' = {[k]} ∪ pending_add_sequences_ q ∧
  pending_cancel_sequences_ q' = pending_cancel_sequences_ q.
Proof.
  unfold AddTimer, IsValid. intros Heq Hv ??. rewrite Hv in Heq. simpl in Heq. injection Heq as <- <-.
  split_and!; try done. simpl. apply u64_small. unfold is_u64. lia.
Qed.

Lemma Cancel_spec q id q' ok : Cancel q id = (q', ok) →
  (queue_ok q → queue_ok q') ∧ next_sequence_ q' = next_sequence_ q ∧ timers_ q' = timers_ q ∧
  canceling_sequences_ q' = canceling_sequences_ q ∧
  calling_expired_timers_ q' = calling_expired_timers_ q ∧
  pending_add_sequences_ q' = pending_add_sequences_ q ∧
  (∀ j, j ∈ pending_cancel_sequences_ q → j ∈ pending_cancel_sequences_ q') ∧
  (ok = true → tid_sequence id ∈ pending_add_sequences_ q →
   tid_sequence id ∈ pending_cancel_sequences_ q').
Proof.
  unfold Cancel. case_match; intros [= <- <-]; [done|]. split; [by intros []; split|].
  split_and!; try done; simpl; intros;
    destruct (decide (tid_sequence id ∈ pending_add_sequences_ q)); try done; apply elem_of_union; auto.
  left. by apply elem_of_singleton.
Qed.

(** A dead sequence stays dead and is not run, whatever happens. *)
Definition stays_dead (s s' : Sys) (k : Z) : Prop := dead s' k ∧ runs s' k = runs s k.

Definition keeps_dead (ev : Event) : Prop := ∀ n k s,
  sys_ok n s → n + 2 < 2 ^ 64 → dead s k → stays_dead s (sys_step s ev) k.

Ltac dead_start :=
  intros n k [q rs ms fs b log] Hok Hn (Hk & Hkt & Hkp & Hkb); unfold stays_dead; simpl in *;
  pose proof Hok as [Hq Hnx _ Hp Hpc Hpb Ht Hc Hb Hcs _ _ _ _]; simpl in *;
  pose proof (q_valid _ Hq) as Hv.

Lemma dead_reserve cb ex iv : keeps_dead (EReserve cb ex iv).
Proof.
  dead_start.
  destruct (AddTimer q true) as [q' [j|]] eqn:Ha; [|by revert Ha; unfold AddTimer, IsValid; rewrite Hv].
  destruct (AddTimer_dead q q' j Ha) as (Hj & Hnx' & Hts & Hcan & Hpa & Hpca); [done|lia|lia|].
  split; [|done]. unfold dead; simpl. rewrite Hnx', Hts, Hcan, Hpa, Hpca. split_and!; try done; [lia|].
  intros [->%elem_of_singleton|?]%elem_of_union; [lia|auto].
Qed.

Lemma dead_post i : keeps_dead (EPost i).
Proof.
  dead_start.
  by destruct (rs !! i).
Qed.

Lemma dead_mark id : keeps_dead (EMark id).
Proof.
  dead_start.
  destruct (known q id); [|done]. destruct (Cancel q id) as [q' ok] eqn:Hca. split; [|done].
  destruct (Cancel_spec q id q' ok Hca) as (_ & Hnx' & Hts & Hcan & _ & Hpa & Hpca & _).
  unfold dead; simpl. rewrite Hnx', Hts, Hcan, Hpa. split_and!; auto.
Qed.

Lemma dead_post_cancel i : keeps_dead (EPostCancel i).
Proof.
  dead_start.
  by destruct (ms !! i).
Qed.

Lemma dead_functor now : keeps_dead (ERunFunctor now).
Proof.
  dead_start.
  destruct b as [?|]; [done|]. destruct fs as [|[t|j] fs']; [done|..]; (split; [|done]).
  + destruct (timers_ q !! sequence_ t) as [t0|] eqn:Htk.
    { destruct (Ht _ _ Htk) as [_ Hno]. destruct Hno. apply Hp. unfold pend; simpl.
      rewrite fmap_app. apply elem_of_app. right. left. }
    destruct (AddTimerInLoop_spec q (callback_ t) (expiration_ t) (interval_ t) (sequence_ t) now Hq Htk)
      as (_ & (_ & Hnx' & _) & Hts & Hpa & Hpca & Hcan & _).
    unfold dead; simpl. rewrite Hnx', Hts, Hpa, Hpca. split_and!; try done.
    * case_decide as Hd; [done|]. rewrite lookup_insert_ne; [done|]. intros Heq. apply Hd.
      rewrite Heq. apply Hkp, Hp. unfold pend; simpl. rewrite fmap_app. apply elem_of_app. right.
      rewrite <-Heq. left.
    * rewrite !elem_of_difference, elem_of_singleton. intros [??]. auto.
  + destruct (CancelInLoop_spec q j now Hq) as (_ & (_ & Hnx' & _) & Hts & Hpa & Hpca & _ & _).
    unfold dead; simpl. rewrite Hnx', Hts, Hpa, Hpca. split_and!; try done.
    apply lookup_delete_None. by right.
Qed.

Lemma dead_loop_add cb ex iv now : keeps_dead (ELoopAdd cb ex iv now).
Proof.
  dead_start.
  destruct (AddTimer q true) as [q' [j|]] eqn:Ha; [|by revert Ha; unfold AddTimer, IsValid; rewrite Hv].
  destruct (AddTimer_dead q q' j Ha) as (Hj & Hnx' & Hts & Hcan & Hpa & Hpca); [done|lia|lia|].
  split; [|done].
  destruct (AddTimerInLoop_spec q' cb ex iv j now) as (_ & (_ & Hnx2 & _) & Hts2 & Hpa2 & Hpca2 & Hcan2 & _).
  { revert Ha. unfold AddTimer, IsValid. rewrite Hv. simpl. intros [= <- _]. by destruct Hq; split. }
  { rewrite Hts. destruct (timers_ q !! j) eqn:Hl; [|done]. destruct (Ht _ _ Hl). lia. }
  unfold dead; simpl. rewrite Hnx2, Hnx', Hpa2, Hpa, Hpca2, Hpca, Hcan2, Hcan. split_and!; try done; [lia|..].
  + rewrite Hts2, Hts. case_decide; [done|]. rewrite lookup_insert_ne; [done|lia].
  + intros Hin. apply elem_of_difference in Hin as [Hin Hne].
    apply elem_of_union in Hin as [Hin|Hin]; [done|]. apply elem_of_difference. auto.
Qed.

Lemma dead_loop_cancel id now : keeps_dead (ELoopCancel id now).
Proof.
  dead_start.
  destruct (known q id) eqn:Hkn; [|done]. destruct (Cancel q id) as [q' ok] eqn:Hca. split; [|done].
  destruct (Cancel_spec q id q' ok Hca) as (Hq' & Hnx' & Hts & Hcan & _ & Hpa & Hpca & _).
  destruct ok; [|unfold dead; simpl; rewrite Hnx', Hts, Hcan, Hpa; split_and!; auto].
  destruct (CancelInLoop_spec q' (tid_sequence id) now (Hq' Hq))
    as (_ & (_ & Hnx2 & _) & Hts2 & Hpa2 & Hpca2 & Hcan2 & _).
  unfold dead; simpl. rewrite Hnx2, Hnx', Hts2, Hts, Hpa2, Hpa, Hpca2, Hcan2, Hcan.
  split_and!; auto.
  + apply lookup_delete_None. by right.
  + intros nw all rest Hball Hin. specialize (Hkb _ _ _ Hball Hin).
    case_match; [apply elem_of_union; by right|done].
Qed.

Lemma dead_read now : keeps_dead (ERead now).
Proof.
  dead_start.
  destruct b as [?|]; [done|]. destruct (HandleReadBegin q now) as [q' expired] eqn:Hr. split; [|done].
  destruct (HandleReadBegin_spec q now q' expired) as (_ & _ & Hin & Hts & Heq); [done| |done|].
  { intros j t Hj. destruct (Ht j t Hj). lia. }
  unfold dead. simpl. rewrite Heq. simpl. split_and!; try done.
  + apply eq_None_not_Some. intros [t [? _]%Hts]. congruence.
  + intros nw all rest [= <- <- <-] (t & -> & [? _]%Hin)%list_elem_of_fmap. congruence.
Qed.

Lemma dead_call : keeps_dead (ECall).
Proof.
  dead_start.
  destruct b as [[[now all] [|t rest]]|]; [done| |done]. unfold runs; simpl.
  destruct (Hb _ _ _ eq_refl) as [[dn Hall] _ _]. specialize (Hkb _ _ _ eq_refl). split.
  + split_and!; try done. intros nw al rs' [= <- <- <-]. exact Hkb.
  + unfold ShouldRun. clear Hc. case_bool_decide as Hin; [|done]. rewrite list.filter_app, filter_cons_False.
    * by rewrite app_nil_r.
    * simpl. intros <-. apply Hin, Hkb. rewrite Hall, fmap_app, fmap_cons.
      apply elem_of_app. right. left.
Qed.

Lemma dead_read_end r now : keeps_dead (EReadEnd r now).
Proof.
  dead_start.
  destruct b as [[[now0 all] [|t rest]]|]; [|done|done]. split; [|done].
  destruct (Hb _ _ _ eq_refl) as [_ Hbn Hbt].
  destruct (HandleReadEnd_spec q all r now Hq Hbn) as (_ & _ & _ & Hnx' & _ & Hpa & Hpca & Hts).
  { intros t Hin. by apply Hbt. }
  unfold dead; simpl. rewrite Hnx', Hpa, Hpca. split_and!; try done.
  apply eq_None_not_Some. intros [t' [?|(x & Hx & Heq & _ & Hnc & _)]%Hts]; [congruence|].
  apply Hnc, (Hkb _ _ _ eq_refl). rewrite <-Heq. by apply list_elem_of_fmap_2.
Qed.

Lemma dead_step ev : keeps_dead ev.
Proof.
  destruct ev; auto using dead_reserve, dead_post, dead_mark, dead_post_cancel, dead_functor,
    dead_loop_add, dead_loop_cancel, dead_read, dead_call, dead_read_end.
Qed.

Lemma dead_run evs : ∀ n k s, sys_ok n s → n + Z.of_nat (length evs) + 1 < 2 ^ 64 → dead s k →
  runs (sys_run s evs) k = runs s k.
Proof.
  induction evs as [|ev evs IH]; intros n k s Hok Hn Hd; cbn [length sys_run foldl] in *; [done|].
  destruct (dead_step ev n k s Hok ltac:(lia) Hd) as [Hd' Hr].
  rewrite <-Hr. apply (IH (n + 1)); [apply sys_step_ok; [done|lia]|lia|done].
Qed.

(** The event [ev] is the one by which a cancellation of [k] takes effect: a
    call of [Cancel] on the loop thread that returned true, or the run of the
    functor posted by such a call of another thread. *)
Definition takes_effect (s : Sys) (ev : Event) (k : Z) : Prop :=
  match ev with
  | ELoopCancel id _ => known (tq s) id = true ∧ tid_sequence id = k ∧ (Cancel (tq s) id).2 = true
  | ERunFunctor _ => batch s = None ∧ head (functors s) = Some (FCancel k)
  | _ => False
  end.

Lemma cancel_kills n s ev k : sys_ok n s → takes_effect s ev k → dead (sys_step s ev) k.
Proof.
  destruct s as [q rs ms fs b log]. intros Hok.
  pose proof Hok as [Hq Hnx _ Hp Hpc Hpb Ht Hc Hb Hcs _ _ _ _]; simpl in *.
  destruct ev as [| | | |now| |id now| | |]; try done; simpl.
  - intros [-> Hf]. destruct fs as [|[t|j] fs]; simplify_eq/=.
    destruct (CancelInLoop_spec q k now Hq) as (_ & (_ & Hnx' & _) & Hts & Hpa & Hpca & _ & _).
    destruct (Hcs k) as [? ?]; [apply elem_of_app; right; left|].
    unfold dead; simpl. rewrite Hnx', Hts, Hpa, Hpca. split_and!; auto; [|done].
    apply lookup_delete_None. by left.
  - intros (Hkn & Hid & Hcan). rewrite Hkn. destruct (Cancel q id) as [q' ok] eqn:Heq.
    simpl in Hcan. subst ok. unfold known in Hkn. reflect_guards.
    destruct (Cancel_spec q id q' true Heq) as (Hq' & Hnx1 & Hts1 & Hcan1 & Hca1 & Hpa1 & _ & Hmark).
    destruct (CancelInLoop_spec q' (tid_sequence id) now (Hq' Hq))
      as (_ & (_ & Hnx2 & _) & Hts2 & Hpa2 & Hpca2 & Hcan2 & _). rewrite Hid in *.
    unfold dead; simpl. rewrite Hnx2, Hnx1, Hts2, Hpa2, Hpca2, Hpa1, Hcan2. split_and!; auto.
    + apply lookup_delete_None. by left.
    + intros nw all rest Hball (t & -> & Hin)%list_elem_of_fmap.
      destruct (Hb _ _ _ Hball) as [_ _ Hbt]. destruct (Hbt t Hin) as (_ & _ & _ & Hno).
      rewrite Hts1, Hno, Hca1, Hc, Hball, bool_decide_true, bool_decide_true by eauto.
      apply elem_of_union. left. by apply elem_of_singleton.
Qed.

(** ** Properties *)

(** C39: a cancellation is final.  Once it takes effect (a [Cancel] on the loop
    thread that returns true, also from within a timer callback, or the functor
    of one from another thread) the callback of that timer is never run again,
    whatever the loop, the other threads and the callbacks do afterwards, also
    when the timer was still pending, was already collected by the current
    [HandleRead] or repeats. *)
Theorem cancel_is_final this before ev k after :
  Z.of_nat (length before + length after) + 3 < 2 ^ 64 →
  takes_effect (sys_run (NewSys this) before) ev k →
  let s := sys_step (sys_run (NewSys this) before) ev in
  runs (sys_run s after) k = runs s k.
Proof.
  intros Hn He s. pose proof (sys_reachable this before ltac:(lia)) as Hok.
  eapply (dead_run after (Z.of_nat (length before) + 1)); [|lia|by eapply cancel_kills].
  apply sys_step_ok; [done|lia].
Qed.

(** Two timers are due; the callback of the first cancels the second, which
    repeats. *)
Lemma cancel_is_final_witness :
  let before := [ELoopAdd 100 5 0 0; ELoopAdd 200 6 7 0; ERead 10; ECall] in
  let ev := ELoopCancel (MkTimerId (Some 1) 2) 10 in
  let s := sys_step (sys_run (NewSys 1) before) ev in
  (λ p, sequence_ p.1) <$> ran s = [1] ∧
  runs (sys_run s [ECall; EReadEnd 11 11; ERead 99999999]) 2 = [].
Proof.
  intros before ev s. split; [reflexivity|].
  assert (takes_effect (sys_run (NewSys 1) before) ev 2) as He by (vm_compute; auto).
  etransitivity; [apply (cancel_is_final 1 before ev 2 [ECall; EReadEnd 11 11; ERead 99999999])|];
    [simpl; lia|exact He|reflexivity].
Defined.

(** For every interleaving of the loop, the other threads and the callbacks,
    the schedule is sorted by expiration and sequence and holds exactly one entry
    per timer, a callback runs only when its timer is due, and a timer that does
    not repeat runs at most once. *)
Theorem timers_consistent this evs :
  Z.of_nat (length evs) + 1 < 2 ^ 64 →
  let s := sys_run (NewSys this) evs in
  StronglySorted entry_lt (schedule_ (tq s)) ∧
  (∀ e, e ∈ schedule_ (tq s) ↔
     ∃ t, timers_ (tq s) !! sequence e = Some t ∧ expiration_ t = expiration e) ∧
  (∀ t now, (t, now) ∈ ran s → expiration_ t ≤ now) ∧
  NoDup (sequence_ <$> filter (λ t, IsRepeat t = false) (fst <$> ran s)).
Proof.
  intros Hn s. destruct (sys_reachable this evs Hn) as [[Hv Hs Hq Hsch] _ _ _ _ _ _ _ _ _ _ He Ho _].
  fold s in Hsch, Hq. split_and!; try done. intros e. rewrite Hsch.
  split; intros (t & Ht & Heq); exists t.
  - split; [done|]. by rewrite <-Heq.
  - split; [done|]. destruct e. unfold entry_of. simpl in *. rewrite (Hq _ _ Ht). by subst.
Qed.

Lemma timers_consistent_witness :
  let evs := [ELoopAdd 100 5 0 0; EReserve 300 5 0; EPost 0; ERunFunctor 1; ERead 10; ECall; ECall] in
  (λ p, sequence_ p.1) <$> ran (sys_run (NewSys 1) evs) = [1; 2] ∧
  NoDup (sequence_ <$> filter (λ t, IsRepeat t = false) (fst <$> ran (sys_run (NewSys 1) evs))).
Proof.
  intros evs. split; [reflexivity|].
  apply (timers_consistent 1 evs). simpl. lia.
Defined.

Lemma TimerSpec_spec delay (d := Z.max delay 1) :
  0 ≤ tv_sec (TimerSpec delay) ∧ 0 ≤ tv_nsec (TimerSpec delay) < nanoseconds_per_second ∧
  tv_sec (TimerSpec delay) * nanoseconds_per_second + tv_nsec (TimerSpec delay) = d.
Proof.
  unfold TimerSpec, d, nanoseconds_per_second. cbn [tv_sec tv_nsec].
  replace (if delay <=? 0 then 1 else delay) with (Z.max delay 1) by (case_match; reflect_guards; lia).
  set (m := Z.max delay 1). assert (1 ≤ m) by lia.
  rewrite Z.quot_div_nonneg by lia. pose proof (Z.div_mod m 1000000000 ltac:(lia)).
  pose proof (Z.mod_pos_bound m 1000000000 ltac:(lia)). pose proof (Z.div_pos m 1000000000). lia.
Qed.

(** between events the timer descriptor is never forgotten.  Whenever no
    [HandleRead] is in progress and a timer is scheduled, the descriptor is
    armed with a valid, non-zero value that makes it fire at the expiration of
    the earliest timer, or one nanosecond after it was set when that had passed;
    with nothing scheduled it is disarmed. *)
Theorem timerfd_armed_for_earliest this evs :
  Z.of_nat (length evs) + 1 < 2 ^ 64 →
  let s := sys_run (NewSys this) evs in
  batch s = None →
  match schedule_ (tq s) with
  | [] => (timer_fd_ (tq s)).2 = MkItimerspec 0 0
  | e :: _ =>
      let '(set_at, spec) := timer_fd_ (tq s) in
      0 ≤ tv_sec spec ∧ 0 ≤ tv_nsec spec < nanoseconds_per_second ∧
      set_at + tv_sec spec * nanoseconds_per_second + tv_nsec spec =
        Z.max (expiration e) (set_at + 1) ∧
      ∀ k t, timers_ (tq s) !! k = Some t → expiration e ≤ expiration_ t
  end.
Proof.
  intros Hn s Hb. pose proof (sys_reachable this evs Hn) as Hok. fold s in Hok.
  pose proof (s_fd _ _ Hok Hb) as Hfd. pose proof (s_queue _ _ Hok) as [_ Hs Hq Hsch]. unfold fd_ok in Hfd.
  destruct (schedule_ (tq s)) as [|e l] eqn:Hl; simpl in Hfd; [done|]. destruct Hfd as [now ->].
  pose proof (TimerSpec_spec (expiration e - now)) as (?&?&?). split_and!; try done; try lia.
  intros k t Hk. assert (entry_of t ∈ e :: l) as Hin.
  { apply Hsch. exists t. simpl. by rewrite (Hq _ _ Hk). }
  apply elem_of_cons in Hin as [<-|Hin]; [simpl; lia|].
  apply StronglySorted_cons in Hs as [Hx _]. rewrite list.Forall_forall in Hx.
  specialize (Hx _ Hin). unfold entry_lt in Hx. simpl in Hx. lia.
Qed.

Lemma timerfd_armed_for_earliest_witness :
  let s := sys_run (NewSys 1) [ELoopAdd 100 5000000000 0 0; ELoopAdd 200 2500000000 0 1000] in
  batch s = None ∧ timer_fd_ (tq s) = (1000, MkItimerspec 2 499999000) ∧
  1000 + 2 * nanoseconds_per_second + 499999000 = Z.max 2500000000 1001.
Proof.
  intros s. split; [reflexivity|]. split; [reflexivity|].
  exact (proj1 (proj2 (proj2 (timerfd_armed_for_earliest 1
    [ELoopAdd 100 5000000000 0 0; ELoopAdd 200 2500000000 0 1000] ltac:(simpl; lia) eq_refl)))).
Defined.

(** [HandleRead] collects exactly the timers due at its time, in the order
    of expiration and sequence, and leaves exactly the later ones. *)
Theorem read_collects_exactly_due this evs now :
  Z.of_nat (length evs) + 1 < 2 ^ 64 →
  let s := sys_run (NewSys this) evs in
  let '(q', expired) := HandleReadBegin (tq s) now in
  StronglySorted entry_lt (entry_of <$> expired) ∧
  (∀ t, t ∈ expired ↔ timers_ (tq s) !! sequence_ t = Some t ∧ expiration_ t ≤ now) ∧
  (∀ k t, timers_ q' !! k = Some t ↔ timers_ (tq s) !! k = Some t ∧ now < expiration_ t).
Proof.
  intros Hn s. pose proof (sys_reachable this evs Hn) as Hok. fold s in Hok.
  destruct (HandleReadBegin (tq s) now) as [q' expired] eqn:Hr.
  destruct (HandleReadBegin_spec (tq s) now q' expired) as (_ & ? & ? & ? & _); [apply Hok| |done|done].
  intros k t Hk. destruct (s_timers _ _ Hok k t Hk). pose proof (s_next _ _ Hok). lia.
Qed.

Lemma read_collects_exactly_due_witness :
  let s := sys_run (NewSys 1) [ELoopAdd 1 50 0 0; ELoopAdd 2 20 0 0; ELoopAdd 3 20 0 0] in
  sequence_ <$> (HandleReadBegin (tq s) 30).2 = [2; 3] ∧
  (∀ t, t ∈ (HandleReadBegin (tq s) 30).2 ↔
        timers_ (tq s) !! sequence_ t = Some t ∧ expiration_ t ≤ 30).
Proof.
  intros s. split; [reflexivity|].
  pose proof (read_collects_exactly_due 1 [ELoopAdd 1 50 0 0; ELoopAdd 2 20 0 0; ELoopAdd 3 20 0 0] 30
    ltac:(simpl; lia)) as H.
  cbv zeta in H. fold s in H. revert H. destruct (HandleReadBegin (tq s) 30) as [q' ex].
  intros (_ & H & _). exact H.
Defined.
