(* ===== verification/EventLoop.v ===== *)
(** * Event loops

    Models [EventLoop::Loop], [QueueInLoop], [Quit], [Wakeup], [HandleWakeupRead]
    and [DoPendingFunctors] of [src/common/net/EventLoop.cpp] as the interleaving of
    the thread that owns the loop with any number of other threads.  Other threads
    call [QueueInLoop] and [Quit], each in two steps: the change of the shared state
    and, later, the write to the eventfd.  What the handlers of channels and the
    functors do to the loop is given: [body] for the functors, the actions in
    [HUser] for the handlers; [RunInLoop] on the owner's thread is part of these.
    [queued] and [ran] record the functors in the order of the calls and of their
    execution. *)
From Stdlib Require Import ZArith Lia.
From stdpp Require Import base list numbers.
From S2P Require Import Prelude.
Local Open Scope Z_scope.

(** ** State *)

Definition kInitialEventListSize : nat := 16.

(** What a handler or a functor does to its own loop. *)
Inductive LoopAction := Queue (f : Z) | QuitLoop.

Inductive Handler := HWakeup | HUser (l : list LoopAction).

(** Where the owner is in [Loop]: outside of it, before the test of [quit_], in
    [epoll_wait], at the handlers and at the functors, with [event_count]. *)
Inductive Pc :=
| PIdle
| PTest
| PWait
| PEvents (hs : list Handler) (event_count : nat)
| PFunctors (fs : list Z) (event_count : nat).

Record EventLoop := MkEventLoop {
  looping_ : bool;
  quit_ : bool;
  calling_pending_functors_ : bool;
  events_size : nat;
  pending_functors_ : list Z;
  wakeup_count : Z;       (* the counter of the eventfd *)
  wakers : nat;           (* threads that are about to write to it *)
  own_queued : bool;      (* queued by the owner outside of [Loop], and not taken yet *)
  pc : Pc;
  queued : list Z;
  ran : list Z;
}.

Definition NewEventLoop : EventLoop :=
  MkEventLoop false false false kInitialEventListSize [] 0 0 false PIdle [] [].

Definition set_pc (s : EventLoop) (x : Pc) : EventLoop :=
  MkEventLoop (looping_ s) (quit_ s) (calling_pending_functors_ s) (events_size s)
    (pending_functors_ s) (wakeup_count s) (wakers s) (own_queued s) x (queued s) (ran s).
Definition set_quit (s : EventLoop) (x : bool) : EventLoop :=
  MkEventLoop (looping_ s) x (calling_pending_functors_ s) (events_size s)
    (pending_functors_ s) (wakeup_count s) (wakers s) (own_queued s) (pc s) (queued s) (ran s).
Definition set_looping (s : EventLoop) (x : bool) : EventLoop :=
  MkEventLoop x (quit_ s) (calling_pending_functors_ s) (events_size s)
    (pending_functors_ s) (wakeup_count s) (wakers s) (own_queued s) (pc s) (queued s) (ran s).
Definition set_wakeup (s : EventLoop) (x : Z) : EventLoop :=
  MkEventLoop (looping_ s) (quit_ s) (calling_pending_functors_ s) (events_size s)
    (pending_functors_ s) x (wakers s) (own_queued s) (pc s) (queued s) (ran s).
Definition set_wakers (s : EventLoop) (x : nat) : EventLoop :=
  MkEventLoop (looping_ s) (quit_ s) (calling_pending_functors_ s) (events_size s)
    (pending_functors_ s) (wakeup_count s) x (own_queued s) (pc s) (queued s) (ran s).
Definition set_own (s : EventLoop) (x : bool) : EventLoop :=
  MkEventLoop (looping_ s) (quit_ s) (calling_pending_functors_ s) (events_size s)
    (pending_functors_ s) (wakeup_count s) (wakers s) x (pc s) (queued s) (ran s).

(** The locked part of [QueueInLoop]. *)
Definition push (s : EventLoop) (f : Z) : EventLoop :=
  MkEventLoop (looping_ s) (quit_ s) (calling_pending_functors_ s) (events_size s)
    (pending_functors_ s ++ [f]) (wakeup_count s) (wakers s) (own_queued s) (pc s)
    (queued s ++ [f]) (ran s).

(** ** Operations *)

(** The write of [Wakeup]: it adds one, or fails with [EAGAIN] when the counter of
    the eventfd is at its largest value. *)
Definition Wakeup (s : EventLoop) : EventLoop :=
  if wakeup_count s <? 2 ^ 64 - 2 then set_wakeup s (wakeup_count s + 1) else s.

Definition HandleWakeupRead (s : EventLoop) : EventLoop := set_wakeup s 0.

(** [QueueInLoop] on the owner's thread. *)
Definition QueueInLoop (s : EventLoop) (f : Z) : EventLoop :=
  if calling_pending_functors_ s then Wakeup (push s f) else push s f.

Definition act (s : EventLoop) (a : LoopAction) : EventLoop :=
  match a with
  | Queue f => QueueInLoop s f
  | QuitLoop => set_quit s true
  end.

Definition acts : EventLoop → list LoopAction → EventLoop := foldl act.

(** The head of [DoPendingFunctors]: the swap. *)
Definition TakeFunctors (s : EventLoop) (event_count : nat) : EventLoop :=
  MkEventLoop (looping_ s) (quit_ s) true (events_size s) [] (wakeup_count s) (wakers s) false
    (PFunctors (pending_functors_ s) event_count) (queued s) (ran s).

Section Operations.
Variable body : Z → list LoopAction.

(** One turn of its loop. *)
Definition RunFunctor (s : EventLoop) (f : Z) (fs : list Z) (event_count : nat) : EventLoop :=
  acts (MkEventLoop (looping_ s) (quit_ s) (calling_pending_functors_ s) (events_size s)
    (pending_functors_ s) (wakeup_count s) (wakers s) (own_queued s) (PFunctors fs event_count)
    (queued s) (ran s ++ [f])) (body f).

(** Its end, and the growth of [events_]. *)
Definition EndFunctors (s : EventLoop) (event_count : nat) : EventLoop :=
  MkEventLoop (looping_ s) (quit_ s) false
    (if (event_count =? events_size s)%nat then (events_size s * 2)%nat else events_size s)
    (pending_functors_ s) (wakeup_count s) (wakers s) (own_queued s) PTest (queued s) (ran s).

Inductive PollResult := PollEvents (hs : list Handler) | PollInterrupted | PollFailed.

(** [epoll_wait] reports the eventfd only when its counter is not zero, and at most
    as many channels as [events_] has room for. *)
Definition reported (s : EventLoop) (h : Handler) : bool :=
  match h with HWakeup => 0 <? wakeup_count s | HUser _ => true end.

Definition poll (s : EventLoop) (r : PollResult) : EventLoop :=
  match r with
  | PollEvents hs =>
      let hs := take (events_size s) (List.filter (reported s) hs) in
      set_pc s (PEvents hs (length hs))
  | PollInterrupted => set_pc s PTest
  | PollFailed => set_looping (set_pc s PIdle) false
  end.

(** The next step of the owner; [r] is what [epoll_wait] returns. *)
Definition LoopStep (s : EventLoop) (r : PollResult) : EventLoop :=
  match pc s with
  | PIdle => s
  | PTest => if quit_ s then set_looping (set_pc s PIdle) false else set_pc s PWait
  | PWait => poll s r
  | PEvents (HWakeup :: hs) n => HandleWakeupRead (set_pc s (PEvents hs n))
  | PEvents (HUser l :: hs) n => acts (set_pc s (PEvents hs n)) l
  | PEvents [] n => TakeFunctors s n
  | PFunctors (f :: fs) n => RunFunctor s f fs n
  | PFunctors [] n => EndFunctors s n
  end.

Inductive LoopEvent :=
| LQueue (f : Z)          (* another thread queues a functor *)
| LQuit                   (* another thread stores [quit_] *)
| LWakeup                 (* one of these threads writes to the eventfd *)
| LOwnQueue (f : Z)       (* the owner queues a functor outside of [Loop] *)
| LLoop                   (* the owner calls [Loop] *)
| LStep (r : PollResult). (* the owner goes on in [Loop] *)

Definition loop_step (s : EventLoop) (ev : LoopEvent) : EventLoop :=
  match ev with
  | LQueue f => let s := push s f in set_wakers s (S (wakers s))
  | LQuit => let s := set_quit s true in set_wakers s (S (wakers s))
  | LWakeup => match wakers s with O => s | S n => Wakeup (set_wakers s n) end
  | LOwnQueue f =>
      match pc s with PIdle => set_own (QueueInLoop s f) true | _ => s end
  | LLoop =>
      if looping_ s then s else set_pc (set_quit (set_looping s true) false) PTest
  | LStep r => LoopStep s r
  end.

Definition loop_run : EventLoop → list LoopEvent → EventLoop := foldl loop_step.

(** ** The invariant *)

(** The functors taken and not run yet. *)
Definition batch (s : EventLoop) : list Z :=
  match pc s with PFunctors fs _ => fs | _ => [] end.

(** [epoll_wait] returns now, or will when a thread has written. *)
Definition awake (s : EventLoop) : Prop := 0 < wakeup_count s ∨ (0 < wakers s)%nat.

Definition handling (s : EventLoop) : Prop :=
  match pc s with PEvents _ _ => True | _ => False end.

Record loop_ok (s : EventLoop) : Prop := {
  lo_fifo : queued s = ran s ++ batch s ++ pending_functors_ s;
  lo_calling : calling_pending_functors_ s = match pc s with PFunctors _ _ => true | _ => false end;
  lo_looping : looping_ s = match pc s with PIdle => false | _ => true end;
  lo_room : (0 < events_size s)%nat;
  lo_counter : 0 ≤ wakeup_count s ≤ 2 ^ 64 - 2;
  lo_pending : pending_functors_ s ≠ [] → awake s ∨ handling s ∨ own_queued s = true;
  lo_quit : quit_ s = true → pc s = PWait → awake s;
}.

Lemma Wakeup_frame s :
  let s' := Wakeup s in
  looping_ s' = looping_ s ∧ quit_ s' = quit_ s ∧ events_size s' = events_size s ∧
  pending_functors_ s' = pending_functors_ s ∧ wakers s' = wakers s ∧ pc s' = pc s ∧
  queued s' = queued s ∧ ran s' = ran s ∧ own_queued s' = own_queued s ∧
  calling_pending_functors_ s' = calling_pending_functors_ s.
Proof. unfold Wakeup. by case_match. Qed.

Lemma Wakeup_counter s :
  0 ≤ wakeup_count s ≤ 2 ^ 64 - 2 → 0 < wakeup_count (Wakeup s) ≤ 2 ^ 64 - 2.
Proof.
  intros H. unfold Wakeup. destruct (wakeup_count s <? 2 ^ 64 - 2) eqn:E; cbn;
    [apply Z.ltb_lt in E|apply Z.ltb_ge in E]; lia.
Qed.

(** An action of the owner inside of its handlers and functors. *)
Lemma loop_act_ok s a : loop_ok s → pc s ≠ PIdle → pc s ≠ PTest → pc s ≠ PWait → loop_ok (act s a).
Proof.
  intros [] H1 H2 H3. destruct a as [f|]; cbn [act]; [|by split].
  unfold QueueInLoop. rewrite lo_calling0.
  destruct (pc s) as [| | |hs n|fs n] eqn:Ep; try done.
  - split; cbn; rewrite ?Ep; try done.
    + unfold batch in *. cbn in *. rewrite Ep in *. cbn in *. by rewrite lo_fifo0, app_assoc.
    + intros _. right; left. unfold handling. cbn. by rewrite Ep.
  - destruct (Wakeup_frame (push s f)) as (F1 & F2 & F3 & F4 & F5 & F6 & F7 & F8 & F9 & F10).
    pose proof (Wakeup_counter (push s f) lo_counter0).
    cbn [pc push] in F6. rewrite Ep in F6. split.
    + unfold batch in *. rewrite F4, F6, F7, F8, Ep in *. cbn. by rewrite lo_fifo0, !app_assoc.
    + rewrite F10, F6. done.
    + rewrite F1, F6. done.
    + by rewrite F3.
    + lia.
    + intros _. left; left. lia.
    + rewrite F6. done.
Qed.

Lemma act_frame s a : pc (act s a) = pc s ∧ (quit_ s = true → quit_ (act s a) = true).
Proof.
  destruct a as [f|]; cbn; [|done]. unfold QueueInLoop. case_match; [|done].
  destruct (Wakeup_frame (push s f)) as (F1 & F2 & F3 & F4 & F5 & F6 & _). by rewrite F2, F6.
Qed.

Lemma acts_frame l : ∀ s, pc (acts s l) = pc s ∧ (quit_ s = true → quit_ (acts s l) = true).
Proof.
  unfold acts. induction l as [|a l IH]; intros s; [done|]. cbn [foldl].
  destruct (act_frame s a) as [E1 E2], (IH (act s a)) as [E3 E4]. split; [congruence|auto].
Qed.

Lemma loop_acts_ok l : ∀ s, loop_ok s → pc s ≠ PIdle → pc s ≠ PTest → pc s ≠ PWait → loop_ok (acts s l).
Proof.
  unfold acts. induction l as [|a l IH]; intros s Hok H1 H2 H3; [done|]. cbn [foldl].
  destruct (act_frame s a) as [E _]. apply IH; rewrite ?E; by try apply loop_act_ok.
Qed.

(** A step that keeps the functors and the writers keeps the reason to be awake. *)
Local Ltac keep_awake :=
  unfold batch, handling, awake; cbn; try done; try lia;
  try (intros Hp; match goal with
       | H : _ → _ ∨ _ ∨ _ |- _ => destruct (H Hp) as [?|[?|?]]; by auto
       end).

Lemma LoopStep_ok s r : loop_ok s → loop_ok (LoopStep s r).
Proof.
  intros Hok. pose proof Hok as []. unfold LoopStep.
  destruct (pc s) as [| | |[|[|l] hs] n|[|f fs] n] eqn:Ep; [done|..];
    unfold batch, handling, awake in *; rewrite ?Ep in *.
  - destruct (quit_ s) eqn:Eq; split; keep_awake; by rewrite Eq.
  - destruct r as [hs| |]; split; keep_awake.
  - split; unfold batch, handling, awake; cbn; try done. by rewrite app_nil_r.
  - split; keep_awake.
  - apply loop_acts_ok; [|done..]. split; keep_awake.
  - split; keep_awake; case_match; lia.
  - apply loop_acts_ok; [|done..]. split; keep_awake.
    rewrite lo_fifo0. by rewrite <-!app_assoc.
Qed.

Lemma loop_step_ok s ev : loop_ok s → loop_ok (loop_step s ev).
Proof.
  intros Hok. pose proof Hok as []. destruct ev as [f| | |f| |r]; cbn [loop_step].
  - split; unfold batch, handling, awake in *; cbn in *; try done.
    + by rewrite lo_fifo0, !app_assoc.
    + intros _. left; right. lia.
    + intros _ _. right. lia.
  - split; unfold batch, handling, awake in *; cbn in *; try done.
    + intros _. left; right. lia.
    + intros _ _. right. lia.
  - destruct (wakers s) as [|k]; [done|].
    destruct (Wakeup_frame (set_wakers s k)) as (F1 & F2 & F3 & F4 & F5 & F6 & F7 & F8 & F9 & F10).
    pose proof (Wakeup_counter (set_wakers s k) lo_counter0).
    split; unfold batch, handling in *; rewrite ?F1, ?F2, ?F3, ?F4, ?F6, ?F7, ?F8, ?F9, ?F10;
      cbn; try done; try lia; intros; [left|]; left; lia.
  - destruct (pc s) eqn:Ep; try done. unfold QueueInLoop. rewrite lo_calling0.
    split; unfold batch, handling, awake in *; cbn; rewrite ?Ep in *; try done.
    + by rewrite lo_fifo0, !app_assoc.
    + intros _. by right; right.
  - destruct (looping_ s) eqn:El; [done|].
    destruct (pc s) eqn:Ep; try done.
    unfold batch, handling in *; rewrite ?Ep in *. split; keep_awake.
  - by apply LoopStep_ok.
Qed.

Lemma loop_run_ok evs : ∀ s, loop_ok s → loop_ok (loop_run s evs).
Proof.
  unfold loop_run. induction evs as [|ev evs IH]; intros s Hok; [done|]. by apply IH, loop_step_ok.
Qed.

Lemma NewEventLoop_ok : loop_ok NewEventLoop.
Proof. split; cbn; try done; unfold kInitialEventListSize; lia. Qed.

Lemma loop_reachable evs : loop_ok (loop_run NewEventLoop evs).
Proof. apply loop_run_ok, NewEventLoop_ok. Qed.

(** ** Turns of the loop *)

Lemma act_grows s a :
  ran (act s a) = ran s ∧ (∃ l, pending_functors_ (act s a) = pending_functors_ s ++ l).
Proof.
  destruct a as [f|]; cbn; [|split; [done|]; exists []; by rewrite app_nil_r].
  unfold QueueInLoop. case_match; [|split; [done|by exists [f]]].
  destruct (Wakeup_frame (push s f)) as (_ & _ & _ & F4 & _ & _ & _ & F8 & _).
  rewrite F4, F8. split; [done|by exists [f]].
Qed.

Lemma acts_grow l : ∀ s,
  ran (acts s l) = ran s ∧ (∃ k, pending_functors_ (acts s l) = pending_functors_ s ++ k).
Proof.
  unfold acts. induction l as [|a l IH]; intros s; [split; [done|]; exists []; by rewrite app_nil_r|].
  cbn [foldl]. destruct (act_grows s a) as [E1 [k1 E2]], (IH (act s a)) as [E3 [k2 E4]].
  split; [congruence|]. exists (k1 ++ k2). by rewrite E4, E2, app_assoc.
Qed.

(** How often the owner enters [epoll_wait] in a run; a turn of [Loop] lies between two
    such entries. *)
Definition enters (s : EventLoop) (ev : LoopEvent) : nat :=
  match ev, pc s with LStep _, PTest => if quit_ s then 0 else 1 | _, _ => 0 end.
Fixpoint polls (s : EventLoop) (evs : list LoopEvent) : nat :=
  match evs with
  | [] => 0
  | ev :: evs => enters s ev + polls (loop_step s ev) evs
  end.

Lemma polls_app evs : ∀ s evs', polls s (evs ++ evs') = (polls s evs + polls (loop_run s evs) evs')%nat.
Proof.
  induction evs as [|ev evs IH]; intros s evs'; [done|]. cbn [polls app loop_run foldl].
  rewrite IH. unfold loop_run. lia.
Qed.

(** The handlers that [epoll_wait] reported are called one after the other. *)
Lemma run_handlers r hs : ∀ s n,
  pc s = PEvents hs n →
  let s' := loop_run s (replicate (length hs) (LStep r)) in
  pc s' = PEvents [] n ∧ ran s' = ran s ∧ (quit_ s = true → quit_ s' = true) ∧
  (∃ k, pending_functors_ s' = pending_functors_ s ++ k) ∧
  polls s (replicate (length hs) (LStep r)) = 0%nat.
Proof.
  unfold loop_run. induction hs as [|h hs IH]; intros s n Hp.
  { split_and!; try done. exists []. by rewrite app_nil_r. }
  cbn [length replicate foldl loop_step polls enters]. unfold LoopStep. rewrite Hp.
  destruct h as [|l].
  - destruct (IH (HandleWakeupRead (set_pc s (PEvents hs n))) n) as (H1 & H2 & H3 & H4 & H5); [done|].
    by split_and!.
  - set (s1 := acts _ l). destruct (acts_frame l (set_pc s (PEvents hs n))) as [F1 F2].
    destruct (acts_grow l (set_pc s (PEvents hs n))) as [G1 [k1 G2]].
    destruct (IH s1 n F1) as (H1 & H2 & H3 & [k2 H4] & H5). split_and!; [done|by rewrite H2|auto| |done].
    exists (k1 ++ k2). rewrite H4. unfold s1. by rewrite G2, app_assoc.
Qed.

Lemma run_functors r fs : ∀ s n,
  pc s = PFunctors fs n →
  let s' := loop_run s (replicate (length fs) (LStep r)) in
  pc s' = PFunctors [] n ∧ ran s' = ran s ++ fs ∧ (quit_ s = true → quit_ s' = true) ∧
  polls s (replicate (length fs) (LStep r)) = 0%nat.
Proof.
  unfold loop_run. induction fs as [|f fs IH]; intros s n Hp.
  { by rewrite app_nil_r. }
  cbn [length replicate foldl loop_step polls enters]. unfold LoopStep. rewrite Hp.
  unfold RunFunctor. set (s0 := MkEventLoop _ _ _ _ _ _ _ _ _ _ _).
  destruct (acts_frame (body f) s0) as [F1 F2], (acts_grow (body f) s0) as [G1 _].
  destruct (IH (acts s0 (body f)) n F1) as (H1 & H2 & H3 & H4).
  split_and!; [done| |auto|done]. rewrite H2, G1. cbn. by rewrite <-app_assoc.
Qed.

Lemma loop_run_app s evs evs' : loop_run s (evs ++ evs') = loop_run (loop_run s evs) evs'.
Proof. apply foldl_app. Qed.

Lemma replicate_plus {A} (x : A) n m : replicate (n + m) x = replicate n x ++ replicate m x.
Proof. apply replicate_add. Qed.

Lemma own_act s a : own_queued (act s a) = own_queued s.
Proof.
  destruct a as [f|]; [|done]. cbn. unfold QueueInLoop. case_match; [|done].
  by destruct (Wakeup_frame (push s f)) as (_ & _ & _ & _ & _ & _ & _ & _ & -> & _).
Qed.
Lemma own_acts l : ∀ s, own_queued (acts s l) = own_queued s.
Proof.
  unfold acts. induction l as [|a l IH]; intros s; [done|]. cbn [foldl]. by rewrite IH, own_act.
Qed.

Definition own_queue (ev : LoopEvent) : bool := match ev with LOwnQueue _ => true | _ => false end.

(** Only the owner, outside of [Loop], queues a functor without a wake-up. *)
Lemma own_kept s ev :
  own_queue ev = false →
  own_queued s = false → own_queued (loop_step s ev) = false.
Proof.
  intros Hev Hs. destruct ev as [f| | |f| |r]; cbn [loop_step]; try done.
  - destruct (wakers s) as [|k]; [done|].
    by destruct (Wakeup_frame (set_wakers s k)) as (_ & _ & _ & _ & _ & _ & _ & _ & -> & _).
  - by case_match.
  - unfold LoopStep, RunFunctor. destruct (pc s) as [| | |[|[|l] hs] n|[|f fs] n]; try done.
    + by case_match.
    + by destruct r.
    + by rewrite own_acts.
    + by rewrite own_acts.
Qed.

Lemma own_run evs : ∀ s,
  Forall (λ ev, own_queue ev = false) evs → own_queued s = false →
  own_queued (loop_run s evs) = false.
Proof.
  unfold loop_run. induction evs as [|ev evs IH]; intros s Hev Hs; [done|]. inversion_clear Hev.
  cbn [foldl]. apply IH; [done|]. by apply own_kept.
Qed.

Lemma acts_queued l : ∀ s, queued s `prefix_of` queued (acts s l).
Proof.
  unfold acts. induction l as [|a l IH]; intros s; [done|]. cbn [foldl]. etrans; [|apply IH].
  destruct a as [f|]; cbn; [|done]. unfold QueueInLoop. case_match; [|by eexists].
  destruct (Wakeup_frame (push s f)) as (_ & _ & _ & _ & _ & _ & F7 & _). rewrite F7. by eexists.
Qed.

(** A step of another thread, or of the owner outside of [Loop]. *)
Lemma other_step s ev : match ev with LStep _ => False | _ => True end →
  ran (loop_step s ev) = ran s ∧ queued s `prefix_of` queued (loop_step s ev) ∧
  (pc (loop_step s ev) = pc s ∨ looping_ s = false ∧ pc (loop_step s ev) = PTest) ∧
  (match ev with LLoop => False | _ => True end → pc (loop_step s ev) = pc s ∧
     (quit_ s = true → quit_ (loop_step s ev) = true)).
Proof.
  destruct ev as [f| | |f| |r]; cbn [loop_step]; intros Hev; try done.
  - split_and!; try done; [by eexists|by left].
  - split_and!; try done. by left.
  - destruct (wakers s) as [|k]; [by auto|].
    destruct (Wakeup_frame (set_wakers s k)) as (_ & F2 & _ & _ & _ & F6 & F7 & F8 & _).
    rewrite F2, F6, F7, F8. by auto.
  - destruct (pc s) eqn:Ep; rewrite ?Ep; try by auto. unfold QueueInLoop. case_match.
    + destruct (Wakeup_frame (push s f)) as (_ & F2 & _ & _ & _ & F6 & F7 & F8 & _).
      cbn [set_own ran queued pc quit_]. rewrite F2, F6, F7, F8. cbn. rewrite Ep. split_and!; try done; [by eexists|by left].
    + cbn. rewrite Ep. split_and!; try done; [by eexists|by left].
  - destruct (looping_ s) eqn:El; [by auto|]. split_and!; try done. by right.
Qed.

(** No signal interrupts [epoll_wait], and it does not fail. *)
Definition returns (ev : LoopEvent) : bool :=
  match ev with LStep PollInterrupted | LStep PollFailed => false | _ => true end.

(** The functors [q] will have run when the owner is back at the test of [quit_]. *)
Definition due (q : list Z) (s : EventLoop) : Prop :=
  q `prefix_of` queued s ∧
  match pc s with
  | PWait | PEvents _ _ => True
  | PFunctors fs _ => q `prefix_of` ran s ++ fs
  | PTest | PIdle => q `prefix_of` ran s
  end.

Lemma due_step q s ev : returns ev = true → loop_ok s → due q s → due q (loop_step s ev).
Proof.
  intros Hev Hok [Hq Hp].
  assert (match ev with LStep _ => False | _ => True end → due q (loop_step s ev)) as Hother.
  { intros Ho. destruct (other_step s ev Ho) as (E1 & E2 & E3 & _). split; [by etrans|]. rewrite E1.
    destruct E3 as [-> |[El ->]]; [exact Hp|]. rewrite (lo_looping _ Hok) in El. by destruct (pc s). }
  destruct ev as [f| | |f| |r]; try by apply Hother. clear Hother.
  cbn [loop_step]. unfold LoopStep, due. pose proof (lo_fifo _ Hok) as F. unfold batch in F.
  destruct (pc s) as [| | |[|[|l] hs] n|[|f fs] n] eqn:Ep; rewrite ?Ep.
  - done.
  - by destruct (quit_ s).
  - by destruct r.
  - split; [done|]. cbn. rewrite F in Hq. by rewrite app_nil_l in Hq.
  - done.
  - destruct (acts_frame l (set_pc s (PEvents hs n))) as [-> _]. split; [|done].
    etrans; [exact Hq|]. apply (acts_queued l (set_pc s (PEvents hs n))).
  - split; [done|]. cbn. by rewrite app_nil_r in Hp.
  - unfold RunFunctor. set (s0 := MkEventLoop _ _ _ _ _ _ _ _ _ _ _).
    destruct (acts_frame (body f) s0) as [-> _], (acts_grow (body f) s0) as [-> _]. split.
    + etrans; [exact Hq|]. apply (acts_queued (body f) s0).
    + cbn. by rewrite <- app_assoc.
Qed.

(** Once the owner is back in [epoll_wait] all of [q] has run. *)
Lemma due_run q evs : ∀ s, Forall (λ ev, returns ev = true) evs → loop_ok s → due q s →
  polls s evs ≠ 0%nat → q `prefix_of` ran (loop_run s evs).
Proof.
  induction evs as [|ev evs IH]; intros s Hev Hok Hd Hp; [done|]. apply list.Forall_cons in Hev as [He Hev].
  cbn [polls] in Hp. change (loop_run s (ev :: evs)) with (loop_run (loop_step s ev) evs).
  destruct (decide (enters s ev = 0%nat)) as [E|Hne].
  - apply IH; [done|by apply loop_step_ok|by apply due_step|lia].
  - clear IH Hp. destruct Hd as [_ Hd]. unfold enters in Hne.
    assert (q `prefix_of` ran (loop_step s ev)) as H.
    { destruct ev as [| | | | |r]; try done. cbn [loop_step]. unfold LoopStep.
      destruct (pc s); try done. by destruct (quit_ s). }
    clear Hne Hd. revert H. generalize (loop_step s ev). clear s ev Hok He.
    induction Hev as [|ev evs He Hev IH]; intros s H; [done|].
    change (loop_run s (ev :: evs)) with (loop_run (loop_step s ev) evs). apply IH. etrans; [exact H|].
    destruct ev as [f| | |f| |r];
      try (match goal with |- _ `prefix_of` ran (loop_step s ?ev) =>
             destruct (other_step s ev I) as (-> & _) end; done).
    cbn [loop_step]. unfold LoopStep, RunFunctor. destruct (pc s) as [| | |[|[|l] hs] n|[|f fs] n]; try done.
    + by case_match.
    + by destruct r.
    + by destruct (acts_grow l (set_pc s (PEvents hs n))) as [-> _].
    + match goal with |- context [acts ?x (body f)] => destruct (acts_grow (body f) x) as [-> _] end. by eexists.
Qed.

(** A loop that was told to quit does not enter [epoll_wait] again. *)
Lemma quit_run evs : ∀ s, Forall (λ ev, match ev with LLoop => False | _ => True end) evs →
  quit_ s = true → polls s evs = 0%nat.
Proof.
  induction evs as [|ev evs IH]; intros s Hev Hq; [done|]. apply list.Forall_cons in Hev as [He Hev].
  cbn [polls]. assert (enters s ev = 0%nat) as ->.
  { unfold enters. destruct ev; try done. destruct (pc s); try done. by rewrite Hq. }
  apply IH; [done|]. destruct ev as [f| | |f| |r];
    try (match goal with |- quit_ (loop_step s ?ev) = _ =>
           destruct (other_step s ev I) as (_ & _ & _ & Ho); by apply Ho end).
  cbn [loop_step]. unfold LoopStep, RunFunctor. destruct (pc s) as [| | |[|[|l] hs] n|[|f fs] n]; try done.
  - by rewrite Hq.
  - by destruct r.
  - destruct (acts_frame l (set_pc s (PEvents hs n))) as [_ Ha]. by apply Ha.
  - match goal with |- context [acts ?x (body f)] => destruct (acts_frame (body f) x) as [_ Ha] end. by apply Ha.
Qed.

(** A whole turn, from the handlers to the next test of [quit_]. *)
Lemma run_turn r hs s n :
  pc s = PEvents hs n →
  ∃ k, let s' := loop_run s (replicate k (LStep r)) in
    pc s' = PTest ∧ (quit_ s = true → quit_ s' = true) ∧
    ran s ++ pending_functors_ s `prefix_of` ran s' ∧ polls s (replicate k (LStep r)) = 0%nat.
Proof.
  intros Hp. destruct (run_handlers r hs s n Hp) as (H1 & H2 & H3 & [k H4] & P1).
  set (s1 := loop_run s (replicate (length hs) (LStep r))) in *.
  destruct (run_functors r (pending_functors_ s1) (TakeFunctors s1 n) n eq_refl) as (H5 & H6 & H7 & P2).
  set (s2 := loop_run (TakeFunctors s1 n) (replicate (length (pending_functors_ s1)) (LStep r))) in *.
  exists (length hs + (1 + (length (pending_functors_ s1) + 1)))%nat.
  rewrite !replicate_plus, !polls_app, !loop_run_app, P1. fold s1.
  assert (loop_run s1 (replicate 1 (LStep r)) = TakeFunctors s1 n) as ->.
  { cbn. unfold LoopStep. by rewrite H1. }
  fold s2. assert (loop_run s2 (replicate 1 (LStep r)) = EndFunctors s2 n) as ->.
  { cbn. unfold LoopStep. by rewrite H5. }
  split_and!; [done|auto|cbn; rewrite H6; cbn; rewrite H2, H4; exists k; by rewrite app_assoc|].
  rewrite P2. cbn. rewrite H1, H5. done.
Qed.

End Operations.

(** ** Properties *)

(** functors run in the order in which they were queued, each exactly once,
    whatever the threads do: those that ran, those taken and those that wait are
    together the functors queued so far, in that order. *)
Theorem loop_functors_fifo body evs :
  let s := loop_run body NewEventLoop evs in
  queued s = ran s ++ batch s ++ pending_functors_ s ∧
  (pc s = PIdle → batch s = []) ∧ (looping_ s = false ↔ pc s = PIdle).
Proof.
  intros s. destruct (loop_reachable body evs). unfold s. split_and!; [done| |].
  - unfold batch. by intros ->.
  - rewrite lo_looping0. by destruct (pc _).
Qed.

(** C10: No wake-up is lost.  When the owner is in [epoll_wait] while a functor is
    queued, the eventfd is readable or a thread is about to make it so, in every
    interleaving.  From then on all functors queued so far run within one turn of the
    loop: however the owner and the other threads go on, they have run when the owner
    enters [epoll_wait] again, unless a signal or an error ends its wait; and the owner by
    itself runs them, whatever else [epoll_wait] reports, without entering it again.
    Functors that the owner queues before it calls [Loop] are excluded. *)
Theorem loop_no_lost_wakeup body evs evs' hs :
  Forall (λ ev, own_queue ev = false) evs →
  let s := loop_run body NewEventLoop evs in
  pc s = PWait → pending_functors_ s ≠ [] →
  awake s ∧
  (Forall (λ ev, returns ev = true) evs' → polls body s evs' ≠ 0%nat →
   queued s `prefix_of` ran (loop_run body s evs')) ∧
  ∃ k, let turn := replicate k (LStep (PollEvents hs)) in
    polls body s turn = 0%nat ∧ pc (loop_run body s turn) = PTest ∧
    queued s `prefix_of` ran (loop_run body s turn).
Proof.
  intros Hev s Hp Hne. pose proof (loop_reachable body evs) as Hok. fold s in Hok.
  assert (own_queued s = false) as Hown.
  { by apply own_run. }
  split_and!.
  - destruct (lo_pending _ Hok Hne) as [?|[Hh|?]]; [done| |congruence].
    unfold handling in Hh. by rewrite Hp in Hh.
  - intros Hr Hpolls. apply due_run; [done|done| |done]. split; [done|]. by rewrite Hp.
  - set (s1 := poll s (PollEvents hs)).
    destruct (run_turn body (PollEvents hs) _ s1 _ eq_refl) as (k & E & _ & Hpre & P).
    exists (S k). cbn [replicate polls enters]. change (loop_run body s (?x :: ?l)) with (loop_run body (loop_step body s x) l).
    cbn [loop_step]. unfold LoopStep. rewrite Hp. fold s1. split_and!; [done|done|].
    rewrite (lo_fifo _ Hok). unfold batch. rewrite Hp. exact Hpre.
Qed.

(** C11: A loop that was told to quit ends within the turn it is in.  Once [quit_] is
    stored while the owner is in [Loop], by itself or by another thread, [epoll_wait] is
    going to return if the owner is in it; however the threads go on, the owner does not
    enter [epoll_wait] again until [Loop] is called anew; and it leaves [Loop] after
    finitely many of its own steps, whatever [epoll_wait] reports. *)
Theorem loop_quits body evs evs' hs :
  let s := loop_run body NewEventLoop evs in
  quit_ s = true → looping_ s = true →
  (pc s = PWait → awake s) ∧
  (Forall (λ ev, match ev with LLoop => False | _ => True end) evs' → polls body s evs' = 0%nat) ∧
  ∃ k, let s' := loop_run body s (replicate k (LStep (PollEvents hs))) in
    pc s' = PIdle ∧ looping_ s' = false.
Proof.
  intros s Hq Hl. pose proof (loop_reachable body evs) as Hok. fold s in Hok.
  split; [intros; by apply Hok|]. split; [intros; by apply quit_run|].
  rewrite (lo_looping _ Hok) in Hl. set (r := PollEvents hs).
  assert (∀ s0, pc s0 = PTest → quit_ s0 = true →
    let s' := loop_run body s0 (replicate 1 (LStep r)) in pc s' = PIdle ∧ looping_ s' = false) as H1.
  { intros s0 Hp0 Hq0. cbn. unfold LoopStep. by rewrite Hp0, Hq0. }
  assert (∀ s0 hs' n, pc s0 = PEvents hs' n → quit_ s0 = true →
    ∃ k, let s' := loop_run body s0 (replicate k (LStep r)) in pc s' = PIdle ∧ looping_ s' = false) as H2.
  { intros s0 hs' n Hp0 Hq0. destruct (run_turn body r hs' s0 n Hp0) as (k & E1 & E2 & _).
    exists (k + 1)%nat. rewrite replicate_plus, loop_run_app. by apply H1; [|apply E2]. }
  destruct (pc s) as [| | |hs' n|fs n] eqn:Ep; [done|..].
  - exists 1%nat. by apply H1.
  - destruct (H2 (poll s r) _ _ eq_refl Hq) as (k & Hk). exists (S k).
    cbn [replicate loop_run foldl loop_step]. unfold LoopStep. rewrite Ep. exact Hk.
  - by apply (H2 s hs' n).
  - destruct (run_functors body r fs s n Ep) as (E1 & _ & E2 & _).
    exists (length fs + (1 + 1))%nat. rewrite !replicate_plus, !loop_run_app.
    set (s1 := loop_run body s _) in *. apply H1; cbn; unfold LoopStep; rewrite E1; [done|].
    by apply E2.
Qed.

Definition quiet_body (f : Z) : list LoopAction := [].

(** Another thread queues a functor while the owner is in [epoll_wait]. *)
Definition sample_loop_events : list LoopEvent :=
  [LLoop; LStep (PollEvents []); LQueue 7; LWakeup; LQueue 8].

(** The owner wakes up, runs both functors and is back in [epoll_wait]. *)
Definition sample_turn : list LoopEvent := replicate 8 (LStep (PollEvents [HWakeup])).

Lemma loop_no_lost_wakeup_witness :
  let s := loop_run quiet_body NewEventLoop sample_loop_events in
  awake s ∧ polls quiet_body s sample_turn = 1%nat ∧
  [7; 8] `prefix_of` ran (loop_run quiet_body s sample_turn).
Proof.
  cbv zeta.
  destruct (loop_no_lost_wakeup quiet_body sample_loop_events sample_turn []) as (H1 & H2 & _);
    [| | |split; [exact H1|split; [reflexivity|apply H2]]].
  - repeat constructor.
  - reflexivity.
  - vm_compute. discriminate.
  - repeat constructor.
  - vm_compute. discriminate.
Defined.

Lemma loop_quits_witness :
  ∃ k, pc (loop_run quiet_body (loop_run quiet_body NewEventLoop (sample_loop_events ++ [LQuit]))
             (replicate k (LStep (PollEvents [HWakeup])))) = PIdle.
Proof.
  destruct (loop_quits quiet_body (sample_loop_events ++ [LQuit]) [] [HWakeup]) as (_ & _ & k & H & _);
    [reflexivity|reflexivity|]. by exists k.
Defined.

(** ** What the theorems leave out *)

(** A functor that the owner queues before it calls [Loop] wakes nobody: the owner
    waits in [epoll_wait], for up to [kEpollTimeoutMs], with the functor queued. *)
Theorem own_functor_not_woken :
  let s := loop_run quiet_body NewEventLoop [LOwnQueue 7; LLoop; LStep (PollEvents [])] in
  pc s = PWait ∧ pending_functors_ s = [7] ∧ ¬ awake s.
Proof. cbn. split_and!; try done. unfold awake. cbn. lia. Qed.

(** Nobody asks the loop to quit, and [epoll_wait] does not fail. *)
Definition stays (ev : LoopEvent) : bool :=
  match ev with
  | LQuit | LStep PollFailed => false
  | LStep (PollEvents hs) =>
      forallb (λ h, match h with
                    | HWakeup => true
                    | HUser l => forallb (λ a, match a with QuitLoop => false | _ => true end) l
                    end) hs
  | _ => true
  end.

Record stuck (s : EventLoop) : Prop := {
  st_quit : quit_ s = false;
  st_pc : match pc s with
          | PIdle => False
          | PEvents hs _ => stays (LStep (PollEvents hs)) = true
          | _ => True
          end;
}.

Lemma stuck_acts l : ∀ s,
  forallb (λ a, match a with QuitLoop => false | _ => true end) l = true → stuck s → stuck (acts s l).
Proof.
  unfold acts. induction l as [|[f|] l IH]; intros s Hl Hs; cbn in Hl; [done| |done].
  cbn [foldl act]. apply IH; [done|]. unfold QueueInLoop. case_match; [|by destruct Hs].
  destruct (Wakeup_frame (push s f)) as (_ & F2 & _ & _ & _ & F6 & _).
  destruct Hs. split; [by rewrite F2|by rewrite F6].
Qed.

Lemma stays_reported s hs n :
  stays (LStep (PollEvents hs)) = true →
  stays (LStep (PollEvents (take n (List.filter (reported s) hs)))) = true.
Proof.
  cbn. rewrite !forallb_forall. intros H h Hh. apply H.
  apply list_elem_of_In, list.elem_of_take in Hh as (i & Hi & _).
  apply list_elem_of_lookup_2, list_elem_of_In, filter_In in Hi. apply Hi.
Qed.

Lemma stuck_step body s ev :
  (∀ f, forallb (λ a, match a with QuitLoop => false | _ => true end) (body f) = true) →
  stays ev = true → loop_ok s → stuck s → stuck (loop_step body s ev).
Proof.
  intros Hb Hev Hok Hs. pose proof Hs as [Hq Hp]. destruct ev as [f| | |f| |r]; cbn [loop_step].
  - by split.
  - done.
  - destruct (wakers s) as [|k]; [done|].
    destruct (Wakeup_frame (set_wakers s k)) as (_ & F2 & _ & _ & _ & F6 & _).
    split; [by rewrite F2|by rewrite F6].
  - by destruct (pc s).
  - rewrite (lo_looping _ Hok). by destruct (pc s).
  - unfold LoopStep. destruct (pc s) as [| | |[|[|l] hs] n|[|f fs] n] eqn:Ep; cbn in Hp.
    + done.
    + rewrite Hq. by split.
    + destruct r as [hs| |]; [|by split|done]. split; [done|]. by apply stays_reported.
    + by split.
    + by split.
    + apply andb_true_iff in Hp as [H1 H2]. by apply stuck_acts.
    + by split.
    + apply stuck_acts; [apply Hb|]. by split.
Qed.

(** [Loop] clears [quit_] when it starts: a [Quit] that comes between the creation
    of the loop and its start, as the destructor of [EventLoopThread] may issue it,
    is forgotten.  Unless somebody quits again the owner then stays in [Loop]
    forever, and who joins its thread waits for ever. *)
Theorem quit_before_loop_lost body evs :
  (∀ f, forallb (λ a, match a with QuitLoop => false | _ => true end) (body f) = true) →
  Forall (λ ev, stays ev = true) evs →
  looping_ (loop_run body NewEventLoop ([LQuit; LWakeup; LLoop] ++ evs)) = true.
Proof.
  intros Hb Hev. rewrite loop_run_app. set (s := loop_run body NewEventLoop _).
  assert (loop_ok s ∧ stuck s) as [Hok Hs] by (split; [apply loop_reachable|by split]). clearbody s.
  assert (loop_ok (loop_run body s evs) ∧ stuck (loop_run body s evs)) as [H1 [_ H2]].
  { revert s Hok Hs. unfold loop_run. induction Hev as [|ev evs He _ IH]; intros s Hok Hs; [done|].
    cbn [foldl]. apply IH; [by apply loop_step_ok|by apply stuck_step]. }
  rewrite (lo_looping _ H1). by destruct (pc _).
Qed.
