(* ===== verification/Channel.v ===== *)
(** * Channels and their registration with epoll

    Models [src/common/net/Channel.h], [Channel.cpp] and, of [EventLoop.cpp],
    [UpdateChannel] and [RemoveChannel].  The descriptor's entry in the kernel is
    part of the state, with the documented effect of [epoll_ctl]: adding a
    registered descriptor, or changing one that is not, fails.  Failures for lack
    of memory are left out.  [event_handling_] only serves a log line. *)
From Stdlib Require Import ZArith Lia.
From stdpp Require Import base list numbers.
From S2P Require Import Prelude.
Local Open Scope Z_scope.

(** ** Events *)

Definition EPOLLIN : Z := 0x1.
Definition EPOLLPRI : Z := 0x2.
Definition EPOLLOUT : Z := 0x4.
Definition EPOLLERR : Z := 0x8.
Definition EPOLLHUP : Z := 0x10.
Definition EPOLLRDHUP : Z := 0x2000.

Definition kNoneEvent : Z := 0.
Definition kReadEvent : Z := Z.lor (Z.lor EPOLLIN EPOLLPRI) EPOLLRDHUP.
Definition kWriteEvent : Z := EPOLLOUT.

(** [mask & bits] as a condition. *)
Definition has (mask bits : Z) : bool := negb (Z.land mask bits =? 0).

(** ** State *)

Record Channel := MkChannel {
  events_ : Z;
  added_to_loop_ : bool;
  tied_ : bool;
  registered : bool;      (* [channels_[fd]] of the loop is this channel *)
  interest : option Z;    (* what the kernel watches the descriptor for *)
}.

Definition NewChannel : Channel := MkChannel kNoneEvent false false false None.

Definition set_events (c : Channel) (x : Z) : Channel :=
  MkChannel x (added_to_loop_ c) (tied_ c) (registered c) (interest c).
Definition SetAddedToLoop (c : Channel) (added : bool) : Channel :=
  MkChannel (events_ c) added (tied_ c) (registered c) (interest c).
Definition set_registered (c : Channel) (x : bool) : Channel :=
  MkChannel (events_ c) (added_to_loop_ c) (tied_ c) x (interest c).
Definition set_interest (c : Channel) (x : option Z) : Channel :=
  MkChannel (events_ c) (added_to_loop_ c) (tied_ c) (registered c) x.

Definition Tie (c : Channel) : Channel :=
  MkChannel (events_ c) (added_to_loop_ c) true (registered c) (interest c).

Definition IsReading (c : Channel) : bool := has (events_ c) kReadEvent.
Definition IsWriting (c : Channel) : bool := has (events_ c) kWriteEvent.
Definition IsNoneEvent (c : Channel) : bool := events_ c =? kNoneEvent.

(** ** epoll *)

Inductive EpollOp := EPOLL_CTL_ADD | EPOLL_CTL_MOD | EPOLL_CTL_DEL.

(** The new entry and whether the call succeeded. *)
Definition epoll_ctl (op : EpollOp) (event : Z) (entry : option Z) : option Z * bool :=
  match op, entry with
  | EPOLL_CTL_ADD, None => (Some event, true)
  | EPOLL_CTL_MOD, Some _ => (Some event, true)
  | EPOLL_CTL_DEL, Some _ => (None, true)
  | _, _ => (entry, false)
  end.

(** [EventLoop::UpdateChannel] on a valid loop and descriptor. *)
Definition UpdateChannel (c : Channel) : Channel * bool :=
  if negb (added_to_loop_ c) then
    let c := set_registered c true in
    if IsNoneEvent c then (c, true)
    else
      let '(k, ok) := epoll_ctl EPOLL_CTL_ADD (events_ c) (interest c) in
      if ok then (SetAddedToLoop (set_interest c k) true, true) else (c, false)
  else if IsNoneEvent c then
    let '(k, ok) := epoll_ctl EPOLL_CTL_DEL 0 (interest c) in
    if ok then (SetAddedToLoop (set_interest c k) false, true) else (c, false)
  else
    let '(k, ok) := epoll_ctl EPOLL_CTL_MOD (events_ c) (interest c) in
    (set_interest c k, ok).

Definition RemoveChannel (c : Channel) : Channel * bool :=
  let c := set_registered c false in
  if added_to_loop_ c then
    let '(k, ok) := epoll_ctl EPOLL_CTL_DEL 0 (interest c) in
    if ok then (SetAddedToLoop (set_interest c k) false, true) else (c, false)
  else (c, true).

(** [Channel::Update] drops the result. *)
Definition Update (c : Channel) : Channel := (UpdateChannel c).1.

Definition EnableReading (c : Channel) : Channel :=
  Update (set_events c (Z.lor (events_ c) kReadEvent)).
Definition DisableReading (c : Channel) : Channel :=
  Update (set_events c (Z.ldiff (events_ c) kReadEvent)).
Definition EnableWriting (c : Channel) : Channel :=
  Update (set_events c (Z.lor (events_ c) kWriteEvent)).
Definition DisableWriting (c : Channel) : Channel :=
  Update (set_events c (Z.ldiff (events_ c) kWriteEvent)).
Definition DisableAll (c : Channel) : Channel := Update (set_events c kNoneEvent).

(** ** Dispatch *)

Inductive EventCallback := close_callback | error_callback | read_callback | write_callback.
#[export] Instance EventCallback_eq_dec : EqDecision EventCallback.
Proof. solve_decision. Defined.

(** [HandleEventWithGuard] with all four callbacks set: those it calls, in order. *)
Definition HandleEventWithGuard (revents : Z) : list EventCallback :=
  if has revents EPOLLHUP && negb (has revents EPOLLIN) then [close_callback]
  else
    (if has revents EPOLLERR then [error_callback] else []) ++
    (if has revents (Z.lor (Z.lor EPOLLIN EPOLLPRI) EPOLLRDHUP) then [read_callback] else []) ++
    (if has revents EPOLLOUT then [write_callback] else []).

(** [HandleEvent]; [alive] is whether the owner the channel is tied to exists. *)
Definition HandleEvent (c : Channel) (alive : bool) (revents : Z) : list EventCallback :=
  if tied_ c && negb alive then [] else HandleEventWithGuard revents.

(** ** The registration is exact *)

(** The interest set of a channel, by its two flags. *)
Definition mask (r w : bool) : Z :=
  Z.lor (if r then kReadEvent else 0) (if w then kWriteEvent else 0).

(** The kernel watches exactly [events_], nothing when they are empty. *)
Definition channel_is (c : Channel) (r w : bool) : Prop :=
  events_ c = mask r w ∧ added_to_loop_ c = r || w ∧
  interest c = if r || w then Some (mask r w) else None.

Lemma NewChannel_is : channel_is NewChannel false false.
Proof. done. Qed.

Lemma channel_flags c r w :
  channel_is c r w → IsReading c = r ∧ IsWriting c = w ∧ IsNoneEvent c = negb (r || w).
Proof. intros (E & _). unfold IsReading, IsWriting, IsNoneEvent. rewrite E. by destruct r, w. Qed.

(** An update never fails, and takes the new events to the kernel. *)
Lemma UpdateChannel_is c r w r' w' :
  channel_is c r w →
  ∃ c', UpdateChannel (set_events c (mask r' w')) = (c', true) ∧
    channel_is c' r' w' ∧ tied_ c' = tied_ c ∧ registered c' = registered c || negb (r || w).
Proof.
  destruct c as [ev ad ti re k]. intros (? & Ha & Hk); simpl in *; subst.
  by destruct r, w, r', w'; eexists; (split; [reflexivity|]); cbn; rewrite ?orb_true_r, ?orb_false_r.
Qed.

Lemma Enable_is c r w :
  channel_is c r w →
  channel_is (EnableReading c) true w ∧ channel_is (EnableWriting c) r true ∧
  channel_is (DisableReading c) false w ∧ channel_is (DisableWriting c) r false ∧
  channel_is (DisableAll c) false false.
Proof.
  intros Hc. destruct Hc as (E & Hrest). pose proof (conj E Hrest : channel_is c r w) as Hc.
  assert (∀ r' w' e, e = mask r' w' → channel_is (Update (set_events c e)) r' w') as Hu.
  { intros r' w' e ->. destruct (UpdateChannel_is c r w r' w' Hc) as (c' & Eu & Hc' & _).
    unfold Update. by rewrite Eu. }
  split_and!; apply Hu; rewrite ?E; by destruct r, w.
Qed.

Lemma Update_frame c r w e r' w' :
  channel_is c r w → e = mask r' w' →
  tied_ (Update (set_events c e)) = tied_ c ∧
  registered (Update (set_events c e)) = registered c || negb (r || w).
Proof.
  intros Hc ->. destruct (UpdateChannel_is c r w r' w' Hc) as (c' & Eu & _ & ? & ?).
  unfold Update. by rewrite Eu.
Qed.

Lemma RemoveChannel_is c r w :
  channel_is c r w →
  ∃ c', RemoveChannel c = (c', true) ∧ interest c' = None ∧ registered c' = false ∧
    added_to_loop_ c' = false ∧ events_ c' = events_ c.
Proof.
  destruct c as [ev ad ti re k]. intros (? & Ha & Hk); simpl in *; subst.
  by destruct r, w; eexists; split_and!.
Qed.
