(* ===== verification/TcpConnection.v ===== *)
(** * TCP connections

    Models [src/common/net/TcpConnection.h] and [TcpConnection.cpp] on [Buffer]
    and [Channel].  All of a connection runs on the thread of its loop; other
    threads only post functors.  [pending] are the functors of the loop's queue
    that belong to the connection, in order; those of other connections do not
    touch it.  User callbacks are lists of the calls they make on the connection.
    What [readv] and [send] do is an argument; [send] takes at most what it is
    given.  [None] is a failed [assert] of a buffer. *)
From Stdlib Require Import ZArith Lia.
From Stdlib.Strings Require Import Byte.
From stdpp Require Import base list sets numbers.
From S2P Require Import Prelude Buffer Channel.

(** ** Data *)

Inductive State := kConnecting | kConnected | kDisconnecting | kDisconnected.
#[export] Instance State_eq_dec : EqDecision State.
Proof. solve_decision. Defined.

Definition kDefaultHighWaterMark : nat := N.to_nat (64 * 1024 * 1024).

(** Which callbacks are set, and the high-water mark. *)
Record Callbacks := MkCallbacks {
  connection_callback_ : bool;
  message_callback_ : bool;
  close_callback_ : bool;
  write_complete_callback_ : bool;
  high_water_mark_callback_ : bool;
  high_water_mark_ : nat;
}.

(** [SetHighWaterMarkCallback]. *)
Definition SetHighWaterMarkCallback (cb : Callbacks) (callback : bool) (mark : nat) : Callbacks :=
  let '(has, m) := if negb callback || (mark =? 0) then (false, kDefaultHighWaterMark)
                   else (true, mark) in
  MkCallbacks (connection_callback_ cb) (message_callback_ cb) (close_callback_ cb)
    (write_complete_callback_ cb) has m.

(** The functors posted to the loop. *)
Inductive Functor :=
| FSend (payload : list byte)        (* [Send] of another thread *)
| FShutdown
| FForceClose
| FWriteComplete
| FHighWaterMark (buffered_bytes : nat)
| FEstablished                       (* [ConnectEstablished], posted by the owner *)
| FDestroyed.                        (* [ConnectDestroyed] *)

(** The callbacks made, in order. *)
Inductive Call :=
| CConnection (connected : bool)     (* with what [IsConnected] says *)
| CMessage
| CClose
| CWriteComplete
| CHighWaterMark (buffered_bytes : nat).
#[export] Instance Call_eq_dec : EqDecision Call.
Proof. solve_decision. Defined.

Record Conn := MkConn {
  state_ : State;
  channel_ : Channel;
  input_buffer_ : Buffer;
  output_buffer_ : Buffer;
  last_read_tick_ : Z;
  pending : list Functor;
  calls : list Call;
  (* What the socket has seen; [messages] are the arguments of the calls of
     [SendInLoop] that were not refused, [arrived] the bytes read. *)
  wire : list byte;
  write_shut : bool;
  messages : list (list byte);
  arrived : list byte;
}.

Definition set_state (c : Conn) (x : State) : Conn :=
  MkConn x (channel_ c) (input_buffer_ c) (output_buffer_ c) (last_read_tick_ c) (pending c)
    (calls c) (wire c) (write_shut c) (messages c) (arrived c).
Definition set_channel (c : Conn) (x : Channel) : Conn :=
  MkConn (state_ c) x (input_buffer_ c) (output_buffer_ c) (last_read_tick_ c) (pending c)
    (calls c) (wire c) (write_shut c) (messages c) (arrived c).
Definition set_input (c : Conn) (x : Buffer) : Conn :=
  MkConn (state_ c) (channel_ c) x (output_buffer_ c) (last_read_tick_ c) (pending c)
    (calls c) (wire c) (write_shut c) (messages c) (arrived c).
Definition set_output (c : Conn) (x : Buffer) : Conn :=
  MkConn (state_ c) (channel_ c) (input_buffer_ c) x (last_read_tick_ c) (pending c)
    (calls c) (wire c) (write_shut c) (messages c) (arrived c).
Definition RefreshLastReadTime (c : Conn) (now : Z) : Conn :=
  MkConn (state_ c) (channel_ c) (input_buffer_ c) (output_buffer_ c) now (pending c)
    (calls c) (wire c) (write_shut c) (messages c) (arrived c).
Definition set_pending (c : Conn) (x : list Functor) : Conn :=
  MkConn (state_ c) (channel_ c) (input_buffer_ c) (output_buffer_ c) (last_read_tick_ c) x
    (calls c) (wire c) (write_shut c) (messages c) (arrived c).
Definition log_call (c : Conn) (x : Call) : Conn :=
  MkConn (state_ c) (channel_ c) (input_buffer_ c) (output_buffer_ c) (last_read_tick_ c)
    (pending c) (calls c ++ [x]) (wire c) (write_shut c) (messages c) (arrived c).
Definition transmit (c : Conn) (data : list byte) : Conn :=
  MkConn (state_ c) (channel_ c) (input_buffer_ c) (output_buffer_ c) (last_read_tick_ c)
    (pending c) (calls c) (wire c ++ data) (write_shut c) (messages c) (arrived c).
Definition ShutdownWrite (c : Conn) : Conn :=
  MkConn (state_ c) (channel_ c) (input_buffer_ c) (output_buffer_ c) (last_read_tick_ c)
    (pending c) (calls c) (wire c) true (messages c) (arrived c).
Definition log_message (c : Conn) (data : list byte) : Conn :=
  MkConn (state_ c) (channel_ c) (input_buffer_ c) (output_buffer_ c) (last_read_tick_ c)
    (pending c) (calls c) (wire c) (write_shut c) (messages c ++ [data]) (arrived c).
Definition log_arrived (c : Conn) (data : list byte) : Conn :=
  MkConn (state_ c) (channel_ c) (input_buffer_ c) (output_buffer_ c) (last_read_tick_ c)
    (pending c) (calls c) (wire c) (write_shut c) (messages c) (arrived c ++ data).

(** ** System calls *)

Definition EINTR : Z := 4.
Definition EAGAIN : Z := 11.     (* and [EWOULDBLOCK] *)
Definition ECONNRESET : Z := 104.
Definition transient (errno : Z) : bool := (errno =? EAGAIN)%Z || (errno =? EINTR)%Z.

(** [send] accepts at most the bytes it is given. *)
Definition send (data : list byte) (r : SysResult nat) : SysResult nat :=
  match r with SysOk n => SysOk (Nat.min n (length data)) | SysError e => SysError e end.

Section Connection.
Variable cb : Callbacks.

(** [EventLoop::QueueInLoop]. *)
Definition QueueInLoop (c : Conn) (f : Functor) : Conn := set_pending c (pending c ++ [f]).

Definition QueueWriteCompleteCallback (c : Conn) : Conn :=
  if write_complete_callback_ cb then QueueInLoop c FWriteComplete else c.
Definition QueueHighWaterMarkCallback (c : Conn) (buffered_bytes : nat) : Conn :=
  if high_water_mark_callback_ cb then QueueInLoop c (FHighWaterMark buffered_bytes) else c.

(** ** Handlers *)

Definition IsConnected (c : Conn) : bool := bool_decide (state_ c = kConnected).

Definition HandleClose (c : Conn) : Conn :=
  match state_ c with
  | kDisconnected => c
  | _ =>
      let c := set_state c kDisconnected in
      let c := set_channel c (DisableAll (channel_ c)) in
      if close_callback_ cb then log_call c CClose else c
  end.

Definition HandleError (c : Conn) : Conn := HandleClose c.

Definition ShutdownInLoop (c : Conn) : Conn :=
  match state_ c with
  | kConnected =>
      let c := set_state c kDisconnecting in
      if IsWriting (channel_ c) then c else ShutdownWrite c
  | _ => c
  end.

Definition ForceCloseInLoop (c : Conn) : Conn :=
  match state_ c with
  | kConnected | kDisconnecting => HandleClose c
  | _ => c
  end.

(** The end of [SendInLoop]: [data] are the bytes that remain. *)
Definition BufferRest (c : Conn) (data : list byte) : option Conn :=
  if length data =? 0 then Some c
  else
    let old_buffered_bytes := ReadableBytes (output_buffer_ c) in
    let new_buffered_bytes := old_buffered_bytes + length data in
    let c :=
      if (high_water_mark_callback_ cb) && (old_buffered_bytes <? high_water_mark_ cb) &&
         (high_water_mark_ cb <=? new_buffered_bytes)
      then QueueHighWaterMarkCallback c new_buffered_bytes else c in
    b ← Append (output_buffer_ c) (Some data);
    let c := set_output c b in
    Some (if IsWriting (channel_ c) then c else set_channel c (EnableWriting (channel_ c))).

Definition SendInLoop (c : Conn) (data : list byte) (r : SysResult nat) : option Conn :=
  if negb (IsConnected c) then Some c
  else if negb (IsWriting (channel_ c)) && (ReadableBytes (output_buffer_ c) =? 0) then
    match send data r with
    | SysOk written =>
        let c := log_message (transmit c (take written data)) data in
        if length data - written =? 0 then Some (QueueWriteCompleteCallback c)
        else BufferRest c (drop written data)
    | SysError errno =>
        if transient errno then BufferRest (log_message c data) data
        else Some (HandleError c)
    end
  else BufferRest (log_message c data) data.

(** What user code does on the loop thread. *)
Inductive Action :=
| ASend (data : list byte) (r : SysResult nat)
| AShutdown
| AForceClose
| ARetrieve (len : nat).             (* consumes input, at most what there is *)

Definition act (c : Conn) (a : Action) : option Conn :=
  match a with
  | ASend data r => if length data =? 0 then Some c else SendInLoop c data r
  | AShutdown => Some (ShutdownInLoop c)
  | AForceClose => Some (ForceCloseInLoop c)
  | ARetrieve len =>
      b ← Retrieve (input_buffer_ c) (Nat.min len (ReadableBytes (input_buffer_ c)));
      Some (set_input c b)
  end.

Definition acts : Conn → list Action → option Conn := run act.

Definition HandleRead (c : Conn) (r : SysResult (list byte)) (now : Z) (user : list Action)
  : option Conn :=
  '(b, n) ← ReadFd (input_buffer_ c) r;
  let c := set_input c b in
  let c := log_arrived c (match r with SysOk data => data | SysError _ => [] end) in
  match n with
  | SysOk 0 => Some (HandleClose c)
  | SysOk (S _) =>
      let c := RefreshLastReadTime c now in
      if message_callback_ cb then acts (log_call c CMessage) user else Some c
  | SysError errno =>
      Some (if transient errno then c
            else if (errno =? ECONNRESET)%Z then HandleClose c
            else HandleError c)
  end.

Definition HandleWrite (c : Conn) (r : SysResult nat) : option Conn :=
  if negb (IsWriting (channel_ c)) then Some c
  else
    let finish c := if decide (state_ c = kDisconnecting) then ShutdownInLoop c else c in
    if ReadableBytes (output_buffer_ c) =? 0 then
      Some (finish (set_channel c (DisableWriting (channel_ c))))
    else
      match send (Peek (output_buffer_ c)) r with
      | SysOk 0 => Some c
      | SysOk n =>
          b ← Retrieve (output_buffer_ c) n;
          let c := set_output (transmit c (take n (Peek (output_buffer_ c)))) b in
          Some (if ReadableBytes b =? 0 then
                  let c := set_channel c (DisableWriting (channel_ c)) in
                  finish (QueueWriteCompleteCallback c)
                else c)
      | SysError errno => Some (if transient errno then c else HandleError c)
      end.

(** [ConnectEstablished] and [ConnectDestroyed], on the loop thread. *)
Definition ConnectEstablished (c : Conn) (now : Z) (user : list Action) : option Conn :=
  let c := set_state c kConnected in
  let c := RefreshLastReadTime c now in
  let c := set_channel c (EnableReading (Tie (channel_ c))) in
  if connection_callback_ cb then acts (log_call c (CConnection (IsConnected c))) user else Some c.

Definition ConnectDestroyed (c : Conn) (user : list Action) : option Conn :=
  let c := match state_ c with
           | kConnected | kDisconnecting =>
               let c := set_state c kDisconnected in set_channel c (DisableAll (channel_ c))
           | _ => c
           end in
  c ← (if connection_callback_ cb then acts (log_call c (CConnection (IsConnected c))) user
       else Some c);
  Some (set_channel c (RemoveChannel (channel_ c)).1).

(** ** Steps *)

(** What the system and user code answer during a step. *)
Record Answers := MkAnswers {
  read_result : SysResult (list byte);
  send_result : SysResult nat;
  now : Z;
  user : list Action;
}.

Definition callback (c : Conn) (k : EventCallback) (a : Answers) : option Conn :=
  match k with
  | close_callback => Some (HandleClose c)
  | error_callback => Some (HandleError c)
  | read_callback => HandleRead c (read_result a) (now a) (user a)
  | write_callback => HandleWrite c (send_result a)
  end.

(** A functor of [DoPendingFunctors]. *)
Definition run_functor (c : Conn) (f : Functor) (a : Answers) : option Conn :=
  match f with
  | FSend payload => SendInLoop c payload (send_result a)
  | FShutdown => Some (ShutdownInLoop c)
  | FForceClose => Some (ForceCloseInLoop c)
  | FWriteComplete => acts (log_call c CWriteComplete) (user a)
  | FHighWaterMark n => acts (log_call c (CHighWaterMark n)) (user a)
  | FEstablished => ConnectEstablished c (now a) (user a)
  | FDestroyed => ConnectDestroyed c (user a)
  end.

Inductive Event :=
| EPost (a : Action)                  (* a call from another thread *)
| ECall (a : Action)                  (* a call on the loop thread *)
| EFunctor (a : Answers)              (* the next functor runs *)
| EDestroy (queued : bool) (a : Answers)  (* the owner posts or calls [ConnectDestroyed] *)
| EPoll (revents : Z) (a : Answers).  (* an event of the descriptor, or a stale one *)

(** [Send], [Shutdown] and [ForceClose] of other threads; the input is not theirs. *)
Definition post (c : Conn) (a : Action) : Conn :=
  match a with
  | ASend data _ => if length data =? 0 then c else QueueInLoop c (FSend data)
  | AShutdown => QueueInLoop c FShutdown
  | AForceClose => QueueInLoop c FForceClose
  | ARetrieve _ => c
  end.

(** Events arrive only for channels the loop knows; one that was read from epoll
    before the channel was disabled still does.  The connection is alive: the
    server or a functor holds it.  An owner on the loop thread has established
    the connection before it destroys it. *)
Definition conn_step (c : Conn) (ev : Event) : option Conn :=
  match ev with
  | EPost a => Some (post c a)
  | ECall a => act c a
  | EFunctor a =>
      match pending c with
      | [] => Some c
      | f :: fs => run_functor (set_pending c fs) f a
      end
  | EDestroy queued a =>
      if queued then Some (QueueInLoop c FDestroyed)
      else if decide (state_ c = kConnecting) then Some c
      else ConnectDestroyed c (user a)
  | EPoll revents a =>
      if registered (channel_ c) then
        foldl (λ c k, c ← c; callback c k a) (Some c) (HandleEvent (channel_ c) true revents)
      else Some c
  end.

Definition conn_run : Conn → list Event → option Conn := run conn_step.

End Connection.

(** A connection as [TcpServer] creates it; its first functor establishes it. *)
Definition NewConn (now : Z) : Conn :=
  MkConn kConnecting NewChannel (NewBuffer kInitialSize) (NewBuffer kInitialSize) now
    [FEstablished] [] [] false [] [].

(** ** The invariant *)

Definition rank (s : State) : nat :=
  match s with kConnecting => 0 | kConnected => 1 | kDisconnecting => 2 | kDisconnected => 3 end.

Definition up (c : Conn) : bool :=
  match state_ c with kConnected | kDisconnecting => true | _ => false end.

(** Output that waits for the socket. *)
Definition blocked (c : Conn) : bool := negb (ReadableBytes (output_buffer_ c) =? 0).

Definition closes (c : Conn) : nat := length (filter (λ x, x = CClose) (calls c)).

Section Invariant.
Variable cb : Callbacks.

Record conn_ok (c : Conn) : Prop := {
  ok_input : wf (input_buffer_ c);
  ok_output : wf (output_buffer_ c);
  ok_stream : wire c ++ Peek (output_buffer_ c) = concat (messages c);
  ok_channel : channel_is (channel_ c) (up c) (up c && blocked c);
  ok_registered : registered (channel_ c) = true → rank (state_ c) ≠ 0;
  ok_shut : write_shut c = true → 2 ≤ rank (state_ c) ∧ Peek (output_buffer_ c) = [];
  ok_fresh : rank (state_ c) = 0 → calls c = [] ∧ messages c = [];
  ok_first : rank (state_ c) ≠ 0 → connection_callback_ cb = true →
    ∃ l, calls c = CConnection true :: l ∧ CConnection true ∉ l;
  ok_closes : closes c ≤ (if decide (state_ c = kDisconnected) then 1 else 0);
  ok_read : ∃ consumed, arrived c = consumed ++ Peek (input_buffer_ c);
}.

(** What happens to a connection that was established, or is not yet. *)
Record evolves (c c' : Conn) : Prop := {
  ev_ok : conn_ok c';
  ev_rank : rank (state_ c) ≤ rank (state_ c');
  ev_start : rank (state_ c) = 0 → rank (state_ c') = 0;
  ev_messages : messages c `prefix_of` messages c';
  ev_wire : wire c `prefix_of` wire c';
  ev_calls : calls c `prefix_of` calls c';
  ev_half : 2 ≤ rank (state_ c) → messages c' = messages c ∧ write_shut c' = write_shut c;
  ev_dead : state_ c = kDisconnected → wire c' = wire c;
  ev_pending : ∃ fs, pending c' = pending c ++ fs ∧ FEstablished ∉ fs;
}.

Lemma evolves_refl c : conn_ok c → evolves c c.
Proof.
  intros. split; try done. exists []. by rewrite app_nil_r; split; [|apply not_elem_of_nil].
Qed.

Lemma evolves_trans c1 c2 c3 : evolves c1 c2 → evolves c2 c3 → evolves c1 c3.
Proof.
  intros H1 H2. pose proof (ev_rank _ _ H1). pose proof (ev_rank _ _ H2). split.
  - apply H2.
  - lia.
  - intros Hr. by apply H2, H1.
  - etrans; [apply H1|apply H2].
  - etrans; [apply H1|apply H2].
  - etrans; [apply H1|apply H2].
  - intros Hr. destruct (ev_half _ _ H1 Hr) as [<- <-]. apply H2. lia.
  - intros Hs. rewrite <-(ev_dead _ _ H1 Hs). apply H2. rewrite Hs in *.
    by destruct (state_ c2); simpl in *; try lia.
  - destruct (ev_pending _ _ H1) as (f1 & E1 & N1), (ev_pending _ _ H2) as (f2 & E2 & N2).
    exists (f1 ++ f2). rewrite E2, E1, <-app_assoc, elem_of_app. split; [done|by intros [?|?]].
Qed.

(** The state with another input buffer, log of reads or clock. *)
Lemma evolves_input c b t l consumed :
  conn_ok c → wf b → l = consumed ++ Peek b →
  evolves c (MkConn (state_ c) (channel_ c) b (output_buffer_ c) t (pending c) (calls c)
               (wire c) (write_shut c) (messages c) l).
Proof.
  intros [] Hb ->. split; try done; [|by exists []; rewrite app_nil_r; split; [|apply not_elem_of_nil]].
  split; try done. by exists consumed.
Qed.

Lemma evolves_queue c f : conn_ok c → f ≠ FEstablished → evolves c (QueueInLoop c f).
Proof.
  intros [] Hf. split; try done. exists [f]. split; [done|].
  intros Hin%list_elem_of_singleton. congruence.
Qed.

Lemma evolves_call c x :
  conn_ok c → rank (state_ c) ≠ 0 → x ≠ CClose → x ≠ CConnection true →
  evolves c (log_call c x).
Proof.
  intros Hok Hr H1 H2. split; try done; cbn.
  - destruct Hok. split; cbn; try done.
    + intros _ Hc. destruct (ok_first0 Hr Hc) as (l & -> & Hl). exists (l ++ [x]).
      split; [done|]. rewrite elem_of_app, list_elem_of_singleton. naive_solver.
    + unfold closes in *. cbn. rewrite list.filter_app, length_app, filter_cons_False by done.
      simpl. lia.
  - by apply prefix_app_r.
  - exists []. by rewrite app_nil_r; split; [|apply not_elem_of_nil].
Qed.

Lemma conn_writing c :
  conn_ok c → up c = true → IsWriting (channel_ c) = blocked c.
Proof.
  intros Hok Hu. pose proof (ok_channel _ Hok) as Hc. rewrite Hu in Hc.
  by destruct (channel_flags _ _ _ Hc) as (_ & -> & _).
Qed.

Lemma blocked_Peek c : wf (output_buffer_ c) → blocked c = false ↔ Peek (output_buffer_ c) = [].
Proof.
  intros Hwf. unfold blocked. rewrite negb_false_iff, Nat.eqb_eq, <-length_Peek by done.
  by rewrite length_zero_iff_nil.
Qed.

(** ** Preservation *)

Lemma first_call_app l l' :
  (∃ l0, l = CConnection true :: l0 ∧ CConnection true ∉ l0) → CConnection true ∉ l' →
  ∃ l0, l ++ l' = CConnection true :: l0 ∧ CConnection true ∉ l0.
Proof. intros (l0 & -> & Hl) Hl'. exists (l0 ++ l'). rewrite elem_of_app. naive_solver. Qed.

Lemma no_functors c : ∃ fs, pending c = pending c ++ fs ∧ FEstablished ∉ fs.
Proof. exists []. rewrite app_nil_r. split; [done|apply not_elem_of_nil]. Qed.

Lemma evolves_closed c (b : bool) :
  conn_ok c → rank (state_ c) ≠ 0 → state_ c ≠ kDisconnected →
  evolves c (MkConn kDisconnected (DisableAll (channel_ c)) (input_buffer_ c) (output_buffer_ c)
    (last_read_tick_ c) (pending c) (calls c ++ (if b then [CClose] else [])) (wire c)
    (write_shut c) (messages c) (arrived c)).
Proof.
  intros Hok Hr Hd. destruct Hok. split; cbn; try done; try lia.
  - split; cbn; try done.
    + by apply (Enable_is _ _ _ ok_channel0).
    + intros Hs. destruct (ok_shut0 Hs). split; [lia|done].
    + intros _ Hc. apply first_call_app; [by apply ok_first0|]. destruct b; set_solver.
    + unfold closes in *. cbn. rewrite list.filter_app, length_app.
      rewrite decide_False in ok_closes0 by done. case_decide; [|done].
      destruct b; simpl; rewrite ?filter_cons_True, ?filter_nil by done; simpl; lia.
  - destruct (state_ c); simpl; lia.
  - by apply prefix_app_r.
  - apply no_functors.
Qed.

Lemma HandleClose_ok c : conn_ok c → rank (state_ c) ≠ 0 → evolves c (HandleClose cb c).
Proof.
  intros Hok Hr. unfold HandleClose.
  destruct (decide (state_ c = kDisconnected)) as [E|Hd].
  { rewrite E. by apply evolves_refl. }
  pose proof (evolves_closed c (close_callback_ cb) Hok Hr Hd) as He.
  destruct (state_ c); try done; destruct (close_callback_ cb); by rewrite ?app_nil_r in He.
Qed.

Lemma ShutdownInLoop_ok c : conn_ok c → evolves c (ShutdownInLoop c).
Proof.
  intros Hok. unfold ShutdownInLoop. destruct (state_ c) eqn:E; try by apply evolves_refl.
  assert (up c = true) as Hu by (unfold up; by rewrite E). cbn [set_state channel_].
  rewrite conn_writing by done. pose proof (ok_shut _ Hok) as Hs. rewrite E in Hs.
  assert (∀ b, (b = true → Peek (output_buffer_ c) = []) → evolves c
    (MkConn kDisconnecting (channel_ c) (input_buffer_ c) (output_buffer_ c) (last_read_tick_ c)
       (pending c) (calls c) (wire c) b (messages c) (arrived c))) as He.
  { intros b Hb. destruct Hok. rewrite Hu in ok_channel0.
    split; cbn; rewrite ?E; cbn; try done; try lia; [|apply no_functors].
    split; cbn; rewrite ?E in *; cbn in *; try done; try lia. { by intros ?%Hb. } by intros _; apply ok_first0. }
  destruct (blocked c) eqn:Hb; apply He.
  - intros Hw. destruct (Hs Hw). simpl in *. lia.
  - intros _. apply blocked_Peek; [apply Hok|done].
Qed.

Lemma ForceCloseInLoop_ok c : conn_ok c → evolves c (ForceCloseInLoop cb c).
Proof.
  intros Hok. unfold ForceCloseInLoop. destruct (state_ c) eqn:E; try by apply evolves_refl.
  all: apply HandleClose_ok; [done|by rewrite E].
Qed.

(** Bytes [w] go out, messages [ms] come in. *)
Lemma evolves_io c ch b w fs ms :
  conn_ok c → up c = true → (ms = [] ∨ state_ c = kConnected) →
  wf b → w ++ Peek b = Peek (output_buffer_ c) ++ concat ms →
  channel_is ch true (negb (ReadableBytes b =? 0)) → FEstablished ∉ fs →
  evolves c (MkConn (state_ c) ch (input_buffer_ c) b (last_read_tick_ c) (pending c ++ fs)
               (calls c) (wire c ++ w) (write_shut c) (messages c ++ ms) (arrived c)).
Proof.
  intros Hok Hu Hms Hb Hw Hch Hfs.
  assert (rank (state_ c) ≠ 0) as Hr by (unfold up in Hu; by destruct (state_ c)).
  destruct Hok. split; cbn; try done; try by apply prefix_app_r.
  - split; cbn; try done.
    + rewrite <-app_assoc, Hw, app_assoc, ok_stream0. by rewrite concat_app.
    + change (channel_is ch (up c) (up c && negb (ReadableBytes b =? 0))). by rewrite Hu.
    + intros Hs. destruct (ok_shut0 Hs) as [Hk Hp]. split; [done|].
      destruct Hms as [->|E]; [|rewrite E in Hk; simpl in Hk; lia].
      rewrite Hp in Hw. by apply app_eq_nil in Hw as [_ ?].
  - intros Hk. destruct Hms as [->|E]; [by rewrite app_nil_r|rewrite E in Hk; simpl in Hk; lia].
  - intros E. unfold up in Hu. by rewrite E in Hu.
  - by exists fs.
Qed.

Lemma BufferRest_spec c data :
  wf (output_buffer_ c) → channel_is (channel_ c) true (blocked c) → data ≠ [] →
  ∃ ch b fs,
    BufferRest cb c data =
      Some (MkConn (state_ c) ch (input_buffer_ c) b (last_read_tick_ c) (pending c ++ fs)
              (calls c) (wire c) (write_shut c) (messages c) (arrived c)) ∧
    wf b ∧ Peek b = Peek (output_buffer_ c) ++ data ∧
    channel_is ch true (negb (ReadableBytes b =? 0)) ∧ FEstablished ∉ fs.
Proof.
  intros Hwf Hch Hd. destruct (Append_spec (output_buffer_ c) data Hwf) as (b & Eb & Hb & Hpk).
  assert (negb (ReadableBytes b =? 0) = true) as Hne.
  { rewrite <-length_Peek, Hpk, length_app by done. destruct data; [done|]. simpl.
    by rewrite Nat.add_succ_r. }
  unfold BufferRest. destruct (length data =? 0) eqn:E; [destruct data; naive_solver|].
  set (high := _ && _ && _).
  set (ch := if IsWriting (channel_ c) then channel_ c else EnableWriting (channel_ c)).
  exists ch, b, (if high then [FHighWaterMark (ReadableBytes (output_buffer_ c) + length data)] else []).
  split_and!; [|done|done| |by destruct high; set_solver].
  - unfold QueueHighWaterMarkCallback, QueueInLoop, ch, high.
    destruct (high_water_mark_callback_ cb), (_ <? _), (_ <=? _); cbn -[Append];
      rewrite Eb; cbn; destruct (IsWriting (channel_ c)); by rewrite ?app_nil_r.
  - rewrite Hne. unfold ch. destruct (channel_flags _ _ _ Hch) as (_ & -> & _).
    destruct (blocked c); [done|]. by apply (Enable_is _ _ _ Hch).
Qed.

Lemma connected_up c : state_ c = kConnected → up c = true.
Proof. intros E. unfold up. by rewrite E. Qed.

Lemma channel_up c :
  conn_ok c → up c = true → channel_is (channel_ c) true (blocked c).
Proof. intros Hok Hu. pose proof (ok_channel _ Hok) as Hc. by rewrite Hu in Hc. Qed.

(** A message is buffered, [w] of it having gone out. *)
Lemma buffered_ok c w data :
  conn_ok c → state_ c = kConnected → (w = [] ∨ blocked c = false) →
  ∃ c', BufferRest cb (log_message (transmit c w) (w ++ data)) data = Some c' ∧ evolves c c'.
Proof.
  intros Hok Hs Hw. pose proof (connected_up c Hs) as Hu. pose proof (channel_up c Hok Hu) as Hch.
  assert (Peek (output_buffer_ c) = [] ∨ w = []) as Hp.
  { destruct Hw as [?|Hb%blocked_Peek]; [by right|by left|apply Hok]. }
  destruct (decide (data = [])) as [->|Hd].
  { eexists; split; [done|].
    pose proof (evolves_io c (channel_ c) (output_buffer_ c) w [] [w ++ []] Hok Hu) as He.
    rewrite (app_nil_r (pending c)) in He. apply He; try done;
      try first [by right|apply Hok|set_solver].
    simpl. rewrite !app_nil_r. destruct Hp as [->| ->]; by rewrite ?app_nil_r. }
  destruct (BufferRest_spec (log_message (transmit c w) (w ++ data)) data)
    as (ch & b & fs & -> & Hb & Hpk & Hch' & Hfs); [apply Hok|done|done|]. cbn in Hpk |- *.
  eexists; split; [done|]. apply (evolves_io c ch b w fs [w ++ data]); try done; [by right|].
  simpl. rewrite app_nil_r, Hpk. by destruct Hp as [->| ->].
Qed.

Lemma transmit_nil c : transmit c [] = c.
Proof. unfold transmit. rewrite app_nil_r. by destruct c. Qed.

Lemma SendInLoop_ok c data r :
  conn_ok c → ∃ c', SendInLoop cb c data r = Some c' ∧ evolves c c'.
Proof.
  intros Hok. unfold SendInLoop, IsConnected. case_bool_decide as Hs; simpl;
    [|eexists; split; [done|by apply evolves_refl]].
  pose proof (connected_up c Hs) as Hu. rewrite conn_writing by done.
  assert (∃ c', BufferRest cb (log_message c data) data = Some c' ∧ evolves c c') as Hbuf.
  { pose proof (buffered_ok c [] data Hok Hs (or_introl eq_refl)) as Hb.
    by rewrite transmit_nil in Hb. }
  destruct (blocked c) eqn:Hb; [done|]. unfold blocked in Hb. apply negb_false_iff in Hb.
  rewrite Hb. simpl. assert (blocked c = false) as Hnb by (unfold blocked; by rewrite Hb).
  destruct r as [e|n]; simpl.
  { destruct (transient e); [done|]. eexists; split; [done|]. apply HandleClose_ok; [done|].
    by rewrite Hs. }
  set (m := Nat.min n (length data)). destruct (length data - m =? 0) eqn:Em.
  - apply Nat.eqb_eq in Em. rewrite take_ge by lia.
    eexists; split; [done|]. pose proof (proj1 (blocked_Peek c (ok_output _ Hok)) Hnb) as Hp.
    pose proof (evolves_io c (channel_ c) (output_buffer_ c) data
      (if write_complete_callback_ cb then [FWriteComplete] else []) [data] Hok Hu) as He.
    unfold QueueWriteCompleteCallback, QueueInLoop, set_pending.
    destruct (write_complete_callback_ cb); cbn in *; rewrite ?app_nil_r in He; apply He;
      first [by right|apply Hok|by rewrite Hp, app_nil_r|by apply channel_up|set_solver].
  - apply Nat.eqb_neq in Em.
    pose proof (buffered_ok c (take m data) (drop m data) Hok Hs (or_intror Hnb)) as Hr.
    by rewrite take_drop in Hr.
Qed.

Lemma act_ok c a : conn_ok c → ∃ c', act cb c a = Some c' ∧ evolves c c'.
Proof.
  intros Hok. destruct a as [data r| | |len]; simpl.
  - destruct (length data =? 0) eqn:E; [eexists; split; [done|by apply evolves_refl]|].
    by apply SendInLoop_ok.
  - eexists; split; [done|]. by apply ShutdownInLoop_ok.
  - eexists; split; [done|]. by apply ForceCloseInLoop_ok.
  - destruct (Retrieve_spec (input_buffer_ c)
      (Nat.min len (ReadableBytes (input_buffer_ c)))) as (b & -> & Hb & Hpk); [apply Hok|lia|].
    eexists; split; [done|]. destruct (ok_read _ Hok) as (l & Hl).
    eapply evolves_input; [done|done|]. rewrite Hl, Hpk.
    rewrite <-(take_drop (Nat.min len (ReadableBytes (input_buffer_ c))) (Peek (input_buffer_ c))) at 1.
    by rewrite app_assoc.
Qed.

Lemma acts_ok c l : conn_ok c → ∃ c', acts cb c l = Some c' ∧ evolves c c'.
Proof.
  unfold acts. revert c. induction l as [|a l IH]; intros c Hok; simpl.
  { eexists; split; [done|by apply evolves_refl]. }
  destruct (act_ok c a Hok) as (c1 & -> & H1). simpl.
  destruct (IH c1) as (c2 & E & H2); [apply H1|]. exists c2.
  split; [done|by eapply evolves_trans].
Qed.

Lemma HandleRead_ok c r t l :
  conn_ok c → rank (state_ c) ≠ 0 → ∃ c', HandleRead cb c r t l = Some c' ∧ evolves c c'.
Proof.
  intros Hok Hr. unfold HandleRead. destruct (ok_read _ Hok) as (k & Hk).
  destruct r as [e|data].
  - simpl. set (c1 := log_arrived (set_input c (input_buffer_ c)) []).
    assert (evolves c c1) as H1.
    { apply (evolves_input c (input_buffer_ c) (last_read_tick_ c) (arrived c ++ []) k);
        [done|apply Hok|by rewrite app_nil_r]. }
    eexists; split; [done|]. unfold HandleError.
    destruct (transient e), (e =? ECONNRESET)%Z; try done;
      (eapply evolves_trans; [done|]; by apply HandleClose_ok; [apply H1|]).
  - destruct (ReadFd_spec (input_buffer_ c) data) as (b & E & Hb & Hpk); [apply Hok|].
    rewrite E. cbn [mbind option_bind].
    assert (∀ t', evolves c (MkConn (state_ c) (channel_ c) b (output_buffer_ c) t' (pending c)
      (calls c) (wire c) (write_shut c) (messages c) (arrived c ++ data))) as H1.
    { intros t'. eapply (evolves_input _ _ _ _ k); [done..|]. by rewrite Hk, Hpk, <-app_assoc. }
    destruct (length data) as [|n].
    + eexists; split; [done|]. eapply evolves_trans; [apply (H1 (last_read_tick_ c))|].
      by apply HandleClose_ok; [apply (H1 (last_read_tick_ c))|].
    + destruct (message_callback_ cb); [|eexists; split; [done|apply (H1 t)]].
      assert (evolves c (log_call (RefreshLastReadTime (log_arrived (set_input c b) data) t) CMessage))
        as H2.
      { eapply evolves_trans; [apply (H1 t)|]. by apply evolves_call; [apply (H1 t)|..]. }
      destruct (acts_ok _ l (ev_ok _ _ H2)) as (c' & -> & H3). exists c'.
      split; [done|by eapply evolves_trans].
Qed.

(** The end of [HandleWrite]. *)
Lemma finish_ok c c' :
  evolves c c' →
  evolves c (if decide (state_ c' = kDisconnecting) then ShutdownInLoop c' else c').
Proof.
  intros H. case_decide; [|done]. eapply evolves_trans; [done|]. apply ShutdownInLoop_ok, H.
Qed.

Lemma HandleWrite_ok c r :
  conn_ok c → ∃ c', HandleWrite cb c r = Some c' ∧ evolves c c'.
Proof.
  intros Hok. unfold HandleWrite. pose proof (ok_channel _ Hok) as Hch.
  destruct (channel_flags _ _ _ Hch) as (_ & Hw & _). rewrite Hw.
  destruct (up c) eqn:Hu; simpl; [|eexists; split; [done|by apply evolves_refl]].
  unfold blocked. destruct (ReadableBytes (output_buffer_ c) =? 0) eqn:Ez; simpl.
  { eexists; split; [done|by apply evolves_refl]. }
  pose proof (length_Peek _ (ok_output _ Hok)) as Hlen. apply Nat.eqb_neq in Ez.
  destruct r as [e|n]; simpl.
  { eexists; split; [done|]. destruct (transient e); [by apply evolves_refl|].
    apply HandleClose_ok; [done|]. unfold up in Hu. by destruct (state_ c). }
  set (m := Nat.min n (length (Peek (output_buffer_ c)))).
  destruct m as [|m'] eqn:Em; [eexists; split; [done|by apply evolves_refl]|].
  rewrite <-Em. destruct (Retrieve_spec (output_buffer_ c) m) as (b & -> & Hb & Hpk);
    [apply Hok|lia|]. simpl. eexists; split; [done|].
  assert (∀ ch fs, channel_is ch true (negb (ReadableBytes b =? 0)) → FEstablished ∉ fs →
    evolves c (MkConn (state_ c) ch (input_buffer_ c) b (last_read_tick_ c) (pending c ++ fs)
      (calls c) (wire c ++ take m (Peek (output_buffer_ c))) (write_shut c) (messages c)
      (arrived c))) as He.
  { intros ch fs Hc Hfs.
    pose proof (evolves_io c ch b (take m (Peek (output_buffer_ c))) fs [] Hok Hu) as He.
    rewrite (app_nil_r (messages c)) in He. apply He; [by left|done| |done|done].
    simpl. by rewrite Hpk, take_drop, app_nil_r. }
  pose proof (channel_up c Hok Hu) as Hc. unfold blocked in Hc.
  apply Nat.eqb_neq in Ez. rewrite Ez in Hc. simpl in Hc.
  destruct (ReadableBytes b =? 0) eqn:Eb; simpl in *.
  - apply finish_ok. unfold QueueWriteCompleteCallback, QueueInLoop, set_pending.
    destruct (write_complete_callback_ cb); cbn.
    + apply He; [by apply (Enable_is _ _ _ Hc)|set_solver].
    + assert (channel_is (DisableWriting (channel_ c)) true false) as Hc'
        by by apply (Enable_is _ _ _ Hc).
      pose proof (He _ [] Hc' (not_elem_of_nil _)) as H0. by rewrite app_nil_r in H0.
  - pose proof (He _ [] Hc (not_elem_of_nil _)) as H0. by rewrite app_nil_r in H0.
Qed.

Lemma callback_ok c k a :
  conn_ok c → rank (state_ c) ≠ 0 → ∃ c', callback cb c k a = Some c' ∧ evolves c c'.
Proof.
  intros Hok Hr. destruct k; simpl.
  1-2: eexists; split; [done|by apply HandleClose_ok].
  - by apply HandleRead_ok.
  - by apply HandleWrite_ok.
Qed.

Lemma callbacks_ok c ks a :
  conn_ok c → rank (state_ c) ≠ 0 →
  ∃ c', foldl (λ c k, c ← c; callback cb c k a) (Some c) ks = Some c' ∧ evolves c c'.
Proof.
  revert c. induction ks as [|k ks IH]; intros c Hok Hr; simpl.
  { eexists; split; [done|by apply evolves_refl]. }
  destruct (callback_ok c k a Hok Hr) as (c1 & -> & H1). simpl.
  destruct (IH c1) as (c2 & E & H2); [apply H1| |].
  { pose proof (ev_rank _ _ H1). lia. }
  exists c2. split; [done|by eapply evolves_trans].
Qed.

Lemma evolves_channel c ch :
  conn_ok c → rank (state_ c) ≠ 0 → channel_is ch (up c) (up c && blocked c) →
  evolves c (set_channel c ch).
Proof.
  intros [] Hr Hch. split; try done; apply (no_functors c).
Qed.

Lemma ConnectDestroyed_ok c l :
  conn_ok c → rank (state_ c) ≠ 0 →
  ∃ c', ConnectDestroyed cb c l = Some c' ∧ evolves c c' ∧ state_ c' = kDisconnected.
Proof.
  intros Hok Hr. unfold ConnectDestroyed. set (c1 := match state_ c with kConnecting => _ | _ => _ end).
  assert (evolves c c1 ∧ state_ c1 = kDisconnected) as [H1 E1].
  { destruct (decide (state_ c = kDisconnected)) as [E|Hd].
    { unfold c1. rewrite E. split; [by apply evolves_refl|done]. }
    pose proof (evolves_closed c false Hok Hr Hd) as He. rewrite app_nil_r in He.
    unfold c1. by destruct (state_ c). }
  assert (∃ c2, (if connection_callback_ cb then acts cb (log_call c1 (CConnection (IsConnected c1))) l
    else Some c1) = Some c2 ∧ evolves c1 c2) as (c2 & -> & H2).
  { destruct (connection_callback_ cb); [|eexists; split; [done|apply evolves_refl, H1]].
    assert (evolves c1 (log_call c1 (CConnection (IsConnected c1)))) as Hl.
    { apply evolves_call; [apply H1|by rewrite E1|done|]. unfold IsConnected. by rewrite E1. }
    destruct (acts_ok _ l (ev_ok _ _ Hl)) as (c2 & -> & H2).
    exists c2. split; [done|by eapply evolves_trans]. }
  assert (state_ c2 = kDisconnected) as E2.
  { pose proof (ev_rank _ _ H2) as Hk. rewrite E1 in Hk. by destruct (state_ c2); simpl in Hk; try lia. }
  simpl. eexists; split; [done|]. split; [|done].
  eapply evolves_trans; [done|]. eapply evolves_trans; [done|].
  pose proof (ok_channel _ (ev_ok _ _ H2)) as Hch. assert (up c2 = false) as Hu by (unfold up; by rewrite E2).
  apply evolves_channel; [apply H2|by rewrite E2|]. rewrite Hu in *. simpl in *.
  destruct (RemoveChannel_is _ _ _ Hch) as (ch & -> & ? & ? & ? & Hev).
  destruct Hch as (He & _). rewrite <-Hev in He. by split_and!.
Qed.

Lemma ConnectEstablished_ok c t l :
  conn_ok c → state_ c = kConnecting →
  ∃ c', ConnectEstablished cb c t l = Some c' ∧ conn_ok c' ∧ rank (state_ c') ≠ 0 ∧
    (∃ fs, pending c' = pending c ++ fs ∧ FEstablished ∉ fs) ∧
    messages c `prefix_of` messages c' ∧ wire c `prefix_of` wire c' ∧ calls c `prefix_of` calls c'.
Proof.
  intros Hok Hs. unfold ConnectEstablished. cbn [set_state RefreshLastReadTime channel_].
  set (c1 := set_channel _ _). destruct Hok. assert (up c = false) as Hu by (unfold up; by rewrite Hs).
  rewrite Hs in *. cbn in *. destruct (ok_fresh0 eq_refl) as [Hc Hm]. rewrite Hu in ok_channel0.
  simpl in *. assert (Peek (output_buffer_ c) = [] ∧ wire c = []) as [Hp Hwire].
  { rewrite Hm in ok_stream0. apply app_eq_nil in ok_stream0. tauto. }
  set (c2 := if connection_callback_ cb then log_call c1 (CConnection (IsConnected c1)) else c1).
  assert (conn_ok c2) as H2.
  { assert (channel_is (EnableReading (Tie (channel_ c))) true false) as Hch.
    { apply (Enable_is (Tie (channel_ c)) false false). by destruct ok_channel0. }
    assert (blocked c = false) as Hb by by apply blocked_Peek.
    assert (write_shut c = false) as Hw.
    { destruct (write_shut c); [|done]. destruct (ok_shut0 eq_refl). lia. }
    unfold c2, c1, IsConnected. cbn. rewrite bool_decide_true by done.
    split; destruct (connection_callback_ cb); cbn; unfold closes; cbn; rewrite ?Hc, ?Hw;
      unfold blocked in *; cbn in *; rewrite ?Hb; try done; try lia.
    all: try (intros _ _; exists []; split; [done|apply not_elem_of_nil]).
    all: rewrite Hc in *; simpl in *; try lia. }
  assert (∃ c', (if connection_callback_ cb then acts cb (log_call c1 (CConnection (IsConnected c1))) l
    else Some c1) = Some c' ∧ evolves c2 c') as (c' & -> & He).
  { unfold c2 in *. destruct (connection_callback_ cb); [by apply acts_ok|].
    eexists; split; [done|by apply evolves_refl]. }
  assert (rank (state_ c2) ≠ 0 ∧ pending c2 = pending c) as [Hr2 Hp2]
    by (unfold c2, c1; by destruct (connection_callback_ cb)).
  exists c'. split; [done|]. split; [apply He|]. split; [pose proof (ev_rank _ _ He); lia|].
  split; [rewrite <-Hp2; apply He|]. rewrite Hc, Hm, Hwire. split_and!; apply prefix_nil.
Qed.

(** ** Runs *)

(** The connection is established by the first functor and never again. *)
Definition start_ok (c : Conn) : Prop :=
  if decide (state_ c = kConnecting) then ∃ fs, pending c = FEstablished :: fs ∧ FEstablished ∉ fs
  else FEstablished ∉ pending c.

Record later (c c' : Conn) : Prop := {
  la_rank : rank (state_ c) ≤ rank (state_ c');
  la_messages : messages c `prefix_of` messages c';
  la_wire : wire c `prefix_of` wire c';
  la_calls : calls c `prefix_of` calls c';
  la_half : 2 ≤ rank (state_ c) → messages c' = messages c ∧ write_shut c' = write_shut c;
  la_dead : state_ c = kDisconnected → wire c' = wire c;
}.

Lemma later_refl c : later c c.
Proof. by split. Qed.
Lemma later_trans c1 c2 c3 : later c1 c2 → later c2 c3 → later c1 c3.
Proof.
  intros H1 H2. pose proof (la_rank _ _ H1). pose proof (la_rank _ _ H2). split.
  - lia.
  - etrans; [apply H1|apply H2].
  - etrans; [apply H1|apply H2].
  - etrans; [apply H1|apply H2].
  - intros Hr. destruct (la_half _ _ H1 Hr) as [<- <-]. apply H2. lia.
  - intros Hs. rewrite <-(la_dead _ _ H1 Hs). apply H2. rewrite Hs in *.
    by destruct (state_ c2); simpl in *; try lia.
Qed.

Lemma evolves_later c c' : evolves c c' → later c c'.
Proof. intros []. by split. Qed.

Lemma rank_zero s : rank s = 0 ↔ s = kConnecting.
Proof. by destruct s. Qed.

Lemma evolves_start c c' : start_ok c → evolves c c' → start_ok c'.
Proof.
  intros Hs He. destruct (ev_pending _ _ He) as (fs & E & Hfs). unfold start_ok in *.
  pose proof (ev_start _ _ He) as H0. pose proof (ev_rank _ _ He) as Hr.
  rewrite !rank_zero in H0. destruct (decide (state_ c = kConnecting)) as [Ec|Ec].
  - rewrite decide_True by auto. destruct Hs as (gs & E' & Hgs). exists (gs ++ fs).
    rewrite E, E'. split; [done|set_solver].
  - rewrite decide_False; [rewrite E; set_solver|]. rewrite <-rank_zero in Ec |- *. lia.
Qed.

Lemma conn_ok_pending c fs : conn_ok c → conn_ok (set_pending c fs).
Proof. intros []. by split. Qed.

Lemma tcp_functor_ok c f a :
  conn_ok c → rank (state_ c) ≠ 0 → f ≠ FEstablished →
  ∃ c', run_functor cb c f a = Some c' ∧ evolves c c'.
Proof.
  intros Hok Hr Hf.
  assert (∀ x, x ≠ CClose → x ≠ CConnection true →
    ∃ c', acts cb (log_call c x) (user a) = Some c' ∧ evolves c c') as Hc.
  { intros x ? ?. assert (evolves c (log_call c x)) as H1 by by apply evolves_call.
    destruct (acts_ok _ (user a) (ev_ok _ _ H1)) as (c' & E & H2).
    exists c'. split; [done|by eapply evolves_trans]. }
  destruct f as [payload| | | |n| |]; simpl; try done.
  - by apply SendInLoop_ok.
  - eexists; split; [done|by apply ShutdownInLoop_ok].
  - eexists; split; [done|by apply ForceCloseInLoop_ok].
  - by apply Hc.
  - by apply Hc.
  - destruct (ConnectDestroyed_ok c (user a) Hok Hr) as (c' & E & He & _). by exists c'.
Qed.

Lemma tcp_step_ok c ev :
  conn_ok c → start_ok c →
  ∃ c', conn_step cb c ev = Some c' ∧ conn_ok c' ∧ start_ok c' ∧ later c c'.
Proof.
  intros Hok Hst.
  assert (∀ r, (∃ c', r = Some c' ∧ evolves c c') →
    ∃ c', r = Some c' ∧ conn_ok c' ∧ start_ok c' ∧ later c c') as Hev.
  { intros r (c' & -> & He). exists c'. split_and!; [done|apply He|by eapply evolves_start|].
    by apply evolves_later. }
  destruct ev as [a|a|a|[] a|revents a]; simpl.
  - apply Hev. eexists; split; [done|]. unfold post.
    destruct a as [data r| | |]; [destruct (length data =? 0)|..];
      first [by apply evolves_refl|by apply evolves_queue].
  - by apply Hev, act_ok.
  - destruct (pending c) as [|f fs] eqn:Ep; [apply Hev; eexists; split; [done|by apply evolves_refl]|].
    pose proof (conn_ok_pending c fs Hok) as Hok'. unfold start_ok in Hst.
    destruct (decide (state_ c = kConnecting)) as [Ec|Ec].
    + destruct Hst as (gs & E & Hgs). rewrite Ep in E. injection E as -> ->.
      destruct (ConnectEstablished_ok (set_pending c gs) (now a) (user a))
        as (c' & E & Hc' & Hr' & (hs & Hp & Hhs) & ? & ? & ?); [done..|].
      exists c'. split_and!; [done|done| |].
      * unfold start_ok. rewrite decide_False by by rewrite <-rank_zero. rewrite Hp. set_solver.
      * split; try done; rewrite ?Ec; simpl; try lia. done.
    + rewrite Ep in Hst. assert (rank (state_ c) ≠ 0) as Hr by by rewrite rank_zero.
      destruct (tcp_functor_ok (set_pending c fs) f a Hok' Hr) as (c' & E & He); [set_solver|].
      exists c'. split_and!; [done|apply He| |].
      * eapply evolves_start; [|done]. unfold start_ok. cbn. rewrite decide_False by done. set_solver.
      * apply evolves_later in He. destruct He. by split.
  - apply Hev. eexists; split; [done|by apply evolves_queue].
  - case_decide as Ec; apply Hev; [eexists; split; [done|by apply evolves_refl]|].
    destruct (ConnectDestroyed_ok c (user a) Hok) as (c' & E & He & _); [by rewrite rank_zero|by exists c'].
  - destruct (registered (channel_ c)) eqn:Er; apply Hev.
    + apply callbacks_ok; [done|by apply Hok].
    + eexists; split; [done|by apply evolves_refl].
Qed.

Lemma tcp_run_ok c evs :
  conn_ok c → start_ok c →
  ∃ c', conn_run cb c evs = Some c' ∧ conn_ok c' ∧ start_ok c' ∧ later c c'.
Proof.
  unfold conn_run. revert c. induction evs as [|ev evs IH]; intros c Hok Hst; simpl.
  { exists c. split_and!; try done. }
  destruct (tcp_step_ok c ev Hok Hst) as (c1 & -> & H1 & H2 & H3). simpl.
  destruct (IH c1 H1 H2) as (c2 & -> & ? & ? & ?). exists c2.
  split_and!; try done. by eapply later_trans.
Qed.

Lemma NewConn_ok t : conn_ok (NewConn t) ∧ start_ok (NewConn t).
Proof.
  split; [|by exists []; split; [|apply not_elem_of_nil]].
  split; cbn; try done; try apply wf_NewBuffer.
  - by exists [].
Qed.

Lemma conn_reachable t evs :
  ∃ c, conn_run cb (NewConn t) evs = Some c ∧ conn_ok c ∧ start_ok c ∧ later (NewConn t) c.
Proof. destruct (NewConn_ok t). by apply tcp_run_ok. Qed.

End Invariant.

(** What was sent and what waits are the accepted messages. *)
Lemma connection_invariant cb t evs c :
  conn_run cb (NewConn t) evs = Some c →
  wire c ++ Peek (output_buffer_ c) = concat (messages c).
Proof.
  intros Hr. destruct (conn_reachable cb t evs) as (c0 & Hr0 & Hok & _).
  rewrite Hr in Hr0. injection Hr0 as <-. apply Hok.
Qed.

(** ** Theorems *)

(** C6: the byte stream of a connection.  Whatever the interleaving of calls from
    other threads, calls and callbacks on the loop thread, socket events (stale
    ones included) and answers of the socket: no buffer assertion fails; what was
    sent followed by the output buffer is the concatenation of the accepted
    messages, so messages go out whole, once and in the order in which the loop
    accepted them; the kernel watches the descriptor exactly as long as the
    connection is up, for writing exactly when output waits; what was read is
    what user code consumed followed by the input buffer; messages are never
    taken back, and nothing is sent once the connection is closed. *)
Theorem connection_stream cb t evs evs' :
  ∃ c c', conn_run cb (NewConn t) evs = Some c ∧ conn_run cb c evs' = Some c' ∧
    wire c ++ Peek (output_buffer_ c) = concat (messages c) ∧
    interest (channel_ c) = (if up c then Some (mask true (blocked c)) else None) ∧
    (∃ consumed, arrived c = consumed ++ Peek (input_buffer_ c)) ∧
    messages c `prefix_of` messages c' ∧ wire c `prefix_of` wire c' ∧
    (state_ c = kDisconnected →
      state_ c' = kDisconnected ∧ wire c' = wire c ∧ messages c' = messages c).
Proof.
  destruct (conn_reachable cb t evs) as (c & Hr & Hok & Hst & _).
  destruct (tcp_run_ok cb c evs' Hok Hst) as (c' & Hr' & Hok' & _ & Hl).
  exists c, c'. split_and!; try done; try apply Hok; try apply Hl.
  - destruct (ok_channel _ _ Hok) as (_ & _ & ->). by destruct (up c), (blocked c).
  - intros E. split_and!; [|by apply Hl|apply Hl; rewrite E; simpl; lia].
    pose proof (la_rank _ _ Hl) as Hk. rewrite E in Hk. by destruct (state_ c'); simpl in Hk; try lia.
Qed.

(** C7: the life of a connection.  The connection callback reports the connection
    up exactly once, before every other callback, and the close callback is
    called at most once, and only for a connection that is closed from then on;
    the states only advance, from connecting to disconnected. *)
Theorem connection_lifecycle cb t evs evs' :
  ∃ c c', conn_run cb (NewConn t) evs = Some c ∧ conn_run cb c evs' = Some c' ∧
    (rank (state_ c) ≤ rank (state_ c')) ∧ calls c `prefix_of` calls c' ∧
    (state_ c = kConnecting → calls c = [] ∧ messages c = []) ∧
    (state_ c ≠ kConnecting → connection_callback_ cb = true →
      ∃ l, calls c = CConnection true :: l ∧ CConnection true ∉ l) ∧
    closes c ≤ 1 ∧ (closes c = 1 → state_ c' = kDisconnected).
Proof.
  destruct (conn_reachable cb t evs) as (c & Hr & Hok & Hst & _).
  destruct (tcp_run_ok cb c evs' Hok Hst) as (c' & Hr' & Hok' & _ & Hl).
  pose proof (ok_closes _ _ Hok) as Hc. pose proof (la_rank _ _ Hl) as Hk.
  exists c, c'. split_and!; try done; try apply Hl.
  - intros E. apply Hok. by rewrite E.
  - intros E. apply Hok. by rewrite rank_zero.
  - case_decide; lia.
  - intros E. case_decide as Hd; [|lia]. rewrite Hd in Hk. by destruct (state_ c'); simpl in Hk; try lia.
Qed.

(** what [Shutdown] does, on every continuation.  No message is accepted any
    more.  If no output waits at that moment, the sending side is shut down, after
    all accepted messages went out.  If output waits, the sending side is never
    shut down, also not when the output has drained: [HandleWrite] then calls
    [ShutdownInLoop], which returns at once because the state is not
    [kConnected] any more. *)
Theorem connection_half_close cb t evs c evs' :
  conn_run cb (NewConn t) evs = Some c → state_ c = kConnected →
  ∃ c', conn_run cb (ShutdownInLoop c) evs' = Some c' ∧ messages c' = messages c ∧
    write_shut c' = bool_decide (Peek (output_buffer_ c) = []) ∧
    (write_shut c' = true → wire c' = concat (messages c')).
Proof.
  intros Hr Hs. destruct (conn_reachable cb t evs) as (c0 & Hr0 & Hok & Hst & _).
  rewrite Hr in Hr0. injection Hr0 as <-.
  pose proof (ShutdownInLoop_ok cb c Hok) as He. pose proof (evolves_start cb _ _ Hst He) as Hst'.
  destruct (tcp_run_ok cb _ evs' (ev_ok _ _ _ He) Hst') as (c' & Hr' & Hok' & _ & Hl).
  exists c'. split; [done|]. pose proof (ok_shut _ _ Hok) as Hsh.
  assert (rank (state_ (ShutdownInLoop c)) = 2 ∧ messages (ShutdownInLoop c) = messages c ∧
    write_shut (ShutdownInLoop c) = bool_decide (Peek (output_buffer_ c) = [])) as (Hk & Hm & Hw).
  { unfold ShutdownInLoop. rewrite Hs. cbn [set_state channel_].
    rewrite (conn_writing cb) by first [done|by apply connected_up].
    destruct (blocked c) eqn:Hb; cbn; (split; [done|]; split; [done|]).
    - rewrite bool_decide_false.
      + destruct (write_shut c); [|done]. destruct Hsh as [Hk _]; [done|].
        rewrite Hs in Hk. simpl in Hk. lia.
      + rewrite <-blocked_Peek by apply Hok. by rewrite Hb.
    - rewrite bool_decide_true; [done|]. apply blocked_Peek; [apply Hok|done]. }
  destruct (la_half _ _ Hl) as [Em Ew]; [lia|]. rewrite Em, Ew, Hm, Hw.
  split_and!; [done..|]. intros Hb. rewrite <-Hw, <-Ew in Hb.
  rewrite <-Hm, <-Em, <-(ok_stream _ _ Hok'). destruct (ok_shut _ _ Hok' Hb) as [_ ->].
  by rewrite app_nil_r.
Qed.

(** A connection on which the socket took one byte of three. *)
Definition sample_callbacks : Callbacks := MkCallbacks true true true false false 0.
Definition quiet : Answers := MkAnswers (SysError EAGAIN) (SysError EAGAIN) 0 [].
Definition sample_events : list Event :=
  [EFunctor quiet; ECall (ASend [x01; x02; x03] (SysOk 1))].
Definition sample_conn : Conn :=
  default (NewConn 0) (conn_run sample_callbacks (NewConn 0) sample_events).
(** The rest goes out. *)
Definition sample_drain : list Event :=
  [EPoll EPOLLOUT (MkAnswers (SysError EAGAIN) (SysOk 2) 0 [])].

Lemma connection_half_close_witness :
  ∃ c', conn_run sample_callbacks (ShutdownInLoop sample_conn) sample_drain = Some c' ∧
    wire c' = [x01; x02; x03] ∧ write_shut c' = false.
Proof.
  destruct (connection_half_close sample_callbacks 0 sample_events sample_conn sample_drain)
    as (c' & Hr & _ & Hw & _); [vm_compute; reflexivity|vm_compute; reflexivity|].
  exists c'. split; [done|]. split; [|rewrite Hw; vm_compute; reflexivity].
  assert (wire <$> conn_run sample_callbacks (ShutdownInLoop sample_conn) sample_drain =
    Some [x01; x02; x03]) as E by (vm_compute; reflexivity).
  rewrite Hr in E. by injection E.
Defined.

(** An error and input reported together: the connection is closed, and then the
    input is still handed to the message callback. *)
Theorem connection_message_after_close :
  calls <$> conn_run sample_callbacks (NewConn 0)
    [EFunctor quiet;
     EPoll (Z.lor EPOLLERR EPOLLIN) (MkAnswers (SysOk [x07]) (SysError EAGAIN) 0 [])] =
  Some [CConnection true; CClose; CMessage].
Proof. vm_compute. reflexivity. Qed.
