(* ===== verification/PacketTransport.v ===== *)
(** * Packets over connections

    Models, of [src/gateway/GatewayServer.cpp], how the gateway sends a packet
    ([SendPacket]) and what it does with input ([HandleMessage], the dispatch of
    [HandlePacket]), and composes the codec, the buffers and the connections: a
    connection is a reliable channel of packets. *)
From Stdlib Require Import ZArith Lia String.
From Stdlib.Strings Require Import Byte.
From stdpp Require Import base list numbers strings.
From S2P Require Import Prelude Buffer Packet ProtocolCodec Channel TcpConnection.

(** ** Operations *)

Section Transport.
Variable max_body_size_ : Z.

(** [SendPacket] up to [connection->Send]: the bytes it sends; [connected] is
    [IsConnected] and [current] the session fence of business responses. *)
Definition SendPacket (current connected : bool) (packet : Packet) : option (list byte) :=
  if negb current then None
  else if negb connected then None
  else
    match Encode max_body_size_ packet (Some (NewBuffer kInitialSize)) with
    | Some (inr output) => fst <$> RetrieveAllAsString output
    | _ => None
    end.

(** What [HandleMessage] does after decoding. *)
Inductive Handled :=
| Waits                                          (* more data is needed *)
| Refuses (error_message : string) (closes : bool)  (* an error packet, then [Shutdown] *)
| Dispatches (ps : list Packet).                 (* [HandlePacket] on each, in order *)

Definition HandleMessage (close_on_decode_error : bool) (b : Buffer) : option (Buffer * Handled) :=
  '(decode_result, b') ← Decode max_body_size_ (Some b);
  b' ← b';
  Some (b', match status decode_result with
            | kNeedMoreData => Waits
            | kOk => Dispatches (packets decode_result)
            | _ => Refuses (error_message decode_result) close_on_decode_error
            end).

(** The handlers of [HandlePacket]. *)
Inductive Handler :=
| Custom | HandleLoginRequest | HandleChatMessage | HandleReceiverChatDeliveryAck
| HandleGroupMessageDeliveryAck | HandleGatewayForwardChatRequest
| HandleGatewayForwardGroupMessageRequest | HandleReadRequest | HandleHistoryRequest
| HandleConversationListRequest | HandleUserProfileRequest | HandleFriendListRequest
| HandleFriendRequestCreateRequest | HandleFriendRequestListRequest
| HandleFriendRequestAcceptRequest | HandleFriendRequestRejectRequest
| HandleGroupControlRequest | HandleGroupMessageSend | HandleFileControlRequest
| HandleHeartbeat | UnsupportedMessageType.

Definition HandlePacket (packet_handler_ : bool) (t : MessageType) : Handler :=
  if packet_handler_ then Custom
  else match t with
  | kLoginRequest => HandleLoginRequest
  | kChatMessage => HandleChatMessage
  | kChatDeliveryAck => HandleReceiverChatDeliveryAck
  | kGroupMessageDeliveryAck => HandleGroupMessageDeliveryAck
  | kGatewayForwardChatRequest => HandleGatewayForwardChatRequest
  | kGatewayForwardGroupMessageRequest => HandleGatewayForwardGroupMessageRequest
  | kReadRequest => HandleReadRequest
  | kHistoryRequest => HandleHistoryRequest
  | kConversationListRequest => HandleConversationListRequest
  | kUserProfileRequest => HandleUserProfileRequest
  | kFriendListRequest => HandleFriendListRequest
  | kFriendRequestCreateRequest => HandleFriendRequestCreateRequest
  | kFriendRequestListRequest => HandleFriendRequestListRequest
  | kFriendRequestAcceptRequest => HandleFriendRequestAcceptRequest
  | kFriendRequestRejectRequest => HandleFriendRequestRejectRequest
  | kCreateGroupRequest | kGetGroupRequest | kUpdateGroupRequest | kDisbandGroupRequest
  | kJoinGroupRequest | kLeaveGroupRequest | kInviteGroupMemberRequest
  | kKickGroupMemberRequest | kSetGroupMemberRoleRequest | kSetGroupMemberMuteRequest
  | kTransferGroupOwnershipRequest | kListGroupMembersRequest | kListMyGroupsRequest =>
      HandleGroupControlRequest
  | kGroupMessageSendRequest => HandleGroupMessageSend
  | kBeginFileUploadRequest | kGetFileUploadSessionRequest | kCancelFileUploadRequest =>
      HandleFileControlRequest
  | kHeartbeat => HandleHeartbeat
  | _ => UnsupportedMessageType
  end.

(** A connection whose message callback is [HandleMessage] reads [chunks]: the
    packets dispatched and the refusals, in order. *)
Fixpoint receive (close_on_decode_error : bool) (b : Buffer) (chunks : list (list byte))
  : option (Buffer * list Handled) :=
  match chunks with
  | [] => Some (b, [])
  | chunk :: chunks =>
      '(b, _) ← ReadFd b (SysOk chunk);
      '(b, h) ← HandleMessage close_on_decode_error b;
      '(b, hs) ← receive close_on_decode_error b chunks;
      Some (b, h :: hs)
  end.

Definition dispatched (hs : list Handled) : list Packet :=
  concat ((λ h, match h with Dispatches ps => ps | _ => [] end) <$> hs).

Definition refused (h : Handled) : bool := match h with Refuses _ _ => true | _ => false end.

(** ** Lemmas *)

Lemma SendPacket_spec p :
  encodable max_body_size_ p → SendPacket true true p = Some (ProtocolCodec.wire p 0).
Proof.
  intros [Hv _]. unfold SendPacket.
  destruct (Encode_spec (B := Buffer) max_body_size_ p (NewBuffer kInitialSize))
    as (b & -> & Hb & Hpk); [apply wf_NewBuffer|done|].
  change (Peek b = Peek (NewBuffer kInitialSize) ++ ProtocolCodec.wire p 0) in Hpk.
  change (wf b) in Hb. rewrite Peek_NewBuffer in Hpk. simpl app in Hpk. unfold RetrieveAllAsString.
  destruct (RetrieveAsString_spec b (ReadableBytes b)) as (b' & -> & _); [done|lia|]. simpl.
  rewrite <-length_Peek, take_ge, Hpk by done || lia. done.
Qed.

Lemma HandleMessage_spec close b :
  wf b →
  ∃ ps e b', HandleMessage close b = Some (b', match e with
                | Some (_, m) => Refuses m close
                | None => match ps with [] => Waits | _ => Dispatches ps end end) ∧
    wf b' ∧ Decodes max_body_size_ (Peek b) ps e (Peek b').
Proof.
  intros Hb. destruct (Buffer_Decode_spec max_body_size_ b Hb) as (ps & e & b' & Hb' & HD & Hd).
  exists ps, e, b'. split_and!; [|done|done]. unfold HandleMessage. rewrite Hd. simpl.
  destruct e as [[st m]|]; simpl; [|by destruct ps].
  apply Decodes_bad_status in HD as []. by destruct st.
Qed.

(** Totality of the reference. *)
Lemma Decodes_total bs : ∃ ps e rest, Decodes max_body_size_ bs ps e rest.
Proof.
  destruct (Append_spec (NewBuffer 0) bs (wf_NewBuffer 0)) as (b & _ & Hb & Hpk).
  rewrite Peek_NewBuffer in Hpk. simpl app in Hpk.
  destruct (Buffer_Decode_spec max_body_size_ b Hb) as (ps & e & b' & _ & HD & _).
  rewrite Hpk in HD. eauto.
Qed.

(** A prefix of a good stream gives a prefix of its packets. *)
Lemma Decodes_prefix ps bs s ps1 e rest :
  Forall (encodable max_body_size_) ps →
  bs ++ s = concat ((λ p, ProtocolCodec.wire p 0) <$> ps) →
  Decodes max_body_size_ bs ps1 e rest →
  e = None ∧ ps1 `prefix_of` ps ∧ (s = [] → ps1 = ps ∧ rest = []).
Proof.
  intros Hps Hbs HD. pose proof (Decodes_wire _ _ Hps) as Hall. rewrite <-Hbs in Hall.
  assert (e = None) as ->.
  { destruct e as [[st m]|]; [|done].
    destruct (Decodes_det _ _ _ _ _ _ _ _ Hall (Decodes_app_bad _ _ _ _ _ _ s HD)) as (_ & ? & _).
    done. }
  split; [done|]. split.
  - destruct (Decodes_total (rest ++ s)) as (ps2 & e2 & r2 & HD2).
    destruct (Decodes_det _ _ _ _ _ _ _ _ Hall (Decodes_app _ _ _ _ _ _ _ _ HD HD2)) as (-> & _).
    by apply prefix_app_r.
  - intros ->. rewrite app_nil_r in Hall.
    by destruct (Decodes_det _ _ _ _ _ _ _ _ Hall HD) as (-> & _ & <-).
Qed.

Lemma receive_spec close ps cs :
  ∀ b bs s ps1,
    wf b → Forall (encodable max_body_size_) ps →
    bs ++ concat cs ++ s = concat ((λ p, ProtocolCodec.wire p 0) <$> ps) →
    Decodes max_body_size_ bs ps1 None (Peek b) →
    ∃ b' hs, receive close b cs = Some (b', hs) ∧ wf b' ∧
      Forall (λ h, refused h = false) hs ∧
      Decodes max_body_size_ (bs ++ concat cs) (ps1 ++ dispatched hs) None (Peek b').
Proof.
  induction cs as [|chunk cs IH]; intros b bs s ps1 Hb Hps Hbs HD; simpl in *.
  { exists b, []. unfold dispatched. simpl. by rewrite !app_nil_r. }
  destruct (ReadFd_spec b chunk Hb) as (b1 & E1 & Hb1 & Hp1). simpl in E1. rewrite E1. simpl.
  destruct (HandleMessage_spec close b1 Hb1) as (ps2 & e & b2 & -> & Hb2 & HD2). simpl.
  rewrite Hp1 in HD2. pose proof (Decodes_app _ _ _ _ _ _ _ _ HD HD2) as HD3.
  rewrite <-!app_assoc in Hbs. rewrite app_assoc in Hbs.
  destruct (Decodes_prefix _ _ _ _ _ _ Hps Hbs HD3) as (-> & _).
  destruct (IH b2 (bs ++ chunk) s (ps1 ++ ps2)) as (b' & hs & -> & Hb' & Hno & HD'); [done..|].
  eexists _, _. split; [done|]. split; [done|]. split; [constructor; [by destruct ps2|done]|].
  rewrite <-!app_assoc in HD'. rewrite app_assoc in HD' |- *. unfold dispatched in *. simpl.
  replace (match match ps2 with [] => Waits | _ => Dispatches ps2 end with
           | Dispatches ps => ps | _ => [] end) with ps2 by by destruct ps2.
  by rewrite <-!app_assoc in HD' |- *.
Qed.

End Transport.

(** ** Theorems *)

(** C5: a connection is a reliable channel of packets.  Let a connection have
    accepted the packets [ps], each sent by [SendPacket] from whatever thread and
    at whatever moment, and let its peer read any part of what went out, cut in
    any way.  Then the peer refuses nothing and dispatches a prefix of [ps], in
    order and without repetition; and once the output has drained and all of it
    was read, exactly [ps], with nothing left in its buffer. *)
Theorem packets_delivered max cb t evs c ps chunks close :
  conn_run cb (NewConn t) evs = Some c →
  Forall (encodable max) ps →
  Forall2 (λ p m, SendPacket max true true p = Some m) ps (messages c) →
  concat chunks `prefix_of` wire c →
  ∃ b hs, receive max close (NewBuffer kInitialSize) chunks = Some (b, hs) ∧
    Forall (λ h, refused h = false) hs ∧ dispatched hs `prefix_of` ps ∧
    (Peek (output_buffer_ c) = [] → concat chunks = wire c → dispatched hs = ps ∧ Peek b = []).
Proof.
  intros Hr Hps Hms [s Hs].
  pose proof (connection_invariant cb t evs c Hr) as Hstream.
  assert (messages c = (λ p, ProtocolCodec.wire p 0) <$> ps) as Hm.
  { clear -Hps Hms. induction Hms as [|p m ps ms E _ IH]; [done|].
    apply Forall_cons in Hps as [Hp Hps]. rewrite (SendPacket_spec max p Hp) in E.
    simplify_eq/=. f_equal. by apply IH. }
  rewrite Hm, Hs, <-app_assoc in Hstream.
  destruct (receive_spec max close ps chunks (NewBuffer kInitialSize) []
    (s ++ Peek (output_buffer_ c)) []) as (b & hs & E & Hb & Hno & HD);
    [apply wf_NewBuffer|done|done|rewrite Peek_NewBuffer; by constructor|].
  simpl in HD. exists b, hs. split; [done|]. split; [done|].
  destruct (Decodes_prefix max ps _ _ _ _ _ Hps Hstream HD) as (_ & Hpre & Hall).
  split; [done|]. intros Ho Hw. apply Hall. rewrite Ho, app_nil_r.
  rewrite Hw in Hs. apply (f_equal length) in Hs. rewrite length_app in Hs.
  destruct s; [done|simpl in Hs; lia].
Qed.

Definition sample_packet : Packet := MkPacket kChatMessage 3 70000 [x68; x69].
(** Two packets, the second only in part on the wire. *)
Definition packet_events : list Event :=
  [EFunctor quiet;
   EPost (ASend (ProtocolCodec.wire sample_packet 0) (SysOk 0));
   EFunctor (MkAnswers (SysError EAGAIN) (SysOk 100) 0 []);
   ECall (ASend (ProtocolCodec.wire sample_packet 0) (SysOk 7))].
Definition packet_conn : Conn :=
  default (NewConn 0) (conn_run sample_callbacks (NewConn 0) packet_events).

Lemma packets_delivered_witness :
  ∃ b hs, receive 4 true (NewBuffer kInitialSize)
            [take 9 (wire packet_conn); drop 9 (wire packet_conn)] = Some (b, hs) ∧
    Forall (λ h, refused h = false) hs ∧
    dispatched hs `prefix_of` [sample_packet; sample_packet].
Proof.
  destruct (packets_delivered 4 sample_callbacks 0 packet_events packet_conn
    [sample_packet; sample_packet] [take 9 (wire packet_conn); drop 9 (wire packet_conn)] true)
    as (b & hs & E & Hno & Hp & _).
  - vm_compute. reflexivity.
  - repeat (constructor; [split; [done|repeat split; done]|]). constructor.
  - repeat (constructor; [vm_compute; reflexivity|]). constructor.
  - exists []. vm_compute. reflexivity.
  - exists b, hs. split; [exact E|]. split; [exact Hno|exact Hp].
Defined.

(** A packet followed by a refused header: read one after the other, the packet
    is dispatched and the header refused; read at once, the packet is taken off
    the buffer and never dispatched. *)
Theorem refusal_drops_packets :
  let good := ProtocolCodec.wire sample_packet 0 in
  let bad := replicate 20 x00 in
  snd <$> receive 4 true (NewBuffer kInitialSize) [good; bad] =
    Some [Dispatches [sample_packet]; Refuses "invalid protocol magic" true] ∧
  (λ r, (Peek r.1, r.2)) <$> receive 4 true (NewBuffer kInitialSize) [good ++ bad] =
    Some (bad, [Refuses "invalid protocol magic" true]).
Proof. split; vm_compute; reflexivity. Qed.
