(* ===== verification/TcpServer.v ===== *)
(** * TCP servers

    Models [src/common/net/TcpServer.h] and [TcpServer.cpp] and the choice of
    loops of [EventLoopThreadPool] on [TcpConnection].  A started server runs on
    its base loop; connections live on the loops of the pool, or on the base loop
    when the pool is empty.  Threads interleave by steps: one handler, one functor
    or one event of a connection on its loop, one functor of the base loop.
    [objects] holds every connection that was accepted; [connections_] is the map
    of the source, by the number a name contains.  The functors of a loop are kept
    per connection ([pending]) and, for the base loop, in [base_queue].
    Sockets, metrics and the failures of [Start] are left out; [Stop] is called by
    the base thread outside of the handlers of its connections. *)
From Stdlib Require Import ZArith Lia.
From Stdlib.Strings Require Import Byte.
From stdpp Require Import base gmap list sets numbers.
From S2P Require Import Prelude Buffer Channel TcpConnection.
Local Open Scope Z_scope.
Local Open Scope width_scope.

(** ** The end of a connection *)

(** Reports that the connection is down, and calls of [ConnectDestroyed] queued. *)
Definition downs (c : Conn) : nat := length (filter (λ x, x = CConnection false) (calls c)).
Definition is_destroyed (f : Functor) : bool := match f with FDestroyed => true | _ => false end.
Definition destroys (c : Conn) : nat := length (List.filter is_destroyed (pending c)).

Definition same_end (c c' : Conn) : Prop := downs c' = downs c ∧ destroys c' = destroys c.

Lemma same_end_refl c : same_end c c.
Proof. done. Qed.
Lemma same_end_trans c1 c2 c3 : same_end c1 c2 → same_end c2 c3 → same_end c1 c3.
Proof. intros [] []. split; congruence. Qed.

Lemma downs_mono c c' : calls c `prefix_of` calls c' → (downs c ≤ downs c')%nat.
Proof. intros [k E]. unfold downs. rewrite E, list.filter_app, length_app. lia. Qed.

Section Ends.
Variable cb : Callbacks.

Lemma downs_call c x : x ≠ CConnection false → same_end c (log_call c x).
Proof.
  intros Hx. split; [|done]. unfold downs. cbn.
  by rewrite list.filter_app, length_app, filter_cons_False, filter_nil, Nat.add_0_r.
Qed.

Lemma destroys_queue c f : is_destroyed f = false → same_end c (QueueInLoop c f).
Proof.
  intros Hf. split; [done|]. unfold destroys. cbn. rewrite List.filter_app, length_app. cbn.
  rewrite Hf. cbn. lia.
Qed.

Lemma HandleClose_end c : same_end c (HandleClose cb c).
Proof.
  unfold HandleClose. destruct (state_ c); try done.
  all: destruct (close_callback_ cb); [|done].
  all: exact (downs_call (set_channel (set_state c kDisconnected) (DisableAll (channel_ c))) CClose ltac:(done)).
Qed.

Lemma ShutdownInLoop_end c : same_end c (ShutdownInLoop c).
Proof. unfold ShutdownInLoop. destruct (state_ c); try done. by case_match. Qed.

Lemma WriteComplete_end c : same_end c (QueueWriteCompleteCallback cb c).
Proof.
  unfold QueueWriteCompleteCallback. destruct (write_complete_callback_ cb); [|done].
  by apply destroys_queue.
Qed.

Lemma BufferRest_end c data c' : BufferRest cb c data = Some c' → same_end c c'.
Proof.
  unfold BufferRest. destruct (length data =? 0)%nat; [by intros [= ->]|].
  set (c1 := if _ && _ && _ then _ else c).
  assert (same_end c c1) as H1.
  { unfold c1, QueueHighWaterMarkCallback. repeat case_match; try done. by apply destroys_queue. }
  destruct (Append _ _) as [b|]; [|done]. cbn. intros [= <-]. by destruct (IsWriting _).
Qed.

Lemma SendInLoop_end c data r c' : SendInLoop cb c data r = Some c' → same_end c c'.
Proof.
  unfold SendInLoop. destruct (negb _); [by intros [= ->]|]. destruct (_ && _).
  - destruct (send data r) as [e|n].
    + destruct (transient e); [apply (BufferRest_end (log_message c data))|].
      intros [= <-]. apply HandleClose_end.
    + destruct (_ =? 0)%nat; [|apply (BufferRest_end (log_message (transmit c _) data))].
      intros [= <-]. apply (WriteComplete_end (log_message (transmit c _) data)).
  - apply (BufferRest_end (log_message c data)).
Qed.

Lemma act_end c a c' : act cb c a = Some c' → same_end c c'.
Proof.
  destruct a as [data r| | |len]; simpl.
  - destruct (length data =? 0)%nat; [by intros [= ->]|apply SendInLoop_end].
  - intros [= <-]. apply ShutdownInLoop_end.
  - intros [= <-]. unfold ForceCloseInLoop. destruct (state_ c); try done; apply HandleClose_end.
  - destruct (Retrieve _ _); [|done]. by intros [= <-].
Qed.

Lemma acts_end c l c' : acts cb c l = Some c' → same_end c c'.
Proof.
  unfold acts. revert c. induction l as [|a l IH]; intros c; simpl; [by intros [= ->]|].
  destruct (act cb c a) as [c1|] eqn:E; [|done]. simpl. intros Hr.
  eapply same_end_trans; [by eapply act_end|by apply IH].
Qed.

Lemma HandleRead_end c r t l c' : HandleRead cb c r t l = Some c' → same_end c c'.
Proof.
  unfold HandleRead. destruct (ReadFd _ r) as [[b n]|]; [|done]. cbn [mbind option_bind].
  set (c1 := log_arrived _ _). assert (same_end c c1) as H1 by done.
  destruct n as [e|[|n]].
  - intros [= <-]. unfold HandleError. destruct (transient e), (e =? ECONNRESET); try done;
      (eapply same_end_trans; [done|apply HandleClose_end]).
  - intros [= <-]. eapply same_end_trans; [done|apply HandleClose_end].
  - destruct (message_callback_ cb); [|by intros [= <-]]. intros Hr%acts_end.
    eapply same_end_trans; [|done]. by apply (downs_call (RefreshLastReadTime c1 t)).
Qed.

Lemma HandleWrite_end c r c' : HandleWrite cb c r = Some c' → same_end c c'.
Proof.
  unfold HandleWrite. destruct (negb _); [by intros [= ->]|].
  assert (∀ c1, same_end c c1 →
    same_end c (if decide (state_ c1 = kDisconnecting) then ShutdownInLoop c1 else c1)) as Hf.
  { intros c1 H1. case_decide; [|done]. eapply same_end_trans; [done|apply ShutdownInLoop_end]. }
  destruct (_ =? 0)%nat; [intros [= <-]; by apply (Hf (set_channel c (DisableWriting (channel_ c))))|].
  destruct (send _ r) as [e|[|n]].
  - intros [= <-]. destruct (transient e); [done|apply HandleClose_end].
  - by intros [= ->].
  - destruct (Retrieve _ _) as [b|]; [|done]. cbn [mbind option_bind]. intros [= <-].
    destruct (_ =? 0)%nat; [|done]. apply Hf.
    eapply same_end_trans; [|apply WriteComplete_end]. done.
Qed.

Lemma callbacks_end ks a : ∀ c c',
  foldl (λ c k, c ← c; callback cb c k a) (Some c) ks = Some c' → same_end c c'.
Proof.
  induction ks as [|k ks IH]; intros c c'; simpl; [by intros [= ->]|].
  destruct (callback cb c k a) as [c1|] eqn:E.
  - intros Hr. eapply same_end_trans; [|by apply IH]. destruct k; simpl in E; simplify_eq;
      [apply HandleClose_end|apply HandleClose_end|by eapply HandleRead_end|by eapply HandleWrite_end].
  - intros Hr. exfalso. clear -Hr. by induction ks.
Qed.

Lemma downs_report c b :
  downs (log_call c (CConnection b)) = (downs c + (if b then 0 else 1))%nat.
Proof.
  unfold downs. cbn. rewrite list.filter_app, length_app. f_equal. by destruct b.
Qed.

Lemma ConnectDestroyed_end c l c' :
  connection_callback_ cb = true → ConnectDestroyed cb c l = Some c' →
  downs c' = S (downs c) ∧ destroys c' = destroys c.
Proof.
  intros Hcb. unfold ConnectDestroyed. set (c1 := match state_ c with kConnecting => _ | _ => _ end).
  assert (same_end c c1 ∧ IsConnected c1 = false) as [[H1 H2] Hc].
  { unfold c1, IsConnected. destruct (state_ c) eqn:E; cbn; rewrite ?E; by split. }
  rewrite Hcb, Hc. destruct (acts cb _ l) as [c2|] eqn:E; [|done]. cbn [mbind option_bind].
  intros [= <-]. apply acts_end in E as [E1 E2]. rewrite downs_report in E1.
  cbn [downs destroys set_channel calls pending] in *. unfold downs, destroys in *. cbn in *. lia.
Qed.

Lemma ConnectDestroyed_down c l c' :
  connection_callback_ cb = true → conn_ok cb c → state_ c ≠ kConnecting →
  ConnectDestroyed cb c l = Some c' →
  downs c' = S (downs c) ∧ destroys c' = destroys c ∧ state_ c' = kDisconnected.
Proof.
  intros Hcb Hok Hr E. destruct (ConnectDestroyed_end _ _ _ Hcb E).
  destruct (ConnectDestroyed_ok cb c l Hok) as (c1 & E1 & _ & ?); [by rewrite rank_zero|].
  split_and!; congruence.
Qed.

(** Running a functor: it reports the end if it is [ConnectDestroyed], and what it
    queues is never that. *)
Lemma run_functor_end c f fs a c' :
  connection_callback_ cb = true → conn_ok cb c → start_ok c → pending c = f :: fs →
  run_functor cb (set_pending c fs) f a = Some c' →
  downs c' = (downs c + if is_destroyed f then 1 else 0)%nat ∧
  destroys c' = destroys (set_pending c fs) ∧
  (is_destroyed f = true → state_ c' = kDisconnected).
Proof.
  intros Hcb Hok Hst Ep. assert (downs (set_pending c fs) = downs c) as E1 by done.
  destruct f as [payload| | | |n| |]; cbn [run_functor is_destroyed].
  - intros [H1 H2]%SendInLoop_end. split_and!; [lia|done..].
  - intros [= <-]. destruct (ShutdownInLoop_end (set_pending c fs)). split_and!; [lia|done..].
  - intros [= <-]. destruct (act_end (set_pending c fs) AForceClose _ eq_refl).
    split_and!; [lia|done..].
  - intros [H1 H2]%acts_end.
    destruct (downs_call (set_pending c fs) CWriteComplete ltac:(done)). split_and!; [lia|lia|done].
  - intros [H1 H2]%acts_end.
    destruct (downs_call (set_pending c fs) (CHighWaterMark n) ltac:(done)).
    split_and!; [lia|lia|done].
  - unfold ConnectEstablished. rewrite Hcb. intros [H1 H2]%acts_end.
    match type of H1 with context [IsConnected ?x] => change (IsConnected x) with true in H1 end.
    rewrite downs_report in H1. unfold downs, destroys in *. cbn in *. split_and!; [lia|lia|done].
  - intros (H1 & H2 & H3)%ConnectDestroyed_down; [split_and!; [lia|done..]|done|by apply conn_ok_pending|].
    cbn. unfold start_ok in Hst. intros E. rewrite decide_True in Hst by done.
    destruct Hst as (gs & E' & _). congruence.
Qed.

(** A step of a connection neither posts nor makes a report of its end, except
    that it runs the [ConnectDestroyed] that was posted. *)
Lemma conn_step_end c ev c' :
  connection_callback_ cb = true → conn_ok cb c → start_ok c → conn_step cb c ev = Some c' →
  (downs c' + destroys c' =
   downs c + destroys c + match ev with
                          | EDestroy true _ => 1
                          | EDestroy false _ => if decide (state_ c = kConnecting) then 0 else 1
                          | _ => 0
                          end)%nat ∧
  (downs c' = downs c ∨ state_ c' = kDisconnected) ∧
  (destroys c' <= destroys c + match ev with EDestroy true _ => 1 | _ => 0 end)%nat.
Proof.
  intros Hcb Hok Hst.
  assert (same_end c c' → (downs c' + destroys c' = downs c + destroys c + 0)%nat ∧
    (downs c' = downs c ∨ state_ c' = kDisconnected) ∧ (destroys c' <= destroys c + 0)%nat) as Hsame.
  { intros [-> ->]. split_and!; [lia|by left|lia]. }
  destruct ev as [a|a|a|[] a|revents a]; simpl.
  - intros [= <-]. apply Hsame. unfold post.
    destruct a as [data r| | |]; [destruct (length data =? 0)%nat|..];
      first [done|by apply destroys_queue].
  - intros ?%act_end. by apply Hsame.
  - destruct (pending c) as [|f fs] eqn:Ep; [intros [= ->]; by apply Hsame|].
    assert (destroys c = destroys (set_pending c fs) + if is_destroyed f then 1 else 0)%nat as E2.
    { unfold destroys. rewrite Ep. cbn. destruct f; cbn; lia. }
    intros (H1 & H2 & H3)%run_functor_end; [|done..].
    destruct (is_destroyed f); split_and!; first [lia|by left; lia|right; by apply H3].
  - intros [= <-]. unfold downs, destroys. cbn. rewrite List.filter_app, length_app. cbn.
    split_and!; [lia|by left|lia].
  - case_decide; [intros [= ->]; by apply Hsame|].
    intros (H1 & H2 & H3)%ConnectDestroyed_down; [split_and!; [lia|by right|lia]|done..].
  - destruct (registered _); [|intros [= ->]; by apply Hsame].
    intros ?%callbacks_end. by apply Hsame.
Qed.

(** The functors that are queued run in their order, and those they queue come
    after them: the [ConnectDestroyed] that is queued is run with them. *)
Lemma functor_queue c f fs a :
  connection_callback_ cb = true → conn_ok cb c → start_ok c → pending c = f :: fs →
  ∃ c' gs, conn_step cb c (EFunctor a) = Some c' ∧ pending c' = fs ++ gs ∧
    List.filter is_destroyed gs = [].
Proof.
  intros Hcb Hok Hst Ep. simpl. rewrite Ep.
  assert (∃ c' gs, run_functor cb (set_pending c fs) f a = Some c' ∧ pending c' = fs ++ gs) as
    (c' & gs & E & Hp).
  { pose proof (conn_ok_pending cb c fs Hok) as Hok'. unfold start_ok in Hst.
    destruct (decide (state_ c = kConnecting)) as [Ec|Ec].
    - destruct Hst as (gs & E & Hgs). rewrite Ep in E. injection E as -> ->.
      destruct (ConnectEstablished_ok cb (set_pending c gs) (now a) (user a))
        as (c' & E & _ & _ & (hs & Hp & _) & _); [done..|]. by exists c', hs.
    - rewrite Ep in Hst.
      destruct (tcp_functor_ok cb (set_pending c fs) f a Hok') as (c' & E & He);
        [by rewrite rank_zero|set_solver|].
      destruct (ev_pending _ _ _ He) as (hs & Hp & _). by exists c', hs. }
  exists c', gs. split_and!; [done..|].
  apply run_functor_end in E as (_ & E & _); [|done..].
  unfold destroys in E. rewrite Hp, List.filter_app, length_app in E. cbn in E.
  destruct (List.filter is_destroyed gs); [done|]. cbn in E. lia.
Qed.

(** The first functor establishes the connection. *)
Lemma established_up c a c' :
  conn_ok cb c → start_ok c → state_ c = kConnecting → conn_step cb c (EFunctor a) = Some c' →
  state_ c' ≠ kConnecting.
Proof.
  intros Hok Hst Hs. simpl. unfold start_ok in Hst. rewrite decide_True in Hst by done.
  destruct Hst as (fs & -> & _). simpl.
  destruct (ConnectEstablished_ok cb (set_pending c fs) (now a) (user a)) as (c1 & E & _ & Hr & _);
    [by apply conn_ok_pending|done|]. rewrite E. intros [= <-]. by rewrite <-rank_zero.
Qed.

End Ends.

(** ** State *)

(** A connection and its loop: [None] is the base loop. *)
Record Entry := MkEntry { loop : option nat; conn : Conn }.

(** Where [Stop] is: it waits for, or has waited for, the connections it found. *)
Inductive StopPc := SRunning | SWaiting (ids : list Z) | SStopped (ids : list Z).
#[export] Instance StopPc_eq_dec : EqDecision StopPc.
Proof. solve_decision. Defined.

Record Server := MkServer {
  started_ : bool;
  connections_ : gset Z;
  connection_count_ : Z;
  peak_connection_count_ : Z;
  accepted_total_ : Z;
  closed_total_ : Z;
  next_connection_id_ : Z;
  next_ : nat;                (* of [EventLoopThreadPool] *)
  objects : gmap Z Entry;
  base_queue : list Z;        (* connections whose [RemoveConnectionInLoop] is queued *)
  stop_pc : StopPc;
}.

(** A server after [Start]. *)
Definition NewServer : Server := MkServer true ∅ 0 0 0 0 0 0 ∅ [] SRunning.

Definition set_objects (s : Server) (x : gmap Z Entry) : Server :=
  MkServer (started_ s) (connections_ s) (connection_count_ s) (peak_connection_count_ s)
    (accepted_total_ s) (closed_total_ s) (next_connection_id_ s) (next_ s) x (base_queue s)
    (stop_pc s).
Definition set_base_queue (s : Server) (x : list Z) : Server :=
  MkServer (started_ s) (connections_ s) (connection_count_ s) (peak_connection_count_ s)
    (accepted_total_ s) (closed_total_ s) (next_connection_id_ s) (next_ s) (objects s) x
    (stop_pc s).
Definition set_stop (s : Server) (x : StopPc) : Server :=
  MkServer (started_ s) (connections_ s) (connection_count_ s) (peak_connection_count_ s)
    (accepted_total_ s) (closed_total_ s) (next_connection_id_ s) (next_ s) (objects s)
    (base_queue s) x.

(** ** Operations *)

Section Operations.
Variable cb : Callbacks.
Variable io_thread_count_ : nat.
Variable idle_timeout_ : Z.    (* milliseconds *)

(** [EventLoopThreadPool::GetNextLoop] of a started pool, on the base thread. *)
Definition GetNextLoop (next : nat) : option nat * nat :=
  if (io_thread_count_ =? 0)%nat then (None, next)
  else (Some next, if (io_thread_count_ <=? S next)%nat then 0%nat else S next).

Definition RemoveConnectionInLoop (s : Server) (id : Z) : Server :=
  if decide (id ∈ connections_ s) then
    match objects s !! id with
    | None => s
    | Some e =>
        let m := connections_ s ∖ {[id]} in
        MkServer (started_ s) m (Z.of_nat (size m)) (peak_connection_count_ s) (accepted_total_ s)
          (closed_total_ s +₆₄ 1) (next_connection_id_ s) (next_ s)
          (<[id := MkEntry (loop e) (QueueInLoop (conn e) FDestroyed)]> (objects s))
          (base_queue s) (stop_pc s)
    end
  else s.

(** [RemoveConnection], the close callback, on the loop [l] of the connection. *)
Definition RemoveConnection (s : Server) (id : Z) (l : option nat) : Server :=
  if negb (started_ s) then s
  else match l with
  | None => RemoveConnectionInLoop s id
  | Some _ => set_base_queue s (base_queue s ++ [id])
  end.

(** A step of a connection, and what its close callback does. *)
Definition conn_event (s : Server) (id : Z) (ev : Event) : option Server :=
  match objects s !! id with
  | None => Some s
  | Some e =>
      c ← conn_step cb (conn e) ev;
      let s := set_objects s (<[id := MkEntry (loop e) c]> (objects s)) in
      Some (if (closes (conn e) <? closes c)%nat then RemoveConnection s id (loop e) else s)
  end.

(** One turn of the loop of [HandleAccept]; on the base loop the connection is
    established at once. *)
Definition HandleAccept (s : Server) (now : Z) (a : Answers) : option Server :=
  let '(l, next) := GetNextLoop (next_ s) in
  let id := next_connection_id_ s +₆₄ 1 in
  let m := {[id]} ∪ connections_ s in
  let active := Z.of_nat (size m) in
  let s := MkServer (started_ s) m active (Z.max (peak_connection_count_ s) active)
             (accepted_total_ s +₆₄ 1) (closed_total_ s) id next
             (<[id := MkEntry l (NewConn now)]> (objects s)) (base_queue s) (stop_pc s) in
  match l with None => conn_event s id (EFunctor a) | Some _ => Some s end.

Definition idle (s : Server) (now : Z) (id : Z) : bool :=
  match objects s !! id with
  | None => false
  | Some e => IsConnected (conn e) &&
              (idle_timeout_ <=? Z.quot (now - last_read_tick_ (conn e)) 1000000)
  end.

(** [ForceClose] called on the base thread. *)
Definition ForceClose (s : Server) (id : Z) : option Server :=
  match objects s !! id with
  | None => Some s
  | Some e =>
      conn_event s id (match loop e with
                       | None => ECall AForceClose
                       | Some _ => EPost AForceClose
                       end)
  end.

Definition CheckIdleConnections (s : Server) (now : Z) : option Server :=
  if negb (started_ s) || (idle_timeout_ <=? 0) then Some s
  else run ForceClose s (filter (λ id, idle s now id = true) (elements (connections_ s))).

(** [ConnectDestroyed] of a connection found by [Stop]: called on the base loop,
    posted to another one. *)
Definition DestroyConnection (a : Answers) (s : Server) (id : Z) : option Server :=
  match objects s !! id with
  | None => Some s
  | Some e =>
      conn_event s id (EDestroy (match loop e with None => false | Some _ => true end) a)
  end.

(** [Stop] up to the wait for the connections. *)
Definition Stop (s : Server) (a : Answers) : option Server :=
  if negb (started_ s) then Some s
  else
    let ids := elements (connections_ s) in
    let s := MkServer false ∅ 0 (peak_connection_count_ s) (accepted_total_ s)
               (closed_total_ s +₆₄ Z.of_nat (size (connections_ s))) (next_connection_id_ s)
               (next_ s) (objects s) (base_queue s) (SWaiting ids) in
    run (DestroyConnection a) s ids.

(** The end of the wait, [pending_cleanup] being zero, and of the loops, which quit
    after the batch of functors they run: what was queued behind it stays. *)
Definition StopWait (s : Server) : Server :=
  match stop_pc s with
  | SWaiting ids =>
      if forallb (λ id, match objects s !! id with
                        | None => true
                        | Some e => (destroys (conn e) =? 0)%nat
                        end) ids
      then set_stop s (SStopped ids) else s
  | _ => s
  end.

(** ** Steps *)

Inductive ServerEvent :=
| SAccept (now : Z) (a : Answers)    (* a connection is accepted *)
| SConn (id : Z) (ev : Event)        (* a connection moves *)
| SBase                              (* the base loop runs a queued removal *)
| SIdle (now : Z)                    (* the idle timer *)
| SStop (a : Answers)
| SStopWait.

(** Who moves a connection: other threads post, its loop does the rest.  The base
    thread is blocked while [Stop] waits; the other loops end with it. *)
Definition may_move (s : Server) (l : option nat) (ev : Event) : bool :=
  match ev with
  | EDestroy _ _ => false
  | EPost _ => match stop_pc s with SStopped _ => false | _ => true end
  | _ => match l, stop_pc s with
         | None, SWaiting _ => false
         | Some _, SStopped _ => false
         | _, _ => true
         end
  end.

Definition server_step (s : Server) (ev : ServerEvent) : option Server :=
  match ev with
  | SAccept now a =>
      match stop_pc s with SRunning => HandleAccept s now a | _ => Some s end
  | SConn id ev =>
      match objects s !! id with
      | None => Some s
      | Some e => if may_move s (loop e) ev then conn_event s id ev else Some s
      end
  | SBase =>
      match stop_pc s, base_queue s with
      | SWaiting _, _ | _, [] => Some s
      | _, id :: q => Some (RemoveConnectionInLoop (set_base_queue s q) id)
      end
  | SIdle now =>
      match stop_pc s with SWaiting _ => Some s | _ => CheckIdleConnections s now end
  | SStop a => match stop_pc s with SRunning => Stop s a | _ => Some s end
  | SStopWait => Some (StopWait s)
  end.

Definition server_run : Server → list ServerEvent → option Server := run server_step.

End Operations.

(** ** The invariant *)

Section Invariant.
Variable cb : Callbacks.
Variable io_thread_count_ : nat.
Variable idle_timeout_ : Z.
Hypothesis Hcb : connection_callback_ cb = true.

(** [Stop] found [ids], and those on the loop [l] need not be waited for. *)
Definition waited (s : Server) (ids : list Z) (l : option nat) : Prop :=
  stop_pc s = SStopped ids ∨ stop_pc s = SWaiting ids ∧ l = None.

(** [live] are the connections whose end was neither reported nor queued. *)
Record core_ok (n : Z) (live : gset Z) (s : Server) : Prop := {
  so_next : next_connection_id_ s = accepted_total_ s ∧ 0 ≤ accepted_total_ s ≤ n ∧ n < 2 ^ 64;
  so_dom : ∀ id, is_Some (objects s !! id) ↔ 1 ≤ id ≤ next_connection_id_ s;
  so_map : ∀ id, id ∈ connections_ s → is_Some (objects s !! id);
  so_count : connection_count_ s = Z.of_nat (size (connections_ s));
  so_total : accepted_total_ s = closed_total_ s + Z.of_nat (size (connections_ s));
  so_peak : Z.of_nat (size (connections_ s)) ≤ peak_connection_count_ s ≤ accepted_total_ s;
  so_started : started_ s = true ↔ stop_pc s = SRunning;
  so_ended : started_ s = false → connections_ s = ∅;
  so_conn : ∀ id e, objects s !! id = Some e →
    conn_ok cb (conn e) ∧ start_ok (conn e) ∧
    (downs (conn e) + destroys (conn e) = if decide (id ∈ live) then 0 else 1)%nat ∧
    (downs (conn e) ≠ 0%nat → state_ (conn e) = kDisconnected);
  so_stop : ∀ ids id e, waited s ids (loop e) → id ∈ ids → objects s !! id = Some e →
    destroys (conn e) = 0%nat;
}.

(** The removal of a connection whose close callback was made is queued. *)
Definition queued_ok (s : Server) : Prop :=
  started_ s = true → ∀ id e, id ∈ connections_ s → objects s !! id = Some e →
    closes (conn e) ≠ 0%nat → id ∈ base_queue s.

(** Connections of the base loop are established. *)
Definition base_up (P : Z → Prop) (s : Server) : Prop :=
  ∀ id e, P id → objects s !! id = Some e → loop e = None → state_ (conn e) ≠ kConnecting.

Record server_ok (n : Z) (s : Server) : Prop := {
  se_core : core_ok n (connections_ s) s;
  se_queued : queued_ok s;
  se_base : base_up (λ _, True) s;
}.

Lemma update_ok n live live' s id e c :
  core_ok n live s → objects s !! id = Some e → conn_ok cb c → start_ok c →
  (downs c + destroys c = if decide (id ∈ live') then 0 else 1)%nat →
  (∀ id', id' ≠ id → id' ∈ live' ↔ id' ∈ live) →
  (downs c ≠ 0%nat → state_ c = kDisconnected) →
  (∀ ids, waited s ids (loop e) → id ∈ ids → destroys c = 0%nat) →
  core_ok n live' (set_objects s (<[id := MkEntry (loop e) c]> (objects s))).
Proof.
  intros [] He Hc Hst Hends Hlive Hdown Hstop. split; cbn; try done.
  - intros id'. rewrite <-so_dom0. destruct (decide (id' = id)) as [->|].
    + rewrite lookup_insert_eq, He. split; eauto.
    + by rewrite lookup_insert_ne.
  - intros id' Hid. destruct (decide (id' = id)) as [->|].
    + rewrite lookup_insert_eq. eauto.
    + rewrite lookup_insert_ne by done. eauto.
  - intros id' e' He'. destruct (decide (id' = id)) as [->|].
    + rewrite lookup_insert_eq in He'. by simplify_eq/=.
    + rewrite lookup_insert_ne in He' by done. destruct (so_conn0 id' e' He') as (? & ? & Hs & ?).
      split_and!; try done. rewrite Hs. specialize (Hlive id' ltac:(done)).
      by repeat case_decide; naive_solver.
  - intros ids id' e' Hs Hid He'. destruct (decide (id' = id)) as [->|].
    + rewrite lookup_insert_eq in He'. simplify_eq/=. eauto.
    + rewrite lookup_insert_ne in He' by done. eauto.
Qed.

Lemma RemoveConnectionInLoop_ok n s id (P : Z → Prop) :
  core_ok n (connections_ s) s → base_up P s →
  let s' := RemoveConnectionInLoop s id in
  core_ok n (connections_ s') s' ∧ base_up P s' ∧ connections_ s' = connections_ s ∖ {[id]} ∧
  started_ s' = started_ s ∧ base_queue s' = base_queue s ∧
  (∀ id' e, objects s' !! id' = Some e →
    ∃ e0, objects s !! id' = Some e0 ∧ closes (conn e) = closes (conn e0)).
Proof.
  intros Hok Hup. unfold RemoveConnectionInLoop. case_decide as Hid.
  2:{ cbn. split_and!; try done; [set_solver|]. intros id' e He. by exists e. }
  destruct (so_map _ _ _ Hok id Hid) as [e He]. rewrite He. cbn.
  assert (started_ s = true) as Hst.
  { destruct (started_ s) eqn:E; [done|]. rewrite (so_ended _ _ _ Hok E) in Hid. set_solver. }
  destruct (so_conn _ _ _ Hok id e He) as (Hc & Hs & Hends & Hdown).
  destruct (tcp_step_ok cb (conn e) (EDestroy true (MkAnswers (SysOk []) (SysOk 0%nat) 0 [])) Hc Hs)
    as (c' & E & Hc' & Hs' & _).
  destruct (conn_step_end cb _ _ _ Hcb Hc Hs E) as (Hends' & _). simpl in E, Hends'. simplify_eq.
  assert (core_ok n (connections_ s ∖ {[id]})
    (set_objects s (<[id := MkEntry (loop e) (QueueInLoop (conn e) FDestroyed)]> (objects s)))) as Hu.
  { eapply update_ok; [done..| | | |].
    - rewrite Hends', Hends. rewrite decide_True by done. rewrite decide_False by set_solver. done.
    - set_solver.
    - done.
    - intros ids [Hstop|[Hstop _]]; apply (so_started _ _ _ Hok) in Hst; congruence. }
  assert (size (connections_ s ∖ {[id]}) = size (connections_ s) - 1)%nat as Hsz.
  { rewrite size_difference by set_solver. by rewrite size_singleton. }
  assert (size (connections_ s) ≠ 0%nat) as Hnz by (rewrite size_non_empty_iff; set_solver).
  assert (closed_total_ s +₆₄ 1 = closed_total_ s + 1) as Hcl.
  { pose proof (so_next _ _ _ Hok). pose proof (so_total _ _ _ Hok). pose proof (so_peak _ _ _ Hok).
    apply u64_small. unfold is_u64. lia. }
  split_and!; try done.
  - destruct Hu, Hok. split; cbn in *; rewrite ?Hcl; try done; try lia.
    + set_solver.
    + intros Hf. congruence.
  - intros id' e' Hp He'. cbn in He'. destruct (decide (id' = id)) as [->|].
    + rewrite lookup_insert_eq in He'. simplify_eq/=. exact (Hup id e Hp He).
    + rewrite lookup_insert_ne in He' by done. exact (Hup id' e' Hp He').
  - intros id' e' He'. destruct (decide (id' = id)) as [->|].
    + rewrite lookup_insert_eq in He'. simplify_eq/=. by exists e.
    + rewrite lookup_insert_ne in He' by done. by exists e'.
Qed.

Lemma conn_event_ok n s id e ev c :
  core_ok n (connections_ s) s → queued_ok s → base_up (λ id', id' ≠ id) s →
  objects s !! id = Some e → conn_step cb (conn e) ev = Some c →
  (∀ q a, ev ≠ EDestroy q a) → (loop e = None → state_ c ≠ kConnecting) →
  ∃ s', conn_event cb s id ev = Some s' ∧ server_ok n s'.
Proof.
  intros Hok Hq Hup He E Hev Hc0. destruct (so_conn _ _ _ Hok id e He) as (Hc & Hs & Hends & Hdown).
  destruct (tcp_step_ok cb (conn e) ev Hc Hs) as (c1 & E1 & Hc' & Hs' & Hl). simplify_eq.
  destruct (conn_step_end cb _ _ _ Hcb Hc Hs E) as (Hends' & Hdown' & Hmono).
  assert (downs c + destroys c = downs (conn e) + destroys (conn e))%nat as Hsum.
  { rewrite Hends'. destruct ev as [| | |q a|]; try lia. by destruct (Hev q a). }
  set (s1 := set_objects s (<[id := MkEntry (loop e) c]> (objects s))).
  assert (downs (conn e) ≠ 0%nat → state_ c = kDisconnected) as Hdd.
  { intros Hd%Hdown. pose proof (la_rank _ _ Hl) as Hr. rewrite Hd in Hr.
    by destruct (state_ c); simpl in Hr; try lia. }
  assert (core_ok n (connections_ s1) s1) as Hok1.
  { unfold s1. eapply (update_ok n (connections_ s)); try done; [by rewrite Hsum| |].
    - destruct Hdown' as [->|]; done.
    - intros ids Hstop Hid. pose proof (so_stop _ _ _ Hok ids id e Hstop Hid He).
      destruct ev as [| | |q a|]; try lia. by destruct (Hev q a). }
  assert (base_up (λ _, True) s1) as Hup1.
  { intros id' e' _ He'. cbn in He'. destruct (decide (id' = id)) as [->|Hne].
    - rewrite lookup_insert_eq in He'. by simplify_eq/=.
    - rewrite lookup_insert_ne in He' by done. exact (Hup id' e' Hne He'). }
  assert (∀ id' e', id' ≠ id → objects s1 !! id' = Some e' → objects s !! id' = Some e') as Hoth.
  { intros id' e' Hne He'. cbn in He'. by rewrite lookup_insert_ne in He'. }
  unfold conn_event. rewrite He, E. cbn [mbind option_bind]. fold s1.
  eexists; split; [done|]. destruct (closes (conn e) <? closes c)%nat eqn:Ec.
  - unfold RemoveConnection. destruct (started_ s1) eqn:Est; cbn [negb].
    + destruct (loop e) as [l|].
      * split; [|intros _ id' e' Hin He' Hcl; cbn in *|done].
        { destruct Hok1. by split. }
        rewrite elem_of_app, list_elem_of_singleton. destruct (decide (id' = id)) as [->|Hne]; [by right|].
        left. apply (Hq Est id' e' Hin); [|done]. by apply Hoth.
      * destruct (RemoveConnectionInLoop_ok n s1 id _ Hok1 Hup1) as (H1 & H2 & H3 & H4 & H5 & H6).
        split; [done| |done]. intros _ id' e' Hin He' Hcl. rewrite H5, H3 in *.
        destruct (H6 id' e' He') as (e0 & He0 & Hc00). rewrite Hc00 in Hcl.
        apply (Hq Est id' e0); [set_solver| |done]. apply Hoth; [set_solver|done].
    + split; [done|intros ?; congruence|done].
  - split; [done| |done]. intros Est id' e' Hin He' Hcl. cbn in Est, Hin |- *.
    destruct (decide (id' = id)) as [->|Hne].
    + cbn in He'. rewrite lookup_insert_eq in He'. simplify_eq/=. apply Nat.ltb_ge in Ec.
      apply (Hq Est id e Hin He). lia.
    + apply (Hq Est id' e' Hin); [by apply Hoth|done].
Qed.

Lemma move_ok n s id e ev :
  server_ok n s → objects s !! id = Some e → (∀ q a, ev ≠ EDestroy q a) →
  ∃ s', conn_event cb s id ev = Some s' ∧ server_ok n s'.
Proof.
  intros [Hok Hq Hup] He Hev. destruct (so_conn _ _ _ Hok id e He) as (Hc & Hs & _).
  destruct (tcp_step_ok cb (conn e) ev Hc Hs) as (c & E & _ & _ & Hl).
  eapply conn_event_ok; try done.
  - intros id' e' _. by apply Hup.
  - intros Hn. pose proof (Hup id e I He Hn) as Hne. rewrite <-rank_zero in *.
    pose proof (la_rank _ _ Hl). lia.
Qed.

Lemma ForceClose_ok n s id : server_ok n s → ∃ s', ForceClose cb s id = Some s' ∧ server_ok n s'.
Proof.
  intros Hok. unfold ForceClose. destruct (objects s !! id) as [e|] eqn:He; [|by exists s].
  eapply move_ok; [done..|]. by destruct (loop e).
Qed.

Lemma CheckIdleConnections_ok n s now :
  server_ok n s → ∃ s', CheckIdleConnections cb idle_timeout_ s now = Some s' ∧ server_ok n s'.
Proof.
  intros Hok. unfold CheckIdleConnections. destruct (_ || _); [by exists s|].
  generalize (filter (λ id, idle idle_timeout_ s now id = true) (elements (connections_ s))).
  intros ids. revert s Hok. induction ids as [|id ids IH]; intros s Hok; [by exists s|].
  cbn [run]. destruct (ForceClose_ok n s id Hok) as (s1 & -> & Hok1). by apply IH.
Qed.

Lemma NewConn_end t : downs (NewConn t) = 0%nat ∧ destroys (NewConn t) = 0%nat.
Proof. done. Qed.

Lemma core_mono n m live s : core_ok n live s → n ≤ m → m < 2 ^ 64 → core_ok m live s.
Proof. intros [] Hm. split; try done. lia. Qed.
Lemma server_mono n m s : server_ok n s → n ≤ m → m < 2 ^ 64 → server_ok m s.
Proof. intros [] Hm. split; try done. by eapply core_mono. Qed.

(** The state of [HandleAccept] before the connection is established. *)
Lemma accepted_ok n s now l next :
  server_ok n s → n + 1 < 2 ^ 64 → started_ s = true →
  let id := next_connection_id_ s +₆₄ 1 in
  let m := {[id]} ∪ connections_ s in
  let s' := MkServer (started_ s) m (Z.of_nat (size m))
              (Z.max (peak_connection_count_ s) (Z.of_nat (size m)))
              (accepted_total_ s +₆₄ 1) (closed_total_ s) id next
              (<[id := MkEntry l (NewConn now)]> (objects s)) (base_queue s) (stop_pc s) in
  core_ok (n + 1) (connections_ s') s' ∧ queued_ok s' ∧ base_up (λ id', id' ≠ id) s' ∧
  objects s' !! id = Some (MkEntry l (NewConn now)).
Proof.
  intros [Hok Hq Hup] Hn Hst id m s'. destruct (so_next _ _ _ Hok) as (Hnx & Hbd & _).
  assert (accepted_total_ s +₆₄ 1 = accepted_total_ s + 1) as Hacc by (apply u64_small; unfold is_u64; lia).
  assert (id = next_connection_id_ s + 1) as Hid by (apply u64_small; unfold is_u64; lia).
  assert (objects s !! id = None) as Hnew.
  { apply eq_None_not_Some. rewrite (so_dom _ _ _ Hok). lia. }
  assert (id ∉ connections_ s) as Hfresh.
  { intros Hin. apply (so_map _ _ _ Hok) in Hin. rewrite Hnew in Hin. by apply is_Some_None in Hin. }
  assert (size m = S (size (connections_ s))) as Hsz.
  { unfold m. rewrite size_union by set_solver. by rewrite size_singleton. }
  destruct (NewConn_ok cb now) as [Hc Hs].
  assert (∀ id' e', id' ≠ id → objects s' !! id' = Some e' → objects s !! id' = Some e') as Hoth.
  { intros id' e' Hne He'. cbn in He'. by rewrite lookup_insert_ne in He'. }
  split_and!.
  - destruct Hok. split; cbn; rewrite ?Hacc; try done; try lia.
    + intros id'. destruct (decide (id' = id)) as [->|Hne].
      * rewrite lookup_insert_eq. split; [lia|eauto].
      * rewrite lookup_insert_ne, so_dom0 by done. lia.
    + intros id' Hin. destruct (decide (id' = id)) as [->|Hne].
      * rewrite lookup_insert_eq. eauto.
      * rewrite lookup_insert_ne by done. apply so_map0. set_solver.
    + intros; congruence.
    + intros id' e' He'. destruct (decide (id' = id)) as [->|Hne].
      * rewrite lookup_insert_eq in He'. simplify_eq/=. rewrite decide_True by set_solver.
        split_and!; done.
      * rewrite lookup_insert_ne in He' by done.
        destruct (so_conn0 id' e' He') as (? & ? & Hsum & ?). split_and!; try done. rewrite Hsum.
        destruct (decide (id' ∈ connections_ s)); [rewrite decide_True by set_solver|
          rewrite decide_False by set_solver]; done.
    + intros ids id' e' [Hstop|[Hstop _]]; cbn in Hstop; apply so_started0 in Hst;
        congruence.
  - intros _ id' e' Hin He' Hcl. destruct (decide (id' = id)) as [->|Hne].
    + cbn in He'. rewrite lookup_insert_eq in He'. by simplify_eq/=.
    + apply (Hq Hst id' e'); [set_solver|by apply Hoth|done].
  - intros id' e' Hne He'. by apply (Hup id' e' I), Hoth.
  - apply lookup_insert_eq.
Qed.

Lemma HandleAccept_ok n s now a :
  server_ok n s → n + 1 < 2 ^ 64 → started_ s = true →
  ∃ s', HandleAccept cb io_thread_count_ s now a = Some s' ∧ server_ok (n + 1) s'.
Proof.
  intros Hok Hn Hst. unfold HandleAccept. destruct (GetNextLoop _ _) as [l next].
  destruct (accepted_ok n s now l next Hok Hn Hst) as (H1 & H2 & H3 & H4).
  destruct l as [l|].
  - eexists; split; [done|]. split; [done|done|]. intros id' e' _ He' Hl.
    destruct (decide (id' = next_connection_id_ s +₆₄ 1)) as [->|Hne].
    + rewrite H4 in He'. by simplify_eq/=.
    + by apply (H3 id' e').
  - destruct (NewConn_ok cb now) as [Hc Hs].
    destruct (tcp_step_ok cb (NewConn now) (EFunctor a) Hc Hs) as (c & E & _).
    eapply conn_event_ok; try done. intros _. by eapply established_up.
Qed.

(** [Stop] destroys the connections one after the other. *)
Lemma destroy_ok n a ids : ∀ s w,
  core_ok n (list_to_set ids) s → base_up (λ _, True) s → started_ s = false →
  stop_pc s = SWaiting w → NoDup ids → (∀ id, id ∈ ids → is_Some (objects s !! id)) →
  ∃ s', run (DestroyConnection cb a) s ids = Some s' ∧ core_ok n ∅ s' ∧
    base_up (λ _, True) s' ∧ started_ s' = false ∧ connections_ s' = connections_ s.
Proof.
  induction ids as [|id ids IH]; intros s w Hok Hup Hst Hpc Hnd Hobj; [by exists s|].
  apply list.NoDup_cons in Hnd as [Hni Hnd]. destruct (Hobj id) as [e He]; [by left|].
  destruct (so_conn _ _ _ Hok id e He) as (Hc & Hs & Hends & Hdown).
  rewrite decide_True in Hends by set_solver.
  set (ev := EDestroy (match loop e with None => false | Some _ => true end) a).
  destruct (tcp_step_ok cb (conn e) ev Hc Hs) as (c & E & Hc' & Hs' & Hl).
  destruct (conn_step_end cb _ _ _ Hcb Hc Hs E) as (Hends' & Hdown' & Hmono).
  assert (downs c + destroys c = 1)%nat as Hone.
  { rewrite Hends', Hends. unfold ev. destruct (loop e) eqn:El; [done|].
    rewrite decide_False; [done|]. by apply (Hup id e I He). }
  set (s1 := set_objects s (<[id := MkEntry (loop e) c]> (objects s))).
  assert (core_ok n (list_to_set ids) s1) as Hok1.
  { eapply update_ok; try done.
    - rewrite decide_False; [done|]. by rewrite elem_of_list_to_set.
    - set_solver.
    - intros Hd. destruct Hdown' as [Hd'|]; [lia|done].
    - intros ids' [Hstop|[Hstop Hl0]] _; [congruence|]. unfold ev in Hmono. rewrite Hl0 in Hmono.
      lia. }
  destruct (IH s1 w) as (s' & Hr & H1 & H2 & H3 & H4); try done.
  - intros id' e' _ He' Hl'. cbn in He'. destruct (decide (id' = id)) as [->|Hne].
    + rewrite lookup_insert_eq in He'. simplify_eq/=. pose proof (Hup id e I He Hl') as Hne.
      rewrite <-rank_zero in *. pose proof (la_rank _ _ Hl). lia.
    + rewrite lookup_insert_ne in He' by done. exact (Hup id' e' I He' Hl').
  - intros id' Hin. cbn. destruct (decide (id' = id)) as [->|].
    + rewrite lookup_insert_eq. eauto.
    + rewrite lookup_insert_ne by done. apply Hobj. by right.
  - exists s'. split; [|done]. assert (DestroyConnection cb a s id = Some s1) as Ed.
    { unfold DestroyConnection, conn_event. rewrite He. fold ev. rewrite E.
      cbn [mbind option_bind]. fold s1. unfold RemoveConnection. change (started_ s1) with (started_ s).
      rewrite Hst. cbn [negb]. by destruct (closes (conn e) <? closes c)%nat. }
    cbn [run]. by rewrite Ed.
Qed.

Lemma ServerStop_ok n s a :
  server_ok n s → ∃ s', Stop cb s a = Some s' ∧ server_ok n s'.
Proof.
  intros [Hok Hq Hup]. unfold Stop. destruct (started_ s) eqn:Est; [|by exists s]. cbn [negb].
  set (s1 := MkServer _ _ _ _ _ _ _ _ _ _ _).
  destruct (destroy_ok n a (elements (connections_ s)) s1 (elements (connections_ s)))
    as (s' & Hr & H1 & H2 & H3 & H4).
  - assert (closed_total_ s +₆₄ Z.of_nat (size (connections_ s)) = accepted_total_ s) as Hcl.
    { pose proof (so_next _ _ _ Hok). pose proof (so_total _ _ _ Hok). pose proof (so_peak _ _ _ Hok).
      rewrite u64_small; [lia|unfold is_u64; lia]. }
    destruct Hok. split; cbn; try done; rewrite ?size_empty, ?Hcl; try lia.
    { intros id e He. destruct (so_conn0 id e He) as (? & ? & Hsum & ?). split_and!; try done.
      rewrite Hsum. rewrite list_to_set_elements_L. done. }
    intros ids id e [Hstop|[Hstop Hl]] Hid He; [done|]. injection Hstop as <-.
    apply elem_of_elements in Hid. destruct (so_conn0 id e He) as (_ & _ & Hsum & _).
    rewrite decide_True in Hsum by done. lia.
  - exact Hup.
  - done.
  - done.
  - apply NoDup_elements.
  - intros id Hid%elem_of_elements. by apply (so_map _ _ _ Hok).
  - exists s'. split; [done|]. split; [by rewrite H4|intros ?; congruence|done].
Qed.

Lemma StopWait_ok n s : server_ok n s → server_ok n (StopWait s).
Proof.
  intros [Hok Hq Hup]. unfold StopWait. destruct (stop_pc s) as [|ids|ids] eqn:Ep; [done| |done].
  destruct (forallb _ ids) eqn:Ef; [|done].
  assert (started_ s = false) as Hst.
  { destruct (started_ s) eqn:E; [|done]. apply (so_started _ _ _ Hok) in E. congruence. }
  split; [|intros ?; cbn in *; congruence|done].
  destruct Hok. split; cbn in *; try done; [by rewrite Hst|].
  intros ids' id e [[= <-]|[]] Hid He; [|done]. apply forallb_forall with (x := id) in Ef.
  - rewrite He in Ef. by apply Nat.eqb_eq.
  - by apply list_elem_of_In.
Qed.

Lemma server_step_ok n s ev :
  server_ok n s → n + 1 < 2 ^ 64 →
  ∃ s', server_step cb io_thread_count_ idle_timeout_ s ev = Some s' ∧ server_ok (n + 1) s'.
Proof.
  intros Hok Hn. assert (server_ok (n + 1) s) as Hup by (eapply server_mono; [done|lia..]).
  destruct ev as [now a|id ev| |now|a|]; cbn [server_step].
  - destruct (stop_pc s) eqn:Ep; [|by exists s..]. apply HandleAccept_ok; [done..|].
    by apply (so_started _ _ _ (se_core _ _ Hok)).
  - destruct (objects s !! id) as [e|] eqn:He; [|by exists s].
    destruct (may_move s (loop e) ev) eqn:Em; [|by exists s].
    eapply move_ok; [done..|]. intros q a ->. done.
  - assert (∀ id q, base_queue s = id :: q →
      server_ok (n + 1) (RemoveConnectionInLoop (set_base_queue s q) id)) as Hrem.
    { intros id q Eq. destruct Hup as [Hc Hq Hb].
      assert (core_ok (n + 1) (connections_ s) (set_base_queue s q)) as Hc1 by (destruct Hc; by split).
      destruct (RemoveConnectionInLoop_ok (n + 1) (set_base_queue s q) id _ Hc1 Hb)
        as (H1 & H2 & H3 & H4 & H5 & H6).
      split; [done| |done]. intros Hst id' e' Hin He' Hcl. rewrite H5, H3, H4 in *.
      cbn [base_queue set_base_queue connections_ started_] in *.
      destruct (H6 id' e' He') as (e0 & He0 & Ecl). rewrite Ecl in Hcl.
      pose proof (Hq Hst id' e0 ltac:(set_solver) He0 Hcl) as Hin'.
      rewrite Eq in Hin'. set_solver. }
    destruct (stop_pc s), (base_queue s) as [|id q] eqn:Eq;
      first [by exists s|eexists; split; [done|by apply Hrem]].
  - destruct (stop_pc s); first [by exists s|by apply CheckIdleConnections_ok].
  - destruct (stop_pc s); first [by exists s|by apply ServerStop_ok].
  - eexists; split; [done|]. by apply StopWait_ok.
Qed.

Lemma server_run_ok evs : ∀ n s,
  server_ok n s → n + Z.of_nat (length evs) < 2 ^ 64 →
  ∃ s', server_run cb io_thread_count_ idle_timeout_ s evs = Some s' ∧
        server_ok (n + Z.of_nat (length evs)) s'.
Proof.
  unfold server_run. induction evs as [|ev evs IH]; intros n s Hok Hn.
  - exists s. split; [done|]. by rewrite Z.add_0_r.
  - cbn [length] in Hn |- *. destruct (server_step_ok n s ev Hok) as (s1 & E & Hok1); [lia|].
    destruct (IH (n + 1) s1 Hok1) as (s' & Hr & Hok'); [lia|]. exists s'. cbn [run]. rewrite E.
    split; [done|]. by replace (n + Z.of_nat (S (length evs))) with (n + 1 + Z.of_nat (length evs)) by lia.
Qed.

Lemma NewServer_ok : server_ok 0 NewServer.
Proof.
  split; [split|..]; cbn; try done; try lia.
  - intros id. rewrite lookup_empty. split; [by intros ?%is_Some_None|lia].
Qed.

(** While [Stop] waits, the loops of the connections run their functors. *)
Lemma drain_connection n a w id l p : ∀ s e fs,
  server_ok n s → stop_pc s = SWaiting w → objects s !! id = Some e → loop e = Some l →
  pending (conn e) = p ++ fs → List.filter is_destroyed fs = [] →
  ∃ s' e', server_run cb io_thread_count_ idle_timeout_ s
             (replicate (length p) (SConn id (EFunctor a))) = Some s' ∧
    server_ok n s' ∧ stop_pc s' = SWaiting w ∧ objects s' !! id = Some e' ∧
    destroys (conn e') = 0%nat ∧ (∀ id', id' ≠ id → objects s' !! id' = objects s !! id').
Proof.
  induction p as [|f p IH]; intros s e fs Hok Hpc He Hl Hp Hfs.
  { exists s, e. split_and!; try done. unfold destroys. rewrite Hp. cbn. by rewrite Hfs. }
  destruct (so_conn _ _ _ (se_core _ _ Hok) id e He) as (Hc & Hs & _).
  destruct (functor_queue cb (conn e) f (p ++ fs) a Hcb Hc Hs Hp) as (c & gs & E & Hp' & Hgs).
  destruct (move_ok n s id e (EFunctor a) Hok He) as (s1 & E1 & Hok1); [done|].
  assert (started_ s = false) as Hst.
  { destruct (started_ s) eqn:Es; [|done]. apply (so_started _ _ _ (se_core _ _ Hok)) in Es. congruence. }
  assert (s1 = set_objects s (<[id := MkEntry (loop e) c]> (objects s))) as ->.
  { unfold conn_event, RemoveConnection in E1. rewrite He, E in E1. cbn [mbind option_bind] in E1.
    change (started_ (set_objects s _)) with (started_ s) in E1. rewrite Hst in E1. cbn [negb] in E1.
    injection E1 as <-. by destruct (_ <? _)%nat. }
  destruct (IH _ (MkEntry (loop e) c) (fs ++ gs) Hok1 Hpc) as (s' & e' & Hr & H1 & H2 & H3 & H4 & H5).
  - apply lookup_insert_eq.
  - done.
  - cbn. by rewrite Hp', app_assoc.
  - by rewrite List.filter_app, Hfs, Hgs.
  - exists s', e'. split_and!; try done.
    + unfold server_run in *. cbn [replicate length run server_step]. rewrite He. unfold may_move.
      rewrite Hl, Hpc, E1. exact Hr.
    + intros id' Hne. rewrite H5 by done. cbn. by rewrite lookup_insert_ne.
Qed.

Lemma drain_connections n a (w ids : list Z) : ∀ s,
  server_ok n s → stop_pc s = SWaiting w → (∀ id, id ∈ ids → id ∈ w) →
  ∃ evs s', Forall (λ ev, ∃ id, id ∈ ids ∧ ev = SConn id (EFunctor a)) evs ∧
    server_run cb io_thread_count_ idle_timeout_ s evs = Some s' ∧ server_ok n s' ∧
    stop_pc s' = SWaiting w ∧
    (∀ id e, id ∈ ids → objects s' !! id = Some e → destroys (conn e) = 0%nat) ∧
    (∀ id, id ∉ ids → objects s' !! id = objects s !! id).
Proof.
  induction ids as [|id ids IH]; intros s Hok Hpc Hin.
  { exists [], s. split_and!; try done. set_solver. }
  assert (∃ evs s1, Forall (λ ev, ev = SConn id (EFunctor a)) evs ∧
    server_run cb io_thread_count_ idle_timeout_ s evs = Some s1 ∧ server_ok n s1 ∧
    stop_pc s1 = SWaiting w ∧ (∀ e, objects s1 !! id = Some e → destroys (conn e) = 0%nat) ∧
    (∀ id', id' ≠ id → objects s1 !! id' = objects s !! id')) as
    (evs1 & s1 & Hf1 & Hr1 & Hok1 & Hpc1 & Hd1 & Ho1).
  { destruct (objects s !! id) as [e|] eqn:He; [|exists [], s; split_and!; try done; congruence].
    destruct (loop e) as [l|] eqn:El.
    - destruct (drain_connection n a w id l (pending (conn e)) s e [] Hok Hpc He El)
        as (s1 & e1 & Hr & H1 & H2 & H3 & H4 & H5); [by rewrite app_nil_r|done|].
      exists (replicate (length (pending (conn e))) (SConn id (EFunctor a))), s1. split_and!; try done.
      + apply Forall_replicate. done.
      + intros e' He'. congruence.
    - exists [], s. split_and!; try done. intros e' He'.
      apply (so_stop _ _ _ (se_core _ _ Hok) w id e'); [right; split; congruence|apply Hin; by left|congruence]. }
  destruct (IH s1 Hok1 Hpc1) as (evs2 & s2 & Hf2 & Hr2 & Hok2 & Hpc2 & Hd2 & Ho2); [set_solver|].
  exists (evs1 ++ evs2), s2. split_and!; try done.
  - apply Forall_app. split; eapply list.Forall_impl; [exact Hf1| |exact Hf2|].
    + intros ev ->. exists id. split; [by left|done].
    + intros ev (id' & Hid' & ->). exists id'. split; [by right|done].
  - unfold server_run in *. rewrite run_app, Hr1. done.
  - intros id' e' Hid' He'. destruct (decide (id' ∈ ids)) as [|Hni]; [by eapply Hd2|].
    apply elem_of_cons in Hid' as [->|]; [|done]. rewrite Ho2 in He' by done. by apply Hd1.
  - intros id' Hni. apply not_elem_of_cons in Hni as [??]. rewrite Ho2, Ho1 by done. done.
Qed.

(** A connection [Stop] waited for was reported down and is out of its loop. *)
Lemma stopped_down n s ids id e :
  server_ok n s → stop_pc s = SStopped ids → id ∈ ids → objects s !! id = Some e →
  downs (conn e) = 1%nat ∧ state_ (conn e) = kDisconnected ∧ interest (channel_ (conn e)) = None.
Proof.
  intros [Hok _ _] Hpc Hin He. destruct (so_conn _ _ _ Hok id e He) as (Hc & _ & Hsum & Hd).
  assert (started_ s = false) as Hst.
  { destruct (started_ s) eqn:E; [|done]. apply (so_started _ _ _ Hok) in E. congruence. }
  rewrite (so_ended _ _ _ Hok Hst), decide_False in Hsum by set_solver.
  rewrite (so_stop _ _ _ Hok ids id e) in Hsum; [|by left|done..].
  assert (downs (conn e) = 1%nat) as H1 by lia. assert (state_ (conn e) = kDisconnected) as H2.
  { apply Hd. lia. }
  split_and!; [done..|]. destruct (ok_channel _ _ Hc) as (_ & _ & ->). unfold up. by rewrite H2.
Qed.

End Invariant.

(** ** Properties *)

(** C8: the books of a server balance after every interleaving of its loops.  The
    number of connections is that of the map, every accepted connection is open or
    counted as closed, and the peak lies in between.  The end of a connection that
    is still in the map was neither reported nor posted; that of any other was
    reported or posted exactly once.  The close callback of a connection is called
    at most once, and a connection that called it is removed or its removal is
    queued on the base loop, so that none is leaked. *)
Theorem server_accounting cb io_thread_count idle_timeout evs :
  connection_callback_ cb = true → Z.of_nat (length evs) < 2 ^ 64 →
  ∃ s, server_run cb io_thread_count idle_timeout NewServer evs = Some s ∧
    connection_count_ s = Z.of_nat (size (connections_ s)) ∧
    accepted_total_ s = closed_total_ s + connection_count_ s ∧
    connection_count_ s ≤ peak_connection_count_ s ≤ accepted_total_ s ∧
    (∀ id, is_Some (objects s !! id) ↔ 1 ≤ id ≤ accepted_total_ s) ∧
    ∀ id e, objects s !! id = Some e →
      (downs (conn e) + destroys (conn e) = if decide (id ∈ connections_ s) then 0 else 1)%nat ∧
      (closes (conn e) ≤ 1)%nat ∧
      (id ∈ connections_ s → closes (conn e) = 1%nat → id ∈ base_queue s).
Proof.
  intros Hcb Hn.
  destruct (server_run_ok cb io_thread_count idle_timeout Hcb evs 0 NewServer) as (s & Hr & Hok);
    [apply NewServer_ok|lia|].
  exists s. destruct Hok as [Hc Hq _]. destruct (so_next _ _ _ _ Hc) as (Hnx & _).
  pose proof (so_count _ _ _ _ Hc) as Hsz. rewrite Hsz.
  split_and!; try done; try apply Hc. { rewrite <-Hnx. apply Hc. }
  intros id e He. destruct (so_conn _ _ _ _ Hc id e He) as (Hok & _ & Hsum & _).
  split_and!; [done| |].
  - pose proof (ok_closes _ _ Hok). case_decide; lia.
  - intros Hin Hcl. assert (started_ s = true) as Hst.
    { destruct (started_ s) eqn:E; [done|]. rewrite (so_ended _ _ _ _ Hc E) in Hin. set_solver. }
    apply (Hq Hst id e Hin He). lia.
Qed.

(** C9: [Stop] returns, and leaves nothing running.  Whatever the server and its
    connections did before, once the loops have run the functors that their
    connections had queued the wait of [Stop] is over.  When it is over, however
    that came about, the map is empty and each connection that was open when [Stop]
    was called is disconnected, was reported down exactly once and is registered
    with no loop. *)
Theorem server_stop_complete cb io_thread_count idle_timeout evs a s ids :
  connection_callback_ cb = true → Z.of_nat (length evs) < 2 ^ 64 →
  server_run cb io_thread_count idle_timeout NewServer evs = Some s →
  (stop_pc s = SWaiting ids →
    ∃ evs' s', Forall (λ ev, ∃ id, id ∈ ids ∧ ev = SConn id (EFunctor a)) evs' ∧
      server_run cb io_thread_count idle_timeout s (evs' ++ [SStopWait]) = Some s' ∧
      stop_pc s' = SStopped ids) ∧
  (stop_pc s = SStopped ids →
    connections_ s = ∅ ∧
    ∀ id e, id ∈ ids → objects s !! id = Some e →
      downs (conn e) = 1%nat ∧ state_ (conn e) = kDisconnected ∧
      interest (channel_ (conn e)) = None).
Proof.
  intros Hcb Hn Hrun.
  destruct (server_run_ok cb io_thread_count idle_timeout Hcb evs 0 NewServer) as (s0 & Hr & Hok);
    [apply NewServer_ok|lia|]. rewrite Hrun in Hr. injection Hr as <-. split.
  - intros Hpc.
    destruct (drain_connections cb io_thread_count idle_timeout Hcb _ a ids ids s Hok Hpc)
      as (evs' & s' & Hf & Hr & _ & Hpc' & Hd & _); [done|].
    exists evs', (StopWait s'). split_and!; [done| |].
    + unfold server_run in *. by rewrite run_app, Hr.
    + unfold StopWait. rewrite Hpc'. rewrite (proj2 (forallb_forall _ _)); [done|].
      intros id Hin%list_elem_of_In. destruct (objects s' !! id) as [e|] eqn:He; [|done].
      apply Nat.eqb_eq. by eapply Hd.
  - intros Hpc. split; [|intros; by eapply stopped_down].
    apply (so_ended _ _ _ _ (se_core _ _ _ Hok)).
    destruct (started_ s) eqn:E; [|done]. apply (so_started _ _ _ _ (se_core _ _ _ Hok)) in E.
    congruence.
Qed.

(** Two connections on two loops; the peer of the first closes it, and [Stop] finds
    the second. *)
Definition sample_server_events : list ServerEvent :=
  [SAccept 5 quiet; SAccept 6 quiet; SConn 1 (EFunctor quiet); SConn 2 (EFunctor quiet);
   SConn 1 (EPoll EPOLLIN (MkAnswers (SysOk []) (SysOk 0%nat) 7 [])); SBase;
   SConn 1 (EFunctor quiet); SStop quiet].

Lemma server_accounting_witness :
  ∃ s, server_run sample_callbacks 2 0 NewServer sample_server_events = Some s ∧
    accepted_total_ s = closed_total_ s + connection_count_ s.
Proof.
  destruct (server_accounting sample_callbacks 2 0 sample_server_events) as (s & Hr & _ & Ht & _);
    [reflexivity|reflexivity|]. by exists s.
Defined.

Lemma server_stop_complete_witness :
  ∃ s, server_run sample_callbacks 2 0 NewServer sample_server_events = Some s ∧
  stop_pc s = SWaiting [2] ∧
  ∃ evs' s', server_run sample_callbacks 2 0 s (evs' ++ [SStopWait]) = Some s' ∧
    stop_pc s' = SStopped [2].
Proof.
  destruct (server_run_ok sample_callbacks 2 0 eq_refl sample_server_events 0 NewServer)
    as (s & Hr & _); [apply NewServer_ok|reflexivity|]. exists s. split; [done|].
  assert (stop_pc <$> server_run sample_callbacks 2 0 NewServer sample_server_events
          = Some (SWaiting [2])) as Hp by (vm_compute; reflexivity).
  rewrite Hr in Hp. injection Hp as Hp. split; [done|].
  destruct (server_stop_complete sample_callbacks 2 0 sample_server_events quiet s [2])
    as [Hw _]; [reflexivity|reflexivity|done|].
  destruct (Hw Hp) as (evs' & s' & _ & ? & ?). by exists evs', s'.
Defined.

(** [Stop] does not wait for the connections that were just removed from the map.
    When the loop of such a connection had already taken its batch of functors,
    the [ConnectDestroyed] posted to it is not run before the loop ends, and the
    user of the connection never hears that it is down. *)
Theorem stop_loses_removed_connection :
  (λ s, (stop_pc s, (λ e, (calls (conn e), pending (conn e))) <$> objects s !! 1)) <$>
    server_run sample_callbacks 2 0 NewServer
      [SAccept 5 quiet; SConn 1 (EFunctor quiet);
       SConn 1 (EPoll EPOLLIN (MkAnswers (SysOk []) (SysOk 0%nat) 7 [])); SBase;
       SStop quiet; SStopWait; SConn 1 (EFunctor quiet)]
  = Some (SStopped [], Some ([CConnection true; CClose], [FDestroyed])).
Proof. vm_compute. reflexivity. Qed.
