(* ===== verification/Connector.v ===== *)
(** * Outgoing connections

    Models [src/common/net/Connector.h], [Connector.cpp] and the ownership
    operations of [Socket.cpp] it uses.  A connector lives on an event loop;
    [Start] and [Stop] may be called from any thread.  Such a call first stores
    the request and then posts its functor, two steps here, between which other
    threads and the loop run; on the loop thread the functor runs at once.
    [StartInLoop] reads the request and later exchanges it, so the connection
    attempt itself is a step of its own.

    A file descriptor is the number of the [socket] call that made it, so that
    descriptors which the system would number alike stay distinct; a channel is
    named by its descriptor.  What the system calls report is an argument of the
    step.  A timer that was cancelled on the loop thread does not fire, which is
    what the timer queue guarantees.  A callback of the user runs last in every
    handler, so a call it makes is the next step.  Failing [epoll_ctl] and
    [close] calls are not modelled. *)
From Stdlib Require Import ZArith Lia.
From stdpp Require Import base gmap list numbers.
From S2P Require Import Prelude.

Local Open Scope Z_scope.

(** ** State *)

Inductive State := kDisconnected | kConnecting.
#[export] Instance State_eq_dec : EqDecision State.
Proof. solve_decision. Defined.

Inductive Call := CStart | CStop.
Inductive Functor := FStartInLoop | FStopInLoop | FDelete (channel : Z).
Inductive Callback := NewConnectionCallback (socket_fd : Z) | ConnectErrorCallback (error_number : Z).

Record Connector := MkConnector {
  connect_requested_ : bool;
  state_ : State;
  socket_ : option Z;
  channel_ : option Z;
  connect_timeout_timer_ : option Z;
}.

(** The loop and the system around a connector: the channels registered with
    the loop, the functors posted to it, the timers that will fire, whether the
    loop thread is between the guard of [StartInLoop] and the attempt, the calls
    of other threads that stored their request and did not post yet; then what
    was closed, deleted and called so far. *)
Record World := MkWorld {
  conn : Connector;
  watched : gset Z;
  functors : list Functor;
  armed : gset Z;
  next_timer : Z;
  next_fd : Z;
  attempting : bool;
  half : list Call;
  closed : list Z;
  deleted : list Z;
  called : list Callback;
}.

Definition NewConnector : Connector := MkConnector false kDisconnected None None None.
Definition NewWorld : World := MkWorld NewConnector ∅ [] ∅ 1 0 false [] [] [] [].

Definition EINTR : Z := 4.
Definition EIO : Z := 5.
Definition EBADF : Z := 9.
Definition EINVAL : Z := 22.
Definition ECONNABORTED : Z := 103.
Definition EISCONN : Z := 106.
Definition ETIMEDOUT : Z := 110.
Definition EALREADY : Z := 114.
Definition EINPROGRESS : Z := 115.

(** What [socket] and [connect] report to an attempt. *)
Inductive ConnectResult :=
| CreateFailed (error_number : Z)
| ConnectOk
| ConnectError (error_number : Z).

(** ** Updates of single members *)

Definition set_conn (w : World) (c : Connector) : World :=
  MkWorld c (watched w) (functors w) (armed w) (next_timer w) (next_fd w) (attempting w)
    (half w) (closed w) (deleted w) (called w).
Definition set_requested (w : World) (b : bool) : World :=
  let c := conn w in
  set_conn w (MkConnector b (state_ c) (socket_ c) (channel_ c) (connect_timeout_timer_ c)).
Definition set_state (w : World) (s : State) : World :=
  let c := conn w in
  set_conn w (MkConnector (connect_requested_ c) s (socket_ c) (channel_ c)
                (connect_timeout_timer_ c)).
Definition set_socket (w : World) (s : option Z) : World :=
  let c := conn w in
  set_conn w (MkConnector (connect_requested_ c) (state_ c) s (channel_ c)
                (connect_timeout_timer_ c)).
Definition set_timer (w : World) (t : option Z) : World :=
  let c := conn w in
  set_conn w (MkConnector (connect_requested_ c) (state_ c) (socket_ c) (channel_ c) t).
Definition set_channel (w : World) (ch : option Z) : World :=
  let c := conn w in
  set_conn w (MkConnector (connect_requested_ c) (state_ c) (socket_ c) ch
                (connect_timeout_timer_ c)).

Definition close_fd (w : World) (fd : Z) : World :=
  MkWorld (conn w) (watched w) (functors w) (armed w) (next_timer w) (next_fd w) (attempting w)
    (half w) (closed w ++ [fd]) (deleted w) (called w).
Definition call (w : World) (cb : Callback) : World :=
  MkWorld (conn w) (watched w) (functors w) (armed w) (next_timer w) (next_fd w) (attempting w)
    (half w) (closed w) (deleted w) (called w ++ [cb]).
Definition QueueInLoop (w : World) (f : Functor) : World :=
  MkWorld (conn w) (watched w) (functors w ++ [f]) (armed w) (next_timer w) (next_fd w)
    (attempting w) (half w) (closed w) (deleted w) (called w).
Definition set_watched (w : World) (s : gset Z) : World :=
  MkWorld (conn w) s (functors w) (armed w) (next_timer w) (next_fd w) (attempting w)
    (half w) (closed w) (deleted w) (called w).
Definition set_armed (w : World) (s : gset Z) (next : Z) : World :=
  MkWorld (conn w) (watched w) (functors w) s next (next_fd w) (attempting w)
    (half w) (closed w) (deleted w) (called w).
Definition set_attempting (w : World) (b : bool) : World :=
  MkWorld (conn w) (watched w) (functors w) (armed w) (next_timer w) (next_fd w) b
    (half w) (closed w) (deleted w) (called w).
Definition set_half (w : World) (h : list Call) : World :=
  MkWorld (conn w) (watched w) (functors w) (armed w) (next_timer w) (next_fd w) (attempting w)
    h (closed w) (deleted w) (called w).

(** ** Sockets *)

(** [CreateTcp] when it succeeds: a descriptor of its own. *)
Definition CreateTcp (w : World) : World * Z :=
  (MkWorld (conn w) (watched w) (functors w) (armed w) (next_timer w) (next_fd w + 1)
     (attempting w) (half w) (closed w) (deleted w) (called w), next_fd w).

Definition Close (w : World) : World :=
  match socket_ (conn w) with
  | None => w
  | Some fd => close_fd (set_socket w None) fd
  end.

(** [socket_ = std::move(socket)]. *)
Definition MoveAssign (w : World) (fd : Z) : World := set_socket (Close w) (Some fd).

Definition Release (w : World) : World * option Z := (set_socket w None, socket_ (conn w)).

Definition IsConnecting (w : World) : bool := bool_decide (state_ (conn w) = kConnecting).

(** ** The connector *)

Section Connector.
(** The members set up before the connector is used: whether the address is
    valid, the timeout, whether the timer queue is valid and which callbacks
    are set. *)
Variables (address_valid timers_valid : bool) (connect_timeout_ : Z).
Variables (new_connection_callback_ connect_error_callback_ : bool).

Definition FailConnection (w : World) (error_number : Z) : World :=
  let w := Close w in
  let w := set_state w kDisconnected in
  let should_notify := connect_requested_ (conn w) in
  let w := set_requested w false in
  if connect_error_callback_ && should_notify then call w (ConnectErrorCallback error_number)
  else w.

Definition CompleteConnection (w : World) : World :=
  let w := set_state w kDisconnected in
  let should_connect := connect_requested_ (conn w) in
  let w := set_requested w false in
  if negb should_connect then Close w
  else match Release w with
       | (w, None) => FailConnection w EBADF
       | (w, Some socket_fd) =>
           if new_connection_callback_ then call w (NewConnectionCallback socket_fd)
           else close_fd w socket_fd
       end.

Definition RemoveAndResetChannel (w : World) : World :=
  match channel_ (conn w) with
  | None => w
  | Some old_channel =>
      let w := set_watched w (watched w ∖ {[old_channel]}) in
      let w := set_channel w None in
      QueueInLoop w (FDelete old_channel)
  end.

Definition StartConnectTimeout (w : World) : World :=
  if connect_timeout_ <=? 0 then w
  else if negb timers_valid then set_timer w None
  else set_timer (set_armed w ({[next_timer w]} ∪ armed w) (next_timer w + 1))
         (Some (next_timer w)).

Definition CancelConnectTimeout (w : World) : World :=
  match connect_timeout_timer_ (conn w) with
  | None => w
  | Some t => set_timer (set_armed w (armed w ∖ {[t]}) (next_timer w)) None
  end.

Definition BeginWatchingConnect (w : World) (socket : Z) : World :=
  let w := MoveAssign w socket in
  let w := set_state w kConnecting in
  let w := set_channel w (Some socket) in
  let w := set_watched w ({[socket]} ∪ watched w) in
  StartConnectTimeout w.

Definition Connect (w : World) (r : ConnectResult) : World :=
  match r with
  | CreateFailed e => FailConnection w (if e =? 0 then EIO else e)
  | ConnectOk =>
      let '(w, socket) := CreateTcp w in CompleteConnection (MoveAssign w socket)
  | ConnectError saved_errno =>
      let '(w, socket) := CreateTcp w in
      if (saved_errno =? EINPROGRESS) || (saved_errno =? EINTR) || (saved_errno =? EALREADY)
      then BeginWatchingConnect w socket
      else if saved_errno =? EISCONN then CompleteConnection (MoveAssign w socket)
      else FailConnection (close_fd w socket) saved_errno
  end.

(** [StartInLoop] up to the attempt, and the attempt. *)
Definition StartInLoop (w : World) : World :=
  if negb (connect_requested_ (conn w)) then w
  else if decide (state_ (conn w) = kConnecting) then w
  else set_attempting w true.

Definition Attempt (w : World) (r : ConnectResult) : World :=
  let w := set_attempting w false in
  if negb address_valid then FailConnection w EINVAL else Connect w r.

Definition StopInLoop (w : World) : World :=
  if decide (state_ (conn w) ≠ kConnecting) then w
  else
    let w := CancelConnectTimeout w in
    let w := RemoveAndResetChannel w in
    let w := Close w in
    set_state w kDisconnected.

(** [so_error] is what [getsockopt] reports, or its [errno]. *)
Definition GetSocketError (w : World) (so_error : Z) : Z :=
  match socket_ (conn w) with None => EBADF | Some _ => so_error end.

Definition HandleWrite (w : World) (so_error : Z) : World :=
  if decide (state_ (conn w) ≠ kConnecting) then w
  else
    let error_number := GetSocketError w so_error in
    let w := CancelConnectTimeout w in
    let w := RemoveAndResetChannel w in
    if negb (error_number =? 0) then FailConnection w error_number else CompleteConnection w.

Definition HandleError (w : World) (so_error : Z) : World :=
  if decide (state_ (conn w) ≠ kConnecting) then w
  else
    let error_number := GetSocketError w so_error in
    let error_number := if error_number =? 0 then ECONNABORTED else error_number in
    let w := CancelConnectTimeout w in
    let w := RemoveAndResetChannel w in
    FailConnection w error_number.

Definition HandleTimeout (w : World) : World :=
  let w := set_timer w None in
  if decide (state_ (conn w) ≠ kConnecting) then w
  else FailConnection (RemoveAndResetChannel w) ETIMEDOUT.

(** ** Steps *)

Inductive Event :=
| EStore (c : Call)                     (* another thread: the store of a call *)
| EPost (i : nat)                       (* the functor of a stored call is posted *)
| ELoopCall (c : Call)                  (* a call on the loop thread *)
| ERun                                  (* the loop runs a functor *)
| EAttempt (r : ConnectResult)          (* the rest of [StartInLoop] *)
| EWritable (error_number : Z)          (* the channel reports [EPOLLOUT] *)
| EError (error_number : Z)             (* the channel reports an error or a close *)
| ETimeout (timer : Z).                 (* a timer fires *)

Definition request (c : Call) : bool := match c with CStart => true | CStop => false end.
Definition functor_of (c : Call) : Functor :=
  match c with CStart => FStartInLoop | CStop => FStopInLoop end.

Definition run_functor (w : World) (f : Functor) : World :=
  match f with
  | FStartInLoop => StartInLoop w
  | FStopInLoop => StopInLoop w
  | FDelete ch =>
      MkWorld (conn w) (watched w) (functors w) (armed w) (next_timer w) (next_fd w)
        (attempting w) (half w) (closed w) (deleted w ++ [ch]) (called w)
  end.

Definition pop_functors (w : World) (fs : list Functor) : World :=
  MkWorld (conn w) (watched w) fs (armed w) (next_timer w) (next_fd w) (attempting w)
    (half w) (closed w) (deleted w) (called w).

(** One step; an event that is not possible in a state leaves it. *)
Definition conn_step (w : World) (ev : Event) : World :=
  match ev with
  | EStore c => set_half (set_requested w (request c)) (half w ++ [c])
  | EPost i =>
      match half w !! i with
      | None => w
      | Some c => QueueInLoop (set_half w (delete i (half w))) (functor_of c)
      end
  | EAttempt r => if attempting w then Attempt w r else w
  | _ =>
      if attempting w then w
      else match ev with
      | ELoopCall c => run_functor (set_requested w (request c)) (functor_of c)
      | ERun =>
          match functors w with
          | [] => w
          | f :: fs => run_functor (pop_functors w fs) f
          end
      | EWritable e => HandleWrite w e
      | EError e => HandleError w e
      | ETimeout t =>
          if decide (t ∈ armed w) then
            HandleTimeout (set_armed w (armed w ∖ {[t]}) (next_timer w))
          else w
      | _ => w
      end
  end.

Definition conn_run : World → list Event → World := foldl conn_step.

End Connector.

(** ** Ownership *)

(** The descriptors handed to the user, and the channels whose deletion is
    queued. *)
Definition handed_by (cb : Callback) : option Z :=
  match cb with NewConnectionCallback fd => Some fd | ConnectErrorCallback _ => None end.
Definition handed (w : World) : list Z := omap handed_by (called w).
Definition doomed_by (f : Functor) : option Z := match f with FDelete ch => Some ch | _ => None end.
Definition doomed (w : World) : list Z := omap doomed_by (functors w).

Definition channels (w : World) : list Z :=
  deleted w ++ doomed w ++ option_list (channel_ (conn w)).

(** What holds whatever the state is: descriptors and channels have one owner. *)
Record owned (w : World) : Prop := {
  owned_fds : closed w ++ handed w ++ option_list (socket_ (conn w)) ≡ₚ seqZ 0 (next_fd w);
  owned_next : 0 ≤ next_fd w;
  owned_channels : NoDup (channels w);
  owned_channels_lt ch : ch ∈ channels w → 0 ≤ ch < next_fd w;
  owned_watched : watched w = list_to_set (option_list (channel_ (conn w)));
  owned_armed : armed w = list_to_set (option_list (connect_timeout_timer_ (conn w)));
}.

(** No channel and no timer are left: between the moment a handler gave them up
    and its end. *)
Record detached (w : World) : Prop := {
  detached_owned : owned w;
  detached_channel : channel_ (conn w) = None;
  detached_timer : connect_timeout_timer_ (conn w) = None;
}.

Record conn_ok (w : World) : Prop := {
  conn_owned : owned w;
  conn_state : match state_ (conn w) with
               | kDisconnected =>
                   socket_ (conn w) = None ∧ channel_ (conn w) = None ∧
                   connect_timeout_timer_ (conn w) = None
               | kConnecting =>
                   is_Some (socket_ (conn w)) ∧ channel_ (conn w) = socket_ (conn w) ∧
                   attempting w = false
               end;
}.

Lemma handed_call w cb : handed (call w cb) = handed w ++ option_list (handed_by cb).
Proof.
  unfold handed; cbn [called call]. rewrite omap_app. cbn. by destruct (handed_by cb).
Qed.

Lemma owned_same w w' :
  owned w → channels w' = channels w → closed w' = closed w → called w' = called w →
  socket_ (conn w') = socket_ (conn w) → channel_ (conn w') = channel_ (conn w) →
  connect_timeout_timer_ (conn w') = connect_timeout_timer_ (conn w) →
  next_fd w' = next_fd w → watched w' = watched w → armed w' = armed w → owned w'.
Proof.
  intros [] Hch Hcl Hca Hs Hc Ht Hn Hw Ha. unfold handed in *.
  split; unfold handed; rewrite ?Hcl, ?Hca, ?Hs, ?Hn, ?Hch; try done; by rewrite ?Hc, ?Ht, ?Hw, ?Ha.
Qed.

Lemma single_diff (x : Z) : list_to_set (option_list (Some x)) ∖ {[x]} =@{gset Z} ∅.
Proof. set_solver. Qed.

Lemma owned_Close w : owned w → owned (Close w).
Proof.
  intros Ho. unfold Close. destruct (socket_ (conn w)) as [fd|] eqn:Es; [|done].
  destruct Ho as [Hf Hn Hc Hl Hw Ha]. split; try done. cbn in *. rewrite app_nil_r.
  rewrite <-Hf, Es. unfold handed; cbn. rewrite <-app_assoc. f_equiv. apply Permutation_app_comm.
Qed.

Lemma owned_CreateTcp_assign w w' fd :
  owned w → socket_ (conn w) = None → CreateTcp w = (w', fd) →
  owned (MoveAssign w' fd) ∧ owned (close_fd w' fd).
Proof.
  intros [Hf Hn Hc Hl Hw Ha] Hs [= <- <-].
  assert (Hseq : seqZ 0 (next_fd w + 1) = seqZ 0 (next_fd w) ++ [next_fd w]).
  { rewrite Z.add_comm, (Z.add_comm 1), seqZ_app by lia. done. }
  unfold MoveAssign, Close. cbn. rewrite Hs. rewrite Hs in Hf. rewrite app_nil_r in Hf.
  split; split; cbn [closed next_fd conn set_conn set_socket close_fd watched armed socket_]; try done; try lia.
  all: try (intros ch Hch; apply Hl in Hch; lia).
  all: rewrite Hseq, <-Hf; unfold handed; cbn; rewrite ?Hs, ?app_nil_r; solve_Permutation.
Qed.

Section Ownership.
Variables (address_valid timers_valid : bool) (connect_timeout_ : Z).
Variables (has_new has_err : bool).

Lemma conn_ok_detached w : conn_ok w → state_ (conn w) = kDisconnected → detached w.
Proof. intros [Ho Hs] E. rewrite E in Hs. by destruct Hs as (? & ? & ?). Qed.

Lemma Close_socket w : socket_ (conn (Close w)) = None.
Proof. unfold Close. by destruct (socket_ (conn w)) eqn:E. Qed.

Lemma Close_frame w :
  channel_ (conn (Close w)) = channel_ (conn w) ∧
  connect_timeout_timer_ (conn (Close w)) = connect_timeout_timer_ (conn w) ∧
  connect_requested_ (conn (Close w)) = connect_requested_ (conn w) ∧
  called (Close w) = called w ∧ functors (Close w) = functors w.
Proof. unfold Close. by destruct (socket_ (conn w)). Qed.

(** A world without socket, channel and timer is in order once disconnected. *)
Lemma conn_ok_reset w b :
  detached w → socket_ (conn w) = None →
  conn_ok (set_requested (set_state w kDisconnected) b).
Proof. intros [Ho Hc Ht] Hs. split; [by eapply owned_same|done]. Qed.

Lemma detached_Close w : detached w → detached (Close w).
Proof.
  intros [Ho Hc Ht]. destruct (Close_frame w) as (Ec & Et & _).
  split; [by apply owned_Close| |]; congruence.
Qed.

Lemma conn_ok_error w e : conn_ok w → conn_ok (call w (ConnectErrorCallback e)).
Proof.
  intros [Ho Hs]. split; [|done].
  destruct Ho. split; try done. rewrite handed_call. cbn. by rewrite app_nil_r.
Qed.

Lemma FailConnection_ok w e : detached w → conn_ok (FailConnection has_err w e).
Proof.
  intros Hd. unfold FailConnection.
  assert (conn_ok (set_requested (set_state (Close w) kDisconnected) false))
    by (apply conn_ok_reset; [by apply detached_Close|apply Close_socket]).
  destruct (_ && _); [by apply conn_ok_error|done].
Qed.

Lemma CompleteConnection_ok w : detached w → conn_ok (CompleteConnection has_new has_err w).
Proof.
  intros Hd. unfold CompleteConnection.
  destruct (negb _).
  - split.
    + apply owned_Close. eapply owned_same; [apply Hd|..]; done.
    + destruct Hd. unfold Close; cbn. by destruct (socket_ (conn w)) eqn:E; cbn.
  - cbn [Release conn set_requested set_state set_conn socket_].
    destruct Hd as [[Hf Hn Hc Hl Hw Ha] Hch Ht].
    destruct (socket_ (conn w)) as [fd|] eqn:E.
    + destruct has_new; (split; [split; try done|cbn; by rewrite ?Hch, ?Ht]).
      all: rewrite <-Hf, ?handed_call; unfold handed; cbn; rewrite app_nil_r;
        solve_Permutation.
    + apply FailConnection_ok. split; [|done..].
      split; try done.
Qed.

(** Giving up the timer and the channel of an attempt. *)
Lemma drop_attempt w :
  conn_ok w → state_ (conn w) = kConnecting →
  detached (RemoveAndResetChannel (CancelConnectTimeout w)).
Proof.
  intros [[Hf Hn Hc Hl Hw Ha] Hs] E. rewrite E in Hs. destruct Hs as ([fd Hs] & Hch & _).
  rewrite Hs in Hch. unfold RemoveAndResetChannel.
  assert (channel_ (conn (CancelConnectTimeout w)) = Some fd) as Hch'.
  { unfold CancelConnectTimeout. by destruct (connect_timeout_timer_ (conn w)). }
  rewrite Hch'. unfold channels, doomed in Hc, Hl. rewrite Hch in Hc, Hl, Hw.
  unfold CancelConnectTimeout in *.
  destruct (connect_timeout_timer_ (conn w)) as [t|] eqn:Et; split; try done;
    (split; unfold channels, doomed, handed; cbn; rewrite ?omap_app, ?app_nil_r; try done);
    rewrite ?Hw, ?Ha, ?single_diff; by rewrite ?Et.
Qed.

Lemma BeginWatchingConnect_ok w w' fd :
  detached w → attempting w = false → socket_ (conn w) = None → CreateTcp w = (w', fd) →
  conn_ok (BeginWatchingConnect timers_valid connect_timeout_ w' fd).
Proof.
  intros [Ho Hc Ht] Hat Hs Hcr.
  destruct (owned_CreateTcp_assign _ _ _ Ho Hs Hcr) as [[Hf Hn Hnd Hl Hw Ha] _].
  injection Hcr as <- <-.
  assert (Hfresh : next_fd w ∉ channels w).
  { intros Hin. pose proof (owned_channels_lt _ Ho _ Hin). lia. }
  unfold channels, doomed in Hfresh, Hnd, Hl, Hw, Ha.
  unfold BeginWatchingConnect, StartConnectTimeout, MoveAssign, Close in *.
  cbn in *. rewrite Hs in *. cbn in *. rewrite Hc, Ht in *. cbn in *. rewrite !app_nil_r in *.
  assert (Hnd' : NoDup (deleted w ++ omap doomed_by (functors w) ++ [next_fd w])).
  { rewrite app_assoc. apply list.NoDup_app. split; [done|]. split; [|apply NoDup_singleton].
    intros x Hx ->%list_elem_of_singleton. done. }
  assert (Hl' : ∀ ch, ch ∈ deleted w ++ omap doomed_by (functors w) ++ [next_fd w] →
                0 ≤ ch < next_fd w + 1).
  { intros ch. rewrite app_assoc, elem_of_app, list_elem_of_singleton.
    intros [Hin| ->]; [by apply Hl|]. pose proof (owned_next _ Ho). lia. }
  destruct (connect_timeout_ <=? 0); [|destruct timers_valid; cbn];
    (split; [split; cbn; rewrite ?Ht; try done|cbn; by rewrite ?Hat]);
    cbn; by rewrite ?Hw, ?Ha.
Qed.

Lemma Attempt_ok w r :
  conn_ok w → state_ (conn w) = kDisconnected →
  conn_ok (Attempt address_valid timers_valid connect_timeout_ has_new has_err w r).
Proof.
  intros Hw E. pose proof (conn_ok_detached _ Hw E) as Hd.
  destruct Hw as [_ Hs]. rewrite E in Hs. destruct Hs as (Hs & Hc & Ht). unfold Attempt.
  assert (Hd' : detached (set_attempting w false)).
  { destruct Hd. split; [by eapply owned_same|done..]. }
  destruct (negb _); [by apply FailConnection_ok|].
  unfold Connect. destruct r as [e| |e].
  - by apply FailConnection_ok.
  - destruct (CreateTcp _) as [w' fd] eqn:Ec.
    destruct (owned_CreateTcp_assign _ _ _ (detached_owned _ Hd') Hs Ec) as [Ho _].
    injection Ec as <- <-. apply CompleteConnection_ok. split; [done|..];
      unfold MoveAssign, Close; cbn; by rewrite Hs.
  - destruct (CreateTcp _) as [w' fd] eqn:Ec.
    destruct (owned_CreateTcp_assign _ _ _ (detached_owned _ Hd') Hs Ec) as [Ho Ho'].
    destruct (_ || _); [by eapply BeginWatchingConnect_ok|].
    injection Ec as <- <-.
    destruct (e =? EISCONN).
    + apply CompleteConnection_ok. split; [done|..]; unfold MoveAssign, Close; cbn; by rewrite Hs.
    + by apply FailConnection_ok.
Qed.

Lemma StopInLoop_ok w : conn_ok w → conn_ok (StopInLoop w).
Proof.
  intros Hw. unfold StopInLoop. destruct (decide _) as [|E]; [done|].
  apply dec_stable in E. pose proof (detached_Close _ (drop_attempt _ Hw E)) as [Ho Hc Ht].
  split; [by eapply owned_same|]. cbn. split; [apply Close_socket|done].
Qed.

Lemma StartInLoop_ok w : conn_ok w → conn_ok (StartInLoop w).
Proof.
  intros Hw. unfold StartInLoop. destruct (negb _); [done|].
  destruct (decide _) as [|E]; [done|]. destruct Hw as [Ho Hs].
  split; [by eapply owned_same|]. cbn. by destruct (state_ (conn w)).
Qed.

Lemma run_functor_ok w f fs :
  conn_ok w → functors w = f :: fs → conn_ok (run_functor (pop_functors w fs) f).
Proof.
  intros Hw Ef. destruct Hw as [Ho Hs].
  assert (doomed_by f = None → conn_ok (pop_functors w fs)) as Hpop.
  { intros Hf. split; [|exact Hs]. eapply owned_same; try done.
    unfold channels, doomed; cbn. rewrite Ef. cbn. by rewrite Hf. }
  destruct f as [| |ch]; cbn [run_functor].
  - by apply StartInLoop_ok, Hpop.
  - by apply StopInLoop_ok, Hpop.
  - split; [|exact Hs]. eapply owned_same; try done.
    unfold channels, doomed; cbn. rewrite Ef. cbn. by rewrite <-app_assoc.
Qed.

(** A timer that fires is the one of the attempt in progress. *)
Lemma HandleTimeout_ok w t :
  conn_ok w → t ∈ armed w →
  conn_ok (HandleTimeout has_err (set_armed w (armed w ∖ {[t]}) (next_timer w))).
Proof.
  intros Hw Hin. rewrite (owned_armed _ (conn_owned _ Hw)) in Hin.
  destruct (connect_timeout_timer_ (conn w)) as [t'|] eqn:Et; [|set_solver].
  assert (t' = t) as -> by set_solver.
  destruct (state_ (conn w)) eqn:E.
  { destruct Hw as [_ Hs]. rewrite E in Hs. destruct Hs as (_ & _ & ?). congruence. }
  unfold HandleTimeout. rewrite decide_False by (cbn; rewrite E; by intros []).
  apply FailConnection_ok. pose proof (drop_attempt _ Hw E) as Hg.
  unfold CancelConnectTimeout in Hg. by rewrite Et in Hg.
Qed.

Lemma set_requested_ok w b : conn_ok w → conn_ok (set_requested w b).
Proof. intros [Ho Hs]. split; [by eapply owned_same|exact Hs]. Qed.

Lemma conn_step_ok w ev :
  conn_ok w →
  conn_ok (conn_step address_valid timers_valid connect_timeout_ has_new has_err w ev).
Proof.
  intros Hw. destruct ev as [c|i|c| |r|e|e|t]; cbn [conn_step].
  2: { destruct (half w !! i) as [c|]; [|done]. destruct Hw as [Ho Hs]. split; [|exact Hs].
       eapply owned_same; try done. unfold channels, doomed; cbn. rewrite omap_app.
       by destruct c; cbn; rewrite app_nil_r. }
  all: try match goal with |- context [if attempting ?x then _ else _] =>
    destruct (attempting x) eqn:Eat; try done end.
  - destruct (set_requested_ok _ (request c) Hw) as [Ho Hs].
    split; [by eapply owned_same|exact Hs].
  - destruct c; [apply StartInLoop_ok|apply StopInLoop_ok]; by apply set_requested_ok.
  - destruct (functors w) as [|f fs] eqn:Ef; [done|by apply run_functor_ok].
  - apply Attempt_ok; [done|]. destruct Hw as [_ Hs].
    destruct (state_ (conn w)); [done|]. destruct Hs as (_ & _ & ?). congruence.
  - unfold HandleWrite. destruct (decide _) as [|E]; [done|].
    apply dec_stable in E. pose proof (drop_attempt _ Hw E).
    destruct (negb _); [by apply FailConnection_ok|by apply CompleteConnection_ok].
  - unfold HandleError. destruct (decide _) as [|E]; [done|].
    apply dec_stable in E. by apply FailConnection_ok, drop_attempt.
  - destruct (decide _) as [Hin|]; [|done]. by apply HandleTimeout_ok.
Qed.

Lemma conn_run_ok evs :
  conn_ok (conn_run address_valid timers_valid connect_timeout_ has_new has_err NewWorld evs).
Proof.
  unfold conn_run. assert (conn_ok NewWorld) as H0.
  { split; [|done]. split; try done; [constructor|]. intros ? []%elem_of_nil. }
  revert H0. generalize NewWorld. induction evs as [|ev evs IH]; intros w Hw; [done|].
  cbn. by apply IH, conn_step_ok.
Qed.

End Ownership.

(** ** Requests and answers *)

(** What a handler may still answer: the calls of the user it made, and one more
    while a request stands. *)
Definition answers (w : World) : nat :=
  (length (called w) + Nat.b2n (connect_requested_ (conn w)))%nat.

(** A step that answers nothing new: callbacks are only added, and each one
    consumes a request. *)
Definition consumes (w w' : World) : Prop :=
  called w `prefix_of` called w' ∧ (answers w' ≤ answers w)%nat.

#[export] Instance consumes_preorder : PreOrder consumes.
Proof.
  split.
  - intros w. by split.
  - intros w1 w2 w3 [H1 H2] [H3 H4]. split; [by etrans|lia].
Qed.

Lemma consumes_same w w' :
  called w' = called w → connect_requested_ (conn w') = connect_requested_ (conn w) →
  consumes w w'.
Proof. intros Hc Hr. unfold consumes, answers. by rewrite Hc, Hr. Qed.

Section Answers.
Variables (address_valid timers_valid : bool) (connect_timeout_ : Z).
Variables (has_new has_err : bool).
Implicit Types w : World.

Lemma consumes_FailConnection w e : consumes w (FailConnection has_err w e).
Proof.
  destruct (Close_frame w) as (_ & _ & Hr & Hc & _). unfold FailConnection, consumes, answers.
  cbn. rewrite Hr. destruct has_err, (connect_requested_ (conn w)); cbn; rewrite Hc;
    rewrite ?length_app; cbn; (split; [done || by apply prefix_app_r|lia]).
Qed.

Lemma consumes_CompleteConnection w : consumes w (CompleteConnection has_new has_err w).
Proof.
  unfold CompleteConnection. cbn. destruct (connect_requested_ (conn w)) eqn:Er; cbn.
  - destruct (socket_ (conn w)).
    + unfold consumes, answers. destruct has_new; cbn; rewrite Er, ?length_app; cbn;
        (split; [done || by apply prefix_app_r|lia]).
    + etrans; [|apply consumes_FailConnection]. unfold consumes, answers. cbn. rewrite Er.
      split; [done|cbn; lia].
  - unfold Close; cbn. destruct (socket_ (conn w)); by apply consumes_same.
Qed.

Lemma consumes_drop_attempt w : consumes w (RemoveAndResetChannel (CancelConnectTimeout w)).
Proof.
  unfold RemoveAndResetChannel, CancelConnectTimeout.
  destruct (connect_timeout_timer_ (conn w)); cbn; destruct (channel_ (conn w));
    by apply consumes_same.
Qed.

Lemma consumes_Attempt w r :
  consumes w (Attempt address_valid timers_valid connect_timeout_ has_new has_err w r).
Proof.
  assert (Hassign : ∀ w fd, consumes w (MoveAssign w fd)).
  { intros w' fd. unfold MoveAssign, Close. destruct (socket_ (conn w')); by apply consumes_same. }
  assert (Hcreate : ∀ w, consumes w (CreateTcp w).1) by (intros; by apply consumes_same).
  unfold Attempt. etrans; [by apply (consumes_same w (set_attempting w false))|].
  destruct (negb _); [apply consumes_FailConnection|].
  unfold Connect. destruct r as [e| |e]; [apply consumes_FailConnection|..].
  all: etrans; [apply Hcreate|]; cbn [CreateTcp fst].
  - etrans; [apply Hassign|apply consumes_CompleteConnection].
  - destruct (_ || _).
    + etrans; [apply (Hassign _ (next_fd w))|]. unfold BeginWatchingConnect, StartConnectTimeout.
      destruct (_ <=? _); [|destruct (negb _)]; by apply consumes_same.
    + destruct (_ =? _); [etrans; [apply Hassign|apply consumes_CompleteConnection]|].
      etrans; [|apply consumes_FailConnection]. by apply consumes_same.
Qed.

Lemma consumes_StopInLoop w : consumes w (StopInLoop w).
Proof.
  unfold StopInLoop. destruct (decide _); [done|]. etrans; [apply consumes_drop_attempt|].
  unfold Close. destruct (socket_ _); by apply consumes_same.
Qed.

Lemma consumes_run_functor w f : consumes w (run_functor w f).
Proof.
  destruct f; cbn [run_functor]; [|apply consumes_StopInLoop|by apply consumes_same].
  unfold StartInLoop. destruct (negb _); [done|]. destruct (decide _); [done|].
  by apply consumes_same.
Qed.

(** The calls of [Start] in a history. *)
Definition is_start (ev : Event) : bool :=
  match ev with EStore CStart | ELoopCall CStart => true | _ => false end.
Definition starts (evs : list Event) : nat := length (List.filter is_start evs).

Lemma conn_step_answers w ev :
  let w' := conn_step address_valid timers_valid connect_timeout_ has_new has_err w ev in
  called w `prefix_of` called w' ∧ (answers w' ≤ answers w + Nat.b2n (is_start ev))%nat.
Proof.
  assert (Hstore : ∀ c, called w `prefix_of` called (set_requested w (request c)) ∧
            (answers (set_requested w (request c)) ≤
             answers w + Nat.b2n (is_start (EStore c)))%nat).
  { intros c. split; [done|]. unfold answers; cbn.
    destruct c, (connect_requested_ (conn w)); cbn; lia. }
  assert (Hweak : ∀ w', consumes w w' → called w `prefix_of` called w' ∧
            (answers w' ≤ answers w + Nat.b2n (is_start ev))%nat).
  { intros w' [? ?]. split; [done|lia]. }
  destruct ev as [c|i|c| |r|e|e|t]; cbn [conn_step].
  - apply Hstore.
  - apply Hweak. destruct (half w !! i); [by apply consumes_same|done].
  - destruct (attempting w); [by apply Hweak|].
    destruct (Hstore c) as [Hp Ha].
    destruct (consumes_run_functor (set_requested w (request c)) (functor_of c)) as [Hp' Ha'].
    split; [by etrans|]. unfold is_start in *. lia.
  - apply Hweak. destruct (attempting w); [done|]. destruct (functors w) as [|f fs]; [done|].
    etrans; [|apply consumes_run_functor]. by apply consumes_same.
  - apply Hweak. destruct (attempting w); [apply consumes_Attempt|done].
  - apply Hweak. destruct (attempting w); [done|]. unfold HandleWrite.
    destruct (decide _); [done|]. etrans; [apply consumes_drop_attempt|].
    destruct (negb _); [apply consumes_FailConnection|apply consumes_CompleteConnection].
  - apply Hweak. destruct (attempting w); [done|]. unfold HandleError.
    destruct (decide _); [done|]. etrans; [apply consumes_drop_attempt|apply consumes_FailConnection].
  - apply Hweak. destruct (attempting w); [done|]. destruct (decide (t ∈ _)); [|done].
    unfold HandleTimeout. destruct (decide _); [by apply consumes_same|].
    etrans; [|apply consumes_FailConnection]. unfold RemoveAndResetChannel; cbn.
    destruct (channel_ (conn w)); by apply consumes_same.
Qed.

Lemma conn_run_answers evs w :
  let w' := conn_run address_valid timers_valid connect_timeout_ has_new has_err w evs in
  called w `prefix_of` called w' ∧ (answers w' ≤ answers w + starts evs)%nat.
Proof.
  revert w. induction evs as [|ev evs IH]; intros w; cbn; [split; [done|lia]|].
  destruct (conn_step_answers w ev) as [Hp Ha]. destruct (IH (conn_step address_valid
    timers_valid connect_timeout_ has_new has_err w ev)) as [Hp' Ha'].
  split; [by etrans|]. unfold starts in *; cbn. destruct (is_start ev); cbn in *; lia.
Qed.

End Answers.

(** ** Settled requests *)

(** The last of the calls whose functor is queued. *)
Definition call_of (f : Functor) : option Call :=
  match f with FStartInLoop => Some CStart | FStopInLoop => Some CStop | FDelete _ => None end.
Definition calls (w : World) : list Call := omap call_of (functors w).

Definition busy (w : World) : Prop := state_ (conn w) = kConnecting ∨ attempting w = true.

(** While calls do not overlap the request agrees with the attempt, up to the
    calls whose functors are still queued. *)
Record settled (w : World) : Prop := {
  settled_half : half w = [];
  settled_request :
    match list.last (calls w) with
    | Some CStop => connect_requested_ (conn w) = false
    | Some CStart => busy w → connect_requested_ (conn w) = true
    | None => connect_requested_ (conn w) = true ↔ busy w
    end;
  settled_attempt : attempting w = true → state_ (conn w) = kDisconnected;
}.

(** A history in which a call from another thread stores its request and posts
    its functor before the next call begins. *)
Inductive Serial :=
| SCall (c : Call)
| SRun
| SAttempt (r : ConnectResult)
| SWritable (error_number : Z)
| SError (error_number : Z)
| STimeout (timer : Z).

Definition expand (s : Serial) : list Event :=
  match s with
  | SCall c => [EStore c; EPost 0]
  | SRun => [ERun]
  | SAttempt r => [EAttempt r]
  | SWritable e => [EWritable e]
  | SError e => [EError e]
  | STimeout t => [ETimeout t]
  end.

Section Settled.
Variables (address_valid timers_valid : bool) (connect_timeout_ : Z).
Variables (has_new has_err : bool).
Implicit Types w : World.

(** The end of a handler that gave its attempt up or succeeded. *)
Record finished (w w' : World) : Prop := {
  finished_half : half w' = half w;
  finished_calls : calls w' = calls w;
  finished_request : connect_requested_ (conn w') = false;
  finished_state : state_ (conn w') = kDisconnected;
  finished_attempting : attempting w' = attempting w;
}.

Lemma settled_finished w w' :
  half w = [] → attempting w = false → finished w w' → settled w'.
Proof.
  intros Hh Hat [Eh Ec Er Es Ea].
  assert (¬ busy w') by (intros [|]; congruence). split; [congruence| |congruence].
  rewrite Er. destruct (list.last (calls w')) as [[]|]; [done|done|]. split; [done|by intros].
Qed.

Lemma finished_FailConnection w e : finished w (FailConnection has_err w e).
Proof.
  destruct (Close_frame w) as (_ & _ & _ & _ & Hf). unfold FailConnection.
  assert (Hh : half (Close w) = half w ∧ attempting (Close w) = attempting w)
    by (unfold Close; by destruct (socket_ (conn w))).
  destruct Hh as [Hh Ha].
  destruct (_ && _); split; unfold calls; cbn; by rewrite ?Hf, ?Hh, ?Ha.
Qed.

Lemma finished_CompleteConnection w : finished w (CompleteConnection has_new has_err w).
Proof.
  unfold CompleteConnection. cbn. destruct (connect_requested_ (conn w)); cbn.
  - destruct (socket_ (conn w)); [destruct has_new; by split|].
    destruct (finished_FailConnection (set_socket (set_requested
      (set_state w kDisconnected) false) None) EBADF). by split.
  - unfold Close; cbn. destruct (socket_ (conn w)); by split.
Qed.

Lemma drop_attempt_frame w :
  let w' := RemoveAndResetChannel (CancelConnectTimeout w) in
  half w' = half w ∧ calls w' = calls w ∧ attempting w' = attempting w ∧
  connect_requested_ (conn w') = connect_requested_ (conn w).
Proof.
  unfold RemoveAndResetChannel, CancelConnectTimeout.
  destruct (connect_timeout_timer_ (conn w)); cbn; destruct (channel_ (conn w)); cbn;
    unfold calls; cbn; by rewrite ?omap_app, ?app_nil_r.
Qed.

Lemma finished_via w w1 w' :
  half w1 = half w → calls w1 = calls w → attempting w1 = attempting w →
  finished w1 w' → finished w w'.
Proof. intros Hh Hc Ha []. split; congruence. Qed.

Lemma MoveAssign_frame w fd :
  let w' := MoveAssign (CreateTcp w).1 fd in
  half w' = half w ∧ calls w' = calls w ∧ attempting w' = attempting w ∧
  connect_requested_ (conn w') = connect_requested_ (conn w).
Proof. unfold MoveAssign, Close; cbn. by destruct (socket_ (conn w)). Qed.

Lemma settled_Begin w :
  settled w → attempting w = true →
  settled (BeginWatchingConnect timers_valid connect_timeout_
             (CreateTcp (set_attempting w false)).1 (next_fd w)).
Proof.
  intros [Hh Hr Ha] Hat.
  destruct (MoveAssign_frame (set_attempting w false) (next_fd w)) as (Eh & Ec & Ea & Er).
  assert (Hbusy : busy w) by (by right).
  assert (Hnew : ∀ w', half w' = half w → calls w' = calls w → attempting w' = false →
            connect_requested_ (conn w') = connect_requested_ (conn w) →
            state_ (conn w') = kConnecting → settled w').
  { intros w' E1 E2 E3 E4 E5. split; [congruence| |congruence]. rewrite E2, E4.
    destruct (list.last (calls w)) as [[]|]; [tauto|done|].
    split; [by left|]. intros _. by apply Hr. }
  unfold BeginWatchingConnect, StartConnectTimeout.
  destruct (_ <=? _); [|destruct (negb _)]; by apply Hnew.
Qed.

Lemma settled_Attempt w r :
  settled w → attempting w = true →
  settled (Attempt address_valid timers_valid connect_timeout_ has_new has_err w r).
Proof.
  intros Hw Hat.
  assert (Hend : ∀ w', finished (set_attempting w false) w' → settled w').
  { intros w'. apply settled_finished; [apply Hw|done]. }
  destruct (MoveAssign_frame (set_attempting w false) (next_fd w)) as (Eh & Ec & Ea & _).
  unfold Attempt. destruct (negb _); [apply Hend, finished_FailConnection|].
  unfold Connect. destruct r as [e| |e].
  - apply Hend, finished_FailConnection.
  - apply Hend. exact (finished_via _ _ _ Eh Ec Ea (finished_CompleteConnection _)).
  - cbn [CreateTcp]. destruct (_ || _); [by apply (settled_Begin w)|]. apply Hend. destruct (_ =? _).
    + exact (finished_via _ _ _ Eh Ec Ea (finished_CompleteConnection _)).
    + eapply finished_via; [..|apply finished_FailConnection]; done.
Qed.

Lemma settled_pop w f fs c :
  settled w → functors w = f :: fs → call_of f = Some c →
  match list.last (calls (pop_functors w fs)) with
  | Some CStop => connect_requested_ (conn w) = false
  | Some CStart => busy w → connect_requested_ (conn w) = true
  | None => match c with
            | CStop => connect_requested_ (conn w) = false
            | CStart => busy w → connect_requested_ (conn w) = true
            end
  end.
Proof.
  intros [_ Hr _] Hf Hc.
  assert (calls w = c :: calls (pop_functors w fs)) as Hw
    by (unfold calls; rewrite Hf; cbn; by rewrite Hc).
  rewrite Hw, last_cons in Hr. by destruct (list.last (calls (pop_functors w fs))) as [[]|].
Qed.

Lemma settled_StartInLoop w fs :
  settled w → attempting w = false → functors w = FStartInLoop :: fs →
  settled (StartInLoop (pop_functors w fs)).
Proof.
  intros Hw Hat Hf. pose proof (settled_pop _ _ _ CStart Hw Hf eq_refl) as Hr.
  destruct Hw as [Hh _ Ha]. unfold StartInLoop; cbn [conn pop_functors].
  destruct (connect_requested_ (conn w)) eqn:Er; cbn [negb]; [destruct (decide _) as [E|E]|];
    (split; [done| |]).
  - cbn [conn pop_functors]. rewrite Er.
    destruct (list.last _) as [[]|]; [done|done|]. split; [by left|done].
  - cbn. congruence.
  - change (calls (set_attempting _ _)) with (calls (pop_functors w fs)). cbn. rewrite Er.
    destruct (list.last _) as [[]|]; [done|done|]. split; [by right|done].
  - cbn. by destruct (state_ (conn w)).
  - cbn [conn pop_functors]. rewrite Er.
    destruct (list.last _) as [[]|]; [done|done|]. split; [done|exact Hr].
  - done.
Qed.

Lemma settled_StopInLoop w fs :
  settled w → attempting w = false → functors w = FStopInLoop :: fs →
  settled (StopInLoop (pop_functors w fs)).
Proof.
  intros Hw Hat Hf. pose proof (settled_pop _ _ _ CStop Hw Hf eq_refl) as Hr.
  assert (Hend : ∀ w', half w' = half w → calls w' = calls (pop_functors w fs) →
            connect_requested_ (conn w') = connect_requested_ (conn w) →
            state_ (conn w') = kDisconnected → attempting w' = false → settled w').
  { intros w' E1 E2 E3 E4 E5. assert (¬ busy w') by (intros [|]; congruence).
    destruct Hw as [Hh _ _]. split; [congruence| |congruence]. rewrite E2, E3.
    destruct (list.last _) as [[]|]; [done|done|]. rewrite Hr. split; [done|by intros]. }
  unfold StopInLoop. destruct (decide _) as [E|E].
  - apply Hend; try done. cbn in *. by destruct (state_ (conn w)).
  - destruct (drop_attempt_frame (pop_functors w fs)) as (Eh & Ec & Ea & Er).
    unfold Close. destruct (socket_ _); apply Hend; cbn; try done; etrans; done.
Qed.

Lemma settled_drop_attempt w w' :
  settled w → attempting w = false →
  finished (RemoveAndResetChannel (CancelConnectTimeout w)) w' → settled w'.
Proof.
  intros Hw Hat. destruct (drop_attempt_frame w) as (Eh & _ & Ea & _).
  apply settled_finished; [rewrite Eh; apply Hw|congruence].
Qed.

Lemma settled_serial w x :
  conn_ok w → settled w →
  settled (conn_run address_valid timers_valid connect_timeout_ has_new has_err w (expand x)).
Proof.
  intros Hok Hw. pose proof Hw as [Hh Hr Ha]. destruct x as [c| |r|e|e|t]; cbn [expand conn_run foldl].
  - cbn. rewrite Hh. cbn. split; cbn; [done| |done].
    assert (Hl : ∀ f, list.last (omap call_of (functors w ++ [f])) =
              match call_of f with Some c => Some c | None => list.last (calls w) end).
    { intros f. rewrite omap_app. cbn. destruct (call_of f); cbn;
        [by rewrite last_snoc|by rewrite app_nil_r]. }
    unfold calls; cbn. rewrite Hl. by destruct c.
  - cbn. destruct (attempting w) eqn:Hat; [done|]. destruct (functors w) as [|f fs] eqn:Ef; [done|].
    destruct f as [| |ch]; cbn [run_functor].
    + by apply settled_StartInLoop.
    + by apply settled_StopInLoop.
    + assert (calls (pop_functors w fs) = calls w) as Hc by (unfold calls; by rewrite Ef).
      split; [done| |cbn; congruence].
      change (calls _) with (calls (pop_functors w fs)). rewrite Hc. exact Hr.
  - cbn. destruct (attempting w) eqn:Hat; [by apply settled_Attempt|done].
  - cbn. destruct (attempting w) eqn:Hat; [done|]. unfold HandleWrite.
    destruct (decide _); [done|]. eapply settled_drop_attempt; [done..|].
    destruct (negb _); [apply finished_FailConnection|apply finished_CompleteConnection].
  - cbn. destruct (attempting w) eqn:Hat; [done|]. unfold HandleError.
    destruct (decide _); [done|]. eapply settled_drop_attempt; [done..|]. apply finished_FailConnection.
  - cbn. destruct (attempting w) eqn:Hat; [done|]. destruct (decide (t ∈ _)) as [Hin|]; [|done].
    unfold HandleTimeout. destruct (decide _) as [E|E]; [split; [done|exact Hr|cbn; congruence]|].
    eapply (settled_finished w); [done..|].
    eapply finished_via; [..|apply finished_FailConnection]; unfold RemoveAndResetChannel; cbn;
      destruct (channel_ (conn w)); try done; unfold calls; cbn; by rewrite omap_app, app_nil_r.
Qed.

End Settled.

(** ** Properties *)

Section Properties.
Variables (address_valid timers_valid : bool) (connect_timeout_ : Z).
Variables (has_new has_err : bool).
Local Notation run evs :=
  (conn_run address_valid timers_valid connect_timeout_ has_new has_err NewWorld evs).

Lemma serial_run_settled xs : settled (run (xs ≫= expand)).
Proof.
  induction xs as [|x xs IH] using rev_ind.
  { split; [done| |done]. split; [done|by intros []]. }
  rewrite bind_app. unfold conn_run in *. rewrite foldl_app. cbn. rewrite app_nil_r.
  apply settled_serial; [|exact IH]. apply (conn_run_ok _ _ _ _ _ (xs ≫= expand)).
Qed.

(** the connector leaks nothing and owns nothing twice.  In every
    interleaving of calls from any thread, functors, socket events and timeouts,
    each descriptor it created is exactly one of: held for the attempt in
    progress, handed to the user once, or closed once; a channel and a timeout
    exist only while an attempt is in progress, the channel being that of its
    descriptor and the only one registered with the loop; and every channel that
    was given up is deleted at most once, and only after it was given up. *)
Theorem connector_owns_descriptors evs :
  let w := run evs in
  let c := conn w in
  closed w ++ handed w ++ option_list (socket_ c) ≡ₚ seqZ 0 (next_fd w) ∧
  NoDup (closed w ++ handed w ++ option_list (socket_ c)) ∧
  (is_Some (socket_ c) ↔ IsConnecting w = true) ∧
  channel_ c = socket_ c ∧
  watched w = list_to_set (option_list (channel_ c)) ∧
  armed w = list_to_set (option_list (connect_timeout_timer_ c)) ∧
  (is_Some (connect_timeout_timer_ c) → IsConnecting w = true) ∧
  NoDup (deleted w ++ doomed w ++ option_list (channel_ c)).
Proof.
  cbv zeta. unfold IsConnecting. rewrite bool_decide_eq_true.
  destruct (conn_run_ok address_valid timers_valid connect_timeout_ has_new has_err evs)
    as [[Hf Hn Hnd Hl Hw Ha] Hs].
  split; [done|]. split; [rewrite Hf; apply NoDup_seqZ|].
  destruct (state_ _) eqn:E.
  - destruct Hs as (Hs & Hc & Ht). split; [rewrite Hs; split; [by intros []|done]|].
    split; [congruence|]. do 2 (split; [done|]). split; [rewrite Ht; by intros []|done].
  - destruct Hs as ([fd Hs] & Hc & _). split; [by rewrite Hs|]. done.
Qed.

(** every request is answered at most once and a withdrawn one not at all.
    In every interleaving the user is called back (with a connection or an error)
    at most as often as [Start] was called; and from any moment at which no
    request stands, as after a [Stop], until the next [Start] the user is not
    called back at all, whatever functors, events and timeouts still arrive. *)
Theorem connector_answers_once evs after :
  (length (called (run evs)) ≤ starts evs)%nat ∧
  (connect_requested_ (conn (run evs)) = false → starts after = 0%nat →
   called (run (evs ++ after)) = called (run evs)).
Proof.
  split.
  - destruct (conn_run_answers address_valid timers_valid connect_timeout_ has_new has_err
                evs NewWorld) as [_ Ha]. unfold answers in Ha. cbn in Ha. lia.
  - intros Hr Hs. unfold conn_run in *. rewrite foldl_app.
    match goal with |- called (foldl _ ?w _) = _ => set (w0 := w) in * end.
    destruct (conn_run_answers address_valid timers_valid connect_timeout_ has_new has_err
                after w0) as [Hp Ha]. unfold answers, conn_run in *.
    rewrite Hr, Hs in Ha. cbn in Ha. symmetry. apply prefix_length_eq; [done|lia].
Qed.

(** when calls from other threads do not overlap, requests and attempts agree
    once the posted functors have run: there is an attempt in progress if and
    only if a request stands.  So no request of [Start] is forgotten and no
    attempt survives a [Stop]. *)
Theorem connector_request_settled xs :
  let w := run (xs ≫= expand) in
  calls w = [] → attempting w = false →
  connect_requested_ (conn w) = IsConnecting w.
Proof.
  cbv zeta. intros Hc Ha. destruct (serial_run_settled xs) as [_ Hr _].
  rewrite Hc in Hr. cbn in Hr. unfold busy in Hr. rewrite Ha in Hr.
  apply Bool.eq_iff_eq_true. unfold IsConnecting. rewrite bool_decide_eq_true, Hr.
  intuition congruence.
Qed.

End Properties.

Lemma connector_answers_once_witness :
  called (conn_run true true 3000 true true NewWorld
    ([EStore CStart; EPost 0; ERun; EAttempt (ConnectError EINPROGRESS); EStore CStop] ++
     [EWritable 0; EPost 0; ERun; ETimeout 1])) = [].
Proof.
  etrans; [apply (connector_answers_once true true 3000 true true); reflexivity|reflexivity].
Defined.

Lemma connector_request_settled_witness :
  IsConnecting (conn_run true true 3000 true true NewWorld
    ([SCall CStart; SRun; SAttempt (ConnectError EINPROGRESS)] ≫= expand)) = true.
Proof.
  symmetry. apply (connector_request_settled true true 3000 true true
    [SCall CStart; SRun; SAttempt (ConnectError EINPROGRESS)]); reflexivity.
Defined.

(** A [Start] on the loop thread can be lost to an earlier [Stop] of another
    thread: the functor of the [Stop], which runs later, ends the attempt of the
    [Start] without looking at the request.  The request then stands with no
    attempt, no queued call and no answer. *)
Theorem connector_start_lost timers_valid connect_timeout_ has_new has_err :
  let w := conn_run true timers_valid connect_timeout_ has_new has_err NewWorld
    [ELoopCall CStart; EAttempt (ConnectError EINPROGRESS);
     EStore CStop; EPost 0; ELoopCall CStart; ERun] in
  connect_requested_ (conn w) = true ∧ IsConnecting w = false ∧
  attempting w = false ∧ calls w = [] ∧ half w = [] ∧ called w = [].
Proof.
  cbv zeta. destruct timers_valid, connect_timeout_; repeat split; reflexivity.
Qed.
