(* ===== verification/CircularQueue.v ===== *)
(** * The bounded ring buffer

    Models [src/common/concurrency/CircularQueue.h].  The element type and the
    value [T{}] that overwrites a vacated slot are parameters.  Indices and
    counters are [std::size_t].  [None] is an access outside [buffer_] or a
    remainder by zero.  [BoundedQueue] is what the blocking queue built on it
    relies on. *)
From Stdlib Require Import ZArith Lia.
From stdpp Require Import base list numbers.
From S2P Require Import Prelude.

Local Open Scope Z_scope.
Local Open Scope width_scope.

Section CircularQueue.
Context {T : Type} (T_default : T).

Record CircularQueue := MkCircularQueue {
  buffer_ : list T;
  capacity_ : Z;
  head_ : Z;
  tail_ : Z;
  overrun_counter_ : Z;
}.

Definition NewCircularQueue (capacity : Z) : CircularQueue :=
  MkCircularQueue (replicate (Z.to_nat (capacity +₆₄ 1)) T_default) (capacity +₆₄ 1) 0 0 0.

(** ** Operations *)

Definition Next (q : CircularQueue) (index : Z) : option Z :=
  if capacity_ q =? 0 then None else Some ((index +₆₄ 1) mod capacity_ q).

Definition Empty (q : CircularQueue) : bool := head_ q =? tail_ q.

Definition Full (q : CircularQueue) : option bool :=
  n ← Next q (tail_ q); Some (n =? head_ q).

(** [buffer_[i]] read and assigned. *)
Definition at_ (b : list T) (i : Z) : option T := b !! Z.to_nat i.
Definition assign (b : list T) (i : Z) (x : T) : option (list T) :=
  if i <? Z.of_nat (length b) then Some (<[Z.to_nat i := x]> b) else None.

Definition PushBack (q : CircularQueue) (item : T) : option (CircularQueue * bool) :=
  full ← Full q;
  if full : bool then Some (q, false)
  else
    b ← assign (buffer_ q) (tail_ q) item;
    n ← Next q (tail_ q);
    Some (MkCircularQueue b (capacity_ q) (head_ q) n (overrun_counter_ q), true).

(** [item] is not null. *)
Definition PopFront (q : CircularQueue) : option (CircularQueue * option T) :=
  if Empty q then Some (q, None)
  else
    x ← at_ (buffer_ q) (head_ q);
    b ← assign (buffer_ q) (head_ q) T_default;
    n ← Next q (head_ q);
    Some (MkCircularQueue b (capacity_ q) n (tail_ q) (overrun_counter_ q), Some x).

Definition DropFront (q : CircularQueue) : option (CircularQueue * bool) :=
  if Empty q then Some (q, false)
  else
    b ← assign (buffer_ q) (head_ q) T_default;
    n ← Next q (head_ q);
    Some (MkCircularQueue b (capacity_ q) n (tail_ q) (overrun_counter_ q +₆₄ 1), true).

Definition Size (q : CircularQueue) : Z :=
  if head_ q <=? tail_ q then tail_ q -₆₄ head_ q
  else (capacity_ q -₆₄ head_ q) +₆₄ tail_ q.

Definition Capacity (q : CircularQueue) : Z := capacity_ q -₆₄ 1.

Definition OverrunCounter (q : CircularQueue) : Z := overrun_counter_ q.

(** The loop of [Clear]; the fuel bounds its turns. *)
Fixpoint ClearLoop (fuel : nat) (count_overrun : bool) (q : CircularQueue) : option CircularQueue :=
  if Empty q then Some q
  else match fuel with
  | O => None
  | S fuel =>
      if count_overrun then q ← fst <$> DropFront q; ClearLoop fuel count_overrun q
      else
        b ← assign (buffer_ q) (head_ q) T_default;
        n ← Next q (head_ q);
        ClearLoop fuel count_overrun
          (MkCircularQueue b (capacity_ q) n (tail_ q) (overrun_counter_ q))
  end.

(** The buffer has fewer elements than [capacity_], so that many turns are
    enough. *)
Definition Clear (count_overrun : bool) (q : CircularQueue) : option CircularQueue :=
  ClearLoop (Z.to_nat (capacity_ q)) count_overrun q.

(** ** What the buffer holds *)

(** The [n] elements from index [i] on, cyclically. *)
Fixpoint ring (b : list T) (cap i : Z) (n : nat) : list T :=
  match n with
  | O => []
  | S n => match b !! Z.to_nat i with
           | Some x => x :: ring b cap ((i + 1) mod cap) n
           | None => []
           end
  end.

Definition contents (q : CircularQueue) : list T :=
  ring (buffer_ q) (capacity_ q) (head_ q) (Z.to_nat (Size q)).

(** The number of elements as an unbounded integer. *)
Definition count (q : CircularQueue) : Z := (tail_ q - head_ q) mod capacity_ q.

Record queue_ok (q : CircularQueue) : Prop := {
  ok_capacity : 1 ≤ capacity_ q < 2 ^ 64;
  ok_length : Z.of_nat (length (buffer_ q)) = capacity_ q;
  ok_head : 0 ≤ head_ q < capacity_ q;
  ok_tail : 0 ≤ tail_ q < capacity_ q;
}.

Lemma queue_ok_new capacity : 0 ≤ capacity < 2 ^ 64 - 1 → queue_ok (NewCircularQueue capacity).
Proof.
  intros. assert (capacity +₆₄ 1 = capacity + 1) as Hc by (apply u64_small; unfold is_u64; lia).
  split; simpl; rewrite ?Hc, ?length_replicate; lia.
Qed.

Section Ok.
Variable q : CircularQueue.
Hypothesis Hok : queue_ok q.

Lemma count_range : 0 ≤ count q < capacity_ q.
Proof. destruct Hok. apply Z.mod_pos_bound. lia. Qed.

Lemma count_cases : count q = if head_ q <=? tail_ q then tail_ q - head_ q
                              else tail_ q - head_ q + capacity_ q.
Proof.
  destruct Hok. unfold count. case_match; reflect_guards.
  - apply Z.mod_small. lia.
  - rewrite <-(Z.mod_add _ 1) by lia. rewrite Z.mul_1_l. apply Z.mod_small. lia.
Qed.

Lemma Size_count : Size q = count q.
Proof.
  rewrite count_cases. destruct Hok. unfold Size. case_match; reflect_guards;
    rewrite ?u64_small by (unfold is_u64; lia); [done|].
  rewrite ?u64_small by (unfold is_u64; rewrite ?u64_small by (unfold is_u64; lia); lia).
  rewrite ?u64_small by (unfold is_u64; lia). lia.
Qed.

Lemma Empty_count : Empty q = (count q =? 0).
Proof. rewrite count_cases. destruct Hok. unfold Empty. repeat case_match; reflect_guards; lia. Qed.

(** The successor of an index inside the buffer. *)
Lemma Next_small i : 0 ≤ i < capacity_ q → Next q i = Some ((i + 1) mod capacity_ q).
Proof.
  intros. destruct Hok. unfold Next. case_match; reflect_guards; [lia|].
  rewrite u64_small by (unfold is_u64; lia). done.
Qed.

Lemma succ_mod i : 0 ≤ i < capacity_ q →
  (i + 1) mod capacity_ q = if i =? capacity_ q - 1 then 0 else i + 1.
Proof.
  intros. case_match; reflect_guards.
  - subst. replace (capacity_ q - 1 + 1) with (capacity_ q) by lia. apply Z.mod_same. lia.
  - apply Z.mod_small. lia.
Qed.

Lemma Full_count : Full q = Some (count q =? capacity_ q - 1).
Proof.
  unfold Full. destruct Hok. rewrite Next_small, succ_mod by lia. simpl. f_equal.
  rewrite count_cases. repeat case_match; reflect_guards; lia.
Qed.

End Ok.

Lemma ring_length b cap n : ∀ i, 1 ≤ cap → Z.of_nat (length b) = cap → 0 ≤ i < cap →
  length (ring b cap i n) = n.
Proof.
  induction n as [|n IH]; intros i Hc Hl Hi; simpl; [done|].
  destruct (b !! Z.to_nat i) eqn:Hb; [|apply lookup_ge_None in Hb; lia].
  simpl. f_equal. apply IH; [done|done|]. apply Z.mod_pos_bound. lia.
Qed.

(** Writing outside the [n] slots from [i] does not change them. *)
Lemma ring_assign b cap n j x : ∀ i, 1 ≤ cap → 0 ≤ i < cap → 0 ≤ j < cap → Z.of_nat n ≤ cap →
  Z.of_nat n ≤ (j - i) mod cap → ring (<[Z.to_nat j := x]> b) cap i n = ring b cap i n.
Proof.
  induction n as [|n IH]; intros i Hc Hi Hj Hn Hd; simpl; [done|].
  assert (i ≠ j) as Hij. { intros ->. rewrite Z.sub_diag, Z.mod_0_l in Hd by lia. lia. }
  rewrite list_lookup_insert_ne by lia. case_match; [|done]. f_equal. apply IH; try lia.
  - apply Z.mod_pos_bound. lia.
  - rewrite Zminus_mod_idemp_r. replace (j - (i + 1)) with ((j - i) - 1) by lia.
    rewrite <-Zminus_mod_idemp_l, Z.mod_small; [lia|].
    pose proof (Z.mod_pos_bound (j - i) cap ltac:(lia)). lia.
Qed.

Lemma ring_snoc b cap n : ∀ i x, 1 ≤ cap → 0 ≤ i < cap →
  b !! Z.to_nat ((i + Z.of_nat n) mod cap) = Some x → Z.of_nat (length b) = cap →
  ring b cap i (S n) = ring b cap i n ++ [x].
Proof.
  induction n as [|n IH]; intros i x Hc Hi Hx Hl.
  - simpl in *. rewrite Z.add_0_r, Z.mod_small in Hx by lia. by rewrite Hx.
  - assert (is_Some (b !! Z.to_nat i)) as [y Hy] by (apply lookup_lt_is_Some; lia).
    change (ring b cap i (S (S n))) with
      (match b !! Z.to_nat i with Some x => x :: ring b cap ((i + 1) mod cap) (S n) | None => [] end).
    cbn [ring]. rewrite Hy. simpl. f_equal. rewrite <-(IH ((i + 1) mod cap) x); try done.
    + apply Z.mod_pos_bound. lia.
    + rewrite Zplus_mod_idemp_l. by replace (i + 1 + Z.of_nat n) with (i + Z.of_nat (S n)) by lia.
Qed.

(** ** The operations on the contents *)

Lemma contents_length q : queue_ok q → Z.of_nat (length (contents q)) = count q.
Proof.
  intros Hok. pose proof (count_range q Hok). unfold contents. rewrite Size_count by done.
  destruct Hok. rewrite ring_length by lia. lia.
Qed.

(** Moving the tail or the head by one slot. *)
Lemma count_push q b n : queue_ok q → count q < capacity_ q - 1 →
  count (MkCircularQueue b (capacity_ q) (head_ q) ((tail_ q + 1) mod capacity_ q) n) = count q + 1.
Proof.
  intros Hok Hc. pose proof (count_range q Hok). unfold count in *. simpl. destruct Hok.
  rewrite Zminus_mod_idemp_l. replace (tail_ q + 1 - head_ q) with (tail_ q - head_ q + 1) by lia.
  rewrite <-Zplus_mod_idemp_l. apply Z.mod_small. lia.
Qed.

Lemma count_pop q b n : queue_ok q → 0 < count q →
  count (MkCircularQueue b (capacity_ q) ((head_ q + 1) mod capacity_ q) (tail_ q) n) = count q - 1.
Proof.
  intros Hok Hc. pose proof (count_range q Hok). unfold count in *. simpl. destruct Hok.
  rewrite Zminus_mod_idemp_r. replace (tail_ q - (head_ q + 1)) with (tail_ q - head_ q - 1) by lia.
  rewrite <-Zminus_mod_idemp_l. apply Z.mod_small. lia.
Qed.

Lemma assign_inside b i x : 0 ≤ i < Z.of_nat (length b) →
  assign b i x = Some (<[Z.to_nat i := x]> b).
Proof. intros. unfold assign. case_match; reflect_guards; [done|lia]. Qed.

Lemma tail_of_count q : queue_ok q → tail_ q = (head_ q + count q) mod capacity_ q.
Proof.
  intros Hok. unfold count. destruct Hok. rewrite Zplus_mod_idemp_r.
  replace (head_ q + (tail_ q - head_ q)) with (tail_ q) by lia. symmetry. apply Z.mod_small. lia.
Qed.

Lemma PushBack_spec q x : queue_ok q →
  if Z.of_nat (length (contents q)) =? capacity_ q - 1 then PushBack q x = Some (q, false)
  else ∃ q', PushBack q x = Some (q', true) ∧ queue_ok q' ∧ contents q' = contents q ++ [x] ∧
         capacity_ q' = capacity_ q ∧ overrun_counter_ q' = overrun_counter_ q.
Proof.
  intros Hok. rewrite contents_length by done. pose proof (count_range q Hok) as Hr.
  unfold PushBack. rewrite Full_count by done. simpl. case_match eqn:Hf; [done|]. reflect_guards.
  destruct Hok as [Hc Hl Hh Ht] eqn:E. rewrite assign_inside by lia. simpl. rewrite Next_small by done.
  simpl. eexists. split; [done|].
  set (q' := MkCircularQueue _ _ _ _ _). assert (queue_ok q') as Hok'.
  { split; simpl; try done; [by rewrite length_insert|]. apply Z.mod_pos_bound. lia. }
  assert (count q' = count q + 1) as Hcq by (apply count_push; [done|lia]).
  split; [done|]. split; [|done]. unfold contents. rewrite !Size_count, Hcq by done. unfold q'; cbn [buffer_ capacity_ head_].
  replace (Z.to_nat (count q + 1)) with (S (Z.to_nat (count q))) by lia.
  rewrite (ring_snoc _ _ _ _ x); try done; try lia.
  - f_equal. apply ring_assign; try lia. unfold count in *. lia.
  - rewrite Z2Nat.id by lia. rewrite <-tail_of_count by done.
    apply list_lookup_insert_eq. lia.
  - by rewrite length_insert.
Qed.

(** The state after the head slot is vacated. *)
Lemma vacate_ok q n (q' := MkCircularQueue (<[Z.to_nat (head_ q) := T_default]> (buffer_ q))
                            (capacity_ q) ((head_ q + 1) mod capacity_ q) (tail_ q) n) :
  queue_ok q → 0 < count q →
  queue_ok q' ∧ ∃ x, at_ (buffer_ q) (head_ q) = Some x ∧ contents q = x :: contents q'.
Proof.
  intros Hok Hc. pose proof (count_range q Hok) as Hr. pose proof Hok as [Hcap Hl Hh Ht].
  assert (queue_ok q') as Hok'.
  { split; simpl; try done; [by rewrite length_insert|]. apply Z.mod_pos_bound. lia. }
  split; [done|].
  assert (is_Some (buffer_ q !! Z.to_nat (head_ q))) as [x Hx] by (apply lookup_lt_is_Some; lia).
  assert (count q' = count q - 1) as Hcq by by apply count_pop.
  exists x. split; [done|]. unfold contents. rewrite !Size_count, Hcq by done. unfold q'; cbn [buffer_ capacity_ head_].
  replace (Z.to_nat (count q)) with (S (Z.to_nat (count q - 1))) by lia. cbn [ring]. rewrite Hx. f_equal.
  symmetry. apply ring_assign; try lia; [apply Z.mod_pos_bound; lia|].
  rewrite Zminus_mod_idemp_r. replace (head_ q - (head_ q + 1)) with (-1) by lia.
  rewrite <-(Z.mod_add _ 1), Z.mod_small by lia. lia.
Qed.

Lemma not_empty_count q : queue_ok q → Empty q = false → 0 < count q.
Proof. intros Hok. rewrite Empty_count by done. pose proof (count_range q Hok). intros. reflect_guards. lia. Qed.

Lemma empty_contents q : queue_ok q → Empty q = true → contents q = [].
Proof.
  intros Hok He. rewrite Empty_count in He by done. reflect_guards.
  apply length_zero_iff_nil. pose proof (contents_length q Hok). lia.
Qed.

Lemma PopFront_spec q : queue_ok q →
  match contents q with
  | [] => PopFront q = Some (q, None)
  | x :: l => ∃ q', PopFront q = Some (q', Some x) ∧ queue_ok q' ∧ contents q' = l ∧
                capacity_ q' = capacity_ q ∧ overrun_counter_ q' = overrun_counter_ q
  end.
Proof.
  intros Hok. unfold PopFront. destruct (Empty q) eqn:He.
  { by rewrite empty_contents. }
  apply not_empty_count in He as Hc; [|done].
  destruct (vacate_ok q (overrun_counter_ q) Hok Hc) as (Hok' & x & Hx & ->).
  destruct Hok as [??? ?] eqn:E. rewrite Hx, assign_inside by lia. simpl. rewrite Next_small by done.
  eauto 10.
Qed.

Lemma DropFront_spec q : queue_ok q →
  match contents q with
  | [] => DropFront q = Some (q, false)
  | _ :: l => ∃ q', DropFront q = Some (q', true) ∧ queue_ok q' ∧ contents q' = l ∧
                capacity_ q' = capacity_ q ∧ overrun_counter_ q' = overrun_counter_ q +₆₄ 1
  end.
Proof.
  intros Hok. unfold DropFront. destruct (Empty q) eqn:He.
  { by rewrite empty_contents. }
  apply not_empty_count in He as Hc; [|done].
  destruct (vacate_ok q (overrun_counter_ q +₆₄ 1) Hok Hc) as (Hok' & x & Hx & ->).
  destruct Hok as [??? ?] eqn:E. rewrite assign_inside by lia. simpl. rewrite Next_small by done.
  eauto 10.
Qed.

(** [Clear] terminates: every turn drops an element. *)
Lemma ClearLoop_spec overrun fuel : ∀ q, queue_ok q → (length (contents q) ≤ fuel)%nat →
  ∃ q', ClearLoop fuel overrun q = Some q' ∧ queue_ok q' ∧ contents q' = [] ∧
    capacity_ q' = capacity_ q ∧
    overrun_counter_ q' = if overrun then Nat.iter (length (contents q)) (λ n, n +₆₄ 1) (overrun_counter_ q)
                          else overrun_counter_ q.
Proof.
  induction fuel as [|fuel IH]; intros q Hok Hl; simpl; destruct (Empty q) eqn:He.
  1, 3: rewrite (empty_contents q) by done; eexists; (split; [done|]); rewrite empty_contents by done;
    by destruct overrun.
  - apply not_empty_count in He as Hc; [|done]. pose proof (contents_length q Hok). lia.
  - apply not_empty_count in He as Hc; [|done]. destruct overrun.
    + pose proof (DropFront_spec q Hok) as Hd. pose proof (contents_length q Hok).
      destruct (contents q) as [|x l]; simpl in *; [lia|].
      destruct Hd as (q1 & -> & Hok1 & <- & Hcap1 & Hov1). simpl.
      destruct (IH q1 Hok1) as (q' & ? & ? & ? & ? & Hov); [lia|].
      exists q'. split_and!; try congruence; try done. rewrite Hov, Hov1. apply (Nat.iter_swap _ _ (λ n, n +₆₄ 1)).
    + destruct (vacate_ok q (overrun_counter_ q) Hok Hc) as (Hok' & x & Hx & Heq).
      pose proof Hok as [??? ?]. rewrite assign_inside by lia. simpl. rewrite Next_small by done. simpl.
      rewrite Heq in Hl. simpl in Hl.
      destruct (IH _ Hok' ltac:(lia)) as (q' & ? & ? & ? & ? & Hov). exists q'. by split_and!.
Qed.

Lemma Clear_spec overrun q : queue_ok q →
  ∃ q', Clear overrun q = Some q' ∧ queue_ok q' ∧ contents q' = [] ∧ capacity_ q' = capacity_ q ∧
    overrun_counter_ q' = if overrun then Nat.iter (length (contents q)) (λ n, n +₆₄ 1) (overrun_counter_ q)
                          else overrun_counter_ q.
Proof.
  intros Hok. apply ClearLoop_spec; [done|]. pose proof (contents_length q Hok).
  pose proof (count_range q Hok). lia.
Qed.

End CircularQueue.

Arguments CircularQueue : clear implicits.

(** ** The interface of the bounded queue *)

(** The operations a client uses. *)
Class BoundedQueue (Q T : Type) := {
  bq_push : Q → T → option (Q * bool);
  bq_pop : Q → option (Q * option T);
  bq_drop : Q → option (Q * bool);
  bq_clear : bool → Q → option Q;
  bq_empty : Q → bool;
  bq_full : Q → option bool;
  bq_size : Q → Z;
  bq_limit : Q → Z;
  bq_overrun : Q → Z;
}.

(** What it may rely on: the queue is a list of at most [bq_limit] elements. *)
Class BoundedQueueLaws (Q T : Type) `{BoundedQueue Q T} := {
  bq_ok : Q → Prop;
  bq_list : Q → list T;
  bq_bound q : bq_ok q → 0 ≤ bq_limit q < 2 ^ 64 - 1 ∧ Z.of_nat (length (bq_list q)) ≤ bq_limit q;
  bq_empty_spec q : bq_ok q → bq_empty q = bool_decide (bq_list q = []);
  bq_full_spec q : bq_ok q → bq_full q = Some (Z.of_nat (length (bq_list q)) =? bq_limit q);
  bq_size_spec q : bq_ok q → bq_size q = Z.of_nat (length (bq_list q));
  bq_push_spec q x : bq_ok q →
    if Z.of_nat (length (bq_list q)) =? bq_limit q then bq_push q x = Some (q, false)
    else ∃ q', bq_push q x = Some (q', true) ∧ bq_ok q' ∧ bq_list q' = bq_list q ++ [x] ∧
               bq_limit q' = bq_limit q ∧ bq_overrun q' = bq_overrun q;
  bq_pop_spec q : bq_ok q →
    match bq_list q with
    | [] => bq_pop q = Some (q, None)
    | x :: l => ∃ q', bq_pop q = Some (q', Some x) ∧ bq_ok q' ∧ bq_list q' = l ∧
                      bq_limit q' = bq_limit q ∧ bq_overrun q' = bq_overrun q
    end;
  bq_drop_spec q : bq_ok q →
    match bq_list q with
    | [] => bq_drop q = Some (q, false)
    | _ :: l => ∃ q', bq_drop q = Some (q', true) ∧ bq_ok q' ∧ bq_list q' = l ∧
                      bq_limit q' = bq_limit q ∧ bq_overrun q' = bq_overrun q +₆₄ 1
    end;
  bq_clear_spec b q : bq_ok q →
    ∃ q', bq_clear b q = Some q' ∧ bq_ok q' ∧ bq_list q' = [] ∧ bq_limit q' = bq_limit q ∧
          (b = false → bq_overrun q' = bq_overrun q);
}.

#[export] Instance CircularQueue_bounded {T} (d : T) : BoundedQueue (CircularQueue T) T := {
  bq_push := PushBack; bq_pop := PopFront d; bq_drop := DropFront d; bq_clear := Clear d;
  bq_empty := Empty; bq_full := Full; bq_size := Size; bq_limit := Capacity;
  bq_overrun := OverrunCounter }.

Lemma Capacity_spec {T} (q : CircularQueue T) : queue_ok q → Capacity q = capacity_ q - 1.
Proof. intros []. apply u64_small. unfold is_u64. lia. Qed.

#[export] Instance CircularQueue_laws {T} (d : T) :
  @BoundedQueueLaws (CircularQueue T) T (CircularQueue_bounded d).
Proof.
  refine {| bq_ok := queue_ok; bq_list := contents |}; simpl.
  - intros q Hok. rewrite contents_length, Capacity_spec by done. pose proof (count_range q Hok).
    destruct Hok. lia.
  - intros q Hok. rewrite Empty_count by done. rewrite <-contents_length by done.
    destruct (contents q); [done|]. rewrite bool_decide_false by done. apply Z.eqb_neq. simpl. lia.
  - intros q Hok. by rewrite Full_count, contents_length, Capacity_spec by done.
  - intros q Hok. by rewrite Size_count, contents_length by done.
  - intros q x Hok. pose proof (PushBack_spec q x Hok) as Hp. rewrite Capacity_spec by done.
    case_match; [done|]. destruct Hp as (q' & ? & ? & ? & ? & ?). exists q'.
    rewrite !Capacity_spec by done. split_and!; try done. congruence.
  - intros q Hok. pose proof (PopFront_spec d q Hok) as Hp. case_match; [done|].
    destruct Hp as (q' & ? & ? & ? & ? & ?). exists q'. rewrite !Capacity_spec by done.
    split_and!; try done. congruence.
  - intros q Hok. pose proof (DropFront_spec d q Hok) as Hp. case_match; [done|].
    destruct Hp as (q' & ? & ? & ? & ? & ?). exists q'. rewrite !Capacity_spec by done.
    split_and!; try done. congruence.
  - intros b q Hok. destruct (Clear_spec d b q Hok) as (q' & ? & ? & ? & ? & Ho). exists q'.
    rewrite !Capacity_spec by done. split_and!; try done; [congruence|]. by intros ->.
Defined.

(** ** Histories *)

Inductive QueueOp (T : Type) := QPush (x : T) | QPop | QDrop | QClear.
Arguments QPush {T} _. Arguments QPop {T}. Arguments QDrop {T}. Arguments QClear {T}.

Inductive QueueOut (T : Type) := OFlag (b : bool) | OItem (x : option T) | ONothing.
Arguments OFlag {T} _. Arguments OItem {T} _. Arguments ONothing {T}.

Section Histories.
Context {T : Type} (d : T).

Definition queue_step (q : CircularQueue T) (op : QueueOp T)
  : option (CircularQueue T * QueueOut T) :=
  match op with
  | QPush x => '(q', b) ← PushBack q x; Some (q', OFlag b)
  | QPop => '(q', x) ← PopFront d q; Some (q', OItem x)
  | QDrop => '(q', b) ← DropFront d q; Some (q', OFlag b)
  | QClear => q' ← Clear d false q; Some (q', ONothing)
  end.

(** The specification: a list of at most [n] elements. *)
Definition list_step (n : Z) (l : list T) (op : QueueOp T) : list T * QueueOut T :=
  match op with
  | QPush x => if Z.of_nat (length l) =? n then (l, OFlag false) else (l ++ [x], OFlag true)
  | QPop => match l with [] => (l, OItem None) | x :: l' => (l', OItem (Some x)) end
  | QDrop => match l with [] => (l, OFlag false) | _ :: l' => (l', OFlag true) end
  | QClear => ([], ONothing)
  end.

Fixpoint queue_run (q : CircularQueue T) (ops : list (QueueOp T))
  : option (CircularQueue T * list (QueueOut T)) :=
  match ops with
  | [] => Some (q, [])
  | op :: ops =>
      '(q1, o) ← queue_step q op;
      '(q2, os) ← queue_run q1 ops;
      Some (q2, o :: os)
  end.

Fixpoint list_run (n : Z) (l : list T) (ops : list (QueueOp T)) : list T * list (QueueOut T) :=
  match ops with
  | [] => (l, [])
  | op :: ops =>
      let '(l1, o) := list_step n l op in
      let '(l2, os) := list_run n l1 ops in (l2, o :: os)
  end.

Lemma queue_step_refines q op : queue_ok q →
  ∃ q', queue_step q op = Some (q', (list_step (capacity_ q - 1) (contents q) op).2) ∧
    contents q' = (list_step (capacity_ q - 1) (contents q) op).1 ∧ queue_ok q' ∧
    capacity_ q' = capacity_ q.
Proof.
  intros Hok. destruct op as [x| | |]; simpl.
  - pose proof (PushBack_spec q x Hok) as Hp. case_match.
    + rewrite Hp. eauto 10.
    + destruct Hp as (q' & -> & ? & ? & ? & ?). simpl. eauto 10.
  - pose proof (PopFront_spec d q Hok) as Hp. destruct (contents q) eqn:Hc.
    + rewrite Hp. simpl. eauto 10.
    + destruct Hp as (q' & -> & ? & ? & ? & ?). simpl. eauto 10.
  - pose proof (DropFront_spec d q Hok) as Hp. destruct (contents q) eqn:Hc.
    + rewrite Hp. simpl. eauto 10.
    + destruct Hp as (q' & -> & ? & ? & ? & ?). simpl. eauto 10.
  - destruct (Clear_spec d false q Hok) as (q' & -> & ? & ? & ? & ?). simpl. eauto 10.
Qed.

Lemma queue_run_refines ops : ∀ q, queue_ok q →
  ∃ q', queue_run q ops = Some (q', (list_run (capacity_ q - 1) (contents q) ops).2) ∧
    contents q' = (list_run (capacity_ q - 1) (contents q) ops).1 ∧ queue_ok q' ∧
    capacity_ q' = capacity_ q.
Proof.
  induction ops as [|op ops IH]; intros q Hok; simpl; [eauto 10|].
  destruct (queue_step_refines q op Hok) as (q1 & -> & Hc1 & Hok1 & Hcap1). simpl.
  destruct (list_step (capacity_ q - 1) (contents q) op) as [l1 o]. simpl in Hc1.
  destruct (IH q1 Hok1) as (q2 & -> & Hc2 & Hok2 & Hcap2). simpl. rewrite Hcap1, Hc1 in *.
  destruct (list_run (capacity_ q - 1) l1 ops) as [l2 os]. simpl in *. exists q2. by rewrite Hcap2.
Qed.

End Histories.

(** the ring buffer implements a list of at most [n] elements: for every
    history of pushes, pops, drops and clears no access leaves the buffer,
    [Clear] terminates, every operation returns what the list returns (first in,
    first out, refused when full), and [Size], [Empty], [Full] and [Capacity]
    describe that list. *)
Theorem circular_queue_refines_list {T} (d : T) n ops :
  0 ≤ n < 2 ^ 64 - 1 →
  ∃ q, queue_run d (NewCircularQueue d n) ops = Some (q, (list_run n [] ops).2) ∧
    contents q = (list_run n [] ops).1 ∧
    Size q = Z.of_nat (length (contents q)) ∧ Size q ≤ n ∧ Capacity q = n ∧
    Empty q = bool_decide (contents q = []) ∧ Full q = Some (Size q =? n).
Proof.
  intros Hn. pose proof (queue_ok_new d n Hn) as Hok0.
  destruct (queue_run_refines d ops _ Hok0) as (q & Hr & Hc & Hok & Hcap).
  assert (capacity_ (NewCircularQueue d n) = n + 1) as Hcn by (apply u64_small; unfold is_u64; lia).
  assert (contents (NewCircularQueue d n) = []) as Hc0 by done.
  rewrite Hc0, Hcn in *. replace (n + 1 - 1) with n in * by lia.
  exists q. pose proof (count_range q Hok). pose proof (contents_length q Hok).
  rewrite Size_count, Capacity_spec, Empty_count, Full_count, Hcap by done.
  replace (n + 1 - 1) with n by lia. split_and!; try done; try lia.
  destruct (contents q); cbn [length] in *;
    [rewrite bool_decide_true by done; apply Z.eqb_eq|rewrite bool_decide_false by done; apply Z.eqb_neq]; lia.
Qed.

Lemma circular_queue_refines_list_witness :
  ∃ q, queue_run 0 (NewCircularQueue 0 2) [QPush 1; QPush 2; QPush 3; QPop; QPush 4; QPop] =
         Some (q, [OFlag true; OFlag true; OFlag false; OItem (Some 1); OFlag true; OItem (Some 2)]) ∧
       contents q = [4].
Proof.
  destruct (circular_queue_refines_list 0 2 [QPush 1; QPush 2; QPush 3; QPop; QPush 4; QPop])
    as (q & Hr & Hc & _); [lia|].
  exists q. split; [exact Hr|exact Hc].
Defined.
