(* ===== verification/MpmcBlockingQueue.v ===== *)
(** * The blocking task queue

    Models [src/common/concurrency/MpmcBlockingQueue.h] over any queue that meets
    [BoundedQueueLaws], which [CircularQueue] does.  A call runs under the mutex;
    a call whose predicate is false joins the waiters of its condition variable
    and runs when it is woken and the predicate holds.  The waiters are part of
    the state, with a flag that says whether they were notified; a wake-up may be
    spurious, and [notify_one] notifies any of the waiters that were not.
    [None] is undefined behaviour of the ring buffer below. *)
From Stdlib Require Import ZArith Lia.
From stdpp Require Import base list numbers.
From S2P Require Import Prelude CircularQueue.

Local Open Scope Z_scope.
Local Open Scope width_scope.

Inductive TaskPushResult := kOk | kDiscarded | kStopped.
Inductive QueueFullPolicy := kBlock | kDiscard | kOverwrite.

Section Mpmc.
Context {Q T : Type} `{HL : BoundedQueueLaws Q T}.

Record MpmcBlockingQueue := MkMpmc {
  shutdown_discard_counter_ : Z;
  queue_ : Q;
  stopped_ : bool;
  force_stopped_ : bool;
  discard_counter_ : Z;
}.

Definition NewMpmc (queue : Q) : MpmcBlockingQueue := MkMpmc 0 queue false false 0.

Definition set_queue (m : MpmcBlockingQueue) (q : Q) : MpmcBlockingQueue :=
  MkMpmc (shutdown_discard_counter_ m) q (stopped_ m) (force_stopped_ m) (discard_counter_ m).

Definition discard (m : MpmcBlockingQueue) : MpmcBlockingQueue :=
  MkMpmc (shutdown_discard_counter_ m) (queue_ m) (stopped_ m) (force_stopped_ m)
    (discard_counter_ m +₆₄ 1).

(** ** The critical sections

    Each returns the new state, its result and whether it calls [notify_one]. *)

(** The predicates of the two waits. *)
Definition CanPush (m : MpmcBlockingQueue) : option bool :=
  full ← bq_full (queue_ m); Some (stopped_ m || negb full).
Definition CanPop (m : MpmcBlockingQueue) : bool :=
  force_stopped_ m || negb (bq_empty (queue_ m)) || (stopped_ m && bq_empty (queue_ m)).

Definition PushBlocking (m : MpmcBlockingQueue) (item : T)
  : option (MpmcBlockingQueue * TaskPushResult * bool) :=
  if stopped_ m then Some (m, kStopped, false)
  else
    '(q, ok) ← bq_push (queue_ m) item;
    if negb ok then Some (set_queue m q, kDiscarded, false) else Some (set_queue m q, kOk, true).

Definition PushDiscard (m : MpmcBlockingQueue) (item : T)
  : option (MpmcBlockingQueue * TaskPushResult * bool) :=
  if stopped_ m then Some (m, kStopped, false)
  else
    full ← bq_full (queue_ m);
    if full : bool then Some (discard m, kDiscarded, false)
    else
      '(q, ok) ← bq_push (queue_ m) item;
      if negb ok then Some (discard (set_queue m q), kDiscarded, false)
      else Some (set_queue m q, kOk, true).

Definition PushOverwrite (m : MpmcBlockingQueue) (item : T)
  : option (MpmcBlockingQueue * TaskPushResult * bool) :=
  if stopped_ m then Some (m, kStopped, false)
  else
    full ← bq_full (queue_ m);
    q ← (if full : bool then fst <$> bq_drop (queue_ m) else Some (queue_ m));
    '(q, ok) ← bq_push q item;
    if negb ok then Some (discard (set_queue m q), kDiscarded, false)
    else Some (set_queue m q, kOk, true).

(** [Pop] and [PopFor] after their wait. *)
Definition Pop (m : MpmcBlockingQueue) : option (MpmcBlockingQueue * option T * bool) :=
  if force_stopped_ m then Some (m, None, false)
  else if negb (bq_empty (queue_ m)) then
    '(q, x) ← bq_pop (queue_ m); Some (set_queue m q, x, true)
  else Some (m, None, false).

Definition Stop (m : MpmcBlockingQueue) (discard_pending_tasks : bool) : option MpmcBlockingQueue :=
  if discard_pending_tasks then
    q ← bq_clear false (queue_ m);
    Some (MkMpmc (shutdown_discard_counter_ m +₆₄ bq_size (queue_ m)) q true true (discard_counter_ m))
  else
    Some (MkMpmc (shutdown_discard_counter_ m) (queue_ m) true (force_stopped_ m) (discard_counter_ m)).

Definition Size (m : MpmcBlockingQueue) : Z := bq_size (queue_ m).
Definition Capacity (m : MpmcBlockingQueue) : Z := bq_limit (queue_ m).
Definition Empty (m : MpmcBlockingQueue) : bool := bq_empty (queue_ m).
Definition DiscardCounter (m : MpmcBlockingQueue) : Z := discard_counter_ m.
Definition OverwriteCounter (m : MpmcBlockingQueue) : Z := bq_overrun (queue_ m).
Definition ShutdownDiscardCounter (m : MpmcBlockingQueue) : Z := shutdown_discard_counter_ m.

(** ** Threads *)

(** A waiter: what it carries and whether it was notified. *)
Record Waiter (A : Type) := MkWaiter { load : A; notified : bool }.
Arguments MkWaiter {A} _ _. Arguments load {A} _. Arguments notified {A} _.

(** [notify_one]: the waiter at [pick] if it was not notified, else the first
    that was not. *)
Fixpoint notify_first {A} (ws : list (Waiter A)) : list (Waiter A) :=
  match ws with
  | [] => []
  | w :: ws => if notified w then w :: notify_first ws else MkWaiter (load w) true :: ws
  end.
Definition notify_one {A} (pick : nat) (ws : list (Waiter A)) : list (Waiter A) :=
  match ws !! pick with
  | Some w => if notified w then notify_first ws else <[pick := MkWaiter (load w) true]> ws
  | None => notify_first ws
  end.
Definition notify_all {A} (ws : list (Waiter A)) : list (Waiter A) :=
  (λ w, MkWaiter (load w) true) <$> ws.
Definition notify {A} (b : bool) (pick : nat) (ws : list (Waiter A)) : list (Waiter A) :=
  if b then notify_one pick ws else ws.

(** [producers] wait in [PushBlocking] with their item, [consumers] in [Pop] or,
    with the flag, in [PopFor]; [accepted] and [popped] are ghosts: the items
    whose push returned [kOk], and those returned by a pop. *)
Record MSys := MkMSys {
  mq : MpmcBlockingQueue;
  producers : list (Waiter T);
  consumers : list (Waiter bool);
  accepted : list T;
  popped : list T;
}.

Inductive MEvent :=
| MPush (item : T) (policy : QueueFullPolicy) (pick : nat)
| MPop (timed : bool) (pick : nat)
| MWakeProducer (i pick : nat)
| MWakeConsumer (i pick : nat)
| MTimeout (i pick : nat)
| MStop (discard_pending_tasks : bool).

(** The end of a push and of a pop. *)
Definition after_push (s : MSys) (ps : list (Waiter T)) (item : T) (pick : nat)
    (r : MpmcBlockingQueue * TaskPushResult * bool) : MSys :=
  let '(m, res, ntf) := r in
  MkMSys m ps (notify ntf pick (consumers s))
    (match res with kOk => accepted s ++ [item] | _ => accepted s end) (popped s).

Definition after_pop (s : MSys) (cs : list (Waiter bool)) (pick : nat)
    (r : MpmcBlockingQueue * option T * bool) : MSys :=
  let '(m, x, ntf) := r in
  MkMSys m (notify ntf pick (producers s)) cs (accepted s) (popped s ++ option_list x).

Definition mstep (s : MSys) (ev : MEvent) : option MSys :=
  match ev with
  | MPush item kBlock pick =>
      can ← CanPush (mq s);
      if can : bool then after_push s (producers s) item pick <$> PushBlocking (mq s) item
      else Some (MkMSys (mq s) (producers s ++ [MkWaiter item false]) (consumers s)
                   (accepted s) (popped s))
  | MPush item kDiscard pick => after_push s (producers s) item pick <$> PushDiscard (mq s) item
  | MPush item kOverwrite pick => after_push s (producers s) item pick <$> PushOverwrite (mq s) item
  | MPop timed pick =>
      if CanPop (mq s) then after_pop s (consumers s) pick <$> Pop (mq s)
      else Some (MkMSys (mq s) (producers s) (consumers s ++ [MkWaiter timed false])
                   (accepted s) (popped s))
  | MWakeProducer i pick =>
      match producers s !! i with
      | None => Some s
      | Some w =>
          can ← CanPush (mq s);
          if can : bool
          then after_push s (delete i (producers s)) (load w) pick <$> PushBlocking (mq s) (load w)
          else Some (MkMSys (mq s) (<[i := MkWaiter (load w) false]> (producers s)) (consumers s)
                       (accepted s) (popped s))
      end
  | MWakeConsumer i pick =>
      match consumers s !! i with
      | None => Some s
      | Some w =>
          if CanPop (mq s) then after_pop s (delete i (consumers s)) pick <$> Pop (mq s)
          else Some (MkMSys (mq s) (producers s) (<[i := MkWaiter (load w) false]> (consumers s))
                       (accepted s) (popped s))
      end
  | MTimeout i pick =>
      match consumers s !! i with
      | Some w =>
          if (load w : bool) then
            if CanPop (mq s) then after_pop s (delete i (consumers s)) pick <$> Pop (mq s)
            else Some (MkMSys (mq s) (producers s) (delete i (consumers s)) (accepted s) (popped s))
          else Some s
      | None => Some s
      end
  | MStop b =>
      m ← Stop (mq s) b;
      Some (MkMSys m (notify_all (producers s)) (notify_all (consumers s)) (accepted s) (popped s))
  end.

Fixpoint mrun (s : MSys) (evs : list MEvent) : option MSys :=
  match evs with
  | [] => Some s
  | ev :: evs => s' ← mstep s ev; mrun s' evs
  end.

(** ** What the critical sections do to the list of items *)

Definition items (m : MpmcBlockingQueue) : list T := bq_list (queue_ m).
Definition limit (m : MpmcBlockingQueue) : Z := bq_limit (queue_ m).
Definition len {A} (l : list A) : Z := Z.of_nat (length l).

(** The parts of the state no push or pop touches. *)
Definition same_flags (m m' : MpmcBlockingQueue) : Prop :=
  stopped_ m' = stopped_ m ∧ force_stopped_ m' = force_stopped_ m ∧
  shutdown_discard_counter_ m' = shutdown_discard_counter_ m ∧ limit m' = limit m.

(** A push is refused without a trace in the list, or appends the item, in a
    queue that was full after dropping the oldest one. *)
Inductive push_effect (m : MpmcBlockingQueue) (x : T)
  : MpmcBlockingQueue * TaskPushResult * bool → Prop :=
| push_refused m' r : r ≠ kOk → bq_ok (queue_ m') → items m' = items m → same_flags m m' →
    OverwriteCounter m' = OverwriteCounter m → stopped_ m = true ∨ len (items m) = limit m →
    push_effect m x (m', r, false)
| push_stored m' : bq_ok (queue_ m') → items m' = items m ++ [x] → len (items m) < limit m →
    same_flags m m' → OverwriteCounter m' = OverwriteCounter m → stopped_ m = false →
    push_effect m x (m', kOk, true)
| push_overwrote m' y l : bq_ok (queue_ m') → items m = y :: l → items m' = l ++ [x] →
    same_flags m m' → OverwriteCounter m' = OverwriteCounter m +₆₄ 1 → stopped_ m = false →
    len (items m) = limit m → push_effect m x (m', kOk, true).

Lemma push_room m x : bq_ok (queue_ m) → len (items m) ≠ limit m →
  ∃ q', bq_push (queue_ m) x = Some (q', true) ∧ bq_ok q' ∧ bq_list q' = items m ++ [x] ∧
    bq_limit q' = limit m ∧ bq_overrun q' = OverwriteCounter m ∧ len (items m) < limit m.
Proof.
  intros Hok Hne. pose proof (bq_push_spec (queue_ m) x Hok) as Hp.
  pose proof (bq_bound _ Hok) as [_ Hb]. unfold len, items, limit in *. apply Z.eqb_neq in Hne as Hne'.
  rewrite Hne' in Hp. destruct Hp as (q' & ? & ? & ? & ? & ?). exists q'. split_and!; try done. lia.
Qed.

Lemma CanPush_spec m : bq_ok (queue_ m) →
  CanPush m = Some (stopped_ m || negb (len (items m) =? limit m)).
Proof. intros Hok. unfold CanPush. by rewrite (bq_full_spec _ Hok). Qed.

Lemma PushBlocking_effect m x : bq_ok (queue_ m) → CanPush m = Some true →
  ∃ r, PushBlocking m x = Some r ∧ push_effect m x r.
Proof.
  intros Hok Hc. rewrite CanPush_spec in Hc by done. unfold PushBlocking.
  destruct (stopped_ m) eqn:Hs; simpl in *; [eexists; split; [done|]; constructor; auto; done|].
  injection Hc as Hc. reflect_guards.
  destruct (push_room m x Hok Hc) as (q' & -> & ? & ? & ? & ? & ?). simpl.
  eexists. split; [done|]. by apply push_stored.
Qed.

Lemma PushDiscard_effect m x : bq_ok (queue_ m) →
  ∃ r, PushDiscard m x = Some r ∧ push_effect m x r.
Proof.
  intros Hok. unfold PushDiscard.
  destruct (stopped_ m) eqn:Hs; simpl in *; [eexists; split; [done|]; constructor; auto; done|].
  rewrite (bq_full_spec _ Hok). simpl. fold (items m) (limit m) (len (items m)).
  case_match eqn:Hf; reflect_guards; [eexists; split; [done|]; constructor; auto; done|].
  destruct (push_room m x Hok Hf) as (q' & -> & ? & ? & ? & ? & ?). simpl.
  eexists. split; [done|]. by apply push_stored.
Qed.

Lemma PushOverwrite_effect m x : bq_ok (queue_ m) →
  ∃ r, PushOverwrite m x = Some r ∧ push_effect m x r.
Proof.
  intros Hok. unfold PushOverwrite.
  destruct (stopped_ m) eqn:Hs; simpl in *; [eexists; split; [done|]; constructor; auto; done|].
  rewrite (bq_full_spec _ Hok). simpl. fold (items m) (limit m) (len (items m)).
  case_match eqn:Hf; reflect_guards.
  - pose proof (bq_drop_spec _ Hok) as Hd. fold (items m) in Hd. destruct (items m) as [|y l] eqn:Hi.
    + rewrite Hd. simpl. pose proof (bq_push_spec (queue_ m) x Hok) as Hp.
      fold (items m) (limit m) in Hp. rewrite Hi in Hp. rewrite <-Hf, Z.eqb_refl, Hp in *. simpl.
      eexists. split; [done|]. apply push_refused; auto; [done|]. right. by rewrite Hi.
    + destruct Hd as (q1 & -> & Hok1 & Hl1 & Hlim1 & Hov1). simpl.
      destruct (push_room (set_queue m q1) x Hok1) as (q' & Hp & ? & Hl & ? & Ho & ?).
      { unfold items, limit, len. simpl. rewrite Hl1, Hlim1. fold (limit m). rewrite <-Hf.
        unfold len. simpl. lia. }
      simpl in Hp. rewrite Hp. simpl. eexists. split; [done|].
      eapply push_overwrote; try done; [..|by rewrite Hi].
      * unfold items. simpl. rewrite Hl. unfold items. simpl. by rewrite Hl1.
      * unfold same_flags, limit in *. simpl in *. split_and!; try done. congruence.
      * unfold OverwriteCounter in *. simpl in *. congruence.
  - simpl. destruct (push_room m x Hok Hf) as (q' & -> & ? & ? & ? & ? & ?). simpl.
    eexists. split; [done|]. by apply push_stored.
Qed.

(** A pop returns the oldest item, or nothing when there is none or the queue was
    stopped by force. *)
Inductive pop_effect (m : MpmcBlockingQueue) : MpmcBlockingQueue * option T * bool → Prop :=
| pop_nothing : stopped_ m = true → pop_effect m (m, None, false)
| pop_item m' x l : bq_ok (queue_ m') → items m = x :: l → items m' = l → same_flags m m' →
    OverwriteCounter m' = OverwriteCounter m → force_stopped_ m = false →
    pop_effect m (m', Some x, true).

Lemma Pop_effect m : bq_ok (queue_ m) → (force_stopped_ m = true → stopped_ m = true) →
  CanPop m = true → ∃ r, Pop m = Some r ∧ pop_effect m r.
Proof.
  intros Hok Hf. unfold CanPop, Pop. pose proof (bq_empty_spec _ Hok) as He. fold (items m) in He.
  destruct (force_stopped_ m) eqn:Hfs; [intros _; eexists; split; [done|]; constructor; auto|].
  pose proof (bq_pop_spec _ Hok) as Hp. fold (items m) in Hp. rewrite He.
  destruct (items m) as [|x l] eqn:Hi.
  - rewrite bool_decide_true by done. simpl. rewrite andb_true_r. intros Hs. eexists. split; [done|].
    by constructor.
  - rewrite bool_decide_false by done. simpl. intros _. destruct Hp as (q' & -> & ? & ? & ? & ?).
    simpl. eexists. split; [done|]. by eapply pop_item.
Qed.

Lemma CanPop_false m : bq_ok (queue_ m) → CanPop m = false →
  items m = [] ∧ stopped_ m = false.
Proof.
  intros Hok. unfold CanPop. rewrite (bq_empty_spec _ Hok). fold (items m). intros Hc.
  apply orb_false_iff in Hc as [[_ Hc]%orb_false_iff Hs].
  case_bool_decide as Hi; [|done]. split; [done|]. by rewrite andb_true_r in Hs.
Qed.

(** ** Counting waiters *)

Fixpoint awake {A} (ws : list (Waiter A)) : Z :=
  match ws with [] => 0 | w :: ws => (if notified w then 1 else 0) + awake ws end.
Fixpoint asleep {A} (ws : list (Waiter A)) : Z :=
  match ws with [] => 0 | w :: ws => (if notified w then 0 else 1) + asleep ws end.

Lemma awake_nonneg {A} (ws : list (Waiter A)) : 0 ≤ awake ws ∧ 0 ≤ asleep ws.
Proof. induction ws as [|w ws IH]; simpl; [lia|]. case_match; lia. Qed.

Lemma awake_app {A} (ws vs : list (Waiter A)) :
  awake (ws ++ vs) = awake ws + awake vs ∧ asleep (ws ++ vs) = asleep ws + asleep vs.
Proof. induction ws as [|w ws IH]; simpl; [lia|]. case_match; lia. Qed.

Lemma awake_delete {A} (ws : list (Waiter A)) i w : ws !! i = Some w →
  awake (delete i ws) = awake ws - (if notified w then 1 else 0) ∧
  asleep (delete i ws) = asleep ws - (if notified w then 0 else 1).
Proof.
  revert i. induction ws as [|v ws IH]; intros [|i] Hi; simplify_eq/=; [lia|].
  destruct (IH i Hi) as [-> ->]. lia.
Qed.

Lemma awake_insert {A} (ws : list (Waiter A)) i w v : ws !! i = Some w →
  awake (<[i := v]> ws) = awake ws - (if notified w then 1 else 0) + (if notified v then 1 else 0) ∧
  asleep (<[i := v]> ws) = asleep ws - (if notified w then 0 else 1) + (if notified v then 0 else 1).
Proof.
  revert i. induction ws as [|u ws IH]; intros [|i] Hi; simplify_eq/=; [lia|].
  destruct (IH i Hi) as [-> ->]. lia.
Qed.

Lemma notify_first_awake {A} (ws : list (Waiter A)) :
  if asleep ws =? 0 then notify_first ws = ws
  else awake (notify_first ws) = awake ws + 1 ∧ asleep (notify_first ws) = asleep ws - 1.
Proof.
  induction ws as [|w ws IH]; simpl; [done|]. pose proof (awake_nonneg ws).
  destruct (notified w) eqn:Hw; simpl.
  - rewrite Z.add_0_l. case_match; [by rewrite IH|]. simpl. rewrite Hw. lia.
  - destruct (Z.eqb_spec (1 + asleep ws) 0); [lia|]. simpl. lia.
Qed.

Lemma notify_one_awake {A} pick (ws : list (Waiter A)) :
  if asleep ws =? 0 then notify_one pick ws = ws
  else awake (notify_one pick ws) = awake ws + 1 ∧ asleep (notify_one pick ws) = asleep ws - 1.
Proof.
  unfold notify_one. destruct (ws !! pick) as [w|] eqn:Hp; [|apply notify_first_awake].
  destruct (notified w) eqn:Hw; [apply notify_first_awake|].
  destruct (awake_delete ws pick w Hp) as [_ Hd]. rewrite Hw in Hd.
  pose proof (awake_nonneg (delete pick ws)). case_match; reflect_guards; [lia|].
  destruct (awake_insert ws pick w (MkWaiter (load w) true) Hp) as [-> ->]. rewrite Hw. simpl. lia.
Qed.

Lemma notify_all_asleep {A} (ws : list (Waiter A)) : asleep (notify_all ws) = 0.
Proof. induction ws as [|w ws IH]; simpl; [done|]. by rewrite Z.add_0_l. Qed.

(** ** The invariant *)

Context (L : Z).

(** [n] bounds the items accepted so far; [L] is the capacity. *)
Record msys_ok (n : Z) (s : MSys) : Prop := {
  m_queue : bq_ok (queue_ (mq s));
  m_force : force_stopped_ (mq s) = true → stopped_ (mq s) = true ∧ items (mq s) = [];
  m_stopped : stopped_ (mq s) = true → asleep (producers s) = 0 ∧ asleep (consumers s) = 0;
  m_consumers : 0 < asleep (consumers s) → len (items (mq s)) ≤ awake (consumers s);
  m_producers : 0 < asleep (producers s) →
    limit (mq s) - len (items (mq s)) ≤ awake (producers s);
  m_fifo : (popped s ++ items (mq s)) `sublist_of` accepted s;
  m_count : len (accepted s) = len (popped s) + len (items (mq s)) + OverwriteCounter (mq s) +
                               ShutdownDiscardCounter (mq s);
  m_nonneg : 0 ≤ OverwriteCounter (mq s) ∧ 0 ≤ ShutdownDiscardCounter (mq s);
  m_bound : len (accepted s) ≤ n;
  m_limit : limit (mq s) = L;
}.

Lemma len_app {A} (l k : list A) : len (l ++ k) = len l + len k.
Proof. unfold len. rewrite length_app. lia. Qed.
Lemma len_nonneg {A} (l : list A) : 0 ≤ len l.
Proof. unfold len. lia. Qed.

(** Replacing the waiting producers after a push: they stay, or one leaves when
    there is room. *)
Definition producers_after (s : MSys) (ps : list (Waiter T)) : Prop :=
  ps = producers s ∨
  (∃ i w, producers s !! i = Some w ∧ ps = delete i (producers s) ∧
          (stopped_ (mq s) = true ∨ len (items (mq s)) ≠ limit (mq s))).

Lemma producers_after_counts s ps : producers_after s ps →
  asleep ps ≤ asleep (producers s) ∧ awake (producers s) - 1 ≤ awake ps ∧
  (stopped_ (mq s) = false → len (items (mq s)) = limit (mq s) → ps = producers s).
Proof.
  intros [->|(i & w & Hi & -> & Hc)]; [pose proof (awake_nonneg (producers s)); by split_and!; try lia|].
  destruct (awake_delete (producers s) i w Hi) as [-> ->].
  split_and!; [case_match; lia|case_match; lia|]. intros Hs Hl. destruct Hc; congruence.
Qed.

(** The new notification for the consumers accounts for the new item. *)
Lemma notify_consumers (cs : list (Waiter bool)) k pick :
  (0 < asleep cs → k ≤ awake cs) →
  0 < asleep (notify_one pick cs) → k + 1 ≤ awake (notify_one pick cs).
Proof.
  intros Hk. pose proof (notify_one_awake pick cs) as Hn. pose proof (awake_nonneg cs).
  destruct (Z.eqb_spec (asleep cs) 0) as [Hz|Hz]; [rewrite Hn; lia|]. destruct Hn as [-> ->]. lia.
Qed.

Lemma notify_asleep_le {A} pick (ws : list (Waiter A)) : asleep (notify_one pick ws) ≤ asleep ws.
Proof. pose proof (notify_one_awake pick ws) as Hn. case_match; [by rewrite Hn|lia]. Qed.

Lemma after_push_ok n s ps x pick r :
  msys_ok n s → n + 1 < 2 ^ 64 → push_effect (mq s) x r → producers_after s ps →
  msys_ok (n + 1) (after_push s ps x pick r).
Proof.
  intros [Hq Hf Hst Hc Hp Hff Hcnt Hnn Hb Hlm] Hn He Hps.
  destruct (producers_after_counts s ps Hps) as (Ha1 & Ha2 & Hsame).
  pose proof (len_nonneg (popped s)). pose proof (len_nonneg (items (mq s))).
  pose proof (awake_nonneg ps). unfold ShutdownDiscardCounter in *.
  destruct He as [m' r Hr Hok Hi (Hs1 & Hs2 & Hs3 & Hs4) Ho Hwhy
                 |m' Hok Hi Hlt (Hs1 & Hs2 & Hs3 & Hs4) Ho Hns
                 |m' y l Hok Hy Hi (Hs1 & Hs2 & Hs3 & Hs4) Ho Hns Hfull]; simpl.
  - replace (match r with kOk => accepted s ++ [x] | _ => accepted s end) with (accepted s) by by destruct r.
    split; simpl; unfold ShutdownDiscardCounter; rewrite ?Hi, ?Hs1, ?Hs2, ?Hs3, ?Hs4, ?Ho; try done; try lia.
    + intros Hx1. destruct (Hst Hx1). pose proof (awake_nonneg ps). split; lia.
    + intros Hx1. destruct (stopped_ (mq s)) eqn:Hss; [destruct (Hst eq_refl); lia|].
      assert (ps = producers s) as Heq by (apply Hsame; [done|by destruct Hwhy]).
      subst ps. auto.
  - split; simpl; unfold ShutdownDiscardCounter;
      rewrite ?Hi, ?Hs1, ?Hs2, ?Hs3, ?Hs4, ?Ho, ?len_app; cbn [len length]; try done; try congruence.
    + intros Hx1. destruct (Hf Hx1). congruence.
    + intros Hx1. apply notify_consumers; [done|]. exact Hx1.
    + intros Hx1. assert (0 < asleep (producers s)) as Hx2 by lia. specialize (Hp Hx2).
      unfold len in *; simpl. lia.
    + rewrite app_assoc. by apply sublist_app.
    + unfold len in *; simpl. lia.
    + unfold len in *; simpl. lia.
  - rewrite Hy in *. unfold len in Hcnt, Hfull, Hc, Hp; simpl in Hcnt, Hfull, Hc, Hp.
    split; simpl; unfold ShutdownDiscardCounter;
      rewrite ?Hi, ?Hs1, ?Hs2, ?Hs3, ?Hs4, ?Ho, ?len_app;
      rewrite ?u64_small by (unfold is_u64, len in *; lia); try done; try congruence; try lia.
    + intros Hx1. destruct (Hf Hx1). congruence.
    + intros Hx1. apply (notify_consumers _ (len l + 1 - 1)) in Hx1;
        [unfold len in *; simpl; lia|]. intros Hx2%Hc. unfold len. lia.
    + intros Hx1. assert (ps = producers s) as Heq by (apply Hsame; [done|]; unfold len; simpl; lia).
      subst ps. specialize (Hp Hx1). unfold len; simpl. lia.
    + rewrite app_assoc. apply sublist_app; [|done]. etrans; [|exact Hff].
      apply sublist_app; [done|]. by apply sublist_cons.
    + unfold len in *; simpl. lia.
    + unfold len in *; simpl. lia.
Qed.

Lemma msys_ok_mono n s : msys_ok n s → msys_ok (n + 1) s.
Proof. intros []. split; try done. lia. Qed.

(** Replacing the waiting consumers after a pop: they stay, or one leaves. *)
Definition consumers_after (s : MSys) (cs : list (Waiter bool)) : Prop :=
  cs = consumers s ∨ ∃ i w, consumers s !! i = Some w ∧ cs = delete i (consumers s).

Lemma consumers_after_counts s cs : consumers_after s cs →
  asleep cs ≤ asleep (consumers s) ∧ awake (consumers s) - 1 ≤ awake cs.
Proof.
  intros [->|(i & w & Hi & ->)]; [lia|].
  destruct (awake_delete (consumers s) i w Hi) as [-> ->]. case_match; lia.
Qed.

Lemma after_pop_ok n s cs pick r :
  msys_ok n s → pop_effect (mq s) r → consumers_after s cs → msys_ok (n + 1) (after_pop s cs pick r).
Proof.
  intros [Hq Hf Hst Hc Hp Hff Hcnt Hnn Hb Hlm] He Hcs.
  destruct (consumers_after_counts s cs Hcs) as (Ha1 & Ha2). unfold ShutdownDiscardCounter in *.
  pose proof (awake_nonneg cs).
  destruct He as [Hs|m' x l Hok Hx Hi (Hs1 & Hs2 & Hs3 & Hs4) Ho Hns]; simpl.
  - rewrite app_nil_r. destruct (Hst Hs). split; simpl; try done; try lia.
  - rewrite Hx in *. unfold len in Hcnt, Hc, Hp; simpl in Hcnt, Hc, Hp.
    pose proof (awake_nonneg (notify_one pick (producers s))).
    pose proof (notify_asleep_le pick (producers s)).
    split; simpl; unfold ShutdownDiscardCounter; rewrite ?Hi, ?Hs1, ?Hs2, ?Hs3, ?Hs4, ?Ho, ?len_app;
      try done; try lia.
    + congruence.
    + intros Hx1. destruct (Hst Hx1). split; lia.
    + intros Hx1. assert (0 < asleep (consumers s)) as Hx2 by lia. specialize (Hc Hx2).
      unfold len; simpl. lia.
    + intros Hx1. pose proof (notify_one_awake pick (producers s)) as Hnt.
      destruct (Z.eqb_spec (asleep (producers s)) 0) as [Hz|Hz]; [rewrite Hnt in Hx1; lia|].
      destruct Hnt as [-> _]. pose proof (awake_nonneg (producers s)).
      assert (0 < asleep (producers s)) as Hx2 by lia. specialize (Hp Hx2). unfold len; simpl. lia.
    + rewrite <-app_assoc. exact Hff.
    + unfold len; simpl. lia.
Qed.

Lemma stop_ok n s b : msys_ok n s → n < 2 ^ 64 →
  ∃ s', mstep s (MStop b) = Some s' ∧ msys_ok (n + 1) s'.
Proof.
  intros [Hq Hf Hst Hc Hp Hff Hcnt Hnn Hb Hlm] Hn. simpl. unfold Stop, ShutdownDiscardCounter in *.
  pose proof (len_nonneg (popped s)). pose proof (len_nonneg (items (mq s))).
  destruct b; simpl.
  - destruct (bq_clear_spec false _ Hq) as (q' & -> & Hq' & Hl & Hlim & Ho). simpl.
    rewrite (bq_size_spec _ Hq). fold (items (mq s)) (len (items (mq s))).
    eexists. split; [done|]. rewrite u64_small by (unfold is_u64; lia).
    split; simpl; rewrite ?notify_all_asleep; try done; try lia; unfold items, OverwriteCounter in *; simpl.
    + rewrite Hl, app_nil_r. etrans; [|exact Hff]. by apply sublist_inserts_r.
    + rewrite Hl, (Ho eq_refl). unfold ShutdownDiscardCounter. simpl. unfold len in *; simpl. lia.
    + rewrite (Ho eq_refl). unfold ShutdownDiscardCounter. simpl. lia.
    + unfold limit in *. simpl. congruence.
  - eexists. split; [done|]. split; simpl; rewrite ?notify_all_asleep; try done; try lia.
    intros Hf1. by destruct (Hf Hf1).
Qed.

Lemma mstep_ok n s ev : msys_ok n s → n + 1 < 2 ^ 64 →
  ∃ s', mstep s ev = Some s' ∧ msys_ok (n + 1) s'.
Proof.
  intros Hok Hn. pose proof (msys_ok_mono n s Hok) as Hok'.
  pose proof (m_queue _ _ Hok) as Hq. pose proof (m_force _ _ Hok) as Hf.
  assert (∀ cs pick, consumers_after s cs → CanPop (mq s) = true →
    ∃ s', after_pop s cs pick <$> Pop (mq s) = Some s' ∧ msys_ok (n + 1) s') as Hpop.
  { intros cs pick Hcs Hcan. destruct (Pop_effect (mq s) Hq) as (r & -> & He); [naive_solver|done|].
    eexists. split; [done|]. by apply after_pop_ok. }
  destruct ev as [x p pick|timed pick|i pick|i pick|i pick|b]; [| | | | |by apply stop_ok; [|lia]].
  - destruct p; simpl.
    + pose proof (CanPush_spec _ Hq) as Hcan. destruct (stopped_ (mq s) || _) eqn:Hg; rewrite Hcan; simpl.
      * destruct (PushBlocking_effect (mq s) x Hq Hcan) as (r & -> & He). eexists. split; [done|].
        apply after_push_ok; auto. by left.
      * apply orb_false_iff in Hg as [Hs Hl]. reflect_guards. eexists. split; [done|].
        destruct (awake_app (producers s) [MkWaiter x false]) as [Haw Has]. simpl in Haw, Has.
        pose proof (awake_nonneg (producers s)).
        destruct Hok'. split; simpl; rewrite ?Haw, ?Has; auto; [congruence|lia].
    + destruct (PushDiscard_effect (mq s) x Hq) as (r & -> & He). eexists. split; [done|].
      apply after_push_ok; auto. by left.
    + destruct (PushOverwrite_effect (mq s) x Hq) as (r & -> & He). eexists. split; [done|].
      apply after_push_ok; auto. by left.
  - simpl. destruct (CanPop (mq s)) eqn:Hcan; [by apply Hpop; [left|]|].
    destruct (CanPop_false _ Hq Hcan) as [Hi Hs]. eexists. split; [done|].
    destruct (awake_app (consumers s) [MkWaiter timed false]) as [Haw Has]. simpl in Haw, Has.
    pose proof (awake_nonneg (consumers s)).
    destruct Hok'. split; simpl; rewrite ?Haw, ?Has; auto; [congruence|]. rewrite Hi. unfold len; simpl. lia.
  - simpl. destruct (producers s !! i) as [w|] eqn:Hi; [|by eauto].
    pose proof (CanPush_spec _ Hq) as Hcan. destruct (stopped_ (mq s) || _) eqn:Hg; rewrite Hcan; simpl.
    + destruct (PushBlocking_effect (mq s) (load w) Hq Hcan) as (r & -> & He). eexists. split; [done|].
      apply after_push_ok; auto. right. exists i, w. split_and!; try done.
      apply orb_true_iff in Hg as [Hg|Hg]; [by left|]. right. by reflect_guards.
    + apply orb_false_iff in Hg as [Hs Hl]. reflect_guards. eexists. split; [done|].
      destruct (awake_insert (producers s) i w (MkWaiter (load w) false) Hi) as [Haw Has].
      pose proof (awake_nonneg (<[i:=MkWaiter (load w) false]> (producers s))). simpl in Haw, Has.
      destruct Hok'. split; simpl; auto; [congruence|lia].
  - simpl. destruct (consumers s !! i) as [w|] eqn:Hi; [|by eauto].
    destruct (CanPop (mq s)) eqn:Hcan; [apply Hpop; [right; by exists i, w|done]|].
    destruct (CanPop_false _ Hq Hcan) as [Hit Hs]. eexists. split; [done|].
    pose proof (awake_nonneg (<[i:=MkWaiter (load w) false]> (consumers s))).
    destruct Hok'. split; simpl; auto; [congruence|]. rewrite Hit. unfold len; simpl. lia.
  - simpl. destruct (consumers s !! i) as [w|] eqn:Hi; [|by eauto].
    case_match; [|by eauto].
    destruct (CanPop (mq s)) eqn:Hcan; [apply Hpop; [right; by exists i, w|done]|].
    destruct (CanPop_false _ Hq Hcan) as [Hit Hs]. eexists. split; [done|].
    pose proof (awake_nonneg (delete i (consumers s))).
    destruct Hok'. split; simpl; auto; [congruence|]. rewrite Hit. unfold len; simpl. lia.
Qed.

Lemma mrun_ok evs : ∀ n s, msys_ok n s → n + Z.of_nat (length evs) < 2 ^ 64 →
  ∃ s', mrun s evs = Some s' ∧ msys_ok (n + Z.of_nat (length evs)) s'.
Proof.
  induction evs as [|ev evs IH]; intros n s Hok Hn; cbn [length mrun] in *.
  { rewrite Z.add_0_r. eauto. }
  destruct (mstep_ok n s ev Hok) as (s1 & -> & Hok1); [lia|]. simpl.
  destruct (IH (n + 1) s1 Hok1) as (s' & Hr & Hok'); [lia|]. exists s'. split; [done|].
  by replace (n + Z.of_nat (S (length evs))) with (n + 1 + Z.of_nat (length evs)) by lia.
Qed.

End Mpmc.

Arguments MEvent : clear implicits.
Arguments MSys : clear implicits.

(** ** Properties of the queue over the ring buffer *)

Definition NewMSys {T} (d : T) (capacity : Z) : MSys (CircularQueue.CircularQueue T) T :=
  MkMSys (NewMpmc (NewCircularQueue d capacity)) [] [] [] [].

Lemma NewMSys_ok {T} (d : T) n : 0 ≤ n < 2 ^ 64 - 1 →
  msys_ok (HL := CircularQueue_laws d) n 0 (NewMSys d n).
Proof.
  intros Hn. pose proof (queue_ok_new d n Hn) as Hok.
  split; simpl; try done; try lia; try apply Hok. unfold limit; simpl. rewrite Capacity_spec by done.
  simpl. rewrite u64_small by (unfold is_u64; lia). lia.
Qed.

Lemma all_asleep {A} (ws : list (Waiter A)) : ws ≠ [] → awake ws = 0 → 0 < asleep ws.
Proof.
  destruct ws as [|w ws]; [done|]. simpl. pose proof (awake_nonneg ws). case_match; lia.
Qed.

(** no wake-up is lost.  In every interleaving of pushes, pops, timeouts,
    spurious wake-ups and stops (fewer than 2^64) the ring buffer is used within
    its bounds, and no thread sleeps for good while it could run: if there is an
    item and a consumer waits, or room and a producer waits, then such a waiter
    was notified and is about to run; after [Stop] every waiter was. *)
Theorem blocking_queue_no_lost_wakeup {T} (d : T) n evs :
  0 ≤ n < 2 ^ 64 - 1 → Z.of_nat (length evs) < 2 ^ 64 →
  ∃ s, mrun (H := CircularQueue_bounded d) (NewMSys d n) evs = Some s ∧
    (contents (queue_ (mq s)) ≠ [] → consumers s ≠ [] → 0 < awake (consumers s)) ∧
    (Z.of_nat (length (contents (queue_ (mq s)))) ≠ n → producers s ≠ [] → 0 < awake (producers s)) ∧
    (stopped_ (mq s) = true → asleep (consumers s) = 0 ∧ asleep (producers s) = 0).
Proof.
  intros Hn Hl. destruct (mrun_ok (HL := CircularQueue_laws d) n evs 0 _ (NewMSys_ok d n Hn))
    as (s & Hr & Hok); [lia|]. exists s. split; [done|].
  pose proof (awake_nonneg (consumers s)). pose proof (awake_nonneg (producers s)).
  pose proof (bq_bound _ (m_queue _ _ _ Hok)) as [_ Hb]. pose proof (m_limit _ _ _ Hok) as Hlim.
  unfold limit in Hlim. rewrite Hlim in Hb. simpl in Hb.
  split_and!.
  - intros Hi Hc. destruct (decide (awake (consumers s) = 0)) as [Hz|]; [|lia].
    pose proof (m_consumers _ _ _ Hok (all_asleep _ Hc Hz)) as Hle. unfold len, items in Hle. simpl in Hle.
    destruct (contents (queue_ (mq s))); [done|]. simpl in Hle. lia.
  - intros Hi Hc. destruct (decide (awake (producers s) = 0)) as [Hz|]; [|lia].
    pose proof (m_producers _ _ _ Hok (all_asleep _ Hc Hz)) as Hle. unfold limit in Hle.
    rewrite Hlim in Hle. unfold len, items in Hle. simpl in Hle. lia.
  - intros Hs. destruct (m_stopped _ _ _ Hok Hs). done.
Qed.

Lemma blocking_queue_no_lost_wakeup_witness :
  ∃ s, mrun (H := CircularQueue_bounded 0) (NewMSys 0 1)
         [MPop false 0; MPop true 0; MPush 7 kBlock 1; MPush 8 kBlock 0] = Some s ∧
       length (consumers s) = 2%nat ∧ length (producers s) = 1%nat ∧ 0 < awake (consumers s).
Proof.
  destruct (blocking_queue_no_lost_wakeup 0 1
    [MPop false 0; MPop true 0; MPush 7 kBlock 1; MPush 8 kBlock 0]) as (s & Hr & Hc & _);
    [lia|simpl; lia|].
  exists s. split; [exact Hr|]. vm_compute in Hr. injection Hr as <-.
  split; [reflexivity|]. split; [reflexivity|]. apply Hc; discriminate.
Defined.

Lemma sublist_full {A} (l k : list A) : l `sublist_of` k → length k = length l → l = k.
Proof.
  induction 1 as [|x l k Hs IH|x l k Hs IH]; simpl; intros Hl; [done|f_equal; auto with lia|].
  apply sublist_length in Hs. lia.
Qed.

(** Items leave in the order they were accepted and every accepted item is
    accounted for: it was popped, is still queued, was overwritten by
    [kOverwrite] or was discarded by a forced stop, and the counters of the last
    two are exact. *)
Theorem blocking_queue_fifo_accounting {T} (d : T) n evs :
  0 ≤ n < 2 ^ 64 - 1 → Z.of_nat (length evs) < 2 ^ 64 →
  ∃ s, mrun (H := CircularQueue_bounded d) (NewMSys d n) evs = Some s ∧
    (popped s ++ contents (queue_ (mq s))) `sublist_of` accepted s ∧
    Z.of_nat (length (accepted s)) =
      Z.of_nat (length (popped s)) + Z.of_nat (length (contents (queue_ (mq s)))) +
      CircularQueue.OverrunCounter (queue_ (mq s)) + ShutdownDiscardCounter (mq s) ∧
    (CircularQueue.OverrunCounter (queue_ (mq s)) = 0 → ShutdownDiscardCounter (mq s) = 0 →
     accepted s = popped s ++ contents (queue_ (mq s))).
Proof.
  intros Hn Hl. destruct (mrun_ok (HL := CircularQueue_laws d) n evs 0 _ (NewMSys_ok d n Hn))
    as (s & Hr & Hok); [lia|]. exists s. split; [done|].
  pose proof (m_fifo _ _ _ Hok) as Hf. pose proof (m_count _ _ _ Hok) as Hc.
  unfold items, len, OverwriteCounter in *. simpl in Hf, Hc. split_and!; try done.
  intros H1 H2. symmetry. apply sublist_full; [done|]. rewrite length_app. lia.
Qed.

Lemma blocking_queue_fifo_accounting_witness :
  ∃ s, mrun (H := CircularQueue_bounded 0) (NewMSys 0 2)
         [MPush 1 kBlock 0; MPush 2 kBlock 0; MPush 3 kOverwrite 0; MPop false 0] = Some s ∧
       popped s = [2] ∧ accepted s = [1; 2; 3] ∧
       (popped s ++ contents (queue_ (mq s))) `sublist_of` accepted s.
Proof.
  destruct (blocking_queue_fifo_accounting 0 2
    [MPush 1 kBlock 0; MPush 2 kBlock 0; MPush 3 kOverwrite 0; MPop false 0]) as (s & Hr & Hs & _);
    [lia|simpl; lia|].
  exists s. split; [exact Hr|]. split; [|split; [|exact Hs]];
    vm_compute in Hr; injection Hr as <-; reflexivity.
Defined.
