(* ===== verification/ThreadPool.v ===== *)
(** * The thread pool

    Models [src/common/concurrency/ThreadPool.h], [ThreadPool.cpp] and
    [ThreadPoolTypes.h] over the blocking queue of [MpmcBlockingQueue].
    [TaskPool] is what the ordered executor built on the pool relies on; [Pool]
    is the pool itself.

    The threads of the pool are program counters: the workers, the submitters,
    the holder of the lifecycle mutex ([Shutdown]) and the manager that resizes
    the pool.  A step is one access to shared state, or a critical section.  A
    thread that waits (for a task, for room, for the end of a pause, for threads
    to join) does not move until its condition holds; that the waits of the
    queue are woken is shown in [MpmcBlockingQueue].  The comparisons of the
    usage rate with its thresholds are in floating point, and are fields of the
    options.  [None] is undefined behaviour of the ring buffer below. *)
From Stdlib Require Import ZArith Lia.
From stdpp Require Import base list numbers.
From S2P Require Import Prelude CircularQueue MpmcBlockingQueue.

(** ** The interface of the pool to its clients *)

(** A pool made with a capacity, [TrySubmit], and the take of an idle worker. *)
Class TaskPool (P J : Type) := {
  tp_new : Z → P;
  tp_submit : P → J → option (P * TaskPushResult);
  tp_take : P → option (P * option J);
}.

(** [tp_jobs] are the tasks that wait, oldest first, and [tp_capacity] bounds
    them; [tp_ok] says that the pool was started and not stopped. *)
Class TaskPoolLaws (P J : Type) `{TaskPool P J} := {
  tp_jobs : P → list J;
  tp_capacity : P → Z;
  tp_ok : P → Prop;
  tp_new_ok c : (0 < c < 2 ^ 64 - 1)%Z →
    tp_ok (tp_new c) ∧ tp_jobs (tp_new c) = [] ∧ tp_capacity (tp_new c) = c;
  tp_submit_ok p j : tp_ok p →
    ∃ p' r, tp_submit p j = Some (p', r) ∧ tp_ok p' ∧ tp_capacity p' = tp_capacity p ∧
      (if (Z.of_nat (length (tp_jobs p)) <? tp_capacity p)%Z
       then r = kOk ∧ tp_jobs p' = tp_jobs p ++ [j]
       else r = kDiscarded ∧ tp_jobs p' = tp_jobs p);
  tp_take_ok p : tp_ok p →
    ∃ p', tp_take p = Some (p', head (tp_jobs p)) ∧ tp_ok p' ∧
      tp_capacity p' = tp_capacity p ∧ tp_jobs p' = tail (tp_jobs p);
}.

(** ** The pool *)

Module Pool.

Inductive ThreadPoolState := kCreated | kRunning | kPaused | kShuttingDown | kForceStopping | kStopped.
#[export] Instance ThreadPoolState_eq_dec : EqDecision ThreadPoolState.
Proof. solve_decision. Defined.

Inductive ShutdownMode := kGraceful | kForce | kTimeout.

Record ThreadPoolOptions := MkPoolOptions {
  worker_threads : nat;
  queue_capacity : Z;
  queue_full_policy : QueueFullPolicy;
  enable_dynamic_resize : bool;
  min_threads : nat;
  max_threads : nat;
  reaches_scale_up : Z → Z → bool;     (* size and capacity: usage rate >= scale_up_threshold *)
  within_scale_down : Z → Z → bool;    (* usage rate <= scale_down_threshold *)
  scale_cooldown : Z;
}.

(** The counters of the statistics. *)
Inductive Stat :=
| submitted_task_count_ | completed_task_count_ | failed_task_count_ | rejected_task_count_
| threads_created_count_ | threads_destroyed_count_ | exited_worker_count_
| dynamic_resize_count_.
#[export] Instance Stat_eq_dec : EqDecision Stat.
Proof. solve_decision. Defined.

Section Pool.
Context {Q T : Type} `{BoundedQueue Q T}.
Variable o : ThreadPoolOptions.

(** Where a worker is in [WorkerLoop]. *)
Inductive WorkerPc :=
| WHead                    (* the head of the loop *)
| WScale (pending : nat)   (* [ShouldWorkerExitForScaleDown], before the exchange *)
| WPop                     (* in [Pop] or [PopFor] *)
| WIdle                    (* no task was popped *)
| WIdleScale (pending : nat)
| WPaused (x : T)          (* [WaitIfPaused]: the predicate of the wait *)
| WSleep (x : T)           (* it was false: about to block *)
| WAsleep (x : T) (notified : bool)
| WCheck (x : T)           (* the check of the state after it *)
| WRun (x : T)             (* the task runs *)
| WExiting                 (* after the loop *)
| WGone.

(** [worker_slots_]; [exited] is [WGone], and [should_exit] is never set. *)
Record WorkerSlot := MkSlot { worker_id : nat; worker_pc : WorkerPc }.

(** A call of [Submit] ([policy]) or [TrySubmit] ([kDiscard]). *)
Inductive SubmitterPc :=
| SPush (x : T) (policy : QueueFullPolicy)   (* accepted by [IsAcceptingTasks] *)
| SCount.                                    (* the push returned [kOk] *)

(** The thread inside [Shutdown]. *)
Inductive ShutdownPc :=
| KIdle
| KManager (mode : ShutdownMode)   (* the join of [StopManager] *)
| KState (mode : ShutdownMode)     (* before the store of the state *)
| KStop (mode : ShutdownMode)      (* before [task_queue_.Stop] *)
| KWait                            (* the loop of [kTimeout] *)
| KForced                          (* the timeout expired: before [Stop(true)] *)
| KJoin                            (* [JoinWorkers] *)
| KStuck.                          (* [Start] calls [Shutdown] with the mutex held *)

(** The manager thread; the flag says that it was told to stop while it slept. *)
Inductive ManagerPc := MNone | MSleep | MGone.

Record ThreadPool := MkPool {
  state_value_ : ThreadPoolState;
  task_queue_ : MpmcBlockingQueue (Q := Q);
  stats : Stat → nat;
  active_thread_count_ : nat;
  current_worker_count_ : nat;
  peak_worker_count_ : nat;
  peak_queue_size_ : Z;
  pending_worker_exit_count_ : nat;
  next_worker_id_ : nat;
  worker_slots_ : list WorkerSlot;
  submitters : list SubmitterPc;
  shutdown_pc : ShutdownPc;
  manager_running_ : bool;
  manager_pc : ManagerPc;
  last_resize_time : Z;
  accepted : list T;    (* not in the source: the tasks whose push returned [kOk], *)
  finished : list T;    (* those that ran, *)
  dropped : list T;     (* and those a worker took and did not run *)
}.

Definition set_state (p : ThreadPool) (x : ThreadPoolState) : ThreadPool :=
  MkPool x (task_queue_ p) (stats p) (active_thread_count_ p) (current_worker_count_ p)
    (peak_worker_count_ p) (peak_queue_size_ p) (pending_worker_exit_count_ p) (next_worker_id_ p)
    (worker_slots_ p) (submitters p) (shutdown_pc p) (manager_running_ p) (manager_pc p)
    (last_resize_time p) (accepted p) (finished p) (dropped p).
Definition set_task_queue (p : ThreadPool) (x : MpmcBlockingQueue (Q := Q)) : ThreadPool :=
  MkPool (state_value_ p) x (stats p) (active_thread_count_ p) (current_worker_count_ p)
    (peak_worker_count_ p) (peak_queue_size_ p) (pending_worker_exit_count_ p)
    (next_worker_id_ p) (worker_slots_ p) (submitters p) (shutdown_pc p) (manager_running_ p)
    (manager_pc p) (last_resize_time p) (accepted p) (finished p) (dropped p).
Definition set_stats (p : ThreadPool) (x : Stat → nat) : ThreadPool :=
  MkPool (state_value_ p) (task_queue_ p) x (active_thread_count_ p) (current_worker_count_ p)
    (peak_worker_count_ p) (peak_queue_size_ p) (pending_worker_exit_count_ p)
    (next_worker_id_ p) (worker_slots_ p) (submitters p) (shutdown_pc p) (manager_running_ p)
    (manager_pc p) (last_resize_time p) (accepted p) (finished p) (dropped p).
Definition set_active (p : ThreadPool) (x : nat) : ThreadPool :=
  MkPool (state_value_ p) (task_queue_ p) (stats p) x (current_worker_count_ p)
    (peak_worker_count_ p) (peak_queue_size_ p) (pending_worker_exit_count_ p)
    (next_worker_id_ p) (worker_slots_ p) (submitters p) (shutdown_pc p) (manager_running_ p)
    (manager_pc p) (last_resize_time p) (accepted p) (finished p) (dropped p).
Definition set_workers (p : ThreadPool) (x : nat) : ThreadPool :=
  MkPool (state_value_ p) (task_queue_ p) (stats p) (active_thread_count_ p) x
    (peak_worker_count_ p) (peak_queue_size_ p) (pending_worker_exit_count_ p)
    (next_worker_id_ p) (worker_slots_ p) (submitters p) (shutdown_pc p) (manager_running_ p)
    (manager_pc p) (last_resize_time p) (accepted p) (finished p) (dropped p).
Definition set_peak_workers (p : ThreadPool) (x : nat) : ThreadPool :=
  MkPool (state_value_ p) (task_queue_ p) (stats p) (active_thread_count_ p)
    (current_worker_count_ p) x (peak_queue_size_ p) (pending_worker_exit_count_ p)
    (next_worker_id_ p) (worker_slots_ p) (submitters p) (shutdown_pc p) (manager_running_ p)
    (manager_pc p) (last_resize_time p) (accepted p) (finished p) (dropped p).
Definition set_peak_queue (p : ThreadPool) (x : Z) : ThreadPool :=
  MkPool (state_value_ p) (task_queue_ p) (stats p) (active_thread_count_ p)
    (current_worker_count_ p) (peak_worker_count_ p) x (pending_worker_exit_count_ p)
    (next_worker_id_ p) (worker_slots_ p) (submitters p) (shutdown_pc p) (manager_running_ p)
    (manager_pc p) (last_resize_time p) (accepted p) (finished p) (dropped p).
Definition set_pending_exit (p : ThreadPool) (x : nat) : ThreadPool :=
  MkPool (state_value_ p) (task_queue_ p) (stats p) (active_thread_count_ p)
    (current_worker_count_ p) (peak_worker_count_ p) (peak_queue_size_ p) x (next_worker_id_ p)
    (worker_slots_ p) (submitters p) (shutdown_pc p) (manager_running_ p) (manager_pc p)
    (last_resize_time p) (accepted p) (finished p) (dropped p).
Definition set_next_id (p : ThreadPool) (x : nat) : ThreadPool :=
  MkPool (state_value_ p) (task_queue_ p) (stats p) (active_thread_count_ p)
    (current_worker_count_ p) (peak_worker_count_ p) (peak_queue_size_ p)
    (pending_worker_exit_count_ p) x (worker_slots_ p) (submitters p) (shutdown_pc p)
    (manager_running_ p) (manager_pc p) (last_resize_time p) (accepted p) (finished p)
    (dropped p).
Definition set_slots (p : ThreadPool) (x : list WorkerSlot) : ThreadPool :=
  MkPool (state_value_ p) (task_queue_ p) (stats p) (active_thread_count_ p)
    (current_worker_count_ p) (peak_worker_count_ p) (peak_queue_size_ p)
    (pending_worker_exit_count_ p) (next_worker_id_ p) x (submitters p) (shutdown_pc p)
    (manager_running_ p) (manager_pc p) (last_resize_time p) (accepted p) (finished p)
    (dropped p).
Definition set_submitters (p : ThreadPool) (x : list SubmitterPc) : ThreadPool :=
  MkPool (state_value_ p) (task_queue_ p) (stats p) (active_thread_count_ p)
    (current_worker_count_ p) (peak_worker_count_ p) (peak_queue_size_ p)
    (pending_worker_exit_count_ p) (next_worker_id_ p) (worker_slots_ p) x (shutdown_pc p)
    (manager_running_ p) (manager_pc p) (last_resize_time p) (accepted p) (finished p)
    (dropped p).
Definition set_shutdown (p : ThreadPool) (x : ShutdownPc) : ThreadPool :=
  MkPool (state_value_ p) (task_queue_ p) (stats p) (active_thread_count_ p)
    (current_worker_count_ p) (peak_worker_count_ p) (peak_queue_size_ p)
    (pending_worker_exit_count_ p) (next_worker_id_ p) (worker_slots_ p) (submitters p) x
    (manager_running_ p) (manager_pc p) (last_resize_time p) (accepted p) (finished p)
    (dropped p).
Definition set_manager_running (p : ThreadPool) (x : bool) : ThreadPool :=
  MkPool (state_value_ p) (task_queue_ p) (stats p) (active_thread_count_ p)
    (current_worker_count_ p) (peak_worker_count_ p) (peak_queue_size_ p)
    (pending_worker_exit_count_ p) (next_worker_id_ p) (worker_slots_ p) (submitters p)
    (shutdown_pc p) x (manager_pc p) (last_resize_time p) (accepted p) (finished p) (dropped p).
Definition set_manager (p : ThreadPool) (x : ManagerPc) : ThreadPool :=
  MkPool (state_value_ p) (task_queue_ p) (stats p) (active_thread_count_ p)
    (current_worker_count_ p) (peak_worker_count_ p) (peak_queue_size_ p)
    (pending_worker_exit_count_ p) (next_worker_id_ p) (worker_slots_ p) (submitters p)
    (shutdown_pc p) (manager_running_ p) x (last_resize_time p) (accepted p) (finished p)
    (dropped p).
Definition set_resized (p : ThreadPool) (x : Z) : ThreadPool :=
  MkPool (state_value_ p) (task_queue_ p) (stats p) (active_thread_count_ p)
    (current_worker_count_ p) (peak_worker_count_ p) (peak_queue_size_ p)
    (pending_worker_exit_count_ p) (next_worker_id_ p) (worker_slots_ p) (submitters p)
    (shutdown_pc p) (manager_running_ p) (manager_pc p) x (accepted p) (finished p) (dropped p).
Definition set_accepted (p : ThreadPool) (x : list T) : ThreadPool :=
  MkPool (state_value_ p) (task_queue_ p) (stats p) (active_thread_count_ p)
    (current_worker_count_ p) (peak_worker_count_ p) (peak_queue_size_ p)
    (pending_worker_exit_count_ p) (next_worker_id_ p) (worker_slots_ p) (submitters p)
    (shutdown_pc p) (manager_running_ p) (manager_pc p) (last_resize_time p) x (finished p)
    (dropped p).
Definition set_finished (p : ThreadPool) (x : list T) : ThreadPool :=
  MkPool (state_value_ p) (task_queue_ p) (stats p) (active_thread_count_ p)
    (current_worker_count_ p) (peak_worker_count_ p) (peak_queue_size_ p)
    (pending_worker_exit_count_ p) (next_worker_id_ p) (worker_slots_ p) (submitters p)
    (shutdown_pc p) (manager_running_ p) (manager_pc p) (last_resize_time p) (accepted p) x
    (dropped p).
Definition set_dropped (p : ThreadPool) (x : list T) : ThreadPool :=
  MkPool (state_value_ p) (task_queue_ p) (stats p) (active_thread_count_ p)
    (current_worker_count_ p) (peak_worker_count_ p) (peak_queue_size_ p)
    (pending_worker_exit_count_ p) (next_worker_id_ p) (worker_slots_ p) (submitters p)
    (shutdown_pc p) (manager_running_ p) (manager_pc p) (last_resize_time p) (accepted p)
    (finished p) x.

Definition tick (p : ThreadPool) (c : Stat) : ThreadPool :=
  set_stats p (λ c', if decide (c' = c) then S (stats p c') else stats p c').

(** The constructor. *)
Definition NewThreadPool (queue : Q) : ThreadPool :=
  MkPool kCreated (NewMpmc queue) (λ _, 0) 0 0 0 0 0 0 [] [] KIdle false MNone 0 [] [] [].

Definition CompareExchangeState (p : ThreadPool) (expected desired : ThreadPoolState)
  : ThreadPool * bool :=
  if decide (state_value_ p = expected) then (set_state p desired, true) else (p, false).

(** [pause_cv_.notify_all], which is called without [pause_mutex_]. *)
Definition wake (w : WorkerSlot) : WorkerSlot :=
  match worker_pc w with WAsleep x _ => MkSlot (worker_id w) (WAsleep x true) | _ => w end.
Definition notify_paused (p : ThreadPool) : ThreadPool :=
  set_slots p (wake <$> worker_slots_ p).

Definition Pause (p : ThreadPool) : ThreadPool * bool := CompareExchangeState p kRunning kPaused.
Definition Resume (p : ThreadPool) : ThreadPool * bool :=
  let '(p, ok) := CompareExchangeState p kPaused kRunning in
  (if (ok : bool) then notify_paused p else p, ok).

Definition IsAcceptingTasks (p : ThreadPool) : bool :=
  bool_decide (state_value_ p = kRunning) || bool_decide (state_value_ p = kPaused).

(** Whether the pool is being forced to stop, or stopped. *)
Definition force_stopping (p : ThreadPool) : bool :=
  bool_decide (state_value_ p = kForceStopping) || bool_decide (state_value_ p = kStopped).

(** ** Workers *)

Definition AddWorker (p : ThreadPool) : ThreadPool * bool :=
  let limit := if enable_dynamic_resize o then max_threads o else worker_threads o in
  if limit <=? current_worker_count_ p then (p, false)
  else
    let p := set_slots p (worker_slots_ p ++ [MkSlot (next_worker_id_ p) WHead]) in
    let p := set_next_id p (S (next_worker_id_ p)) in
    let n := S (current_worker_count_ p) in
    let p := tick (set_workers p n) threads_created_count_ in
    (set_peak_workers p (Nat.max (peak_worker_count_ p) n), true).

(** The loop of [Start]. *)
Fixpoint AddWorkers (n : nat) (p : ThreadPool) : ThreadPool * bool :=
  match n with
  | 0 => (p, true)
  | S n => let '(p, ok) := AddWorker p in if ok then AddWorkers n p else (p, false)
  end.

(** [Start], which holds the lifecycle mutex; [now] is the clock. *)
Definition Start (p : ThreadPool) (now : Z) : ThreadPool * bool :=
  let '(p, ok) := CompareExchangeState p kCreated kRunning in
  if negb ok then (p, false)
  else
    let '(p, ok) := AddWorkers (worker_threads o) p in
    if negb ok then (set_shutdown p KStuck, false)
    else if enable_dynamic_resize o then
      (set_resized (set_manager (set_manager_running p true) MSleep) (now - scale_cooldown o), true)
    else (p, true).

Definition RequestWorkerExit (p : ThreadPool) (n : nat) : ThreadPool * bool :=
  if (n =? 0) || (current_worker_count_ p <=? min_threads o) then (p, false)
  else
    let removable := Nat.min n (current_worker_count_ p - min_threads o) in
    if removable =? 0 then (p, false)
    else (tick (set_pending_exit p (pending_worker_exit_count_ p + removable)) dynamic_resize_count_,
          true).

(** [ShouldWorkerExitForScaleDown] up to its loop: the requests it saw. *)
Definition ScaleDownRequests (p : ThreadPool) : option nat :=
  if negb (enable_dynamic_resize o) then None
  else if negb (IsAcceptingTasks p) then None
  else if (0 <? Size (task_queue_ p))%Z then None
  else Some (pending_worker_exit_count_ p).

(** The head of its loop: it goes on to the exchange, or answers no. *)
Definition ScaleDownCheck (p : ThreadPool) (pending : nat) : bool :=
  (0 <? pending) && (min_threads o <? current_worker_count_ p).

Definition RecordTaskFinished (p : ThreadPool) (success : bool) : ThreadPool :=
  tick p (if success then completed_task_count_ else failed_task_count_).

(** What the environment answers to the step of a worker: whether the task
    succeeds, and whether a timed wait expires, a weak exchange fails or a wake-up
    is spurious. *)
Record WorkerAnswer := MkWorkerAnswer { success : bool; expires : bool }.

(** One step of [WorkerLoop]; [WHead] again when it goes round the loop. *)
Definition WorkerStep (p : ThreadPool) (c : WorkerPc) (a : WorkerAnswer)
  : option (ThreadPool * WorkerPc) :=
  match c with
  | WHead =>
      Some (p, match ScaleDownRequests p with
               | Some pending => if ScaleDownCheck p pending then WScale pending else WPop
               | None => WPop
               end)
  | WScale pending =>
      Some (if (pending_worker_exit_count_ p =? pending) && negb (expires a)
            then (set_pending_exit p (pred pending), WExiting)
            else (p, if ScaleDownCheck p (pending_worker_exit_count_ p)
                     then WScale (pending_worker_exit_count_ p) else WPop))
  | WPop =>
      if CanPop (task_queue_ p) then
        '(m, x, _) ← Pop (task_queue_ p);
        Some (set_task_queue p m, match x with Some x => WPaused x | None => WIdle end)
      else Some (p, if enable_dynamic_resize o && expires a then WIdle else WPop)
  | WIdle =>
      if bool_decide (state_value_ p = kShuttingDown) || force_stopping p then Some (p, WExiting)
      else
        Some (p, match ScaleDownRequests p with
                 | Some pending => if ScaleDownCheck p pending then WIdleScale pending else WHead
                 | None => WHead
                 end)
  | WIdleScale pending =>
      Some (if (pending_worker_exit_count_ p =? pending) && negb (expires a)
            then (set_pending_exit p (pred pending), WExiting)
            else (p, if ScaleDownCheck p (pending_worker_exit_count_ p)
                     then WIdleScale (pending_worker_exit_count_ p) else WHead))
  | WPaused x =>
      if decide (state_value_ p = kPaused) then Some (p, WSleep x)
      else if force_stopping p then Some (set_dropped p (dropped p ++ [x]), WExiting)
      else Some (p, WCheck x)
  | WSleep x => Some (p, WAsleep x false)
  | WAsleep x notified => Some (p, if notified || expires a then WPaused x else c)
  | WCheck x =>
      if force_stopping p then Some (set_dropped p (dropped p ++ [x]), WExiting)
      else Some (set_active p (S (active_thread_count_ p)), WRun x)
  | WRun x =>
      let p := RecordTaskFinished p (success a) in
      let p := set_finished p (finished p ++ [x]) in
      Some (set_active p (pred (active_thread_count_ p)), WHead)
  | WExiting =>
      let p := set_workers p (pred (current_worker_count_ p)) in
      Some (tick (tick p threads_destroyed_count_) exited_worker_count_, WGone)
  | WGone => Some (p, WGone)
  end.

(** ** Submissions *)

(** [TrySubmit] and [Submit] up to the push; an empty task is refused. *)
Definition SubmitEntry (p : ThreadPool) (x : option T) (policy : QueueFullPolicy)
  : ThreadPool * (TaskPushResult + SubmitterPc) :=
  match x with
  | None => (tick p rejected_task_count_, inl kDiscarded)
  | Some x =>
      if negb (IsAcceptingTasks p)
      then (tick p rejected_task_count_, inl MpmcBlockingQueue.kStopped)
      else (p, inr (SPush x policy))
  end.

(** The push into the queue, and the count of a refusal. *)
Definition SubmitPush (p : ThreadPool) (x : T) (policy : QueueFullPolicy)
  : option (ThreadPool * TaskPushResult) :=
  '(m, r, _) ← match policy with
               | kBlock => PushBlocking (task_queue_ p) x
               | kDiscard => PushDiscard (task_queue_ p) x
               | kOverwrite => PushOverwrite (task_queue_ p) x
               end;
  let p := set_task_queue p m in
  Some (match r with
        | kOk => (set_accepted p (accepted p ++ [x]), kOk)
        | r => (tick p rejected_task_count_, r)
        end).

(** The counts after a push. *)
Definition SubmitCount (p : ThreadPool) : ThreadPool :=
  let p := tick p submitted_task_count_ in
  set_peak_queue p (Z.max (peak_queue_size_ p) (Size (task_queue_ p))).

(** [TrySubmit] as a whole. *)
Definition TrySubmit (p : ThreadPool) (x : option T) : option (ThreadPool * TaskPushResult) :=
  match SubmitEntry p x kDiscard with
  | (p, inr (SPush x policy)) =>
      '(p, r) ← SubmitPush p x policy;
      Some (match r with kOk => SubmitCount p | _ => p end, r)
  | (p, inr SCount) => Some (p, kOk)
  | (p, inl r) => Some (p, r)
  end.

Definition SubmitterStep (p : ThreadPool) (c : SubmitterPc) : option (ThreadPool * option SubmitterPc) :=
  match c with
  | SPush x policy =>
      can ← match policy with kBlock => CanPush (task_queue_ p) | _ => Some true end;
      if negb can then Some (p, Some c)
      else
        '(p, r) ← SubmitPush p x policy;
        Some (p, match r with kOk => Some SCount | _ => None end)
  | SCount => Some (SubmitCount p, None)
  end.

(** ** Shutdown *)

Definition gone (w : WorkerSlot) : bool := match worker_pc w with WGone => true | _ => false end.

(** [Shutdown] up to the join of the manager. *)
Definition ShutdownEntry (p : ThreadPool) (mode : ShutdownMode) : ThreadPool :=
  match shutdown_pc p with
  | KIdle =>
      match state_value_ p with
      | kStopped => p
      | kCreated => set_state p kStopped
      | _ =>
          if enable_dynamic_resize o && manager_running_ p
          then set_shutdown (set_manager_running p false) (KManager mode)
          else set_shutdown p (KState mode)
      end
  | _ => p     (* another thread holds the lifecycle mutex *)
  end.

Definition ShutdownStep (p : ThreadPool) (expired : bool) : option ThreadPool :=
  match shutdown_pc p with
  | KIdle | KStuck => Some p
  | KManager mode =>
      Some (match manager_pc p with MSleep => p | _ => set_shutdown p (KState mode) end)
  | KState mode =>
      Some (set_shutdown (set_state p (match mode with kForce => kForceStopping | _ => kShuttingDown end))
              (KStop mode))
  | KStop mode =>
      m ← Stop (task_queue_ p) (match mode with kForce => true | _ => false end);
      Some (notify_paused (set_shutdown (set_task_queue p m)
                             (match mode with kTimeout => KWait | _ => KJoin end)))
  | KWait =>
      Some (if stats p exited_worker_count_ <? worker_threads o then
              if expired then set_shutdown (set_state p kForceStopping) KForced else p
            else set_shutdown p KJoin)
  | KForced =>
      m ← Stop (task_queue_ p) true;
      Some (notify_paused (set_shutdown (set_task_queue p m) KJoin))
  | KJoin =>
      Some (if forallb gone (worker_slots_ p)
            then set_shutdown (set_state (set_slots p []) kStopped) KIdle
            else p)
  end.

(** ** The manager *)

Definition CleanupExitedWorkers (p : ThreadPool) : ThreadPool :=
  set_slots p (filter (λ w, gone w = false) (worker_slots_ p)).

(** One turn of [ManagerLoop], after it slept; [now] is the clock. *)
Definition ManagerStep (p : ThreadPool) (now : Z) : ThreadPool :=
  match manager_pc p with
  | MNone | MGone => p
  | MSleep =>
      if negb (manager_running_ p) || negb (IsAcceptingTasks p)
      then set_manager (CleanupExitedWorkers p) MGone
      else
        let p := CleanupExitedWorkers p in
        if (now - last_resize_time p <? scale_cooldown o)%Z then p
        else
          let size := Size (task_queue_ p) in
          let capacity := Capacity (task_queue_ p) in
          if reaches_scale_up o size capacity && (current_worker_count_ p <? max_threads o) then
            let '(p, ok) := AddWorker p in
            if (ok : bool) then set_resized (tick p dynamic_resize_count_) now else p
          else if within_scale_down o size capacity && (size =? 0)%Z &&
                  (active_thread_count_ p =? 0) && (min_threads o <? current_worker_count_ p) then
            let '(p, ok) := RequestWorkerExit p 1 in
            if (ok : bool) then set_resized p now else p
          else p
  end.

(** ** Steps *)

Inductive PoolEvent :=
| EStart (now : Z)
| ESubmit (x : option T) (policy : QueueFullPolicy)
| ESubmitter (i : nat)
| EWorker (i : nat) (a : WorkerAnswer)
| EPause
| EResume
| EShutdown (mode : ShutdownMode)
| EShutdownStep (expired : bool)
| EManager (now : Z).

Definition pool_step (p : ThreadPool) (ev : PoolEvent) : option ThreadPool :=
  match ev with
  | EStart now =>
      Some (match shutdown_pc p with KIdle => (Start p now).1 | _ => p end)
  | ESubmit x policy =>
      Some (match SubmitEntry p x policy with
            | (p, inr c) => set_submitters p (submitters p ++ [c])
            | (p, inl _) => p
            end)
  | ESubmitter i =>
      match submitters p !! i with
      | None => Some p
      | Some c =>
          '(p, c') ← SubmitterStep p c;
          Some (set_submitters p (match c' with
                                  | Some c' => <[i := c']> (submitters p)
                                  | None => delete i (submitters p)
                                  end))
      end
  | EWorker i a =>
      match worker_slots_ p !! i with
      | None => Some p
      | Some w =>
          '(p, c) ← WorkerStep p (worker_pc w) a;
          Some (set_slots p (<[i := MkSlot (worker_id w) c]> (worker_slots_ p)))
      end
  | EPause => Some (Pause p).1
  | EResume => Some (Resume p).1
  | EShutdown mode => Some (ShutdownEntry p mode)
  | EShutdownStep expired => ShutdownStep p expired
  | EManager now => Some (ManagerStep p now)
  end.

Definition pool_run : ThreadPool → list PoolEvent → option ThreadPool := run pool_step.

End Pool.

Arguments WorkerSlot : clear implicits. Arguments WorkerPc : clear implicits.
Arguments SubmitterPc : clear implicits. Arguments ThreadPool : clear implicits.
Arguments PoolEvent : clear implicits.

(** ** A graceful shutdown runs every accepted task *)

Section Graceful.
Context {Q T : Type} `{HL : BoundedQueueLaws Q T}.
Variable o : ThreadPoolOptions.
Hypothesis fixed_size : enable_dynamic_resize o = false.
Hypothesis some_workers : (0 < worker_threads o)%nat.
Variable overwriting : bool.    (* whether a new task may replace an old one *)
Local Abbreviation Pool := (ThreadPool Q T).
Implicit Types (p : Pool) (R : list T).

(** The calls of a program that never forces the pool to stop, at once or after a
    time. *)
Definition unforced (ev : PoolEvent T) : bool :=
  match ev with EShutdown kGraceful => true | EShutdown _ => false | _ => true end.
(** A call that lets a new task replace an old one. *)
Definition overwrites (ev : PoolEvent T) : bool :=
  match ev with ESubmit _ kOverwrite => true | _ => false end.

(** The task a worker holds. *)
Definition held (w : WorkerSlot T) : option T :=
  match worker_pc w with
  | WPaused x | WSleep x | WAsleep x _ | WCheck x | WRun x => Some x
  | _ => None
  end.
Definition in_hand p : list T := omap held (worker_slots_ p).

Definition at_end (c : WorkerPc T) : bool :=
  match c with WIdle | WExiting | WGone => true | _ => false end.
Definition scaling (c : WorkerPc T) : bool :=
  match c with WScale _ | WIdleScale _ => true | _ => false end.

Definition counting (c : SubmitterPc T) : Z := match c with SCount => 1 | _ => 0 end.
Definition plain_submitter (c : SubmitterPc T) : bool :=
  match c with SPush _ kOverwrite => false | _ => true end.

(** The state of the pool, the queue and [Shutdown] fit together. *)
Definition phase_ok p : Prop :=
  match state_value_ p, shutdown_pc p with
  | kCreated, KIdle =>
      stopped_ (task_queue_ p) = false ∧ submitters p = [] ∧ worker_slots_ p = [] ∧
      items (task_queue_ p) = [] ∧ current_worker_count_ p = 0%nat
  | kRunning, (KIdle | KState kGraceful) | kPaused, (KIdle | KState kGraceful)
  | kShuttingDown, KStop kGraceful =>
      stopped_ (task_queue_ p) = false ∧ length (worker_slots_ p) = worker_threads o
  | kShuttingDown, KJoin =>
      stopped_ (task_queue_ p) = true ∧ length (worker_slots_ p) = worker_threads o
  | kStopped, KIdle =>
      items (task_queue_ p) = [] ∧ worker_slots_ p = [] ∧
      (stopped_ (task_queue_ p) = true ∨ submitters p = [])
  | _, _ => False
  end.

(** [R] are the tasks that were replaced. *)
Record pool_ok R p : Prop := {
  po_queue : bq_ok (queue_ (task_queue_ p));
  po_unforced : force_stopped_ (task_queue_ p) = false;
  po_phase : phase_ok p;
  po_manager : manager_pc p = MNone;
  po_workers : Forall (λ w, scaling (worker_pc w) = false ∧
    (at_end (worker_pc w) = true →
     stopped_ (task_queue_ p) = true ∧ items (task_queue_ p) = [])) (worker_slots_ p);
  po_submitters : overwriting = false → Forall (λ c, plain_submitter c = true) (submitters p);
  po_tasks : accepted p ≡ₚ items (task_queue_ p) ++ in_hand p ++ finished p ++ R;
  po_replaced : OverwriteCounter (task_queue_ p) = u64 (Z.of_nat (length R)) ∧ (overwriting = false → R = []);
  po_dropped : dropped p = [];
  po_submitted : (Z.of_nat (stats p submitted_task_count_) + lsum counting (submitters p) =
    Z.of_nat (length (accepted p)))%Z;
  po_finished : (stats p completed_task_count_ + stats p failed_task_count_)%nat =
    length (finished p);
}.

Lemma tick_eq p c : stats (tick p c) c = S (stats p c).
Proof. simpl. by rewrite decide_True. Qed.
Lemma tick_ne p c c' : c' ≠ c → stats (tick p c) c' = stats p c'.
Proof. intros. simpl. by rewrite decide_False. Qed.

Lemma NewThreadPool_ok q :
  bq_ok q → bq_list q = [] → bq_overrun q = 0%Z → pool_ok [] (NewThreadPool q).
Proof.
  intros Hq Hl Ho. split; try done; unfold items, in_hand; simpl; by rewrite ?Hl.
Qed.

(** What the creation of workers leaves alone. *)
Definition same_work p p' : Prop :=
  state_value_ p' = state_value_ p ∧ task_queue_ p' = task_queue_ p ∧
  submitters p' = submitters p ∧ shutdown_pc p' = shutdown_pc p ∧
  manager_pc p' = manager_pc p ∧ accepted p' = accepted p ∧ finished p' = finished p ∧
  dropped p' = dropped p ∧
  stats p' submitted_task_count_ = stats p submitted_task_count_ ∧
  stats p' completed_task_count_ = stats p completed_task_count_ ∧
  stats p' failed_task_count_ = stats p failed_task_count_.

Lemma AddWorkers_spec n : ∀ p,
  (current_worker_count_ p + n ≤ worker_threads o)%nat →
  ∃ p' ws, AddWorkers o n p = (p', true) ∧ worker_slots_ p' = worker_slots_ p ++ ws ∧
    length ws = n ∧ Forall (λ w, worker_pc w = WHead) ws ∧ same_work p p'.
Proof.
  induction n as [|n IH]; intros p Hn.
  { exists p, []. rewrite app_nil_r. by unfold same_work; split_and!. }
  simpl. unfold AddWorker. rewrite fixed_size.
  destruct (Nat.leb_spec (worker_threads o) (current_worker_count_ p)); [lia|].
  match goal with |- context [AddWorkers o n ?q] => destruct (IH q) as (p' & ws & -> & Hs & Hl & Hw & Hf) end.
  { simpl. lia. }
  exists p', (MkSlot (next_worker_id_ p) WHead :: ws). split_and!; try done.
  - rewrite Hs. simpl. by rewrite <-(assoc_L (++)).
  - simpl. by rewrite Hl.
  - by constructor.
Qed.

Lemma Forall_workers (ws : list (WorkerSlot T)) i w c (R : WorkerSlot T → Prop) :
  Forall R ws → ws !! i = Some w → (R w → R (MkSlot (worker_id w) c)) →
  Forall R (<[i := MkSlot (worker_id w) c]> ws).
Proof.
  intros HR Hi Hc. apply Forall_insert; [done|]. apply Hc. by eapply Forall_lookup_1.
Qed.

Lemma in_hand_insert (ws : list (WorkerSlot T)) i w w' :
  ws !! i = Some w →
  ∃ r, omap held ws ≡ₚ option_list (held w) ++ r ∧
       omap held (<[i := w']> ws) ≡ₚ option_list (held w') ++ r.
Proof.
  intros Hi. exists (omap held (delete i ws)).
  split.
  - rewrite (delete_Permutation _ _ _ Hi) at 1. simpl. by destruct (held w).
  - rewrite (insert_Permutation _ _ _ w' Hi). simpl. by destruct (held w').
Qed.

(** *** Workers *)

Definition moved p i (w : WorkerSlot T) c : Pool :=
  set_slots p (<[i := MkSlot (worker_id w) c]> (worker_slots_ p)).

(** While there are workers the pool was started and is not stopped. *)
Lemma phase_workers p i w :
  phase_ok p → worker_slots_ p !! i = Some w →
  state_value_ p ≠ kCreated ∧ state_value_ p ≠ kStopped ∧ state_value_ p ≠ kForceStopping ∧
  (stopped_ (task_queue_ p) = true → state_value_ p = kShuttingDown).
Proof.
  unfold phase_ok. intros Hp Hi. destruct (state_value_ p), (shutdown_pc p) as [| |[]|[]| | | |]; try done;
    try destruct Hp as (? & ? & Hs & ?); try destruct Hp as (? & Hs & ?); try rewrite Hs in Hi;
    try done; split_and!; try done; intros; destruct_and!; congruence.
Qed.

(** Both the phase and the workers allow a worker to move. *)
Lemma phase_moved p p' i w c :
  phase_ok p → worker_slots_ p !! i = Some w →
  state_value_ p' = state_value_ p → shutdown_pc p' = shutdown_pc p →
  worker_slots_ p' = worker_slots_ p →
  stopped_ (task_queue_ p') = stopped_ (task_queue_ p) → phase_ok (moved p' i w c).
Proof.
  intros Hp Hi E1 E2 E3 E4. destruct (phase_workers p i w Hp Hi) as (? & ? & ? & _).
  unfold phase_ok, moved in *. cbn. rewrite E1, E2, E3, E4, length_insert.
  destruct (state_value_ p), (shutdown_pc p) as [| |[]|[]| | | |]; done.
Qed.

Lemma silent_move R p i w c :
  pool_ok R p → worker_slots_ p !! i = Some w → scaling c = false →
  (at_end c = true → stopped_ (task_queue_ p) = true ∧ items (task_queue_ p) = []) →
  held (MkSlot (worker_id w) c) = held w → pool_ok R (moved p i w c).
Proof.
  intros Hok Hi Hs He Hh. destruct Hok. split; try done.
  - by apply (phase_moved p).
  - apply Forall_insert; [done|]. simpl. by split.
  - destruct (in_hand_insert (worker_slots_ p) i w (MkSlot (worker_id w) c) Hi) as (r & E1 & E2).
    rewrite po_tasks0. unfold in_hand. simpl. by rewrite E1, E2, Hh.
Qed.

(** A worker takes the oldest task. *)
Lemma take_move R p i w m x l :
  pool_ok R p → worker_slots_ p !! i = Some w → worker_pc w = WPop →
  bq_ok (queue_ m) → items (task_queue_ p) = x :: l → items m = l →
  same_flags (task_queue_ p) m → OverwriteCounter m = OverwriteCounter (task_queue_ p) →
  pool_ok R (moved (set_task_queue p m) i w (WPaused x)).
Proof.
  intros Hok Hi Hw Hm Hx Hl (F1 & F2 & F3 & F4) Fo. destruct Hok. split; simpl; try done.
  - congruence.
  - by apply (phase_moved p).
  - apply Forall_insert; [|by split]. eapply list.Forall_impl; [exact po_workers0|].
    intros w' [? He]. split; [done|]. intros [_ ?]%He. congruence.
  - destruct (in_hand_insert (worker_slots_ p) i w (MkSlot (worker_id w) (WPaused x)) Hi)
      as (r & E1 & E2).
    rewrite po_tasks0. unfold in_hand. simpl. rewrite E1, E2, Hx, Hl. unfold held at 1. rewrite Hw.
    simpl. solve_Permutation.
  - by rewrite Fo.
Qed.

(** A task ends. *)
Lemma finish_move R p i w x b :
  pool_ok R p → worker_slots_ p !! i = Some w → worker_pc w = WRun x →
  pool_ok R (moved (set_active (set_finished (RecordTaskFinished p b) (finished p ++ [x]))
                    (pred (active_thread_count_ p))) i w WHead).
Proof.
  intros Hok Hi Hw. destruct Hok. split; try done.
  - by apply (phase_moved p).
  - apply Forall_insert; [done|]. simpl. by split.
  - destruct (in_hand_insert (worker_slots_ p) i w (MkSlot (worker_id w) WHead) Hi) as (r & E1 & E2).
    rewrite po_tasks0. unfold in_hand. simpl. rewrite E1, E2. unfold held at 1. rewrite Hw.
    simpl. solve_Permutation.
  - destruct b; unfold moved, RecordTaskFinished; cbn [stats set_slots set_active set_finished];
      by rewrite tick_ne.
  - destruct b; unfold moved, RecordTaskFinished;
      cbn [stats set_slots set_active set_finished finished];
      rewrite length_app, tick_eq, tick_ne by done; simpl; lia.
Qed.

Lemma worker_step_ok R p i w a :
  pool_ok R p → worker_slots_ p !! i = Some w →
  ∃ p' c, WorkerStep o p (worker_pc w) a = Some (p', c) ∧ pool_ok R (moved p' i w c).
Proof.
  intros Hok Hi. destruct (phase_workers p i w (po_phase _ _ Hok) Hi) as (Hs1 & Hs2 & Hs3 & Hs4).
  destruct (Forall_lookup_1 _ _ _ _ (po_workers _ _ Hok) Hi) as [Hsc He].
  assert (force_stopping p = false) as Hf.
  { unfold force_stopping. by rewrite !bool_decide_false. }
  assert (ScaleDownRequests o p = None) as Hr by (unfold ScaleDownRequests; by rewrite fixed_size).
  destruct (worker_pc w) eqn:Hw; try done; simpl.
  - rewrite Hr. do 2 eexists. split; [done|]. apply silent_move; try done. unfold held. by rewrite Hw.
  - destruct (CanPop (task_queue_ p)) eqn:Hc.
    2: { rewrite fixed_size. do 2 eexists. split; [done|]. apply silent_move; try done.
         unfold held. by rewrite Hw. }
    unfold Pop. rewrite (po_unforced _ _ Hok), (bq_empty_spec _ (po_queue _ _ Hok)).
    pose proof (bq_pop_spec _ (po_queue _ _ Hok)) as Hp. fold (items (task_queue_ p)) in *.
    destruct (items (task_queue_ p)) as [|x l] eqn:Hl.
    + rewrite bool_decide_true by done. simpl. do 2 eexists. split; [done|].
      replace (set_task_queue p (task_queue_ p)) with p by (by destruct p).
      apply silent_move; try done; [|unfold held; by rewrite Hw]. intros _. split; [|done].
      unfold CanPop in Hc. rewrite (po_unforced _ _ Hok), (bq_empty_spec _ (po_queue _ _ Hok)) in Hc.
      unfold items in Hl. rewrite Hl in Hc. simpl in Hc. by rewrite andb_true_r in Hc.
    + rewrite bool_decide_false by done. simpl. destruct Hp as (q' & -> & ? & ? & ? & ?). simpl.
      do 2 eexists. split; [done|]. by eapply (take_move R p).
  - destruct (He eq_refl) as [Hst Hl]. rewrite (Hs4 Hst). simpl. do 2 eexists. split; [done|].
    apply silent_move; try done. unfold held. by rewrite Hw.
  - destruct (decide (state_value_ p = kPaused)).
    + do 2 eexists. split; [done|]. apply silent_move; try done. unfold held. by rewrite Hw.
    + rewrite Hf. do 2 eexists. split; [done|]. apply silent_move; try done. unfold held. by rewrite Hw.
  - do 2 eexists. split; [done|]. apply silent_move; try done. unfold held. by rewrite Hw.
  - do 2 eexists. split; [done|].
    destruct (notified || expires a); apply silent_move; try done; unfold held; by rewrite Hw.
  - rewrite Hf. do 2 eexists. split; [done|].
    apply (silent_move R (set_active p _)); try done; [by destruct Hok|]. unfold held. by rewrite Hw.
  - do 2 eexists. split; [done|]. by apply finish_move.
  - do 2 eexists. split; [done|]. apply silent_move; try done; [|unfold held; by rewrite Hw].
    destruct Hok. split; try done. unfold phase_ok in *. cbn.
    destruct (state_value_ p), (shutdown_pc p) as [| |[]|[]| | | |]; done.
  - do 2 eexists. split; [done|]. apply silent_move; try done. unfold held. by rewrite Hw.
Qed.

(** [notify_all] wakes workers, which keep their tasks. *)
Lemma notify_paused_ok R p : pool_ok R p → pool_ok R (notify_paused p).
Proof.
  intros Hok. assert (∀ ws : list (WorkerSlot T), omap held (wake <$> ws) = omap held ws) as Hh.
  { induction ws as [|w ws IH]; [done|]. cbn [fmap list_fmap omap list_omap].
    assert (held (wake w) = held w) as -> by (by destruct w as [? []]).
    destruct (held w); [f_equal|]; exact IH. }
  destruct Hok. split; try done; unfold in_hand, notify_paused; simpl; rewrite ?Hh; try done.
  - unfold phase_ok in *. simpl. rewrite length_fmap.
    destruct (state_value_ p), (shutdown_pc p) as [| |[]|[]| | | |]; try done;
      destruct_and!; split_and!; try done;
      by match goal with E : worker_slots_ p = [] |- _ => rewrite E end.
  - apply Forall_fmap. eapply list.Forall_impl; [exact po_workers0|]. by intros [i []].
Qed.

(** *** Submitters *)

Lemma phase_push p m :
  phase_ok p → stopped_ (task_queue_ p) = false → submitters p ≠ [] → same_flags (task_queue_ p) m →
  phase_ok (set_task_queue p m).
Proof.
  intros Hp Hs Hn (F & _). unfold phase_ok in *. cbn. rewrite F, Hs in *.
  destruct (state_value_ p), (shutdown_pc p) as [| |[]|[]| | | |]; try done; destruct_and!; try done.
  by destruct_or!.
Qed.

(** A push is refused, appends the task, or replaces the oldest one with it. *)
Lemma any_push (m : MpmcBlockingQueue) x policy :
  bq_ok (queue_ m) → (policy = kBlock → CanPush m = Some true) →
  ∃ m' r b,
    match policy with
    | kBlock => PushBlocking m x | kDiscard => PushDiscard m x | kOverwrite => PushOverwrite m x
    end = Some (m', r, b) ∧ bq_ok (queue_ m') ∧ same_flags m m' ∧
    (r ≠ kOk ∧ items m' = items m ∧ OverwriteCounter m' = OverwriteCounter m ∨
     r = kOk ∧ stopped_ m = false ∧
       (items m' = items m ++ [x] ∧ OverwriteCounter m' = OverwriteCounter m ∨
        policy = kOverwrite ∧ ∃ y l, items m = y :: l ∧ items m' = l ++ [x] ∧
          OverwriteCounter m' = u64 (OverwriteCounter m + 1)%Z)).
Proof.
  intros Hm Hc.
  assert (∃ r, match policy with
    | kBlock => PushBlocking m x | kDiscard => PushDiscard m x | kOverwrite => PushOverwrite m x
    end = Some r ∧ push_effect m x r ∧
    (r.1.2 = kOk → stopped_ m = false → len (items m) = limit m → policy = kOverwrite)) as (r & -> & He & Hfull).
  { destruct policy.
    - destruct (PushBlocking_effect m x Hm (Hc eq_refl)) as (r & -> & He). exists r. split_and!; [done|done|].
      intros _ Hs Hl. specialize (Hc eq_refl). rewrite CanPush_spec, Hs, Hl, Z.eqb_refl in Hc by done. done.
    - destruct (PushDiscard_effect m x Hm) as (r & Hr & He). exists r. split_and!; [done|done|]. intros Hk Hs Hl.
      unfold PushDiscard in Hr. rewrite Hs, (bq_full_spec _ Hm) in Hr. fold (items m) (limit m) (len (items m)) in Hr.
      rewrite Hl, Z.eqb_refl in Hr. simpl in Hr. by injection Hr as <-.
    - destruct (PushOverwrite_effect m x Hm) as (r & -> & He). by exists r. }
  destruct He as [m' r|m'|m' y l]; do 3 eexists; (split; [done|]); split_and!; try done.
  - by left.
  - right. split_and!; auto.
  - right. split_and!; auto. right. split; [by apply Hfull|]. eauto.
Qed.

Lemma phase_submitters p cs :
  phase_ok p → submitters p ≠ [] → phase_ok (set_submitters p cs).
Proof.
  intros Hp Hn. unfold phase_ok in *. cbn.
  destruct (state_value_ p), (shutdown_pc p) as [| |[]|[]| | | |]; try done; destruct_and!; try done.
  destruct_or!; [|done]. auto.
Qed.

Lemma submitter_step_ok R p i c :
  pool_ok R p → submitters p !! i = Some c →
  ∃ p' c' R', SubmitterStep p c = Some (p', c') ∧ submitters p' = submitters p ∧
    pool_ok R' (set_submitters p' (match c' with
                                | Some c' => <[i := c']> (submitters p')
                                | None => delete i (submitters p')
                                end)).
Proof.
  intros Hok Hi. assert (submitters p ≠ []) as Hne by (intros E; by rewrite E in Hi).
  assert (Hpl : overwriting = false → plain_submitter c = true)
    by (intros Ho; exact (Forall_lookup_1 _ _ _ _ (po_submitters _ _ Hok Ho) Hi)).
  assert (Hfd : overwriting = false → Forall (λ c, plain_submitter c = true) (delete i (submitters p)))
    by (intros Ho; exact (Forall_delete _ _ i (po_submitters _ _ Hok Ho))).
  destruct c as [x policy|]; simpl.
  2: { do 2 eexists. exists R. split_and!; [done|done|]. destruct Hok. split; try done.
       - by apply phase_submitters.
       - unfold SubmitCount. cbn [stats set_submitters set_peak_queue submitters].
         rewrite tick_eq, (lsum_delete _ _ _ _ Hi). simpl. lia. }
  assert (∃ can, match policy with kBlock => CanPush (task_queue_ p) | _ => Some true end = Some can ∧
    (can = true → policy = kBlock → CanPush (task_queue_ p) = Some true)) as (can & -> & Hc).
  { destruct policy; [|by exists true..]. rewrite CanPush_spec by apply Hok.
    eexists. split; [done|]. by intros ->. }
  simpl. destruct can; simpl.
  2: { do 2 eexists. exists R. split_and!; [done|done|]. cbn. rewrite list_insert_id by done.
       by replace (set_submitters p (submitters p)) with p by (by destruct p). }
  unfold SubmitPush.
  destruct (any_push (task_queue_ p) x policy (po_queue _ _ Hok) (Hc eq_refl))
    as (m & r & b & -> & Hm & Hf & Hr). simpl.
  destruct Hr as [(Hr & Hl & Hov)|(-> & Hs & Hr)].
  - exists (tick (set_task_queue p m) rejected_task_count_), None, R.
    split_and!; [by destruct r|done|]. destruct Hok, Hf as (F1 & F2 & F3 & F4). split; try done.
    + simpl. congruence.
    + apply (phase_submitters (tick (set_task_queue p m) rejected_task_count_)); [|done].
      unfold phase_ok in *. cbn. by rewrite F1, Hl.
    + simpl. by rewrite F1, Hl.
    + simpl. by rewrite Hl.
    + simpl. by rewrite Hov.
    + cbn [stats set_submitters submitters]. rewrite tick_ne by done. simpl.
      rewrite (lsum_delete _ _ _ _ Hi). simpl. lia.
  - assert (∃ R', items (task_queue_ p) ++ [x] ++ R ≡ₚ items m ++ R' ∧
      OverwriteCounter m = u64 (Z.of_nat (length R')) ∧ (overwriting = false → R' = [])) as (R' & HR & Hov & Hnil).
    { destruct (po_replaced _ _ Hok) as [Hcnt Hn]. destruct Hr as [[-> ->]|(-> & y & l & -> & -> & ->)].
      - exists R. split_and!; [by rewrite (assoc_L (++))|done|done].
      - exists (y :: R). split_and!; [solve_Permutation| |by intros Ho; specialize (Hpl Ho)].
        rewrite Hcnt, u64_add_l. f_equal. simpl. lia. }
    exists (set_accepted (set_task_queue p m) (accepted p ++ [x])), (Some SCount), R'.
    split_and!; [done|done|]. destruct Hok, Hf as (F1 & F2 & F3 & F4). split; try done.
    + simpl. congruence.
    + apply (phase_submitters (set_accepted (set_task_queue p m) (accepted p ++ [x]))); [|done].
      by apply (phase_push p m).
    + simpl. eapply list.Forall_impl; [exact po_workers0|]. intros w [? He]. split; [done|].
      intros [Hst _]%He. congruence.
    + intros Ho. apply Forall_insert; [by apply po_submitters0|done].
    + unfold in_hand in *. simpl. rewrite po_tasks0.
      trans ((items (task_queue_ p) ++ [x] ++ R) ++ omap held (worker_slots_ p) ++ finished p); [solve_Permutation|].
      rewrite HR. solve_Permutation.
    + simpl. rewrite length_app, (lsum_insert _ _ _ _ _ Hi). simpl. lia.
Qed.

(** *** The other steps *)

Ltac phase_cases p :=
  destruct (state_value_ p) eqn:Hst, (shutdown_pc p) as [| |[]|[]| | | |] eqn:Hk; try done.

(** A step that changes only the state, the holder of the lifecycle mutex and the
    workers of a pool that holds no task. *)
Lemma pool_quiet_step R p p' :
  pool_ok R p → phase_ok p' → task_queue_ p' = task_queue_ p → worker_slots_ p' = worker_slots_ p →
  submitters p' = submitters p → manager_pc p' = manager_pc p → accepted p' = accepted p →
  finished p' = finished p → dropped p' = dropped p → stats p' = stats p → pool_ok R p'.
Proof.
  intros [] Hp E1 E2 E3 E4 E5 E6 E7 E8. split; try done; unfold in_hand in *;
    rewrite ?E1, ?E2, ?E3, ?E4, ?E5, ?E6, ?E7, ?E8; done.
Qed.

Lemma Start_pool_ok R p now : pool_ok R p → shutdown_pc p = KIdle → pool_ok R (Start o p now).1.
Proof.
  intros Hok Hk. unfold Start, CompareExchangeState. case_decide as Hs; [|done]. simpl.
  pose proof (po_phase _ _ Hok) as Hp. unfold phase_ok in Hp. rewrite Hs, Hk in Hp.
  destruct Hp as (H1 & H2 & H3 & H4 & H5).
  destruct (AddWorkers_spec (worker_threads o) (set_state p kRunning)) as
    (p' & ws & -> & Hw & Hl & Hwh & F1 & F2 & F3 & F4 & F5 & F6 & F7 & F8 & F9 & F10 & F11);
    [simpl; lia|].
  simpl in *. rewrite fixed_size. rewrite H3 in Hw. simpl in *.
  assert (omap held ws = []) as Hh.
  { clear -Hwh. induction Hwh as [|[? ?] ws Hw ? IH]; [done|]. simpl in *. by rewrite Hw. }
  destruct Hok. split; unfold in_hand in *;
    rewrite ?F2, ?F3, ?F5, ?F6, ?F7, ?F8, ?F9, ?F10, ?F11, ?Hw, ?Hh; try done.
  - unfold phase_ok. rewrite F1, F2, F4, Hk, Hw. done.
  - eapply list.Forall_impl; [exact Hwh|]. intros w E. by rewrite E.
  - rewrite po_tasks0, H3. done.
Qed.

Lemma shutdown_step_ok R p b : pool_ok R p → ∃ p', ShutdownStep o p b = Some p' ∧ pool_ok R p'.
Proof.
  intros Hok. pose proof (po_phase _ _ Hok) as Hp. unfold phase_ok in Hp. unfold ShutdownStep.
  phase_cases p; try (by exists p).
  - eexists. split; [done|]. by apply (pool_quiet_step R p).
  - eexists. split; [done|]. by apply (pool_quiet_step R p).
  - simpl. eexists. split; [done|]. apply notify_paused_ok. destruct Hok. split; try done.
    + unfold phase_ok. simpl. rewrite Hst. by destruct Hp.
    + simpl. eapply list.Forall_impl; [exact po_workers0|]. intros w [? He]. split; [done|].
      intros Hw. split; [done|]. by destruct (He Hw).
  - destruct (forallb gone (worker_slots_ p)) eqn:Hg; [|by exists p].
    eexists. split; [done|]. destruct Hp as [Hsq Hlen].
    assert (items (task_queue_ p) = []) as Hi.
    { destruct (worker_slots_ p) as [|w ws] eqn:Hws; [simpl in Hlen; lia|].
      pose proof (po_workers _ _ Hok) as Hw. rewrite Hws in Hw.
      apply list.Forall_cons in Hw as [[_ He] _]. apply He. simpl in Hg.
      apply andb_true_iff in Hg as [Hg _]. unfold gone in Hg. by destruct (worker_pc w). }
    assert (in_hand p = []) as Hh.
    { unfold in_hand. clear -Hg. induction (worker_slots_ p) as [|w ws IH]; [done|]. simpl in *.
      apply andb_true_iff in Hg as [Hg ?]. unfold gone in Hg. unfold held at 1.
      destruct (worker_pc w); try done. auto. }
    destruct Hok. split; try done.
    + by split_and!; [..|left].
    + unfold in_hand. simpl. by rewrite po_tasks0, Hh.
Qed.

Lemma pool_step_ok R p ev :
  pool_ok R p → unforced ev = true → (overwriting = false → overwrites ev = false) →
  ∃ p' R', pool_step o p ev = Some p' ∧ pool_ok R' p'.
Proof.
  intros Hok Hev How. pose proof (po_phase _ _ Hok) as Hp.
  destruct ev as [now|x policy|i|i a| | |mode|b|now]; simpl.
  - eexists. exists R. split; [done|]. destruct (shutdown_pc p) eqn:Hk; try done. by apply Start_pool_ok.
  - eexists. exists R. split; [done|]. unfold SubmitEntry.
    assert (pool_ok R (tick p rejected_task_count_)) as Hrej.
    { destruct Hok. by split; rewrite ?tick_ne by done. }
    destruct x as [x|]; [|done]. destruct (IsAcceptingTasks p) eqn:Hacc; simpl; [|done].
    destruct Hok. split; try done.
    + unfold IsAcceptingTasks in Hacc. unfold phase_ok in *. simpl. phase_cases p.
    + simpl. intros Ho. apply Forall_app. split; [by apply po_submitters0|]. constructor; [|done].
      specialize (How Ho). by destruct policy.
    + simpl. rewrite lsum_snoc. simpl. lia.
  - destruct (submitters p !! i) as [c|] eqn:Hi; [|by exists p, R].
    destruct (submitter_step_ok R p i c Hok Hi) as (p' & c' & R' & -> & _ & Hok').
    simpl. eauto.
  - destruct (worker_slots_ p !! i) as [w|] eqn:Hi; [|by exists p, R].
    destruct (worker_step_ok R p i w a Hok Hi) as (p' & c & -> & Hok'). simpl. eauto.
  - eexists. exists R. split; [done|]. unfold Pause, CompareExchangeState. case_decide as Hs; [|done].
    apply (pool_quiet_step R p); try done. unfold phase_ok in *. simpl. by rewrite Hs in Hp.
  - eexists. exists R. split; [done|]. unfold Resume, CompareExchangeState. case_decide as Hs; [|done].
    apply notify_paused_ok. apply (pool_quiet_step R p); try done. unfold phase_ok in *. simpl. by rewrite Hs in Hp.
  - eexists. exists R. split; [done|]. destruct mode; try done. unfold ShutdownEntry. rewrite fixed_size.
    unfold phase_ok in Hp. phase_cases p; apply (pool_quiet_step R p); try done; unfold phase_ok; simpl;
      rewrite ?Hst, ?Hk; try done; destruct_and!; split_and!; auto.
  - destruct (shutdown_step_ok R p b Hok) as (p' & ? & ?). eauto.
  - eexists. exists R. split; [done|]. unfold ManagerStep. by rewrite (po_manager _ _ Hok).
Qed.

Lemma pool_run_ok evs : ∀ R p,
  pool_ok R p → forallb unforced evs = true → (overwriting = false → existsb overwrites evs = false) →
  ∃ p' R', pool_run o p evs = Some p' ∧ pool_ok R' p'.
Proof.
  induction evs as [|ev evs IH]; intros R p Hok Hev How; [by exists p, R|]. simpl in Hev, How.
  apply andb_true_iff in Hev as [Hev Hevs].
  destruct (pool_step_ok R p ev Hok Hev) as (p1 & R1 & E & Hok1).
  { intros Ho. by apply How, orb_false_iff in Ho as [? _]. }
  destruct (IH R1 p1 Hok1 Hevs) as (p' & R' & Hr & Hok').
  { intros Ho. by apply How, orb_false_iff in Ho as [_ ?]. }
  exists p', R'. split; [|done].
  unfold pool_run in *. simpl. by rewrite E.
Qed.

End Graceful.

(** C36: A graceful shutdown runs every accepted task that was not replaced.  In a pool
    of fixed size, whatever the interleaving of submissions (blocking, discarding or
    overwriting), workers, pauses and graceful shutdowns, as long as nobody forces the
    pool to stop, at once or by a shutdown with a time limit: the ring buffer is used
    within its bounds, an accepted task is queued, in the hands of a worker, has run, or
    was replaced by an overwriting submission, which the counter of the queue counts, and
    none is dropped; and once the pool is stopped every accepted task has run exactly
    once or was replaced, and the statistics agree.  Without overwriting submissions no
    task is replaced. *)
Theorem pool_graceful_runs_all {T} (d : T) o evs :
  enable_dynamic_resize o = false → (0 < worker_threads o)%nat →
  (0 < queue_capacity o < 2 ^ 64 - 1)%Z → forallb unforced evs = true →
  ∃ p replaced, pool_run (H := CircularQueue_bounded d) o
         (NewThreadPool (NewCircularQueue d (queue_capacity o))) evs = Some p ∧
    accepted p ≡ₚ contents (queue_ (task_queue_ p)) ++ in_hand p ++ finished p ++ replaced ∧
    OverwriteCounter (H := CircularQueue_bounded d) (task_queue_ p) = u64 (Z.of_nat (length replaced)) ∧
    (existsb overwrites evs = false → replaced = []) ∧
    dropped p = [] ∧
    (stats p completed_task_count_ + stats p failed_task_count_)%nat = length (finished p) ∧
    (state_value_ p = kStopped → accepted p ≡ₚ finished p ++ replaced ∧
      (submitters p = [] → stats p submitted_task_count_ =
         stats p completed_task_count_ + stats p failed_task_count_ + length replaced)%nat).
Proof.
  intros Hf Hw Hc Hev. pose proof (queue_ok_new d (queue_capacity o) ltac:(lia)) as Hq.
  destruct (pool_run_ok (HL := CircularQueue_laws d) o Hf Hw (existsb overwrites evs) evs []
    (NewThreadPool (NewCircularQueue d (queue_capacity o)))) as (p & R & Hr & Hok); [|done|done|].
  { apply NewThreadPool_ok; [exact Hq|by apply empty_contents|done]. }
  exists p, R. destruct Hok as [_ _ Hp _ _ _ Ht [Ho Hn] Hd Hsub Hfin]. split_and!; try done. intros Hs.
  assert (accepted p ≡ₚ finished p ++ R) as Hall.
  { unfold phase_ok in Hp. rewrite Hs in Hp. destruct (shutdown_pc p); try done.
    destruct Hp as (Hi & Hws & _). rewrite Ht, Hi. unfold in_hand. by rewrite Hws. }
  split; [done|]. intros Hns. rewrite Hns, lsum_nil in Hsub.
  apply Permutation_length in Hall. rewrite length_app in Hall. lia.
Qed.

(** Two workers, a pause, and a submission that races with the shutdown. *)
Definition sample_options : ThreadPoolOptions :=
  MkPoolOptions 2 4 kDiscard false 1 2 (λ _ _, false) (λ _ _, false) 0.
Definition sample_events : list (PoolEvent Z) :=
  let w := MkWorkerAnswer true false in
  [EStart 0; ESubmit (Some 7%Z) kDiscard; ESubmitter 0; ESubmitter 0; EWorker 0 w; EWorker 0 w;
   EPause; ESubmit (Some 8%Z) kBlock; ESubmitter 0; EShutdown kGraceful; ESubmitter 0;
   EShutdownStep false; EShutdownStep false] ++
  concat (replicate 9 [EWorker 0 w; EWorker 1 w]) ++ [EShutdownStep false].

Lemma pool_graceful_runs_all_witness :
  ∃ p, pool_run (H := CircularQueue_bounded 0%Z) sample_options
         (NewThreadPool (NewCircularQueue 0%Z 4)) sample_events = Some p ∧
    (state_value_ p, finished p, submitters p) = (kStopped, [7; 8]%Z, []) ∧
    accepted p ≡ₚ finished p ∧ stats p submitted_task_count_ = 2%nat.
Proof.
  destruct (pool_graceful_runs_all 0%Z sample_options sample_events)
    as (p & R & Hr & _ & _ & Hnil & _ & Hfin & Hs); [reflexivity|simpl; lia|simpl; lia|reflexivity|].
  exists p. split; [exact Hr|].
  assert ((λ p, (state_value_ p, finished p, submitters p)) <$>
    pool_run (H := CircularQueue_bounded 0%Z) sample_options
      (NewThreadPool (NewCircularQueue 0%Z 4)) sample_events = Some (kStopped, [7; 8]%Z, []))
    as E by (vm_compute; reflexivity).
  change (queue_capacity sample_options) with 4%Z in Hr. rewrite Hr in E.
  injection E as E1 E2 E3. split; [congruence|]. rewrite (Hnil eq_refl) in Hs. destruct (Hs E1) as [Hp Hn].
  rewrite app_nil_r in Hp. split; [exact Hp|]. rewrite (Hn E3), Hfin, E2. reflexivity.
Defined.

(** ** The pool as the pool of the executor *)

(** A started pool of that capacity; the workers are those of the client. *)
Definition started {T} (d : T) (capacity : Z) : ThreadPool (CircularQueue.CircularQueue T) T :=
  let o := MkPoolOptions 1 capacity kDiscard false 1 1 (λ _ _, false) (λ _ _, false) 0 in
  (Start o (NewThreadPool (NewCircularQueue d capacity)) 0).1.

(** A worker in [Pop]. *)
Definition Take {T} (d : T) (p : ThreadPool (CircularQueue.CircularQueue T) T)
  : option (ThreadPool (CircularQueue.CircularQueue T) T * option T) :=
  if CanPop (H := CircularQueue_bounded d) (task_queue_ p) then
    '(m, x, _) ← Pop (H := CircularQueue_bounded d) (task_queue_ p); Some (set_task_queue p m, x)
  else Some (p, None).

#[export] Instance Pool_tasks {T} (d : T) : TaskPool (ThreadPool (CircularQueue.CircularQueue T) T) T := {
  tp_new := started d;
  tp_submit p j := TrySubmit (H := CircularQueue_bounded d) p (Some j);
  tp_take := Take d }.

Record pool_open {T} (p : ThreadPool (CircularQueue.CircularQueue T) T) : Prop := {
  pn_state : state_value_ p = kRunning;
  pn_queue : queue_ok (queue_ (task_queue_ p));
  pn_stopped : stopped_ (task_queue_ p) = false;
  pn_forced : force_stopped_ (task_queue_ p) = false;
}.

#[export] Instance Pool_laws {T} (d : T) :
  @TaskPoolLaws (ThreadPool (CircularQueue.CircularQueue T) T) T (Pool_tasks d).
Proof.
  refine {| tp_jobs p := contents (queue_ (task_queue_ p));
            tp_capacity p := CircularQueue.Capacity (queue_ (task_queue_ p));
            tp_ok := pool_open |}.
  - intros c Hc. pose proof (queue_ok_new d c ltac:(lia)) as Hq. split_and!.
    + by split.
    + by apply empty_contents.
    + change (CircularQueue.Capacity (NewCircularQueue d c) = c). rewrite Capacity_spec by done.
      simpl. rewrite u64_small by (unfold is_u64; lia). lia.
  - intros p j [Hs Hq Hst Hf]. set (l := contents (queue_ (task_queue_ p))).
    pose proof (bq_bound (BoundedQueueLaws := CircularQueue_laws d) _ Hq) as [_ Hle].
    simpl in *. fold l in Hle. unfold TrySubmit, SubmitEntry, IsAcceptingTasks, SubmitPush.
    rewrite Hs. simpl. unfold PushDiscard. rewrite Hst.
    rewrite (bq_full_spec (BoundedQueueLaws := CircularQueue_laws d) _ Hq). simpl. fold l.
    destruct (Z.eqb_spec (Z.of_nat (length l)) (CircularQueue.Capacity (queue_ (task_queue_ p))))
      as [Hfull|Hroom]; simpl.
    + do 2 eexists. split; [done|]. split_and!; [by split|done|].
      rewrite (proj2 (Z.ltb_ge _ _)) by lia. done.
    + destruct (push_room (HL := CircularQueue_laws d) (task_queue_ p) j Hq Hroom)
        as (q' & E & Hq' & Hl & Hlim & _). simpl in E. rewrite E. simpl.
      do 2 eexists. split; [done|]. split_and!; [by split|done|].
      rewrite (proj2 (Z.ltb_lt _ _)) by lia. done.
  - intros p [Hs Hq Hst Hf]. simpl. unfold Take, CanPop, Pop. rewrite Hst, Hf. simpl.
    rewrite orb_false_r.
    pose proof (bq_empty_spec (BoundedQueueLaws := CircularQueue_laws d) _ Hq) as He.
    pose proof (bq_pop_spec (BoundedQueueLaws := CircularQueue_laws d) _ Hq) as Hp. simpl in *.
    destruct (contents (queue_ (task_queue_ p))) as [|x l] eqn:Hl; rewrite He; simpl.
    + exists p. split_and!; [done|by split|done|done].
    + destruct Hp as (q' & -> & Hq' & Hl' & Hlim & _). simpl.
      eexists. split; [done|]. split_and!; [by split|done|done].
Defined.

(** ** Resizing *)

Definition worker_ok : WorkerAnswer := MkWorkerAnswer true false.

(** [Resume] does not take [pause_mutex_]: a worker that saw the pause and is
    about to block misses the notification, and sleeps with its task while the
    pool runs. *)
Theorem pool_resume_lost :
  let o := MkPoolOptions 1 4 kDiscard false 1 1 (λ _ _, false) (λ _ _, false) 0 in
  ∃ p, pool_run (H := CircularQueue_bounded 0%Z) o (NewThreadPool (NewCircularQueue 0%Z 4))
      [EStart 0; EPause; ESubmit (Some 7%Z) kDiscard; ESubmitter 0; ESubmitter 0;
       EWorker 0 worker_ok; EWorker 0 worker_ok; EWorker 0 worker_ok; EResume; EWorker 0 worker_ok]
      = Some p ∧
    (state_value_ p, worker_pc <$> worker_slots_ p) = (kRunning, [WAsleep 7%Z false]) ∧
    pool_step (H := CircularQueue_bounded 0%Z) o p (EWorker 0 worker_ok) = Some p.
Proof.
  intros o. match goal with |- ∃ p, ?r = Some p ∧ _ => set (run := r) end.
  assert ((λ p, (state_value_ p, worker_slots_ p)) <$> run =
    Some (kRunning, [MkSlot 0 (WAsleep 7%Z false)])) as E by (vm_compute; reflexivity).
  destruct run as [p|]; [|done]. injection E as E1 E2. exists p.
  split; [done|]. split; [by rewrite E1, E2|]. simpl. rewrite E2. simpl. by destruct p; simpl in *; subst.
Qed.

(** [Start] with more workers than [max_threads]: [Shutdown] is called with the
    lifecycle mutex held, and the thread waits for itself. *)
Theorem pool_start_stuck :
  let o := MkPoolOptions 3 4 kDiscard true 1 2 (λ _ _, false) (λ _ _, false) 3 in
  (λ p, (shutdown_pc p, state_value_ p)) <$>
    pool_run (H := CircularQueue_bounded 0%Z) o (NewThreadPool (NewCircularQueue 0%Z 4))
      [EStart 0; EShutdown kForce; EShutdownStep true] = Some (KStuck, kRunning).
Proof. vm_compute. reflexivity. Qed.

(** Requests to exit pile up while the workers wait in [PopFor], and two workers
    that both saw enough of them leave: fewer than [min_threads] remain. *)
Theorem pool_scale_down_below_minimum :
  let o := MkPoolOptions 3 4 kDiscard true 2 4 (λ _ _, false) (λ _ _, true) 3 in
  (λ p, current_worker_count_ p) <$>
    pool_run (H := CircularQueue_bounded 0%Z) o (NewThreadPool (NewCircularQueue 0%Z 4))
      [EStart 0; EManager 10; EManager 20;
       EWorker 0 worker_ok; EWorker 1 worker_ok;     (* both see 3 workers *)
       EWorker 0 worker_ok; EWorker 1 worker_ok; EWorker 1 worker_ok;
       EWorker 0 worker_ok; EWorker 1 worker_ok] = Some 1%nat.
Proof. vm_compute. reflexivity. Qed.

(** [Shutdown(kTimeout)] counts workers that left long before it: with one exit
    by resizing it waits without limit for a worker that still runs. *)
Theorem pool_timeout_skipped :
  let o := MkPoolOptions 1 4 kDiscard true 1 2 (λ size _, 0 <? size)%Z (λ _ _, true) 3 in
  ∃ p, pool_run (H := CircularQueue_bounded 0%Z) o (NewThreadPool (NewCircularQueue 0%Z 4))
      ([EStart 0; ESubmit (Some 7%Z) kDiscard; ESubmitter 0; EManager 10; ESubmitter 0] ++
       replicate 5 (EWorker 0 worker_ok) ++ [EManager 20] ++ replicate 3 (EWorker 0 worker_ok) ++
       [ESubmit (Some 8%Z) kDiscard; ESubmitter 0; ESubmitter 0] ++
       replicate 4 (EWorker 1 worker_ok) ++
       [EShutdown kTimeout; EManager 30; EShutdownStep false; EShutdownStep false;
        EShutdownStep false; EShutdownStep false]) = Some p ∧
    (state_value_ p, worker_pc <$> worker_slots_ p) = (kShuttingDown, [WRun 8%Z]) ∧
    ∀ expired, ShutdownStep (H := CircularQueue_bounded 0%Z) o p expired = Some p.
Proof.
  intros o. match goal with |- ∃ p, ?r = Some p ∧ _ => set (run := r) end.
  assert ((λ p, (state_value_ p, worker_pc <$> worker_slots_ p, shutdown_pc p)) <$> run =
    Some (kShuttingDown, [WRun 8%Z], KJoin)) as E by (vm_compute; reflexivity).
  destruct run as [p|]; [|done]. injection E as E1 E2 E3. exists p.
  split; [done|]. split; [congruence|]. intros expired. unfold ShutdownStep. rewrite E3.
  destruct (worker_slots_ p) as [|[i c] [|]]; try done. simpl in E2. injection E2 as ->. done.
Qed.

End Pool.
