(* ===== verification/BusinessExecutor.v ===== *)
(** * The ordered business executor of a gateway

    Models [src/gateway/business/BusinessExecutor.h], [BusinessExecutor.cpp] and
    [BusinessRuntimeTypes.h] over any pool that meets [TaskPoolLaws].

    A thread is a program counter: the submitters, the workers that run the jobs
    of the pool, and the threads that report the end of asynchronous work.  A
    step is one critical section or one group of atomic operations that other
    threads cannot tell apart; the threads interleave in any order, and any
    number of workers may run.  What user code does (a probe, the work, a
    completion, the dispatcher) is an argument of the step that calls it.

    The contract of that code is the one the header states: a probe does not
    throw, the dispatcher runs the completion it is given exactly once or throws
    without running it, asynchronous work has at most one resume queued and does
    not report its end while one is queued; [BusinessCoroutine] shows that the
    runner of coroutines keeps the last clause.  Counters of statistics are natural
    numbers.  [None] is a [std::logic_error] of the executor. *)
From Stdlib Require Import ZArith Lia.
From stdpp Require Import base gmap list numbers.
From S2P Require Import Prelude CircularQueue MpmcBlockingQueue ThreadPool.

(** ** Data *)

Inductive BusinessSubmitStatus :=
| kAccepted | kOverloaded | kHotKeyOverloaded | kDeadlineExpired | kShuttingDown
| kInvalidArgument.

Inductive BusinessCancellationPolicy := kCancelable | kMustRun.
#[export] Instance BusinessCancellationPolicy_eq_dec : EqDecision BusinessCancellationPolicy.
Proof. solve_decision. Defined.

Record BusinessExecutorOptions := MkOptions {
  worker_threads : nat;
  max_pending_tasks : nat;
  stripe_count : nat;
  per_stripe_queue_capacity : nat;
  default_deadline : Z;
  shutdown_timeout : Z;
  isolate_ordering_keys : bool;
}.

(** A task: the request fields the executor uses ([deadline] is zero when none
    was given) and which of the callbacks are set. *)
Record TaskSpec := MkTaskSpec {
  ordering_key : option Z;
  received_at : Z;
  deadline : Z;
  cancellation_policy : BusinessCancellationPolicy;
  has_still_valid : bool;
  has_completion_still_valid : bool;
  has_work : bool;
  has_async_work : bool;
  has_dispatcher : bool;
  has_deadline_completion : bool;
}.
#[export] Instance TaskSpec_eq_dec : EqDecision TaskSpec.
Proof. solve_decision. Defined.

Definition HasDeadline (s : TaskSpec) : bool := negb (deadline s =? 0)%Z.
Definition DeadlineExpired (s : TaskSpec) (now : Z) : bool :=
  HasDeadline s && (deadline s <=? now)%Z.

Definition with_deadline (s : TaskSpec) (d : Z) : TaskSpec :=
  MkTaskSpec (ordering_key s) (received_at s) d (cancellation_policy s) (has_still_valid s)
    (has_completion_still_valid s) (has_work s) (has_async_work s) (has_dispatcher s)
    (has_deadline_completion s).

(** What orders tasks: a stripe, or with isolated keys the lane of a key in its
    stripe. *)
Inductive Lane := LStripe (i : nat) | LKey (i : nat) (key : Z).
#[export] Instance Lane_eq_dec : EqDecision Lane.
Proof. solve_decision. Defined.

(** [TaskState]; [async_lane] are [async_stripe] and [async_key]. *)
Record Task := MkTask {
  task_id : Z;
  spec : TaskSpec;
  enqueued_at : Z;
  async_lane : option Lane;
}.
#[export] Instance Task_eq_dec : EqDecision Task.
Proof. solve_decision. Defined.

Definition with_lane (t : Task) (L : Lane) : Task :=
  MkTask (task_id t) (spec t) (enqueued_at t) (Some L).

Record Stripe := MkStripe {
  queue : list Task;
  running : bool;
  lanes : gmap Z (list Task);
  isolated_pending : nat;
}.
Definition NewStripe : Stripe := MkStripe [] false ∅ 0.

(** The jobs the executor gives to the pool: [JDrain] and [JResume] come from
    [PostInternal] when [internal] is set. *)
Inductive Job := JExecute (t : Task) | JDrain (L : Lane) (internal : bool) | JResume (t : Task).

(** How asynchronous or synchronous work ends. *)
Inductive WorkResult := WThrow | WNone | WCompletion.

(** What a task started by a worker continues with. *)
Inductive Cont := KUnordered | KLane (L : Lane).

Inductive Pc :=
| PAdmit (t : Task)                    (* [Submit], before the admission mutex *)
| PSchedule (t : Task) (L : Lane)      (* [Submit], the first drainer is to be posted *)
| PRun (t : Task) (k : Cont)           (* [ExecuteTask] *)
| PWork (t : Task) (k : Cont)          (* [ExecuteTask], the work runs *)
| PAsync (t : Task)                    (* [ExecuteTask], [async_work] was called *)
| PLoop (L : Lane)                     (* [DrainStripe], [DrainKey]: head of the loop *)
| PComplete (L : Lane)                 (* [DrainKey]: [CompleteKeyTask] *)
| PFinish (t : Task) (r : WorkResult)  (* [FinishAsync] after the exchange *)
| PFinishTail (t : Task)               (* [FinishAsync], the next drainer *)
| PFinishEnd                           (* [FinishAsync], the end *)
| PResume                              (* a resumed continuation runs *)
| PEnd.                                (* the job returned *)

(** A thread; [internal] when it runs a job of [PostInternal]. *)
Record Thread := MkThread { pc : Pc; internal : bool }.

(** The statistics. *)
Inductive Counter :=
| submitted_total_ | accepted_total_ | completed_total_ | rejected_overload_total_
| rejected_pending_budget_total_ | rejected_pool_submission_total_
| rejected_hot_key_total_ | rejected_deadline_total_ | rejected_shutdown_total_
| rejected_invalid_total_ | deadline_expired_before_start_total_
| cancelled_before_start_total_ | deadline_terminal_callback_total_
| deadline_terminal_dropped_total_ | deadline_terminal_exception_total_
| worker_exception_total_ | completion_exception_total_ | completion_dropped_total_
| async_started_total_ | async_finished_total_ | continuation_run_total_
| resume_exceptions.  (* not in the source: those of [worker_exception_total_] from resumes *)
#[export] Instance Counter_eq_dec : EqDecision Counter.
Proof. solve_decision. Defined.

Definition Counters := Counter → nat.
Definition bump (c : Counter) (f : Counters) : Counters :=
  λ c', if decide (c' = c) then S (f c') else f c'.

Inductive DispatchKind := DCompletion | DDeadline.

(** The two gauges with their peaks and the two time accumulators. *)
Record Gauges := MkGauges {
  current_active : nat; peak_active : nat; peak_pending : nat;
  total_queue_wait_ns : Z; queue_wait_samples : Z; max_queue_wait_ns : Z;
  total_execution_ns : Z; execution_samples : Z; max_execution_ns : Z;
}.
Definition NewGauges : Gauges := MkGauges 0 0 0 0 0 0 0 0 0.

Record Executor (P : Type) := MkExecutor {
  accepting_ : bool;
  admission_ : bool;                 (* the admission mutex is held by a [PSchedule] *)
  stripes_ : list Stripe;
  pool_ : P;
  counters : Counters;
  gauges : Gauges;
  current_pending_tasks_ : nat;
  pending_completions_ : nat;
  pending_async_tasks_ : nat;
  pending_internal_jobs_ : nat;
  threads : list Thread;
  open : list (Task * bool);         (* started asynchronous tasks whose end was not
                                        reported, and whether a resume is queued *)
  dispatched : list (Task * DispatchKind);
  next_id : Z;
  enqueued : list (Lane * Task);     (* not in the source: tasks in the order in which *)
  popped : list (Lane * Task);       (* they entered, and left, the queues *)
}.
Arguments MkExecutor {P}. Arguments accepting_ {P}. Arguments admission_ {P}.
Arguments stripes_ {P}. Arguments pool_ {P}. Arguments counters {P}. Arguments gauges {P}.
Arguments current_pending_tasks_ {P}. Arguments pending_completions_ {P}.
Arguments pending_async_tasks_ {P}. Arguments pending_internal_jobs_ {P}.
Arguments threads {P}. Arguments open {P}. Arguments dispatched {P}. Arguments next_id {P}.
Arguments enqueued {P}. Arguments popped {P}.

(** What user code answers to the step that calls it, and the clock. *)
Record Answer := MkAnswer {
  now : Z;                  (* [BusinessClock::now()] *)
  still_valid : bool;       (* the probe of the work *)
  completion_valid : bool;  (* the probe of the completion; a throw counts as false *)
  dispatch_ok : bool;       (* the dispatcher took the completion *)
  result : WorkResult;      (* how work or a callback ended *)
  elapsed : Z;              (* the time it took *)
}.

(** ** Gauges *)

Definition UpdatePeak (peak value : nat) : nat := Nat.max peak value.
Definition UpdatePeakNs (peak value : Z) : Z := Z.max peak value.

Definition RecordQueueWait (g : Gauges) (elapsed : Z) : Gauges :=
  if (elapsed <? 0)%Z then g
  else MkGauges (current_active g) (peak_active g) (peak_pending g)
         (total_queue_wait_ns g + elapsed) (queue_wait_samples g + 1)
         (UpdatePeakNs (max_queue_wait_ns g) elapsed)
         (total_execution_ns g) (execution_samples g) (max_execution_ns g).
Definition RecordExecution (g : Gauges) (elapsed : Z) : Gauges :=
  if (elapsed <? 0)%Z then g
  else MkGauges (current_active g) (peak_active g) (peak_pending g)
         (total_queue_wait_ns g) (queue_wait_samples g) (max_queue_wait_ns g)
         (total_execution_ns g + elapsed) (execution_samples g + 1)
         (UpdatePeakNs (max_execution_ns g) elapsed).
Definition begin_active (g : Gauges) : Gauges :=
  let active := S (current_active g) in
  MkGauges active (UpdatePeak (peak_active g) active) (peak_pending g)
    (total_queue_wait_ns g) (queue_wait_samples g) (max_queue_wait_ns g)
    (total_execution_ns g) (execution_samples g) (max_execution_ns g).
Definition end_active (g : Gauges) : Gauges :=
  MkGauges (pred (current_active g)) (peak_active g) (peak_pending g)
    (total_queue_wait_ns g) (queue_wait_samples g) (max_queue_wait_ns g)
    (total_execution_ns g) (execution_samples g) (max_execution_ns g).
Definition record_pending (g : Gauges) (value : nat) : Gauges :=
  MkGauges (current_active g) (peak_active g) (UpdatePeak (peak_pending g) value)
    (total_queue_wait_ns g) (queue_wait_samples g) (max_queue_wait_ns g)
    (total_execution_ns g) (execution_samples g) (max_execution_ns g).

(** ** Critical sections of a stripe *)

Section Stripes.
Variable o : BusinessExecutorOptions.

Definition lane_index (L : Lane) : nat := match L with LStripe i | LKey i _ => i end.

(** The lane of a key among [n] stripes. *)
Definition lane_of (n : nat) (key : Z) : Lane :=
  let i := Z.to_nat (key `mod` Z.of_nat n) in
  if isolate_ordering_keys o then LKey i key else LStripe i.

(** The first section of [SubmitOrdered] and [SubmitIsolatedKey]; [None] is
    [kHotKeyOverloaded], the flag says that a drainer is to be scheduled. *)
Definition EnqueueLane (st : Stripe) (L : Lane) (t : Task) : option (Stripe * bool) :=
  match L with
  | LStripe _ =>
      let stripe_pending := length (queue st) + (if running st then 1 else 0) in
      if per_stripe_queue_capacity o <=? stripe_pending then None
      else Some (MkStripe (queue st ++ [t]) true (lanes st) (isolated_pending st),
                 negb (running st))
  | LKey _ key =>
      if per_stripe_queue_capacity o <=? isolated_pending st then None
      else
        let q := default [] (lanes st !! key) in
        Some (MkStripe (queue st) (running st) (<[key := q ++ [t]]> (lanes st))
                (S (isolated_pending st)),
              bool_decide (lanes st !! key = None))
  end.

(** The section that takes a task back which the pool refused. *)
Definition RollBackLane (st : Stripe) (L : Lane) : Stripe :=
  match L with
  | LStripe _ => MkStripe [] false (lanes st) (isolated_pending st)
  | LKey _ key =>
      MkStripe (queue st) (running st) (delete key (lanes st)) (pred (isolated_pending st))
  end.

(** The section at the head of the loops of [DrainStripe] and [DrainKey]. *)
Definition PopLane (st : Stripe) (L : Lane) : Stripe * option Task :=
  match L with
  | LStripe _ =>
      match queue st with
      | [] => (MkStripe [] false (lanes st) (isolated_pending st), None)
      | t :: q => (MkStripe q (running st) (lanes st) (isolated_pending st), Some t)
      end
  | LKey _ key =>
      match lanes st !! key with
      | None => (st, None)
      | Some [] =>
          (MkStripe (queue st) (running st) (delete key (lanes st)) (isolated_pending st), None)
      | Some (t :: q) =>
          (MkStripe (queue st) (running st) (<[key := q]> (lanes st)) (isolated_pending st), Some t)
      end
  end.

(** [CompleteKeyTask]; [None] is its [std::logic_error]. *)
Definition CompleteKeyTask (st : Stripe) (key : Z) : option (Stripe * bool) :=
  match lanes st !! key with
  | None => None
  | Some q =>
      if isolated_pending st =? 0 then None
      else
        let pending := pred (isolated_pending st) in
        Some (match q with
              | [] => (MkStripe (queue st) (running st) (delete key (lanes st)) pending, false)
              | _ :: _ => (MkStripe (queue st) (running st) (lanes st) pending, true)
              end)
  end.

End Stripes.

(** ** The executor *)

Section Executor.
Context {P : Type} `{TaskPool P Job}.
Variable o : BusinessExecutorOptions.
Local Abbreviation Exec := (Executor P).

Definition set_accepting (s : Exec) (x : bool) : Exec :=
  MkExecutor x (admission_ s) (stripes_
    s) (pool_ s) (counters s) (gauges s) (current_pending_tasks_ s) (pending_completions_ s)
    (pending_async_tasks_ s) (pending_internal_jobs_ s) (threads s) (open s) (dispatched s)
    (next_id s) (enqueued s) (popped s).
Definition set_admission (s : Exec) (x : bool) : Exec :=
  MkExecutor (accepting_ s) x (stripes_
    s) (pool_ s) (counters s) (gauges s) (current_pending_tasks_ s) (pending_completions_ s)
    (pending_async_tasks_ s) (pending_internal_jobs_ s) (threads s) (open s) (dispatched s)
    (next_id s) (enqueued s) (popped s).
Definition set_stripes (s : Exec) (x : list Stripe) : Exec :=
  MkExecutor (accepting_ s)
    (admission_ s) x (pool_ s) (counters s) (gauges s) (current_pending_tasks_ s)
    (pending_completions_ s) (pending_async_tasks_ s) (pending_internal_jobs_ s) (threads s) (open
    s) (dispatched s) (next_id s) (enqueued s) (popped s).
Definition set_pool (s : Exec) (x : P) : Exec :=
  MkExecutor (accepting_ s) (admission_ s)
    (stripes_ s) x (counters s) (gauges s) (current_pending_tasks_ s) (pending_completions_ s)
    (pending_async_tasks_ s) (pending_internal_jobs_ s) (threads s) (open s) (dispatched s)
    (next_id s) (enqueued s) (popped s).
Definition set_counters (s : Exec) (x : Counters) : Exec :=
  MkExecutor (accepting_ s)
    (admission_ s) (stripes_ s) (pool_ s) x (gauges s) (current_pending_tasks_ s)
    (pending_completions_ s) (pending_async_tasks_ s) (pending_internal_jobs_ s) (threads s) (open
    s) (dispatched s) (next_id s) (enqueued s) (popped s).
Definition set_gauges (s : Exec) (x : Gauges) : Exec :=
  MkExecutor (accepting_ s) (admission_ s)
    (stripes_ s) (pool_ s) (counters s) x (current_pending_tasks_ s) (pending_completions_ s)
    (pending_async_tasks_ s) (pending_internal_jobs_ s) (threads s) (open s) (dispatched s)
    (next_id s) (enqueued s) (popped s).
Definition set_pending (s : Exec) (x : nat) : Exec :=
  MkExecutor (accepting_ s) (admission_ s)
    (stripes_ s) (pool_ s) (counters s) (gauges s) x (pending_completions_ s)
    (pending_async_tasks_ s) (pending_internal_jobs_ s) (threads s) (open s) (dispatched s)
    (next_id s) (enqueued s) (popped s).
Definition set_completions (s : Exec) (x : nat) : Exec :=
  MkExecutor (accepting_ s) (admission_
    s) (stripes_ s) (pool_ s) (counters s) (gauges s) (current_pending_tasks_ s) x
    (pending_async_tasks_ s) (pending_internal_jobs_ s) (threads s) (open s) (dispatched s)
    (next_id s) (enqueued s) (popped s).
Definition set_async (s : Exec) (x : nat) : Exec :=
  MkExecutor (accepting_ s) (admission_ s)
    (stripes_ s) (pool_ s) (counters s) (gauges s) (current_pending_tasks_ s)
    (pending_completions_ s) x (pending_internal_jobs_ s) (threads s) (open s) (dispatched s)
    (next_id s) (enqueued s) (popped s).
Definition set_internal (s : Exec) (x : nat) : Exec :=
  MkExecutor (accepting_ s) (admission_ s)
    (stripes_ s) (pool_ s) (counters s) (gauges s) (current_pending_tasks_ s)
    (pending_completions_ s) (pending_async_tasks_ s) x (threads s) (open s) (dispatched s)
    (next_id s) (enqueued s) (popped s).
Definition set_threads (s : Exec) (x : list Thread) : Exec :=
  MkExecutor (accepting_ s)
    (admission_ s) (stripes_ s) (pool_ s) (counters s) (gauges s) (current_pending_tasks_ s)
    (pending_completions_ s) (pending_async_tasks_ s) (pending_internal_jobs_ s) x (open s)
    (dispatched s) (next_id s) (enqueued s) (popped s).
Definition set_open (s : Exec) (x : list (Task * bool)) : Exec :=
  MkExecutor (accepting_ s)
    (admission_ s) (stripes_ s) (pool_ s) (counters s) (gauges s) (current_pending_tasks_ s)
    (pending_completions_ s) (pending_async_tasks_ s) (pending_internal_jobs_ s) (threads s) x
    (dispatched s) (next_id s) (enqueued s) (popped s).
Definition set_dispatched (s : Exec) (x : list (Task * DispatchKind)) : Exec :=
  MkExecutor
    (accepting_ s) (admission_ s) (stripes_ s) (pool_ s) (counters s) (gauges s)
    (current_pending_tasks_ s) (pending_completions_ s) (pending_async_tasks_ s)
    (pending_internal_jobs_ s) (threads s) (open s) x (next_id s) (enqueued s) (popped s).
Definition set_next_id (s : Exec) (x : Z) : Exec :=
  MkExecutor (accepting_ s) (admission_ s)
    (stripes_ s) (pool_ s) (counters s) (gauges s) (current_pending_tasks_ s)
    (pending_completions_ s) (pending_async_tasks_ s) (pending_internal_jobs_ s) (threads s) (open
    s) (dispatched s) x (enqueued s) (popped s).
Definition set_enqueued (s : Exec) (x : list (Lane * Task)) : Exec :=
  MkExecutor (accepting_ s)
    (admission_ s) (stripes_ s) (pool_ s) (counters s) (gauges s) (current_pending_tasks_ s)
    (pending_completions_ s) (pending_async_tasks_ s) (pending_internal_jobs_ s) (threads s) (open
    s) (dispatched s) (next_id s) x (popped s).
Definition set_popped (s : Exec) (x : list (Lane * Task)) : Exec :=
  MkExecutor (accepting_ s)
    (admission_ s) (stripes_ s) (pool_ s) (counters s) (gauges s) (current_pending_tasks_ s)
    (pending_completions_ s) (pending_async_tasks_ s) (pending_internal_jobs_ s) (threads s) (open
    s) (dispatched s) (next_id s) (enqueued s) x.

Definition count (s : Exec) (c : Counter) : Exec := set_counters s (bump c (counters s)).
Definition gauge (s : Exec) (f : Gauges → Gauges) : Exec := set_gauges s (f (gauges s)).

(** [Start]: [None] when the options are refused. *)
Definition Start : option Exec :=
  let quarter := ((2 ^ 64 - 1) / 4)%Z in
  if (worker_threads o =? 0) ||
     (quarter <? Z.of_nat (max_pending_tasks o))%Z ||
     (quarter <? Z.of_nat (stripe_count o))%Z ||
     (quarter <? Z.of_nat (worker_threads o))%Z ||
     (max_pending_tasks o =? 0) || (stripe_count o =? 0) ||
     (per_stripe_queue_capacity o =? 0) ||
     (max_pending_tasks o <? per_stripe_queue_capacity o) ||
     (default_deadline o <=? 0)%Z || (shutdown_timeout o <=? 0)%Z
  then None
  else
    let capacity := (Z.of_nat (max_pending_tasks o) * 2 + Z.of_nat (stripe_count o) +
                     Z.of_nat (worker_threads o))%Z in
    Some (MkExecutor true false (replicate (stripe_count o) NewStripe) (tp_new capacity)
            (λ _, 0) NewGauges 0 0 0 0 [] [] [] 0%Z [] []).

Definition BeginDrain (s : Exec) : Exec := if admission_ s then s else set_accepting s false.

(** The condition [ShutdownGraceful] waits for. *)
Definition drained (s : Exec) : bool :=
  (current_pending_tasks_ s =? 0) && (pending_completions_ s =? 0) &&
  (pending_async_tasks_ s =? 0) && (pending_internal_jobs_ s =? 0).

Definition ReservePending (s : Exec) : option Exec :=
  if max_pending_tasks o <=? current_pending_tasks_ s then None
  else
    let n := S (current_pending_tasks_ s) in
    Some (gauge (set_pending s n) (λ g, record_pending g n)).

(** With a counter that is already zero it stays zero. *)
Definition ReleasePending (s : Exec) : Exec := set_pending s (pred (current_pending_tasks_ s)).

(** [PostInternal]; [None] is its [std::logic_error]. *)
Definition PostInternal (s : Exec) (j : Job) : option Exec :=
  let s := set_internal s (S (pending_internal_jobs_ s)) in
  '(p, r) ← tp_submit (pool_ s) j;
  match r with
  | kOk => Some (set_pool s p)
  | _ => None
  end.

Definition CompletionStillValid (t : Task) (a : Answer) : bool :=
  if has_completion_still_valid (spec t) then completion_valid a else true.

(** The common part of [DispatchCompletion] and [DispatchDeadlineTerminal] once
    there is something to dispatch; [dropped] counts a refusal. *)
Definition Dispatch (s : Exec) (t : Task) (kind : DispatchKind) (dropped : Counter) (a : Answer)
  : Exec :=
  if negb (has_dispatcher (spec t)) then ReleasePending (count s dropped)
  else if negb (CompletionStillValid t a) then ReleasePending (count s dropped)
  else
    let s := set_completions s (S (pending_completions_ s)) in
    if dispatch_ok a then set_dispatched s (dispatched s ++ [(t, kind)])
    else
      let s := count s dropped in
      let s := set_completions s (pred (pending_completions_ s)) in
      ReleasePending s.

Definition DispatchDeadlineTerminal (s : Exec) (t : Task) (a : Answer) : Exec :=
  if negb (has_deadline_completion (spec t)) then ReleasePending s
  else Dispatch s t DDeadline deadline_terminal_dropped_total_ a.

Definition DispatchCompletion (s : Exec) (t : Task) (a : Answer) : Exec :=
  Dispatch s t DCompletion completion_dropped_total_ a.

(** The end of work, in [ExecuteTask] and [FinishAsync]. *)
Definition EndWork (s : Exec) (t : Task) (r : WorkResult) (a : Answer) : Exec :=
  match r with
  | WThrow => ReleasePending (count s worker_exception_total_)
  | WNone => ReleasePending (count s completed_total_)
  | WCompletion => DispatchCompletion s t a
  end.

(** The wrapped completions, run by the dispatcher. *)
Definition RunDispatched (s : Exec) (t : Task) (kind : DispatchKind) (a : Answer) : Exec :=
  let s :=
    if negb (CompletionStillValid t a) then
      count s (match kind with
               | DCompletion => completion_dropped_total_
               | DDeadline => deadline_terminal_dropped_total_
               end)
    else
      count s (match kind, result a with
               | DCompletion, WThrow => completion_exception_total_
               | DCompletion, _ => completed_total_
               | DDeadline, WThrow => deadline_terminal_exception_total_
               | DDeadline, _ => deadline_terminal_callback_total_
               end) in
  ReleasePending (set_completions s (pred (pending_completions_ s))).

(** [Submit] up to the admission mutex: the status of a refusal, or the task. *)
Definition Submit (s : Exec) (sp : TaskSpec) (now : Z) : Exec * (BusinessSubmitStatus + Task) :=
  let s := count s submitted_total_ in
  if eqb (has_work sp) (has_async_work sp) then
    (count s rejected_invalid_total_, inl kInvalidArgument)
  else
    let sp := if HasDeadline sp then sp
              else with_deadline sp (received_at sp + default_deadline o) in
    if DeadlineExpired sp now then (count s rejected_deadline_total_, inl kDeadlineExpired)
    else (set_next_id s (next_id s + 1), inr (MkTask (next_id s) sp now None)).

(** A refusal under the admission mutex, after the reservation. *)
Definition Refuse (s : Exec) (c : Counter) : Exec := count (ReleasePending s) c.

(** [SubmitUnordered] and its accounting. *)
Definition SubmitUnordered (s : Exec) (t : Task) : option Exec :=
  '(p, r) ← tp_submit (pool_ s) (JExecute t);
  let s := set_pool s p in
  Some (match r with
        | kOk => count s accepted_total_
        | kStopped => Refuse s rejected_shutdown_total_
        | kDiscarded =>
            Refuse (count s rejected_pool_submission_total_) rejected_overload_total_
        end).

(** [SubmitOrdered] and [SubmitIsolatedKey] up to the post of the first drainer;
    the lane is returned when there is one to post. *)
Definition SubmitOrdered (s : Exec) (t : Task) (key : Z) : Exec * option Lane :=
  let L := lane_of o (length (stripes_ s)) key in
  match stripes_ s !! lane_index L with
  | None => (Refuse s rejected_invalid_total_, None)
  | Some st =>
      match EnqueueLane o st L t with
      | None => (Refuse s rejected_hot_key_total_, None)
      | Some (st', need_schedule) =>
          let s := set_stripes s (<[lane_index L := st']> (stripes_ s)) in
          let s := set_enqueued s (enqueued s ++ [(L, t)]) in
          if (need_schedule : bool) then (s, Some L) else (count s accepted_total_, None)
      end
  end.

(** [Submit] under the admission mutex; the lane is returned while it is held. *)
Definition Admit (s : Exec) (t : Task) : option (Exec * option Lane) :=
  if negb (accepting_ s) then Some (count s rejected_shutdown_total_, None)
  else match ReservePending s with
  | None => Some (count (count s rejected_pending_budget_total_) rejected_overload_total_, None)
  | Some s =>
      match ordering_key (spec t) with
      | None => s ← SubmitUnordered s t; Some (s, None)
      | Some key => Some (SubmitOrdered s t key)
      end
  end.

(** The rest of [SubmitOrdered] and [SubmitIsolatedKey]. *)
Definition Schedule (s : Exec) (t : Task) (L : Lane) : option Exec :=
  '(p, r) ← tp_submit (pool_ s) (JDrain L false);
  let s := set_pool s p in
  match r with
  | kOk => Some (count s accepted_total_)
  | _ =>
      st ← stripes_ s !! lane_index L;
      let s := set_stripes s (<[lane_index L := RollBackLane st L]> (stripes_ s)) in
      Some (match r with
            | kStopped => Refuse s rejected_shutdown_total_
            | _ => Refuse (count s rejected_pool_submission_total_) rejected_overload_total_
            end)
  end.

Definition next_pc (k : Cont) : Pc :=
  match k with
  | KUnordered => PEnd
  | KLane (LStripe i) => PLoop (LStripe i)
  | KLane (LKey i key) => PComplete (LKey i key)
  end.

(** [ExecuteTask] up to the work. *)
Definition ExecuteTask (s : Exec) (t : Task) (k : Cont) (a : Answer) : Exec * Pc :=
  let s := gauge s (λ g, RecordQueueWait g (now a - enqueued_at t)) in
  let cancelable := bool_decide (cancellation_policy (spec t) = kCancelable) in
  if cancelable && DeadlineExpired (spec t) (now a) then
    (DispatchDeadlineTerminal (count s deadline_expired_before_start_total_) t a, next_pc k)
  else if cancelable && has_still_valid (spec t) && negb (still_valid a) then
    (ReleasePending (count s cancelled_before_start_total_), next_pc k)
  else
    let s := gauge s begin_active in
    if has_async_work (spec t) then
      let s := count (set_async s (S (pending_async_tasks_ s))) async_started_total_ in
      (set_open s (open s ++ [(t, false)]), PAsync t)
    else (s, PWork t k).

(** [ExecuteTask] after the work. *)
Definition FinishWork (s : Exec) (t : Task) (k : Cont) (a : Answer) : Exec * Pc :=
  let s := gauge s (λ g, end_active (RecordExecution g (elapsed a))) in
  (EndWork s t (result a) a, next_pc k).

(** [ExecuteTask] after [async_work] returned or threw; the exchange of
    [async_finished] takes the task out of [open].  Work does not throw while a
    resume of it is queued.  The gauges move before [FinishAsync] instead of
    after it; no decision reads them. *)
Definition ReturnAsync (s : Exec) (t : Task) (a : Answer) : Exec * Pc :=
  let s' := gauge s (λ g, end_active (RecordExecution g (elapsed a))) in
  match result a with
  | WThrow =>
      match list_find (λ x, x = (t, false)) (open s) with
      | Some (j, _) => (set_open s' (delete j (open s)), PFinish t WThrow)
      | None =>
          if bool_decide ((t, true) ∈ open s) then (s, PAsync t) else (s', PEnd)
      end
  | _ => (s', PEnd)
  end.

(** The head of the loop of [DrainStripe] and [DrainKey]. *)
Definition DrainTurn (s : Exec) (L : Lane) : Exec * Pc :=
  match stripes_ s !! lane_index L with
  | None => (s, PEnd)
  | Some st =>
      let '(st', t) := PopLane st L in
      let s := set_stripes s (<[lane_index L := st']> (stripes_ s)) in
      match t with
      | None => (s, PEnd)
      | Some t =>
          let s := set_popped s (popped s ++ [(L, t)]) in
          (s, PRun (if has_async_work (spec t) then with_lane t L else t) (KLane L))
      end
  end.

(** [CompleteKeyTask] on the stripe of a lane. *)
Definition CompleteLane (s : Exec) (L : Lane) : option (Exec * bool) :=
  match L with
  | LStripe _ => Some (s, true)
  | LKey i key =>
      st ← stripes_ s !! i;
      '(st', more) ← CompleteKeyTask st key;
      Some (set_stripes s (<[i := st']> (stripes_ s)), more)
  end.

(** [FinishAsync]: the end of the task, then the next drainer. *)
Definition FinishAsync (s : Exec) (t : Task) (r : WorkResult) (a : Answer) : Exec :=
  EndWork (count s async_finished_total_) t r a.

Definition FinishAsyncTail (s : Exec) (t : Task) : option Exec :=
  match async_lane t with
  | None => Some s
  | Some L =>
      '(s, more) ← CompleteLane s L;
      if (more : bool) then PostInternal s (JDrain L true) else Some s
  end.

(** One step of a thread: the new state and program counter, [PEnd] apart. *)
Definition thread_turn (s : Exec) (c : Pc) (a : Answer) : option (Exec * option Pc) :=
  match c with
  | PAdmit t =>
      if admission_ s then Some (s, Some c)
      else
        '(s, l) ← Admit s t;
        Some (match l with
              | Some L => (set_admission s true, Some (PSchedule t L))
              | None => (s, None)
              end)
  | PSchedule t L => s ← Schedule s t L; Some (set_admission s false, None)
  | PRun t k => let '(s, c) := ExecuteTask s t k a in Some (s, Some c)
  | PWork t k => let '(s, c) := FinishWork s t k a in Some (s, Some c)
  | PAsync t => let '(s, c) := ReturnAsync s t a in Some (s, Some c)
  | PLoop L => let '(s, c) := DrainTurn s L in Some (s, Some c)
  | PComplete L =>
      '(s, more) ← CompleteLane s L;
      Some (s, Some (if (more : bool) then PLoop L else PEnd))
  | PFinish t r => Some (FinishAsync s t r a, Some (PFinishTail t))
  | PFinishTail t => s ← FinishAsyncTail s t; Some (s, Some PFinishEnd)
  | PFinishEnd => Some (set_async s (pred (pending_async_tasks_ s)), Some PEnd)
  | PResume =>
      Some (match result a with
            | WThrow =>
                count (count (gauge s end_active) worker_exception_total_) resume_exceptions
            | _ => gauge s (λ g, end_active (RecordExecution g (elapsed a)))
            end, Some PEnd)
  | PEnd => Some (s, None)
  end.

(** A worker takes a job. *)
Definition RunJob (s : Exec) (j : Job) : Exec * Thread :=
  match j with
  | JExecute t => (s, MkThread (PRun t KUnordered) false)
  | JDrain L b => (s, MkThread (PLoop L) b)
  | JResume t =>
      match list_find (λ x, x = (t, true)) (open s) with
      | None => (s, MkThread PEnd true)
      | Some (k, _) =>
          let s := set_open s (<[k := (t, false)]> (open s)) in
          (gauge (count s continuation_run_total_) begin_active, MkThread PResume true)
      end
  end.

(** ** Steps *)

Inductive Event :=
| ESubmit (sp : TaskSpec) (now : Z)     (* a call of [Submit] *)
| EThread (i : nat) (a : Answer)        (* thread [i] moves *)
| ETake                                 (* an idle worker takes a job *)
| EDispatched (i : nat) (a : Answer)    (* the dispatcher runs a completion *)
| EPostResume (i : nat)                 (* asynchronous work posts a resume *)
| EDone (i : nat) (r : WorkResult)      (* asynchronous work reports its end *)
| EBeginDrain.

Definition exec_step (s : Exec) (ev : Event) : option Exec :=
  match ev with
  | ESubmit sp now =>
      Some (match Submit s sp now with
            | (s, inl _) => s
            | (s, inr t) => set_threads s (threads s ++ [MkThread (PAdmit t) false])
            end)
  | EThread i a =>
      match threads s !! i with
      | None => Some s
      | Some th =>
          '(s, c) ← thread_turn s (pc th) a;
          Some (match c with
                | Some c => set_threads s (<[i := MkThread c (internal th)]> (threads s))
                | None =>
                    let s := if internal th
                             then set_internal s (pred (pending_internal_jobs_ s)) else s in
                    set_threads s (delete i (threads s))
                end)
      end
  | ETake =>
      '(p, j) ← tp_take (pool_ s);
      let s := set_pool s p in
      Some (match j with
            | None => s
            | Some j => let '(s, th) := RunJob s j in set_threads s (threads s ++ [th])
            end)
  | EDispatched i a =>
      Some (match dispatched s !! i with
            | None => s
            | Some (t, kind) =>
                RunDispatched (set_dispatched s (delete i (dispatched s))) t kind a
            end)
  | EPostResume i =>
      match open s !! i with
      | Some (t, false) =>
          s ← PostInternal s (JResume t); Some (set_open s (<[i := (t, true)]> (open s)))
      | _ => Some s
      end
  | EDone i r =>
      Some (match open s !! i with
            | Some (t, false) =>
                let s := set_open s (delete i (open s)) in
                set_threads s (threads s ++ [MkThread (PFinish t r) false])
            | _ => s
            end)
  | EBeginDrain => Some (BeginDrain s)
  end.

Definition exec_run : Exec → list Event → option Exec := run exec_step.

End Executor.
