(* ===== verification/BusinessLanes.v ===== *)
(** * The lanes of the ordered business executor

    The view of the stripes of [src/gateway/business/BusinessExecutor.cpp] the
    proofs work with: the queue and the owner flag of every lane, the slots of a
    stripe, and how the critical sections change them. *)
From Stdlib Require Import ZArith Lia.
From stdpp Require Import base gmap list numbers.
From S2P Require Import Prelude CircularQueue MpmcBlockingQueue ThreadPool BusinessExecutor.
Local Open Scope Z_scope.

(** ** Views of the stripes *)

Definition lane_queue (ss : list Stripe) (L : Lane) : list Task :=
  match ss !! lane_index L with
  | None => []
  | Some st =>
      match L with LStripe _ => queue st | LKey _ key => default [] (lanes st !! key) end
  end.

(** Whether a drainer owns the lane. *)
Definition lane_active (ss : list Stripe) (L : Lane) : bool :=
  match ss !! lane_index L with
  | None => false
  | Some st =>
      match L with LStripe _ => running st | LKey _ key => bool_decide (is_Some (lanes st !! key)) end
  end.

Definition slots (ss : list Stripe) (i : nat) : Z :=
  match ss !! i with None => 0 | Some st => Z.of_nat (isolated_pending st) end.

Definition lanes_len (m : gmap Z (list Task)) : Z := total (λ _ q, Z.of_nat (length q)) m.
Definition key_len (ss : list Stripe) (i : nat) : Z :=
  match ss !! i with None => 0 | Some st => lanes_len (lanes st) end.

(** All the queued tasks. *)
Definition stripe_len (st : Stripe) : Z := Z.of_nat (length (queue st)) + lanes_len (lanes st).
Definition queued (ss : list Stripe) : Z := lsum stripe_len ss.

Definition is_key (i : nat) (L : Lane) : bool :=
  match L with LKey j _ => bool_decide (j = i) | LStripe _ => false end.

(** The lane [L] gets the queue [q] and the owner flag [b], and its stripe [d]
    more slots in use; nothing else changes. *)
Record lane_set (ss ss' : list Stripe) (L : Lane) (q : list Task) (b : bool) (d : Z) : Prop := {
  ls_queue L' : lane_queue ss' L' = if decide (L' = L) then q else lane_queue ss L';
  ls_active L' : lane_active ss' L' = if decide (L' = L) then b else lane_active ss L';
  ls_slots i : slots ss' i = slots ss i + (if is_key i L then d else 0);
  ls_len i : key_len ss' i =
    key_len ss i +
    (if is_key i L then Z.of_nat (length q) - Z.of_nat (length (lane_queue ss L)) else 0);
  ls_queued : queued ss' =
    queued ss + Z.of_nat (length q) - Z.of_nat (length (lane_queue ss L));
  ls_length : length ss' = length ss;
}.

Lemma lanes_len_update m m' k :
  (∀ k', k' ≠ k → m' !! k' = m !! k') →
  lanes_len m' = lanes_len m - Z.of_nat (length (default [] (m !! k)))
                 + Z.of_nat (length (default [] (m' !! k))).
Proof.
  intros Hm. unfold lanes_len.
  assert (delete k m' = delete k m) as Hd.
  { apply map_eq. intros k'. destruct (decide (k' = k)) as [->|].
    - by rewrite !lookup_delete_eq.
    - rewrite !lookup_delete_ne by done. by apply Hm. }
  assert (∀ x : gmap Z (list Task), total (λ _ q, Z.of_nat (length q)) x =
    total (λ _ q, Z.of_nat (length q)) (delete k x) + Z.of_nat (length (default [] (x !! k)))) as Ht.
  { intros x. destruct (x !! k) as [q|] eqn:E; simpl.
    - rewrite (total_delete _ _ _ _ E). lia.
    - rewrite delete_id by done. lia. }
  rewrite (Ht m), (Ht m'), Hd. lia.
Qed.

(** The lanes of stripe [i], of which one was replaced, and those of the others. *)
Ltac lane_cases L' i Hi :=
  destruct (decide (lane_index L' = i)) as [<-|Hne];
  [ rewrite list_lookup_insert_eq, Hi by done; destruct L' as [j|j k];
    cbn [lane_index queue running lanes isolated_pending] in *;
    first [by rewrite decide_True | by rewrite decide_False | idtac]
  | rewrite list_lookup_insert_ne by done; rewrite decide_False by (intros ->; done); done ].

Lemma lane_set_stripe ss i st q b :
  ss !! i = Some st →
  lane_set ss (<[i := MkStripe q b (lanes st) (isolated_pending st)]> ss) (LStripe i) q b 0.
Proof.
  intros Hi. pose proof (lookup_lt_Some _ _ _ Hi) as Hlt. split.
  - intros L'. unfold lane_queue. lane_cases L' i Hi.
  - intros L'. unfold lane_active. lane_cases L' i Hi.
  - intros j. unfold slots. destruct (decide (j = i)) as [->|].
    + rewrite list_lookup_insert_eq, Hi by done. simpl. lia.
    + rewrite list_lookup_insert_ne by done. simpl. lia.
  - intros j. unfold key_len. destruct (decide (j = i)) as [->|].
    + rewrite list_lookup_insert_eq, Hi by done. simpl. lia.
    + rewrite list_lookup_insert_ne by done. simpl. lia.
  - unfold queued, lane_queue. rewrite (lsum_insert _ _ _ _ _ Hi). cbn [lane_index]. rewrite Hi.
    unfold stripe_len. simpl. lia.
  - apply length_insert.
Qed.

Lemma lane_set_key ss i key st m n x :
  ss !! i = Some st →
  (∀ k', m !! k' = if decide (k' = key) then x else lanes st !! k') →
  lane_set ss (<[i := MkStripe (queue st) (running st) m n]> ss) (LKey i key)
    (default [] x) (bool_decide (is_Some x)) (Z.of_nat n - Z.of_nat (isolated_pending st)).
Proof.
  intros Hi Hm. pose proof (lookup_lt_Some _ _ _ Hi) as Hlt.
  pose proof (lanes_len_update (lanes st) m key) as Hlen.
  rewrite (Hm key), decide_True in Hlen by done.
  specialize (Hlen ltac:(intros k' ?; by rewrite Hm, decide_False)). split.
  - intros L'. unfold lane_queue. lane_cases L' i Hi.
    rewrite Hm. by destruct (decide (_ = key)), (decide (LKey _ _ = _)); simplify_eq.
  - intros L'. unfold lane_active. lane_cases L' i Hi.
    rewrite Hm. by destruct (decide (_ = key)), (decide (LKey _ _ = _)); simplify_eq.
  - intros j. unfold slots, is_key. destruct (decide (j = i)) as [->|].
    + rewrite list_lookup_insert_eq, Hi, bool_decide_true by done. simpl. lia.
    + rewrite list_lookup_insert_ne, bool_decide_false by done. lia.
  - intros j. unfold key_len, is_key, lane_queue. simpl. rewrite Hi.
    destruct (decide (j = i)) as [->|].
    + rewrite list_lookup_insert_eq, Hi, bool_decide_true by done. simpl. lia.
    + rewrite list_lookup_insert_ne, bool_decide_false by done. lia.
  - unfold queued, lane_queue. rewrite (lsum_insert _ _ _ _ _ Hi). cbn [lane_index]. rewrite Hi.
    unfold stripe_len. simpl. lia.
  - apply length_insert.
Qed.

(** ** The lanes that have queued tasks *)

(** The lane of every queued task. *)
Definition stripe_lanes (i : nat) (st : Stripe) : list Lane :=
  ((λ _, LStripe i) <$> queue st) ++
  (map_to_list (lanes st) ≫= λ '(k, q), (λ _, LKey i k) <$> q).
Definition queued_lanes (ss : list Stripe) : list Lane := concat (imap stripe_lanes ss).

Lemma length_stripe_lanes i st : Z.of_nat (length (stripe_lanes i st)) = stripe_len st.
Proof.
  unfold stripe_lanes, stripe_len. rewrite length_app, length_fmap, Nat2Z.inj_add. f_equal.
  induction (lanes st) as [|k q m Hk IH] using map_ind.
  - rewrite map_to_list_empty. unfold lanes_len. by rewrite total_empty.
  - rewrite map_to_list_insert by done. unfold lanes_len in *.
    rewrite total_insert_new by done. simpl. rewrite length_app, length_fmap. unfold mbind in IH. lia.
Qed.

Lemma length_queued_lanes ss : Z.of_nat (length (queued_lanes ss)) = queued ss.
Proof.
  unfold queued_lanes, queued.
  assert (∀ f, (∀ i st, Z.of_nat (length (f i st)) = stripe_len st) →
    Z.of_nat (length (concat (imap (A:=Stripe) (B:=list Lane) f ss))) = lsum stripe_len ss) as Hf.
  { induction ss as [|st ss IH]; intros f Hf; [done|]. simpl.
    rewrite length_app, lsum_cons, Nat2Z.inj_add, Hf. f_equal. apply IH. intros. apply Hf. }
  apply Hf, length_stripe_lanes.
Qed.

Lemma elem_of_queued_lanes ss L : L ∈ queued_lanes ss ↔ lane_queue ss L ≠ [].
Proof.
  unfold queued_lanes, lane_queue. rewrite list_elem_of_In, in_concat. split.
  - intros (l & Hl & HL). apply list_elem_of_In in Hl, HL.
    apply elem_of_lookup_imap in Hl as (i & st & -> & Hi). unfold stripe_lanes in HL.
    rewrite elem_of_app in HL. destruct HL as [HL|HL].
    + apply list_elem_of_fmap in HL as (t & -> & Ht). simpl. rewrite Hi. by intros E; rewrite E in Ht; apply not_elem_of_nil in Ht.
    + apply list_elem_of_bind in HL as ([k q] & HL & Hk). apply elem_of_map_to_list in Hk.
      apply list_elem_of_fmap in HL as (t & -> & Ht). simpl. rewrite Hi, Hk. simpl.
      by intros E; rewrite E in Ht; apply not_elem_of_nil in Ht.
  - destruct (ss !! lane_index L) as [st|] eqn:Hi; [|done]. intros HL.
    exists (stripe_lanes (lane_index L) st). split; apply list_elem_of_In.
    + apply elem_of_lookup_imap. eauto.
    + unfold stripe_lanes. rewrite elem_of_app. destruct L as [i|i k]; simpl in *.
      * left. destruct (queue st) as [|t q]; [done|]. by left.
      * right. destruct (lanes st !! k) as [[|t q]|] eqn:Hk; try done.
        apply list_elem_of_bind. exists (k, t :: q). split; [by left|by apply elem_of_map_to_list].
Qed.

(** ** The critical sections *)

Lemma EnqueueLane_spec o ss st L t st' need :
  ss !! lane_index L = Some st → EnqueueLane o st L t = Some (st', need) →
  need = negb (lane_active ss L) ∧
  lane_set ss (<[lane_index L := st']> ss) L (lane_queue ss L ++ [t]) true
    (match L with LStripe _ => 0 | LKey _ _ => 1 end) ∧
  match L with
  | LStripe _ => Z.of_nat (length (lane_queue ss L)) + (if lane_active ss L then 1 else 0) <
                 Z.of_nat (per_stripe_queue_capacity o)
  | LKey i _ => slots ss i < Z.of_nat (per_stripe_queue_capacity o)
  end.
Proof.
  intros Hi He. unfold lane_queue, lane_active, slots. rewrite Hi.
  destruct L as [i|i key]; cbn [lane_index] in *; rewrite ?Hi; unfold EnqueueLane in He.
  - case_match eqn:Hc; [done|]. apply Nat.leb_gt in Hc. simplify_eq. split; [done|]. split.
    + by apply lane_set_stripe.
    + destruct (running st); lia.
  - case_match eqn:Hc; [done|]. apply Nat.leb_gt in Hc. simplify_eq. split_and!; [| |lia].
    + by destruct (lanes st !! key).
    + replace 1 with (Z.of_nat (S (isolated_pending st)) - Z.of_nat (isolated_pending st)) by lia.
      apply (lane_set_key _ _ _ _ _ _ (Some _) Hi). intros k'.
      destruct (decide (k' = key)) as [->|]; [apply lookup_insert_eq|by apply lookup_insert_ne].
Qed.

Lemma PopLane_spec ss st L :
  ss !! lane_index L = Some st → lane_active ss L = true →
  let '(st', x) := PopLane st L in
  match x with
  | None => lane_queue ss L = [] ∧ lane_set ss (<[lane_index L := st']> ss) L [] false 0
  | Some t => ∃ q, lane_queue ss L = t :: q ∧
                   lane_set ss (<[lane_index L := st']> ss) L q true 0
  end.
Proof.
  unfold lane_queue, lane_active. intros Hi. rewrite Hi.
  destruct L as [i|i key]; cbn [lane_index PopLane] in *.
  - intros Hr. destruct (queue st) as [|t q].
    + split; [done|]. by apply lane_set_stripe.
    + exists q. split; [done|]. rewrite <-Hr. by apply lane_set_stripe.
  - intros Ha%bool_decide_eq_true. destruct (lanes st !! key) as [[|t q]|]; simpl; [| |by destruct Ha].
    + split; [done|].
      replace 0 with (Z.of_nat (isolated_pending st) - Z.of_nat (isolated_pending st)) by lia.
      apply (lane_set_key _ _ _ _ _ _ None Hi). intros k'.
      destruct (decide (k' = key)) as [->|]; [apply lookup_delete_eq|by apply lookup_delete_ne].
    + exists q. split; [done|].
      replace 0 with (Z.of_nat (isolated_pending st) - Z.of_nat (isolated_pending st)) by lia.
      apply (lane_set_key _ _ _ _ _ _ (Some q) Hi). intros k'.
      destruct (decide (k' = key)) as [->|]; [apply lookup_insert_eq|by apply lookup_insert_ne].
Qed.

Lemma CompleteKeyTask_spec ss st i key :
  ss !! i = Some st → lane_active ss (LKey i key) = true → 0 < slots ss i →
  ∃ st', CompleteKeyTask st key =
           Some (st', match lane_queue ss (LKey i key) with [] => false | _ :: _ => true end) ∧
    lane_set ss (<[i := st']> ss) (LKey i key) (lane_queue ss (LKey i key))
      (match lane_queue ss (LKey i key) with [] => false | _ :: _ => true end) (-1).
Proof.
  unfold lane_queue, lane_active, slots. cbn [lane_index]. intros Hi. rewrite Hi.
  intros Ha%bool_decide_eq_true Hs. unfold CompleteKeyTask.
  destruct (lanes st !! key) as [q|] eqn:Hk; [|by destruct Ha]. simpl.
  destruct (isolated_pending st) as [|n] eqn:Hn; [lia|].
  cbn [Nat.eqb pred].
  assert (-1 = Z.of_nat n - Z.of_nat (isolated_pending st)) as -> by lia.
  destruct q as [|t q]; eexists; (split; [reflexivity|]).
  - apply (lane_set_key _ _ _ _ _ _ None Hi). intros k'.
    destruct (decide (k' = key)) as [->|]; [apply lookup_delete_eq|by apply lookup_delete_ne].
  - apply (lane_set_key _ _ _ _ _ _ (Some (t :: q)) Hi). intros k'.
    by destruct (decide (k' = key)) as [->|].
Qed.
