(* ===== verification/BusinessMoves.v ===== *)
(** * The moves of the ordered business executor

    A state of the executor seen as the pieces of work in flight: the threads,
    the jobs of the pool, the asynchronous tasks whose end was not reported and
    the completions given to a dispatcher.  Every step of
    [BusinessExecutor.exec_step] is a move that takes a few pieces, puts a few
    pieces back and adjusts the counters and one lane; [exec_step_move] is that
    simulation. *)
From Stdlib Require Import ZArith Lia.
From stdpp Require Import base gmap list numbers.
From S2P Require Import Prelude CircularQueue MpmcBlockingQueue ThreadPool BusinessExecutor.
From S2P Require Import BusinessLanes.
Local Open Scope Z_scope.

Inductive Piece :=
| AThread (th : Thread)
| AJob (j : Job)
| AOpen (x : Task * bool)
| ADispatched (x : Task * DispatchKind).

(** What a move does. *)
Record Change := Ch {
  ch_in : list Piece;
  ch_out : list Piece;
  ch_pending : Z;
  ch_completions : Z;
  ch_async : Z;
  ch_internal : Z;
  ch_counters : list Counter;
  ch_lane : option (Lane * list Task * bool * Z);
  ch_admission : option bool;
  ch_enqueued : list (Lane * Task);
  ch_popped : list (Lane * Task);
}.

(** A move without effect on lanes and admission. *)
Definition work (A B : list Piece) (p c a n : Z) (cs : list Counter) : Change :=
  Ch A B p c a n cs None None [] [].
Definition idle : Change := work [] [] 0 0 0 0 [].

(** The task of a lane as the drainer marks it. *)
Definition marked (L : Lane) (t : Task) : Task :=
  if has_async_work (spec t) then with_lane t L else t.

Definition key_slot (L : Lane) : Z := match L with LStripe _ => 0 | LKey _ _ => 1 end.
Definition b2z (b : bool) : Z := if b then 1 else 0.

Section Moves.
Context {P : Type} `{HP : TaskPoolLaws P Job}.
Variable o : BusinessExecutorOptions.
Local Abbreviation Exec := (Executor P).
Implicit Types (s : Exec).

Definition pieces (ths : list Thread) (js : list Job) (os : list (Task * bool))
  (ds : list (Task * DispatchKind)) : list Piece :=
  (AThread <$> ths) ++ (AJob <$> js) ++ (AOpen <$> os) ++ (ADispatched <$> ds).
Definition in_flight s : list Piece :=
  pieces (threads s) (tp_jobs (pool_ s)) (open s) (dispatched s).

Definition adjust (n : nat) (d : Z) : nat := Z.to_nat (Z.of_nat n + d).

Record moved s s' (c : Change) : Prop := {
  mv_pieces : ∃ R, in_flight s ≡ₚ ch_in c ++ R ∧ in_flight s' ≡ₚ ch_out c ++ R;
  mv_pool : tp_ok (pool_ s') ∧ tp_capacity (pool_ s') = tp_capacity (pool_ s);
  mv_pending : current_pending_tasks_ s' = adjust (current_pending_tasks_ s) (ch_pending c);
  mv_completions : pending_completions_ s' = adjust (pending_completions_ s) (ch_completions c);
  mv_async : pending_async_tasks_ s' = adjust (pending_async_tasks_ s) (ch_async c);
  mv_internal : pending_internal_jobs_ s' = adjust (pending_internal_jobs_ s) (ch_internal c);
  mv_counters : counters s' = foldr bump (counters s) (ch_counters c);
  mv_lane : match ch_lane c with
            | None => stripes_ s' = stripes_ s
            | Some (L, q, b, d) => lane_set (stripes_ s) (stripes_ s') L q b d
            end;
  mv_admission : admission_ s' = default (admission_ s) (ch_admission c);
  mv_accepting : accepting_ s' = true → accepting_ s = true;
  mv_enqueued : enqueued s' = enqueued s ++ ch_enqueued c;
  mv_popped : popped s' = popped s ++ ch_popped c;
}.

(** ** The moves *)

(** The end of work: what is left of it. *)
Inductive ends (t : Task) : list Piece → Z → Z → list Counter → Prop :=
| ends_throw : ends t [] (-1) 0 [worker_exception_total_]
| ends_none : ends t [] (-1) 0 [completed_total_]
| ends_dropped : ends t [] (-1) 0 [completion_dropped_total_]
| ends_dispatched : ends t [ADispatched (t, DCompletion)] 0 1 [].

(** The end of a task that expired before its start. *)
Inductive expires (t : Task) : list Piece → Z → Z → list Counter → Prop :=
| expires_silent : expires t [] (-1) 0 [deadline_expired_before_start_total_]
| expires_dropped :
    expires t [] (-1) 0 [deadline_terminal_dropped_total_; deadline_expired_before_start_total_]
| expires_dispatched :
    expires t [ADispatched (t, DDeadline)] 0 1 [deadline_expired_before_start_total_].

(** Whether a lane takes one more task. *)
Definition has_room (ss : list Stripe) (L : Lane) : Prop :=
  match L with
  | LStripe _ =>
      Z.of_nat (length (lane_queue ss L)) + b2z (lane_active ss L) <
      Z.of_nat (per_stripe_queue_capacity o)
  | LKey i _ => slots ss i < Z.of_nat (per_stripe_queue_capacity o)
  end.

Definition admits s : Prop :=
  admission_ s = false ∧ accepting_ s = true ∧ (current_pending_tasks_ s < max_pending_tasks o)%nat.

(** [turn s c c' ch]: a thread at [c] goes to [c'] ([None]: it ends), with the
    change [ch] apart from the thread itself. *)
Inductive turn s : Pc → option Pc → Change → Prop :=
| turn_blocked t : admission_ s = true → turn s (PAdmit t) (Some (PAdmit t)) idle
| turn_refused t c :
    c ∈ [rejected_shutdown_total_; rejected_hot_key_total_] →
    turn s (PAdmit t) None (work [] [] 0 0 0 0 [c])
| turn_budget t :
    turn s (PAdmit t) None
      (work [] [] 0 0 0 0 [rejected_overload_total_; rejected_pending_budget_total_])
| turn_unordered t :
    admits s → turn s (PAdmit t) None (work [] [AJob (JExecute t)] 1 0 0 0 [accepted_total_])
| turn_join t key L :
    admits s → ordering_key (spec t) = Some key → L = lane_of o (length (stripes_ s)) key →
    lane_active (stripes_ s) L = true → has_room (stripes_ s) L →
    turn s (PAdmit t) None
      (Ch [] [] 1 0 0 0 [accepted_total_]
         (Some (L, lane_queue (stripes_ s) L ++ [t], true, key_slot L)) None [(L, t)] [])
| turn_first t key L :
    admits s → ordering_key (spec t) = Some key → L = lane_of o (length (stripes_ s)) key →
    lane_active (stripes_ s) L = false → has_room (stripes_ s) L →
    turn s (PAdmit t) (Some (PSchedule t L))
      (Ch [] [] 1 0 0 0 []
         (Some (L, lane_queue (stripes_ s) L ++ [t], true, key_slot L)) (Some true) [(L, t)] [])
| turn_schedule t L :
    turn s (PSchedule t L) None
      (Ch [] [AJob (JDrain L false)] 0 0 0 0 [accepted_total_] None (Some false) [] [])
| turn_expired t k B p c cs :
    expires t B p c cs → turn s (PRun t k) (Some (next_pc k)) (work [] B p c 0 0 cs)
| turn_cancelled t k :
    turn s (PRun t k) (Some (next_pc k)) (work [] [] (-1) 0 0 0 [cancelled_before_start_total_])
| turn_started t k :
    has_async_work (spec t) = true →
    turn s (PRun t k) (Some (PAsync t))
      (work [] [AOpen (t, false)] 0 0 1 0 [async_started_total_])
| turn_working t k : turn s (PRun t k) (Some (PWork t k)) idle
| turn_worked t k B p c cs :
    ends t B p c cs → turn s (PWork t k) (Some (next_pc k)) (work [] B p c 0 0 cs)
| turn_returned t : turn s (PAsync t) (Some PEnd) idle
| turn_waits t : turn s (PAsync t) (Some (PAsync t)) idle
| turn_threw t :
    turn s (PAsync t) (Some (PFinish t WThrow)) (work [AOpen (t, false)] [] 0 0 0 0 [])
| turn_pop L t q :
    lane_queue (stripes_ s) L = t :: q →
    turn s (PLoop L) (Some (PRun (marked L t) (KLane L)))
      (Ch [] [] 0 0 0 0 [] (Some (L, q, true, 0)) None [] [(L, t)])
| turn_empty L :
    lane_queue (stripes_ s) L = [] →
    turn s (PLoop L) (Some PEnd) (Ch [] [] 0 0 0 0 [] (Some (L, [], false, 0)) None [] [])
| turn_complete_stripe i : turn s (PComplete (LStripe i)) (Some (PLoop (LStripe i))) idle
| turn_complete_more i key t q :
    lane_queue (stripes_ s) (LKey i key) = t :: q →
    turn s (PComplete (LKey i key)) (Some (PLoop (LKey i key)))
      (Ch [] [] 0 0 0 0 [] (Some (LKey i key, t :: q, true, -1)) None [] [])
| turn_complete_last i key :
    lane_queue (stripes_ s) (LKey i key) = [] →
    turn s (PComplete (LKey i key)) (Some PEnd)
      (Ch [] [] 0 0 0 0 [] (Some (LKey i key, [], false, -1)) None [] [])
| turn_finish t r B p c cs :
    ends t B p c cs →
    turn s (PFinish t r) (Some (PFinishTail t))
      (work [] B p c 0 0 (cs ++ [async_finished_total_]))
| turn_tail_unordered t :
    async_lane t = None → turn s (PFinishTail t) (Some PFinishEnd) idle
| turn_tail_stripe t i :
    async_lane t = Some (LStripe i) →
    turn s (PFinishTail t) (Some PFinishEnd)
      (work [] [AJob (JDrain (LStripe i) true)] 0 0 0 1 [])
| turn_tail_more t i key t' q :
    async_lane t = Some (LKey i key) → lane_queue (stripes_ s) (LKey i key) = t' :: q →
    turn s (PFinishTail t) (Some PFinishEnd)
      (Ch [] [AJob (JDrain (LKey i key) true)] 0 0 0 1 []
         (Some (LKey i key, t' :: q, true, -1)) None [] [])
| turn_tail_last t i key :
    async_lane t = Some (LKey i key) → lane_queue (stripes_ s) (LKey i key) = [] →
    turn s (PFinishTail t) (Some PFinishEnd)
      (Ch [] [] 0 0 0 0 [] (Some (LKey i key, [], false, -1)) None [] [])
| turn_finish_end : turn s PFinishEnd (Some PEnd) (work [] [] 0 0 (-1) 0 [])
| turn_resumed cs :
    cs ∈ [[]; [resume_exceptions; worker_exception_total_]] →
    turn s PResume (Some PEnd) (work [] [] 0 0 0 0 cs)
| turn_end : turn s PEnd None idle.

(** The change of a turn together with the thread that makes it. *)
Definition with_thread (th : Thread) (c' : option Pc) (c : Change) : Change :=
  Ch (AThread th :: ch_in c)
     (match c' with Some q => [AThread (MkThread q (internal th))] | None => [] end ++ ch_out c)
     (ch_pending c) (ch_completions c) (ch_async c)
     (ch_internal c - match c' with Some _ => 0 | None => b2z (internal th) end)
     (ch_counters c) (ch_lane c) (ch_admission c) (ch_enqueued c) (ch_popped c).

(** Whether a turn gets the thread on: it does not while it waits for the
    admission mutex, or for a resume that has to run first. *)
Definition moves_on (c : Pc) (c' : option Pc) : bool :=
  match c, c' with
  | PAdmit _, Some (PAdmit _) | PAsync _, Some (PAsync _) => false
  | _, _ => true
  end.

(** [move s b c]: the change [c] is possible in [s]; [b] says that the executor
    has got on with its work. *)
Inductive move s : bool → Change → Prop :=
| move_idle : move s false idle
| move_rejected c :
    c ∈ [rejected_invalid_total_; rejected_deadline_total_] →
    move s false (work [] [] 0 0 0 0 [c; submitted_total_])
| move_submitted t :
    async_lane t = None →
    move s false (work [] [AThread (MkThread (PAdmit t) false)] 0 0 0 0 [submitted_total_])
| move_turn th c' c : turn s (pc th) c' c → move s (moves_on (pc th) c') (with_thread th c' c)
| move_execute t :
    move s true (work [AJob (JExecute t)] [AThread (MkThread (PRun t KUnordered) false)] 0 0 0 0 [])
| move_drain L b :
    move s true (work [AJob (JDrain L b)] [AThread (MkThread (PLoop L) b)] 0 0 0 0 [])
| move_resume t :
    move s true (work [AJob (JResume t); AOpen (t, true)]
                 [AThread (MkThread PResume true); AOpen (t, false)]
                 0 0 0 0 [continuation_run_total_])
| move_dispatched t kind c :
    c ∈ match kind with
        | DCompletion => [completion_dropped_total_; completion_exception_total_; completed_total_]
        | DDeadline => [deadline_terminal_dropped_total_; deadline_terminal_exception_total_;
                        deadline_terminal_callback_total_]
        end →
    move s true (work [ADispatched (t, kind)] [] (-1) (-1) 0 0 [c])
| move_post t :
    move s false (work [AOpen (t, false)] [AOpen (t, true); AJob (JResume t)] 0 0 0 1 [])
| move_done t r :
    move s true (work [AOpen (t, false)] [AThread (MkThread (PFinish t r) false)] 0 0 0 0 []).
End Moves.
