(* ===== verification/BusinessInvariant.v ===== *)
(** * The invariant of the ordered business executor

    What holds in every state of the executor ([exec_ok]), proved move by move:
    the counters count the pieces in flight, a lane has one owner exactly while
    it is active, an idle lane is empty, the tasks of a lane leave it in the
    order in which they entered, and the budgets hold. *)
From Stdlib Require Import ZArith Lia.
From stdpp Require Import base gmap list numbers.
From S2P Require Import Prelude CircularQueue MpmcBlockingQueue ThreadPool BusinessExecutor.
From S2P Require Import BusinessLanes BusinessMoves.
Local Open Scope Z_scope.

(** ** Weights of the pieces *)

(** A slot of the pending budget. *)
Definition w_pending (p : Piece) : Z :=
  match p with
  | AThread th => match pc th with PRun _ _ | PWork _ _ | PFinish _ _ => 1 | _ => 0 end
  | AJob (JExecute _) | AOpen _ | ADispatched _ => 1
  | AJob _ => 0
  end.
Definition w_completions (p : Piece) : Z := match p with ADispatched _ => 1 | _ => 0 end.
Definition w_async (p : Piece) : Z :=
  match p with
  | AThread th => match pc th with PFinish _ _ | PFinishTail _ | PFinishEnd => 1 | _ => 0 end
  | AOpen _ => 1
  | _ => 0
  end.
Definition w_internal (p : Piece) : Z :=
  match p with
  | AThread th => b2z (internal th)
  | AJob (JDrain _ b) => b2z b
  | AJob (JResume _) => 1
  | _ => 0
  end.
(** The holder of the admission mutex. *)
Definition w_admission (p : Piece) : Z :=
  match p with
  | AThread th => match pc th with PSchedule _ _ => 1 | _ => 0 end
  | _ => 0
  end.
(** A queued resume of [t], and the mark that there is one. *)
Definition w_resume (t : Task) (p : Piece) : Z :=
  match p with AJob (JResume t') => b2z (bool_decide (t' = t)) | _ => 0 end.
Definition w_marked (t : Task) (p : Piece) : Z :=
  match p with AOpen (t', true) => b2z (bool_decide (t' = t)) | _ => 0 end.
Definition w_resumes (p : Piece) : Z := match p with AJob (JResume _) => 1 | _ => 0 end.
Definition w_marks (p : Piece) : Z := match p with AOpen (_, true) => 1 | _ => 0 end.

(** The lane whose task the piece executes. *)
Definition lane_hand (p : Piece) : option Lane :=
  match p with
  | AThread th =>
      match pc th with
      | PRun _ (KLane L) | PWork _ (KLane L) | PComplete L => Some L
      | PFinish t _ | PFinishTail t => async_lane t
      | _ => None
      end
  | AOpen (t, _) => async_lane t
  | _ => None
  end.
(** The lane whose first drainer the piece is. *)
Definition lane_drain (p : Piece) : option Lane :=
  match p with
  | AThread th => match pc th with PSchedule _ L => Some L | _ => None end
  | AJob (JDrain L _) => Some L
  | _ => None
  end.
Definition lane_loop (p : Piece) : option Lane :=
  match p with
  | AThread th => match pc th with PLoop L => Some L | _ => None end
  | _ => None
  end.

Definition on (L : Lane) (x : option Lane) : Z :=
  match x with Some L' => b2z (bool_decide (L' = L)) | None => 0 end.
Definition w_hand (L : Lane) (p : Piece) : Z := on L (lane_hand p).
Definition w_drain (L : Lane) (p : Piece) : Z := on L (lane_drain p).
Definition w_loop (L : Lane) (p : Piece) : Z := on L (lane_loop p).
(** A drainer that runs, or the task it left in flight. *)
Definition w_run (L : Lane) (p : Piece) : Z := on L (lane_hand p) + on L (lane_loop p).
(** The owners of a lane. *)
Definition w_token (L : Lane) (p : Piece) : Z :=
  on L (lane_hand p) + on L (lane_drain p) + on L (lane_loop p).
Definition w_key (i : nat) (p : Piece) : Z :=
  match lane_hand p with Some L => b2z (is_key i L) | None => 0 end.

#[global] Arguments w_hand L !p /.
#[global] Arguments w_drain L !p /.
#[global] Arguments w_loop L !p /.
#[global] Arguments w_run L !p /.
#[global] Arguments w_token L !p /.
#[global] Arguments w_key i !p /.

(** The mark of a started asynchronous task is the lane it came from. *)
Definition piece_ok (p : Piece) : Prop :=
  match p with
  | AThread th =>
      match pc th with
      | PAdmit t => async_lane t = None
      | PRun t k =>
          has_async_work (spec t) = true →
          async_lane t = match k with KUnordered => None | KLane L => Some L end
      | _ => True
      end
  | AJob (JExecute t) => async_lane t = None
  | _ => True
  end.

Lemma b2z_range b : 0 ≤ b2z b ≤ 1.
Proof. destruct b; simpl; lia. Qed.
Lemma on_range L x : 0 ≤ on L x ≤ 1.
Proof. destruct x; simpl; [apply b2z_range|lia]. Qed.

(** The history of one lane. *)
Definition lane_log (L : Lane) (l : list (Lane * Task)) : list Task :=
  (filter (λ x, x.1 = L) l).*2.

Section Invariant.
Context {P : Type} `{HP : TaskPoolLaws P Job}.
Variable o : BusinessExecutorOptions.
Local Abbreviation Exec := (Executor P).
Implicit Types (s : Exec) (L : Lane).

Definition weigh (w : Piece → Z) s : Z := lsum w (in_flight s).

Record exec_ok s : Prop := {
  ok_pool : tp_ok (pool_ s) ∧
    tp_capacity (pool_ s) = Z.of_nat (max_pending_tasks o) * 2 + Z.of_nat (stripe_count o) +
                            Z.of_nat (worker_threads o);
  ok_stripes : length (stripes_ s) = stripe_count o;
  ok_pieces : Forall piece_ok (in_flight s);
  ok_pending : Z.of_nat (current_pending_tasks_ s) = weigh w_pending s + queued (stripes_ s);
  ok_budget : (current_pending_tasks_ s ≤ max_pending_tasks o)%nat;
  ok_completions : Z.of_nat (pending_completions_ s) = weigh w_completions s;
  ok_async : Z.of_nat (pending_async_tasks_ s) = weigh w_async s;
  ok_internal : Z.of_nat (pending_internal_jobs_ s) = weigh w_internal s;
  ok_admission : b2z (admission_ s) = weigh w_admission s;
  ok_resume t : weigh (w_resume t) s = weigh (w_marked t) s;
  ok_resumes : weigh w_resumes s = weigh w_marks s;
  ok_token L : weigh (w_token L) s = b2z (lane_active (stripes_ s) L);
  ok_idle L : lane_active (stripes_ s) L = false → lane_queue (stripes_ s) L = [];
  ok_drain i key : weigh (w_drain (LKey i key)) s ≤
                   Z.of_nat (length (lane_queue (stripes_ s) (LKey i key)));
  ok_slots i : slots (stripes_ s) i = key_len (stripes_ s) i + weigh (w_key i) s;
  ok_key_capacity i : slots (stripes_ s) i ≤ Z.of_nat (per_stripe_queue_capacity o);
  ok_stripe_capacity i :
    Z.of_nat (length (lane_queue (stripes_ s) (LStripe i))) + weigh (w_hand (LStripe i)) s ≤
    Z.of_nat (per_stripe_queue_capacity o);
  ok_fifo L :
    lane_log L (enqueued s) = lane_log L (popped s) ++ lane_queue (stripes_ s) L;
  ok_lanes : Forall (λ x, ∃ key, ordering_key (spec x.2) = Some key ∧
                                 x.1 = lane_of o (stripe_count o) key) (enqueued s);
}.

(** ** Moves and weights *)

Lemma weigh_move s s' c w :
  (∀ p, 0 ≤ w p) → moved s s' c →
  ∃ r, 0 ≤ r ∧ weigh w s = lsum w (ch_in c) + r ∧ weigh w s' = lsum w (ch_out c) + r.
Proof.
  intros Hw [(R & E1 & E2) _]. exists (lsum w R). unfold weigh.
  rewrite E1, E2, !lsum_app. by split_and!; [apply lsum_nonneg| |].
Qed.

Lemma weigh_nonneg s w : (∀ p, 0 ≤ w p) → 0 ≤ weigh w s.
Proof. apply lsum_nonneg. Qed.

Lemma weigh_token s L : weigh (w_token L) s = weigh (w_drain L) s + weigh (w_run L) s.
Proof.
  unfold weigh. rewrite <-lsum_plus. apply lsum_ext. intros p _.
  unfold w_token, w_drain, w_run. lia.
Qed.

Lemma weigh_run s L : weigh (w_run L) s = weigh (w_hand L) s + weigh (w_loop L) s.
Proof. unfold weigh. by rewrite <-lsum_plus. Qed.

Lemma queued_nonneg ss : 0 ≤ queued ss.
Proof. rewrite <-length_queued_lanes. lia. Qed.

Lemma Forall_move (Q : Piece → Prop) s s' c :
  Forall Q (in_flight s) → moved s s' c → (Forall Q (ch_in c) → Forall Q (ch_out c)) →
  Forall Q (in_flight s').
Proof.
  intros HQ [(R & E1 & E2) _] Hc. rewrite E1 in HQ. rewrite E2.
  apply Forall_app in HQ as [??]. apply Forall_app. auto.
Qed.

End Invariant.

Lemma w_pending_nonneg p : 0 ≤ w_pending p.
Proof. destruct p as [[[]?]|[]| |]; simpl; lia. Qed.
Lemma w_completions_nonneg p : 0 ≤ w_completions p.
Proof. destruct p; simpl; lia. Qed.
Lemma w_async_nonneg p : 0 ≤ w_async p.
Proof. destruct p as [[[]?]|[]| |]; simpl; lia. Qed.
Lemma w_internal_nonneg p : 0 ≤ w_internal p.
Proof. destruct p as [[?[]]|[|?[]|]| |]; simpl; lia. Qed.
Lemma w_admission_nonneg p : 0 ≤ w_admission p.
Proof. destruct p as [[[]?]|[]| |]; simpl; lia. Qed.
Lemma w_resume_nonneg t p : 0 ≤ w_resume t p.
Proof. destruct p as [|[]| |]; simpl; try lia; apply b2z_range. Qed.
Lemma w_marked_nonneg t p : 0 ≤ w_marked t p.
Proof. destruct p as [| |[? []]|]; simpl; try lia; apply b2z_range. Qed.
Lemma w_resumes_nonneg p : 0 ≤ w_resumes p.
Proof. destruct p as [|[]| |]; simpl; lia. Qed.
Lemma w_marks_nonneg p : 0 ≤ w_marks p.
Proof. destruct p as [| |[? []]|]; simpl; lia. Qed.
Lemma w_hand_nonneg L p : 0 ≤ w_hand L p.
Proof. apply on_range. Qed.
Lemma w_drain_nonneg L p : 0 ≤ w_drain L p.
Proof. apply on_range. Qed.
Lemma w_token_nonneg L p : 0 ≤ w_token L p.
Proof.
  unfold w_token. pose proof (on_range L (lane_hand p)). pose proof (on_range L (lane_drain p)).
  pose proof (on_range L (lane_loop p)). lia.
Qed.
Lemma w_loop_nonneg L p : 0 ≤ w_loop L p.
Proof. apply on_range. Qed.
Lemma w_run_nonneg L p : 0 ≤ w_run L p.
Proof.
  unfold w_run. pose proof (on_range L (lane_hand p)). pose proof (on_range L (lane_loop p)). lia.
Qed.
Lemma w_key_nonneg i p : 0 ≤ w_key i p.
Proof. unfold w_key. destruct (lane_hand p); [apply b2z_range|lia]. Qed.
#[export] Hint Resolve w_pending_nonneg w_completions_nonneg w_async_nonneg w_internal_nonneg
  w_admission_nonneg w_resume_nonneg w_marked_nonneg w_resumes_nonneg w_marks_nonneg w_hand_nonneg w_drain_nonneg
  w_token_nonneg w_loop_nonneg w_run_nonneg w_key_nonneg : tinyimx.

(** The cases of a move, with the turns of a thread and the ways work ends. *)
Ltac move_cases H :=
  inversion H; clear H; subst;
  try match goal with
  | Ht : turn _ _ (pc ?th) _ _ |- _ =>
      destruct th as [? ?b]; cbn [pc] in Ht; inversion Ht; clear Ht; subst
  end;
  try match goal with He : ends _ _ _ _ _ |- _ => destruct He end;
  try match goal with He : expires _ _ _ _ _ |- _ => destruct He end;
  try match goal with k : Cont |- _ => destruct k as [|[|]] end.

(** Computes a change. *)
Ltac compute_change :=
  cbn [with_thread work idle ch_in ch_out ch_pending ch_completions ch_async ch_internal
       ch_counters ch_lane ch_admission ch_enqueued ch_popped app next_pc internal pc
       list_fmap fmap] in *.

(** Computes the weight of the pieces of a change. *)
Ltac weigh_pieces :=
  rewrite ?lsum_cons, ?lsum_nil in *;
  cbn [w_pending w_completions w_async w_internal w_admission w_resume w_marked w_resumes w_marks w_hand w_drain
       w_loop w_token w_run w_key lane_hand lane_drain lane_loop on pc internal b2z is_key] in *.

Ltac lane_lengths :=
  repeat match goal with Hq : lane_queue _ _ = _ |- _ => rewrite Hq in *; clear Hq end;
  rewrite ?length_app in *; cbn [length] in *.

(** The state of the lane [L] after a change. *)
Ltac lane_change L Hl :=
  first [rewrite Hl; clear Hl
        | rewrite ?(ls_active _ _ _ _ _ _ Hl L), ?(ls_queue _ _ _ _ _ _ Hl L)].

(** The mark of an asynchronous task a worker starts. *)
Ltac started_lane Hin :=
  try match goal with
  | Ha : has_async_work _ = true |- _ =>
      apply list.Forall_cons in Hin as [Hin _]; cbn [piece_ok pc] in Hin; specialize (Hin Ha)
  end;
  repeat match goal with Ha : async_lane _ = _ |- _ => rewrite Ha in *; clear Ha end.

Ltac lane_flags :=
  try match goal with E : _ = lane_of _ _ _ |- _ => rewrite <-E in *; clear E end;
  repeat match goal with Hb : lane_active _ _ = _ |- _ => rewrite Hb in *; clear Hb end.

Ltac lane_solve :=
  cbn [on is_key] in *;
  repeat case_decide; repeat case_bool_decide; simplify_eq; lane_flags;
  repeat match goal with
  | _ : context [b2z (lane_active ?ss ?L)] |- _ =>
      lazymatch goal with
      | _ : 0 ≤ b2z (lane_active ss L) ≤ 1 |- _ => fail
      | _ => pose proof (b2z_range (lane_active ss L))
      end
  end; cbn [b2z] in *; lia.

(** The slots of the stripe [i] after a change. *)
Ltac slot_change i Hl :=
  first [rewrite Hl; clear Hl
        | rewrite ?(ls_slots _ _ _ _ _ _ Hl i), ?(ls_len _ _ _ _ _ _ Hl i)].

Ltac slot_solve :=
  try match goal with _ : context [lane_of ?o ?n ?k] |- _ => destruct (lane_of o n k) as [|] end;
  repeat match goal with L : Lane |- _ => destruct L as [|] end;
  cbn [on is_key key_slot has_room] in *;
  repeat case_bool_decide; simplify_eq; cbn [b2z] in *; lane_lengths; lia.

Section Preservation.
Context {P : Type} `{HP : TaskPoolLaws P Job}.
Variable o : BusinessExecutorOptions.
Local Abbreviation Exec := (Executor P).
Implicit Types (s : Exec) (L : Lane).

Section Step.
Context {s s' : Exec} {pb : bool} {c : Change}
  (Hok : exec_ok o s) (Hmove : move o s pb c) (Hmoved : moved s s' c).

Lemma pending_step :
  Z.of_nat (current_pending_tasks_ s') = weigh w_pending s' + queued (stripes_ s') ∧
  (current_pending_tasks_ s' ≤ max_pending_tasks o)%nat.
Proof.
  destruct (weigh_move s s' c w_pending ltac:(auto with tinyimx) Hmoved) as (r & Hr & E1 & E2).
  pose proof (ok_pending _ _ Hok) as Hp. pose proof (ok_budget _ _ Hok) as Hb.
  pose proof (mv_pending _ _ _ Hmoved) as Hp'. pose proof (mv_lane _ _ _ Hmoved) as Hl.
  pose proof (queued_nonneg (stripes_ s)). unfold adjust in Hp'. clear Hmoved.
  move_cases Hmove; compute_change; try rewrite Hl;
    try pose proof (ls_queued _ _ _ _ _ _ Hl);
    try match goal with Ha : admits _ _ |- _ => destruct Ha as (_ & _ & ?) end;
    weigh_pieces; lane_lengths; lia.
Qed.

(** The other gauges count pieces only. *)
Lemma completions_step : Z.of_nat (pending_completions_ s') = weigh w_completions s'.
Proof.
  destruct (weigh_move s s' c w_completions ltac:(auto with tinyimx) Hmoved) as (r & Hr & E1 & E2).
  pose proof (ok_completions _ _ Hok). pose proof (mv_completions _ _ _ Hmoved) as Hp'.
  unfold adjust in Hp'. clear Hmoved.
  move_cases Hmove; compute_change; weigh_pieces; lia.
Qed.

Lemma async_step : Z.of_nat (pending_async_tasks_ s') = weigh w_async s'.
Proof.
  destruct (weigh_move s s' c w_async ltac:(auto with tinyimx) Hmoved) as (r & Hr & E1 & E2).
  pose proof (ok_async _ _ Hok). pose proof (mv_async _ _ _ Hmoved) as Hp'.
  unfold adjust in Hp'. clear Hmoved.
  move_cases Hmove; compute_change; weigh_pieces; lia.
Qed.

Lemma internal_step : Z.of_nat (pending_internal_jobs_ s') = weigh w_internal s'.
Proof.
  destruct (weigh_move s s' c w_internal ltac:(auto with tinyimx) Hmoved) as (r & Hr & E1 & E2).
  pose proof (ok_internal _ _ Hok). pose proof (mv_internal _ _ _ Hmoved) as Hp'.
  unfold adjust in Hp'. clear Hmoved.
  move_cases Hmove; compute_change; weigh_pieces;
    try match goal with b : bool |- _ => pose proof (b2z_range b) end; lia.
Qed.

Lemma admission_step : b2z (admission_ s') = weigh w_admission s'.
Proof.
  destruct (weigh_move s s' c w_admission ltac:(auto with tinyimx) Hmoved) as (r & Hr & E1 & E2).
  pose proof (ok_admission _ _ Hok) as Ha. pose proof (mv_admission _ _ _ Hmoved) as Hp'.
  clear Hmoved. move_cases Hmove; compute_change; cbn [default from_option id] in Hp';
    rewrite Hp'; weigh_pieces;
    try match goal with Ha : admits _ _ |- _ => destruct Ha as (Ha' & _ & _); rewrite Ha' in * end;
    pose proof (b2z_range (admission_ s)); cbn [b2z] in *; lia.
Qed.

Lemma resume_step t : weigh (w_resume t) s' = weigh (w_marked t) s'.
Proof.
  destruct (weigh_move s s' c (w_resume t) ltac:(auto with tinyimx) Hmoved) as (r & Hr & E1 & E2).
  destruct (weigh_move s s' c (w_marked t) ltac:(auto with tinyimx) Hmoved) as (r' & Hr' & E3 & E4).
  pose proof (ok_resume _ _ Hok t) as Ht. clear Hmoved.
  move_cases Hmove; compute_change; weigh_pieces; lia.
Qed.

Lemma resumes_step : weigh w_resumes s' = weigh w_marks s'.
Proof.
  destruct (weigh_move s s' c w_resumes ltac:(auto with tinyimx) Hmoved) as (r & Hr & E1 & E2).
  destruct (weigh_move s s' c w_marks ltac:(auto with tinyimx) Hmoved) as (r' & Hr' & E3 & E4).
  pose proof (ok_resumes _ _ Hok) as Ht. clear Hmoved.
  move_cases Hmove; compute_change; weigh_pieces; lia.
Qed.

Lemma pieces_step : Forall piece_ok (in_flight s').
Proof.
  eapply Forall_move; [apply Hok|done|]. clear Hmoved.
  move_cases Hmove; compute_change; rewrite ?list.Forall_cons, ?list.Forall_nil;
    cbn [piece_ok pc]; try tauto.
  intros _. split; [|done]. unfold marked.
  destruct (has_async_work (spec t)) eqn:E; [done|congruence].
Qed.

Lemma taken_ok : Forall piece_ok (ch_in c).
Proof.
  destruct (mv_pieces _ _ _ Hmoved) as (R & E1 & _). pose proof (ok_pieces _ _ Hok) as Hp.
  rewrite E1 in Hp. by apply Forall_app in Hp as [??].
Qed.

Lemma token_step L : weigh (w_token L) s' = b2z (lane_active (stripes_ s') L).
Proof.
  destruct (weigh_move s s' c (w_token L) ltac:(auto with tinyimx) Hmoved) as (r & Hr & E1 & E2).
  pose proof (ok_token _ _ Hok L) as Ht. pose proof (mv_lane _ _ _ Hmoved) as Hl.
  pose proof taken_ok as Hin. clear Hmoved. move_cases Hmove; compute_change;
    lane_change L Hl; weigh_pieces; started_lane Hin; lane_solve.
Qed.

Lemma idle_step L : lane_active (stripes_ s') L = false → lane_queue (stripes_ s') L = [].
Proof.
  pose proof (ok_idle _ _ Hok L) as Hi. pose proof (mv_lane _ _ _ Hmoved) as Hl. clear Hmoved.
  move_cases Hmove; compute_change; lane_change L Hl; try case_decide; done.
Qed.

Lemma drain_step i key :
  weigh (w_drain (LKey i key)) s' ≤ Z.of_nat (length (lane_queue (stripes_ s') (LKey i key))).
Proof.
  set (L := LKey i key).
  destruct (weigh_move s s' c (w_drain L) ltac:(auto with tinyimx) Hmoved) as (r & Hr & E1 & E2).
  destruct (weigh_move s s' c (w_run L) ltac:(auto with tinyimx) Hmoved) as (r' & Hr' & E3 & _).
  pose proof (ok_drain _ _ Hok i key) as Hd. fold L in Hd.
  pose proof (ok_token _ _ Hok L) as Ht. rewrite weigh_token in Ht.
  pose proof (b2z_range (lane_active (stripes_ s) L)) as Hb.
  pose proof (mv_lane _ _ _ Hmoved) as Hl. pose proof taken_ok as Hin. clear Hmoved Hok. subst L.
  move_cases Hmove; compute_change; lane_change (LKey i key) Hl; weigh_pieces; started_lane Hin; cbn [on] in *;
    repeat case_decide; repeat case_bool_decide; simplify_eq; lane_flags;
    cbn [b2z] in *; lane_lengths; lia.
Qed.

Lemma slots_step i :
  slots (stripes_ s') i = key_len (stripes_ s') i + weigh (w_key i) s'.
Proof.
  destruct (weigh_move s s' c (w_key i) ltac:(auto with tinyimx) Hmoved) as (r & Hr & E1 & E2).
  pose proof (ok_slots _ _ Hok i) as Hs. pose proof (mv_lane _ _ _ Hmoved) as Hl.
  pose proof taken_ok as Hin. clear Hmoved. move_cases Hmove; compute_change;
    slot_change i Hl; weigh_pieces; started_lane Hin; slot_solve.
Qed.

Lemma key_capacity_step i : slots (stripes_ s') i ≤ Z.of_nat (per_stripe_queue_capacity o).
Proof.
  pose proof (ok_key_capacity _ _ Hok i) as Hs. pose proof (mv_lane _ _ _ Hmoved) as Hl.
  clear Hmoved. move_cases Hmove; compute_change; slot_change i Hl; slot_solve.
Qed.

Lemma stripe_capacity_step i :
  Z.of_nat (length (lane_queue (stripes_ s') (LStripe i))) + weigh (w_hand (LStripe i)) s' ≤
  Z.of_nat (per_stripe_queue_capacity o).
Proof.
  set (L := LStripe i).
  destruct (weigh_move s s' c (w_hand L) ltac:(auto with tinyimx) Hmoved) as (r & Hr & E1 & E2).
  destruct (weigh_move s s' c (w_loop L) ltac:(auto with tinyimx) Hmoved) as (r' & Hr' & E3 & _).
  pose proof (weigh_nonneg s (w_drain L) ltac:(auto with tinyimx)).
  pose proof (ok_stripe_capacity _ _ Hok i) as Hs. fold L in Hs.
  pose proof (ok_token _ _ Hok L) as Ht. rewrite weigh_token, weigh_run in Ht.
  pose proof (b2z_range (lane_active (stripes_ s) L)) as Hb.
  pose proof (mv_lane _ _ _ Hmoved) as Hl. pose proof taken_ok as Hin. clear Hmoved Hok. subst L.
  move_cases Hmove; compute_change; lane_change (LStripe i) Hl; weigh_pieces; started_lane Hin;
    cbn [on] in *; repeat case_decide; repeat case_bool_decide; simplify_eq;
    try match goal with E : _ = lane_of _ _ _ |- _ => rewrite <-E in *; clear E end;
    cbn [has_room] in *; lane_flags; cbn [b2z] in *; lane_lengths; lia.
Qed.

Lemma fifo_step L :
  lane_log L (enqueued s') = lane_log L (popped s') ++ lane_queue (stripes_ s') L.
Proof.
  pose proof (ok_fifo _ _ Hok L) as Hf. pose proof (mv_lane _ _ _ Hmoved) as Hl.
  rewrite (mv_enqueued _ _ _ Hmoved), (mv_popped _ _ _ Hmoved). clear Hmoved.
  move_cases Hmove; compute_change; rewrite ?app_nil_r; lane_change L Hl; try done;
    unfold lane_log in *; rewrite ?list.filter_app, ?fmap_app, ?list.filter_cons, ?list.filter_nil;
    cbn [fst]; repeat case_decide; subst; try done; cbn [fmap list_fmap snd];
    rewrite Hf, ?app_nil_r, <-?(assoc_L (++));
    repeat match goal with Hq : lane_queue _ _ = _ |- _ => rewrite Hq in *; clear Hq end; rewrite ?app_nil_r; done.
Qed.

Lemma lanes_step :
  Forall (λ x, ∃ key, ordering_key (spec x.2) = Some key ∧
                      x.1 = lane_of o (stripe_count o) key) (enqueued s').
Proof.
  pose proof (ok_lanes _ _ Hok) as Hf. rewrite (mv_enqueued _ _ _ Hmoved). clear Hmoved.
  apply Forall_app. split; [done|]. move_cases Hmove; compute_change; try constructor; try done.
  all: eexists; split; [eassumption|]; by rewrite (ok_stripes _ _ Hok).
Qed.

Lemma stripes_step : length (stripes_ s') = stripe_count o.
Proof.
  rewrite <-(ok_stripes _ _ Hok). pose proof (mv_lane _ _ _ Hmoved) as Hl.
  destruct (ch_lane c) as [[[[L q] b] d]|]; [apply Hl|by rewrite Hl].
Qed.

(** Every move keeps the invariant. *)
Lemma exec_ok_step : exec_ok o s'.
Proof.
  destruct pending_step, (mv_pool _ _ _ Hmoved) as [Hp1 Hp2].
  split; try assumption; auto using pieces_step, completions_step, async_step, internal_step,
    admission_step, resume_step, resumes_step, token_step, idle_step, drain_step, slots_step,
    key_capacity_step, stripe_capacity_step, fifo_step, lanes_step, stripes_step.
  rewrite Hp2. split; [done|apply Hok].
Qed.

End Step.
End Preservation.
