(* ===== verification/BusinessLedger.v ===== *)
(** * The statistics of the ordered business executor

    What the counters of [BusinessExecutor::GetStats] say about each other and
    about the work in flight, proved move by move. *)
From Stdlib Require Import ZArith Lia.
From stdpp Require Import base gmap list numbers.
From S2P Require Import Prelude CircularQueue MpmcBlockingQueue ThreadPool BusinessExecutor.
From S2P Require Import BusinessLanes BusinessMoves BusinessInvariant.
Local Open Scope Z_scope.

(** Submitters that have no answer yet. *)
Definition w_submitting (p : Piece) : Z :=
  match p with
  | AThread th => match pc th with PAdmit _ | PSchedule _ _ => 1 | _ => 0 end
  | _ => 0
  end.
(** The responses to expired tasks that wait for their dispatcher. *)
Definition w_deadline (p : Piece) : Z :=
  match p with ADispatched (_, DDeadline) => 1 | _ => 0 end.
(** Asynchronous tasks that have not ended. *)
Definition w_open (p : Piece) : Z :=
  match p with
  | AThread th => match pc th with PFinish _ _ => 1 | _ => 0 end
  | AOpen _ => 1
  | _ => 0
  end.

Lemma w_submitting_nonneg p : 0 ≤ w_submitting p.
Proof. destruct p as [[[]?]|[]| |]; simpl; lia. Qed.
Lemma w_deadline_nonneg p : 0 ≤ w_deadline p.
Proof. destruct p as [| | |[? []]]; simpl; lia. Qed.
Lemma w_open_nonneg p : 0 ≤ w_open p.
Proof. destruct p as [[[]?]|[]| |]; simpl; lia. Qed.
#[export] Hint Resolve w_submitting_nonneg w_deadline_nonneg w_open_nonneg : tinyimx.

Lemma bump_eq c f : bump c f c = S (f c).
Proof. unfold bump. by rewrite decide_True. Qed.
Lemma bump_ne c c' f : c' ≠ c → bump c f c' = f c'.
Proof. intros. unfold bump. by rewrite decide_False. Qed.

Ltac counter_cases :=
  repeat match goal with
  | H : _ ∈ [] |- _ => by apply not_elem_of_nil in H
  | H : _ ∈ _ :: _ |- _ => apply elem_of_cons in H; destruct H as [H|H]; [subst|]
  | kind : DispatchKind |- _ => destruct kind
  end.

Ltac count_counters :=
  cbn [foldr app] in *;
  repeat first [rewrite bump_eq in * | rewrite bump_ne in * by done].

Section Ledger.
Context {P : Type} `{HP : TaskPoolLaws P Job}.
Variable o : BusinessExecutorOptions.
Local Abbreviation Exec := (Executor P).
Implicit Types (s : Exec).

Definition tally s (c : Counter) : Z := Z.of_nat (counters s c).

(** What the statistics say. *)
Record ledger s : Prop := {
  lg_submitted :
    tally s submitted_total_ =
    tally s accepted_total_ + tally s rejected_overload_total_ + tally s rejected_hot_key_total_ +
    tally s rejected_deadline_total_ + tally s rejected_shutdown_total_ +
    tally s rejected_invalid_total_ + weigh w_submitting s;
  lg_accepted :
    tally s accepted_total_ + weigh w_admission s + weigh w_deadline s =
    tally s completed_total_ + tally s cancelled_before_start_total_ +
    tally s deadline_expired_before_start_total_ +
    (tally s worker_exception_total_ - tally s resume_exceptions) +
    tally s completion_exception_total_ + tally s completion_dropped_total_ +
    Z.of_nat (current_pending_tasks_ s);
  lg_deadline :
    tally s deadline_terminal_callback_total_ + tally s deadline_terminal_dropped_total_ +
    tally s deadline_terminal_exception_total_ + weigh w_deadline s ≤
    tally s deadline_expired_before_start_total_;
  lg_async :
    tally s async_started_total_ = tally s async_finished_total_ + weigh w_open s;
  lg_budget : tally s rejected_overload_total_ = tally s rejected_pending_budget_total_;
  lg_pool : tally s rejected_pool_submission_total_ = 0;
  lg_resume : tally s resume_exceptions ≤ tally s worker_exception_total_;
}.

Section Step.
Context {s s' : Exec} {pb : bool} {c : Change}
  (Hok : exec_ok o s) (Hmove : move o s pb c) (Hmoved : moved s s' c).

Lemma ledger_step : ledger s → ledger s'.
Proof.
  intros [L1 L2 L3 L4 L5 L6 L7].
  destruct (weigh_move s s' c w_submitting ltac:(auto with tinyimx) Hmoved) as (r1 & R1 & A1 & B1).
  destruct (weigh_move s s' c w_deadline ltac:(auto with tinyimx) Hmoved) as (r2 & R2 & A2 & B2).
  destruct (weigh_move s s' c w_open ltac:(auto with tinyimx) Hmoved) as (r3 & R3 & A3 & B3).
  destruct (weigh_move s s' c w_admission ltac:(auto with tinyimx) Hmoved) as (r4 & R4 & A4 & B4).
  destruct (weigh_move s s' c w_pending ltac:(auto with tinyimx) Hmoved) as (r5 & R5 & A5 & B5).
  pose proof (ok_pending _ _ Hok) as Hp. pose proof (queued_nonneg (stripes_ s)).
  pose proof (mv_pending _ _ _ Hmoved) as Hp'. pose proof (mv_counters _ _ _ Hmoved) as Hc.
  unfold adjust, tally in *. clear Hmoved Hok.
  move_cases Hmove; compute_change; counter_cases; split; unfold tally;
    rewrite ?Hc; count_counters; weigh_pieces; cbn [w_submitting w_deadline w_open pc] in *; lia.
Qed.
End Step.
End Ledger.
