(* ===== verification/BusinessExecutorSafety.v ===== *)
(** * The ordered business executor is correct

    The simulation of [BusinessExecutor.exec_step] by the moves, and the
    theorems on whole runs of the executor. *)
From Stdlib Require Import ZArith Lia.
From stdpp Require Import base gmap list numbers.
From S2P Require Import Prelude CircularQueue MpmcBlockingQueue ThreadPool BusinessExecutor.
From S2P Require Import BusinessLanes BusinessMoves BusinessInvariant.
Local Open Scope Z_scope.

Lemma NoDup_b2z {A} `{EqDecision A} (l : list A) :
  (∀ x, lsum (λ y, b2z (bool_decide (y = x))) l ≤ 1) → NoDup l.
Proof.
  induction l as [|x l IH]; intros Hl; [constructor|]. constructor.
  - intros Hx. specialize (Hl x). rewrite lsum_cons, bool_decide_true in Hl by done.
    pose proof (lsum_elem_le (λ y, b2z (bool_decide (y = x))) l x) as Hle. simpl in Hle.
    rewrite bool_decide_true in Hle by done. specialize (Hle (λ y, proj1 (b2z_range _)) Hx).
    simpl in *. lia.
  - apply IH. intros y. specialize (Hl y). rewrite lsum_cons in Hl.
    pose proof (b2z_range (bool_decide (x = y))). lia.
Qed.

Section Safety.
Context {P : Type} `{HP : TaskPoolLaws P Job}.
Variable o : BusinessExecutorOptions.
Local Abbreviation Exec := (Executor P).
Implicit Types (s : Exec) (L : Lane).

(** ** The pool always has room *)

Definition drain_lanes (js : list Job) : list Lane :=
  omap (λ j, match j with JDrain L _ => Some L | _ => None end) js.

Lemma drain_lanes_count js L :
  lsum (λ L', b2z (bool_decide (L' = L))) (drain_lanes js) = lsum (λ j, w_drain L (AJob j)) js.
Proof.
  induction js as [|[t|L' b|t] js IH]; [done|..]; rewrite lsum_cons;
    unfold drain_lanes in *; cbn [omap list_omap w_drain lane_drain on] in *;
    rewrite ?lsum_cons, IH; lia.
Qed.

Lemma jobs_by_kind js :
  Z.of_nat (length js) =
  lsum (λ j, w_pending (AJob j)) js + lsum (λ j, w_resumes (AJob j)) js +
  Z.of_nat (length (drain_lanes js)).
Proof.
  unfold drain_lanes. induction js as [|[] js IH]; [done|..];
    rewrite !lsum_cons; cbn [length omap list_omap w_pending w_resumes] in *; lia.
Qed.

Lemma weigh_jobs w s : (∀ p, 0 ≤ w p) → lsum (λ j, w (AJob j)) (tp_jobs (pool_ s)) ≤ weigh w s.
Proof.
  intros Hw. unfold weigh, in_flight, pieces. rewrite !lsum_app, !lsum_fmap.
  pose proof (lsum_nonneg (λ x, w (AThread x)) (threads s) (λ x, Hw _)).
  pose proof (lsum_nonneg (λ x, w (AOpen x)) (open s) (λ x, Hw _)).
  pose proof (lsum_nonneg (λ x, w (ADispatched x)) (dispatched s) (λ x, Hw _)). lia.
Qed.

Lemma weigh_token_le s L : exec_ok o s → weigh (w_token L) s ≤ 1.
Proof. intros Hok. rewrite (ok_token _ _ Hok L). apply b2z_range. Qed.

(** The queued drainers are few: they have distinct lanes, a key lane with a
    task in its queue or one of the stripes. *)
Lemma drainers_bound s :
  exec_ok o s →
  Z.of_nat (length (drain_lanes (tp_jobs (pool_ s)))) ≤
  queued (stripes_ s) + Z.of_nat (stripe_count o).
Proof.
  intros Hok. set (D := drain_lanes _).
  assert (∀ L, lsum (λ L', b2z (bool_decide (L' = L))) D ≤ weigh (w_drain L) s) as HD.
  { intros L. unfold D. rewrite drain_lanes_count. apply weigh_jobs. auto with tinyimx. }
  assert (NoDup D) as Hnd.
  { apply NoDup_b2z. intros L. pose proof (HD L). pose proof (weigh_token_le s L Hok).
    rewrite weigh_token in *. pose proof (weigh_nonneg s (w_run L) ltac:(auto with tinyimx)). lia. }
  assert (D ⊆ queued_lanes (stripes_ s) ++ (LStripe <$> seq 0 (stripe_count o))) as Hsub.
  { intros L HL. assert (1 ≤ weigh (w_drain L) s) as Hd.
    { pose proof (lsum_elem_le (λ L', b2z (bool_decide (L' = L))) D L) as Hle. simpl in Hle.
      rewrite bool_decide_true in Hle by done.
      specialize (Hle (λ y, proj1 (b2z_range _)) HL). specialize (HD L). simpl in *. lia. }
    rewrite elem_of_app. destruct L as [i|i key].
    - right. apply list_elem_of_fmap. exists i. split; [done|]. apply elem_of_seq.
      pose proof (ok_token _ _ Hok (LStripe i)) as Ht. rewrite weigh_token in Ht.
      pose proof (weigh_nonneg s (w_run (LStripe i)) ltac:(auto with tinyimx)).
      unfold lane_active in Ht. simpl in Ht. destruct (stripes_ s !! i) eqn:Hi; [|simpl in Ht; lia].
      apply lookup_lt_Some in Hi. rewrite (ok_stripes _ _ Hok) in Hi. lia.
    - left. apply elem_of_queued_lanes. pose proof (ok_drain _ _ Hok i key). intros E.
      rewrite E in *. simpl in *. lia. }
  pose proof (submseteq_length _ _ (NoDup_submseteq _ _ Hnd Hsub)) as Hl.
  rewrite length_app, length_fmap, length_seq in Hl.
  rewrite <-length_queued_lanes. lia.
Qed.

Lemma pool_has_room s :
  exec_ok o s → (0 < worker_threads o)%nat →
  Z.of_nat (length (tp_jobs (pool_ s))) < tp_capacity (pool_ s).
Proof.
  intros Hok Hw. destruct (ok_pool _ _ Hok) as [_ ->].
  pose proof (drainers_bound s Hok) as HD. pose proof (ok_pending _ _ Hok) as Hp.
  pose proof (ok_budget _ _ Hok). pose proof (ok_resumes _ _ Hok) as Hr.
  pose proof (weigh_jobs w_pending s ltac:(auto with tinyimx)).
  pose proof (weigh_jobs w_resumes s ltac:(auto with tinyimx)).
  assert (weigh w_marks s ≤ weigh w_pending s).
  { apply lsum_le. intros [[[]]|[]|[? []]|]; simpl; lia. }
  rewrite jobs_by_kind. pose proof (queued_nonneg (stripes_ s)). lia.
Qed.

(** ** The steps are moves *)

Hypothesis workers : (0 < worker_threads o)%nat.

Lemma submit_room s j :
  exec_ok o s →
  ∃ p, tp_submit (pool_ s) j = Some (p, kOk) ∧ tp_ok p ∧
       tp_capacity p = tp_capacity (pool_ s) ∧ tp_jobs p = tp_jobs (pool_ s) ++ [j].
Proof.
  intros Hok. pose proof (pool_has_room s Hok workers) as Hr.
  destruct (tp_submit_ok (pool_ s) j ltac:(apply Hok)) as (p & r & E & Hp & Hc & Hj).
  rewrite (proj2 (Z.ltb_lt _ _) Hr) in Hj. destruct Hj as [-> Hj]. by exists p.
Qed.

(** A state without its threads: what a turn changes besides the thread. *)
Definition rest s : Exec := set_threads s [].

Lemma moved_gauge s s' f c : moved (rest (gauge s f)) s' c → moved (rest s) s' c.
Proof. by intros []; split. Qed.

Lemma moved_count s s' x A B p c a n cs :
  moved (rest (count s x)) s' (work A B p c a n cs) →
  moved (rest s) s' (work A B p c a n (cs ++ [x])).
Proof. intros []; split; try done. cbn. by rewrite foldr_app. Qed.

Lemma moved_turn s s' th i c' c :
  threads s !! i = Some th → threads s' = threads s → moved (rest s) (rest s') c →
  moved s (match c' with
           | Some q => set_threads s' (<[i := MkThread q (internal th)]> (threads s'))
           | None =>
               let s' := if internal th
                         then set_internal s' (pred (pending_internal_jobs_ s')) else s' in
               set_threads s' (delete i (threads s'))
           end) (with_thread th c' c).
Proof.
  intros Hi Ht [(R & E1 & E2) ???? Hn]. unfold in_flight, pieces in E1, E2. cbn in E1, E2.
  pose proof (delete_Permutation _ _ _ Hi) as Hd.
  pose proof (λ y, insert_Permutation _ _ _ y Hi) as Hins.
  split; try (destruct c'; [done|by destruct (internal th)]).
  - exists ((AThread <$> delete i (threads s)) ++ R). cbn.
    destruct c' as [q|]; cbn [threads pool_ open dispatched set_threads].
    + unfold in_flight, pieces. cbn. rewrite Ht, E1, E2, Hins, Hd at 1. cbn. split; solve_Permutation.
    + destruct (internal th); unfold in_flight, pieces; cbn; rewrite Ht, E1, E2, Hd at 1;
        cbn; split; solve_Permutation.
  - cbn. destruct c' as [q|]; [cbn; rewrite Z.sub_0_r; apply Hn|].
    cbn in Hn. unfold adjust in *. destruct (internal th); cbn; rewrite Hn; lia.
Qed.

Ltac moved_fields :=
  split;
  [ unfold in_flight, pieces; cbn
  | split; cbn; first [assumption | reflexivity | done]
  | unfold adjust; cbn; lia | unfold adjust; cbn; lia | unfold adjust; cbn; lia
  | unfold adjust; cbn; lia | reflexivity
  | cbn | reflexivity | done | by cbn; rewrite ?app_nil_r | by cbn; rewrite ?app_nil_r ];
  try reflexivity.

Ltac moved_by R := moved_fields; try (exists R; split; solve_Permutation).

Definition others s : list Piece :=
  (AJob <$> tp_jobs (pool_ s)) ++ (AOpen <$> open s) ++ (ADispatched <$> dispatched s).

(** The end of work and of an expired task. *)
Lemma EndWork_moved s t r a :
  tp_ok (pool_ s) →
  threads (EndWork s t r a) = threads s ∧
  ∃ B p c cs, ends t B p c cs ∧ moved (rest s) (rest (EndWork s t r a)) (work [] B p c 0 0 cs).
Proof.
  intros Hp. destruct r; simpl.
  - split; [done|]. do 4 eexists. split; [apply ends_throw|]. moved_by (others s).
  - split; [done|]. do 4 eexists. split; [apply ends_none|]. moved_by (others s).
  - unfold DispatchCompletion, Dispatch. destruct (has_dispatcher _); simpl;
      [destruct (CompletionStillValid _ _), (dispatch_ok _); simpl|].
    1: split; [done|]; do 4 eexists; split; [apply ends_dispatched|]; moved_by (others s);
       exists (others s); rewrite fmap_app; split; solve_Permutation.
    all: split; [done|]; do 4 eexists; split; [apply ends_dropped|]; moved_by (others s).
Qed.

Lemma DispatchDeadlineTerminal_moved s t a :
  tp_ok (pool_ s) →
  let s' := DispatchDeadlineTerminal (count s deadline_expired_before_start_total_) t a in
  threads s' = threads s ∧
  ∃ B p c cs, expires t B p c cs ∧ moved (rest s) (rest s') (work [] B p c 0 0 cs).
Proof.
  intros Hp. unfold DispatchDeadlineTerminal, Dispatch.
  destruct (has_deadline_completion _), (has_dispatcher _); simpl;
      [destruct (CompletionStillValid _ _), (dispatch_ok _); simpl|..].
  1: split; [done|]; do 4 eexists; split; [apply expires_dispatched|]; moved_by (others s);
       exists (others s); rewrite fmap_app; split; solve_Permutation.
  1-4: split; [done|]; do 4 eexists; split; [apply expires_dropped|]; moved_by (others s).
  all: split; [done|]; do 4 eexists; split; [apply expires_silent|]; moved_by (others s).
Qed.

(** What the owner of a lane knows about it. *)
Lemma owner_active s L p :
  exec_ok o s → p ∈ in_flight s → 0 < w_token L p → lane_active (stripes_ s) L = true.
Proof.
  intros Hok Hp Hw. pose proof (ok_token _ _ Hok L) as Ht.
  pose proof (lsum_elem_le (w_token L) _ _ (w_token_nonneg L) Hp). unfold weigh in Ht.
  destruct (lane_active _ _); simpl in Ht; [done|lia].
Qed.

Lemma hand_slot s i p :
  exec_ok o s → p ∈ in_flight s → 0 < w_key i p → 0 < slots (stripes_ s) i.
Proof.
  intros Hok Hp Hw. pose proof (ok_slots _ _ Hok i) as Hs. unfold weigh in Hs.
  pose proof (lsum_elem_le (w_key i) _ _ (w_key_nonneg i) Hp).
  assert (0 ≤ key_len (stripes_ s) i); [|lia]. unfold key_len. case_match; [|done].
  apply total_nonneg. lia.
Qed.

Lemma active_stripe ss L : lane_active ss L = true → ∃ st, ss !! lane_index L = Some st.
Proof. unfold lane_active. destruct (ss !! lane_index L); eauto. done. Qed.

Lemma lane_of_stripe s key :
  exec_ok o s → (0 < stripe_count o)%nat →
  ∃ st, stripes_ s !! lane_index (lane_of o (length (stripes_ s)) key) = Some st.
Proof.
  intros Hok Hn. apply lookup_lt_is_Some. rewrite (ok_stripes _ _ Hok).
  pose proof (Z.mod_pos_bound key (Z.of_nat (stripe_count o)) ltac:(lia)).
  unfold lane_of. destruct (isolate_ordering_keys o); simpl; lia.
Qed.

Definition turns s (c : Pc) (a : Answer) : Prop :=
  ∃ s' c' ch, thread_turn o s c a = Some (s', c') ∧ threads s' = threads s ∧
    turn o s c c' ch ∧ moved (rest s) (rest s') ch.

Hypothesis stripes_pos : (0 < stripe_count o)%nat.

Lemma PAdmit_turns s t a : exec_ok o s → turns s (PAdmit t) a.
Proof.
  intros Hok. unfold turns, thread_turn. pose proof (proj1 (ok_pool _ _ Hok)) as Hp.
  destruct (admission_ s) eqn:Hadm.
  { do 3 eexists. split_and!; [done|done|by apply turn_blocked|]. moved_by (others s). }
  unfold Admit. destruct (accepting_ s) eqn:Hacc; simpl.
  2: { do 3 eexists. split_and!; [done|done|by apply turn_refused; left|]. moved_by (others s). }
  unfold ReservePending. destruct (max_pending_tasks o <=? current_pending_tasks_ s)%nat eqn:Hm.
  { do 3 eexists. split_and!; [done|done|by apply turn_budget|]. moved_by (others s). }
  apply Nat.leb_gt in Hm. assert (admits o s) as Hadmits by done.
  destruct (ordering_key (spec t)) as [key|] eqn:Hkey.
  2: { unfold SubmitUnordered. cbn. destruct (submit_room s (JExecute t) Hok) as (p & -> & ? & ? & Hj).
       cbn. do 3 eexists. split_and!; [done|done|by apply turn_unordered|]. moved_fields.
       exists (others s). rewrite Hj, fmap_app. split; solve_Permutation. }
  unfold SubmitOrdered. cbn -[lane_of]. set (L := lane_of _ _ _).
  destruct (lane_of_stripe s key Hok stripes_pos) as [st Hst]. fold L in Hst. rewrite Hst.
  destruct (EnqueueLane o st L t) as [[st' need]|] eqn:He.
  2: { do 3 eexists. split_and!; [done|done|by apply turn_refused; right; left|].
       moved_by (others s). }
  destruct (EnqueueLane_spec _ _ _ _ _ _ _ Hst He) as (-> & Hls & Hroom).
  assert (has_room o (stripes_ s) L) as Hr.
  { destruct L; simpl in *; [|done]. by destruct (lane_active _ _). }
  destruct (lane_active (stripes_ s) L) eqn:Hact; simpl.
  - do 3 eexists. split_and!; [done|done|by eapply turn_join|]. moved_by (others s). done.
  - do 3 eexists. split_and!; [done|done|by eapply turn_first|]. moved_by (others s). done.
Qed.

Lemma PSchedule_turns s t L a : exec_ok o s → turns s (PSchedule t L) a.
Proof.
  intros Hok. unfold turns, thread_turn, Schedule.
  destruct (submit_room s (JDrain L false) Hok) as (p & -> & ? & ? & Hj). cbn.
  do 3 eexists. split_and!; [done|done|by apply turn_schedule|]. moved_fields.
  exists (others s). rewrite Hj, fmap_app. split; solve_Permutation.
Qed.

Lemma PRun_turns s t k a : exec_ok o s → turns s (PRun t k) a.
Proof.
  intros Hok. unfold turns, thread_turn, ExecuteTask. pose proof (proj1 (ok_pool _ _ Hok)) as Hp.
  destruct (bool_decide _ && DeadlineExpired _ _).
  { destruct (DispatchDeadlineTerminal_moved
      (gauge s (λ g, RecordQueueWait g (now a - enqueued_at t))) t a Hp)
      as (Ht & B & dp & dc & cs & He & Hm).
    do 3 eexists. split_and!; [done|by rewrite Ht|by apply (turn_expired _ _ _ _ B dp dc cs)|].
    by eapply moved_gauge. }
  destruct (bool_decide _ && has_still_valid _ && _).
  { do 3 eexists. split_and!; [done|done|by apply turn_cancelled|]. moved_by (others s). }
  destruct (has_async_work (spec t)) eqn:Has.
  - do 3 eexists. split_and!; [done|done|by apply turn_started|]. moved_fields.
    exists (others s). rewrite fmap_app. split; solve_Permutation.
  - do 3 eexists. split_and!; [done|done|by apply turn_working|]. moved_by (others s).
Qed.

Lemma PWork_turns s t k a : exec_ok o s → turns s (PWork t k) a.
Proof.
  intros Hok. unfold turns, thread_turn, FinishWork. pose proof (proj1 (ok_pool _ _ Hok)) as Hp.
  destruct (EndWork_moved (gauge s (λ g, end_active (RecordExecution g (elapsed a)))) t
    (result a) a Hp) as (Ht & B & dp & dc & cs & He & Hm).
  do 3 eexists. split_and!; [done|by rewrite Ht|by apply (turn_worked _ _ _ _ B dp dc cs)|].
  by eapply moved_gauge.
Qed.

Lemma PAsync_turns s t a : exec_ok o s → turns s (PAsync t) a.
Proof.
  intros Hok. unfold turns, thread_turn, ReturnAsync. pose proof (proj1 (ok_pool _ _ Hok)) as Hp.
  destruct (result a).
  2-3: do 3 eexists; split_and!; [done|done|by apply turn_returned|]; moved_by (others s).
  destruct (list_find _ _) as [[j x]|] eqn:Hf.
  - apply list_find_Some in Hf as (Hj & -> & _).
    do 3 eexists. split_and!; [done|done|by apply turn_threw|]. moved_fields.
    exists ((AJob <$> tp_jobs (pool_ s)) ++ (AOpen <$> delete j (open s)) ++
            (ADispatched <$> dispatched s)).
    rewrite (delete_Permutation _ _ _ Hj) at 1. cbn. split; solve_Permutation.
  - case_bool_decide.
    + do 3 eexists. split_and!; [done|done|by apply turn_waits|]. moved_by (others s).
    + do 3 eexists. split_and!; [done|done|by apply turn_returned|]. moved_by (others s).
Qed.

Lemma PLoop_turns s L a :
  exec_ok o s → lane_active (stripes_ s) L = true → turns s (PLoop L) a.
Proof.
  intros Hok Hact. unfold turns, thread_turn, DrainTurn. pose proof (proj1 (ok_pool _ _ Hok)) as Hp.
  destruct (active_stripe _ _ Hact) as [st Hst]. rewrite Hst.
  pose proof (PopLane_spec _ _ _ Hst Hact) as Hpop. destruct (PopLane st L) as [st' [t|]].
  - destruct Hpop as (q & Hq & Hls).
    do 3 eexists. split_and!; [done|done|by apply (turn_pop _ _ _ _ _ Hq)|]. moved_by (others s). done.
  - destruct Hpop as (Hq & Hls).
    do 3 eexists. split_and!; [done|done|by apply (turn_empty _ _ _ Hq)|]. moved_by (others s). done.
Qed.

(** [CompleteKeyTask] by the owner of the lane. *)
Lemma CompleteLane_key s i key p :
  exec_ok o s → p ∈ in_flight s → lane_hand p = Some (LKey i key) →
  ∃ st', CompleteLane s (LKey i key) =
      Some (set_stripes s (<[i := st']> (stripes_ s)),
            match lane_queue (stripes_ s) (LKey i key) with [] => false | _ :: _ => true end) ∧
    lane_set (stripes_ s) (<[i := st']> (stripes_ s)) (LKey i key)
      (lane_queue (stripes_ s) (LKey i key))
      (match lane_queue (stripes_ s) (LKey i key) with [] => false | _ :: _ => true end) (-1).
Proof.
  intros Hok Hp Hh.
  assert (lane_active (stripes_ s) (LKey i key) = true) as Hact.
  { eapply owner_active; [done..|]. unfold w_token. rewrite Hh. cbn [on].
    rewrite bool_decide_true by done. pose proof (on_range (LKey i key) (lane_drain p)).
    pose proof (on_range (LKey i key) (lane_loop p)). simpl. lia. }
  assert (0 < slots (stripes_ s) i) as Hs.
  { eapply hand_slot; [done..|]. unfold w_key. rewrite Hh. simpl. by rewrite bool_decide_true. }
  destruct (active_stripe _ _ Hact) as [st Hst]. simpl in Hst.
  destruct (CompleteKeyTask_spec _ _ _ _ Hst Hact Hs) as (st' & E & Hls).
  exists st'. split; [|done]. simpl. rewrite Hst. simpl. by rewrite E.
Qed.

Lemma PComplete_turns s L a b :
  exec_ok o s → AThread (MkThread (PComplete L) b) ∈ in_flight s → turns s (PComplete L) a.
Proof.
  intros Hok Hin. unfold turns, thread_turn. pose proof (proj1 (ok_pool _ _ Hok)) as Hp.
  destruct L as [i|i key].
  { do 3 eexists. split_and!; [done|done|by apply turn_complete_stripe|]. moved_by (others s). }
  destruct (CompleteLane_key s i key _ Hok Hin) as (st' & -> & Hls); [done|]. cbn.
  destruct (lane_queue _ _) as [|t q] eqn:Hq.
  - do 3 eexists. split_and!; [done|done|by apply turn_complete_last|]. moved_by (others s). done.
  - do 3 eexists. split_and!; [done|done|by apply (turn_complete_more _ _ _ _ _ _ Hq)|].
    moved_by (others s). done.
Qed.

Lemma PFinish_turns s t r a : exec_ok o s → turns s (PFinish t r) a.
Proof.
  intros Hok. unfold turns, thread_turn, FinishAsync. pose proof (proj1 (ok_pool _ _ Hok)) as Hp.
  destruct (EndWork_moved (count s async_finished_total_) t r a Hp)
    as (Ht & B & dp & dc & cs & He & Hm).
  do 3 eexists. split_and!; [done|by rewrite Ht|by apply (turn_finish _ _ _ _ B dp dc cs)|].
  by apply moved_count.
Qed.

(** [PostInternal] finds room. *)
Lemma PostInternal_room s j :
  exec_ok o s →
  ∃ p, PostInternal s j = Some (set_pool (set_internal s (S (pending_internal_jobs_ s))) p) ∧
       tp_ok p ∧ tp_capacity p = tp_capacity (pool_ s) ∧ tp_jobs p = tp_jobs (pool_ s) ++ [j].
Proof.
  intros Hok. unfold PostInternal. cbn. destruct (submit_room s j Hok) as (p & -> & Hp).
  by exists p.
Qed.

Lemma PFinishTail_turns s t a b :
  exec_ok o s → AThread (MkThread (PFinishTail t) b) ∈ in_flight s → turns s (PFinishTail t) a.
Proof.
  intros Hok Hin. unfold turns, thread_turn, FinishAsyncTail.
  pose proof (proj1 (ok_pool _ _ Hok)) as Hp. destruct (async_lane t) as [[i|i key]|] eqn:Ht; cbn.
  - destruct (PostInternal_room s (JDrain (LStripe i) true) Hok) as (p & -> & ? & ? & Hj). cbn.
    do 3 eexists. split_and!; [done|done|by apply turn_tail_stripe|]. moved_fields.
    exists (others s). rewrite Hj, fmap_app. split; solve_Permutation.
  - destruct (CompleteLane_key s i key _ Hok Hin) as (st' & E & Hls); [done|].
    unfold CompleteLane in E. rewrite E. cbn. destruct (lane_queue _ _) as [|t' q] eqn:Hq.
    + do 3 eexists. split_and!; [done|done|by apply (turn_tail_last _ _ _ i key)|].
      moved_by (others s). done.
    + unfold PostInternal. cbn. destruct (submit_room s (JDrain (LKey i key) true) Hok)
        as (p & -> & ? & ? & Hj). cbn.
      do 3 eexists. split_and!; [done|done|by apply (turn_tail_more _ _ _ i key _ _ Ht Hq)|].
      moved_fields; [|done]. exists (others s). rewrite Hj, fmap_app. split; solve_Permutation.
  - do 3 eexists. split_and!; [done|done|by apply turn_tail_unordered|]. moved_by (others s).
Qed.

(** Every thread can move. *)
Lemma thread_turns s th a : exec_ok o s → AThread th ∈ in_flight s → turns s (pc th) a.
Proof.
  intros Hok Hin. pose proof (proj1 (ok_pool _ _ Hok)) as Hp. destruct th as [[] b]; cbn [pc];
    eauto using PAdmit_turns, PSchedule_turns, PRun_turns, PWork_turns, PAsync_turns,
      PComplete_turns, PFinish_turns, PFinishTail_turns.
  - apply PLoop_turns; [done|]. eapply owner_active; [done..|]. simpl.
    by rewrite bool_decide_true.
  - do 3 eexists. split_and!; [done|done|by apply turn_finish_end|]. moved_by (others s).
  - unfold turns, thread_turn. destruct (result a); do 3 eexists.
    1: split_and!; [done|done|by apply turn_resumed; right; left|]; moved_by (others s).
    all: split_and!; [done|done|by apply turn_resumed; left|]; moved_by (others s).
  - do 3 eexists. split_and!; [done|done|by apply turn_end|]. moved_by (others s).
Qed.

(** ** Progress *)

(** Whether a step gets work done: a thread that does not wait, a worker that
    finds a job, a completion that runs, the end of asynchronous work. *)
Definition productive s (ev : Event) : bool :=
  match ev with
  | ESubmit _ _ | EPostResume _ | EBeginDrain => false
  | EThread i a =>
      match threads s !! i with
      | None => false
      | Some th =>
          match thread_turn o s (pc th) a with
          | None => false
          | Some (_, c') => moves_on (pc th) c'
          end
      end
  | ETake => match tp_take (pool_ s) with Some (_, Some _) => true | _ => false end
  | EDispatched i _ => match dispatched s !! i with Some _ => true | None => false end
  | EDone i _ => match open s !! i with Some (_, false) => true | _ => false end
  end.

Lemma in_flight_thread s i th : threads s !! i = Some th → AThread th ∈ in_flight s.
Proof.
  intros Hi. unfold in_flight, pieces. apply elem_of_app. left.
  apply list_elem_of_fmap_2. by eapply list_elem_of_lookup_2.
Qed.

(** A queued resume has its mark. *)
Lemma resume_marked s t js :
  exec_ok o s → tp_jobs (pool_ s) = JResume t :: js → (t, true) ∈ open s.
Proof.
  intros Hok Hj. pose proof (ok_resume _ _ Hok t) as Hr.
  assert (AJob (JResume t) ∈ in_flight s) as Hin.
  { unfold in_flight, pieces. rewrite Hj. cbn. rewrite !elem_of_app, elem_of_cons. tauto. }
  pose proof (lsum_elem_le _ _ _ (w_resume_nonneg t) Hin) as Hle. cbn [w_resume] in Hle.
  rewrite bool_decide_true in Hle by done. cbn [b2z] in Hle.
  destruct (lsum_pos (w_marked t) (in_flight s)) as (p & Hp & Hw);
    [auto with tinyimx|unfold weigh in *; lia|].
  unfold in_flight, pieces in Hp. rewrite !elem_of_app, !list_elem_of_fmap in Hp.
  destruct Hp as [(x & -> & Hx)|[(x & -> & Hx)|[(x & -> & Hx)|(x & -> & Hx)]]]; try done.
  destruct x as [t' []]; [|done]. cbn [w_marked] in Hw. by case_bool_decide; subst.
Qed.

Lemma ETake_move s :
  exec_ok o s → ∃ s' c, exec_step o s ETake = Some s' ∧ move o s (productive s ETake) c ∧ moved s s' c.
Proof.
  intros Hok. simpl. destruct (tp_take_ok (pool_ s) ltac:(apply Hok)) as (p & -> & Hp & Hc & Hj).
  cbn. destruct (tp_jobs (pool_ s)) as [|[t|L b|t] js] eqn:Hjobs; cbn in *.
  - do 2 eexists. split_and!; [done|apply move_idle|]. moved_fields.
    exists (in_flight s). unfold in_flight, pieces. rewrite Hjobs, Hj. split; done.
  - do 2 eexists. split_and!; [done|apply (move_execute _ _ t)|]. moved_fields.
    exists (pieces (threads s) js (open s) (dispatched s)). unfold pieces.
    rewrite Hjobs, Hj, fmap_app. cbn. split; solve_Permutation.
  - do 2 eexists. split_and!; [done|apply (move_drain _ _ L b)|]. moved_fields.
    exists (pieces (threads s) js (open s) (dispatched s)). unfold pieces.
    rewrite Hjobs, Hj, fmap_app. cbn. split; solve_Permutation.
  - pose proof (resume_marked s t js Hok Hjobs) as Hm.
    destruct (list_find (λ x, x = (t, true)) (open s)) as [[k x]|] eqn:Hf.
    2: { apply list_find_None in Hf. rewrite list.Forall_forall in Hf. by apply Hf in Hm. }
    apply list_find_Some in Hf as (Hk & -> & _).
    do 2 eexists. split_and!; [done|apply (move_resume _ _ t)|]. moved_fields.
    exists (pieces (threads s) js (delete k (open s)) (dispatched s)). unfold pieces.
    rewrite Hjobs, Hj, fmap_app, (insert_Permutation _ _ _ (t, false) Hk).
    rewrite (delete_Permutation _ _ _ Hk) at 1. cbn. split; solve_Permutation.
Qed.

Lemma RunDispatched_cases s t kind a :
  ∃ c, c ∈ match kind with
           | DCompletion => [completion_dropped_total_; completion_exception_total_; completed_total_]
           | DDeadline => [deadline_terminal_dropped_total_; deadline_terminal_exception_total_;
                           deadline_terminal_callback_total_]
           end ∧
    RunDispatched s t kind a =
    ReleasePending (set_completions (count s c) (pred (pending_completions_ s))).
Proof.
  unfold RunDispatched. destruct kind, (CompletionStillValid t a), (result a); simpl;
    (eexists; split; [|reflexivity]); set_solver.
Qed.

Lemma ESubmit_move s sp n :
  exec_ok o s → ∃ s' c, exec_step o s (ESubmit sp n) = Some s' ∧ move o s false c ∧ moved s s' c.
Proof.
  intros Hok. pose proof (proj1 (ok_pool _ _ Hok)) as Hp. simpl. unfold Submit.
  destruct (eqb (has_work sp) (has_async_work sp)).
  { do 2 eexists. split_and!; [done|by apply move_rejected; left|]. moved_by (in_flight s). }
  destruct (DeadlineExpired _ _).
  { do 2 eexists. split_and!; [done|by apply move_rejected; right; left|]. moved_by (in_flight s). }
  set (t := MkTask _ _ _ _).
  do 2 eexists. split_and!; [done|by apply (move_submitted _ _ t)|]. moved_fields.
  exists (in_flight s). unfold in_flight, pieces. cbn. rewrite fmap_app. split; solve_Permutation.
Qed.

(** Every step of the executor succeeds and is a move. *)
Lemma exec_step_move s ev :
  exec_ok o s → ∃ s' c, exec_step o s ev = Some s' ∧ move o s (productive s ev) c ∧ moved s s' c.
Proof.
  intros Hok. pose proof (proj1 (ok_pool _ _ Hok)) as Hp.
  destruct ev as [sp n|i a| |i a|i|i r|];
    [by apply ESubmit_move| |by apply ETake_move|..]; unfold exec_step, productive.
  - destruct (threads s !! i) as [th|] eqn:Hi.
    2: { do 2 eexists. split_and!; [done|apply move_idle|]. moved_by (in_flight s). }
    destruct (thread_turns s th a Hok (in_flight_thread s i th Hi))
      as (s' & c' & ch & -> & Ht & Hturn & Hm). cbn.
    do 2 eexists. split_and!; [done|by apply move_turn|]. by apply moved_turn.
  - destruct (dispatched s !! i) as [[t kind]|] eqn:Hi.
    2: { do 2 eexists. split_and!; [done|apply move_idle|]. moved_by (in_flight s). }
    destruct (RunDispatched_cases (set_dispatched s (delete i (dispatched s))) t kind a)
      as (c & Hc & E). rewrite E. do 2 eexists. split_and!; [done|by apply move_dispatched|].
    moved_fields. exists (pieces (threads s) (tp_jobs (pool_ s)) (open s) (delete i (dispatched s))).
    unfold pieces. rewrite (delete_Permutation _ _ _ Hi) at 1. cbn. split; solve_Permutation.
  - destruct (open s !! i) as [[t []]|] eqn:Hi.
    1,3: do 2 eexists; split_and!; [done|apply move_idle|]; moved_by (in_flight s).
    destruct (PostInternal_room s (JResume t) Hok) as (p & -> & ? & ? & Hj). cbn.
    do 2 eexists. split_and!; [done|apply (move_post _ _ t)|]. moved_fields.
    exists (pieces (threads s) (tp_jobs (pool_ s)) (delete i (open s)) (dispatched s)).
    unfold pieces. rewrite Hj, fmap_app, (insert_Permutation _ _ _ (t, true) Hi).
    rewrite (delete_Permutation _ _ _ Hi) at 1. cbn. split; solve_Permutation.
  - destruct (open s !! i) as [[t []]|] eqn:Hi.
    1,3: do 2 eexists; split_and!; [done|apply move_idle|]; moved_by (in_flight s).
    do 2 eexists. split_and!; [done|apply (move_done _ _ t r)|]. moved_fields.
    exists (pieces (threads s) (tp_jobs (pool_ s)) (delete i (open s)) (dispatched s)).
    unfold pieces. rewrite fmap_app. rewrite (delete_Permutation _ _ _ Hi) at 1. cbn.
    split; solve_Permutation.
  - do 2 eexists. split_and!; [done|apply move_idle|]. unfold BeginDrain.
    destruct (admission_ s) eqn:Ha; moved_by (in_flight s).
Qed.

End Safety.
