(* ===== verification/BusinessTheorems.v ===== *)
(** * The theorems of the ordered business executor

    Statements on every run of [BusinessExecutor.exec_run] from
    [BusinessExecutor.Start], whatever the interleaving of submitters, workers,
    completions and asynchronous work, over any pool that meets [TaskPoolLaws]. *)
From Stdlib Require Import ZArith Lia.
From stdpp Require Import base gmap list numbers.
From S2P Require Import Prelude CircularQueue MpmcBlockingQueue ThreadPool BusinessExecutor.
From S2P Require Import BusinessLanes BusinessMoves BusinessInvariant BusinessLedger.
From S2P Require Import BusinessExecutorSafety.
Local Open Scope Z_scope.

(** ** The work left *)

Definition w_work (p : Piece) : Z :=
  match p with
  | AThread th =>
      match pc th with
      | PAdmit _ => 16 | PSchedule _ _ => 4 | PRun _ _ => 12 | PWork _ _ => 5 | PAsync _ => 2
      | PLoop _ => 2 | PComplete _ => 3 | PFinish _ _ => 8 | PFinishTail _ => 6 | PFinishEnd => 2
      | PResume => 2 | PEnd => 1
      end
  | AJob (JExecute _) => 13
  | AJob (JDrain _ _) | AJob (JResume _) => 3
  | AOpen _ => 9
  | ADispatched _ => 1
  end.

Lemma w_work_pos p : 0 < w_work p.
Proof. destruct p as [[[]?]|[]| |]; simpl; lia. Qed.
Lemma w_work_nonneg p : 0 ≤ w_work p.
Proof. pose proof (w_work_pos p). lia. Qed.
#[export] Hint Resolve w_work_nonneg : tinyimx.

Section Runs.
Context {P : Type} `{HP : TaskPoolLaws P Job}.
Variable o : BusinessExecutorOptions.
Local Abbreviation Exec := (Executor P).
Implicit Types (s : Exec).

Definition work_left s : Z := weigh w_work s + 11 * queued (stripes_ s).

Lemma work_left_nonneg s : 0 ≤ work_left s.
Proof.
  pose proof (weigh_nonneg s w_work ltac:(auto with tinyimx)). pose proof (queued_nonneg (stripes_ s)).
  unfold work_left. lia.
Qed.

Lemma work_left_step s s' c :
  move o s true c → moved s s' c → work_left s' < work_left s.
Proof.
  intros Hmove Hmoved. unfold work_left.
  destruct (weigh_move s s' c w_work ltac:(auto with tinyimx) Hmoved) as (r & Hr & E1 & E2).
  pose proof (mv_lane _ _ _ Hmoved) as Hl. clear Hmoved.
  move_cases Hmove; try done; compute_change;
    try (rewrite Hl in *); try pose proof (ls_queued _ _ _ _ _ _ Hl);
    weigh_pieces; cbn [w_work pc] in *; lane_lengths; lia.
Qed.

(** ** Runs *)

Lemma fresh_lane n L :
  lane_queue (replicate n NewStripe) L = [] ∧ lane_active (replicate n NewStripe) L = false.
Proof.
  unfold lane_queue, lane_active. destruct (replicate _ _ !! _) as [st|] eqn:E; [|done].
  apply lookup_replicate in E as [-> _]. by destruct L.
Qed.

Lemma fresh_stripes n i :
  slots (replicate n NewStripe) i = 0 ∧ key_len (replicate n NewStripe) i = 0 ∧
  queued (replicate n NewStripe) = 0.
Proof.
  unfold slots, key_len. split_and!.
  1-2: destruct (replicate _ _ !! _) as [st|] eqn:E; [|done];
       by apply lookup_replicate in E as [-> _].
  unfold queued. induction n; simpl; [done|]. by rewrite lsum_cons, IHn.
Qed.

Lemma Start_ok s :
  Start o = Some s →
  (0 < worker_threads o)%nat ∧ (0 < stripe_count o)%nat ∧ exec_ok o s ∧ ledger s ∧
  accepting_ s = true.
Proof.
  unfold Start. intros Hs. destruct (_ || _) eqn:Hg in Hs; [done|]. simplify_eq.
  reflect_guards. repeat match goal with H : (_ =? _)%nat = false |- _ => apply Nat.eqb_neq in H end.
  assert ((2 ^ 64 - 1) / 4 = 2 ^ 62 - 1) as Hq4 by done. rewrite Hq4 in *.
  set (cap := _ + Z.of_nat (worker_threads o)).
  destruct (tp_new_ok (P:=P) (J:=Job) cap) as (Hp & Hj & Hc); [unfold cap; lia|].
  split_and!; [lia|lia| |by split; unfold weigh, in_flight; cbn; rewrite ?Hj|done].
  pose proof (λ L, proj1 (fresh_lane (stripe_count o) L)) as Hq.
  pose proof (λ L, proj2 (fresh_lane (stripe_count o) L)) as Ha.
  destruct (fresh_stripes (stripe_count o) 0) as (_ & _ & Hz).
  split; unfold weigh, in_flight, pieces; cbn -[Z.of_nat]; rewrite ?Hj; cbn;
    intros; rewrite ?Hq, ?Ha, ?Hz; try done; try lia.
  - apply length_replicate.
  - by destruct (fresh_stripes (stripe_count o) i) as (-> & -> & _).
  - destruct (fresh_stripes (stripe_count o) i) as (-> & _). lia.
  - rewrite lsum_nil. simpl. lia.
Qed.

Lemma exec_run_ok s evs :
  (0 < worker_threads o)%nat → (0 < stripe_count o)%nat → exec_ok o s → ledger s →
  ∃ s', exec_run o s evs = Some s' ∧ exec_ok o s' ∧ ledger s'.
Proof.
  intros Hw Hn. revert s. induction evs as [|ev evs IH]; intros s Hok Hlg; [by exists s|].
  destruct (exec_step_move o Hw Hn s ev Hok) as (s1 & c & E & Hmove & Hmoved).
  destruct (IH s1) as (s' & Hr & Hs'); [by eapply exec_ok_step|by eapply ledger_step|].
  exists s'. split; [|done]. unfold exec_run in *. simpl. by rewrite E.
Qed.

Lemma reachable_ok s0 s evs :
  Start o = Some s0 → exec_run o s0 evs = Some s →
  (0 < worker_threads o)%nat ∧ (0 < stripe_count o)%nat ∧ exec_ok o s ∧ ledger s.
Proof.
  intros Hs Hr. destruct (Start_ok _ Hs) as (? & ? & ? & ? & _).
  destruct (exec_run_ok s0 evs) as (s' & Hr' & ?); [done..|]. by rewrite Hr in Hr'; simplify_eq.
Qed.

(** ** Quiet states *)

(** No task is left, in the queues or in flight. *)
Definition quiet s : Prop :=
  weigh w_pending s = 0 ∧ weigh w_completions s = 0 ∧ weigh w_async s = 0 ∧
  weigh w_internal s = 0 ∧ queued (stripes_ s) = 0.

Lemma drained_quiet s : exec_ok o s → drained s = true ↔ quiet s.
Proof.
  intros Hok. unfold drained, quiet. rewrite !andb_true_iff, !Nat.eqb_eq.
  pose proof (ok_pending _ _ Hok). pose proof (ok_completions _ _ Hok).
  pose proof (ok_async _ _ Hok). pose proof (ok_internal _ _ Hok).
  pose proof (weigh_nonneg s w_pending ltac:(auto with tinyimx)).
  pose proof (queued_nonneg (stripes_ s)). lia.
Qed.

Lemma quiet_step s s' pb c :
  accepting_ s = false → quiet s → move o s pb c → moved s s' c → quiet s'.
Proof.
  intros Hacc (Q1 & Q2 & Q3 & Q4 & Q5) Hmove Hmoved. unfold quiet.
  destruct (weigh_move s s' c w_pending ltac:(auto with tinyimx) Hmoved) as (r1 & R1 & A1 & B1).
  destruct (weigh_move s s' c w_completions ltac:(auto with tinyimx) Hmoved) as (r2 & R2 & A2 & B2).
  destruct (weigh_move s s' c w_async ltac:(auto with tinyimx) Hmoved) as (r3 & R3 & A3 & B3).
  destruct (weigh_move s s' c w_internal ltac:(auto with tinyimx) Hmoved) as (r4 & R4 & A4 & B4).
  pose proof (mv_lane _ _ _ Hmoved) as Hl. pose proof (queued_nonneg (stripes_ s')).
  clear Hmoved. move_cases Hmove; compute_change;
    try match goal with Ha : admits _ _ |- _ => destruct Ha as (_ & Ha & _); congruence end;
    try (rewrite Hl in *); try pose proof (ls_queued _ _ _ _ _ _ Hl);
    weigh_pieces; lane_lengths;
    repeat match goal with b : bool |- _ => pose proof (b2z_range b); generalize dependent (b2z b); clear b; intros end;
    lia.
Qed.

Lemma quiet_run s s' evs :
  (0 < worker_threads o)%nat → (0 < stripe_count o)%nat → exec_ok o s →
  accepting_ s = false → quiet s → exec_run o s evs = Some s' →
  exec_ok o s' ∧ accepting_ s' = false ∧ quiet s'.
Proof.
  intros Hw Hn. revert s. induction evs as [|ev evs IH]; intros s Hok Ha Hq Hr.
  { unfold exec_run in Hr. simpl in Hr. by simplify_eq. }
  destruct (exec_step_move o Hw Hn s ev Hok) as (s1 & c & E & Hmove & Hmoved).
  unfold exec_run in Hr. simpl in Hr. rewrite E in Hr. simpl in Hr.
  apply (IH s1); [by eapply exec_ok_step| |by eapply quiet_step|done].
  destruct (accepting_ s1) eqn:Ha1; [|done]. by rewrite (mv_accepting _ _ _ Hmoved Ha1) in Ha.
Qed.

Lemma weigh_zero s w : (∀ p, 0 ≤ w p) → weigh w s = 0 → ∀ p, p ∈ in_flight s → w p = 0.
Proof.
  intros Hw H0 p Hp. pose proof (lsum_elem_le w _ _ Hw Hp). specialize (Hw p).
  unfold weigh in H0. lia.
Qed.

Lemma queued_zero ss : queued ss = 0 ↔ ∀ L, lane_queue ss L = [].
Proof.
  rewrite <-length_queued_lanes. split.
  - intros H0 L. destruct (lane_queue ss L) eqn:E; [done|].
    assert (L ∈ queued_lanes ss) as HL by (apply elem_of_queued_lanes; by rewrite E).
    destruct (queued_lanes ss); [by apply not_elem_of_nil in HL|simpl in H0; lia].
  - intros HL. destruct (queued_lanes ss) as [|L l] eqn:E; [done|].
    assert (L ∈ queued_lanes ss) as HL' by (rewrite E; left).
    apply elem_of_queued_lanes in HL'. by rewrite HL in HL'.
Qed.

Definition quick : Answer := MkAnswer 0 true true true WNone 0.

(** Only the admission mutex can stop a thread. *)
Lemma stuck_thread s i th :
  (0 < worker_threads o)%nat → (0 < stripe_count o)%nat → exec_ok o s →
  threads s !! i = Some th → productive o s (EThread i quick) = false → admission_ s = true.
Proof.
  intros Hw Hn Hok Hi. unfold productive. rewrite Hi.
  destruct (thread_turns o Hw Hn s th quick Hok (in_flight_thread s i th Hi))
    as (s' & c' & ch & E & _ & Hturn & _).
  rewrite E. destruct th as [c b]; cbn [pc] in *. inversion Hturn; subst; try done.
Qed.

Lemma stuck_threads s :
  (0 < worker_threads o)%nat → (0 < stripe_count o)%nat → exec_ok o s →
  (∀ ev, productive o s ev = false) → threads s = [].
Proof.
  intros Hw Hn Hok Hstuck. destruct (threads s) as [|th l] eqn:Ht; [done|]. exfalso.
  assert (admission_ s = true) as Ha by (apply (stuck_thread s 0 th); auto; by rewrite Ht).
  pose proof (ok_admission _ _ Hok) as Hadm. rewrite Ha in Hadm. unfold weigh in Hadm. simpl in Hadm.
  destruct (lsum_pos w_admission (in_flight s)) as (p & Hp & Hpos); [auto with tinyimx|lia|].
  unfold in_flight, pieces in Hp. rewrite !elem_of_app, !list_elem_of_fmap in Hp.
  destruct Hp as [(x & -> & Hx)|[(x & -> & _)|[(x & -> & _)|(x & -> & _)]]]; try done.
  apply list_elem_of_lookup in Hx as [i Hi]. pose proof (Hstuck (EThread i quick)) as Hp.
  unfold productive in Hp. rewrite Hi in Hp. destruct x as [[] b]; try done. cbn [pc] in Hp.
  destruct (PSchedule_turns o Hw Hn s t L quick Hok) as (? & ? & ? & E & _). by rewrite E in Hp.
Qed.

(** Where no step gets work done, none is left. *)
Lemma stuck_idle s :
  (0 < worker_threads o)%nat → (0 < stripe_count o)%nat → exec_ok o s →
  (∀ ev, productive o s ev = false) → in_flight s = [] ∧ ∀ L, lane_queue (stripes_ s) L = [].
Proof.
  intros Hw Hn Hok Hstuck.
  assert (tp_jobs (pool_ s) = []) as Hj.
  { specialize (Hstuck ETake). simpl in Hstuck.
    destruct (tp_take_ok (pool_ s) ltac:(apply Hok)) as (p & E & _). rewrite E in Hstuck.
    by destruct (tp_jobs (pool_ s)). }
  assert (dispatched s = []) as Hd.
  { specialize (Hstuck (EDispatched 0 (MkAnswer 0 true true true WNone 0))). simpl in Hstuck.
    by destruct (dispatched s). }
  assert (open s = []) as Ho.
  { destruct (open s) as [|[t []] l] eqn:E; [done| |].
    - pose proof (ok_resume _ _ Hok t) as Hr.
      assert (AOpen (t, true) ∈ in_flight s) as Hin.
      { unfold in_flight, pieces. rewrite E. cbn. rewrite !elem_of_app, !elem_of_cons. tauto. }
      pose proof (lsum_elem_le _ _ _ (w_marked_nonneg t) Hin) as Hle. cbn [w_marked] in Hle.
      rewrite bool_decide_true in Hle by done. cbn [b2z] in Hle. unfold weigh in Hr.
      destruct (lsum_pos (w_resume t) (in_flight s)) as (p & Hp & Hpos);
        [auto with tinyimx|lia|].
      unfold in_flight, pieces in Hp. rewrite Hj, !elem_of_app, !list_elem_of_fmap in Hp.
      destruct Hp as [(x & -> & _)|[Hx|[(x & -> & _)|(x & -> & _)]]]; try done.
      destruct Hx as (x & _ & Hx). by apply not_elem_of_nil in Hx.
    - specialize (Hstuck (EDone 0 WNone)). simpl in Hstuck. by rewrite E in Hstuck. }
  pose proof (stuck_threads s Hw Hn Hok Hstuck) as Ht.
  assert (in_flight s = []) as Hf by (unfold in_flight, pieces; by rewrite Ht, Hj, Ho, Hd).
  split; [done|]. intros L. destruct (lane_active (stripes_ s) L) eqn:Ha; [|by apply (ok_idle _ _ Hok)].
  pose proof (ok_token _ _ Hok L) as Htk. unfold weigh in Htk. rewrite Hf, Ha in Htk. done.
Qed.

(** ** Theorems *)

(** C30: tasks of a key are serial and first-in first-out.  Whatever the
    interleaving, in every lane (the stripe of a key, or with isolated keys the
    key itself) the tasks were taken in the order in which they were queued and
    the rest of that sequence is what is queued; at most one task of the lane is
    in hand, running or suspended in asynchronous work; a lane with queued tasks
    has exactly one drainer, so no task is stranded; and a task is queued in the
    lane of its own key. *)
Theorem business_lane_order s0 s evs :
  Start o = Some s0 → exec_run o s0 evs = Some s →
  ∀ L,
    lane_log L (enqueued s) = lane_log L (popped s) ++ lane_queue (stripes_ s) L ∧
    weigh (w_hand L) s ≤ 1 ∧
    (lane_queue (stripes_ s) L ≠ [] → weigh (w_token L) s = 1) ∧
    (∀ t, (L, t) ∈ enqueued s →
      ∃ key, ordering_key (spec t) = Some key ∧ L = lane_of o (stripe_count o) key).
Proof.
  intros Hs Hr. destruct (reachable_ok _ _ _ Hs Hr) as (_ & _ & Hok & _). intros L.
  pose proof (weigh_token_le o s L Hok) as Ht. rewrite weigh_token, weigh_run in Ht.
  pose proof (weigh_nonneg s (w_drain L) ltac:(auto with tinyimx)).
  pose proof (weigh_nonneg s (w_loop L) ltac:(auto with tinyimx)).
  split_and!; [apply Hok|lia| |].
  - intros Hq. rewrite (ok_token _ _ Hok L). destruct (lane_active _ _) eqn:Ha; [done|].
    by apply (ok_idle _ _ Hok) in Ha.
  - intros t Ht'. pose proof (ok_lanes _ _ Hok) as HL. rewrite list.Forall_forall in HL.
    by apply HL in Ht'.
Qed.

(** C32: every submission is accounted for.  Each task handed to [Submit] is
    counted as refused for one reason or accepted, or still is on its way
    through [Submit]; each accepted task is counted under one outcome (completed,
    dropped, expired, cancelled, failed) or is in a queue or in flight; and
    [current_pending_tasks_] is the number of the tasks queued or in flight, so
    no slot is leaked or released twice. *)
Theorem business_accounting s0 s evs :
  Start o = Some s0 → exec_run o s0 evs = Some s →
  ledger s ∧ Z.of_nat (current_pending_tasks_ s) = weigh w_pending s + queued (stripes_ s).
Proof.
  intros Hs Hr. destruct (reachable_ok _ _ _ Hs Hr) as (_ & _ & Hok & Hl).
  by split; [|apply (ok_pending _ _ Hok)].
Qed.

(** C31: budgets.  Every run goes through: no [std::logic_error] is thrown, and
    the queue of the pool always has room, so that neither a submission nor the
    continuation of an accepted task is ever refused by it; the pending tasks
    stay within [max_pending_tasks] and the tasks of a stripe, the one in hand
    included, within [per_stripe_queue_capacity]. *)
Theorem business_within_budgets s0 evs :
  Start o = Some s0 →
  ∃ s, exec_run o s0 evs = Some s ∧
    Z.of_nat (length (tp_jobs (pool_ s))) < tp_capacity (pool_ s) ∧
    counters s rejected_pool_submission_total_ = 0%nat ∧
    (current_pending_tasks_ s ≤ max_pending_tasks o)%nat ∧
    ∀ i, slots (stripes_ s) i ≤ Z.of_nat (per_stripe_queue_capacity o) ∧
         Z.of_nat (length (lane_queue (stripes_ s) (LStripe i))) + weigh (w_hand (LStripe i)) s ≤
         Z.of_nat (per_stripe_queue_capacity o).
Proof.
  intros Hs. destruct (Start_ok _ Hs) as (Hw & Hn & Hok & Hlg & _).
  destruct (exec_run_ok s0 evs Hw Hn Hok Hlg) as (s & Hr & Hok' & Hlg').
  exists s. pose proof (lg_pool _ Hlg') as Hpool. unfold tally in Hpool.
  split_and!; [done|by eapply pool_has_room|lia|apply Hok'|].
  intros i. split; [apply (ok_key_capacity _ _ Hok')|apply (ok_stripe_capacity _ _ Hok')].
Qed.

(** C33: the fence of [ShutdownGraceful].  Once the executor stopped accepting and
    the condition it waits for holds, the condition holds for ever, whatever
    threads still do: no completion, resume or task is left anywhere, and the
    only jobs in the pool are drainers of empty stripes, so the dependencies of
    the tasks can be destroyed. *)
Theorem business_drain_fence s0 s s' evs evs' :
  Start o = Some s0 → exec_run o s0 evs = Some s →
  accepting_ s = false → drained s = true → exec_run o s evs' = Some s' →
  drained s' = true ∧ accepting_ s' = false ∧ open s' = [] ∧ dispatched s' = [] ∧
  (∀ L, lane_queue (stripes_ s') L = []) ∧
  (∀ th, th ∈ threads s' → w_pending (AThread th) = 0) ∧
  (∀ j, j ∈ tp_jobs (pool_ s') → ∃ i, j = JDrain (LStripe i) false).
Proof.
  intros Hs Hr Hacc Hd Hr'. destruct (reachable_ok _ _ _ Hs Hr) as (Hw & Hn & Hok & _).
  destruct (quiet_run s s' evs' Hw Hn Hok Hacc (proj1 (drained_quiet s Hok) Hd) Hr')
    as (Hok' & Hacc' & Hq).
  split_and!; [by apply drained_quiet|done|..].
  all: destruct Hq as (Q1 & Q2 & Q3 & Q4 & Q5).
  all: rewrite queued_zero in Q5.
  all: pose proof (weigh_zero s' w_pending ltac:(auto with tinyimx) Q1) as Z1.
  - destruct (open s') as [|x l] eqn:E; [done|]. assert (w_pending (AOpen x) = 0) as Hx; [|done].
    apply Z1. unfold in_flight, pieces. rewrite E. set_solver.
  - destruct (dispatched s') as [|x l] eqn:E; [done|].
    assert (w_pending (ADispatched x) = 0) as Hx; [|done].
    apply Z1. unfold in_flight, pieces. rewrite E. set_solver.
  - done.
  - intros th Hth. apply Z1. unfold in_flight, pieces. set_solver.
  - intros j Hj. assert (AJob j ∈ in_flight s') as Hin by (unfold in_flight, pieces; set_solver).
    pose proof (Z1 _ Hin) as Hp. pose proof (weigh_zero s' _ w_internal_nonneg Q4 _ Hin) as Hi.
    destruct j as [t|L []|t]; try done. destruct L as [i|i key]; [by exists i|].
    pose proof (ok_drain _ _ Hok' i key) as Hdr. rewrite Q5 in Hdr.
    pose proof (lsum_elem_le _ _ _ (w_drain_nonneg (LKey i key)) Hin) as Hle.
    unfold weigh in Hdr. cbn in Hle, Hdr. rewrite bool_decide_true in Hle by done.
    cbn in Hle. lia.
Qed.

Fixpoint productive_run s (evs : list Event) : bool :=
  match evs with
  | [] => true
  | ev :: evs' =>
      productive o s ev &&
      match exec_step o s ev with Some s' => productive_run s' evs' | None => false end
  end.

Lemma productive_bound s evs :
  (0 < worker_threads o)%nat → (0 < stripe_count o)%nat → exec_ok o s →
  productive_run s evs = true → Z.of_nat (length evs) ≤ work_left s.
Proof.
  intros Hw Hn. revert s. induction evs as [|ev evs IH]; intros s Hok; [intros; apply work_left_nonneg|].
  destruct (exec_step_move o Hw Hn s ev Hok) as (s1 & c & E & Hmove & Hmoved). simpl.
  rewrite E. intros [Hp Hr]%andb_true_iff. rewrite Hp in Hmove.
  pose proof (work_left_step s s1 c Hmove Hmoved). apply IH in Hr; [lia|by eapply exec_ok_step].
Qed.

(** C34: accepted work terminates.  From every reachable state a run of
    productive steps (all but new submissions, resumes that asynchronous work
    asks for, and turns that wait for the admission mutex) is bounded by the work left,
    and where no step is productive the executor is drained: nothing is in
    flight, and every task that was queued was taken. *)
Theorem business_drains s0 s evs :
  Start o = Some s0 → exec_run o s0 evs = Some s →
  (∀ evs', productive_run s evs' = true → Z.of_nat (length evs') ≤ work_left s) ∧
  ((∀ ev, productive o s ev = false) →
    drained s = true ∧ in_flight s = [] ∧
    ∀ L, lane_log L (popped s) = lane_log L (enqueued s)).
Proof.
  intros Hs Hr. destruct (reachable_ok _ _ _ Hs Hr) as (Hw & Hn & Hok & _).
  split; [intros evs'; by apply productive_bound|]. intros Hstuck.
  destruct (stuck_idle s Hw Hn Hok Hstuck) as [Hf HL].
  split_and!; [|done|].
  - apply drained_quiet; [done|]. unfold quiet, weigh. rewrite Hf.
    split_and!; [done..|by apply queued_zero].
  - intros L. by rewrite (ok_fifo _ _ Hok L), HL, app_nil_r.
Qed.

End Runs.

(** ** A sample run

    Over the pool of [ThreadPool]: an asynchronous task and a synchronous one
    with the same key, with isolated keys. *)

Section Sample.
Local Instance sample_pool : TaskPool (Pool.ThreadPool (CircularQueue Job) Job) Job :=
  Pool.Pool_tasks (JDrain (LStripe 0) false).
Local Instance sample_laws : TaskPoolLaws (Pool.ThreadPool (CircularQueue Job) Job) Job :=
  Pool.Pool_laws (JDrain (LStripe 0) false).

Definition sample_options : BusinessExecutorOptions := MkOptions 2 4 2 3 100 100 true.
Definition sample_start : Executor (Pool.ThreadPool (CircularQueue Job) Job) :=
  match Start sample_options with
  | Some s => s
  | None => MkExecutor false false [] (tp_new 1) (λ _, 0%nat) NewGauges 0 0 0 0 [] [] [] 0 [] []
  end.
Definition async_spec : TaskSpec :=
  MkTaskSpec (Some 5) 0 0 kMustRun false false false true true false.
Definition work_spec : TaskSpec :=
  MkTaskSpec (Some 5) 0 0 kMustRun false false true false true false.

(** Both tasks are accepted, the first is started and runs on. *)
Definition sample_first : list Event :=
  [ESubmit async_spec 1; EThread 0 quick; EThread 0 quick; ESubmit work_spec 2; EThread 0 quick;
   ETake] ++ replicate 4 (EThread 0 quick).
(** It ends, which lets the second one run. *)
Definition sample_rest : list Event :=
  [EDone 0 WNone] ++ replicate 4 (EThread 0 quick) ++ [ETake] ++ replicate 5 (EThread 0 quick).

Lemma sample_starts : Start sample_options = Some sample_start.
Proof. reflexivity. Qed.

Lemma sample_reaches evs : ∃ s, exec_run sample_options sample_start evs = Some s.
Proof.
  destruct (Start_ok _ _ sample_starts) as (Hw & Hn & Hok & Hlg & _).
  destruct (exec_run_ok sample_options sample_start evs Hw Hn Hok Hlg) as (s & Hr & _). by exists s.
Qed.

Lemma sample_evaluates {A} (f : Executor (Pool.ThreadPool (CircularQueue Job) Job) → A) s evs x :
  exec_run sample_options sample_start evs = Some s →
  f <$> exec_run sample_options sample_start evs = Some x → f s = x.
Proof. intros ->. simpl. congruence. Qed.

Lemma business_lane_order_witness :
  ∃ s, exec_run sample_options sample_start sample_first = Some s ∧
    task_id <$> lane_log (LKey 1 5) (enqueued s) = [0; 1] ∧
    task_id <$> lane_log (LKey 1 5) (popped s) = [0] ∧
    weigh (w_hand (LKey 1 5)) s = 1 ∧ weigh (w_token (LKey 1 5)) s = 1.
Proof.
  destruct (sample_reaches sample_first) as (s & Hr).
  destruct (business_lane_order sample_options sample_start s sample_first sample_starts Hr
    (LKey 1 5)) as (_ & _ & Ht & _).
  exists s. split; [exact Hr|].
  split; [apply (sample_evaluates (λ s, task_id <$> lane_log (LKey 1 5) (enqueued s)) _ _ _ Hr);
    vm_compute; reflexivity|].
  split; [apply (sample_evaluates (λ s, task_id <$> lane_log (LKey 1 5) (popped s)) _ _ _ Hr);
    vm_compute; reflexivity|].
  split; [apply (sample_evaluates (λ s, weigh (w_hand (LKey 1 5)) s) _ _ _ Hr);
    vm_compute; reflexivity|].
  apply Ht. intros E.
  assert (length (lane_queue (stripes_ s) (LKey 1 5)) = 1%nat) as E'
    by (apply (sample_evaluates (λ s, length (lane_queue (stripes_ s) (LKey 1 5))) _ _ _ Hr);
        vm_compute; reflexivity).
  rewrite E in E'. discriminate.
Defined.

Lemma business_accounting_witness :
  ∃ s, exec_run sample_options sample_start sample_first = Some s ∧
    current_pending_tasks_ s = 2%nat ∧ weigh w_pending s + queued (stripes_ s) = 2.
Proof.
  destruct (sample_reaches sample_first) as (s & Hr).
  destruct (business_accounting sample_options sample_start s sample_first sample_starts Hr)
    as [_ Hp].
  assert (current_pending_tasks_ s = 2%nat) as E
    by (apply (sample_evaluates current_pending_tasks_ _ _ _ Hr); vm_compute; reflexivity).
  exists s. split; [exact Hr|]. split; [exact E|]. rewrite <-Hp, E. reflexivity.
Defined.

Lemma business_within_budgets_witness :
  ∃ s, exec_run sample_options sample_start (sample_first ++ sample_rest) = Some s ∧
    counters s completed_total_ = 2%nat ∧ counters s rejected_pool_submission_total_ = 0%nat.
Proof.
  destruct (business_within_budgets sample_options sample_start (sample_first ++ sample_rest)
    sample_starts) as (s & Hr & _ & Hp & _).
  exists s. split; [exact Hr|]. split; [|exact Hp].
  apply (sample_evaluates (λ s, counters s completed_total_) _ _ _ Hr). vm_compute. reflexivity.
Defined.

Lemma business_drain_fence_witness :
  ∃ s s', exec_run sample_options sample_start (sample_first ++ sample_rest ++ [EBeginDrain]) = Some s ∧
    exec_run sample_options s [ESubmit work_spec 3; EThread 0 quick] = Some s' ∧
    drained s' = true ∧ counters s' rejected_shutdown_total_ = 1%nat.
Proof.
  destruct (sample_reaches (sample_first ++ sample_rest ++ [EBeginDrain])) as (s & Hr).
  destruct (sample_reaches ((sample_first ++ sample_rest ++ [EBeginDrain]) ++ [ESubmit work_spec 3; EThread 0 quick])) as (s' & Hr').
  assert (exec_run sample_options s [ESubmit work_spec 3; EThread 0 quick] = Some s') as Hr2.
  { rewrite <-Hr'. unfold exec_run in *. rewrite run_app, Hr. reflexivity. }
  exists s, s'. split; [exact Hr|]. split; [exact Hr2|].
  destruct (business_drain_fence sample_options sample_start s s' _
    [ESubmit work_spec 3; EThread 0 quick] sample_starts Hr) as [Hd _].
  - apply (sample_evaluates accepting_ _ _ _ Hr). vm_compute. reflexivity.
  - apply (sample_evaluates drained _ _ _ Hr). vm_compute. reflexivity.
  - exact Hr2.
  - split; [exact Hd|].
    apply (sample_evaluates (λ s, counters s rejected_shutdown_total_) _ _ _ Hr').
    vm_compute. reflexivity.
Defined.

Lemma business_drains_witness :
  ∃ s, exec_run sample_options sample_start sample_first = Some s ∧
    productive_run sample_options s sample_rest = true ∧
    Z.of_nat (length sample_rest) ≤ work_left s.
Proof.
  destruct (sample_reaches sample_first) as (s & Hr).
  destruct (business_drains sample_options sample_start s sample_first sample_starts Hr) as [Hb _].
  exists s. split; [exact Hr|].
  assert (productive_run sample_options s sample_rest = true) as E.
  { apply (sample_evaluates (λ s, productive_run sample_options s sample_rest) _ _ _ Hr).
    vm_compute. reflexivity. }
  split; [exact E|]. exact (Hb sample_rest E).
Defined.

End Sample.
