(* ===== verification/BusinessCoroutine.v ===== *)
(** * The runner of business coroutines

    Models [src/gateway/business/BusinessCoroutine.h]: the coroutine that an
    asynchronous business task runs as.  A handle is a number.  What the body
    does when it is resumed is an argument of the step: it suspends for an RPC,
    it ends, or something throws.  The RPC that a suspension waits for calls
    [Request] once, from any thread, possibly before [resume] has returned.
    [None] is the [std::logic_error] of [Request].

    The theorem is what [BusinessExecutor] relies on: at most one resume of a
    task is queued, and the task does not report its end while one is. *)
From Stdlib Require Import ZArith Lia.
From stdpp Require Import base list numbers.
From S2P Require Import Prelude.

(** How one [resume] ends: suspended with the handle the RPC will resume, the
    root frame is done, or [around_] or the body threw; in the last case the
    body may have been suspended by then. *)
Inductive Resumed := Suspends (next : nat) | RootDone (failed : bool) | Throws (next : option nat).

(** The thread inside [Run]. *)
Inductive RunPc :=
| RResume (h : nat)                (* about to resume [h] *)
| RAfter                           (* resumed and suspended *)
| REnd (failed : bool)             (* resumed: done or an error *)
| RDone (failed : bool).           (* about to call [done] *)

Record Runner := MkRunner {
  ready_ : option nat;
  running_ : bool;
  scheduled_ : bool;
  finished_ : bool;
  runs : list RunPc;          (* the threads inside [Run] *)
  awaiting : option nat;      (* the handle whose RPC has not called [Request] yet *)
  posting : nat;              (* the threads inside [Request] that are to call [post_] *)
  posted : nat;               (* the jobs given to [post_] that have not started *)
  dones : list bool;          (* the calls of [done], with whether there was an error *)
}.

(** [Start]. *)
Definition Start (root : nat) : Runner :=
  MkRunner None true false false [RResume root] None 0 0 [].

(** [Request] up to the call of [post_]. *)
Definition Request (r : Runner) (h : nat) : option Runner :=
  if finished_ r then
    Some (MkRunner (ready_ r) (running_ r) (scheduled_ r) true (runs r) None (posting r) (posted r)
            (dones r))
  else match ready_ r with
  | Some _ => None
  | None =>
      if running_ r || scheduled_ r then
        Some (MkRunner (Some h) (running_ r) (scheduled_ r) false (runs r) None (posting r)
                (posted r) (dones r))
      else
        Some (MkRunner (Some h) false true false (runs r) None (S (posting r)) (posted r) (dones r))
  end.

(** The posted job up to [Run]; an empty handle would be undefined behaviour. *)
Definition RunPosted (r : Runner) : option Runner :=
  match ready_ r with
  | None => None
  | Some h =>
      Some (MkRunner None true false (finished_ r) (runs r ++ [RResume h]) (awaiting r) (posting r)
              (pred (posted r)) (dones r))
  end.

(** One step of [Run]; [x] is what the resumed frame does. *)
Definition RunStep (r : Runner) (i : nat) (x : Resumed) : Runner :=
  match runs r !! i with
  | None => r
  | Some (RResume h) =>
      let '(c, w) := match x with
                     | Suspends n => (RAfter, Some n)
                     | RootDone failed => (REnd failed, None)
                     | Throws w => (REnd true, w)
                     end in
      MkRunner (ready_ r) (running_ r) (scheduled_ r) (finished_ r) (<[i := c]> (runs r)) w
        (posting r) (posted r) (dones r)
  | Some RAfter =>
      match ready_ r with
      | Some h =>
          MkRunner None (running_ r) (scheduled_ r) (finished_ r) (<[i := RResume h]> (runs r))
            (awaiting r) (posting r) (posted r) (dones r)
      | None =>
          MkRunner None false (scheduled_ r) (finished_ r) (delete i (runs r))
            (awaiting r) (posting r) (posted r) (dones r)
      end
  | Some (REnd failed) =>
      MkRunner None false (scheduled_ r) true (<[i := RDone failed]> (runs r))
        (awaiting r) (posting r) (posted r) (dones r)
  | Some (RDone failed) =>
      MkRunner (ready_ r) (running_ r) (scheduled_ r) (finished_ r) (delete i (runs r))
        (awaiting r) (posting r) (posted r) (dones r ++ [failed])
  end.

Inductive RunnerEvent :=
| ERun (i : nat) (x : Resumed)   (* a thread inside [Run] moves *)
| ERequest                       (* the awaited RPC calls back *)
| EPost                          (* a thread inside [Request] calls [post_] *)
| EPosted.                       (* a posted job starts *)

Definition runner_step (r : Runner) (ev : RunnerEvent) : option Runner :=
  match ev with
  | ERun i x => Some (RunStep r i x)
  | ERequest => match awaiting r with Some h => Request r h | None => Some r end
  | EPost =>
      Some (match posting r with
            | 0 => r
            | S n => MkRunner (ready_ r) (running_ r) (scheduled_ r) (finished_ r) (runs r)
                       (awaiting r) n (S (posted r)) (dones r)
            end)
  | EPosted => match posted r with 0 => Some r | S _ => RunPosted r end
  end.

Definition runner_run : Runner → list RunnerEvent → option Runner := run runner_step.

(** ** The invariant *)

(** Where the frame is. *)
Inductive runner_ok (r : Runner) : Prop :=
| ok_resuming h :        (* a thread is about to resume it *)
    runs r = [RResume h] → ready_ r = None → awaiting r = None → running_ r = true →
    scheduled_ r = false → finished_ r = false → posting r = 0 → posted r = 0 → dones r = [] →
    runner_ok r
| ok_after :             (* it was resumed and waits for an RPC, which may have called *)
    runs r = [RAfter] → (ready_ r = None ↔ is_Some (awaiting r)) → running_ r = true →
    scheduled_ r = false → finished_ r = false → posting r = 0 → posted r = 0 → dones r = [] →
    runner_ok r
| ok_suspended h :       (* it waits for an RPC and no thread runs *)
    runs r = [] → ready_ r = None → awaiting r = Some h → running_ r = false →
    scheduled_ r = false → finished_ r = false → posting r = 0 → posted r = 0 → dones r = [] →
    runner_ok r
| ok_scheduled h :       (* its resume is posted, or about to be *)
    runs r = [] → ready_ r = Some h → awaiting r = None → running_ r = false →
    scheduled_ r = true → finished_ r = false → posting r + posted r = 1 → dones r = [] →
    runner_ok r
| ok_ending failed :     (* it ended; an RPC may still call *)
    runs r = [REnd failed] → (is_Some (awaiting r) → ready_ r = None) → running_ r = true →
    scheduled_ r = false → finished_ r = false → posting r = 0 → posted r = 0 → dones r = [] →
    runner_ok r
| ok_done failed :       (* [done] is called, or was *)
    (runs r = [RDone failed] ∧ dones r = [] ∨ runs r = [] ∧ dones r = [failed]) →
    ready_ r = None → running_ r = false → scheduled_ r = false → finished_ r = true →
    posting r = 0 → posted r = 0 → runner_ok r.

Tactic Notation "at_place" uconstr(c) :=
  eexists; split; [reflexivity|]; apply c; simpl; auto.

Lemma runner_step_ok r ev : runner_ok r → ∃ r', runner_step r ev = Some r' ∧ runner_ok r'.
Proof.
  intros Hok. destruct r as [rd rn sc fi rs aw pg pd ds].
  destruct Hok as [h|Hr Ha|h|h ?????? Hp|f Hr Ha|f Hr]; simpl in *; subst;
    destruct ev as [i x| | |]; simpl.
  - unfold RunStep. simpl. destruct i as [|i]; simpl; [|by at_place (ok_resuming _ h)].
    destruct x as [n|f|w]; [|by at_place (ok_ending _ f)|by at_place (ok_ending _ true)].
    eexists. split; [done|]. apply ok_after; simpl; try done.
  - by at_place (ok_resuming _ h).
  - by at_place (ok_resuming _ h).
  - by at_place (ok_resuming _ h).
  - unfold RunStep. simpl. destruct i as [|i]; simpl; [|by at_place ok_after].
    destruct rd as [h|]; simpl.
    + eexists. split; [done|]. destruct aw; [|by apply (ok_resuming _ h)].
      destruct Ha as [_ Ha]. discriminate Ha. done.
    + destruct Ha as [Ha _]. destruct (Ha eq_refl) as [h ->]. by at_place (ok_suspended _ h).
  - destruct aw as [h|]; [|by at_place ok_after]. destruct Ha as [_ Ha].
    rewrite Ha by done. unfold Request. simpl. eexists. split; [done|].
    apply ok_after; try done. simpl. split; [done|]. by intros [].
  - by at_place ok_after.
  - by at_place ok_after.
  - by at_place (ok_suspended _ h).
  - unfold Request. simpl. by at_place (ok_scheduled _ h).
  - by at_place (ok_suspended _ h).
  - by at_place (ok_suspended _ h).
  - by at_place (ok_scheduled _ h).
  - by at_place (ok_scheduled _ h).
  - destruct pg as [|pg]; [by at_place (ok_scheduled _ h)|].
    eexists. split; [done|]. apply (ok_scheduled _ h); simpl; try done. lia.
  - destruct pd as [|pd]; [by at_place (ok_scheduled _ h)|]. unfold RunPosted. simpl.
    eexists. split; [done|]. apply (ok_resuming _ h); simpl; try done; lia.
  - unfold RunStep. simpl. destruct i as [|i]; simpl; [|by at_place (ok_ending _ f)].
    eexists. split; [done|]. apply (ok_done _ f); simpl; try done. by left.
  - destruct aw as [h|]; [|by at_place (ok_ending _ f)]. rewrite Ha by done. unfold Request. simpl.
    eexists. split; [done|]. apply (ok_ending _ f); try done. simpl. by intros [].
  - by at_place (ok_ending _ f).
  - by at_place (ok_ending _ f).
  - destruct Hr as [[-> ->]|[-> ->]]; unfold RunStep; simpl; [|by at_place (ok_done _ f)].
    destruct i as [|i]; simpl; [|by at_place (ok_done _ f)]. by at_place (ok_done _ f).
  - destruct aw; unfold Request; simpl; by at_place (ok_done _ f).
  - by at_place (ok_done _ f).
  - by at_place (ok_done _ f).
Qed.

Lemma runner_run_ok evs : ∀ r, runner_ok r → ∃ r', runner_run r evs = Some r' ∧ runner_ok r'.
Proof.
  induction evs as [|ev evs IH]; intros r Hok; [by exists r|].
  destruct (runner_step_ok r ev Hok) as (r1 & E & Hok1). destruct (IH r1 Hok1) as (r' & Hr & ?).
  exists r'. split; [|done]. unfold runner_run in *. simpl. by rewrite E.
Qed.

(** After [done] nothing happens any more. *)
Definition ended (ds : list bool) (r : Runner) : Prop :=
  runs r = [] ∧ finished_ r = true ∧ posting r = 0 ∧ posted r = 0 ∧ dones r = ds.

Lemma ended_step ds r ev r' : ended ds r → runner_step r ev = Some r' → ended ds r'.
Proof.
  intros (E1 & E2 & E3 & E4 & E5) Hs. destruct ev; simpl in Hs.
  - unfold RunStep in Hs. rewrite E1, lookup_nil in Hs. by simplify_eq.
  - destruct (awaiting r); [|by simplify_eq]. unfold Request in Hs. rewrite E2 in Hs. by simplify_eq.
  - rewrite E3 in Hs. by simplify_eq.
  - rewrite E4 in Hs. by simplify_eq.
Qed.

(** C35: the contract of an asynchronous task.  In every interleaving of the
    threads that run a coroutine, of the RPCs that call back and of the posted
    jobs: [Request] never fails, at most one resume is queued or about to be,
    [done] is called at most once and not while a resume is queued, after which
    nothing is posted; and no wake-up is lost: until [done] was called, a thread
    runs the frame, or its resume is posted or about to be, or the RPC it waits
    for has not called back yet. *)
Theorem coroutine_contract root evs evs' :
  ∃ r r', runner_run (Start root) evs = Some r ∧ runner_run r evs' = Some r' ∧
    length (runs r) + posting r + posted r ≤ 1 ∧
    length (dones r) ≤ 1 ∧
    (dones r ≠ [] → posting r' = 0 ∧ posted r' = 0 ∧ dones r' = dones r) ∧
    (dones r = [] → runs r ≠ [] ∨ 0 < posting r + posted r ∨ is_Some (awaiting r)).
Proof.
  destruct (runner_run_ok evs (Start root)) as (r & Hr & Hok).
  { by apply (ok_resuming _ root). }
  destruct (runner_run_ok evs' r Hok) as (r' & Hr' & Hok'). exists r, r'. split_and!; try done.
  1-2: destruct r, Hok as [?|?|?|?|?|? [[]|[]]]; simpl in *; subst; simpl; lia.
  - intros Hd. assert (ended (dones r) r) as He.
    { destruct Hok as [?|?|?|?|?|? [[]|[]]]; try congruence. by split_and!. }
    destruct (run_invariant (ended (dones r)) runner_step (λ r0 ev r1, ended_step _ r0 ev r1)
      evs' r r' He Hr') as (_ & _ & ? & ? & ?). done.
  - intros Hd. destruct Hok as [? E|E|? ? ? E|? ? ? ? ? ? ? E|? E|? [[E _]|[_ E]]]; try rewrite E; auto.
    first [right; left; lia | congruence].
Qed.
