(* ===== verification/GroupTypes.v ===== *)
(** * Group data and the permission policy

    Models [src/services/group/application/GroupApplicationTypes.h],
    [GroupRepositoryPort.h], [GroupPermissionPolicy.h] and
    [GroupPermissionPolicy.cpp].  A string is the list of its bytes.  An [enum
    class] with a fixed underlying type can hold a value without a name, which a
    cast from the wire produces; such a value has a constructor of its own. *)
From Stdlib Require Import ZArith Lia.
From stdpp Require Import base list numbers.
From S2P Require Import Prelude ByteStrings.

Local Open Scope Z_scope.

(** ** Data *)

Inductive GroupApplicationStatus :=
| kSucceeded | kInvalidArgument | kNotFound | kPermissionDenied | kFailedPrecondition
| kAlreadyExists | kResourceExhausted | kAborted | kInvalidRecord | kStorageError.

Inductive GroupStatus := kGroupActive | kGroupDisbanded | kGroupStatusOther (value : Z).
Inductive GroupJoinPolicy := kInviteOnly | kOpen | kJoinPolicyOther (value : Z).
Inductive GroupRole := kOwner | kAdmin | kMember | kRoleOther (value : Z).
Inductive GroupMemberStatus := kMemberActive | kMemberLeft | kMemberKicked | kMemberStatusOther (value : Z).
Inductive GroupMutationOutcome := kApplied | kReused | kIdempotencyConflict.

#[export] Instance GroupApplicationStatus_eq_dec : EqDecision GroupApplicationStatus.
Proof. solve_decision. Defined.
#[export] Instance GroupRole_eq_dec : EqDecision GroupRole.
Proof. solve_decision. Defined.
#[export] Instance GroupMemberStatus_eq_dec : EqDecision GroupMemberStatus.
Proof. solve_decision. Defined.
#[export] Instance GroupMutationOutcome_eq_dec : EqDecision GroupMutationOutcome.
Proof. solve_decision. Defined.

Record GroupView := MkGroupView {
  view_group_id : Z;
  view_name : list Z;
  view_description : list Z;
  view_avatar_url : list Z;
  owner_user_id : Z;
  view_status : GroupStatus;
  view_join_policy : GroupJoinPolicy;
  view_max_members : Z;
  version : Z;
  member_version : Z;
  created_at : list Z;
  updated_at : list Z;
  disbanded_at : list Z;
  disbanded_by_user_id : Z;
}.

Record GroupMemberView := MkGroupMemberView {
  member_group_id : Z;
  user_id : Z;
  role : GroupRole;
  member_status : GroupMemberStatus;
  membership_epoch : Z;
  member_muted_until : list Z;
  joined_at : list Z;
  left_at : list Z;
  member_updated_at : list Z;
}.

Record CreateGroupCommand := MkCreateGroup {
  create_actor : Z;
  create_operation_id : list Z;
  create_name : list Z;
  create_description : list Z;
  create_avatar_url : list Z;
  create_join_policy : GroupJoinPolicy;
  create_max_members : Z;
}.

Record UpdateGroupCommand := MkUpdateGroup {
  update_actor : Z;
  update_operation_id : list Z;
  update_group_id : Z;
  update_expected_version : Z;
  update_name : option (list Z);
  update_description : option (list Z);
  update_avatar_url : option (list Z);
  update_join_policy : option GroupJoinPolicy;
}.

Record DisbandGroupCommand := MkDisbandGroup {
  disband_actor : Z;
  disband_operation_id : list Z;
  disband_group_id : Z;
  disband_expected_version : Z;
}.

(** [JoinGroupCommand] and [LeaveGroupCommand]. *)
Record MembershipCommand := MkMembership {
  membership_actor : Z;
  membership_operation_id : list Z;
  membership_group_id : Z;
}.

(** [InviteMemberCommand], [KickMemberCommand] and [TransferOwnershipCommand]. *)
Record TargetCommand := MkTarget {
  target_actor : Z;
  target_operation_id : list Z;
  target_group_id : Z;
  target_user_id : Z;
}.

Record SetMemberRoleCommand := MkSetMemberRole { role_target : TargetCommand; new_role : GroupRole }.
Record SetMemberMuteCommand := MkSetMemberMute { mute_target : TargetCommand; muted_until : list Z }.

Record ListGroupMembersQuery := MkListGroupMembers {
  members_actor : Z;
  members_group_id : Z;
  after_user_id : Z;
  members_limit : Z;
}.

Record ListMyGroupsQuery := MkListMyGroups {
  groups_actor : Z;
  after_group_id : Z;
  groups_limit : Z;
}.

Record GroupRepositoryMutationResult := MkMutationResult {
  mutation_status : GroupApplicationStatus;
  outcome : GroupMutationOutcome;
  mutation_group : option GroupView;
  mutation_message : list Z;
}.

Definition Completed (r : GroupRepositoryMutationResult) : bool :=
  bool_decide (mutation_status r = kSucceeded).
Definition Accepted (r : GroupRepositoryMutationResult) : bool :=
  Completed r && (bool_decide (outcome r = kApplied) || bool_decide (outcome r = kReused)).

Record GroupRepositoryGetResult := MkGetResult {
  get_status : GroupApplicationStatus;
  get_group : option GroupView;
  get_message : list Z;
}.

Definition Found (r : GroupRepositoryGetResult) : bool :=
  bool_decide (get_status r = kSucceeded) && bool_decide (is_Some (get_group r)).

Record GroupMemberListResult := MkMemberListResult {
  members_status : GroupApplicationStatus;
  members : list GroupMemberView;
  members_has_more : bool;
  members_message : list Z;
}.

Record GroupListResult := MkGroupListResult {
  groups_status : GroupApplicationStatus;
  groups : list GroupView;
  groups_has_more : bool;
  groups_message : list Z;
}.

(** [GroupSendPermissionResult], and with the recipients
    [GroupSendPreparationResult]. *)
Record GroupSendResult := MkSendResult {
  send_status : GroupApplicationStatus;
  allowed : bool;
  send_role : GroupRole;
  send_membership_epoch : Z;
  send_member_version : Z;
  recipient_user_ids : list Z;
  send_message : list Z;
}.

(** The repository port: each method on the state [S] of the repository. *)
Class GroupRepositoryPort (S : Type) := {
  repo_CreateGroup : S → CreateGroupCommand → S * GroupRepositoryMutationResult;
  repo_GetGroup : S → Z → Z → S * GroupRepositoryGetResult;
  repo_UpdateGroup : S → UpdateGroupCommand → S * GroupRepositoryMutationResult;
  repo_DisbandGroup : S → DisbandGroupCommand → S * GroupRepositoryMutationResult;
  repo_JoinGroup : S → MembershipCommand → S * GroupRepositoryMutationResult;
  repo_LeaveGroup : S → MembershipCommand → S * GroupRepositoryMutationResult;
  repo_InviteMember : S → TargetCommand → S * GroupRepositoryMutationResult;
  repo_KickMember : S → TargetCommand → S * GroupRepositoryMutationResult;
  repo_SetMemberRole : S → SetMemberRoleCommand → S * GroupRepositoryMutationResult;
  repo_SetMemberMute : S → SetMemberMuteCommand → S * GroupRepositoryMutationResult;
  repo_TransferOwnership : S → TargetCommand → S * GroupRepositoryMutationResult;
  repo_ListGroupMembers : S → ListGroupMembersQuery → S * GroupMemberListResult;
  repo_ListMyGroups : S → ListMyGroupsQuery → S * GroupListResult;
  repo_CheckGroupSendPermission : S → Z → Z → S * GroupSendResult;
  repo_PrepareGroupMessageSend : S → Z → Z → S * GroupSendResult;
}.

(** ** The policy *)

Definition CanView (actor : GroupMemberView) : bool :=
  negb (user_id actor =? 0) && bool_decide (member_status actor = kMemberActive).
Definition CanUpdateMetadata (actor_role : GroupRole) : bool :=
  bool_decide (actor_role = kOwner) || bool_decide (actor_role = kAdmin).
Definition CanUpdateJoinPolicy (actor_role : GroupRole) : bool := bool_decide (actor_role = kOwner).
Definition CanDisband (actor_role : GroupRole) : bool := bool_decide (actor_role = kOwner).
Definition CanInvite (actor_role : GroupRole) : bool :=
  bool_decide (actor_role = kOwner) || bool_decide (actor_role = kAdmin).
Definition CanKick (actor_role target_role : GroupRole) : bool :=
  if bool_decide (target_role = kOwner) then false
  else if bool_decide (actor_role = kOwner) then true
  else bool_decide (actor_role = kAdmin) && bool_decide (target_role = kMember).
Definition CanSetRole (actor_role target_role : GroupRole) : bool :=
  bool_decide (actor_role = kOwner) && bool_decide (target_role ≠ kOwner).
Definition CanMute (actor_role target_role : GroupRole) : bool :=
  if bool_decide (target_role = kOwner) then false
  else if bool_decide (actor_role = kOwner) then true
  else bool_decide (actor_role = kAdmin) && bool_decide (target_role = kMember).
Definition CanTransferOwnership (actor_role target_role : GroupRole) : bool :=
  bool_decide (actor_role = kOwner) && bool_decide (target_role ≠ kOwner).
Definition CanLeave (actor_role : GroupRole) : bool := bool_decide (actor_role ≠ kOwner).
Definition CanSend (actor : GroupMemberView) (mute_active : bool) : bool :=
  negb (user_id actor =? 0) && bool_decide (member_status actor = kMemberActive) && negb mute_active.

(** ** The hierarchy the policy implements *)

(** The authority of a role; a value without a name has none. *)
Definition rank (r : GroupRole) : Z :=
  match r with kOwner => 3 | kAdmin => 2 | kMember => 1 | kRoleOther _ => 0 end.

Definition named (r : GroupRole) : Prop := match r with kRoleOther _ => False | _ => True end.

(** Authority over other members is the strict order owner, admin, member.
    Between named roles an actor may kick or mute exactly the members of lower
    rank, and only when it is at least an admin; only the owner sets roles, moves
    the ownership, disbands or changes the join policy, and only the owner cannot
    leave.  No role, named or not, has any power over the owner, and a role
    without a name has no power at all. *)
Theorem policy_is_hierarchical a t :
  (named a → named t →
    (CanKick a t = true ↔ rank kMember < rank a ∧ rank t < rank a) ∧
    (CanMute a t = true ↔ rank kMember < rank a ∧ rank t < rank a) ∧
    (CanSetRole a t = true ↔ a = kOwner ∧ rank t < rank a) ∧
    (CanTransferOwnership a t = true ↔ a = kOwner ∧ rank t < rank a) ∧
    (CanLeave a = true ↔ rank a < rank kOwner) ∧
    (CanUpdateMetadata a = true ↔ rank kMember < rank a) ∧
    (CanInvite a = true ↔ rank kMember < rank a) ∧
    (CanDisband a = true ↔ a = kOwner) ∧ (CanUpdateJoinPolicy a = true ↔ a = kOwner)) ∧
  (CanKick a kOwner = false ∧ CanMute a kOwner = false ∧ CanSetRole a kOwner = false ∧
   CanTransferOwnership a kOwner = false) ∧
  (¬ named a →
    CanKick a t = false ∧ CanMute a t = false ∧ CanSetRole a t = false ∧
    CanTransferOwnership a t = false ∧ CanUpdateMetadata a = false ∧ CanInvite a = false ∧
    CanDisband a = false ∧ CanUpdateJoinPolicy a = false).
Proof.
  destruct a, t; vm_compute; intuition (try congruence; try lia).
Qed.

Lemma policy_is_hierarchical_witness :
  named kAdmin ∧ named kMember ∧ CanKick kAdmin kMember = true.
Proof.
  split; [exact I|]. split; [exact I|].
  apply (proj1 (proj1 (policy_is_hierarchical kAdmin kMember) I I)). vm_compute. split; reflexivity.
Defined.
