(* ===== verification/GroupApplicationService.v ===== *)
(** * The group application service

    Models [src/services/group/application/GroupApplicationService.h] and
    [GroupApplicationService.cpp]: the validation and normalisation of requests
    before they reach the repository.  The repository is the port
    [GroupRepositoryPort] on a state of its own; a service made with a null
    pointer has [None].  [std::isspace] is that of the C locale. *)
From Stdlib Require Import ZArith Lia.
From Stdlib Require Import String.
From stdpp Require Import base list numbers.
From S2P Require Import Prelude ByteStrings GroupTypes.

Local Open Scope Z_scope.

(** ** Helpers *)

Definition kMaxOperationIdBytes : Z := 64.
Definition kMaxNameBytes : Z := 128.
Definition kMaxDescriptionBytes : Z := 512.
Definition kMaxAvatarUrlBytes : Z := 512.
Definition kMinMembers : Z := 2.
Definition kMaxMembers : Z := 500.
Definition kDefaultPageSize : Z := 50.
Definition kMaxPageSize : Z := 100.

Definition size (s : list Z) : Z := Z.of_nat (length s).
Definition empty (s : list Z) : bool := size s =? 0.

Definition Trim (value : list Z) : list Z :=
  let value := TrimLeft value in
  rev (TrimLeft (rev value)).

Definition ValidOperationId (value : list Z) : bool :=
  negb (empty value) && (size value <=? kMaxOperationIdBytes).

Definition ValidJoinPolicy (p : GroupJoinPolicy) : bool :=
  match p with kInviteOnly | kOpen => true | kJoinPolicyOther _ => false end.

Definition ValidMutableRole (r : GroupRole) : bool :=
  match r with kAdmin | kMember => true | _ => false end.

Definition IsDigit (c : Z) : bool := (48 <=? c) && (c <=? 57).

(** [value[i]] inside the string. *)
Definition char_at (value : list Z) (pos : nat) : Z := nth pos value 0.

Definition ParseTwoDigits (value : list Z) (pos : nat) : Z :=
  if (size value <=? Z.of_nat pos + 1) || negb (IsDigit (char_at value pos)) ||
     negb (IsDigit (char_at value (pos + 1)))
  then -1
  else (char_at value pos - 48) * 10 + (char_at value (pos + 1) - 48).

Fixpoint ParseLoop (value : list Z) (pos n : nat) (output : Z) : Z :=
  match n with
  | O => output
  | S n =>
      if negb (IsDigit (char_at value pos)) then -1
      else ParseLoop value (S pos) n (output * 10 + (char_at value pos - 48))
  end.

Definition ParseFourDigits (value : list Z) (pos : nat) : Z :=
  if size value <=? Z.of_nat pos + 3 then -1 else ParseLoop value pos 4 0.

Definition LeapYear (year : Z) : bool :=
  (Z.rem year 400 =? 0) || ((Z.rem year 4 =? 0) && negb (Z.rem year 100 =? 0)).

Definition kDays : list Z := [31; 28; 31; 30; 31; 30; 31; 31; 30; 31; 30; 31].

Definition DaysInMonth (year month : Z) : Z :=
  if (month <? 1) || (12 <? month) then 0
  else if (month =? 2) && LeapYear year then 29
  else nth (Z.to_nat (month - 1)) kDays 0.

(** The result and the string afterwards; the pointer is not null. *)
Definition NormalizeMuteTimestamp (value : list Z) : bool * list Z :=
  if empty value then (true, value)
  else if negb (size value =? 24) || negb (char_at value 4 =? 45) || negb (char_at value 7 =? 45) ||
          negb (char_at value 10 =? 84) || negb (char_at value 13 =? 58) ||
          negb (char_at value 16 =? 58) || negb (char_at value 19 =? 46) ||
          negb (char_at value 23 =? 90)
  then (false, value)
  else
    let year := ParseFourDigits value 0 in
    let month := ParseTwoDigits value 5 in
    let day := ParseTwoDigits value 8 in
    let hour := ParseTwoDigits value 11 in
    let minute := ParseTwoDigits value 14 in
    let second := ParseTwoDigits value 17 in
    let millis :=
      if IsDigit (char_at value 20) && IsDigit (char_at value 21) && IsDigit (char_at value 22)
      then (char_at value 20 - 48) * 100 + (char_at value 21 - 48) * 10 + (char_at value 22 - 48)
      else -1 in
    if (year <? 1970) || (month <? 1) || (12 <? month) || (day <? 1) ||
       (DaysInMonth year month <? day) || (hour <? 0) || (23 <? hour) ||
       (minute <? 0) || (59 <? minute) || (second <? 0) || (59 <? second) ||
       (millis <? 0) || (999 <? millis)
    then (false, value)
    else (true, take 23 (<[10%nat := 32]> value)).

Definition NormalizePageSize (limit : Z) : Z :=
  if limit =? 0 then kDefaultPageSize else Z.min limit kMaxPageSize.

Definition InvalidMutation (message : list Z) : GroupRepositoryMutationResult :=
  MkMutationResult kInvalidArgument kApplied None message.
Definition InvalidMemberList (message : list Z) : GroupMemberListResult :=
  MkMemberListResult kInvalidArgument [] false message.
Definition InvalidGroupList (message : list Z) : GroupListResult :=
  MkGroupListResult kInvalidArgument [] false message.
Definition InvalidPermissionQuery (message : list Z) : GroupSendResult :=
  MkSendResult kInvalidArgument false kMember 0 0 [] message.

Definition ValidMutationIdentity (actor_user_id group_id : Z) (client_operation_id : list Z) : bool :=
  negb (actor_user_id =? 0) && negb (group_id =? 0) && ValidOperationId client_operation_id.

(** ** The service *)

Definition unavailable : list Z := str "group repository port is unavailable".

Section Service.
Context {S : Type} `{Repo : GroupRepositoryPort S}.

(** [repository_]: null, or the repository in its current state. *)
Definition Service : Type := option S.

(** What a mutation does when there is no repository, and the call otherwise. *)
Definition WithRepository {R} (svc : Service) (missing : R) (call : S → S * R) : Service * R :=
  match svc with
  | None => (svc, missing)
  | Some s => let '(s', r) := call s in (Some s', r)
  end.

Definition MutationUnavailable : GroupRepositoryMutationResult :=
  MkMutationResult kStorageError kApplied None unavailable.

Definition CreateGroup (svc : Service) (c : CreateGroupCommand)
  : Service * GroupRepositoryMutationResult :=
  let c := MkCreateGroup (create_actor c) (create_operation_id c) (Trim (create_name c))
             (create_description c) (create_avatar_url c) (create_join_policy c)
             (create_max_members c) in
  if (create_actor c =? 0) || negb (ValidOperationId (create_operation_id c)) ||
     empty (create_name c) || (kMaxNameBytes <? size (create_name c)) ||
     (kMaxDescriptionBytes <? size (create_description c)) ||
     (kMaxAvatarUrlBytes <? size (create_avatar_url c)) ||
     negb (ValidJoinPolicy (create_join_policy c)) ||
     (create_max_members c <? kMinMembers) || (kMaxMembers <? create_max_members c)
  then (svc, InvalidMutation (str "invalid CreateGroup application request"))
  else WithRepository svc MutationUnavailable (λ s, repo_CreateGroup s c).

Definition GetGroup (svc : Service) (actor_user_id group_id : Z) : Service * GroupRepositoryGetResult :=
  if (actor_user_id =? 0) || (group_id =? 0)
  then (svc, MkGetResult kInvalidArgument None (str "invalid GetGroup application request"))
  else WithRepository svc (MkGetResult kStorageError None unavailable)
         (λ s, repo_GetGroup s actor_user_id group_id).

Definition UpdateGroup (svc : Service) (c : UpdateGroupCommand)
  : Service * GroupRepositoryMutationResult :=
  let c := MkUpdateGroup (update_actor c) (update_operation_id c) (update_group_id c)
             (update_expected_version c) (Trim <$> update_name c) (update_description c)
             (update_avatar_url c) (update_join_policy c) in
  let has_update := bool_decide (is_Some (update_name c)) ||
                    bool_decide (is_Some (update_description c)) ||
                    bool_decide (is_Some (update_avatar_url c)) ||
                    bool_decide (is_Some (update_join_policy c)) in
  if (update_actor c =? 0) || (update_group_id c =? 0) || (update_expected_version c =? 0) ||
     negb (ValidOperationId (update_operation_id c)) || negb has_update ||
     match update_name c with Some n => empty n || (kMaxNameBytes <? size n) | None => false end ||
     match update_description c with Some d => kMaxDescriptionBytes <? size d | None => false end ||
     match update_avatar_url c with Some a => kMaxAvatarUrlBytes <? size a | None => false end ||
     match update_join_policy c with Some p => negb (ValidJoinPolicy p) | None => false end
  then (svc, InvalidMutation (str "invalid UpdateGroup application request"))
  else WithRepository svc MutationUnavailable (λ s, repo_UpdateGroup s c).

Definition DisbandGroup (svc : Service) (c : DisbandGroupCommand)
  : Service * GroupRepositoryMutationResult :=
  if (disband_actor c =? 0) || (disband_group_id c =? 0) || (disband_expected_version c =? 0) ||
     negb (ValidOperationId (disband_operation_id c))
  then (svc, InvalidMutation (str "invalid DisbandGroup application request"))
  else WithRepository svc MutationUnavailable (λ s, repo_DisbandGroup s c).

Definition JoinGroup (svc : Service) (c : MembershipCommand)
  : Service * GroupRepositoryMutationResult :=
  if negb (ValidMutationIdentity (membership_actor c) (membership_group_id c) (membership_operation_id c))
  then (svc, InvalidMutation (str "invalid JoinGroup application request"))
  else WithRepository svc MutationUnavailable (λ s, repo_JoinGroup s c).

Definition LeaveGroup (svc : Service) (c : MembershipCommand)
  : Service * GroupRepositoryMutationResult :=
  if negb (ValidMutationIdentity (membership_actor c) (membership_group_id c) (membership_operation_id c))
  then (svc, InvalidMutation (str "invalid LeaveGroup application request"))
  else WithRepository svc MutationUnavailable (λ s, repo_LeaveGroup s c).

(** The guard shared by the operations on another member. *)
Definition InvalidTarget (c : TargetCommand) : bool :=
  negb (ValidMutationIdentity (target_actor c) (target_group_id c) (target_operation_id c)) ||
  (target_user_id c =? 0) || (target_user_id c =? target_actor c).

Definition InviteMember (svc : Service) (c : TargetCommand)
  : Service * GroupRepositoryMutationResult :=
  if InvalidTarget c
  then (svc, InvalidMutation (str "invalid InviteMember application request"))
  else WithRepository svc MutationUnavailable (λ s, repo_InviteMember s c).

Definition KickMember (svc : Service) (c : TargetCommand)
  : Service * GroupRepositoryMutationResult :=
  if InvalidTarget c
  then (svc, InvalidMutation (str "invalid KickMember application request"))
  else WithRepository svc MutationUnavailable (λ s, repo_KickMember s c).

Definition SetMemberRole (svc : Service) (c : SetMemberRoleCommand)
  : Service * GroupRepositoryMutationResult :=
  if InvalidTarget (role_target c) || negb (ValidMutableRole (new_role c))
  then (svc, InvalidMutation (str "invalid SetMemberRole application request"))
  else WithRepository svc MutationUnavailable (λ s, repo_SetMemberRole s c).

Definition SetMemberMute (svc : Service) (c : SetMemberMuteCommand)
  : Service * GroupRepositoryMutationResult :=
  let '(ok, until) := NormalizeMuteTimestamp (muted_until c) in
  if InvalidTarget (mute_target c) || negb ok
  then (svc, InvalidMutation (str "invalid SetMemberMute application request"))
  else WithRepository svc MutationUnavailable
         (λ s, repo_SetMemberMute s (MkSetMemberMute (mute_target c) until)).

Definition TransferOwnership (svc : Service) (c : TargetCommand)
  : Service * GroupRepositoryMutationResult :=
  if InvalidTarget c
  then (svc, InvalidMutation (str "invalid TransferOwnership application request"))
  else WithRepository svc MutationUnavailable (λ s, repo_TransferOwnership s c).

Definition ListGroupMembers (svc : Service) (q : ListGroupMembersQuery)
  : Service * GroupMemberListResult :=
  if (members_actor q =? 0) || (members_group_id q =? 0) || (kMaxPageSize <? members_limit q)
  then (svc, InvalidMemberList (str "invalid ListGroupMembers application request"))
  else
    let q := MkListGroupMembers (members_actor q) (members_group_id q) (after_user_id q)
               (NormalizePageSize (members_limit q)) in
    WithRepository svc (MkMemberListResult kStorageError [] false unavailable)
      (λ s, repo_ListGroupMembers s q).

Definition ListMyGroups (svc : Service) (q : ListMyGroupsQuery) : Service * GroupListResult :=
  if (groups_actor q =? 0) || (kMaxPageSize <? groups_limit q)
  then (svc, InvalidGroupList (str "invalid ListMyGroups application request"))
  else
    let q := MkListMyGroups (groups_actor q) (after_group_id q) (NormalizePageSize (groups_limit q)) in
    WithRepository svc (MkGroupListResult kStorageError [] false unavailable)
      (λ s, repo_ListMyGroups s q).

Definition SendUnavailable : GroupSendResult :=
  MkSendResult kStorageError false kMember 0 0 [] unavailable.

Definition CheckGroupSendPermission (svc : Service) (actor_user_id group_id : Z)
  : Service * GroupSendResult :=
  if (actor_user_id =? 0) || (group_id =? 0)
  then (svc, InvalidPermissionQuery (str "invalid CheckGroupSendPermission application request"))
  else WithRepository svc SendUnavailable (λ s, repo_CheckGroupSendPermission s actor_user_id group_id).

Definition PrepareGroupMessageSend (svc : Service) (actor_user_id group_id : Z)
  : Service * GroupSendResult :=
  if (actor_user_id =? 0) || (group_id =? 0)
  then (svc, InvalidPermissionQuery (str "invalid PrepareGroupMessageSend application request"))
  else WithRepository svc SendUnavailable (λ s, repo_PrepareGroupMessageSend s actor_user_id group_id).

End Service.

(** ** Trimming *)

(** No space at either end. *)
Definition trimmed (s : list Z) : Prop :=
  (∀ c r, s = c :: r → isspace c = false) ∧ (∀ c r, s = r ++ [c] → isspace c = false).

Lemma Trim_spec s : ∃ l r, s = l ++ Trim s ++ r ∧
  Forall (λ c, isspace c = true) l ∧ Forall (λ c, isspace c = true) r ∧ trimmed (Trim s).
Proof.
  unfold Trim. destruct (TrimLeft_spec s) as (l & Hs & Hl & Hc).
  destruct (TrimLeft_spec (rev (TrimLeft s))) as (r & Hr & Hrs & Hrc).
  exists l, (rev r). set (t := TrimLeft s) in *. set (u := TrimLeft (rev t)) in *.
  assert (t = rev u ++ rev r) as Ht by (rewrite <-rev_app_distr, <-Hr; by rewrite rev_involutive).
  split; [by rewrite <-Ht|]. split; [done|]. split; [by apply Forall_rev|]. split.
  - intros c v Hv. destruct (rev u) as [|c' u'] eqn:Hu; [done|]. simplify_eq.
    apply (Hc c (v ++ rev r)). by rewrite Ht.
  - intros c v Hv. apply (Hrc c (rev v)). apply (f_equal (@rev Z)) in Hv.
    by rewrite rev_involutive, rev_app_distr in Hv.
Qed.

(** ** Timestamps *)

Record Fields := MkFields {
  f_year : Z; f_month : Z; f_day : Z; f_hour : Z; f_minute : Z; f_second : Z; f_millis : Z }.

Definition valid_fields (f : Fields) : Prop :=
  1970 ≤ f_year f ≤ 9999 ∧ 1 ≤ f_month f ≤ 12 ∧
  1 ≤ f_day f ≤ DaysInMonth (f_year f) (f_month f) ∧
  0 ≤ f_hour f ≤ 23 ∧ 0 ≤ f_minute f ≤ 59 ∧ 0 ≤ f_second f ≤ 59 ∧ 0 ≤ f_millis f ≤ 999.

Definition two (n : Z) : list Z := [48 + n / 10; 48 + n mod 10].
Definition three (n : Z) : list Z := [48 + n / 100; 48 + n / 10 mod 10; 48 + n mod 10].
Definition four (n : Z) : list Z :=
  [48 + n / 1000; 48 + n / 100 mod 10; 48 + n / 10 mod 10; 48 + n mod 10].

(** The two formats: [2026-09-20T12:30:00.000Z] and [2026-09-20 12:30:00.000]. *)
Definition date_and_time (sep : Z) (f : Fields) : list Z :=
  four (f_year f) ++ [45] ++ two (f_month f) ++ [45] ++ two (f_day f) ++ [sep] ++
  two (f_hour f) ++ [58] ++ two (f_minute f) ++ [58] ++ two (f_second f) ++ [46] ++
  three (f_millis f).
Definition rfc3339 (f : Fields) : list Z := date_and_time 84 f ++ [90].
Definition mysql_datetime (f : Fields) : list Z := date_and_time 32 f.

Lemma IsDigit_spec c : IsDigit c = true ↔ 48 ≤ c ≤ 57.
Proof. unfold IsDigit. rewrite andb_true_iff, !Z.leb_le. done. Qed.

Lemma ParseTwoDigits_inv v pos : 0 ≤ ParseTwoDigits v pos →
  two (ParseTwoDigits v pos) = [char_at v pos; char_at v (pos + 1)] ∧ ParseTwoDigits v pos ≤ 99.
Proof.
  unfold ParseTwoDigits, two. case_match eqn:Hg; [lia|]. intros _.
  apply orb_false_iff in Hg as [[_ Ha]%orb_false_iff Hb]. apply negb_false_iff, IsDigit_spec in Ha, Hb.
  set (a := char_at v pos) in *. set (b := char_at v (pos + 1)) in *.
  split; [|lia]. f_equal; [|f_equal]; Z.to_euclidean_division_equations; lia.
Qed.

Lemma ParseFourDigits_inv v : 0 ≤ ParseFourDigits v 0 →
  four (ParseFourDigits v 0) = [char_at v 0; char_at v 1; char_at v 2; char_at v 3] ∧
  ParseFourDigits v 0 ≤ 9999.
Proof.
  unfold ParseFourDigits. case_match; [lia|]. cbn [ParseLoop].
  destruct (IsDigit (char_at v 0)) eqn:Ha; simpl; [|lia].
  destruct (IsDigit (char_at v 1)) eqn:Hb; simpl; [|lia].
  destruct (IsDigit (char_at v 2)) eqn:Hc; simpl; [|lia].
  destruct (IsDigit (char_at v 3)) eqn:Hd; simpl; [|lia].
  rewrite IsDigit_spec in *. intros _. unfold four.
  set (a := char_at v 0) in *. set (b := char_at v 1) in *.
  set (c := char_at v 2) in *. set (d := char_at v 3) in *.
  set (n := ((((0 * 10 + (a - 48)) * 10 + (b - 48)) * 10 + (c - 48)) * 10 + (d - 48))).
  assert (n = (a - 48) * 1000 + (b - 48) * 100 + (c - 48) * 10 + (d - 48)) as Hn by (unfold n; lia).
  split; [|lia]. clearbody n. subst n.
  do 4 (apply (f_equal2 cons); [Z.to_euclidean_division_equations; lia|]). done.
Qed.

(** A string of known length is the list of its characters. *)
Lemma chars_of (v : list Z) : v = (λ i, char_at v i) <$> seq 0 (length v).
Proof.
  apply list_eq. intros i. rewrite list_lookup_fmap. destruct (decide (i < length v)%nat) as [Hi|Hi].
  - rewrite lookup_seq_lt by done. simpl. unfold char_at. symmetry.
    destruct (lookup_lt_is_Some_2 v i Hi) as [x Hx]. rewrite Hx. f_equal.
    by apply nth_lookup_Some.
  - rewrite lookup_seq_ge by lia. apply lookup_ge_None. lia.
Qed.

Lemma Normalize_sound v w : v ≠ [] → NormalizeMuteTimestamp v = (true, w) →
  ∃ f, valid_fields f ∧ v = rfc3339 f ∧ w = mysql_datetime f.
Proof.
  intros Hne. unfold NormalizeMuteTimestamp, empty, size.
  destruct (Z.eqb_spec (Z.of_nat (length v)) 0) as [Hz|_]; [destruct v; [done|simpl in Hz; lia]|].
  case_match eqn:Hg; [done|]. reflect_guards.
  match goal with H : Z.of_nat (length v) = 24 |- _ => rename H into Hlen end.
  set (ms := if _ && _ && _ then _ else -1).
  case_match eqn:Hr; [done|]. intros [= <-]. reflect_guards.
  destruct (ParseFourDigits_inv v) as [Hy ?]; [lia|].
  destruct (ParseTwoDigits_inv v 5) as [Hmo ?]; [lia|].
  destruct (ParseTwoDigits_inv v 8) as [Hd ?]; [lia|].
  destruct (ParseTwoDigits_inv v 11) as [Hh ?]; [lia|].
  destruct (ParseTwoDigits_inv v 14) as [Hmi ?]; [lia|].
  destruct (ParseTwoDigits_inv v 17) as [Hse ?]; [lia|].
  assert (three ms = [char_at v 20; char_at v 21; char_at v 22]) as Hms.
  { unfold three, ms in *. case_match eqn:Hd3; [|lia]. reflect_guards. rewrite IsDigit_spec in *.
    do 3 (apply (f_equal2 cons); [Z.to_euclidean_division_equations; lia|]). done. }
  exists (MkFields (ParseFourDigits v 0) (ParseTwoDigits v 5) (ParseTwoDigits v 8)
            (ParseTwoDigits v 11) (ParseTwoDigits v 14) (ParseTwoDigits v 17) ms).
  split; [unfold valid_fields; simpl; lia|].
  assert (length v = 24%nat) as Hl by lia. pose proof (chars_of v) as Hv. rewrite Hl in Hv. simpl in Hv.
  unfold rfc3339, mysql_datetime, date_and_time.
  cbn [f_year f_month f_day f_hour f_minute f_second f_millis].
  rewrite Hy, Hmo, Hd, Hh, Hmi, Hse, Hms. cbn [Nat.add app].
  split; [rewrite Hv at 1|rewrite Hv at 1; cbn [insert list_insert take]]; congruence.
Qed.

Lemma ParseTwoDigits_two v pos n : 0 ≤ n ≤ 99 → Z.of_nat pos + 1 < size v →
  char_at v pos = 48 + n / 10 → char_at v (pos + 1) = 48 + n mod 10 → ParseTwoDigits v pos = n.
Proof.
  intros Hn Hl Ha Hb. unfold ParseTwoDigits.
  destruct (Z.leb_spec (size v) (Z.of_nat pos + 1)); [lia|]. rewrite Ha, Hb.
  assert (IsDigit (48 + n / 10) = true) as -> by (apply IsDigit_spec; Z.to_euclidean_division_equations; lia).
  assert (IsDigit (48 + n mod 10) = true) as -> by (apply IsDigit_spec; Z.to_euclidean_division_equations; lia).
  simpl. Z.to_euclidean_division_equations; lia.
Qed.

Lemma ParseFourDigits_four v n : 0 ≤ n ≤ 9999 → 3 < size v →
  [char_at v 0; char_at v 1; char_at v 2; char_at v 3] = four n → ParseFourDigits v 0 = n.
Proof.
  intros Hn Hl [= Ha Hb Hc Hd]. unfold ParseFourDigits.
  destruct (Z.leb_spec (size v) (Z.of_nat 0 + 3)); [lia|]. cbn [ParseLoop]. rewrite Ha, Hb, Hc, Hd.
  assert (IsDigit (48 + n / 1000) = true) as -> by (apply IsDigit_spec; Z.to_euclidean_division_equations; lia).
  assert (IsDigit (48 + n / 100 mod 10) = true) as -> by (apply IsDigit_spec; Z.to_euclidean_division_equations; lia).
  assert (IsDigit (48 + n / 10 mod 10) = true) as -> by (apply IsDigit_spec; Z.to_euclidean_division_equations; lia).
  assert (IsDigit (48 + n mod 10) = true) as -> by (apply IsDigit_spec; Z.to_euclidean_division_equations; lia).
  simpl. Z.to_euclidean_division_equations; lia.
Qed.

Lemma DaysInMonth_bound y m : DaysInMonth y m ≤ 31.
Proof.
  unfold DaysInMonth. case_match; [lia|]. case_match; [lia|].
  generalize (Z.to_nat (m - 1)) as i. intros i. do 12 (destruct i as [|i]; [simpl; lia|]). destruct i; simpl; lia.
Qed.

Lemma Normalize_complete f : valid_fields f →
  NormalizeMuteTimestamp (rfc3339 f) = (true, mysql_datetime f).
Proof.
  intros (Hy & Hmo & Hd & Hh & Hmi & Hs & Hms). pose proof (DaysInMonth_bound (f_year f) (f_month f)).
  set (v := rfc3339 f). assert (size v = 24) as Hl by done.
  assert (ParseFourDigits v 0 = f_year f) as Ey by (apply ParseFourDigits_four; (lia || done)).
  assert (ParseTwoDigits v 5 = f_month f) as Emo by (apply ParseTwoDigits_two; (lia || done)).
  assert (ParseTwoDigits v 8 = f_day f) as Ed by (apply ParseTwoDigits_two; (lia || done)).
  assert (ParseTwoDigits v 11 = f_hour f) as Eh by (apply ParseTwoDigits_two; (lia || done)).
  assert (ParseTwoDigits v 14 = f_minute f) as Emi by (apply ParseTwoDigits_two; (lia || done)).
  assert (ParseTwoDigits v 17 = f_second f) as Es by (apply ParseTwoDigits_two; (lia || done)).
  unfold NormalizeMuteTimestamp. rewrite Ey, Emo, Ed, Eh, Emi, Es. unfold empty. rewrite Hl.
  change (char_at v 4) with 45. change (char_at v 7) with 45. change (char_at v 10) with 84.
  change (char_at v 13) with 58. change (char_at v 16) with 58. change (char_at v 19) with 46.
  change (char_at v 23) with 90. change (char_at v 20) with (48 + f_millis f / 100).
  change (char_at v 21) with (48 + f_millis f / 10 mod 10). change (char_at v 22) with (48 + f_millis f mod 10).
  assert (IsDigit (48 + f_millis f / 100) && IsDigit (48 + f_millis f / 10 mod 10) &&
          IsDigit (48 + f_millis f mod 10) = true) as ->.
  { rewrite !andb_true_iff, !IsDigit_spec. Z.to_euclidean_division_equations; lia. }
  replace ((48 + f_millis f / 100 - 48) * 100 + (48 + f_millis f / 10 mod 10 - 48) * 10 +
           (48 + f_millis f mod 10 - 48)) with (f_millis f)
    by (Z.to_euclidean_division_equations; lia).
  cbn [negb orb Z.eqb Pos.eqb]. case_match eqn:Hg; [|done].
  rewrite !orb_true_iff, !Z.ltb_lt in Hg. lia.
Qed.

(** The mute timestamps accepted are exactly the UTC RFC 3339 timestamps
    with milliseconds from 1970 on that name a real date and time, and each is
    rewritten to the MySQL form of the same instant; the empty string, which
    unmutes, is kept.  Nothing is lost: the accepted string can be recovered. *)
Theorem mute_timestamp_exact v w :
  (NormalizeMuteTimestamp v = (true, w) ↔
   (v = [] ∧ w = []) ∨ ∃ f, valid_fields f ∧ v = rfc3339 f ∧ w = mysql_datetime f) ∧
  (NormalizeMuteTimestamp v = (true, w) →
   v = if empty w then [] else <[10%nat := 84]> w ++ [90]).
Proof.
  assert (NormalizeMuteTimestamp v = (true, w) ↔
    (v = [] ∧ w = []) ∨ ∃ f, valid_fields f ∧ v = rfc3339 f ∧ w = mysql_datetime f) as Hiff.
  { split.
    - intros H. destruct (decide (v = [])) as [->|Hv]; [|right; by apply Normalize_sound].
      left. vm_compute in H. by injection H as <-.
    - intros [[-> ->]|(f & Hf & -> & ->)]; [done|]. by apply Normalize_complete. }
  split; [done|]. rewrite Hiff. intros [[-> ->]|(f & _ & -> & ->)]; done.
Qed.

Lemma mute_timestamp_exact_witness :
  let v := str "2024-02-29T12:30:00.007Z" in
  NormalizeMuteTimestamp v = (true, str "2024-02-29 12:30:00.007") ∧
  v = <[10%nat := 84]> (str "2024-02-29 12:30:00.007") ++ [90].
Proof.
  intros v. split; [reflexivity|].
  exact (proj2 (mute_timestamp_exact v (str "2024-02-29 12:30:00.007")) eq_refl).
Defined.

(** ** Requests *)

Inductive Request :=
| RqCreate (c : CreateGroupCommand) | RqGet (actor group : Z) | RqUpdate (c : UpdateGroupCommand)
| RqDisband (c : DisbandGroupCommand) | RqJoin (c : MembershipCommand) | RqLeave (c : MembershipCommand)
| RqInvite (c : TargetCommand) | RqKick (c : TargetCommand) | RqSetRole (c : SetMemberRoleCommand)
| RqSetMute (c : SetMemberMuteCommand) | RqTransfer (c : TargetCommand)
| RqListMembers (q : ListGroupMembersQuery) | RqListGroups (q : ListMyGroupsQuery)
| RqCheckSend (actor group : Z) | RqPrepareSend (actor group : Z).

Inductive Response :=
| RsMutation (r : GroupRepositoryMutationResult) | RsGet (r : GroupRepositoryGetResult)
| RsMembers (r : GroupMemberListResult) | RsGroups (r : GroupListResult) | RsSend (r : GroupSendResult).

Definition response_status (r : Response) : GroupApplicationStatus :=
  match r with
  | RsMutation r => mutation_status r
  | RsGet r => get_status r
  | RsMembers r => members_status r
  | RsGroups r => groups_status r
  | RsSend r => send_status r
  end.

Section Requests.
Context {S : Type} `{Repo : GroupRepositoryPort S}.

Definition respond {A R} (wrap : R → Response) (p : A * R) : A * Response := (p.1, wrap p.2).

Definition handle (svc : Service (S := S)) (rq : Request) : Service (S := S) * Response :=
  match rq with
  | RqCreate c => respond RsMutation (CreateGroup svc c)
  | RqGet a g => respond RsGet (GetGroup svc a g)
  | RqUpdate c => respond RsMutation (UpdateGroup svc c)
  | RqDisband c => respond RsMutation (DisbandGroup svc c)
  | RqJoin c => respond RsMutation (JoinGroup svc c)
  | RqLeave c => respond RsMutation (LeaveGroup svc c)
  | RqInvite c => respond RsMutation (InviteMember svc c)
  | RqKick c => respond RsMutation (KickMember svc c)
  | RqSetRole c => respond RsMutation (SetMemberRole svc c)
  | RqSetMute c => respond RsMutation (SetMemberMute svc c)
  | RqTransfer c => respond RsMutation (TransferOwnership svc c)
  | RqListMembers q => respond RsMembers (ListGroupMembers svc q)
  | RqListGroups q => respond RsGroups (ListMyGroups svc q)
  | RqCheckSend a g => respond RsSend (CheckGroupSendPermission svc a g)
  | RqPrepareSend a g => respond RsSend (PrepareGroupMessageSend svc a g)
  end.

(** The call of the repository with the request as it is. *)
Definition repo_call (s : S) (rq : Request) : S * Response :=
  match rq with
  | RqCreate c => respond RsMutation (repo_CreateGroup s c)
  | RqGet a g => respond RsGet (repo_GetGroup s a g)
  | RqUpdate c => respond RsMutation (repo_UpdateGroup s c)
  | RqDisband c => respond RsMutation (repo_DisbandGroup s c)
  | RqJoin c => respond RsMutation (repo_JoinGroup s c)
  | RqLeave c => respond RsMutation (repo_LeaveGroup s c)
  | RqInvite c => respond RsMutation (repo_InviteMember s c)
  | RqKick c => respond RsMutation (repo_KickMember s c)
  | RqSetRole c => respond RsMutation (repo_SetMemberRole s c)
  | RqSetMute c => respond RsMutation (repo_SetMemberMute s c)
  | RqTransfer c => respond RsMutation (repo_TransferOwnership s c)
  | RqListMembers q => respond RsMembers (repo_ListGroupMembers s q)
  | RqListGroups q => respond RsGroups (repo_ListMyGroups s q)
  | RqCheckSend a g => respond RsSend (repo_CheckGroupSendPermission s a g)
  | RqPrepareSend a g => respond RsSend (repo_PrepareGroupMessageSend s a g)
  end.

(** The normal form of a request. *)
Definition normalise (rq : Request) : Request :=
  match rq with
  | RqCreate c =>
      RqCreate (MkCreateGroup (create_actor c) (create_operation_id c) (Trim (create_name c))
        (create_description c) (create_avatar_url c) (create_join_policy c) (create_max_members c))
  | RqUpdate c =>
      RqUpdate (MkUpdateGroup (update_actor c) (update_operation_id c) (update_group_id c)
        (update_expected_version c) (Trim <$> update_name c) (update_description c)
        (update_avatar_url c) (update_join_policy c))
  | RqSetMute c =>
      RqSetMute (MkSetMemberMute (mute_target c) (NormalizeMuteTimestamp (muted_until c)).2)
  | RqListMembers q =>
      RqListMembers (MkListGroupMembers (members_actor q) (members_group_id q) (after_user_id q)
        (NormalizePageSize (members_limit q)))
  | RqListGroups q =>
      RqListGroups (MkListMyGroups (groups_actor q) (after_group_id q)
        (NormalizePageSize (groups_limit q)))
  | _ => rq
  end.
End Requests.

(** ** What reaches the repository *)

Definition op_id_ok (s : list Z) : Prop := 1 ≤ size s ≤ kMaxOperationIdBytes.
Definition name_ok (s : list Z) : Prop := 1 ≤ size s ≤ kMaxNameBytes ∧ trimmed s.
Definition join_policy_ok (p : GroupJoinPolicy) : Prop := p = kInviteOnly ∨ p = kOpen.
Definition opt_ok {A} (P : A → Prop) (o : option A) : Prop := match o with Some x => P x | None => True end.

Definition target_ok (c : TargetCommand) : Prop :=
  target_actor c ≠ 0 ∧ target_group_id c ≠ 0 ∧ op_id_ok (target_operation_id c) ∧
  target_user_id c ≠ 0 ∧ target_user_id c ≠ target_actor c.

Definition membership_ok (c : MembershipCommand) : Prop :=
  membership_actor c ≠ 0 ∧ membership_group_id c ≠ 0 ∧ op_id_ok (membership_operation_id c).

(** The contract of the repository port. *)
Definition well_formed (rq : Request) : Prop :=
  match rq with
  | RqCreate c =>
      create_actor c ≠ 0 ∧ op_id_ok (create_operation_id c) ∧ name_ok (create_name c) ∧
      size (create_description c) ≤ kMaxDescriptionBytes ∧
      size (create_avatar_url c) ≤ kMaxAvatarUrlBytes ∧ join_policy_ok (create_join_policy c) ∧
      kMinMembers ≤ create_max_members c ≤ kMaxMembers
  | RqUpdate c =>
      update_actor c ≠ 0 ∧ update_group_id c ≠ 0 ∧ update_expected_version c ≠ 0 ∧
      op_id_ok (update_operation_id c) ∧ opt_ok name_ok (update_name c) ∧
      opt_ok (λ d, size d ≤ kMaxDescriptionBytes) (update_description c) ∧
      opt_ok (λ a, size a ≤ kMaxAvatarUrlBytes) (update_avatar_url c) ∧
      opt_ok join_policy_ok (update_join_policy c) ∧
      (is_Some (update_name c) ∨ is_Some (update_description c) ∨ is_Some (update_avatar_url c) ∨
       is_Some (update_join_policy c))
  | RqDisband c =>
      disband_actor c ≠ 0 ∧ disband_group_id c ≠ 0 ∧ disband_expected_version c ≠ 0 ∧
      op_id_ok (disband_operation_id c)
  | RqJoin c | RqLeave c => membership_ok c
  | RqInvite c | RqKick c | RqTransfer c => target_ok c
  | RqSetRole c => target_ok (role_target c) ∧ (new_role c = kAdmin ∨ new_role c = kMember)
  | RqSetMute c =>
      target_ok (mute_target c) ∧
      (muted_until c = [] ∨ ∃ f, valid_fields f ∧ muted_until c = mysql_datetime f)
  | RqListMembers q => members_actor q ≠ 0 ∧ members_group_id q ≠ 0 ∧ 1 ≤ members_limit q ≤ kMaxPageSize
  | RqListGroups q => groups_actor q ≠ 0 ∧ 1 ≤ groups_limit q ≤ kMaxPageSize
  | RqGet a g | RqCheckSend a g | RqPrepareSend a g => a ≠ 0 ∧ g ≠ 0
  end.

(** The page limits are unsigned. *)
Definition request_typed (rq : Request) : Prop :=
  match rq with
  | RqListMembers q => 0 ≤ members_limit q
  | RqListGroups q => 0 ≤ groups_limit q
  | _ => True
  end.

(** The raw limit is not too large, and the mute timestamp is readable. *)
Definition raw_ok (rq : Request) : Prop :=
  match rq with
  | RqListMembers q => members_limit q ≤ kMaxPageSize
  | RqListGroups q => groups_limit q ≤ kMaxPageSize
  | RqSetMute c => (NormalizeMuteTimestamp (muted_until c)).1 = true
  | _ => True
  end.

Lemma ValidOperationId_spec s : ValidOperationId s = true ↔ op_id_ok s.
Proof.
  unfold ValidOperationId, op_id_ok, empty. rewrite andb_true_iff, negb_true_iff, Z.eqb_neq, Z.leb_le.
  unfold size. lia.
Qed.

Lemma ValidJoinPolicy_spec p : ValidJoinPolicy p = true ↔ join_policy_ok p.
Proof. unfold join_policy_ok. destruct p; naive_solver. Qed.

Lemma ValidMutableRole_spec r : ValidMutableRole r = true ↔ r = kAdmin ∨ r = kMember.
Proof. destruct r; naive_solver. Qed.

Lemma ValidMutationIdentity_spec a g o :
  ValidMutationIdentity a g o = true ↔ a ≠ 0 ∧ g ≠ 0 ∧ op_id_ok o.
Proof.
  unfold ValidMutationIdentity. rewrite !andb_true_iff, !negb_true_iff, !Z.eqb_neq, ValidOperationId_spec.
  tauto.
Qed.

Lemma InvalidTarget_spec c : InvalidTarget c = false ↔ target_ok c.
Proof.
  unfold InvalidTarget, target_ok.
  rewrite !orb_false_iff, negb_false_iff, !Z.eqb_neq, ValidMutationIdentity_spec. tauto.
Qed.

Lemma name_guard s : empty (Trim s) || (kMaxNameBytes <? size (Trim s)) = false ↔ name_ok (Trim s).
Proof.
  unfold name_ok, empty. rewrite orb_false_iff, Z.eqb_neq, Z.ltb_ge.
  destruct (Trim_spec s) as (_ & _ & _ & _ & _ & Ht). unfold size. intuition lia.
Qed.

Lemma NormalizePageSize_range l : 0 ≤ l → 1 ≤ NormalizePageSize l ≤ kMaxPageSize.
Proof. unfold NormalizePageSize, kMaxPageSize, kDefaultPageSize. case_match; reflect_guards; lia. Qed.

Section Gate.
Context {S : Type} `{Repo : GroupRepositoryPort S}.

(** A request passes the gate as [rq'], or is refused. *)
Definition passes (rq rq' : Request) : Prop :=
  (∀ s : S, handle (Some s) rq = (Some (repo_call s rq').1, (repo_call s rq').2)) ∧
  (handle (S := S) None rq).1 = None ∧ response_status (handle (S := S) None rq).2 = kStorageError.
Definition refused (rq : Request) : Prop :=
  ∀ svc : Service (S := S),
    (handle svc rq).1 = svc ∧ response_status (handle svc rq).2 = kInvalidArgument.

(** The shape of every operation: a guard, then the repository. *)
Lemma gate_split {R} (wrap : R → Response) (guard : bool) (bad missing : R) (call : S → S * R)
    (P : Prop) rq rq' :
  (guard = false ↔ P) →
  (∀ svc, handle svc rq = respond wrap (if guard then (svc, bad) else WithRepository svc missing call)) →
  (∀ s, repo_call s rq' = respond wrap (call s)) →
  response_status (wrap bad) = kInvalidArgument → response_status (wrap missing) = kStorageError →
  (P → passes rq rq') ∧ (¬ P → refused rq).
Proof.
  intros Hg Hh Hc Hb Hm. split.
  - intros HP. apply Hg in HP. subst guard. unfold passes. rewrite !Hh. split; [|done].
    intros s. rewrite Hh, Hc. simpl. by destruct (call s).
  - intros HP svc. rewrite Hh. destruct guard; [done|]. destruct HP. by apply Hg.
Qed.

Ltac gate_guard :=
  rewrite ?orb_false_iff, ?negb_false_iff, ?Z.eqb_neq, ?Z.ltb_ge, ?ValidOperationId_spec,
    ?ValidJoinPolicy_spec, ?ValidMutationIdentity_spec, ?InvalidTarget_spec, ?ValidMutableRole_spec.

Lemma create_gate c : let P := well_formed (normalise (RqCreate c)) in
  (P → passes (RqCreate c) (normalise (RqCreate c))) ∧ (¬ P → refused (RqCreate c)).
Proof.
  eapply (gate_split RsMutation); try done. pose proof (name_guard (create_name c)) as Hn.
  rewrite orb_false_iff in Hn. simpl. gate_guard. rewrite <-Hn. unfold op_id_ok. rewrite Z.ltb_ge in *. tauto.
Qed.

Lemma update_gate c : let P := well_formed (normalise (RqUpdate c)) in
  (P → passes (RqUpdate c) (normalise (RqUpdate c))) ∧ (¬ P → refused (RqUpdate c)).
Proof.
  eapply (gate_split RsMutation); try done. simpl. gate_guard.
  rewrite !orb_true_iff, !bool_decide_eq_true.
  assert (match Trim <$> update_name c with
          | Some n => empty n || (kMaxNameBytes <? size n) | None => false end = false ↔
          opt_ok name_ok (Trim <$> update_name c)) as Hn
    by (destruct (update_name c); [apply name_guard|done]).
  assert (match update_description c with
          | Some d => kMaxDescriptionBytes <? size d | None => false end = false ↔
          opt_ok (λ d, size d ≤ kMaxDescriptionBytes) (update_description c)) as Hd
    by (destruct (update_description c); [apply Z.ltb_ge|done]).
  assert (match update_avatar_url c with
          | Some a => kMaxAvatarUrlBytes <? size a | None => false end = false ↔
          opt_ok (λ a, size a ≤ kMaxAvatarUrlBytes) (update_avatar_url c)) as Ha
    by (destruct (update_avatar_url c); [apply Z.ltb_ge|done]).
  assert (match update_join_policy c with
          | Some p => negb (ValidJoinPolicy p) | None => false end = false ↔
          opt_ok join_policy_ok (update_join_policy c)) as Hp.
  { destruct (update_join_policy c); simpl; [rewrite negb_false_iff; apply ValidJoinPolicy_spec|done]. }
  rewrite Hn, Hd, Ha, Hp. tauto.
Qed.

Lemma mute_gate c : let P := raw_ok (RqSetMute c) ∧ well_formed (normalise (RqSetMute c)) in
  (P → passes (RqSetMute c) (normalise (RqSetMute c))) ∧ (¬ P → refused (RqSetMute c)).
Proof.
  destruct (NormalizeMuteTimestamp (muted_until c)) as [ok until] eqn:Hn.
  apply (gate_split RsMutation (InvalidTarget (mute_target c) || negb ok)
    (InvalidMutation (str "invalid SetMemberMute application request")) MutationUnavailable
    (λ s, repo_SetMemberMute s (MkSetMemberMute (mute_target c) until))); try done;
    [|intros svc; simpl; unfold SetMemberMute; by rewrite Hn|intros s; simpl; by rewrite Hn].
  simpl. rewrite Hn. simpl. gate_guard. split.
  - intros [Ht ->]. split; [done|]. split; [done|].
    destruct (decide (muted_until c = [])) as [He|He].
    + left. rewrite He in Hn. vm_compute in Hn. by injection Hn as <-.
    + right. destruct (Normalize_sound _ _ He Hn) as (f & ? & _ & ?). eauto.
  - intros (-> & Ht & _). done.
Qed.

(** The remaining operations. *)
Lemma other_gate rq :
  match rq with RqCreate _ | RqUpdate _ | RqSetMute _ => False | _ => True end → request_typed rq →
  let P := raw_ok rq ∧ well_formed (normalise rq) in
  (P → passes rq (normalise rq)) ∧ (¬ P → refused rq).
Proof.
  destruct rq; try done; intros _ Ht P; subst P; simpl in Ht;
    [eapply (gate_split RsGet)|eapply (gate_split RsMutation)..|eapply (gate_split RsMembers)
    |eapply (gate_split RsGroups)|eapply (gate_split RsSend)|eapply (gate_split RsSend)];
    try (intros; reflexivity); try reflexivity; simpl; gate_guard;
    try (unfold membership_ok; rewrite ?ValidMutationIdentity_spec; tauto).
  - pose proof (NormalizePageSize_range _ Ht). tauto.
  - pose proof (NormalizePageSize_range _ Ht). tauto.
Qed.

(** C40: the service is a gate in front of the repository.  A request is passed
    on, in its normal form (trimmed name, MySQL timestamp, bounded page size),
    exactly when that form meets the contract of the port: identities present,
    operation id of 1 to 64 bytes, name of 1 to 128 bytes without surrounding
    spaces, known join policy and role, another member as target, 2 to 500
    members, 1 to 100 entries per page.  Every other request is answered with
    [kInvalidArgument] without touching the repository, and without a repository
    the answer to a good request is [kStorageError]. *)
Theorem service_gates_repository rq :
  request_typed rq →
  (raw_ok rq ∧ well_formed (normalise rq) → passes rq (normalise rq)) ∧
  (¬ (raw_ok rq ∧ well_formed (normalise rq)) → refused rq).
Proof.
  intros Ht. destruct rq; try by apply other_gate.
  - destruct (create_gate c) as [H1 H2]. simpl in *. split; [tauto|]. intros H. apply H2. tauto.
  - destruct (update_gate c) as [H1 H2]. simpl in *. split; [tauto|]. intros H. apply H2. tauto.
  - apply mute_gate.
Qed.
End Gate.

(** A repository that counts its calls and accepts everything. *)
#[local] Instance counting_repository : GroupRepositoryPort Z :=
  let ok s := (s + 1, MkMutationResult kSucceeded kApplied None []) in
  {| repo_CreateGroup s _ := ok s;
     repo_GetGroup s _ _ := (s + 1, MkGetResult kNotFound None []);
     repo_UpdateGroup s _ := ok s; repo_DisbandGroup s _ := ok s; repo_JoinGroup s _ := ok s;
     repo_LeaveGroup s _ := ok s; repo_InviteMember s _ := ok s; repo_KickMember s _ := ok s;
     repo_SetMemberRole s _ := ok s; repo_SetMemberMute s _ := ok s; repo_TransferOwnership s _ := ok s;
     repo_ListGroupMembers s _ := (s + 1, MkMemberListResult kSucceeded [] false []);
     repo_ListMyGroups s _ := (s + 1, MkGroupListResult kSucceeded [] false []);
     repo_CheckGroupSendPermission s _ _ := (s + 1, MkSendResult kSucceeded true kMember 1 1 [] []);
     repo_PrepareGroupMessageSend s _ _ := (s + 1, MkSendResult kSucceeded true kMember 1 1 [] []) |}.

Lemma service_gates_repository_witness :
  let kick target := RqKick (MkTarget 5 (str "op-1") 9 target) in
  (∀ s : Z, (handle (Some s) (kick 7)).1 = Some (s + 1)) ∧
  (∀ s : Z, (handle (Some s) (kick 5)).1 = Some s).
Proof.
  intros kick. split; intros s.
  - destruct (service_gates_repository (kick 7) I) as [Hp _].
    destruct Hp as [Hp _]; [vm_compute; intuition congruence|]. rewrite Hp. reflexivity.
  - destruct (service_gates_repository (kick 5) I) as [_ Hr].
    destruct (Hr ltac:(vm_compute; intuition congruence) (Some s)) as [H _]. exact H.
Defined.
