(* ===== verification/OutboxRelay.v ===== *)
(** * The outbox relay

    Models [src/services/outbox/OutboxRelay.h] and [OutboxRelay.cpp]: events that a
    service wrote to its outbox table are claimed in batches, published to the
    broker by workers and marked in the table, while leases are renewed; and the
    shutdown that hands back what it does not publish.  The threads of the relay
    are interleaved by steps: the poll thread, the renewal thread, each worker and
    the thread that shuts the relay down.  What the store and the broker answer, and
    whether a wait timed out, are arguments of the steps.  [taken] and [log] record
    the records claimed and the calls of the store and the broker that decide what
    becomes of them.

    [EventCodec::Decode] rests on a JSON library and is a parameter, as are
    [std::hash] and the process id.  [CleanupPublished] changes nothing here and is
    left out, as is the failure to start a thread. *)
From Stdlib Require Import ZArith Lia.
From stdpp Require Import base gmap list strings pretty numbers.
From S2P Require Import Prelude.
Local Open Scope Z_scope.
Local Open Scope width_scope.

(** ** Data *)

Inductive OutboxStatus := kPending | kPublished_ | kRetry | kQuarantined.
#[export] Instance OutboxStatus_eq_dec : EqDecision OutboxStatus.
Proof. solve_decision. Defined.

Record OutboxRecord := MkRecord {
  outbox_id : Z;
  event_id : string;
  event_type : string;
  schema_version : Z;
  aggregate_type : string;
  aggregate_id : string;
  producer_service : string;
  topic : string;
  tag : string;
  message_key : string;
  payload : string;
  status : OutboxStatus;
  attempt_count : Z;
  locked_by : string;
}.
#[export] Instance OutboxRecord_eq_dec : EqDecision OutboxRecord.
Proof. solve_decision. Defined.

(** What [ValidateRecord] reads of a [DomainEvent]. *)
Record DomainEvent := MkEvent {
  e_schema_version : Z;
  e_event_id : string;
  e_event_type : string;
  e_aggregate_type : string;
  e_aggregate_id : string;
  e_producer_service : string;
}.

Inductive PublishStatus := kPublished | kRetryableFailure | kPermanentFailure.
#[export] Instance PublishStatus_eq_dec : EqDecision PublishStatus.
Proof. solve_decision. Defined.

Record OutboxRelayOptions := MkOptions {
  instance_id : string;
  allowed_topic : string;
  batch_size : Z;
  publish_batch_size : Z;
  worker_threads : Z;
  max_inflight : Z;
  poll_interval_ms : Z;
  lease_ms : Z;
  lease_renew_interval_ms : Z;
  retry_base_ms : Z;
  retry_max_ms : Z;
  published_retention_hours : Z;
  cleanup_interval_ms : Z;
  cleanup_batch_size : Z;
}.

Definition kMaxWorkers : Z := 64.
Definition kMaxBatchSize : Z := 1024.
Definition kMaxInflight : Z := 8192.
Definition kMaxLeaseMs : Z := 10 * 60 * 1000.

(** [int] arithmetic: undefined outside of its range. *)
Definition int_of (z : Z) : option Z :=
  if (- 2 ^ 31 <=? z) && (z <? 2 ^ 31) then Some z else None.

(** [Some None] is success. *)
Definition ValidateOptions (store_ publisher_ : bool) (o : OutboxRelayOptions)
  : option (option string) :=
  if negb store_ then Some (Some "outbox relay requires a store")
  else if negb publisher_ then Some (Some "outbox relay requires a publisher")
  else if (String.length (instance_id o) =? 0)%nat || (64 <? String.length (instance_id o))%nat then
    Some (Some "outbox relay instance_id must be 1-64 characters")
  else if (String.length (allowed_topic o) =? 0)%nat || (128 <? String.length (allowed_topic o))%nat then
    Some (Some "outbox relay allowed_topic is invalid")
  else if (batch_size o =? 0) || (kMaxBatchSize <? batch_size o) then
    Some (Some "outbox relay batch_size is invalid")
  else if (worker_threads o =? 0) || (kMaxWorkers <? worker_threads o) then
    Some (Some "outbox relay worker_threads is invalid")
  else if (publish_batch_size o =? 0) || (64 <? publish_batch_size o) ||
          (max_inflight o <? publish_batch_size o) then
    Some (Some "outbox relay publish_batch_size is invalid")
  else if (max_inflight o <? worker_threads o) || (max_inflight o <? batch_size o) ||
          (kMaxInflight <? max_inflight o) then
    Some (Some "outbox relay max_inflight must cover workers and batch_size")
  else if poll_interval_ms o <=? 0 then
    Some (Some "outbox relay poll_interval_ms must be positive")
  else if (lease_ms o <=? 0) || (kMaxLeaseMs <? lease_ms o) then
    Some (Some "outbox relay lease_ms is invalid")
  else if lease_renew_interval_ms o <=? 0 then
    Some (Some "outbox relay lease must be more than 3x renew interval")
  else
    thrice ← int_of (lease_renew_interval_ms o * 3);
    Some (
      if lease_ms o <=? thrice then
        Some "outbox relay lease must be more than 3x renew interval"
      else if (retry_base_ms o <=? 0) || (retry_max_ms o <? retry_base_ms o) then
        Some "outbox relay retry window is invalid"
      else if (published_retention_hours o <=? 0) || (cleanup_interval_ms o <=? 0) ||
              (cleanup_batch_size o =? 0) then
        Some "outbox relay cleanup configuration is invalid"
      else None).

(** The outcome of a change of one row, and of a batch of them. *)
Record OutboxMutationResult := MkMutation { success : bool; ownership_lost : bool }.
Record OutboxBatchMutationResult := MkBatch { affected_rows : Z; ownership_lost_rows : Z }.

(** The calls that decide what becomes of a record. *)
Inductive Call :=
| CPublish (r : OutboxRecord) (st : PublishStatus)
| CMarkPublished (rs : list OutboxRecord)
| CMarkRetry (r : OutboxRecord) (retry_after_ms : Z)
| CMarkQuarantined (r : OutboxRecord) (publish_attempted : bool)
| CReleaseClaim (r : OutboxRecord).

Inductive Counter :=
| claimed_total_ | published_total_ | retry_total_ | quarantined_total_
| ownership_lost_total_ | publish_failure_total_ | claim_failure_total_.
#[export] Instance Counter_eq_dec : EqDecision Counter.
Proof. solve_decision. Defined.

(** ** Threads *)

(** The poll thread: at the test of [running_]; before it reads [inflight_]; before
    the claim, with the size it read; with records that are not yet in
    [inflight_], or not yet in the queue; before it notifies the workers; and in
    the wait at the end of a turn, where [cl] is [capacity_limited]: before the
    predicate, with the predicate found false and the mutex still held, asleep. *)
Inductive PollPc :=
| PTop | PCount | PClaim (inflight_count : Z) | PClaimed (rs : list OutboxRecord)
| PPush (rs : list OutboxRecord) | PNotify (rs : list OutboxRecord)
| PTest (cl : bool) | PChecked (cl : bool) | PSleep (cl : bool) | PExit.

(** A worker: before the predicate of its wait, with the predicate found false and
    [queue_mutex_] still held, asleep; with [items] taken, of which [todo] are to be
    processed and [published] are to be marked; finishing records; about to notify
    the poll thread. *)
Inductive WorkerPc :=
| WTest | WChecked | WSleep
| WWork (items todo published : list OutboxRecord)
| WFinish (rs : list OutboxRecord)
| WNotify (rs : list OutboxRecord)
| WEnd.
#[export] Instance WorkerPc_eq_dec : EqDecision WorkerPc.
Proof. solve_decision. Defined.

Inductive RenewPc := RLoop | RRenew (owned : list (Z * string)) | REnd.

(** [ShutdownGraceful]. *)
Inductive StopPc :=
| SIdle | SNotify | SJoinPoll | SDrain | SAbandon
| SRelease (rs : list OutboxRecord) | SErase (r : OutboxRecord) (rs : list OutboxRecord)
| SRefill (rs : list OutboxRecord)
| SStopWorkers | SNotifyWorkers | SJoinWorkers | SStopRenew | SJoinRenew | SDone.

Record Relay := MkRelay {
  running_ : bool;
  worker_stop_ : bool;
  renew_stop_ : bool;
  claim_generation_ : Z;
  queue_ : list OutboxRecord;
  inflight_ : gmap Z string;
  counters : Counter → Z;
  drained : bool;
  poller : PollPc;
  renewer : RenewPc;
  workers : list WorkerPc;
  stopper : StopPc;
  taken : list OutboxRecord;
  log : list Call;
}.

Definition set_running (s : Relay) x := MkRelay x (worker_stop_ s) (renew_stop_ s)
  (claim_generation_ s) (queue_ s) (inflight_ s) (counters s) (drained s) (poller s) (renewer s)
  (workers s) (stopper s) (taken s) (log s).
Definition set_worker_stop (s : Relay) x := MkRelay (running_ s) x (renew_stop_ s)
  (claim_generation_ s) (queue_ s) (inflight_ s) (counters s) (drained s) (poller s) (renewer s)
  (workers s) (stopper s) (taken s) (log s).
Definition set_renew_stop (s : Relay) x := MkRelay (running_ s) (worker_stop_ s) x
  (claim_generation_ s) (queue_ s) (inflight_ s) (counters s) (drained s) (poller s) (renewer s)
  (workers s) (stopper s) (taken s) (log s).
Definition set_generation (s : Relay) x := MkRelay (running_ s) (worker_stop_ s) (renew_stop_ s)
  x (queue_ s) (inflight_ s) (counters s) (drained s) (poller s) (renewer s)
  (workers s) (stopper s) (taken s) (log s).
Definition set_queue (s : Relay) x := MkRelay (running_ s) (worker_stop_ s) (renew_stop_ s)
  (claim_generation_ s) x (inflight_ s) (counters s) (drained s) (poller s) (renewer s)
  (workers s) (stopper s) (taken s) (log s).
Definition set_inflight (s : Relay) x := MkRelay (running_ s) (worker_stop_ s) (renew_stop_ s)
  (claim_generation_ s) (queue_ s) x (counters s) (drained s) (poller s) (renewer s)
  (workers s) (stopper s) (taken s) (log s).
Definition set_counters (s : Relay) x := MkRelay (running_ s) (worker_stop_ s) (renew_stop_ s)
  (claim_generation_ s) (queue_ s) (inflight_ s) x (drained s) (poller s) (renewer s)
  (workers s) (stopper s) (taken s) (log s).
Definition set_drained (s : Relay) x := MkRelay (running_ s) (worker_stop_ s) (renew_stop_ s)
  (claim_generation_ s) (queue_ s) (inflight_ s) (counters s) x (poller s) (renewer s)
  (workers s) (stopper s) (taken s) (log s).
Definition set_poller (s : Relay) x := MkRelay (running_ s) (worker_stop_ s) (renew_stop_ s)
  (claim_generation_ s) (queue_ s) (inflight_ s) (counters s) (drained s) x (renewer s)
  (workers s) (stopper s) (taken s) (log s).
Definition set_renewer (s : Relay) x := MkRelay (running_ s) (worker_stop_ s) (renew_stop_ s)
  (claim_generation_ s) (queue_ s) (inflight_ s) (counters s) (drained s) (poller s) x
  (workers s) (stopper s) (taken s) (log s).
Definition set_workers (s : Relay) x := MkRelay (running_ s) (worker_stop_ s) (renew_stop_ s)
  (claim_generation_ s) (queue_ s) (inflight_ s) (counters s) (drained s) (poller s) (renewer s)
  x (stopper s) (taken s) (log s).
Definition set_stopper (s : Relay) x := MkRelay (running_ s) (worker_stop_ s) (renew_stop_ s)
  (claim_generation_ s) (queue_ s) (inflight_ s) (counters s) (drained s) (poller s) (renewer s)
  (workers s) x (taken s) (log s).
Definition take_records (s : Relay) rs := MkRelay (running_ s) (worker_stop_ s) (renew_stop_ s)
  (claim_generation_ s) (queue_ s) (inflight_ s) (counters s) (drained s) (poller s) (renewer s)
  (workers s) (stopper s) (taken s ++ rs) (log s).
Definition call (s : Relay) c := MkRelay (running_ s) (worker_stop_ s) (renew_stop_ s)
  (claim_generation_ s) (queue_ s) (inflight_ s) (counters s) (drained s) (poller s) (renewer s)
  (workers s) (stopper s) (taken s) (log s ++ [c]).

Definition set_worker (s : Relay) (i : nat) (w : WorkerPc) : Relay :=
  set_workers s (<[i := w]> (workers s)).

(** [fetch_add] on a counter. *)
Definition fetch_add (s : Relay) (c : Counter) (n : Z) : Relay :=
  set_counters s (λ c', if decide (c' = c) then counters s c +₆₄ n else counters s c').

(** ** Retry delays *)

Section Delay.
Variable hash : string → Z.    (* [std::hash] of strings *)

Fixpoint RetryLoop (n : nat) (max_ms delay : Z) : Z :=
  match n with
  | O => delay
  | S n => if max_ms <=? delay then max_ms
           else RetryLoop n max_ms (Z.min max_ms (delay *₆₄ 2))
  end.

Definition ComputeRetryDelay (event_id : string) (next_attempt_count base_ms max_ms : Z) : Z :=
  if (base_ms <=? 0) || (max_ms <? base_ms) then 0
  else
    let exponent := if 0 <? next_attempt_count then next_attempt_count - 1 else 0 in
    let delay := RetryLoop (Z.to_nat (Z.min exponent 30)) max_ms base_ms in
    let seed := (event_id +:+ ":" +:+ pretty next_attempt_count)%string in
    let bucket := hash seed `mod` 401 - 200 in
    let jittered := delay + Z.quot (delay * bucket) 1000 in
    Z.max 1 (Z.min jittered max_ms).

End Delay.

Lemma RetryLoop_spec n : ∀ max_ms delay,
  0 < delay ≤ max_ms → max_ms < 2 ^ 31 → RetryLoop n max_ms delay = Z.min max_ms (delay * 2 ^ Z.of_nat n).
Proof.
  induction n as [|n IH]; intros max_ms delay Hd Hm; cbn [RetryLoop]; [lia|].
  assert (2 ^ Z.of_nat (S n) = 2 * 2 ^ Z.of_nat n) as Hp by (rewrite Nat2Z.inj_succ, Z.pow_succ_r; lia).
  assert (0 < 2 ^ Z.of_nat n) by (apply Z.pow_pos_nonneg; lia).
  destruct (max_ms <=? delay) eqn:E; [apply Z.leb_le in E|apply Z.leb_gt in E].
  - rewrite Hp. nia.
  - rewrite u64_small by (unfold is_u64; lia). rewrite IH by lia. rewrite Hp. nia.
Qed.

Lemma quot_fifth d b :
  0 < d → -200 ≤ b ≤ 200 → -200 * d ≤ 1000 * Z.quot (d * b) 1000 ≤ 200 * d.
Proof.
  intros Hd Hb. assert (-200 * d ≤ d * b ≤ 200 * d) as Hp by nia.
  destruct (Z.le_gt_cases 0 (d * b)).
  - pose proof (Z.mul_quot_le (d * b) 1000 ltac:(lia) ltac:(lia)). lia.
  - pose proof (Z.mul_quot_ge (d * b) 1000 ltac:(lia) ltac:(lia)). lia.
Qed.

(** the delay before a retry is the base delay doubled with every attempt, up to
    thirty times and at most the maximum, moved by at most a fifth either way; it
    is never less than a millisecond nor more than the maximum. *)
Theorem relay_retry_delay hash event_id next_attempt_count base_ms max_ms :
  0 < base_ms ≤ max_ms → max_ms < 2 ^ 31 → 0 ≤ next_attempt_count < 2 ^ 32 →
  let d := Z.min max_ms (base_ms * 2 ^ Z.min (Z.max 0 (next_attempt_count - 1)) 30) in
  let delay := ComputeRetryDelay hash event_id next_attempt_count base_ms max_ms in
  1 ≤ delay ≤ max_ms ∧ 4 * d ≤ 5 * delay ≤ 6 * d.
Proof.
  intros Hb Hm Hn d delay. unfold delay, ComputeRetryDelay.
  rewrite (proj2 (Z.leb_gt base_ms 0)), (proj2 (Z.ltb_ge max_ms base_ms)) by lia. cbn [orb].
  assert ((if 0 <? next_attempt_count then next_attempt_count - 1 else 0)
          = Z.max 0 (next_attempt_count - 1)) as ->.
  { destruct (0 <? next_attempt_count) eqn:E; [apply Z.ltb_lt in E|apply Z.ltb_ge in E]; lia. }
  rewrite RetryLoop_spec, Z2Nat.id by lia.
  fold d. assert (0 < d ≤ max_ms) as Hd.
  { unfold d. assert (0 < 2 ^ Z.min (Z.max 0 (next_attempt_count - 1)) 30) by (apply Z.pow_pos_nonneg; lia).
    nia. }
  set (bucket := _ - 200). assert (-200 ≤ bucket ≤ 200) as Hk.
  { unfold bucket. match goal with |- context [?h `mod` 401] => pose proof (Z.mod_pos_bound h 401 ltac:(lia)) end.
    lia. }
  pose proof (quot_fifth d bucket ltac:(lia) Hk). lia.
Qed.

(** ** Operations *)

(** What the store, the broker and the clock answer during a step. *)
Record Answers := MkAnswers {
  claim : option (list OutboxRecord);    (* [None] is a failure *)
  publish : PublishStatus;
  mutation : OutboxMutationResult;
  batch : OutboxBatchMutationResult;
  timeout : bool;                        (* a wait has timed out *)
}.

Section Relay.
Variable o : OutboxRelayOptions.
Variable hash : string → Z.
Variable pid : Z.
Variable decode : string → DomainEvent + string.    (* [EventCodec::Decode] *)

(** [Start] with valid options. *)
Definition Start : Relay :=
  MkRelay true false false 0 [] ∅ (λ _, 0) true PTop RLoop
    (replicate (Z.to_nat (worker_threads o)) WTest) SIdle [] [].

Definition NextClaimToken (s : Relay) : Relay * string :=
  let generation := claim_generation_ s +₆₄ 1 in
  (set_generation s generation,
   (instance_id o +:+ ":" +:+ pretty pid +:+ ":" +:+ pretty generation)%string).

(** [None] is success. *)
Definition ValidateRecord (r : OutboxRecord) : option string :=
  if (outbox_id r =? 0) || bool_decide (event_id r = "") || bool_decide (event_type r = "") ||
     bool_decide (message_key r = "") then
    Some "outbox record has missing identity metadata"
  else if negb (bool_decide (topic r = allowed_topic o)) then
    Some "outbox record topic is outside configured allowlist"
  else if negb (schema_version r =? 1) then
    Some "outbox record schema version is unsupported"
  else
    match decode (payload r) with
    | inr message => Some message
    | inl event =>
        if negb (e_schema_version event =? schema_version r) ||
           negb (bool_decide (e_event_id event = event_id r)) ||
           negb (bool_decide (e_event_type event = event_type r)) ||
           negb (bool_decide (e_aggregate_type event = aggregate_type r)) ||
           negb (bool_decide (e_aggregate_id event = aggregate_id r)) ||
           negb (bool_decide (e_producer_service event = producer_service r)) then
          Some "outbox row metadata does not match encoded event envelope"
        else if negb (bool_decide (tag r = e_event_type event)) then
          Some "outbox tag does not match event_type"
        else if negb (bool_decide (message_key r = e_event_id event)) then
          Some "outbox message_key does not match event_id"
        else None
    end.

(** The counters after a change of a row that counts as [c] when it succeeds. *)
Definition count_mutation (s : Relay) (c : Counter) (m : OutboxMutationResult) : Relay :=
  if success m then fetch_add s c 1
  else if ownership_lost m then fetch_add s ownership_lost_total_ 1
  else s.

Definition ProcessRecord (s : Relay) (r : OutboxRecord) (a : Answers) : Relay * bool :=
  match ValidateRecord r with
  | Some _ =>
      (count_mutation (call s (CMarkQuarantined r false)) quarantined_total_ (mutation a), false)
  | None =>
      let s := call s (CPublish r (publish a)) in
      match publish a with
      | kPublished => (s, true)
      | kPermanentFailure =>
          let s := fetch_add s publish_failure_total_ 1 in
          (count_mutation (call s (CMarkQuarantined r true)) quarantined_total_ (mutation a), false)
      | kRetryableFailure =>
          let s := fetch_add s publish_failure_total_ 1 in
          let next_attempt :=
            if attempt_count r =? 2 ^ 32 - 1 then attempt_count r else attempt_count r + 1 in
          let retry_after_ms :=
            ComputeRetryDelay hash (event_id r) next_attempt (retry_base_ms o) (retry_max_ms o) in
          (count_mutation (call s (CMarkRetry r retry_after_ms)) retry_total_ (mutation a), false)
      end
  end.

(** [MarkPublishedBatch] and the counters after it. *)
Definition MarkBatch (s : Relay) (published : list OutboxRecord) (m : OutboxBatchMutationResult)
  : Relay :=
  match published with
  | [] => s
  | _ =>
      let s := call s (CMarkPublished published) in
      let size := Z.of_nat (length published) in
      if (affected_rows m <=? size) && (ownership_lost_rows m <=? size - affected_rows m) then
        let s := fetch_add s published_total_ (affected_rows m) in
        let s := fetch_add s ownership_lost_total_ (ownership_lost_rows m) in
        fetch_add s publish_failure_total_ (size - affected_rows m - ownership_lost_rows m)
      else fetch_add s publish_failure_total_ size
  end.

(** The locked part of [FinishRecord]; the boolean is [refill_ready]. *)
Definition threshold : Z := max_inflight o - batch_size o.
Definition FinishRecord (s : Relay) (id : Z) : Relay * bool :=
  let before := Z.of_nat (size (inflight_ s)) in
  let inflight := delete id (inflight_ s) in
  (set_inflight s inflight, (threshold <? before) && (Z.of_nat (size inflight) <=? threshold)).

(** [lifecycle_cv_.notify_all]; the renewal thread only waits for its interval. *)
Definition notify_poller (s : Relay) : Relay :=
  match poller s with PSleep cl => set_poller s (PTest cl) | _ => s end.
(** [queue_cv_.notify_all]. *)
Definition notify_workers (s : Relay) : Relay :=
  set_workers s ((λ w, match w with WSleep => WTest | _ => w end) <$> workers s).

(** Who holds a mutex over more than one step. *)
Definition queue_locked (s : Relay) : bool :=
  existsb (λ w, match w with WChecked => true | _ => false end) (workers s).
Definition lifecycle_locked (s : Relay) : bool :=
  match poller s with PChecked _ => true | _ => false end.

(** The records of a claim enter [inflight_] in order. *)
Definition insert_inflight (m : gmap Z string) (rs : list OutboxRecord) : gmap Z string :=
  foldl (λ m r, <[outbox_id r := locked_by r]> m) m rs.

(** The predicate of the wait of the poll thread. *)
Definition poll_ready (s : Relay) (cl : bool) : bool :=
  negb (running_ s) || (cl && (Z.of_nat (size (inflight_ s)) <=? threshold)).

Definition PollStep (s : Relay) (a : Answers) : Relay :=
  match poller s with
  | PTop => set_poller s (if running_ s then PCount else PExit)
  | PCount => set_poller s (PClaim (Z.of_nat (size (inflight_ s))))
  | PClaim inflight_count =>
      if threshold <? inflight_count then set_poller s (PTest true)
      else
        let '(s, _) := NextClaimToken s in
        match claim a with
        | None => set_poller (fetch_add s claim_failure_total_ 1) (PTest false)
        | Some [] => set_poller s (PTest false)
        | Some rs => set_poller (take_records s rs) (PClaimed rs)
        end
  | PClaimed rs => set_poller (set_inflight s (insert_inflight (inflight_ s) rs)) (PPush rs)
  | PPush rs =>
      if queue_locked s then s
      else set_poller (set_queue s (queue_ s ++ rs)) (PNotify rs)
  | PNotify rs =>
      set_poller (notify_workers (fetch_add s claimed_total_ (Z.of_nat (length rs)))) PTop
  | PTest cl => set_poller s (if poll_ready s cl then PTop else PChecked cl)
  | PChecked cl => set_poller s (PSleep cl)
  | PSleep cl => if timeout a then set_poller s PTop else s
  | PExit => s
  end.

Definition WorkerStep (s : Relay) (i : nat) (a : Answers) : Relay :=
  match workers s !! i with
  | Some WTest =>
      if queue_locked s then s
      else match queue_ s with
      | [] => set_worker s i (if worker_stop_ s then WEnd else WChecked)
      | _ =>
          let n := Z.to_nat (publish_batch_size o) in
          let items := take n (queue_ s) in
          set_worker (set_queue s (drop n (queue_ s))) i (WWork items items [])
      end
  | Some WChecked => set_worker s i WSleep
  | Some (WWork items (r :: todo) published) =>
      let '(s, ok) := ProcessRecord s r a in
      set_worker s i (WWork items todo (if ok then published ++ [r] else published))
  | Some (WWork items [] published) =>
      set_worker (MarkBatch s published (batch a)) i (WFinish items)
  | Some (WFinish (r :: rs)) =>
      let '(s, refill_ready) := FinishRecord s (outbox_id r) in
      set_worker s i (if refill_ready then WNotify rs else WFinish rs)
  | Some (WFinish []) => set_worker s i WTest
  | Some (WNotify rs) =>
      if lifecycle_locked s then s else set_worker (notify_poller s) i (WFinish rs)
  | Some WSleep | Some WEnd | None => s
  end.

(** The renewals of one turn; a renewal only changes the lease in the store. *)
Definition RenewStep (s : Relay) (a : Answers) : Relay :=
  match renewer s with
  | RLoop => set_renewer s (if renew_stop_ s then REnd else RRenew (map_to_list (inflight_ s)))
  | RRenew (_ :: owned) =>
      let s := if negb (success (mutation a)) && ownership_lost (mutation a)
               then fetch_add s ownership_lost_total_ 1 else s in
      set_renewer s (RRenew owned)
  | RRenew [] => set_renewer s RLoop
  | REnd => s
  end.

Definition StopStep (s : Relay) (a : Answers) : Relay :=
  match stopper s with
  | SIdle => set_stopper (set_running s false) SNotify
  | SNotify => set_stopper (notify_poller s) SJoinPoll
  | SJoinPoll => match poller s with PExit => set_stopper s SDrain | _ => s end
  | SDrain =>
      if decide (inflight_ s = ∅) then set_stopper (set_drained s true) SStopWorkers
      else if timeout a then set_stopper (set_drained s false) SAbandon
      else s
  | SAbandon =>
      if queue_locked s then s else set_stopper (set_queue s []) (SRelease (queue_ s))
  | SRelease (r :: rs) =>
      let s := call s (CReleaseClaim r) in
      let s := if negb (success (mutation a)) && ownership_lost (mutation a)
               then fetch_add s ownership_lost_total_ 1 else s in
      set_stopper s (SErase r rs)
  | SRelease [] => set_stopper s SStopWorkers
  | SErase r rs =>
      let '(s, refill_ready) := FinishRecord s (outbox_id r) in
      set_stopper s (if refill_ready then SRefill rs else SRelease rs)
  | SRefill rs => if lifecycle_locked s then s else set_stopper (notify_poller s) (SRelease rs)
  | SStopWorkers => set_stopper (set_worker_stop s true) SNotifyWorkers
  | SNotifyWorkers => set_stopper (notify_workers s) SJoinWorkers
  | SJoinWorkers =>
      if forallb (λ w, match w with WEnd => true | _ => false end) (workers s)
      then set_stopper s SStopRenew else s
  | SStopRenew => set_stopper (set_renew_stop s true) SJoinRenew
  | SJoinRenew => match renewer s with REnd => set_stopper s SDone | _ => s end
  | SDone => s
  end.

(** A step of a thread, or a spurious wake-up. *)
Inductive RelayEvent :=
| EPoll (a : Answers)
| EWorker (i : nat) (a : Answers)
| ERenew (a : Answers)
| EStop (a : Answers)
| ESpurious (i : nat).

Definition relay_step (s : Relay) (ev : RelayEvent) : Relay :=
  match ev with
  | EPoll a => PollStep s a
  | EWorker i a => WorkerStep s i a
  | ERenew a => RenewStep s a
  | EStop a => StopStep s a
  | ESpurious i => match workers s !! i with Some WSleep => set_worker s i WTest | _ => s end
  end.

Definition relay_run : Relay → list RelayEvent → Relay := foldl relay_step.

(** ** What a step does *)

Definition calls (s : Relay) (cs : list Call) : Relay :=
  MkRelay (running_ s) (worker_stop_ s) (renew_stop_ s) (claim_generation_ s) (queue_ s)
    (inflight_ s) (counters s) (drained s) (poller s) (renewer s) (workers s) (stopper s) (taken s)
    (log s ++ cs).

Definition process_ok (r : OutboxRecord) (a : Answers) : bool :=
  match ValidateRecord r, publish a with None, kPublished => true | _, _ => false end.

(** The calls that [ProcessRecord] makes. *)
Definition process_calls (r : OutboxRecord) (a : Answers) : list Call :=
  match ValidateRecord r with
  | Some _ => [CMarkQuarantined r false]
  | None =>
      CPublish r (publish a) ::
      match publish a with
      | kPublished => []
      | kPermanentFailure => [CMarkQuarantined r true]
      | kRetryableFailure =>
          [CMarkRetry r (ComputeRetryDelay hash (event_id r)
             (if attempt_count r =? 2 ^ 32 - 1 then attempt_count r else attempt_count r + 1)
             (retry_base_ms o) (retry_max_ms o))]
      end
  end.

Lemma set_counters_id s : set_counters s (counters s) = s.
Proof. by destruct s. Qed.

Lemma count_mutation_eq s c m : ∃ f, count_mutation s c m = set_counters s f.
Proof.
  unfold count_mutation, fetch_add. destruct (success m); [by eexists|].
  destruct (ownership_lost m); [by eexists|]. exists (counters s). by rewrite set_counters_id.
Qed.

Lemma ProcessRecord_eq s r a :
  ∃ f, ProcessRecord s r a = (set_counters (calls s (process_calls r a)) f, process_ok r a).
Proof.
  unfold ProcessRecord, process_calls, process_ok. destruct (ValidateRecord r).
  - destruct (count_mutation_eq (call s (CMarkQuarantined r false)) quarantined_total_ (mutation a))
      as [f ->]. by exists f.
  - destruct (publish a).
    + by exists (counters s).
    + match goal with |- context [count_mutation ?s1 ?c ?m] =>
        destruct (count_mutation_eq s1 c m) as [f ->] end.
      exists f. unfold set_counters, calls. cbn. by rewrite <-app_assoc.
    + match goal with |- context [count_mutation ?s1 ?c ?m] =>
        destruct (count_mutation_eq s1 c m) as [f ->] end.
      exists f. unfold set_counters, calls. cbn. by rewrite <-app_assoc.
Qed.

Definition mark_calls (published : list OutboxRecord) : list Call :=
  match published with [] => [] | _ => [CMarkPublished published] end.

Lemma MarkBatch_eq s published m :
  ∃ f, MarkBatch s published m = set_counters (calls s (mark_calls published)) f.
Proof.
  unfold MarkBatch, mark_calls. destruct published as [|r rs].
  - exists (counters s). destruct s. unfold set_counters, calls. cbn. by rewrite app_nil_r.
  - case_match; by eexists.
Qed.

Lemma lost_eq s a :
  ∃ f, (if negb (success (mutation a)) && ownership_lost (mutation a)
        then fetch_add s ownership_lost_total_ 1 else s) = set_counters s f.
Proof. case_match; [by eexists|]. exists (counters s). by rewrite set_counters_id. Qed.

(** ** Every claim is settled once *)

Definition poll_hands (p : PollPc) : list OutboxRecord :=
  match p with PClaimed rs | PPush rs => rs | _ => [] end.
Definition worker_hands (w : WorkerPc) : list OutboxRecord :=
  match w with WWork _ todo published => todo ++ published | _ => [] end.
Definition stop_hands (p : StopPc) : list OutboxRecord :=
  match p with SRelease rs | SErase _ rs | SRefill rs => rs | _ => [] end.

(** The records that were claimed and whose fate is open. *)
Definition hands (s : Relay) : list OutboxRecord :=
  poll_hands (poller s) ++ queue_ s ++ concat (worker_hands <$> workers s) ++
  stop_hands (stopper s).

Definition settles (c : Call) : list OutboxRecord :=
  match c with
  | CPublish _ _ => []
  | CMarkPublished rs => rs
  | CMarkRetry r _ | CMarkQuarantined r _ | CReleaseClaim r => [r]
  end.
Definition settled (s : Relay) : list OutboxRecord := concat (settles <$> log s).

Definition publishes (c : Call) : list OutboxRecord :=
  match c with CPublish r _ => [r] | _ => [] end.

(** Records no worker has looked at. *)
Definition worker_todo (w : WorkerPc) : list OutboxRecord :=
  match w with WWork _ todo _ => todo | _ => [] end.

Lemma lsum_concat {A B} (f : B → Z) (g : A → list B) l :
  lsum f (concat (g <$> l)) = lsum (λ x, lsum f (g x)) l.
Proof.
  induction l as [|x l IH]; [done|]. cbn [fmap list_fmap concat]. by rewrite lsum_app, IH.
Qed.

Lemma lsum_take_drop {A} (f : A → Z) n l : lsum f (take n l) + lsum f (drop n l) = lsum f l.
Proof. rewrite <-lsum_app. by rewrite take_drop. Qed.

Lemma lsum_hands f s :
  lsum f (hands s) = lsum f (poll_hands (poller s)) + lsum f (queue_ s) +
    lsum (λ w, lsum f (worker_hands w)) (workers s) + lsum f (stop_hands (stopper s)).
Proof. unfold hands. rewrite !lsum_app, lsum_concat. lia. Qed.

Lemma lsum_settled f s : lsum f (settled s) = lsum (λ c, lsum f (settles c)) (log s).
Proof. apply lsum_concat. Qed.

(** Both ledgers of a relay. *)
Record ledger (s : Relay) : Prop := {
  le_settled : ∀ f, lsum f (taken s) = lsum f (settled s) + lsum f (hands s);
  le_published : ∀ f, (∀ r, 0 ≤ f r) →
    lsum f (concat (publishes <$> log s)) + lsum f (poll_hands (poller s)) + lsum f (queue_ s) +
      lsum (λ w, lsum f (worker_todo w)) (workers s) ≤ lsum f (taken s);
}.

(** Waking the workers changes nobody's records. *)
Lemma lsum_notified (f : WorkerPc → Z) l :
  f WSleep = f WTest →
  lsum f ((λ w, match w with WSleep => WTest | _ => w end) <$> l) = lsum f l.
Proof.
  intros Hf. induction l as [|w l IH]; [done|]. cbn [fmap list_fmap]. rewrite !lsum_cons, IH.
  by destruct w; rewrite ?Hf.
Qed.

Lemma lsum_process f r a :
  lsum (λ c, lsum f (settles c)) (process_calls r a) = (if process_ok r a then 0 else f r) ∧
  ((∀ r, 0 ≤ f r) → lsum (λ c, lsum f (publishes c)) (process_calls r a) ≤ f r).
Proof.
  unfold process_calls, process_ok. destruct (ValidateRecord r).
  - split; [unfold lsum; cbn; lia|]. intros Hf. unfold lsum. cbn. apply Hf.
  - destruct (publish a); (split; [unfold lsum; cbn; lia|]); intros Hf; unfold lsum; cbn; lia.
Qed.

Lemma lsum_mark f published :
  lsum (λ c, lsum f (settles c)) (mark_calls published) = lsum f published ∧
  lsum (λ c, lsum f (publishes c)) (mark_calls published) = 0.
Proof. by destruct published; (split; [unfold lsum; cbn; lia|]). Qed.

(** Both ledgers of the state after a step, from those before it. *)
Local Ltac books Hl :=
  split;
  [ intros f; generalize (le_settled _ Hl f)
  | intros f Hf; generalize (le_published _ Hl f Hf) ];
  rewrite ?lsum_settled, ?lsum_hands, ?lsum_concat; cbn;
  repeat match goal with
  | E : poller _ = _ |- _ => rewrite ?E; clear E
  | E : stopper _ = _ |- _ => rewrite ?E; clear E
  | E : queue_ _ = _ |- _ => rewrite ?E; clear E
  end; cbn;
  repeat first
    [ rewrite lsum_app | rewrite lsum_cons; cbn | rewrite lsum_nil
    | rewrite lsum_notified by done
    | erewrite (lsum_insert _ (workers _)) by eassumption; cbn ]; intros; try lia.

Lemma ledger_poll s a : ledger s → ledger (PollStep s a).
Proof.
  intros Hl. unfold PollStep. destruct (poller s) as [| |n|rs|rs|rs|cl|cl|cl|] eqn:Ep; [..|done].
  - destruct (running_ s); books Hl.
  - books Hl.
  - destruct (threshold <? n); [books Hl|]. cbn [NextClaimToken].
    destruct (claim a) as [[|r rs]|]; books Hl.
  - books Hl.
  - destruct (queue_locked s); [done|]. books Hl.
  - books Hl.
  - destruct (poll_ready s cl); books Hl.
  - books Hl.
  - destruct (timeout a); [|done]. books Hl.
Qed.

Lemma ledger_worker s i a : ledger s → ledger (WorkerStep s i a).
Proof.
  intros Hl. unfold WorkerStep.
  destruct (workers s !! i) as [[| | |items [|r todo] pub|[|r rs]|rs|]|] eqn:Ew; try done.
  - destruct (queue_locked s); [done|]. destruct (queue_ s) as [|q qs] eqn:Eq.
    + destruct (worker_stop_ s); books Hl.
    + set (k := Z.to_nat (publish_batch_size o)). books Hl.
      all: pose proof (lsum_take_drop f k (q :: qs)) as Ht; rewrite lsum_cons in Ht; lia.
  - books Hl.
  - destruct (MarkBatch_eq s pub (batch a)) as [g ->].
    books Hl; destruct (lsum_mark f pub) as [E1 E2]; rewrite ?E1, ?E2 in *; lia.
  - destruct (ProcessRecord_eq s r a) as [g ->]. books Hl; destruct (lsum_process f r a) as [E1 E2].
    + rewrite E1. destruct (process_ok r a); rewrite ?lsum_app, ?lsum_cons, ?lsum_nil; lia.
    + specialize (E2 Hf). lia.
  - books Hl.
  - destruct (FinishRecord s (outbox_id r)) as [s1 b] eqn:Ef. unfold FinishRecord in Ef. simplify_eq.
    case_match; books Hl.
  - destruct (lifecycle_locked s); [done|]. unfold notify_poller. destruct (poller s) eqn:Ep; books Hl.
Qed.

Lemma ledger_stop s a : ledger s → ledger (StopStep s a).
Proof.
  intros Hl. unfold StopStep.
  destruct (stopper s) as [| | | | |[|r rs]|r rs|rs| | | | | |] eqn:Es; [..|done].
  - books Hl.
  - unfold notify_poller. destruct (poller s) eqn:Ep; books Hl.
  - destruct (poller s) eqn:Ep; try done. books Hl.
  - case_decide; [books Hl|]. destruct (timeout a); [books Hl|done].
  - destruct (queue_locked s); [done|]. books Hl. pose proof (lsum_nonneg f (queue_ s) Hf). lia.
  - books Hl.
  - destruct (lost_eq (call s (CReleaseClaim r)) a) as [g ->]. books Hl.
  - destruct (FinishRecord s (outbox_id r)) as [s1 b] eqn:Ef. unfold FinishRecord in Ef. simplify_eq.
    case_match; books Hl.
  - destruct (lifecycle_locked s); [done|]. unfold notify_poller. destruct (poller s) eqn:Ep; books Hl.
  - books Hl.
  - books Hl.
  - destruct (forallb _ _); [books Hl|done].
  - books Hl.
  - destruct (renewer s) eqn:Er; try done. books Hl.
Qed.

Lemma relay_ledger_step s ev : ledger s → ledger (relay_step s ev).
Proof.
  intros Hl. destruct ev as [a|i a|a|a|i]; cbn [relay_step].
  - by apply ledger_poll.
  - by apply ledger_worker.
  - unfold RenewStep. destruct (renewer s) as [|[|x owned]|]; [books Hl..| |done].
    destruct (lost_eq s a) as [g ->]. books Hl.
  - by apply ledger_stop.
  - destruct (workers s !! i) as [[]|] eqn:Ew; try done. books Hl.
Qed.

Lemma relay_ledger_start : ledger Start.
Proof.
  assert (∀ f : WorkerPc → Z, f WTest = 0 → ∀ n, lsum f (replicate n WTest) = 0) as Hz.
  { intros f Hf n. induction n as [|n IH]; [done|]. cbn [replicate]. rewrite lsum_cons, Hf, IH. done. }
  split; intros f; rewrite ?lsum_settled, ?lsum_hands, ?lsum_concat; cbn;
    rewrite Hz by done; rewrite !lsum_nil; lia.
Qed.

Lemma relay_ledger_run evs : ∀ s, ledger s → ledger (relay_run s evs).
Proof.
  unfold relay_run. induction evs as [|ev evs IH]; intros s Hl; [done|]. by apply IH, relay_ledger_step.
Qed.

(** ** The order of calls *)

(** The delay before the retry of a record that was attempted [attempt_count] times,
    with the options the relay accepts: the base delay doubled with every attempt, up to
    thirty times and at most the maximum, moved by at most a fifth either way, and never
    less than a millisecond nor more than the maximum. *)
Definition retry_delay_ok (r : OutboxRecord) (delay : Z) : Prop :=
  0 < retry_base_ms o ≤ retry_max_ms o → retry_max_ms o < 2 ^ 31 → is_u32 (attempt_count r) →
  let d := Z.min (retry_max_ms o) (retry_base_ms o * 2 ^ Z.min (attempt_count r) 30) in
  1 ≤ delay ≤ retry_max_ms o ∧ 4 * d ≤ 5 * delay ≤ 6 * d.

(** What was called before [c], all calls being [L]. *)
Definition call_ok (L : list Call) (c : Call) : Prop :=
  match c with
  | CPublish r _ => ValidateRecord r = None
  | CMarkPublished rs => rs ≠ [] ∧ ∀ r, r ∈ rs → CPublish r kPublished ∈ L
  | CMarkRetry r delay => CPublish r kRetryableFailure ∈ L ∧ retry_delay_ok r delay
  | CMarkQuarantined r true => CPublish r kPermanentFailure ∈ L
  | CMarkQuarantined r false => ValidateRecord r ≠ None
  | CReleaseClaim _ => True
  end.

Definition worker_published (w : WorkerPc) : list OutboxRecord :=
  match w with WWork _ _ published => published | _ => [] end.

Record ordered (s : Relay) : Prop := {
  or_log : ∀ c, c ∈ log s → call_ok (log s) c;
  or_work : ∀ w r, w ∈ workers s → r ∈ worker_published w → CPublish r kPublished ∈ log s;
}.

Lemma call_ok_mono L k c : call_ok L c → call_ok (L ++ k) c.
Proof.
  destruct c as [| |r d|? []|]; cbn; [set_solver..| |set_solver|set_solver|done].
  intros [Hr Hd]. split; [set_solver|done].
Qed.

(** The delay that is computed for the next attempt. *)
Lemma next_delay_ok r :
  retry_delay_ok r (ComputeRetryDelay hash (event_id r)
    (if attempt_count r =? 2 ^ 32 - 1 then attempt_count r else attempt_count r + 1) (retry_base_ms o) (retry_max_ms o)).
Proof.
  intros Hb Hm Hc d. unfold is_u32 in Hc. set (n := if attempt_count r =? 2 ^ 32 - 1 then attempt_count r else attempt_count r + 1).
  assert (Hn : 0 ≤ n < 2 ^ 32 ∧ Z.min (Z.max 0 (n - 1)) 30 = Z.min (attempt_count r) 30).
  { unfold n. destruct (Z.eqb_spec (attempt_count r) (2 ^ 32 - 1)); lia. }
  destruct Hn as [Hn E]. pose proof (relay_retry_delay hash (event_id r) n (retry_base_ms o) (retry_max_ms o) Hb Hm Hn) as Hd.
  cbv zeta in Hd. rewrite E in Hd. exact Hd.
Qed.

Lemma elem_insert {A} (l : list A) i x y : x ∈ <[i := y]> l → x = y ∨ x ∈ l.
Proof.
  intros [j Hj]%list_elem_of_lookup. destruct (decide (j = i)) as [->|Hne].
  - destruct (decide (i < length l)%nat).
    + rewrite list_lookup_insert_eq in Hj by done. by left; simplify_eq.
    + rewrite list_insert_ge in Hj by lia. right. by eapply list_elem_of_lookup_2.
  - rewrite list_lookup_insert_ne in Hj by done. right. by eapply list_elem_of_lookup_2.
Qed.

Lemma elem_insert_other {A} (l : list A) i x y z :
  l !! i = Some z → x ∈ l → x ≠ z → x ∈ <[i := y]> l.
Proof.
  intros Hi [j Hj]%list_elem_of_lookup Hne. apply list_elem_of_lookup. exists j.
  rewrite list_lookup_insert_ne; [done|]. intros ->. congruence.
Qed.

Lemma elem_notified (l : list WorkerPc) w :
  w ∈ (λ w, match w with WSleep => WTest | _ => w end) <$> l → w = WTest ∨ w ∈ l ∧ w ≠ WSleep.
Proof. intros (w' & -> & Hw)%list_elem_of_fmap. destruct w'; auto; by right. Qed.

Lemma ordered_frame s s' cs :
  ordered s → log s' = log s ++ cs → (∀ c, c ∈ cs → call_ok (log s') c) →
  (∀ w r, w ∈ workers s' → r ∈ worker_published w →
    (∃ w0, w0 ∈ workers s ∧ r ∈ worker_published w0) ∨ CPublish r kPublished ∈ cs) →
  ordered s'.
Proof.
  intros [H1 H2] El Hc Hw. split.
  - intros c. rewrite El. intros [Hin|Hin]%elem_of_app; [by apply call_ok_mono, H1|].
    rewrite <-El. by apply Hc.
  - intros w r Hin Hr. rewrite El. apply elem_of_app.
    destruct (Hw w r Hin Hr) as [(w0 & ? & ?)|?]; [left; by eapply H2|by right].
Qed.

(** A step that calls nobody, and takes nothing into a list of published records. *)
Lemma ordered_same s s' :
  ordered s → log s' = log s → (∀ w, w ∈ workers s' → w ∈ workers s ∨ worker_published w = []) →
  ordered s'.
Proof.
  intros Ho El Hw. eapply (ordered_frame s s' []); [done|by rewrite El, app_nil_r|set_solver|].
  intros w r Hin Hr. destruct (Hw w Hin) as [?|E]; [left; by exists w|]. rewrite E in Hr. set_solver.
Qed.

Lemma notified_same (l : list WorkerPc) w :
  w ∈ (λ w, match w with WSleep => WTest | _ => w end) <$> l → w ∈ l ∨ worker_published w = [].
Proof. intros [->|[? _]]%elem_notified; auto. Qed.

Local Ltac same_log Ho :=
  eapply (ordered_same _ _ Ho); [done|]; cbn;
  try (by auto); try (intros ?; apply notified_same);
  try (intros ? [->|?]%elem_insert; by auto).

Lemma process_calls_ok L r a c :
  c ∈ process_calls r a → call_ok (L ++ process_calls r a) c.
Proof.
  unfold process_calls. destruct (ValidateRecord r) eqn:Ev.
  - intros ->%list_elem_of_singleton. cbn. by rewrite Ev.
  - destruct (publish a); cbn; intros Hc; repeat (apply elem_of_cons in Hc as [->|Hc]);
      try (by apply elem_of_nil in Hc); cbn; first [done|split; [set_solver|apply next_delay_ok]|set_solver].
Qed.

Lemma ordered_step s ev : ordered s → ordered (relay_step s ev).
Proof.
  intros Ho. destruct ev as [a|i a|a|a|i]; cbn [relay_step].
  - unfold PollStep. destruct (poller s); try done; cbn [NextClaimToken];
      repeat (case_match; try done); same_log Ho.
  - unfold WorkerStep.
    destruct (workers s !! i) as [[| | |items [|r todo] pub|[|r rs]|rs|]|] eqn:Ew; try done.
    + repeat case_match; try done; same_log Ho.
    + same_log Ho.
    + destruct (MarkBatch_eq s pub (batch a)) as [g ->].
      eapply (ordered_frame s _ (mark_calls pub)); [done|done| |].
      * unfold mark_calls. destruct pub as [|r rs]; [set_solver|]. intros c ->%list_elem_of_singleton.
        cbn. split; [done|]. intros r' Hr. apply elem_of_app. left.
        eapply (or_work _ Ho); [by eapply list_elem_of_lookup_2|done].
      * cbn. intros w r [->|?]%elem_insert Hr; [set_solver|left; by exists w].
    + destruct (ProcessRecord_eq s r a) as [g ->].
      eapply (ordered_frame s _ (process_calls r a)); [done|done|apply process_calls_ok|].
      cbn. intros w r' [->|?]%elem_insert Hr; [|left; by exists w]. cbn in Hr.
      unfold process_ok in Hr. destruct (ValidateRecord r) eqn:Ev;
        [|destruct (publish a) eqn:Ea].
      2:{ apply elem_of_app in Hr as [Hr| ->%list_elem_of_singleton].
        - left. exists (WWork items (r :: todo) pub). split; [by eapply list_elem_of_lookup_2|done].
        - right. unfold process_calls. rewrite Ev, Ea. by left. }
      all: left; exists (WWork items (r :: todo) pub); split; [by eapply list_elem_of_lookup_2|done].
    + same_log Ho.
    + unfold FinishRecord. case_match; same_log Ho.
    + case_match; [done|]. unfold notify_poller. case_match; same_log Ho.
  - unfold RenewStep. destruct (renewer s) as [|[|x owned]|]; [same_log Ho..| |done].
    destruct (lost_eq s a) as [g ->]. same_log Ho.
  - unfold StopStep, FinishRecord, notify_poller.
    destruct (stopper s) as [| | | | |[|r rs]|r rs|rs| | | | | |] eqn:Es; try done.
    7:{ destruct (lost_eq (call s (CReleaseClaim r)) a) as [g ->].
        eapply (ordered_frame s _ [CReleaseClaim r]); [done|done| |].
        - intros c ->%list_elem_of_singleton. done.
        - intros w r' Hw Hr. left. by exists w. }
    all: repeat (case_match; try done); same_log Ho.
  - repeat case_match; try done. same_log Ho.
Qed.

(** ** The threads *)

Definition past_poll (p : StopPc) : bool :=
  match p with SIdle | SNotify | SJoinPoll => false | _ => true end.
Definition past_drain (p : StopPc) : bool :=
  match p with SIdle | SNotify | SJoinPoll | SDrain => false | _ => true end.
Definition releasing (p : StopPc) : bool :=
  match p with SAbandon | SRelease _ | SErase _ _ | SRefill _ => true | _ => false end.
Definition stopping (p : StopPc) : bool :=
  match p with SNotifyWorkers | SJoinWorkers | SStopRenew | SJoinRenew | SDone => true | _ => false end.
Definition joined (p : StopPc) : bool :=
  match p with SStopRenew | SJoinRenew | SDone => true | _ => false end.

Record shape (s : Relay) : Prop := {
  sh_workers : length (workers s) = Z.to_nat (worker_threads o);
  sh_running : running_ s = match stopper s with SIdle => true | _ => false end;
  sh_stop : worker_stop_ s = stopping (stopper s);
  sh_renew : renew_stop_ s = match stopper s with SJoinRenew | SDone => true | _ => false end;
  sh_exit : past_poll (stopper s) = true → poller s = PExit;
  sh_ended : WEnd ∈ workers s → worker_stop_ s = true ∧ queue_ s = [];
  sh_joined : joined (stopper s) = true → ∀ w, w ∈ workers s → w = WEnd;
  sh_releasing : releasing (stopper s) = true → drained s = false;
  sh_released : ∀ r, CReleaseClaim r ∈ log s → drained s = false ∧ past_drain (stopper s) = true;
  sh_drained : past_drain (stopper s) = true → drained s = true → inflight_ s = ∅;
}.

(** A step of another thread than the one that shuts the relay down. *)
Lemma shape_frame s s' :
  shape s → length (workers s') = length (workers s) → running_ s' = running_ s →
  worker_stop_ s' = worker_stop_ s → renew_stop_ s' = renew_stop_ s → stopper s' = stopper s →
  drained s' = drained s → (poller s = PExit → poller s' = PExit) →
  (WEnd ∈ workers s' → worker_stop_ s = true ∧ queue_ s' = []) →
  (joined (stopper s) = true → workers s' = workers s) →
  (∀ r, CReleaseClaim r ∈ log s' → CReleaseClaim r ∈ log s) →
  (past_drain (stopper s) = true → inflight_ s = ∅ → inflight_ s' = ∅) → shape s'.
Proof.
  intros [] E1 E2 E3 E4 E5 E6 Hp Hend Hj Hr Hi.
  split; rewrite ?E1, ?E2, ?E3, ?E4, ?E5, ?E6; try by auto.
  - intros Hs. rewrite Hj by done. by apply sh_joined0.
  - intros r Hin. by apply (sh_released0 r), Hr.
Qed.

Lemma shape_worker s i w : shape s → workers s !! i = Some w → w ≠ WEnd → joined (stopper s) = false.
Proof.
  intros Hs Hi Hne. destruct (joined (stopper s)) eqn:E; [|done].
  destruct Hne. apply (sh_joined _ Hs E). by eapply list_elem_of_lookup_2.
Qed.

Lemma no_release_process r a r' : CReleaseClaim r' ∉ process_calls r a.
Proof. unfold process_calls. destruct (ValidateRecord r), (publish a); set_solver. Qed.
Lemma no_release_mark published r' : CReleaseClaim r' ∉ mark_calls published.
Proof. unfold mark_calls. destruct published; set_solver. Qed.

Lemma shape_poll s a : shape s → shape (PollStep s a).
Proof.
  intros Hs. assert (poller s ≠ PExit → past_poll (stopper s) = false) as Hpp.
  { intros Hne. destruct (past_poll _) eqn:E; [|done]. by apply (sh_exit _ Hs) in E. }
  assert (∀ s', poller s ≠ PExit → length (workers s') = length (workers s) → running_ s' = running_ s →
    worker_stop_ s' = worker_stop_ s → renew_stop_ s' = renew_stop_ s → stopper s' = stopper s →
    drained s' = drained s → (WEnd ∈ workers s' → WEnd ∈ workers s) → log s' = log s → shape s') as Hf.
  { intros s' Hne E1 E2 E3 E4 E5 E6 He El. specialize (Hpp Hne).
    assert (WEnd ∉ workers s) as Hno.
    { intros [Hw _]%(sh_ended _ Hs). rewrite (sh_stop _ Hs) in Hw. by destruct (stopper s). }
    eapply (shape_frame s); try done.
    - intros Hin. by destruct Hno; apply He.
    - by destruct (stopper s).
    - by rewrite El.
    - by destruct (stopper s). }
  unfold PollStep. destruct (poller s) as [| |n|rs|rs|rs|cl|cl|cl|] eqn:Ep; [..|done];
    cbn [NextClaimToken]; repeat (case_match; try done); apply Hf; cbn; try done.
  - by rewrite length_fmap.
  - intros [?|[? _]]%elem_notified; done.
Qed.

Lemma shape_worker_step s i a : shape s → shape (WorkerStep s i a).
Proof.
  intros Hs. unfold WorkerStep. destruct (workers s !! i) as [w|] eqn:Ew; [|done].
  destruct (decide (w = WEnd)) as [->|Hne]; [done|].
  pose proof (shape_worker s i w Hs Ew Hne) as Hj.
  assert (∀ s' w', length (workers s') = length (workers s) → running_ s' = running_ s →
    worker_stop_ s' = worker_stop_ s → renew_stop_ s' = renew_stop_ s → stopper s' = stopper s →
    drained s' = drained s → (poller s = PExit → poller s' = PExit) →
    workers s' = <[i := w']> (workers s) → (w' = WEnd → worker_stop_ s = true ∧ queue_ s' = []) →
    (queue_ s = [] → queue_ s' = []) →
    (∀ r, CReleaseClaim r ∈ log s' → CReleaseClaim r ∈ log s) →
    (inflight_ s = ∅ → inflight_ s' = ∅) → shape s') as Hf.
  { intros s' w' E1 E2 E3 E4 E5 E6 Hp Ew' Hend Hq Hr Hi. eapply (shape_frame s); try done.
    - rewrite Ew'. intros [<-|Hin]%elem_insert; [by apply Hend|].
      apply (sh_ended _ Hs) in Hin as [? ?]. auto.
    - rewrite Hj. done. }
  destruct w as [| | |items [|r todo] pub|[|r rs]|rs|]; try done.
  - destruct (queue_locked s); [done|]. destruct (queue_ s) as [|q qs] eqn:Eq.
    + eapply Hf; cbn; try done; [by rewrite length_insert|]. by destruct (worker_stop_ s).
    + eapply Hf; cbn; try done. by rewrite length_insert.
  - eapply Hf; cbn; try done. by rewrite length_insert.
  - destruct (MarkBatch_eq s pub (batch a)) as [g ->].
    eapply Hf; cbn; try done; [by rewrite length_insert|].
    intros r [?|[]%no_release_mark]%elem_of_app; done.
  - destruct (ProcessRecord_eq s r a) as [g ->]. eapply Hf; cbn; try done; [by rewrite length_insert|].
    intros r' [?|[]%no_release_process]%elem_of_app; done.
  - eapply Hf; cbn; try done. by rewrite length_insert.
  - unfold FinishRecord.
    eapply Hf; cbn; try done; [by rewrite length_insert|by case_match|].
    intros ->. apply delete_empty.
  - destruct (lifecycle_locked s); [done|].
    eapply (Hf _ (WFinish rs)); unfold notify_poller; cbn; try done; repeat case_match; cbn; try done;
      by rewrite ?length_insert.
Qed.

Lemma shape_stop s a : shape s → shape (StopStep s a).
Proof.
  intros Hs. pose proof Hs as []. unfold StopStep.
  destruct (stopper s) as [| | | | |[|r rs]|r rs|rs| | | | | |] eqn:Es; [..|done];
    cbn in sh_running0, sh_stop0, sh_renew0, sh_exit0, sh_joined0, sh_releasing0, sh_drained0.
  - split; cbn; try done; intros r Hr; by destruct (sh_released0 r Hr).
  - unfold notify_poller. destruct (poller s) eqn:Ep; split; cbn; try done;
      intros r Hr; by destruct (sh_released0 r Hr).
  - destruct (poller s) eqn:Ep; try done; split; cbn; try done;
    intros r Hr; by destruct (sh_released0 r Hr).
  - assert (∀ r, CReleaseClaim r ∉ log s) as Hno by (intros r Hr; by destruct (sh_released0 r Hr)).
    case_decide; [|destruct (timeout a); [|done]]; (split; cbn; try done; try by auto);
      intros r Hr; by destruct (Hno r).
  - destruct (queue_locked s); [done|]. split; cbn; try done; try by auto. naive_solver.
  - split; cbn; try done; by auto.
  - destruct (lost_eq (call s (CReleaseClaim r)) a) as [g ->]. split; cbn; try done; by auto.
  - unfold FinishRecord. case_match; (split; cbn; try done; try by auto);
      rewrite (sh_releasing0 eq_refl); done.
  - destruct (lifecycle_locked s); [done|]. unfold notify_poller.
    rewrite (sh_exit0 eq_refl). split; cbn; try done; by auto.
  - split; cbn; try done; try by auto. naive_solver.
  - split; cbn; try done; try by auto.
    + by rewrite length_fmap.
    + intros [?|[? _]]%elem_notified; [done|]. by auto.
  - destruct (forallb _ _) eqn:Ef; [|done]. split; cbn; try done; try by auto.
    intros _ w Hw. rewrite forallb_forall in Ef. specialize (Ef w).
    rewrite <-list_elem_of_In in Ef. specialize (Ef Hw). by destruct w.
  - split; cbn; try done; by auto.
  - destruct (renewer s); try done; split; cbn; try done; by auto.
Qed.

Lemma shape_step s ev : shape s → shape (relay_step s ev).
Proof.
  intros Hs. destruct ev as [a|i a|a|a|i]; cbn [relay_step].
  - by apply shape_poll.
  - by apply shape_worker_step.
  - unfold RenewStep. destruct (renewer s) as [|[|x owned]|]; [..|done].
    1,2: by destruct Hs.
    destruct (lost_eq s a) as [g ->]. by destruct Hs.
  - by apply shape_stop.
  - destruct (workers s !! i) as [[]|] eqn:Ew; try done.
    pose proof (shape_worker s i WSleep Hs Ew ltac:(done)) as Hj.
    eapply (shape_frame s); try done; cbn.
    + by rewrite length_insert.
    + intros [?|Hin]%elem_insert; [done|]. by apply (sh_ended _ Hs).
    + by rewrite Hj.
Qed.

Lemma shape_start : shape Start.
Proof.
  split; cbn; try done.
  - by rewrite length_replicate.
  - intros [? _]%elem_of_replicate. done.
  - intros r Hr. by apply elem_of_nil in Hr.
Qed.

(** ** Wake-ups *)

(** A thread that is about to notify the poll thread of free capacity. *)
Definition refilling (s : Relay) : Prop :=
  (∃ rs, WNotify rs ∈ workers s) ∨ (∃ rs, stopper s = SRefill rs).
Definition waiting_for_capacity (s : Relay) : Prop :=
  poller s = PChecked true ∨ poller s = PSleep true.

Record wakes (s : Relay) : Prop := {
  wk_checked : WChecked ∈ workers s → queue_ s = [];
  wk_sleep : queue_ s ≠ [] → WSleep ∈ workers s → ∃ rs, poller s = PNotify rs;
  wk_refill : waiting_for_capacity s → Z.of_nat (size (inflight_ s)) ≤ threshold → refilling s;
}.

Lemma not_queue_locked s : queue_locked s = false → WChecked ∉ workers s.
Proof.
  intros E Hin. assert (queue_locked s = true); [|congruence]. unfold queue_locked.
  apply existsb_exists. exists WChecked. split; [by apply list_elem_of_In|done].
Qed.

(** Another worker that is about to notify still is. *)
Lemma refilling_worker s i w w' :
  refilling s → workers s !! i = Some w → (∀ rs, w ≠ WNotify rs) → refilling (set_worker s i w').
Proof.
  intros [[rs Hin]|Hst] Hi Hne; [|by right]. left. exists rs. cbn.
  eapply elem_insert_other; [done..|]. intros E. by apply (Hne rs).
Qed.

Lemma refilling_notified s : refilling s → refilling (notify_workers s).
Proof.
  intros [[rs Hin]|Hst]; [left|by right]. exists rs. cbn. apply list_elem_of_fmap.
  by exists (WNotify rs).
Qed.

Lemma wakes_poll s a : shape s → wakes s → wakes (PollStep s a).
Proof.
  intros Hsh Hw. pose proof Hw as []. unfold PollStep.
  destruct (poller s) as [| |n|rs|rs|rs|cl|cl|cl|] eqn:Ep; [..|done]; cbn [NextClaimToken].
  - destruct (running_ s); split; cbn; try done; first [by intros []|naive_solver].
  - split; cbn; try done; first [by intros []|naive_solver].
  - repeat case_match; split; cbn; try done; first [by intros []|naive_solver].
  - split; cbn; try done; first [by intros []|naive_solver].
  - destruct (queue_locked s) eqn:El; [done|]. apply not_queue_locked in El.
    split; cbn; try done; [by eauto|by intros []].
  - split; cbn; try by intros [].
    + intros [?|[? _]]%elem_notified; [done|]. by apply wk_checked0.
    + intros _ [?|[_ ?]]%elem_notified; done.
  - destruct (poll_ready s cl) eqn:Er; split; cbn; try done; try (by intros []); try naive_solver.
    intros [[= ->]|?] Hsz; [|done]. unfold poll_ready in Er. apply orb_false_iff in Er as [_ Er].
    cbn in Er. apply Z.leb_gt in Er. lia.
  - split; cbn; try done; [naive_solver|]. intros [?|[= ->]] Hsz; [done|].
    destruct (wk_refill0 (or_introl Ep) Hsz) as [?|?]; [by left|by right].
  - destruct (timeout a); [|done]. split; cbn; try done; first [by intros []|naive_solver].
Qed.

(** A worker goes on, and leaves [inflight_] alone. *)
Lemma wakes_frame s s' i w w' :
  wakes s → workers s !! i = Some w → (∀ rs, w ≠ WNotify rs) →
  workers s' = <[i := w']> (workers s) → poller s' = poller s → stopper s' = stopper s →
  inflight_ s' = inflight_ s → (queue_ s = [] → queue_ s' = []) →
  (w' = WChecked ∨ w' = WSleep → queue_ s' = []) → wakes s'.
Proof.
  intros [] Hi Hne Ew Ep Es Ein Hq Hw'. split; unfold waiting_for_capacity; rewrite ?Ew, ?Ep, ?Ein.
  - intros [<-|Hin]%elem_insert; [by apply Hw'; left|]. by apply Hq, wk_checked0.
  - intros Hn [<-|Hin]%elem_insert; [by destruct Hn; apply Hw'; right|]. apply wk_sleep0; [|done]. auto.
  - intros Hwait Hsz. destruct (wk_refill0 Hwait Hsz) as [[rs Hin]|[rs Hin]]; [left|right]; exists rs.
    + rewrite Ew. eapply elem_insert_other; [done..|]. intros E. by apply (Hne rs).
    + by rewrite Es.
Qed.

(** Erasing a record that brings the size down to the threshold asks for a refill. *)
Lemma FinishRecord_refill s id :
  (waiting_for_capacity s → Z.of_nat (size (inflight_ s)) ≤ threshold → refilling s) →
  waiting_for_capacity s → Z.of_nat (size (delete id (inflight_ s))) ≤ threshold →
  refilling s ∨ (FinishRecord s id).2 = true.
Proof.
  intros Hr Hw Hsz. destruct (decide (Z.of_nat (size (inflight_ s)) ≤ threshold)); [left; by auto|].
  right. unfold FinishRecord. cbn. apply andb_true_iff. split; [apply Z.ltb_lt|apply Z.leb_le]; lia.
Qed.

Lemma wakes_notified_poller s s' :
  wakes s → lifecycle_locked s = false → queue_ s' = queue_ s → workers s' = workers s →
  poller s' = poller (notify_poller s) → wakes s'.
Proof.
  intros [] Hl Eq Ew Ep. assert (¬ waiting_for_capacity s') as Hn.
  { unfold waiting_for_capacity. rewrite Ep. unfold notify_poller, lifecycle_locked in *.
    destruct (poller s) eqn:E; cbn; rewrite ?E; try done; intros []; congruence. }
  split; [by rewrite Ew, Eq| |done]. rewrite Ew, Eq, Ep. intros H1 H2.
  destruct (wk_sleep0 H1 H2) as [rs E]. exists rs. unfold notify_poller. by rewrite E.
Qed.

Lemma wakes_worker s i a : wakes s → wakes (WorkerStep s i a).
Proof.
  intros Hw. unfold WorkerStep.
  destruct (workers s !! i) as [[| | |items [|r todo] pub|[|r rs]|rs|]|] eqn:Ew; try done.
  - destruct (queue_locked s) eqn:El; [done|]. destruct (queue_ s) as [|q qs] eqn:Eq.
    + eapply (wakes_frame s); try done; cbn; rewrite ?Eq; done.
    + eapply (wakes_frame s); try done; cbn; [by rewrite Eq|by intros []].
  - eapply (wakes_frame s); try done; cbn. intros _. apply (wk_checked _ Hw).
    by eapply list_elem_of_lookup_2.
  - destruct (MarkBatch_eq s pub (batch a)) as [g ->]. eapply (wakes_frame s); try done; cbn. by intros [].
  - destruct (ProcessRecord_eq s r a) as [g ->]. eapply (wakes_frame s); try done; cbn. by intros [].
  - eapply (wakes_frame s); try done; cbn. by intros [].
  - pose proof (FinishRecord_refill s (outbox_id r) (wk_refill _ Hw)) as Hr.
    unfold FinishRecord in *. cbn [snd] in Hr. set (b := _ && _) in *. destruct Hw. split; cbn.
    + intros [?|?]%elem_insert; [by destruct b|auto].
    + intros Hq [?|?]%elem_insert; [by destruct b|auto].
    + intros Hwait Hsz. destruct (Hr Hwait Hsz) as [Href| ->].
      * by eapply (refilling_worker (set_inflight s _)).
      * left. exists rs. apply list_elem_of_insert. by eapply lookup_lt_Some.
  - destruct (lifecycle_locked s) eqn:El; [done|].
    pose proof (wakes_notified_poller s (notify_poller s) Hw El) as Hn.
    assert (wakes (notify_poller s)) as [].
    { apply Hn; unfold notify_poller; by case_match. }
    assert (workers (notify_poller s) = workers s ∧ ¬ waiting_for_capacity (notify_poller s))
      as [Ew' Hnw].
    { unfold waiting_for_capacity, notify_poller, lifecycle_locked in *.
      destruct (poller s) eqn:E; (split; [done|]); cbn; rewrite ?E; try done; intros []; congruence. }
    split; [..|by intros ?%Hnw]; cbn; rewrite Ew'.
    + intros [?|?]%elem_insert; [done|]. rewrite Ew' in *. auto.
    + intros Hq [?|?]%elem_insert; [done|]. rewrite Ew' in *. auto.
Qed.

Lemma wakes_stop s a : shape s → wakes s → wakes (StopStep s a).
Proof.
  intros Hs Hw. pose proof Hw as [].
  assert (past_poll (stopper s) = true → ∀ s', workers s' = workers s → poller s' = poller s →
    (queue_ s' = queue_ s ∨ queue_ s' = []) → wakes s') as Hf.
  { intros Hp s' E1 E2 Eq. apply (sh_exit _ Hs) in Hp. split; rewrite ?E1.
    - destruct Eq as [->|]; auto.
    - destruct Eq as [->| ->]; [|done]. rewrite E2. auto.
    - unfold waiting_for_capacity. rewrite E2, Hp. by intros []. }
  unfold StopStep. destruct (stopper s) as [| | | | |[|r rs]|r rs|rs| | | | | |] eqn:Es; [..|done].
  - split; cbn; try done. intros H1 H2. destruct (wk_refill0 H1 H2) as [?|[? ?]]; [by left|congruence].
  - split; unfold notify_poller.
    + by case_match.
    + destruct (poller s) eqn:E; cbn; rewrite ?E; auto. intros H1 H2. destruct (wk_sleep0 H1 H2). congruence.
    + unfold waiting_for_capacity. destruct (poller s) eqn:E; cbn; rewrite ?E; intros H1 H2; try (by destruct H1).
      assert (waiting_for_capacity s) as Hc by (unfold waiting_for_capacity; by rewrite E).
      destruct (wk_refill0 Hc H2) as [?|[? ?]]; [by left|congruence].
  - destruct (poller s) eqn:E; try done.
    split; cbn; unfold waiting_for_capacity; cbn; rewrite ?E; try done. by intros [].
  - case_decide; [|destruct (timeout a); [|done]]; apply Hf; auto.
  - destruct (queue_locked s); [done|]. apply Hf; auto.
  - apply Hf; auto.
  - destruct (lost_eq (call s (CReleaseClaim r)) a) as [g ->]. apply Hf; auto.
  - unfold FinishRecord. case_match; apply Hf; auto.
  - destruct (lifecycle_locked s); [done|]. unfold notify_poller.
    rewrite (sh_exit _ Hs) by by rewrite Es. apply Hf; auto.
  - apply Hf; auto.
  - split; cbn.
    + intros [?|[? _]]%elem_notified; [done|auto].
    + intros _ [?|[_ ?]]%elem_notified; done.
    + unfold waiting_for_capacity. cbn. rewrite (sh_exit _ Hs) by by rewrite Es. by intros [].
  - destruct (forallb _ _); [|done]. apply Hf; auto.
  - apply Hf; auto.
  - destruct (renewer s); try done. apply Hf; auto.
Qed.

Lemma wakes_step s ev : shape s → wakes s → wakes (relay_step s ev).
Proof.
  intros Hs Hw. destruct ev as [a|i a|a|a|i]; cbn [relay_step].
  - by apply wakes_poll.
  - by apply wakes_worker.
  - unfold RenewStep. destruct (renewer s) as [|[|x owned]|]; [..|done].
    1,2: by destruct Hw.
    destruct (lost_eq s a) as [g ->]. by destruct Hw.
  - by apply wakes_stop.
  - destruct (workers s !! i) as [[]|] eqn:Ew; try done.
    eapply (wakes_frame s); try done; cbn. by intros [].
Qed.

Lemma wakes_start : wakes Start.
Proof.
  split; cbn; try done. by intros [].
Qed.

(** ** Records in flight *)

Definition poll_pushing (p : PollPc) : list OutboxRecord := match p with PPush rs => rs | _ => [] end.
Definition worker_items (w : WorkerPc) : list OutboxRecord :=
  match w with WWork items _ _ => items | WFinish rs | WNotify rs => rs | _ => [] end.
Definition stop_items (p : StopPc) : list OutboxRecord :=
  match p with SRelease rs | SRefill rs => rs | SErase r rs => r :: rs | _ => [] end.

(** The records that were entered in [inflight_] and not yet finished, counted by [f]. *)
Definition unfinished (f : OutboxRecord → Z) (s : Relay) : Z :=
  lsum f (poll_pushing (poller s)) + lsum f (queue_ s) +
  lsum (λ w, lsum f (worker_items w)) (workers s) + lsum f (stop_items (stopper s)).

Definition has_id (id : Z) (r : OutboxRecord) : Z := ind (outbox_id r = id).
Definition same_record (x r : OutboxRecord) : Z := ind (r = x).

(** What the relay relies on of [ClaimBatch]: it returns at most as many rows as it
    was asked for, all different, and no row that this relay holds a lease on. *)
Definition claim_ok (s : Relay) (inflight_count : Z) (rs : list OutboxRecord) : Prop :=
  Z.of_nat (length rs) ≤ Z.min (batch_size o) (max_inflight o - inflight_count) ∧
  NoDup (outbox_id <$> rs) ∧ ∀ r, r ∈ rs → inflight_ s !! outbox_id r = None.

Definition honest (s : Relay) (ev : RelayEvent) : Prop :=
  match ev, poller s with
  | EPoll a, PClaim n => ∀ rs, claim a = Some rs → claim_ok s n rs
  | _, _ => True
  end.

(** The states a relay on such a store reaches. *)
Inductive reachable : Relay → Prop :=
| reach_start : reachable Start
| reach_step s ev : reachable s → honest s ev → reachable (relay_step s ev).

Definition claimed (p : PollPc) : list OutboxRecord := match p with PClaimed rs => rs | _ => [] end.

Record tracked (s : Relay) : Prop := {
  tr_ids : ∀ id, unfinished (has_id id) s = ind (is_Some (inflight_ s !! id));
  tr_tokens : ∀ r, 0 < unfinished (same_record r) s → inflight_ s !! outbox_id r = Some (locked_by r);
  tr_claimed : NoDup (outbox_id <$> claimed (poller s)) ∧
               ∀ r, r ∈ claimed (poller s) → inflight_ s !! outbox_id r = None;
  tr_count : ∀ n, poller s = PClaim n → Z.of_nat (size (inflight_ s)) ≤ n;
  tr_bound : Z.of_nat (size (inflight_ s)) + Z.of_nat (length (claimed (poller s))) ≤ max_inflight o;
}.

Lemma unfinished_nonneg f s : (∀ r, 0 ≤ f r) → 0 ≤ unfinished f s.
Proof.
  intros Hf. unfold unfinished. pose proof (lsum_nonneg f (poll_pushing (poller s)) Hf).
  pose proof (lsum_nonneg f (queue_ s) Hf). pose proof (lsum_nonneg f (stop_items (stopper s)) Hf).
  pose proof (lsum_nonneg (λ w, lsum f (worker_items w)) (workers s)
                (λ w, lsum_nonneg f (worker_items w) Hf)). lia.
Qed.

Lemma lsum_le_has l r : lsum (same_record r) l ≤ lsum (has_id (outbox_id r)) l.
Proof.
  induction l as [|x l IH]; [done|]. rewrite !lsum_cons. unfold same_record at 1, has_id at 1, ind.
  repeat case_decide; subst; lia.
Qed.

Lemma unfinished_le s r : unfinished (same_record r) s ≤ unfinished (has_id (outbox_id r)) s.
Proof.
  unfold unfinished. pose proof (lsum_le_has (poll_pushing (poller s)) r).
  pose proof (lsum_le_has (queue_ s) r). pose proof (lsum_le_has (stop_items (stopper s)) r).
  pose proof (lsum_le (λ w, lsum (same_record r) (worker_items w))
    (λ w, lsum (has_id (outbox_id r)) (worker_items w)) (workers s) (λ w, lsum_le_has (worker_items w) r)).
  lia.
Qed.

(** A step that moves records between the threads. *)
Lemma tracked_frame s s' :
  tracked s → (∀ f, unfinished f s' = unfinished f s) → inflight_ s' = inflight_ s →
  claimed (poller s') = claimed (poller s) →
  (∀ n, poller s' = PClaim n → poller s = PClaim n ∨ Z.of_nat (size (inflight_ s)) ≤ n) → tracked s'.
Proof.
  intros [] Hu Ei Ec En. split; rewrite ?Ei, ?Ec; try done.
  - intros id. by rewrite Hu.
  - intros r. rewrite Hu. apply tr_tokens0.
  - intros n Hn. destruct (En n Hn); auto.
Qed.

(** [FinishRecord]. *)
Lemma tracked_finish s s' r :
  tracked s → (∀ f, unfinished f s' = unfinished f s - f r) →
  inflight_ s' = delete (outbox_id r) (inflight_ s) → poller s' = poller s → tracked s'.
Proof.
  intros [] Hu Ei Ep.
  assert (∀ id, unfinished (has_id id) s' = ind (is_Some (inflight_ s' !! id))) as Hids.
  { intros id. rewrite Hu, tr_ids0, Ei. unfold has_id. unfold ind at 2. case_decide as Hid.
    - pose proof (unfinished_nonneg (has_id id) s' ltac:(intros; unfold has_id, ind; case_decide; lia)) as Hn.
      rewrite Hu, tr_ids0 in Hn. unfold has_id in Hn. unfold ind at 2 in Hn.
      rewrite decide_True in Hn by done. subst id. rewrite lookup_delete_eq.
      unfold ind in *. destruct (decide (is_Some (inflight_ s !! outbox_id r))); [|lia].
      rewrite decide_False; [done|]. apply is_Some_None.
    - rewrite lookup_delete_ne by done. lia. }
  assert (size (delete (outbox_id r) (inflight_ s)) ≤ size (inflight_ s))%nat as Hsz.
  { apply map_subseteq_size, delete_subseteq. }
  split; rewrite ?Ep; [done|..].
  - intros x Hx. assert (outbox_id x ≠ outbox_id r) as Hne.
    { intros E. pose proof (unfinished_le s' x) as Hle. rewrite Hids, Ei, E, lookup_delete_eq in Hle.
      unfold ind in Hle. rewrite decide_False in Hle by apply is_Some_None. lia. }
    rewrite Ei, lookup_delete_ne by done. apply tr_tokens0. rewrite Hu in Hx.
    unfold same_record in Hx at 2. unfold ind in Hx. case_decide; lia.
  - destruct tr_claimed0 as [? Hc]. split; [done|]. intros x Hx. rewrite Ei. apply lookup_delete_None.
    right. auto.
  - intros n Hn. rewrite Ei. specialize (tr_count0 n Hn). lia.
  - rewrite Ei. lia.
Qed.

Lemma insert_inflight_lookup rs : ∀ m,
  NoDup (outbox_id <$> rs) →
  (∀ r, r ∈ rs → insert_inflight m rs !! outbox_id r = Some (locked_by r)) ∧
  (∀ id, id ∉ outbox_id <$> rs → insert_inflight m rs !! id = m !! id).
Proof.
  unfold insert_inflight. induction rs as [|r rs IH]; intros m Hnd; [split; [set_solver|done]|].
  cbn [fmap list_fmap] in *. apply list.NoDup_cons in Hnd as [Hni Hnd]. cbn [foldl].
  destruct (IH (<[outbox_id r := locked_by r]> m) Hnd) as [H1 H2]. split.
  - intros x [->|Hx]%elem_of_cons; [|by apply H1]. rewrite H2 by done. apply lookup_insert_eq.
  - intros id Hid. rewrite H2 by set_solver. apply lookup_insert_ne. set_solver.
Qed.

Lemma insert_inflight_size rs : ∀ m,
  NoDup (outbox_id <$> rs) → (∀ r, r ∈ rs → m !! outbox_id r = None) →
  size (insert_inflight m rs) = (size m + length rs)%nat.
Proof.
  unfold insert_inflight. induction rs as [|r rs IH]; intros m Hnd Hf; [cbn; lia|].
  cbn [fmap list_fmap] in Hnd. apply list.NoDup_cons in Hnd as [Hni Hnd]. cbn [foldl length].
  rewrite IH; [|done|].
  - rewrite map_size_insert_None by (apply Hf; by left). lia.
  - intros x Hx. rewrite lookup_insert_ne; [apply Hf; by right|]. intros E. apply Hni. rewrite E.
    by apply list_elem_of_fmap_2.
Qed.

Lemma lsum_has rs id : NoDup (outbox_id <$> rs) → lsum (has_id id) rs = ind (id ∈ outbox_id <$> rs).
Proof.
  induction rs as [|r rs IH]; intros Hnd.
  { unfold ind. rewrite decide_False by set_solver. done. }
  cbn [fmap list_fmap] in *. apply list.NoDup_cons in Hnd as [Hni Hnd]. rewrite lsum_cons, IH by done.
  unfold has_id, ind. repeat case_decide; set_solver by lia.
Qed.

(** The records of a claim are entered. *)
Lemma tracked_insert s rs :
  tracked s → poller s = PClaimed rs →
  tracked (set_poller (set_inflight s (insert_inflight (inflight_ s) rs)) (PPush rs)).
Proof.
  intros [] Ep. rewrite Ep in *. cbn [claimed] in *. destruct tr_claimed0 as [Hnd Hfr].
  set (s' := set_poller _ _). destruct (insert_inflight_lookup rs (inflight_ s) Hnd) as [H1 H2].
  assert (∀ f, unfinished f s' = unfinished f s + lsum f rs) as Hu.
  { intros f. unfold unfinished. cbn. rewrite Ep. cbn. rewrite lsum_nil. lia. }
  split.
  - intros id. rewrite Hu, tr_ids0, lsum_has by done. cbn [inflight_ s' set_poller set_inflight].
    destruct (decide (id ∈ outbox_id <$> rs)) as [Hin|Hni].
    + apply list_elem_of_fmap in Hin as (r & -> & Hr). rewrite (H1 r Hr), (Hfr r Hr). unfold ind.
      rewrite decide_False by apply is_Some_None. rewrite !decide_True; [lia|by eexists|].
      by apply list_elem_of_fmap_2.
    + rewrite (H2 id Hni). unfold ind at 2. rewrite decide_False by done. lia.
  - intros r. rewrite Hu. cbn [inflight_ s' set_poller set_inflight]. intros Hr.
    destruct (decide (r ∈ rs)) as [Hin|Hni]; [by apply H1|].
    assert (lsum (same_record r) rs = 0) as Hz.
    { clear -Hni. induction rs as [|x rs IH]; [done|]. rewrite lsum_cons, IH by set_solver.
      unfold same_record, ind. rewrite decide_False; [done|]. set_solver. }
    assert (inflight_ s !! outbox_id r = Some (locked_by r)) as Hl by (apply tr_tokens0; lia).
    rewrite H2; [done|]. intros (x & E & Hx)%list_elem_of_fmap. rewrite E, (Hfr x Hx) in Hl. done.
  - cbn. split; [constructor|set_solver].
  - done.
  - cbn. rewrite insert_inflight_size by done. lia.
Qed.

Local Ltac counted :=
  intros f; unfold unfinished; cbn;
  repeat match goal with
  | E : poller _ = _ |- _ => rewrite ?E; clear E
  | E : stopper _ = _ |- _ => rewrite ?E; clear E
  | E : queue_ _ = _ |- _ => rewrite ?E; clear E
  end; cbn;
  repeat first
    [ rewrite lsum_app | rewrite lsum_cons; cbn | rewrite lsum_nil
    | rewrite lsum_notified by done
    | erewrite (lsum_insert _ (workers _)) by eassumption; cbn ]; try lia.

Lemma tracked_poll s a :
  tracked s → batch_size o ≤ max_inflight o → honest s (EPoll a) → tracked (PollStep s a).
Proof.
  intros Ht Hb Hh. unfold honest in Hh. unfold PollStep.
  destruct (poller s) as [| |n|rs|rs|rs|cl|cl|cl|] eqn:Ep; [..|done].
  - destruct (running_ s); apply (tracked_frame s); cbn; rewrite ?Ep; try done; counted.
  - apply (tracked_frame s); cbn; rewrite ?Ep; try done; [counted|]. intros n [= <-]. by right.
  - destruct (threshold <? n) eqn:Et.
    { apply (tracked_frame s); cbn; rewrite ?Ep; try done. counted. }
    cbn [NextClaimToken]. destruct (claim a) as [[|r rs]|].
    + apply (tracked_frame s); cbn; rewrite ?Ep; try done. counted.
    + destruct (Hh _ eq_refl) as (Hlen & Hnd & Hfr). destruct Ht.
      assert (∀ f, unfinished f (set_poller (take_records (set_generation s (claim_generation_ s +₆₄ 1))
                (r :: rs)) (PClaimed (r :: rs))) = unfinished f s) as Hu by counted.
      split; [intros id; rewrite Hu; apply tr_ids0|intros x; rewrite Hu; apply tr_tokens0|done|done|].
      specialize (tr_count0 n Ep). cbn [claimed poller set_poller inflight_ set_generation take_records].
      lia.
    + apply (tracked_frame s); cbn; rewrite ?Ep; try done. counted.
  - by apply tracked_insert.
  - destruct (queue_locked s); [done|]. apply (tracked_frame s); cbn; rewrite ?Ep; try done. counted.
  - apply (tracked_frame s); cbn; rewrite ?Ep; try done. counted.
  - destruct (poll_ready s cl); apply (tracked_frame s); cbn; rewrite ?Ep; try done; counted.
  - apply (tracked_frame s); cbn; rewrite ?Ep; try done. counted.
  - destruct (timeout a); [|done]. apply (tracked_frame s); cbn; rewrite ?Ep; try done. counted.
Qed.

Lemma notify_poller_frame s f :
  let s' := notify_poller s in
  unfinished f s' = unfinished f s ∧ inflight_ s' = inflight_ s ∧
  claimed (poller s') = claimed (poller s) ∧ workers s' = workers s ∧
  (∀ n, poller s' = PClaim n → poller s = PClaim n).
Proof.
  unfold notify_poller. destruct (poller s) eqn:Ep; cbn; rewrite ?Ep; try done.
  split_and!; try done. unfold unfinished. cbn. by rewrite Ep.
Qed.

Lemma tracked_notify s : tracked s → tracked (notify_poller s).
Proof.
  intros Ht. apply (tracked_frame s); try done; try apply (notify_poller_frame s (λ _, 0)).
  - intros f. apply (notify_poller_frame s f).
  - intros n Hn. left. by apply (notify_poller_frame s (λ _, 0)).
Qed.

Lemma tracked_worker s i a : tracked s → tracked (WorkerStep s i a).
Proof.
  intros Ht. unfold WorkerStep.
  destruct (workers s !! i) as [[| | |items [|r todo] pub|[|r rs]|rs|]|] eqn:Ew; try done.
  - destruct (queue_locked s); [done|]. destruct (queue_ s) as [|q qs] eqn:Eq.
    + destruct (worker_stop_ s); apply (tracked_frame s); cbn; try done; first [by left|counted].
    + apply (tracked_frame s); cbn; try done; [|by left]. set (k := Z.to_nat _). counted.
      pose proof (lsum_take_drop f k (q :: qs)) as Hk. rewrite lsum_cons in Hk. lia.
  - apply (tracked_frame s); cbn; try done; [counted|by left].
  - destruct (MarkBatch_eq s pub (batch a)) as [g ->].
    apply (tracked_frame s); cbn; try done; [counted|by left].
  - destruct (ProcessRecord_eq s r a) as [g ->].
    apply (tracked_frame s); cbn; try done; [counted|by left].
  - apply (tracked_frame s); cbn; try done; [counted|by left].
  - unfold FinishRecord. case_match; apply (tracked_finish s _ r); try done; counted.
  - destruct (lifecycle_locked s); [done|].
    destruct (notify_poller_frame s (λ _, 0)) as (_ & _ & _ & Ew' & _). rewrite <-Ew' in Ew.
    apply (tracked_frame (notify_poller s)); try done; [by apply tracked_notify| |by left].
    intros f. unfold unfinished. cbn. rewrite (lsum_insert _ _ _ _ _ Ew). cbn. lia.
Qed.

Lemma tracked_stop s a : tracked s → tracked (StopStep s a).
Proof.
  intros Ht. unfold StopStep.
  destruct (stopper s) as [| | | | |[|r rs]|r rs|rs| | | | | |] eqn:Es; [..|done].
  - apply (tracked_frame s); cbn; try done; [counted|by left].
  - assert (stopper (notify_poller s) = SNotify) as Es'.
    { unfold notify_poller. by destruct (poller s). }
    apply (tracked_frame (notify_poller s)); try done; [by apply tracked_notify| |by left].
    intros f. unfold unfinished. cbn. by rewrite Es'.
  - destruct (poller s) eqn:Ep; try done.
    apply (tracked_frame s); cbn; try done; [|by left]. intros f. unfold unfinished. cbn. by rewrite Es.
  - case_decide; [|destruct (timeout a); [|done]]; apply (tracked_frame s); cbn; try done; first [by left|counted].
  - destruct (queue_locked s); [done|]. apply (tracked_frame s); cbn; try done; [counted|by left].
  - apply (tracked_frame s); cbn; try done; [counted|by left].
  - destruct (lost_eq (call s (CReleaseClaim r)) a) as [g ->].
    apply (tracked_frame s); cbn; try done; [counted|by left].
  - unfold FinishRecord. case_match; apply (tracked_finish s _ r); try done; counted.
  - destruct (lifecycle_locked s); [done|].
    assert (stopper (notify_poller s) = SRefill rs) as Es'.
    { unfold notify_poller. by destruct (poller s). }
    apply (tracked_frame (notify_poller s)); try done; [by apply tracked_notify| |by left].
    intros f. unfold unfinished. cbn. by rewrite Es'.
  - apply (tracked_frame s); cbn; try done; [counted|by left].
  - apply (tracked_frame s); cbn; try done; [counted|by left].
  - destruct (forallb _ _); [|done]. apply (tracked_frame s); cbn; try done; [counted|by left].
  - apply (tracked_frame s); cbn; try done; [counted|by left].
  - destruct (renewer s); try done; apply (tracked_frame s); cbn; try done; first [by left|counted].
Qed.

Lemma tracked_step s ev :
  tracked s → batch_size o ≤ max_inflight o → honest s ev → tracked (relay_step s ev).
Proof.
  intros Ht Hb Hh. destruct ev as [a|i a|a|a|i]; cbn [relay_step].
  - by apply tracked_poll.
  - by apply tracked_worker.
  - unfold RenewStep. destruct (renewer s) as [|[|x owned]|]; [..|done].
    1,2: apply (tracked_frame s); cbn; try done; first [by left|counted].
    destruct (lost_eq s a) as [g ->]. apply (tracked_frame s); cbn; try done; first [by left|counted].
  - by apply tracked_stop.
  - destruct (workers s !! i) as [[]|] eqn:Ew; try done.
    apply (tracked_frame s); cbn; try done; first [by left|counted].
Qed.

Lemma lsum_workers_start (f : WorkerPc → Z) n : f WTest = 0 → lsum f (replicate n WTest) = 0.
Proof. intros Hf. induction n as [|n IH]; [done|]. cbn [replicate]. by rewrite lsum_cons, Hf, IH. Qed.

Lemma tracked_start : 0 ≤ max_inflight o → tracked Start.
Proof.
  intros Hm. assert (∀ f, unfinished f Start = 0) as Hu.
  { intros f. unfold unfinished. cbn. rewrite lsum_workers_start by done. rewrite !lsum_nil. lia. }
  split.
  - intros id. rewrite Hu. unfold ind. rewrite decide_False; [done|]. cbn. rewrite lookup_empty.
    apply is_Some_None.
  - intros r. rewrite Hu. lia.
  - cbn. split; [constructor|set_solver].
  - done.
  - cbn. rewrite map_size_empty. lia.
Qed.

Lemma relay_run_ok evs :
  let s := relay_run Start evs in ledger s ∧ ordered s ∧ shape s ∧ wakes s.
Proof.
  assert (∀ s, ledger s ∧ ordered s ∧ shape s ∧ wakes s →
    let s' := relay_run s evs in ledger s' ∧ ordered s' ∧ shape s' ∧ wakes s') as Hrun.
  { unfold relay_run. induction evs as [|ev evs IH]; intros s H; [done|]. apply IH.
    destruct H as (? & ? & ? & ?).
    split_and!; [by apply relay_ledger_step|by apply ordered_step|by apply shape_step|by apply wakes_step]. }
  apply Hrun. split_and!; [apply relay_ledger_start| |apply shape_start|apply wakes_start].
  split; cbn; [set_solver|]. intros w r [-> _]%elem_of_replicate. set_solver.
Qed.

Lemma reachable_run s : reachable s → ∃ evs, s = relay_run Start evs.
Proof.
  induction 1 as [|s ev _ [evs ->] _]; [by exists []|]. exists (evs ++ [ev]).
  unfold relay_run. by rewrite foldl_app.
Qed.

Lemma reachable_tracked s :
  0 ≤ max_inflight o → batch_size o ≤ max_inflight o → reachable s → tracked s.
Proof.
  intros Hm Hb. induction 1 as [|s ev _ IH Hh]; [by apply tracked_start|]. by apply tracked_step.
Qed.

(** ** Lists of records *)

(** The records that [inflight_] stands for. *)
Definition in_flight (s : Relay) : list OutboxRecord :=
  poll_pushing (poller s) ++ queue_ s ++ concat (worker_items <$> workers s) ++
  stop_items (stopper s).

Lemma unfinished_list f s : unfinished f s = lsum f (in_flight s).
Proof. unfold unfinished, in_flight. rewrite !lsum_app, lsum_concat. lia. Qed.

Lemma lsum_same_pos l r : 0 < lsum (same_record r) l ↔ r ∈ l.
Proof.
  assert (∀ k, 0 ≤ lsum (same_record r) k) as Hn.
  { intros k. apply lsum_nonneg. intros x. unfold same_record, ind. case_decide; lia. }
  induction l as [|x l IH]; [split; [done|set_solver]|]. rewrite lsum_cons, elem_of_cons, <-IH.
  specialize (Hn l). unfold same_record at 1, ind. case_decide; subst; [split; [auto|lia]|].
  split; [intros; right; lia|]. intros [?|?]; [congruence|lia].
Qed.

Lemma lsum_has_pos l id : (∃ r, r ∈ l ∧ outbox_id r = id) ↔ 0 < lsum (has_id id) l.
Proof.
  assert (∀ k, 0 ≤ lsum (has_id id) k) as Hn.
  { intros k. apply lsum_nonneg. intros x. unfold has_id, ind. case_decide; lia. }
  induction l as [|x l IH]; [split; [set_solver|done]|]. rewrite lsum_cons.
  specialize (Hn l). unfold has_id at 1, ind. case_decide as E.
  - split; [lia|]. intros _. exists x. split; [by left|done].
  - rewrite Z.add_0_l, <-IH. set_solver.
Qed.

Lemma lsum_has_NoDup l : (∀ id, lsum (has_id id) l ≤ 1) → NoDup (outbox_id <$> l).
Proof.
  induction l as [|x l IH]; intros Hl; [constructor|]. cbn [fmap list_fmap]. apply list.NoDup_cons.
  split.
  - intros (r & E & Hr)%list_elem_of_fmap.
    pose proof (proj1 (lsum_has_pos l (outbox_id x)) (ex_intro _ r (conj Hr (eq_sym E)))) as Hp.
    specialize (Hl (outbox_id x)). rewrite lsum_cons in Hl. unfold has_id in Hl at 1.
    unfold ind in Hl. rewrite decide_True in Hl by done. lia.
  - apply IH. intros id. specialize (Hl id). rewrite lsum_cons in Hl. unfold has_id in Hl at 1.
    unfold ind in Hl. case_decide; lia.
Qed.

(** Lists that every weight counts alike are permutations of each other. *)
Lemma lsum_Permutation (l k : list OutboxRecord) : (∀ f, lsum f l = lsum f k) → l ≡ₚ k.
Proof.
  revert k. induction l as [|x l IH]; intros k H.
  - destruct k as [|y k]; [done|]. specialize (H (λ _, 1)). rewrite lsum_cons, lsum_nil in H.
    pose proof (lsum_nonneg (λ _, 1) k ltac:(intros; lia)). lia.
  - assert (x ∈ k) as Hin.
    { apply lsum_same_pos. rewrite <-H. apply lsum_same_pos. by left. }
    apply list_elem_of_lookup in Hin as [i Hi]. rewrite (delete_Permutation k i x Hi).
    constructor. apply IH. intros f. rewrite (lsum_delete f k i x Hi), <-H, lsum_cons. lia.
Qed.

End Relay.

(** ** Properties *)

(** The [size_t] members of the options. *)
Definition sizes (o : OutboxRelayOptions) : Prop :=
  0 ≤ batch_size o ∧ 0 ≤ publish_batch_size o ∧ 0 ≤ worker_threads o ∧ 0 ≤ max_inflight o.

Lemma ValidateOptions_ok o :
  sizes o → ValidateOptions true true o = Some None →
  0 < batch_size o ≤ max_inflight o ∧ 0 < worker_threads o ∧ 0 < publish_batch_size o ∧
  0 < retry_base_ms o ≤ retry_max_ms o.
Proof.
  intros (H1 & H2 & H3 & H4). unfold ValidateOptions. cbn [negb].
  do 9 (case_match; [done|]). destruct (int_of _); [|done]. cbn [mbind option_bind].
  do 3 (case_match; [done|]). intros _.
  repeat match goal with
  | H : _ || _ = false |- _ => apply orb_false_iff in H as [? ?]
  end. lia.
Qed.

(** C27: each claim is settled exactly once, and for the right reason, whatever the
    store and the broker answer and however the threads interleave.  The records
    that were claimed are those that were settled (marked published, scheduled for
    a retry, quarantined or released) and those still on their way, each once; a
    claimed record is published at most once; and a record is marked as published
    only after the broker confirmed it, retried only after a retryable failure, with a
    delay that doubles with its attempts within the bounds of the options, and
    quarantined only when it is invalid or after a permanent failure. *)
Theorem relay_settles_claims o hash pid decode evs :
  let s := relay_run o hash pid decode (Start o) evs in
  taken s ≡ₚ settled s ++ hands s ∧
  (∀ r, lsum (same_record r) (concat (publishes <$> log s)) ≤ lsum (same_record r) (taken s)) ∧
  (∀ c, c ∈ log s → call_ok o decode (log s) c).
Proof.
  intros s. destruct (relay_run_ok o hash pid decode evs) as (Hl & Ho & _). fold s in Hl, Ho. split_and!.
  - apply lsum_Permutation. intros f. rewrite lsum_app. apply (le_settled _ Hl).
  - intros r. assert (∀ x, 0 ≤ same_record r x) as Hf by (intros; unfold same_record, ind; case_decide; lia).
    pose proof (le_published _ Hl _ Hf).
    pose proof (lsum_nonneg _ (poll_hands (poller s)) Hf). pose proof (lsum_nonneg _ (queue_ s) Hf).
    pose proof (lsum_nonneg (λ w, lsum (same_record r) (worker_todo w)) (workers s)
                  (λ w, lsum_nonneg _ (worker_todo w) Hf)). lia.
  - apply (or_log _ _ _ Ho).
Qed.

(** C28: the leases that are renewed are those of the records in hand.  On a store
    that hands out no row twice while its lease is held, [inflight_] maps exactly
    the records that were claimed and not yet finished to their claim tokens, no
    two of them have the same id, and there are never more than [max_inflight]. *)
Theorem relay_inflight_exact o hash pid decode s :
  sizes o → ValidateOptions true true o = Some None → reachable o hash pid decode s →
  map_to_list (inflight_ s) ≡ₚ (λ r, (outbox_id r, locked_by r)) <$> in_flight s ∧
  NoDup (outbox_id <$> in_flight s) ∧
  Z.of_nat (size (inflight_ s)) ≤ max_inflight o.
Proof.
  intros Hz Hv Hr. destruct (ValidateOptions_ok o Hz Hv) as (Hb & _).
  pose proof (reachable_tracked o hash pid decode s ltac:(lia) ltac:(lia) Hr) as [Hids Htok _ _ Hbd].
  assert (∀ id, lsum (has_id id) (in_flight s) = ind (is_Some (inflight_ s !! id))) as Hi.
  { intros id. by rewrite <-unfinished_list. }
  assert (NoDup (outbox_id <$> in_flight s)) as Hnd.
  { apply lsum_has_NoDup. intros id. rewrite Hi. unfold ind. case_decide; lia. }
  split_and!; [|done|lia]. apply NoDup_Permutation; [apply NoDup_map_to_list| |].
  - apply (NoDup_fmap_1 fst). by rewrite <-list_fmap_compose.
  - intros [id t]. rewrite elem_of_map_to_list, list_elem_of_fmap. split.
    + intros Hl. assert (0 < lsum (has_id id) (in_flight s)) as Hp.
      { rewrite Hi, Hl. unfold ind. rewrite decide_True by eauto. lia. }
      apply lsum_has_pos in Hp as (r & Hin & <-). exists r. split; [|done].
      rewrite (Htok r) in Hl by (rewrite unfinished_list; by apply lsum_same_pos). by simplify_eq.
    + intros (r & [= -> ->] & Hin). apply Htok. rewrite unfinished_list. by apply lsum_same_pos.
Qed.

(** When [ShutdownGraceful] is over nothing is left behind: all threads have
    ended, the queue and [inflight_] are empty, and every record that was ever
    claimed has been settled exactly once.  When it reports that the relay drained,
    none of them was released unpublished. *)
Theorem relay_shutdown_settled o hash pid decode s :
  sizes o → ValidateOptions true true o = Some None → reachable o hash pid decode s →
  stopper s = SDone →
  taken s ≡ₚ settled s ∧ queue_ s = [] ∧ inflight_ s = ∅ ∧ poller s = PExit ∧
  Forall (λ w, w = WEnd) (workers s) ∧
  (drained s = true → ∀ r, CReleaseClaim r ∉ log s).
Proof.
  intros Hz Hv Hr Hd. destruct (ValidateOptions_ok o Hz Hv) as (Hb & Hwt & _).
  pose proof (reachable_tracked o hash pid decode s ltac:(lia) ltac:(lia) Hr) as [Hids _ _ _ _].
  destruct (reachable_run o hash pid decode s Hr) as [evs ->].
  destruct (relay_run_ok o hash pid decode evs) as (Hl & _ & Hs & _).
  set (s := relay_run o hash pid decode (Start o) evs) in *. clearbody s.
  pose proof (sh_exit _ _ Hs ltac:(by rewrite Hd)) as Hp.
  pose proof (sh_joined _ _ Hs ltac:(by rewrite Hd)) as Hj.
  assert (∀ (g : WorkerPc → list OutboxRecord) f, g WEnd = [] → lsum (λ w, lsum f (g w)) (workers s) = 0) as Hz0.
  { intros g f Hg. rewrite (lsum_ext _ (λ _, 0)).
    - generalize (workers s). intros l. induction l as [|w l IH]; [done|]. rewrite lsum_cons, IH. done.
    - intros w Hw. by rewrite (Hj w Hw), Hg. }
  assert (queue_ s = []) as Hq.
  { apply (sh_ended _ _ Hs). pose proof (sh_workers _ _ Hs) as Hlen.
    destruct (workers s) as [|w l] eqn:Ew; [cbn in Hlen; lia|]. rewrite (Hj w); by left. }
  split_and!; try done.
  - apply lsum_Permutation. intros f. rewrite (le_settled _ Hl f), lsum_hands, Hp, Hq, Hd.
    cbn. rewrite Hz0 by done. rewrite !lsum_nil. lia.
  - apply map_eq. intros id. rewrite lookup_empty. apply eq_None_not_Some. intros Hsome.
    specialize (Hids id). unfold ind in Hids. rewrite decide_True in Hids by done.
    unfold unfinished in Hids. rewrite Hp, Hq, Hd in Hids. cbn in Hids.
    rewrite Hz0 in Hids by done. rewrite !lsum_nil in Hids. lia.
  - apply list.Forall_forall. intros w Hw. by apply Hj.
  - intros Hdr r Hin. destruct (sh_released _ _ Hs r Hin). congruence.
Qed.

(** C29: no wake-up of the relay's data is lost, in any interleaving.  While a record
    waits in the queue and a worker sleeps, the poll thread is about to notify the
    workers; while the poll thread waits for capacity although there is capacity,
    the thread that finished the record is about to notify it. *)
Theorem relay_no_lost_wakeup o hash pid decode evs :
  let s := relay_run o hash pid decode (Start o) evs in
  (queue_ s ≠ [] → WSleep ∈ workers s → ∃ rs, poller s = PNotify rs) ∧
  (poller s = PSleep true → Z.of_nat (size (inflight_ s)) ≤ max_inflight o - batch_size o →
   (∃ rs, WNotify rs ∈ workers s) ∨ (∃ rs, stopper s = SRefill rs)).
Proof.
  intros s. destruct (relay_run_ok o hash pid decode evs) as (_ & _ & _ & Hw). fold s in Hw.
  split; [apply (wk_sleep _ _ Hw)|]. intros Hp Hsz. apply (wk_refill _ _ Hw); [by right|done].
Qed.

(** ** Examples *)

Definition sample_options : OutboxRelayOptions :=
  MkOptions "relay-1" "events" 2 1 1 4 100 30000 5000 200 30000 168 60000 1000.
Definition sample_record : OutboxRecord :=
  MkRecord 7 "e7" "MessageCreated" 1 "message" "7" "message" "events" "MessageCreated" "e7" "p"
    kPending 0 "relay-1:1:1".
Definition sample_decode (payload : string) : DomainEvent + string :=
  inl (MkEvent 1 "e7" "MessageCreated" "message" "7" "message").
Definition sample_hash (s : string) : Z := 200.

(** A claim of one record, and answers without a claim. *)
Definition claiming : Answers :=
  MkAnswers (Some [sample_record]) kPublished (MkMutation true false) (MkBatch 1 0) false.
Definition quiet : Answers := MkAnswers None kPublished (MkMutation true false) (MkBatch 1 0) true.

Definition sample_step := relay_step sample_options sample_hash 1 sample_decode.

(** The record is claimed, published and finished, and the relay is shut down. *)
Definition sample_claim : list RelayEvent := [EPoll claiming; EPoll claiming; EPoll claiming].
Definition sample_rest : list RelayEvent :=
  replicate 3 (EPoll quiet) ++ replicate 5 (EWorker 0 quiet) ++ [EStop quiet; EPoll quiet] ++
  replicate 6 (EStop quiet) ++ [EWorker 0 quiet] ++ replicate 3 (EStop quiet) ++ [ERenew quiet] ++
  [EStop quiet].

Lemma sample_claim_reachable :
  reachable sample_options sample_hash 1 sample_decode
    (foldl sample_step (Start sample_options) sample_claim).
Proof.
  cbn [foldl sample_claim]. repeat apply reach_step; [apply reach_start|done|done|].
  unfold honest. cbn. intros rs [= <-]. unfold claim_ok. split_and!; [by vm_compute| |].
  - apply NoDup_singleton.
  - intros r _. apply lookup_empty.
Qed.

Lemma sample_reachable evs s :
  reachable sample_options sample_hash 1 sample_decode s →
  Forall (λ ev, match ev with EPoll a => claim a = None | _ => True end) evs →
  reachable sample_options sample_hash 1 sample_decode (foldl sample_step s evs).
Proof.
  intros Hr Hev. revert s Hr. induction Hev as [|ev evs He _ IH]; intros s Hr; [done|].
  cbn [foldl]. apply IH, reach_step; [done|]. unfold honest. destruct ev; try done.
  destruct (poller s); try done. intros rs. congruence.
Qed.

Lemma relay_inflight_exact_witness :
  let s := foldl sample_step (foldl sample_step (Start sample_options) sample_claim) [EPoll quiet] in
  inflight_ s = {[7 := "relay-1:1:1"%string]} ∧ in_flight s = [sample_record] ∧
  map_to_list (inflight_ s) ≡ₚ (λ r, (outbox_id r, locked_by r)) <$> in_flight s.
Proof.
  intros s. split_and!; [vm_compute; reflexivity|vm_compute; reflexivity|].
  apply (relay_inflight_exact sample_options sample_hash 1 sample_decode).
  - unfold sizes. cbn. lia.
  - reflexivity.
  - apply sample_reachable; [apply sample_claim_reachable|]. repeat constructor.
Defined.

Lemma relay_shutdown_settled_witness :
  let s := foldl sample_step (foldl sample_step (Start sample_options) sample_claim) sample_rest in
  stopper s = SDone ∧ settled s = [sample_record] ∧ taken s ≡ₚ settled s.
Proof.
  intros s. split_and!; [vm_compute; reflexivity|vm_compute; reflexivity|].
  apply (relay_shutdown_settled sample_options sample_hash 1 sample_decode).
  - unfold sizes. cbn. lia.
  - reflexivity.
  - apply sample_reachable; [apply sample_claim_reachable|]. repeat constructor.
  - vm_compute. reflexivity.
Defined.

Lemma relay_retry_delay_witness :
  1 ≤ ComputeRetryDelay sample_hash "e7" 4 200 30000 ≤ 30000.
Proof. apply (relay_retry_delay sample_hash "e7" 4 200 30000); lia. Defined.

(** ** What the theorems leave out *)

(** [ShutdownGraceful] stores [worker_stop_] and notifies the workers without
    [queue_mutex_].  A worker that has found nothing to do and does not sleep yet
    misses the notification; it then sleeps, and unless it wakes up by chance the
    shutdown waits for it forever. *)
Theorem relay_shutdown_stuck evs :
  Forall (λ ev, match ev with ESpurious _ => False | _ => True end) evs →
  stopper (foldl sample_step (Start sample_options)
    ([EWorker 0 quiet; EStop quiet; EPoll quiet] ++ replicate 5 (EStop quiet) ++
     [EWorker 0 quiet] ++ evs)) = SJoinWorkers.
Proof.
  intros Hev. rewrite !foldl_app. set (s := foldl sample_step _ [EWorker 0 quiet]).
  assert (stopper s = SJoinWorkers ∧ workers s = [WSleep] ∧ poller s = PExit) as Hs
    by (vm_compute; done).
  clearbody s. revert s Hs. induction Hev as [|ev evs He _ IH]; intros s (H1 & H2 & H3); [done|].
  cbn [foldl]. apply IH. destruct ev as [a|i a|a|a|i]; cbn [sample_step relay_step]; [..|done].
  - unfold PollStep. by rewrite H3.
  - unfold WorkerStep. rewrite H2. destruct i as [|i]; by rewrite ?H2.
  - unfold RenewStep. destruct (renewer s) as [|[|x l]|]; try done. by destruct (_ && _).
  - unfold StopStep. rewrite H1, H2. done.
Qed.

(** The test of the renewal interval multiplies it by three first: the product of a
    large one is not an [int]. *)
Theorem renew_interval_overflow :
  ValidateOptions true true
    (MkOptions "relay-1" "events" 2 1 1 4 100 30000 1431655766 200 30000 168 60000 1000) = None.
Proof. reflexivity. Qed.
