(* ===== verification/MessageTypes.v ===== *)
(** * Data of the message service and its repository port

    Models [src/services/message/application/MessageApplicationTypes.h],
    [MessageRepositoryPort.h], [ReceiverConfirmationDecision.h],
    [GroupDeliveryCompletionValidation.h] and
    [src/common/protocol/CommittedUnreadSnapshot.h].  A string is the list of its
    bytes.  An [enum class] with a fixed underlying type can hold a value without a
    name, which has a constructor of its own.  The results of the port and those of
    the application that have the same fields are one record, and [found] with
    [record] is an option. *)
From Stdlib Require Import ZArith Lia String.
From stdpp Require Import base list numbers.
From S2P Require Import Prelude ByteStrings.

Local Open Scope Z_scope.

(** ** Data *)

Inductive MessageApplicationStatus :=
| kSucceeded | kInvalidArgument | kNotFound | kPermissionDenied | kFailedPrecondition
| kInvalidRecord | kStorageError.

Inductive MessageDeliveryState :=
| kPending | kReceiverConfirmed | kRead | kFailed | kDeliveryOther (value : Z).

(** [PersistPrivateMessageOutcome] and [PersistGroupMessageOutcome]. *)
Inductive PersistOutcome := kCreated | kReused | kIdempotencyConflict.

Inductive ResolvePrivateMessageOutcome := kNotObserved | kMatchedDurable | kResolveConflict.

Inductive GroupDeliveryState :=
| kGroupPending | kDeferredOffline | kDelivered | kGroupStateOther (value : Z).

Inductive GroupDeliveryAttemptOutcome :=
| kSubmitted | kOffline | kRetryableFailure | kAttemptOther (value : Z).

#[export] Instance MessageApplicationStatus_eq_dec : EqDecision MessageApplicationStatus.
Proof. solve_decision. Defined.
#[export] Instance MessageDeliveryState_eq_dec : EqDecision MessageDeliveryState.
Proof. solve_decision. Defined.
#[export] Instance PersistOutcome_eq_dec : EqDecision PersistOutcome.
Proof. solve_decision. Defined.
#[export] Instance GroupDeliveryState_eq_dec : EqDecision GroupDeliveryState.
Proof. solve_decision. Defined.
#[export] Instance GroupDeliveryAttemptOutcome_eq_dec : EqDecision GroupDeliveryAttemptOutcome.
Proof. solve_decision. Defined.

Record PrivateMessagePersistInput := MkInput {
  in_from : Z;
  in_to : Z;
  in_cid : list Z;
  in_type : Z;
  in_content : list Z;
}.

Record MessageView := MkMessage {
  message_id : Z;
  client_message_id : list Z;
  from_user_id : Z;
  to_user_id : Z;
  message_type : Z;
  content : list Z;
  delivery_state : MessageDeliveryState;
  created_at : list Z;
  receiver_confirmed_at : list Z;
  read_at : list Z;
}.
#[export] Instance MessageView_eq_dec : EqDecision MessageView.
Proof. solve_decision. Defined.

(** [MessageView{}]. *)
Definition no_message : MessageView := MkMessage 0 [] 0 0 0 [] kPending [] [] [].

Record ConversationView := MkConversation {
  peer_user_id : Z;
  last_message : MessageView;    (* the [last_*] fields *)
}.

Record GroupMessageView := MkGroupMessage {
  gm_message_id : Z;
  gm_client_message_id : list Z;
  gm_group_id : Z;
  gm_from_user_id : Z;
  gm_message_type : Z;
  gm_content : list Z;
  gm_membership_epoch : Z;
  gm_member_version : Z;
  gm_authorized_role : Z;
  gm_created_at : list Z;
}.
#[export] Instance GroupMessageView_eq_dec : EqDecision GroupMessageView.
Proof. solve_decision. Defined.

(** The arguments of [PersistAuthorizedGroupMessage] but for the recipients. *)
Record GroupMessageInput := MkGroupInput {
  gi_from_user_id : Z;
  gi_group_id : Z;
  gi_client_message_id : list Z;
  gi_message_type : Z;
  gi_content : list Z;
  gi_membership_epoch : Z;
  gi_member_version : Z;
  gi_authorized_role : Z;
}.

Record GroupDeliveryView := MkGroupDelivery {
  gd_message_id : Z;
  gd_group_id : Z;
  gd_recipient_user_id : Z;
  gd_delivery_state : GroupDeliveryState;
  gd_attempt_count : Z;
  gd_last_gateway_id : list Z;
  gd_lease_owner : list Z;
  gd_lease_token : list Z;
  gd_lease_until : list Z;
  gd_next_retry_at : list Z;
  gd_last_error_code : list Z;
  gd_created_at : list Z;
  gd_updated_at : list Z;
  gd_delivered_at : list Z;
}.
#[export] Instance GroupDeliveryView_eq_dec : EqDecision GroupDeliveryView.
Proof. solve_decision. Defined.

Record GroupDeliveryWorkItem := MkWorkItem {
  work_message : GroupMessageView;
  work_delivery : GroupDeliveryView;
}.
#[export] Instance GroupDeliveryWorkItem_eq_dec : EqDecision GroupDeliveryWorkItem.
Proof. solve_decision. Defined.

Record GroupDeliveryAttemptCompletion := MkCompletion {
  gc_message_id : Z;
  gc_recipient_user_id : Z;
  gc_lease_token : list Z;
  gc_outcome : GroupDeliveryAttemptOutcome;
  gc_gateway_id : list Z;
  gc_retry_after_ms : Z;
  gc_error_code : list Z;
}.
#[export] Instance GroupDeliveryAttemptCompletion_eq_dec : EqDecision GroupDeliveryAttemptCompletion.
Proof. solve_decision. Defined.

Record CommittedUnreadSnapshot := MkUnread {
  cu_message_id : Z;
  cu_receiver_user_id : Z;
  cu_peer_user_id : Z;
  cu_private_unread : Z;
  cu_total_unread : Z;
}.

Definition ValidFor (u : CommittedUnreadSnapshot) (mid receiver peer : Z) : bool :=
  negb (mid =? 0) && negb (receiver =? 0) && negb (peer =? 0) && negb (receiver =? peer) &&
  (cu_message_id u =? mid) && (cu_receiver_user_id u =? receiver) &&
  (cu_peer_user_id u =? peer) && negb (cu_private_unread u =? 0) &&
  (cu_private_unread u <=? cu_total_unread u) && (cu_total_unread u <=? 2 ^ 63 - 1).

Definition CanUseCommittedUnreadSnapshot (projection_writer created : bool)
    (value : option CommittedUnreadSnapshot) (mid receiver peer : Z) : bool :=
  negb projection_writer && created &&
  match value with Some u => ValidFor u mid receiver peer | None => false end.

(** ** Results *)

(** [MessageRepositoryPersistResult] and [PersistPrivateMessageApplicationResult]. *)
Record PersistResult := MkPersist {
  p_status : MessageApplicationStatus;
  p_outcome : PersistOutcome;
  p_message_id : Z;
  p_record : MessageView;
  p_message : list Z;
  p_committed_unread : option CommittedUnreadSnapshot;
}.
(** A result with the default values but for the status and the message. *)
Definition persist_failure (st : MessageApplicationStatus) (message : list Z) : PersistResult :=
  MkPersist st kCreated 0 no_message message None.

Definition Completed (r : PersistResult) : bool := bool_decide (p_status r = kSucceeded).
Definition Accepted (r : PersistResult) : bool :=
  Completed r && (bool_decide (p_outcome r = kCreated) || bool_decide (p_outcome r = kReused)).

(** [MessageRepositoryGroupPersistResult] and
    [PersistGroupMessageApplicationResult]. *)
Record GroupPersistResult := MkGroupPersist {
  gp_status : MessageApplicationStatus;
  gp_outcome : PersistOutcome;
  gp_message_id : Z;
  gp_record : option GroupMessageView;
  gp_message : list Z;
}.

(** [MessageRepositoryGetResult]. *)
Record GetResult := MkGet {
  g_status : MessageApplicationStatus;
  g_record : option MessageView;    (* [found] and [record] *)
  g_message : list Z;
}.
Definition Found (r : GetResult) : bool :=
  bool_decide (g_status r = kSucceeded) && bool_decide (is_Some (g_record r)).

(** [GetPrivateMessageApplicationResult]. *)
Record GetApplicationResult := MkGetApplication {
  ga_status : MessageApplicationStatus;
  ga_record : MessageView;
  ga_message : list Z;
}.

Record ResolveResult := MkResolve {
  r_status : MessageApplicationStatus;
  r_outcome : ResolvePrivateMessageOutcome;
  r_record : option MessageView;
  r_message : list Z;
}.

(** Results that hold a list: [MessageRepositoryHistoryResult],
    [MessageRepositoryConversationResult], [MessageRepositoryPendingResult],
    [MessageRepositoryGroupDeliveryListResult]. *)
Record ListResult (A : Type) := MkList {
  l_status : MessageApplicationStatus;
  l_records : list A;
  l_message : list Z;
}.
Arguments MkList {A}.
Arguments l_status {A}.
Arguments l_records {A}.
Arguments l_message {A}.

(** Pages: [ListHistoryApplicationResult], [ListConversationsApplicationResult],
    [ListPendingAfterApplicationResult], [PendingRecipientsResult],
    [GroupHistoryApplicationResult]. *)
Record PageResult (A : Type) := MkPage {
  pg_status : MessageApplicationStatus;
  pg_records : list A;
  pg_has_more : bool;
  pg_message : list Z;
}.
Arguments MkPage {A}.
Arguments pg_status {A}.
Arguments pg_records {A}.
Arguments pg_has_more {A}.
Arguments pg_message {A}.

Definition page_failure {A} (st : MessageApplicationStatus) (message : list Z) : PageResult A :=
  MkPage st [] false message.

(** [MessageRepositoryGroupGetResult] and
    [MessageRepositoryGroupDeliveryGetResult]. *)
Record FindResult (A : Type) := MkFind {
  f_status : MessageApplicationStatus;
  f_record : option A;
  f_message : list Z;
}.
Arguments MkFind {A}.
Arguments f_status {A}.
Arguments f_record {A}.
Arguments f_message {A}.

(** [MessageRepositoryCountResult] and [CountPendingApplicationResult]. *)
Record CountResult := MkCount {
  c_status : MessageApplicationStatus;
  c_count : Z;
  c_message : list Z;
}.

(** [MessageRepositoryMutationResult] and [MessageMutationApplicationResult]. *)
Record MutationResult := MkMutation {
  m_status : MessageApplicationStatus;
  m_affected_rows : Z;
  m_message : list Z;
}.

(** ** Decisions shared with the repositories *)

(** [None] authorizes the change of a pending message to confirmed. *)
Definition ReceiverConfirmationDecision (lookup : GetResult) (receiver_user_id : Z)
  : option MutationResult :=
  if negb (bool_decide (g_status lookup = kSucceeded)) then
    Some (MkMutation (g_status lookup) 0 (g_message lookup))
  else match g_record lookup with
  | None => Some (MkMutation kNotFound 0 (str "private message not found"))
  | Some record =>
      if negb (to_user_id record =? receiver_user_id) then
        Some (MkMutation kPermissionDenied 0 (str "receiver does not own private message"))
      else match delivery_state record with
      | kPending => None
      | kReceiverConfirmed | kRead =>
          Some (MkMutation kSucceeded 0 (str "receiver confirmation already durable"))
      | kFailed =>
          Some (MkMutation kFailedPrecondition 0 (str "failed message cannot be receiver-confirmed"))
      | kDeliveryOther _ =>
          Some (MkMutation kInvalidRecord 0
                  (str "message repository returned invalid delivery status"))
      end
  end.

Definition ValidAttempt (item : GroupDeliveryAttemptCompletion) : bool :=
  negb (gc_message_id item =? 0) && negb (gc_recipient_user_id item =? 0) &&
  negb (bempty (gc_lease_token item)) && (bsize (gc_lease_token item) <=? 128) &&
  (bsize (gc_gateway_id item) <=? 128) && (bsize (gc_error_code item) <=? 128) &&
  (gc_retry_after_ms item <=? 600000).

(** The loop, with the identities seen so far. *)
Fixpoint ValidAttempts (identities : list (Z * Z)) (attempts : list GroupDeliveryAttemptCompletion)
  : bool :=
  match attempts with
  | [] => true
  | item :: rest =>
      let identity := (gc_message_id item, gc_recipient_user_id item) in
      if negb (ValidAttempt item) || bool_decide (identity ∈ identities) then false
      else match gc_outcome item with
      | kSubmitted | kOffline | kRetryableFailure => ValidAttempts (identity :: identities) rest
      | kAttemptOther _ => false
      end
  end.

Definition ValidGroupDeliveryAttemptCompletions (attempts : list GroupDeliveryAttemptCompletion)
  : bool :=
  if bool_decide (attempts = []) || (256 <? Z.of_nat (length attempts)) then false
  else ValidAttempts [] attempts.

(** ** The port *)

(** Each method on the state [S] of the repository. *)
Class MessageRepositoryPort (S : Type) := {
  repo_ListPendingRecipientsAfter : S → Z → Z → S * PageResult Z;
  repo_ListGroupHistory : S → Z → Z → Z → Z → S * PageResult GroupMessageView;
  repo_FindPrivateMessageByClientMessageId : S → Z → list Z → S * GetResult;
  repo_PersistPrivateMessage : S → PrivateMessagePersistInput → S * PersistResult;
  repo_PersistPrivateMessages : S → list PrivateMessagePersistInput → S * list PersistResult;
  repo_FindGroupMessageByClientMessageId : S → Z → list Z → S * FindResult GroupMessageView;
  repo_PersistAuthorizedGroupMessage :
    S → GroupMessageInput → list Z → S * GroupPersistResult;
  repo_GetGroupMessageDelivery : S → Z → Z → S * FindResult GroupDeliveryWorkItem;
  repo_ClaimGroupMessageDeliveries :
    S → list Z → list Z → Z → Z → Z → S * ListResult GroupDeliveryWorkItem;
  repo_ClaimGroupMessageDeliveriesForRecipient :
    S → Z → list Z → list Z → Z → Z → S * ListResult GroupDeliveryWorkItem;
  repo_CompleteGroupMessageDeliveryAttempt :
    S → GroupDeliveryAttemptCompletion → S * MutationResult;
  repo_ConfirmGroupMessageDelivery : S → Z → Z → S * MutationResult;
  repo_GetPrivateMessage : S → Z → S * GetResult;
  repo_ListHistory : S → Z → Z → Z → Z → S * ListResult MessageView;
  repo_ListConversations : S → Z → Z → S * ListResult ConversationView;
  repo_CountPending : S → Z → S * CountResult;
  repo_ListPendingAfter : S → Z → Z → Z → S * ListResult MessageView;
  repo_ConfirmReceiver : S → Z → S * MutationResult;
  repo_ConfirmReceiverBatch : S → list Z → S * MutationResult;
  repo_MarkDialogRead : S → Z → Z → S * MutationResult;
  repo_CompleteGroupMessageDeliveryAttempts :
    S → list GroupDeliveryAttemptCompletion → S * MutationResult;
  repo_TryConfirmReceiverOwnedIfPending : S → Z → Z → S * option MutationResult;
}.

(** The implementations the port supplies itself. *)
Definition default_ListPendingRecipientsAfter : PageResult Z :=
  page_failure kStorageError (str "pending recipient discovery is unavailable").
Definition default_ListGroupHistory : PageResult GroupMessageView :=
  page_failure kStorageError (str "group history unavailable").
Definition default_FindPrivateMessageByClientMessageId : GetResult :=
  MkGet kStorageError None (str "private message identity lookup is unavailable").
Definition default_CompleteGroupMessageDeliveryAttempts : MutationResult :=
  MkMutation kFailedPrecondition 0 (str "group delivery batch completion is unavailable").

Fixpoint default_PersistPrivateMessages {S}
    (persist : S → PrivateMessagePersistInput → S * PersistResult)
    (s : S) (inputs : list PrivateMessagePersistInput) : S * list PersistResult :=
  match inputs with
  | [] => (s, [])
  | input :: inputs =>
      let '(s, r) := persist s input in
      let '(s, rs) := default_PersistPrivateMessages persist s inputs in
      (s, r :: rs)
  end.

(** ** Facts *)

(** The loop refuses exactly the lists with an invalid item or a repeated
    identity. *)
Lemma ValidAttempts_spec identities attempts :
  ValidAttempts identities attempts = true ↔
  Forall (λ item, ValidAttempt item = true ∧ ∀ v, gc_outcome item ≠ kAttemptOther v) attempts ∧
  NoDup ((λ item, (gc_message_id item, gc_recipient_user_id item)) <$> attempts) ∧
  ∀ item, item ∈ attempts → (gc_message_id item, gc_recipient_user_id item) ∉ identities.
Proof.
  revert identities. induction attempts as [|item rest IH]; intros identities.
  { split; [|done]. intros _. repeat split; [constructor|constructor|]. intros ? []%elem_of_nil. }
  cbn [ValidAttempts]. rewrite list.Forall_cons, fmap_cons, list.NoDup_cons.
  destruct (ValidAttempt item) eqn:Hv; cbn [negb orb];
    [|split; [done|]; by intros ([[? _] _] & _)].
  case_bool_decide as Hin.
  { split; [done|]. intros (_ & _ & H). destruct (H item); [left|done]. }
  assert (Hother : (∃ v, gc_outcome item = kAttemptOther v) ∨
    ((∀ v, gc_outcome item ≠ kAttemptOther v) ∧
     (match gc_outcome item with
      | kSubmitted | kOffline | kRetryableFailure =>
          ValidAttempts ((gc_message_id item, gc_recipient_user_id item) :: identities) rest
      | kAttemptOther _ => false end) =
     ValidAttempts ((gc_message_id item, gc_recipient_user_id item) :: identities) rest)).
  { destruct (gc_outcome item) eqn:E; eauto. }
  destruct Hother as [[v E]|[Ho ->]].
  { rewrite E. split; [done|]. intros ([[_ H] _] & _). by destruct (H v). }
  rewrite IH. split.
  - intros (Hf & Hnd & Hni). split; [done|]. split.
    + split; [|done]. intros (x & Hx & ?)%list_elem_of_fmap. apply (Hni x); [done|]. rewrite Hx. left.
    + intros x [->|Hx]%elem_of_cons; [done|]. intros Hc. apply (Hni x Hx). by right.
  - intros ([_ Hf] & [Hn Hnd] & Hni). split; [done|]. split; [done|].
    intros x Hx [Hc|Hc]%elem_of_cons; [|by apply (Hni x); [right|]].
    apply Hn, list_elem_of_fmap. eauto.
Qed.
