(* ===== verification/MessageApplicationService.v ===== *)
(** * The message application service

    Models [src/services/message/application/MessageApplicationService.cpp] and
    [MessageApplicationService.h]: the validation of requests before they reach the
    repository, and of what the repository answers before it goes out.  The
    repository is the port [MessageRepositoryPort] on a state of its own; a service
    made with a null pointer has [None]. *)
From Stdlib Require Import ZArith Lia String.
From stdpp Require Import base list numbers sorting.
From S2P Require Import Prelude ByteStrings MessageTypes.

Local Open Scope Z_scope.

Definition kMaxReadPageLimit : Z := 50.
Definition kMaxPendingPageLimit : Z := 100.
Definition kMaxPendingPageBytes : Z := 2 * 1024 * 1024.
Definition kPendingRecordOverheadBytes : Z := 256.
Definition kMaxConfirmBatchSize : Z := 100.

Definition ValidPrivatePersist (i : PrivateMessagePersistInput) : bool :=
  negb (in_from i =? 0) && negb (in_to i =? 0) && negb (in_from i =? in_to i) &&
  negb (bempty (in_cid i)) && (bsize (in_cid i) <=? 64) &&
  (1 <=? in_type i) && (in_type i <=? 3) && negb (bempty (in_content i)).

Definition unavailable : list Z := str "message repository port is unavailable".

(** What [ListPendingAfter] requires of the records of a page. *)
Fixpoint ValidPendingPage (to_user : Z) (previous_id : Z) (records : list MessageView) : bool :=
  match records with
  | [] => true
  | m :: rest =>
      if (message_id m =? 0) || (message_id m <=? previous_id) ||
         negb (to_user_id m =? to_user) || negb (bool_decide (delivery_state m = kPending))
      then false
      else ValidPendingPage to_user (message_id m) rest
  end.

(** The size of a record on the wire; [None] when a field does not fit. *)
Fixpoint AddFields (record_bytes : Z) (fields : list (list Z)) : option Z :=
  match fields with
  | [] => Some record_bytes
  | field :: rest =>
      if kMaxPendingPageBytes - record_bytes <? bsize field then None
      else AddFields (record_bytes + bsize field) rest
  end.
Definition RecordBytes (m : MessageView) : option Z :=
  AddFields kPendingRecordOverheadBytes
    [content m; client_message_id m; created_at m; receiver_confirmed_at m; read_at m].

(** The number of records that fit into a page after [page_bytes]. *)
Fixpoint TakeFitting (page_bytes : Z) (records : list MessageView) : nat :=
  match records with
  | [] => O
  | m :: rest =>
      match RecordBytes m with
      | None => O
      | Some record_bytes =>
          if kMaxPendingPageBytes - page_bytes <? record_bytes then O
          else S (TakeFitting (page_bytes + record_bytes) rest)
      end
  end.

Fixpoint ValidRecipients (previous : Z) (ids : list Z) : bool :=
  match ids with
  | [] => true
  | id :: rest => if (id =? 0) || (id <=? previous) then false else ValidRecipients id rest
  end.

Fixpoint ValidGroupHistory (group previous : Z) (records : list GroupMessageView) : bool :=
  match records with
  | [] => true
  | r :: rest =>
      if negb (gm_group_id r =? group) || (gm_message_id r =? 0) ||
         (negb (previous =? 0) && (previous <=? gm_message_id r)) ||
         (gm_from_user_id r =? 0) || bempty (gm_content r)
      then false
      else ValidGroupHistory group (gm_message_id r) rest
  end.

Section Service.
Context {S : Type} `{Repo : MessageRepositoryPort S}.

(** [repository_]: null, or the repository in its current state. *)
Definition Service : Type := option S.

Definition WithRepository {R} (svc : Service) (missing : R) (call : S → S * R) : Service * R :=
  match svc with
  | None => (svc, missing)
  | Some s => let '(s', r) := call s in (Some s', r)
  end.

Definition ResolvePrivateMessage (svc : Service) (i : PrivateMessagePersistInput)
  : Service * ResolveResult :=
  if (in_from i =? 0) || (in_to i =? 0) || (in_from i =? in_to i) ||
     bempty (in_cid i) || (64 <? bsize (in_cid i)) ||
     (in_type i <? 1) || (3 <? in_type i) || bempty (in_content i)
  then (svc, MkResolve kInvalidArgument kNotObserved None
               (str "invalid ResolvePrivateMessage application request"))
  else WithRepository svc (MkResolve kStorageError kNotObserved None unavailable) (λ s,
    let '(s, result) := repo_FindPrivateMessageByClientMessageId s (in_from i) (in_cid i) in
    (s,
     if negb (bool_decide (g_status result = kSucceeded)) then
       MkResolve (g_status result) kNotObserved None (g_message result)
     else match g_record result with
     | None => MkResolve kSucceeded kNotObserved None (str "private message not observed in this read")
     | Some record =>
         if (message_id record =? 0) || negb (from_user_id record =? in_from i) ||
            negb (bool_decide (client_message_id record = in_cid i)) || (to_user_id record =? 0) ||
            (to_user_id record =? in_from i) || (message_type record <? 1) ||
            (3 <? message_type record) || bempty (content record) ||
            match delivery_state record with kDeliveryOther _ => true | _ => false end
         then MkResolve kInvalidRecord kNotObserved None
                (str "identity lookup returned an invalid private message")
         else if negb (to_user_id record =? in_to i) || negb (message_type record =? in_type i) ||
                 negb (bool_decide (content record = in_content i))
         then MkResolve kSucceeded kResolveConflict None
                (str "client_message_id belongs to different immutable content")
         else MkResolve kSucceeded kMatchedDurable (Some record)
                (str "matching durable private message observed")
     end)).

Definition PersistPrivateMessage (svc : Service) (i : PrivateMessagePersistInput)
  : Service * PersistResult :=
  if negb (ValidPrivatePersist i) then
    (svc, persist_failure kInvalidArgument (str "invalid PersistPrivateMessage application request"))
  else WithRepository svc (persist_failure kStorageError unavailable)
         (λ s, repo_PersistPrivateMessage s i).

(** The results of the valid inputs [results] put in the places of the valid
    inputs, the other places hold what the first loop wrote. *)
Fixpoint MergeResults (inputs : list PrivateMessagePersistInput) (results : list PersistResult)
  : list PersistResult :=
  match inputs with
  | [] => []
  | i :: inputs =>
      if ValidPrivatePersist i then
        match results with
        | r :: results => r :: MergeResults inputs results
        | [] => persist_failure kStorageError [] :: MergeResults inputs []
        end
      else persist_failure kInvalidArgument (str "invalid PersistPrivateMessage application request")
             :: MergeResults inputs results
  end.

Definition PersistPrivateMessages (svc : Service) (inputs : list PrivateMessagePersistInput)
  : Service * list PersistResult :=
  if 64 <? Z.of_nat (length inputs) then
    (svc, (λ _, persist_failure kInvalidArgument (str "private persistence batch exceeds64")) <$> inputs)
  else
    let valid := filter (λ i, ValidPrivatePersist i = true) inputs in
    match svc with
    | None => (svc, MergeResults inputs ((λ _, persist_failure kStorageError unavailable) <$> valid))
    | Some s =>
        match valid with
        | [] => (svc, MergeResults inputs [])
        | _ =>
            let '(s, results) := repo_PersistPrivateMessages s valid in
            (Some s,
             MergeResults inputs
               (if negb (Nat.eqb (length results) (length valid)) then
                  (λ _, persist_failure kStorageError
                          (str "private batch repository result count mismatch")) <$> valid
                else results))
        end
    end.

Definition FindGroupMessageByClientMessageId (svc : Service) (from_user : Z) (cid : list Z)
  : Service * FindResult GroupMessageView :=
  if (from_user =? 0) || bempty cid || (64 <? bsize cid) then
    (svc, MkFind kInvalidArgument None (str "invalid group message idempotency lookup"))
  else WithRepository svc (MkFind kStorageError None unavailable)
         (λ s, repo_FindGroupMessageByClientMessageId s from_user cid).

(** The overload without recipients passes none. *)
Definition PersistAuthorizedGroupMessage (svc : Service) (i : GroupMessageInput)
    (recipient_user_ids : list Z) : Service * GroupPersistResult :=
  if (gi_from_user_id i =? 0) || (gi_group_id i =? 0) || bempty (gi_client_message_id i) ||
     (64 <? bsize (gi_client_message_id i)) || (gi_message_type i <? 1) || (3 <? gi_message_type i) ||
     bempty (gi_content i) || (gi_membership_epoch i =? 0) || (gi_member_version i =? 0) ||
     (gi_authorized_role i <? 1) || (3 <? gi_authorized_role i)
  then (svc, MkGroupPersist kInvalidArgument kCreated 0 None
               (str "invalid authorized group message application request"))
  else WithRepository svc (MkGroupPersist kStorageError kCreated 0 None unavailable)
         (λ s, repo_PersistAuthorizedGroupMessage s i recipient_user_ids).

Definition GetGroupMessageDelivery (svc : Service) (mid recipient : Z)
  : Service * FindResult GroupDeliveryWorkItem :=
  if (mid =? 0) || (recipient =? 0) then
    (svc, MkFind kInvalidArgument None (str "invalid GetGroupMessageDelivery application request"))
  else WithRepository svc (MkFind kStorageError None unavailable)
         (λ s, repo_GetGroupMessageDelivery s mid recipient).

Definition ClaimGroupMessageDeliveries (svc : Service) (owner token : list Z) (limit lease_ms mid : Z)
  : Service * ListResult GroupDeliveryWorkItem :=
  if bempty owner || bempty token || (limit =? 0) || (256 <? limit) ||
     (lease_ms <? 100) || (60000 <? lease_ms)
  then (svc, MkList kInvalidArgument []
               (str "invalid ClaimGroupMessageDeliveries application request"))
  else WithRepository svc (MkList kStorageError [] unavailable)
         (λ s, repo_ClaimGroupMessageDeliveries s owner token limit lease_ms mid).

Definition ClaimGroupMessageDeliveriesForRecipient (svc : Service) (recipient : Z)
    (owner token : list Z) (limit lease_ms : Z) : Service * ListResult GroupDeliveryWorkItem :=
  if (recipient =? 0) || bempty owner || bempty token || (128 <? bsize owner) ||
     (128 <? bsize token) || (limit =? 0) || (256 <? limit) || (lease_ms <? 100) || (60000 <? lease_ms)
  then (svc, MkList kInvalidArgument []
               (str "invalid ClaimGroupMessageDeliveriesForRecipient application request"))
  else WithRepository svc (MkList kStorageError [] unavailable)
         (λ s, repo_ClaimGroupMessageDeliveriesForRecipient s recipient owner token limit lease_ms).

Definition CompleteGroupMessageDeliveryAttempt (svc : Service) (c : GroupDeliveryAttemptCompletion)
  : Service * MutationResult :=
  if (gc_message_id c =? 0) || (gc_recipient_user_id c =? 0) || bempty (gc_lease_token c) then
    (svc, MkMutation kInvalidArgument 0
            (str "invalid CompleteGroupMessageDeliveryAttempt application request"))
  else WithRepository svc (MkMutation kStorageError 0 unavailable)
         (λ s, repo_CompleteGroupMessageDeliveryAttempt s c).

Definition CompleteGroupMessageDeliveryAttempts (svc : Service)
    (attempts : list GroupDeliveryAttemptCompletion) : Service * MutationResult :=
  if negb (ValidGroupDeliveryAttemptCompletions attempts) then
    (svc, MkMutation kInvalidArgument 0
            (str "invalid CompleteGroupMessageDeliveryAttempts application request"))
  else WithRepository svc (MkMutation kStorageError 0 unavailable)
         (λ s, repo_CompleteGroupMessageDeliveryAttempts s attempts).

Definition ConfirmGroupMessageDelivery (svc : Service) (mid recipient : Z)
  : Service * MutationResult :=
  if (mid =? 0) || (recipient =? 0) then
    (svc, MkMutation kInvalidArgument 0 (str "invalid ConfirmGroupMessageDelivery application request"))
  else WithRepository svc (MkMutation kStorageError 0 unavailable)
         (λ s, repo_ConfirmGroupMessageDelivery s mid recipient).

Definition GetPrivateMessage (svc : Service) (mid : Z) : Service * GetApplicationResult :=
  if mid =? 0 then
    (svc, MkGetApplication kInvalidArgument no_message
            (str "invalid GetPrivateMessage application request"))
  else WithRepository svc (MkGetApplication kStorageError no_message unavailable) (λ s,
    let '(s, result) := repo_GetPrivateMessage s mid in
    (s,
     if negb (bool_decide (g_status result = kSucceeded)) then
       MkGetApplication (g_status result) no_message (g_message result)
     else match g_record result with
     | None => MkGetApplication kNotFound no_message (str "private message not found")
     | Some record =>
         if negb (message_id record =? mid) || (from_user_id record =? 0) ||
            (to_user_id record =? 0) || (message_type record <? 1) || (3 <? message_type record)
         then MkGetApplication kInvalidRecord no_message
                (str "message repository returned invalid private message")
         else MkGetApplication kSucceeded record (str "private message queried")
     end)).

Definition ListHistory (svc : Service) (actor peer before limit : Z)
  : Service * PageResult MessageView :=
  if (actor =? 0) || (peer =? 0) || (actor =? peer) || (limit =? 0) || (kMaxReadPageLimit <? limit)
  then (svc, page_failure kInvalidArgument (str "invalid ListHistory application request"))
  else WithRepository svc (page_failure kStorageError unavailable) (λ s,
    let '(s, result) := repo_ListHistory s actor peer before (limit + 1) in
    (s,
     if negb (bool_decide (l_status result = kSucceeded)) then
       page_failure (l_status result) (l_message result)
     else
       let has_more := limit <? Z.of_nat (length (l_records result)) in
       MkPage kSucceeded (if has_more then tail (l_records result) else l_records result)
         has_more (str "message history queried"))).

Definition ListConversations (svc : Service) (actor limit : Z)
  : Service * PageResult ConversationView :=
  if (actor =? 0) || (limit =? 0) || (kMaxReadPageLimit <? limit)
  then (svc, page_failure kInvalidArgument (str "invalid ListConversations application request"))
  else WithRepository svc (page_failure kStorageError unavailable) (λ s,
    let '(s, result) := repo_ListConversations s actor (limit + 1) in
    (s,
     if negb (bool_decide (l_status result = kSucceeded)) then
       page_failure (l_status result) (l_message result)
     else
       MkPage kSucceeded (take (Z.to_nat limit) (l_records result))
         (limit <? Z.of_nat (length (l_records result))) (str "message conversations queried"))).

Definition CountPending (svc : Service) (to_user : Z) : Service * CountResult :=
  if to_user =? 0 then (svc, MkCount kInvalidArgument 0 (str "invalid CountPending application request"))
  else WithRepository svc (MkCount kStorageError 0 unavailable) (λ s, repo_CountPending s to_user).

Definition ListPendingAfter (svc : Service) (to_user after_message_id limit : Z)
  : Service * PageResult MessageView :=
  if (to_user =? 0) || (limit =? 0) || (kMaxPendingPageLimit <? limit)
  then (svc, page_failure kInvalidArgument (str "invalid ListPendingAfter application request"))
  else WithRepository svc (page_failure kStorageError unavailable) (λ s,
    let '(s, result) := repo_ListPendingAfter s to_user after_message_id limit in
    let records := l_records result in
    (s,
     if negb (bool_decide (l_status result = kSucceeded)) then
       page_failure (l_status result) (l_message result)
     else if limit <? Z.of_nat (length records) then
       page_failure kInvalidRecord (str "message repository exceeded pending page count")
     else if negb (ValidPendingPage to_user after_message_id records) then
       page_failure kInvalidRecord (str "message repository returned invalid pending page")
     else
       let n := TakeFitting 0 records in
       if Nat.eqb n 0 && negb (bool_decide (records = [])) then
         page_failure kInvalidRecord (str "pending message exceeds response byte budget")
       else
         MkPage kSucceeded (take n records)
           (Nat.ltb n (length records) || (Z.of_nat (length records) =? limit))
           (str "pending messages queried"))).

Definition ListPendingRecipientsAfter (svc : Service) (after_user_id limit : Z)
  : Service * PageResult Z :=
  if (limit =? 0) || (256 <? limit) then
    (svc, page_failure kInvalidArgument (str "invalid pending recipient page limit"))
  else WithRepository svc (page_failure kStorageError unavailable) (λ s,
    let '(s, result) := repo_ListPendingRecipientsAfter s after_user_id limit in
    (s,
     if negb (bool_decide (pg_status result = kSucceeded)) then
       page_failure (pg_status result) (pg_message result)
     else if (limit <? Z.of_nat (length (pg_records result))) ||
             (pg_has_more result && negb (Z.of_nat (length (pg_records result)) =? limit)) then
       page_failure kInvalidRecord (str "invalid pending recipient page count or continuation")
     else if negb (ValidRecipients after_user_id (pg_records result)) then
       page_failure kInvalidRecord (str "invalid pending recipient page ordering")
     else result)).

Definition ConfirmReceiver (svc : Service) (mid receiver : Z) : Service * MutationResult :=
  if (mid =? 0) || (receiver =? 0) then
    (svc, MkMutation kInvalidArgument 0 (str "invalid ConfirmReceiver application request"))
  else WithRepository svc (MkMutation kStorageError 0 unavailable) (λ s,
    let '(s, fast) := repo_TryConfirmReceiverOwnedIfPending s mid receiver in
    match fast with
    | Some fast => (s, fast)
    | None =>
        let '(s, lookup) := repo_GetPrivateMessage s mid in
        match ReceiverConfirmationDecision lookup receiver with
        | Some decision => (s, decision)
        | None => repo_ConfirmReceiver s mid
        end
    end).

(** The loop that validates the batch: the state of the repository and either the
    refusal or the messages that are still pending. *)
Fixpoint ValidateBatch (s : S) (receiver : Z) (seen pending_ids : list Z) (message_ids : list Z)
  : S * (MutationResult + list Z) :=
  match message_ids with
  | [] => (s, inr pending_ids)
  | mid :: rest =>
      if (mid =? 0) || bool_decide (mid ∈ seen) then
        (s, inl (MkMutation kInvalidArgument 0
                   (str "ConfirmReceiverBatch contains invalid/duplicate message id")))
      else
        let '(s, lookup) := repo_GetPrivateMessage s mid in
        if negb (bool_decide (g_status lookup = kSucceeded)) then
          (s, inl (MkMutation (g_status lookup) 0 (g_message lookup)))
        else match g_record lookup with
        | None => (s, inl (MkMutation kNotFound 0 (str "private message not found")))
        | Some record =>
            if negb (to_user_id record =? receiver) then
              (s, inl (MkMutation kPermissionDenied 0
                         (str "receiver does not own every private message in batch")))
            else match delivery_state record with
            | kPending => ValidateBatch s receiver (mid :: seen) (pending_ids ++ [mid]) rest
            | kFailed =>
                (s, inl (MkMutation kFailedPrecondition 0
                           (str "failed message cannot be receiver-confirmed")))
            | _ => ValidateBatch s receiver (mid :: seen) pending_ids rest
            end
        end
  end.

Definition ConfirmReceiverBatch (svc : Service) (receiver : Z) (message_ids : list Z)
  : Service * MutationResult :=
  if (receiver =? 0) || bool_decide (message_ids = []) ||
     (kMaxConfirmBatchSize <? Z.of_nat (length message_ids))
  then (svc, MkMutation kInvalidArgument 0 (str "invalid ConfirmReceiverBatch application request"))
  else WithRepository svc (MkMutation kStorageError 0 unavailable) (λ s,
    let '(s, checked) := ValidateBatch s receiver [] [] message_ids in
    match checked with
    | inl refusal => (s, refusal)
    | inr [] => (s, MkMutation kSucceeded 0 (str "receiver confirmation batch already durable"))
    | inr pending_ids => repo_ConfirmReceiverBatch s pending_ids
    end).

Definition MarkDialogRead (svc : Service) (reader peer : Z) : Service * MutationResult :=
  if (reader =? 0) || (peer =? 0) || (reader =? peer) then
    (svc, MkMutation kInvalidArgument 0 (str "invalid MarkDialogRead application request"))
  else WithRepository svc (MkMutation kStorageError 0 unavailable)
         (λ s, repo_MarkDialogRead s reader peer).

Definition ListGroupHistory (svc : Service) (actor group before limit : Z)
  : Service * PageResult GroupMessageView :=
  if (actor =? 0) || (group =? 0) || (limit =? 0) || (100 <? limit) then
    (svc, page_failure kInvalidArgument (str "invalid group history arguments"))
  else WithRepository svc (page_failure kStorageError (str "group history unavailable")) (λ s,
    let '(s, out) := repo_ListGroupHistory s actor group before (limit + 1) in
    (s,
     if negb (bool_decide (pg_status out = kSucceeded)) then out
     else if negb (ValidGroupHistory group before (pg_records out)) then
       MkPage kInvalidRecord [] (pg_has_more out) (str "group history identity/order mismatch")
     else
       MkPage (pg_status out) (take (Z.to_nat limit) (pg_records out))
         (limit <? Z.of_nat (length (pg_records out))) (pg_message out))).

End Service.
