(* ===== verification/KeyValueEngine.v ===== *)
(** * The storage engine

    What [src/services/message/local/LocalPrivateStore.cpp] uses of RocksDB: an
    ordered map from byte strings to byte strings with reads, iterators in both
    directions over a snapshot, and atomic write batches.  The engine is not part of
    the program: it is the class [Engine], and what the store relies on are the laws
    of [EngineLaws].  [Shelf], a sorted association list, is an engine with those
    laws. *)
From Stdlib Require Import ZArith Lia.
From stdpp Require Import base list numbers sorting.
From S2P Require Import Prelude ByteStrings.

Local Open Scope Z_scope.

(** An operation of a [WriteBatch]: [Put] of a value or [Delete]. *)
Definition WriteOp : Type := list Z * option (list Z).

(** The effect of a batch on a map, the operations one after the other. *)
Fixpoint apply_ops (m : list Z → option (list Z)) (ops : list WriteOp) : list Z → option (list Z) :=
  match ops with
  | [] => m
  | (key, v) :: ops => apply_ops (λ k, if decide (k = key) then v else m k) ops
  end.

Class Engine (D : Type) := {
  db_get : D → list Z → option (list Z);
  db_write : D → list WriteOp → D;
  (* the entries an iterator visits from [Seek(key)] on with [Next] *)
  db_seek : D → list Z → list (list Z * list Z);
  (* the entries an iterator visits from [SeekForPrev(key)] on with [Prev] *)
  db_seek_for_prev : D → list Z → list (list Z * list Z);
  (* [WriteBatch::GetDataSize()] *)
  db_batch_bytes : list WriteOp → Z;
}.

Class EngineLaws (D : Type) `{Engine D} := {
  get_write d ops k : db_get (db_write d ops) k = apply_ops (db_get d) ops k;
  seek_sorted d start : StronglySorted (λ x y, blt x.1 y.1) (db_seek d start);
  seek_elem d start k v : (k, v) ∈ db_seek d start ↔ ble start k ∧ db_get d k = Some v;
  seek_for_prev_sorted d bound : StronglySorted (λ x y, blt y.1 x.1) (db_seek_for_prev d bound);
  seek_for_prev_elem d bound k v :
    (k, v) ∈ db_seek_for_prev d bound ↔ ble k bound ∧ db_get d k = Some v;
}.

(** ** Batches *)

(** The last operation on a key decides. *)
Lemma apply_ops_app m ops ops' k : apply_ops m (ops ++ ops') k = apply_ops (apply_ops m ops) ops' k.
Proof. revert m. induction ops as [|[key v] ops IH]; intros m; [done|]. apply IH. Qed.

Lemma apply_ops_ext m m' ops : (∀ k, m k = m' k) → ∀ k, apply_ops m ops k = apply_ops m' ops k.
Proof.
  revert m m'. induction ops as [|[key v] ops IH]; intros m m' Hm k; [apply Hm|].
  cbn. apply IH. intros k'. by case_decide.
Qed.

Lemma apply_ops_other m ops k : k ∉ ops.*1 → apply_ops m ops k = m k.
Proof.
  revert m. induction ops as [|[key v] ops IH]; intros m; [done|].
  rewrite fmap_cons, not_elem_of_cons. intros [? ?]. cbn. rewrite IH by done.
  by rewrite decide_False.
Qed.

Lemma apply_ops_snoc m ops key v k :
  apply_ops m (ops ++ [(key, v)]) k = if decide (k = key) then v else apply_ops m ops k.
Proof. by rewrite apply_ops_app. Qed.

(** When no key occurs twice each operation decides its key. *)
Lemma apply_ops_in m ops k v : NoDup ops.*1 → (k, v) ∈ ops → apply_ops m ops k = v.
Proof.
  revert m. induction ops as [|[key w] ops IH]; intros m Hnd; [by intros []%elem_of_nil|].
  apply list.NoDup_cons in Hnd as [Hn Hnd]. intros [[= -> ->]|Hin]%elem_of_cons.
  - cbn. rewrite apply_ops_other by done. by rewrite decide_True.
  - cbn. by apply IH.
Qed.

(** ** Scans *)

Section Scan.
Context {D : Type} `{EngineLaws D}.

(** An iterator from [start] on while the keys have a prefix of [start]. *)
Definition scan (d : D) (prefix start : list Z) : list (list Z * list Z) :=
  take_while (λ e, starts_with prefix e.1) (db_seek d start).

Lemma scan_filter d prefix start :
  ble prefix start → scan d prefix start = filter (λ e, prefix `prefix_of` e.1) (db_seek d start).
Proof.
  intros Hp. apply take_while_scan; [apply seek_sorted|].
  apply list.Forall_forall. intros [k v] [? _]%seek_elem. by eapply ble_trans.
Qed.

Lemma elem_of_scan d prefix start k v :
  ble prefix start →
  (k, v) ∈ scan d prefix start ↔ prefix `prefix_of` k ∧ ble start k ∧ db_get d k = Some v.
Proof.
  intros Hp. rewrite scan_filter by done. rewrite list_elem_of_filter, seek_elem. naive_solver.
Qed.

Lemma scan_sorted d prefix start :
  ble prefix start → StronglySorted (λ x y, blt x.1 y.1) (scan d prefix start).
Proof.
  intros Hp. rewrite scan_filter by done. generalize (seek_sorted d start).
  induction (db_seek d start) as [|x l IH]; [done|]. intros [Hx Hl]%StronglySorted_cons.
  rewrite list.filter_cons. case_decide; [|by apply IH].
  apply StronglySorted_cons. split; [|by apply IH].
  apply list.Forall_forall. intros y [_ Hy]%list_elem_of_filter. by rewrite list.Forall_forall in Hx; apply Hx.
Qed.

End Scan.

(** ** An engine *)

(** The entries in the order of their keys. *)
Definition Shelf : Type := list (list Z * list Z).

Fixpoint shelf_get (d : Shelf) (k : list Z) : option (list Z) :=
  match d with
  | [] => None
  | (k', v) :: d => match lex k k' with Eq => Some v | Lt => None | Gt => shelf_get d k end
  end.

Fixpoint shelf_put (d : Shelf) (k v : list Z) : Shelf :=
  match d with
  | [] => [(k, v)]
  | (k', v') :: d' =>
      match lex k k' with
      | Eq => (k, v) :: d'
      | Lt => (k, v) :: d
      | Gt => (k', v') :: shelf_put d' k v
      end
  end.

Fixpoint shelf_delete (d : Shelf) (k : list Z) : Shelf :=
  match d with
  | [] => []
  | (k', v') :: d' =>
      match lex k k' with Eq => d' | Lt => d | Gt => (k', v') :: shelf_delete d' k end
  end.

Definition shelf_op (d : Shelf) (op : WriteOp) : Shelf :=
  match op with (k, Some v) => shelf_put d k v | (k, None) => shelf_delete d k end.

(** A shelf in order. *)
Definition shelf_ok (d : Shelf) : Prop := StronglySorted (λ x y, blt x.1 y.1) d.
Definition OrderedShelf : Type := { d : Shelf | bool_decide (shelf_ok d) }.

Lemma shelf_put_elem d k v k' v' :
  (k', v') ∈ shelf_put d k v → (k', v') = (k, v) ∨ (k', v') ∈ d.
Proof.
  induction d as [|[x y] d IH]; cbn; [by intros ->%list_elem_of_singleton; left|].
  destruct (lex k x) eqn:E; rewrite !elem_of_cons; [apply lex_eq in E as ->| |]; naive_solver.
Qed.

Lemma shelf_delete_elem d k e : e ∈ shelf_delete d k → e ∈ d.
Proof.
  induction d as [|[x y] d IH]; cbn; [done|].
  destruct (lex k x) eqn:E; rewrite !elem_of_cons; naive_solver.
Qed.

Lemma shelf_put_ok d k v : shelf_ok d → shelf_ok (shelf_put d k v).
Proof.
  unfold shelf_ok. induction d as [|[x y] d IH]; cbn.
  { intros _. repeat constructor. }
  intros [Hx Hd]%StronglySorted_cons. destruct (lex k x) eqn:E.
  - apply lex_eq in E as ->. by apply StronglySorted_cons.
  - apply StronglySorted_cons. split; [|by apply StronglySorted_cons].
    apply list.Forall_cons. split; [exact E|].
    eapply list.Forall_impl; [exact Hx|]. cbn. intros e He. by trans x.
  - apply StronglySorted_cons. split; [|by apply IH].
    apply list.Forall_forall. intros [k' v'] [[= -> ->]|He]%shelf_put_elem.
    + cbn. unfold blt. by rewrite lex_antisym, E.
    + rewrite list.Forall_forall in Hx. by apply Hx.
Qed.

Lemma shelf_delete_ok d k : shelf_ok d → shelf_ok (shelf_delete d k).
Proof.
  unfold shelf_ok. induction d as [|[x y] d IH]; cbn; [done|].
  intros [Hx Hd]%StronglySorted_cons. destruct (lex k x).
  - done.
  - by apply StronglySorted_cons.
  - apply StronglySorted_cons. split; [|by apply IH].
    apply list.Forall_forall. intros e He%shelf_delete_elem. rewrite list.Forall_forall in Hx. by apply Hx.
Qed.

Lemma shelf_ops_ok d ops : shelf_ok d → shelf_ok (foldl shelf_op d ops).
Proof.
  revert d. induction ops as [|[k [v|]] ops IH]; intros d Hd; [done| |]; cbn; apply IH.
  - by apply shelf_put_ok.
  - by apply shelf_delete_ok.
Qed.

Lemma shelf_get_elem d k v : shelf_ok d → (k, v) ∈ d ↔ shelf_get d k = Some v.
Proof.
  unfold shelf_ok. induction d as [|[x y] d IH]; cbn.
  { intros _. split; [by intros []%elem_of_nil|done]. }
  intros [Hx Hd]%StronglySorted_cons. rewrite elem_of_cons.
  assert (Hlt : ∀ e, e ∈ d → blt x e.1) by (by apply list.Forall_forall).
  destruct (lex k x) eqn:E.
  - apply lex_eq in E as ->. split; [|naive_solver].
    intros [[= ->]|Hin]; [done|]. by apply Hlt, blt_irrefl in Hin.
  - split; [|done]. intros [[= -> _]|Hin]; [by rewrite lex_refl in E|].
    apply Hlt in Hin. cbn in Hin. by destruct (blt_irrefl k); trans x.
  - rewrite <- IH by done. split; [|by right]. intros [[= -> _]|?]; [|done]. by rewrite lex_refl in E.
Qed.

Lemma shelf_get_put d k v k' :
  shelf_ok d → shelf_get (shelf_put d k v) k' = if decide (k' = k) then Some v else shelf_get d k'.
Proof.
  unfold shelf_ok. induction d as [|[x y] d IH]; cbn.
  { intros _. case_decide as Hk; [subst; by rewrite lex_refl|].
    destruct (lex k' k) eqn:E; try done. by apply lex_eq in E. }
  intros [Hx Hd]%StronglySorted_cons. specialize (IH Hd). destruct (lex k x) eqn:E; cbn.
  - apply lex_eq in E as ->. case_decide as Hk; [subst; by rewrite lex_refl|].
    destruct (lex k' x) eqn:E; try done. by apply lex_eq in E.
  - case_decide as Hk; [subst; by rewrite lex_refl|].
    destruct (lex k' k) eqn:E'; [by apply lex_eq in E'| |done].
    assert (Hlt : blt k' x) by (trans k; done). by unfold blt in Hlt; rewrite Hlt.
  - destruct (lex k' x) eqn:E'.
    + rewrite decide_False; [done|]. intros ->. congruence.
    + rewrite decide_False; [done|]. intros ->. congruence.
    + exact IH.
Qed.

Lemma shelf_get_delete d k k' :
  shelf_ok d → shelf_get (shelf_delete d k) k' = if decide (k' = k) then None else shelf_get d k'.
Proof.
  intros Hd. apply option_eq. intros v. rewrite <- shelf_get_elem by by apply shelf_delete_ok.
  revert Hd. unfold shelf_ok. induction d as [|[x y] d IH]; cbn.
  { intros _. split; [by intros []%elem_of_nil|]. by case_decide. }
  intros [Hx Hd]%StronglySorted_cons. specialize (IH Hd).
  assert (Hlt : ∀ e, e ∈ d → blt x e.1) by (by apply list.Forall_forall).
  destruct (lex k x) eqn:E.
  - apply lex_eq in E as ->. rewrite shelf_get_elem by done. case_decide as Hk.
    + subst. split; [|done]. intros Hg%shelf_get_elem; [|done]. by apply Hlt, blt_irrefl in Hg.
    + destruct (lex k' x) eqn:E; [by apply lex_eq in E| |done].
      split; [|done]. intros Hg%shelf_get_elem; [|done]. apply Hlt in Hg. cbn in Hg.
      by destruct (blt_irrefl k'); trans x.
  - rewrite elem_of_cons. case_decide as Hk.
    + subst. split; [|done]. intros [[= -> _]|Hin]; [by rewrite lex_refl in E|].
      apply Hlt in Hin. cbn in Hin. by destruct (blt_irrefl k); trans x.
    + destruct (lex k' x) eqn:E'.
      * apply lex_eq in E' as ->. split; [|naive_solver].
        intros [[= ->]|Hin]; [done|]. by apply Hlt, blt_irrefl in Hin.
      * split; [|done]. intros [[= -> _]|Hin]; [by rewrite lex_refl in E'|].
        apply Hlt in Hin. cbn in Hin. by destruct (blt_irrefl k'); trans x.
      * rewrite <- shelf_get_elem by done. split; [|by right].
        intros [[= -> _]|?]; [by rewrite lex_refl in E'|done].
  - rewrite elem_of_cons, IH. destruct (lex k' x) eqn:E'.
    + apply lex_eq in E' as ->. rewrite !decide_False by (intros ->; by rewrite lex_refl in E).
      split; [|intros [= ->]; by left]. intros [[= ->]|Hg]; [done|].
      apply shelf_get_elem, Hlt, blt_irrefl in Hg; done.
    + split; [|by case_decide]. intros [[= -> _]|Hg]; [by rewrite lex_refl in E'|].
      case_decide; [done|]. apply shelf_get_elem, Hlt in Hg; [|done]. cbn in Hg.
      by destruct (blt_irrefl k'); trans x.
    + split; [|by right]. intros [[= -> _]|?]; [by rewrite lex_refl in E'|done].
Qed.

Lemma shelf_get_ops d ops k :
  shelf_ok d → shelf_get (foldl shelf_op d ops) k = apply_ops (shelf_get d) ops k.
Proof.
  revert d. induction ops as [|[key [v|]] ops IH]; intros d Hd; [done| |]; cbn.
  - rewrite IH by by apply shelf_put_ok. apply apply_ops_ext. intros k'. by apply shelf_get_put.
  - rewrite IH by by apply shelf_delete_ok. apply apply_ops_ext. intros k'. by apply shelf_get_delete.
Qed.

Lemma shelf_filter_ok (P : list Z * list Z → Prop) `{∀ x, Decision (P x)}
    (d : list (list Z * list Z)) :
  shelf_ok d → shelf_ok (filter P d).
Proof.
  unfold shelf_ok. induction d as [|x d IH]; [done|]. intros [Hx Hd]%StronglySorted_cons.
  rewrite list.filter_cons. case_decide; [|by apply IH]. apply StronglySorted_cons. split; [|by apply IH].
  apply list.Forall_forall. intros y [_ Hy]%list_elem_of_filter. rewrite list.Forall_forall in Hx. by apply Hx.
Qed.

Lemma shelf_rev d : shelf_ok d → StronglySorted (λ x y : list Z * list Z, blt y.1 x.1) (rev d).
Proof.
  unfold shelf_ok. induction d as [|x d IH]; [constructor|]. intros [Hx Hd]%StronglySorted_cons. cbn.
  apply StronglySorted_app. split; [|split; [by apply IH|repeat constructor]].
  intros y z Hy ->%list_elem_of_singleton.
  rewrite list.Forall_forall in Hx. apply Hx. by apply list_elem_of_In, in_rev, list_elem_of_In.
Qed.

Definition shelf_of (d : Shelf) (H : shelf_ok d) : OrderedShelf :=
  exist _ d (bool_decide_pack _ H).

#[export] Instance OrderedShelf_engine : Engine OrderedShelf := {
  db_get d := shelf_get (`d);
  db_write d ops := shelf_of (foldl shelf_op (`d) ops) (shelf_ops_ok _ ops (bool_decide_unpack _ (proj2_sig d)));
  db_seek d start := filter (λ e, ble start e.1) (`d);
  db_seek_for_prev d bound := rev (filter (λ e, ble e.1 bound) (`d));
  db_batch_bytes ops := lsum (λ op, bsize op.1 + match op.2 with Some v => bsize v | None => 0 end) ops;
}.

#[export] Instance OrderedShelf_laws : EngineLaws OrderedShelf.
Proof.
  assert (Hok : ∀ d : OrderedShelf, shelf_ok (`d)) by (intros [d Hd]; exact (bool_decide_unpack _ Hd)).
  split.
  - intros d ops k. by apply shelf_get_ops.
  - intros d start. by apply shelf_filter_ok.
  - intros d start k v. cbn. rewrite list_elem_of_filter, shelf_get_elem by done. done.
  - intros d bound. by apply shelf_rev, shelf_filter_ok.
  - intros d bound k v. cbn.
    rewrite list_elem_of_In, <- in_rev, <- list_elem_of_In, list_elem_of_filter, shelf_get_elem by done. done.
Qed.

(** The empty engine. *)
Definition new_shelf : OrderedShelf := shelf_of [] (SSorted_nil _).
