(* ===== verification/DomainEvents.v ===== *)
(** * Domain events and their codec

    Models [src/services/eventing/DomainEvent.h], [DomainEvent.cpp],
    [EventCodec.h], [EventCodec.cpp] and
    [src/services/message/application/MessageEventFactory.h],
    [MessageEventFactory.cpp].  The JSON library (nlohmann::json) is not part of the
    program: a value is [Json], whose objects are ordered maps as in the library, and
    [dump] and [parse] are the class [JsonLibrary] with the laws [JsonLaws].  The
    clock, the process id and the sequence number of read events are arguments. *)
From Stdlib Require Import ZArith Lia String.
From stdpp Require Import base list numbers sorting option.
From S2P Require Import Prelude ByteStrings MessageTypes.

Local Open Scope Z_scope.

(** ** JSON values *)

(** [JOther] stands for null, booleans, arrays and fractional numbers, which the
    program neither writes nor accepts in the fields it reads. *)
Inductive Json :=
| JNumber (n : Z)
| JString (s : list Z)
| JObject (fields : list (list Z * Json))
| JOther.

(** [emplace] into the ordered map of an object: an existing key stays. *)
Fixpoint field_insert (fs : list (list Z * Json)) (k : list Z) (v : Json) : list (list Z * Json) :=
  match fs with
  | [] => [(k, v)]
  | (k', v') :: fs' =>
      match lex k k' with
      | Lt => (k, v) :: fs
      | Eq => fs
      | Gt => (k', v') :: field_insert fs' k v
      end
  end.

(** An object from an initializer list. *)
Definition object (fs : list (list Z * Json)) : Json :=
  JObject (foldl (λ m f, field_insert m f.1 f.2) [] fs).

Fixpoint field_get (fs : list (list Z * Json)) (k : list Z) : option Json :=
  match fs with
  | [] => None
  | (k', v) :: fs => if decide (k = k') then Some v else field_get fs k
  end.

(** [at], which throws without the key or on a value that is not an object. *)
Definition json_at (j : Json) (k : list Z) : option Json :=
  match j with JObject fs => field_get fs k | _ => None end.
Definition is_object (j : Json) : bool := match j with JObject _ => true | _ => false end.

(** [get<T>], which throws on another type; numbers are cast. *)
Definition as_uint64 (j : Json) : option Z := match j with JNumber n => Some (u64 n) | _ => None end.
Definition as_uint32 (j : Json) : option Z := match j with JNumber n => Some (u32 n) | _ => None end.
Definition as_string (j : Json) : option (list Z) := match j with JString s => Some s | _ => None end.

(** [value(key, default)] for strings. *)
Definition value_string (j : Json) (k : list Z) : option (list Z) :=
  match json_at j k with Some v => as_string v | None => Some [] end.

(** [dump] throws on a string that is not UTF-8, [parse] on malformed text. *)
Class JsonLibrary := {
  json_dump : Json → option (list Z);
  json_parse : list Z → option Json;
  utf8 : list Z → bool;
}.

(** A value as the library holds it: unsigned numbers, ordered objects. *)
Fixpoint canonical (j : Json) : Prop :=
  match j with
  | JNumber n => is_u64 n
  | JString _ => True
  | JObject fs =>
      StronglySorted (λ x y : list Z * Json, blt x.1 y.1) fs ∧
      (fix go fs := match fs with [] => True | (_, v) :: fs => canonical v ∧ go fs end) fs
  | JOther => False
  end.

Section Library.
Context `{JsonLibrary}.

Fixpoint json_utf8 (j : Json) : Prop :=
  match j with
  | JNumber _ => True
  | JString s => utf8 s = true
  | JObject fs =>
      (fix go fs := match fs with
                    | [] => True
                    | (k, v) :: fs => utf8 k = true ∧ json_utf8 v ∧ go fs
                    end) fs
  | JOther => True
  end.

Class JsonLaws := {
  dump_parse j t : canonical j → json_dump j = Some t → json_parse t = Some j;
  dump_total j : is_Some (json_dump j) ↔ json_utf8 j;
  dump_nonempty j t : json_dump j = Some t → t ≠ [];
  dump_utf8 j t : json_dump j = Some t → utf8 t = true;
  utf8_ascii s : Forall (λ c, 0 ≤ c < 128) s → utf8 s = true;
}.

(** ** Events *)

Record DomainEvent := MkEvent {
  schema_version : Z;
  event_id : list Z;
  event_type : list Z;
  aggregate_type : list Z;
  aggregate_id : list Z;
  producer_service : list Z;
  occurred_at : list Z;
  request_id : list Z;
  trace_id : list Z;
  payload : Json;
}.

Definition Valid (e : DomainEvent) : bool :=
  (0 <? schema_version e) && negb (bempty (event_id e)) && negb (bempty (event_type e)) &&
  negb (bempty (aggregate_type e)) && negb (bempty (aggregate_id e)) &&
  negb (bempty (producer_service e)) && negb (bempty (occurred_at e)) && is_object (payload e).

Definition envelope (e : DomainEvent) : Json :=
  object [(str "schema_version", JNumber (schema_version e));
          (str "event_id", JString (event_id e));
          (str "event_type", JString (event_type e));
          (str "aggregate_type", JString (aggregate_type e));
          (str "aggregate_id", JString (aggregate_id e));
          (str "producer_service", JString (producer_service e));
          (str "occurred_at", JString (occurred_at e));
          (str "request_id", JString (request_id e));
          (str "trace_id", JString (trace_id e));
          (str "payload", payload e)].

(** [None] when the result is not a success. *)
Definition Encode (e : DomainEvent) : option (list Z) :=
  if negb (Valid e) then None else json_dump (envelope e).

Definition Decode (encoded : list Z) : option DomainEvent :=
  if bempty encoded then None
  else
    envelope ← json_parse encoded;
    if negb (is_object envelope) then None
    else
      version ← json_at envelope (str "schema_version") ≫= as_uint32;
      id ← json_at envelope (str "event_id") ≫= as_string;
      type ← json_at envelope (str "event_type") ≫= as_string;
      agg_type ← json_at envelope (str "aggregate_type") ≫= as_string;
      agg_id ← json_at envelope (str "aggregate_id") ≫= as_string;
      producer ← json_at envelope (str "producer_service") ≫= as_string;
      occurred ← json_at envelope (str "occurred_at") ≫= as_string;
      request ← value_string envelope (str "request_id");
      trace ← value_string envelope (str "trace_id");
      body ← json_at envelope (str "payload");
      let event := MkEvent version id type agg_type agg_id producer occurred request trace body in
      if negb (Valid event) then None else Some event.

End Library.

Arguments JsonLaws {_}.

(** ** The events of the message service *)

Definition kProducerService : list Z := str "message-service".

Definition topic_char (ch : Z) : bool :=
  ((97 <=? ch) && (ch <=? 122)) || ((65 <=? ch) && (ch <=? 90)) ||
  ((48 <=? ch) && (ch <=? 57)) || (ch =? 45) || (ch =? 95).
Definition IsValidTopic (topic : list Z) : bool :=
  if bempty topic || (128 <? bsize topic) then false else forallb topic_char topic.

Record OutboxEventSpec := MkSpec {
  spec_event : DomainEvent;
  spec_topic : list Z;
  spec_tag : list Z;
  spec_message_key : list Z;
}.

(** [CheckedTopic] throws on a topic that is not valid. *)
Definition CheckedTopic (topic : list Z) : option (list Z) :=
  if IsValidTopic topic then Some topic else None.

(** The spec of an event: the tag is the type, the key the id. *)
Definition spec_of (event : DomainEvent) (topic : list Z) : option OutboxEventSpec :=
  topic ← CheckedTopic topic;
  Some (MkSpec event topic (event_type event) (event_id event)).

Definition created_id (mid : Z) : list Z := str "message.created.v1:" ++ to_string mid.

Definition MessageCreated (m : MessageView) (topic now : list Z) : option OutboxEventSpec :=
  spec_of (MkEvent 1 (created_id (message_id m)) (str "message.created.v1")
             (str "private_message") (to_string (message_id m)) kProducerService now [] []
             (object [(str "message_id", JNumber (message_id m));
                      (str "from_user_id", JNumber (from_user_id m));
                      (str "to_user_id", JNumber (to_user_id m))]))
    topic.

Definition GroupMessageCreated (m : GroupMessageView) (topic now : list Z) : option OutboxEventSpec :=
  spec_of (MkEvent 1 (str "group_message.created.v1:" ++ to_string (gm_message_id m))
             (str "group_message.created.v1") (str "group_message") (to_string (gm_message_id m))
             kProducerService now [] []
             (object [(str "message_id", JNumber (gm_message_id m));
                      (str "group_id", JNumber (gm_group_id m));
                      (str "from_user_id", JNumber (gm_from_user_id m));
                      (str "message_type", JNumber (gm_message_type m));
                      (str "membership_epoch", JNumber (gm_membership_epoch m));
                      (str "member_version", JNumber (gm_member_version m))]))
    topic.

Definition MakeReadEventId (reader peer nanos pid sequence : Z) : list Z :=
  str "dialog.read_advanced.v1:" ++ to_string reader ++ str ":" ++ to_string peer ++ str ":" ++
  to_string nanos ++ str ":" ++ to_string pid ++ str ":" ++ to_string sequence.

Definition DialogReadAdvanced (reader peer affected_rows nanos pid sequence : Z) (topic now : list Z)
  : option OutboxEventSpec :=
  spec_of (MkEvent 1 (MakeReadEventId reader peer nanos pid sequence) (str "dialog.read_advanced.v1")
             (str "dialog") (to_string reader ++ str ":" ++ to_string peer) kProducerService now [] []
             (object [(str "reader_user_id", JNumber reader);
                      (str "peer_user_id", JNumber peer);
                      (str "affected_rows", JNumber affected_rows)]))
    topic.

(** ** Facts *)

Lemma created_id_inj m n : is_u64 m → is_u64 n → created_id m = created_id n → m = n.
Proof. unfold created_id. intros ? ? ?%app_inv_head. by apply to_string_inj. Qed.

(** Literal objects: their fields in the order of the map. *)
Lemma envelope_fields e :
  envelope e =
  JObject [(str "aggregate_id", JString (aggregate_id e));
           (str "aggregate_type", JString (aggregate_type e));
           (str "event_id", JString (event_id e));
           (str "event_type", JString (event_type e));
           (str "occurred_at", JString (occurred_at e));
           (str "payload", payload e);
           (str "producer_service", JString (producer_service e));
           (str "request_id", JString (request_id e));
           (str "schema_version", JNumber (schema_version e));
           (str "trace_id", JString (trace_id e))].
Proof. reflexivity. Qed.

(** Closes the goals about literal keys. *)
Ltac literal_sorted := repeat (apply StronglySorted_cons; split; [repeat constructor|]); constructor.

Lemma envelope_canonical e :
  canonical (payload e) → is_u64 (schema_version e) → canonical (envelope e).
Proof.
  intros Hp Hs. rewrite envelope_fields. cbn [canonical]. split; [literal_sorted|]. tauto.
Qed.

Section Roundtrip.
Context `{JsonLaws}.

(** An event that was encoded decodes to itself. *)
Lemma encode_decode e t :
  Encode e = Some t → canonical (payload e) → is_u32 (schema_version e) → Decode t = Some e.
Proof.
  unfold Encode. destruct (Valid e) eqn:Hv; [|done]. cbn [negb]. intros Hd Hp Hs.
  assert (is_u64 (schema_version e)) by (unfold is_u32, is_u64 in *; lia).
  unfold Decode. destruct t as [|c t]; [by apply dump_nonempty in Hd|]. cbn [bempty].
  rewrite (dump_parse _ _ (envelope_canonical e Hp H1) Hd), envelope_fields.
  destruct e; cbv -[u32 Valid negb]. rewrite u32_small by done. by rewrite Hv.
Qed.

End Roundtrip.
