(* ===== verification/LocalPrivateStore.v ===== *)
(** * The local private message store

    Models [src/services/message/local/LocalPrivateStore.h] and
    [LocalPrivateStore.cpp], with [NativePersistUnreadReplyPolicy.h] and
    [LocalEventSignal.h]: the durable store of private messages on an ordered
    key-value engine, with its indexes, unread counters and pending events.

    An operation is a computation in [M], a state-and-exception monad on [Store];
    [Call] turns the exceptions into a result as the template of the source does.
    Operations that touch the same keys hold a common lock until they have written,
    so an operation is one step.  What the engine does with a write ([outcome]) and
    with a flush of its log ([flushed]) are functions of the number of the call; the
    clock and the answers of the callbacks are the [Env] of a call.  [recoverable]
    holds the engine states a crash may leave behind: writes are atomic, a synced
    write makes everything before it durable. *)
From Stdlib Require Import ZArith Lia String.
From stdpp Require Import base list numbers sorting option gmap.
From S2P Require Import Prelude ByteStrings MessageTypes KeyValueEngine DomainEvents.

Local Open Scope Z_scope.
Local Open Scope width_scope.

(** ** Keys and numbers *)

Definition hex_digit (n : Z) : Z := if n <? 10 then 48 + n else 87 + n.
Fixpoint hex_loop (i : nat) (n : Z) (out : list Z) : list Z :=
  match i with
  | O => out
  | S i => hex_loop i (Z.shiftr n 4) (hex_digit (Z.land n 15) :: out)
  end.
Definition Hex (n : Z) : list Z := hex_loop 16 n [].

Fixpoint number_loop (i : nat) (n : Z) (out : list Z) : list Z :=
  match i with
  | O => out
  | S i => number_loop i (Z.shiftr n 8) (Z.land n 255 :: out)
  end.
Definition Number (n : Z) : list Z := number_loop 8 n [].

Definition MessageKey (mid : Z) : list Z := str "M/" ++ Hex mid.
Definition CidKey (from : Z) (cid : list Z) : list Z := str "I/" ++ Hex from ++ str "/" ++ cid.
Definition CanonicalKey (mid : Z) : list Z := str "K/" ++ Hex mid.
Definition DialogPrefix (a b : Z) : list Z :=
  str "H/" ++ Hex (Z.min a b) ++ str "/" ++ Hex (Z.max a b) ++ str "/".
Definition DialogUnreadKey (receiver peer : Z) : list Z :=
  str "D/" ++ Hex receiver ++ str "/" ++ Hex peer.
Definition PendingPrefix (receiver : Z) : list Z := str "P/" ++ Hex receiver ++ str "/".
Definition ActorKey (actor : Z) : list Z := str "U/" ++ Hex actor.
Definition ConversationPrefix (actor : Z) : list Z := str "C/" ++ Hex actor ++ str "/".
Definition UnreadKey (receiver : Z) : list Z := str "N/" ++ Hex receiver.
Definition PendingCountKey (receiver : Z) : list Z := str "Q/" ++ Hex receiver.
Definition PeerPrefix (receiver : Z) : list Z := str "R/" ++ Hex receiver ++ str "/".
Definition EventKey (id : list Z) : list Z := str "E/" ++ id.
Definition EventCopyKey (id : list Z) : list Z := str "A/" ++ id.
Definition FailedKey (id : list Z) : list Z := str "F/" ++ id.
Definition HighKey : list Z := str "meta/high".

(** ** State *)

Inductive Stat :=
| messages | confirmations | reads | reservations | publications | message_batches
| event_scans_started | empty_event_scans_skipped | pending_index_queries
| event_decode_attempts | held_events_skipped | engine_write_calls | flush_calls.
#[export] Instance Stat_eq_dec : EqDecision Stat.
Proof. solve_decision. Defined.

(** The options; of the callbacks only whether they are set, and the switches read
    from the environment. *)
Record LocalPrivateStoreOptions := MkOptions {
  storage_identity : list Z;
  message_events_topic : list Z;
  first_message_id : Z;
  initial_user_ids : list Z;
  block_cache_bytes : Z;
  max_pending_events : Z;
  exact_user_locking : bool;
  persist_batch_enable : bool;
  identity_policy : list Z;
  resolve_identity : bool;
  before_new_message_commit : bool;
  admit_events : bool;
  pending_event_index : bool;       (* [PendingEventIndexEnabled] *)
  empty_event_scan_guard : bool;    (* [EmptyEventScanGuardEnabled] *)
  persist_unread_reply : bool;      (* [NativePersistUnreadReplyEnabled] *)
}.

(** A call: the clock in its two formats and in nanoseconds, the process id, the
    sequence of read events, and the answers of the callbacks. *)
Record Env := MkEnv {
  Now : list Z;
  CurrentUtcIso8601 : list Z;
  nanos : Z;
  pid : Z;
  sequence : Z;
  resolved_status : MessageApplicationStatus;
  resolved_cid : list Z;
  resolved_message : list Z;
  admitted : bool;
  pinned : MutationResult;
}.

Record Store (D : Type) := MkStore {
  db : D;
  db_open : bool;                       (* [db] is not null *)
  recoverable : list D;
  closing : bool;
  poisoned : bool;
  relay_owned : bool;
  pending_events : Z;
  pending_index_enabled : bool;
  pending_index : gmap (list Z) bool;   (* [ready] by identity *)
  slots : list (option (list Z));       (* the live [EventSlot]s, with [indexed_id] *)
  next_id : Z;
  reserved_end : Z;
  user_locks : gset Z;
  synced_publication_generation : Z;
  publication_sync_initialized : bool;
  event_signal : Z;                     (* [version_] *)
  stats : Stat → Z;
}.
Arguments MkStore {D}.
Arguments db {D}.
Arguments db_open {D}.
Arguments recoverable {D}.
Arguments closing {D}.
Arguments poisoned {D}.
Arguments relay_owned {D}.
Arguments pending_events {D}.
Arguments pending_index_enabled {D}.
Arguments pending_index {D}.
Arguments slots {D}.
Arguments next_id {D}.
Arguments reserved_end {D}.
Arguments user_locks {D}.
Arguments synced_publication_generation {D}.
Arguments publication_sync_initialized {D}.
Arguments event_signal {D}.
Arguments stats {D}.

Definition set_db {D : Type} (x : D) (s : Store D) : Store D :=
  MkStore x (db_open s) (recoverable s) (closing s) (poisoned s) (relay_owned s)
    (pending_events s) (pending_index_enabled s) (pending_index s) (slots s) (next_id s)
    (reserved_end s) (user_locks s) (synced_publication_generation s)
    (publication_sync_initialized s) (event_signal s) (stats s).
Definition set_db_open {D : Type} (x : bool) (s : Store D) : Store D :=
  MkStore (db s) x (recoverable s) (closing s) (poisoned s) (relay_owned s) (pending_events s)
    (pending_index_enabled s) (pending_index s) (slots s) (next_id s) (reserved_end s)
    (user_locks s) (synced_publication_generation s) (publication_sync_initialized s)
    (event_signal s) (stats s).
Definition set_recoverable {D : Type} (x : list D) (s : Store D) : Store D :=
  MkStore (db s) (db_open s) x (closing s) (poisoned s) (relay_owned s) (pending_events s)
    (pending_index_enabled s) (pending_index s) (slots s) (next_id s) (reserved_end s)
    (user_locks s) (synced_publication_generation s) (publication_sync_initialized s)
    (event_signal s) (stats s).
Definition set_closing {D : Type} (x : bool) (s : Store D) : Store D :=
  MkStore (db s) (db_open s) (recoverable s) x (poisoned s) (relay_owned s) (pending_events s)
    (pending_index_enabled s) (pending_index s) (slots s) (next_id s) (reserved_end s)
    (user_locks s) (synced_publication_generation s) (publication_sync_initialized s)
    (event_signal s) (stats s).
Definition set_poisoned {D : Type} (x : bool) (s : Store D) : Store D :=
  MkStore (db s) (db_open s) (recoverable s) (closing s) x (relay_owned s) (pending_events s)
    (pending_index_enabled s) (pending_index s) (slots s) (next_id s) (reserved_end s)
    (user_locks s) (synced_publication_generation s) (publication_sync_initialized s)
    (event_signal s) (stats s).
Definition set_relay_owned {D : Type} (x : bool) (s : Store D) : Store D :=
  MkStore (db s) (db_open s) (recoverable s) (closing s) (poisoned s) x (pending_events s)
    (pending_index_enabled s) (pending_index s) (slots s) (next_id s) (reserved_end s)
    (user_locks s) (synced_publication_generation s) (publication_sync_initialized s)
    (event_signal s) (stats s).
Definition set_pending_events {D : Type} (x : Z) (s : Store D) : Store D :=
  MkStore (db s) (db_open s) (recoverable s) (closing s) (poisoned s) (relay_owned s) x
    (pending_index_enabled s) (pending_index s) (slots s) (next_id s) (reserved_end s)
    (user_locks s) (synced_publication_generation s) (publication_sync_initialized s)
    (event_signal s) (stats s).
Definition set_pending_index_enabled {D : Type} (x : bool) (s : Store D) : Store D :=
  MkStore (db s) (db_open s) (recoverable s) (closing s) (poisoned s) (relay_owned s)
    (pending_events s) x (pending_index s) (slots s) (next_id s) (reserved_end s) (user_locks s)
    (synced_publication_generation s) (publication_sync_initialized s) (event_signal s) (stats s).
Definition set_pending_index {D : Type} (x : gmap (list Z) bool) (s : Store D) : Store D :=
  MkStore (db s) (db_open s) (recoverable s) (closing s) (poisoned s) (relay_owned s)
    (pending_events s) (pending_index_enabled s) x (slots s) (next_id s) (reserved_end s)
    (user_locks s) (synced_publication_generation s) (publication_sync_initialized s)
    (event_signal s) (stats s).
Definition set_slots {D : Type} (x : list (option (list Z))) (s : Store D) : Store D :=
  MkStore (db s) (db_open s) (recoverable s) (closing s) (poisoned s) (relay_owned s)
    (pending_events s) (pending_index_enabled s) (pending_index s) x (next_id s) (reserved_end s)
    (user_locks s) (synced_publication_generation s) (publication_sync_initialized s)
    (event_signal s) (stats s).
Definition set_next_id {D : Type} (x : Z) (s : Store D) : Store D :=
  MkStore (db s) (db_open s) (recoverable s) (closing s) (poisoned s) (relay_owned s)
    (pending_events s) (pending_index_enabled s) (pending_index s) (slots s) x (reserved_end s)
    (user_locks s) (synced_publication_generation s) (publication_sync_initialized s)
    (event_signal s) (stats s).
Definition set_reserved_end {D : Type} (x : Z) (s : Store D) : Store D :=
  MkStore (db s) (db_open s) (recoverable s) (closing s) (poisoned s) (relay_owned s)
    (pending_events s) (pending_index_enabled s) (pending_index s) (slots s) (next_id s) x
    (user_locks s) (synced_publication_generation s) (publication_sync_initialized s)
    (event_signal s) (stats s).
Definition set_user_locks {D : Type} (x : gset Z) (s : Store D) : Store D :=
  MkStore (db s) (db_open s) (recoverable s) (closing s) (poisoned s) (relay_owned s)
    (pending_events s) (pending_index_enabled s) (pending_index s) (slots s) (next_id s)
    (reserved_end s) x (synced_publication_generation s) (publication_sync_initialized s)
    (event_signal s) (stats s).
Definition set_synced_publication_generation {D : Type} (x : Z) (s : Store D) : Store D :=
  MkStore (db s) (db_open s) (recoverable s) (closing s) (poisoned s) (relay_owned s)
    (pending_events s) (pending_index_enabled s) (pending_index s) (slots s) (next_id s)
    (reserved_end s) (user_locks s) x (publication_sync_initialized s) (event_signal s) (stats s).
Definition set_publication_sync_initialized {D : Type} (x : bool) (s : Store D) : Store D :=
  MkStore (db s) (db_open s) (recoverable s) (closing s) (poisoned s) (relay_owned s)
    (pending_events s) (pending_index_enabled s) (pending_index s) (slots s) (next_id s)
    (reserved_end s) (user_locks s) (synced_publication_generation s) x (event_signal s) (stats s).
Definition set_event_signal {D : Type} (x : Z) (s : Store D) : Store D :=
  MkStore (db s) (db_open s) (recoverable s) (closing s) (poisoned s) (relay_owned s)
    (pending_events s) (pending_index_enabled s) (pending_index s) (slots s) (next_id s)
    (reserved_end s) (user_locks s) (synced_publication_generation s)
    (publication_sync_initialized s) x (stats s).
Definition set_stats {D : Type} (x : Stat → Z) (s : Store D) : Store D :=
  MkStore (db s) (db_open s) (recoverable s) (closing s) (poisoned s) (relay_owned s)
    (pending_events s) (pending_index_enabled s) (pending_index s) (slots s) (next_id s)
    (reserved_end s) (user_locks s) (synced_publication_generation s)
    (publication_sync_initialized s) (event_signal s) x.

(** ** The monad *)

(** The exceptions an operation throws: [Failure], one of the JSON library, and
    another [std::exception]. *)
Inductive Exn := EFailure (status : MessageApplicationStatus) (message : list Z) | EJson | EStd (message : list Z).

Definition M (D A : Type) : Type := Store D → Store D * (Exn + A).

#[export] Instance M_ret D : MRet (M D) := λ A x s, (s, inr x).
#[export] Instance M_bind D : MBind (M D) := λ A B f m s,
  match m s with
  | (s, inl e) => (s, inl e)
  | (s, inr x) => f x s
  end.

Definition throw {D A} (e : Exn) : M D A := λ s, (s, inl e).
Definition gets {D A} (f : Store D → A) : M D A := λ s, (s, inr (f s)).
Definition modify {D} (f : Store D → Store D) : M D unit := λ s, (f s, inr tt).
Definition require {D} (value : bool) (status : MessageApplicationStatus) (text : list Z) : M D unit :=
  if value then mret tt else throw (EFailure status text).
(** An exception of the JSON library. *)
Definition json {D A} (o : option A) : M D A := match o with Some x => mret x | None => throw EJson end.

Definition exn_status (e : Exn) : MessageApplicationStatus :=
  match e with EFailure st _ => st | EJson => kInvalidRecord | EStd _ => kStorageError end.
Definition exn_message (e : Exn) : list Z :=
  match e with EFailure _ m => m | EJson => str "invalid local serialized record" | EStd m => m end.

Definition count {D} (c : Stat) (n : Z) : M D unit :=
  modify (λ s, set_stats (λ c', if decide (c' = c) then stats s c +₆₄ n else stats s c') s).

(** [~EventSlot] of a slot that was not committed. *)
Definition destroy_slot {D} (slot : option (list Z)) (s : Store D) : Store D :=
  let s := match slot with
           | Some id => set_pending_index (delete id (pending_index s)) s
           | None => s
           end in
  set_pending_events (pending_events s -₆₄ 1) s.

(** An exception that leaves a scope destroys the slots made in it. *)
Definition unwinding {D A} (m : M D A) : M D A := λ s,
  match m s with
  | (s', inl e) =>
      let n := length (slots s) in
      (set_slots (take n (slots s')) (foldr destroy_slot s' (drop n (slots s'))), inl e)
  | r => r
  end.

(** ** Decoding *)

Section Decoding.
Context {D : Type} `{JsonLibrary}.

Fixpoint UnhexLoop (s : list Z) (n : Z) : M D Z :=
  match s with
  | [] => mret n
  | c :: s =>
      require (((48 <=? c) && (c <=? 57)) || ((97 <=? c) && (c <=? 102))) kInvalidRecord
        (str "invalid local numeric key");;
      UnhexLoop s (Z.lor (u64 (Z.shiftl n 4)) (if c <=? 57 then c - 48 else c - 97 + 10))
  end.
Definition Unhex (s : list Z) : M D Z :=
  require (bsize s =? 16) kInvalidRecord (str "invalid local numeric key");; UnhexLoop s 0.

Definition ParseNumber (s : list Z) : M D Z :=
  require (bsize s =? 8) kInvalidRecord (str "invalid local numeric value");;
  mret (foldl (λ n c, Z.lor (u64 (Z.shiftl n 8)) c) 0 s).

Definition state_number (st : MessageDeliveryState) : Z :=
  match st with kPending => 0 | kReceiverConfirmed => 1 | kRead => 2 | kFailed => 3 | kDeliveryOther v => v end.
Definition state_of (n : Z) : MessageDeliveryState :=
  if n =? 0 then kPending else if n =? 1 then kReceiverConfirmed else if n =? 2 then kRead
  else if n =? 3 then kFailed else kDeliveryOther n.

Definition EncodeRecord (m : MessageView) : Json :=
  object [(str "message_id", JNumber (message_id m));
          (str "client_message_id", JString (client_message_id m));
          (str "from", JNumber (from_user_id m));
          (str "to", JNumber (to_user_id m));
          (str "type", JNumber (message_type m));
          (str "content", JString (content m));
          (str "state", JNumber (state_number (delivery_state m)));
          (str "created_at", JString (created_at m));
          (str "confirmed_at", JString (receiver_confirmed_at m));
          (str "read_at", JString (read_at m))].

Definition DecodeRecord (text : list Z) (expected : Z) : M D MessageView :=
  j ← json (json_parse text);
  mid ← json (json_at j (str "message_id") ≫= as_uint64);
  cid ← json (json_at j (str "client_message_id") ≫= as_string);
  from ← json (json_at j (str "from") ≫= as_uint64);
  to ← json (json_at j (str "to") ≫= as_uint64);
  type ← json (json_at j (str "type") ≫= as_uint32);
  body ← json (json_at j (str "content") ≫= as_string);
  state ← json (json_at j (str "state") ≫= as_uint32);
  created ← json (json_at j (str "created_at") ≫= as_string);
  confirmed ← json (json_at j (str "confirmed_at") ≫= as_string);
  read ← json (json_at j (str "read_at") ≫= as_string);
  require ((mid =? expected) && negb (expected =? 0) && negb (from =? 0) && negb (to =? 0) &&
           negb (from =? to) && negb (bempty cid) && (bsize cid <=? 64) && (1 <=? type) && (type <=? 3) &&
           negb (bempty body) && (state <=? 3) && (bsize created =? 19))
    kInvalidRecord (str "invalid local message record");;
  mret (MkMessage mid cid from to type body (state_of state) created confirmed read).

Record PendingLocalEvent := MkPendingEvent {
  pe_event_id : list Z;
  pe_topic : list Z;
  pe_tag : list Z;
  pe_message_key : list Z;
  pe_body : list Z;
}.

Definition DecodeEvent (text expected : list Z) : M D PendingLocalEvent :=
  j ← json (json_parse text);
  id ← json (json_at j (str "event_id") ≫= as_string);
  topic ← json (json_at j (str "topic") ≫= as_string);
  tag ← json (json_at j (str "tag") ≫= as_string);
  key ← json (json_at j (str "key") ≫= as_string);
  body ← json (json_at j (str "body") ≫= as_string);
  require (match Decode body with
           | Some event =>
               bool_decide (event_id event = id) && bool_decide (id = expected) &&
               IsValidTopic topic && bool_decide (tag = event_type event) && bool_decide (key = id)
           | None => false
           end) kInvalidRecord (str "invalid local event envelope");;
  mret (MkPendingEvent id topic tag key body).

Definition ValidEventId (id : list Z) : bool :=
  negb (bempty id) && (bsize id <=? 191) && negb (bool_decide (0 ∈ id)).
Definition EventId (id : list Z) : M D unit :=
  require (ValidEventId id) kInvalidArgument (str "invalid local event identity").

End Decoding.

(** ** The owner *)

(** What the engine did with a write: it can fail, and then it may or may not have
    been applied. *)
Inductive WriteOutcome := Written | WriteFailed (applied : bool) (reason : list Z).

Section Store.
Context {D : Type} `{Engine D} `{JsonLibrary}.
Variable options : LocalPrivateStoreOptions.
Variable outcome : Z → WriteOutcome.
Variable flushed : Z → option (list Z).    (* the reason when a flush fails *)

Local Abbreviation M := (M D).

Definition Open : M unit :=
  s ← gets id;
  require (db_open s && negb (closing s) && negb (poisoned s)) kStorageError
    (str "local store closed or requires recovery").

Definition Actor (id : Z) : M unit :=
  require (0 <? id) kInvalidArgument (str "zero local actor");;
  if resolve_identity options then mret tt
  else require (bool_decide (id ∈ initial_user_ids options)) kPermissionDenied
         (str "actor absent from explicit local identity registry").

Definition Dialog (a b : Z) : M unit :=
  Actor a;; Actor b;;
  require (negb (a =? b)) kInvalidArgument (str "self dialog is invalid").

Definition Limit (n : Z) : M unit :=
  require ((0 <? n) && (n <=? 1001)) kInvalidArgument (str "invalid local query limit").

(** The body of an operation, with the exceptions turned into the result that has
    only a status and a message. *)
Definition Call {R} (failed : MessageApplicationStatus → list Z → R) (fn : M R) (s : Store D)
  : Store D * R :=
  match unwinding (Open;; fn) s with
  | (s, inr out) => (s, out)
  | (s, inl e) => (s, failed (exn_status e) (exn_message e))
  end.

(** Without exact locking the stripes are taken, which cannot fail. *)
Fixpoint LockActorsLoop (ordered : list Z) : M unit :=
  match ordered with
  | [] => mret tt
  | actor :: ordered =>
      require (0 <? actor) kInvalidArgument (str "zero local lock actor");;
      locks ← gets user_locks;
      (if decide (actor ∈ locks) then mret tt
       else
         require (Z.of_nat (size locks) <? 100000) kFailedPrecondition
           (str "bounded local actor lock capacity reached");;
         modify (set_user_locks ({[actor]} ∪ locks)));;
      LockActorsLoop ordered
  end.
Definition LockActors (actors : list Z) : M unit :=
  if exact_user_locking options then LockActorsLoop (merge_sort Z.le (remove_dups actors))
  else mret tt.

Definition Identity (e : Env) (cid : list Z) : M (list Z) :=
  if negb (resolve_identity options) then mret cid
  else if negb (bool_decide (resolved_status e = kSucceeded)) then
    throw (EFailure (resolved_status e) (resolved_message e))
  else
    require (bsize (resolved_cid e) <=? 1024) kInvalidRecord (str "invalid canonical local CID length");;
    mret (resolved_cid e).

Definition Get (key : list Z) : M (option (list Z)) := gets (λ s, db_get (db s) key).

(** [Record], which either finds the message or not. *)
Definition Record_ (mid : Z) : M GetResult :=
  value ← Get (MessageKey mid);
  match value with
  | Some text => record ← DecodeRecord text mid; mret (MkGet kSucceeded (Some record) [])
  | None => mret (MkGet kSucceeded None [])
  end.

Definition Count (key : list Z) : M Z :=
  value ← Get key;
  match value with Some text => ParseNumber text | None => mret 0 end.

Definition WriteDirect (batch : list WriteOp) (sync : bool) : M unit :=
  s ← gets id;
  require (negb (poisoned s)) kStorageError (str "local owner requires recovery after write failure");;
  count engine_write_calls 1;;
  let d := db_write (db s) batch in
  match outcome (stats s engine_write_calls) with
  | Written =>
      modify (λ s, set_recoverable (if sync then [d] else recoverable s ++ [d]) (set_db d s))
  | WriteFailed applied reason =>
      modify (λ s, set_poisoned true
                     (set_recoverable (recoverable s ++ [d]) (set_db (if applied then d else db s) s)));;
      throw (EFailure kStorageError (str "local engine: " ++ reason))
  end.
(** [Write] without the physical write group. *)
Definition Write (batch : list WriteOp) (sync : bool) : M unit := WriteDirect batch sync.

(** [FlushWAL(true)]: the reason when it fails. *)
Definition FlushWAL : M (option (list Z)) :=
  s ← gets id;
  count flush_calls 1;;
  match flushed (stats s flush_calls) with
  | None => modify (λ s, set_recoverable [db s] s);; mret None
  | Some reason => mret (Some reason)
  end.

Definition NextId : M Z :=
  s ← gets id;
  (if reserved_end s <? next_id s then
     require (reserved_end s <? 2 ^ 63 - 1 - 4096) kFailedPrecondition (str "local MID space exhausted");;
     let end_ := reserved_end s + 4096 in
     Write [(HighKey, Some (Number end_))] true;;
     modify (set_reserved_end end_);;
     count reservations 1
   else mret tt);;
  id ← gets next_id;
  modify (set_next_id (id +₆₄ 1));;
  mret id.

(** [EventSlot(Impl&)]. *)
Definition NewSlot : M unit :=
  n ← gets pending_events;
  require (n <? max_pending_events options) kFailedPrecondition
    (str "local pending event capacity reached");;
  modify (λ s, set_slots (slots s ++ [None]) (set_pending_events (n +₆₄ 1) s)).

(** [Prepare] of the slot made last. *)
Definition Prepare (id : list Z) : M unit :=
  s ← gets (λ s, s);
  if negb (pending_index_enabled s) then mret tt
  else
    require (bool_decide (pending_index s !! id = None)) kInvalidRecord
      (str "duplicate prepared local event identity");;
    modify (λ s, set_slots (<[(length (slots s) - 1)%nat := Some id]> (slots s))
                   (set_pending_index (<[id := false]> (pending_index s)) s)).

(** [Commit] of all live slots. *)
Definition CommitSlots : M unit :=
  modify (λ s, set_slots []
    (set_pending_index
       (foldr (λ slot m, match slot with Some id => <[id := true]> m | None => m end)
          (pending_index s) (slots s)) s)).

Definition Notify : M unit := modify (λ s, set_event_signal (event_signal s +₆₄ 1) s).

(** The text of a pending event, or the exception its encoding throws. *)
Definition event_text (event : OutboxEventSpec) : M (list Z) :=
  match Encode (spec_event event) with
  | None => throw (EFailure kInvalidRecord (str "local domain event encoding failed"))
  | Some body =>
      json (json_dump (object [(str "event_id", JString (event_id (spec_event event)));
                               (str "topic", JString (spec_topic event));
                               (str "tag", JString (spec_tag event));
                               (str "key", JString (spec_message_key event));
                               (str "body", JString body)]))
  end.

(** [Event]: the operations it adds to the batch. *)
Definition Event (event : option OutboxEventSpec) : M (list WriteOp) :=
  match event with
  | None => throw (EStd (str "message event topic must be 1-128 ASCII letters, digits, '-' or '_'"))
  | Some event =>
      bytes ← event_text event;
      let id := event_id (spec_event event) in
      Prepare id;;
      mret [(EventKey id, Some bytes); (EventCopyKey id, Some bytes)]
  end.

Definition NativeCreatedUnreadReply (mid receiver peer private_unread total_unread : Z)
  : option CommittedUnreadSnapshot :=
  if negb (persist_unread_reply options) then None
  else
    let result := MkUnread mid receiver peer private_unread total_unread in
    if ValidFor result mid receiver peer then Some result else None.

(** ** Persisting *)

Definition CheckInput (i : PrivateMessagePersistInput) : M unit :=
  require (negb (bempty (in_cid i)) && (bsize (in_cid i) <=? 64) && (1 <=? in_type i) &&
           (in_type i <=? 3) && negb (bempty (in_content i)))
    kInvalidArgument (str "invalid local private message input").

(** The record the identity index knows. *)
Definition FindByCid (from : Z) (canonical : list Z) : M (option MessageView) :=
  existing ← Get (CidKey from canonical);
  match existing with
  | None => mret None
  | Some value =>
      mid ← ParseNumber value;
      found ← Record_ mid;
      require (Found found) kInvalidRecord (str "orphan local CID index");;
      match g_record found with
      | None => mret None
      | Some record =>
          key ← Get (CanonicalKey (message_id record));
          require ((from_user_id record =? from) && bool_decide (key = Some canonical)) kInvalidRecord
            (str "mismatched local canonical identity");;
          mret (Some record)
      end
  end.

(** The result for an identity that is taken. *)
Definition ReuseResult (record : MessageView) (i : PrivateMessagePersistInput) : PersistResult :=
  MkPersist kSucceeded
    (if (from_user_id record =? in_from i) && (to_user_id record =? in_to i) &&
        bool_decide (client_message_id record = in_cid i) && (message_type record =? in_type i) &&
        bool_decide (content record = in_content i)
     then kReused else kIdempotencyConflict)
    (message_id record) record [] None.

(** What is checked before a message is admitted, and its identifier. *)
Definition Admit (e : Env) (i : PrivateMessagePersistInput) : M MessageView :=
  require (bsize (in_content i) <=? 65535) kStorageError
    (str "message exceeds legacy MySQL TEXT byte capacity");;
  (match json_dump (JString (in_content i)) with
   | Some _ => mret tt
   | None => throw (EFailure kStorageError (str "invalid legacy utf8mb4 message bytes"))
   end);;
  require (negb (admit_events options) || admitted e) kStorageError (str "local event admission fenced");;
  NewSlot;;
  (if before_new_message_commit options && negb (bool_decide (m_status (pinned e) = kSucceeded))
   then throw (EFailure (m_status (pinned e)) (m_message (pinned e))) else mret tt);;
  mid ← NextId;
  mret (MkMessage mid (in_cid i) (in_from i) (in_to i) (in_type i) (in_content i) kPending (Now e) [] []).

(** The operations of a new message but for its event. *)
Definition MessageOps (canonical : list Z) (record : MessageView) (text : list Z) (total dialog pending : Z)
  : list WriteOp :=
  let mid := message_id record in
  let from := from_user_id record in
  let to := to_user_id record in
  [(MessageKey mid, Some text); (CidKey from canonical, Some (Number mid));
   (CanonicalKey mid, Some canonical);
   (ActorKey from, Some []); (ActorKey to, Some []);
   (DialogPrefix from to ++ Hex mid, Some []); (PendingPrefix to ++ Hex mid, Some []);
   (ConversationPrefix from ++ Hex to, Some (Number mid));
   (ConversationPrefix to ++ Hex from, Some (Number mid));
   (UnreadKey to, Some (Number (total +₆₄ 1)));
   (DialogUnreadKey to from, Some (Number (dialog +₆₄ 1)));
   (PendingCountKey to, Some (Number (pending +₆₄ 1)));
   (PeerPrefix to ++ Hex from, Some [])].

Definition CheckCounters (total dialog pending : Z) : M unit :=
  require ((total <? 2 ^ 64 - 1) && (dialog <=? total) && (pending <=? total)) kInvalidRecord
    (str "invalid local unread counters").

(** A message with an identity that is new. *)
Definition CreateMessage (e : Env) (i : PrivateMessagePersistInput) (canonical : list Z) : M PersistResult :=
  record ← Admit e i;
  total ← Count (UnreadKey (in_to i));
  dialog ← Count (DialogUnreadKey (in_to i) (in_from i));
  pending ← Count (PendingCountKey (in_to i));
  CheckCounters total dialog pending;;
  text ← json (json_dump (EncodeRecord record));
  let batch := MessageOps canonical record text total dialog pending in
  event ← Event (MessageCreated record (message_events_topic options) (CurrentUtcIso8601 e));
  Write (batch ++ event) true;;
  CommitSlots;;
  count messages 1;; count message_batches 1;;
  Notify;;
  mret (MkPersist kSucceeded kCreated (message_id record) record []
          (NativeCreatedUnreadReply (message_id record) (in_to i) (in_from i)
             (dialog +₆₄ 1) (total +₆₄ 1))).

Definition PersistPrivateMessage (e : Env) (i : PrivateMessagePersistInput)
  : Store D → Store D * PersistResult :=
  Call persist_failure (
    Dialog (in_from i) (in_to i);;
    CheckInput i;;
    canonical ← Identity e (in_cid i);
    LockActors [in_from i; in_to i];;
    existing ← FindByCid (in_from i) canonical;
    match existing with
    | Some record => mret (ReuseResult record i)
    | None => CreateMessage e i canonical
    end).

(** The state of the loop of [PersistPrivateMessages]: results, whether they
    depend on the write, the staged writes with the index of their result, the
    staged identities and the staged counters. *)
Record Staging := MkStaging {
  st_out : list PersistResult;
  st_provisional : list bool;
  st_creates : list (nat * list WriteOp);
  st_cids : gmap (list Z) nat;
  st_counters : gmap (list Z) Z;
}.

(** The first loop on one input: its canonical identity when it is eligible. *)
Definition Eligible (e : Env) (i : PrivateMessagePersistInput) : M (Exn + list Z) := λ s,
  match (Dialog (in_from i) (in_to i);; CheckInput i;; Identity e (in_cid i)) s with
  | (s, inr canonical) => (s, inr (inr canonical))
  | (s, inl ex) => (s, inr (inl ex))
  end.

Definition StagedCount (st : Staging) (key : list Z) : M Z :=
  match st_counters st !! key with Some n => mret n | None => Count key end.

(** A result that depends on the write. *)
Definition stage_result (n : nat) (r : PersistResult) (provisional : bool) (st : Staging) : Staging :=
  MkStaging (<[n := r]> (st_out st)) (if provisional then <[n := true]> (st_provisional st) else st_provisional st)
    (st_creates st) (st_cids st) (st_counters st).

(** The body of the second loop. *)
Definition StageItem (n : nat) (e : Env) (i : PrivateMessagePersistInput) (canonical : list Z) (st : Staging)
  : M Staging :=
  let from := in_from i in
  let to := in_to i in
  let cid_key := CidKey from canonical in
  match st_cids st !! cid_key with
  | Some staged =>
      let existing := p_record (default (persist_failure kStorageError []) (st_out st !! staged)) in
      mret (stage_result n (ReuseResult existing i) true st)
  | None =>
      existing ← FindByCid from canonical;
      match existing with
      | Some record => mret (stage_result n (ReuseResult record i) false st)
      | None =>
          record ← Admit e i;
          total ← StagedCount st (UnreadKey to);
          dialog ← StagedCount st (DialogUnreadKey to from);
          pending ← StagedCount st (PendingCountKey to);
          CheckCounters total dialog pending;;
          match MessageCreated record (message_events_topic options) (CurrentUtcIso8601 e) with
          | None => throw (EStd (str "message event topic must be 1-128 ASCII letters, digits, '-' or '_'"))
          | Some event =>
              event_value ← event_text event;
              text ← json (json_dump (EncodeRecord record));
              let id := event_id (spec_event event) in
              let writes := MessageOps canonical record text total dialog pending ++
                [(EventKey id, Some event_value); (EventCopyKey id, Some event_value)] in
              Prepare id;;
              mret (MkStaging
                (<[n := MkPersist kSucceeded kCreated (message_id record) record [] None]> (st_out st))
                (<[n := true]> (st_provisional st))
                (st_creates st ++ [(n, writes)])
                (<[cid_key := n]> (st_cids st))
                (<[PendingCountKey to := pending +₆₄ 1]>
                   (<[DialogUnreadKey to from := dialog +₆₄ 1]>
                      (<[UnreadKey to := total +₆₄ 1]> (st_counters st)))))
          end
      end
  end.

(** The second loop; an item that fails leaves the others.  The results so far are
    kept when an exception other than a failure or one of JSON ends it. *)
Fixpoint StageLoop (n : nat) (items : list (PrivateMessagePersistInput * Env * (Exn + list Z)))
    (st : Staging) (s : Store D) : Store D * (Staging * option Exn) :=
  match items with
  | [] => (s, (st, None))
  | (i, e, inl _) :: items => StageLoop (S n) items st s
  | (i, e, inr canonical) :: items =>
      match unwinding (StageItem n e i canonical st) s with
      | (s, inl (EStd m)) => (s, (st, Some (EStd m)))
      | (s, inl ex) =>
          StageLoop (S n) items
            (stage_result n (persist_failure (exn_status ex) (exn_message ex)) false st) s
      | (s, inr st) => StageLoop (S n) items st s
      end
  end.

Fixpoint EligibleLoop (items : list (PrivateMessagePersistInput * Env))
  : M (list (PrivateMessagePersistInput * Env * (Exn + list Z))) :=
  match items with
  | [] => mret []
  | (i, e) :: items =>
      c ← Eligible e i;
      rest ← EligibleLoop items;
      mret ((i, e, c) :: rest)
  end.

(** The results after the first loop. *)
Definition first_result (c : Exn + list Z) : PersistResult :=
  match c with inl ex => persist_failure (exn_status ex) (exn_message ex) | inr _ => persist_failure kStorageError [] end.

(** [committed_unread] of the created messages, from the final counters. *)
Definition SetCommittedUnread (st : Staging) (out : list PersistResult) (create : nat * list WriteOp)
  : list PersistResult :=
  match out !! create.1 with
  | None => out
  | Some r =>
      let record := p_record r in
      match st_counters st !! UnreadKey (to_user_id record),
            st_counters st !! DialogUnreadKey (to_user_id record) (from_user_id record) with
      | Some total, Some dialog =>
          <[create.1 := MkPersist (p_status r) (p_outcome r) (p_message_id r) record (p_message r)
              (NativeCreatedUnreadReply (p_message_id r) (to_user_id record) (from_user_id record)
                 dialog total)]> out
      | _, _ => out
      end
  end.

(** [fail_uncommitted]. *)
Definition FailUncommitted (e : Exn) (out : list PersistResult) (provisional : list bool) : list PersistResult :=
  imap (λ i r,
    if default false (provisional !! i) ||
       (bool_decide (p_status r = kStorageError) && bempty (p_message r))
    then persist_failure (exn_status e) (exn_message e) else r) out.

(** The final write and what follows it. *)
Definition CommitStaging (st : Staging) : M (list PersistResult) :=
  match st_creates st with
  | [] => mret (st_out st)
  | creates =>
      Write (concat (creates.*2)) true;;
      CommitSlots;;
      count messages (Z.of_nat (length creates));; count message_batches 1;;
      Notify;;
      mret (foldl (SetCommittedUnread st) (st_out st) creates)
  end.

(** The identities whose locks are taken. *)
Definition batch_actors (checked : list (PrivateMessagePersistInput * Env * (Exn + list Z))) : list Z :=
  concat ((λ item, match item with (i, _, inr _) => [in_from i; in_to i] | _ => [] end) <$> checked).

(** The end of the scope that owns the slots of the batch. *)
Definition DestroySlots (s : Store D) : Store D := set_slots [] (foldr destroy_slot s (slots s)).

Definition PersistBatch (items : list (PrivateMessagePersistInput * Env)) (s : Store D)
  : Store D * list PersistResult :=
  match (Open;; EligibleLoop items) s with
  | (s, inl e) => (s, FailUncommitted e ((λ _, persist_failure kStorageError []) <$> items) [])
  | (s, inr checked) =>
      let out := (λ item, first_result item.2) <$> checked in
      match LockActors (batch_actors checked) s with
      | (s, inl e) => (s, FailUncommitted e out [])
      | (s, inr _) =>
          let '(s, (st, stopped)) := StageLoop 0 checked (MkStaging out ((λ _, false) <$> out) [] ∅ ∅) s in
          let '(s, result) := match stopped with Some e => (s, inl e) | None => CommitStaging st s end in
          match result with
          | inl e => (DestroySlots s, FailUncommitted e (st_out st) (st_provisional st))
          | inr out => (s, out)
          end
      end
  end.

Fixpoint PersistEach (items : list (PrivateMessagePersistInput * Env)) (s : Store D)
  : Store D * list PersistResult :=
  match items with
  | [] => (s, [])
  | (i, e) :: items =>
      let '(s, r) := PersistPrivateMessage e i s in
      let '(s, rs) := PersistEach items s in
      (s, r :: rs)
  end.

Definition PersistPrivateMessages (items : list (PrivateMessagePersistInput * Env)) (s : Store D)
  : Store D * list PersistResult :=
  if 64 <? Z.of_nat (length items) then
    (s, (λ _, persist_failure kInvalidArgument (str "local private persistence batch exceeds64")) <$> items)
  else if bool_decide (items = []) then (s, [])
  else if negb (persist_batch_enable options) || Nat.eqb (length items) 1 then PersistEach items s
  else PersistBatch items s.

(** ** Queries *)

Definition get_failure (st : MessageApplicationStatus) (m : list Z) : GetResult := MkGet st None m.
Definition list_failure {A} (st : MessageApplicationStatus) (m : list Z) : ListResult A := MkList st [] m.
Definition mutation_failure (st : MessageApplicationStatus) (m : list Z) : MutationResult := MkMutation st 0 m.

Definition GetPrivateMessage (mid : Z) : Store D → Store D * GetResult :=
  Call get_failure (
    require (0 <? mid) kInvalidArgument (str "zero local MID");;
    Record_ mid).

Definition FindPrivateMessageByClientMessageId (e : Env) (from : Z) (cid : list Z)
  : Store D → Store D * GetResult :=
  Call get_failure (
    Actor from;;
    require (negb (bempty cid) && (bsize cid <=? 64)) kInvalidArgument (str "invalid local CID");;
    canonical ← Identity e cid;
    value ← Get (CidKey from canonical);
    match value with
    | None => mret (MkGet kSucceeded None [])
    | Some value =>
        mid ← ParseNumber value;
        out ← Record_ mid;
        key ← Get (CanonicalKey (message_id (default no_message (g_record out))));
        require (Found out && (from_user_id (default no_message (g_record out)) =? from) &&
                 bool_decide (key = Some canonical)) kInvalidRecord (str "orphan/mismatched local CID");;
        mret out
    end).

(** The part of a key after a prefix of it. *)
Definition suffix (prefix key : list Z) : list Z := drop (length prefix) key.

Definition between (m : MessageView) (a b : Z) : bool :=
  ((from_user_id m =? a) && (to_user_id m =? b)) || ((from_user_id m =? b) && (to_user_id m =? a)).

(** The record of an index entry, which has to satisfy [ok]. *)
Definition IndexedRecord (mid : Z) (ok : MessageView → bool) (orphan : list Z) : M MessageView :=
  found ← Record_ mid;
  require (match g_record found with Some m => ok m | None => false end) kInvalidRecord orphan;;
  mret (default no_message (g_record found)).

(** A loop over the entries of an iterator that collects the records they name, at
    most [limit] of them. *)
Fixpoint CollectRecords (prefix : list Z) (ok : MessageView → bool) (orphan : list Z) (limit : nat)
    (entries : list (list Z * list Z)) : M (list MessageView) :=
  match entries, limit with
  | (key, _) :: entries, S limit =>
      mid ← Unhex (suffix prefix key);
      record ← IndexedRecord mid ok orphan;
      rest ← CollectRecords prefix ok orphan limit entries;
      mret (record :: rest)
  | _, _ => mret []
  end.

(** The entries with a key other than [start] at the front. *)
Definition skip_start (start : list Z) (entries : list (list Z * list Z)) : list (list Z * list Z) :=
  match entries with
  | (key, v) :: rest => if decide (key = start) then rest else entries
  | [] => []
  end.

Definition ListHistory (actor peer before limit : Z) : Store D → Store D * ListResult MessageView :=
  Call list_failure (
    Dialog actor peer;;
    Limit limit;;
    d ← gets db;
    let prefix := DialogPrefix actor peer in
    let bound := if negb (before =? 0) then prefix ++ Hex before else prefix ++ str "~" in
    let it := db_seek_for_prev d bound in
    let it := if negb (before =? 0) then skip_start bound it else it in
    records ← CollectRecords prefix (λ m, between m actor peer) (str "orphan local dialog index")
                (Z.to_nat limit) (take_while (λ e, starts_with prefix e.1) it);
    mret (MkList kSucceeded (rev records) [])).

Fixpoint CollectConversations (actor : Z) (entries : list (list Z * list Z)) : M (list ConversationView) :=
  match entries with
  | [] => mret []
  | (key, value) :: entries =>
      peer ← Unhex (suffix (ConversationPrefix actor) key);
      mid ← ParseNumber value;
      record ← IndexedRecord mid (λ m, between m actor peer) (str "orphan local conversation index");
      rest ← CollectConversations actor entries;
      mret (MkConversation peer record :: rest)
  end.

(** Newest first. *)
Definition newer (a b : ConversationView) : Prop :=
  message_id (last_message b) ≤ message_id (last_message a).
#[export] Instance newer_dec : RelDecision newer.
Proof. intros a b. apply Z_le_dec. Defined.

Definition ListConversations (actor limit : Z) : Store D → Store D * ListResult ConversationView :=
  Call list_failure (
    Actor actor;;
    Limit limit;;
    d ← gets db;
    let prefix := ConversationPrefix actor in
    records ← CollectConversations actor (scan d prefix prefix);
    mret (MkList kSucceeded (take (Z.to_nat limit) (merge_sort newer records)) [])).

Definition CountPending (receiver : Z) : Store D → Store D * CountResult :=
  Call (λ st m, MkCount st 0 m) (
    Actor receiver;;
    n ← Count (PendingCountKey receiver);
    mret (MkCount kSucceeded n [])).

Definition ListPendingAfter (receiver after limit : Z) : Store D → Store D * ListResult MessageView :=
  Call list_failure (
    Actor receiver;;
    Limit limit;;
    d ← gets db;
    let prefix := PendingPrefix receiver in
    let start := prefix ++ Hex after in
    let it := skip_start start (db_seek d start) in
    records ← CollectRecords prefix
                (λ m, (to_user_id m =? receiver) && bool_decide (delivery_state m = kPending))
                (str "orphan local pending index") (Z.to_nat limit)
                (take_while (λ e, starts_with prefix e.1) it);
    mret (MkList kSucceeded records [])).

Fixpoint CollectRecipients (limit : nat) (entries : list (list Z * list Z)) : M (list Z * bool) :=
  match entries with
  | [] => mret ([], false)
  | (key, value) :: entries =>
      n ← ParseNumber value;
      require (0 <? n) kInvalidRecord (str "zero local pending-recipient index");;
      match limit with
      | O => mret ([], true)
      | S limit =>
          user ← Unhex (drop 2 key);
          rest ← CollectRecipients limit entries;
          mret (user :: rest.1, rest.2)
      end
  end.

Definition ListPendingRecipientsAfter (after limit : Z) : Store D → Store D * PageResult Z :=
  Call page_failure (
    Limit limit;;
    d ← gets db;
    let start := PendingCountKey after in
    let it := skip_start start (db_seek d start) in
    out ← CollectRecipients (Z.to_nat limit) (take_while (λ e, starts_with (str "Q/") e.1) it);
    mret (MkPage kSucceeded out.1 out.2 [])).

(** [LocalUnreadResult] and [LocalUserUnreadResult]. *)
Record LocalUnreadResult := MkLocalUnread {
  lu_status : MessageApplicationStatus;
  lu_private_unread : Z;
  lu_total_unread : Z;
  lu_message : list Z;
}.
Record LocalUserUnreadResult := MkUserUnread {
  uu_status : MessageApplicationStatus;
  uu_peer_counts : list (Z * Z);
  uu_total_unread : Z;
  uu_message : list Z;
}.

Definition ReadUnreadSnapshot (receiver peer : Z) : Store D → Store D * LocalUnreadResult :=
  Call (λ st m, MkLocalUnread st 0 0 m) (
    Dialog receiver peer;;
    total ← Count (UnreadKey receiver);
    private ← Count (DialogUnreadKey receiver peer);
    require (private <=? total) kInvalidRecord (str "local unread snapshot invariant failed");;
    mret (MkLocalUnread kSucceeded private total [])).

Fixpoint CollectPeers (receiver : Z) (entries : list (list Z * list Z)) (out : list (Z * Z)) (total : Z)
  : M (list (Z * Z) * Z) :=
  match entries with
  | [] => mret (out, total)
  | (key, _) :: entries =>
      peer ← Unhex (suffix (PeerPrefix receiver) key);
      n ← Count (DialogUnreadKey receiver peer);
      require (negb (peer =? 0) && negb (peer =? receiver) && (Z.of_nat (length out) <? 100000) &&
               (n <=? 2 ^ 63 - 1 - total)) kInvalidRecord
        (str "invalid or over-budget local user unread snapshot");;
      CollectPeers receiver entries (out ++ [(peer, n)]) (total + n)
  end.

Definition ReadUserUnreadSnapshot (receiver : Z) : Store D → Store D * LocalUserUnreadResult :=
  Call (λ st m, MkUserUnread st [] 0 m) (
    Actor receiver;;
    d ← gets db;
    let prefix := PeerPrefix receiver in
    out ← CollectPeers receiver (scan d prefix prefix) [] 0;
    total ← Count (UnreadKey receiver);
    require (out.2 =? total) kInvalidRecord (str "local user unread total disagrees");;
    mret (MkUserUnread kSucceeded out.1 out.2 [])).

(** ** Confirmations and reads *)

Definition confirm (now : list Z) (m : MessageView) : MessageView :=
  MkMessage (message_id m) (client_message_id m) (from_user_id m) (to_user_id m) (message_type m)
    (content m) kReceiverConfirmed (created_at m) now (read_at m).
Definition mark_read (now : list Z) (m : MessageView) : MessageView :=
  MkMessage (message_id m) (client_message_id m) (from_user_id m) (to_user_id m) (message_type m)
    (content m) kRead (created_at m)
    (if bempty (receiver_confirmed_at m) then now else receiver_confirmed_at m) now.

(** The new pending count of a receiver. *)
Definition PendingOp (receiver pending removed : Z) : WriteOp :=
  (PendingCountKey receiver,
   if pending =? removed then None else Some (Number (pending -₆₄ removed))).

Definition ConfirmReceiver (e : Env) (mid receiver : Z) : Store D → Store D * MutationResult :=
  Call mutation_failure (
    Actor receiver;;
    require (0 <? mid) kInvalidArgument (str "zero local MID");;
    LockActors [receiver];;
    found ← Record_ mid;
    match ReceiverConfirmationDecision found receiver with
    | Some decision => mret decision
    | None =>
        let record := confirm (Now e) (default no_message (g_record found)) in
        pending ← Count (PendingCountKey receiver);
        require (0 <? pending) kInvalidRecord (str "local pending counter underflow");;
        text ← json (json_dump (EncodeRecord record));
        Write [(MessageKey mid, Some text); (PendingPrefix receiver ++ Hex mid, None);
               PendingOp receiver pending 1] true;;
        count confirmations 1;;
        mret (MkMutation kSucceeded 1 [])
    end).

(** [++removed[receiver]] in a map ordered by receiver. *)
Fixpoint bump (receiver : Z) (removed : list (Z * Z)) : list (Z * Z) :=
  match removed with
  | [] => [(receiver, 1)]
  | (r, n) :: rest =>
      if receiver <? r then (receiver, 1) :: removed
      else if receiver =? r then (r, n + 1) :: rest
      else (r, n) :: bump receiver rest
  end.

(** The receivers of a batch; [seen] are the messages before. *)
Fixpoint BatchReceivers (seen mids : list Z) : M (list Z) :=
  match mids with
  | [] => mret []
  | mid :: mids =>
      require (negb (mid =? 0) && negb (bool_decide (mid ∈ seen))) kInvalidArgument
        (str "zero or duplicate local receiver MID");;
      found ← Record_ mid;
      require (Found found) kNotFound (str "local receiver batch message missing");;
      let receiver := to_user_id (default no_message (g_record found)) in
      Actor receiver;;
      rest ← BatchReceivers (mid :: seen) mids;
      mret (receiver :: rest)
  end.

(** The second loop: the operations of the batch and the counts removed. *)
Fixpoint BatchConfirm (now : list Z) (actors mids : list Z) (batch : list WriteOp) (removed : list (Z * Z))
  : M (list WriteOp * list (Z * Z)) :=
  match mids with
  | [] => mret (batch, removed)
  | mid :: mids =>
      found ← Record_ mid;
      let record := default no_message (g_record found) in
      require (Found found && bool_decide (to_user_id record ∈ actors)) kInvalidRecord
        (str "local receiver batch identity changed");;
      match ReceiverConfirmationDecision found (to_user_id record) with
      | Some decision =>
          require (bool_decide (m_status decision = kSucceeded)) (m_status decision) (m_message decision);;
          BatchConfirm now actors mids batch removed
      | None =>
          let record := confirm now record in
          text ← json (json_dump (EncodeRecord record));
          BatchConfirm now actors mids
            (batch ++ [(MessageKey mid, Some text); (PendingPrefix (to_user_id record) ++ Hex mid, None)])
            (bump (to_user_id record) removed)
      end
  end.

Fixpoint PendingOps (underflow : list Z) (removed : list (Z * Z)) : M (list WriteOp) :=
  match removed with
  | [] => mret []
  | (receiver, n) :: removed =>
      pending ← Count (PendingCountKey receiver);
      require (n <=? pending) kInvalidRecord underflow;;
      rest ← PendingOps underflow removed;
      mret (PendingOp receiver pending n :: rest)
  end.

Definition ConfirmReceiverBatch (e : Env) (mids : list Z) : Store D → Store D * MutationResult :=
  Call mutation_failure (
    require (negb (bool_decide (mids = [])) && (Z.of_nat (length mids) <=? 100)) kInvalidArgument
      (str "invalid local receiver batch size");;
    actors ← BatchReceivers [] mids;
    LockActors actors;;
    out ← BatchConfirm (Now e) actors mids [] [];
    let rows := lsum snd out.2 in
    if rows =? 0 then mret (MkMutation kSucceeded 0 [])
    else
      counts ← PendingOps (str "local receiver batch pending underflow") out.2;
      Write (out.1 ++ counts) true;;
      count confirmations 1;;
      mret (MkMutation kSucceeded rows [])).

Record OwnedReceiverConfirmation := MkOwned { oc_message_id : Z; oc_receiver_user_id : Z }.

(** The state of [ConfirmReceiverRequests]: results, whether they depend on the
    write, changed records, counts removed, operations. *)
Record Confirming := MkConfirming {
  cf_results : list MutationResult;
  cf_provisional : list bool;
  cf_changed : gmap Z MessageView;
  cf_removed : list (Z * Z);
  cf_batch : list WriteOp;
}.

(** The check of one request in the first loop. *)
Definition OwnedEligible (i : OwnedReceiverConfirmation) : M (option Exn) := λ s,
  match (Actor (oc_receiver_user_id i);;
         require (0 <? oc_message_id i) kInvalidArgument (str "zero local MID")) s with
  | (s, inl e) => (s, inr (Some e))
  | (s, inr _) => (s, inr None)
  end.

Fixpoint OwnedEligibleLoop (inputs : list OwnedReceiverConfirmation)
  : M (list (OwnedReceiverConfirmation * option Exn)) :=
  match inputs with
  | [] => mret []
  | i :: inputs =>
      c ← OwnedEligible i;
      rest ← OwnedEligibleLoop inputs;
      mret ((i, c) :: rest)
  end.

Definition set_result (n : nat) (r : MutationResult) (provisional : bool) (c : Confirming) : Confirming :=
  MkConfirming (<[n := r]> (cf_results c)) (<[n := provisional]> (cf_provisional c))
    (cf_changed c) (cf_removed c) (cf_batch c).

(** One request of the second loop. *)
Definition OwnedItem (now : list Z) (n : nat) (i : OwnedReceiverConfirmation) (c : Confirming)
  : M Confirming := λ s,
  match Record_ (oc_message_id i) s with
  | (s, inl (EFailure st m)) =>
      if bool_decide (st = kInvalidRecord) then (s, inr (set_result n (mutation_failure st m) false c))
      else (s, inl (EFailure st m))
  | (s, inl EJson) =>
      (s, inr (set_result n (mutation_failure kInvalidRecord (str "invalid local serialized record")) false c))
  | (s, inl e) => (s, inl e)
  | (s, inr found) =>
      let found := match cf_changed c !! oc_message_id i with
                   | Some record => MkGet (g_status found) (Some record) (g_message found)
                   | None => found
                   end in
      match ReceiverConfirmationDecision found (oc_receiver_user_id i) with
      | Some decision =>
          (s, inr (set_result n decision
                     (bool_decide (m_status decision = kSucceeded) &&
                      bool_decide (is_Some (cf_changed c !! oc_message_id i))) c))
      | None =>
          let record := confirm now (default no_message (g_record found)) in
          match json_dump (EncodeRecord record) with
          | None => (s, inl EJson)
          | Some text =>
              (s, inr (MkConfirming
                 (<[n := MkMutation kStorageError 1 []]> (cf_results c)) (<[n := true]> (cf_provisional c))
                 (<[oc_message_id i := record]> (cf_changed c)) (bump (oc_receiver_user_id i) (cf_removed c))
                 (cf_batch c ++ [(MessageKey (oc_message_id i), Some text);
                                 (PendingPrefix (oc_receiver_user_id i) ++ Hex (oc_message_id i), None)])))
          end
      end
  end.

Fixpoint OwnedLoop (now : list Z) (n : nat) (items : list (OwnedReceiverConfirmation * option Exn))
    (c : Confirming) (s : Store D) : Store D * (Confirming * option Exn) :=
  match items with
  | [] => (s, (c, None))
  | (_, Some _) :: items => OwnedLoop now (S n) items c s
  | (i, None) :: items =>
      match OwnedItem now n i c s with
      | (s, inl e) => (s, (c, Some e))
      | (s, inr c) => OwnedLoop now (S n) items c s
      end
  end.

(** [fail_provisional]. *)
Definition FailProvisional (e : Exn) (c : Confirming) : list MutationResult :=
  imap (λ i r, if default false (cf_provisional c !! i)
               then mutation_failure (exn_status e) (exn_message e) else r) (cf_results c).

(** The messages of the results after the write. *)
Definition FinishProvisional (c : Confirming) : list MutationResult :=
  imap (λ i r, if default false (cf_provisional c !! i)
               then MkMutation kSucceeded (m_affected_rows r)
                      (if negb (m_affected_rows r =? 0) then str "private message receiver confirmation durable"
                       else str "receiver confirmation already durable")
               else r) (cf_results c).

Definition ConfirmReceiverRequests (e : Env) (inputs : list OwnedReceiverConfirmation) (s : Store D)
  : Store D * list MutationResult :=
  let fresh := (λ _, mutation_failure kStorageError []) <$> inputs in
  if bool_decide (inputs = []) then (s, [])
  else if 64 <? Z.of_nat (length inputs) then
    (s, (λ _, mutation_failure kInvalidArgument (str "owned receiver batch exceeds64")) <$> inputs)
  else match (Open;; OwnedEligibleLoop inputs) s with
  | (s, inl _) => (s, fresh)
  | (s, inr checked) =>
      let results := (λ item, match item.2 with
                              | Some e => mutation_failure (exn_status e) (exn_message e)
                              | None => mutation_failure kStorageError []
                              end) <$> checked in
      let actors := oc_receiver_user_id <$> (filter (λ item, item.2 = None) checked).*1 in
      match LockActors actors s with
      | (s, inl _) => (s, results)
      | (s, inr _) =>
          let '(s, (c, stopped)) :=
            OwnedLoop (Now e) 0 checked (MkConfirming results ((λ _, false) <$> results) ∅ [] []) s in
          match stopped with
          | Some ex => (s, FailProvisional ex c)
          | None =>
              if bool_decide (cf_changed c = ∅) then (s, cf_results c)
              else match (counts ← PendingOps (str "owned receiver batch pending underflow") (cf_removed c);
                          Write (cf_batch c ++ counts) true;; count confirmations 1) s with
              | (s, inl ex) => (s, FailProvisional ex c)
              | (s, inr _) => (s, FinishProvisional c)
              end
          end
      end
  end.

(** The loop over the messages of a dialog: the operations, the number of messages
    changed and how many of them were pending. *)
Fixpoint CollectReads (now : list Z) (reader peer : Z) (entries : list (list Z * list Z))
    (batch : list WriteOp) (changed pending_removed : Z) : M (list WriteOp * Z * Z) :=
  match entries with
  | [] => mret (batch, changed, pending_removed)
  | (key, _) :: entries =>
      mid ← Unhex (suffix (DialogPrefix reader peer) key);
      found ← Record_ mid;
      require (Found found) kInvalidRecord (str "orphan local history index");;
      let m := default no_message (g_record found) in
      require (between m reader peer) kInvalidRecord (str "local read index identity mismatch");;
      if negb (to_user_id m =? reader) ||
         negb (bool_decide (delivery_state m = kPending) || bool_decide (delivery_state m = kReceiverConfirmed))
      then CollectReads now reader peer entries batch changed pending_removed
      else
        let was_pending := bool_decide (delivery_state m = kPending) in
        let batch := if was_pending then batch ++ [(PendingPrefix reader ++ Hex (message_id m), None)]
                     else batch in
        text ← json (json_dump (EncodeRecord (mark_read now m)));
        let batch := batch ++ [(MessageKey (message_id m), Some text)] in
        require (db_batch_bytes batch <=? 64 * 1024 * 1024) kFailedPrecondition
          (str "local atomic read batch exceeds64MiB");;
        CollectReads now reader peer entries batch (changed + 1)
          (if was_pending then pending_removed + 1 else pending_removed)
  end.

Definition MarkDialogRead (e : Env) (reader peer : Z) : Store D → Store D * MutationResult :=
  Call mutation_failure (
    Dialog reader peer;;
    LockActors [reader];;
    d ← gets db;
    let prefix := DialogPrefix reader peer in
    out ← CollectReads (Now e) reader peer (scan d prefix prefix) [] 0 0;
    let '(batch, changed, pending_removed) := out in
    if changed =? 0 then mret (MkMutation kSucceeded 0 [])
    else
      total ← Count (UnreadKey reader);
      dialog ← Count (DialogUnreadKey reader peer);
      pending ← Count (PendingCountKey reader);
      require ((dialog =? changed) && (changed <=? total) && (pending_removed <=? pending)) kInvalidRecord
        (str "local dialog/read counters disagree");;
      require (negb (admit_events options) || admitted e) kStorageError (str "local event admission fenced");;
      NewSlot;;
      let batch := batch ++ [(UnreadKey reader, Some (Number (total -₆₄ changed)));
                             (DialogUnreadKey reader peer, None); PendingOp reader pending pending_removed] in
      event ← Event (DialogReadAdvanced reader peer changed (nanos e) (pid e) (sequence e)
                       (message_events_topic options) (CurrentUtcIso8601 e));
      Write (batch ++ event) true;;
      CommitSlots;;
      count reads 1;;
      Notify;;
      mret (MkMutation kSucceeded changed [])).

(** ** Events *)

Record LocalEventsResult := MkEvents {
  le_status : MessageApplicationStatus;
  le_events : list PendingLocalEvent;
  le_message : list Z;
  le_examined_events : Z;
  le_last_examined_event_id : list Z;
}.
Definition no_events (st : MessageApplicationStatus) (m : list Z) : LocalEventsResult :=
  MkEvents st [] m 0 [].

(** [skip]: the result after examining an identity, and whether it is held. *)
Definition examine (held : option (list (list Z))) (id : list Z) (out : LocalEventsResult)
  : LocalEventsResult * bool :=
  (MkEvents (le_status out) (le_events out) (le_message out) (le_examined_events out + 1) id,
   match held with Some ids => bool_decide (id ∈ ids) | None => false end).
Definition add_event (e : PendingLocalEvent) (out : LocalEventsResult) : LocalEventsResult :=
  MkEvents (le_status out) (le_events out ++ [e]) (le_message out) (le_examined_events out)
    (le_last_examined_event_id out).

(** The loop over identities taken from the index. *)
Fixpoint PageFromIndex (held : option (list (list Z))) (ids : list (list Z)) (out : LocalEventsResult)
  : M LocalEventsResult :=
  match ids with
  | [] => mret out
  | id :: ids =>
      let '(out, skipped) := examine held id out in
      if skipped then count held_events_skipped 1;; PageFromIndex held ids out
      else
        value ← Get (EventKey id);
        match value with
        | None => PageFromIndex held ids out
        | Some value =>
            count event_decode_attempts 1;;
            event ← DecodeEvent value id;
            PageFromIndex held ids (add_event event out)
        end
  end.

(** The loop over the engine; [limit] identities are still to be examined. *)
Fixpoint PageFromScan (held : option (list (list Z))) (limit : nat) (entries : list (list Z * list Z))
    (out : LocalEventsResult) : M LocalEventsResult :=
  match entries, limit with
  | (key, value) :: entries, S limit =>
      let id := drop 2 key in
      let '(out, skipped) := examine held id out in
      if skipped then count held_events_skipped 1;; PageFromScan held limit entries out
      else
        count event_decode_attempts 1;;
        event ← DecodeEvent value id;
        PageFromScan held limit entries (add_event event out)
  | _, _ => mret out
  end.

(** The identities of the index that are ready, in order, after [after]. *)
Definition ready_after (after : list Z) (index : gmap (list Z) bool) : list (list Z) :=
  merge_sort ble (filter (λ id, blt after id ∨ after = []) (filter (λ e, e.2 = true) (map_to_list index)).*1).

Definition ListPendingEventPage (after : list Z) (limit : Z) (held : option (list (list Z)))
  : Store D → Store D * LocalEventsResult :=
  Call no_events (
    require ((0 <? limit) && (limit <=? 256)) kInvalidArgument (str "invalid local event limit");;
    (if bempty after then mret tt else EventId after);;
    require (match held with Some ids => Z.of_nat (length ids) <=? 256 | None => true end) kInvalidArgument
      (str "held event set exceeds relay bound");;
    s ← gets (λ s, s);
    let out := no_events kSucceeded [] in
    if empty_event_scan_guard options && (pending_events s =? 0) then
      count empty_event_scans_skipped 1;; mret out
    else if pending_index_enabled s then
      count pending_index_queries 1;;
      PageFromIndex held (take (Z.to_nat limit) (ready_after after (pending_index s))) out
    else
      count event_scans_started 1;;
      let start := EventKey after in
      let it := db_seek (db s) start in
      let it := if bempty after then it else skip_start start it in
      PageFromScan held (Z.to_nat limit) (take_while (λ e, starts_with (str "E/") e.1) it) out).

Definition ListPendingEventsAfter (after : list Z) (limit : Z) := ListPendingEventPage after limit None.
Definition ListPendingEvents (limit : Z) := ListPendingEventsAfter [] limit.
Definition ListPendingEventsAfterExcluding (after : list Z) (limit : Z) (held : list (list Z)) :=
  ListPendingEventPage after limit (Some held).

Record FailedLocalEvent := MkFailedEvent {
  fe_event : PendingLocalEvent;
  fe_reason : list Z;
  fe_failed_at : list Z;
}.

(** The value of a failed event: its text, the reason and the time. *)
Definition DecodeFailed (value id : list Z) : M FailedLocalEvent :=
  data ← json (json_parse value);
  text ← json (json_at data (str "event") ≫= as_string);
  event ← DecodeEvent text id;
  reason ← json (json_at data (str "reason") ≫= as_string);
  failed_at ← json (json_at data (str "failed_at") ≫= as_string);
  require (negb (bempty reason) && (bsize reason <=? 128) && (bsize failed_at =? 19)) kInvalidRecord
    (str "invalid failed event metadata");;
  mret (MkFailedEvent event reason failed_at).

Fixpoint CollectFailed (limit : nat) (entries : list (list Z * list Z)) : M (list FailedLocalEvent) :=
  match entries, limit with
  | (key, value) :: entries, S limit =>
      failed ← DecodeFailed value (drop 2 key);
      rest ← CollectFailed limit entries;
      mret (failed :: rest)
  | _, _ => mret []
  end.

Definition ListFailedEvents (limit : Z) : Store D → Store D * ListResult FailedLocalEvent :=
  Call list_failure (
    require ((0 <? limit) && (limit <=? 256)) kInvalidArgument (str "invalid local failed event limit");;
    d ← gets db;
    events ← CollectFailed (Z.to_nat limit) (scan d (str "F/") (str "F/"));
    mret (MkList kSucceeded events [])).

(** [pending_index.erase] of published or failed events. *)
Definition EraseIndex (ids : list (list Z)) : M unit :=
  modify (λ s, if pending_index_enabled s
               then set_pending_index (foldr (λ id m, delete id m) (pending_index s) ids) s else s).

Definition MarkEventFailed (e : Env) (id reason : list Z) : Store D → Store D * MutationResult :=
  Call mutation_failure (
    EventId id;;
    require (negb (bempty reason) && (bsize reason <=? 128) && negb (bool_decide (0 ∈ reason)))
      kInvalidArgument (str "invalid event failure reason");;
    value ← Get (EventKey id);
    match value with
    | None => mret (MkMutation kSucceeded 0 [])
    | Some value =>
        DecodeEvent value id;;
        text ← json (json_dump (object [(str "event", JString value); (str "reason", JString reason);
                                        (str "failed_at", JString (Now e))]));
        Write [(FailedKey id, Some text); (EventKey id, None)] true;;
        EraseIndex [id];;
        modify (λ s, set_pending_events (pending_events s -₆₄ 1) s);;
        mret (MkMutation kSucceeded 1 [])
    end).

(** [std::set<std::string>] of a list. *)
Definition ordered_ids (ids : list (list Z)) : list (list Z) := merge_sort ble (remove_dups ids).

Fixpoint CheckEventIds (ids : list (list Z)) : M unit :=
  match ids with [] => mret tt | id :: ids => EventId id;; CheckEventIds ids end.

(** The loop of [RequeueFailedEvents]: the operations of the batch and how many
    events it requeues. *)
Fixpoint RequeueLoop (ids : list (list Z)) (batch : list WriteOp) (rows : Z) : M (list WriteOp * Z) :=
  match ids with
  | [] => mret (batch, rows)
  | id :: ids =>
      value ← Get (FailedKey id);
      match value with
      | None => RequeueLoop ids batch rows
      | Some value =>
          data ← json (json_parse value);
          raw ← json (json_at data (str "event") ≫= as_string);
          DecodeEvent raw id;;
          pending ← Get (EventKey id);
          require (bool_decide (pending = None)) kInvalidRecord (str "event is both pending and failed");;
          NewSlot;;
          Prepare id;;
          RequeueLoop ids (batch ++ [(EventKey id, Some raw); (FailedKey id, None)]) (rows + 1)
      end
  end.

Definition RequeueFailedEvents (ids : list (list Z)) : Store D → Store D * MutationResult :=
  Call mutation_failure (
    require (Z.of_nat (length ids) <=? 256) kInvalidArgument (str "too many failed events to requeue");;
    CheckEventIds ids;;
    out ← RequeueLoop (ordered_ids ids) [] 0;
    if out.2 =? 0 then mret (MkMutation kSucceeded 0 [])
    else
      Write out.1 true;;
      CommitSlots;;
      Notify;;
      mret (MkMutation kSucceeded out.2 [])).

Record LocalActorIndexResult := MkActors {
  ai_status : MessageApplicationStatus;
  ai_actors : list Z;
  ai_has_messages : bool;
  ai_message : list Z;
}.

Fixpoint CollectActors (d : D) (entries : list (list Z * list Z)) (n : Z) : M (list Z) :=
  match entries with
  | [] => mret []
  | (key, _) :: entries =>
      actor ← Unhex (drop 2 key);
      require (negb (actor =? 0) && (n <? 100000)) kInvalidRecord (str "invalid message actor index");;
      require (match db_seek d (ConversationPrefix actor) with
               | (k, _) :: _ => starts_with (ConversationPrefix actor) k
               | [] => false
               end) kInvalidRecord (str "orphan message actor index");;
      rest ← CollectActors d entries (n + 1);
      mret (actor :: rest)
  end.

Definition ListMessageActors : Store D → Store D * LocalActorIndexResult :=
  Call (λ st m, MkActors st [] false m) (
    d ← gets db;
    let has_messages := match db_seek d (str "M/") with (k, _) :: _ => starts_with (str "M/") k | [] => false end in
    actors ← CollectActors d (scan d (str "U/") (str "U/")) 0;
    require (Bool.eqb has_messages (negb (bool_decide (actors = [])))) kInvalidRecord
      (str "message and actor index disagree");;
    mret (MkActors kSucceeded actors has_messages [])).

Definition AcquireRelayOwnership (s : Store D) : Store D * bool :=
  (set_relay_owned true s, negb (relay_owned s)).
Definition ReleaseRelayOwnership (s : Store D) : Store D := set_relay_owned false s.

Definition MarkEventsPublished (ids : list (list Z)) : Store D → Store D * MutationResult :=
  Call mutation_failure (
    require (Z.of_nat (length ids) <=? 256) kInvalidArgument (str "too many local publication results");;
    CheckEventIds ids;;
    d ← gets db;
    let present := filter (λ id, is_Some (db_get d (EventKey id))) (ordered_ids ids) in
    match present with
    | [] => mret (MkMutation kSucceeded 0 [])
    | _ =>
        let rows := Z.of_nat (length present) in
        Write ((λ id, (EventKey id, None)) <$> present) false;;
        EraseIndex present;;
        modify (λ s, set_pending_events (pending_events s -₆₄ rows) s);;
        count publications 1;;
        mret (MkMutation kSucceeded rows [])
    end).

(** [Check] of a flush. *)
Definition CheckFlush (failed : option (list Z)) : M unit :=
  match failed with
  | None => mret tt
  | Some reason => throw (EFailure kStorageError (str "local engine: " ++ reason))
  end.
(** A failed flush poisons the store. *)
Definition PoisonUnflushed (failed : option (list Z)) : M unit :=
  match failed with None => mret tt | Some _ => modify (set_poisoned true) end.

Definition SyncPublicationProgress : Store D → Store D * MutationResult :=
  Call mutation_failure (
    result ← FlushWAL;
    PoisonUnflushed result;;
    CheckFlush result;;
    mret (MkMutation kSucceeded 0 [])).

Definition SyncPublicationProgressIfDirty : Store D → Store D * MutationResult :=
  Call mutation_failure (
    s ← gets (λ s, s);
    let generation := stats s publications in
    if publication_sync_initialized s && (generation =? synced_publication_generation s) then
      mret (MkMutation kSucceeded 0 [])
    else
      result ← FlushWAL;
      PoisonUnflushed result;;
      CheckFlush result;;
      modify (λ s, set_publication_sync_initialized true (set_synced_publication_generation generation s));;
      mret (MkMutation kSucceeded 1 [])).

(** ** Opening and closing *)

Definition ValidConfig : bool :=
  negb (bempty (storage_identity options)) && (bsize (storage_identity options) <=? 256) &&
  IsValidTopic (message_events_topic options) && (0 <? first_message_id options) &&
  (first_message_id options <? 2 ^ 63 - 1 - 4096) &&
  (1024 * 1024 <=? block_cache_bytes options) && (block_cache_bytes options <=? 1024 * 1024 * 1024) &&
  (0 <? max_pending_events options) && (max_pending_events options <=? 1000000) &&
  negb (bool_decide (initial_user_ids options = [])) &&
  (Z.of_nat (length (initial_user_ids options)) <=? 100000) &&
  (bsize (identity_policy options) <=? 256) &&
  bool_decide (identity_policy options =
    if resolve_identity options then str "mysql-8.0.40-unicode-ci-padspace-v1" else str "fixture-raw-bytes-v1") &&
  forallb (λ id, 0 <? id) (initial_user_ids options) && bool_decide (NoDup (initial_user_ids options)).

(** The identities of the pending events in the engine. *)
Definition pending_ids (d : D) : list (list Z) := (λ e, drop 2 e.1) <$> scan d (str "E/") (str "E/").

(** The constructor after the directory has been opened, on what the engine
    recovered. *)
Definition Recover (d : D) : Store D * (Exn + unit) :=
  let locks := if exact_user_locking options then list_to_set (initial_user_ids options) else ∅ in
  (require ValidConfig kInvalidArgument (str "invalid local store configuration");;
   high ← Get HighKey;
   (match high with
    | None => Write [(HighKey, Some (Number (first_message_id options - 1)))] true
    | Some _ => mret tt
    end);;
   last ← ParseNumber (default (Number (first_message_id options - 1)) high);
   require ((first_message_id options - 1 <=? last) && (last <? 2 ^ 63 - 1 - 4096)) kInvalidRecord
     (str "invalid local MID high-water mark");;
   modify (λ s, set_next_id (last + 1) (set_reserved_end last s));;
   d ← gets db;
   let ids := pending_ids d in
   let fits := Z.of_nat (length ids) <=? max_pending_events options in
   modify (λ s, set_pending_events (Z.of_nat (length ids))
     (set_pending_index_enabled (pending_event_index options && fits)
        (set_pending_index
           (if pending_event_index options && fits then list_to_map ((λ id, (id, true)) <$> ids) else ∅) s)));;
   result ← FlushWAL;
   CheckFlush result)
  (MkStore d true [d] false false false 0 false ∅ [] 0 0 locks 0 false 0 (λ _, 0)).

(** [closed] is the result of [DB::Close]. *)
Definition Shutdown (closed : bool) (s : Store D) : Store D * bool :=
  let s := set_closing true s in
  if negb (db_open s) then (s, negb (poisoned s))
  else
    match FlushWAL s with
    | (s, inr failed) =>
        (set_db_open false s, bool_decide (failed = None) && closed && negb (poisoned s))
    | (s, inl _) => (set_db_open false s, false)
    end.

End Store.
