(* ===== verification/LocalStoreKeys.v ===== *)
(** * The keys of the local store

    Facts on the encodings of [LocalPrivateStore]: numbers written in fixed-width
    hexadecimal are ordered like the numbers and read back, the families of keys do
    not overlap, and the keys with the prefix of a scan are those of one family. *)
From Stdlib Require Import ZArith Lia String.
From stdpp Require Import base list numbers sorting option gmap.
From S2P Require Import Prelude ByteStrings MessageTypes KeyValueEngine DomainEvents LocalPrivateStore.

Local Open Scope Z_scope.

#[global] Arguments Hex : simpl never.
#[global] Arguments Number : simpl never.

(** ** Digits *)

(** The [k] lowest digits of [n] in base [b], the most significant first. *)
Fixpoint base_digits (b : Z) (k : nat) (n : Z) : list Z :=
  match k with
  | O => []
  | S k => base_digits b k (n `div` b) ++ [n `mod` b]
  end.

Lemma length_base_digits b k n : length (base_digits b k n) = k.
Proof. revert n. induction k as [|k IH]; intros n; [done|]. cbn. rewrite length_app, IH. cbn. lia. Qed.

Lemma base_digits_range b k n : 0 < b → Forall (λ x, 0 ≤ x < b) (base_digits b k n).
Proof.
  intros Hb. revert n. induction k as [|k IH]; intros n; [constructor|].
  cbn. apply Forall_app. split; [apply IH|]. repeat constructor; by apply Z.mod_pos_bound.
Qed.

Lemma base_digits_fold b k n :
  0 < b → 0 ≤ n < b ^ Z.of_nat k → foldl (λ v x, b * v + x) 0 (base_digits b k n) = n.
Proof.
  intros Hb. revert n. induction k as [|k IH]; intros n Hn; [cbn in *; lia|].
  cbn [base_digits]. rewrite foldl_app, IH; cbn.
  - symmetry. apply Z.div_mod. lia.
  - rewrite Nat2Z.inj_succ, Z.pow_succ_r in Hn by lia.
    split; [apply Z.div_pos; lia|]. apply Z.div_lt_upper_bound; lia.
Qed.

(** Comparing fixed-width digits compares the numbers. *)
Lemma blt_snoc a b x y :
  length a = length b → blt (a ++ [x]) (b ++ [y]) ↔ blt a b ∨ a = b ∧ x < y.
Proof.
  revert b. induction a as [|c a IH]; intros [|d b] Hl; try done; cbn.
  - rewrite blt_cons. unfold blt. cbn. naive_solver lia.
  - rewrite !blt_cons, IH by (cbn in Hl; lia). split.
    + intros [?|[-> [?|[-> ?]]]]; auto.
    + intros [[?|[-> ?]]|[[= -> ->] ?]]; auto.
Qed.

Lemma base_digits_lt b k m n :
  0 < b → 0 ≤ m → m < n → n < b ^ Z.of_nat k → blt (base_digits b k m) (base_digits b k n).
Proof.
  intros Hb. revert m n. induction k as [|k IH]; intros m n Hm Hmn Hn; [cbn in Hn; lia|].
  cbn. apply blt_snoc; [by rewrite !length_base_digits|].
  rewrite Nat2Z.inj_succ, Z.pow_succ_r in Hn by lia.
  pose proof (Z.div_mod m b ltac:(lia)). pose proof (Z.div_mod n b ltac:(lia)).
  pose proof (Z.mod_pos_bound m b Hb). pose proof (Z.mod_pos_bound n b Hb).
  destruct (Z.lt_trichotomy (m `div` b) (n `div` b)) as [?|[?|?]].
  - left. apply IH; [apply Z.div_pos; lia|done|]. apply Z.div_lt_upper_bound; lia.
  - right. split; [by f_equal|]. nia.
  - nia.
Qed.

Lemma hex_loop_digits k n acc : 0 ≤ n → hex_loop k n acc = (hex_digit <$> base_digits 16 k n) ++ acc.
Proof.
  revert n acc. induction k as [|k IH]; intros n acc Hn; [done|]. cbn [hex_loop base_digits].
  rewrite IH by by apply Z.shiftr_nonneg. rewrite fmap_app, <- app_assoc. cbn.
  change 15 with (Z.ones 4). rewrite Z.land_ones, Z.shiftr_div_pow2 by lia. done.
Qed.

Lemma number_loop_digits k n acc : 0 ≤ n → number_loop k n acc = base_digits 256 k n ++ acc.
Proof.
  revert n acc. induction k as [|k IH]; intros n acc Hn; [done|]. cbn [number_loop base_digits].
  rewrite IH by by apply Z.shiftr_nonneg. rewrite <- app_assoc. cbn.
  change 255 with (Z.ones 8). rewrite Z.land_ones, Z.shiftr_div_pow2 by lia. done.
Qed.

Lemma Hex_digits n : 0 ≤ n → Hex n = hex_digit <$> base_digits 16 16 n.
Proof. intros Hn. unfold Hex. by rewrite hex_loop_digits, app_nil_r. Qed.

Lemma length_Hex n : length (Hex n) = 16%nat.
Proof.
  unfold Hex. assert (H : ∀ k n acc, length (hex_loop k n acc) = (k + length acc)%nat).
  { induction k as [|k IH]; intros; [done|]. cbn. rewrite IH. cbn. lia. }
  by rewrite H.
Qed.

Lemma length_Number n : length (Number n) = 8%nat.
Proof.
  unfold Number. assert (H : ∀ k n acc, length (number_loop k n acc) = (k + length acc)%nat).
  { induction k as [|k IH]; intros; [done|]. cbn. rewrite IH. cbn. lia. }
  by rewrite H.
Qed.

Lemma hex_digit_lt x y : 0 ≤ x → x < y → y < 16 → hex_digit x < hex_digit y.
Proof. unfold hex_digit. intros. destruct (Z.ltb_spec x 10), (Z.ltb_spec y 10); lia. Qed.

Lemma blt_hex a b :
  Forall (λ x, 0 ≤ x < 16) a → Forall (λ x, 0 ≤ x < 16) b → blt a b →
  blt (hex_digit <$> a) (hex_digit <$> b).
Proof.
  revert b. induction a as [|x a IH]; intros [|y b]; try done. cbn.
  intros [? ?]%list.Forall_cons [? ?]%list.Forall_cons. rewrite !blt_cons.
  intros [?|[-> ?]]; [left; apply hex_digit_lt; lia|right; auto].
Qed.

Lemma Hex_lt m n : is_u64 m → is_u64 n → m < n → blt (Hex m) (Hex n).
Proof.
  unfold is_u64. intros Hm Hn Hlt. rewrite !Hex_digits by lia.
  apply blt_hex; [apply base_digits_range; lia..|]. apply base_digits_lt; lia.
Qed.

Lemma Hex_blt m n : is_u64 m → is_u64 n → blt (Hex m) (Hex n) ↔ m < n.
Proof.
  intros Hm Hn. split; [|by apply Hex_lt]. intros Hb.
  destruct (Z.lt_trichotomy m n) as [?|[->|?]]; [done|by apply blt_irrefl in Hb|].
  destruct (blt_irrefl (Hex m)). etrans; [exact Hb|]. by apply Hex_lt.
Qed.

Lemma Hex_inj m n : is_u64 m → is_u64 n → Hex m = Hex n → m = n.
Proof.
  intros Hm Hn E. destruct (Z.lt_trichotomy m n) as [H|[H|H]]; [|done|];
    apply Hex_lt in H; try done; rewrite E in H; by apply blt_irrefl in H.
Qed.

Lemma Hex_range n : 0 ≤ n → Forall (λ c, 48 ≤ c ≤ 102) (Hex n).
Proof.
  intros Hn. rewrite Hex_digits by done. apply Forall_fmap.
  eapply list.Forall_impl; [apply base_digits_range; lia|]. intros x Hx. cbn in Hx |- *. unfold hex_digit.
  destruct (Z.ltb_spec x 10); lia.
Qed.

Lemma Number_inj m n : is_u64 m → is_u64 n → Number m = Number n → m = n.
Proof.
  unfold is_u64, Number. intros Hm Hn. rewrite !number_loop_digits, !app_nil_r by lia. intros E.
  rewrite <- (base_digits_fold 256 8 m), <- (base_digits_fold 256 8 n) by lia. by rewrite E.
Qed.

Section Reading.
Context {D : Type}.
Implicit Types s : Store D.

Lemma bind_ok {A B} (m : M D A) (f : A → M D B) s s' x :
  m s = (s', inr x) → (m ≫= f) s = f x s'.
Proof. unfold mbind, M_bind. by intros ->. Qed.

Lemma bind_err {A B} (m : M D A) (f : A → M D B) s s' e :
  m s = (s', inl e) → (m ≫= f) s = (s', inl e).
Proof. unfold mbind, M_bind. by intros ->. Qed.

Lemma require_ok b st t s : b = true → require b st t s = (s, inr tt).
Proof. by intros ->. Qed.

Lemma lor_add n k x : 0 ≤ n → 0 ≤ k → 0 ≤ x < 2 ^ k → Z.lor (Z.shiftl n k) x = 2 ^ k * n + x.
Proof.
  intros Hn Hk Hx. rewrite Z.shiftl_mul_pow2 by lia.
  assert (Hz : Z.land (n * 2 ^ k) x = 0).
  { apply Z.bits_inj'. intros i Hi. rewrite Z.land_spec, Z.bits_0.
    destruct (Z.ltb_spec i k); [rewrite Z.mul_pow2_bits_low by done; done|].
    destruct (decide (x = 0)) as [->|]; [by rewrite Z.bits_0, andb_false_r|].
    rewrite (Z.bits_above_log2 x i), andb_false_r; [done|lia|]. apply Z.log2_lt_pow2; [lia|].
    eapply Z.lt_le_trans; [apply Hx|]. apply Z.pow_le_mono_r; lia. }
  rewrite <- Z.lxor_lor, <- Z.add_nocarry_lxor by done. ring.
Qed.

(** Folding digits stays below the power of their number. *)
Lemma fold_digits_bound b ds v :
  0 < b → Forall (λ x, 0 ≤ x < b) ds → 0 ≤ v →
  v ≤ foldl (λ v x, b * v + x) v ds < b ^ Z.of_nat (length ds) * (v + 1).
Proof.
  intros Hb. revert v. induction ds as [|x ds IH]; intros v Hf Hv; [cbn; lia|].
  apply list.Forall_cons in Hf as [Hx Hf]. cbn [foldl length].
  destruct (IH (b * v + x)) as [H1 H2]; [done|nia|]. rewrite Nat2Z.inj_succ, Z.pow_succ_r by lia.
  assert (0 < b ^ Z.of_nat (length ds)) by (apply Z.pow_pos_nonneg; lia). split; nia.
Qed.

Lemma UnhexLoop_digits ds n s :
  Forall (λ x, 0 ≤ x < 16) ds → 0 ≤ n → 16 ^ Z.of_nat (length ds) * (n + 1) ≤ 2 ^ 64 →
  UnhexLoop (hex_digit <$> ds) n s = (s, inr (foldl (λ v x, 16 * v + x) n ds)).
Proof.
  revert n. induction ds as [|x ds IH]; intros n Hf Hn Hb; [done|].
  apply list.Forall_cons in Hf as [Hx Hf]. rewrite fmap_cons. cbn [UnhexLoop foldl].
  assert (Hp : 0 < 16 ^ Z.of_nat (length ds)) by (apply Z.pow_pos_nonneg; lia).
  cbn [length] in Hb. rewrite Nat2Z.inj_succ, Z.pow_succ_r in Hb by lia.
  assert (Hd : ((48 <=? hex_digit x) && (hex_digit x <=? 57) ||
                (97 <=? hex_digit x) && (hex_digit x <=? 102)) = true ∧
               (if hex_digit x <=? 57 then hex_digit x - 48 else hex_digit x - 97 + 10) = x).
  { unfold hex_digit. destruct (Z.ltb_spec x 10).
    - rewrite (proj2 (Z.leb_le 48 (48 + x))), (proj2 (Z.leb_le (48 + x) 57)) by lia. split; [done|lia].
    - rewrite (proj2 (Z.leb_gt (87 + x) 57)), (proj2 (Z.leb_le 97 (87 + x))),
        (proj2 (Z.leb_le (87 + x) 102)), andb_false_r by lia. split; [done|lia]. }
  destruct Hd as [Hd1 Hd2]. rewrite Hd2. erewrite bind_ok by by apply require_ok.
  rewrite Z.shiftl_mul_pow2 by lia. rewrite u64_small by (unfold is_u64; nia).
  rewrite <- Z.shiftl_mul_pow2, (lor_add n 4 x) by lia. change (2 ^ 4) with 16.
  apply IH; [done|lia|nia].
Qed.

Lemma Unhex_Hex n s : is_u64 n → Unhex (Hex n) s = (s, inr n).
Proof.
  unfold is_u64. intros Hn. unfold Unhex, bsize.
  erewrite bind_ok by (apply require_ok; by rewrite length_Hex). rewrite Hex_digits by lia.
  rewrite UnhexLoop_digits; [|apply base_digits_range; lia|lia|rewrite length_base_digits; lia].
  by rewrite base_digits_fold by lia.
Qed.

Lemma ParseNumber_Number n s : is_u64 n → ParseNumber (Number n) s = (s, inr n).
Proof.
  unfold is_u64. intros Hn. unfold ParseNumber, bsize.
  erewrite bind_ok by (apply require_ok; by rewrite length_Number). unfold mret, M_ret, Number. rewrite number_loop_digits, app_nil_r by lia.
  assert (H : ∀ ds v, Forall (λ x, 0 ≤ x < 256) ds → 0 ≤ v → 256 ^ Z.of_nat (length ds) * (v + 1) ≤ 2 ^ 64 →
    foldl (λ n c, Z.lor (u64 (Z.shiftl n 8)) c) v ds = foldl (λ v x, 256 * v + x) v ds).
  { induction ds as [|x ds IH]; intros v Hf Hv Hb; [done|].
    apply list.Forall_cons in Hf as [Hx Hf]. cbn [length] in Hb.
    rewrite Nat2Z.inj_succ, Z.pow_succ_r in Hb by lia.
    assert (Hp : 0 < 256 ^ Z.of_nat (length ds)) by (apply Z.pow_pos_nonneg; lia). cbn [foldl].
    rewrite Z.shiftl_mul_pow2 by lia. rewrite u64_small by (unfold is_u64; nia).
    rewrite <- Z.shiftl_mul_pow2, (lor_add v 8 x) by lia. change (2 ^ 8) with 256.
    apply IH; [done|lia|nia]. }
  rewrite H; [|apply base_digits_range; lia|lia|rewrite length_base_digits; lia].
  by rewrite base_digits_fold by lia.
Qed.

End Reading.

(** ** Families *)

(** A key by its family.  [KH] is the index of a dialog, its users in order. *)
Inductive Key :=
| KM (mid : Z) | KI (from : Z) (cid : list Z) | KK (mid : Z) | KH (a b mid : Z) | KP (receiver mid : Z)
| KC (actor peer : Z) | KN (receiver : Z) | KD (receiver peer : Z) | KQ (receiver : Z) | KU (actor : Z)
| KR (receiver peer : Z) | KE (id : list Z) | KA (id : list Z) | KF (id : list Z) | KHigh.
#[export] Instance Key_eq_dec : EqDecision Key.
Proof. solve_decision. Defined.

Definition enc (k : Key) : list Z :=
  match k with
  | KM mid => MessageKey mid
  | KI from cid => CidKey from cid
  | KK mid => CanonicalKey mid
  | KH a b mid => DialogPrefix a b ++ Hex mid
  | KP r mid => PendingPrefix r ++ Hex mid
  | KC a b => ConversationPrefix a ++ Hex b
  | KN r => UnreadKey r
  | KD r p => DialogUnreadKey r p
  | KQ r => PendingCountKey r
  | KU a => ActorKey a
  | KR r p => PeerPrefix r ++ Hex p
  | KE id => EventKey id
  | KA id => EventCopyKey id
  | KF id => FailedKey id
  | KHigh => HighKey
  end.

Definition wf_key (k : Key) : Prop :=
  match k with
  | KM n | KK n | KN n | KQ n | KU n | KI n _ => is_u64 n
  | KP m n | KC m n | KD m n | KR m n => is_u64 m ∧ is_u64 n
  | KH a b n => is_u64 a ∧ is_u64 b ∧ is_u64 n ∧ a < b
  | KE _ | KA _ | KF _ | KHigh => True
  end.

Lemma Hex_app_inj m n x y :
  is_u64 m → is_u64 n → Hex m ++ x = Hex n ++ y → m = n ∧ x = y.
Proof.
  intros Hm Hn [E ->]%app_inj_1; [|by rewrite !length_Hex]. split; [by apply Hex_inj|done].
Qed.

(** Splits equations between encoded keys of the same family. *)
Ltac split_hex H :=
  repeat match type of H with
  | Hex _ ++ _ = Hex _ ++ _ => apply Hex_app_inj in H as [? H]; [|done..]
  | Hex _ = Hex _ => apply Hex_inj in H; [|done..]
  | str _ ++ _ = str _ ++ _ => apply app_inv_head in H
  end.

Lemma DialogPrefix_ordered a b : a < b → DialogPrefix a b = str "H/" ++ Hex a ++ str "/" ++ Hex b ++ str "/".
Proof. intros ?. unfold DialogPrefix. by rewrite Z.min_l, Z.max_r by lia. Qed.

Lemma DialogPrefix_sym a b : DialogPrefix a b = DialogPrefix b a.
Proof. unfold DialogPrefix. by rewrite Z.min_comm, Z.max_comm. Qed.

Lemma enc_dialog a b mid :
  a ≠ b → DialogPrefix a b ++ Hex mid = enc (KH (Z.min a b) (Z.max a b) mid).
Proof.
  intros ?. cbn [enc]. unfold DialogPrefix.
  by rewrite (Z.min_l (Z.min a b)), (Z.max_r (Z.min a b)) by lia.
Qed.

Lemma enc_inj k k' : wf_key k → wf_key k' → enc k = enc k' → k = k'.
Proof.
  intros Hk Hk' E. destruct k, k'; cbn in Hk, Hk'; try discriminate E; try done; destruct_and?;
    cbn [enc] in E; rewrite ?DialogPrefix_ordered in E by done;
    unfold MessageKey, CidKey, CanonicalKey, PendingPrefix, ConversationPrefix, UnreadKey, DialogUnreadKey,
      PendingCountKey, ActorKey, PeerPrefix, EventKey, EventCopyKey, FailedKey in E;
    rewrite <- ?app_assoc in E; split_hex E; by subst.
Qed.

(** The keys a scan finds are those of one family and one owner. *)
Lemma prefix_pending r k :
  is_u64 r → wf_key k → PendingPrefix r `prefix_of` enc k → ∃ mid, k = KP r mid ∧ is_u64 mid.
Proof.
  intros Hr Hk [t E]. destruct k; try discriminate E. cbn in Hk. destruct_and?. cbn [enc] in E.
  unfold PendingPrefix in E. rewrite <- ?app_assoc in E. split_hex E. subst. eauto.
Qed.

Lemma prefix_dialog a b k :
  is_u64 a → is_u64 b → a < b → wf_key k → DialogPrefix a b `prefix_of` enc k →
  ∃ mid, k = KH a b mid ∧ is_u64 mid.
Proof.
  intros Ha Hb Hab Hk [t E]. destruct k; try discriminate E. cbn in Hk. destruct_and?. cbn [enc] in E.
  rewrite !DialogPrefix_ordered in E by done. rewrite <- ?app_assoc in E. split_hex E. subst. eauto.
Qed.

Lemma prefix_conversation a k :
  is_u64 a → wf_key k → ConversationPrefix a `prefix_of` enc k → ∃ p, k = KC a p ∧ is_u64 p.
Proof.
  intros Hr Hk [t E]. destruct k; try discriminate E. cbn in Hk. destruct_and?. cbn [enc] in E.
  unfold ConversationPrefix in E. rewrite <- ?app_assoc in E. split_hex E. subst. eauto.
Qed.

Lemma prefix_peer r k :
  is_u64 r → wf_key k → PeerPrefix r `prefix_of` enc k → ∃ p, k = KR r p ∧ is_u64 p.
Proof.
  intros Hr Hk [t E]. destruct k; try discriminate E. cbn in Hk. destruct_and?. cbn [enc] in E.
  unfold PeerPrefix in E. rewrite <- ?app_assoc in E. split_hex E. subst. eauto.
Qed.

Lemma prefix_event k : wf_key k → str "E/" `prefix_of` enc k → ∃ id, k = KE id.
Proof. intros _ [t E]. destruct k; try discriminate E. eauto. Qed.
Lemma prefix_failed k : wf_key k → str "F/" `prefix_of` enc k → ∃ id, k = KF id.
Proof. intros _ [t E]. destruct k; try discriminate E. eauto. Qed.
Lemma prefix_count k : wf_key k → str "Q/" `prefix_of` enc k → ∃ r, k = KQ r ∧ is_u64 r.
Proof. intros Hk [t E]. destruct k; try discriminate E. cbn in Hk. eauto. Qed.
Lemma prefix_actor k : wf_key k → str "U/" `prefix_of` enc k → ∃ a, k = KU a ∧ is_u64 a.
Proof. intros Hk [t E]. destruct k; try discriminate E. cbn in Hk. eauto. Qed.
Lemma prefix_message k : wf_key k → str "M/" `prefix_of` enc k → ∃ mid, k = KM mid ∧ is_u64 mid.
Proof. intros Hk [t E]. destruct k; try discriminate E. cbn in Hk. eauto. Qed.
