(* ===== verification/LocalStoreModel.v ===== *)
(** * What the local store holds

    The abstract contents of the store ([Contents]: messages by identifier, their
    canonical identities, the newest message of each conversation, pending, copied
    and failed events) and the engine state that represents them ([expected], [Rep]):
    every index and every counter is a function of the messages. *)
From Stdlib Require Import ZArith Lia String.
From stdpp Require Import base list numbers sorting option gmap.
From S2P Require Import Prelude ByteStrings MessageTypes KeyValueEngine DomainEvents LocalPrivateStore LocalStoreKeys.

Local Open Scope Z_scope.

(** ** Counting messages *)

Definition cnt (P : MessageView → bool) (ms : gmap Z MessageView) : Z := total (λ _ m, Z.b2z (P m)) ms.

Section Counting.
Implicit Types (P Q : MessageView → bool) (ms : gmap Z MessageView) (m : MessageView).

Lemma cnt_nonneg P ms : 0 ≤ cnt P ms.
Proof. apply total_nonneg. intros _ m _. by destruct (P m). Qed.

Lemma cnt_new P ms k m : ms !! k = None → cnt P (<[k := m]> ms) = Z.b2z (P m) + cnt P ms.
Proof. apply total_insert_new. Qed.

Lemma cnt_update P ms k m m' :
  ms !! k = Some m → cnt P (<[k := m']> ms) = cnt P ms - Z.b2z (P m) + Z.b2z (P m').
Proof. intros Hk. unfold cnt. rewrite (total_insert_old _ _ _ _ _ Hk). lia. Qed.

Lemma cnt_ext P Q ms : (∀ k m, ms !! k = Some m → P m = Q m) → cnt P ms = cnt Q ms.
Proof. intros HPQ. apply total_ext. intros k m Hk. by rewrite (HPQ k m). Qed.

Lemma cnt_split P Q ms : cnt P ms = cnt (λ m, P m && Q m) ms + cnt (λ m, P m && negb (Q m)) ms.
Proof. unfold cnt. rewrite <- total_plus. apply total_ext. intros k m _. by destruct (P m), (Q m). Qed.

Lemma cnt_le P Q ms : (∀ m, P m = true → Q m = true) → cnt P ms ≤ cnt Q ms.
Proof.
  intros HPQ. rewrite (cnt_split Q P). pose proof (cnt_nonneg (λ m, Q m && negb (P m)) ms).
  rewrite (cnt_ext P (λ m, Q m && P m)); [lia|]. intros k m _. specialize (HPQ m).
  destruct (P m); [by rewrite HPQ|by rewrite andb_false_r].
Qed.

Lemma cnt_pos P ms : 0 < cnt P ms ↔ ∃ k m, ms !! k = Some m ∧ P m = true.
Proof.
  split.
  - intros Hpos. destruct (decide (map_Exists (λ _ m, P m = true) ms)) as [(k & m & ? & ?)|Hn]; [eauto|].
    unfold cnt in Hpos. rewrite total_zero in Hpos; [lia|]. intros k m Hk. destruct (P m) eqn:E; [|done].
    destruct Hn. by exists k, m.
  - intros (k & m & Hk & Hm).
    pose proof (total_lookup_le (λ _ m, Z.b2z (P m)) ms k m) as Hle. cbn in Hle. rewrite Hm in Hle.
    unfold cnt. cbn in Hle. enough (1 ≤ total (λ _ m, Z.b2z (P m)) ms) by lia. apply Hle; [|done].
    intros k' m' _. by destruct (P m').
Qed.

Lemma cnt_zero P ms : cnt P ms = 0 ↔ ∀ k m, ms !! k = Some m → P m = false.
Proof.
  split.
  - intros Hz k m Hk. destruct (P m) eqn:E; [|done].
    assert (0 < cnt P ms) by (apply cnt_pos; eauto). lia.
  - intros Hf. apply total_zero. intros k m Hk. by rewrite (Hf k m).
Qed.

Lemma cnt_size P ms : cnt P ms ≤ Z.of_nat (base.size ms).
Proof.
  rewrite <- total_size. rewrite (total_ext (λ _ _, 1) (λ _ m, Z.b2z (P m) + Z.b2z (negb (P m)))).
  - rewrite total_plus. pose proof (cnt_nonneg (λ m, negb (P m)) ms). unfold cnt in *. lia.
  - intros k m _. by destruct (P m).
Qed.

Lemma cnt_fmap P (f : MessageView → MessageView) ms : cnt P (f <$> ms) = cnt (λ m, P (f m)) ms.
Proof.
  unfold cnt. induction ms as [|k m ms Hk IH] using map_ind; [by rewrite fmap_empty|].
  rewrite fmap_insert, !total_insert_new, IH; [done|done|]. by rewrite lookup_fmap, Hk.
Qed.

(** Keys between one and a bound. *)
Lemma size_bounded ms (h : Z) : 0 ≤ h → (∀ k m, ms !! k = Some m → 1 ≤ k ≤ h) → Z.of_nat (base.size ms) ≤ h.
Proof.
  intros Hh Hb. assert (dom ms ⊆ list_to_set (C := gset Z) (seqZ 1 h)) as Hsub.
  { intros k [m Hk]%elem_of_dom. apply elem_of_list_to_set, elem_of_seqZ. specialize (Hb k m Hk). lia. }
  apply subseteq_size in Hsub. rewrite size_dom in Hsub.
  assert (base.size (list_to_set (C := gset Z) (seqZ 1 h)) ≤ length (seqZ 1 h))%nat as Hle'.
  { rewrite size_list_to_set by apply NoDup_seqZ. done. }
  rewrite length_seqZ in Hle'. lia.
Qed.

End Counting.

(** ** Contents *)

Record Contents := MkContents {
  msgs : gmap Z MessageView;
  canon : gmap Z (list Z);               (* canonical identity of a message *)
  cids : gmap (Z * list Z) Z;            (* message of a sender and an identity *)
  newest : gmap (Z * Z) Z;               (* newest message of a conversation *)
  pend : gmap (list Z) (list Z);         (* pending events *)
  copies : gmap (list Z) (list Z);       (* every event *)
  failed : gmap (list Z) (list Z);       (* failed events *)
  high : Z;
}.

Definition is_unread (m : MessageView) : bool :=
  bool_decide (delivery_state m = kPending) || bool_decide (delivery_state m = kReceiverConfirmed).
Definition sent_to (r : Z) (m : MessageView) : bool := to_user_id m =? r.
Definition sent (p r : Z) (m : MessageView) : bool := (from_user_id m =? p) && (to_user_id m =? r).
Definition takes_part (a : Z) (m : MessageView) : bool := (from_user_id m =? a) || (to_user_id m =? a).
Definition unread_of (r : Z) (m : MessageView) : bool := sent_to r m && is_unread m.
Definition unread_from (p r : Z) (m : MessageView) : bool := sent p r m && is_unread m.
Definition pending_of (r : Z) (m : MessageView) : bool :=
  sent_to r m && bool_decide (delivery_state m = kPending).

(** A flag in the engine, and a counter that is absent at zero. *)
Definition flag (b : bool) : option (list Z) := if b then Some [] else None.
Definition counter (n : Z) : option (list Z) := if n =? 0 then None else Some (Number n).

Section Rep.
Context {D : Type} `{EngineLaws D} `{JsonLaws}.

Definition record_text (m : MessageView) : list Z := default [] (json_dump (EncodeRecord m)).

(** The value of every key. *)
Definition expected (A : Contents) (k : Key) : option (list Z) :=
  match k with
  | KM mid => record_text <$> msgs A !! mid
  | KI from cid => Number <$> cids A !! (from, cid)
  | KK mid => canon A !! mid
  | KH a b mid => flag (match msgs A !! mid with Some m => between m a b | None => false end)
  | KP r mid => flag (match msgs A !! mid with Some m => pending_of r m | None => false end)
  | KC a p => Number <$> newest A !! (a, p)
  | KN r => if cnt (sent_to r) (msgs A) =? 0 then None else Some (Number (cnt (unread_of r) (msgs A)))
  | KD r p => counter (cnt (unread_from p r) (msgs A))
  | KQ r => counter (cnt (pending_of r) (msgs A))
  | KU a => flag (negb (cnt (takes_part a) (msgs A) =? 0))
  | KR r p => flag (negb (cnt (sent p r) (msgs A) =? 0))
  | KE id => pend A !! id
  | KA id => copies A !! id
  | KF id => failed A !! id
  | KHigh => Some (Number (high A))
  end.

Definition Rep (d : D) (A : Contents) : Prop :=
  ∀ k v, db_get d k = Some v ↔ ∃ key, wf_key key ∧ k = enc key ∧ expected A key = Some v.

Lemma rep_get d A key : Rep d A → wf_key key → db_get d (enc key) = expected A key.
Proof.
  intros HR Hk. apply option_eq. intros v. rewrite (HR (enc key) v). split; [|eauto].
  intros (key' & Hk' & E & Hv). by apply enc_inj in E as ->.
Qed.

(** Operations by families. *)
Fixpoint apply_k (f : Key → option (list Z)) (ops : list (Key * option (list Z))) : Key → option (list Z) :=
  match ops with
  | [] => f
  | (key, v) :: ops => apply_k (λ k, if decide (k = key) then v else f k) ops
  end.

Definition enc_ops (ops : list (Key * option (list Z))) : list WriteOp := (λ op, (enc op.1, op.2)) <$> ops.

Lemma apply_enc m f ops :
  Forall (λ op, wf_key op.1) ops →
  (∀ k v, m k = Some v ↔ ∃ key, wf_key key ∧ k = enc key ∧ f key = Some v) →
  ∀ k v, apply_ops m (enc_ops ops) k = Some v ↔
         ∃ key, wf_key key ∧ k = enc key ∧ apply_k f ops key = Some v.
Proof.
  revert m f. induction ops as [|[key w] ops IH]; intros m f Hwf Hmf; [done|].
  apply list.Forall_cons in Hwf as [Hkey Hwf]. cbn. apply IH; [done|]. intros k v. case_decide as Hk.
  - subst k. split.
    + intros ->. exists key. by rewrite decide_True.
    + intros (key' & Hk' & E & Hv). apply enc_inj in E as <-; [|done..]. by rewrite decide_True in Hv.
  - rewrite Hmf. split; intros (key' & Hk' & -> & Hv); exists key'; repeat split; try done.
    + rewrite decide_False; [done|]. by intros ->.
    + rewrite decide_False in Hv; [done|]. by intros ->.
Qed.

Lemma rep_write d A A' ops :
  Rep d A → Forall (λ op, wf_key op.1) ops →
  (∀ key, wf_key key → expected A' key = apply_k (expected A) ops key) →
  Rep (db_write d (enc_ops ops)) A'.
Proof.
  intros HR Hwf Heq k v. rewrite get_write. rewrite (apply_enc _ (expected A)) by done.
  split; intros (key & Hk & -> & Hv); exists key; repeat split; try done.
  - by rewrite Heq.
  - by rewrite <- Heq.
Qed.

Lemma apply_k_app f ops ops' k : apply_k f (ops ++ ops') k = apply_k (apply_k f ops) ops' k.
Proof. revert f. induction ops as [|[key v] ops IH]; intros f; [done|]. apply IH. Qed.

(** Contents that agree with every operation and otherwise with what was there are
    represented after the write. *)
Lemma rep_char d A A' ops :
  Rep d A → Forall (λ op, wf_key op.1) ops →
  (∀ k v, (k, v) ∈ ops → expected A' k = v) →
  (∀ k, wf_key k → k ∉ ops.*1 → expected A' k = expected A k) →
  Rep (db_write d (enc_ops ops)) A'.
Proof.
  intros HR Hwf Hin Hout. apply (rep_write d A); [done|done|]. intros key Hkey.
  assert (∀ f g ops, (∀ k v, (k, v) ∈ ops → g k = v) → (∀ k, wf_key k → k ∉ ops.*1 → g k = f k) →
    ∀ k, wf_key k → g k = apply_k f ops k) as Hchar; [|by apply Hchar].
  clear. intros f g ops. revert f. induction ops as [|[key w] ops IH]; intros f Hin Hout k Hk.
  { by apply Hout, not_elem_of_nil. }
  cbn. apply IH; [|intros k' Hwk Hk'|done].
  - intros k' v Hv. apply Hin. by right.
  - case_decide as E.
    + subst k'. apply Hin. left.
    + apply Hout; [done|]. rewrite fmap_cons. by apply not_elem_of_cons.
Qed.

Lemma enc_ops_app ops ops' : enc_ops (ops ++ ops') = enc_ops ops ++ enc_ops ops'.
Proof. apply fmap_app. Qed.

End Rep.
