(* ===== verification/LocalStoreInvariant.v ===== *)
(** * The invariant of the local store

    Well-formed contents, the states that hold them, and the reads of a store: every
    index entry leads to its record, every counter is the number of messages it
    counts.  Computations are reasoned about with a weakest precondition ([wp]) that
    has one postcondition for results and one for exceptions. *)
From Stdlib Require Import ZArith Lia String.
From stdpp Require Import base list numbers sorting option gmap.
From S2P Require Import Prelude ByteStrings MessageTypes KeyValueEngine DomainEvents LocalPrivateStore LocalStoreKeys LocalStoreModel.

Local Open Scope Z_scope.
Local Open Scope width_scope.

(** ** Weakest preconditions *)

Section WP.
Context {D : Type}.
Implicit Types s : Store D.

Definition wp {A} (m : M D A) (Q : A → Store D → Prop) (E : Exn → Store D → Prop) s : Prop :=
  match m s with (s', inr x) => Q x s' | (s', inl e) => E e s' end.

Lemma wp_ret {A} (x : A) Q E s : Q x s → wp (mret x) Q E s.
Proof. done. Qed.
Lemma wp_throw {A} e (Q : A → Store D → Prop) E s : E e s → wp (throw e) Q E s.
Proof. done. Qed.
Lemma wp_gets {A} (f : Store D → A) Q E s : Q (f s) s → wp (gets f) Q E s.
Proof. done. Qed.
Lemma wp_modify f Q E s : Q tt (f s) → wp (modify f) Q E s.
Proof. done. Qed.
Lemma wp_count c n Q E s :
  Q tt (set_stats (λ c', if decide (c' = c) then stats s c +₆₄ n else stats s c') s) → wp (count c n) Q E s.
Proof. done. Qed.

Lemma wp_bind {A B} (m : M D A) (f : A → M D B) Q E s :
  wp m (λ x, wp (f x) Q E) E s → wp (m ≫= f) Q E s.
Proof. unfold wp, mbind, M_bind. by destruct (m s) as [s' [e|x]]. Qed.

Lemma wp_mono {A} (m : M D A) (Q Q' : A → Store D → Prop) (E E' : Exn → Store D → Prop) s :
  wp m Q E s → (∀ x s', Q x s' → Q' x s') → (∀ e s', E e s' → E' e s') → wp m Q' E' s.
Proof. unfold wp. destruct (m s) as [s' [e|x]]; auto. Qed.

Lemma wp_require b st t Q E s :
  (b = true → Q tt s) → (b = false → E (EFailure st t) s) → wp (require b st t) Q E s.
Proof. unfold wp, require. destruct b; cbn; auto. Qed.

Lemma wp_json {A} (o : option A) Q E s :
  (∀ x, o = Some x → Q x s) → (o = None → E EJson s) → wp (json o) Q E s.
Proof. unfold wp, json. destruct o; cbn; auto. Qed.

(** A computation that only reads. *)
Lemma wp_value {A} (m : M D A) x Q E s : m s = (s, inr x) → Q x s → wp m Q E s.
Proof. unfold wp. by intros ->. Qed.

Lemma wp_if {A} (b : bool) (m m' : M D A) Q E s :
  (b = true → wp m Q E s) → (b = false → wp m' Q E s) → wp (if b then m else m') Q E s.
Proof. destruct b; auto. Qed.

End WP.

(** One step of a computation. *)
Ltac wps :=
  repeat match goal with
  | |- wp (_ ≫= _) _ _ _ => apply wp_bind
  | |- wp (mret _) _ _ _ => apply wp_ret
  | |- wp (throw _) _ _ _ => apply wp_throw
  | |- wp (gets _) _ _ _ => apply wp_gets
  | |- wp (modify _) _ _ _ => apply wp_modify
  | |- wp (count _ _) _ _ _ => apply wp_count
  | |- wp Notify _ _ _ => apply wp_modify
  end.

(** ** Contents *)

Definition with_high (A : Contents) (h : Z) : Contents :=
  MkContents (msgs A) (canon A) (cids A) (newest A) (pend A) (copies A) (failed A) h.
Definition with_pend (A : Contents) (p : gmap (list Z) (list Z)) : Contents :=
  MkContents (msgs A) (canon A) (cids A) (newest A) p (copies A) (failed A) (high A).

Section Invariant.
Context {D : Type} `{EngineLaws D} `{JsonLaws}.
Implicit Types (s : Store D) (A : Contents) (m : MessageView).

Record message_ok m : Prop := {
  ok_from : is_u64 (from_user_id m) ∧ from_user_id m ≠ 0;
  ok_to : is_u64 (to_user_id m) ∧ to_user_id m ≠ 0;
  ok_distinct : from_user_id m ≠ to_user_id m;
  ok_cid : client_message_id m ≠ [] ∧ bsize (client_message_id m) ≤ 64;
  ok_type : 1 ≤ message_type m ≤ 3;
  ok_content : content m ≠ [];
  ok_state : delivery_state m = kPending ∨ delivery_state m = kReceiverConfirmed ∨ delivery_state m = kRead;
  ok_created : bsize (created_at m) = 19;
  ok_text : is_Some (json_dump (EncodeRecord m));
}.

(** The text of an event that decodes. *)
Definition event_ok (t id : list Z) : Prop :=
  ∃ e, ∀ (T : Type) (s : Store T), DecodeEvent t id s = (s, inr e).
Definition failed_ok (t raw : list Z) : Prop :=
  ∃ data reason failed_at,
    json_parse t = Some data ∧ json_at data (str "event") = Some (JString raw) ∧
    json_at data (str "reason") = Some (JString reason) ∧ json_at data (str "failed_at") = Some (JString failed_at) ∧
    reason ≠ [] ∧ bsize reason ≤ 128 ∧ bsize failed_at = 19.

Record wf A : Prop := {
  wf_high : 0 ≤ high A < 2 ^ 63 - 1;
  wf_msgs : ∀ mid m, msgs A !! mid = Some m → message_id m = mid ∧ 1 ≤ mid ≤ high A ∧ message_ok m;
  wf_canon : ∀ mid, is_Some (canon A !! mid) ↔ is_Some (msgs A !! mid);
  wf_cids : ∀ f c mid, cids A !! (f, c) = Some mid ↔
    ∃ m, msgs A !! mid = Some m ∧ from_user_id m = f ∧ canon A !! mid = Some c;
  wf_newest : ∀ a p,
    match newest A !! (a, p) with
    | Some mid =>
        (∃ m, msgs A !! mid = Some m ∧ between m a p = true) ∧
        ∀ mid' m', msgs A !! mid' = Some m' → between m' a p = true → mid' ≤ mid
    | None => ∀ mid m, msgs A !! mid = Some m → between m a p = false
    end;
  wf_pend : pend A ⊆ copies A;
  wf_copies : ∀ id t, copies A !! id = Some t → event_ok t id;
  wf_failed : ∀ id t, failed A !! id = Some t →
    pend A !! id = None ∧ ∃ raw, copies A !! id = Some raw ∧ failed_ok t raw;
  wf_created : ∀ mid, is_u64 mid → is_Some (copies A !! created_id mid) ↔ is_Some (msgs A !! mid);
  wf_few : Z.of_nat (base.size (pend A)) < 2 ^ 64 - 1;
}.

(** ** States *)

(** The index of pending events with the entries of the live slots. *)
Definition slot_index (sl : list (option (list Z))) (index : gmap (list Z) bool) : gmap (list Z) bool :=
  foldr (λ slot acc, match slot with Some id => <[id := false]> acc | None => acc end) index sl.

Definition slot_ids (sl : list (option (list Z))) : list (list Z) := omap id sl.

(** Engine states that hold some contents but for events whose publication was not
    synced. *)
Definition recov (d : D) A : Prop :=
  ∃ p, pend A ⊆ p ∧ Rep d (with_pend A p) ∧ wf (with_pend A p).

Record core s A : Prop := {
  g_open : db_open s = true ∧ closing s = false;
  g_healthy : poisoned s = false;
  g_rep : Rep (db s) A;
  g_wf : wf A;
  g_high : high A = reserved_end s;
  g_next : 1 ≤ next_id s ≤ reserved_end s + 1;
  g_fresh : ∀ mid m, msgs A !! mid = Some m → mid < next_id s;
  g_recover : ∀ d, d ∈ recoverable s → recov d A;
}.

(** The counter and the index of pending events. *)
Record events_ok s (p : gmap (list Z) (list Z)) : Prop := {
  g_events : pending_events s = Z.of_nat (base.size p) + Z.of_nat (length (slots s));
  g_room : pending_events s < 2 ^ 64 - 1;
  g_slots : NoDup (slot_ids (slots s));
  g_new : ∀ id, id ∈ slot_ids (slots s) → p !! id = None;
  g_index : pending_index_enabled s = true →
    pending_index s = slot_index (slots s) ((λ _, true) <$> p);
}.

Definition good s A : Prop := core s A ∧ events_ok s (pend A).

(** A state after a failed write: what the engine holds is one of some contents. *)
Definition broken s (T : Contents → Prop) : Prop :=
  poisoned s = true ∧ ∀ d, d ∈ db s :: recoverable s → ∃ A, T A ∧ recov d A.

(** ** Reads *)

Lemma u64_user x : 1 ≤ x < 2 ^ 63 → is_u64 x.
Proof. unfold is_u64. lia. Qed.

Lemma EncodeRecord_fields m :
  EncodeRecord m =
  JObject [(str "client_message_id", JString (client_message_id m));
           (str "confirmed_at", JString (receiver_confirmed_at m));
           (str "content", JString (content m));
           (str "created_at", JString (created_at m));
           (str "from", JNumber (from_user_id m));
           (str "message_id", JNumber (message_id m));
           (str "read_at", JString (read_at m));
           (str "state", JNumber (state_number (delivery_state m)));
           (str "to", JNumber (to_user_id m));
           (str "type", JNumber (message_type m))].
Proof. reflexivity. Qed.

Lemma EncodeRecord_canonical m : is_u64 (message_id m) → message_ok m → canonical (EncodeRecord m).
Proof.
  intros Hid [[Hf _] [Ht _] _ _ Hty _ Hst _ _]. rewrite EncodeRecord_fields. cbn [canonical].
  split; [literal_sorted|]. unfold is_u64 in *.
  repeat split; try tauto; try lia; destruct Hst as [->|[->| ->]]; cbn; lia.
Qed.

(** The fields of an encoded record. *)
Lemma EncodeRecord_at m :
  json_at (EncodeRecord m) (str "message_id") = Some (JNumber (message_id m)) ∧
  json_at (EncodeRecord m) (str "client_message_id") = Some (JString (client_message_id m)) ∧
  json_at (EncodeRecord m) (str "from") = Some (JNumber (from_user_id m)) ∧
  json_at (EncodeRecord m) (str "to") = Some (JNumber (to_user_id m)) ∧
  json_at (EncodeRecord m) (str "type") = Some (JNumber (message_type m)) ∧
  json_at (EncodeRecord m) (str "content") = Some (JString (content m)) ∧
  json_at (EncodeRecord m) (str "state") = Some (JNumber (state_number (delivery_state m))) ∧
  json_at (EncodeRecord m) (str "created_at") = Some (JString (created_at m)) ∧
  json_at (EncodeRecord m) (str "confirmed_at") = Some (JString (receiver_confirmed_at m)) ∧
  json_at (EncodeRecord m) (str "read_at") = Some (JString (read_at m)).
Proof. repeat split; reflexivity. Qed.

(** A record reads back as it was written. *)
Lemma decode_record m s :
  is_u64 (message_id m) → message_id m ≠ 0 → message_ok m →
  DecodeRecord (record_text m) (message_id m) s = (s, inr m).
Proof.
  intros Hid Hnz Hok. unfold record_text. destruct (ok_text m Hok) as [t Ht]. rewrite Ht. cbn [default id].
  unfold DecodeRecord. rewrite (dump_parse _ _ (EncodeRecord_canonical m Hid Hok) Ht).
  destruct (EncodeRecord_at m) as (E1 & E2 & E3 & E4 & E5 & E6 & E7 & E8 & E9 & E10).
  destruct Hok as [[Hf Hf0] [Hto Ht0] Hd [Hc Hc64] Hty Hb Hst Hcr _].
  rewrite (bind_ok _ _ s s (EncodeRecord m)) by done. rewrite E1, E2, E3, E4, E5, E6, E7, E8, E9, E10.
  cbn [mbind option_bind as_uint64 as_uint32 as_string]. do 10 (erewrite bind_ok by reflexivity).
  rewrite !u64_small by done. rewrite !u32_small by (unfold is_u32; first [lia|destruct Hst as [->|[->| ->]]; cbn; lia]).
  assert (Hs : state_of (state_number (delivery_state m)) = delivery_state m ∧
               (state_number (delivery_state m) <=? 3) = true)
    by by destruct Hst as [->|[->| ->]].
  destruct Hs as [Hs1 Hs2]. rewrite Hs1, Hs2.
  destruct m as [mid cid from to type body state created confirmed read]. cbn in *.
  rewrite Z.eqb_refl, (proj2 (Z.eqb_neq mid 0)), (proj2 (Z.eqb_neq from 0)), (proj2 (Z.eqb_neq to 0)),
    (proj2 (Z.eqb_neq from to)), (proj2 (Z.leb_le _ 64)), (proj2 (Z.leb_le 1 type)), (proj2 (Z.leb_le type 3)),
    Hcr by lia.
  destruct cid as [|c cid]; [done|]. destruct body as [|b body]; [done|]. by erewrite bind_ok by reflexivity.
Qed.

(** A counter fits its eight bytes. *)
Lemma cnt_u64 A P : wf A → is_u64 (cnt P (msgs A)).
Proof.
  intros Hwf. pose proof (cnt_nonneg P (msgs A)). pose proof (cnt_size P (msgs A)).
  pose proof (wf_high A Hwf). unfold is_u64.
  enough (Z.of_nat (base.size (msgs A)) ≤ high A) by lia.
  apply size_bounded; [lia|]. intros k m Hk. by destruct (wf_msgs A Hwf k m Hk) as (_ & ? & _).
Qed.

(** What is read from a state that holds some contents. *)
Section Reads.
Variables (s : Store D) (A : Contents).
Hypothesis HR : Rep (db s) A.
Hypothesis Hwf : wf A.

Lemma Get_enc key : wf_key key → Get (enc key) s = (s, inr (expected A key)).
Proof. intros Hk. unfold Get, gets. by rewrite (rep_get _ A). Qed.

Lemma mid_u64 mid m : msgs A !! mid = Some m → is_u64 mid.
Proof. intros Hm. pose proof (wf_high A Hwf). destruct (wf_msgs A Hwf _ _ Hm) as (_ & ? & _). unfold is_u64. lia. Qed.

Lemma read_record mid : is_u64 mid → Record_ mid s = (s, inr (MkGet kSucceeded (msgs A !! mid) [])).
Proof.
  intros Hmid. unfold Record_. rewrite (bind_ok _ _ _ _ _ (Get_enc (KM mid) Hmid)). cbn [expected].
  destruct (msgs A !! mid) as [m|] eqn:Hm; cbn [fmap option_fmap option_map]; [|done].
  destruct (wf_msgs A Hwf _ _ Hm) as (Hid & Hb & Hok). erewrite bind_ok; [done|].
  rewrite <- Hid. apply decode_record; [by rewrite Hid|lia|done].
Qed.

Lemma read_unread r : is_u64 r → Count (UnreadKey r) s = (s, inr (cnt (unread_of r) (msgs A))).
Proof.
  intros Hr. unfold Count. rewrite (bind_ok _ _ _ _ _ (Get_enc (KN r) Hr)). cbn [expected].
  destruct (Z.eqb_spec (cnt (sent_to r) (msgs A)) 0) as [Hz|Hz].
  - assert (cnt (unread_of r) (msgs A) = 0) as ->; [|done].
    rewrite cnt_zero in Hz |- *. intros k m Hk. unfold unread_of. by rewrite (Hz k m Hk).
  - apply ParseNumber_Number. by apply cnt_u64.
Qed.

(** A counter that is absent at zero. *)
Lemma read_counter key n : wf_key key → expected A key = counter n → is_u64 n → Count (enc key) s = (s, inr n).
Proof.
  intros Hk He Hn. unfold Count. rewrite (bind_ok _ _ _ _ _ (Get_enc key Hk)), He. unfold counter.
  destruct (Z.eqb_spec n 0) as [->|]; [done|]. by apply ParseNumber_Number.
Qed.

Lemma read_dialog r p :
  is_u64 r → is_u64 p → Count (DialogUnreadKey r p) s = (s, inr (cnt (unread_from p r) (msgs A))).
Proof. intros Hr Hp. apply (read_counter (KD r p)); [done|done|by apply cnt_u64]. Qed.

Lemma read_pending r : is_u64 r → Count (PendingCountKey r) s = (s, inr (cnt (pending_of r) (msgs A))).
Proof. intros Hr. apply (read_counter (KQ r)); [done|done|by apply cnt_u64]. Qed.

(** The identity index leads to the message of that identity. *)
Lemma read_cid from canonical :
  is_u64 from →
  FindByCid from canonical s = (s, inr (cids A !! (from, canonical) ≫= λ mid, msgs A !! mid)).
Proof.
  intros Hf. unfold FindByCid. rewrite (bind_ok _ _ _ _ _ (Get_enc (KI from canonical) Hf)). cbn [expected].
  destruct (cids A !! (from, canonical)) as [mid|] eqn:Hc; cbn [fmap option_fmap option_map]; [|done].
  apply (wf_cids A Hwf) in Hc as (m & Hm & Hfrom & Hcan). pose proof (mid_u64 _ _ Hm) as Hmid.
  destruct (wf_msgs A Hwf _ _ Hm) as (Hid & _ & _).
  rewrite (bind_ok _ _ _ _ _ (ParseNumber_Number mid s Hmid)), (bind_ok _ _ _ _ _ (read_record mid Hmid)), Hm.
  rewrite (bind_ok _ _ s s tt) by by apply require_ok.
  cbn [g_record]. rewrite Hid, (bind_ok _ _ _ _ _ (Get_enc (KK mid) Hmid)). cbn [expected]. rewrite Hcan.
  rewrite (bind_ok _ _ s s tt); [cbn; by rewrite Hm|].
  apply require_ok. by rewrite Hfrom, Z.eqb_refl, bool_decide_true.
Qed.

End Reads.

End Invariant.
