(* ===== verification/LocalStoreChanges.v ===== *)
(** * Changes of the contents of the local store

    For each kind of write: the contents after it, that the engine represents them
    after the operations the store writes, and that they are well formed. *)
From Stdlib Require Import ZArith Lia String.
From stdpp Require Import base list numbers sorting option gmap.
From S2P Require Import Prelude ByteStrings MessageTypes KeyValueEngine DomainEvents LocalPrivateStore LocalStoreKeys LocalStoreModel LocalStoreInvariant.

Local Open Scope Z_scope.
Local Open Scope width_scope.

(** ** Contents *)

Definition with_msgs (A : Contents) (ms : gmap Z MessageView) : Contents :=
  MkContents ms (canon A) (cids A) (newest A) (pend A) (copies A) (failed A) (high A).

(** A new message with its canonical identity and the text of its event. *)
Definition add_message (A : Contents) (canonical : list Z) (m : MessageView) (text : list Z) : Contents :=
  let mid := message_id m in
  MkContents (<[mid := m]> (msgs A)) (<[mid := canonical]> (canon A))
    (<[(from_user_id m, canonical) := mid]> (cids A))
    (<[(to_user_id m, from_user_id m) := mid]> (<[(from_user_id m, to_user_id m) := mid]> (newest A)))
    (<[created_id mid := text]> (pend A)) (<[created_id mid := text]> (copies A)) (failed A) (high A).

(** A new pending event. *)
Definition new_event (A : Contents) (id text : list Z) : Contents :=
  MkContents (msgs A) (canon A) (cids A) (newest A) (<[id := text]> (pend A)) (<[id := text]> (copies A))
    (failed A) (high A).

(** Messages changed one by one. *)
Definition upd (f : Z → MessageView → MessageView) (ms : gmap Z MessageView) : gmap Z MessageView :=
  map_imap (λ k m, Some (f k m)) ms.

Lemma lookup_upd f ms k : upd f ms !! k = f k <$> ms !! k.
Proof. unfold upd. rewrite map_lookup_imap. by destruct (ms !! k). Qed.

Lemma total_upd (g : Z → MessageView → Z) f ms : total g (upd f ms) = total (λ k m, g k (f k m)) ms.
Proof.
  induction ms as [|k m ms Hk IH] using map_ind.
  { assert (upd f ∅ = ∅) as ->; [|by rewrite !total_empty]. apply map_eq. intros k. by rewrite lookup_upd. }
  assert (upd f (<[k := m]> ms) = <[k := f k m]> (upd f ms)) as ->.
  { apply map_eq. intros k'. rewrite lookup_upd. destruct (decide (k = k')) as [->|].
    - by rewrite !lookup_insert_eq.
    - by rewrite !lookup_insert_ne, lookup_upd. }
  rewrite !total_insert_new, IH; [done|done|]. by rewrite lookup_upd, Hk.
Qed.

Lemma cnt_upd P f ms : cnt P (upd f ms) = total (λ k m, Z.b2z (P (f k m))) ms.
Proof. unfold cnt. exact (total_upd (λ _ m, Z.b2z (P m)) f ms). Qed.

(** Changes of the state and the times of a message. *)
Definition same_message (m m' : MessageView) : Prop :=
  message_id m' = message_id m ∧ client_message_id m' = client_message_id m ∧
  from_user_id m' = from_user_id m ∧ to_user_id m' = to_user_id m ∧
  message_type m' = message_type m ∧ content m' = content m ∧ created_at m' = created_at m.

Lemma lsum_zero {A} (f : A → Z) l : (∀ x, x ∈ l → f x = 0) → lsum f l = 0.
Proof.
  induction l as [|x l IH]; intros Hf; [done|]. rewrite lsum_cons, IH, Hf; [done|left|].
  intros y Hy. apply Hf. by right.
Qed.

(** The sum over chosen keys. *)
Lemma total_select (g : Z → MessageView → Z) ms (l : list Z) :
  NoDup l →
  total (λ k m, if decide (k ∈ l) then g k m else 0) ms =
  lsum (λ k, match ms !! k with Some m => g k m | None => 0 end) l.
Proof.
  induction l as [|x l IH]; intros Hnd.
  { cbn. apply total_zero. intros k m _. by rewrite decide_False by apply not_elem_of_nil. }
  apply list.NoDup_cons in Hnd as [Hx Hnd]. rewrite lsum_cons, <- IH by done.
  transitivity (total (λ k m, (if decide (k = x) then g k m else 0) + (if decide (k ∈ l) then g k m else 0)) ms).
  { apply total_ext. intros k m _. destruct (decide (k = x)) as [->|].
    - rewrite decide_True by left. rewrite decide_False by done. lia.
    - destruct (decide (k ∈ l)); [rewrite decide_True by (by right); lia|].
      rewrite decide_False; [lia|]. by rewrite not_elem_of_cons. }
  rewrite total_plus. f_equal. destruct (ms !! x) as [m|] eqn:Hm.
  - rewrite <- (insert_id ms x m Hm) at 1. rewrite <- insert_delete_eq, total_insert_new by apply lookup_delete_eq.
    rewrite decide_True by done. rewrite total_zero; [lia|]. intros k m' [Hk _]%lookup_delete_Some.
    by rewrite decide_False.
  - apply total_zero. intros k m Hk. rewrite decide_False; [done|]. intros ->. congruence.
Qed.

Section Changes.
Context {D : Type} `{EngineLaws D} `{JsonLaws}.
Implicit Types (A : Contents) (m : MessageView).

(** The operations of a new message by families. *)
Definition message_kops (A : Contents) (canonical : list Z) (m : MessageView) (text : list Z)
  : list (Key * option (list Z)) :=
  let mid := message_id m in
  let from := from_user_id m in
  let to := to_user_id m in
  [(KM mid, Some (record_text m)); (KI from canonical, Some (Number mid)); (KK mid, Some canonical);
   (KU from, Some []); (KU to, Some []);
   (KH (Z.min from to) (Z.max from to) mid, Some []); (KP to mid, Some []);
   (KC from to, Some (Number mid)); (KC to from, Some (Number mid));
   (KN to, Some (Number (cnt (unread_of to) (msgs A) + 1)));
   (KD to from, Some (Number (cnt (unread_from from to) (msgs A) + 1)));
   (KQ to, Some (Number (cnt (pending_of to) (msgs A) + 1)));
   (KR to from, Some []);
   (KE (created_id mid), Some text); (KA (created_id mid), Some text)].

Lemma counter_pos n : 0 < n → counter n = Some (Number n).
Proof. unfold counter. destruct (Z.eqb_spec n 0); [lia|done]. Qed.

Lemma flag_pos n : 0 < n → flag (negb (n =? 0)) = Some [].
Proof. destruct (Z.eqb_spec n 0); [lia|done]. Qed.

Lemma between_min_max m a b : between m (Z.min a b) (Z.max a b) = between m a b.
Proof.
  unfold between. destruct (Z.min_spec a b) as [[? ->]|[? ->]].
  - by rewrite Z.max_r by lia.
  - rewrite Z.max_l by lia. apply orb_comm.
Qed.

Lemma rep_add_message d A canonical m text :
  Rep d A → message_ok m → is_u64 (message_id m) →
  msgs A !! message_id m = None → delivery_state m = kPending →
  Rep (db_write d (enc_ops (message_kops A canonical m text))) (add_message A canonical m text).
Proof.
  intros HR Hok Hmid Hnew Hst. destruct (ok_from m Hok) as [Hf Hf0]. destruct (ok_to m Hok) as [Ht Ht0].
  pose proof (ok_distinct m Hok) as Hd. unfold is_u64 in *.
  pose proof (λ P, cnt_nonneg P (msgs A)) as Hnn.
  assert (Hun : is_unread m = true) by (unfold is_unread; by rewrite Hst).
  apply (rep_char d A); [done| | |].
  - unfold message_kops. repeat (apply list.Forall_cons; split; [cbn; unfold is_u64; lia|]). constructor.
  - intros k v Hkv. unfold message_kops in Hkv.
    repeat (apply elem_of_cons in Hkv as [[= -> ->]|Hkv]); try (by apply elem_of_nil in Hkv);
      unfold add_message; cbn [expected msgs canon cids newest pend copies failed high];
      rewrite ?lookup_insert_eq; cbn [fmap option_fmap option_map]; try done;
      rewrite ?cnt_new by done; unfold unread_of, unread_from, pending_of, sent_to, sent, takes_part;
      rewrite ?Z.eqb_refl, ?Hun, ?Hst, ?orb_true_r, ?orb_true_l, ?bool_decide_true by done;
      cbn [andb orb Z.b2z]; try done.
    + apply flag_pos. specialize (Hnn (takes_part (from_user_id m))). unfold takes_part in Hnn. lia.
    + apply flag_pos. specialize (Hnn (takes_part (to_user_id m))). unfold takes_part in Hnn. lia.
    + rewrite between_min_max. unfold between. by rewrite !Z.eqb_refl.
    + rewrite lookup_insert_ne by congruence. by rewrite lookup_insert_eq.
    + specialize (Hnn (sent_to (to_user_id m))). unfold sent_to in Hnn.
      destruct (Z.eqb_spec (1 + cnt (λ m0, to_user_id m0 =? to_user_id m) (msgs A)) 0); [lia|].
      do 2 f_equal. lia.
    + rewrite counter_pos; [do 2 f_equal; lia|].
      specialize (Hnn (unread_from (from_user_id m) (to_user_id m))). unfold unread_from, sent in Hnn. lia.
    + rewrite counter_pos; [do 2 f_equal; lia|].
      specialize (Hnn (pending_of (to_user_id m))). unfold pending_of, sent_to in Hnn. lia.
    + apply flag_pos. specialize (Hnn (sent (from_user_id m) (to_user_id m))). unfold sent in Hnn. lia.
  - intros k Hk Hout. unfold message_kops in Hout. rewrite !fmap_cons in Hout.
    repeat (apply not_elem_of_cons in Hout as [? Hout]). cbn [fst] in *. clear Hout Hnn.
    destruct k; unfold add_message; cbn [expected msgs canon cids newest pend copies failed high];
      rewrite ?cnt_new by done; unfold unread_of, unread_from, pending_of, sent_to, sent, takes_part;
      repeat match goal with
      | |- context [<[?i := _]> _ !! ?j] => rewrite (lookup_insert_ne _ i j) by congruence
      end; try done.
    + destruct (decide (mid = message_id m)) as [->|]; [|by rewrite lookup_insert_ne].
      rewrite lookup_insert_eq, Hnew. cbn in Hk. destruct (between m a b) eqn:E; [|done].
      exfalso. unfold between in E. apply orb_prop in E as [E|E]; apply andb_prop in E as [?%Z.eqb_eq ?%Z.eqb_eq];
        subst; match goal with Hn : KH _ _ _ ≠ KH _ _ _ |- _ => apply Hn; f_equal; lia end.
    + destruct (decide (mid = message_id m)) as [->|]; [|by rewrite lookup_insert_ne].
      rewrite lookup_insert_eq, Hnew. by rewrite (proj2 (Z.eqb_neq _ _)) by congruence.
    + by rewrite (proj2 (Z.eqb_neq (to_user_id m) _)) by congruence.
    + assert ((from_user_id m =? peer) && (to_user_id m =? receiver) = false) as ->; [|done].
      apply andb_false_iff. rewrite !Z.eqb_neq. destruct (decide (from_user_id m = peer)); [right; congruence|by left].
    + by rewrite (proj2 (Z.eqb_neq (to_user_id m) _)) by congruence.
    + by rewrite (proj2 (Z.eqb_neq (to_user_id m) _)), (proj2 (Z.eqb_neq (from_user_id m) _)) by congruence.
    + assert ((from_user_id m =? peer) && (to_user_id m =? receiver) = false) as ->; [|done].
      apply andb_false_iff. rewrite !Z.eqb_neq. destruct (decide (from_user_id m = peer)); [right; congruence|by left].
Qed.

(** Batches one after the other. *)
Lemma rep_app d A ops ops' :
  Rep (db_write (db_write d ops) ops') A → Rep (db_write d (ops ++ ops')) A.
Proof.
  intros HR k v. rewrite <- (HR k v), !get_write, apply_ops_app.
  rewrite (apply_ops_ext (db_get (db_write d ops)) (apply_ops (db_get d) ops)); [done|]. intros k'. by rewrite get_write.
Qed.

(** *** Well-formedness *)

Lemma wf_with_high A h : wf A → high A ≤ h < 2 ^ 63 - 1 → wf (with_high A h).
Proof.
  intros [Hh Hm Hca Hci Hn Hp Hco Hf Hcr Hfew] Hle. split; cbn; [lia| |done..].
  intros mid m Hmid. destruct (Hm mid m Hmid) as (? & ? & ?). split; [done|]. split; [lia|done].
Qed.

Lemma rep_with_high d A h :
  Rep d A → Rep (db_write d (enc_ops [(KHigh, Some (Number h))])) (with_high A h).
Proof.
  intros HR. apply (rep_char d A); [done|by repeat constructor| |].
  - intros k v [= -> ->]%list_elem_of_singleton. done.
  - intros k Hk Hout. destruct k; try done. by destruct Hout; left.
Qed.

Lemma between_parties m a b :
  between m a b = true ↔ (a, b) = (from_user_id m, to_user_id m) ∨ (a, b) = (to_user_id m, from_user_id m).
Proof.
  unfold between. rewrite orb_true_iff, !andb_true_iff, !Z.eqb_eq. split.
  - intros [[-> ->]|[-> ->]]; auto.
  - intros [[= -> ->]|[= -> ->]]; auto.
Qed.

Lemma wf_add_message A canonical m text :
  wf A → message_ok m → 1 ≤ message_id m ≤ high A →
  (∀ mid m', msgs A !! mid = Some m' → mid < message_id m) →
  cids A !! (from_user_id m, canonical) = None →
  event_ok text (created_id (message_id m)) → Z.of_nat (base.size (pend A)) + 1 < 2 ^ 64 - 1 →
  wf (add_message A canonical m text).
Proof.
  intros Hwf Hok Hid Hlt Hcid Hev Hroom. pose proof (ok_distinct m Hok) as Hd.
  assert (Hnew : msgs A !! message_id m = None).
  { destruct (msgs A !! message_id m) eqn:E; [|done]. specialize (Hlt _ _ E). lia. }
  assert (Hu : is_u64 (message_id m)) by (pose proof (wf_high A Hwf); unfold is_u64; lia).
  assert (Hcopy : copies A !! created_id (message_id m) = None).
  { apply eq_None_not_Some. rewrite (wf_created A Hwf _ Hu), Hnew. apply is_Some_None. }
  assert (Hcan : canon A !! message_id m = None).
  { apply eq_None_not_Some. rewrite (wf_canon A Hwf), Hnew. apply is_Some_None. }
  split; unfold add_message; cbn [msgs canon cids newest pend copies failed high].
  - apply Hwf.
  - intros mid m' [[<- <-]|[? Hm']]%lookup_insert_Some; [done|by apply (wf_msgs A Hwf)].
  - intros mid. destruct (decide (mid = message_id m)) as [->|].
    + rewrite !lookup_insert_eq. split; eauto.
    + rewrite !lookup_insert_ne by done. apply (wf_canon A Hwf).
  - intros f c mid. rewrite lookup_insert_Some. rewrite (wf_cids A Hwf f c mid). split.
    + intros [[[= <- <-] <-]|[Hne (m' & Hm' & Hf & Hc)]].
      * exists m. by rewrite !lookup_insert_eq.
      * assert (mid ≠ message_id m) by congruence. exists m'. by rewrite !lookup_insert_ne.
    + intros (m' & Hm' & Hf & Hc). destruct (decide (mid = message_id m)) as [->|].
      * rewrite lookup_insert_eq in Hm'. rewrite lookup_insert_eq in Hc. simplify_eq. by left.
      * rewrite lookup_insert_ne in Hm' by done. rewrite lookup_insert_ne in Hc by done. right. split; [|eauto].
        intros [= Ef Ec]. assert (cids A !! (f, c) = Some mid) by (apply (wf_cids A Hwf); eauto). congruence.
  - intros a p.
    destruct (between m a p) eqn:Hb.
    + assert (<[(to_user_id m, from_user_id m):=message_id m]>
        (<[(from_user_id m, to_user_id m):=message_id m]> (newest A)) !! (a, p) = Some (message_id m)) as ->.
      { apply between_parties in Hb as [->| ->].
        - rewrite lookup_insert_ne by congruence. apply lookup_insert_eq.
        - apply lookup_insert_eq. }
      split; [exists m; by rewrite lookup_insert_eq|].
      intros mid' m' [[<- _]|[_ Hm']]%lookup_insert_Some _; [lia|]. specialize (Hlt _ _ Hm'). lia.
    + rewrite !lookup_insert_ne; cycle 1.
      { intros E. assert (between m a p = true) by (apply between_parties; auto). congruence. }
      { intros E. assert (between m a p = true) by (apply between_parties; auto). congruence. }
      pose proof (wf_newest A Hwf a p) as Hn. destruct (newest A !! (a, p)) as [mid|].
      * destruct Hn as [(m' & Hm' & Hb') Hmax]. split.
        -- exists m'. rewrite lookup_insert_ne by congruence. done.
        -- intros mid' m'' [[_ <-]|[_ Hm'']]%lookup_insert_Some Hb''; [congruence|eauto].
      * intros mid' m' [[_ <-]|[_ Hm']]%lookup_insert_Some; [done|eauto].
  - by apply insert_mono, (wf_pend A Hwf).
  - intros id t [[<- <-]|[_ Ht]]%lookup_insert_Some; [done|by apply (wf_copies A Hwf)].
  - intros id t Ht. destruct (wf_failed A Hwf id t Ht) as (Hp & raw & Hc & Hok').
    assert (created_id (message_id m) ≠ id) by congruence. rewrite !lookup_insert_ne by done. eauto.
  - intros mid Hmid. destruct (decide (mid = message_id m)) as [->|Hne].
    + rewrite !lookup_insert_eq. split; eauto.
    + rewrite !lookup_insert_ne; [by apply (wf_created A Hwf)|done|].
      intros E. apply Hne. symmetry. by apply created_id_inj.
  - rewrite map_size_insert_None; [lia|]. exact (lookup_weaken_None _ _ _ Hcopy (wf_pend A Hwf)).
Qed.

(** Messages that change only their state and times. *)
Lemma wf_upd A f :
  wf A → (∀ k m, msgs A !! k = Some m → same_message m (f k m) ∧ message_ok (f k m)) →
  wf (with_msgs A (upd f (msgs A))).
Proof.
  intros Hwf Hf. split; cbn [with_msgs msgs canon cids newest pend copies failed high]; try apply Hwf.
  - intros mid m' Hm'. rewrite lookup_upd in Hm'. apply fmap_Some in Hm' as (m & Hm & ->).
    destruct (Hf _ _ Hm) as [(Hid & _) Hok]. destruct (wf_msgs A Hwf _ _ Hm) as (? & ? & _). by rewrite Hid.
  - intros mid. rewrite lookup_upd, fmap_is_Some. apply (wf_canon A Hwf).
  - intros from c mid. rewrite (wf_cids A Hwf). setoid_rewrite lookup_upd. split.
    + intros (m & Hm & Hfrom & Hc). exists (f mid m). rewrite Hm. destruct (Hf _ _ Hm) as [(_ & _ & -> & _) _]. done.
    + intros (m' & (m & Hm & ->)%fmap_Some & Hfrom & Hc). exists m.
      destruct (Hf _ _ Hm) as [(_ & _ & E & _) _]. by rewrite <- E.
  - assert (Hb : ∀ k m a p, msgs A !! k = Some m → between (f k m) a p = between m a p).
    { intros k m a p Hm. destruct (Hf _ _ Hm) as [(_ & _ & E & E' & _) _]. unfold between. by rewrite E, E'. }
    intros a p. pose proof (wf_newest A Hwf a p) as Hn. destruct (newest A !! (a, p)) as [mid|].
    + destruct Hn as [(m & Hm & Hbm) Hmax]. split.
      * exists (f mid m). by rewrite lookup_upd, Hm, Hb.
      * intros mid' m' Hm'. rewrite lookup_upd in Hm'. apply fmap_Some in Hm' as (m0 & Hm0 & ->).
        rewrite Hb by done. by apply Hmax.
    + intros mid m' Hm'. rewrite lookup_upd in Hm'. apply fmap_Some in Hm' as (m0 & Hm0 & ->).
      rewrite Hb by done. by apply (Hn mid).
  - intros mid Hmid. rewrite lookup_upd, fmap_is_Some. by apply (wf_created A Hwf).
Qed.

(** *** Events *)

Definition fail_event (A : Contents) (id text : list Z) : Contents :=
  MkContents (msgs A) (canon A) (cids A) (newest A) (delete id (pend A)) (copies A) (<[id := text]> (failed A))
    (high A).
Definition requeue_event (A : Contents) (id raw : list Z) : Contents :=
  MkContents (msgs A) (canon A) (cids A) (newest A) (<[id := raw]> (pend A)) (copies A) (delete id (failed A))
    (high A).

(** Operations of events change only what their keys say. *)
Lemma wf_new_event A id text :
  wf A → copies A !! id = None → (∀ mid, id ≠ created_id mid) → event_ok text id →
  Z.of_nat (base.size (pend A)) + 1 < 2 ^ 64 - 1 → wf (new_event A id text).
Proof.
  intros Hwf Hnew Hne Hev Hroom. split; cbn [new_event msgs canon cids newest pend copies failed high]; try apply Hwf.
  - by apply insert_mono, (wf_pend A Hwf).
  - intros id' t [[<- <-]|[_ Ht]]%lookup_insert_Some; [done|by apply (wf_copies A Hwf)].
  - intros id' t Ht. destruct (wf_failed A Hwf id' t Ht) as (Hp & raw & Hc & Hok').
    assert (id ≠ id') by congruence. rewrite !lookup_insert_ne by done. eauto.
  - intros mid Hmid. rewrite lookup_insert_ne by done. by apply (wf_created A Hwf).
  - rewrite map_size_insert_None; [lia|]. exact (lookup_weaken_None _ _ _ Hnew (wf_pend A Hwf)).
Qed.

Lemma wf_fail_event A id raw text :
  wf A → pend A !! id = Some raw → failed_ok text raw → wf (fail_event A id text).
Proof.
  intros Hwf Hp Hok. split; cbn [fail_event msgs canon cids newest pend copies failed high]; try apply Hwf.
  - etrans; [apply delete_subseteq|apply (wf_pend A Hwf)].
  - intros id' t [[<- <-]|[Hne Ht]]%lookup_insert_Some.
    + split; [apply lookup_delete_eq|]. exists raw. split; [|done].
      exact (lookup_weaken _ _ _ _ Hp (wf_pend A Hwf)).
    + rewrite lookup_delete_ne by done. by apply (wf_failed A Hwf).
  - pose proof (wf_few A Hwf). rewrite map_size_delete_Some by eauto. lia.
Qed.

Lemma wf_requeue_event A id text raw :
  wf A → failed A !! id = Some text → copies A !! id = Some raw →
  Z.of_nat (base.size (pend A)) + 1 < 2 ^ 64 - 1 → wf (requeue_event A id raw).
Proof.
  intros Hwf Hf Hc Hroom. destruct (wf_failed A Hwf id text Hf) as (Hp & _).
  split; cbn [requeue_event msgs canon cids newest pend copies failed high]; try apply Hwf.
  - apply insert_subseteq_l; [done|apply (wf_pend A Hwf)].
  - intros id' t [Hne Ht]%lookup_delete_Some. rewrite lookup_insert_ne by done. by apply (wf_failed A Hwf).
  - rewrite map_size_insert_None by done. lia.
Qed.

Lemma wf_with_pend A p : wf A → p ⊆ pend A → wf (with_pend A p).
Proof.
  intros Hwf Hp. split; cbn [with_pend msgs canon cids newest pend copies failed high]; try apply Hwf.
  - etrans; [done|apply (wf_pend A Hwf)].
  - intros id t Ht. destruct (wf_failed A Hwf id t Ht) as (Hn & ?). split; [|done].
    exact (lookup_weaken_None _ _ _ Hn Hp).
  - pose proof (wf_few A Hwf). apply map_subseteq_size in Hp. lia.
Qed.

(** The operations of one event. *)
Lemma rep_event d A A' id ops :
  Rep d A →
  (∀ k v, (k, v) ∈ ops → expected A' k = v ∧ (k = KE id ∨ k = KA id ∨ k = KF id)) →
  msgs A' = msgs A → canon A' = canon A → cids A' = cids A → newest A' = newest A → high A' = high A →
  (∀ id', KE id' ∉ ops.*1 → pend A' !! id' = pend A !! id') →
  (∀ id', KA id' ∉ ops.*1 → copies A' !! id' = copies A !! id') →
  (∀ id', KF id' ∉ ops.*1 → failed A' !! id' = failed A !! id') →
  Rep (db_write d (enc_ops ops)) A'.
Proof.
  intros HR Hops E1 E2 E3 E4 E5 Hp Hc Hf. apply (rep_char d A); [done| | |].
  - apply list.Forall_forall. intros [k v] Hin. destruct (Hops k v Hin) as [_ [->|[->| ->]]]; done.
  - intros k v Hin. by apply Hops.
  - intros k Hk Hout. destruct k; cbn [expected]; rewrite ?E1, ?E2, ?E3, ?E4, ?E5; auto.
Qed.

Lemma rep_new_event d A id text :
  Rep d A → Rep (db_write d (enc_ops [(KE id, Some text); (KA id, Some text)])) (new_event A id text).
Proof.
  intros HR. apply (rep_event d A _ id); try done.
  - intros k v Hin. repeat (apply elem_of_cons in Hin as [[= -> ->]|Hin]); try (by apply elem_of_nil in Hin);
      cbn [expected new_event pend copies]; rewrite lookup_insert_eq; auto.
  - intros id' Hout. cbn. rewrite lookup_insert_ne; [done|]. intros ->. apply Hout. left.
  - intros id' Hout. cbn. rewrite lookup_insert_ne; [done|]. intros ->. apply Hout. right. left.
Qed.

Lemma rep_fail_event d A id text :
  Rep d A → Rep (db_write d (enc_ops [(KF id, Some text); (KE id, None)])) (fail_event A id text).
Proof.
  intros HR. apply (rep_event d A _ id); try done.
  - intros k v Hin. repeat (apply elem_of_cons in Hin as [[= -> ->]|Hin]); try (by apply elem_of_nil in Hin);
      cbn [expected fail_event pend failed]; rewrite ?lookup_insert_eq, ?lookup_delete_eq; auto.
  - intros id' Hout. cbn. rewrite lookup_delete_ne; [done|]. intros ->. apply Hout. right. left.
  - intros id' Hout. cbn. rewrite lookup_insert_ne; [done|]. intros ->. apply Hout. left.
Qed.

Lemma rep_requeue_event d A id raw :
  Rep d A → Rep (db_write d (enc_ops [(KE id, Some raw); (KF id, None)])) (requeue_event A id raw).
Proof.
  intros HR. apply (rep_event d A _ id); try done.
  - intros k v Hin. repeat (apply elem_of_cons in Hin as [[= -> ->]|Hin]); try (by apply elem_of_nil in Hin);
      cbn [expected requeue_event pend failed]; rewrite ?lookup_insert_eq, ?lookup_delete_eq; auto.
  - intros id' Hout. cbn. rewrite lookup_insert_ne; [done|]. intros ->. apply Hout. left.
  - intros id' Hout. cbn. rewrite lookup_delete_ne; [done|]. intros ->. apply Hout. right. left.
Qed.

(** Publication. *)
Definition publish (A : Contents) (ids : list (list Z)) : Contents :=
  with_pend A (filter (λ e, e.1 ∉ ids) (pend A)).

Lemma rep_publish d A ids :
  Rep d A → Rep (db_write d (enc_ops ((λ id, (KE id, None)) <$> ids))) (publish A ids).
Proof.
  intros HR. apply (rep_char d A); [done| | |].
  - apply list.Forall_forall. intros op (id & -> & _)%list_elem_of_fmap. done.
  - intros k v (id & [= -> ->] & Hin)%list_elem_of_fmap. cbn.
    apply map_lookup_filter_None. right. intros t _ Hn. by apply Hn.
  - intros k Hk Hout. destruct k; try done. cbn. apply option_eq. intros t. rewrite map_lookup_filter_Some.
    split; [by intros [? _]|]. intros Ht. split; [done|]. cbn. intros Hin. apply Hout.
    apply list_elem_of_fmap. exists (KE id, None). split; [done|]. apply list_elem_of_fmap. eauto.
Qed.

(** *** Confirmations *)

Definition confirm_at (now : list Z) (l : list Z) (k : Z) (m : MessageView) : MessageView :=
  if decide (k ∈ l) then confirm now m else m.
Definition confirm_all (A : Contents) (now : list Z) (l : list Z) : Contents :=
  with_msgs A (upd (confirm_at now l) (msgs A)).

Lemma confirm_same now m : same_message m (confirm now m).
Proof. by destruct m. Qed.

Lemma confirm_ok now m : message_ok m → is_Some (json_dump (EncodeRecord (confirm now m))) → message_ok (confirm now m).
Proof. intros [] Ht. destruct m; split; cbn in *; auto. Qed.

(** How many of some messages a receiver has. *)
Definition received (A : Contents) (r : Z) (l : list Z) : Z :=
  lsum (λ k, match msgs A !! k with Some m => Z.b2z (sent_to r m) | None => 0 end) l.

Section Confirm.
Variables (A : Contents) (now : list Z) (l : list Z).
Hypothesis Hwf : wf A.
Hypothesis Hl : NoDup l.
Hypothesis Hpend : ∀ k, k ∈ l → ∃ m, msgs A !! k = Some m ∧ delivery_state m = kPending.

Lemma lookup_confirm k m :
  k ∈ l → msgs A !! k = Some m → msgs (confirm_all A now l) !! k = Some (confirm now m).
Proof.
  intros Hk Hm. cbn [confirm_all with_msgs msgs]. rewrite lookup_upd, Hm. cbn [fmap option_fmap option_map].
  unfold confirm_at. by rewrite decide_True.
Qed.

(** What depends only on what does not change. *)
Lemma confirm_cnt P :
  (∀ m, delivery_state m = kPending → P (confirm now m) = P m) →
  cnt P (msgs (confirm_all A now l)) = cnt P (msgs A).
Proof.
  intros HP. cbn. rewrite cnt_upd. apply total_ext. intros k m Hm. unfold confirm_at. case_decide as Hk; [|done].
  destruct (Hpend k Hk) as (m' & Hm' & Hst). by rewrite HP by congruence.
Qed.

Lemma confirm_pending r :
  cnt (pending_of r) (msgs (confirm_all A now l)) = cnt (pending_of r) (msgs A) - received A r l.
Proof.
  cbn. rewrite cnt_upd. unfold received. rewrite <- (total_select (λ _ m, Z.b2z (sent_to r m))) by done.
  enough (cnt (pending_of r) (msgs A) =
    total (λ k m, Z.b2z (pending_of r (confirm_at now l k m)) +
                  (if decide (k ∈ l) then Z.b2z (sent_to r m) else 0)) (msgs A)) as ->
    by (rewrite total_plus; lia).
  apply total_ext. intros k m Hm. unfold confirm_at. case_decide as Hk; [|lia].
  destruct (Hpend k Hk) as (m' & Hm' & Hst). simplify_eq. unfold pending_of, sent_to. rewrite Hst.
  cbn. rewrite !andb_false_r, andb_true_r. done.
Qed.

Lemma received_zero r : (∀ k m, k ∈ l → msgs A !! k = Some m → to_user_id m ≠ r) → received A r l = 0.
Proof.
  intros Hn. unfold received. apply lsum_zero.
  intros k Hk. destruct (msgs A !! k) as [m|] eqn:Hm; [|done]. unfold sent_to.
  by rewrite (proj2 (Z.eqb_neq _ _)) by eauto.
Qed.

Lemma rep_confirm d ops :
  Rep d A → Forall (λ op : Key * option (list Z), wf_key op.1) ops →
  (∀ key v, (key, v) ∈ ops →
     (∃ k m, k ∈ l ∧ msgs A !! k = Some m ∧
        ((key, v) = (KM k, Some (record_text (confirm now m))) ∨ (key, v) = (KP (to_user_id m) k, None))) ∨
     (∃ r, (key, v) = (KQ r, counter (cnt (pending_of r) (msgs A) - received A r l)))) →
  (∀ k m, k ∈ l → msgs A !! k = Some m →
     KM k ∈ ops.*1 ∧ KP (to_user_id m) k ∈ ops.*1 ∧ KQ (to_user_id m) ∈ ops.*1) →
  Rep (db_write d (enc_ops ops)) (confirm_all A now l).
Proof.
  intros HR Hwk Hin Hall. apply (rep_char d A); [done|done| |].
  - intros key v Hop. destruct (Hin key v Hop) as [(k & m & Hk & Hm & [[= -> ->]|[= -> ->]])|(r & [= -> ->])].
    + cbn [expected]. by rewrite (lookup_confirm k m).
    + cbn [expected]. rewrite (lookup_confirm k m) by done. unfold pending_of. cbn. by rewrite andb_false_r.
    + cbn [expected]. by rewrite confirm_pending.
  - intros key Hk Hout.
    assert (Hsame : ∀ k, k ∉ l → msgs (confirm_all A now l) !! k = msgs A !! k).
    { intros k Hkl. cbn [confirm_all with_msgs msgs]. rewrite lookup_upd. destruct (msgs A !! k); [|done].
      cbn [fmap option_fmap option_map]. unfold confirm_at. by rewrite decide_False. }
    destruct key; cbn [expected]; try done.
    + rewrite Hsame; [done|]. intros Hin'. destruct (Hpend _ Hin') as (m & Hm & _). by destruct (Hall mid m Hin' Hm).
    + cbn [confirm_all with_msgs msgs]. rewrite lookup_upd. destruct (msgs A !! mid) as [m|]; [|done].
      cbn [fmap option_fmap option_map]. unfold confirm_at. by case_decide.
    + destruct (decide (mid ∈ l)) as [Hin'|]; [|by rewrite Hsame].
      destruct (Hpend _ Hin') as (m & Hm & Hst). destruct (Hall mid m Hin' Hm) as (_ & HP & _).
      rewrite (lookup_confirm mid m), Hm by done. unfold pending_of. cbn. rewrite andb_false_r. unfold sent_to. destruct (Z.eqb_spec (to_user_id m) receiver) as [<-|]; [done|].
      by rewrite andb_false_l.
    + rewrite !confirm_cnt; [done|..].
      * intros m Hst. unfold unread_of, sent_to, is_unread. by rewrite Hst.
      * done.
    + rewrite !confirm_cnt; [done|]. intros m Hst. unfold unread_from, sent, is_unread. by rewrite Hst.
    + rewrite confirm_pending, received_zero, Z.sub_0_r; [done|]. intros k m Hkl Hm <-.
      by destruct (Hall k m Hkl Hm) as (_ & _ & ?).
    + by rewrite !confirm_cnt.
    + by rewrite !confirm_cnt.
Qed.

Lemma wf_confirm :
  (∀ k m, k ∈ l → msgs A !! k = Some m → is_Some (json_dump (EncodeRecord (confirm now m)))) →
  wf (confirm_all A now l).
Proof.
  intros Htext. apply wf_upd; [done|]. intros k m Hm. destruct (wf_msgs A Hwf k m Hm) as (_ & _ & Hok).
  unfold confirm_at. case_decide; [|done]. split; [apply confirm_same|]. apply confirm_ok; eauto.
Qed.

End Confirm.

(** *** Reading a dialog *)

Definition pending_from (p r : Z) (m : MessageView) : bool :=
  sent p r m && bool_decide (delivery_state m = kPending).
Definition read_at_ (now : list Z) (reader peer : Z) (k : Z) (m : MessageView) : MessageView :=
  if unread_from peer reader m then mark_read now m else m.
Definition read_all (A : Contents) (now : list Z) (reader peer : Z) : Contents :=
  with_msgs A (upd (read_at_ now reader peer) (msgs A)).

Lemma mark_read_same now m : same_message m (mark_read now m).
Proof. by destruct m. Qed.

Lemma mark_read_ok now m :
  message_ok m → is_Some (json_dump (EncodeRecord (mark_read now m))) → message_ok (mark_read now m).
Proof. intros [] Ht. destruct m; split; cbn in *; auto. Qed.

Section ReadDialog.
Variables (A : Contents) (now : list Z) (reader peer : Z).
Hypothesis Hwf : wf A.

(** The effect on what is counted, message by message. *)
Lemma read_cnt P Q :
  (∀ m, unread_from peer reader m = true → Z.b2z (P (mark_read now m)) = Z.b2z (P m) - Z.b2z (Q m)) →
  (∀ m, unread_from peer reader m = false → Q m = false) →
  cnt P (msgs (read_all A now reader peer)) = cnt P (msgs A) - cnt Q (msgs A).
Proof.
  intros Ht Hf. cbn [read_all with_msgs msgs]. rewrite cnt_upd.
  enough (cnt P (msgs A) = total (λ k m, Z.b2z (P (read_at_ now reader peer k m)) + Z.b2z (Q m)) (msgs A)) as ->
    by (rewrite total_plus; unfold cnt; lia).
  apply total_ext. intros k m _. unfold read_at_. destruct (unread_from peer reader m) eqn:E.
  - rewrite Ht by done. lia.
  - rewrite Hf by done. cbn. lia.
Qed.

Lemma read_cnt_same P :
  (∀ m, unread_from peer reader m = true → P (mark_read now m) = P m) →
  cnt P (msgs (read_all A now reader peer)) = cnt P (msgs A).
Proof.
  intros HP. rewrite (read_cnt P (λ _, false)); [|intros m Hm; rewrite HP by done; cbn; lia|done].
  rewrite (proj2 (cnt_zero (λ _, false) _)); [lia|done].
Qed.

Lemma unread_read m : is_unread (mark_read now m) = false.
Proof. done. Qed.

Lemma unread_from_spec m :
  unread_from peer reader m = true ↔ from_user_id m = peer ∧ to_user_id m = reader ∧ is_unread m = true.
Proof. unfold unread_from, sent. rewrite !andb_true_iff, !Z.eqb_eq. tauto. Qed.

Lemma read_unread_of :
  cnt (unread_of reader) (msgs (read_all A now reader peer)) =
  cnt (unread_of reader) (msgs A) - cnt (unread_from peer reader) (msgs A).
Proof.
  apply read_cnt; [|done]. intros m Hm. rewrite Hm. apply unread_from_spec in Hm as (Hf & Hto & Hu).
  unfold unread_of, sent_to. rewrite unread_read, Hu, Hto, Z.eqb_refl. cbn. by rewrite andb_false_r.
Qed.

Lemma read_unread_from :
  cnt (unread_from peer reader) (msgs (read_all A now reader peer)) = 0.
Proof.
  rewrite (read_cnt _ (unread_from peer reader)); [lia| |done]. intros m Hm. rewrite Hm.
  unfold unread_from. by rewrite unread_read, andb_false_r.
Qed.

Lemma read_pending_of :
  cnt (pending_of reader) (msgs (read_all A now reader peer)) =
  cnt (pending_of reader) (msgs A) - cnt (pending_from peer reader) (msgs A).
Proof.
  apply read_cnt.
  - intros m (Hf & Hto & Hu)%unread_from_spec. unfold pending_of, pending_from, sent_to, sent.
    rewrite Hf, Hto, !Z.eqb_refl. cbn [andb mark_read delivery_state to_user_id from_user_id].
    rewrite andb_false_r. by destruct (bool_decide (delivery_state m = kPending)).
  - intros m. unfold unread_from, pending_from, is_unread. destruct (sent peer reader m); [cbn|done].
    by destruct (bool_decide (delivery_state m = kPending)).
Qed.

(** A message of the dialog that was read. *)
Lemma lookup_read k m :
  msgs A !! k = Some m → unread_from peer reader m = true →
  msgs (read_all A now reader peer) !! k = Some (mark_read now m).
Proof.
  intros Hm Hu. cbn [read_all with_msgs msgs]. rewrite lookup_upd, Hm. cbn [fmap option_fmap option_map].
  unfold read_at_. by rewrite Hu.
Qed.

Lemma lookup_unchanged k :
  (∀ m, msgs A !! k = Some m → unread_from peer reader m = false) →
  msgs (read_all A now reader peer) !! k = msgs A !! k.
Proof.
  intros Hu. cbn [read_all with_msgs msgs]. rewrite lookup_upd. destruct (msgs A !! k) as [m|] eqn:E; [|done].
  cbn [fmap option_fmap option_map]. unfold read_at_. by rewrite (Hu m).
Qed.

Lemma rep_read d ops :
  Rep d A → 0 < cnt (unread_from peer reader) (msgs A) →
  Forall (λ op : Key * option (list Z), wf_key op.1) ops →
  (∀ key v, (key, v) ∈ ops →
     (∃ k m, msgs A !! k = Some m ∧ unread_from peer reader m = true ∧
        ((key, v) = (KM k, Some (record_text (mark_read now m))) ∨ (key, v) = (KP reader k, None))) ∨
     (key, v) = (KN reader, Some (Number (cnt (unread_of reader) (msgs A) - cnt (unread_from peer reader) (msgs A)))) ∨
     (key, v) = (KD reader peer, None) ∨
     (key, v) = (KQ reader, counter (cnt (pending_of reader) (msgs A) - cnt (pending_from peer reader) (msgs A)))) →
  (∀ k m, msgs A !! k = Some m → unread_from peer reader m = true →
     KM k ∈ ops.*1 ∧ (delivery_state m = kPending → KP reader k ∈ ops.*1)) →
  KN reader ∈ ops.*1 → KD reader peer ∈ ops.*1 → KQ reader ∈ ops.*1 →
  Rep (db_write d (enc_ops ops)) (read_all A now reader peer).
Proof.
  intros HR Hpos Hwk Hin Hall HN HD HQ. apply (rep_char d A); [done|done| |].
  - intros key v Hop.
    destruct (Hin key v Hop) as [(k & m & Hm & Hu & [[= -> ->]|[= -> ->]])|[[= -> ->]|[[= -> ->]|[= -> ->]]]];
      cbn [expected].
    + by rewrite (lookup_read k m).
    + rewrite (lookup_read k m) by done. unfold pending_of. cbn. by rewrite andb_false_r.
    + rewrite read_unread_of, read_cnt_same by done.
      assert (cnt (unread_from peer reader) (msgs A) ≤ cnt (sent_to reader) (msgs A)).
      { apply cnt_le. intros m (_ & <- & _)%unread_from_spec. apply Z.eqb_refl. }
      destruct (Z.eqb_spec (cnt (sent_to reader) (msgs A)) 0); [lia|done].
    + by rewrite read_unread_from.
    + by rewrite read_pending_of.
  - intros key Hk Hout. destruct key; cbn [expected]; try done.
    + rewrite lookup_unchanged; [done|]. intros m Hm. destruct (unread_from peer reader m) eqn:E; [|done].
      by destruct (Hall mid m Hm E).
    + destruct (msgs A !! mid) as [m|] eqn:Hm.
      * destruct (unread_from peer reader m) eqn:E.
        -- by rewrite (lookup_read mid m).
        -- rewrite lookup_unchanged by congruence. by rewrite Hm.
      * rewrite lookup_unchanged by congruence. by rewrite Hm.
    + destruct (msgs A !! mid) as [m|] eqn:Hm; [|rewrite lookup_unchanged by congruence; by rewrite Hm].
      destruct (unread_from peer reader m) eqn:E; [|rewrite lookup_unchanged by congruence; by rewrite Hm].
      rewrite (lookup_read mid m) by done. unfold pending_of. cbn. rewrite andb_false_r.
      destruct (Hall mid m Hm E) as [_ HP]. apply unread_from_spec in E as (_ & Hto & _). unfold sent_to.
      destruct (Z.eqb_spec (to_user_id m) receiver) as [<-|]; [|done].
      rewrite bool_decide_false; [done|]. intros Hst. rewrite Hto in Hout. auto.
    + rewrite !read_cnt_same; [done|..|done]. intros m (_ & Hto & _)%unread_from_spec.
      unfold unread_of, sent_to. destruct (Z.eqb_spec (to_user_id m) receiver) as [<-|E].
      * by rewrite Hto in Hout.
      * by cbn; rewrite (proj2 (Z.eqb_neq _ _) E).
    + rewrite read_cnt_same; [done|]. intros m (Hf & Hto & _)%unread_from_spec. unfold unread_from, sent. cbn.
      destruct (Z.eqb_spec (from_user_id m) peer0) as [<-|]; [|done].
      destruct (Z.eqb_spec (to_user_id m) receiver) as [<-|]; [|done]. by rewrite Hf, Hto in Hout.
    + rewrite read_cnt_same; [done|]. intros m (_ & Hto & _)%unread_from_spec.
      unfold pending_of, sent_to. cbn. destruct (Z.eqb_spec (to_user_id m) receiver) as [<-|]; [|done].
      by rewrite Hto in Hout.
    + by rewrite read_cnt_same.
    + by rewrite read_cnt_same.
Qed.

Lemma wf_read :
  (∀ k m, msgs A !! k = Some m → unread_from peer reader m = true →
     is_Some (json_dump (EncodeRecord (mark_read now m)))) →
  wf (read_all A now reader peer).
Proof.
  intros Htext. apply wf_upd; [done|]. intros k m Hm. destruct (wf_msgs A Hwf k m Hm) as (_ & _ & Hok).
  unfold read_at_. destruct (unread_from peer reader m) eqn:E; [|done].
  split; [apply mark_read_same|]. apply mark_read_ok; eauto.
Qed.

End ReadDialog.

End Changes.
