(* ===== verification/LocalStoreSteps.v ===== *)
(** * Steps of the local store

    What the building blocks of the operations do to a state that holds some
    contents: the checks, event slots and the index of pending events, writes, the
    allocation of identifiers, and the scope that turns exceptions into results.  A
    failed operation leaves the contents as they were (but for the reserved
    identifiers), or the store refuses to go on and every state a crash can leave
    holds the contents before or after the operation. *)
From Stdlib Require Import ZArith Lia String.
From stdpp Require Import base list numbers sorting option gmap.
From S2P Require Import Prelude ByteStrings MessageTypes KeyValueEngine DomainEvents LocalPrivateStore LocalStoreKeys LocalStoreModel LocalStoreInvariant LocalStoreChanges.

Local Open Scope Z_scope.
Local Open Scope width_scope.

(** ** Slots *)

Section Slots.
Implicit Types (sl : list (option (list Z))) (ix : gmap (list Z) bool) (p : gmap (list Z) (list Z)) (id : list Z).

Lemma slot_ids_app sl sl' : slot_ids (sl ++ sl') = slot_ids sl ++ slot_ids sl'.
Proof. apply omap_app. Qed.

Lemma elem_of_slot_ids sl id : id ∈ slot_ids sl ↔ Some id ∈ sl.
Proof.
  unfold slot_ids. rewrite list_elem_of_omap. split.
  - intros (x & Hx & E). cbn in E. by subst x.
  - intros Hx. by exists (Some id).
Qed.

Lemma foldr_slots {B} (g : list Z → B → B) b sl :
  foldr (λ slot m, match slot with Some i => g i m | None => m end) b sl = foldr g b (slot_ids sl).
Proof. induction sl as [|[x|] sl IH]; [done|..]; cbn; by rewrite IH. Qed.

Lemma lookup_put_all (v : bool) (ids : list (list Z)) ix id :
  foldr (λ i m, <[i := v]> m) ix ids !! id = if decide (id ∈ ids) then Some v else ix !! id.
Proof.
  induction ids as [|x ids IH]; cbn [foldr]; [done|].
  destruct (decide (id = x)) as [->|Hne].
  - rewrite lookup_insert_eq, decide_True; [done|]. left.
  - rewrite lookup_insert_ne, IH by done.
    destruct (decide (id ∈ ids)); [by rewrite decide_True by (by right)|].
    rewrite decide_False; [done|]. by rewrite not_elem_of_cons.
Qed.

Lemma lookup_slot_index sl ix id :
  slot_index sl ix !! id = if decide (id ∈ slot_ids sl) then Some false else ix !! id.
Proof. unfold slot_index. rewrite (foldr_slots (λ i m, <[i := false]> m)). apply lookup_put_all. Qed.

Lemma lookup_commit sl ix id :
  foldr (λ slot m, match slot with Some i => <[i := true]> m | None => m end) ix sl !! id =
  if decide (id ∈ slot_ids sl) then Some true else ix !! id.
Proof. rewrite (foldr_slots (λ i m, <[i := true]> m)). apply lookup_put_all. Qed.

Lemma lookup_erase (ids : list (list Z)) ix id :
  foldr (λ i m, delete i m) ix ids !! id = if decide (id ∈ ids) then None else ix !! id.
Proof.
  induction ids as [|x ids IH]; cbn [foldr]; [done|].
  destruct (decide (id = x)) as [->|Hne].
  - rewrite lookup_delete_eq, decide_True; [done|]. left.
  - rewrite lookup_delete_ne, IH by done.
    destruct (decide (id ∈ ids)); [by rewrite decide_True by (by right)|].
    rewrite decide_False; [done|]. by rewrite not_elem_of_cons.
Qed.

End Slots.

Section Steps.
Context {D : Type} `{EngineLaws D} `{JsonLaws}.
Variable options : LocalPrivateStoreOptions.
Implicit Types (s : Store D) (A : Contents).

(** ** What a state says about the contents and the events *)

Definition same_core s s' : Prop :=
  db s' = db s ∧ db_open s' = db_open s ∧ closing s' = closing s ∧ poisoned s' = poisoned s ∧
  reserved_end s' = reserved_end s ∧ next_id s' = next_id s ∧ recoverable s' = recoverable s.

Definition same_events s s' : Prop :=
  pending_events s' = pending_events s ∧ slots s' = slots s ∧
  pending_index_enabled s' = pending_index_enabled s ∧ pending_index s' = pending_index s.

Lemma core_frame s s' A : same_core s s' → core s A → core s' A.
Proof.
  intros (E1 & E2 & E3 & E4 & E5 & E6 & E7) [].
  split; rewrite ?E1, ?E2, ?E3, ?E4, ?E5, ?E6, ?E7; done.
Qed.

Lemma events_frame s s' p : same_events s s' → events_ok s p → events_ok s' p.
Proof. intros (E1 & E2 & E3 & E4) []. split; rewrite ?E1, ?E2, ?E3, ?E4; done. Qed.

Lemma good_frame s s' A : same_core s s' → same_events s s' → good s A → good s' A.
Proof. intros Hc He [? ?]. split; [by eapply core_frame|by eapply events_frame]. Qed.

(** ** Failed operations *)

Definition same_but_high A (B : Contents) : Prop := ∃ h, high A ≤ h < 2 ^ 63 - 1 ∧ B = with_high A h.

Definition failing A (T : Contents → Prop) s : Prop :=
  (∃ B, same_but_high A B ∧ good s B) ∨ broken s (λ B, same_but_high A B ∨ T B).

Lemma same_but_high_refl A : wf A → same_but_high A A.
Proof. intros Hwf. exists (high A). pose proof (wf_high A Hwf). split; [lia|by destruct A]. Qed.

Lemma same_but_high_trans A B C : same_but_high A B → same_but_high B C → same_but_high A C.
Proof. intros (h & Hh & ->) (h' & Hh' & ->). cbn in Hh'. exists h'. split; [lia|done]. Qed.

Lemma good_failing s A T : good s A → failing A T s.
Proof. intros Hg. left. exists A. split; [|done]. apply same_but_high_refl, Hg. Qed.

Lemma failing_mono A B T T' s :
  same_but_high A B → (∀ C, T C → T' C) → failing B T s → failing A T' s.
Proof.
  intros HAB HT [(C & HC & Hg)|[Hp Hd]].
  - left. exists C. split; [by eapply same_but_high_trans|done].
  - right. split; [done|]. intros d Hin. destruct (Hd d Hin) as (C & [HC|HC] & Hr); exists C; split; auto.
    left. by eapply same_but_high_trans.
Qed.

Lemma recov_self d A : Rep d A → wf A → recov d A.
Proof. intros HR Hwf. exists (pend A). by destruct A. Qed.

(** ** The end of a scope *)

Definition unwound (n : nat) s : Store D := set_slots (take n (slots s)) (foldr destroy_slot s (drop n (slots s))).

Lemma destroy_core s slot : same_core s (destroy_slot slot s).
Proof. by destruct slot. Qed.

Lemma destroy_all s sl :
  same_core s (foldr destroy_slot s sl) ∧
  pending_index_enabled (foldr destroy_slot s sl) = pending_index_enabled s ∧
  pending_index (foldr destroy_slot s sl) = foldr (λ i m, delete i m) (pending_index s) (slot_ids sl) ∧
  (Z.of_nat (length sl) ≤ pending_events s < 2 ^ 64 →
   pending_events (foldr destroy_slot s sl) = pending_events s - Z.of_nat (length sl)).
Proof.
  induction sl as [|x sl (Hc & He & Hi & Hn)].
  { cbn. unfold same_core. repeat split; try done. lia. }
  cbn [foldr]. destruct Hc as (E1 & E2 & E3 & E4 & E5 & E6 & E7). split_and!.
  - destruct x; unfold same_core; cbn; done.
  - destruct x; cbn; done.
  - destruct x; cbn; by rewrite Hi.
  - intros Hb. assert (pending_events (destroy_slot x (foldr destroy_slot s sl)) =
      pending_events (foldr destroy_slot s sl) -₆₄ 1) as -> by by destruct x.
    cbn [length] in *. rewrite Hn by lia. rewrite u64_small; unfold is_u64; lia.
Qed.

Lemma unwound_events s p n :
  (n ≤ length (slots s))%nat → events_ok s p → events_ok (unwound n s) p.
Proof.
  intros Hn [Hev Hroom Hnd Hnew Hix].
  destruct (destroy_all s (drop n (slots s))) as (_ & He & Hi & Hp).
  pose proof (take_drop n (slots s)) as Htd.
  assert (Hlen : (length (take n (slots s)) + length (drop n (slots s)) = length (slots s))%nat)
    by (by rewrite <- length_app, Htd).
  assert (Hids : slot_ids (slots s) = slot_ids (take n (slots s)) ++ slot_ids (drop n (slots s)))
    by (by rewrite <- slot_ids_app, Htd).
  rewrite Hids in Hnd. apply list.NoDup_app in Hnd as (Hnd1 & Hdis & Hnd2).
  split; unfold unwound; cbn [set_slots slots pending_events pending_index pending_index_enabled].
  - rewrite Hp by lia. lia.
  - rewrite Hp by lia. lia.
  - done.
  - intros id Hid. apply Hnew. rewrite Hids. apply elem_of_app. by left.
  - rewrite He, Hi. intros Hon. apply map_eq. intros id.
    rewrite lookup_erase, lookup_slot_index, Hix, lookup_slot_index, Hids by done.
    destruct (decide (id ∈ slot_ids (drop n (slots s)))) as [Hin|Hin].
    + rewrite decide_False by (intros ?; by eapply Hdis).
      rewrite lookup_fmap, Hnew; [done|]. rewrite Hids. apply elem_of_app. by right.
    + destruct (decide (id ∈ slot_ids (take n (slots s)))) as [Ht|Ht].
      * rewrite decide_True; [done|]. apply elem_of_app. by left.
      * rewrite decide_False; [done|]. rewrite elem_of_app. tauto.
Qed.

Lemma unwound_core s n : same_core s (unwound n s).
Proof. destruct (destroy_all s (drop n (slots s))) as (Hc & _). done. Qed.

Lemma unwound_slots s n : slots (unwound n s) = take n (slots s).
Proof. done. Qed.

Lemma unwound_good s A n : (n ≤ length (slots s))%nat → good s A → good (unwound n s) A.
Proof.
  intros Hn [Hc He]. split; [|by apply unwound_events]. eapply core_frame; [apply unwound_core|done].
Qed.

Lemma broken_frame s s' T : same_core s s' → broken s T → broken s' T.
Proof. intros (E1 & _ & _ & E4 & _ & _ & E7) [Hp Hd]. unfold broken. by rewrite E1, E4, E7. Qed.

Lemma unwinding_spec {R} (m : M D R) s Q E :
  wp m Q E s →
  match unwinding m s with
  | (s', inr r) => Q r s'
  | (s', inl e) => ∃ s1, E e s1 ∧ s' = unwound (length (slots s)) s1
  end.
Proof. unfold wp, unwinding. destruct (m s) as [s1 [e|r]]; [|done]. intros HE. by exists s1. Qed.

(** An operation: its result, or the result of its exception. *)
Lemma Call_spec {R} (failed : MessageApplicationStatus → list Z → R) (fn : M D R) s A Q E :
  good s A → slots s = [] → wp fn Q E s →
  ∀ s' r, Call failed fn s = (s', r) →
  Q r s' ∨ ∃ e s1, E e s1 ∧ s' = unwound 0 s1 ∧ r = failed (exn_status e) (exn_message e).
Proof.
  intros [Hc _] Hsl Hwp s' r. unfold Call.
  assert (Hop : wp (Open ;; fn) Q E s).
  { apply wp_bind. unfold Open. apply wp_bind, wp_gets, wp_require; [done|].
    destruct Hc as [[E1 E2] E3 _ _ _ _ _ _]. unfold id. by rewrite E1, E2, E3. }
  apply unwinding_spec in Hop. destruct (unwinding (Open ;; fn) s) as [s1 [e|x]]; intros [= <- <-].
  - right. destruct Hop as (s2 & HE & ->). rewrite Hsl. eauto.
  - by left.
Qed.

(** A failed operation leaves no slot. *)
Lemma failing_unwound s A T :
  failing A T s →
  (∃ B, same_but_high A B ∧ good (unwound 0 s) B ∧ slots (unwound 0 s) = []) ∨
  broken (unwound 0 s) (λ B, same_but_high A B ∨ T B).
Proof.
  intros [(B & HB & Hg)|Hb].
  - left. exists B. split; [done|]. split; [|done]. apply unwound_good; [lia|done].
  - right. eapply broken_frame; [apply unwound_core|done].
Qed.

(** ** Checks *)

(** An exception that is answered with a failure. *)
Definition fails (e : Exn) : Prop := exn_status e ≠ kSucceeded.

Definition actor_ok (id : Z) : Prop :=
  0 < id ∧ (resolve_identity options = true ∨ id ∈ initial_user_ids options).
Definition dialog_ok (a b : Z) : Prop := actor_ok a ∧ actor_ok b ∧ a ≠ b.

Lemma wp_Actor id Q E s :
  (actor_ok id → Q tt s) → (∀ e, fails e → ¬ actor_ok id → E e s) → wp (Actor options id) Q E s.
Proof.
  intros HQ HE. unfold Actor. apply wp_bind, wp_require; intros Hb.
  - apply Z.ltb_lt in Hb. destruct (resolve_identity options) eqn:Hr.
    + apply wp_ret, HQ. split; auto.
    + apply wp_require; intros Hin.
      * apply bool_decide_eq_true in Hin. apply HQ. split; auto.
      * apply bool_decide_eq_false in Hin. apply HE; [done|]. intros [_ [?|?]]; congruence.
  - apply Z.ltb_ge in Hb. apply HE; [done|]. intros [? _]. lia.
Qed.

Lemma wp_Dialog a b Q E s :
  (dialog_ok a b → Q tt s) → (∀ e, fails e → ¬ dialog_ok a b → E e s) → wp (Dialog options a b) Q E s.
Proof.
  intros HQ HE. unfold Dialog. apply wp_bind, wp_Actor; [|intros e He Hn; apply HE; [done|]; by intros (? & ? & ?)].
  intros Ha. apply wp_bind, wp_Actor; [|intros e He Hn; apply HE; [done|]; by intros (? & ? & ?)].
  intros Hb. apply wp_require; intros Hab.
  - apply HQ. split_and!; [done..|]. by apply negb_true_iff, Z.eqb_neq in Hab.
  - apply HE; [done|]. intros (_ & _ & Hne). apply negb_false_iff, Z.eqb_eq in Hab. done.
Qed.

Lemma wp_Limit n Q E s :
  (0 < n ≤ 1001 → Q tt s) → (∀ e, fails e → ¬ 0 < n ≤ 1001 → E e s) → wp (Limit n) Q E s.
Proof.
  intros HQ HE. unfold Limit. apply wp_require; intros Hb.
  - apply andb_true_iff in Hb as [?%Z.ltb_lt ?%Z.leb_le]. auto.
  - apply HE; [done|]. intros [? ?]. apply andb_false_iff in Hb as [?%Z.ltb_ge|?%Z.leb_gt]; lia.
Qed.

(** Room for the locks of some users. *)
Definition locks_ok s (actors : list Z) : Prop :=
  exact_user_locking options = true →
  Forall (λ a, 0 < a) actors ∧ Z.of_nat (base.size (list_to_set actors ∪ user_locks s)) ≤ 100000.

Lemma wp_LockActorsLoop (ordered : list Z) s Q E :
  (∀ L, Q tt (set_user_locks L s)) →
  (∀ e L, fails e → ¬ (Forall (λ a, 0 < a) ordered ∧ Z.of_nat (base.size (list_to_set ordered ∪ user_locks s)) ≤ 100000) →
          E e (set_user_locks L s)) →
  wp (LockActorsLoop ordered) Q E s.
Proof.
  revert s. induction ordered as [|a ordered IH]; intros s HQ HE.
  { apply wp_ret. specialize (HQ (user_locks s)). by destruct s. }
  assert (Hself : set_user_locks (user_locks s) s = s) by by destruct s.
  cbn [LockActorsLoop]. apply wp_bind, wp_require; intros Ha.
  2: { rewrite <- Hself. apply HE; [done|]. apply Z.ltb_ge in Ha. intros [[? _]%list.Forall_cons _]. lia. }
  apply Z.ltb_lt in Ha. apply wp_bind, wp_gets. apply wp_bind. case_decide as Hin.
  - apply wp_ret. apply IH; [done|]. intros e L He Hn. apply HE; [done|]. intros [[_ ?]%list.Forall_cons Hsz].
    apply Hn. split; [done|].
    assert (list_to_set ordered ∪ user_locks s ⊆ list_to_set (a :: ordered) ∪ user_locks s) as Hs%subseteq_size
      by set_solver. lia.
  - apply wp_bind, wp_require; intros Hsz.
    + apply wp_modify. apply IH; [intros L; apply (HQ L)|]. intros e L He Hn. apply (HE e L); [done|].
      intros [[_ ?]%list.Forall_cons Hsz']. apply Hn. split; [done|]. cbn [user_locks set_user_locks].
      assert (list_to_set ordered ∪ ({[a]} ∪ user_locks s) ⊆ list_to_set (a :: ordered) ∪ user_locks s)
        as Hs%subseteq_size by set_solver. lia.
    + rewrite <- Hself. apply HE; [done|]. intros [_ Hsz']. apply Z.ltb_ge in Hsz.
      assert (({[a]} ∪ user_locks s) ⊆ (list_to_set (a :: ordered) ∪ user_locks s)) as Hsub%subseteq_size by set_solver.
      rewrite size_union, size_singleton in Hsub by set_solver. lia.
Qed.

Lemma wp_LockActors (actors : list Z) s Q E :
  (∀ L, Q tt (set_user_locks L s)) →
  (∀ e L, fails e → ¬ locks_ok s actors → E e (set_user_locks L s)) →
  wp (LockActors options actors) Q E s.
Proof.
  intros HQ HE. unfold LockActors. destruct (exact_user_locking options) eqn:Hx.
  - apply wp_LockActorsLoop; [done|]. intros e L He Hn. apply HE; [done|]. intros Hok. apply Hn. destruct (Hok Hx) as [Hpos Hsz].
    split.
    + apply list.Forall_forall. intros a Ha. rewrite merge_sort_Permutation, elem_of_remove_dups in Ha.
      exact (proj1 (list.Forall_forall _ _) Hpos a Ha).
    + assert (list_to_set (merge_sort Z.le (remove_dups actors)) ∪ user_locks s ⊆ list_to_set actors ∪ user_locks s)
        as Hs%subseteq_size; [|lia].
      intros a. rewrite !elem_of_union, !elem_of_list_to_set.
      rewrite merge_sort_Permutation, elem_of_remove_dups. done.
  - apply wp_ret. specialize (HQ (user_locks s)). by destruct s.
Qed.

(** The locks change nothing else. *)
Lemma LockActors_cases (actors : list Z) s :
  ∃ L r, LockActors options actors s = (set_user_locks L s, r) ∧ match r with inl e => fails e | inr _ => True end.
Proof.
  assert (Hw : wp (LockActors options actors) (λ _ s', ∃ L, s' = set_user_locks L s)
    (λ e s', fails e ∧ ∃ L, s' = set_user_locks L s) s) by (apply wp_LockActors; eauto).
  unfold wp in Hw. destruct (LockActors options actors s) as [s1 [e|[]]].
  - destruct Hw as (He & L & ->). by exists L, (inl e).
  - destruct Hw as (L & ->). by exists L, (inr tt).
Qed.

Lemma good_locks s A L : good s A → good (set_user_locks L s) A.
Proof. by apply good_frame. Qed.

(** The canonical identity of a client identity. *)
Definition canonical_cid (e : Env) (cid : list Z) : list Z :=
  if resolve_identity options then resolved_cid e else cid.
Definition identity_ok (e : Env) : Prop :=
  resolve_identity options = true → resolved_status e = kSucceeded ∧ bsize (resolved_cid e) ≤ 1024.

Lemma wp_Identity e cid Q E s :
  (Q (canonical_cid e cid) s) → (∀ ex, fails ex → ¬ identity_ok e → E ex s) → wp (Identity options e cid) Q E s.
Proof.
  unfold Identity, canonical_cid, identity_ok. intros HQ HE. destruct (resolve_identity options); cbn [negb].
  - destruct (decide (resolved_status e = kSucceeded)) as [Hs|Hs].
    + rewrite bool_decide_true by done. cbn [negb]. apply wp_bind, wp_require; intros Hb.
      * by apply wp_ret.
      * apply HE; [done|]. apply Z.leb_gt in Hb. intros Hok. destruct (Hok eq_refl). lia.
    + rewrite bool_decide_false by done. apply wp_throw, HE; [done|]. intros Hok. by destruct (Hok eq_refl).
  - by apply wp_ret.
Qed.

(** ** Slots and the index of pending events *)

Definition config_ok : Prop :=
  0 < max_pending_events options ≤ 1000000 ∧ IsValidTopic (message_events_topic options) = true.

Lemma ValidConfig_ok : ValidConfig options = true → config_ok.
Proof.
  unfold ValidConfig. rewrite !andb_true_iff. intros H'. split; [|tauto].
  destruct H' as [[[[[[[[_ H1'] H2'] _] _] _] _] _] _]. apply Z.ltb_lt in H1'. apply Z.leb_le in H2'. lia.
Qed.

Lemma wp_NewSlot s A Q E :
  config_ok → good s A →
  (∀ s', good s' A → slots s' = slots s ++ [None] → same_core s s' →
         pending_index_enabled s' = pending_index_enabled s →
         pending_events s' ≤ max_pending_events options → Q tt s') →
  (∀ e, fails e → max_pending_events options ≤ pending_events s → E e s) →
  wp (NewSlot options) Q E s.
Proof.
  intros Hcfg [Hc [Hev Hroom Hnd Hnew Hix]] HQ HE. unfold NewSlot. apply wp_bind, wp_gets, wp_bind, wp_require; intros Hb.
  2: { apply HE; [done|]. by apply Z.ltb_ge. }
  apply Z.ltb_lt in Hb. destruct Hcfg as [Hcfg _].
  assert (Hs : pending_events s +₆₄ 1 = pending_events s + 1) by (apply u64_small; unfold is_u64; lia).
  apply wp_modify, HQ; [|done..|].
  - split; [by apply (core_frame s)|]. split; cbn [set_slots set_pending_events slots pending_events pending_index
      pending_index_enabled]; rewrite ?Hs.
    + rewrite length_app. cbn [length]. lia.
    + lia.
    + rewrite slot_ids_app, app_nil_r. done.
    + intros id. rewrite slot_ids_app, app_nil_r. apply Hnew.
    + intros Hon. rewrite (Hix Hon). apply map_eq. intros id.
      rewrite !lookup_slot_index, slot_ids_app, app_nil_r. done.
  - cbn. rewrite Hs. lia.
Qed.

(** The slot made last gets its identity. *)
Lemma wp_Prepare s A sl id Q E :
  good s A → slots s = sl ++ [None] → pend A !! id = None → id ∉ slot_ids sl →
  (∀ s', good s' A → same_core s s' → pending_index_enabled s' = pending_index_enabled s →
         pending_events s' = pending_events s →
         slots s' = sl ++ [if pending_index_enabled s then Some id else None] → Q tt s') →
  wp (Prepare id) Q E s.
Proof.
  intros Hg Hsl Hp Hid HQ. pose proof Hg as [Hc [Hev Hroom Hnd Hnew Hix]]. unfold Prepare. apply wp_bind, wp_gets.
  destruct (pending_index_enabled s) eqn:Hon; cbn [negb].
  2: { by apply wp_ret, HQ. }
  apply wp_bind, wp_require; intros Hb.
  2: { exfalso. apply bool_decide_eq_false in Hb. apply Hb. rewrite (Hix eq_refl), lookup_slot_index, Hsl, slot_ids_app.
       rewrite decide_False by (rewrite app_nil_r; done). by rewrite lookup_fmap, Hp. }
  assert (Hins : <[(length (sl ++ [None]) - 1)%nat := Some id]> (sl ++ [None]) = sl ++ [Some id]).
  { rewrite length_app. cbn [length]. rewrite insert_app_r_alt by lia. by replace (_ - 1 - _)%nat with 0%nat by lia. }
  apply wp_modify, HQ; try done; cbn [slots set_slots set_pending_index]; [|by rewrite Hsl, Hins].
  split; [by apply (core_frame s)|].
  split; cbn [set_slots set_pending_index slots pending_events pending_index pending_index_enabled];
    rewrite ?Hsl, ?Hins, ?slot_ids_app.
  - rewrite Hev, Hsl, !length_app. done.
  - done.
  - rewrite Hsl, slot_ids_app, app_nil_r in Hnd. apply list.NoDup_app. split; [done|]. split.
    + intros x Hx. cbn. rewrite list_elem_of_singleton. by intros ->.
    + apply NoDup_singleton.
  - intros x Hx. apply elem_of_app in Hx as [Hx|Hx].
    + apply Hnew. rewrite Hsl, slot_ids_app. apply elem_of_app. by left.
    + cbn in Hx. apply list_elem_of_singleton in Hx as ->. done.
  - intros _. rewrite (Hix eq_refl). apply map_eq. intros x. destruct (decide (x = id)) as [->|Hne].
    + rewrite lookup_insert_eq, lookup_slot_index, slot_ids_app, decide_True; [done|].
      apply elem_of_app. right. cbn. by left.
    + rewrite lookup_insert_ne, !lookup_slot_index, Hsl, !slot_ids_app by done. cbn [slot_ids omap].
      destruct (decide (x ∈ slot_ids sl)).
      * rewrite !decide_True; [done|..]; apply elem_of_app; by left.
      * rewrite !decide_False; [done|..]; rewrite elem_of_app; cbn; rewrite ?list_elem_of_singleton;
          intros [?|?]; try done; by apply elem_of_nil in H3.
Qed.

(** The events after the slots were committed. *)
Lemma events_commit s p p' :
  events_ok s p → Z.of_nat (base.size p') = Z.of_nat (base.size p) + Z.of_nat (length (slots s)) →
  (pending_index_enabled s = true →
   ∀ id, is_Some (p' !! id) ↔ is_Some (p !! id) ∨ id ∈ slot_ids (slots s)) →
  wp CommitSlots (λ _ s', events_ok s' p' ∧ slots s' = [] ∧ same_core s s') (λ _ _, False) s.
Proof.
  intros [Hev Hroom Hnd Hnew Hix] Hsize Hdom. unfold CommitSlots. apply wp_modify. split_and!; [|done..].
  split; cbn [set_slots set_pending_index slots pending_events pending_index pending_index_enabled].
  - cbn [length]. lia.
  - done.
  - constructor.
  - intros id Hid. by apply elem_of_nil in Hid.
  - intros Hon. apply map_eq. intros id. rewrite lookup_commit, (Hix Hon), lookup_slot_index. cbn [slot_index foldr].
    rewrite !lookup_fmap. specialize (Hdom Hon id). destruct (decide (id ∈ slot_ids (slots s))) as [Hin|Hin].
    + destruct (p' !! id) eqn:E; [done|]. exfalso. apply (is_Some_None (A := list Z)). apply Hdom. by right.
    + destruct (p' !! id) eqn:E, (p !! id) eqn:E'; try done; exfalso.
      * destruct (proj1 Hdom) as [[? ?]|?]; [eauto|congruence|done].
      * apply (is_Some_None (A := list Z)). apply Hdom. left. eauto.
Qed.

(** ** Writes *)

Variable outcome : Z → WriteOutcome.

(** What a write leaves when it fails: nothing, or all of it. *)
Lemma wp_WriteDb s A A' batch Q E :
  core s A → Rep (db_write (db s) batch) A' → wf A' →
  (∀ f d, d = db_write (db s) batch → Q tt (set_recoverable [d] (set_db d (set_stats f s)))) →
  (∀ e s', fails e → outcome (stats s engine_write_calls) ≠ Written → broken s' (λ B, B = A ∨ B = A') → E e s') →
  wp (Write outcome batch true) Q E s.
Proof.
  intros [Ho Hp HR Hwf Hh Hn Hfr Hrec] HR' Hwf' HQ HE. unfold Write, WriteDirect.
  apply wp_bind, wp_gets, wp_bind, wp_require; unfold id; rewrite Hp; [|done]. intros _.
  apply wp_bind, wp_count. destruct (outcome (stats s engine_write_calls)) as [|applied reason] eqn:Ho'.
  - by apply wp_modify, HQ.
  - apply wp_bind, wp_modify, wp_throw, HE; [done|done|]. split; [done|]. intros d.
    cbn [set_recoverable set_db set_stats set_poisoned db recoverable]. intros Hd.
    assert (d ∈ db s :: db_write (db s) batch :: recoverable s) as Hd'.
    { apply elem_of_cons in Hd as [->|Hd].
      - destruct applied; [right; left|left].
      - apply elem_of_app in Hd as [Hd|Hd%list_elem_of_singleton]; [by do 2 right|subst; right; left]. }
    apply elem_of_cons in Hd' as [->|Hd']; [exists A; split; [by left|by apply recov_self]|].
    apply elem_of_cons in Hd' as [->|Hd']; [exists A'; split; [by right|by apply recov_self]|].
    exists A. split; [by left|by apply Hrec].
Qed.

Lemma wp_Write s A A' batch Q E :
  core s A → Rep (db_write (db s) batch) A' → wf A' → high A' = high A →
  (∀ mid m, msgs A' !! mid = Some m → mid < next_id s) →
  (∀ s', core s' A' → same_events s s' → Q tt s') →
  (∀ e s', fails e → outcome (stats s engine_write_calls) ≠ Written → broken s' (λ B, B = A ∨ B = A') → E e s') →
  wp (Write outcome batch true) Q E s.
Proof.
  intros Hc HR' Hwf' Hh' Hfr' HQ HE. apply (wp_WriteDb s A A'); [done..| |done]. intros f d ->. apply HQ; [|done].
  destruct Hc as [Ho Hp HR Hwf Hh Hn Hfr Hrec].
  split; cbn [set_recoverable set_db set_stats db db_open closing poisoned reserved_end next_id recoverable];
    try done; [congruence|]. intros d' ->%list_elem_of_singleton. by apply recov_self.
Qed.

(** A new identifier is above every identifier in use. *)
Lemma wp_NextId s A T Q E :
  good s A →
  (∀ s' B, good s' B → same_but_high A B → same_events s s' → 1 ≤ next_id s ≤ high B →
     (∀ mid m, msgs A !! mid = Some m → mid < next_id s) → next_id s' = next_id s + 1 → Q (next_id s) s') →
  (∀ e s', fails e → 2 ^ 63 - 1 - 4096 ≤ high A ∨ (∃ n, outcome n ≠ Written) → failing A T s' →
     (slots s' = slots s ∧ next_id s' = next_id s ∧ pending_index_enabled s' = pending_index_enabled s) ∨
     poisoned s' = true → E e s') →
  wp (NextId outcome) Q E s.
Proof.
  intros Hg HQ HE. pose proof Hg as [Hc He]. pose proof Hc as [Ho Hp HR Hwf Hh Hn Hfr Hrec].
  pose proof (wf_high A Hwf) as Hhi.
  assert (Hu : is_u64 (next_id s + 1)) by (unfold is_u64; lia).
  unfold NextId. apply wp_bind, wp_gets. unfold id. apply wp_bind.
  destruct (Z.ltb_spec (reserved_end s) (next_id s)) as [Hlt|Hge].
  - apply wp_bind, wp_require; intros Hb.
    2: { apply HE; [done| |by apply good_failing|by left]. left. apply Z.ltb_ge in Hb. lia. }
    apply Z.ltb_lt in Hb. set (h := reserved_end s + 4096).
    assert (Hwf' : wf (with_high A h)) by (apply wf_with_high; [done|lia]).
    pose proof (rep_with_high (db s) A h HR) as HR'.
    apply wp_bind, (wp_WriteDb s A (with_high A h)); [exact Hc|exact HR'|exact Hwf'| |].
    2: { intros e s' Hf Hout Hbr. apply HE; [done|right; eauto| |right; apply Hbr]. right. destruct Hbr as [Hps Hd].
         split; [done|]. intros d Hin. destruct (Hd d Hin) as (B & [->| ->] & Hrv).
         - exists A. split; [left; by apply same_but_high_refl|done].
         - exists (with_high A h). split; [left|done]. exists h. split; [lia|done]. }
    intros f d Hd. apply wp_bind, wp_modify, wp_count, wp_bind, wp_gets, wp_bind, wp_modify, wp_ret.
    cbn [set_next_id set_stats set_reserved_end set_recoverable set_db next_id].
    assert (Hsb : same_but_high A (with_high A h)) by (exists h; split; [lia|done]).
    apply (HQ _ (with_high A h)); [|done|done|cbn; lia|done|cbn; by apply u64_small].
    split; [|by apply (events_frame s)].
    split; cbn [set_next_id set_stats set_reserved_end set_recoverable set_db db db_open closing poisoned reserved_end
      next_id recoverable]; try done.
    + by rewrite Hd.
    + rewrite u64_small by done. lia.
    + intros mid m Hm. rewrite u64_small by done. specialize (Hfr mid m Hm). lia.
    + intros d' ->%list_elem_of_singleton. rewrite Hd. by apply recov_self.
  - apply wp_ret, wp_bind, wp_gets, wp_bind, wp_modify, wp_ret. apply (HQ _ A); [|by apply same_but_high_refl|done|lia|done|by apply u64_small].
    split; [|by apply (events_frame s)]. split; cbn [set_next_id db db_open closing poisoned reserved_end next_id recoverable];
      try done.
    + rewrite u64_small by done. lia.
    + intros mid m Hm. rewrite u64_small by done. specialize (Hfr mid m Hm). lia.
Qed.

End Steps.
