(* ===== verification/LocalStorePersist.v ===== *)
(** * Persisting messages in the local store

    What [PersistPrivateMessage] does: a known identity is answered with the message
    it has, a new one adds the message with its indexes, counters and event in one
    write, and a refusal or a failed write leaves the contents as they were. *)
From Stdlib Require Import ZArith Lia String.
From stdpp Require Import base list numbers sorting option gmap.
From S2P Require Import Prelude ByteStrings MessageTypes KeyValueEngine DomainEvents LocalPrivateStore LocalStoreKeys LocalStoreModel LocalStoreInvariant LocalStoreChanges LocalStoreSteps.

Local Open Scope Z_scope.
Local Open Scope width_scope.

Section Persist.
Context {D : Type} `{EngineLaws D} `{JsonLaws}.
Variable options : LocalPrivateStoreOptions.
Implicit Types (s : Store D) (A : Contents).

(** ** Texts of events *)

(** The JSON value of an event in the engine. *)
Definition event_json (ev : DomainEvent) (topic body : list Z) : Json :=
  JObject [(str "body", JString body); (str "event_id", JString (event_id ev)); (str "key", JString (event_id ev));
           (str "tag", JString (event_type ev)); (str "topic", JString topic)].

Definition event_clean (ev : DomainEvent) : Prop := Valid ev = true ∧ json_utf8 (envelope ev).

Lemma topic_utf8 topic : IsValidTopic topic = true → utf8 topic = true.
Proof.
  unfold IsValidTopic. destruct (bempty topic || (128 <? bsize topic)); [done|]. rewrite forallb_forall.
  intros Hc. apply utf8_ascii, list.Forall_forall. intros c Hin. specialize (Hc c (proj1 (list_elem_of_In _ _) Hin)).
  unfold topic_char in Hc. rewrite !orb_true_iff, !andb_true_iff, !Z.leb_le, !Z.eqb_eq in Hc. lia.
Qed.

Lemma event_json_ok ev topic body text :
  IsValidTopic topic = true → canonical (payload ev) → is_u32 (schema_version ev) →
  Encode ev = Some body → json_dump (event_json ev topic body) = Some text → event_ok text (event_id ev).
Proof.
  intros Ht Hp Hv Hb Hd. exists (MkPendingEvent (event_id ev) topic (event_type ev) (event_id ev) body).
  intros T s. unfold DecodeEvent.
  assert (Hc : canonical (event_json ev topic body)) by (split; [literal_sorted|done]).
  rewrite (dump_parse _ _ Hc Hd). erewrite bind_ok by reflexivity.
  do 5 (erewrite bind_ok by reflexivity). rewrite (encode_decode ev body Hb Hp Hv).
  erewrite bind_ok; [done|]. apply require_ok. by rewrite !bool_decide_true, Ht by done.
Qed.

Lemma wp_event_text ev topic spec Q E s :
  IsValidTopic topic = true → canonical (payload ev) → is_u32 (schema_version ev) →
  spec_of ev topic = Some spec →
  (∀ text, event_ok text (event_id ev) → Q text s) → (∀ ex, fails ex → ¬ event_clean ev → E ex s) →
  wp (event_text spec) Q E s.
Proof.
  intros Ht Hp Hv Hs HQ HE. unfold spec_of, CheckedTopic in Hs. rewrite Ht in Hs. injection Hs as <-.
  unfold event_text. cbn [spec_event spec_topic spec_tag spec_message_key].
  destruct (Encode ev) as [body|] eqn:Hb.
  - apply wp_json.
    + intros text Hd. apply HQ. by eapply event_json_ok.
    + intros Hn. change (json_dump (event_json ev topic body) = None) in Hn. apply HE; [done|]. intros [Hval Hu].
      assert (is_Some (json_dump (event_json ev topic body))) as [t E']; [|by rewrite E' in Hn].
      apply dump_total. unfold Encode in Hb. rewrite Hval in Hb. cbn [negb] in Hb.
      pose proof (dump_utf8 _ _ Hb). rewrite envelope_fields in Hu. cbn [json_utf8] in Hu.
      pose proof (topic_utf8 topic Ht). cbn [json_utf8 event_json].
      split_and!; try done; try tauto; by apply utf8_ascii; repeat constructor.
  - apply wp_throw, HE; [done|]. intros [Hval Hu]. unfold Encode in Hb. rewrite Hval in Hb. cbn [negb] in Hb.
    apply dump_total in Hu as [t Hd]. congruence.
Qed.

Lemma wp_Event s A sl ev topic Q E :
  IsValidTopic topic = true → canonical (payload ev) → is_u32 (schema_version ev) →
  good s A → slots s = sl ++ [None] → pend A !! event_id ev = None → event_id ev ∉ slot_ids sl →
  (∀ s' text, event_ok text (event_id ev) → good s' A → same_core s s' →
     pending_index_enabled s' = pending_index_enabled s → pending_events s' = pending_events s →
     slots s' = sl ++ [if pending_index_enabled s then Some (event_id ev) else None] →
     Q [(EventKey (event_id ev), Some text); (EventCopyKey (event_id ev), Some text)] s') →
  (∀ ex, fails ex → ¬ event_clean ev → E ex s) → wp (Event (spec_of ev topic)) Q E s.
Proof.
  intros Ht Hp Hv Hg Hsl Hnew Hid HQ HE. unfold Event.
  destruct (spec_of ev topic) as [spec|] eqn:Hs; [|unfold spec_of, CheckedTopic in Hs; by rewrite Ht in Hs].
  assert (Hse : spec_event spec = ev) by (unfold spec_of, CheckedTopic in Hs; rewrite Ht in Hs; by injection Hs as <-).
  apply wp_bind, (wp_event_text ev topic); [done..| |done]. intros text Hok. rewrite Hse.
  apply wp_bind, (wp_Prepare s A sl); [done..|]. intros s' Hg' Hc' Hi' Hp' Hs'. by apply wp_ret, HQ.
Qed.

(** ** Creating a message *)

Definition record_of (e : Env) (i : PrivateMessagePersistInput) (mid : Z) : MessageView :=
  MkMessage mid (in_cid i) (in_from i) (in_to i) (in_type i) (in_content i) kPending (Now e) [] [].

Definition created_event (m : MessageView) (now : list Z) : DomainEvent :=
  MkEvent 1 (created_id (message_id m)) (str "message.created.v1")
    (str "private_message") (to_string (message_id m)) kProducerService now [] []
    (JObject [(str "from_user_id", JNumber (from_user_id m)); (str "message_id", JNumber (message_id m));
              (str "to_user_id", JNumber (to_user_id m))]).

(** The values the types of the source allow, and clocks in their formats. *)
Definition input_typed (i : PrivateMessagePersistInput) : Prop := is_u64 (in_from i) ∧ is_u64 (in_to i).
Definition env_typed (e : Env) : Prop := bsize (Now e) = 19.

Definition input_ok (i : PrivateMessagePersistInput) : Prop :=
  in_cid i ≠ [] ∧ bsize (in_cid i) ≤ 64 ∧ 1 ≤ in_type i ≤ 3 ∧ in_content i ≠ [].

(** What a new message needs besides: room, a dump and the consent of the callbacks. *)
Definition admissible (A : Contents) s (e : Env) (i : PrivateMessagePersistInput) : Prop :=
  bsize (in_content i) ≤ 65535 ∧ utf8 (in_content i) = true ∧
  (admit_events options = true → admitted e = true) ∧
  pending_events s < max_pending_events options ∧
  (before_new_message_commit options = true → m_status (pinned e) = kSucceeded) ∧
  high A < 2 ^ 63 - 1 - 4096.
Definition texts_ok (e : Env) (i : PrivateMessagePersistInput) : Prop :=
  utf8 (in_cid i) = true ∧ utf8 (Now e) = true ∧ utf8 (CurrentUtcIso8601 e) = true ∧ CurrentUtcIso8601 e ≠ [].

Lemma wp_CheckInput i Q E s :
  (input_ok i → Q tt s) → (∀ ex, fails ex → ¬ input_ok i → E ex s) → wp (CheckInput i) Q E s.
Proof.
  intros HQ HE. unfold CheckInput. unfold input_ok in *. apply wp_require; intros Hb.
  - rewrite !andb_true_iff, !Z.leb_le, !negb_true_iff in Hb. apply HQ.
    destruct (in_cid i), (in_content i); naive_solver.
  - apply HE; [done|]. intros (H1' & H2' & H3' & H4'). apply not_true_iff_false in Hb. apply Hb.
    rewrite !andb_true_iff, !Z.leb_le, !negb_true_iff. destruct (in_cid i), (in_content i); naive_solver.
Qed.

(** ** The operations of a new message *)

Lemma counters_ok A from to :
  wf A → let total := cnt (unread_of to) (msgs A) in let dialog := cnt (unread_from from to) (msgs A) in
  let pending := cnt (pending_of to) (msgs A) in
  0 ≤ dialog ≤ total ∧ 0 ≤ pending ≤ total ∧ total < 2 ^ 63 - 1.
Proof.
  intros Hwf total dialog pending. pose proof (λ P, cnt_nonneg P (msgs A)) as Hnn. split_and!; try apply Hnn.
  - apply cnt_le. intros m. unfold unread_from, unread_of, sent, sent_to. rewrite !andb_true_iff. tauto.
  - apply cnt_le. intros m. unfold pending_of, unread_of, is_unread, sent_to. rewrite !andb_true_iff, orb_true_iff. tauto.
  - pose proof (cnt_size (unread_of to) (msgs A)). pose proof (wf_high A Hwf).
    assert (Z.of_nat (base.size (msgs A)) ≤ high A); [|unfold total; lia].
    apply size_bounded; [lia|]. intros k m Hk. by destruct (wf_msgs A Hwf k m Hk) as (_ & ? & _).
Qed.

Lemma CheckCounters_ok A from to s :
  wf A →
  CheckCounters (cnt (unread_of to) (msgs A)) (cnt (unread_from from to) (msgs A)) (cnt (pending_of to) (msgs A)) s
  = (s, inr tt).
Proof.
  intros Hwf. destruct (counters_ok A from to Hwf) as (? & ? & ?). unfold CheckCounters. apply require_ok.
  rewrite !andb_true_iff, Z.ltb_lt, !Z.leb_le. lia.
Qed.

Lemma message_ops_enc A canonical m text event :
  wf A → from_user_id m ≠ to_user_id m → json_dump (EncodeRecord m) = Some text →
  MessageOps canonical m text (cnt (unread_of (to_user_id m)) (msgs A))
    (cnt (unread_from (from_user_id m) (to_user_id m)) (msgs A)) (cnt (pending_of (to_user_id m)) (msgs A)) ++
  [(EventKey (created_id (message_id m)), Some event); (EventCopyKey (created_id (message_id m)), Some event)] =
  enc_ops (message_kops A canonical m event).
Proof.
  intros Hwf Hd Ht. destruct (counters_ok A (from_user_id m) (to_user_id m) Hwf) as (? & ? & ?).
  unfold MessageOps. rewrite !u64_small by (unfold is_u64; lia).
  unfold message_kops, enc_ops, record_text. rewrite Ht. rewrite (enc_dialog (from_user_id m) (to_user_id m)) by done.
  reflexivity.
Qed.

Lemma record_text_clean (e : Env) i mid :
  utf8 (in_content i) = true → texts_ok e i → is_Some (json_dump (EncodeRecord (record_of e i mid))).
Proof.
  intros Hc (Hcid & Hnow & _). apply dump_total. rewrite EncodeRecord_fields. cbn.
  split_and!; try done; by apply utf8_ascii; repeat constructor.
Qed.

Lemma created_clean (e : Env) i mid :
  is_u64 mid → texts_ok e i → event_clean (created_event (record_of e i mid) (CurrentUtcIso8601 e)).
Proof.
  intros Hmid (_ & _ & Hu & Hne).
  assert (Hid : Forall (λ c, 0 ≤ c < 128) (to_string mid)).
  { eapply list.Forall_impl; [by apply to_string_digits|]. cbn. lia. }
  split.
  - unfold Valid. cbn [created_event schema_version event_id event_type aggregate_type aggregate_id producer_service
      occurred_at payload is_object record_of message_id].
    pose proof (to_string_length mid Hmid). destruct (to_string mid) as [|c cs]; [cbn in *; lia|].
    by destruct (CurrentUtcIso8601 e).
  - rewrite envelope_fields. cbn [json_utf8 created_event schema_version event_id event_type aggregate_type aggregate_id
      producer_service occurred_at payload request_id trace_id record_of message_id].
    split_and!; try done; try (apply utf8_ascii; first [done|by repeat constructor]).
Qed.

Lemma created_spec m topic now : MessageCreated m topic now = spec_of (created_event m now) topic.
Proof. reflexivity. Qed.

Lemma created_payload m now :
  is_u64 (message_id m) → message_ok m → canonical (payload (created_event m now)).
Proof.
  intros Hid Hok. cbn [created_event payload canonical]. split; [literal_sorted|].
  destruct (ok_from m Hok), (ok_to m Hok). done.
Qed.

Lemma record_ok (e : Env) i mid :
  input_typed i → env_typed e → input_ok i → dialog_ok options (in_from i) (in_to i) →
  is_Some (json_dump (EncodeRecord (record_of e i mid))) → message_ok (record_of e i mid).
Proof.
  intros [Hf Ht] Henv (Hc & Hc64 & Hty & Hb) ((Hf0 & _) & (Ht0 & _) & Hne) Htext.
  split; cbn [record_of from_user_id to_user_id client_message_id message_type content delivery_state created_at];
    auto; split; done || lia.
Qed.

(** ** Admission *)

Variable outcome : Z → WriteOutcome.

Definition writes_succeed : Prop := ∀ n, outcome n = Written.

(** The slot and the identifier of a new message. *)
Lemma wp_Admit s A T e i Q E :
  config_ok options → good s A → env_typed e →
  (∀ s' B, good s' B → same_but_high A B → slots s' = slots s ++ [None] →
     pending_index_enabled s' = pending_index_enabled s → pending_events s' ≤ max_pending_events options →
     1 ≤ next_id s ≤ high B → (∀ mid m, msgs A !! mid = Some m → mid < next_id s) → next_id s < next_id s' →
     bsize (in_content i) ≤ 65535 → utf8 (in_content i) = true → Q (record_of e i (next_id s)) s') →
  (∀ ex s', fails ex → ¬ (admissible A s e i ∧ writes_succeed) → failing A T s' →
     ((∃ extra, slots s' = slots s ++ extra) ∧ next_id s' = next_id s ∧
      pending_index_enabled s' = pending_index_enabled s) ∨ poisoned s' = true → E ex s') →
  wp (Admit options outcome e i) Q E s.
Proof.
  intros Hcfg Hg Henv HQ HE.
  assert (Hgf : failing A T s) by by apply good_failing.
  assert (Hsl : ((∃ extra, slots s = slots s ++ extra) ∧ next_id s = next_id s ∧
    pending_index_enabled s = pending_index_enabled s) ∨ poisoned s = true)
    by (left; split; [exists []; by rewrite app_nil_r|done]).
  unfold Admit. apply wp_bind, wp_require; intros Hc.
  2: { apply HE; [done| |done..]. apply Z.leb_gt in Hc. intros [(? & _) _]. lia. }
  apply Z.leb_le in Hc. apply wp_bind.
  destruct (json_dump (JString (in_content i))) as [t|] eqn:Hd.
  2: { apply wp_throw, HE; [done| |done..]. intros [(_ & Hu & _) _]. apply (dump_total (JString _)) in Hu as [t Hd']. congruence. }
  assert (Hu : utf8 (in_content i) = true) by (apply (dump_total (JString _)); eauto).
  apply wp_ret, wp_bind, wp_require; intros Had.
  2: { apply HE; [done| |done..]. apply orb_false_iff in Had as [Had1 Had2]. intros [(_ & _ & Ha & _) _].
       apply negb_false_iff in Had1. rewrite Ha in Had2 by done. done. }
  apply wp_bind, (wp_NewSlot options s A); [done|done| |].
  2: { intros ex Hfl Hmax. apply HE; [done| |done..]. intros [(_ & _ & _ & ? & _) _]. lia. }
  intros s1 Hg1 Hs1 Hcore Hix1 Hp1. apply wp_bind.
  assert (Hgf1 : failing A T s1) by by apply good_failing.
  assert (Hn1 : next_id s1 = next_id s) by apply Hcore.
  destruct (before_new_message_commit options && negb (bool_decide (m_status (pinned e) = kSucceeded))) eqn:Hpin.
  { apply andb_true_iff in Hpin as [Hb1 Hb2].
    apply negb_true_iff, bool_decide_eq_false in Hb2.
    apply wp_throw, HE; [done| |done|eauto]. intros [(_ & _ & _ & _ & Hb & _) _]. auto. }
  apply wp_ret, wp_bind, (wp_NextId outcome s1 A T); [done| |].
  - intros s2 B Hg2 HB Hev Hid Hfresh Hnext. apply wp_ret.
    destruct Hcore as (_ & _ & _ & _ & _ & Hn & _). destruct Hev as (Hv1 & Hv2 & Hv3 & _). rewrite Hn in *.
    apply (HQ _ B); try done; [congruence|congruence|lia..].
  - intros ex s2 Hfl Hr Hf Hsl2. apply HE; [done| |done|].
    + intros [(_ & _ & _ & _ & _ & ?) Hw]. destruct Hr as [?|[n Hn]]; [lia|]. by rewrite Hw in Hn.
    + destruct Hsl2 as [(-> & -> & ->)|?]; [left|by right]. split; [by exists [None]|done].
Qed.

(** ** A write that commits the live slots *)

Lemma wp_commit {R} s A A' batch (k : M D R) Q E :
  good s A → Rep (db_write (db s) batch) A' → wf A' → high A' = high A →
  (∀ mid m, msgs A' !! mid = Some m → mid < next_id s) →
  Z.of_nat (base.size (pend A')) = Z.of_nat (base.size (pend A)) + Z.of_nat (length (slots s)) →
  (pending_index_enabled s = true →
   ∀ id, is_Some (pend A' !! id) ↔ is_Some (pend A !! id) ∨ id ∈ slot_ids (slots s)) →
  (∀ s', good s' A' → slots s' = [] → wp k Q E s') →
  (∀ e s', fails e → ¬ writes_succeed → broken s' (λ B, B = A ∨ B = A') → E e s') →
  wp (Write outcome batch true ;; CommitSlots ;; k) Q E s.
Proof.
  intros [Hc He] HR Hwf Hh Hfr Hsize Hdom HQ HE. apply wp_bind, (wp_Write outcome s A A'); try done.
  - intros s1 Hc1 He1. apply wp_bind. pose proof He1 as (E1 & E2 & E3 & E4).
    eapply wp_mono; [apply (events_commit s1 (pend A) (pend A'))| |by intros].
    + by eapply events_frame.
    + by rewrite E2.
    + rewrite E2, E3. done.
    + intros [] s2 (He2 & Hs2 & Hc2). apply HQ; [|done]. split; [by eapply core_frame|done].
  - intros e s1 Hf Hout. apply HE; [done|]. intros Hw. by apply Hout.
Qed.

(** ** One message *)

(** What a call needs to be answered with a message: known users, valid input, an
    identity and the locks; and, when the identity is new, what a new message needs. *)
Definition send_clean A s (e : Env) (i : PrivateMessagePersistInput) : Prop :=
  dialog_ok options (in_from i) (in_to i) ∧ input_ok i ∧ identity_ok options e ∧
  locks_ok options s [in_from i; in_to i] ∧
  (cids A !! (in_from i, canonical_cid options e (in_cid i)) = None → admissible A s e i ∧ texts_ok e i ∧ writes_succeed).

(** The contents with the message of a call, and its answer. *)
Definition with_message A (e : Env) (i : PrivateMessagePersistInput) (mid : Z) (text : list Z) (B : Contents) : Prop :=
  cids A !! (in_from i, canonical_cid options e (in_cid i)) = None ∧ (∀ k m, msgs A !! k = Some m → k < mid) ∧
  copies A !! created_id mid = None ∧ ∃ A', same_but_high A A' ∧ B = add_message A' (canonical_cid options e (in_cid i)) (record_of e i mid) text.

Definition created_result A (e : Env) (i : PrivateMessagePersistInput) (mid : Z) : PersistResult :=
  MkPersist kSucceeded kCreated mid (record_of e i mid) []
    (NativeCreatedUnreadReply options mid (in_to i) (in_from i)
       (cnt (unread_from (in_from i) (in_to i)) (msgs A) + 1) (cnt (unread_of (in_to i)) (msgs A) + 1)).

Lemma copies_new A mid : wf A → is_u64 mid → msgs A !! mid = None → copies A !! created_id mid = None.
Proof.
  intros Hwf Hmid Hm. apply eq_None_not_Some. rewrite (wf_created A Hwf _ Hmid), Hm. apply is_Some_None.
Qed.
Lemma pend_new A mid : wf A → is_u64 mid → msgs A !! mid = None → pend A !! created_id mid = None.
Proof.
  intros Hwf Hmid Hm. apply (lookup_weaken_None _ (copies A)); [by apply copies_new|apply (wf_pend A Hwf)].
Qed.

Lemma pend_insert (p : gmap (list Z) (list Z)) k t id :
  is_Some (<[k := t]> p !! id) ↔ is_Some (p !! id) ∨ id ∈ slot_ids [Some k].
Proof.
  rewrite elem_of_slot_ids, list_elem_of_singleton, lookup_insert_is_Some.
  destruct (decide (k = id)) as [->|]; [|split; [intros [->|[_ ?]]; auto|intros [?|[= ?]]; auto]].
  split; auto.
Qed.

(** How a call ends, with a result or with an exception. *)
Definition persist_post A s (e : Env) (i : PrivateMessagePersistInput) (r : PersistResult) (s' : Store D) : Prop :=
  let c := canonical_cid options e (in_cid i) in
  (∃ mid m, cids A !! (in_from i, c) = Some mid ∧ msgs A !! mid = Some m ∧ r = ReuseResult m i ∧
            good s' A ∧ slots s' = []) ∨
  (cids A !! (in_from i, c) = None ∧ ∃ text B, with_message A e i (next_id s) text B ∧ good s' B ∧ slots s' = [] ∧
     r = created_result A e i (next_id s)).
Definition persist_exn A s (e : Env) (i : PrivateMessagePersistInput) (ex : Exn) (s' : Store D) : Prop :=
  fails ex ∧ ¬ send_clean A s e i ∧
  failing A (λ B, ∃ mid text, with_message A e i mid text B) s'.

(** The write of a new message. *)
Lemma wp_write_message s A B e i text event s2 Q E :
  let c := canonical_cid options e (in_cid i) in let m := record_of e i (next_id s) in
  config_ok options → same_but_high A B → cids A !! (in_from i, c) = None →
  (∀ mid m, msgs A !! mid = Some m → mid < next_id s) → 1 ≤ next_id s ≤ high B → next_id s < next_id s2 →
  message_ok m → json_dump (EncodeRecord m) = Some text → event_ok event (created_id (next_id s)) →
  good s2 B → pending_events s2 ≤ max_pending_events options →
  slots s2 = [if pending_index_enabled s2 then Some (created_id (next_id s)) else None] →
  (∀ s3, good s3 (add_message B c m event) → slots s3 = [] → wp Q (persist_post A s e i) E s3) →
  (∀ ex s3, fails ex → ¬ writes_succeed → broken s3 (λ C, C = B ∨ C = add_message B c m event) → E ex s3) →
  wp (Write outcome (MessageOps c m text (cnt (unread_of (in_to i)) (msgs B))
        (cnt (unread_from (in_from i) (in_to i)) (msgs B)) (cnt (pending_of (in_to i)) (msgs B)) ++
        [(EventKey (created_id (next_id s)), Some event); (EventCopyKey (created_id (next_id s)), Some event)]) true ;;
      CommitSlots ;; Q) (persist_post A s e i) E s2.
Proof.
  intros c m Hcfg HB Hcid Hfresh Hid Hnext Hok Htext Hev Hg2 Hp2 Hs2 HQ HE.
  assert (HBm : msgs B = msgs A ∧ cids B = cids A ∧ pend B = pend A) by (by destruct HB as (h & _ & ->)).
  destruct HBm as (HBm & HBc & HBp). pose proof Hg2 as [[_ _ HR2 Hwf2 _ _ _ _] He2].
  assert (Hmid : is_u64 (next_id s)) by (pose proof (wf_high B Hwf2); unfold is_u64; lia).
  assert (Hnone : msgs B !! message_id m = None).
  { rewrite HBm. destruct (msgs A !! message_id m) eqn:Em; [|done]. specialize (Hfresh _ _ Em). cbn in Hfresh. lia. }
  assert (HRn : Rep (db_write (db s2) (enc_ops (message_kops B c m event))) (add_message B c m event))
    by by apply rep_add_message.
  rewrite <- (message_ops_enc B c m text event) in HRn by (done || apply Hok).
  assert (Hroom : Z.of_nat (base.size (pend B)) + 1 ≤ 1000000).
  { destruct He2 as [Hev2 _ _ _ _]. rewrite Hs2 in Hev2. cbn [length] in Hev2. destruct Hcfg as [Hmax _]. lia. }
  assert (Hwfn : wf (add_message B c m event)).
  { apply wf_add_message; [done|done|cbn; lia| |by rewrite HBc|done|lia].
    intros mid m'. rewrite HBm. apply Hfresh. }
  assert (Hpn : pend B !! created_id (message_id m) = None) by by apply pend_new.
  eapply (wp_commit s2 B (add_message B c m event)); [done|exact HRn|done|done|..|done|done].
  - intros mid m'. cbn [add_message msgs].
    intros [[<- _]|[_ Hm']]%lookup_insert_Some; [cbn; lia|].
    rewrite HBm in Hm'. specialize (Hfresh _ _ Hm'). lia.
  - rewrite Hs2. cbn [add_message pend length]. rewrite map_size_insert_None by done. lia.
  - rewrite Hs2. intros -> id. cbn [add_message pend]. apply pend_insert.
Qed.

Lemma wp_CreateMessage s s0 A e i :
  config_ok options → good s0 A → next_id s0 = next_id s → slots s0 = [] → pending_events s0 = pending_events s →
  input_typed i → env_typed e → dialog_ok options (in_from i) (in_to i) → input_ok i →
  cids A !! (in_from i, canonical_cid options e (in_cid i)) = None →
  wp (CreateMessage options outcome e i (canonical_cid options e (in_cid i)))
    (persist_post A s e i) (persist_exn A s e i) s0.
Proof.
  intros Hcfg HgL Hn0 Hsl Hpe0 [Hf Ht] Henv Hdlg Hin Hcid. set (c := canonical_cid options e (in_cid i)) in *.
  set (T := λ B, ∃ mid text, with_message A e i mid text B). unfold CreateMessage.
  apply wp_bind, (wp_Admit s0 A T e i); [done..| |].
  2: { intros ex s1 Hfl Hn Hfail _. split; [done|]. split; [|done].
       intros (_ & _ & _ & _ & Hnew). destruct (Hnew Hcid) as (Hadm & _ & Hw). apply Hn. split; [|done]. unfold admissible. by rewrite Hpe0. }
  rewrite Hn0, Hsl. intros s1 B Hg1 HB Hs1 Hix1 Hp1 Hid Hfresh Hnext Hclen Hcu. cbn [app] in Hs1.
  assert (Hgf1 : failing A T s1) by (left; eauto). set (m := record_of e i (next_id s)) in *.
  pose proof Hg1 as [[_ _ HR1 Hwf1 _ _ _ _] _].
  assert (Hmid : is_u64 (next_id s)) by (pose proof (wf_high B Hwf1); unfold is_u64; lia).
  apply wp_bind. eapply wp_value; [by apply (read_unread s1 B)|].
  apply wp_bind. eapply wp_value; [by apply (read_dialog s1 B)|].
  apply wp_bind. eapply wp_value; [by apply (read_pending s1 B)|].
  apply wp_bind. eapply wp_value; [by apply CheckCounters_ok|].
  apply wp_bind, wp_json; cycle 1.
  { intros Hn. split; [done|]. split; [|done]. intros (_ & _ & _ & _ & Hnew). destruct (Hnew Hcid) as (_ & Htx & _).
    destruct (record_text_clean e i (next_id s) Hcu Htx) as [t Htt]. fold m in Htt. by rewrite Htt in Hn. }
  intros text Htext. cbv zeta. rewrite created_spec.
  assert (Hok : message_ok m) by (apply (record_ok e i); [done..|by exists text]).
  assert (HBm : msgs B = msgs A) by (by destruct HB as (h & _ & ->)).
  assert (HBo : copies B = copies A) by (by destruct HB as (h & _ & ->)).
  assert (Hnone : msgs B !! message_id m = None).
  { rewrite HBm. destruct (msgs A !! message_id m) eqn:E; [|done]. specialize (Hfresh _ _ E). cbn in Hfresh. lia. }
  apply wp_bind, (wp_Event s1 B []);
    [apply Hcfg|by apply created_payload|done|done|done|by apply pend_new|apply not_elem_of_nil|..].
  2: { intros ex Hfl Hn. split; [done|]. split; [|done]. intros (_ & _ & _ & _ & Hnew). destruct (Hnew Hcid) as (_ & Htx & _).
       by apply Hn, created_clean. }
  assert (Hcopy : copies A !! created_id (next_id s) = None) by (rewrite <- HBo; by apply copies_new).
  intros s2 event Hev Hg2 Hc2 Hi2 Hpe2 Hs2. pose proof Hc2 as (_ & _ & _ & _ & _ & Enx & _).
  apply (wp_write_message s A B); [exact Hcfg|exact HB|exact Hcid|exact Hfresh|exact Hid|lia|exact Hok|exact Htext
    |exact Hev|exact Hg2|lia|by rewrite Hs2, Hi2|..].
  - intros s3 Hg3 Hs3. wps. right. split; [done|]. exists event, (add_message B c m event).
    split_and!; [by split_and!; [..|exists B]|by apply (good_frame s3)|done|].
    unfold created_result. destruct (counters_ok B (in_from i) (in_to i) Hwf1) as (? & ? & ?).
    rewrite HBm in *. by rewrite !u64_small by (unfold is_u64; lia).
  - intros ex s3 Hfl Hw Hbr. split; [done|]. split; [intros (_ & _ & _ & _ & Hnew); by destruct (Hnew Hcid) as (_ & _ & ?)|].
    right. destruct Hbr as [Hps Hd]. split; [done|]. intros d Hdin. destruct (Hd d Hdin) as (C & [->| ->] & Hrv).
    + exists B. by split; [left|].
    + exists (add_message B c m event). split; [right|done]. exists (next_id s), event.
      by split_and!; [..|exists B].
Qed.

Lemma persist_spec s A e i s' r :
  config_ok options → good s A → slots s = [] → input_typed i → env_typed e →
  PersistPrivateMessage options outcome e i s = (s', r) →
  persist_post A s e i r s' ∨
  (p_status r ≠ kSucceeded ∧ ¬ send_clean A s e i ∧
   ((∃ B, same_but_high A B ∧ good s' B ∧ slots s' = []) ∨
    broken s' (λ B, same_but_high A B ∨ ∃ mid text, with_message A e i mid text B))).
Proof.
  intros Hcfg Hg Hsl Htyped Henv Hcall. unfold PersistPrivateMessage in Hcall.
  eapply (Call_spec _ _ s A (persist_post A s e i) (persist_exn A s e i)) in Hcall; [|done|done|].
  { destruct Hcall as [?|(ex & s1 & (Hfl & Hn & Hfail) & -> & ->)]; [by left|].
    right. split; [done|]. split; [done|]. by apply failing_unwound. }
  assert (Hgf : ∀ T, failing A T s) by (intros T; by apply good_failing).
  apply wp_bind, wp_Dialog; [|intros ex He Hn; split; [done|]; split; [by intros (? & _)|done]].
  intros Hdlg. apply wp_bind, wp_CheckInput; [|intros ex He Hn; split; [done|]; split; [by intros (_ & ? & _)|done]].
  intros Hin. apply wp_bind, wp_Identity; [|intros ex He Hn; split; [done|]; split; [by intros (_ & _ & ? & _)|done]].
  apply wp_bind, wp_LockActors;
    [|intros ex L He Hn; split; [done|]; split; [by intros (_ & _ & _ & ? & _)|by apply good_failing, good_locks]].
  intros L. pose proof (good_locks s A L Hg) as HgL. pose proof HgL as [[_ _ HR Hwf _ _ _ _] _].
  apply wp_bind. eapply wp_value; [apply (read_cid _ A HR Hwf); apply Htyped|].
  destruct (cids A !! _) as [mid|] eqn:Hcid; cbn [mbind option_bind]; [|by apply wp_CreateMessage].
  pose proof Hcid as (m & Hm & _)%(wf_cids A Hwf). rewrite Hm. apply wp_ret. left. by exists mid, m.
Qed.

End Persist.
