(* ===== verification/LocalStoreBatch.v ===== *)
(** * Batches of sends in the local store

    [PersistPrivateMessages]: the messages of a batch are checked and staged one by one
    against what the messages before them will have written, and stored in one write;
    without batching they are sent one after the other.  Either way the contents change
    by sends in the order of the batch ([sends]), and an answer of success is about a
    message the contents then hold ([sent_ok]).  Of the loop that stages a batch: the
    contents the batch will have stored ([staged]), with the counters and identities the
    loop keeps for them, and the loop on a store that a failed write has stopped
    ([halted]).  [LocalStoreSending] has the operation as a whole. *)
From Stdlib Require Import ZArith Lia String.
From stdpp Require Import base list numbers sorting option gmap.
From S2P Require Import Prelude ByteStrings MessageTypes KeyValueEngine DomainEvents LocalPrivateStore LocalStoreKeys LocalStoreModel LocalStoreInvariant LocalStoreChanges LocalStoreSteps LocalStorePersist.

Local Open Scope Z_scope.
Local Open Scope width_scope.

(** Events still to be published. *)
Definition due (A : Contents) (id : list Z) : Prop := is_Some (pend A !! id) ∨ is_Some (failed A !! id).

Lemma due_insert (p : gmap (list Z) (list Z)) k t id : is_Some (p !! id) → is_Some (<[k := t]> p !! id).
Proof. intros Hp. apply lookup_insert_is_Some'. by right. Qed.

(** What an answer of success to a send says about the contents: the message is there,
    and so is its event when it is new. *)
Definition sent_ok (B : Contents) (r : PersistResult) : Prop :=
  p_status r = kSucceeded →
  (∃ m, msgs B !! p_message_id r = Some m ∧ same_message (p_record r) m) ∧
  (p_outcome r = kCreated → due B (created_id (p_message_id r))).

Section Batch.
Context {D : Type} `{EngineLaws D} `{JsonLaws}.
Variable options : LocalPrivateStoreOptions.
Implicit Types (s : Store D) (A B C : Contents).

(** A store that holds one of some contents, or can only be recovered to one. *)
Definition settled s (T : Contents → Prop) : Prop :=
  (∃ B, T B ∧ good s B ∧ slots s = []) ∨ broken s T.

Lemma settled_good s B (T : Contents → Prop) : T B → good s B → slots s = [] → settled s T.
Proof. left. eauto. Qed.

Lemma settled_broken s (T T' : Contents → Prop) : broken s T → (∀ B, T B → T' B) → settled s T'.
Proof.
  intros [Hp Hd] HT. right. split; [done|]. intros d Hd'. destruct (Hd d Hd') as (B & HB & Hr). eauto.
Qed.

Lemma settled_mono s (T T' : Contents → Prop) : settled s T → (∀ B, T B → T' B) → settled s T'.
Proof. intros [(B & HB & Hg)|Hb] HT; [left; eauto|by apply (settled_broken _ T)]. Qed.

(** A store that has failed refuses every operation. *)
Lemma poisoned_open s : poisoned s = true → Open s = (s, inl (EFailure kStorageError (str "local store closed or requires recovery"))).
Proof.
  intros Hp. unfold Open, gets. rewrite (bind_ok _ _ s s s) by done. unfold require. by rewrite Hp, andb_false_r.
Qed.

Lemma poisoned_call {R} (failed : MessageApplicationStatus → list Z → R) (fn : M D R) s :
  poisoned s = true →
  Call failed fn s = (s, failed kStorageError (str "local store closed or requires recovery")).
Proof.
  intros Hp. unfold Call, unwinding. rewrite (bind_err Open (λ _, fn) s s _ (poisoned_open s Hp)).
  rewrite take_ge, drop_ge by lia. destruct s. done.
Qed.

(** ** Sends in order *)

(** What one send does to the contents. *)
Definition send_step (item : PrivateMessagePersistInput * Env) A B : Prop :=
  same_but_high A B ∨ ∃ mid text, with_message options A item.2 item.1 mid text B.
Fixpoint sends (items : list (PrivateMessagePersistInput * Env)) A B : Prop :=
  match items with [] => A = B | item :: items => ∃ C, send_step item A C ∧ sends items C B end.

(** The answer of success to a send stays true. *)
Lemma high_keeps A B r : same_but_high A B → sent_ok A r → sent_ok B r.
Proof. by intros (h & _ & ->). Qed.

Lemma send_step_keeps item A B r : send_step item A B → sent_ok A r → sent_ok B r.
Proof.
  intros [HB|(mid & text & _ & Hfr & _ & A' & (h & _ & ->) & ->)] Hr; [by apply (high_keeps A)|].
  intros Hs. destruct (Hr Hs) as ((m & Hm & Hsame) & Hdue).
  split.
  - exists m. split; [|done]. cbn. rewrite lookup_insert_ne; [done|]. specialize (Hfr _ _ Hm). lia.
  - intros Hc. destruct (Hdue Hc) as [Hd|Hd]; [left|by right]. by apply due_insert.
Qed.

Lemma sends_keeps items A B r : sends items A B → sent_ok A r → sent_ok B r.
Proof.
  revert A. induction items as [|item items IH]; intros A; cbn; [by intros ->|].
  intros (C & HC & HB) Hr. eapply IH; [done|]. by eapply send_step_keeps.
Qed.

Lemma sends_stay items A : wf A → sends items A A.
Proof.
  intros Hwf. induction items as [|item items IH]; [done|]. exists A. split; [left; by apply same_but_high_refl|done].
Qed.

Lemma sends_high items A B : items ≠ [] → wf B → same_but_high A B → sends items A B.
Proof. intros Hne Hwf HB. destruct items as [|item items]; [done|]. exists B. split; [by left|by apply sends_stay]. Qed.

(** Fewer pending events. *)
Lemma wf_without_pend A (p : gmap (list Z) (list Z)) : wf (with_pend A p) → pend A ⊆ p → wf A.
Proof.
  intros [Hh Hm Hca Hci Hn Hp Hco Hf Hcr Hfew] Hsub.
  split; cbn [with_pend msgs canon cids newest pend copies failed high] in *; try done.
  - by etrans.
  - intros id t Ht. destruct (Hf id t Ht) as (Hid & Hraw). split; [|done]. exact (lookup_weaken_None _ _ _ Hid Hsub).
  - apply map_subseteq_size in Hsub. lia.
Qed.

Lemma sent_failed B r : p_status r ≠ kSucceeded → sent_ok B r.
Proof. by intros Hn Hs. Qed.

Lemma sent_reused A mid m i : wf A → msgs A !! mid = Some m → sent_ok A (ReuseResult m i).
Proof.
  intros Hwf Hm _. destruct (wf_msgs A Hwf mid m Hm) as (Hid & _). split.
  - exists m. cbn [ReuseResult p_message_id p_record]. by rewrite Hid.
  - cbn. by destruct (_ && _).
Qed.

Variable outcome : Z → WriteOutcome.

(** ** One after the other *)

Definition item_typed (item : PrivateMessagePersistInput * Env) : Prop := input_typed item.1 ∧ env_typed item.2.

Lemma persist_settled s A e i s' r :
  config_ok options → good s A → slots s = [] → item_typed (i, e) →
  PersistPrivateMessage options outcome e i s = (s', r) → settled s' (λ B, send_step (i, e) A B ∧ sent_ok B r).
Proof.
  intros Hcfg Hg Hs [Hi He] Hc. pose proof Hg as [[_ _ _ Hwf _ _ _ _] _].
  apply (persist_spec options outcome s A) in Hc; [|done..].
  destruct Hc as [[(mid & m & _ & Hm & -> & Hg' & Hs')|(_ & text & B & HB & Hg' & Hs' & ->)]|(Hst & _ & Hf)].
  - apply (settled_good _ A); [|done..]. split; [left; by apply same_but_high_refl|by eapply sent_reused].
  - apply (settled_good _ B); [|done..]. split; [right; eauto|]. destruct HB as (_ & _ & _ & A' & _ & ->). intros _. split.
    + exists (record_of e i (next_id s)). cbn. by rewrite lookup_insert_eq.
    + intros _. left. cbn [add_message pend created_result p_message_id record_of message_id]. rewrite lookup_insert_eq. eauto.
  - destruct Hf as [(B & HB & Hg' & Hs')|Hb].
    + apply (settled_good _ B); [|done..]. split; [by left|by apply sent_failed].
    + apply (settled_broken _ _ _ Hb). intros B [HB|HB]; (split; [|by apply sent_failed]); [by left|by right].
Qed.

(** A stopped store answers every send with a failure. *)
Lemma poisoned_each items s :
  poisoned s = true →
  (PersistEach options outcome items s).1 = s ∧
  Forall (λ r, p_status r ≠ kSucceeded) (PersistEach options outcome items s).2.
Proof.
  intros Hp. induction items as [|[i e] items [IH1 IH2]]; [by split|]. cbn [PersistEach]. unfold PersistPrivateMessage.
  rewrite poisoned_call by done. destruct (PersistEach options outcome items s) as [s' rs]. cbn in *. subst s'.
  split; [done|]. by apply list.Forall_cons.
Qed.

Lemma each_settled items s A s' rs :
  config_ok options → good s A → slots s = [] → Forall item_typed items →
  PersistEach options outcome items s = (s', rs) → settled s' (λ B, sends items A B ∧ Forall (sent_ok B) rs).
Proof.
  intros Hcfg. revert s A s' rs. induction items as [|[i e] items IH]; intros s A s' rs Hg Hs Hty.
  { intros [= <- <-]. apply (settled_good _ A); [|done..]. by split. }
  apply list.Forall_cons in Hty as [Hi Hty]. cbn [PersistEach].
  destruct (PersistPrivateMessage options outcome e i s) as [s1 r] eqn:Hc.
  destruct (PersistEach options outcome items s1) as [s2 rs2] eqn:He. intros [= <- <-].
  apply (persist_settled s A) in Hc as [(B & [HB Hr] & Hg1 & Hs1)|Hb]; [| |done..].
  - eapply settled_mono; [exact (IH s1 B s2 rs2 Hg1 Hs1 Hty He)|]. intros C [HC Hrs]. split; [by exists B|].
    apply list.Forall_cons. split; [by eapply sends_keeps|done].
  - destruct (poisoned_each items s1) as [E1 E2]; [apply Hb|]. rewrite He in E1, E2. cbn in E1, E2. subst s2.
    destruct Hb as [Hp Hd]. right. split; [done|]. intros d Hin. destruct (Hd d Hin) as (B & [HB Hr] & Hrec).
    exists B. split; [|done]. split.
    + exists B. split; [done|]. apply sends_stay. destruct Hrec as (p & Hp' & _ & Hwf). by eapply wf_without_pend.
    + apply list.Forall_cons. split; [done|]. eapply list.Forall_impl; [exact E2|]. intros r'. by apply sent_failed.
Qed.

End Batch.

(** ** Counters and keys *)

(** The counters a send changes. *)
Definition tally (C : Contents) (key : Key) : option Z :=
  match key with
  | KN r => Some (cnt (unread_of r) (msgs C))
  | KD r p => Some (cnt (unread_from p r) (msgs C))
  | KQ r => Some (cnt (pending_of r) (msgs C))
  | _ => None
  end.

Lemma lookup_insert_enc {V} (m : gmap (list Z) V) k k' v :
  wf_key k → wf_key k' → <[enc k := v]> m !! enc k' = if decide (k = k') then Some v else m !! enc k'.
Proof.
  intros Hk Hk'. destruct (decide (k = k')) as [->|Hne]; [apply lookup_insert_eq|].
  apply lookup_insert_ne. intros E. by apply Hne, enc_inj.
Qed.

Section Staging.
Context {D : Type} `{EngineLaws D} `{JsonLaws}.
Variable options : LocalPrivateStoreOptions.
Implicit Types (s : Store D) (A B C : Contents) (st : Staging).

(** ** Answers *)

(** Answers that do not depend on the write are true already; the others are there
    only with something to write. *)
Record answered A st : Prop := {
  an_length : length (st_out st) = length (st_provisional st);
  an_final : ∀ j r, st_out st !! j = Some r → st_provisional st !! j = Some false → sent_ok A r;
  an_some : ∀ j, st_provisional st !! j = Some true → st_creates st ≠ [];
  an_cids : ∀ key k, st_cids st !! key = Some k → st_creates st ≠ [];
}.

Lemma answered_result A st n r b :
  answered A st → (b = true → st_creates st ≠ []) → (b = false → sent_ok A r) →
  answered A (stage_result n r b st).
Proof.
  intros [Hlen Hfin Hsome Hcids] Hb Hr. destruct b.
  - split; cbn [stage_result st_out st_provisional st_creates st_cids]; [by rewrite !length_insert| | |done].
    + intros j r' Hj Hp. apply list_lookup_insert_Some in Hp as [(_ & ? & _)|[Hne Hp]]; [done|].
      rewrite list_lookup_insert_ne in Hj by done. by apply (Hfin j).
    + intros j _. by apply Hb.
  - split; cbn [stage_result st_out st_provisional st_creates st_cids]; [by rewrite length_insert| |done..].
    intros j r' Hj Hp. apply list_lookup_insert_Some in Hj as [(_ & <- & _)|[_ Hj]]; [by apply Hr|by apply (Hfin j)].
Qed.

Lemma answered_create A st n r writes cids_ counters :
  answered A st →
  answered A (MkStaging (<[n := r]> (st_out st)) (<[n := true]> (st_provisional st))
                (st_creates st ++ [(n, writes)]) cids_ counters).
Proof.
  intros [Hlen Hfin Hsome Hcids].
  assert (Hne : st_creates st ++ [(n, writes)] ≠ []) by by destruct (st_creates st).
  split; cbn [st_out st_provisional st_creates st_cids]; try done.
  - by rewrite !length_insert.
  - intros j r' Hj Hp. apply list_lookup_insert_Some in Hp as [(_ & ? & _)|[Hnj Hp]]; [done|].
    rewrite list_lookup_insert_ne in Hj by done. by apply (Hfin j).
Qed.

(** The answers when the batch has failed. *)
Lemma fail_uncommitted_ok A st ex :
  answered A st → fails ex → Forall (sent_ok A) (FailUncommitted ex (st_out st) (st_provisional st)).
Proof.
  intros [Hlen Hfin _ _] Hf. apply list.Forall_lookup. intros j r. unfold FailUncommitted. rewrite list_lookup_imap.
  destruct (st_out st !! j) as [r0|] eqn:Hj; [|done]. cbn. intros [= <-].
  destruct (lookup_lt_is_Some_2 (st_provisional st) j) as [b Hb].
  { rewrite <- Hlen. by eapply lookup_lt_Some. }
  rewrite Hb. cbn. destruct b; cbn; [by apply sent_failed|]. destruct (_ && _); [by apply sent_failed|].
  by apply (Hfin j).
Qed.

(** The answers when there is nothing to write. *)
Lemma nothing_staged_ok A st : answered A st → st_creates st = [] → Forall (sent_ok A) (st_out st).
Proof.
  intros [Hlen Hfin Hsome _] Hc. apply list.Forall_lookup. intros j r Hj.
  destruct (lookup_lt_is_Some_2 (st_provisional st) j) as [[] Hb].
  { rewrite <- Hlen. by eapply lookup_lt_Some. }
  - by destruct (Hsome j Hb).
  - by apply (Hfin j).
Qed.

(** The unread counts of the answers change nothing else. *)
Lemma committed_unread_ok C st creates out :
  Forall (sent_ok C) out → Forall (sent_ok C) (foldl (SetCommittedUnread options st) out creates).
Proof.
  revert out. induction creates as [|x creates IH]; intros out Hout; [done|]. cbn [foldl]. apply IH.
  unfold SetCommittedUnread. destruct (out !! x.1) as [r|] eqn:Hx; [|done].
  destruct (st_counters st !! _); [|done]. destruct (st_counters st !! _); [|done].
  apply list.Forall_insert; [done|]. exact (proj1 (list.Forall_lookup _ _) Hout _ _ Hx).
Qed.

(** ** What is staged *)

(** A staged message, with its answer at an index before [n]. *)
Definition staged_at C st (n : nat) (f : Z) (c : list Z) (k : nat) : Prop :=
  ∃ r, st_out st !! k = Some r ∧ (k < n)%nat ∧ msgs C !! message_id (p_record r) = Some (p_record r) ∧
       cids C !! (f, c) = Some (message_id (p_record r)).

(** The store holds what it held, but for reserved identifiers; [C] is what it will
    hold when the staged operations are written. *)
Record staged s A C st (n : nat) : Prop := {
  sg_good : good s (with_high A (high C));
  sg_high : high A ≤ high C;
  sg_wf : wf C;
  sg_fresh : ∀ mid m, msgs C !! mid = Some m → mid < next_id s;
  sg_rep : ∀ h d, Rep d (with_high A h) → Rep (db_write d (concat (st_creates st).*2)) (with_high C h);
  sg_pend : pend A ⊆ pend C;
  sg_size : Z.of_nat (base.size (pend C)) = Z.of_nat (base.size (pend A)) + Z.of_nat (length (slots s));
  sg_slots : length (slots s) = length (st_creates st);
  sg_ids : ∀ id, id ∈ slot_ids (slots s) → is_Some (pend C !! id);
  sg_dom : pending_index_enabled s = true → ∀ id, is_Some (pend C !! id) → is_Some (pend A !! id) ∨ id ∈ slot_ids (slots s);
  sg_counters : ∀ key v, wf_key key → tally C key = Some v →
    match st_counters st !! enc key with Some v' => v' = v | None => tally A key = Some v end;
  sg_cids : ∀ f c, is_u64 f →
    match st_cids st !! CidKey f c with
    | Some k => staged_at C st n f c k
    | None => cids C !! (f, c) = cids A !! (f, c)
    end;
  sg_keeps : ∀ r, sent_ok A r → sent_ok C r;
  sg_out : ∀ j r, st_out st !! j = Some r → sent_ok C r;
  sg_answered : answered A st;
}.

Lemma staged_start s A out :
  good s A → slots s = [] → Forall (λ r, p_status r ≠ kSucceeded) out →
  staged s A A (MkStaging out ((λ _, false) <$> out) [] ∅ ∅) 0.
Proof.
  intros Hg Hs Hf. assert (Hh : with_high A (high A) = A) by by destruct A.
  assert (Hout : ∀ j r, out !! j = Some r → sent_ok A r).
  { intros j r Hj. apply sent_failed. exact (proj1 (list.Forall_lookup _ _) Hf j r Hj). }
  split; cbn [st_out st_provisional st_creates st_cids st_counters].
  - by rewrite Hh.
  - lia.
  - apply Hg.
  - apply Hg.
  - intros h d HR k v. rewrite get_write. exact (HR k v).
  - done.
  - rewrite Hs. cbn. lia.
  - by rewrite Hs.
  - rewrite Hs. by intros id ?%elem_of_nil.
  - by left.
  - intros key v _ Hv. by rewrite lookup_empty.
  - intros f c _. by rewrite lookup_empty.
  - done.
  - done.
  - split; cbn [st_out st_provisional st_creates st_cids].
    + by rewrite length_fmap.
    + eauto.
    + intros j. rewrite list_lookup_fmap. by destruct (out !! j).
    + intros key k. by rewrite lookup_empty.
Qed.

(** The end of the scope of an item that failed. *)
Lemma staged_unwound s s1 A C st n h :
  staged s A C st n → high C ≤ h → good s1 (with_high A h) → (∃ extra, slots s1 = slots s ++ extra) →
  pending_index_enabled s1 = pending_index_enabled s → next_id s ≤ next_id s1 →
  staged (unwound (length (slots s)) s1) A (with_high C h) st n.
Proof.
  intros [Hg Hh Hwf Hfr Hrep Hp Hsz Hsl Hids Hdom Hct Hci Hk0 Ho Ha] Hle Hg1 [extra Hex] Hix Hnext.
  assert (Hs : slots (unwound (length (slots s)) s1) = slots s) by (by rewrite unwound_slots, Hex, take_app_length).
  destruct (destroy_all s1 (drop (length (slots s)) (slots s1))) as ((_ & _ & _ & _ & _ & En & _) & Ei & _ & _).
  assert (Hhi : h < 2 ^ 63 - 1) by (destruct Hg1 as [[_ _ _ Hw _ _ _ _] _]; exact (proj2 (wf_high _ Hw))).
  split; cbn [with_high msgs canon cids newest pend copies failed high]; rewrite ?Hs; try done.
  - apply unwound_good; [|done]. rewrite Hex, length_app. lia.
  - lia.
  - by apply wf_with_high.
  - intros mid m Hm. specialize (Hfr mid m Hm). unfold unwound. cbn [set_slots next_id]. rewrite En. lia.
  - unfold unwound. cbn [set_slots pending_index_enabled]. by rewrite Ei, Hix.
Qed.

(** An answer for the next item. *)
Lemma staged_result s A C st n r b :
  staged s A C st n → sent_ok C r → (b = true → st_creates st ≠ []) → (b = false → sent_ok A r) →
  staged s A C (stage_result n r b st) (S n).
Proof.
  intros [Hg Hh Hwf Hfr Hrep Hp Hsz Hsl Hids Hdom Hct Hci Hk0 Ho Ha] Hr Hb Hf.
  split; cbn [stage_result st_out st_provisional st_creates st_cids st_counters]; try done.
  - intros f c Hfu. specialize (Hci f c Hfu). destruct (st_cids st !! CidKey f c) as [k|]; [|done].
    destruct Hci as (r0 & Hk & Hlt & Hm). exists r0. cbn [stage_result st_out].
    rewrite list_lookup_insert_ne by lia. split; [done|]. split; [lia|done].
  - intros j r' Hj. apply list_lookup_insert_Some in Hj as [(<- & <- & _)|[_ Hj]]; [done|by apply (Ho j)].
  - by apply answered_result.
Qed.

Lemma staged_skip s A C st n : staged s A C st n → staged s A C st (S n).
Proof.
  intros [Hg Hh Hwf Hfr Hrep Hp Hsz Hsl Hids Hdom Hct Hci Hk0 Ho Ha]. split; try done.
  intros f c Hfu. specialize (Hci f c Hfu). destruct (st_cids st !! CidKey f c) as [k|]; [|done].
  destruct Hci as (r0 & Hk & Hlt & Hm). exists r0. split_and!; [done|lia|apply Hm..].
Qed.

(** The counters of the staged contents, read in a store that still holds the others. *)
Lemma wp_StagedCount s s1 A B C st n key v Q E :
  staged s A C st n → good s1 B → msgs B = msgs A → wf_key key → tally C key = Some v → Q v s1 →
  wp (StagedCount st (enc key)) Q E s1.
Proof.
  intros Hst [[_ _ HR Hwf _ _ _ _] _] HB Hk Hv HQ. unfold StagedCount.
  pose proof (sg_counters _ _ _ _ _ Hst key v Hk Hv) as Hc.
  destruct (st_counters st !! enc key) as [v'|]; [subst v'; by apply wp_ret|].
  eapply wp_value; [|exact HQ]. destruct key; try done; injection Hc as <-; rewrite <- HB.
  - by apply (read_unread s1 _ HR Hwf).
  - destruct Hk. by apply (read_dialog s1 _ HR Hwf).
  - by apply (read_pending s1 _ HR Hwf).
Qed.

(** The counters after a send. *)
Lemma tally_add C h c m text key v :
  msgs C !! message_id m = None → delivery_state m = kPending →
  tally (add_message (with_high C h) c m text) key = Some v →
  tally C key = Some (v - (if decide (key = KN (to_user_id m) ∨ key = KD (to_user_id m) (from_user_id m) ∨ key = KQ (to_user_id m)) then 1 else 0)).
Proof.
  intros Hnew Hst. assert (Hun : is_unread m = true) by (unfold is_unread; by rewrite Hst).
  destruct key; cbn [tally add_message with_high msgs]; try done; rewrite cnt_new by done; intros [= <-]; f_equal;
    unfold unread_of, unread_from, pending_of, sent, sent_to; rewrite ?Hun, ?Hst, ?bool_decide_true, ?andb_true_r by done.
  - destruct (Z.eqb_spec (to_user_id m) receiver) as [<-|Hne].
    + rewrite decide_True by by left. cbn. lia.
    + rewrite decide_False by (intros [[= ?]|[?|?]]; congruence). cbn. lia.
  - destruct (decide (from_user_id m = peer)) as [<-|Hf].
    + rewrite Z.eqb_refl. destruct (Z.eqb_spec (to_user_id m) receiver) as [<-|Hne].
      * rewrite decide_True by (by right; left). cbn. lia.
      * rewrite decide_False by (intros [?|[[= ?]|?]]; congruence). cbn. lia.
    + rewrite (proj2 (Z.eqb_neq _ _) Hf). rewrite decide_False by (intros [?|[[= ? ?]|?]]; congruence). cbn. lia.
  - destruct (Z.eqb_spec (to_user_id m) receiver) as [<-|Hne].
    + rewrite decide_True by (by right; right). cbn. lia.
    + rewrite decide_False by (intros [?|[?|[= ?]]]; congruence). cbn. lia.
Qed.

(** ** A new message *)

Section Create.
Variables (s s2 : Store D) (A C : Contents) (st : Staging) (n : nat) (h : Z) (e : Env)
  (i : PrivateMessagePersistInput) (text event : list Z).
Let c := canonical_cid options e (in_cid i).
Let mid := next_id s.
Let m := record_of e i mid.
Let C' := add_message (with_high C h) c m event.
Let total := cnt (unread_of (in_to i)) (msgs C).
Let dialog := cnt (unread_from (in_from i) (in_to i)) (msgs C).
Let pending := cnt (pending_of (in_to i)) (msgs C).
Let st' := MkStaging (<[n := MkPersist kSucceeded kCreated mid m [] None]> (st_out st))
  (<[n := true]> (st_provisional st))
  (st_creates st ++ [(n, MessageOps c m text total dialog pending ++
     [(EventKey (created_id mid), Some event); (EventCopyKey (created_id mid), Some event)])])
  (<[CidKey (in_from i) c := n]> (st_cids st))
  (<[PendingCountKey (in_to i) := pending +₆₄ 1]>
     (<[DialogUnreadKey (in_to i) (in_from i) := dialog +₆₄ 1]>
        (<[UnreadKey (in_to i) := total +₆₄ 1]> (st_counters st)))).
Hypothesis Hst : staged s A C st n.
Hypothesis Hcfg : config_ok options.
Hypothesis Hh : high C ≤ h.
Hypothesis Hg2 : good s2 (with_high A h).
Hypothesis Hmid : 1 ≤ mid ≤ h.
Hypothesis Hok : message_ok m.
Hypothesis Htext : json_dump (EncodeRecord m) = Some text.
Hypothesis Hev : event_ok event (created_id mid).
Hypothesis Hnext : next_id s < next_id s2.
Hypothesis Hix : pending_index_enabled s2 = pending_index_enabled s.
Hypothesis Hsl : slots s2 = slots s ++ [if pending_index_enabled s then Some (created_id mid) else None].
Hypothesis Hroom : pending_events s2 ≤ max_pending_events options.
Hypothesis Hcid : cids C !! (in_from i, c) = None.
Hypothesis Hn : (n < length (st_out st))%nat.

Lemma create_u64 : is_u64 mid ∧ wf (with_high C h).
Proof.
  destruct Hg2 as [[_ _ _ Hw _ _ _ _] _]. pose proof (wf_high _ Hw) as Hb. cbn in Hb.
  split; [unfold is_u64; lia|]. apply wf_with_high; [apply (sg_wf _ _ _ _ _ Hst)|lia].
Qed.

Lemma create_new : msgs C !! mid = None ∧ pend C !! created_id mid = None ∧ copies C !! created_id mid = None.
Proof.
  destruct create_u64 as [Hu Hw].
  assert (Hnone : msgs C !! mid = None).
  { destruct (msgs C !! mid) eqn:E; [|done]. apply (sg_fresh _ _ _ _ _ Hst) in E. unfold mid in E. lia. }
  split_and!; [done|by apply (pend_new (with_high C h))|by apply (copies_new (with_high C h))].
Qed.

Lemma create_step : send_step options (i, e) C C'.
Proof.
  destruct create_new as (Hm & Hp & Hc). pose proof (wf_high _ (proj2 create_u64)) as Hb. cbn in Hb.
  right. exists mid, event. split_and!; [done|apply (sg_fresh _ _ _ _ _ Hst)|done|]. exists (with_high C h). split; [|done].
  exists h. split; [lia|done].
Qed.

Lemma create_wf : wf C'.
Proof.
  destruct create_u64 as [Hu Hw]. apply wf_add_message; try done; [apply (sg_fresh _ _ _ _ _ Hst)|].
  destruct Hg2 as [_ [Hpe _ _ _ _]]. rewrite Hsl, length_app in Hpe. cbn [length with_high pend] in *.
  pose proof (sg_size _ _ _ _ _ Hst). destruct Hcfg as [? _]. lia.
Qed.

Lemma create_rep h' d :
  Rep d (with_high A h') → Rep (db_write d (concat (st_creates st').*2)) (with_high C' h').
Proof.
  intros HR. destruct create_u64 as [Hu _], create_new as (Hm & _). pose proof (sg_wf _ _ _ _ _ Hst) as Hw.
  cbn [st' st_creates]. rewrite fmap_app, concat_app. cbn [fmap list_fmap snd concat]. rewrite app_nil_r.
  assert (Hops : MessageOps c m text total dialog pending ++
    [(EventKey (created_id mid), Some event); (EventCopyKey (created_id mid), Some event)] =
    enc_ops (message_kops (with_high C h') c m event)).
  { exact (message_ops_enc C c m text event Hw (ok_distinct m Hok) Htext). }
  rewrite Hops. apply rep_app, (rep_add_message _ (with_high C h') c m event); [|done..].
  by apply (sg_rep _ _ _ _ _ Hst).
Qed.

Lemma create_counters key v :
  wf_key key → tally C' key = Some v →
  match st_counters st' !! enc key with Some v' => v' = v | None => tally A key = Some v end.
Proof.
  intros Hk Hv. destruct create_new as (Hm & _). pose proof (sg_wf _ _ _ _ _ Hst) as Hw.
  destruct (ok_from m Hok) as [Hf _], (ok_to m Hok) as [Ht _].
  destruct (counters_ok C (in_from i) (in_to i) Hw) as (B1 & B2 & B3). fold total dialog pending in B1, B2, B3.
  apply (tally_add C h c m event) in Hv; [|done..]. cbn [m record_of to_user_id from_user_id] in Hv.
  cbn [st' st_counters].
  change (PendingCountKey (in_to i)) with (enc (KQ (in_to i))).
  change (DialogUnreadKey (in_to i) (in_from i)) with (enc (KD (in_to i) (in_from i))).
  change (UnreadKey (in_to i)) with (enc (KN (in_to i))).
  rewrite !lookup_insert_enc by done. rewrite !u64_small by (unfold is_u64; lia).
  destruct (decide (KQ (in_to i) = key)) as [<-|H1'].
  { rewrite decide_True in Hv by tauto. injection Hv as Hv. fold pending in Hv. lia. }
  destruct (decide (KD (in_to i) (in_from i) = key)) as [<-|H2'].
  { rewrite decide_True in Hv by tauto. injection Hv as Hv. fold dialog in Hv. lia. }
  destruct (decide (KN (in_to i) = key)) as [<-|H3'].
  { rewrite decide_True in Hv by tauto. injection Hv as Hv. fold total in Hv. lia. }
  rewrite decide_False in Hv by (intros [?|[?|?]]; congruence). rewrite Z.sub_0_r in Hv.
  by apply (sg_counters _ _ _ _ _ Hst).
Qed.

Lemma create_cids f c0 :
  is_u64 f →
  match st_cids st' !! CidKey f c0 with
  | Some k => staged_at C' st' (S n) f c0 k
  | None => cids C' !! (f, c0) = cids A !! (f, c0)
  end.
Proof.
  intros Hf. destruct create_new as (Hm & _). destruct (ok_from m Hok) as [Hfm _]. cbn [st' st_cids].
  change (CidKey (in_from i) c) with (enc (KI (in_from i) c)). change (CidKey f c0) with (enc (KI f c0)).
  rewrite lookup_insert_enc by done. case_decide as E.
  - injection E as <- <-. exists (MkPersist kSucceeded kCreated mid m [] None). cbn [st' st_out].
    rewrite list_lookup_insert_eq by done. split; [done|]. split; [lia|].
    cbn [C' add_message with_high msgs cids p_record m record_of message_id from_user_id]. by rewrite !lookup_insert_eq.
  - assert (Hne : cids C' !! (f, c0) = cids C !! (f, c0)).
    { cbn [C' add_message with_high cids m record_of from_user_id]. rewrite lookup_insert_ne; [done|]. congruence. }
    pose proof (sg_cids _ _ _ _ _ Hst f c0 Hf) as Hc. change (CidKey f c0) with (enc (KI f c0)) in Hc.
    destruct (st_cids st !! enc (KI f c0)) as [k|]; [|by rewrite Hne].
    destruct Hc as (r & Hr & Hlt & Hmr & Hcr). exists r. rewrite Hne. cbn [st' st_out].
    rewrite list_lookup_insert_ne by lia. split; [done|]. split; [lia|]. split; [|done].
    cbn [C' add_message with_high msgs]. rewrite lookup_insert_ne; [done|]. cbn. congruence.
Qed.

Lemma staged_create : staged s2 A C' st' (S n).
Proof.
  destruct create_new as (Hm & Hp & Hc). destruct Hst as [Hg0 Hh0 Hwf Hfr Hrep Hpd Hsz Hsl0 Hids Hdom Hct Hci Hk0 Ho Ha].
  assert (Hids' : ∀ id, id ∈ slot_ids (slots s2) ↔
    id ∈ slot_ids (slots s) ∨ pending_index_enabled s = true ∧ id = created_id mid).
  { intros id. rewrite Hsl, slot_ids_app, elem_of_app. destruct (pending_index_enabled s); cbn.
    - rewrite list_elem_of_singleton. tauto.
    - rewrite elem_of_nil. split; [tauto|]. intros [?|[? _]]; [tauto|done]. }
  split.
  - done.
  - cbn. lia.
  - apply create_wf.
  - cbn [C' add_message with_high msgs]. intros k m' [[<- _]|[_ Hk]]%lookup_insert_Some; [cbn; unfold mid; lia|].
    specialize (Hfr k m' Hk). lia.
  - intros h' d. apply create_rep.
  - cbn [C' add_message with_high pend]. etrans; [exact Hpd|]. by apply insert_subseteq.
  - cbn [C' add_message with_high pend m record_of message_id]. rewrite map_size_insert_None by done.
    rewrite Hsl, length_app. cbn [length]. lia.
  - cbn [st' st_creates]. rewrite Hsl, !length_app. cbn [length]. lia.
  - intros id Hid. cbn [C' add_message with_high pend]. apply lookup_insert_is_Some'.
    apply Hids' in Hid as [Hid|[_ ->]]; [right; by apply Hids|by left].
  - rewrite Hix. intros Hon id Hid. rewrite Hids'. cbn [C' add_message with_high pend m record_of message_id] in Hid.
    apply lookup_insert_is_Some' in Hid as [<-|Hid]; [by right; right|]. destruct (Hdom Hon id Hid); tauto.
  - intros key v. apply create_counters.
  - intros f c0. apply create_cids.
  - intros r Hr. eapply send_step_keeps; [exact create_step|by apply Hk0].
  - intros j r Hj. cbn [st' st_out] in Hj. apply list_lookup_insert_Some in Hj as [(_ & <- & _)|[_ Hj]].
    + intros _. cbn [p_message_id p_record p_outcome]. split.
      * exists m. cbn [C' add_message with_high msgs m record_of message_id]. by rewrite lookup_insert_eq.
      * intros _. left. cbn [C' add_message with_high pend m record_of message_id]. rewrite lookup_insert_eq. eauto.
    + eapply send_step_keeps; [exact create_step|by apply (Ho j)].
  - by apply answered_create.
Qed.

End Create.

End Staging.
