(* ===== verification/LocalStoreSending.v ===== *)
(** * Sending a batch

    [PersistPrivateMessages] as a whole: every item of a batch staged on a running store
    or answered on one that has stopped, and the one write that stores them. *)
From Stdlib Require Import ZArith Lia String.
From stdpp Require Import base list numbers sorting option gmap.
From S2P Require Import Prelude ByteStrings MessageTypes KeyValueEngine DomainEvents LocalPrivateStore LocalStoreKeys LocalStoreModel LocalStoreInvariant LocalStoreChanges LocalStoreSteps LocalStorePersist LocalStoreBatch.

Local Open Scope Z_scope.
Local Open Scope width_scope.

Section Sending.
Context {D : Type} `{EngineLaws D} `{JsonLaws}.
Variable options : LocalPrivateStoreOptions.
Variable outcome : Z → WriteOutcome.
Implicit Types (s : Store D) (A B C : Contents) (st : Staging).

(** ** An item on a running store *)

(** What an item that failed leaves before its scope ends. *)
Definition item_failed s A C s' : Prop :=
  (∃ h, high C ≤ h ∧ good s' (with_high A h) ∧ (∃ extra, slots s' = slots s ++ extra) ∧
        pending_index_enabled s' = pending_index_enabled s ∧ next_id s ≤ next_id s') ∨
  broken s' (same_but_high A).

Lemma with_high_same A C : wf C → high A ≤ high C → same_but_high A (with_high A (high C)).
Proof. intros Hwf Hh. exists (high C). pose proof (wf_high C Hwf). split; [lia|done]. Qed.

Lemma admit_failed s A C st n s' :
  staged s A C st n → failing (with_high A (high C)) (λ _, False) s' →
  ((∃ extra, slots s' = slots s ++ extra) ∧ next_id s' = next_id s ∧
   pending_index_enabled s' = pending_index_enabled s) ∨ poisoned s' = true →
  item_failed s A C s'.
Proof.
  intros Hst Hf Hsl. destruct Hf as [(B & (h & Hh & ->) & Hg)|[Hp Hd]].
  - destruct Hsl as [(Hx & Hn & Hi)|Hp]; [|by destruct Hg as [[_ Hh' _ _ _ _ _ _] _]; rewrite Hp in Hh'].
    left. exists h. cbn in Hh. split_and!; [lia|done|done|done|lia].
  - right. split; [done|]. intros d Hin. destruct (Hd d Hin) as (B & [HB|[]] & Hr). exists B. split; [|done].
    eapply same_but_high_trans; [|exact HB]. apply with_high_same; [apply (sg_wf _ _ _ _ _ Hst)|apply (sg_high _ _ _ _ _ Hst)].
Qed.

(** The event of a new message with a valid topic. *)
Lemma created_some m now :
  config_ok options → MessageCreated m (message_events_topic options) now =
  Some (MkSpec (created_event m now) (message_events_topic options) (event_type (created_event m now)) (event_id (created_event m now))).
Proof. intros [_ Ht]. rewrite created_spec. unfold spec_of, CheckedTopic. by rewrite Ht. Qed.

(** An item with an identity that is neither stored nor staged. *)
Definition StageNew (n : nat) (e : Env) (i : PrivateMessagePersistInput) (canonical : list Z) st : M D Staging :=
  record ← Admit options outcome e i;
  total ← StagedCount st (UnreadKey (in_to i));
  dialog ← StagedCount st (DialogUnreadKey (in_to i) (in_from i));
  pending ← StagedCount st (PendingCountKey (in_to i));
  CheckCounters total dialog pending;;
  match MessageCreated record (message_events_topic options) (CurrentUtcIso8601 e) with
  | None => throw (EStd (str "message event topic must be 1-128 ASCII letters, digits, '-' or '_'"))
  | Some event =>
      event_value ← event_text event;
      text ← json (json_dump (EncodeRecord record));
      let id := event_id (spec_event event) in
      let writes := MessageOps canonical record text total dialog pending ++
        [(EventKey id, Some event_value); (EventCopyKey id, Some event_value)] in
      Prepare id;;
      mret (MkStaging
        (<[n := MkPersist kSucceeded kCreated (message_id record) record [] None]> (st_out st))
        (<[n := true]> (st_provisional st))
        (st_creates st ++ [(n, writes)])
        (<[CidKey (in_from i) canonical := n]> (st_cids st))
        (<[PendingCountKey (in_to i) := pending +₆₄ 1]>
           (<[DialogUnreadKey (in_to i) (in_from i) := dialog +₆₄ 1]>
              (<[UnreadKey (in_to i) := total +₆₄ 1]> (st_counters st)))))
  end.

Lemma StageItem_new n e i canonical st :
  StageItem options outcome n e i canonical st =
  match st_cids st !! CidKey (in_from i) canonical with
  | Some staged =>
      mret (stage_result n (ReuseResult (p_record (default (persist_failure kStorageError []) (st_out st !! staged))) i) true st)
  | None =>
      existing ← FindByCid (in_from i) canonical;
      match existing with
      | Some record => mret (stage_result n (ReuseResult record i) false st)
      | None => StageNew n e i canonical st
      end
  end.
Proof. reflexivity. Qed.

Lemma wp_StageNew s A C st n e i :
  let c := canonical_cid options e (in_cid i) in
  config_ok options → staged s A C st n → (n < length (st_out st))%nat → item_typed (i, e) →
  dialog_ok options (in_from i) (in_to i) → input_ok i → cids C !! (in_from i, c) = None →
  wp (StageNew n e i c st)
    (λ st' s', length (st_out st') = length (st_out st) ∧
       ∃ C', send_step options (i, e) C C' ∧ staged s' A C' st' (S n))
    (λ ex s', fails ex ∧ item_failed s A C s') s.
Proof.
  intros c Hcfg Hst Hn [[Hf Ht] Henv] Hdlg Hin Hcid. cbn [fst snd] in *. unfold StageNew.
  pose proof (sg_good _ _ _ _ _ Hst) as Hg. pose proof (sg_wf _ _ _ _ _ Hst) as HwfC.
  apply wp_bind, (wp_Admit options outcome s (with_high A (high C)) (λ _, False) e i); [done|done|done| |].
  2: { intros ex s1 Hfl _ Hfail Hsl. split; [done|]. by eapply admit_failed. }
  intros s1 B Hg1 (h & Hh & ->) Hs1 Hix1 Hp1 Hid Hfresh Hnext Hclen Hcu. cbn [with_high high] in Hh, Hid.
  change (good s1 (with_high A h)) in Hg1. set (m := record_of e i (next_id s)) in *.
  assert (Hfail : item_failed s A C s1).
  { left. exists h. split_and!; [lia|done|eauto|done|lia]. }
  assert (Hw1 : wf (with_high C h)) by (apply wf_with_high; [done|lia]).
  assert (Hmid : is_u64 (next_id s)) by (unfold is_u64; lia).
  apply wp_bind, (wp_StagedCount s s1 A (with_high A h) C st n (KN (in_to i)) _ _ _ Hst Hg1 eq_refl Ht eq_refl).
  apply wp_bind, (wp_StagedCount s s1 A (with_high A h) C st n (KD (in_to i) (in_from i)) _ _ _ Hst Hg1 eq_refl (conj Ht Hf) eq_refl).
  apply wp_bind, (wp_StagedCount s s1 A (with_high A h) C st n (KQ (in_to i)) _ _ _ Hst Hg1 eq_refl Ht eq_refl).
  apply wp_bind. eapply wp_value; [by apply CheckCounters_ok|]. rewrite created_some by done.
  assert (Hnone : msgs (with_high C h) !! next_id s = None).
  { cbn. destruct (msgs C !! next_id s) eqn:E; [|done]. apply (sg_fresh _ _ _ _ _ Hst) in E. lia. }
  assert (Hpn : pend C !! created_id (next_id s) = None) by by apply (pend_new (with_high C h)).
  apply wp_bind, (wp_event_text (created_event m (CurrentUtcIso8601 e)) (message_events_topic options));
    [apply Hcfg|..|done].
  1: { cbn [created_event payload canonical m record_of from_user_id to_user_id message_id]. split; [literal_sorted|done]. }
  1: { done. }
  1: { rewrite <- created_spec. by apply created_some. }
  intros event Hev. apply wp_bind, wp_json; [|done]. intros text Htext. cbv zeta. cbn [spec_event created_event event_id].
  change (message_id m) with (next_id s).
  assert (Hok : message_ok m) by (apply (record_ok options e i); [done..|by exists text]).
  apply wp_bind, (wp_Prepare s1 (with_high A h) (slots s)); [done|done| | |].
  - exact (lookup_weaken_None _ _ _ Hpn (sg_pend _ _ _ _ _ Hst)).
  - intros Hin'. apply (sg_ids _ _ _ _ _ Hst) in Hin' as [? ?]. congruence.
  - intros s2 Hg2 Hc2 Hi2 Hpe2 Hs2. pose proof Hc2 as (_ & _ & _ & _ & _ & Enx & _). apply wp_ret.
    split; [cbn [st_out]; by rewrite length_insert|]. exists (add_message (with_high C h) c m event).
    split; [apply (create_step options s s2 A C st n h e i event Hst); done || lia|].
    apply (staged_create options s s2 A C st n h e i text event); try (done || lia || congruence).
    by rewrite Hs2, Hix1.
Qed.

Lemma wp_StageItem s A C st n e i :
  config_ok options → staged s A C st n → (n < length (st_out st))%nat → item_typed (i, e) →
  dialog_ok options (in_from i) (in_to i) → input_ok i →
  wp (StageItem options outcome n e i (canonical_cid options e (in_cid i)) st)
    (λ st' s', length (st_out st') = length (st_out st) ∧
       ∃ C', send_step options (i, e) C C' ∧ staged s' A C' st' (S n))
    (λ ex s', fails ex ∧ item_failed s A C s') s.
Proof.
  intros Hcfg Hst Hn Hty Hdlg Hin. rewrite StageItem_new. set (c := canonical_cid options e (in_cid i)).
  destruct Hty as [[Hf Ht] Henv]. cbn [fst snd] in *. pose proof (sg_cids _ _ _ _ _ Hst (in_from i) c Hf) as Hc.
  pose proof (sg_wf _ _ _ _ _ Hst) as HwfC.
  assert (Hstay : send_step options (i, e) C C) by (left; by apply same_but_high_refl).
  destruct (st_cids st !! CidKey (in_from i) c) as [k|] eqn:Hk.
  - destruct Hc as (r & Hr & _ & Hm & _). rewrite Hr. cbn [default from_option id]. apply wp_ret.
    split; [cbn [stage_result st_out]; by rewrite length_insert|]. exists C. split; [done|].
    apply staged_result; [done|by eapply sent_reused| |done]. intros _. by eapply an_cids; [apply (sg_answered _ _ _ _ _ Hst)|].
  - destruct (sg_good _ _ _ _ _ Hst) as [[_ _ HR HwfA _ _ _ _] _].
    apply wp_bind. eapply wp_value; [by apply (read_cid s _ HR HwfA)|]. cbn [with_high cids msgs].
    destruct (cids A !! (in_from i, c)) as [mid|] eqn:Hcid; cbn [mbind option_bind].
    + assert (Hcid' : cids (with_high A (high C)) !! (in_from i, c) = Some mid) by done.
      apply (wf_cids _ HwfA) in Hcid' as (m & Hm & _). cbn in Hm. rewrite Hm. apply wp_ret.
      split; [cbn [stage_result st_out]; by rewrite length_insert|]. exists C. split; [done|].
      assert (Hs : sent_ok A (ReuseResult m i)) by exact (sent_reused _ mid m i HwfA Hm).
      apply staged_result; [done|by apply (sg_keeps _ _ _ _ _ Hst)|done|done].
    + by apply wp_StageNew.
Qed.

(** ** An item on a store that has stopped *)

Definition frozen s s' : Prop := db s' = db s ∧ recoverable s' = recoverable s ∧ poisoned s' = poisoned s.

Lemma broken_frozen s s' T : frozen s s' → broken s T → broken s' T.
Proof. intros (E1 & E2 & E3) [Hp Hd]. unfold broken. by rewrite E1, E2, E3. Qed.

Lemma frozen_refl s : frozen s s.
Proof. done. Qed.
Lemma frozen_trans s s' s'' : frozen s s' → frozen s' s'' → frozen s s''.
Proof. intros (E1 & E2 & E3) (E4 & E5 & E6). unfold frozen. by rewrite E4, E5, E6. Qed.

(** A computation that leaves the engine of a stopped store alone. *)
Definition calm {R} (m : M D R) : Prop :=
  ∀ s, poisoned s = true → wp m (λ _, frozen s) (λ ex s', fails ex ∧ frozen s s') s.

Lemma calm_ret {R} (x : R) : calm (mret x).
Proof. by intros s Hp. Qed.
Lemma calm_throw {R} ex : fails ex → calm (throw (A := R) ex).
Proof. by intros Hf s Hp. Qed.
Lemma calm_gets {R} (f : Store D → R) : calm (gets f).
Proof. by intros s Hp. Qed.
Lemma calm_modify f : (∀ s, frozen s (f s)) → calm (modify f).
Proof. intros Hf s Hp. apply Hf. Qed.
Lemma calm_require b status t : status ≠ kSucceeded → calm (require b status t).
Proof. intros Hs s Hp. by apply wp_require. Qed.
Lemma calm_json {R} (o : option R) : calm (json o).
Proof. intros s Hp. by apply wp_json. Qed.

Lemma wp_calm {R R'} (m : M D R) (f : R → M D R') Q E s :
  calm m → poisoned s = true → (∀ x s', frozen s s' → wp (f x) Q E s') →
  (∀ ex s', fails ex → frozen s s' → E ex s') → wp (m ≫= f) Q E s.
Proof.
  intros Hm Hp HQ HE. apply wp_bind. eapply wp_mono; [by apply Hm|eauto|]. intros ex s' [? ?]. eauto.
Qed.

Lemma calm_bind {R R'} (m : M D R) (f : R → M D R') : calm m → (∀ x, calm (f x)) → calm (m ≫= f).
Proof.
  intros Hm Hf s Hp. apply wp_calm; [done|done| |done]. intros x s' Hs'.
  assert (Hp' : poisoned s' = true) by (destruct Hs' as (_ & _ & ->); done).
  eapply wp_mono; [by apply Hf| |].
  - intros y s'' Hs''. by eapply frozen_trans.
  - intros ex s'' [? Hs'']. split; [done|]. by eapply frozen_trans.
Qed.

Lemma poisoned_write batch sync s :
  poisoned s = true →
  Write outcome batch sync s = (s, inl (EFailure kStorageError (str "local owner requires recovery after write failure"))).
Proof.
  intros Hp. unfold Write, WriteDirect. rewrite (bind_ok _ _ s s (id s)) by done. apply bind_err.
  unfold require, id. by rewrite Hp.
Qed.

Lemma calm_write batch sync : calm (Write outcome batch sync).
Proof. intros s Hp. unfold wp. by rewrite poisoned_write. Qed.

Lemma calm_NextId : calm (NextId outcome).
Proof.
  unfold NextId. apply calm_bind; [apply calm_gets|]. intros s0. apply calm_bind; [|intros _].
  - destruct (_ <? _); [|apply calm_ret]. apply calm_bind; [by apply calm_require|intros _].
    apply calm_bind; [apply calm_write|intros _]. apply calm_bind; [by apply calm_modify|intros _]. by apply calm_modify.
  - apply calm_bind; [apply calm_gets|]. intros n. apply calm_bind; [by apply calm_modify|intros _]. apply calm_ret.
Qed.

Lemma calm_Admit e i : calm (Admit options outcome e i).
Proof.
  unfold Admit. apply calm_bind; [by apply calm_require|intros _].
  apply calm_bind; [destruct (json_dump _); [apply calm_ret|by apply calm_throw]|intros _].
  apply calm_bind; [by apply calm_require|intros _].
  apply calm_bind; [|intros _].
  { unfold NewSlot. apply calm_bind; [apply calm_gets|]. intros n. apply calm_bind; [by apply calm_require|intros _].
    by apply calm_modify. }
  apply calm_bind; [|intros _].
  { destruct (before_new_message_commit options); cbn [andb]; [|apply calm_ret].
    case_bool_decide; cbn [negb]; [apply calm_ret|]. by apply calm_throw. }
  apply calm_bind; [apply calm_NextId|]. intros mid. apply calm_ret.
Qed.

Lemma calm_StagedCount st key : calm (StagedCount st key).
Proof.
  unfold StagedCount. destruct (st_counters st !! key); [apply calm_ret|].
  unfold Count. apply calm_bind; [apply calm_gets|]. intros [t|]; [|apply calm_ret].
  unfold ParseNumber. apply calm_bind; [by apply calm_require|intros _]. apply calm_ret.
Qed.

Lemma calm_event_text event : calm (event_text event).
Proof. unfold event_text. destruct (Encode _); [apply calm_json|by apply calm_throw]. Qed.

Lemma calm_Prepare id : calm (Prepare id).
Proof.
  unfold Prepare. apply calm_bind; [apply calm_gets|]. intros s0. destruct (negb _); [apply calm_ret|].
  apply calm_bind; [by apply calm_require|intros _]. by apply calm_modify.
Qed.

(** A store that a failed write has stopped, with what is answered so far. *)
Definition halted s A st : Prop := broken s (same_but_high A) ∧ answered A st.

Lemma calm_StageNew s A n e i c st :
  poisoned s = true → answered A st →
  wp (StageNew n e i c st) (λ st' s', frozen s s' ∧ answered A st') (λ ex s', fails ex ∧ frozen s s') s.
Proof.
  intros Hp Ha. unfold StageNew.
  assert (Hbind : ∀ R (m : M D R) (f : R → M D Staging) s1, frozen s s1 → calm m →
    (∀ x s2, frozen s s2 → wp (f x) (λ st' s', frozen s s' ∧ answered A st') (λ ex s', fails ex ∧ frozen s s') s2) →
    wp (m ≫= f) (λ st' s', frozen s s' ∧ answered A st') (λ ex s', fails ex ∧ frozen s s') s1).
  { intros R m f s1 Hs1 Hm Hf. apply wp_calm; [done| | |].
    - destruct Hs1 as (_ & _ & ->). done.
    - intros x s2 Hs2. apply Hf. by eapply frozen_trans.
    - intros ex s2 Hfl Hs2. split; [done|]. by eapply frozen_trans. }
  apply Hbind; [done|apply calm_Admit|]. intros m s1 H1'.
  apply Hbind; [done|apply calm_StagedCount|]. intros total s2 H2'.
  apply Hbind; [done|apply calm_StagedCount|]. intros dialog s3 H3'.
  apply Hbind; [done|apply calm_StagedCount|]. intros pending s4 H4'.
  apply Hbind; [done|by apply calm_require|]. intros _ s5 H5'.
  destruct (MessageCreated _ _ _) as [event|]; [|by apply wp_throw].
  apply Hbind; [done|apply calm_event_text|]. intros value s6 H6'.
  apply Hbind; [done|apply calm_json|]. intros text s7 H7'. cbv zeta.
  apply Hbind; [done|apply calm_Prepare|]. intros _ s8 H8'. apply wp_ret. split; [done|]. by apply answered_create.
Qed.

Lemma halted_StageItem s A n e i c st :
  halted s A st → is_u64 (in_from i) →
  wp (StageItem options outcome n e i c st) (λ st' s', halted s' A st') (λ ex s', fails ex ∧ halted s' A st) s.
Proof.
  intros [Hbr Ha] Hf. rewrite StageItem_new. destruct (st_cids st !! CidKey (in_from i) c) as [k|] eqn:Hk.
  { apply wp_ret. split; [done|]. apply answered_result; [done| |done]. intros _. by eapply an_cids. }
  destruct Hbr as [Hp Hd]. destruct (Hd (db s)) as (B & (h & _ & ->) & p & Hsub & HR & Hwf); [left|].
  apply wp_bind. eapply wp_value; [by apply (read_cid s _ HR Hwf)|]. cbn [with_pend with_high cids msgs].
  destruct (cids A !! (in_from i, c)) as [mid|] eqn:Hcid; cbn [mbind option_bind].
  - assert (Hcid' : cids (with_pend (with_high A h) p) !! (in_from i, c) = Some mid) by done.
    apply (wf_cids _ Hwf) in Hcid' as (m & Hm & _). cbn in Hm. rewrite Hm. apply wp_ret. split; [done|].
    apply answered_result; [done|done|]. intros _ _. destruct (wf_msgs _ Hwf mid m Hm) as (Hid & _). split.
    + exists m. cbn [ReuseResult p_message_id p_record]. by rewrite Hid.
    + cbn. by destruct (_ && _).
  - eapply wp_mono; [by apply (calm_StageNew s A)|..].
    + intros st' s' [Hs' Ha']. split; [|done]. by apply (broken_frozen s).
    + intros ex s' [? Hs']. split; [done|]. split; [|done]. by apply (broken_frozen s).
Qed.

(** ** The loop *)

Definition item_checked (item : PrivateMessagePersistInput * Env * (Exn + list Z)) : Prop :=
  let '(i, e, c) := item in
  match c with
  | inl ex => fails ex
  | inr c => c = canonical_cid options e (in_cid i) ∧ dialog_ok options (in_from i) (in_to i) ∧ input_ok i
  end ∧ item_typed (i, e).

Lemma halted_loop items s A st n s' st' stopped :
  halted s A st → Forall item_checked items → StageLoop options outcome n items st s = (s', (st', stopped)) →
  match stopped with Some ex => fails ex | None => True end ∧ halted s' A st'.
Proof.
  revert s st n. induction items as [|[[i e] c] items IH]; intros s st n Hh Hck; cbn [StageLoop].
  { by intros [= <- <- <-]. }
  apply list.Forall_cons in Hck as [Hi Hck]. destruct c as [ex|c]; [by apply IH|].
  destruct Hi as [_ [[Hf _] _]]. cbn [fst] in Hf.
  pose proof (unwinding_spec _ _ _ _ (halted_StageItem s A n e i c st Hh Hf)) as Hu.
  destruct (unwinding _ s) as [s1 [ex|st1]]; [|by apply IH].
  destruct Hu as (s2 & [Hfl [Hbr Ha]] & ->).
  assert (Hh' : halted (unwound (length (slots s)) s2) A st).
  { split; [|done]. by eapply broken_frame; [apply unwound_core|]. }
  destruct ex as [status m| |m]; [..|by intros [= <- <- <-]]; apply IH; try done; destruct Hh' as [? ?]; (split; [done|]);
    apply answered_result; try done; intros _; by apply sent_failed.
Qed.

Lemma stage_loop items s A C st n s' st' stopped :
  config_ok options → staged s A C st n → Forall item_checked items → (n + length items ≤ length (st_out st))%nat →
  StageLoop options outcome n items st s = (s', (st', stopped)) →
  match stopped with Some ex => fails ex | None => True end ∧
  ((∃ C' n', staged s' A C' st' n' ∧ (stopped = None → sends options items.*1 C C')) ∨ halted s' A st').
Proof.
  intros Hcfg. revert s C st n. induction items as [|[[i e] c] items IH]; intros s C st n Hst Hck Hlen; cbn [StageLoop].
  { intros [= <- <- <-]. split; [done|]. left. by exists C, n. }
  apply list.Forall_cons in Hck as [Hi Hck]. cbn [length] in Hlen. pose proof (sg_wf _ _ _ _ _ Hst) as HwfC.
  assert (Hnext : ∀ s1 C1 st1, staged s1 A C1 st1 (S n) → send_step options (i, e) C C1 →
    length (st_out st1) = length (st_out st) → StageLoop options outcome (S n) items st1 s1 = (s', (st', stopped)) →
    match stopped with Some ex => fails ex | None => True end ∧
    ((∃ C' n', staged s' A C' st' n' ∧ (stopped = None → sends options ((i, e) :: items.*1) C C')) ∨ halted s' A st')).
  { intros s1 C1 st1 Hst1 Hstep Hlen1 Hl. destruct (IH s1 C1 st1 (S n) Hst1 Hck ltac:(lia) Hl) as (Hs & [(C' & n' & ? & Hc)|?]);
      (split; [done|]); [left|by right]. exists C', n'. split; [done|]. intros Hn. exists C1. auto. }
  rewrite fmap_cons. cbn [fst]. destruct c as [ex|c].
  { apply (Hnext s C st); [by apply staged_skip|left; by apply same_but_high_refl|done]. }
  destruct Hi as [(-> & Hdlg & Hin) Hty].
  pose proof (unwinding_spec _ _ _ _ (wp_StageItem s A C st n e i Hcfg Hst ltac:(lia) Hty Hdlg Hin)) as Hu.
  destruct (unwinding _ s) as [s1 [ex|st1]].
  2: { destruct Hu as (Hl1 & C1 & Hstep & Hst1). by apply (Hnext s1 C1). }
  destruct Hu as (s2 & [Hfl [(h & Hh & Hg2 & Hex & Hix & Hnx)|Hbr]] & ->).
  - pose proof (staged_unwound _ _ _ _ _ _ h Hst Hh Hg2 Hex Hix Hnx) as Hst2.
    assert (Hstep : send_step options (i, e) C (with_high C h)).
    { left. exists h. pose proof (wf_high _ (sg_wf _ _ _ _ _ Hst2)) as Hb. cbn in Hb. split; [lia|done]. }
    destruct ex as [status m| |m].
    3: { intros [= <- <- <-]. split; [done|]. left. by exists (with_high C h), n. }
    all: apply (Hnext _ (with_high C h)); [|done|cbn [stage_result st_out]; by rewrite length_insert].
    all: apply staged_result; try done; try intros _; by apply sent_failed.
  - assert (Hh' : halted (unwound (length (slots s)) s2) A st).
    { split; [|apply (sg_answered _ _ _ _ _ Hst)]. by eapply broken_frame; [apply unwound_core|]. }
    destruct ex as [status m| |m].
    3: { intros [= <- <- <-]. split; [done|]. by right. }
    all: intros Hl; destruct Hh' as [Hb' Ha']; eapply halted_loop in Hl as [Hs Hh2]; [split; [done|by right]| |done].
    all: split; [done|]; apply answered_result; try done; intros _; by apply sent_failed.
Qed.

(** ** The write *)

(** What a batch leads to: sends in order, and answers that are true. *)
Definition batch_post items A rs B : Prop := sends options items A B ∧ Forall (sent_ok B) rs.

Lemma high_post items A B rs :
  items ≠ [] → wf B → same_but_high A B → Forall (sent_ok A) rs → batch_post items A rs B.
Proof.
  intros Hne Hwf HB Hrs. split; [by apply sends_high|]. eapply list.Forall_impl; [exact Hrs|]. intros r Hr. by apply (high_keeps A).
Qed.

Lemma commit_staged items s A C st n s' result :
  items ≠ [] → staged s A C st n → sends options items A C → CommitStaging options outcome st s = (s', result) →
  match result with
  | inr rs => settled s' (batch_post items A rs)
  | inl ex => settled (DestroySlots s') (batch_post items A (FailUncommitted ex (st_out st) (st_provisional st)))
  end.
Proof.
  intros Hne Hst Hsends. pose proof Hst as [Hg Hh Hwf Hfr Hrep Hp Hsz Hsl Hids Hdom Hct Hci Hk0 Ho Ha].
  pose proof (with_high_same A C Hwf Hh) as HB. pose proof Hg as [[_ _ HR HwfA _ _ _ _] _]. unfold CommitStaging.
  destruct (st_creates st) as [|x creates] eqn:Hcr.
  { intros [= <- <-]. apply (settled_good _ (with_high A (high C))); [|done|by destruct (slots s)].
    apply high_post; [done..|]. by apply nothing_staged_ok. }
  rewrite <- Hcr in *. assert (HCC : with_high C (high C) = C) by by destruct C.
  assert (Hw : wp (Write outcome (concat (st_creates st).*2) true ;; CommitSlots ;;
      count messages (Z.of_nat (length (st_creates st))) ;; count message_batches 1 ;; Notify ;;
      mret (foldl (SetCommittedUnread options st) (st_out st) (st_creates st)))
    (λ rs s', rs = foldl (SetCommittedUnread options st) (st_out st) (st_creates st) ∧ good s' C ∧ slots s' = [])
    (λ ex s', fails ex ∧ broken s' (λ B, B = with_high A (high C) ∨ B = C)) s).
  { apply (wp_commit outcome s (with_high A (high C)) C); [done| |done|done|done|done| | |].
    - pose proof (Hrep (high C) (db s) HR) as HRc. by rewrite HCC in HRc.
    - intros Hon id. split; [by apply Hdom|]. intros [Hid|Hid]; [|by apply Hids].
      destruct Hid as [t Ht]. exists t. exact (lookup_weaken _ _ _ _ Ht Hp).
    - intros s1 Hg1 Hs1. wps. split; [done|]. split; [|done]. by apply (good_frame s1).
    - intros ex s1 Hfl _ Hbr. done. }
  match type of Hw with wp ?m _ _ _ => unfold wp in Hw; intros Hm; change (m s = (s', result)) in Hm; rewrite Hm in Hw end.
  destruct result as [ex|rs].
  - destruct Hw as [Hfl Hbr]. pose proof (fail_uncommitted_ok A st ex Ha Hfl) as Hrs.
    apply (settled_broken _ (λ B, B = with_high A (high C) ∨ B = C)).
    { eapply broken_frame; [|exact Hbr]. exact (proj1 (destroy_all s' (slots s'))). }
    intros B [->| ->]; [by apply high_post|]. split; [done|]. eapply list.Forall_impl; [exact Hrs|]. auto.
  - destruct Hw as (-> & Hg' & Hs'). apply (settled_good _ C); [|done..]. split; [done|].
    apply committed_unread_ok. apply list.Forall_lookup. exact Ho.
Qed.

Lemma halted_commit items s A st s' result :
  items ≠ [] → halted s A st → CommitStaging options outcome st s = (s', result) →
  match result with
  | inr rs => settled s' (batch_post items A rs)
  | inl ex => settled (DestroySlots s') (batch_post items A (FailUncommitted ex (st_out st) (st_provisional st)))
  end.
Proof.
  intros Hne [Hbr Ha]. unfold CommitStaging.
  assert (Hset : ∀ s1 rs, broken s1 (same_but_high A) → Forall (sent_ok A) rs → settled s1 (batch_post items A rs)).
  { intros s1 rs [Hp Hd] Hrs. right. split; [done|]. intros d Hin. destruct (Hd d Hin) as (B & HB & Hrec). exists B.
    split; [|done]. apply high_post; [done| |done|done]. destruct Hrec as (p & Hsub & _ & Hwf). by eapply wf_without_pend. }
  destruct (st_creates st) as [|x creates] eqn:Hcr.
  { intros [= <- <-]. apply Hset; [done|]. by apply nothing_staged_ok. }
  rewrite (bind_err _ _ _ _ _ (poisoned_write _ _ s (proj1 Hbr))). intros [= <- <-].
  apply Hset; [|by apply fail_uncommitted_ok]. eapply broken_frame; [exact (proj1 (destroy_all s (slots s)))|done].
Qed.

(** ** The first loop *)

Lemma Eligible_spec e i s :
  ∃ c, Eligible options e i s = (s, inr c) ∧
    match c with
    | inl ex => fails ex
    | inr c => c = canonical_cid options e (in_cid i) ∧ dialog_ok options (in_from i) (in_to i) ∧ input_ok i
    end.
Proof.
  unfold Eligible.
  assert (Hw : wp (Dialog options (in_from i) (in_to i) ;; CheckInput i ;; Identity options e (in_cid i))
    (λ c s', s' = s ∧ c = canonical_cid options e (in_cid i) ∧ dialog_ok options (in_from i) (in_to i) ∧ input_ok i)
    (λ ex s', s' = s ∧ fails ex) s).
  { apply wp_bind, wp_Dialog; [|done]. intros Hd. apply wp_bind, wp_CheckInput; [|done]. intros Hi. by apply wp_Identity. }
  match type of Hw with wp ?m _ _ _ => unfold wp in Hw; destruct (m s) as [s1 [ex|c]] end; destruct Hw as [-> Hw].
  - by exists (inl ex).
  - by exists (inr c).
Qed.

Lemma EligibleLoop_spec items s :
  Forall item_typed items →
  ∃ checked, EligibleLoop options items s = (s, inr checked) ∧ checked.*1 = items ∧ Forall item_checked checked.
Proof.
  induction items as [|[i e] items IH]; intros Hty; [by exists []|].
  apply list.Forall_cons in Hty as [Hi Hty]. destruct (IH Hty) as (checked & He & Hf & Hc).
  destruct (Eligible_spec e i s) as (c & Ho & Hok). exists ((i, e, c) :: checked). cbn [EligibleLoop]. split_and!.
  - rewrite (bind_ok _ _ _ _ _ Ho). by rewrite (bind_ok _ _ _ _ _ He).
  - by rewrite fmap_cons, Hf.
  - apply list.Forall_cons. split; [by split|done].
Qed.

Lemma fail_uncommitted_failed ex out bs :
  fails ex → Forall (λ r, p_status r ≠ kSucceeded) out → Forall (λ r, p_status r ≠ kSucceeded) (FailUncommitted ex out bs).
Proof.
  intros Hf Ho. apply list.Forall_lookup. intros j r. unfold FailUncommitted. rewrite list_lookup_imap.
  destruct (out !! j) as [r0|] eqn:Hj; [|done]. cbn. intros [= <-]. destruct (_ || _); [done|].
  exact (proj1 (list.Forall_lookup _ _) Ho j r0 Hj).
Qed.

Lemma failed_post items A B rs :
  sends options items A B → Forall (λ r, p_status r ≠ kSucceeded) rs → batch_post items A rs B.
Proof. intros Hs Hf. split; [done|]. eapply list.Forall_impl; [exact Hf|]. intros r. by apply sent_failed. Qed.

(** ** The whole call *)

Lemma batch_settled items s A s' rs :
  config_ok options → good s A → slots s = [] → Forall item_typed items → items ≠ [] →
  PersistBatch options outcome items s = (s', rs) → settled s' (batch_post items A rs).
Proof.
  intros Hcfg Hg Hsl Hty Hne. unfold PersistBatch. pose proof Hg as [[_ _ _ Hwf _ _ _ _] _].
  destruct (EligibleLoop_spec items s Hty) as (checked & He & Hf & Hck).
  assert (Hopen : (Open ;; EligibleLoop options items) s = (s, inr checked)).
  { erewrite bind_ok; [exact He|]. unfold Open, gets. rewrite (bind_ok _ _ s s s) by done. apply require_ok.
    destruct Hg as [[[E1 E2] E3 _ _ _ _ _ _] _]. by rewrite E1, E2, E3. }
  rewrite Hopen. cbv zeta. set (out := (λ item, first_result item.2) <$> checked).
  assert (Hout : Forall (λ r, p_status r ≠ kSucceeded) out).
  { apply list.Forall_fmap. eapply list.Forall_impl; [exact Hck|]. intros [[i e] [ex|c]] [Hi _]; cbn; done. }
  destruct (LockActors_cases options (batch_actors checked) s) as (L & [ex|[]] & Hlock & Hfl); rewrite Hlock.
  { intros [= <- <-]. apply (settled_good _ A); [|by apply good_locks|done].
    apply failed_post; [by apply sends_stay|]. by apply fail_uncommitted_failed. }
  destruct (StageLoop options outcome 0 checked _ _) as [s1 [st stopped]] eqn:Hl.
  apply (stage_loop checked (set_user_locks L s) A A) in Hl as [Hst Hend]; [|done| |done|].
  2: { apply staged_start; [by apply good_locks|done|done]. }
  2: { cbn [st_out]. unfold out. by rewrite length_fmap. }
  rewrite Hf in Hend. destruct stopped as [ex|].
  - intros [= <- <-]. destruct Hend as [(C & n & Hstg & _)|[[Hp Hd] Ha]].
    + pose proof Hstg as [Hg1 Hh HwfC _ _ _ _ _ _ _ _ _ _ _ Ha].
      apply (settled_good _ (with_high A (high C))); [|by apply (unwound_good s1 _ 0); [lia|]|done].
      apply high_post; [done|by destruct Hg1 as [[]]|by apply with_high_same|by apply fail_uncommitted_ok].
    + apply (settled_broken _ (λ B, ∃ p, same_but_high A B ∧ wf B ∧ pend B ⊆ p)).
      * eapply broken_frame; [exact (proj1 (destroy_all s1 (slots s1)))|]. split; [done|]. intros d Hin.
        destruct (Hd d Hin) as (B & HB & p & Hsub & HR & Hwfp). exists B. split; [|by exists p].
        exists p. split_and!; [done|by eapply wf_without_pend|done].
      * intros B (p & HB & HwB & _). apply high_post; [done..|]. by apply fail_uncommitted_ok.
  - destruct (CommitStaging options outcome st s1) as [s2 result] eqn:Hcm.
    assert (Hres : match result with
      | inr rs => settled s2 (batch_post items A rs)
      | inl ex => settled (DestroySlots s2) (batch_post items A (FailUncommitted ex (st_out st) (st_provisional st)))
      end).
    { destruct Hend as [(C & n & Hstg & Hs)|Hh]; [by eapply commit_staged; [..|apply Hs|]|by eapply halted_commit]. }
    destruct result; by intros [= <- <-].
Qed.

Lemma persists_settled items s A s' rs :
  config_ok options → good s A → slots s = [] → Forall item_typed items →
  PersistPrivateMessages options outcome items s = (s', rs) → settled s' (batch_post items A rs).
Proof.
  intros Hcfg Hg Hsl Hty. pose proof Hg as [[_ _ _ Hwf _ _ _ _] _]. unfold PersistPrivateMessages.
  destruct (64 <? _).
  { intros [= <- <-]. apply (settled_good _ A); [|done..]. apply failed_post; [by apply sends_stay|].
    by apply list.Forall_fmap, list.Forall_true. }
  case_bool_decide as Hne.
  { subst items. intros [= <- <-]. apply (settled_good _ A); [|done..]. by split. }
  destruct (_ || _); [by apply each_settled|by apply batch_settled].
Qed.

(** A stopped store sends nothing. *)
Lemma poisoned_persists items s :
  poisoned s = true →
  (PersistPrivateMessages options outcome items s).1 = s ∧
  Forall (λ r, p_status r ≠ kSucceeded) (PersistPrivateMessages options outcome items s).2.
Proof.
  intros Hp. unfold PersistPrivateMessages. destruct (64 <? _).
  { split; [done|]. by apply list.Forall_fmap, list.Forall_true. }
  case_bool_decide as Hne; [by split|]. destruct (_ || _); [by apply poisoned_each|].
  unfold PersistBatch. rewrite (bind_err _ _ _ _ _ (poisoned_open s Hp)). split; [done|].
  apply fail_uncommitted_failed; [done|]. by apply list.Forall_fmap, list.Forall_true.
Qed.

End Sending.
