(* ===== verification/LocalStoreConfirm.v ===== *)
(** * Receiver confirmations in the local store

    [ConfirmReceiver] and [ConfirmReceiverBatch]: pending messages become confirmed
    together with the index of pending messages and the pending counts, in one write.
    [ConfirmReceiverRequests]: a batch of confirmations, each for the receiver that asks.
    The pending messages of the requests their receivers own become confirmed in one
    write; a request is answered with success only when its message is confirmed in what
    the store then holds. *)
From Stdlib Require Import ZArith Lia String.
From stdpp Require Import base list numbers sorting option gmap.
From S2P Require Import Prelude ByteStrings MessageTypes KeyValueEngine DomainEvents LocalPrivateStore LocalStoreKeys LocalStoreModel LocalStoreInvariant LocalStoreChanges LocalStoreSteps.

Local Open Scope Z_scope.
Local Open Scope width_scope.

(** ** Counts by receiver *)

Section Bump.
Implicit Types (l : list (Z * Z)) (r : Z).

Definition count_of l r : Z := lsum (λ e, if decide (e.1 = r) then e.2 else 0) l.

Lemma count_bump r r' l : count_of (bump r l) r' = count_of l r' + (if decide (r = r') then 1 else 0).
Proof.
  unfold count_of. induction l as [|[r0 n] l IH]; cbn [bump].
  { rewrite lsum_cons. cbn [fst snd]. lia. }
  destruct (Z.ltb_spec r r0).
  { rewrite lsum_cons. cbn [fst snd]. lia. }
  destruct (Z.eqb_spec r r0) as [->|].
  - rewrite !lsum_cons. cbn [fst snd]. case_decide; lia.
  - rewrite !lsum_cons, IH. cbn [fst snd]. lia.
Qed.

Lemma lsum_bump r l : lsum snd (bump r l) = lsum snd l + 1.
Proof.
  induction l as [|[r0 n] l IH]; cbn [bump]; [done|].
  destruct (r <? r0); [rewrite lsum_cons; cbn [snd]; lia|]. destruct (r =? r0); rewrite !lsum_cons; cbn [snd]; lia.
Qed.

Lemma elem_of_bump r r' l : r' ∈ (bump r l).*1 ↔ r' = r ∨ r' ∈ l.*1.
Proof.
  induction l as [|[r0 n] l IH]; cbn [bump].
  { rewrite fmap_cons. cbn. rewrite list_elem_of_singleton, elem_of_nil. tauto. }
  destruct (r <? r0); [by rewrite !fmap_cons, !elem_of_cons|].
  destruct (Z.eqb_spec r r0) as [->|].
  - rewrite !fmap_cons, !elem_of_cons. cbn [fst]. tauto.
  - rewrite !fmap_cons, !elem_of_cons, IH. tauto.
Qed.

Lemma bump_sorted r l : StronglySorted Z.lt l.*1 → StronglySorted Z.lt (bump r l).*1.
Proof.
  induction l as [|[r0 n] l IH]; cbn [bump]; intros Hs; [by repeat constructor|].
  rewrite fmap_cons in Hs. apply StronglySorted_cons in Hs as [Hr Hs]. cbn [fst] in *.
  destruct (Z.ltb_spec r r0).
  { rewrite !fmap_cons. apply StronglySorted_cons. split; [|by apply StronglySorted_cons].
    apply list.Forall_cons. split; [done|]. eapply list.Forall_impl; [exact Hr|]. cbn. lia. }
  destruct (Z.eqb_spec r r0) as [->|].
  - rewrite fmap_cons. apply StronglySorted_cons. done.
  - rewrite fmap_cons. apply StronglySorted_cons. split; [|by apply IH].
    apply list.Forall_forall. intros x [->|Hx]%elem_of_bump; cbn; [lia|].
    by apply (proj1 (list.Forall_forall _ _) Hr).
Qed.

(** In an ordered list a receiver has one entry. *)
Lemma count_sorted l r n : StronglySorted Z.lt l.*1 → (r, n) ∈ l → count_of l r = n.
Proof.
  unfold count_of. induction l as [|[r0 n0] l IH]; intros Hs Hin; [by apply elem_of_nil in Hin|].
  rewrite fmap_cons in Hs. apply StronglySorted_cons in Hs as [Hr Hs]. cbn [fst] in Hr.
  rewrite lsum_cons. cbn [fst snd]. apply elem_of_cons in Hin as [[= <- <-]|Hin].
  - rewrite decide_True by done. rewrite lsum_zero; [lia|]. intros [r' n'] Hin'. cbn. rewrite decide_False; [done|].
    intros ->. assert (r < r); [|lia]. apply (proj1 (list.Forall_forall _ _) Hr). apply list_elem_of_fmap. by exists (r, n').
  - rewrite IH by done. rewrite decide_False; [lia|]. intros ->.
    assert (r < r); [|lia]. apply (proj1 (list.Forall_forall _ _) Hr). apply list_elem_of_fmap. by exists (r, n).
Qed.

End Bump.

Section Confirmations.
Context {D : Type} `{EngineLaws D} `{JsonLaws}.
Variable options : LocalPrivateStoreOptions.
Implicit Types (s : Store D) (A : Contents).

(** ** The operations of a batch *)

Definition confirm_kops A (now : list Z) (l : list Z) : list (Key * option (list Z)) :=
  l ≫= λ k, match msgs A !! k with
            | Some m => [(KM k, Some (record_text (confirm now m))); (KP (to_user_id m) k, None)]
            | None => []
            end.
Definition count_kops A (removed : list (Z * Z)) : list (Key * option (list Z)) :=
  (λ e, (KQ e.1, counter (cnt (pending_of e.1) (msgs A) - e.2))) <$> removed.

(** The counts of some messages by receiver. *)
Record tracked A (l : list Z) (removed : list (Z * Z)) : Prop := {
  t_sorted : StronglySorted Z.lt removed.*1;
  t_count : ∀ r, count_of removed r = received A r l;
  t_total : lsum snd removed = Z.of_nat (length l);
  t_keys : ∀ r, r ∈ removed.*1 ↔ ∃ k m, k ∈ l ∧ msgs A !! k = Some m ∧ to_user_id m = r;
}.

Lemma tracked_nil A : tracked A [] [].
Proof.
  split; [constructor|done|done|]. intros r. split; [by intros ?%elem_of_nil|].
  intros (k & m & Hk & _). by apply elem_of_nil in Hk.
Qed.

Lemma tracked_snoc A l removed k m :
  tracked A l removed → msgs A !! k = Some m → tracked A (l ++ [k]) (bump (to_user_id m) removed).
Proof.
  intros [Hs Hc Ht Hk] Hm. split.
  - by apply bump_sorted.
  - intros r. rewrite count_bump, Hc. unfold received. rewrite lsum_snoc, Hm. unfold sent_to.
    destruct (Z.eqb_spec (to_user_id m) r) as [->|]; [by rewrite decide_True|by rewrite decide_False].
  - rewrite lsum_bump, Ht, length_app. cbn [length]. lia.
  - intros r. rewrite elem_of_bump, Hk. split.
    + intros [->|(k' & m' & ? & ? & ?)]; [exists k, m|exists k', m']; rewrite elem_of_app, list_elem_of_singleton; auto.
    + intros (k' & m' & [Hin|Hin]%elem_of_app & Hm' & <-); [right; eauto|].
      apply list_elem_of_singleton in Hin as ->. left. congruence.
Qed.

Lemma confirm_kops_snoc A now l k m :
  msgs A !! k = Some m →
  confirm_kops A now (l ++ [k]) =
  confirm_kops A now l ++ [(KM k, Some (record_text (confirm now m))); (KP (to_user_id m) k, None)].
Proof. intros Hm. unfold confirm_kops. rewrite bind_app. cbn. by rewrite Hm. Qed.

Lemma elem_of_confirm_kops A now l op :
  op ∈ confirm_kops A now l ↔
  ∃ k m, k ∈ l ∧ msgs A !! k = Some m ∧
    (op = (KM k, Some (record_text (confirm now m))) ∨ op = (KP (to_user_id m) k, None)).
Proof.
  unfold confirm_kops. rewrite list_elem_of_bind. split.
  - intros (k & Hop & Hk). destruct (msgs A !! k) as [m|] eqn:Hm; [|by apply elem_of_nil in Hop].
    exists k, m. rewrite !elem_of_cons, elem_of_nil in Hop. tauto.
  - intros (k & m & Hk & Hm & Hop). exists k. split; [|done]. rewrite Hm, !elem_of_cons, elem_of_nil. tauto.
Qed.

Lemma tracked_elem A l removed r n :
  tracked A l removed → (r, n) ∈ removed → n = received A r l ∧ ∃ k m, k ∈ l ∧ msgs A !! k = Some m ∧ to_user_id m = r.
Proof.
  intros [Hs Hc _ Hk] Hin. split.
  - rewrite <- Hc. symmetry. by apply count_sorted.
  - apply Hk, list_elem_of_fmap. by exists (r, n).
Qed.

Lemma rep_confirm_kops d A now l removed :
  Rep d A → wf A → NoDup l → (∀ k, k ∈ l → ∃ m, msgs A !! k = Some m ∧ delivery_state m = kPending) →
  tracked A l removed →
  Rep (db_write d (enc_ops (confirm_kops A now l ++ count_kops A removed))) (confirm_all A now l).
Proof.
  intros HR Hwf Hl Hpend Htr.
  assert (Hu : ∀ k m, msgs A !! k = Some m → is_u64 k ∧ is_u64 (to_user_id m)).
  { intros k m Hm. destruct (wf_msgs A Hwf k m Hm) as (_ & Hb & Hok). pose proof (wf_high A Hwf).
    split; [unfold is_u64; lia|apply Hok]. }
  apply rep_confirm; [done..| | |].
  - apply list.Forall_forall. intros op [Hop|Hop]%elem_of_app.
    + apply elem_of_confirm_kops in Hop as (k & m & Hk & Hm & [->| ->]); destruct (Hu k m Hm); done.
    + apply list_elem_of_fmap in Hop as ([r n] & -> & Hin).
      destruct (tracked_elem A l removed r n Htr Hin) as (_ & k & m & _ & Hm & <-). by destruct (Hu k m Hm).
  - intros key v [Hop|Hop]%elem_of_app.
    + apply elem_of_confirm_kops in Hop as (k & m & Hk & Hm & Hop). left. eauto 10.
    + apply list_elem_of_fmap in Hop as ([r n] & [= -> ->] & Hin). right. exists r.
      destruct (tracked_elem A l removed r n Htr Hin) as (-> & _). done.
  - intros k m Hk Hm. rewrite fmap_app, !elem_of_app.
    assert (∀ op, op = (KM k, Some (record_text (confirm now m))) ∨ op = (KP (to_user_id m) k, None) →
      op.1 ∈ (confirm_kops A now l).*1) as Hin.
    { intros op Hop. apply list_elem_of_fmap. exists op. split; [done|]. apply elem_of_confirm_kops. eauto 10. }
    split_and!; [left; exact (Hin _ (or_introl eq_refl))|left; exact (Hin _ (or_intror eq_refl))|right].
    assert (to_user_id m ∈ removed.*1) as ([r n] & Er & Hin')%list_elem_of_fmap by (apply (t_keys A l removed Htr); eauto).
    apply list_elem_of_fmap. exists (KQ r, counter (cnt (pending_of r) (msgs A) - n)). cbn in Er. subst r.
    split; [done|]. apply list_elem_of_fmap. by exists (to_user_id m, n).
Qed.

(** ** Reading the counts *)

Lemma PendingOp_enc r n k : is_u64 n → 0 ≤ k ≤ n → PendingOp r n k = (enc (KQ r), counter (n - k)).
Proof.
  intros Hn Hk. unfold PendingOp, counter. cbn [enc]. f_equal.
  destruct (Z.eqb_spec n k), (Z.eqb_spec (n - k) 0); try lia; [done|].
  rewrite u64_small; [done|]. unfold is_u64 in *. lia.
Qed.

Lemma PendingOps_ok A s t removed :
  Rep (db s) A → wf A →
  (∀ r n, (r, n) ∈ removed → is_u64 r ∧ 0 ≤ n ≤ cnt (pending_of r) (msgs A)) →
  PendingOps t removed s = (s, inr (enc_ops (count_kops A removed))).
Proof.
  intros HR Hwf. induction removed as [|[r n] removed IH]; intros Hall; [done|].
  destruct (Hall r n) as [Hr Hn]; [left|]. cbn [PendingOps].
  rewrite (bind_ok _ _ _ _ _ (read_pending s A HR Hwf r Hr)).
  erewrite bind_ok; [|apply require_ok; apply Z.leb_le; lia].
  erewrite bind_ok; [|apply IH; intros r' n' Hin; apply Hall; by right].
  rewrite PendingOp_enc; [done|by apply (cnt_u64 A)|done].
Qed.

(** The counts a batch removes are there. *)
Lemma tracked_bound A l removed r n :
  wf A → NoDup l → (∀ k, k ∈ l → ∃ m, msgs A !! k = Some m ∧ delivery_state m = kPending) →
  tracked A l removed → (r, n) ∈ removed → is_u64 r ∧ 0 ≤ n ≤ cnt (pending_of r) (msgs A).
Proof.
  intros Hwf Hl Hpend Htr Hin. destruct (tracked_elem A l removed r n Htr Hin) as (-> & k & m & _ & Hm & <-).
  split; [by destruct (wf_msgs A Hwf k m Hm) as (_ & _ & Hok); apply Hok|].
  pose proof (confirm_pending A [] l Hl Hpend (to_user_id m)) as Hc.
  pose proof (cnt_nonneg (pending_of (to_user_id m)) (msgs (confirm_all A [] l))).
  split; [|lia]. apply lsum_nonneg. intros k'. destruct (msgs A !! k'); [|done]. by destruct (sent_to _ _).
Qed.

(** ** Writing a batch *)

Definition mutation_post A s (l : list Z) (now : list Z) s' : Prop :=
  good s' (confirm_all A now l) ∧ slots s' = [].

Variable outcome : Z → WriteOutcome.

Definition confirmable A (now : list Z) (l : list Z) : Prop :=
  NoDup l ∧ (∀ k, k ∈ l → ∃ m, msgs A !! k = Some m ∧ delivery_state m = kPending ∧
                                is_Some (json_dump (EncodeRecord (confirm now m)))).

Lemma wp_write_confirm s A now l removed Q E :
  good s A → slots s = [] → confirmable A now l → tracked A l removed →
  (∀ s', good s' (confirm_all A now l) → slots s' = [] → Q tt s') →
  (∀ ex s', fails ex → ¬ (∀ n, outcome n = Written) → broken s' (λ B, B = A ∨ B = confirm_all A now l) → E ex s') →
  wp (Write outcome (enc_ops (confirm_kops A now l ++ count_kops A removed)) true) Q E s.
Proof.
  intros [Hc He] Hsl [Hnd Hall] Htr HQ HE. pose proof Hc as [_ _ HR Hwf _ _ Hfr _].
  assert (Hp : ∀ k, k ∈ l → ∃ m, msgs A !! k = Some m ∧ delivery_state m = kPending)
    by (intros k Hk; destruct (Hall k Hk) as (m & ? & ? & ?); eauto).
  apply (wp_Write outcome s A (confirm_all A now l)); [done|by apply rep_confirm_kops| |done| | |].
  - apply wf_confirm; [done|]. intros k m Hk Hm. destruct (Hall k Hk) as (m' & Hm' & _ & ?). congruence.
  - intros mid m. cbn [confirm_all with_msgs msgs]. rewrite lookup_upd. intros (m' & Hm' & _)%fmap_Some. by eapply Hfr.
  - intros s1 Hc1 He1. apply HQ; [|by destruct He1 as (_ & -> & _)]. split; [done|]. by eapply events_frame.
  - intros ex s1 Hf Hout. apply HE; [done|]. intros Hw. by apply Hout.
Qed.

(** A write that failed between two contents. *)
Lemma broken_failing s A B :
  wf A → broken s (λ C, C = A ∨ C = B) → failing A (eq B) s.
Proof.
  intros Hwf [Hp Hd]. right. split; [done|]. intros d Hin. destruct (Hd d Hin) as (C & [->| ->] & Hr).
  - exists A. split; [left; by apply same_but_high_refl|done].
  - exists B. by split; [right|].
Qed.

(** A record that was dumped can be dumped with another ASCII time. *)
Lemma confirm_text now m :
  utf8 now = true → is_Some (json_dump (EncodeRecord m)) → is_Some (json_dump (EncodeRecord (confirm now m))).
Proof.
  intros Hn Hm%dump_total. apply dump_total. rewrite EncodeRecord_fields in *. cbn in *. tauto.
Qed.

Lemma confirm_kops_one A now mid m removed :
  msgs A !! mid = Some m →
  confirm_kops A now [mid] ++ count_kops A removed =
  (KM mid, Some (record_text (confirm now m))) :: (KP (to_user_id m) mid, None) :: count_kops A removed.
Proof. intros Hm. unfold confirm_kops. cbn. by rewrite Hm. Qed.

(** ** One message *)

Definition decision A (mid receiver : Z) : option MutationResult :=
  ReceiverConfirmationDecision (MkGet kSucceeded (msgs A !! mid) []) receiver.

Lemma decision_none A mid receiver :
  decision A mid receiver = None ↔
  ∃ m, msgs A !! mid = Some m ∧ to_user_id m = receiver ∧ delivery_state m = kPending.
Proof.
  unfold decision, ReceiverConfirmationDecision. cbn [g_status g_record]. rewrite bool_decide_true by done. cbn [negb].
  destruct (msgs A !! mid) as [m|]; [|split; [done|intros (m & [=] & _)]].
  destruct (Z.eqb_spec (to_user_id m) receiver) as [E|E]; cbn [negb].
  - split; [|by intros (? & [= <-] & _ & ->)]. destruct (delivery_state m) eqn:Es; try done. intros _. eauto.
  - split; [done|]. by intros (? & [= <-] & ? & _).
Qed.

Lemma confirm_spec s A e mid receiver s' r :
  good s A → slots s = [] → is_u64 mid → is_u64 receiver →
  ConfirmReceiver options outcome e mid receiver s = (s', r) →
  (decision A mid receiver = Some r ∧ good s' A ∧ slots s' = []) ∨
  (decision A mid receiver = None ∧ r = MkMutation kSucceeded 1 [] ∧ good s' (confirm_all A (Now e) [mid]) ∧ slots s' = []) ∨
  (m_status r ≠ kSucceeded ∧ m_affected_rows r = 0 ∧
   ¬ (actor_ok options receiver ∧ 0 < mid ∧ locks_ok options s [receiver] ∧ utf8 (Now e) = true ∧
      ∀ n, outcome n = Written) ∧
   ((∃ B, same_but_high A B ∧ good s' B ∧ slots s' = []) ∨
    broken s' (λ B, same_but_high A B ∨ decision A mid receiver = None ∧ B = confirm_all A (Now e) [mid]))).
Proof.
  intros Hg Hsl Hmid Hrec Hcall. unfold ConfirmReceiver in Hcall.
  eapply (Call_spec _ _ s A
    (λ r s', (decision A mid receiver = Some r ∧ good s' A ∧ slots s' = []) ∨
       (decision A mid receiver = None ∧ r = MkMutation kSucceeded 1 [] ∧
        good s' (confirm_all A (Now e) [mid]) ∧ slots s' = []))
    (λ ex s', fails ex ∧ ¬ (actor_ok options receiver ∧ 0 < mid ∧ locks_ok options s [receiver] ∧
       utf8 (Now e) = true ∧ ∀ n, outcome n = Written) ∧
       failing A (λ B, decision A mid receiver = None ∧ B = confirm_all A (Now e) [mid]) s')) in Hcall;
    [|done|done|].
  { destruct Hcall as [[?|?]|(ex & s1 & (Hfl & Hn & Hfail) & -> & ->)]; [by left|by right; left|].
    right; right. split; [done|]. split; [done|]. split; [done|]. by apply failing_unwound. }
  assert (Hgf : ∀ T, failing A T s) by (intros T; by apply good_failing).
  apply wp_bind, wp_Actor; [|intros ex He Hn; split; [done|]; split; [by intros (? & _)|done]]. intros Hact.
  apply wp_bind, wp_require; intros Hpos; [|split; [done|]; split; [|done]]; cycle 1.
  { apply Z.ltb_ge in Hpos. intros (_ & ? & _). lia. }
  apply Z.ltb_lt in Hpos.
  apply wp_bind, wp_LockActors;
    [|intros ex L He Hn; split; [done|]; split; [by intros (_ & _ & ? & _)|by apply good_failing, good_locks]].
  intros L. pose proof (good_locks s A L Hg) as HgL. pose proof HgL as [[_ _ HR Hwf _ _ _ _] _].
  set (s0 := set_user_locks L s) in *.
  apply wp_bind. eapply wp_value; [by apply (read_record s0 A)|]. fold (decision A mid receiver).
  destruct (decision A mid receiver) as [d|] eqn:Hd; [apply wp_ret; by left|].
  pose proof Hd as (m & Hm & Hto & Hst)%decision_none. rewrite Hm. cbn [g_record from_option id].
  destruct (wf_msgs A Hwf mid m Hm) as (_ & _ & Hok).
  apply wp_bind. eapply wp_value; [by apply (read_pending s0 A)|].
  assert (Htr : tracked A [mid] [(receiver, 1)]).
  { rewrite <- Hto. apply (tracked_snoc A [] [] mid m); [apply tracked_nil|done]. }
  assert (Hp1 : ∀ k, k ∈ [mid] → ∃ m, msgs A !! k = Some m ∧ delivery_state m = kPending)
    by (intros k ->%list_elem_of_singleton; eauto).
  destruct (tracked_bound A [mid] [(receiver, 1)] receiver 1) as [_ Hcnt];
    [done|apply NoDup_singleton|done|done|left|].
  apply wp_bind, wp_require; intros Hc0; [|apply Z.ltb_ge in Hc0; lia].
  apply wp_bind, wp_json; cycle 1.
  { intros Hn. split; [done|]. split; [|by apply good_failing]. intros (_ & _ & _ & Hu & _).
    destruct (confirm_text (Now e) m Hu (ok_text m Hok)) as [t Ht]. by rewrite Ht in Hn. }
  intros text Htext.
  assert (Hops : [(MessageKey mid, Some text); (PendingPrefix receiver ++ Hex mid, None);
    PendingOp receiver (cnt (pending_of receiver) (msgs A)) 1] =
    enc_ops (confirm_kops A (Now e) [mid] ++ count_kops A [(receiver, 1)])).
  { rewrite (confirm_kops_one A (Now e) mid m) by done. rewrite PendingOp_enc by (lia || by apply (cnt_u64 A)).
    unfold record_text. rewrite Htext, Hto. reflexivity. }
  rewrite Hops. apply wp_bind, (wp_write_confirm s0 A (Now e) [mid] [(receiver, 1)]); [done|done| |done|..].
  - split; [apply NoDup_singleton|]. intros k ->%list_elem_of_singleton. exists m. split_and!; [done..|by exists text].
  - intros s1 Hg1 Hs1. wps. right. split_and!; [done|done| |done]. by apply (good_frame s1).
  - intros ex s1 Hfl Hw Hbr. split; [done|]. split; [by intros (_ & _ & _ & _ & ?)|].
    eapply failing_mono; [by apply same_but_high_refl| |by apply broken_failing]. by intros C <-.
Qed.

(** ** A batch *)

Definition receiver_of A (mid : Z) : Z := match msgs A !! mid with Some m => to_user_id m | None => 0 end.

(** A batch whose messages exist, once each, and belong to known users. *)
Definition batch_ok A (mids : list Z) : Prop :=
  NoDup mids ∧ ∀ mid, mid ∈ mids → mid ≠ 0 ∧ ∃ m, msgs A !! mid = Some m ∧ actor_ok options (to_user_id m).

(** The messages of a batch that are pending. *)
Definition is_pending A (mid : Z) : bool :=
  match msgs A !! mid with Some m => bool_decide (delivery_state m = kPending) | None => false end.
Definition pending_in A (mids : list Z) : list Z := filter (λ mid, is_pending A mid = true) mids.

Lemma wp_BatchReceivers s A seen mids Q E :
  Rep (db s) A → wf A → Forall is_u64 mids →
  (batch_ok A mids → (∀ mid, mid ∈ mids → mid ∉ seen) → Q (receiver_of A <$> mids) s) →
  (∀ ex, fails ex → ¬ (batch_ok A mids ∧ ∀ mid, mid ∈ mids → mid ∉ seen) → E ex s) →
  wp (BatchReceivers options seen mids) Q E s.
Proof.
  intros HR Hwf. revert seen Q. induction mids as [|mid mids IH]; intros seen Q Hu HQ HE.
  { apply wp_ret, HQ; [split; [constructor|]|]; by intros ? ?%elem_of_nil. }
  apply list.Forall_cons in Hu as [Hmid Hu]. cbn [BatchReceivers]. apply wp_bind, wp_require; intros Hb.
  2: { apply HE; [done|]. intros [[_ Hall] Hseen]. destruct (Hall mid) as [H0' _]; [left|].
       apply andb_false_iff in Hb as [Hb|Hb]; apply negb_false_iff in Hb.
       - by apply Z.eqb_eq in Hb.
       - apply bool_decide_eq_true in Hb. by apply (Hseen mid); [left|]. }
  apply andb_true_iff in Hb as [H0'%negb_true_iff%Z.eqb_neq Hs%negb_true_iff%bool_decide_eq_false].
  apply wp_bind. eapply wp_value; [by apply (read_record s A)|]. apply wp_bind, wp_require; unfold Found; cbn [g_status g_record];
    rewrite bool_decide_true by done; cbn [andb]; intros Hf.
  2: { apply HE; [done|]. apply bool_decide_eq_false in Hf. intros [[_ Hall] _]. destruct (Hall mid) as (_ & m & Hm & _); [left|].
       apply Hf. eauto. }
  apply bool_decide_eq_true in Hf as [m Hm]. rewrite Hm. cbn [from_option id].
  apply wp_bind, wp_Actor.
  2: { intros ex Hfl Hn. apply HE; [done|]. intros [[_ Hall] _]. destruct (Hall mid) as (_ & m' & Hm' & ?); [left|].
       apply Hn. congruence. }
  intros Hact. apply wp_bind, IH; [done|..].
  - intros [Hnd Hall] Hseen. apply wp_ret.
    assert (to_user_id m = receiver_of A mid) as -> by (unfold receiver_of; by rewrite Hm). apply HQ.
    + split; [|intros k [->|Hk]%elem_of_cons; eauto].
      apply list.NoDup_cons. split; [|done]. intros Hin. apply (Hseen mid Hin). left.
    + intros k [->|Hk]%elem_of_cons; [done|]. specialize (Hseen k Hk). rewrite not_elem_of_cons in Hseen. tauto.
  - intros ex Hfl Hn. apply HE; [done|]. intros [[Hnd Hall] Hseen]. apply Hn.
    apply list.NoDup_cons in Hnd as [Hnin Hnd]. split; [split; [done|]|].
    + intros k Hk. apply Hall. by right.
    + intros k Hk. rewrite not_elem_of_cons. split; [by intros ->|]. apply Hseen. by right.
Qed.

Lemma decision_own A mid m :
  wf A → msgs A !! mid = Some m → decision A mid (to_user_id m) =
  if is_pending A mid then None else Some (MkMutation kSucceeded 0 (str "receiver confirmation already durable")).
Proof.
  intros Hwf Hm. unfold decision, ReceiverConfirmationDecision, is_pending. cbn [g_status g_record]. rewrite Hm.
  rewrite bool_decide_true by done. cbn [negb]. rewrite Z.eqb_refl. cbn [negb].
  destruct (wf_msgs A Hwf mid m Hm) as (_ & _ & Hok). by destruct (ok_state m Hok) as [->|[->| ->]].
Qed.

Lemma wp_BatchConfirm s A now actors mids l removed Q E :
  Rep (db s) A → wf A → Forall is_u64 mids →
  (∀ mid, mid ∈ mids → ∃ m, msgs A !! mid = Some m ∧ to_user_id m ∈ actors) →
  tracked A l removed →
  (∀ removed', tracked A (l ++ pending_in A mids) removed' →
     (∀ k, k ∈ pending_in A mids → ∃ m, msgs A !! k = Some m ∧ is_Some (json_dump (EncodeRecord (confirm now m)))) →
     Q (enc_ops (confirm_kops A now (l ++ pending_in A mids)), removed') s) →
  (∀ ex, fails ex → utf8 now ≠ true → E ex s) →
  wp (BatchConfirm now actors mids (enc_ops (confirm_kops A now l)) removed) Q E s.
Proof.
  intros HR Hwf. revert l removed Q. induction mids as [|mid mids IH]; intros l removed Q Hu Hall Htr HQ HE.
  { apply wp_ret. specialize (HQ removed). unfold pending_in in HQ. cbn in HQ. rewrite app_nil_r in HQ.
    apply HQ; [done|]. by intros ? ?%elem_of_nil. }
  apply list.Forall_cons in Hu as [Hmid Hu]. destruct (Hall mid) as (m & Hm & Hact); [left|].
  assert (Hall' : ∀ mid, mid ∈ mids → ∃ m, msgs A !! mid = Some m ∧ to_user_id m ∈ actors)
    by (intros k Hk; apply Hall; by right).
  cbn [BatchConfirm]. apply wp_bind. eapply wp_value; [by apply (read_record s A)|].
  rewrite Hm. cbn [g_record from_option id]. apply wp_bind, wp_require; unfold Found; cbn [g_status g_record];
    rewrite !bool_decide_true by done; [intros _|done].
  assert (Hdec : ReceiverConfirmationDecision (MkGet kSucceeded (Some m) []) (to_user_id m) = decision A mid (to_user_id m))
    by (unfold decision; by rewrite Hm).
  rewrite Hdec, (decision_own A mid m) by done. unfold pending_in in HQ. destruct (is_pending A mid) eqn:Hpd.
  - rewrite list.filter_cons_True in HQ by done.
    apply wp_bind, wp_json; cycle 1.
    { intros Hn. apply HE; [done|]. intros Hu8. destruct (wf_msgs A Hwf mid m Hm) as (_ & _ & Hok).
      destruct (confirm_text now m Hu8 (ok_text m Hok)) as [t Ht]. congruence. }
    intros text Htext.
    assert (enc_ops (confirm_kops A now l) ++
      [(MessageKey mid, Some text); (PendingPrefix (to_user_id (confirm now m)) ++ Hex mid, None)] =
      enc_ops (confirm_kops A now (l ++ [mid]))) as ->.
    { rewrite (confirm_kops_snoc A now l mid m Hm), enc_ops_app. unfold record_text. by rewrite Htext. }
    apply IH; [done|done|by apply (tracked_snoc A l removed mid m)|..|done].
    fold (pending_in A mids) in HQ. intros removed' Htr'. rewrite <- app_assoc in *. intros Hd. apply HQ; [done|].
    intros k [->|Hk]%elem_of_cons; [exists m; by rewrite Htext|by apply Hd].
  - rewrite list.filter_cons_False in HQ by congruence. apply wp_bind, wp_require; [intros _|done]. by apply IH.
Qed.

Lemma confirm_none A now : confirm_all A now [] = A.
Proof.
  destruct A. unfold confirm_all, with_msgs. cbn. f_equal. apply map_eq. intros k. rewrite lookup_upd.
  by destruct (_ !! k).
Qed.

Lemma confirm_batch_spec s A e mids s' r :
  good s A → slots s = [] → Forall is_u64 mids →
  ConfirmReceiverBatch options outcome e mids s = (s', r) →
  let l := pending_in A mids in
  (batch_ok A mids ∧ r = MkMutation kSucceeded (Z.of_nat (length l)) [] ∧ good s' (confirm_all A (Now e) l) ∧ slots s' = []) ∨
  (m_status r ≠ kSucceeded ∧ m_affected_rows r = 0 ∧
   ¬ (mids ≠ [] ∧ (length mids ≤ 100)%nat ∧ batch_ok A mids ∧ locks_ok options s (receiver_of A <$> mids) ∧
      utf8 (Now e) = true ∧ ∀ n, outcome n = Written) ∧
   ((∃ B, same_but_high A B ∧ good s' B ∧ slots s' = []) ∨
    broken s' (λ B, same_but_high A B ∨ B = confirm_all A (Now e) l))).
Proof.
  intros Hg Hsl Hu Hcall l. unfold ConfirmReceiverBatch in Hcall.
  eapply (Call_spec _ _ s A
    (λ r s', batch_ok A mids ∧ r = MkMutation kSucceeded (Z.of_nat (length l)) [] ∧
             good s' (confirm_all A (Now e) l) ∧ slots s' = [])
    (λ ex s', fails ex ∧ ¬ (mids ≠ [] ∧ (length mids ≤ 100)%nat ∧ batch_ok A mids ∧
       locks_ok options s (receiver_of A <$> mids) ∧ utf8 (Now e) = true ∧ ∀ n, outcome n = Written) ∧
       failing A (eq (confirm_all A (Now e) l)) s')) in Hcall; [|done|done|].
  { destruct Hcall as [?|(ex & s1 & (Hfl & Hn & Hfail) & -> & ->)]; [by left|].
    right. split; [done|]. split; [done|]. split; [done|]. apply failing_unwound in Hfail as [?|Hb]; [by left|].
    right. destruct Hb as [Hps Hd]. split; [done|]. intros d Hin. destruct (Hd d Hin) as (B & HB & ?). exists B.
    split; [|done]. destruct HB as [?|<-]; [by left|by right]. }
  assert (Hgf : ∀ T, failing A T s) by (intros T; by apply good_failing).
  pose proof Hg as [[_ _ HR Hwf _ _ _ _] _].
  apply wp_bind, wp_require; intros Hsz.
  2: { split; [done|]. split; [|done]. intros (Hne & Hle & _). apply andb_false_iff in Hsz as [Hb|Hb].
       - apply negb_false_iff, bool_decide_eq_true in Hb. done.
       - apply Z.leb_gt in Hb. lia. }
  apply wp_bind, (wp_BatchReceivers s A); [done..| |].
  2: { intros ex Hfl Hn. split; [done|]. split; [|done]. intros (_ & _ & Hb & _). apply Hn. split; [done|].
       intros k _. apply not_elem_of_nil. }
  intros Hb _. apply wp_bind, wp_LockActors.
  2: { intros ex L Hfl Hn. split; [done|]. split; [by intros (_ & _ & _ & ? & _)|by apply good_failing, good_locks]. }
  intros L. pose proof (good_locks s A L Hg) as HgL. set (s0 := set_user_locks L s) in *.
  apply wp_bind, (wp_BatchConfirm s0 A (Now e) (receiver_of A <$> mids) mids [] []); [done|done|done| |apply tracked_nil|..].
  { intros mid Hin. destruct Hb as [_ Hall]. destruct (Hall mid Hin) as (_ & m & Hm & _). exists m. split; [done|].
    apply list_elem_of_fmap. exists mid. unfold receiver_of. by rewrite Hm. }
  2: { intros ex Hfl Hn. split; [done|]. split; [by intros (_ & _ & _ & _ & ? & _)|]. by apply good_failing. }
  fold l. rewrite app_nil_l. intros removed Htr Hdump. cbv zeta. cbn [fst snd]. rewrite (t_total A l removed Htr).
  destruct (Z.eqb_spec (Z.of_nat (length l)) 0) as [Hz|Hz].
  { apply wp_ret. destruct l; [|cbn in Hz; lia]. rewrite confirm_none. done. }
  assert (Hc : confirmable A (Now e) l).
  { split; [apply list.NoDup_filter, Hb|]. intros k Hk. destruct (Hdump k Hk) as (m & Hm & Ht). exists m.
    split_and!; [done| |done]. apply list_elem_of_filter in Hk as [Hp _]. unfold is_pending in Hp. rewrite Hm in Hp.
    by apply bool_decide_eq_true in Hp. }
  apply wp_bind. eapply wp_value.
  { apply (PendingOps_ok A s0); [done..|]. intros r0 n Hin. destruct Hc as [Hnd Hc].
    apply (tracked_bound A l removed); [done..| |done|done]. intros k Hk. destruct (Hc k Hk) as (m & ? & ? & _). eauto. }
  rewrite <- enc_ops_app. apply wp_bind, (wp_write_confirm s0 A (Now e) l removed); [done..| |].
  - intros s1 Hg1 Hs1. wps. split_and!; [done|done| |done]. by apply (good_frame s1).
  - intros ex s1 Hfl Hw Hbr. split; [done|]. split; [by intros (_ & _ & _ & _ & _ & ?)|]. by apply broken_failing.
Qed.

End Confirmations.

Section Owned.
Context {D : Type} `{EngineLaws D} `{JsonLaws}.
Variable options : LocalPrivateStoreOptions.
Implicit Types (s : Store D) (A B : Contents) (i : OwnedReceiverConfirmation).

(** ** What requests ask for *)

Definition request_ok i : Prop := actor_ok options (oc_receiver_user_id i) ∧ 0 < oc_message_id i.
Definition owned_ok A i : Prop :=
  request_ok i ∧ decision A (oc_message_id i) (oc_receiver_user_id i) = None.
#[export] Instance request_ok_dec i : Decision (request_ok i).
Proof. unfold request_ok, actor_ok. apply _. Defined.
#[export] Instance owned_ok_dec A i : Decision (owned_ok A i).
Proof.
  unfold owned_ok. apply and_dec; [apply _|].
  destruct (decision A (oc_message_id i) (oc_receiver_user_id i)); [by right|by left].
Defined.

(** The messages a batch of requests confirms. *)
Definition owned_pending A (inputs : list OwnedReceiverConfirmation) : list Z :=
  oc_message_id <$> filter (owned_ok A) inputs.

(** A message its receiver has confirmed or read. *)
Definition confirmed B (mid receiver : Z) : Prop :=
  ∃ m, msgs B !! mid = Some m ∧ to_user_id m = receiver ∧ delivery_state m ≠ kPending.
Definition answers_hold B (inputs : list OwnedReceiverConfirmation) (rs : list MutationResult) : Prop :=
  Forall2 (λ i r, m_status r = kSucceeded → confirmed B (oc_message_id i) (oc_receiver_user_id i)) inputs rs.

Lemma decision_succeeded A mid receiver r :
  decision A mid receiver = Some r → m_status r = kSucceeded → confirmed A mid receiver.
Proof.
  unfold decision, ReceiverConfirmationDecision. cbn [g_status g_record]. rewrite bool_decide_true by done. cbn [negb].
  destruct (msgs A !! mid) as [m|] eqn:Hm; [|by intros [= <-]].
  destruct (Z.eqb_spec (to_user_id m) receiver) as [E|E]; cbn [negb]; [|by intros [= <-]].
  destruct (delivery_state m) eqn:Es; intros [= <-] Hs; try done; exists m; by rewrite Es.
Qed.

Lemma confirm_all_ext A now l l' : (∀ k, k ∈ l ↔ k ∈ l') → confirm_all A now l = confirm_all A now l'.
Proof.
  intros Hl. unfold confirm_all. f_equal. apply map_eq. intros k. rewrite !lookup_upd.
  destruct (msgs A !! k) as [m|]; [|done]. cbn. f_equal. unfold confirm_at.
  destruct (decide (k ∈ l)) as [Hk|Hk]; [by rewrite decide_True by (by apply Hl)|].
  rewrite decide_False; [done|]. intros ?. by apply Hk, Hl.
Qed.

Lemma confirmed_all A now l mid receiver : confirmed A mid receiver → confirmed (confirm_all A now l) mid receiver.
Proof.
  intros (m & Hm & Hto & Hst). exists (confirm_at now l mid m). cbn [confirm_all with_msgs msgs]. rewrite lookup_upd, Hm.
  unfold confirm_at. by case_decide.
Qed.

Lemma answers_hold_confirm A now l inputs rs : answers_hold A inputs rs → answers_hold (confirm_all A now l) inputs rs.
Proof. intros Hr. eapply Forall2_impl; [exact Hr|]. intros i r Hi Hs. by apply confirmed_all, Hi. Qed.

(** ** The requests one by one *)

Section Loop.
Variables (s : Store D) (A : Contents) (now : list Z) (inputs : list OwnedReceiverConfirmation).
Hypothesis HR : Rep (db s) A.
Hypothesis Hwf : wf A.

(** An answer, and whether it depends on the write that confirms [l]. *)
Definition answer_ok (l : list Z) i (r : MutationResult) (b : bool) : Prop :=
  if b then oc_message_id i ∈ l ∧ ∃ m, msgs A !! oc_message_id i = Some m ∧ to_user_id m = oc_receiver_user_id i
  else m_status r = kSucceeded → confirmed A (oc_message_id i) (oc_receiver_user_id i).

Record confirming (l : list Z) (c : Confirming) : Prop := {
  cn_ok : confirmable A now l;
  cn_changed : ∀ k, cf_changed c !! k = if decide (k ∈ l) then confirm now <$> msgs A !! k else None;
  cn_removed : tracked A l (cf_removed c);
  cn_batch : cf_batch c = enc_ops (confirm_kops A now l);
  cn_length : length (cf_results c) = length inputs;
  cn_answers : ∀ j i, inputs !! j = Some i →
    ∃ r b, cf_results c !! j = Some r ∧ cf_provisional c !! j = Some b ∧ answer_ok l i r b;
}.

Lemma answer_more l l' i r b : (∀ k, k ∈ l → k ∈ l') → answer_ok l i r b → answer_ok l' i r b.
Proof. intros Hl. unfold answer_ok. destruct b; [|done]. intros [Hk Hm]. split; [by apply Hl|done]. Qed.

(** One answer set, the others kept. *)
Lemma answers_insert l l' n i r b (rs : list MutationResult) (bs : list bool) :
  inputs !! n = Some i → (∀ k, k ∈ l → k ∈ l') → answer_ok l' i r b →
  (∀ j i, inputs !! j = Some i → ∃ r b, rs !! j = Some r ∧ bs !! j = Some b ∧ answer_ok l i r b) →
  ∀ j i, inputs !! j = Some i →
    ∃ r' b', <[n := r]> rs !! j = Some r' ∧ <[n := b]> bs !! j = Some b' ∧ answer_ok l' i r' b'.
Proof.
  intros Hn Hl Hr Hall j i' Hj. destruct (Hall j i' Hj) as (r0 & b0 & H1' & H2' & H3').
  destruct (decide (n = j)) as [->|Hne].
  - rewrite Hn in Hj. injection Hj as <-. exists r, b.
    split; [apply list_lookup_insert_eq; by eapply lookup_lt_Some|].
    split; [apply list_lookup_insert_eq; by eapply lookup_lt_Some|done].
  - exists r0, b0. rewrite !list_lookup_insert_ne by done. split_and!; [done|done|]. by apply (answer_more l).
Qed.

Lemma confirmable_snoc l k m :
  confirmable A now l → k ∉ l → msgs A !! k = Some m → delivery_state m = kPending →
  is_Some (json_dump (EncodeRecord (confirm now m))) → confirmable A now (l ++ [k]).
Proof.
  intros [Hnd Hall] Hk Hm Hst Ht. split.
  - apply list.NoDup_app. split; [done|]. split; [|apply NoDup_singleton].
    intros k' Hk' ->%list_elem_of_singleton. done.
  - intros k' [Hk'| ->%list_elem_of_singleton]%elem_of_app; [by apply Hall|eauto].
Qed.

Lemma confirming_set l c n i r b :
  confirming l c → inputs !! n = Some i → answer_ok l i r b → confirming l (set_result n r b c).
Proof.
  intros [Ho Hch Hrm Hb Hlen Han] Hn Hr. split; cbn [set_result cf_results cf_provisional cf_changed cf_removed cf_batch]; try done.
  - by rewrite length_insert.
  - by apply (answers_insert l l n i).
Qed.

Lemma confirming_add l c n i m text :
  confirming l c → inputs !! n = Some i → oc_message_id i ∉ l → msgs A !! oc_message_id i = Some m →
  to_user_id m = oc_receiver_user_id i → delivery_state m = kPending →
  json_dump (EncodeRecord (confirm now m)) = Some text →
  confirming (l ++ [oc_message_id i])
    (MkConfirming (<[n := MkMutation kStorageError 1 []]> (cf_results c)) (<[n := true]> (cf_provisional c))
       (<[oc_message_id i := confirm now m]> (cf_changed c)) (bump (oc_receiver_user_id i) (cf_removed c))
       (cf_batch c ++ [(MessageKey (oc_message_id i), Some text);
                       (PendingPrefix (oc_receiver_user_id i) ++ Hex (oc_message_id i), None)])).
Proof.
  intros [Ho Hch Hrm Hb Hlen Han] Hn Hk Hm Hto Hst Ht.
  split; cbn [cf_results cf_provisional cf_changed cf_removed cf_batch].
  - by apply (confirmable_snoc _ _ m); eauto.
  - intros k. destruct (decide (oc_message_id i = k)) as [<-|Hne].
    + rewrite lookup_insert_eq, decide_True, Hm; [done|]. apply elem_of_app. right. by left.
    + rewrite lookup_insert_ne, Hch by done. destruct (decide (k ∈ l)) as [Hkl|Hkl].
      * rewrite decide_True; [done|]. apply elem_of_app. by left.
      * rewrite decide_False; [done|]. by intros [?| ->%list_elem_of_singleton]%elem_of_app.
  - rewrite <- Hto. by apply tracked_snoc.
  - rewrite Hb, (confirm_kops_snoc A now l _ m Hm), enc_ops_app. unfold record_text. by rewrite Ht, Hto.
  - by rewrite length_insert.
  - apply (answers_insert l _ n i); [done| | |done].
    + intros k Hkl. apply elem_of_app. by left.
    + split; [apply elem_of_app; right; by left|by exists m].
Qed.

(** What is decided for a message that an earlier request has confirmed. *)
Lemma decision_changed m receiver :
  ReceiverConfirmationDecision (MkGet kSucceeded (Some (confirm now m)) []) receiver =
  if to_user_id m =? receiver then Some (MkMutation kSucceeded 0 (str "receiver confirmation already durable"))
  else Some (MkMutation kPermissionDenied 0 (str "receiver does not own private message")).
Proof.
  unfold ReceiverConfirmationDecision. cbn [g_status g_record]. rewrite bool_decide_true by done. cbn [negb confirm to_user_id].
  by destruct (to_user_id m =? receiver).
Qed.

Lemma wp_OwnedItem l c n i :
  confirming l c → inputs !! n = Some i → is_u64 (oc_message_id i) →
  wp (OwnedItem now n i c)
    (λ c' s', s' = s ∧ ∃ l', confirming l' c' ∧
       ∀ k, k ∈ l' ↔ k ∈ l ∨ k = oc_message_id i ∧ decision A (oc_message_id i) (oc_receiver_user_id i) = None)
    (λ ex s', s' = s ∧ fails ex) s.
Proof.
  intros Hcn Hn Hu. unfold wp, OwnedItem. rewrite (read_record s A HR Hwf _ Hu), (cn_changed l c Hcn).
  set (mid := oc_message_id i) in *. set (receiver := oc_receiver_user_id i) in *. case_decide as Hk.
  - destruct (cn_ok l c Hcn) as [_ Hall]. destruct (Hall mid Hk) as (m & Hm & Hst & _). rewrite Hm.
    cbn [fmap option_fmap option_map g_status g_message]. rewrite decision_changed.
    destruct (Z.eqb_spec (to_user_id m) receiver) as [E|E]; cbn [m_status].
    + rewrite !bool_decide_true by (done || eauto). split; [done|]. exists l. split.
      * apply (confirming_set _ _ _ i); [done|done|]. split; [done|]. by exists m.
      * intros k. split; [by left|]. by intros [?|[-> _]].
    + rewrite bool_decide_false by done. split; [done|]. exists l. split; [by apply (confirming_set _ _ _ i)|].
      intros k. split; [by left|]. by intros [?|[-> _]].
  - fold (decision A mid receiver). destruct (decision A mid receiver) as [d|] eqn:Hd.
    + rewrite (bool_decide_false (is_Some None)), andb_false_r by apply is_Some_None. split; [done|]. exists l. split.
      * apply (confirming_set _ _ _ i); [done|done|]. intros Hs. by eapply decision_succeeded.
      * intros k. split; [by left|]. by intros [?|[_ ?]].
    + pose proof Hd as (m & Hm & Hto & Hst)%decision_none. rewrite Hm. cbn [g_record from_option id].
      destruct (json_dump (EncodeRecord (confirm now m))) as [text|] eqn:Ht; [|done]. split; [done|].
      exists (l ++ [mid]). split; [by apply confirming_add|]. intros k. rewrite elem_of_app, list_elem_of_singleton. tauto.
Qed.

(** What the first loop has found. *)
Definition checked_ok (item : OwnedReceiverConfirmation * option Exn) : Prop :=
  match item.2 with None => request_ok item.1 | Some ex => fails ex ∧ ¬ request_ok item.1 end.

Lemma OwnedLoop_spec items l c n s' c' stopped :
  confirming l c → (∀ j item, items !! j = Some item → inputs !! (n + j)%nat = Some item.1) →
  Forall checked_ok items → Forall (λ item, is_u64 (oc_message_id item.1)) items →
  OwnedLoop now n items c s = (s', (c', stopped)) →
  s' = s ∧ ∃ l', confirming l' c' ∧
    match stopped with
    | None => ∀ k, k ∈ l' ↔ k ∈ l ∨ k ∈ owned_pending A items.*1
    | Some ex => fails ex
    end.
Proof.
  revert l c n. induction items as [|[i o] items IH]; intros l c n Hcn Hin Hck Hu; cbn [OwnedLoop].
  { intros [= <- <- <-]. split; [done|]. exists l. split; [done|]. intros k.
    assert (owned_pending A ([] : list (OwnedReceiverConfirmation * option Exn)).*1 = []) as -> by done.
    rewrite elem_of_nil. tauto. }
  apply list.Forall_cons in Hck as [Hi Hck]. apply list.Forall_cons in Hu as [Hui Hu]. cbn [fst] in Hui.
  assert (Hin' : ∀ j item, items !! j = Some item → inputs !! (S n + j)%nat = Some item.1).
  { intros j item Hj. specialize (Hin (S j) item Hj). by replace (S n + j)%nat with (n + S j)%nat by lia. }
  unfold checked_ok in Hi. cbn [fst snd] in Hi. destruct o as [ex|].
  - intros Hl. destruct (IH l c (S n) Hcn Hin' Hck Hu Hl) as (-> & l' & Hcn' & Hst). split; [done|]. exists l'.
    split; [done|]. destruct stopped; [done|]. intros k. rewrite (Hst k).
    assert (owned_pending A ((i, Some ex) :: items).*1 = owned_pending A items.*1) as ->; [|done].
    unfold owned_pending. rewrite fmap_cons. cbn [fst]. rewrite list.filter_cons_False; [done|]. intros [Hr _]. by apply Hi.
  - assert (Hn : inputs !! n = Some i) by (specialize (Hin 0%nat (i, None) eq_refl); by rewrite Nat.add_0_r in Hin).
    pose proof (wp_OwnedItem l c n i Hcn Hn Hui) as Hw. unfold wp in Hw.
    destruct (OwnedItem now n i c s) as [s1 [ex|c1]].
    + destruct Hw as [-> Hf]. intros [= <- <- <-]. split; [done|]. by exists l.
    + destruct Hw as (-> & l1 & Hcn1 & Hl1). intros Hl.
      destruct (IH l1 c1 (S n) Hcn1 Hin' Hck Hu Hl) as (-> & l' & Hcn' & Hst). split; [done|]. exists l'.
      split; [done|]. destruct stopped; [done|]. intros k. rewrite (Hst k), (Hl1 k). unfold owned_pending. rewrite fmap_cons.
      cbn [fst]. destruct (decide (owned_ok A i)) as [Ho|Ho].
      * rewrite list.filter_cons_True by done. rewrite fmap_cons, elem_of_cons. destruct Ho as [_ Ho]. tauto.
      * rewrite list.filter_cons_False by done.
        assert (¬ (k = oc_message_id i ∧ decision A (oc_message_id i) (oc_receiver_user_id i) = None)); [|tauto].
        intros [_ ?]. by apply Ho.
Qed.

(** The answers when the write has failed, and when it has succeeded. *)
Lemma fail_provisional_holds l c ex : confirming l c → fails ex → answers_hold A inputs (FailProvisional ex c).
Proof.
  intros Hcn Hf. apply Forall2_same_length_lookup. unfold FailProvisional. split; [by rewrite length_imap, (cn_length l c Hcn)|].
  intros j i r Hi. rewrite list_lookup_imap. destruct (cn_answers l c Hcn j i Hi) as (r0 & b & -> & Hb & Ha).
  cbn. intros [= <-]. rewrite Hb. cbn. destruct b; cbn; [done|exact Ha].
Qed.

Lemma finish_provisional_holds l c :
  confirming l c → answers_hold (confirm_all A now l) inputs (FinishProvisional c).
Proof.
  intros Hcn. apply Forall2_same_length_lookup. unfold FinishProvisional. split; [by rewrite length_imap, (cn_length l c Hcn)|].
  intros j i r Hi. rewrite list_lookup_imap. destruct (cn_answers l c Hcn j i Hi) as (r0 & b & -> & Hb & Ha).
  cbn. intros [= <-]. rewrite Hb. cbn. destruct b; cbn.
  - intros _. destruct Ha as (Hk & m & Hm & Hto). exists (confirm now m). split; [|done].
    by rewrite (lookup_confirm A now l _ m).
  - intros Hs. by apply confirmed_all, Ha.
Qed.

Lemma results_hold c : confirming [] c → answers_hold A inputs (cf_results c).
Proof.
  intros Hcn. apply Forall2_same_length_lookup. split; [by rewrite (cn_length [] c Hcn)|].
  intros j i r Hi. destruct (cn_answers [] c Hcn j i Hi) as (r0 & b & -> & Hb & Ha). intros [= <-].
  destruct b; [|exact Ha]. destruct Ha as [Ha _]. by apply elem_of_nil in Ha.
Qed.

End Loop.

(** ** The whole batch *)

Lemma OwnedEligibleLoop_spec inputs s :
  ∃ checked, OwnedEligibleLoop options inputs s = (s, inr checked) ∧ checked.*1 = inputs ∧ Forall checked_ok checked.
Proof.
  induction inputs as [|i inputs (checked & He & Hf & Hc)]; [by exists []|]. cbn [OwnedEligibleLoop].
  assert (∃ o, OwnedEligible options i s = (s, inr o) ∧ checked_ok (i, o)) as (o & Ho & Hok).
  { unfold OwnedEligible, checked_ok. cbn [fst snd].
    assert (Hw : wp (Actor options (oc_receiver_user_id i) ;;
      require (0 <? oc_message_id i) kInvalidArgument (str "zero local MID"))
      (λ _ s', s' = s ∧ request_ok i) (λ ex s', s' = s ∧ fails ex ∧ ¬ request_ok i) s).
    { apply wp_bind, wp_Actor.
      - intros Ha. apply wp_require; intros Hm.
        + split; [done|]. split; [done|]. by apply Z.ltb_lt.
        + split; [done|]. split; [done|]. intros [_ ?]. apply Z.ltb_ge in Hm. lia.
      - intros ex Hf' Hn. split; [done|]. split; [done|]. by intros [? _]. }
    match type of Hw with wp ?m _ _ _ => unfold wp in Hw; destruct (m s) as [s1 [ex|[]]] end.
    - destruct Hw as (-> & ? & ?). by exists (Some ex).
    - destruct Hw as (-> & ?). by exists None. }
  exists ((i, o) :: checked). split_and!.
  - rewrite (bind_ok _ _ _ _ _ Ho). by rewrite (bind_ok _ _ _ _ _ He).
  - by rewrite fmap_cons, Hf.
  - by apply list.Forall_cons.
Qed.

Lemma failures_hold B inputs rs :
  length rs = length inputs → Forall (λ r, m_status r ≠ kSucceeded) rs → answers_hold B inputs rs.
Proof.
  intros Hlen Hf. apply Forall2_same_length_lookup. split; [done|]. intros j i r _ Hr Hs. exfalso.
  exact (proj1 (list.Forall_lookup _ _) Hf j r Hr Hs).
Qed.

(** The results the second loop starts from. *)
Lemma confirming_start A now inputs checked :
  checked.*1 = inputs → Forall checked_ok checked →
  let results := (λ item : OwnedReceiverConfirmation * option Exn,
    match item.2 with
    | Some e => mutation_failure (exn_status e) (exn_message e)
    | None => mutation_failure kStorageError []
    end) <$> checked in
  Forall (λ r, m_status r ≠ kSucceeded) results ∧ length results = length inputs ∧
  confirming A now inputs [] (MkConfirming results ((λ _, false) <$> results) ∅ [] []).
Proof.
  intros <- Hck results.
  assert (Hf : Forall (λ r, m_status r ≠ kSucceeded) results).
  { apply list.Forall_fmap. eapply list.Forall_impl; [exact Hck|]. intros [i [ex|]]; cbn; [|done]. by intros [? _]. }
  assert (Hlen : length results = length checked.*1) by (unfold results; by rewrite !length_fmap).
  split; [done|]. split; [done|]. split; cbn [cf_results cf_provisional cf_changed cf_removed cf_batch]; try done.
  - split; [constructor|]. by intros k ?%elem_of_nil.
  - apply tracked_nil.
  - intros j i Hj. destruct (lookup_lt_is_Some_2 results j) as [r Hr].
    { rewrite Hlen. by eapply lookup_lt_Some. }
    exists r, false. split; [done|]. rewrite list_lookup_fmap, Hr. split; [done|].
    intros Hs. exfalso. exact (proj1 (list.Forall_lookup _ _) Hf j r Hr Hs).
Qed.

Variable outcome : Z → WriteOutcome.

Lemma owned_write s A now l c inputs :
  good s A → slots s = [] → confirming A now inputs l c →
  wp (counts ← PendingOps (str "owned receiver batch pending underflow") (cf_removed c);
      Write outcome (cf_batch c ++ counts) true ;; count confirmations 1)
    (λ _ s', good s' (confirm_all A now l) ∧ slots s' = [])
    (λ ex s', fails ex ∧ broken s' (λ B, B = A ∨ B = confirm_all A now l)) s.
Proof.
  intros Hg Hsl [[Hnd Hok] _ Htr Hb _ _]. pose proof Hg as [[_ _ HR Hwf _ _ _ _] _].
  apply wp_bind. eapply wp_value.
  { apply (PendingOps_ok A s); [done..|]. intros r0 n Hin. apply (tracked_bound A l (cf_removed c)); [done..| |done|done].
    intros k Hk. destruct (Hok k Hk) as (m & ? & ? & _). eauto. }
  rewrite Hb, <- enc_ops_app. apply wp_bind, (wp_write_confirm outcome s A now l (cf_removed c)); [done..| |].
  - intros s1 Hg1 Hs1. apply wp_count. split; [|done]. by apply (good_frame s1).
  - intros ex s1 Hfl _ Hbr. done.
Qed.

Lemma owned_spec s A e inputs s' rs :
  good s A → slots s = [] → Forall (λ i, is_u64 (oc_message_id i)) inputs →
  ConfirmReceiverRequests options outcome e inputs s = (s', rs) →
  let B := confirm_all A (Now e) (owned_pending A inputs) in
  (good s' B ∧ slots s' = [] ∧ answers_hold B inputs rs) ∨
  (answers_hold A inputs rs ∧ (good s' A ∧ slots s' = [] ∨ broken s' (λ C, C = A ∨ C = B))).
Proof.
  intros Hg Hsl Hu. unfold ConfirmReceiverRequests. case_bool_decide as Hnil.
  { subst inputs. intros [= <- <-]. right. split; [constructor|by left]. }
  destruct (64 <? Z.of_nat (length inputs)).
  { intros [= <- <-]. right. split; [|by left]. apply failures_hold; [by rewrite length_fmap|]. by apply list.Forall_fmap, list.Forall_true. }
  destruct (OwnedEligibleLoop_spec inputs s) as (checked & He & Hf & Hck).
  assert (Hopen : (Open ;; OwnedEligibleLoop options inputs) s = (s, inr checked)).
  { erewrite bind_ok; [exact He|]. unfold Open, gets. rewrite (bind_ok _ _ s s s) by done. apply require_ok.
    destruct Hg as [[[E1 E2] E3 _ _ _ _ _ _] _]. by rewrite E1, E2, E3. }
  rewrite Hopen. destruct (confirming_start A (Now e) inputs checked Hf Hck) as (Hfl & Hlen & Hcn).
  cbv zeta in *. match type of Hfl with Forall _ ?x => set (results := x) in * end. set (actors := oc_receiver_user_id <$> _).
  destruct (LockActors_cases options actors s) as (L & [ex|[]] & Hlock & _); rewrite Hlock.
  { intros [= <- <-]. right. split; [by apply failures_hold|]. left. split; [by apply good_locks|done]. }
  pose proof (good_locks s A L Hg) as HgL. set (s0 := set_user_locks L s) in *. pose proof HgL as [[_ _ HR Hwf _ _ _ _] _].
  destruct (OwnedLoop (Now e) 0 checked _ s0) as [s1 [c stopped]] eqn:Hl.
  apply (OwnedLoop_spec s0 A (Now e) inputs HR Hwf checked [] _ 0%nat) in Hl as (-> & l & Hcl & Hst); [|done|..].
  2: { intros j item Hj. rewrite <- Hf, list_lookup_fmap. cbn. by rewrite Hj. }
  2: { done. }
  2: { rewrite <- Hf in Hu. exact (proj1 (list.Forall_fmap fst (λ i, is_u64 (oc_message_id i)) checked) Hu). }
  destruct stopped as [ex|].
  { intros [= <- <-]. right. split; [by eapply fail_provisional_holds|by left]. }
  assert (Heq : confirm_all A (Now e) l = confirm_all A (Now e) (owned_pending A inputs)).
  { apply confirm_all_ext. intros k. rewrite (Hst k), elem_of_nil, Hf. tauto. }
  case_bool_decide as Hch.
  { intros [= <- <-]. assert (l = []) as ->.
    { destruct l as [|k l]; [done|]. exfalso. pose proof (cn_changed _ _ _ _ _ Hcl k) as Hk.
      rewrite Hch, lookup_empty, decide_True in Hk by left. destruct (cn_ok _ _ _ _ _ Hcl) as [_ Hall].
      destruct (Hall k) as (m & Hm & _); [left|]. by rewrite Hm in Hk. }
    right. split; [by eapply results_hold|by left]. }
  pose proof (owned_write s0 A (Now e) l c inputs HgL Hsl Hcl) as Hw. 
  match type of Hw with wp ?m _ _ _ => unfold wp in Hw; destruct (m s0) as [s2 [ex|[]]] end; intros [= <- <-].
  - destruct Hw as [Hfx Hbr]. rewrite Heq in Hbr. right. split; [by eapply fail_provisional_holds|by right].
  - rewrite Heq in Hw. left. destruct Hw as [? ?]. split_and!; [done|done|]. rewrite <- Heq. by apply finish_provisional_holds.
Qed.

End Owned.
