(* ===== verification/LocalStoreQueries.v ===== *)
(** * Queries of the local store

    What iterators find in an engine that represents some contents, and what the
    queries answer: histories, conversations and pending messages are exactly those of
    the contents, in order, and the unread counters count what they say. *)
From Stdlib Require Import ZArith Lia String.
From stdpp Require Import base list numbers sorting option gmap.
From S2P Require Import Prelude ByteStrings MessageTypes KeyValueEngine DomainEvents LocalPrivateStore LocalStoreKeys LocalStoreModel LocalStoreInvariant LocalStoreChanges LocalStoreSteps.

Local Open Scope Z_scope.
Local Open Scope width_scope.

(** ** Ordered lists of identifiers *)

(** An ordered list is determined by its elements. *)
Lemma sorted_unique {B} (R : B → B → Prop) (l l' : list B) :
  (∀ x y, R x y → ¬ R y x) →
  StronglySorted R l → StronglySorted R l' → (∀ x, x ∈ l ↔ x ∈ l') → l = l'.
Proof.
  intros Hasym Hl. revert l'. induction l as [|x l IH]; intros l' Hl' Heq.
  { destruct l' as [|y l']; [done|]. assert (y ∈ []) as Hy%elem_of_nil; [apply Heq; left|done]. }
  destruct l' as [|y l'].
  { assert (x ∈ []) as Hx%elem_of_nil; [apply Heq; left|done]. }
  apply StronglySorted_cons in Hl as [Hx Hl]. apply StronglySorted_cons in Hl' as [Hy Hl'].
  rewrite list.Forall_forall in Hx, Hy.
  assert (x = y) as <-.
  { assert (x ∈ y :: l') as [?|Hxl]%elem_of_cons by (apply Heq; left); [done|].
    assert (y ∈ x :: l) as [?|Hyl]%elem_of_cons by (apply Heq; left); [done|].
    exfalso. eapply Hasym; [by apply Hx|by apply Hy]. }
  f_equal. apply IH; [done|done|]. intros z. specialize (Heq z). rewrite !elem_of_cons in Heq. split; intros Hz.
  - destruct (proj1 Heq) as [->|?]; [by right| |done]. exfalso. eapply Hasym; by apply Hx.
  - destruct (proj2 Heq) as [->|?]; [by right| |done]. exfalso. eapply Hasym; by apply Hy.
Qed.

(** The identifiers of the messages with a property, in order. *)
Definition ids_where (P : Z → MessageView → bool) (ms : gmap Z MessageView) : list Z :=
  merge_sort Z.le (filter (λ e : Z * MessageView, P e.1 e.2 = true) (map_to_list ms)).*1.
Definition views (ms : gmap Z MessageView) (ids : list Z) : list MessageView := omap (λ k, ms !! k) ids.

Lemma elem_of_ids_where P ms k : k ∈ ids_where P ms ↔ ∃ m, ms !! k = Some m ∧ P k m = true.
Proof.
  unfold ids_where. rewrite merge_sort_Permutation, list_elem_of_fmap. split.
  - intros ([k' m] & -> & [HP Hin]%list_elem_of_filter). apply elem_of_map_to_list in Hin. eauto.
  - intros (m & Hm & HP). exists (k, m). split; [done|]. apply list_elem_of_filter. split; [done|].
    by apply elem_of_map_to_list.
Qed.

Lemma NoDup_ids_where P ms : NoDup (ids_where P ms).
Proof.
  unfold ids_where. rewrite merge_sort_Permutation. induction ms as [|k m ms Hk IH] using map_ind; [constructor|].
  rewrite map_to_list_insert by done. rewrite list.filter_cons. case_decide; [|done].
  rewrite fmap_cons. apply list.NoDup_cons. split; [|done]. cbn.
  intros ([k' m'] & E & [_ Hin]%list_elem_of_filter)%list_elem_of_fmap. cbn in E. subst k'.
  apply elem_of_map_to_list in Hin. congruence.
Qed.

Lemma sorted_strict (l : list Z) : StronglySorted Z.le l → NoDup l → StronglySorted Z.lt l.
Proof.
  induction l as [|x l IH]; intros Hs Hnd; [constructor|].
  apply StronglySorted_cons in Hs as [Hx Hs]. apply list.NoDup_cons in Hnd as [Hnx Hnd].
  apply StronglySorted_cons. split; [|by apply IH]. apply list.Forall_forall. intros y Hy.
  pose proof (proj1 (list.Forall_forall _ _) Hx y Hy) as Hle. cbn in Hle. assert (x ≠ y) by (by intros ->). lia.
Qed.

Lemma StronglySorted_lt_NoDup (l : list Z) : StronglySorted Z.lt l → NoDup l.
Proof.
  induction l as [|x l IH]; intros Hs; [constructor|]. apply StronglySorted_cons in Hs as [Hx Hs].
  apply list.NoDup_cons. split; [|by apply IH]. intros Hin. apply (proj1 (list.Forall_forall _ _) Hx) in Hin. lia.
Qed.

Lemma merge_sort_strict (l : list Z) : NoDup l → StronglySorted Z.lt (merge_sort Z.le l).
Proof.
  intros Hnd. apply sorted_strict; [apply StronglySorted_merge_sort; [apply _|intros x y; lia]|].
  by rewrite merge_sort_Permutation.
Qed.

Lemma ids_where_sorted P ms : StronglySorted Z.lt (ids_where P ms).
Proof.
  apply merge_sort_strict. pose proof (NoDup_ids_where P ms) as Hnd. unfold ids_where in Hnd.
  by rewrite merge_sort_Permutation in Hnd.
Qed.

(** ** Iterators *)

Section Iterators.
Implicit Types (es : list (list Z * list Z)) (p : list Z).

Lemma blt_asym a b : blt a b → ¬ blt b a.
Proof. intros Hab Hba. apply (blt_irrefl a). by apply (blt_ble_trans a b a), blt_ble. Qed.

Lemma sorted_fmap {B C} (f : B → C) (R : C → C → Prop) (S : B → B → Prop) (l : list B) :
  (∀ x y, x ∈ l → y ∈ l → S x y → R (f x) (f y)) → StronglySorted S l → StronglySorted R (f <$> l).
Proof.
  intros Hf Hs. induction l as [|x l IH]; [constructor|]. apply StronglySorted_cons in Hs as [Hx Hs].
  rewrite fmap_cons. apply StronglySorted_cons. split; [|apply IH; [|done]; intros y z Hy Hz; apply Hf; by right].
  apply list.Forall_forall. intros ? (y & -> & Hy)%list_elem_of_fmap. apply Hf; [left|by right|].
  by apply (proj1 (list.Forall_forall _ _) Hx).
Qed.

(** The entries of a family with the numbers of a list, upwards and downwards. *)
Lemma entries_up es p (val : Z → list Z) xs :
  StronglySorted (λ x y, blt x.1 y.1) es → StronglySorted Z.lt xs → Forall is_u64 xs →
  (∀ k v, (k, v) ∈ es ↔ ∃ x, x ∈ xs ∧ k = p ++ Hex x ∧ v = val x) →
  es = (λ x, (p ++ Hex x, val x)) <$> xs.
Proof.
  intros Hs Hx Hu Hel. rewrite list.Forall_forall in Hu.
  apply (sorted_unique (λ x y, blt x.1 y.1)); [intros ? ?; apply blt_asym|done| |].
  - apply (sorted_fmap _ _ Z.lt); [|done]. intros x y Hx' Hy' Hlt. cbn. by apply blt_app, Hex_blt; auto.
  - intros [k v]. rewrite Hel, list_elem_of_fmap. split.
    + intros (x & ? & -> & ->). eauto.
    + intros (x & E & ?). exists x. pose proof (f_equal fst E). pose proof (f_equal snd E). done.
Qed.

Lemma elem_of_rev {B} (x : B) (l : list B) : x ∈ rev l ↔ x ∈ l.
Proof. rewrite !list_elem_of_In. symmetry. apply in_rev. Qed.

Lemma sorted_rev {B} (R : B → B → Prop) (l : list B) : StronglySorted R l → StronglySorted (λ x y, R y x) (rev l).
Proof.
  induction l as [|x l IH]; intros Hs; [constructor|]. apply StronglySorted_cons in Hs as [Hx Hs]. cbn [rev].
  apply StronglySorted_app. split_and!; [|by apply IH|by repeat constructor].
  intros y z Hy ->%list_elem_of_singleton. apply (proj1 (list.Forall_forall _ _) Hx).
  by apply elem_of_rev.
Qed.

Lemma entries_down es p (val : Z → list Z) xs :
  StronglySorted (λ x y, blt y.1 x.1) es → StronglySorted Z.lt xs → Forall is_u64 xs →
  (∀ k v, (k, v) ∈ es ↔ ∃ x, x ∈ xs ∧ k = p ++ Hex x ∧ v = val x) →
  es = (λ x, (p ++ Hex x, val x)) <$> rev xs.
Proof.
  intros Hs Hx Hu Hel. rewrite list.Forall_forall in Hu.
  assert (Hr : ∀ x, x ∈ rev xs ↔ x ∈ xs) by (intros x; apply elem_of_rev).
  apply (sorted_unique (λ x y, blt y.1 x.1)); [intros ? ?; apply blt_asym|done| |].
  - apply (sorted_fmap _ _ (λ x y, Z.lt y x)); [|by apply sorted_rev]. intros x y Hx'%Hr Hy'%Hr Hlt. cbn.
    by apply blt_app, Hex_blt; auto.
  - intros [k v]. rewrite Hel, list_elem_of_fmap. split.
    + intros (x & ? & -> & ->). exists x. split; [done|by apply Hr].
    + intros (x & E & Hin%Hr). exists x. pose proof (f_equal fst E). pose proof (f_equal snd E). done.
Qed.

(** The entries but the one at [start]. *)
Lemma skip_start_spec start es (R : list Z → list Z → Prop) :
  (∀ a b, R a b → ¬ R b a) → StronglySorted (λ x y, R x.1 y.1) es →
  (∀ e, e ∈ es → e.1 = start ∨ R start e.1) →
  StronglySorted (λ x y, R x.1 y.1) (skip_start start es) ∧
  ∀ e, e ∈ skip_start start es ↔ e ∈ es ∧ e.1 ≠ start.
Proof.
  intros Hasym Hs Hall. destruct es as [|[k v] es].
  { split; [constructor|]. intros e. split; [by intros ?%elem_of_nil|by intros [?%elem_of_nil _]]. }
  cbn [skip_start]. pose proof Hs as [Hk Hs']%StronglySorted_cons. rewrite list.Forall_forall in Hk. case_decide as E.
  - subst k. split; [done|]. intros e. rewrite elem_of_cons. split.
    + intros He. split; [by right|]. intros Ee. specialize (Hk e He). cbn in Hk. rewrite Ee in Hk. by eapply Hasym.
    + intros [[->|He] Hne]; done.
  - split; [done|]. intros e. split; [|tauto]. intros He. split; [done|]. apply elem_of_cons in He as [->|He]; [done|].
    intros Ee. specialize (Hk e He). cbn in Hk. rewrite Ee in Hk.
    destruct (Hall (k, v)) as [?|Hr]; [left|done|]. cbn in Hr. by eapply Hasym.
Qed.

Lemma take_while_sorted {B} (P : B → bool) (R : B → B → Prop) (l : list B) :
  StronglySorted R l → StronglySorted R (take_while P l).
Proof.
  induction l as [|x l IH]; intros Hs; [done|]. apply StronglySorted_cons in Hs as [Hx Hs]. cbn.
  destruct (P x); [|constructor]. apply StronglySorted_cons. split; [|by apply IH].
  rewrite list.Forall_forall in Hx |- *. intros y Hy. apply Hx. revert Hy. clear. induction l as [|z l IH]; [done|].
  cbn. destruct (P z); [|by intros ?%elem_of_nil]. intros [->|?]%elem_of_cons; [left|right; by apply IH].
Qed.

Lemma elem_of_take_while {B} (P : B → bool) (l : list B) :
  (∀ l1 x l2 y, l = l1 ++ x :: l2 → y ∈ l2 → P x = false → P y = false) →
  ∀ x, x ∈ take_while P l ↔ x ∈ l ∧ P x = true.
Proof.
  induction l as [|z l IH]; intros Hcut x.
  { split; [by intros ?%elem_of_nil|by intros [?%elem_of_nil _]]. }
  cbn. destruct (P z) eqn:Ez.
  - rewrite !elem_of_cons, IH.
    + split; [intros [->|[? ?]]; auto|]. intros [[->|?] ?]; auto.
    + intros l1 x' l2 y -> Hy. by apply (Hcut (z :: l1) x' l2).
  - rewrite elem_of_nil, elem_of_cons. split; [done|]. intros [[->|Hx] HP]; [congruence|].
    rewrite (Hcut [] z l x) in HP; done.
Qed.

(** Entries in increasing order, none below the prefix. *)
Lemma take_while_up p es :
  StronglySorted (λ x y, blt x.1 y.1) es → (∀ e, e ∈ es → ble p e.1) →
  ∀ e, e ∈ take_while (λ e, starts_with p e.1) es ↔ e ∈ es ∧ p `prefix_of` e.1.
Proof.
  intros Hs Hp e. rewrite (take_while_scan fst p es); [|done|by apply list.Forall_forall].
  rewrite list_elem_of_filter. tauto.
Qed.

(** Entries in decreasing order, all at most at a bound with the prefix. *)
Lemma take_while_down p bound es :
  p `prefix_of` bound → StronglySorted (λ x y, blt y.1 x.1) es → (∀ e, e ∈ es → ble e.1 bound) →
  ∀ e, e ∈ take_while (λ e, starts_with p e.1) es ↔ e ∈ es ∧ p `prefix_of` e.1.
Proof.
  intros Hpb Hs Hb e. rewrite elem_of_take_while; [unfold starts_with; by rewrite bool_decide_eq_true|].
  intros l1 x l2 y -> Hy Hx. unfold starts_with in *. apply bool_decide_eq_false in Hx. apply bool_decide_eq_false.
  intros Hpy. apply Hx. apply (prefix_convex p x.1 bound); [|apply Hb; set_solver|done].
  apply StronglySorted_app in Hs as (_ & _ & Hs). apply StronglySorted_cons in Hs as [Hyx _].
  apply (ble_trans _ y.1); [by apply ble_prefix|]. apply blt_ble.
  exact (proj1 (list.Forall_forall _ _) Hyx y Hy).
Qed.

End Iterators.

Section Queries.
Context {D : Type} `{EngineLaws D} `{JsonLaws}.
Variable options : LocalPrivateStoreOptions.
Implicit Types (s : Store D) (A : Contents).

Lemma flag_some b v : flag b = Some v ↔ b = true ∧ v = [].
Proof. destruct b; cbn; split; [by intros [= <-]|by intros [_ ->]|done|by intros [? _]]. Qed.

(** Entries after a key of a family. *)
Lemma seek_after d p (after : list Z) :
  let start := p ++ after in
  let es := take_while (λ e, starts_with p e.1) (skip_start start (db_seek d start)) in
  StronglySorted (λ x y, blt x.1 y.1) es ∧
  ∀ k v, (k, v) ∈ es ↔ p `prefix_of` k ∧ blt start k ∧ db_get d k = Some v.
Proof.
  intros start es.
  assert (Hp : p `prefix_of` start) by (by eexists).
  destruct (skip_start_spec start (db_seek d start) blt) as [Hs He]; [apply blt_asym|apply seek_sorted| |].
  { intros [k v] [Hk _]%seek_elem. cbn. apply ble_blt in Hk as [->|?]; auto. }
  split; [by apply take_while_sorted|]. intros k v. unfold es. rewrite take_while_up; [|done|].
  - rewrite He, seek_elem. cbn. rewrite ble_blt. split.
    + intros [[[[->|?] ?] ?] ?]; done.
    + intros (? & Hb & ?). split_and!; auto. intros ->. by apply blt_irrefl in Hb.
  - intros [k' v'] [[Hk _]%seek_elem _]%He. cbn. eapply ble_trans; [by apply ble_prefix|done].
Qed.

(** Entries before a key of a family, or all of them. *)
Lemma seek_before d p (before : option Z) :
  let bound := match before with Some x => p ++ Hex x | None => p ++ str "~" end in
  let it := db_seek_for_prev d bound in
  let it := match before with Some _ => skip_start bound it | None => it end in
  let es := take_while (λ e, starts_with p e.1) it in
  StronglySorted (λ x y, blt y.1 x.1) es ∧
  ∀ k v, (k, v) ∈ es ↔ p `prefix_of` k ∧ ble k bound ∧ (before = None ∨ k ≠ bound) ∧ db_get d k = Some v.
Proof.
  intros bound it it' es.
  assert (Hp : p `prefix_of` bound) by (unfold bound; destruct before; by eexists).
  assert (Hs : StronglySorted (λ x y : list Z * list Z, blt y.1 x.1) it' ∧
    ∀ k v, (k, v) ∈ it' ↔ ble k bound ∧ (before = None ∨ k ≠ bound) ∧ db_get d k = Some v).
  { unfold it'. destruct before as [x|].
    - destruct (skip_start_spec bound it (λ a b, blt b a)) as [Hs He]; [intros a b; apply blt_asym|apply seek_for_prev_sorted| |].
      { intros [k v] [Hk _]%seek_for_prev_elem. cbn. apply ble_blt in Hk as [->|?]; auto. }
      split; [done|]. intros k v. rewrite He. unfold it. rewrite seek_for_prev_elem. cbn. naive_solver.
    - split; [apply seek_for_prev_sorted|]. intros k v. unfold it. rewrite seek_for_prev_elem. naive_solver. }
  destruct Hs as [Hs He]. split; [by apply take_while_sorted|]. intros k v. unfold es.
  rewrite (take_while_down p bound); [|done|done|].
  - rewrite He. cbn. tauto.
  - intros [k' v'] (Hk & _)%He. done.
Qed.

Section Reading.
Variables (s : Store D) (A : Contents).
Hypothesis HR : Rep (db s) A.
Hypothesis Hwf : wf A.

Lemma CollectRecords_ok p ok orphan limit xs (val : Z → list Z) :
  Forall is_u64 xs → (∀ x, x ∈ xs → ∃ m, msgs A !! x = Some m ∧ ok m = true) →
  CollectRecords p ok orphan limit ((λ x, (p ++ Hex x, val x)) <$> xs) s =
  (s, inr (views (msgs A) (take limit xs))).
Proof.
  revert limit. induction xs as [|x xs IH]; intros limit Hu Hall; [by destruct limit|].
  destruct limit as [|limit]; [done|]. apply list.Forall_cons in Hu as [Hx Hu].
  destruct (Hall x) as (m & Hm & Hok); [left|]. rewrite fmap_cons. cbn [CollectRecords].
  unfold suffix. rewrite drop_app_length, (bind_ok _ _ _ _ _ (Unhex_Hex x s Hx)).
  unfold IndexedRecord. erewrite bind_ok; cycle 1.
  { rewrite (bind_ok _ _ _ _ _ (read_record s A HR Hwf x Hx)). cbn [g_record]. rewrite Hm.
    erewrite bind_ok; [reflexivity|by apply require_ok]. }
  erewrite bind_ok; [|apply IH; [done|]; intros y Hy; apply Hall; by right].
  cbn [from_option id take]. unfold views. cbn [omap list_omap]. rewrite Hm. done.
Qed.

Lemma ids_where_u64 P : Forall is_u64 (ids_where P (msgs A)).
Proof. apply list.Forall_forall. intros x (m & Hm & _)%elem_of_ids_where. by eapply mid_u64. Qed.

(** The messages of a receiver that are pending, after an identifier. *)
Lemma pending_entries r after :
  is_u64 r → is_u64 after →
  take_while (λ e, starts_with (PendingPrefix r) e.1)
    (skip_start (PendingPrefix r ++ Hex after) (db_seek (db s) (PendingPrefix r ++ Hex after))) =
  (λ x, (PendingPrefix r ++ Hex x, [])) <$> ids_where (λ k m, pending_of r m && (after <? k)) (msgs A).
Proof.
  intros Hr Ha. destruct (seek_after (db s) (PendingPrefix r) (Hex after)) as [Hs He].
  apply (entries_up _ _ (λ _, [])); [done|apply ids_where_sorted|apply ids_where_u64|]. intros k v.
  rewrite He, (HR k v). setoid_rewrite elem_of_ids_where. split.
  - intros (Hp & Hlt & key & Hwk & -> & Hv). destruct (prefix_pending r key) as (x & -> & Hx); [done..|].
    cbn in Hv. apply flag_some in Hv as [Hm ->]. exists x. split_and!; [|done..].
    destruct (msgs A !! x) as [m|]; [|done]. exists m. split; [done|]. rewrite Hm.
    apply blt_app, Hex_blt in Hlt; [|done..]. by apply Z.ltb_lt.
  - intros (x & (m & Hm & [Hpm Hlt%Z.ltb_lt]%andb_true_iff) & -> & ->).
    assert (is_u64 x) by by eapply mid_u64.
    split_and!; [by eexists|by apply blt_app, Hex_blt|]. exists (KP r x). split_and!; [done|done|].
    cbn. by rewrite Hm, Hpm.
Qed.

End Reading.

(** ** Queries *)

(** A query leaves the store as it was. *)
Lemma Call_query {R} (failed : MessageApplicationStatus → list Z → R) (fn : M D R) s A (Q : R → Prop) (P : Prop) :
  good s A → slots s = [] →
  wp fn (λ r s', s' = s ∧ Q r) (λ ex s', s' = s ∧ fails ex ∧ ¬ P) s →
  ∀ s' r, Call failed fn s = (s', r) →
  s' = s ∧ (Q r ∨ ¬ P ∧ ∃ st m, st ≠ kSucceeded ∧ r = failed st m).
Proof.
  intros Hg Hsl Hwp s' r Hcall. eapply Call_spec in Hcall; [|done..].
  destruct Hcall as [[-> HQ]|(ex & s1 & (-> & Hf & Hn) & -> & ->)]; [by auto|].
  split; [|right; split; [done|]; eauto]. destruct s. cbn in Hsl. subst. reflexivity.
Qed.

(** The answer of a page of pending messages. *)
Definition pending_page A (receiver after limit : Z) : ListResult MessageView :=
  MkList kSucceeded (views (msgs A)
    (take (Z.to_nat limit) (ids_where (λ k m, pending_of receiver m && (after <? k)) (msgs A)))) [].

Lemma pending_after_spec s A receiver after limit s' r :
  good s A → slots s = [] → is_u64 receiver → is_u64 after →
  ListPendingAfter options receiver after limit s = (s', r) →
  s' = s ∧
  (r = pending_page A receiver after limit ∨
   ¬ (actor_ok options receiver ∧ 0 < limit ≤ 1001) ∧ ∃ st m, st ≠ kSucceeded ∧ r = list_failure st m).
Proof.
  intros Hg Hsl Hr Ha. pose proof Hg as [[_ _ HR Hwf _ _ _ _] _].
  apply (Call_query _ _ s A (λ r, r = pending_page A receiver after limit)); [done..|].
  apply wp_bind, wp_Actor; [|intros ex Hf Hn; split_and!; [done..|by intros [? _]]]. intros Hact.
  apply wp_bind, wp_Limit; [|intros ex Hf Hn; split_and!; [done..|by intros [_ ?]]]. intros Hlim.
  apply wp_bind, wp_gets. cbv zeta. rewrite (pending_entries s A) by done.
  apply wp_bind. eapply wp_value; [|by apply wp_ret].
  apply (CollectRecords_ok s A HR Hwf); [by apply ids_where_u64|].
  intros x (m & Hm & [Hp _]%andb_true_iff)%elem_of_ids_where. eauto.
Qed.

Lemma views_rev ms l : views ms (rev l) = rev (views ms l).
Proof.
  unfold views. induction l as [|k l IH]; [done|]. cbn [rev]. rewrite omap_app, IH. cbn [omap list_omap].
  by destruct (ms !! k); [|rewrite app_nil_r].
Qed.

Lemma blt_tilde x : 0 ≤ x → blt (Hex x) (str "~").
Proof.
  intros Hx. pose proof (Hex_range x Hx) as Hr. pose proof (length_Hex x) as Hlen.
  destruct (Hex x) as [|c cs]; [done|]. apply list.Forall_cons in Hr as [Hc _]. apply blt_cons. left.
  eapply Z.le_lt_trans; [apply Hc|reflexivity].
Qed.

(** The messages of a dialog before an identifier (all of them for zero). *)
Definition dialog_before (a b before : Z) (k : Z) (m : MessageView) : bool :=
  between m a b && ((before =? 0) || (k <? before)).

Lemma dialog_prefix_min_max a b : DialogPrefix (Z.min a b) (Z.max a b) = DialogPrefix a b.
Proof.
  destruct (Z.min_spec a b) as [[? ->]|[? ->]].
  - by rewrite Z.max_r by lia.
  - rewrite Z.max_l by lia. apply DialogPrefix_sym.
Qed.

Lemma dialog_elem d A a b k v :
  Rep d A → wf A → is_u64 a → is_u64 b → a ≠ b →
  DialogPrefix a b `prefix_of` k ∧ db_get d k = Some v ↔
  ∃ x m, is_u64 x ∧ msgs A !! x = Some m ∧ between m a b = true ∧ k = DialogPrefix a b ++ Hex x ∧ v = [].
Proof.
  intros HR Hwf Ha Hb Hab. rewrite (HR k v). split.
  - intros (Hp & key & Hwk & -> & Hv). rewrite <- dialog_prefix_min_max in Hp.
    destruct (prefix_dialog (Z.min a b) (Z.max a b) key) as (x & -> & Hx); [unfold is_u64 in *; lia..|done|done|].
    cbn in Hv. apply flag_some in Hv as [Hm ->]. destruct (msgs A !! x) as [m|] eqn:E; [|done].
    rewrite between_min_max in Hm. exists x, m. split_and!; [done..| |done]. symmetry. by apply enc_dialog.
  - intros (x & m & Hx & Hm & Hbt & -> & ->). split; [by eexists|].
    exists (KH (Z.min a b) (Z.max a b) x). split_and!; [|by apply enc_dialog|].
    + cbn. unfold is_u64 in *. lia.
    + cbn. by rewrite Hm, between_min_max, Hbt.
Qed.

Lemma history_entries s A a b before :
  Rep (db s) A → wf A → is_u64 a → is_u64 b → a ≠ b → is_u64 before →
  let p := DialogPrefix a b in
  let bound := if negb (before =? 0) then p ++ Hex before else p ++ str "~" in
  let it := db_seek_for_prev (db s) bound in
  let it := if negb (before =? 0) then skip_start bound it else it in
  take_while (λ e, starts_with p e.1) it = (λ x, (p ++ Hex x, [])) <$> rev (ids_where (dialog_before a b before) (msgs A)).
Proof.
  intros HR Hwf Ha Hb Hab Hbf p bound it it'.
  destruct (seek_before (db s) p (if before =? 0 then None else Some before)) as [Hs He].
  apply (entries_down _ _ (λ _, [])); [|apply ids_where_sorted|by apply ids_where_u64|].
  { unfold it', it, bound. by destruct (before =? 0). }
  intros k v. transitivity (p `prefix_of` k ∧ db_get (db s) k = Some v ∧ ble k bound ∧ (before = 0 ∨ k ≠ bound)).
  { unfold it', it, bound. assert (Hsn : Some before ≠ None ∧ @None Z = None) by done.
    destruct (Z.eqb_spec before 0) as [E|E]; cbn [negb] in *; rewrite He; clear -Hsn E; tauto. }
  setoid_rewrite elem_of_ids_where. unfold dialog_before. split.
  - intros (Hp & Hget & Hle & Hne). destruct (proj1 (dialog_elem (db s) A a b k v HR Hwf Ha Hb Hab)) as (x & m & Hx & Hm & Hbt & -> & ->);
      [done|]. exists x. split_and!; [|done..]. exists m. split; [done|]. rewrite Hbt. cbn [andb].
    unfold bound in Hle, Hne. destruct (Z.eqb_spec before 0) as [|Hb0]; cbn [negb] in *; [done|].
    cbn [orb]. apply Z.ltb_lt. destruct Hne as [?|Hne]; [done|].
    apply (Hex_blt x before); [done..|]. apply (blt_app p). apply ble_blt in Hle as [?|?]; done.
  - intros (x & (m & Hm & [Hbt Hlt]%andb_true_iff) & -> & ->). assert (Hx : is_u64 x) by by eapply mid_u64.
    destruct (proj2 (dialog_elem (db s) A a b (p ++ Hex x) [] HR Hwf Ha Hb Hab)) as [Hp Hget]; [by exists x, m|].
    split_and!; [done..| |]; unfold bound; destruct (Z.eqb_spec before 0) as [|Hb0]; cbn [negb orb] in *; auto.
    + apply ble_app, blt_ble, blt_tilde. unfold is_u64 in Hx. lia.
    + apply Z.ltb_lt in Hlt. by apply ble_app, blt_ble, Hex_blt.
    + apply Z.ltb_lt in Hlt. right. intros E%app_inv_head%Hex_inj; [lia|done..].
Qed.

Definition history_page A (actor peer before limit : Z) : ListResult MessageView :=
  let ids := ids_where (dialog_before actor peer before) (msgs A) in
  MkList kSucceeded (views (msgs A) (drop (length ids - Z.to_nat limit) ids)) [].

Lemma history_spec s A actor peer before limit s' r :
  good s A → slots s = [] → is_u64 actor → is_u64 peer → is_u64 before →
  ListHistory options actor peer before limit s = (s', r) →
  s' = s ∧
  (r = history_page A actor peer before limit ∨
   ¬ (dialog_ok options actor peer ∧ 0 < limit ≤ 1001) ∧ ∃ st m, st ≠ kSucceeded ∧ r = list_failure st m).
Proof.
  intros Hg Hsl Ha Hp Hb. pose proof Hg as [[_ _ HR Hwf _ _ _ _] _].
  apply (Call_query _ _ s A (λ r, r = history_page A actor peer before limit)); [done..|].
  apply wp_bind, wp_Dialog; [|intros ex Hf Hn; split_and!; [done..|by intros [? _]]]. intros (_ & _ & Hne).
  apply wp_bind, wp_Limit; [|intros ex Hf Hn; split_and!; [done..|by intros [_ ?]]]. intros Hlim.
  apply wp_bind, wp_gets. cbv zeta. rewrite (history_entries s A) by done.
  apply wp_bind. eapply wp_value.
  - apply (CollectRecords_ok s A HR Hwf).
    + apply list.Forall_forall. intros x Hx. rewrite elem_of_rev in Hx.
      by apply (proj1 (list.Forall_forall _ _) (ids_where_u64 A Hwf _)) in Hx.
    + intros x Hx. rewrite elem_of_rev, elem_of_ids_where in Hx. destruct Hx as (m & Hm & [Hbt _]%andb_true_iff). eauto.
  - apply wp_ret. split; [done|]. rewrite (firstn_rev (Z.to_nat limit)), views_rev, rev_involutive. done.
Qed.

(** ** Single messages and counters *)

Lemma get_spec s A mid s' r :
  good s A → slots s = [] → is_u64 mid → GetPrivateMessage mid s = (s', r) →
  s' = s ∧ (r = MkGet kSucceeded (msgs A !! mid) [] ∨ ¬ 0 < mid ∧ ∃ st m, st ≠ kSucceeded ∧ r = get_failure st m).
Proof.
  intros Hg Hsl Hm. pose proof Hg as [[_ _ HR Hwf _ _ _ _] _].
  apply (Call_query _ _ s A (λ r, r = MkGet kSucceeded (msgs A !! mid) [])); [done..|].
  apply wp_bind, wp_require; intros Hb; [|by apply Z.ltb_ge in Hb; split_and!; [..|lia]].
  eapply wp_value; [by apply (read_record s A)|done].
Qed.

(** The message of a client identity. *)
Definition known A (from : Z) (canonical : list Z) : option MessageView :=
  cids A !! (from, canonical) ≫= λ mid, msgs A !! mid.

Lemma find_spec s A e from cid s' r :
  good s A → slots s = [] → is_u64 from →
  FindPrivateMessageByClientMessageId options e from cid s = (s', r) →
  s' = s ∧
  (r = MkGet kSucceeded (known A from (canonical_cid options e cid)) [] ∨
   ¬ (actor_ok options from ∧ cid ≠ [] ∧ bsize cid ≤ 64 ∧ identity_ok options e) ∧
   ∃ st m, st ≠ kSucceeded ∧ r = get_failure st m).
Proof.
  intros Hg Hsl Hf. pose proof Hg as [[_ _ HR Hwf _ _ _ _] _].
  apply (Call_query _ _ s A (λ r, r = MkGet kSucceeded (known A from (canonical_cid options e cid)) [])); [done..|].
  apply wp_bind, wp_Actor; [|intros ex Hfl Hn; split_and!; [done..|by intros [? _]]]. intros _.
  apply wp_bind, wp_require; intros Hb.
  2: { split_and!; [done..|]. intros (_ & Hc & Hc64 & _). apply andb_false_iff in Hb as [Hb|Hb].
       - by destruct cid.
       - apply Z.leb_gt in Hb. lia. }
  apply wp_bind, wp_Identity; [|intros ex Hfl Hn; split_and!; [done..|by intros (_ & _ & _ & ?)]].
  set (c := canonical_cid options e cid). apply wp_bind. eapply wp_value; [apply (Get_enc s A HR (KI from c)); done|].
  cbn [expected]. unfold known. destruct (cids A !! (from, c)) as [mid|] eqn:Hc; cbn [fmap option_fmap option_map mbind option_bind];
    [|by apply wp_ret].
  apply (wf_cids A Hwf) in Hc as (m & Hm & Hfrom & Hcan). assert (Hmid : is_u64 mid) by by eapply mid_u64.
  destruct (wf_msgs A Hwf _ _ Hm) as (Hid & _ & _).
  apply wp_bind. eapply wp_value; [by apply ParseNumber_Number|].
  apply wp_bind. eapply wp_value; [by apply (read_record s A)|]. rewrite Hm. cbn [g_record from_option id].
  rewrite Hid. apply wp_bind. eapply wp_value; [apply (Get_enc s A HR (KK mid)); done|].
  cbn [expected]. rewrite Hcan. apply wp_bind, wp_require; [by intros _; apply wp_ret|].
  unfold Found. cbn [g_status g_record]. by rewrite Hfrom, Z.eqb_refl, !bool_decide_true by done.
Qed.

Lemma count_pending_spec s A receiver s' r :
  good s A → slots s = [] → is_u64 receiver → CountPending options receiver s = (s', r) →
  s' = s ∧ (r = MkCount kSucceeded (cnt (pending_of receiver) (msgs A)) [] ∨
            ¬ actor_ok options receiver ∧ ∃ st m, st ≠ kSucceeded ∧ r = MkCount st 0 m).
Proof.
  intros Hg Hsl Hr. pose proof Hg as [[_ _ HR Hwf _ _ _ _] _].
  apply (Call_query _ _ s A (λ r, r = MkCount kSucceeded (cnt (pending_of receiver) (msgs A)) [])); [done..|].
  apply wp_bind, wp_Actor; [|by intros]. intros _. apply wp_bind. eapply wp_value; [by apply (read_pending s A)|].
  by apply wp_ret.
Qed.

Lemma unread_spec s A receiver peer s' r :
  good s A → slots s = [] → is_u64 receiver → is_u64 peer → ReadUnreadSnapshot options receiver peer s = (s', r) →
  s' = s ∧
  (r = MkLocalUnread kSucceeded (cnt (unread_from peer receiver) (msgs A)) (cnt (unread_of receiver) (msgs A)) [] ∨
   ¬ dialog_ok options receiver peer ∧ ∃ st m, st ≠ kSucceeded ∧ r = MkLocalUnread st 0 0 m).
Proof.
  intros Hg Hsl Hr Hp. pose proof Hg as [[_ _ HR Hwf _ _ _ _] _].
  apply (Call_query _ _ s A (λ r, r = MkLocalUnread kSucceeded (cnt (unread_from peer receiver) (msgs A))
    (cnt (unread_of receiver) (msgs A)) [])); [done..|].
  apply wp_bind, wp_Dialog; [|by intros]. intros _.
  apply wp_bind. eapply wp_value; [by apply (read_unread s A)|].
  apply wp_bind. eapply wp_value; [by apply (read_dialog s A)|].
  apply wp_bind, wp_require; [by intros _; apply wp_ret|]. intros Hb. exfalso. apply Z.leb_gt in Hb.
  assert (cnt (unread_from peer receiver) (msgs A) ≤ cnt (unread_of receiver) (msgs A)); [|lia].
  apply cnt_le. intros m. unfold unread_from, unread_of, sent, sent_to. rewrite !andb_true_iff. tauto.
Qed.

(** ** The unread messages of a user by peer *)

(** Who wrote to a user. *)
Definition senders A (r : Z) : list Z :=
  merge_sort Z.le (remove_dups (from_user_id <$> filter (λ m, sent_to r m = true) (map_to_list (msgs A)).*2)).

Lemma elem_of_senders A r p : p ∈ senders A r ↔ ∃ k m, msgs A !! k = Some m ∧ sent p r m = true.
Proof.
  unfold senders. rewrite merge_sort_Permutation, elem_of_remove_dups, list_elem_of_fmap. unfold sent, sent_to. split.
  - intros (m & -> & [Hto Hin]%list_elem_of_filter). apply list_elem_of_fmap in Hin as ([k m'] & -> & Hin).
    apply elem_of_map_to_list in Hin. exists k, m'. split; [done|]. cbn in Hto. by rewrite Hto, Z.eqb_refl.
  - intros (k & m & Hm & Hs). apply andb_true_iff in Hs as [<-%Z.eqb_eq Hto]. exists m. split; [done|]. apply list_elem_of_filter.
    split; [done|]. apply list_elem_of_fmap. exists (k, m). split; [done|]. by apply elem_of_map_to_list.
Qed.

Lemma senders_sorted A r : StronglySorted Z.lt (senders A r).
Proof. apply merge_sort_strict, NoDup_remove_dups. Qed.

Lemma senders_ok A r p : wf A → p ∈ senders A r → is_u64 p ∧ p ≠ 0 ∧ p ≠ r.
Proof.
  intros Hwf Hp. apply elem_of_senders in Hp as (k & m & Hm & Hs). unfold sent in Hs.
  apply andb_true_iff in Hs as [<-%Z.eqb_eq <-%Z.eqb_eq].
  destruct (wf_msgs A Hwf k m Hm) as (_ & _ & Hok). destruct (ok_from m Hok). split_and!; [done..|apply Hok].
Qed.

Lemma lsum_indicator (x : Z) (b : bool) ps :
  NoDup ps → x ∈ ps → lsum (λ p, Z.b2z ((x =? p) && b)) ps = Z.b2z b.
Proof.
  induction ps as [|p ps IH]; intros Hnd Hin; [by apply elem_of_nil in Hin|].
  apply list.NoDup_cons in Hnd as [Hp Hnd]. rewrite lsum_cons. apply elem_of_cons in Hin as [->|Hin].
  - rewrite Z.eqb_refl. cbn [andb]. rewrite lsum_zero; [lia|]. intros q Hq.
    by rewrite (proj2 (Z.eqb_neq p q)) by (by intros ->).
  - rewrite (proj2 (Z.eqb_neq x p)) by (by intros ->). rewrite IH by done. done.
Qed.

(** The dialogs of a user share out the unread messages. *)
Lemma unread_split A r :
  lsum (λ p, cnt (unread_from p r) (msgs A)) (senders A r) = cnt (unread_of r) (msgs A).
Proof.
  assert (Hex : ∀ ps, lsum (λ p, cnt (unread_from p r) (msgs A)) ps =
    total (λ _ m, lsum (λ p, Z.b2z (unread_from p r m)) ps) (msgs A)).
  { induction ps as [|p ps IH]; [rewrite total_zero; done|]. rewrite lsum_cons, IH. unfold cnt. rewrite <- total_plus.
    apply total_ext. intros k m _. by rewrite lsum_cons. }
  rewrite Hex. apply total_ext. intros k m Hm. unfold unread_of. destruct (sent_to r m && is_unread m) eqn:E.
  - apply andb_true_iff in E as [E1 E2]. unfold sent_to in E1.
    rewrite (lsum_ext _ (λ p, Z.b2z ((from_user_id m =? p) && true))).
    + apply (lsum_indicator (from_user_id m) true); [apply StronglySorted_lt_NoDup, senders_sorted|].
      apply elem_of_senders. exists k, m. split; [done|]. unfold sent. by rewrite Z.eqb_refl, E1.
    + intros p _. unfold unread_from, sent. by rewrite E1, E2, andb_true_r.
  - rewrite lsum_zero; [done|]. intros p _. unfold unread_from, sent. unfold sent_to in E.
    rewrite <- andb_assoc, E, andb_false_r. done.
Qed.

Lemma peer_entries s A r :
  Rep (db s) A → wf A → is_u64 r →
  scan (db s) (PeerPrefix r) (PeerPrefix r) = (λ x, (PeerPrefix r ++ Hex x, [])) <$> senders A r.
Proof.
  intros HR Hwf Hr. apply (entries_up _ _ (λ _, [])); [apply scan_sorted, ble_refl|apply senders_sorted| |].
  { apply list.Forall_forall. intros p Hp. by apply (senders_ok A r p). }
  intros k v. rewrite elem_of_scan by apply ble_refl. rewrite (HR k v). split.
  - intros (Hp & _ & key & Hwk & -> & Hv). destruct (prefix_peer r key) as (x & -> & Hx); [done..|].
    cbn in Hv. apply flag_some in Hv as [Hm ->]. exists x. split_and!; [|done..]. apply elem_of_senders, cnt_pos.
    pose proof (cnt_nonneg (sent x r) (msgs A)). apply negb_true_iff, Z.eqb_neq in Hm. lia.
  - intros (x & Hx & -> & ->). split_and!; [by eexists|by apply ble_prefix; eexists|].
    exists (KR r x). destruct (senders_ok A r x Hwf Hx). split_and!; [done|done|]. cbn. apply flag_some. split; [|done].
    apply elem_of_senders, cnt_pos in Hx. apply negb_true_iff, Z.eqb_neq. lia.
Qed.

Lemma CollectPeers_ok s A r ps out sum :
  Rep (db s) A → wf A → is_u64 r → (∀ p, p ∈ ps → is_u64 p ∧ p ≠ 0 ∧ p ≠ r) → 0 ≤ sum →
  sum + lsum (λ p, cnt (unread_from p r) (msgs A)) ps ≤ 2 ^ 63 - 1 →
  Z.of_nat (length out) + Z.of_nat (length ps) ≤ 100000 →
  CollectPeers r ((λ x, (PeerPrefix r ++ Hex x, [])) <$> ps) out sum s =
  (s, inr (out ++ ((λ p, (p, cnt (unread_from p r) (msgs A))) <$> ps),
           sum + lsum (λ p, cnt (unread_from p r) (msgs A)) ps)).
Proof.
  intros HR Hwf Hr. revert out sum. induction ps as [|p ps IH]; intros out sum Hall Hs Hsum Hlen.
  { cbn. by rewrite app_nil_r, Z.add_0_r. }
  destruct (Hall p) as (Hp & Hp0 & Hpr); [left|]. rewrite fmap_cons. cbn [CollectPeers].
  rewrite lsum_cons in Hsum |- *. cbn [length] in Hlen.
  assert (Hnn : 0 ≤ lsum (λ p, cnt (unread_from p r) (msgs A)) ps) by (apply lsum_nonneg; intros; apply cnt_nonneg).
  pose proof (cnt_nonneg (unread_from p r) (msgs A)).
  unfold suffix. rewrite drop_app_length, (bind_ok _ _ _ _ _ (Unhex_Hex p s Hp)),
    (bind_ok _ _ _ _ _ (read_dialog s A HR Hwf r p Hr Hp)).
  erewrite bind_ok; cycle 1.
  { apply require_ok. rewrite !andb_true_iff, !negb_true_iff, !Z.eqb_neq, Z.ltb_lt, Z.leb_le. split_and!; (done || lia). }
  rewrite IH; [|intros q Hq; apply Hall; by right|lia|lia|rewrite length_app; cbn [length]; lia].
  rewrite fmap_cons, <- app_assoc. cbn [app]. by rewrite Z.add_assoc.
Qed.

Definition user_unread A (r : Z) : LocalUserUnreadResult :=
  MkUserUnread kSucceeded ((λ p, (p, cnt (unread_from p r) (msgs A))) <$> senders A r) (cnt (unread_of r) (msgs A)) [].

Lemma user_unread_spec s A receiver s' r :
  good s A → slots s = [] → is_u64 receiver → ReadUserUnreadSnapshot options receiver s = (s', r) →
  Z.of_nat (length (senders A receiver)) ≤ 100000 →
  s' = s ∧ (r = user_unread A receiver ∨
            ¬ actor_ok options receiver ∧ ∃ st m, st ≠ kSucceeded ∧ r = MkUserUnread st [] 0 m).
Proof.
  intros Hg Hsl Hr Hcall Hlen. pose proof Hg as [[_ _ HR Hwf _ _ _ _] _].
  eapply (Call_query _ _ s A (λ r, r = user_unread A receiver)); [done..| |exact Hcall].
  apply wp_bind, wp_Actor; [|by intros]. intros _. apply wp_bind, wp_gets. cbv zeta.
  rewrite (peer_entries s A) by done.
  assert (Hb : cnt (unread_of receiver) (msgs A) ≤ 2 ^ 63 - 1).
  { pose proof (cnt_size (unread_of receiver) (msgs A)). pose proof (wf_high A Hwf).
    assert (Z.of_nat (base.size (msgs A)) ≤ high A); [|lia].
    apply size_bounded; [lia|]. intros k m Hk. by destruct (wf_msgs A Hwf k m Hk) as (_ & ? & _). }
  apply wp_bind. eapply wp_value.
  { apply (CollectPeers_ok s A receiver); [done..|intros p Hp; by apply (senders_ok A receiver p)| | |];
      rewrite ?unread_split; cbn [length]; lia. }
  cbn [fst snd]. rewrite unread_split, Z.add_0_l. apply wp_bind. eapply wp_value; [by apply (read_unread s A)|].
  apply wp_bind, wp_require; [by intros _; apply wp_ret|]. by rewrite Z.eqb_refl.
Qed.

(** ** Recipients with pending messages *)

Definition recipients A (after : Z) : list Z :=
  merge_sort Z.le (remove_dups (to_user_id <$>
    filter (λ m, bool_decide (delivery_state m = kPending) && (after <? to_user_id m) = true) (map_to_list (msgs A)).*2)).

Lemma elem_of_recipients A after r :
  r ∈ recipients A after ↔ after < r ∧ 0 < cnt (pending_of r) (msgs A).
Proof.
  unfold recipients. rewrite merge_sort_Permutation, elem_of_remove_dups, list_elem_of_fmap, cnt_pos.
  unfold pending_of, sent_to. split.
  - intros (m & -> & [Hp Hin]%list_elem_of_filter). apply list_elem_of_fmap in Hin as ([k m'] & -> & Hin).
    apply elem_of_map_to_list in Hin. apply andb_true_iff in Hp as [Hp Ha%Z.ltb_lt]. split; [done|].
    exists k, m'. split; [done|]. cbn in *. by rewrite Z.eqb_refl, Hp.
  - intros (Ha & k & m & Hm & Hp). apply andb_true_iff in Hp as [<-%Z.eqb_eq Hp]. exists m. split; [done|].
    apply list_elem_of_filter. split; [by rewrite Hp, (proj2 (Z.ltb_lt _ _) Ha)|].
    apply list_elem_of_fmap. exists (k, m). split; [done|]. by apply elem_of_map_to_list.
Qed.

Lemma recipient_u64 A after r : wf A → r ∈ recipients A after → is_u64 r.
Proof.
  intros Hwf (_ & (k & m & Hm & Hp)%cnt_pos)%elem_of_recipients. unfold pending_of, sent_to in Hp.
  apply andb_true_iff in Hp as [<-%Z.eqb_eq _]. destruct (wf_msgs A Hwf k m Hm) as (_ & _ & Hok). apply Hok.
Qed.

Lemma recipient_entries s A after :
  Rep (db s) A → wf A → is_u64 after →
  let start := PendingCountKey after in
  take_while (λ e, starts_with (str "Q/") e.1) (skip_start start (db_seek (db s) start)) =
  (λ x, (str "Q/" ++ Hex x, Number (cnt (pending_of x) (msgs A)))) <$> recipients A after.
Proof.
  intros HR Hwf Ha start. destruct (seek_after (db s) (str "Q/") (Hex after)) as [Hs He].
  apply (entries_up _ _ (λ x, Number (cnt (pending_of x) (msgs A)))); [done|apply merge_sort_strict, NoDup_remove_dups| |].
  { apply list.Forall_forall. intros r. by apply recipient_u64. }
  intros k v. etrans; [apply He|]. rewrite (HR k v). setoid_rewrite elem_of_recipients. split.
  - intros (Hp & Hlt & key & Hwk & -> & Hv). destruct (prefix_count key) as (x & -> & Hx); [done..|].
    cbn [expected] in Hv. unfold counter in Hv.
    destruct (Z.eqb_spec (cnt (pending_of x) (msgs A)) 0); [done|]. injection Hv as <-.
    exists x. pose proof (cnt_nonneg (pending_of x) (msgs A)). split_and!; [|lia|done|done].
    by apply blt_app, Hex_blt in Hlt.
  - intros (x & [Hlt Hc] & -> & ->). assert (Hx : is_u64 x) by (apply (recipient_u64 A after); [done|by apply elem_of_recipients]).
    split_and!; [by eexists|by apply blt_app, Hex_blt|]. exists (KQ x). split_and!; [done|done|].
    cbn [expected]. by apply counter_pos.
Qed.

Lemma CollectRecipients_ok s A limit rs :
  wf A → (∀ r, r ∈ rs → is_u64 r ∧ 0 < cnt (pending_of r) (msgs A)) →
  CollectRecipients limit ((λ x, (str "Q/" ++ Hex x, Number (cnt (pending_of x) (msgs A)))) <$> rs) s =
  (s, inr (take limit rs, bool_decide (limit < length rs)%nat)).
Proof.
  intros Hwf. revert limit. induction rs as [|r rs IH]; intros limit Hall.
  { by destruct limit. }
  destruct (Hall r) as [Hr Hc]; [left|]. rewrite fmap_cons.
  destruct limit as [|limit]; cbn [CollectRecipients];
    (erewrite bind_ok; [|apply ParseNumber_Number; by apply (cnt_u64 A)]);
    (erewrite bind_ok; [|apply require_ok; by apply Z.ltb_lt]); [done|].
  change (drop 2 (str "Q/" ++ Hex r)) with (Hex r).
  rewrite (bind_ok _ _ _ _ _ (Unhex_Hex r s Hr)).
  erewrite bind_ok; [|apply IH; intros q Hq; apply Hall; by right]. cbn [fst snd take length].
  unfold mret, M_ret. do 3 f_equal. apply bool_decide_ext. lia.
Qed.

Definition recipients_page A (after limit : Z) : PageResult Z :=
  let rs := recipients A after in
  MkPage kSucceeded (take (Z.to_nat limit) rs) (bool_decide (Z.to_nat limit < length rs)%nat) [].

Lemma recipients_spec s A after limit s' r :
  good s A → slots s = [] → is_u64 after → ListPendingRecipientsAfter after limit s = (s', r) →
  s' = s ∧ (r = recipients_page A after limit ∨
            ¬ 0 < limit ≤ 1001 ∧ ∃ st m, st ≠ kSucceeded ∧ r = page_failure st m).
Proof.
  intros Hg Hsl Ha. pose proof Hg as [[_ _ HR Hwf _ _ _ _] _].
  apply (Call_query _ _ s A (λ r, r = recipients_page A after limit)); [done..|].
  apply wp_bind, wp_Limit; [|by intros]. intros Hlim. apply wp_bind, wp_gets. cbv zeta.
  rewrite (recipient_entries s A) by done. apply wp_bind.
  eapply wp_value; [apply (CollectRecipients_ok s A); [done|]|by apply wp_ret].
  intros r0 Hr0. split; [by apply (recipient_u64 A after)|by apply elem_of_recipients in Hr0 as [_ ?]].
Qed.

End Queries.
