(* ===== verification/LocalStoreRead.v ===== *)
(** * Reading a dialog in the local store

    [MarkDialogRead]: every unread message of the dialog becomes read, with the unread
    counters, the index of pending messages and the event, in one write. *)
From Stdlib Require Import ZArith Lia String.
From stdpp Require Import base list numbers sorting option gmap.
From S2P Require Import Prelude ByteStrings MessageTypes KeyValueEngine DomainEvents LocalPrivateStore LocalStoreKeys LocalStoreModel LocalStoreInvariant LocalStoreChanges LocalStoreSteps LocalStorePersist LocalStoreConfirm LocalStoreQueries.

Local Open Scope Z_scope.
Local Open Scope width_scope.

Section Read.
Context {D : Type} `{EngineLaws D} `{JsonLaws}.
Variable options : LocalPrivateStoreOptions.
Implicit Types (s : Store D) (A : Contents).

Definition in_dialog (a b : Z) (k : Z) (m : MessageView) : bool := between m a b.

Lemma dialog_entries s A a b :
  Rep (db s) A → wf A → is_u64 a → is_u64 b → a ≠ b →
  scan (db s) (DialogPrefix a b) (DialogPrefix a b) =
  (λ x, (DialogPrefix a b ++ Hex x, [])) <$> ids_where (in_dialog a b) (msgs A).
Proof.
  intros HR Hwf Ha Hb Hab.
  apply (entries_up _ _ (λ _, [])); [apply scan_sorted, ble_refl|apply ids_where_sorted|by apply ids_where_u64|].
  intros k v. rewrite elem_of_scan by apply ble_refl. setoid_rewrite elem_of_ids_where. split.
  - intros (Hp & _ & Hget). destruct (proj1 (dialog_elem (db s) A a b k v HR Hwf Ha Hb Hab)) as (x & m & Hx & Hm & Hbt & -> & ->);
      [done|]. eauto 10.
  - intros (x & (m & Hm & Hbt) & -> & ->). assert (Hx : is_u64 x) by by eapply mid_u64.
    destruct (proj2 (dialog_elem (db s) A a b (DialogPrefix a b ++ Hex x) [] HR Hwf Ha Hb Hab)) as [Hp Hget]; [by exists x, m|].
    split_and!; [done|by apply ble_prefix|done].
Qed.

(** ** The operations *)

Definition read_ops_of (now : list Z) (reader peer : Z) (k : Z) (m : MessageView) : list (Key * option (list Z)) :=
  if unread_from peer reader m then
    (if bool_decide (delivery_state m = kPending) then [(KP reader k, None)] else []) ++
    [(KM k, Some (record_text (mark_read now m)))]
  else [].
Definition read_kops A (now : list Z) (reader peer : Z) (l : list Z) : list (Key * option (list Z)) :=
  l ≫= λ k, match msgs A !! k with Some m => read_ops_of now reader peer k m | None => [] end.

(** How many messages of a list have a property. *)
Definition count_in (P : MessageView → bool) A (l : list Z) : Z :=
  lsum (λ k, match msgs A !! k with Some m => Z.b2z (P m) | None => 0 end) l.

Lemma count_in_all P A a b :
  (∀ m, P m = true → between m a b = true) → count_in P A (ids_where (in_dialog a b) (msgs A)) = cnt P (msgs A).
Proof.
  intros HP. unfold count_in. rewrite <- (total_select (λ _ m, Z.b2z (P m))) by (apply StronglySorted_lt_NoDup, ids_where_sorted).
  apply total_ext. intros k m Hm. case_decide as Hk; [done|]. destruct (P m) eqn:E; [|done]. destruct Hk.
  apply elem_of_ids_where. exists m. split; [done|]. by apply HP.
Qed.

Lemma unread_in_dialog reader peer m :
  reader ≠ peer → between m reader peer = true →
  negb (to_user_id m =? reader) ||
  negb (bool_decide (delivery_state m = kPending) || bool_decide (delivery_state m = kReceiverConfirmed)) =
  negb (unread_from peer reader m).
Proof.
  intros Hne Hb. unfold unread_from, sent, is_unread.
  assert ((from_user_id m =? peer) && (to_user_id m =? reader) = (to_user_id m =? reader)) as ->.
  { apply between_parties in Hb as [[= -> ->]|[= -> ->]].
    - rewrite (proj2 (Z.eqb_neq (to_user_id m) (from_user_id m))) by congruence. by rewrite andb_false_r.
    - by rewrite !Z.eqb_refl. }
  by rewrite negb_andb.
Qed.

Definition read_fits A (now : list Z) (reader peer : Z) (l : list Z) : Prop :=
  ∀ l', l' `prefix_of` l → db_batch_bytes (enc_ops (read_kops A now reader peer l')) ≤ 64 * 1024 * 1024.

Lemma read_text now m :
  utf8 now = true → is_Some (json_dump (EncodeRecord m)) → is_Some (json_dump (EncodeRecord (mark_read now m))).
Proof.
  intros Hn Hm%dump_total. apply dump_total. rewrite EncodeRecord_fields in *. cbn in *.
  destruct (bempty (receiver_confirmed_at m)); tauto.
Qed.

Lemma wp_CollectReads s A now reader peer done todo Q E :
  Rep (db s) A → wf A → is_u64 reader → is_u64 peer → reader ≠ peer →
  (∀ k, k ∈ todo → is_u64 k ∧ ∃ m, msgs A !! k = Some m ∧ between m reader peer = true) →
  ((∀ k m, k ∈ todo → msgs A !! k = Some m → unread_from peer reader m = true →
      is_Some (json_dump (EncodeRecord (mark_read now m)))) →
   Q (enc_ops (read_kops A now reader peer (done ++ todo)), count_in (unread_from peer reader) A (done ++ todo),
      count_in (pending_from peer reader) A (done ++ todo)) s) →
  (∀ ex, fails ex → ¬ (utf8 now = true ∧ read_fits A now reader peer (done ++ todo)) → E ex s) →
  wp (CollectReads now reader peer ((λ x, (DialogPrefix reader peer ++ Hex x, [])) <$> todo)
        (enc_ops (read_kops A now reader peer done)) (count_in (unread_from peer reader) A done)
        (count_in (pending_from peer reader) A done)) Q E s.
Proof.
  intros HR Hwf Hr Hp Hne. revert done. induction todo as [|k todo IH]; intros ids Hall HQ HE.
  { apply wp_ret. rewrite app_nil_r in HQ. apply HQ. by intros k m ?%elem_of_nil. }
  destruct (Hall k) as (Hk & m & Hm & Hbt); [left|].
  assert (Hall' : ∀ k, k ∈ todo → is_u64 k ∧ ∃ m, msgs A !! k = Some m ∧ between m reader peer = true)
    by (intros k' Hk'; apply Hall; by right).
  destruct (wf_msgs A Hwf k m Hm) as (Hid & _ & Hok).
  assert (Happ : ids ++ k :: todo = (ids ++ [k]) ++ todo) by by rewrite <- app_assoc.
  assert (Hkops : read_kops A now reader peer (ids ++ [k]) = read_kops A now reader peer ids ++ read_ops_of now reader peer k m).
  { unfold read_kops. rewrite bind_app. cbn. by rewrite Hm, app_nil_r. }
  assert (Hcnt : ∀ P, count_in P A (ids ++ [k]) = count_in P A ids + Z.b2z (P m)).
  { intros P. unfold count_in. by rewrite lsum_snoc, Hm. }
  rewrite fmap_cons. cbn [CollectReads]. unfold suffix. rewrite drop_app_length.
  apply wp_bind. eapply wp_value; [by apply Unhex_Hex|]. apply wp_bind. eapply wp_value; [by apply (read_record s A)|].
  rewrite Hm. cbn [g_record from_option id]. apply wp_bind, wp_require; unfold Found; cbn [g_status g_record];
    rewrite !bool_decide_true by done; [intros _|done].
  apply wp_bind, wp_require; [intros _|congruence]. rewrite (unread_in_dialog reader peer m) by done.
  assert (Hpf : pending_from peer reader m = unread_from peer reader m && bool_decide (delivery_state m = kPending)).
  { unfold pending_from, unread_from, is_unread. destruct (sent peer reader m), (bool_decide (delivery_state m = kPending)); cbn;
      by rewrite ?andb_false_r. }
  rewrite Happ in HQ, HE. destruct (unread_from peer reader m) eqn:Hu; cbn [negb]; cycle 1.
  { specialize (IH (ids ++ [k])). rewrite !Hcnt, Hu, Hpf in IH. cbn [andb Z.b2z] in IH. rewrite !Z.add_0_r in IH.
    rewrite Hkops in IH. unfold read_ops_of in IH. rewrite Hu, app_nil_r in IH. apply IH; [done| |done].
    intros Hd. apply HQ. intros k' m' [->|Hk']%elem_of_cons Hm' Hu'; [congruence|eauto]. }
  apply wp_bind, wp_json; cycle 1.
  { intros Hn. apply HE; [done|]. intros [Hu8 _]. destruct (read_text now m Hu8 (ok_text m Hok)) as [t Ht]. congruence. }
  intros text Htext.
  assert (Hb : (if bool_decide (delivery_state m = kPending)
                then enc_ops (read_kops A now reader peer ids) ++ [(PendingPrefix reader ++ Hex (message_id m), None)]
                else enc_ops (read_kops A now reader peer ids)) ++ [(MessageKey (message_id m), Some text)] =
               enc_ops (read_kops A now reader peer (ids ++ [k]))).
  { rewrite Hkops, enc_ops_app. unfold read_ops_of, record_text. rewrite Hu, Htext, Hid.
    destruct (bool_decide (delivery_state m = kPending)); cbn [app]; [by rewrite <- app_assoc|done]. }
  rewrite Hb. apply wp_bind, wp_require; intros Hsz.
  2: { apply HE; [done|]. intros [_ Hfit]. apply Z.leb_gt in Hsz. specialize (Hfit (ids ++ [k])).
       assert (db_batch_bytes (enc_ops (read_kops A now reader peer (ids ++ [k]))) ≤ 64 * 1024 * 1024); [|lia].
       apply Hfit. by exists todo. }
  specialize (IH (ids ++ [k])). rewrite !Hcnt, Hu, Hpf in IH. cbn [andb Z.b2z] in IH.
  destruct (bool_decide (delivery_state m = kPending)); cbn [Z.b2z] in IH; rewrite ?Z.add_0_r in IH;
    (apply IH; [done| |done]); intros Hd; apply HQ; intros k' m' [->|Hk']%elem_of_cons Hm' Hu'; eauto; simplify_eq; eauto.
Qed.

(** ** The event of a read *)

Definition read_id (e : Env) (reader peer : Z) : list Z := MakeReadEventId reader peer (nanos e) (pid e) (sequence e).
Definition read_event (e : Env) (reader peer rows : Z) : DomainEvent :=
  MkEvent 1 (read_id e reader peer) (str "dialog.read_advanced.v1")
    (str "dialog") (to_string reader ++ str ":" ++ to_string peer) kProducerService (CurrentUtcIso8601 e) [] []
    (JObject [(str "affected_rows", JNumber rows); (str "peer_user_id", JNumber peer); (str "reader_user_id", JNumber reader)]).

Lemma read_spec_of e reader peer rows topic :
  DialogReadAdvanced reader peer rows (nanos e) (pid e) (sequence e) topic (CurrentUtcIso8601 e) =
  spec_of (read_event e reader peer rows) topic.
Proof. reflexivity. Qed.

Lemma read_id_other e reader peer mid : read_id e reader peer ≠ created_id mid.
Proof. unfold read_id, MakeReadEventId, created_id. discriminate. Qed.

(** Clocks in their formats. *)
Definition clock_ok (e : Env) : Prop :=
  is_u64 (nanos e) ∧ is_u64 (pid e) ∧ is_u64 (sequence e) ∧
  utf8 (CurrentUtcIso8601 e) = true ∧ CurrentUtcIso8601 e ≠ [] ∧ utf8 (Now e) = true.

Lemma to_string_ascii n : is_u64 n → Forall (λ c, 0 ≤ c < 128) (to_string n).
Proof. intros Hn. eapply list.Forall_impl; [by apply to_string_digits|]. cbn. lia. Qed.

Lemma read_event_clean e reader peer rows :
  is_u64 reader → is_u64 peer → clock_ok e → event_clean (read_event e reader peer rows).
Proof.
  intros Hr Hp (Hn & Hpid & Hseq & Hu & Hne & _). split.
  - unfold Valid. cbn [read_event schema_version event_id event_type aggregate_type aggregate_id producer_service
      occurred_at payload is_object].
    pose proof (to_string_length reader Hr). destruct (to_string reader) as [|c cs]; [cbn in *; lia|].
    by destruct (CurrentUtcIso8601 e).
  - rewrite envelope_fields. cbn [json_utf8 read_event schema_version event_id event_type aggregate_type aggregate_id
      producer_service occurred_at payload request_id trace_id].
    assert (Hcol : Forall (λ c, 0 ≤ c < 128) (str ":")) by by repeat constructor.
    pose proof (to_string_ascii reader Hr). pose proof (to_string_ascii peer Hp).
    split_and!; try done; apply utf8_ascii; try (by repeat constructor).
    + by repeat (apply Forall_app; split).
    + unfold read_id, MakeReadEventId. repeat (apply Forall_app; split; try done; try by apply to_string_ascii).
      by repeat constructor.
Qed.

Variable outcome : Z → WriteOutcome.

(** What a read needs besides: consent, room for the event and for the batch. *)
Definition read_clean A s (e : Env) (reader peer : Z) : Prop :=
  dialog_ok options reader peer ∧ locks_ok options s [reader] ∧
  (admit_events options = true → admitted e = true) ∧ pending_events s < max_pending_events options ∧ clock_ok e ∧
  read_fits A (Now e) reader peer (ids_where (in_dialog reader peer) (msgs A)) ∧ writes_succeed outcome.

(** The contents after a dialog was read. *)
Definition after_read A (e : Env) (reader peer : Z) (text : list Z) : Contents :=
  new_event (read_all A (Now e) reader peer) (read_id e reader peer) text.

Definition read_post A (e : Env) (reader peer : Z) (r : MutationResult) s' : Prop :=
  let n := cnt (unread_from peer reader) (msgs A) in
  r = MkMutation kSucceeded n [] ∧ slots s' = [] ∧
  (n = 0 ∧ good s' A ∨ 0 < n ∧ ∃ text, good s' (after_read A e reader peer text)).

Lemma read_kops_elem A now reader peer l op :
  op ∈ read_kops A now reader peer l ↔
  ∃ k m, k ∈ l ∧ msgs A !! k = Some m ∧ unread_from peer reader m = true ∧
    (op = (KM k, Some (record_text (mark_read now m))) ∨ delivery_state m = kPending ∧ op = (KP reader k, None)).
Proof.
  unfold read_kops. rewrite list_elem_of_bind. split.
  - intros (k & Hop & Hk). destruct (msgs A !! k) as [m|] eqn:Hm; [|by apply elem_of_nil in Hop].
    exists k, m. unfold read_ops_of in Hop. destruct (unread_from peer reader m) eqn:Hu; [|by apply elem_of_nil in Hop].
    split_and!; [done..|]. apply elem_of_app in Hop as [Hop|Hop%list_elem_of_singleton]; [right|by left].
    case_bool_decide; [|by apply elem_of_nil in Hop]. by apply list_elem_of_singleton in Hop.
  - intros (k & m & Hk & Hm & Hu & Hop). exists k. split; [|done]. rewrite Hm. unfold read_ops_of. rewrite Hu.
    apply elem_of_app. destruct Hop as [->|[Hst ->]]; [right; by left|left]. rewrite bool_decide_true by done. by left.
Qed.

Definition read_counter_kops A (reader peer : Z) : list (Key * option (list Z)) :=
  [(KN reader, Some (Number (cnt (unread_of reader) (msgs A) - cnt (unread_from peer reader) (msgs A))));
   (KD reader peer, None);
   (KQ reader, counter (cnt (pending_of reader) (msgs A) - cnt (pending_from peer reader) (msgs A)))].

Lemma rep_read_kops d A now reader peer :
  Rep d A → wf A → is_u64 reader → is_u64 peer → 0 < cnt (unread_from peer reader) (msgs A) →
  Rep (db_write d (enc_ops (read_kops A now reader peer (ids_where (in_dialog reader peer) (msgs A)) ++
        read_counter_kops A reader peer))) (read_all A now reader peer).
Proof.
  intros HR Hwf Hr Hp Hpos. apply rep_read; [done|done|..].
  - apply list.Forall_forall. intros op [Hop|Hop]%elem_of_app.
    + apply read_kops_elem in Hop as (k & m & _ & Hm & _ & [->|[_ ->]]); cbn; [|split; [done|]]; by eapply mid_u64.
    + unfold read_counter_kops in Hop. rewrite !elem_of_cons, elem_of_nil in Hop.
      destruct Hop as [->|[->|[->|[]]]]; done.
  - intros key v [Hop|Hop]%elem_of_app.
    + apply read_kops_elem in Hop as (k & m & _ & Hm & Hu & Hop). left. exists k, m. destruct Hop as [?|[_ ?]]; auto.
    + unfold read_counter_kops in Hop. rewrite !elem_of_cons, elem_of_nil in Hop. tauto.
  - intros k m Hm Hu. rewrite fmap_app, !elem_of_app.
    assert (Hk : k ∈ ids_where (in_dialog reader peer) (msgs A)).
    { apply elem_of_ids_where. exists m. split; [done|]. apply unread_from_spec in Hu as (<- & <- & _).
      apply between_parties. by right. }
    split; [|intros Hst]; left; apply list_elem_of_fmap.
    + exists (KM k, Some (record_text (mark_read now m))). split; [done|]. apply read_kops_elem. eauto 10.
    + exists (KP reader k, None). split; [done|]. apply read_kops_elem. eauto 10.
  - rewrite fmap_app, elem_of_app. right. left.
  - rewrite fmap_app, elem_of_app. right. right. left.
  - rewrite fmap_app, elem_of_app. right. right. right. left.
Qed.

(** ** The write *)

Lemma unread_bounds A reader peer :
  wf A → let n := cnt (unread_from peer reader) (msgs A) in
  n ≤ cnt (unread_of reader) (msgs A) < 2 ^ 63 - 1 ∧
  0 ≤ cnt (pending_from peer reader) (msgs A) ≤ cnt (pending_of reader) (msgs A) ∧ 0 ≤ n.
Proof.
  intros Hwf n. destruct (counters_ok A peer reader Hwf) as (? & ? & ?).
  split_and!; [lia..|apply cnt_nonneg| |apply cnt_nonneg].
  apply cnt_le. intros m. unfold pending_from, pending_of, sent, sent_to. rewrite !andb_true_iff. tauto.
Qed.

Lemma read_ops_enc A now reader peer n :
  wf A → n = cnt (unread_from peer reader) (msgs A) →
  enc_ops (read_kops A now reader peer (ids_where (in_dialog reader peer) (msgs A))) ++
  [(UnreadKey reader, Some (Number (cnt (unread_of reader) (msgs A) -₆₄ n)));
   (DialogUnreadKey reader peer, None);
   PendingOp reader (cnt (pending_of reader) (msgs A)) (cnt (pending_from peer reader) (msgs A))] =
  enc_ops (read_kops A now reader peer (ids_where (in_dialog reader peer) (msgs A)) ++ read_counter_kops A reader peer).
Proof.
  intros Hwf ->. destruct (unread_bounds A reader peer Hwf) as (? & ? & ?).
  rewrite PendingOp_enc by (lia || by apply (cnt_u64 A)). rewrite u64_small by (unfold is_u64; lia).
  by rewrite enc_ops_app.
Qed.

Lemma wf_after_read A e reader peer text :
  wf A → copies A !! read_id e reader peer = None → event_ok text (read_id e reader peer) →
  Z.of_nat (base.size (pend A)) + 1 < 2 ^ 64 - 1 →
  (∀ k m, msgs A !! k = Some m → unread_from peer reader m = true →
     is_Some (json_dump (EncodeRecord (mark_read (Now e) m)))) →
  wf (after_read A e reader peer text).
Proof.
  intros Hwf Hnew Hev Hroom Htext. apply wf_new_event; [by apply wf_read|done|apply read_id_other|done|done].
Qed.

Lemma wp_write_read {R} s A e reader peer text (k : M D R) Q E :
  good s A → wf (after_read A e reader peer text) →
  is_u64 reader → is_u64 peer → copies A !! read_id e reader peer = None →
  0 < cnt (unread_from peer reader) (msgs A) →
  slots s = [if pending_index_enabled s then Some (read_id e reader peer) else None] →
  (∀ s', good s' (after_read A e reader peer text) → slots s' = [] → wp k Q E s') →
  (∀ ex s', fails ex → ¬ writes_succeed outcome →
     broken s' (λ B, B = A ∨ B = after_read A e reader peer text) → E ex s') →
  let n := cnt (unread_from peer reader) (msgs A) in
  wp (Write outcome ((enc_ops (read_kops A (Now e) reader peer (ids_where (in_dialog reader peer) (msgs A))) ++
        [(UnreadKey reader, Some (Number (cnt (unread_of reader) (msgs A) -₆₄ n)));
         (DialogUnreadKey reader peer, None);
         PendingOp reader (cnt (pending_of reader) (msgs A)) (cnt (pending_from peer reader) (msgs A))]) ++
        [(EventKey (read_id e reader peer), Some text); (EventCopyKey (read_id e reader peer), Some text)]) true ;;
      CommitSlots ;; k) Q E s.
Proof.
  intros Hg Hwf' Hr Hp Hnew Hpos Hsl HQ HE n. pose proof Hg as [[_ _ HR Hwf _ _ Hfr _] _].
  rewrite (read_ops_enc A (Now e) reader peer n) by done.
  assert (HRn : Rep (db_write (db s) (enc_ops (read_kops A (Now e) reader peer (ids_where (in_dialog reader peer) (msgs A)) ++
        read_counter_kops A reader peer) ++ enc_ops [(KE (read_id e reader peer), Some text); (KA (read_id e reader peer), Some text)]))
        (after_read A e reader peer text)).
  { apply rep_app, rep_new_event. by apply rep_read_kops. }
  assert (Hpn : pend A !! read_id e reader peer = None) by exact (lookup_weaken_None _ _ _ Hnew (wf_pend A Hwf)).
  apply (wp_commit outcome s A (after_read A e reader peer text)); [done|exact HRn|done|done|..|done|done].
  - intros mid m. cbn [after_read new_event read_all with_msgs msgs]. rewrite lookup_upd.
    intros (m' & Hm' & _)%fmap_Some. by eapply Hfr.
  - rewrite Hsl. cbn [after_read new_event read_all with_msgs pend length]. rewrite map_size_insert_None by done. lia.
  - rewrite Hsl. intros -> id. apply pend_insert.
Qed.

(** A step that fails before anything was written. *)
Lemma read_spec s A e reader peer s' r :
  config_ok options → good s A → slots s = [] → is_u64 reader → is_u64 peer →
  copies A !! read_id e reader peer = None →
  MarkDialogRead options outcome e reader peer s = (s', r) →
  read_post A e reader peer r s' ∨
  (m_status r ≠ kSucceeded ∧ m_affected_rows r = 0 ∧ ¬ read_clean A s e reader peer ∧
   ((∃ B, same_but_high A B ∧ good s' B ∧ slots s' = []) ∨
    broken s' (λ B, same_but_high A B ∨ ∃ text, B = after_read A e reader peer text))).
Proof.
  intros Hcfg Hg Hsl Hr Hp Hnew Hcall. unfold MarkDialogRead in Hcall.
  set (T := λ B, ∃ text, B = after_read A e reader peer text).
  eapply (Call_spec _ _ s A (read_post A e reader peer)
    (λ ex s', fails ex ∧ ¬ read_clean A s e reader peer ∧ failing A T s')) in Hcall; [|done|done|].
  { destruct Hcall as [?|(ex & s1 & (Hfl & Hn & Hfail) & -> & ->)]; [by left|].
    right. split; [done|]. split; [done|]. split; [done|]. by apply failing_unwound. }
  assert (Hgf : failing A T s) by by apply good_failing.
  apply wp_bind, wp_Dialog; [|intros ex He Hn; split; [done|]; split; [by intros (? & _)|done]]. intros (Hd1 & Hd2 & Hne).
  apply wp_bind, wp_LockActors;
    [|intros ex L He Hn; split; [done|]; split; [by intros (_ & ? & _)|by apply good_failing, good_locks]].
  intros L. pose proof (good_locks s A L Hg) as HgL. pose proof HgL as [[_ _ HR Hwf _ _ _ _] _].
  set (s0 := set_user_locks L s) in *. assert (Hgf0 : failing A T s0) by by apply good_failing.
  apply wp_bind, wp_gets. cbv zeta. rewrite (dialog_entries s0 A) by done.
  set (ids := ids_where (in_dialog reader peer) (msgs A)).
  apply wp_bind. apply (wp_CollectReads s0 A (Now e) reader peer [] ids); try done.
  { intros k (m & Hm & Hb)%elem_of_ids_where. split; [by eapply mid_u64|eauto]. }
  2: { intros ex Hfl Hn. split; [done|]. split; [|done]. intros (_ & _ & _ & _ & (_ & _ & _ & _ & _ & Hu) & Hfit & _).
       by apply Hn. }
  intros Htext. rewrite app_nil_l.
  assert (Hbt : ∀ m, unread_from peer reader m = true → between m reader peer = true).
  { intros m (<- & <- & _)%unread_from_spec. apply between_parties. by right. }
  unfold ids. rewrite !count_in_all; [| |exact Hbt].
  2: { intros m. unfold pending_from. intros [Hs _]%andb_true_iff. unfold sent in Hs.
       apply andb_true_iff in Hs as [<-%Z.eqb_eq <-%Z.eqb_eq]. apply between_parties. by right. }
  set (n := cnt (unread_from peer reader) (msgs A)). destruct (unread_bounds A reader peer Hwf) as (Hb1 & Hb2 & Hb3). fold n in Hb1, Hb3.
  destruct (Z.eqb_spec n 0) as [Hz|Hz].
  { apply wp_ret. unfold read_post. fold n. rewrite Hz. split_and!; [done..|]. by left. }
  apply wp_bind. eapply wp_value; [by apply (read_unread s0 A)|].
  apply wp_bind. eapply wp_value; [by apply (read_dialog s0 A)|].
  apply wp_bind. eapply wp_value; [by apply (read_pending s0 A)|].
  apply wp_bind, wp_require; intros Hchk; cycle 1.
  { exfalso. apply not_true_iff_false in Hchk. apply Hchk. rewrite !andb_true_iff, Z.eqb_eq, !Z.leb_le. fold n. lia. }
  apply wp_bind, wp_require; intros Had; cycle 1.
  { split; [done|]. split; [|done]. intros (_ & _ & Ha & _). apply orb_false_iff in Had as [Had1%negb_false_iff Had2].
    by rewrite Ha in Had2. }
  apply wp_bind, (wp_NewSlot options s0 A); [done..| |].
  2: { intros ex Hfl Hmax. split; [done|]. split; [|done]. intros (_ & _ & _ & ? & _). cbn in Hmax. lia. }
  intros s1 Hg1 Hs1 Hc1 Hi1 Hp1. assert (Hs1' : slots s1 = [] ++ [None]) by by rewrite Hs1; cbn; rewrite Hsl.
  assert (Hgf1 : failing A T s1) by by apply good_failing. rewrite read_spec_of.
  apply wp_bind, (wp_Event s1 A []); [apply Hcfg| |done|done|done| |apply not_elem_of_nil|..].
  { cbn [read_event payload canonical]. split; [literal_sorted|]. split_and!; try done. unfold is_u64 in *. lia. }
  { exact (lookup_weaken_None _ _ _ Hnew (wf_pend A Hwf)). }
  2: { intros ex Hfl Hn. split; [done|]. split; [|done]. intros (_ & _ & _ & _ & Hck & _). by apply Hn, read_event_clean. }
  intros s2 text Hev Hg2 Hc2 Hi2 Hp2 Hs2.
  assert (Hwf' : wf (after_read A e reader peer text)).
  { apply wf_after_read; [done|done|done| |].
    - destruct Hg2 as [_ [Hev2 _ _ _ _]]. rewrite Hs2 in Hev2. cbn [length app] in Hev2. destruct Hcfg. lia.
    - intros k m Hm Hu. apply (Htext k m); [|done..]. apply elem_of_ids_where. exists m. split; [done|]. by apply Hbt. }
  apply (wp_write_read s2 A e reader peer text); [done|done|done|done|done|lia|by rewrite Hs2, Hi2| |].
  - intros s3 Hg3 Hs3. wps. unfold read_post. fold n. split_and!; [done..|]. right. split; [lia|]. exists text.
    by apply (good_frame s3).
  - intros ex s3 Hfl Hw Hbr. split; [done|]. split; [by intros (_ & _ & _ & _ & _ & _ & ?)|].
    eapply failing_mono; [by apply same_but_high_refl| |by apply broken_failing]. intros C <-. by exists text.
Qed.

End Read.
