(* ===== verification/LocalStoreEvents.v ===== *)
(** * Events of the local store

    The relay's side of the store: publication, failure and requeueing of events, the
    page of pending events taken from the index or from the engine, and the flush of
    publications.  A publication is written without a sync: a crash may bring a
    published event back, but never loses one that was not published. *)
From Stdlib Require Import ZArith Lia String.
From stdpp Require Import base list numbers sorting option gmap.
From S2P Require Import Prelude ByteStrings MessageTypes KeyValueEngine DomainEvents LocalPrivateStore LocalStoreKeys LocalStoreModel LocalStoreInvariant LocalStoreChanges LocalStoreSteps LocalStorePersist LocalStoreConfirm LocalStoreQueries.

Local Open Scope Z_scope.
Local Open Scope width_scope.

Section Events.
Context {D : Type} `{EngineLaws D} `{JsonLaws}.
Variable options : LocalPrivateStoreOptions.
Variable outcome : Z → WriteOutcome.
Implicit Types (s : Store D) (A : Contents).

(** ** Pieces *)

Lemma wp_EventId id Q E s :
  (ValidEventId id = true → Q tt s) → (∀ ex, fails ex → ValidEventId id = false → E ex s) → wp (EventId id) Q E s.
Proof. intros HQ HE. apply wp_require; [done|]. intros Hb. by apply HE. Qed.

Lemma wp_CheckEventIds ids Q E s :
  (forallb ValidEventId ids = true → Q tt s) → (∀ ex, fails ex → forallb ValidEventId ids = false → E ex s) →
  wp (CheckEventIds ids) Q E s.
Proof.
  induction ids as [|id ids IH]; intros HQ HE; [by apply wp_ret, HQ|]. cbn [CheckEventIds forallb] in *.
  apply wp_bind, wp_EventId; [|by intros ex Hf Hb; apply HE; [done|]; rewrite Hb].
  intros Hb. apply IH; [by intros ?; apply HQ, andb_true_iff|]. intros ex Hf Hb'. apply HE; [done|].
  by rewrite Hb', andb_false_r.
Qed.

(** Events that leave the index and the counter. *)
Lemma wp_erase {R} s p p' ids n (k : M D R) Q E :
  events_ok s p → slots s = [] → n = Z.of_nat (length ids) →
  Z.of_nat (base.size p') + n = Z.of_nat (base.size p) →
  (∀ id, p' !! id = if decide (id ∈ ids) then None else p !! id) →
  (∀ s', same_core s s' → events_ok s' p' → slots s' = [] → wp k Q E s') →
  wp (EraseIndex ids ;; modify (λ s, set_pending_events (pending_events s -₆₄ n) s) ;; k) Q E s.
Proof.
  intros [Hev Hroom Hnd Hnew Hix] Hsl Hn Hsize Hp' Hk. unfold EraseIndex. apply wp_bind, wp_modify, wp_bind, wp_modify.
  rewrite Hsl in Hev. cbn [length] in Hev.
  assert (Hsub : pending_events s -₆₄ n = pending_events s - n) by (apply u64_small; unfold is_u64; lia).
  set (s1 := if pending_index_enabled s then _ else s).
  assert (Hc : same_core s s1) by (unfold s1; by destruct (pending_index_enabled s)).
  assert (Hsame : pending_events s1 = pending_events s ∧ slots s1 = [] ∧
               pending_index_enabled s1 = pending_index_enabled s) by (unfold s1; destruct (pending_index_enabled s) eqn:Hen; cbn; by rewrite ?Hsl, ?Hen).
  destruct Hsame as (E1 & E2 & E3). apply Hk; [done| |done].
  split; cbn [set_pending_events pending_events slots pending_index pending_index_enabled]; rewrite ?E1, ?E2, ?E3, ?Hsub.
  - cbn [length]. lia.
  - lia.
  - constructor.
  - intros id ?%elem_of_nil. done.
  - intros Hon. apply map_eq. intros id. unfold s1. rewrite Hon. cbn [set_pending_index pending_index slot_index foldr].
    rewrite lookup_erase, (Hix Hon), Hsl. cbn [slot_index foldr]. rewrite !lookup_fmap, Hp'. by case_decide.
Qed.

(** An unsynced write that takes events away. *)
Lemma wp_WriteAsync s A p batch Q E :
  core s A → p ⊆ pend A → Rep (db_write (db s) batch) (with_pend A p) →
  (∀ s', core s' (with_pend A p) → same_events s s' → Q tt s') →
  (∀ ex s', fails ex → ¬ writes_succeed outcome → broken s' (λ B, B = A ∨ B = with_pend A p) → E ex s') →
  wp (Write outcome batch false) Q E s.
Proof.
  intros [Ho Hps HR Hwf Hh Hn Hfr Hrec] Hp HR' HQ HE. pose proof (wf_with_pend A p Hwf Hp) as Hwf'.
  assert (Hold : ∀ d, recov d A → recov d (with_pend A p)).
  { intros d (q & Hq & HRq & Hwq). exists q. split; [by etrans|]. done. }
  unfold Write, WriteDirect. apply wp_bind, wp_gets, wp_bind, wp_require; unfold id; rewrite Hps; [|done]. intros _.
  apply wp_bind, wp_count. destruct (outcome (stats s engine_write_calls)) as [|applied reason] eqn:Ho'.
  - apply wp_modify, HQ; [|done].
    split; cbn [set_recoverable set_db set_stats db db_open closing poisoned reserved_end next_id recoverable with_pend
      msgs high]; try done.
    intros d [Hd| ->%list_elem_of_singleton]%elem_of_app; [by apply Hold, Hrec|]. by apply recov_self.
  - apply wp_bind, wp_modify, wp_throw, HE; [done| |].
    { intros Hw. by rewrite Hw in Ho'. }
    split; [done|]. intros d. cbn [set_recoverable set_db set_stats set_poisoned db recoverable]. intros Hd.
    assert (d ∈ db s :: db_write (db s) batch :: recoverable s) as Hd'.
    { apply elem_of_cons in Hd as [->|Hd].
      - destruct applied; [right; left|left].
      - apply elem_of_app in Hd as [Hd|Hd%list_elem_of_singleton]; [by do 2 right|subst; right; left]. }
    apply elem_of_cons in Hd' as [->|Hd']; [exists A; split; [by left|by apply recov_self]|].
    apply elem_of_cons in Hd' as [->|Hd']; [eexists; split; [by right|by apply recov_self]|].
    exists A. split; [by left|by apply Hrec].
Qed.

(** ** Failure *)

Definition reason_ok (reason : list Z) : Prop := reason ≠ [] ∧ bsize reason ≤ 128 ∧ 0 ∉ reason.
Definition failed_event (raw reason at_ : list Z) : Json :=
  object [(str "event", JString raw); (str "reason", JString reason); (str "failed_at", JString at_)].

Lemma failed_event_fields raw reason at_ :
  failed_event raw reason at_ =
  JObject [(str "event", JString raw); (str "failed_at", JString at_); (str "reason", JString reason)].
Proof. reflexivity. Qed.

Lemma failed_event_ok raw reason at_ t :
  json_dump (failed_event raw reason at_) = Some t → reason ≠ [] → bsize reason ≤ 128 → bsize at_ = 19 →
  failed_ok t raw.
Proof.
  intros Ht Hr Hr' Hat. exists (failed_event raw reason at_), reason, at_. split_and!; try done.
  apply (dump_parse _ _); [|done]. rewrite failed_event_fields. cbn [canonical]. split; [literal_sorted|done].
Qed.

Definition fail_clean A (e : Env) (id reason : list Z) : Prop :=
  ValidEventId id = true ∧ reason_ok reason ∧ utf8 reason = true ∧ utf8 (Now e) = true ∧
  (∀ raw, pend A !! id = Some raw → utf8 raw = true) ∧ writes_succeed outcome.

(** The contents after an event has failed. *)
Definition failed_from A (id : list Z) (B : Contents) : Prop :=
  ∃ raw t, pend A !! id = Some raw ∧ failed_ok t raw ∧ B = fail_event A id t.

Definition fail_post A (id : list Z) (r : MutationResult) s' : Prop :=
  match pend A !! id with
  | None => r = MkMutation kSucceeded 0 [] ∧ good s' A
  | Some raw => r = MkMutation kSucceeded 1 [] ∧ ∃ B, failed_from A id B ∧ good s' B
  end ∧ slots s' = [].

Lemma size_delete (p : gmap (list Z) (list Z)) id raw :
  p !! id = Some raw → Z.of_nat (base.size (delete id p)) + 1 = Z.of_nat (base.size p).
Proof.
  intros Hp. rewrite map_size_delete_Some by eauto. assert (base.size p ≠ 0%nat); [|lia].
  intros E%map_size_empty_inv. subst p. by rewrite lookup_empty in Hp.
Qed.

Lemma fail_spec s A e id reason s' r :
  good s A → slots s = [] → env_typed e →
  MarkEventFailed outcome e id reason s = (s', r) →
  fail_post A id r s' ∨
  (m_status r ≠ kSucceeded ∧ m_affected_rows r = 0 ∧ ¬ fail_clean A e id reason ∧
   (good s' A ∧ slots s' = [] ∨ broken s' (λ B, B = A ∨ failed_from A id B))).
Proof.
  intros Hg Hsl Henv Hcall. pose proof Hg as [[_ _ HR Hwf _ _ Hfr _] _].
  eapply (Call_spec _ _ s A (fail_post A id)
    (λ ex s', fails ex ∧ ¬ fail_clean A e id reason ∧
       (s' = s ∨ broken s' (λ B, B = A ∨ failed_from A id B)))) in Hcall; [|done|done|].
  { destruct Hcall as [?|(ex & s1 & (Hfl & Hn & Hs1) & -> & ->)]; [by left|]. right. split_and!; [done..|].
    destruct Hs1 as [->|Hbr]; [left|right; eapply broken_frame; [apply unwound_core|done]].
    split; [by apply unwound_good; [lia|]|done]. }
  apply wp_bind, wp_EventId; [|intros ex Hf Hb; split_and!; [done|by intros (? & _); congruence|by left]]. intros Hid.
  apply wp_bind, wp_require; intros Hr; cycle 1.
  { split_and!; [done| |by left]. intros (_ & (Hr1 & Hr2 & Hr3) & _).
    apply not_true_iff_false in Hr. apply Hr. rewrite !andb_true_iff, Z.leb_le, bool_decide_false by done.
    split_and!; [by destruct reason|done|done]. }
  rewrite !andb_true_iff, Z.leb_le in Hr. destruct Hr as [[Hr1 Hr2] _].
  assert (Hr0 : reason ≠ []) by by destruct reason.
  apply wp_bind. eapply wp_value; [by apply (Get_enc s A HR (KE id))|]. cbn [expected]. unfold fail_post.
  destruct (pend A !! id) as [raw|] eqn:Hp; [|by apply wp_ret].
  destruct (wf_copies A Hwf id raw) as [ev Hev]; [exact (lookup_weaken _ _ _ _ Hp (wf_pend A Hwf))|].
  apply wp_bind. eapply wp_value; [apply Hev|]. apply wp_bind, wp_json; cycle 1.
  { intros Hnone. split_and!; [done| |by left]. intros (_ & _ & Hu1 & Hu2 & Hu3 & _).
    assert (is_Some (json_dump (failed_event raw reason (Now e)))) as [? Hd]; [|by unfold failed_event in Hd; congruence].
    apply dump_total. rewrite failed_event_fields. cbn [json_utf8]. split_and!; auto; apply utf8_ascii; by repeat constructor. }
  intros t Ht. assert (Hok : failed_ok t raw) by (eapply failed_event_ok; done).
  apply wp_bind, (wp_Write outcome s A (fail_event A id t)).
  - apply Hg.
  - apply (rep_fail_event _ A id t HR).
  - by eapply wf_fail_event.
  - done.
  - done.
  - intros s1 Hc1 He1. apply (wp_erase s1 (pend A) (delete id (pend A))).
    + eapply events_frame; [done|]. apply Hg.
    + destruct He1 as (_ & -> & _). done.
    + done.
    + by eapply size_delete.
    + intros id'. case_decide as Hin; [apply list_elem_of_singleton in Hin as ->; apply lookup_delete_eq|].
      apply lookup_delete_ne. intros ->. apply Hin. by apply list_elem_of_singleton.
    + intros s2 Hc2 He2 Hs2. apply wp_ret. split; [|done]. split; [done|]. exists (fail_event A id t).
      split; [by exists raw, t|]. split; [by eapply core_frame|done].
  - intros ex s1 Hf Ho Hbr. split_and!; [done|by intros (_ & _ & _ & _ & _ & Hw); apply Ho, Hw|]. right.
    destruct Hbr as [Hpo Hbr]. split; [done|]. intros d Hd. destruct (Hbr d Hd) as (B & [->| ->] & Hrv);
      eexists; (split; [|exact Hrv]); [by left|]. right. by exists raw, t.
Qed.

(** ** Publication *)

Lemma lookup_publish A ids id :
  pend (publish A ids) !! id = if decide (id ∈ ids) then None else pend A !! id.
Proof.
  cbn. apply option_eq. intros t. rewrite map_lookup_filter_Some. cbn. case_decide; naive_solver.
Qed.

Lemma size_publish A ids :
  NoDup ids → (∀ id, id ∈ ids → is_Some (pend A !! id)) →
  Z.of_nat (base.size (pend (publish A ids))) + Z.of_nat (length ids) = Z.of_nat (base.size (pend A)).
Proof.
  induction ids as [|id ids IH]; intros Hnd Hin.
  { assert (publish A [] = A) as ->; [|cbn [length]; lia].
    destruct A. unfold publish, with_pend. cbn. f_equal. apply map_filter_id. intros i x _. apply not_elem_of_nil. }
  apply list.NoDup_cons in Hnd as [Hid Hnd]. destruct (Hin id) as [raw Hraw]; [left|].
  assert (pend (publish A (id :: ids)) = delete id (pend (publish A ids))) as ->.
  { apply map_eq. intros i. rewrite lookup_publish, lookup_delete, lookup_publish.
    repeat case_decide; set_solver. }
  cbn [length]. assert (Hp : pend (publish A ids) !! id = Some raw) by by rewrite lookup_publish, decide_False.
  pose proof (size_delete _ _ _ Hp). enough (Z.of_nat (base.size (pend (publish A ids))) + Z.of_nat (length ids) =
    Z.of_nat (base.size (pend A))) by lia. apply IH; [done|]. intros; apply Hin; by right.
Qed.

Lemma publish_same A ids ids' :
  (∀ id, is_Some (pend A !! id) → id ∈ ids ↔ id ∈ ids') → publish A ids = publish A ids'.
Proof.
  intros Hi. unfold publish, with_pend. f_equal. apply map_eq. intros id.
  pose proof (lookup_publish A ids id) as E1. pose proof (lookup_publish A ids' id) as E2. cbn in E1, E2. rewrite E1, E2.
  destruct (pend A !! id) eqn:E; [|by repeat case_decide]. specialize (Hi id). rewrite E in Hi.
  repeat case_decide; naive_solver.
Qed.

Lemma publish_none A ids : (∀ id, id ∈ ids → pend A !! id = None) → publish A ids = A.
Proof.
  intros Hn. destruct A. unfold publish, with_pend. cbn in *. f_equal. apply map_filter_id. cbn. intros i x Hx Hin.
  by rewrite Hn in Hx.
Qed.

Lemma elem_of_ordered_ids ids id : id ∈ ordered_ids ids ↔ id ∈ ids.
Proof. unfold ordered_ids. by rewrite merge_sort_Permutation, elem_of_remove_dups. Qed.
Lemma NoDup_ordered_ids ids : NoDup (ordered_ids ids).
Proof. unfold ordered_ids. rewrite merge_sort_Permutation. apply NoDup_remove_dups. Qed.

Lemma match_nonempty {B C} (l : list B) (x y : C) : l ≠ [] → match l with [] => x | _ => y end = y.
Proof. by destruct l. Qed.

Definition publish_clean (ids : list (list Z)) : Prop :=
  Z.of_nat (length ids) ≤ 256 ∧ forallb ValidEventId ids = true ∧ writes_succeed outcome.

(** How many of some events are pending. *)
Definition published A (ids : list (list Z)) : Z :=
  Z.of_nat (base.size (pend A)) - Z.of_nat (base.size (pend (publish A ids))).

Lemma publish_spec s A ids s' r :
  good s A → slots s = [] →
  MarkEventsPublished outcome ids s = (s', r) →
  r = MkMutation kSucceeded (published A ids) [] ∧ good s' (publish A ids) ∧ slots s' = [] ∨
  (m_status r ≠ kSucceeded ∧ m_affected_rows r = 0 ∧ ¬ publish_clean ids ∧
   (good s' A ∧ slots s' = [] ∨ broken s' (λ B, B = A ∨ B = publish A ids))).
Proof.
  intros Hg Hsl Hcall. pose proof Hg as [[_ _ HR Hwf _ _ Hfr _] _].
  eapply (Call_spec _ _ s A
    (λ r s', r = MkMutation kSucceeded (published A ids) [] ∧ good s' (publish A ids) ∧ slots s' = [])
    (λ ex s', fails ex ∧ ¬ publish_clean ids ∧ (s' = s ∨ broken s' (λ B, B = A ∨ B = publish A ids))))
    in Hcall; [|done|done|].
  { destruct Hcall as [?|(ex & s1 & (Hfl & Hn & Hs1) & -> & ->)]; [by left|]. right. split_and!; [done..|].
    destruct Hs1 as [->|Hbr]; [left|right; eapply broken_frame; [apply unwound_core|done]].
    split; [by apply unwound_good; [lia|]|done]. }
  apply wp_bind, wp_require; intros Hb; cycle 1.
  { split_and!; [done| |by left]. apply Z.leb_gt in Hb. intros (? & _). lia. }
  apply wp_bind, wp_CheckEventIds; [|intros ex Hf Hv; split_and!; [done|by intros (_ & ? & _); congruence|by left]]. intros _.
  apply wp_bind, wp_gets. cbv zeta.
  assert (Hel : ∀ id, id ∈ filter (λ id, is_Some (db_get (db s) (EventKey id))) (ordered_ids ids) ↔
                      id ∈ ids ∧ is_Some (pend A !! id)).
  { intros id. rewrite list_elem_of_filter, elem_of_ordered_ids. change (EventKey id) with (enc (KE id)).
    rewrite (rep_get _ A) by done. cbn [expected]. tauto. }
  assert (Hnd : NoDup (filter (λ id, is_Some (db_get (db s) (EventKey id))) (ordered_ids ids)))
    by apply list.NoDup_filter, NoDup_ordered_ids.
  set (present := filter _ (ordered_ids ids)) in *.
  assert (Hpub : publish A ids = publish A present) by (apply publish_same; naive_solver).
  assert (Hsize : published A ids = Z.of_nat (length present)).
  { unfold published. rewrite Hpub. pose proof (size_publish A present Hnd). naive_solver lia. }
  clearbody present. destruct (decide (present = [])) as [->|Hne].
  { apply wp_ret. rewrite Hsize, Hpub, publish_none; [done|]. by intros id ?%elem_of_nil. }
  rewrite (match_nonempty present) by done.
  apply wp_bind, (wp_WriteAsync s A (pend (publish A ids))).
  - apply Hg.
  - apply map_filter_subseteq.
  - rewrite Hpub. pose proof (rep_publish (db s) A present HR) as Hrep. unfold enc_ops in Hrep.
    rewrite <- list_fmap_compose in Hrep. exact Hrep.
  - intros s1 Hc1 He1. apply (wp_erase s1 (pend A) (pend (publish A ids))).
    + eapply events_frame; [done|]. apply Hg.
    + destruct He1 as (_ & -> & _). done.
    + done.
    + rewrite Hpub. apply size_publish; naive_solver.
    + intros id'. rewrite Hpub. apply lookup_publish.
    + intros s2 Hc2 He2 Hs2. wps. rewrite Hsize. split_and!; [done| |done].
      apply (good_frame s2); [done|done|]. split; [by eapply core_frame|done].
  - intros ex s1 Hf Ho Hbr. split_and!; [done|by intros (_ & _ & Hw)|]. by right.
Qed.

(** ** Requeueing *)

Definition requeue_one A (id : list Z) : Contents :=
  match failed A !! id, copies A !! id with
  | Some _, Some raw => requeue_event A id raw
  | _, _ => A
  end.
Definition requeue_all A (ids : list (list Z)) : Contents := foldl requeue_one A (ordered_ids ids).

(** How many of some events have failed. *)
Definition failures A (ids : list (list Z)) : Z :=
  Z.of_nat (length (filter (λ id, is_Some (failed A !! id)) (ordered_ids ids))).

(** The loop has requeued some events: the contents are still [A], the batch leads to [B]. *)
Record requeuing s A B (ops : list (Key * option (list Z))) : Prop := {
  rq_good : good s A;
  rq_rep : Rep (db_write (db s) (enc_ops ops)) B;
  rq_wf : wf B;
  rq_msgs : msgs B = msgs A ∧ high B = high A;
  rq_size : base.size (pend B) = (base.size (pend A) + length (slots s))%nat;
  rq_index : pending_index_enabled s = true →
    ∀ id, is_Some (pend B !! id) ↔ is_Some (pend A !! id) ∨ id ∈ slot_ids (slots s);
  rq_slots : ∀ id, id ∈ slot_ids (slots s) → is_Some (pend B !! id);
}.

Lemma requeuing_step s s' A B ops id raw t :
  requeuing s A B ops → failed B !! id = Some t → copies B !! id = Some raw →
  Z.of_nat (base.size (pend B)) + 1 < 2 ^ 64 - 1 →
  good s' A → db s' = db s → pending_index_enabled s' = pending_index_enabled s →
  slots s' = slots s ++ [if pending_index_enabled s then Some id else None] →
  requeuing s' A (requeue_event B id raw) (ops ++ [(KE id, Some raw); (KF id, None)]).
Proof.
  intros [Hg HR Hwf Hm Hsz Hix Hsl] Hf Hc Hroom Hg' Hdb Hen Hs'.
  destruct (wf_failed B Hwf id t Hf) as (Hp & _). split; rewrite ?Hdb, ?Hen, ?Hs'.
  - done.
  - rewrite enc_ops_app. by apply rep_app, rep_requeue_event.
  - by eapply wf_requeue_event.
  - done.
  - cbn [requeue_event pend]. rewrite map_size_insert_None, length_app by done. cbn [length]. lia.
  - intros Hon id'. cbn [requeue_event pend]. rewrite Hon, slot_ids_app.
    change (slot_ids [Some id]) with [id]. rewrite elem_of_app, list_elem_of_singleton, lookup_insert_is_Some', (Hix Hon).
    split; [intros [->|[?|?]]; auto|intros [?|[?| ->]]; auto].
  - intros id'. cbn [requeue_event pend]. rewrite slot_ids_app, elem_of_app, lookup_insert_is_Some'.
    intros [?|Hin]; [right; by apply Hsl|]. destruct (pending_index_enabled s); [|by apply elem_of_nil in Hin].
    apply list_elem_of_singleton in Hin. by left.
Qed.

Lemma requeue_one_other B id id' : id ≠ id' → failed (requeue_one B id) !! id' = failed B !! id'.
Proof.
  intros Hne. unfold requeue_one. destruct (failed B !! id) eqn:E; [|done]. destruct (copies B !! id); [|done].
  cbn. by apply lookup_delete_ne.
Qed.
Lemma requeue_one_copies B id : copies (requeue_one B id) = copies B.
Proof. unfold requeue_one. by destruct (failed B !! id), (copies B !! id). Qed.

Lemma wp_RequeueLoop A (ids : list (list Z)) : ∀ s B ops rows Q E,
  config_ok options → requeuing s A B ops → NoDup ids →
  copies B = copies A → (∀ id, id ∈ ids → failed B !! id = failed A !! id) →
  (∀ s' ops', requeuing s' A (foldl requeue_one B ids) ops' →
     Q (enc_ops ops', rows + Z.of_nat (length (filter (λ id, is_Some (failed A !! id)) ids))) s') →
  (∀ ex s', fails ex → max_pending_events options <
       pending_events s + Z.of_nat (length (filter (λ id, is_Some (failed A !! id)) ids)) → good s' A → E ex s') →
  wp (RequeueLoop options ids (enc_ops ops) rows) Q E s.
Proof.
  induction ids as [|id ids IH]; intros s B ops rows Q E Hcfg Hrq Hnd Hcop Hfl HQ HE.
  { apply wp_ret. rewrite Z.add_0_r in HQ. by apply HQ. }
  apply list.NoDup_cons in Hnd as [Hid Hnd]. pose proof Hrq as [Hg HRB HwfB _ Hsz _ Hslots].
  pose proof Hg as [[_ _ HR Hwf _ _ _ _] Hevs]. cbn [RequeueLoop foldl] in *.
  assert (Hfid : failed B !! id = failed A !! id) by (apply Hfl; left).
  assert (Hother : ∀ id', id' ∈ ids → failed (requeue_one B id) !! id' = failed A !! id').
  { intros id' Hin. rewrite requeue_one_other by (by intros ->). apply Hfl. by right. }
  apply wp_bind. eapply wp_value; [by apply (Get_enc s A HR (KF id))|]. cbn [expected].
  rewrite list.filter_cons in HQ, HE. destruct (failed A !! id) as [t|] eqn:Hf.
  - rewrite decide_True in HQ, HE by eauto. cbn [length] in HQ, HE.
    destruct (wf_failed A Hwf id t Hf) as (Hp & raw & Hc & data & reason & at_ & Hpa & Hat & _).
    destruct (wf_copies A Hwf id raw Hc) as [ev Hev].
    assert (Hone : requeue_one B id = requeue_event B id raw) by by unfold requeue_one; rewrite Hfid, Hcop, Hc.
    rewrite Hpa. apply wp_bind, wp_ret. rewrite Hat. apply wp_bind, wp_ret.
    apply wp_bind. eapply wp_value; [apply Hev|].
    apply wp_bind. eapply wp_value; [by apply (Get_enc s A HR (KE id))|]. cbn [expected]. rewrite Hp.
    apply wp_bind, wp_require; [intros _|done].
    apply wp_bind, (wp_NewSlot options s A); [done|done| |].
    2: { intros ex Hx Hmax. apply HE; [done|lia|done]. }
    intros s1 Hg1 Hs1 Hc1 Hi1 Hp1.
    apply wp_bind, (wp_Prepare s1 A (slots s) id); [done|done|done| |].
    { intros Hin. apply Hslots in Hin as [? Hin]. destruct (wf_failed B HwfB id t Hfid) as (Hn & _). congruence. }
    intros s2 Hg2 Hc2 Hi2 Hp2 Hs2.
    assert (Hpe : pending_events s2 = pending_events s + 1).
    { destruct Hg2 as [_ [He2 _ _ _ _]]. destruct Hevs as [He0 _ _ _ _]. rewrite He2, He0, Hs2, length_app. cbn [length]. lia. }
    assert (Hrq2 : requeuing s2 A (requeue_event B id raw) (ops ++ [(KE id, Some raw); (KF id, None)])).
    { apply (requeuing_step s _ _ _ _ _ _ t); try done.
      - by rewrite Hcop.
      - destruct Hevs as [He0 _ _ _ _]. destruct Hcfg as [Hcfg _]. lia.
      - destruct Hc1 as (E1 & _), Hc2 as (E2 & _). congruence.
      - congruence.
      - by rewrite Hs2, Hi1. }
    rewrite Hone in HQ, Hother. specialize (IH s2 (requeue_event B id raw) _ (rows + 1) Q E Hcfg Hrq2 Hnd).
    rewrite enc_ops_app in IH. apply IH; [done|exact Hother| |].
    + intros s' ops' Hr'. replace (rows + 1 + _) with (rows + Z.of_nat (S (length (filter (λ id, is_Some (failed A !! id)) ids)))) by lia. by apply HQ.
    + intros ex s' Hx Hmax Hg'. apply HE; [done|lia|done].
  - assert (Hone : requeue_one B id = B) by by unfold requeue_one; rewrite Hfid.
    rewrite decide_False in HQ, HE by (by intros [? ?]). rewrite Hone in HQ, Hother.
    by apply (IH s B ops rows).
Qed.

Definition requeue_clean A s (ids : list (list Z)) : Prop :=
  Z.of_nat (length ids) ≤ 256 ∧ forallb ValidEventId ids = true ∧
  pending_events s + failures A ids ≤ max_pending_events options ∧ writes_succeed outcome.

Lemma requeue_none A ids : (∀ id, id ∈ ids → failed A !! id = None) → foldl requeue_one A ids = A.
Proof.
  induction ids as [|id ids IH]; intros Hn; [done|]. cbn [foldl].
  assert (requeue_one A id = A) as -> by (unfold requeue_one; by rewrite (Hn id (list_elem_of_here _ _))). apply IH. intros; apply Hn; by right.
Qed.

Lemma requeue_spec s A ids s' r :
  config_ok options → good s A → slots s = [] →
  RequeueFailedEvents options outcome ids s = (s', r) →
  r = MkMutation kSucceeded (failures A ids) [] ∧ good s' (requeue_all A ids) ∧ slots s' = [] ∨
  (m_status r ≠ kSucceeded ∧ m_affected_rows r = 0 ∧ ¬ requeue_clean A s ids ∧
   (good s' A ∧ slots s' = [] ∨ broken s' (λ B, B = A ∨ B = requeue_all A ids))).
Proof.
  intros Hcfg Hg Hsl Hcall. pose proof Hg as [[_ _ HR Hwf _ _ Hfr _] _].
  eapply (Call_spec _ _ s A
    (λ r s', r = MkMutation kSucceeded (failures A ids) [] ∧ good s' (requeue_all A ids) ∧ slots s' = [])
    (λ ex s', fails ex ∧ ¬ requeue_clean A s ids ∧ (good s' A ∨ broken s' (λ B, B = A ∨ B = requeue_all A ids))))
    in Hcall; [|done|done|].
  { destruct Hcall as [?|(ex & s1 & (Hfl & Hn & Hs1) & -> & ->)]; [by left|]. right. split_and!; [done..|].
    destruct Hs1 as [Hg1|Hbr]; [left|right; eapply broken_frame; [apply unwound_core|done]].
    split; [by apply unwound_good; [lia|]|done]. }
  apply wp_bind, wp_require; intros Hb; cycle 1.
  { split_and!; [done| |by left]. apply Z.leb_gt in Hb. intros (? & _). lia. }
  apply wp_bind, wp_CheckEventIds; [|intros ex Hf Hv; split_and!; [done|by intros (_ & ? & _); congruence|by left]]. intros _.
  apply wp_bind, (wp_RequeueLoop A (ordered_ids ids) s A [] 0); [done| |apply NoDup_ordered_ids|done|done| |].
  { split; rewrite ?Hsl; try done.
    - apply (rep_write _ A); done.
    - intros _ id. cbn. rewrite elem_of_nil. tauto.
    - intros id ?%elem_of_nil. done. }
  2: { intros ex s1 Hf Hmax Hg1. split_and!; [done| |by left]. intros (_ & _ & Hm & _). unfold failures in Hm. lia. }
  intros s1 ops Hrq. fold (failures A ids) (requeue_all A ids) in *. rewrite Z.add_0_l. cbn [fst snd].
  destruct Hrq as [Hg1 HR1 Hwf1 [Hm1 Hh1] Hsz1 Hix1 _]. destruct (Z.eqb_spec (failures A ids) 0) as [Hz|Hz].
  - assert (Hsame : requeue_all A ids = A).
    { apply requeue_none. intros id Hin. destruct (failed A !! id) as [t|] eqn:Hf; [|done]. exfalso.
      assert (id ∈ filter (λ id, is_Some (failed A !! id)) (ordered_ids ids)) as Hx
        by (apply list_elem_of_filter; rewrite Hf; eauto).
      unfold failures in Hz. destruct (filter _ (ordered_ids ids)); [by apply elem_of_nil in Hx|]. cbn [length] in Hz. lia. }
    apply wp_ret. rewrite Hz. split_and!; [done|by rewrite Hsame|]. rewrite Hsame in Hsz1. apply length_zero_iff_nil. lia.
  - apply (wp_commit outcome s1 A (requeue_all A ids)); [done|done|done|done| | |done| |].
    + rewrite Hm1. intros mid m. apply Hg1.
    + lia.
    + intros s2 Hg2 Hs2. wps. split_and!; [done|by apply (good_frame s2)|done].
    + intros ex s2 Hf Hw Hbr. split_and!; [done|by intros (_ & _ & _ & ?)|by right].
Qed.

End Events.
