(* ===== verification/LocalStorePages.v ===== *)
(** * Pages of events

    A page of pending events is taken from the index in memory or, without the index,
    from an iterator of the engine.  Both are the page of the contents ([page_of]):
    the first identities after the cursor in order, the held ones skipped, each event
    as it was stored.  Also the page of failed events. *)
From Stdlib Require Import ZArith Lia String.
From stdpp Require Import base list numbers sorting option gmap.
From S2P Require Import Prelude ByteStrings MessageTypes KeyValueEngine DomainEvents LocalPrivateStore LocalStoreKeys LocalStoreModel LocalStoreInvariant LocalStoreChanges LocalStoreSteps LocalStoreQueries LocalStoreEvents.

Local Open Scope Z_scope.
Local Open Scope width_scope.

(** ** Ordered identities *)

#[export] Instance ble_transitive : Transitive ble.
Proof. intros a b c. apply ble_trans. Qed.
#[export] Instance ble_total : Total ble.
Proof. intros a b. destruct (decide (ble a b)) as [?|?%not_ble]; [by left|right; by apply blt_ble]. Qed.

Lemma sorted_ids (l : list (list Z)) : NoDup l → StronglySorted blt (merge_sort ble l).
Proof.
  intros Hnd. assert (Hs : StronglySorted ble (merge_sort ble l)) by (apply (StronglySorted_merge_sort ble)).
  assert (Hnd' : NoDup (merge_sort ble l)) by by rewrite merge_sort_Permutation.
  induction Hs as [|x l' Hs IH Hx]; [constructor|]. apply list.NoDup_cons in Hnd' as [Hn Hnd'].
  apply StronglySorted_cons. split; [|by apply IH]. rewrite list.Forall_forall in Hx |- *. intros y Hy.
  destruct (proj1 (ble_blt x y) (Hx y Hy)) as [->|?]; done.
Qed.

(** The keys of a map after a cursor, in order. *)
Definition keys_after {V} (after : list Z) (p : gmap (list Z) V) : list (list Z) :=
  merge_sort ble (filter (λ id, blt after id ∨ after = []) (map_to_list p).*1).

Lemma elem_of_keys_after {V} (after : list Z) (p : gmap (list Z) V) (id : list Z) :
  id ∈ keys_after after p ↔ is_Some (p !! id) ∧ (blt after id ∨ after = []).
Proof.
  unfold keys_after. rewrite merge_sort_Permutation, list_elem_of_filter, list_elem_of_fmap. split.
  - intros [Ha ([k v] & -> & Hin%elem_of_map_to_list)]. eauto.
  - intros [[v Hv] Ha]. split; [done|]. exists (id, v). split; [done|]. by apply elem_of_map_to_list.
Qed.

Lemma keys_after_sorted {V} (after : list Z) (p : gmap (list Z) V) : StronglySorted blt (keys_after after p).
Proof. apply sorted_ids, list.NoDup_filter, NoDup_fst_map_to_list. Qed.

Lemma keys_after_ready (after : list Z) (p : gmap (list Z) (list Z)) : ready_after after ((λ _, true) <$> p) = keys_after after p.
Proof.
  apply (sorted_unique blt); [apply blt_asym| |apply keys_after_sorted|].
  - unfold ready_after. apply sorted_ids, list.NoDup_filter.
    apply (sublist_NoDup _ (map_to_list ((λ _, true) <$> p)).*1); [apply NoDup_fst_map_to_list|].
    apply fmap_sublist, sublist_filter.
  - intros id. rewrite elem_of_keys_after. unfold ready_after.
    rewrite merge_sort_Permutation, list_elem_of_filter, list_elem_of_fmap. split.
    + intros [Ha ([k v] & -> & [_ Hin%elem_of_map_to_list]%list_elem_of_filter)].
      rewrite lookup_fmap_Some in Hin. naive_solver.
    + intros [[v Hv] Ha]. split; [done|]. exists (id, true). split; [done|]. apply list_elem_of_filter.
      split; [done|]. apply elem_of_map_to_list. by rewrite lookup_fmap, Hv.
Qed.

Section Pages.
Context {D : Type} `{EngineLaws D} `{JsonLaws}.
Variable options : LocalPrivateStoreOptions.
Implicit Types (s : Store D) (A : Contents).

(** A state that differs in counters only. *)
Definition quiet s s' : Prop := same_core s s' ∧ same_events s s'.

Lemma quiet_refl s : quiet s s.
Proof. done. Qed.
Lemma quiet_count s s' f : quiet s s' → quiet s (set_stats f s').
Proof. done. Qed.
Lemma quiet_good s s' A : quiet s s' → good s A → good s' A.
Proof. intros [? ?]. by apply good_frame. Qed.

(** ** Pending events *)

Definition is_held (held : option (list (list Z))) (id : list Z) : bool :=
  match held with Some ids => bool_decide (id ∈ ids) | None => false end.

(** The event an identity has in the contents. *)
Definition event_of A (id : list Z) (e : PendingLocalEvent) : Prop :=
  ∃ t, copies A !! id = Some t ∧ ∀ (T : Type) (s : Store T), DecodeEvent t id s = (s, inr e).

(** What examining some identities adds to a result. *)
Definition examined A held (ids : list (list Z)) (out r : LocalEventsResult) : Prop :=
  ∃ evs, Forall2 (event_of A) (filter (λ id, is_held held id = false) ids) evs ∧
  r = MkEvents (le_status out) (le_events out ++ evs) (le_message out) (le_examined_events out + Z.of_nat (length ids))
        (default (le_last_examined_event_id out) (last ids)).

Lemma examined_nil A held out : examined A held [] out out.
Proof. exists []. split; [constructor|]. destruct out. cbn. by rewrite app_nil_r, Z.add_0_r. Qed.

Lemma last_cons_default {B} (x y : B) l : default y (last (x :: l)) = default x (last l).
Proof. by destruct l as [|z l]; [|cbn; destruct (last (z :: l)) eqn:E; [|by apply last_None in E]]. Qed.

Lemma examined_cons A held id ids out r :
  (is_held held id = true ∧ examined A held ids (examine held id out).1 r ∨
   is_held held id = false ∧ ∃ e, event_of A id e ∧ examined A held ids (add_event e (examine held id out).1) r) →
  examined A held (id :: ids) out r.
Proof.
  intros [[Hh (evs & Hevs & ->)]|(Hh & e & He & evs & Hevs & ->)]; unfold examined; rewrite list.filter_cons, Hh.
  - rewrite decide_False by done. exists evs. split; [done|].
    cbn [examine fst le_status le_events le_message le_examined_events le_last_examined_event_id length].
    rewrite last_cons_default. f_equal. lia.
  - rewrite decide_True by done. exists (e :: evs). split; [by constructor|].
    cbn [examine add_event fst le_status le_events le_message le_examined_events le_last_examined_event_id length].
    rewrite last_cons_default, <- app_assoc. f_equal. lia.
Qed.

(** The page of the contents. *)
Definition page_of A (after : list Z) (limit : Z) held (r : LocalEventsResult) : Prop :=
  examined A held (take (Z.to_nat limit) (keys_after after (pend A))) (no_events kSucceeded []) r.

Lemma event_of_unique A id e e' : event_of A id e → event_of A id e' → e = e'.
Proof.
  intros (t & Ht & He) (t' & Ht' & He'). rewrite Ht in Ht'. injection Ht' as <-.
  set (u := MkStore tt false [] false false false 0 false ∅ [] 0 0 ∅ 0 false 0 (λ _, 0)).
  specialize (He unit u). specialize (He' unit u). rewrite He in He'. by injection He'.
Qed.

Lemma page_unique A after limit held r r' : page_of A after limit held r → page_of A after limit held r' → r = r'.
Proof.
  intros (evs & Hevs & ->) (evs' & Hevs' & ->). do 2 f_equal. revert evs' Hevs'.
  induction Hevs as [|id e l evs He Hevs IH]; intros evs' Hevs'; [by inversion Hevs'|].
  inversion Hevs' as [|? e' ? evs'' He' Hevs'']; subst. f_equal; [by eapply event_of_unique|by apply IH].
Qed.

Lemma pend_event A id t : wf A → pend A !! id = Some t → ∃ e, (∀ (T : Type) (s : Store T), DecodeEvent t id s = (s, inr e)) ∧ event_of A id e.
Proof.
  intros Hwf Hp. pose proof (lookup_weaken _ _ _ _ Hp (wf_pend A Hwf)) as Hc.
  destruct (wf_copies A Hwf id t Hc) as [e He]. exists e. split; [done|]. by exists t.
Qed.

Lemma wp_PageFromIndex s A held ids E : ∀ s1 out,
  good s A → quiet s s1 → (∀ id, id ∈ ids → is_Some (pend A !! id)) →
  wp (PageFromIndex held ids out) (λ r s', quiet s s' ∧ examined A held ids out r) E s1.
Proof.
  induction ids as [|id ids IH]; intros s1 out Hg Hq Hin; [apply wp_ret; split; [done|apply examined_nil]|].
  assert (Hin' : ∀ id, id ∈ ids → is_Some (pend A !! id)) by (intros; apply Hin; by right).
  pose proof (quiet_good _ _ _ Hq Hg) as [[_ _ HR1 Hwf _ _ _ _] _].
  destruct (Hin id) as [t Ht]; [left|]. destruct (pend_event A id t Hwf Ht) as (e & He & Hev).
  cbn [PageFromIndex]. destruct (examine held id out) as [out1 skipped] eqn:Hex.
  assert (Hout : (examine held id out).1 = out1) by by rewrite Hex.
  assert (Hsk : skipped = is_held held id) by by (injection Hex as _ <-). destruct skipped.
  - apply wp_bind, wp_count. eapply wp_mono; [by apply IH| |done].
    intros r s' [Hq' Hr]. split; [done|]. apply examined_cons. left. by rewrite Hout.
  - apply wp_bind. eapply wp_value; [by apply (Get_enc s1 A HR1 (KE id))|]. cbn [expected]. rewrite Ht.
    apply wp_bind, wp_count, wp_bind. eapply wp_value; [apply He|].
    eapply wp_mono; [by apply IH| |done].
    intros r s' [Hq' Hr]. split; [done|]. apply examined_cons. right. rewrite Hout. eauto.
Qed.

Lemma wp_PageFromScan s A held ids E : ∀ s1 limit out,
  wf A → quiet s s1 → (∀ id, id ∈ ids → is_Some (pend A !! id)) →
  wp (PageFromScan held limit ((λ id, (EventKey id, default [] (pend A !! id))) <$> ids) out)
     (λ r s', quiet s s' ∧ examined A held (take limit ids) out r) E s1.
Proof.
  induction ids as [|id ids IH]; intros s1 limit out Hwf Hq Hin.
  { destruct limit; (apply wp_ret; split; [done|apply examined_nil]). }
  destruct limit as [|limit]; [apply wp_ret; split; [done|apply examined_nil]|].
  assert (Hin' : ∀ id, id ∈ ids → is_Some (pend A !! id)) by (intros; apply Hin; by right).
  destruct (Hin id) as [t Ht]; [left|]. destruct (pend_event A id t Hwf Ht) as (e & He & Hev).
  rewrite fmap_cons. cbn [PageFromScan take]. rewrite Ht. cbn [from_option Datatypes.id]. change (drop 2 (EventKey id)) with id.
  destruct (examine held id out) as [out1 skipped] eqn:Hex.
  assert (Hout : (examine held id out).1 = out1) by by rewrite Hex.
  assert (Hsk : skipped = is_held held id) by by (injection Hex as _ <-). destruct skipped.
  - apply wp_bind, wp_count. eapply wp_mono; [by apply IH| |done].
    intros r s' [Hq' Hr]. split; [done|]. apply examined_cons. left. by rewrite Hout.
  - apply wp_bind, wp_count, wp_bind. eapply wp_value; [apply He|].
    eapply wp_mono; [by apply IH| |done].
    intros r s' [Hq' Hr]. split; [done|]. apply examined_cons. right. rewrite Hout. eauto.
Qed.

(** The entries of a family of events after a cursor. *)
Lemma event_entries (d : D) A (p : list Z) (key : list Z → Key) (V : gmap (list Z) (list Z)) (after : list Z) :
  Rep d A → (∀ id, enc (key id) = p ++ id ∧ wf_key (key id) ∧ expected A (key id) = V !! id) →
  (∀ k, wf_key k → p `prefix_of` enc k → ∃ id, k = key id) →
  take_while (λ e, starts_with p e.1)
    (if bempty after then db_seek d (p ++ after) else skip_start (p ++ after) (db_seek d (p ++ after))) =
  (λ id, (p ++ id, default [] (V !! id))) <$> keys_after after V.
Proof.
  intros HR Hkey Hpre.
  assert (Hes : ∃ es, es = take_while (λ e, starts_with p e.1)
    (if bempty after then db_seek d (p ++ after) else skip_start (p ++ after) (db_seek d (p ++ after))) ∧
    StronglySorted (λ x y, blt x.1 y.1) es ∧
    ∀ k v, (k, v) ∈ es ↔ p `prefix_of` k ∧ (blt (p ++ after) k ∨ after = []) ∧ db_get d k = Some v).
  { eexists; split; [done|]. destruct after as [|c after]; cbn [bempty].
    - rewrite app_nil_r. split; [apply take_while_sorted, seek_sorted|]. intros k v.
      change (take_while _ _) with (scan d p p). rewrite elem_of_scan by apply ble_refl. split; [tauto|].
      intros (Hp & _ & Hv). split_and!; [done|by apply ble_prefix|done].
    - destruct (seek_after d p (c :: after)) as [Hs He]. split; [done|]. intros k v. rewrite He. naive_solver. }
  destruct Hes as (es & <- & Hs & He).
  apply (sorted_unique (λ x y, blt x.1 y.1)); [intros ? ?; apply blt_asym|done| |].
  - apply (sorted_fmap _ _ blt); [|apply keys_after_sorted]. intros x y _ _ Hxy. cbn. by apply blt_app.
  - intros [k v]. rewrite He, (HR k v), list_elem_of_fmap. setoid_rewrite elem_of_keys_after. split.
    + intros (Hp & Hlt & k0 & Hwk & -> & Hv). destruct (Hpre k0 Hwk Hp) as [id ->].
      destruct (Hkey id) as (Henc & _ & Hex). rewrite Henc in *. rewrite Hex in Hv. exists id. rewrite Hv.
      split; [done|]. split; [eauto|]. destruct Hlt as [Hlt|?]; [left; by apply blt_app in Hlt|by right].
    + intros (id & E & [v' Hv'] & Hlt). destruct (Hkey id) as (Henc & Hwk & Hex). rewrite Hv' in E. injection E as -> ->.
      split; [by eexists|]. split; [destruct Hlt; [left; by apply blt_app|by right]|].
      exists (key id). by rewrite Henc, Hex.
Qed.

Definition page_clean (after : list Z) (limit : Z) (held : option (list (list Z))) : Prop :=
  0 < limit ≤ 256 ∧ (after = [] ∨ ValidEventId after = true) ∧
  match held with Some ids => Z.of_nat (length ids) ≤ 256 | None => True end.

Lemma take_keys_after (after : list Z) (limit : nat) (p : gmap (list Z) (list Z)) (id : list Z) :
  id ∈ take limit (keys_after after p) → is_Some (p !! id).
Proof. intros Hin%elem_of_take. destruct Hin as (i & Hi & _). apply list_elem_of_lookup_2, elem_of_keys_after in Hi. tauto. Qed.

Lemma page_spec s A after limit held s' r :
  good s A → slots s = [] →
  ListPendingEventPage options after limit held s = (s', r) →
  quiet s s' ∧ page_of A after limit held r ∨
  (quiet s s' ∧ le_status r ≠ kSucceeded ∧ ¬ page_clean after limit held).
Proof.
  intros Hg Hsl Hcall. pose proof Hg as [[_ _ HR Hwf _ _ _ _] [Hev _ _ _ Hix]].
  eapply (Call_spec _ _ s A (λ r s', quiet s s' ∧ page_of A after limit held r)
    (λ ex s', s' = s ∧ fails ex ∧ ¬ page_clean after limit held)) in Hcall; [|done|done|].
  { destruct Hcall as [?|(ex & s1 & (-> & Hfl & Hn) & -> & ->)]; [by left|]. right. split_and!; [|done..].
    destruct s. cbn in Hsl. subst. done. }
  apply wp_bind, wp_require; intros Hl; cycle 1.
  { split_and!; [done..|]. intros ([? ?] & _). apply not_true_iff_false in Hl. apply Hl.
    rewrite andb_true_iff, Z.ltb_lt, Z.leb_le. lia. }
  apply wp_bind. assert (Hid : ∀ Q : () → Store D → Prop, Q tt s →
    wp (if bempty after then mret tt else EventId after) Q (λ ex s', s' = s ∧ fails ex ∧ ¬ page_clean after limit held) s).
  { intros Q HQ. destruct after as [|c after']; cbn [bempty]; [by apply wp_ret|]. apply wp_EventId; [done|].
    intros ex Hf Hv. split_and!; [done..|]. intros (_ & [?|?] & _); congruence. }
  apply Hid. clear Hid. apply wp_bind, wp_require; intros Hh; cycle 1.
  { split_and!; [done..|]. intros (_ & _ & Hh'). destruct held; [|done]. apply Z.leb_gt in Hh. lia. }
  apply wp_bind, wp_gets. cbv zeta. rewrite Hsl in Hev. cbn [length] in Hev. apply wp_if; intros Hguard.
  { apply andb_true_iff in Hguard as [_ Hz%Z.eqb_eq]. apply wp_bind, wp_count, wp_ret. split; [done|].
    assert (pend A = ∅) as Hpe by (apply map_size_empty_inv; lia). unfold page_of. rewrite Hpe.
    assert (keys_after after (∅ : gmap (list Z) (list Z)) = []) as ->; [|rewrite take_nil; apply examined_nil].
    unfold keys_after. rewrite map_to_list_empty. done. }
  destruct (pending_index_enabled s) eqn:Hon.
  - apply wp_bind, wp_count. rewrite (Hix eq_refl), Hsl. cbn [slot_index foldr]. rewrite keys_after_ready.
    apply (wp_PageFromIndex s A); [done|done|]. intros id. apply take_keys_after.
  - apply wp_bind, wp_count. unfold EventKey.
    rewrite (event_entries (db s) A (str "E/") KE (pend A)); [|done|done|intros k; apply prefix_event].
    apply (wp_PageFromScan s A); [done|done|]. intros id Hid%elem_of_keys_after. tauto.
Qed.

(** ** Failed events *)

Definition failed_of A (id : list Z) (f : FailedLocalEvent) : Prop :=
  event_of A id (fe_event f) ∧ is_Some (failed A !! id).

Definition failed_page A (limit : Z) (r : ListResult FailedLocalEvent) : Prop :=
  ∃ fs, Forall2 (failed_of A) (take (Z.to_nat limit) (keys_after [] (failed A))) fs ∧ r = MkList kSucceeded fs [].

Lemma DecodeFailed_ok s A id t :
  wf A → failed A !! id = Some t → ∃ f, failed_of A id f ∧ DecodeFailed t id s = (s, inr f).
Proof.
  intros Hwf Ht. destruct (wf_failed A Hwf id t Ht) as (_ & raw & Hc & data & reason & at_ & Hp & E1 & E2 & E3 & Hr & Hl & Hat).
  destruct (wf_copies A Hwf id raw Hc) as [e He]. exists (MkFailedEvent e reason at_). split.
  { split; [by exists raw|eauto]. }
  unfold DecodeFailed. rewrite Hp, (bind_ok _ _ s s data) by done. rewrite E1, (bind_ok _ _ s s raw) by done.
  rewrite (bind_ok _ _ s s e) by apply He. rewrite E2, (bind_ok _ _ s s reason) by done.
  rewrite E3, (bind_ok _ _ s s at_) by done. rewrite (bind_ok _ _ s s tt); [done|]. apply require_ok.
  rewrite !andb_true_iff, Z.leb_le, Z.eqb_eq. split_and!; [by destruct reason|done|done].
Qed.

Lemma CollectFailed_ok s A ids : ∀ limit,
  wf A → (∀ id, id ∈ ids → is_Some (failed A !! id)) →
  ∃ fs, Forall2 (failed_of A) (take limit ids) fs ∧
  CollectFailed limit ((λ id, (str "F/" ++ id, default [] (failed A !! id))) <$> ids) s = (s, inr fs).
Proof.
  induction ids as [|id ids IH]; intros limit Hwf Hin; [exists []; destruct limit; (split; [constructor|done])|].
  destruct limit as [|limit]; [exists []; split; [constructor|done]|].
  destruct (Hin id) as [t Ht]; [left|]. destruct (DecodeFailed_ok s A id t Hwf Ht) as (f & Hf & Hdec).
  destruct (IH limit Hwf) as (fs & Hfs & Hrest); [intros; apply Hin; by right|].
  exists (f :: fs). split; [by constructor|]. rewrite fmap_cons. cbn [CollectFailed]. rewrite Ht.
  change (drop 2 (str "F/" ++ id)) with id. cbn [from_option Datatypes.id].
  rewrite (bind_ok _ _ _ _ _ Hdec), (bind_ok _ _ _ _ _ Hrest). done.
Qed.

Lemma list_failed_spec s A limit s' r :
  good s A → slots s = [] →
  ListFailedEvents limit s = (s', r) →
  s' = s ∧ (failed_page A limit r ∨ ¬ 0 < limit ≤ 256 ∧ ∃ st m, st ≠ kSucceeded ∧ r = list_failure st m).
Proof.
  intros Hg Hsl. pose proof Hg as [[_ _ HR Hwf _ _ _ _] _].
  apply (Call_query _ _ s A (failed_page A limit)); [done..|].
  apply wp_bind, wp_require; intros Hl; cycle 1.
  { split_and!; [done..|]. intros [? ?]. apply not_true_iff_false in Hl. apply Hl.
    rewrite andb_true_iff, Z.ltb_lt, Z.leb_le. lia. }
  apply wp_bind, wp_gets. pose proof (event_entries (db s) A (str "F/") KF (failed A) []) as Hent.
  cbn [bempty] in Hent. rewrite app_nil_r in Hent. unfold scan. rewrite Hent; [|done|done|intros k; apply prefix_failed].
  destruct (CollectFailed_ok s A (keys_after [] (failed A)) (Z.to_nat limit) Hwf) as (fs & Hfs & Hc).
  { intros id Hid%elem_of_keys_after. tauto. }
  apply wp_bind. eapply wp_value; [exact Hc|]. apply wp_ret. split; [done|]. by exists fs.
Qed.

End Pages.
