(* ===== verification/LocalStoreRecovery.v ===== *)
(** * Opening, flushing and closing the local store

    The constructor on what the engine recovered, the flushes and the shutdown.  Every
    engine state that holds some contents opens to a store that holds them, with its
    identifiers above all that were given out; an empty engine opens to an empty
    store. *)
From Stdlib Require Import ZArith Lia String.
From stdpp Require Import base list numbers sorting option gmap.
From S2P Require Import Prelude ByteStrings MessageTypes KeyValueEngine DomainEvents LocalPrivateStore LocalStoreKeys LocalStoreModel LocalStoreInvariant LocalStoreChanges LocalStoreSteps LocalStorePersist LocalStoreConfirm LocalStoreQueries LocalStoreEvents LocalStorePages.

Local Open Scope Z_scope.
Local Open Scope width_scope.

Section Recovery.
Context {D : Type} `{EngineLaws D} `{JsonLaws}.
Variable options : LocalPrivateStoreOptions.
Variable outcome : Z → WriteOutcome.
Variable flushed : Z → option (list Z).
Implicit Types (s : Store D) (A : Contents).

(** ** Flushes *)

Lemma wp_FlushWAL s A Q E :
  core s A →
  (∀ s', core s' A → same_events s s' → db s' = db s → next_id s' = next_id s → recoverable s' = [db s'] →
     flushed (stats s flush_calls) = None → Q None s') →
  (∀ s' reason, core s' A → same_events s s' → flushed (stats s flush_calls) = Some reason → Q (Some reason) s') →
  wp (FlushWAL flushed) Q E s.
Proof.
  intros Hc HQ HQ'. unfold FlushWAL. apply wp_bind, wp_gets, wp_bind, wp_count. unfold id.
  destruct (flushed (stats s flush_calls)) as [reason|] eqn:Hf.
  - apply wp_ret, HQ'; [by apply (core_frame s)|done|done].
  - apply wp_bind, wp_modify, wp_ret, HQ; [|done..]. destruct Hc as [Ho Hp HR Hwf Hh Hn Hfr Hrec].
    split; cbn; try done. intros d ->%list_elem_of_singleton. by apply recov_self.
Qed.

(** After a successful flush only one state is recoverable; a failed one stops the
    store, with nothing lost. *)
Definition flush_post A s (r : MutationResult) s' (rows : Z) : Prop :=
  r = MkMutation kSucceeded rows [] ∧ good s' A ∧ slots s' = [] ∧ recoverable s' = [db s'] ∨
  m_status r ≠ kSucceeded ∧ broken s' (λ B, B = A) ∧ ∃ n, flushed n ≠ None.

Lemma broken_poison s A : core s A → broken (set_poisoned true s) (λ B, B = A).
Proof.
  intros [Ho Hp HR Hwf Hh Hn Hfr Hrec]. split; [done|]. cbn. intros d [->|Hd]%elem_of_cons; exists A; split; auto.
  by apply recov_self.
Qed.

Lemma wp_flush {R} s A (k : M D R) Q E :
  good s A → slots s = [] →
  (∀ s', good s' A → slots s' = [] → recoverable s' = [db s'] → wp k Q E s') →
  (∀ ex s', fails ex → broken s' (λ B, B = A) → (∃ n, flushed n ≠ None) → E ex s') →
  wp (result ← FlushWAL flushed; PoisonUnflushed result;; CheckFlush result;; k) Q E s.
Proof.
  intros [Hc He] Hsl HQ HE. apply wp_bind, (wp_FlushWAL s A); [done|..].
  - intros s' Hc' He' _ _ Hr _. apply wp_bind, wp_ret, wp_bind, wp_ret, HQ; [|by destruct He' as (_ & -> & _)|done].
    split; [done|by eapply events_frame].
  - intros s' reason Hc' He' Hf. apply wp_bind, wp_modify, wp_bind, wp_throw, HE; [done|by apply broken_poison|].
    exists (stats s flush_calls). by rewrite Hf.
Qed.

Lemma sync_spec s A s' r :
  good s A → slots s = [] → SyncPublicationProgress flushed s = (s', r) → flush_post A s r s' 0.
Proof.
  intros Hg Hsl Hcall. eapply (Call_spec _ _ s A (λ r s', flush_post A s r s' 0)
    (λ ex s', fails ex ∧ broken s' (λ B, B = A) ∧ ∃ n, flushed n ≠ None)) in Hcall; [|done|done|].
  { destruct Hcall as [?|(ex & s1 & (Hfl & Hb & Hn) & -> & ->)]; [done|]. right. split_and!; [done| |done].
    eapply broken_frame; [apply unwound_core|done]. }
  apply (wp_flush s A); [done|done| |done]. intros s1 Hg1 Hs1 Hr1. apply wp_ret. by left.
Qed.

Lemma sync_dirty_spec s A s' r :
  good s A → slots s = [] → SyncPublicationProgressIfDirty flushed s = (s', r) →
  (s' = s ∧ r = MkMutation kSucceeded 0 [] ∧ publication_sync_initialized s = true ∧
   stats s publications = synced_publication_generation s) ∨
  flush_post A s r s' 1.
Proof.
  intros Hg Hsl Hcall. eapply (Call_spec _ _ s A
    (λ r s', (s' = s ∧ r = MkMutation kSucceeded 0 [] ∧ publication_sync_initialized s = true ∧
       stats s publications = synced_publication_generation s) ∨ flush_post A s r s' 1)
    (λ ex s', fails ex ∧ broken s' (λ B, B = A) ∧ ∃ n, flushed n ≠ None)) in Hcall; [|done|done|].
  { destruct Hcall as [?|(ex & s1 & (Hfl & Hb & Hn) & -> & ->)]; [done|]. right. right. split_and!; [done| |done].
    eapply broken_frame; [apply unwound_core|done]. }
  apply wp_bind, wp_gets. cbv zeta. apply wp_if; intros Hb.
  - apply wp_ret. left. apply andb_true_iff in Hb as [? ?%Z.eqb_eq]. done.
  - apply (wp_flush s A); [done|done| |done]. intros s1 Hg1 Hs1 Hr1. apply wp_bind, wp_modify, wp_ret. right. left.
    split_and!; [done| |done|done]. by apply (good_frame s1).
Qed.

(** ** Opening *)

Definition empty_contents (high : Z) : Contents := MkContents ∅ ∅ ∅ ∅ ∅ ∅ ∅ high.

Lemma wf_empty_contents h : 0 ≤ h < 2 ^ 63 - 1 → wf (empty_contents h).
Proof.
  intros Hh. split; cbn [empty_contents msgs canon cids newest pend copies failed high]; try done.
  - intros mid. by rewrite !lookup_empty.
  - intros f c mid. rewrite lookup_empty. split; [done|]. intros (m & Hm & _). by rewrite lookup_empty in Hm.
  - intros a p. rewrite lookup_empty. intros mid m Hm. by rewrite lookup_empty in Hm.
  - intros mid _. rewrite !lookup_empty. split; by intros [? ?].
Qed.

Lemma cnt_none P : cnt P ∅ = 0.
Proof. apply cnt_zero. intros k m Hk. by rewrite lookup_empty in Hk. Qed.

Lemma rep_empty d h :
  (∀ k, db_get d k = None) → Rep (db_write d [(HighKey, Some (Number h))]) (empty_contents h).
Proof.
  intros Hd k v. rewrite get_write. cbn [apply_ops]. rewrite Hd. split.
  - case_decide; [|done]. subst. intros [= <-]. by exists KHigh.
  - intros (key & Hk & -> & Hv).
    destruct key; cbn [expected empty_contents msgs canon cids newest pend copies failed high] in Hv;
      rewrite ?lookup_empty, ?cnt_none in Hv; cbn in Hv; done.
Qed.

(** Where the identifiers of a store may stand for it to open. *)
Definition openable A : Prop := first_message_id options - 1 ≤ high A < 2 ^ 63 - 1 - 4096.

Lemma pending_ids_keys d A : Rep d A → pending_ids d = keys_after [] (pend A).
Proof.
  intros HR. unfold pending_ids, scan. pose proof (event_entries d A (str "E/") KE (pend A) []) as Hent.
  cbn [bempty] in Hent. rewrite app_nil_r in Hent. rewrite Hent; [|done|done|intros k; apply prefix_event].
  rewrite <- list_fmap_compose. etrans; [|apply list_fmap_id]. by apply list_fmap_ext.
Qed.

Lemma keys_all {V} (p : gmap (list Z) V) : keys_after [] p ≡ₚ (map_to_list p).*1.
Proof.
  unfold keys_after. rewrite merge_sort_Permutation. apply NoDup_Permutation.
  - apply list.NoDup_filter, NoDup_fst_map_to_list.
  - apply NoDup_fst_map_to_list.
  - intros x. rewrite list_elem_of_filter. tauto.
Qed.

Lemma index_of_keys (p : gmap (list Z) (list Z)) :
  (list_to_map ((λ id, (id, true)) <$> keys_after [] p) : gmap (list Z) bool) = (λ _, true) <$> p.
Proof.
  apply map_eq. intros id. rewrite lookup_fmap.
  assert (Hnd : NoDup ((λ id, (id, true)) <$> keys_after [] p).*1).
  { rewrite <- list_fmap_compose. rewrite list_fmap_id, keys_all. apply NoDup_fst_map_to_list. }
  destruct (p !! id) as [t|] eqn:Hp; cbn.
  - apply elem_of_list_to_map_1; [done|]. apply list_elem_of_fmap. exists id. split; [done|]. apply elem_of_keys_after.
    rewrite Hp. eauto.
  - apply not_elem_of_list_to_map_1. rewrite <- list_fmap_compose, list_fmap_id. intros [[? ?] _]%elem_of_keys_after. congruence.
Qed.

(** The part of the constructor after the high-water mark is known. *)
Definition Load (last : Z) : M D () :=
  modify (λ s, set_next_id (last + 1) (set_reserved_end last s));;
  d ← gets db;
  let ids := pending_ids d in
  let fits := Z.of_nat (length ids) <=? max_pending_events options in
  modify (λ s, set_pending_events (Z.of_nat (length ids))
    (set_pending_index_enabled (pending_event_index options && fits)
       (set_pending_index
          (if pending_event_index options && fits then list_to_map ((λ id, (id, true)) <$> ids) else ∅) s)));;
  result ← FlushWAL flushed;
  CheckFlush result.

Definition fresh s d : Prop :=
  db s = d ∧ db_open s = true ∧ closing s = false ∧ poisoned s = false ∧ slots s = [] ∧ recoverable s = [d].

Definition opened s A : Prop := good s A ∧ slots s = [] ∧ next_id s = high A + 1 ∧ recoverable s = [db s].

Lemma wp_Load s d A :
  fresh s d → Rep d A → wf A → (∀ n, flushed n = None) →
  wp (Load (high A)) (λ _ s', opened s' A ∧ db s' = d) (λ _ _, False) s.
Proof.
  intros (E1 & E2 & E3 & E4 & E5 & E6) HR Hwf Hfl. pose proof (wf_high A Hwf) as Hh. unfold Load.
  apply wp_bind, wp_modify, wp_bind, wp_gets. cbv zeta. apply wp_bind, wp_modify.
  cbn [set_next_id set_reserved_end db]. rewrite E1, (pending_ids_keys d A HR).
  set (fits := _ <=? _). set (s1 := set_pending_events _ _).
  assert (Hlen : Z.of_nat (length (keys_after [] (pend A))) = Z.of_nat (base.size (pend A))).
  { rewrite keys_all, length_fmap, length_map_to_list. done. }
  assert (Hc1 : core s1 A).
  { split; cbn; rewrite ?E1, ?E6; try done; try lia.
    - intros mid m Hm. destruct (wf_msgs A Hwf mid m Hm) as (_ & ? & _). lia.
    - intros d' ->%list_elem_of_singleton. by apply recov_self. }
  assert (He1 : events_ok s1 (pend A)).
  { pose proof (wf_few A Hwf). split; cbn [s1 set_pending_events set_pending_index_enabled set_pending_index set_next_id
      set_reserved_end pending_events slots pending_index pending_index_enabled]; rewrite ?E5, ?Hlen; cbn [length].
    - lia.
    - lia.
    - constructor.
    - intros id ?%elem_of_nil. done.
    - intros ->. cbn [slot_index foldr]. apply index_of_keys. }
  apply wp_bind, (wp_FlushWAL s1 A); [done| |by intros s2 reason _ _ Hf; rewrite Hfl in Hf].
  intros s2 Hc2 He2 Hdb Hnx Hr _. apply wp_ret. split; [|by rewrite Hdb].
  assert (Hs2 : slots s2 = []) by (destruct He2 as (_ & -> & _); done).
  split; [split; [done|by eapply events_frame]|]. by rewrite Hnx.
Qed.

Definition closed_store (d : D) : Store D :=
  MkStore d true [d] false false false 0 false ∅ [] 0 0
    (if exact_user_locking options then list_to_set (initial_user_ids options) else ∅) 0 false 0 (λ _, 0).

Lemma Recover_wp d Q :
  wp (require (ValidConfig options) kInvalidArgument (str "invalid local store configuration");;
      high ← Get HighKey;
      (match high with
       | None => Write outcome [(HighKey, Some (Number (first_message_id options - 1)))] true
       | Some _ => mret tt
       end);;
      last ← ParseNumber (default (Number (first_message_id options - 1)) high);
      require ((first_message_id options - 1 <=? last) && (last <? 2 ^ 63 - 1 - 4096)) kInvalidRecord
        (str "invalid local MID high-water mark");;
      Load last) (λ _ s', Q (s', inr tt)) (λ e s', Q (s', inl e)) (closed_store d) →
  Q (Recover options outcome flushed d).
Proof.
  unfold wp. intros Hwp.
  match type of Hwp with match ?m with _ => _ end => change (Q m); destruct m as [s' [e|[]]]; exact Hwp end.
Qed.

Lemma first_range : ValidConfig options = true → 1 ≤ first_message_id options < 2 ^ 63 - 1 - 4096.
Proof.
  unfold ValidConfig. rewrite !andb_true_iff. intros Hv.
  destruct Hv as [[[[[[[[[[[[[_ _] Hf] Hf'] _] _] _] _] _] _] _] _] _] _].
  all: apply Z.ltb_lt in Hf, Hf'; lia.
Qed.

(** A store opens on every engine state that holds some contents, and holds them. *)
Lemma recover_spec d A :
  Rep d A → wf A → ValidConfig options = true → openable A → (∀ n, flushed n = None) →
  ∃ s, Recover options outcome flushed d = (s, inr tt) ∧ opened s A ∧ db s = d.
Proof.
  intros HR Hwf Hv [Ho1 Ho2] Hfl. pose proof (first_range Hv) as Hfirst.
  apply Recover_wp. apply wp_bind, wp_require; [intros _|by rewrite Hv].
  apply wp_bind. eapply wp_value; [by apply (Get_enc (closed_store d) A HR KHigh)|]. cbn [expected].
  apply wp_bind, wp_ret. cbn [from_option Datatypes.id].
  apply wp_bind. eapply wp_value; [apply ParseNumber_Number; unfold is_u64; lia|].
  apply wp_bind, wp_require; intros Hb; cycle 1.
  { exfalso. apply not_true_iff_false in Hb. apply Hb. rewrite andb_true_iff, Z.leb_le, Z.ltb_lt. lia. }
  eapply wp_mono; [by apply (wp_Load (closed_store d) d A)| |done].
  intros [] s' [Hop Hdb]. by exists s'.
Qed.

(** A high-water mark out of its range keeps the store shut. *)
Lemma recover_refused d A :
  Rep d A → wf A → ¬ openable A → ∃ s e, Recover options outcome flushed d = (s, inl e) ∧ fails e.
Proof.
  intros HR Hwf Hno. pose proof (wf_high A Hwf).
  apply Recover_wp. apply wp_bind, wp_require; [intros _|by eexists _, _].
  apply wp_bind. eapply wp_value; [by apply (Get_enc (closed_store d) A HR KHigh)|]. cbn [expected].
  apply wp_bind, wp_ret. cbn [from_option Datatypes.id].
  apply wp_bind. eapply wp_value; [apply ParseNumber_Number; unfold is_u64; lia|].
  apply wp_bind, wp_require; intros Hb; [|by eexists _, _].
  exfalso. apply Hno. apply andb_true_iff in Hb as [?%Z.leb_le ?%Z.ltb_lt]. done.
Qed.

(** An empty engine opens to an empty store. *)
Lemma recover_empty d :
  (∀ k, db_get d k = None) → ValidConfig options = true → (∀ n, outcome n = Written) → (∀ n, flushed n = None) →
  ∃ s, Recover options outcome flushed d = (s, inr tt) ∧ opened s (empty_contents (first_message_id options - 1)).
Proof.
  intros Hd Hv Hw Hfl. pose proof (first_range Hv) as Hfirst. set (h := first_message_id options - 1).
  apply Recover_wp. apply wp_bind, wp_require; [intros _|by rewrite Hv].
  apply wp_bind. unfold Get at 1. apply wp_gets. cbn [closed_store db]. rewrite Hd.
  apply wp_bind. unfold Write, WriteDirect. apply wp_bind, wp_gets, wp_bind, wp_require; [intros _|done].
  apply wp_bind, wp_count. rewrite Hw. apply wp_modify. cbn [from_option Datatypes.id].
  apply wp_bind. eapply wp_value; [apply ParseNumber_Number; unfold is_u64; lia|].
  apply wp_bind, wp_require; intros Hb; cycle 1.
  { exfalso. apply not_true_iff_false in Hb. apply Hb. rewrite andb_true_iff, Z.leb_le, Z.ltb_lt. lia. }
  eapply wp_mono; [apply (wp_Load _ (db_write d [(HighKey, Some (Number h))]) (empty_contents h))| |done].
  - done.
  - by apply rep_empty.
  - apply wf_empty_contents. unfold h. lia.
  - done.
  - intros [] s' [Hop _]. by exists s'.
Qed.

(** ** Closing *)

Lemma shutdown_spec s A closed :
  core s A →
  let '(s', clean) := Shutdown flushed closed s in
  db_open s' = false ∧ closing s' = true ∧ db s' = db s ∧
  (∀ d, d ∈ recoverable s' → recov d A) ∧
  (clean = true → recoverable s' = [db s']).
Proof.
  intros [[Ho Hcl] Hp HR Hwf Hh Hn Hfr Hrec]. unfold Shutdown. cbn [set_closing db_open]. rewrite Ho. cbn [negb].
  unfold FlushWAL. rewrite (bind_ok _ _ _ _ (set_closing true s)) by done. unfold count at 1. cbn.
  destruct (flushed (stats s flush_calls)) as [reason|]; cbn.
  - split_and!; [done..|]. intros Hc%andb_true_iff. destruct Hc as [[Hc _]%andb_true_iff _]. done.
  - split_and!; [done..| |done]. intros d ->%list_elem_of_singleton. by apply recov_self.
Qed.

End Recovery.
