(* ===== verification/LocalStoreRuns.v ===== *)
(** * Runs of the local store

    The operations of the store as transitions of its contents ([transition]), and
    what every transition keeps: messages with their identity and content, the
    progress of their delivery, identities, the copies of events, and the duty to
    publish.  A run of operations, whatever writes fail on the way, leaves a store that
    holds contents the transitions lead to, or a store that refuses to go on while
    every state a crash can leave holds such contents. *)
From Stdlib Require Import ZArith Lia String.
From stdpp Require Import base list numbers sorting option gmap.
From S2P Require Import Prelude ByteStrings MessageTypes KeyValueEngine DomainEvents LocalPrivateStore LocalStoreKeys LocalStoreModel LocalStoreInvariant LocalStoreChanges LocalStoreSteps LocalStorePersist LocalStoreBatch LocalStoreSending LocalStoreConfirm LocalStoreQueries LocalStoreRead LocalStoreEvents LocalStorePages LocalStoreRecovery.

Local Open Scope Z_scope.
Local Open Scope width_scope.

(** The operations that change a store, and their answers. *)
Inductive Op :=
  | OpPersist (e : Env) (i : PrivateMessagePersistInput)
  | OpPersists (items : list (PrivateMessagePersistInput * Env))
  | OpConfirm (e : Env) (mid receiver : Z)
  | OpConfirmBatch (e : Env) (mids : list Z)
  | OpConfirmOwned (e : Env) (inputs : list OwnedReceiverConfirmation)
  | OpRead (e : Env) (reader peer : Z)
  | OpFail (e : Env) (id reason : list Z)
  | OpRequeue (ids : list (list Z))
  | OpPublish (ids : list (list Z))
  | OpSync
  | OpSyncIfDirty.

Inductive Answer :=
  | APersist (r : PersistResult) | APersists (rs : list PersistResult)
  | AMutation (r : MutationResult) | AMutations (rs : list MutationResult).

Section Runs.
Context {D : Type} `{EngineLaws D} `{JsonLaws}.
Variable options : LocalPrivateStoreOptions.
Variable outcome : Z → WriteOutcome.
Variable flushed : Z → option (list Z).
Implicit Types (s : Store D) (A B : Contents).

Definition run_op (op : Op) s : Store D * Answer :=
  match op with
  | OpPersist e i => prod_map id APersist (PersistPrivateMessage options outcome e i s)
  | OpPersists items => prod_map id APersists (PersistPrivateMessages options outcome items s)
  | OpConfirm e mid receiver => prod_map id AMutation (ConfirmReceiver options outcome e mid receiver s)
  | OpConfirmBatch e mids => prod_map id AMutation (ConfirmReceiverBatch options outcome e mids s)
  | OpConfirmOwned e inputs => prod_map id AMutations (ConfirmReceiverRequests options outcome e inputs s)
  | OpRead e reader peer => prod_map id AMutation (MarkDialogRead options outcome e reader peer s)
  | OpFail e id_ reason => prod_map id AMutation (MarkEventFailed outcome e id_ reason s)
  | OpRequeue ids => prod_map id AMutation (RequeueFailedEvents options outcome ids s)
  | OpPublish ids => prod_map id AMutation (MarkEventsPublished outcome ids s)
  | OpSync => prod_map id AMutation (SyncPublicationProgress flushed s)
  | OpSyncIfDirty => prod_map id AMutation (SyncPublicationProgressIfDirty flushed s)
  end.

Fixpoint run (ops : list Op) s : Store D :=
  match ops with [] => s | op :: ops => run ops (run_op op s).1 end.

Fixpoint answers (ops : list Op) s : list Answer :=
  match ops with [] => [] | op :: ops => (run_op op s).2 :: answers ops (run_op op s).1 end.

(** The values the types of the source allow, and clocks in their formats. *)
Definition op_typed (op : Op) : Prop :=
  match op with
  | OpPersist e i => input_typed i ∧ env_typed e
  | OpPersists items => Forall item_typed items
  | OpConfirm _ mid receiver => is_u64 mid ∧ is_u64 receiver
  | OpConfirmBatch _ mids => Forall is_u64 mids
  | OpConfirmOwned _ inputs => Forall (λ i, is_u64 (oc_message_id i)) inputs
  | OpRead _ reader peer => is_u64 reader ∧ is_u64 peer
  | OpFail e _ _ => env_typed e
  | _ => True
  end.

(** The event identity a read makes. *)
Definition read_ids (op : Op) : list (list Z) :=
  match op with OpRead e reader peer => [read_id e reader peer] | _ => [] end.

(** ** Transitions *)

Inductive transition : Op → Contents → Contents → Prop :=
  | t_stay op A : transition op A A
  | t_reserve op A B : same_but_high A B → transition op A B
  | t_persist e i A mid text B : with_message options A e i mid text B → transition (OpPersist e i) A B
  | t_persists items A B : sends options items A B → transition (OpPersists items) A B
  | t_confirm e mid receiver A :
      decision A mid receiver = None → transition (OpConfirm e mid receiver) A (confirm_all A (Now e) [mid])
  | t_batch e mids A : transition (OpConfirmBatch e mids) A (confirm_all A (Now e) (pending_in A mids))
  | t_owned e inputs A :
      transition (OpConfirmOwned e inputs) A (confirm_all A (Now e) (owned_pending options A inputs))
  | t_read e reader peer A text :
      copies A !! read_id e reader peer = None → transition (OpRead e reader peer) A (after_read A e reader peer text)
  | t_fail e id reason A B : failed_from A id B → transition (OpFail e id reason) A B
  | t_requeue ids A : transition (OpRequeue ids) A (requeue_all A ids)
  | t_publish ids A : transition (OpPublish ids) A (publish A ids).

Fixpoint transitions (ops : list Op) A B : Prop :=
  match ops with [] => A = B | op :: ops => ∃ C, transition op A C ∧ transitions ops C B end.

(** What an answer of success says about the contents: the messages of sends are there,
    confirmed messages are not pending, a dialog that was read has nothing unread, and
    published or failed events are not pending. *)
Definition acked (op : Op) (a : Answer) B : Prop :=
  match op, a with
  | OpPersist _ _, APersist r => sent_ok B r
  | OpPersists _, APersists rs => Forall (sent_ok B) rs
  | OpConfirm _ mid receiver, AMutation r => m_status r = kSucceeded → confirmed B mid receiver
  | OpConfirmBatch _ mids, AMutation r =>
      m_status r = kSucceeded → ∀ mid, mid ∈ mids → ∃ receiver, confirmed B mid receiver
  | OpConfirmOwned _ inputs, AMutations rs => answers_hold B inputs rs
  | OpRead _ reader peer, AMutation r =>
      m_status r = kSucceeded → ∀ k m, msgs B !! k = Some m → unread_from peer reader m = false
  | OpFail _ id _, AMutation r => m_status r = kSucceeded → pend B !! id = None
  | OpPublish ids, AMutation r => m_status r = kSucceeded → ∀ id, id ∈ ids → pend B !! id = None
  | OpRequeue _, AMutation _ | OpSync, AMutation _ | OpSyncIfDirty, AMutation _ => True
  | _, _ => False
  end.

(** Operations with their answers. *)
Fixpoint history (ops : list Op) (l : list Answer) A B : Prop :=
  match ops, l with
  | [], [] => A = B
  | op :: ops, a :: l => ∃ C, transition op A C ∧ acked op a C ∧ history ops l C B
  | _, _ => False
  end.

Lemma history_transitions ops l A B : history ops l A B → transitions ops A B.
Proof.
  revert l A. induction ops as [|op ops IH]; intros [|a l] A; cbn; try done.
  intros (C & HC & _ & HB). exists C. split; [done|by eapply IH].
Qed.

(** What an operation with its answer leads to. *)
Local Abbreviation post op a A := (λ B, transition op A B ∧ acked op a B).

Lemma failed_settled op a s A (T : Contents → Prop) :
  (∃ B, same_but_high A B ∧ good s B ∧ slots s = []) ∨ broken s (λ B, same_but_high A B ∨ T B) →
  (∀ B, T B → transition op A B) → (∀ B, acked op a B) → settled s (post op a A).
Proof.
  intros [(B & HB & Hg & Hs)|Hb] HT Ha; [by eapply settled_good; [split; [by apply t_reserve|done]|..]|].
  apply (settled_broken _ _ _ Hb). intros B [HB|HB]; (split; [|done]); [by apply t_reserve|by apply HT].
Qed.

Lemma unchanged_settled op a s A (T : Contents → Prop) :
  good s A ∧ slots s = [] ∨ broken s (λ B, B = A ∨ T B) →
  (∀ B, T B → transition op A B) → (∀ B, acked op a B) → settled s (post op a A).
Proof.
  intros [[Hg Hs]|Hb] HT Ha; [by eapply settled_good; [split; [apply t_stay|done]|..]|].
  apply (settled_broken _ _ _ Hb). intros B [->|HB]; (split; [|done]); [apply t_stay|by apply HT].
Qed.

Lemma flush_settled op a s s' A r rows :
  flush_post flushed A s r s' rows → (∀ B, acked op a B) → settled s' (post op a A).
Proof.
  intros [(_ & Hg & Hs & _)|(_ & Hb & _)] Ha; [by eapply settled_good; [split; [apply t_stay|done]|..]|].
  apply (settled_broken _ _ _ Hb). intros B ->. split; [apply t_stay|done].
Qed.

(** *** Each operation *)

Lemma sends_settled op a s A items rs :
  settled s (batch_post options items A rs) → (∀ B, sends options items A B → transition op A B) →
  (∀ B, Forall (sent_ok B) rs → acked op a B) → settled s (post op a A).
Proof. intros Hs HT Ha. eapply settled_mono; [exact Hs|]. intros B [HB Hr]. auto. Qed.

Lemma persist_refines e i s A s' r :
  config_ok options → good s A → slots s = [] → item_typed (i, e) →
  PersistPrivateMessage options outcome e i s = (s', r) → settled s' (post (OpPersist e i) (APersist r) A).
Proof.
  intros Hcfg Hg Hsl Hty Hc. eapply settled_mono; [by eapply persist_settled|]. intros B [[HB|(mid & text & HB)] Hr].
  - split; [by apply t_reserve|done].
  - split; [by eapply t_persist|done].
Qed.

Lemma confirm_refines e mid receiver s A s' r :
  good s A → slots s = [] → is_u64 mid → is_u64 receiver →
  ConfirmReceiver options outcome e mid receiver s = (s', r) →
  settled s' (post (OpConfirm e mid receiver) (AMutation r) A).
Proof.
  intros Hg Hsl Hm Hr Hc. apply (confirm_spec options outcome s A) in Hc; [|done..].
  destruct Hc as [(Hd & Hg' & Hs')|[(Hd & -> & Hg' & Hs')|(Hst & _ & _ & Hf)]].
  - eapply settled_good; [split; [apply t_stay|]|done..]. intros Hs. by eapply decision_succeeded.
  - eapply settled_good; [split; [by apply t_confirm|]|done..]. intros _. apply decision_none in Hd as (m & Hm' & Hto & _).
    exists (confirm (Now e) m). split; [|done]. apply (lookup_confirm A (Now e) [mid] mid m); [left|done].
  - apply (failed_settled _ _ _ _ _ Hf); [|by intros B ?]. intros B [Hd ->]. by apply t_confirm.
Qed.

Lemma confirm_batch_refines e mids s A s' r :
  good s A → slots s = [] → Forall is_u64 mids →
  ConfirmReceiverBatch options outcome e mids s = (s', r) →
  settled s' (post (OpConfirmBatch e mids) (AMutation r) A).
Proof.
  intros Hg Hsl Hu Hc. apply (confirm_batch_spec options outcome s A) in Hc; [|done..].
  destruct Hc as [([_ Hb] & _ & Hg' & Hs')|(Hst & _ & _ & Hf)].
  - eapply settled_good; [split; [by apply t_batch|]|done..]. intros _ mid Hin. destruct (Hb mid Hin) as (_ & m & Hm & _).
    exists (to_user_id m), (confirm_at (Now e) (pending_in A mids) mid m). cbn [confirm_all with_msgs msgs].
    rewrite lookup_upd, Hm. split; [done|]. unfold confirm_at. case_decide as Hd; [done|]. split; [done|].
    intros Hp. apply Hd, list_elem_of_filter. split; [|done]. unfold is_pending. rewrite Hm. by apply bool_decide_eq_true.
  - apply (failed_settled _ _ _ _ _ Hf); [|by intros B ?]. intros B ->. apply t_batch.
Qed.

Lemma owned_refines e inputs s A s' rs :
  good s A → slots s = [] → Forall (λ i, is_u64 (oc_message_id i)) inputs →
  ConfirmReceiverRequests options outcome e inputs s = (s', rs) →
  settled s' (post (OpConfirmOwned e inputs) (AMutations rs) A).
Proof.
  intros Hg Hsl Hu Hc. apply (owned_spec options outcome s A) in Hc; [|done..].
  destruct Hc as [(Hg' & Hs' & Ha)|(Ha & [[Hg' Hs']|Hb])].
  - by eapply settled_good; [split; [apply t_owned|]|..].
  - by eapply settled_good; [split; [apply t_stay|]|..].
  - apply (settled_broken _ _ _ Hb). intros B [->| ->]; [by split; [apply t_stay|]|].
    split; [apply t_owned|]. by apply answers_hold_confirm.
Qed.

Lemma read_refines e reader peer s A s' r :
  config_ok options → good s A → slots s = [] → is_u64 reader → is_u64 peer → copies A !! read_id e reader peer = None →
  MarkDialogRead options outcome e reader peer s = (s', r) →
  settled s' (post (OpRead e reader peer) (AMutation r) A).
Proof.
  intros Hcfg Hg Hsl Hr Hp Hnew Hc. apply (read_spec options outcome s A) in Hc; [|done..].
  destruct Hc as [(_ & Hs' & [[Hz Hg']|(_ & text & Hg')])|(Hst & _ & _ & Hf)].
  - eapply settled_good; [split; [apply t_stay|]|done..]. intros _. by apply cnt_zero.
  - eapply settled_good; [split; [by apply t_read|]|done..]. intros _. apply cnt_zero, read_unread_from.
  - apply (failed_settled _ _ _ _ _ Hf); [|by intros B ?]. intros B [text ->]. by apply t_read.
Qed.

Lemma fail_refines e id reason s A s' r :
  good s A → slots s = [] → env_typed e →
  MarkEventFailed outcome e id reason s = (s', r) → settled s' (post (OpFail e id reason) (AMutation r) A).
Proof.
  intros Hg Hsl He Hc. apply (fail_spec outcome s A) in Hc; [|done..].
  destruct Hc as [[Hpost Hs']|(Hst & _ & _ & Hf)].
  - destruct (pend A !! id) as [raw|] eqn:Hid.
    + destruct Hpost as (_ & B & HB & Hg'). eapply settled_good; [split; [by apply t_fail|]|done..]. intros _.
      destruct HB as (raw' & t & _ & _ & ->). cbn [fail_event pend]. apply lookup_delete_eq.
    + destruct Hpost as [_ Hg']. eapply settled_good; [split; [apply t_stay|]|done..]. by intros _.
  - apply (unchanged_settled _ _ _ _ _ Hf); [|by intros B ?]. intros B HB. by apply t_fail.
Qed.

Lemma publish_refines ids s A s' r :
  good s A → slots s = [] →
  MarkEventsPublished outcome ids s = (s', r) → settled s' (post (OpPublish ids) (AMutation r) A).
Proof.
  intros Hg Hsl Hc. apply (publish_spec outcome s A) in Hc; [|done..].
  destruct Hc as [(_ & Hg' & Hs')|(Hst & _ & _ & Hf)].
  - eapply settled_good; [split; [apply t_publish|]|done..]. intros _ id Hid. rewrite lookup_publish. by rewrite decide_True.
  - apply (unchanged_settled _ _ _ _ _ Hf); [|by intros B ?]. intros B ->. apply t_publish.
Qed.

(** Every operation, whether or not its writes succeed, is a transition, and its answer
    is true of the contents it leads to. *)
Lemma op_refines op s A :
  config_ok options → good s A → slots s = [] → op_typed op → (∀ id, id ∈ read_ids op → copies A !! id = None) →
  settled (run_op op s).1 (post op (run_op op s).2 A).
Proof.
  intros Hcfg Hg Hsl Hty Hfr. destruct op as [e i|items|e mid receiver|e mids|e inputs|e reader peer|e id reason|ids|ids| |];
    cbn [run_op op_typed read_ids] in *.
  - destruct (PersistPrivateMessage options outcome e i s) as [s' r] eqn:Hc. by eapply persist_refines.
  - destruct (PersistPrivateMessages options outcome items s) as [s' rs] eqn:Hc.
    eapply sends_settled; [by eapply persists_settled|intros B; apply t_persists|done].
  - destruct (ConfirmReceiver options outcome e mid receiver s) as [s' r] eqn:Hc. destruct Hty. by eapply confirm_refines.
  - destruct (ConfirmReceiverBatch options outcome e mids s) as [s' r] eqn:Hc. by eapply confirm_batch_refines.
  - destruct (ConfirmReceiverRequests options outcome e inputs s) as [s' rs] eqn:Hc. by eapply owned_refines.
  - destruct (MarkDialogRead options outcome e reader peer s) as [s' r] eqn:Hc. destruct Hty.
    eapply read_refines; [done..| |done]. apply Hfr. left.
  - destruct (MarkEventFailed outcome e id reason s) as [s' r] eqn:Hc. by eapply fail_refines.
  - destruct (RequeueFailedEvents options outcome ids s) as [s' r] eqn:Hc.
    apply (requeue_spec options outcome s A) in Hc; [|done..].
    destruct Hc as [(_ & Hg' & Hs')|(_ & _ & _ & Hf)]; [by eapply settled_good; [split; [apply t_requeue|]|..]|].
    apply (unchanged_settled _ _ _ _ _ Hf); [|done]. intros B ->. apply t_requeue.
  - destruct (MarkEventsPublished outcome ids s) as [s' r] eqn:Hc. by eapply publish_refines.
  - destruct (SyncPublicationProgress flushed s) as [s' r] eqn:Hc. apply (sync_spec flushed s A) in Hc; [|done..].
    by eapply flush_settled.
  - destruct (SyncPublicationProgressIfDirty flushed s) as [s' r] eqn:Hc.
    apply (sync_dirty_spec flushed s A) in Hc; [|done..]. destruct Hc as [(-> & _)|Hf]; [|by eapply flush_settled].
    by eapply settled_good; [split; [apply t_stay|]|..].
Qed.

(** A store that has failed refuses every operation. *)
Lemma poisoned_op op s : poisoned s = true → (run_op op s).1 = s ∧ ∀ B, acked op (run_op op s).2 B.
Proof.
  intros Hp. destruct op; cbn [run_op];
    unfold PersistPrivateMessage, ConfirmReceiver, ConfirmReceiverBatch, MarkDialogRead, MarkEventFailed,
      RequeueFailedEvents, MarkEventsPublished, SyncPublicationProgress, SyncPublicationProgressIfDirty;
    try (rewrite poisoned_call by done; by split).
  - destruct (poisoned_persists options outcome items s Hp) as [E1 E2].
    destruct (PersistPrivateMessages options outcome items s) as [s' rs]. cbn in *. split; [done|]. intros B.
    eapply list.Forall_impl; [exact E2|]. intros r. by apply sent_failed.
  - unfold ConfirmReceiverRequests. case_bool_decide as Hne; [subst; split; [done|]; intros B; constructor|].
    destruct (64 <? _).
    { split; [done|]. intros B. cbn [prod_map fst snd acked]. apply failures_hold; [by rewrite length_fmap|]. by apply list.Forall_fmap, list.Forall_true. }
    rewrite (bind_err _ _ _ _ _ (poisoned_open s Hp)). split; [done|]. intros B. cbn [prod_map fst snd acked].
    apply failures_hold; [by rewrite length_fmap|]. by apply list.Forall_fmap, list.Forall_true.
Qed.

Lemma poisoned_run ops s A : poisoned s = true → run ops s = s ∧ history ops (answers ops s) A A.
Proof.
  intros Hp. induction ops as [|op ops [IH1 IH2]]; [done|]. cbn [run answers history].
  destruct (poisoned_op op s Hp) as [E Ha]. rewrite E. split; [done|]. exists A. split; [apply t_stay|]. by split.
Qed.

(** ** What transitions keep *)

Record evolves A B : Prop := {
  ev_msgs : ∀ mid m, msgs A !! mid = Some m → ∃ m', msgs B !! mid = Some m' ∧ same_message m m' ∧
    state_number (delivery_state m) ≤ state_number (delivery_state m');
  ev_cids : cids A ⊆ cids B;
  ev_copies : copies A ⊆ copies B;
  ev_high : high A ≤ high B;
}.

Lemma contents_evolve_refl A : evolves A A.
Proof. split; try done. intros mid m Hm. exists m. by split_and!. Qed.

Lemma contents_evolve_trans A B C : evolves A B → evolves B C → evolves A C.
Proof.
  intros [M1 I1 P1 H1'] [M2 I2 P2 H2']. split; [|by etrans|by etrans|lia].
  intros mid m Hm. destruct (M1 mid m Hm) as (m1 & Hm1 & S1 & R1). destruct (M2 mid m1 Hm1) as (m2 & Hm2 & S2' & R2).
  exists m2. split; [done|]. split; [|lia]. unfold same_message in *. naive_solver congruence.
Qed.

(** Messages changed one by one, each in place. *)
Lemma evolves_upd A f :
  (∀ k m, msgs A !! k = Some m → same_message m (f k m) ∧
     state_number (delivery_state m) ≤ state_number (delivery_state (f k m))) →
  evolves A (with_msgs A (upd f (msgs A))).
Proof.
  intros Hf. split; try done. intros mid m Hm. exists (f mid m). split; [|by apply Hf].
  cbn. by rewrite lookup_upd, Hm.
Qed.

Lemma same_message_refl m : same_message m m.
Proof. done. Qed.

Lemma evolves_confirm A now l :
  (∀ k m, k ∈ l → msgs A !! k = Some m → delivery_state m = kPending) → evolves A (confirm_all A now l).
Proof.
  intros Hl. apply evolves_upd. intros k m Hm. unfold confirm_at. case_decide as Hk; [|done].
  split; [apply confirm_same|]. rewrite (Hl k m Hk Hm). cbn. lia.
Qed.

Lemma evolves_events A B :
  msgs B = msgs A → cids B = cids A → copies A ⊆ copies B → high B = high A → evolves A B.
Proof.
  intros E1 E2 E3 E4. split; [|by rewrite E2|done|lia]. rewrite E1. intros mid m Hm. exists m. by split_and!.
Qed.

Lemma requeue_one_same A id : evolves A (requeue_one A id).
Proof.
  unfold requeue_one. destruct (failed A !! id), (copies A !! id); by apply evolves_events.
Qed.

Lemma evolves_high A B : same_but_high A B → evolves A B.
Proof. intros (h & Hh & ->). split; cbn; try done; [|lia]. intros mid m Hm. exists m. by split_and!. Qed.

Lemma evolves_message e i A mid text B : with_message options A e i mid text B → evolves A B.
Proof.
  intros (Hcid & Hfr & Hcp & A' & (h & Hh & ->) & ->).
  split; cbn [add_message with_high record_of message_id from_user_id msgs cids copies high].
  - intros k m Hm. specialize (Hfr k m Hm). exists m. rewrite lookup_insert_ne by lia. by split_and!.
  - by apply insert_subseteq.
  - by apply insert_subseteq.
  - lia.
Qed.

Lemma evolves_sends items A B : sends options items A B → evolves A B.
Proof.
  revert A. induction items as [|item items IH]; intros A; cbn; [intros ->; apply contents_evolve_refl|].
  intros (C & HC & HB). eapply contents_evolve_trans; [|by apply IH].
  destruct HC as [HC|(mid & text & HC)]; [by apply evolves_high|by eapply evolves_message].
Qed.

Lemma owned_pending_pending A inputs k m :
  k ∈ owned_pending options A inputs → msgs A !! k = Some m → delivery_state m = kPending.
Proof.
  intros (i & -> & [[_ Hd] _]%list_elem_of_filter)%list_elem_of_fmap Hm. apply decision_none in Hd as (m' & Hm' & _ & Hp).
  congruence.
Qed.

Lemma transition_evolves op A B : transition op A B → evolves A B.
Proof.
  intros Ht. destruct Ht as [op A|op A B HB|e i A mid text B HB|items A B HB
    |e mid receiver A Hd|e mids A|e inputs A|e reader peer A text Hnew|e id reason A B (raw & t & _ & _ & ->)|ids A|ids A].
  - apply contents_evolve_refl.
  - by apply evolves_high.
  - by eapply evolves_message.
  - by eapply evolves_sends.
  - apply decision_none in Hd as (m & Hm & _ & Hp). apply evolves_confirm.
    intros k m' ->%list_elem_of_singleton Hm'. congruence.
  - apply evolves_confirm. intros k m [Hk _]%list_elem_of_filter Hm. unfold is_pending in Hk. rewrite Hm in Hk.
    by apply bool_decide_eq_true in Hk.
  - apply evolves_confirm. intros k m. apply owned_pending_pending.
  - eapply contents_evolve_trans.
    + apply (evolves_upd A (read_at_ (Now e) reader peer)). intros k m _. unfold read_at_.
      destruct (unread_from peer reader m) eqn:Hu; [|done]. split; [apply mark_read_same|]. cbn.
      apply unread_from_spec in Hu as (_ & _ & Hu). unfold is_unread in Hu.
      destruct (delivery_state m); cbn in Hu |- *; try done; lia.
    + apply evolves_events; try done. by apply insert_subseteq.
  - by apply evolves_events.
  - unfold requeue_all. generalize (ordered_ids ids). intros l. revert A. induction l as [|id l IH]; intros A.
    + apply contents_evolve_refl.
    + cbn [foldl]. eapply contents_evolve_trans; [apply requeue_one_same|apply IH].
  - by apply evolves_events.
Qed.

Lemma transitions_evolve ops A B : transitions ops A B → evolves A B.
Proof.
  revert A. induction ops as [|op ops IH]; intros A; cbn; [intros ->; apply contents_evolve_refl|].
  intros (C & HC & HB). eapply contents_evolve_trans; [by eapply transition_evolves|by apply IH].
Qed.

(** The events an operation publishes. *)
Definition publishes (op : Op) : list (list Z) := match op with OpPublish ids => ids | _ => [] end.

Lemma due_message e i A mid text B id : with_message options A e i mid text B → due A id → due B id.
Proof.
  intros (_ & _ & _ & A' & (h & _ & ->) & ->) [Hd|Hd]; [left|by right]. by apply due_insert.
Qed.

Lemma due_sends items A B id : sends options items A B → due A id → due B id.
Proof.
  revert A. induction items as [|item items IH]; intros A; cbn; [by intros ->|].
  intros (C & HC & HB) Hd. eapply IH; [done|]. destruct HC as [(h & _ & ->)|(mid & text & HC)]; [done|by eapply due_message].
Qed.

Lemma requeue_one_due A k id : due A id → due (requeue_one A k) id.
Proof.
  intros Hd. unfold requeue_one. destruct (failed A !! k) eqn:Ef; [|done]. destruct (copies A !! k) as [raw|]; [|done].
  unfold due. cbn [requeue_event pend failed]. destruct (decide (k = id)) as [->|Hne].
  - left. rewrite lookup_insert_eq. eauto.
  - by rewrite lookup_insert_ne, lookup_delete_ne.
Qed.

Lemma transition_due op A B id : transition op A B → due A id → id ∉ publishes op → due B id.
Proof.
  intros Ht Hd Hn. destruct Ht as [op A|op A B (h & Hh & ->)|e i A mid text B HB|items A B HB
    |e mid receiver A Hdec|e mids A|e inputs A|e reader peer A text Hnew|e id' reason A B (raw & t & _ & _ & ->)|ids A|ids A]; try done.
  - by eapply due_message.
  - by eapply due_sends.
  - destruct Hd as [Hd|Hd]; [left|by right]. by apply due_insert.
  - unfold due. cbn [fail_event pend failed]. destruct (decide (id' = id)) as [->|Hne].
    + right. rewrite lookup_insert_eq. eauto.
    + by rewrite lookup_insert_ne, lookup_delete_ne.
  - unfold requeue_all. generalize (ordered_ids ids). intros l. revert A Hd. induction l as [|k l IH]; intros A Hd; [done|].
    apply IH. by apply requeue_one_due.
  - destruct Hd as [Hd|Hd]; [left|by right]. rewrite lookup_publish. cbn [publishes] in Hn. by rewrite decide_False.
Qed.

Lemma transitions_due ops A B id :
  transitions ops A B → due A id → id ∉ ops ≫= publishes → due B id.
Proof.
  revert A. induction ops as [|op ops IH]; intros A; cbn; [by intros ->|].
  intros (C & HC & HB) Hd Hn. rewrite elem_of_app in Hn. eapply IH; [done| |tauto].
  eapply transition_due; [done..|tauto].
Qed.

(** Only reads and new messages make events. *)
Lemma requeue_all_copies A ids : copies (requeue_all A ids) = copies A.
Proof.
  unfold requeue_all. generalize (ordered_ids ids). intros l. revert A. induction l as [|k l IH]; intros A; [done|].
  cbn [foldl]. by rewrite IH, requeue_one_copies.
Qed.

Lemma message_new e i A mid text B id :
  with_message options A e i mid text B → copies A !! id = None → (∀ mid, id ≠ created_id mid) → copies B !! id = None.
Proof.
  intros (_ & _ & _ & A' & (h & _ & ->) & ->) Hc Hne.
  cbn [add_message with_high copies record_of message_id]. rewrite lookup_insert_ne; [done|].
  intros E. exact (Hne mid (eq_sym E)).
Qed.

Lemma sends_new items A B id :
  sends options items A B → copies A !! id = None → (∀ mid, id ≠ created_id mid) → copies B !! id = None.
Proof.
  revert A. induction items as [|item items IH]; intros A; cbn; [by intros ->|].
  intros (C & HC & HB) Hc Hne. eapply IH; [done| |done].
  destruct HC as [(h & _ & ->)|(mid & text & HC)]; [done|by eapply message_new].
Qed.

Lemma transition_new op A B id :
  transition op A B → copies A !! id = None → id ∉ read_ids op → (∀ mid, id ≠ created_id mid) → copies B !! id = None.
Proof.
  intros Ht Hc Hr Hne. destruct Ht as [op A|op A B (h & Hh & ->)|e i A mid text B HB|items A B HB
    |e mid receiver A Hdec|e mids A|e inputs A|e reader peer A text Hnew|e id' reason A B (raw & t & _ & _ & ->)|ids A|ids A]; try done.
  - by eapply message_new.
  - by eapply sends_new.
  - cbn [after_read new_event read_all with_msgs copies]. rewrite lookup_insert_ne; [done|]. intros <-. apply Hr. left.
  - by rewrite requeue_all_copies.
Qed.

Lemma read_ids_other op id mid : id ∈ read_ids op → id ≠ created_id mid.
Proof. destruct op; cbn; try by intros ?%elem_of_nil. intros ->%list_elem_of_singleton. apply read_id_other. Qed.

(** ** Runs *)

(** Reads have event identities of their own. *)
Definition run_ok (ops : list Op) A : Prop :=
  Forall op_typed ops ∧ NoDup (ops ≫= read_ids) ∧ ∀ id, id ∈ ops ≫= read_ids → copies A !! id = None.

Lemma run_ok_after op ops A B : run_ok (op :: ops) A → transition op A B → run_ok ops B.
Proof.
  intros (Hty & Hnd & Hnew) Ht. apply list.Forall_cons in Hty as [_ Hty]. cbn [mbind list_bind] in Hnd, Hnew.
  apply list.NoDup_app in Hnd as (_ & Hdis & Hnd). split_and!; [done|done|]. intros id Hid.
  eapply transition_new; [done|..].
  - apply Hnew, elem_of_app. by right.
  - intros Hr. by eapply Hdis.
  - intros mid. apply list_elem_of_bind in Hid as (op' & Hid & _). by eapply read_ids_other.
Qed.

(** The first operation of a run. *)
Lemma run_first op ops s A :
  config_ok options → good s A → slots s = [] → run_ok (op :: ops) A →
  settled (run_op op s).1 (post op (run_op op s).2 A).
Proof.
  intros Hcfg Hg Hsl (Hty & _ & Hnew). apply list.Forall_cons in Hty as [Hop _]. apply op_refines; [done..|].
  intros id Hid. apply Hnew. cbn [mbind list_bind]. apply elem_of_app. by left.
Qed.

Lemma run_history ops s A :
  config_ok options → good s A → slots s = [] → run_ok ops A → settled (run ops s) (history ops (answers ops s) A).
Proof.
  intros Hcfg. revert s A. induction ops as [|op ops IH]; intros s A Hg Hsl Hok; [left; by exists A|].
  pose proof (run_first op ops s A Hcfg Hg Hsl Hok) as Hs. cbn [run answers history].
  destruct Hs as [(C & [HC Ha] & HgC & HsC)|Hbr].
  - eapply settled_mono; [apply (IH _ C HgC HsC); by eapply run_ok_after|]. intros B HB. by exists C.
  - destruct (poisoned_run ops (run_op op s).1 A (proj1 Hbr)) as [E _]. rewrite E. apply (settled_broken _ _ _ Hbr).
    intros B [HB Ha]. exists B. split; [done|]. split; [done|]. by apply poisoned_run, Hbr.
Qed.

Lemma local_run_refines ops s A :
  config_ok options → good s A → slots s = [] → run_ok ops A → settled (run ops s) (transitions ops A).
Proof.
  intros Hcfg Hg Hsl Hok. eapply settled_mono; [by apply run_history|]. intros B. apply history_transitions.
Qed.

(** What a crash can leave. *)
Definition crash_states s : list D := db s :: recoverable s.

Lemma crash_recov s T d : settled s T → d ∈ crash_states s → ∃ B, T B ∧ recov d B.
Proof.
  intros [(B & HB & [[_ _ HR Hwf _ _ _ Hrec] _] & _)|[_ Hd]] Hin; [|by apply Hd].
  exists B. split; [done|]. apply elem_of_cons in Hin as [->|Hin]; [by apply recov_self|by apply Hrec].
Qed.

(** After a run and a crash, the store opens to contents the run leads to, but for
    publications that were not synced. *)
Lemma crash_opens ops s A d outcome' flushed' :
  ValidConfig options = true → good s A → slots s = [] → run_ok ops A → (∀ n, flushed' n = None) →
  d ∈ crash_states (run ops s) →
  ∃ B p, transitions ops A B ∧ pend B ⊆ p ∧
    (openable options B → ∃ s', Recover options outcome' flushed' d = (s', inr tt) ∧ opened s' (with_pend B p)).
Proof.
  intros Hv Hg Hsl Hok Hfl Hd. pose proof (local_run_refines ops s A (ValidConfig_ok options Hv) Hg Hsl Hok) as Hs.
  destruct (crash_recov _ _ _ Hs Hd) as (B & HB & p & Hp & HR & Hwf). exists B, p. split_and!; [done|done|].
  intros Hop. destruct (recover_spec options outcome' flushed' d (with_pend B p)) as (s' & Hr & Ho & _); [done..|]. eauto.
Qed.

End Runs.
