(* ===== verification/LocalStoreExample.v ===== *)
(** * A local store on concrete parts

    A JSON library and an engine with the laws the store relies on, a configuration,
    and a store opened on an empty engine: what the theorems are applied to. *)
From Stdlib Require Import ZArith Lia String.
From stdpp Require Import base list numbers sorting option gmap countable.
From S2P Require Import Prelude ByteStrings MessageTypes KeyValueEngine DomainEvents LocalPrivateStore LocalStoreKeys LocalStoreModel LocalStoreInvariant LocalStoreChanges LocalStoreSteps LocalStorePersist LocalStoreBatch LocalStoreSending LocalStoreConfirm LocalStoreQueries LocalStoreRead LocalStoreEvents LocalStorePages LocalStoreRecovery LocalStoreRuns.

Local Open Scope Z_scope.

(** ** JSON as numbered trees *)

Fixpoint json_tree (j : Json) : gen_tree (Z + list Z) :=
  match j with
  | JNumber n => GenLeaf (inl n)
  | JString s => GenLeaf (inr s)
  | JObject fs => GenNode 0 ((λ f, GenNode 1 [GenLeaf (inr f.1); json_tree f.2]) <$> fs)
  | JOther => GenNode 2 []
  end.

Fixpoint tree_json (t : gen_tree (Z + list Z)) : Json :=
  match t with
  | GenLeaf (inl n) => JNumber n
  | GenLeaf (inr s) => JString s
  | GenNode 0 ts =>
      JObject ((λ t, match t with GenNode _ [GenLeaf (inr k); v] => (k, tree_json v) | _ => ([], JOther) end) <$> ts)
  | GenNode _ _ => JOther
  end.

Lemma tree_json_tree : ∀ j, tree_json (json_tree j) = j.
Proof.
  fix IH 1. intros [n|s|fs|]; try reflexivity. cbn [json_tree tree_json]. f_equal.
  induction fs as [|[k v] fs IHfs]; [reflexivity|]. rewrite !fmap_cons, IHfs. cbn [fst snd]. by rewrite IH.
Qed.

Definition tree_dump (j : Json) : list Z := [Z.pos (encode (json_tree j))].
Definition tree_parse (t : list Z) : option Json :=
  match t with [Z.pos p] => tree_json <$> decode p | _ => None end.

#[export] Instance TreeLibrary : JsonLibrary := {
  json_dump j := Some (tree_dump j);
  json_parse := tree_parse;
  utf8 _ := true;
}.

Lemma tree_utf8 : ∀ j : Json, json_utf8 j.
Proof.
  fix IH 1. intros [n|s|fs|]; try exact I; [reflexivity|]. cbn [json_utf8].
  induction fs as [|[k v] fs IHfs]; [exact I|]. split; [reflexivity|]. split; [apply IH|exact IHfs].
Qed.

#[export] Instance TreeLibrary_laws : JsonLaws.
Proof.
  split.
  - intros j t _ Ht. injection Ht as <-. unfold tree_dump. cbn. rewrite decode_encode. cbn. by rewrite tree_json_tree.
  - intros j. split; [intros _; apply tree_utf8|by eexists].
  - intros j t [= <-]. done.
  - done.
  - done.
Qed.

(** ** A store *)

Definition demo_options : LocalPrivateStoreOptions :=
  MkOptions (str "store") (str "message-events") 1000 [1; 2; 3] (1024 * 1024) 100 true true
    (str "fixture-raw-bytes-v1") false false false true true true.
Definition demo_env (n : Z) : Env :=
  MkEnv (str "2024-01-01 00:00:00") (str "2024-01-01T00:00:00Z") n 7 n kSucceeded [] [] true (MkMutation kSucceeded 0 []).
Definition demo_input (from to : Z) (cid : string) : PrivateMessagePersistInput := MkInput from to (str cid) 1 (str "hello").

Definition all_written (n : Z) : WriteOutcome := Written.
Definition all_flushed (n : Z) : option (list Z) := None.
(** A write that is applied although it fails: that of the first message, and the ones after it. *)
Definition second_fails (n : Z) : WriteOutcome := if n =? 2 then WriteFailed true (str "io") else Written.
Definition third_fails (n : Z) : WriteOutcome := if n =? 3 then WriteFailed true (str "io") else Written.
Definition fourth_fails (n : Z) : WriteOutcome := if n =? 4 then WriteFailed true (str "io") else Written.

Definition demo_store : Store OrderedShelf := (Recover demo_options all_written all_flushed new_shelf).1.

Lemma demo_config : ValidConfig demo_options = true.
Proof. vm_compute. reflexivity. Qed.

Lemma demo_opened : opened demo_store (empty_contents 999).
Proof.
  destruct (recover_empty demo_options all_written all_flushed new_shelf) as (s & Hs & Ho); [done|apply demo_config|done|done|].
  unfold demo_store. rewrite Hs. exact Ho.
Qed.
Lemma demo_good : good demo_store (empty_contents 999).
Proof. apply demo_opened. Qed.
Lemma demo_slots : slots demo_store = [].
Proof. apply demo_opened. Qed.

(** ** A message *)

Definition demo_persist : Store OrderedShelf * PersistResult :=
  PersistPrivateMessage demo_options all_written (demo_env 1) (demo_input 1 2 "a") demo_store.
Definition demo_sent : Store OrderedShelf := demo_persist.1.
Definition demo_record : MessageView := record_of (demo_env 1) (demo_input 1 2 "a") 1000.
Definition demo_contents (h : Z) (text : list Z) : Contents :=
  add_message (with_high (empty_contents 999) h) (str "a") demo_record text.

Lemma demo_typed : input_typed (demo_input 1 2 "a") ∧ env_typed (demo_env 1).
Proof. repeat split; try done; unfold is_u64; cbn; lia. Qed.

Lemma demo_sent_good : ∃ h text, good demo_sent (demo_contents h text) ∧ slots demo_sent = [] ∧ h < 2 ^ 63 - 1.
Proof.
  destruct (persist_spec demo_options all_written demo_store (empty_contents 999) (demo_env 1) (demo_input 1 2 "a")
    demo_sent demo_persist.2) as [[(mid & m & Hc & _)|(_ & text & B & (_ & _ & _ & A' & (h & Hh & ->) & ->) & Hg & Hs & _)]|(Hst & _)].
  - apply ValidConfig_ok, demo_config.
  - apply demo_good.
  - apply demo_slots.
  - apply demo_typed.
  - apply demo_typed.
  - unfold demo_sent. fold demo_persist. by destruct demo_persist.
  - cbn in Hc. by rewrite lookup_empty in Hc.
  - exists h, text. split; [exact Hg|]. split; [exact Hs|apply Hh].
  - exfalso. apply Hst. vm_compute. reflexivity.
Qed.
