(* ===== verification/LocalStoreTheorems.v ===== *)
(** * Correctness of the local store

    What the store promises its clients: every run of operations refines transitions of
    the contents, whatever writes fail; acknowledged messages and unpublished events
    survive every crash; a send is idempotent; batches are confirmed whole; reads mark
    exactly the unread messages; counters and pages are those of the messages; the
    index of pending events answers as the engine would. *)
From Stdlib Require Import ZArith Lia String.
From stdpp Require Import base list numbers sorting option gmap.
From S2P Require Import Prelude ByteStrings MessageTypes KeyValueEngine DomainEvents LocalPrivateStore LocalStoreKeys LocalStoreModel LocalStoreInvariant LocalStoreChanges LocalStoreSteps LocalStorePersist LocalStoreBatch LocalStoreSending LocalStoreConfirm LocalStoreQueries LocalStoreRead LocalStoreEvents LocalStorePages LocalStoreRecovery LocalStoreRuns LocalStoreExample.

Local Open Scope Z_scope.

(** ** Helpers *)

Section Helpers.
Context {D : Type} `{EngineLaws D} `{JsonLaws}.
Variable options : LocalPrivateStoreOptions.
Implicit Types (s : Store D) (A : Contents).

(** A crash state opens, or its high-water mark is out of range. *)
Lemma recov_opens d A outcome flushed :
  recov d A → ValidConfig options = true → (∀ n, flushed n = None) →
  (∃ h, is_u64 h ∧ db_get d HighKey = Some (Number h) ∧ ¬ first_message_id options - 1 ≤ h < 2 ^ 63 - 1 - 4096) ∨
  ∃ s p, Recover options outcome flushed d = (s, inr tt) ∧ opened s (with_pend A p) ∧ pend A ⊆ p.
Proof.
  intros (p & Hp & HR & Hwf) Hv Hfl.
  destruct (decide (first_message_id options - 1 ≤ high A < 2 ^ 63 - 1 - 4096)) as [Ho|Ho].
  - right. destruct (recover_spec options outcome flushed d (with_pend A p)) as (s & Hr & Hop & _); [done..|]. by exists s, p.
  - left. exists (high A). pose proof (wf_high _ Hwf) as Hb. cbn in Hb. split; [unfold is_u64; lia|]. split; [|done].
    exact (rep_get d _ KHigh HR I).
Qed.

Lemma get_message s A mid :
  good s A → slots s = [] → is_u64 mid → 0 < mid → GetPrivateMessage mid s = (s, MkGet kSucceeded (msgs A !! mid) []).
Proof.
  intros Hg Hs Hm Hpos. destruct (GetPrivateMessage mid s) as [s' r] eqn:Hc.
  apply (get_spec s A) in Hc as [-> [->|[? _]]]; done.
Qed.

Lemma due_crash d A id : recov d A → due A id → is_Some (db_get d (EventKey id)) ∨ is_Some (db_get d (FailedKey id)).
Proof.
  intros (p & Hp & HR & Hwf) [[t Ht]|[t Ht]].
  - left. pose proof (rep_get d _ (KE id) HR I) as E. cbn [expected with_pend pend] in E.
    change (EventKey id) with (enc (KE id)). rewrite E. exists t. exact (lookup_weaken _ _ _ _ Ht Hp).
  - right. pose proof (rep_get d _ (KF id) HR I) as E. cbn [expected with_pend failed] in E.
    change (FailedKey id) with (enc (KF id)). rewrite E. eauto.
Qed.

Lemma same_message_trans m m' m'' : same_message m m' → same_message m' m'' → same_message m m''.
Proof. unfold same_message. naive_solver congruence. Qed.

(** What a successful send has made sure of. *)
Lemma persist_success s A e i s1 r outcome :
  ValidConfig options = true → good s A → slots s = [] → input_typed i → env_typed e →
  PersistPrivateMessage options outcome e i s = (s1, r) → p_status r = kSucceeded →
  ∃ B, transition options (OpPersist e i) A B ∧ good s1 B ∧ slots s1 = [] ∧
    msgs B !! p_message_id r = Some (p_record r) ∧
    cids B !! (in_from i, canonical_cid options e (in_cid i)) = Some (p_message_id r) ∧
    (p_outcome r = kCreated → due B (created_id (p_message_id r))).
Proof.
  intros Hv Hg Hs Hi He Hc Hst. pose proof (ValidConfig_ok options Hv) as Hcfg. pose proof Hg as [[_ _ _ Hwf _ _ _ _] _].
  apply (persist_spec options outcome s A) in Hc; [|done..].
  destruct Hc as [[(mid & m & Hcid & Hm & -> & Hg1 & Hs1)|(_ & text & B & HB & Hg1 & Hs1 & ->)]|(? & _)]; [| |done].
  - exists A. split_and!; [apply t_stay|done|done|..].
    + cbn. by destruct (wf_msgs A Hwf mid m Hm) as (-> & _).
    + cbn. by destruct (wf_msgs A Hwf mid m Hm) as (-> & _).
    + cbn. by destruct (_ && _).
  - exists B. split_and!; [by eapply t_persist|done|done|..]; destruct HB as (_ & _ & _ & A' & _ & ->).
    + cbn. by rewrite lookup_insert_eq.
    + cbn [add_message cids created_result p_message_id record_of message_id from_user_id]. by rewrite lookup_insert_eq.
    + intros _. left. cbn [add_message pend created_result p_message_id record_of message_id]. rewrite lookup_insert_eq. eauto.
Qed.

(** The answers to sends among the answers of an operation. *)
Definition sent_results (a : Answer) : list PersistResult :=
  match a with APersist r => [r] | APersists rs => rs | _ => [] end.

Lemma acked_sent op a B r : acked op a B → r ∈ sent_results a → sent_ok B r.
Proof.
  destruct op, a; cbn; try done; try by intros _ ?%elem_of_nil.
  - by intros Hr ->%list_elem_of_singleton.
  - intros Hr Hin. exact (proj1 (list.Forall_forall _ _) Hr r Hin).
Qed.

(** What a send that was acknowledged leaves in every state a crash can leave later. *)
Lemma acknowledged_crash outcome flushed outcome1 flushed1 op ops s s1 A a r d :
  ValidConfig options = true → good s A → slots s = [] → run_ok (op :: ops) A →
  run_op options outcome flushed op s = (s1, a) → r ∈ sent_results a →
  d ∈ crash_states (run options outcome1 flushed1 ops s1) →
  ∃ B C, sent_ok B r ∧ transitions options ops B C ∧ recov d C.
Proof.
  intros Hv Hg Hs Hok Hop Hr Hd. pose proof (ValidConfig_ok options Hv) as Hcfg.
  pose proof (run_first options outcome flushed op ops s A Hcfg Hg Hs Hok) as Hst. rewrite Hop in Hst. cbn [fst snd] in Hst.
  destruct Hst as [(B & [HB Ha] & HgB & HsB)|[Hp Hrec]].
  - destruct (crash_recov (run options outcome1 flushed1 ops s1) (transitions options ops B) d) as (C & HC & HrC).
    { apply local_run_refines; [done..|]. by eapply run_ok_after. }
    { done. }
    exists B, C. split; [by eapply acked_sent|done].
  - destruct (poisoned_run options outcome1 flushed1 ops s1 A Hp) as [E _]. rewrite E in Hd.
    destruct (Hrec d Hd) as (B & [HB Ha] & HrB). exists B, B. split; [by eapply acked_sent|]. split; [|done].
    eapply history_transitions. by apply (poisoned_run options outcome1 flushed1 ops s1).
Qed.

(** The contents of a store that goes on after a run. *)
Lemma running_contents outcome flushed ops s A :
  ValidConfig options = true → good s A → slots s = [] → run_ok ops A →
  poisoned (run options outcome flushed ops s) = false →
  ∃ B, transitions options ops A B ∧ good (run options outcome flushed ops s) B ∧ slots (run options outcome flushed ops s) = [].
Proof.
  intros Hv Hg Hs Hok Hp. destruct (local_run_refines options outcome flushed ops s A) as [?|[Hp' _]];
    [by apply ValidConfig_ok|done|done|done|done|congruence].
Qed.

End Helpers.

(** ** Refinement *)


Definition demo_batch_items : list (PrivateMessagePersistInput * Env) :=
  [(demo_input 3 2 "b", demo_env 2); (demo_input 3 2 "b", demo_env 2); (demo_input 1 2 "a", demo_env 2)].
Definition demo_later : list Op :=
  [OpPersists demo_batch_items; OpConfirm (demo_env 2) 1000 2;
   OpConfirmOwned (demo_env 2) [MkOwned 1001 2; MkOwned 1001 3; MkOwned 1001 2]; OpRead (demo_env 3) 2 1].
Definition demo_ops : list Op := OpPersist (demo_env 1) (demo_input 1 2 "a") :: demo_later.

Lemma demo_ops_ok A : copies A = ∅ → run_ok demo_ops A.
Proof.
  intros Hc. split_and!.
  - repeat constructor; try done; unfold is_u64; cbn; lia.
  - apply NoDup_singleton.
  - intros id _. by rewrite Hc.
Qed.


(** C13: A send that was answered with success, alone or in a batch, survives: after any
    further operations, with writes failing at any point, every state a crash can leave
    opens to a store that answers the message with the same identity, sender, receiver,
    type and content, and gives out only identifiers above it; the one escape is a
    state whose high-water mark, a 64-bit number, is out of the range the store accepts
    on opening. *)
Theorem acknowledged_message_survives {D : Type} `{EngineLaws D} `{JsonLaws} options outcome flushed outcome1 flushed1
    outcome' flushed' op ops (s s1 : Store D) A a r d :
  ValidConfig options = true → good s A → slots s = [] → run_ok (op :: ops) A →
  run_op options outcome flushed op s = (s1, a) → r ∈ sent_results a → p_status r = kSucceeded →
  d ∈ crash_states (run options outcome1 flushed1 ops s1) → (∀ n, flushed' n = None) →
  (∃ h, is_u64 h ∧ db_get d HighKey = Some (Number h) ∧ ¬ first_message_id options - 1 ≤ h < 2 ^ 63 - 1 - 4096) ∨
  ∃ s' m, Recover options outcome' flushed' d = (s', inr tt) ∧
    GetPrivateMessage (p_message_id r) s' = (s', MkGet kSucceeded (Some m) []) ∧
    same_message (p_record r) m ∧ p_message_id r < next_id s'.
Proof.
  intros Hv Hg Hs Hok Hc Hin Hst Hd Hfl.
  destruct (acknowledged_crash options outcome flushed outcome1 flushed1 op ops s s1 A a r d) as (B & C & Hr & HC & Hrec); [done..|].
  destruct (Hr Hst) as ((m & Hm & Hsame) & _). assert (evolves B C) as [Hev _ _ _] by by eapply transitions_evolve.
  destruct (Hev _ _ Hm) as (m' & Hm' & Hsame' & _).
  destruct (recov_opens options d C outcome' flushed' Hrec Hv Hfl) as [?|(s' & p & Hr' & (Hg' & Hs' & _ & _) & _)]; [by left|].
  right. exists s', m'. pose proof Hg' as [[_ _ _ Hwf' _ _ Hfr' _] _].
  destruct (wf_msgs _ Hwf' (p_message_id r) m' Hm') as (_ & Hr1 & _). pose proof (wf_high _ Hwf') as Hh.
  split_and!; [done| |by eapply same_message_trans|by eapply Hfr'].
  rewrite (get_message s' (with_pend C p)); [|done|done|unfold is_u64; lia|lia].
  cbn [with_pend msgs]. by rewrite Hm'.
Qed.

(** A batch of sends on a store that has a message, and an operation after it. *)
Definition demo_sends : Store OrderedShelf * Answer :=
  run_op demo_options all_written all_flushed (OpPersists demo_batch_items) demo_sent.
Definition demo_result : PersistResult :=
  match sent_results demo_sends.2 with r :: _ => r | [] => persist_failure kStorageError [] end.
Definition demo_next : list Op := [OpConfirmOwned (demo_env 2) [MkOwned 1001 2]; OpRead (demo_env 3) 2 3].

Lemma demo_sends_result : demo_result ∈ sent_results demo_sends.2.
Proof. unfold demo_result. destruct (sent_results demo_sends.2) eqn:E; [vm_compute in E; discriminate E|left]. Qed.

Lemma demo_next_ok h text : run_ok (OpPersists demo_batch_items :: demo_next) (demo_contents h text).
Proof.
  split_and!.
  - repeat constructor; try done; unfold is_u64; cbn; lia.
  - apply NoDup_singleton.
  - intros id Hid. apply list_elem_of_singleton in Hid as ->.
    cbn [demo_contents add_message copies with_high empty_contents]. rewrite lookup_insert_ne; [apply lookup_empty|].
    vm_compute. discriminate.
Qed.

Lemma acknowledged_message_survives_witness :
  p_message_id demo_result = 1001 ∧
  Forall (λ d,
    (∃ h, is_u64 h ∧ db_get d HighKey = Some (Number h) ∧ ¬ first_message_id demo_options - 1 ≤ h < 2 ^ 63 - 1 - 4096) ∨
    ∃ s' m, Recover demo_options all_written all_flushed d = (s', inr tt) ∧
      GetPrivateMessage (p_message_id demo_result) s' = (s', MkGet kSucceeded (Some m) []) ∧
      same_message (p_record demo_result) m ∧ p_message_id demo_result < next_id s')
    (crash_states (run demo_options fourth_fails all_flushed demo_next demo_sends.1)).
Proof.
  split; [vm_compute; reflexivity|]. apply list.Forall_forall. intros d Hd.
  destruct demo_sent_good as (h & text & Hg & Hs & _).
  refine (acknowledged_message_survives demo_options all_written all_flushed fourth_fails all_flushed all_written all_flushed
    (OpPersists demo_batch_items) demo_next demo_sent demo_sends.1 (demo_contents h text) demo_sends.2 demo_result d
    demo_config Hg Hs (demo_next_ok h text) (surjective_pairing demo_sends) demo_sends_result _ Hd _).
  - vm_compute. reflexivity.
  - reflexivity.
Defined.

(** C14: The event of a message created alone or in a batch is not lost: after any
    further operations that do not publish it, with writes failing at any point, every
    state a crash can leave holds it, pending or among the failed events. *)
Theorem created_event_not_lost {D : Type} `{EngineLaws D} `{JsonLaws} options outcome flushed outcome1 flushed1
    op ops (s s1 : Store D) A a r d :
  ValidConfig options = true → good s A → slots s = [] → run_ok (op :: ops) A →
  run_op options outcome flushed op s = (s1, a) → r ∈ sent_results a → p_status r = kSucceeded → p_outcome r = kCreated →
  created_id (p_message_id r) ∉ ops ≫= publishes → d ∈ crash_states (run options outcome1 flushed1 ops s1) →
  is_Some (db_get d (EventKey (created_id (p_message_id r)))) ∨ is_Some (db_get d (FailedKey (created_id (p_message_id r)))).
Proof.
  intros Hv Hg Hs Hok Hc Hin Hst Hcr Hnp Hd.
  destruct (acknowledged_crash options outcome flushed outcome1 flushed1 op ops s s1 A a r d) as (B & C & Hr & HC & Hrec); [done..|].
  destruct (Hr Hst) as (_ & Hdue). apply (due_crash d C); [done|]. eapply transitions_due; [done|by apply Hdue|done].
Qed.

Definition demo_relay : list Op :=
  [OpFail (demo_env 2) (created_id 1001) (str "broker"); OpPublish [created_id 1000]; OpSync].

Lemma created_event_not_lost_witness :
  p_message_id demo_result = 1001 ∧
  Forall (λ d, is_Some (db_get d (EventKey (created_id (p_message_id demo_result)))) ∨
               is_Some (db_get d (FailedKey (created_id (p_message_id demo_result)))))
    (crash_states (run demo_options all_written all_flushed demo_relay demo_sends.1)).
Proof.
  split; [vm_compute; reflexivity|]. apply list.Forall_forall. intros d Hd.
  destruct demo_sent_good as (h & text & Hg & Hs & _).
  refine (created_event_not_lost demo_options all_written all_flushed all_written all_flushed (OpPersists demo_batch_items)
    demo_relay demo_sent demo_sends.1 (demo_contents h text) demo_sends.2 demo_result d
    demo_config Hg Hs _ (surjective_pairing demo_sends) demo_sends_result _ _ _ Hd).
  - split_and!; [repeat constructor; try done; unfold is_u64; cbn; lia|constructor|by intros id ?%elem_of_nil].
  - vm_compute. reflexivity.
  - vm_compute. reflexivity.
  - vm_compute. intros Hin%list_elem_of_singleton. discriminate.
Defined.

(** ** Sends *)

(** Whether a stored message is what a call asks to send. *)
Definition matches (m : MessageView) (i : PrivateMessagePersistInput) : Prop :=
  to_user_id m = in_to i ∧ client_message_id m = in_cid i ∧ message_type m = in_type i ∧ content m = in_content i.

#[export] Instance matches_dec m i : Decision (matches m i).
Proof. unfold matches. apply _. Defined.

Lemma reuse_outcome m i :
  from_user_id m = in_from i →
  p_outcome (ReuseResult m i) = if decide (matches m i) then kReused else kIdempotencyConflict.
Proof.
  intros Hf. cbn [ReuseResult p_outcome]. rewrite Hf, Z.eqb_refl. cbn [andb]. case_decide as Hm.
  - destruct Hm as (-> & -> & -> & ->). by rewrite !Z.eqb_refl, !bool_decide_true.
  - destruct (_ && _) eqn:E; [|done]. destruct Hm. rewrite !andb_true_iff, !Z.eqb_eq, !bool_decide_eq_true in E.
    unfold matches. tauto.
Qed.

Lemma same_matches m m' i : same_message m m' → matches m i ↔ matches m' i.
Proof. intros (_ & S2 & _ & S4 & S5 & S6 & _). unfold matches. by rewrite S2, S4, S5, S6. Qed.

(** C15: A send is exactly one of these: the answer of the message that has its sender
    and identity, nothing changed; a new message, with the next identifier, its event
    and the counters of its receiver, or a refusal.  With a known identity it is refused
    only when the users, the input, the identity or the locks are; with a new one also
    when its texts are refused, a callback refuses, there is no room or a write fails;
    then the messages are as before or the store stops. *)
Theorem send_outcomes {D : Type} `{EngineLaws D} `{JsonLaws} options outcome (s s' : Store D) A e i r :
  ValidConfig options = true → good s A → slots s = [] → input_typed i → env_typed e →
  PersistPrivateMessage options outcome e i s = (s', r) →
  match cids A !! (in_from i, canonical_cid options e (in_cid i)) with
  | Some mid => ∃ m, msgs A !! mid = Some m ∧ r = ReuseResult m i ∧ good s' A ∧ slots s' = []
  | None => r = created_result options A e i (next_id s) ∧
      ∃ text B, with_message options A e i (next_id s) text B ∧ good s' B ∧ slots s' = []
  end ∨
  p_status r ≠ kSucceeded ∧ ¬ send_clean options outcome A s e i ∧
  ((∃ B, same_but_high A B ∧ good s' B ∧ slots s' = []) ∨
   broken s' (λ B, same_but_high A B ∨ ∃ mid text, with_message options A e i mid text B)).
Proof.
  intros Hv Hg Hs Hi He Hc. apply (persist_spec options outcome s A) in Hc; [|by apply ValidConfig_ok|done..].
  destruct Hc as [[(mid & m & Hcid & Hm & -> & Hg' & Hs')|(Hcid & text & B & HB & Hg' & Hs' & ->)]|Hf]; [| |by right];
    left; rewrite Hcid.
  - by exists m.
  - split; [done|]. by exists text, B.
Qed.

Lemma send_outcomes_witness :
  (∃ text B, with_message demo_options (empty_contents 999) (demo_env 1) (demo_input 1 2 "a") (next_id demo_store) text B ∧
     good demo_sent B) ∧ p_outcome demo_persist.2 = kCreated.
Proof.
  split; [|vm_compute; reflexivity].
  destruct (send_outcomes demo_options all_written demo_store demo_sent (empty_contents 999) (demo_env 1)
    (demo_input 1 2 "a") demo_persist.2 demo_config demo_good demo_slots (proj1 demo_typed) (proj2 demo_typed)
    (surjective_pairing demo_persist)) as [Hok|(Hst & _)].
  - cbn [empty_contents cids] in Hok. rewrite lookup_empty in Hok. destruct Hok as (_ & text & B & HB & Hg & _). eauto.
  - exfalso. apply Hst. vm_compute. reflexivity.
Defined.

(** C16: A send repeated after any other operations, batches included, succeeds with the
    first message and stores nothing again, when its users, input and identity are
    valid, there is room for the locks and no failed write has stopped the store: the
    answer is [kReused] when the repeated call asks for the same message and
    [kIdempotencyConflict] otherwise. *)
Theorem resend_answers_first {D : Type} `{EngineLaws D} `{JsonLaws} options outcome outcome1 flushed
    ops (s s1 s3 : Store D) A e i r e' i' r' :
  ValidConfig options = true → good s A → slots s = [] → run_ok (OpPersist e i :: ops) A →
  PersistPrivateMessage options outcome e i s = (s1, r) → p_status r = kSucceeded →
  let s2 := run options outcome1 flushed ops s1 in
  poisoned s2 = false →
  input_typed i' → env_typed e' → in_from i' = in_from i →
  canonical_cid options e' (in_cid i') = canonical_cid options e (in_cid i) →
  dialog_ok options (in_from i') (in_to i') → input_ok i' → identity_ok options e' →
  locks_ok options s2 [in_from i'; in_to i'] →
  PersistPrivateMessage options outcome1 e' i' s2 = (s3, r') →
  p_status r' = kSucceeded ∧ p_message_id r' = p_message_id r ∧ same_message (p_record r) (p_record r') ∧
  p_outcome r' = (if decide (matches (p_record r) i') then kReused else kIdempotencyConflict) ∧
  ∃ B, good s2 B ∧ good s3 B.
Proof.
  intros Hv Hg Hs Hok Hc Hst s2 Hp Hi' He' Hfrom Hcan Hdlg Hin Hid Hlk Hc'. pose proof Hok as ((Hi & He)%List.Forall_inv & _).
  destruct (persist_success options s A e i s1 r outcome) as (B & HB & HgB & HsB & Hm & Hcid & _); [done..|].
  destruct (running_contents options outcome1 flushed ops s1 B Hv HgB HsB (run_ok_after _ _ _ _ _ Hok HB) Hp)
    as (C & HC & HgC & HsC). fold s2 in HgC, HsC. assert (evolves B C) as [Hev Hci _ _] by by eapply transitions_evolve.
  destruct (Hev _ _ Hm) as (m' & Hm' & Hsame & _). pose proof HgC as [[_ _ _ HwfC _ _ _ _] _].
  assert (HcC : cids C !! (in_from i', canonical_cid options e' (in_cid i')) = Some (p_message_id r)).
  { rewrite Hfrom, Hcan. exact (lookup_weaken _ _ _ _ Hcid Hci). }
  apply (persist_spec options outcome1 _ C) in Hc'; [|by apply ValidConfig_ok|done..].
  destruct Hc' as [[(mid & m & E & Hm2 & -> & Hg3 & _)|(E & _)]|(_ & Hn & _)]; [|congruence|].
  2: { exfalso. apply Hn. split_and!; [done..|]. intros E. congruence. }
  rewrite HcC in E. injection E as <-. rewrite Hm' in Hm2. injection Hm2 as <-.
  destruct (wf_msgs C HwfC _ _ Hm') as (Hmid & _). apply (wf_cids C HwfC) in HcC as (m & Hm2 & Hf & _).
  rewrite Hm' in Hm2. injection Hm2 as <-. split_and!; [done|done|done| |by exists C].
  rewrite reuse_outcome by done. by apply decide_ext, iff_sym, same_matches.
Qed.

Definition demo_again : Store OrderedShelf * PersistResult :=
  PersistPrivateMessage demo_options all_written (demo_env 9) (demo_input 1 3 "a")
    (run demo_options all_written all_flushed demo_later demo_sent).

Lemma resend_answers_first_witness :
  p_status demo_again.2 = kSucceeded ∧ p_message_id demo_again.2 = p_message_id demo_persist.2 ∧
  same_message (p_record demo_persist.2) (p_record demo_again.2) ∧
  p_outcome demo_again.2 =
    (if decide (matches (p_record demo_persist.2) (demo_input 1 3 "a")) then kReused else kIdempotencyConflict) ∧
  ∃ B, good (run demo_options all_written all_flushed demo_later demo_sent) B ∧ good demo_again.1 B.
Proof.
  refine (resend_answers_first demo_options all_written all_written all_flushed demo_later demo_store demo_sent demo_again.1
    (empty_contents 999) (demo_env 1) (demo_input 1 2 "a") demo_persist.2 (demo_env 9) (demo_input 1 3 "a") demo_again.2
    demo_config demo_good demo_slots (demo_ops_ok (empty_contents 999) eq_refl) (surjective_pairing demo_persist)
    _ _ _ _ _ _ _ _ _ _ (surjective_pairing demo_again)); try (vm_compute; reflexivity).
  - split; unfold is_u64; cbn; lia.
  - split_and!; [split; [cbn; lia|right; left]|split; [cbn; lia|right; right; right; left]|cbn; lia].
  - split_and!; vm_compute; discriminate.
  - intros [=].
  - intros _. split; [repeat constructor; cbn; lia|]. vm_compute. discriminate.
Defined.

(** ** Confirmations and reads *)

(** A batch of confirmations is carried out whole or not at all: when every message
    of the batch exists, once, and belongs to a known user, all those still pending are
    confirmed in one write and counted; otherwise, and when the write fails, none is.
    It is refused only for those reasons and for its size, its locks or the clock. *)
Theorem batch_confirmed_whole {D : Type} `{EngineLaws D} `{JsonLaws} options outcome (s s' : Store D) A e mids r :
  good s A → slots s = [] → Forall is_u64 mids →
  ConfirmReceiverBatch options outcome e mids s = (s', r) →
  (batch_ok options A mids ∧ r = MkMutation kSucceeded (Z.of_nat (length (pending_in A mids))) [] ∧
   good s' (confirm_all A (Now e) (pending_in A mids)) ∧ slots s' = []) ∨
  (m_status r ≠ kSucceeded ∧ m_affected_rows r = 0 ∧
   ¬ (mids ≠ [] ∧ (length mids ≤ 100)%nat ∧ batch_ok options A mids ∧ locks_ok options s (receiver_of A <$> mids) ∧
      utf8 (Now e) = true ∧ ∀ n, outcome n = Written) ∧
   ((∃ B, same_but_high A B ∧ good s' B ∧ slots s' = []) ∨
    broken s' (λ B, same_but_high A B ∨ B = confirm_all A (Now e) (pending_in A mids)))).
Proof. intros Hg Hs Hu Hc. exact (confirm_batch_spec options outcome s A e mids s' r Hg Hs Hu Hc). Qed.

Definition demo_batch : Store OrderedShelf * MutationResult :=
  ConfirmReceiverBatch demo_options all_written (demo_env 2) [1000] demo_sent.

Lemma batch_confirmed_whole_witness :
  ∃ A, good demo_sent A ∧ good demo_batch.1 (confirm_all A (Now (demo_env 2)) (pending_in A [1000])) ∧
       demo_batch.2 = MkMutation kSucceeded 1 [].
Proof.
  destruct demo_sent_good as (h & text & Hg & Hs & _). exists (demo_contents h text). split; [exact Hg|].
  destruct (batch_confirmed_whole demo_options all_written demo_sent demo_batch.1 (demo_contents h text) (demo_env 2) [1000]
    demo_batch.2 Hg Hs ltac:(repeat constructor; unfold is_u64; lia) (surjective_pairing demo_batch))
    as [(_ & _ & Hg' & _)|(Hst & _)].
  - split; [exact Hg'|]. vm_compute. reflexivity.
  - exfalso. apply Hst. vm_compute. reflexivity.
Defined.

(** Reading a dialog marks exactly the messages from the peer to the reader that
    were not read, answers how many they were, and leaves no unread message in the
    dialog and that many fewer in total, as the unread snapshot then answers; it is
    refused only when a check fails, there is no room for its event or a write fails. *)
Theorem read_marks_unread {D : Type} `{EngineLaws D} `{JsonLaws} options outcome (s s' : Store D) A e reader peer r :
  ValidConfig options = true → good s A → slots s = [] → is_u64 reader → is_u64 peer →
  copies A !! read_id e reader peer = None →
  MarkDialogRead options outcome e reader peer s = (s', r) →
  let n := cnt (unread_from peer reader) (msgs A) in
  (r = MkMutation kSucceeded n [] ∧ ∃ B, good s' B ∧ slots s' = [] ∧
     (∀ mid, msgs B !! mid = (λ m, if unread_from peer reader m then mark_read (Now e) m else m) <$> msgs A !! mid) ∧
     (dialog_ok options reader peer →
      ReadUnreadSnapshot options reader peer s' = (s', MkLocalUnread kSucceeded 0 (cnt (unread_of reader) (msgs A) - n) []))) ∨
  (m_status r ≠ kSucceeded ∧ ¬ read_clean options outcome A s e reader peer ∧
   ((∃ B, same_but_high A B ∧ good s' B ∧ slots s' = []) ∨
    broken s' (λ B, same_but_high A B ∨ ∃ text, B = after_read A e reader peer text))).
Proof.
  intros Hv Hg Hs Hr Hp Hnew Hc n. apply (read_spec options outcome s A) in Hc; [|by apply ValidConfig_ok|done..].
  destruct Hc as [(-> & Hs' & HB)|(? & _ & ? & ?)]; [left|by right]. split; [done|].
  assert (∃ B, good s' B ∧ msgs B = msgs (read_all A (Now e) reader peer)) as (B & HgB & HmB).
  { destruct HB as [[Hz Hg']|(_ & text & Hg')]; [|by eexists; split; [exact Hg'|]]. exists A. split; [done|].
    apply map_eq. intros k. symmetry. apply lookup_unchanged. intros m Hm. exact (proj1 (cnt_zero _ _) Hz k m Hm). }
  exists B. split_and!; [done|done| |].
  - intros mid. rewrite HmB. cbn [read_all with_msgs msgs]. by rewrite lookup_upd.
  - intros Hd. destruct (ReadUnreadSnapshot options reader peer s') as [s2 r2] eqn:Hc2.
    apply (unread_spec options s' B) in Hc2 as [-> [->|[? _]]]; [|done..].
    by rewrite HmB, read_unread_from, read_unread_of.
Qed.

Definition demo_read : Store OrderedShelf * MutationResult :=
  MarkDialogRead demo_options all_written (demo_env 3) 2 1 demo_sent.

Lemma read_marks_unread_witness :
  demo_read.2 = MkMutation kSucceeded 1 [] ∧ (ReadUnreadSnapshot demo_options 2 1 demo_read.1).2 = MkLocalUnread kSucceeded 0 0 [].
Proof.
  destruct demo_sent_good as (h & text & Hg & Hs & _).
  destruct (read_marks_unread demo_options all_written demo_sent demo_read.1 (demo_contents h text) (demo_env 3) 2 1
    demo_read.2 demo_config Hg Hs) as [(_ & B & _)|(Hst & _)].
  - unfold is_u64. lia.
  - unfold is_u64. lia.
  - cbn [demo_contents add_message copies with_high empty_contents]. rewrite lookup_insert_ne; [apply lookup_empty|].
    vm_compute. discriminate.
  - exact (surjective_pairing demo_read).
  - split; vm_compute; reflexivity.
  - exfalso. apply Hst. vm_compute. reflexivity.
Defined.

(** ** Queries *)

(** C17: After any run of the operations that change a store, unless a failed write has
    stopped it, the queries answer for one set of messages, the one the transitions lead
    to: a page of a dialog's history is the newest messages of the
    dialog before the cursor, oldest first, a page of pending messages the first pending
    messages of the receiver after the cursor in order, and the counters of pending
    messages, of unread messages of a dialog and of all unread messages of a receiver
    are the numbers of such messages. *)
Theorem queries_answer_contents {D : Type} `{EngineLaws D} `{JsonLaws} options outcome flushed ops (s : Store D) A :
  ValidConfig options = true → good s A → slots s = [] → run_ok ops A →
  let s' := run options outcome flushed ops s in
  poisoned s' = false →
  ∃ B, transitions options ops A B ∧
    (∀ mid, is_u64 mid → 0 < mid → GetPrivateMessage mid s' = (s', MkGet kSucceeded (msgs B !! mid) [])) ∧
    (∀ actor peer before limit, is_u64 actor → is_u64 peer → is_u64 before → dialog_ok options actor peer → 0 < limit ≤ 1001 →
       ListHistory options actor peer before limit s' = (s', history_page B actor peer before limit)) ∧
    (∀ receiver after limit, is_u64 receiver → is_u64 after → actor_ok options receiver → 0 < limit ≤ 1001 →
       ListPendingAfter options receiver after limit s' = (s', pending_page B receiver after limit)) ∧
    (∀ receiver, is_u64 receiver → actor_ok options receiver →
       CountPending options receiver s' = (s', MkCount kSucceeded (cnt (pending_of receiver) (msgs B)) [])) ∧
    (∀ receiver peer, is_u64 receiver → is_u64 peer → dialog_ok options receiver peer →
       ReadUnreadSnapshot options receiver peer s' =
         (s', MkLocalUnread kSucceeded (cnt (unread_from peer receiver) (msgs B)) (cnt (unread_of receiver) (msgs B)) [])).
Proof.
  intros Hv Hg Hs Hok s' Hp. destruct (running_contents options outcome flushed ops s A Hv Hg Hs Hok Hp) as (B & HB & HgB & HsB).
  fold s' in HgB, HsB. exists B. split_and!; [done|..].
  - intros mid Hm Hpos. by apply get_message.
  - intros actor peer before limit Ha Hpe Hb Hd Hl. destruct (ListHistory options actor peer before limit s') as [s2 r2] eqn:Hc.
    by apply (history_spec options s' B) in Hc as [-> [->|[[] _]]].
  - intros receiver after limit Hr Ha Hac Hl. destruct (ListPendingAfter options receiver after limit s') as [s2 r2] eqn:Hc.
    by apply (pending_after_spec options s' B) in Hc as [-> [->|[[] _]]].
  - intros receiver Hr Ha. destruct (CountPending options receiver s') as [s2 r2] eqn:Hc.
    by apply (count_pending_spec options s' B) in Hc as [-> [->|[? _]]].
  - intros receiver peer Hr Hpe Hd. destruct (ReadUnreadSnapshot options receiver peer s') as [s2 r2] eqn:Hc.
    by apply (unread_spec options s' B) in Hc as [-> [->|[? _]]].
Qed.

Lemma queries_answer_contents_witness :
  let s' := run demo_options all_written all_flushed demo_ops demo_store in
  (∃ B, transitions demo_options demo_ops (empty_contents 999) B ∧
     ListHistory demo_options 2 1 0 10 s' = (s', history_page B 2 1 0 10) ∧
     CountPending demo_options 2 s' = (s', MkCount kSucceeded (cnt (pending_of 2) (msgs B)) [])) ∧
  length (l_records (ListHistory demo_options 2 1 0 10 s').2) = 1%nat ∧
  (CountPending demo_options 2 s').2 = MkCount kSucceeded 0 [].
Proof.
  intros s'. split; [|split; vm_compute; reflexivity].
  destruct (queries_answer_contents demo_options all_written all_flushed demo_ops demo_store (empty_contents 999)
    demo_config demo_good demo_slots (demo_ops_ok (empty_contents 999) eq_refl)) as (B & HB & _ & Hh & _ & Hc & _).
  - vm_compute. reflexivity.
  - assert (actor_ok demo_options 2 ∧ actor_ok demo_options 1) as [H2 H1].
    { split; (split; [lia|right]); [right; left|left]. }
    exists B. split; [exact HB|]. split; [|apply Hc; [unfold is_u64; lia|exact H2]].
    apply Hh; try (unfold is_u64; lia). split; [exact H2|]. split; [exact H1|lia].
Defined.

(** C18: The index of pending events answers as the engine: on stores with the same
    contents the page taken from the index and the page taken by an iterator are equal,
    whatever the cursor, the limit and the held events. *)
Theorem event_index_equals_scan {D : Type} `{EngineLaws D} `{JsonLaws} options options' (s t : Store D) A after limit held :
  good s A → slots s = [] → good t A → slots t = [] →
  pending_index_enabled s = true → pending_index_enabled t = false → page_clean after limit held →
  (ListPendingEventPage options after limit held s).2 = (ListPendingEventPage options' after limit held t).2.
Proof.
  intros Hg Hs Hg' Hs' _ _ Hcl.
  destruct (ListPendingEventPage options after limit held s) as [s2 r] eqn:Hc.
  destruct (ListPendingEventPage options' after limit held t) as [t2 r'] eqn:Hc'.
  apply (page_spec options s A) in Hc as [[_ Hp]|(_ & _ & ?)]; [|done..].
  apply (page_spec options' t A) in Hc' as [[_ Hp']|(_ & _ & ?)]; [|done..].
  cbn. by eapply page_unique.
Qed.

Definition demo_scanning : LocalPrivateStoreOptions :=
  MkOptions (str "store") (str "message-events") 1000 [1; 2; 3] (1024 * 1024) 100 true false
    (str "fixture-raw-bytes-v1") false false false false true true.
Definition demo_reopened (options : LocalPrivateStoreOptions) : Store OrderedShelf :=
  (Recover options all_written all_flushed (db demo_sent)).1.

Lemma demo_reopened_good options h text :
  good demo_sent (demo_contents h text) → ValidConfig options = true → first_message_id options = 1000 →
  good (demo_reopened options) (demo_contents h text) ∧ slots (demo_reopened options) = [].
Proof.
  intros [[_ _ HR Hwf Hh _ _ _] _] Hv Hf.
  destruct (recover_spec options all_written all_flushed (db demo_sent) (demo_contents h text)) as (s & Hr & (Hg & Hs & _) & _);
    [exact HR|exact Hwf|exact Hv| |done|].
  - unfold openable. rewrite Hh, Hf. assert (reserved_end demo_sent = 5095) as -> by (vm_compute; reflexivity). lia.
  - unfold demo_reopened. rewrite Hr. done.
Qed.

Lemma event_index_equals_scan_witness :
  (ListPendingEventPage demo_options [] 10 None (demo_reopened demo_options)).2 =
  (ListPendingEventPage demo_scanning [] 10 None (demo_reopened demo_scanning)).2 ∧
  length (le_events (ListPendingEventPage demo_options [] 10 None (demo_reopened demo_options)).2) = 1%nat.
Proof.
  split; [|vm_compute; reflexivity]. destruct demo_sent_good as (h & text & Hg & _).
  destruct (demo_reopened_good demo_options h text Hg demo_config eq_refl) as [Hg1 Hs1].
  destruct (demo_reopened_good demo_scanning h text Hg ltac:(vm_compute; reflexivity) eq_refl) as [Hg2 Hs2].
  apply (event_index_equals_scan demo_options demo_scanning (demo_reopened demo_options) (demo_reopened demo_scanning)
    (demo_contents h text) [] 10 None Hg1 Hs1 Hg2 Hs2).
  - vm_compute. reflexivity.
  - vm_compute. reflexivity.
  - split; [lia|]. split; [by left|exact I].
Defined.

(** ** The end of the identifiers *)

Definition last_options : LocalPrivateStoreOptions :=
  MkOptions (str "store") (str "message-events") (2 ^ 63 - 1 - 4097) [1; 2; 3] (1024 * 1024) 100 true false
    (str "fixture-raw-bytes-v1") false false false true true true.
Definition last_sent : Store OrderedShelf * PersistResult :=
  PersistPrivateMessage last_options all_written (demo_env 1) (demo_input 1 2 "a")
    (Recover last_options all_written all_flushed new_shelf).1.

(** With a first identifier the configuration accepts, a store can take a message and
    then refuse to open again: the reservation moves the high-water mark past the range
    that is accepted on opening. *)
Lemma reservation_locks_store_out :
  ValidConfig last_options = true ∧ p_status last_sent.2 = kSucceeded ∧ poisoned last_sent.1 = false ∧
  (Recover last_options all_written all_flushed (db last_sent.1)).2 =
    inl (EFailure kInvalidRecord (str "invalid local MID high-water mark")).
Proof. split_and!; vm_compute; reflexivity. Qed.
