(* ===== verification/LocalRepository.v ===== *)
(** * The message service on the local store

    Models [src/services/message/local/LocalMessageRepositoryAdapter.h]: the repository
    port with private messages in the local store and groups in another repository.
    The state of the adapter is that of both and the number of calls, whose
    environments (clock, callbacks) are given by [clock].  A confirmation batch holds
    the callers that are ready; a caller that finds no other runs alone.

    The client of the port is the application service: [Serves] is what a repository
    promises about pending messages, [service_drains] is proved against it, and the
    local store keeps the promise ([store_serves]). *)
From Stdlib Require Import ZArith Lia String.
From stdpp Require Import base list numbers sorting option gmap.
From S2P Require Import Prelude ByteStrings MessageTypes MessageApplicationService KeyValueEngine DomainEvents LocalPrivateStore LocalStoreKeys LocalStoreModel LocalStoreInvariant LocalStoreChanges LocalStoreSteps LocalStoreQueries LocalStoreRecovery LocalStoreExample.

Local Open Scope Z_scope.

(** ** The adapter *)

Record Adapter (D G : Type) := MkAdapter { ad_store : Store D; ad_groups : G; ad_calls : nat }.
Arguments MkAdapter {D G}.
Arguments ad_store {D G}.
Arguments ad_groups {D G}.
Arguments ad_calls {D G}.

Section Adapter.
Context {D : Type} `{Engine D} `{JsonLibrary} {G : Type} `{Groups : MessageRepositoryPort G}.
Variable options : LocalPrivateStoreOptions.
Variable outcome : Z → WriteOutcome.
Variable receiver_confirmation_batch_enable : bool.
Variable clock : nat → Env.
Local Abbreviation S := (Adapter D G).

Definition on_store {R} (f : Env → Store D → Store D * R) (a : S) : S * R :=
  let '(s, r) := f (clock (ad_calls a)) (ad_store a) in
  (MkAdapter s (ad_groups a) (ad_calls a + 1), r).
Definition on_read {R} (f : Store D → Store D * R) (a : S) : S * R :=
  let '(s, r) := f (ad_store a) in (MkAdapter s (ad_groups a) (ad_calls a), r).
Definition on_groups {R} (f : G → G * R) (a : S) : S * R :=
  let '(g, r) := f (ad_groups a) in (MkAdapter (ad_store a) g (ad_calls a), r).

Definition ad_PersistPrivateMessages (a : S) (inputs : list PrivateMessagePersistInput) : S * list PersistResult :=
  let '(s, r) := LocalPrivateStore.PersistPrivateMessages options outcome
                   (imap (λ n i, (i, clock (ad_calls a + n)%nat)) inputs) (ad_store a) in
  (MkAdapter s (ad_groups a) (ad_calls a + length inputs), r).

Definition ad_ConfirmReceiver (a : S) (mid : Z) : S * MutationResult :=
  on_store (λ e s,
    let '(s, found) := LocalPrivateStore.GetPrivateMessage mid s in
    if negb (Found found) then
      (s, MkMutation (if bool_decide (g_status found = kSucceeded) then kNotFound else g_status found) 0 (g_message found))
    else LocalPrivateStore.ConfirmReceiver options outcome e mid (to_user_id (default no_message (g_record found))) s) a.

(** [BoundedCallerBatch::Run] of a caller with no other: the batch is its input. *)
Definition RunAlone (execute : list OwnedReceiverConfirmation → Store D → Store D * list MutationResult)
    (input : OwnedReceiverConfirmation) (failure : MutationResult) (s : Store D) : Store D * MutationResult :=
  let '(s, results) := execute [input] s in
  (s, match results with [r] => r | _ => failure end).

Definition ad_TryConfirmReceiverOwnedIfPending (a : S) (mid actor : Z) : S * option MutationResult :=
  let '(a, r) := on_store (λ e s,
    if negb receiver_confirmation_batch_enable then LocalPrivateStore.ConfirmReceiver options outcome e mid actor s
    else RunAlone (ConfirmReceiverRequests options outcome e) (MkOwned mid actor)
           (MkMutation kStorageError 0 (str "native receiver confirmation batch unavailable or overloaded")) s) a in
  (a, Some r).

#[export] Instance LocalMessageRepositoryAdapter : MessageRepositoryPort S := {
  repo_ListPendingRecipientsAfter a after limit :=
    on_read (LocalPrivateStore.ListPendingRecipientsAfter after limit) a;
  repo_ListGroupHistory a actor group before limit :=
    on_groups (λ g, repo_ListGroupHistory g actor group before limit) a;
  repo_FindPrivateMessageByClientMessageId a from cid :=
    on_store (λ e, LocalPrivateStore.FindPrivateMessageByClientMessageId options e from cid) a;
  repo_PersistPrivateMessage a i := on_store (λ e, LocalPrivateStore.PersistPrivateMessage options outcome e i) a;
  repo_PersistPrivateMessages := ad_PersistPrivateMessages;
  repo_FindGroupMessageByClientMessageId a from cid :=
    on_groups (λ g, repo_FindGroupMessageByClientMessageId g from cid) a;
  repo_PersistAuthorizedGroupMessage a i token := on_groups (λ g, repo_PersistAuthorizedGroupMessage g i token) a;
  repo_GetGroupMessageDelivery a mid recipient := on_groups (λ g, repo_GetGroupMessageDelivery g mid recipient) a;
  repo_ClaimGroupMessageDeliveries a owner token limit lease mid :=
    on_groups (λ g, repo_ClaimGroupMessageDeliveries g owner token limit lease mid) a;
  repo_ClaimGroupMessageDeliveriesForRecipient a recipient owner token limit lease :=
    on_groups (λ g, repo_ClaimGroupMessageDeliveriesForRecipient g recipient owner token limit lease) a;
  repo_CompleteGroupMessageDeliveryAttempt a c := on_groups (λ g, repo_CompleteGroupMessageDeliveryAttempt g c) a;
  repo_ConfirmGroupMessageDelivery a mid recipient :=
    on_groups (λ g, repo_ConfirmGroupMessageDelivery g mid recipient) a;
  repo_GetPrivateMessage a mid := on_read (LocalPrivateStore.GetPrivateMessage mid) a;
  repo_ListHistory a actor peer before limit :=
    on_read (LocalPrivateStore.ListHistory options actor peer before limit) a;
  repo_ListConversations a actor limit := on_read (LocalPrivateStore.ListConversations options actor limit) a;
  repo_CountPending a to_user := on_read (LocalPrivateStore.CountPending options to_user) a;
  repo_ListPendingAfter a to_user after limit :=
    on_read (LocalPrivateStore.ListPendingAfter options to_user after limit) a;
  repo_ConfirmReceiver := ad_ConfirmReceiver;
  repo_ConfirmReceiverBatch a mids := on_store (λ e, LocalPrivateStore.ConfirmReceiverBatch options outcome e mids) a;
  repo_MarkDialogRead a reader peer := on_store (λ e, LocalPrivateStore.MarkDialogRead options outcome e reader peer) a;
  repo_CompleteGroupMessageDeliveryAttempts a cs := on_groups (λ g, repo_CompleteGroupMessageDeliveryAttempts g cs) a;
  repo_TryConfirmReceiverOwnedIfPending := ad_TryConfirmReceiverOwnedIfPending;
}.

End Adapter.

(** ** Paging *)

Section Paging.
Context {S : Type} `{Repo : MessageRepositoryPort S}.
Implicit Types (ms : list MessageView).

(** What a repository promises about the pending messages of a receiver: pages are
    taken from one ordered list. *)
Record Serves (s : S) (to_user : Z) ms : Prop := {
  sv_sorted : StronglySorted (λ m m', message_id m < message_id m') ms;
  sv_messages : Forall (λ m, 0 < message_id m ∧ is_u64 (message_id m) ∧ to_user_id m = to_user ∧ delivery_state m = kPending) ms;
  sv_page : ∀ after limit, is_u64 after → 0 < limit ≤ kMaxPendingPageLimit →
    repo_ListPendingAfter s to_user after limit =
    (s, MkList kSucceeded (take (Z.to_nat limit) (filter (λ m, after < message_id m) ms)) []);
}.

(** A client that asks for pages until there are no more. *)
Fixpoint drain (fuel : nat) (svc : Service) (to_user after limit : Z) : Service * option (list MessageView) :=
  match fuel with
  | O => (svc, None)
  | Datatypes.S fuel =>
      let '(svc, page) := MessageApplicationService.ListPendingAfter svc to_user after limit in
      if negb (bool_decide (pg_status page = kSucceeded)) then (svc, None)
      else if negb (pg_has_more page) then (svc, Some (pg_records page))
      else match last (pg_records page) with
      | None => (svc, None)
      | Some m =>
          let '(svc, rest) := drain fuel svc to_user (message_id m) limit in
          (svc, (λ rest, pg_records page ++ rest) <$> rest)
      end
  end.

Lemma AddFields_bound b fs n : b ≤ kMaxPendingPageBytes → AddFields b fs = Some n → n ≤ kMaxPendingPageBytes.
Proof.
  revert b. induction fs as [|f fs IH]; intros b Hb; cbn [AddFields]; [by intros [= ->]|].
  destruct (Z.ltb_spec (kMaxPendingPageBytes - b) (bsize f)); [done|]. apply IH. lia.
Qed.

Lemma TakeFitting_pos m ms : is_Some (RecordBytes m) → (0 < TakeFitting 0 (m :: ms))%nat.
Proof.
  intros [n Hn]. cbn [TakeFitting]. rewrite Hn.
  assert (n ≤ kMaxPendingPageBytes) by (eapply AddFields_bound; [|exact Hn]; unfold kPendingRecordOverheadBytes, kMaxPendingPageBytes; lia).
  destruct (Z.ltb_spec (kMaxPendingPageBytes - 0) n); lia.
Qed.

Lemma TakeFitting_le b ms : (TakeFitting b ms ≤ length ms)%nat.
Proof.
  revert b. induction ms as [|m ms IH]; intros b; cbn [TakeFitting length]; [lia|].
  destruct (RecordBytes m) as [n|]; [|lia]. destruct (_ <? n); [lia|]. specialize (IH (b + n)). lia.
Qed.

Lemma ValidPendingPage_ok to_user after ms :
  StronglySorted (λ m m', message_id m < message_id m') ms →
  Forall (λ m, 0 < message_id m ∧ to_user_id m = to_user ∧ delivery_state m = kPending) ms →
  Forall (λ m, after < message_id m) ms → ValidPendingPage to_user after ms = true.
Proof.
  revert after. induction ms as [|m ms IH]; intros after Hs Hm Ha; [done|]. cbn [ValidPendingPage].
  apply StronglySorted_cons in Hs as [Hlt Hs]. apply list.Forall_cons in Hm as [(Hp & -> & ->) Hm].
  apply list.Forall_cons in Ha as [Ha _]. rewrite bool_decide_true, Z.eqb_refl by done. cbn [negb orb].
  rewrite (proj2 (Z.eqb_neq _ _)), (proj2 (Z.leb_gt _ _)) by lia. cbn [orb]. by apply IH.
Qed.

Lemma list_filter_none {B} (P : B → Prop) `{∀ x, Decision (P x)} (l : list B) : (∀ x, x ∈ l → ¬ P x) → filter P l = [].
Proof.
  induction l as [|x l IH]; intros Hn; [done|]. rewrite list.filter_cons_False by (apply Hn; left).
  apply IH. intros y Hy. apply Hn. by right.
Qed.
Lemma list_filter_all {B} (P : B → Prop) `{∀ x, Decision (P x)} (l : list B) : (∀ x, x ∈ l → P x) → filter P l = l.
Proof.
  induction l as [|x l IH]; intros Hn; [done|]. rewrite list.filter_cons_True by (apply Hn; left). f_equal.
  apply IH. intros y Hy. apply Hn. by right.
Qed.

Definition after_id (after : Z) ms : list MessageView := filter (λ m, after < message_id m) ms.

Lemma after_id_drop ms after n m :
  StronglySorted (λ m m', message_id m < message_id m') ms →
  last (take n (after_id after ms)) = Some m → after_id (message_id m) ms = drop n (after_id after ms).
Proof.
  intros Hs Hm. set (l := after_id after ms) in *.
  assert (Hsl : StronglySorted (λ m m', message_id m < message_id m') l)
    by (eapply sorted_sublist; [apply sublist_filter|done]).
  assert (Hml : after < message_id m).
  { apply last_Some_elem_of in Hm. assert (m ∈ l) as Hin by (eapply elem_of_sublist; [done|apply sublist_take]).
    by apply list_elem_of_filter in Hin as [? _]. }
  assert (after_id (message_id m) ms = after_id (message_id m) l) as ->.
  { unfold after_id at 1 2. unfold l, after_id. clear -Hml. induction ms as [|x ms IH]; [done|].
    rewrite !list.filter_cons. repeat case_decide; rewrite ?list.filter_cons; repeat case_decide; try lia; by rewrite IH. }
  destruct (proj1 (last_Some _ _) Hm) as (p & Hp). pose proof (take_drop n l) as Hl. rewrite Hp in Hl.
  rewrite <- Hl in Hsl. apply StronglySorted_app in Hsl as (Hall & Hsp & _).
  rewrite <- Hl at 1. unfold after_id at 1. rewrite list.filter_app, list_filter_none, list_filter_all; [done|..].
  - intros y Hy. apply Hall; [|done]. apply elem_of_app. right. by apply list_elem_of_singleton.
  - intros x [Hx| ->%list_elem_of_singleton]%elem_of_app; [|lia].
    apply StronglySorted_app in Hsp as (Hsp & _ & _). specialize (Hsp x m Hx). cbn in Hsp.
    rewrite list_elem_of_singleton in Hsp. specialize (Hsp eq_refl). lia.
Qed.

(** One page: a part of what is left, all of it when there is no more. *)
Lemma page_step s to_user ms after limit :
  Serves s to_user ms → Forall (λ m, is_Some (RecordBytes m)) ms → to_user ≠ 0 → is_u64 after →
  0 < limit ≤ kMaxPendingPageLimit →
  ∃ n more text,
    MessageApplicationService.ListPendingAfter (Some s) to_user after limit =
      (Some s, MkPage kSucceeded (take n (after_id after ms)) more text) ∧
    if more then (0 < n ≤ length (after_id after ms))%nat else take n (after_id after ms) = after_id after ms.
Proof.
  intros [Hs Hm Hpage] Hfit Hu Ha Hl. unfold MessageApplicationService.ListPendingAfter.
  rewrite (proj2 (Z.eqb_neq to_user 0)), (proj2 (Z.eqb_neq limit 0)), (proj2 (Z.ltb_ge kMaxPendingPageLimit limit)) by lia.
  cbn [orb WithRepository]. rewrite (Hpage after limit Ha Hl). cbn [l_status l_records]. rewrite bool_decide_true by done.
  cbn [negb]. fold (after_id after ms). set (l := after_id after ms). set (recs := take (Z.to_nat limit) l).
  assert (Hsub : recs `sublist_of` ms) by (etrans; [apply sublist_take|apply sublist_filter]).
  assert (Hin : ∀ m, m ∈ recs → m ∈ ms) by (intros m Hin; by eapply elem_of_sublist).
  rewrite (proj2 (Z.ltb_ge limit _)) by (unfold recs; rewrite length_take; lia).
  rewrite ValidPendingPage_ok; cbn [negb]; cycle 1.
  { by eapply sorted_sublist. }
  { apply list.Forall_forall. intros m Hr%Hin. by apply (proj1 (list.Forall_forall _ _) Hm) in Hr as (? & _ & ? & ?). }
  { apply list.Forall_forall. intros m Hr. assert (m ∈ l) as Hr' by (eapply elem_of_sublist; [done|apply sublist_take]).
    by apply list_elem_of_filter in Hr' as [? _]. }
  set (n := TakeFitting 0 recs). pose proof (TakeFitting_le 0 recs) as Hn. fold n in Hn.
  assert (Hlen : (length recs = Nat.min (Z.to_nat limit) (length l))%nat) by apply length_take.
  assert (Hpos : recs ≠ [] → (0 < n)%nat).
  { unfold n. destruct recs as [|m rest] eqn:E; [done|]. intros _. apply TakeFitting_pos.
    apply (proj1 (list.Forall_forall _ _) Hfit). apply Hin. left. }
  assert (Hnz : (n =? 0)%nat && negb (bool_decide (recs = [])) = false).
  { destruct (Nat.eqb_spec n 0) as [Hz|]; [|done]. destruct (decide (recs = [])) as [->|Hne]; [done|].
    specialize (Hpos Hne). lia. }
  rewrite Hnz. assert (Htk : take n recs = take n l) by (unfold recs; rewrite take_take; f_equal; lia).
  exists n. eexists _, _. split; [by rewrite Htk|].
  destruct (Nat.ltb_spec n (length recs)); cbn [orb]; [|destruct (Z.eqb_spec (Z.of_nat (length recs)) limit)].
  - split; [apply Hpos; by destruct recs; cbn in *; [lia|]|lia].
  - split; [apply Hpos; destruct recs; cbn in *; [lia|done]|lia].
  - apply take_ge. lia.
Qed.

Lemma drain_ok s to_user ms limit :
  Serves s to_user ms → Forall (λ m, is_Some (RecordBytes m)) ms → to_user ≠ 0 → 0 < limit ≤ kMaxPendingPageLimit →
  ∀ fuel after, is_u64 after → (length (after_id after ms) < fuel)%nat →
  drain fuel (Some s) to_user after limit = (Some s, Some (after_id after ms)).
Proof.
  intros Hsv Hfit Hu Hl fuel. induction fuel as [|fuel IH]; intros after Ha Hf; [lia|]. cbn [drain].
  destruct (page_step s to_user ms after limit Hsv Hfit Hu Ha Hl) as (n & more & text & -> & Hn).
  cbn [pg_status pg_has_more pg_records]. rewrite bool_decide_true by done. cbn [negb]. destruct more; cbn [negb]; [|by rewrite Hn].
  destruct (last (take n (after_id after ms))) as [m|] eqn:Hm.
  - assert (Hin : m ∈ ms).
    { apply last_Some_elem_of in Hm. eapply elem_of_sublist; [done|]. etrans; [apply sublist_take|apply sublist_filter]. }
    destruct Hsv as [Hs Hmsg Hp]. apply (proj1 (list.Forall_forall _ _) Hmsg) in Hin as (_ & Hmid & _).
    pose proof (after_id_drop ms after n m Hs Hm) as Hd.
    rewrite IH; [|done|rewrite Hd, length_drop; lia]. cbn. by rewrite Hd, take_drop.
  - apply last_None in Hm. destruct (after_id after ms); cbn in Hm, Hn; [lia|]. destruct n; [lia|done].
Qed.

End Paging.

(** ** The local store as the repository *)

Section StoreServes.
Context {D : Type} `{EngineLaws D} `{JsonLaws} {G : Type} `{Groups : MessageRepositoryPort G}.
Variable options : LocalPrivateStoreOptions.
Variable outcome : Z → WriteOutcome.
Variable batching : bool.
Variable clock : nat → Env.
Implicit Types (s : Store D) (A : Contents).
#[local] Instance the_adapter : MessageRepositoryPort (Adapter D G) :=
  LocalMessageRepositoryAdapter options outcome batching clock.

(** The pending messages of a receiver. *)
Definition pending_messages A (receiver : Z) : list MessageView :=
  views (msgs A) (ids_where (λ _ m, pending_of receiver m) (msgs A)).

Definition present A (l : list Z) : Prop := ∀ k, k ∈ l → ∃ m, msgs A !! k = Some m ∧ message_id m = k.

Lemma present_cons A k l : present A (k :: l) → (∃ m, msgs A !! k = Some m ∧ message_id m = k) ∧ present A l.
Proof. intros Hp. split; [apply Hp; left|]. intros k' Hk'. apply Hp. by right. Qed.

Lemma views_cons A k l m : msgs A !! k = Some m → views (msgs A) (k :: l) = m :: views (msgs A) l.
Proof. intros Hm. unfold views. cbn [omap list_omap]. by rewrite Hm. Qed.

Lemma views_take A n l : present A l → views (msgs A) (take n l) = take n (views (msgs A) l).
Proof.
  revert n. induction l as [|k l IH]; intros n Hp; [by rewrite take_nil; destruct n|].
  apply present_cons in Hp as [(m & Hm & _) Hp]. destruct n as [|n]; [done|]. cbn [take].
  rewrite !(views_cons A k _ m) by done. cbn [take]. by rewrite IH.
Qed.

Lemma views_filter A after l :
  present A l → views (msgs A) (filter (λ k, after < k) l) = filter (λ m, after < message_id m) (views (msgs A) l).
Proof.
  induction l as [|k l IH]; intros Hp; [done|]. apply present_cons in Hp as [(m & Hm & Hid) Hp].
  rewrite (views_cons A k l m), !list.filter_cons by done. rewrite Hid. case_decide; [|by apply IH].
  rewrite (views_cons A k _ m) by done. by rewrite IH.
Qed.

Lemma views_sorted A l :
  present A l → StronglySorted Z.lt l → StronglySorted (λ m m', message_id m < message_id m') (views (msgs A) l).
Proof.
  induction l as [|k l IH]; intros Hp Hs; [constructor|]. apply present_cons in Hp as [(m & Hm & Hid) Hp].
  apply StronglySorted_cons in Hs as [Hk Hs]. rewrite (views_cons A k l m) by done. apply StronglySorted_cons.
  split; [|by apply IH]. apply list.Forall_forall. intros m' Hm'. apply list_elem_of_omap in Hm' as (k' & Hk' & Hm').
  destruct (Hp k' Hk') as (m'' & Hm'' & Hid'). rewrite Hm'' in Hm'. injection Hm' as <-. rewrite Hid, Hid'.
  by apply (proj1 (list.Forall_forall _ _) Hk).
Qed.

Lemma ids_after_filter A P after :
  ids_where (λ k m, P m && (after <? k)) (msgs A) = filter (λ k, after < k) (ids_where (λ _ m, P m) (msgs A)).
Proof.
  apply (sorted_unique Z.lt); [lia|apply ids_where_sorted| |].
  - eapply sorted_sublist; [apply sublist_filter|apply ids_where_sorted].
  - intros k. rewrite list_elem_of_filter, !elem_of_ids_where. split.
    + intros (m & Hm & [HP ?%Z.ltb_lt]%andb_true_iff). eauto.
    + intros [Hlt (m & Hm & HP)]. exists m. split; [done|]. rewrite HP. by apply Z.ltb_lt.
Qed.

Lemma ids_present A P : wf A → present A (ids_where P (msgs A)).
Proof. intros Hwf k (m & Hm & _)%elem_of_ids_where. exists m. by destruct (wf_msgs A Hwf k m Hm) as (? & _). Qed.

(** The local store keeps the promise to the service. *)
Lemma store_serves s A g n receiver :
  good s A → slots s = [] → is_u64 receiver → actor_ok options receiver →
  Serves (MkAdapter s g n) receiver (pending_messages A receiver).
Proof.
  intros Hg Hs Hr Ha. pose proof Hg as [[_ _ HR Hwf _ _ _ _] _].
  pose proof (ids_present A (λ _ m, pending_of receiver m) Hwf) as Hpres. split.
  - apply views_sorted; [done|apply ids_where_sorted].
  - apply list.Forall_forall. intros m Hm. apply list_elem_of_omap in Hm as (k & Hk & Hm).
    apply elem_of_ids_where in Hk as (m' & Hm' & Hpd). rewrite Hm in Hm'. injection Hm' as <-.
    destruct (wf_msgs A Hwf k m Hm) as (Hid & Hb & _). pose proof (wf_high A Hwf). unfold is_u64.
    unfold pending_of, sent_to in Hpd. apply andb_true_iff in Hpd as [?%Z.eqb_eq ?%bool_decide_eq_true].
    split_and!; try done; lia.
  - intros after limit Haf Hl. cbn [repo_ListPendingAfter the_adapter LocalMessageRepositoryAdapter]. unfold on_read.
    cbn [ad_store ad_groups ad_calls]. destruct (ListPendingAfter options receiver after limit s) as [s' r] eqn:Hc.
    unfold kMaxPendingPageLimit in Hl. apply (pending_after_spec options s A) in Hc as [-> [->|[Hn _]]]; [| |done..].
    + unfold pending_page. rewrite ids_after_filter, views_take, views_filter; [done|done|].
      intros k [_ Hk]%list_elem_of_filter. by apply Hpres.
    + exfalso. apply Hn. split; [done|lia].
Qed.

End StoreServes.

(** C19: A client of the message service on the local store that asks for pages of
    pending messages until there are no more, whatever the page size, receives exactly
    the pending messages of the receiver, each once and in order, in at most one call
    more than there are messages, provided each message fits into a page; the store is
    unchanged. *)
Theorem service_drains_store {D : Type} `{EngineLaws D} `{JsonLaws} {G : Type} `{Groups : MessageRepositoryPort G}
    options outcome batching clock (s : Store D) A (g : G) n receiver limit :
  good s A → slots s = [] → is_u64 receiver → actor_ok options receiver → 0 < limit ≤ kMaxPendingPageLimit →
  Forall (λ m, is_Some (RecordBytes m)) (pending_messages A receiver) →
  let repository := LocalMessageRepositoryAdapter options outcome batching clock in
  drain (Repo := repository) (length (pending_messages A receiver) + 1) (Some (MkAdapter s g n)) receiver 0 limit =
    (Some (MkAdapter s g n), Some (pending_messages A receiver)).
Proof.
  intros Hg Hs Hr Ha Hl Hfit repository. pose proof Ha as [Hpos _].
  pose proof (store_serves options outcome batching clock s A g n receiver Hg Hs Hr Ha) as Hsv.
  assert (Hall : after_id 0 (pending_messages A receiver) = pending_messages A receiver).
  { apply list_filter_all. intros m Hm. destruct Hsv as [_ Hms _]. by apply (proj1 (list.Forall_forall _ _) Hms) in Hm as (? & _). }
  rewrite (drain_ok (Repo := repository) _ _ (pending_messages A receiver)), Hall; [done|exact Hsv|exact Hfit|lia|exact Hl| |].
  - unfold is_u64. lia.
  - rewrite Hall. lia.
Qed.

(** The defaults of the port for everything. *)
#[export] Instance no_groups : MessageRepositoryPort () := {
  repo_ListPendingRecipientsAfter s _ _ := (s, default_ListPendingRecipientsAfter);
  repo_ListGroupHistory s _ _ _ _ := (s, default_ListGroupHistory);
  repo_FindPrivateMessageByClientMessageId s _ _ := (s, default_FindPrivateMessageByClientMessageId);
  repo_PersistPrivateMessage s _ := (s, persist_failure kStorageError []);
  repo_PersistPrivateMessages s inputs := (s, (λ _, persist_failure kStorageError []) <$> inputs);
  repo_FindGroupMessageByClientMessageId s _ _ := (s, MkFind kStorageError None []);
  repo_PersistAuthorizedGroupMessage s _ _ := (s, MkGroupPersist kStorageError kCreated 0 None []);
  repo_GetGroupMessageDelivery s _ _ := (s, MkFind kStorageError None []);
  repo_ClaimGroupMessageDeliveries s _ _ _ _ _ := (s, MkList kStorageError [] []);
  repo_ClaimGroupMessageDeliveriesForRecipient s _ _ _ _ _ := (s, MkList kStorageError [] []);
  repo_CompleteGroupMessageDeliveryAttempt s _ := (s, MkMutation kStorageError 0 []);
  repo_ConfirmGroupMessageDelivery s _ _ := (s, MkMutation kStorageError 0 []);
  repo_GetPrivateMessage s _ := (s, MkGet kStorageError None []);
  repo_ListHistory s _ _ _ _ := (s, MkList kStorageError [] []);
  repo_ListConversations s _ _ := (s, MkList kStorageError [] []);
  repo_CountPending s _ := (s, MkCount kStorageError 0 []);
  repo_ListPendingAfter s _ _ _ := (s, MkList kStorageError [] []);
  repo_ConfirmReceiver s _ := (s, MkMutation kStorageError 0 []);
  repo_ConfirmReceiverBatch s _ := (s, MkMutation kStorageError 0 []);
  repo_MarkDialogRead s _ _ := (s, MkMutation kStorageError 0 []);
  repo_CompleteGroupMessageDeliveryAttempts s _ := (s, default_CompleteGroupMessageDeliveryAttempts);
  repo_TryConfirmReceiverOwnedIfPending s _ _ := (s, None);
}.

Lemma service_drains_store_witness :
  let repository := LocalMessageRepositoryAdapter demo_options all_written false (λ n, demo_env (Z.of_nat n)) in
  (∃ A, good demo_sent A ∧
     drain (Repo := repository) (length (pending_messages A 2) + 1) (Some (MkAdapter demo_sent () 0)) 2 0 1 =
       (Some (MkAdapter demo_sent () 0), Some (pending_messages A 2))) ∧
  (length <$> (drain (Repo := repository) 5 (Some (MkAdapter demo_sent () 0)) 2 0 1).2) = Some 1%nat.
Proof.
  intros repository. split; [|vm_compute; reflexivity]. destruct demo_sent_good as (h & text & Hg & Hs & _).
  exists (demo_contents h text). split; [exact Hg|].
  apply (service_drains_store demo_options all_written false (λ n, demo_env (Z.of_nat n)) demo_sent (demo_contents h text) () 0 2 1).
  - exact Hg.
  - exact Hs.
  - unfold is_u64. lia.
  - split; [lia|]. right. right. left.
  - unfold kMaxPendingPageLimit. lia.
  - apply list.Forall_forall. intros m Hm. apply list_elem_of_omap in Hm as (k & _ & Hm).
    cbn [demo_contents add_message msgs with_high empty_contents] in Hm.
    apply lookup_insert_Some in Hm as [[_ <-]|[_ Hm]]; [|by rewrite lookup_empty in Hm].
    exists 281. vm_compute. reflexivity.
Defined.
