(* ===== verification/FileTypes.v ===== *)
(** * Data of the file service and its ports

    Models [src/services/file/application/FileApplicationTypes.h],
    [FileRepositoryPort.h] and [src/services/file/storage/FileStoragePort.h].  A
    string is the list of its bytes.  Results that have the same fields are
    instances of [Found] and [Outcome]; a payload with [has_value] is an option.
    Both ports work on one state, which the two components and the rest of the
    system share. *)
From Stdlib Require Import ZArith Lia String.
From stdpp Require Import base list numbers.
From S2P Require Import Prelude ByteStrings.

Local Open Scope Z_scope.

(** ** Enumerations *)

Inductive FileApplicationStatus :=
| kSucceeded | kInvalidArgument | kNotFound | kPermissionDenied | kFailedPrecondition
| kInvalidRecord | kOutOfRange | kStorageError.

Inductive FileStatus :=
| kUploading | kVerifying | kAvailable | kFailed | kFileCanceled | kFileExpired | kDeleted.

Inductive UploadSessionStatus :=
| kActive | kFinalizing | kCompleted | kSessionCanceled | kSessionExpired.

(** A value outside of the enumeration has a constructor of its own. *)
Inductive UploadChunkStatus := kReserved | kStored | kChunkOther (value : Z).

Inductive BeginUploadOutcome := kBeginCreated | kBeginReused | kBeginConflict.
Inductive CancelUploadOutcome := kApplied | kCancelReused.
Inductive ReserveChunkOutcome := kReserveCreated | kReserveReused | kReserveConflict.
Inductive UploadChunkOutcome := kChunkStored | kChunkReused | kChunkConflict.
Inductive FinalizePreparationOutcome :=
| kStarted | kResumed | kAlreadyCompleted | kPrepareNotReady | kPrepareMismatch.
Inductive CompleteFinalizeOutcome := kCompleteCompleted | kCompleteReused.
Inductive FinalizeUploadOutcome :=
| kFinalizeCompleted | kFinalizeReused | kFinalizeNotReady | kFinalizeMismatch.

#[export] Instance FileApplicationStatus_eq_dec : EqDecision FileApplicationStatus.
Proof. solve_decision. Defined.
#[export] Instance FileStatus_eq_dec : EqDecision FileStatus.
Proof. solve_decision. Defined.
#[export] Instance UploadSessionStatus_eq_dec : EqDecision UploadSessionStatus.
Proof. solve_decision. Defined.
#[export] Instance UploadChunkStatus_eq_dec : EqDecision UploadChunkStatus.
Proof. solve_decision. Defined.
#[export] Instance ReserveChunkOutcome_eq_dec : EqDecision ReserveChunkOutcome.
Proof. solve_decision. Defined.
#[export] Instance FinalizePreparationOutcome_eq_dec : EqDecision FinalizePreparationOutcome.
Proof. solve_decision. Defined.
#[export] Instance CompleteFinalizeOutcome_eq_dec : EqDecision CompleteFinalizeOutcome.
Proof. solve_decision. Defined.

(** ** Views *)

Record FileView := MkFile {
  file_id : Z;
  file_owner : Z;                      (* owner_user_id *)
  file_name : list Z;
  content_type : list Z;
  file_size : Z;                       (* total_size *)
  checksum_algorithm : list Z;
  expected_checksum : list Z;
  verified_checksum : list Z;
  storage_backend : list Z;
  storage_key : list Z;
  file_status : FileStatus;
  file_version : Z;
  file_created_at : list Z;
  file_updated_at : list Z;
  available_at : list Z;
  file_expires_at : list Z;
}.

Record UploadSessionView := MkSession {
  upload_id : Z;
  session_file : Z;                    (* file_id *)
  session_owner : Z;                   (* owner_user_id *)
  client_upload_id : list Z;
  session_size : Z;                    (* total_size *)
  session_chunk : Z;                   (* chunk_size *)
  session_status : UploadSessionStatus;
  session_version : Z;
  session_created_at : list Z;
  session_updated_at : list Z;
  session_expires_at : list Z;
  completed_at : list Z;
}.

Record UploadChunkView := MkChunk {
  chunk_upload : Z;                    (* upload_id *)
  chunk_index : Z;
  chunk_file : Z;                      (* file_id *)
  chunk_owner : Z;                     (* owner_user_id *)
  byte_offset : Z;
  chunk_size : Z;
  chunk_algorithm : list Z;            (* checksum_algorithm *)
  chunk_checksum : list Z;
  storage_part_key : list Z;
  chunk_status : UploadChunkStatus;
  chunk_version : Z;
  chunk_created_at : list Z;
  chunk_updated_at : list Z;
  stored_at : list Z;
}.

Record DownloadInfoView := MkInfo {
  info_file : Z;
  info_name : list Z;
  info_type : list Z;
  info_size : Z;                       (* total_size *)
  info_algorithm : list Z;
  info_checksum : list Z;              (* verified_checksum *)
  info_version : Z;
  info_available_at : list Z;
}.

Record UploadBundleView := MkBundle { bundle_file : FileView; bundle_session : UploadSessionView }.
Record UploadSnapshotView := MkSnapshot {
  snapshot_bundle : UploadBundleView;
  snapshot_chunks : list UploadChunkView;
}.
Record ChunkIndexRange := MkRange { start_index : Z; end_index : Z }.
Record UploadProgressView := MkProgress {
  progress_bundle : UploadBundleView;
  expected_chunk_count : Z;
  stored_chunk_count : Z;
  reserved_chunk_count : Z;
  missing_ranges : list ChunkIndexRange;
  ready_to_finalize : bool;
}.

(** ** Commands and queries *)

Record BeginUploadCommand := MkBegin {
  begin_actor : Z;
  begin_client : list Z;               (* client_upload_id *)
  begin_name : list Z;                 (* file_name *)
  begin_type : list Z;                 (* content_type *)
  begin_size : Z;                      (* total_size *)
  begin_algorithm : list Z;
  begin_checksum : list Z;             (* expected_checksum *)
  begin_chunk : Z;                     (* preferred_chunk_size *)
}.

(** [GetUploadSessionQuery], [CancelUploadCommand], [GetUploadProgressQuery] and
    [FinalizeUploadCommand]: an actor and an upload. *)
Record UploadQuery := MkQuery { query_actor : Z; query_upload : Z }.

Record GetDownloadInfoQuery := MkDownload { download_actor : Z; download_file : Z }.

Record ReadFileRangeQuery := MkRead {
  read_actor : Z;
  read_file : Z;
  read_offset : Z;
  read_length : Z;
  if_match_sha256 : list Z;
}.

Record UploadChunkCommand := MkUpload {
  up_actor : Z;
  up_upload : Z;
  up_index : Z;
  up_offset : Z;
  up_data : list Z;
  up_algorithm : list Z;
  up_checksum : list Z;
}.

Record ReserveChunkCommand := MkReserve {
  rc_actor : Z;
  rc_upload : Z;
  rc_index : Z;
  rc_offset : Z;
  rc_size : Z;
  rc_algorithm : list Z;
  rc_checksum : list Z;
}.

Record MarkChunkStoredCommand := MkMark {
  mc_actor : Z;
  mc_upload : Z;
  mc_index : Z;
  mc_size : Z;
  mc_checksum : list Z;
}.

(** [CompleteFinalizeCommand] and [FailFinalizeChecksumCommand]. *)
Record ChecksumCommand := MkChecksum { cc_actor : Z; cc_upload : Z; cc_checksum : list Z }.

(** ** Results *)

Record Found (A : Type) := MkFound {
  f_status : FileApplicationStatus;
  f_value : option A;
  f_message : list Z;
}.
Arguments MkFound {_} _ _ _.
Arguments f_status {_} _.
Arguments f_value {_} _.
Arguments f_message {_} _.

Record Outcome (O A : Type) := MkOutcome {
  o_status : FileApplicationStatus;
  o_outcome : O;
  o_value : option A;
  o_message : list Z;
}.
Arguments MkOutcome {_ _} _ _ _ _.
Arguments o_status {_ _} _.
Arguments o_outcome {_ _} _.
Arguments o_value {_ _} _.
Arguments o_message {_ _} _.

Definition BeginUploadResult := Outcome BeginUploadOutcome UploadBundleView.
Definition GetUploadSessionResult := Found UploadBundleView.
Definition CancelUploadResult := Outcome CancelUploadOutcome UploadBundleView.
Definition ReserveChunkResult := Outcome ReserveChunkOutcome UploadChunkView.
Definition MarkChunkStoredResult := Found UploadChunkView.
Definition UploadChunkResult := Outcome UploadChunkOutcome UploadChunkView.
Definition GetUploadSnapshotResult := Found UploadSnapshotView.
Definition GetUploadProgressResult := Found UploadProgressView.
Definition FinalizePreparationResult := Outcome FinalizePreparationOutcome UploadSnapshotView.
Definition CompleteFinalizeResult := Outcome CompleteFinalizeOutcome UploadBundleView.
Definition FailFinalizeChecksumResult := Found UploadBundleView.
Definition GetDownloadFileResult := Found FileView.
Definition GetDownloadInfoResult := Found DownloadInfoView.

Record FinalizeUploadResult := MkFinalize {
  fin_status : FileApplicationStatus;
  fin_outcome : FinalizeUploadOutcome;
  fin_progress : option UploadProgressView;
  fin_bundle : option UploadBundleView;
  fin_checksum : list Z;               (* verified_checksum *)
  fin_message : list Z;
}.

Record ReadFileRangeResult := MkRangeResult {
  rr_status : FileApplicationStatus;
  rr_info : option DownloadInfoView;
  rr_offset : Z;
  rr_data : list Z;
  rr_sha256 : list Z;
  rr_eof : bool;
  rr_next : Z;                         (* next_offset *)
  rr_message : list Z;
}.

Definition is_status (s t : FileApplicationStatus) : bool := bool_decide (s = t).

(** [Found()] of the results of queries, [Completed()] of [MarkChunkStoredResult] and
    [FailFinalizeChecksumResult]: success with a payload. *)
Definition found {A} (r : Found A) : option A :=
  if is_status (f_status r) kSucceeded then f_value r else None.

(** [Completed()] of the other results. *)
Definition completed {O A} (r : Outcome O A) : bool := is_status (o_status r) kSucceeded.

(** [ReserveChunkResult::Accepted]. *)
Definition reserve_accepted (r : ReserveChunkResult) : option UploadChunkView :=
  if completed r && negb (bool_decide (o_outcome r = kReserveConflict)) then o_value r else None.

(** [CompleteFinalizeResult::Completed]. *)
Definition complete_completed (r : CompleteFinalizeResult) : option UploadBundleView :=
  if completed r then o_value r else None.

(** ** The storage port *)

Inductive FileStorageStatus :=
| kStorageSucceeded | kStorageInvalidArgument | kIoError | kStorageNotFound | kDataLoss
| kChecksumMismatch.
#[export] Instance FileStorageStatus_eq_dec : EqDecision FileStorageStatus.
Proof. solve_decision. Defined.

Record StoreChunkRequest := MkStore {
  store_key : list Z;
  store_data : list Z;
  store_sha256 : list Z;
}.

(** [StoreChunkResult], [ComposeObjectResult] and [VerifyObjectResult]. *)
Record StorageResult := MkStorage {
  st_status : FileStorageStatus;
  st_bytes : Z;                        (* bytes_written, bytes_verified *)
  st_sha256 : list Z;                  (* verified_sha256 *)
  st_message : list Z;
}.

Record StoredChunkPart := MkPart { part_key : list Z; part_size : Z; part_sha256 : list Z }.

Record ComposeObjectRequest := MkCompose {
  compose_key : list Z;
  compose_size : Z;
  compose_sha256 : list Z;
  compose_parts : list StoredChunkPart;
}.

Record VerifyObjectRequest := MkVerify {
  verify_key : list Z;
  verify_size : Z;
  verify_sha256 : list Z;
}.

Record ReadObjectRangeRequest := MkObjectRange {
  or_key : list Z;
  or_offset : Z;
  or_length : Z;
  or_size : Z;
  or_sha256 : list Z;
}.

Record ReadObjectRangeResult := MkObjectRead {
  ob_status : FileStorageStatus;
  ob_offset : Z;
  ob_data : list Z;
  ob_sha256 : list Z;
  ob_eof : bool;
  ob_message : list Z;
}.

Definition st_succeeded (s : FileStorageStatus) : bool := bool_decide (s = kStorageSucceeded).

(** ** The ports *)

Class FileRepositoryPort (W : Type) := {
  repo_BeginUpload : W → BeginUploadCommand → W * BeginUploadResult;
  repo_GetUploadSession : W → UploadQuery → W * GetUploadSessionResult;
  repo_CancelUpload : W → UploadQuery → W * CancelUploadResult;
  repo_ReserveChunk : W → ReserveChunkCommand → W * ReserveChunkResult;
  repo_MarkChunkStored : W → MarkChunkStoredCommand → W * MarkChunkStoredResult;
  repo_GetUploadSnapshot : W → UploadQuery → W * GetUploadSnapshotResult;
  repo_PrepareFinalize : W → UploadQuery → W * FinalizePreparationResult;
  repo_CompleteFinalize : W → ChecksumCommand → W * CompleteFinalizeResult;
  repo_FailFinalizeChecksum : W → ChecksumCommand → W * FailFinalizeChecksumResult;
  repo_GetDownloadFile : W → GetDownloadInfoQuery → W * GetDownloadFileResult;
}.

Class FileStoragePort (W : Type) := {
  storage_StoreChunkAtomically : W → StoreChunkRequest → W * StorageResult;
  storage_ComposeObjectAtomically : W → ComposeObjectRequest → W * StorageResult;
  storage_VerifyObject : W → VerifyObjectRequest → W * StorageResult;
  storage_ReadObjectRange : W → ReadObjectRangeRequest → W * ReadObjectRangeResult;
}.

(** ** Digests

    SHA-256 is computed by OpenSSL: a function from strings to 32 bytes. *)
Class Sha256 := sha256 : list Z → list Z.

Class Sha256Laws `{Sha256} : Prop := {
  sha256_length s : length (sha256 s) = 32%nat;
  sha256_bytes s : Forall (λ b, 0 ≤ b < 256) (sha256 s);
}.

Definition hex_char (d : Z) : Z := if d <? 10 then 48 + d else 87 + d.
Definition HexDigest (digest : list Z) : list Z :=
  digest ≫= (λ b, [hex_char (b `div` 16); hex_char (b `mod` 16)]).

(** [std::isxdigit] in the C locale. *)
Definition isxdigit (c : Z) : bool :=
  ((48 <=? c) && (c <=? 57)) || ((65 <=? c) && (c <=? 70)) || ((97 <=? c) && (c <=? 102)).

Definition ValidSha256Hex (value : list Z) : bool :=
  if negb (bsize value =? 64) then false else forallb isxdigit value.

(** [Sha256Hex]; the empty string when the library fails. *)
Definition Sha256Hex `{Sha256} (evp : bool) (input : list Z) : list Z :=
  if evp then HexDigest (sha256 input) else [].

(** Two different strings with one digest. *)
Definition collide `{Sha256} (a b : list Z) : Prop := a ≠ b ∧ sha256 a = sha256 b.

(** The digest tells some strings apart. *)
Definition tells_apart `{Sha256} (l : list (list Z)) : Prop :=
  ∀ a b, a ∈ l → b ∈ l → sha256 a = sha256 b → a = b.

#[export] Instance tells_apart_dec `{Sha256} l : Decision (tells_apart l).
Proof.
  refine (cast_if (decide (Forall (λ a, Forall (λ b, sha256 a = sha256 b → a = b) l) l))).
  - intros a b Ha Hb. rewrite list.Forall_forall in *. specialize (f a Ha). rewrite list.Forall_forall in f. by apply f.
  - intros Hl. apply n, list.Forall_forall. intros a Ha. apply list.Forall_forall. intros b Hb. by apply Hl.
Defined.

(** ** Facts on digests *)

Lemma hex_char_inj a b : 0 ≤ a < 16 → 0 ≤ b < 16 → hex_char a = hex_char b → a = b.
Proof. unfold hex_char. intros. destruct (Z.ltb_spec a 10), (Z.ltb_spec b 10); lia. Qed.

Lemma byte_nibbles b : 0 ≤ b < 256 → 0 ≤ b `div` 16 < 16 ∧ 0 ≤ b `mod` 16 < 16 ∧ b = 16 * (b `div` 16) + b `mod` 16.
Proof.
  intros Hb. pose proof (Z.mod_pos_bound b 16). pose proof (Z.div_mod b 16).
  split_and!; [apply Z.div_pos; lia|apply Z.div_lt_upper_bound; lia|lia|lia|lia].
Qed.

Lemma HexDigest_inj a : ∀ b, Forall (λ b, 0 ≤ b < 256) a → Forall (λ b, 0 ≤ b < 256) b →
  HexDigest a = HexDigest b → a = b.
Proof.
  unfold HexDigest. induction a as [|x a IH]; intros [|y b] Ha Hb Heq; try done.
  apply list.Forall_cons in Ha as [Hx Ha]. apply list.Forall_cons in Hb as [Hy Hb].
  injection Heq as E1 E2 E3.
  apply byte_nibbles in Hx as (? & ? & ->), Hy as (? & ? & ->).
  apply hex_char_inj in E1, E2; try done. f_equal; [lia|]. by apply IH.
Qed.

Lemma hex_char_xdigit d : 0 ≤ d < 16 → isxdigit (hex_char d) = true.
Proof.
  intros Hd. unfold isxdigit, hex_char. destruct (Z.ltb_spec d 10).
  - rewrite (proj2 (Z.leb_le 48 _)), (proj2 (Z.leb_le _ 57)) by lia. done.
  - rewrite (proj2 (Z.leb_le 97 _)), (proj2 (Z.leb_le _ 102)) by lia. apply orb_true_r.
Qed.

Section Digests.
Context `{Sha256Laws}.

Lemma Sha256Hex_valid s : ValidSha256Hex (Sha256Hex true s) = true.
Proof.
  unfold ValidSha256Hex, Sha256Hex, HexDigest, bsize.
  assert (Hl : ∀ l : list Z, length (l ≫= (λ b, [hex_char (b `div` 16); hex_char (b `mod` 16)])) =
                    (2 * length l)%nat).
  { induction l as [|x l IH]; [done|]. cbn. cbn in IH. rewrite IH. lia. }
  rewrite Hl, sha256_length. cbn. apply forallb_forall. intros c Hc.
  apply list_elem_of_In, list_elem_of_bind in Hc as (b & Hc & Hb).
  pose proof (proj1 (list.Forall_forall _ _) (sha256_bytes s) b Hb) as Hr.
  apply byte_nibbles in Hr as (? & ? & _).
  rewrite !elem_of_cons in Hc. destruct Hc as [-> |[-> |Hc]]; [by apply hex_char_xdigit..|].
  by apply not_elem_of_nil in Hc.
Qed.

Lemma Sha256Hex_empty e s : bempty (Sha256Hex e s) = negb e.
Proof.
  destruct e; [|done]. pose proof (Sha256Hex_valid s) as Hv. by destruct (Sha256Hex true s).
Qed.

(** Equal digests in hexadecimal are equal digests. *)
Lemma Sha256Hex_inj a b : Sha256Hex true a = Sha256Hex true b → sha256 a = sha256 b.
Proof. intros Heq. by apply HexDigest_inj; [apply sha256_bytes..|]. Qed.

Lemma Sha256Hex_eq a b : Sha256Hex true a = Sha256Hex true b → a = b ∨ collide a b.
Proof.
  intros Heq. destruct (decide (a = b)) as [?|Hne]; [by left|right].
  split; [done|]. by apply Sha256Hex_inj.
Qed.

Lemma tells_apart_hex l a b : tells_apart l → a ∈ l → b ∈ l → Sha256Hex true a = Sha256Hex true b → a = b.
Proof. intros Hl Ha Hb Heq. by apply Hl, Sha256Hex_inj. Qed.

Lemma tells_apart_sub l l' : l ⊆ l' → tells_apart l' → tells_apart l.
Proof. intros Hs Hl a b Ha%Hs Hb%Hs. by apply Hl. Qed.

End Digests.

(** An empty string is not a digest. *)
Lemma valid_not_empty s : ValidSha256Hex s = true → s ≠ [].
Proof. by intros H ->. Qed.
