(* ===== verification/FileApplicationService.v ===== *)
(** * The file application service

    Models [src/services/file/application/FileApplicationService.h] and
    [FileApplicationService.cpp]: uploads in chunks, their progress and
    finalization, and downloads in ranges.  The two ports are
    [FileRepositoryPort] and [FileStoragePort] on a shared state; each may be a
    null pointer.  Whether OpenSSL computed the digest a handler asks for is an
    argument. *)
From Stdlib Require Import ZArith Lia String.
From stdpp Require Import base list numbers.
From S2P Require Import Prelude ByteStrings FileTypes.

Local Open Scope Z_scope.

(** ** Helpers *)

Definition kDefaultChunkSize : Z := 4 * 1024 * 1024.
Definition kMinChunkSize : Z := 256 * 1024.
Definition kMaxChunkSize : Z := 8 * 1024 * 1024.
Definition kChunkAlignment : Z := 64 * 1024.
Definition kMaxDownloadRangeSize : Z := 1 * 1024 * 1024.

Definition Trim (value : list Z) : list Z := rev (TrimLeft (rev (TrimLeft value))).

(** [std::tolower] in the C locale. *)
Definition tolower (c : Z) : Z := if (65 <=? c) && (c <=? 90) then c + 32 else c.
Definition Lower (value : list Z) : list Z := tolower <$> value.

Definition SafeMetadataFileName (value : list Z) : bool :=
  if bempty value || (255 <? bsize value) then false
  else if existsb (λ ch, (ch <? 32) || (ch =? 127) || (ch =? 47) || (ch =? 92)) value then false
  else negb (bool_decide (value = str ".")) && negb (bool_decide (value = str "..")).

Definition ValidChunkSize (value : Z) : bool :=
  (kMinChunkSize <=? value) && (value <=? kMaxChunkSize) && (value `mod` kChunkAlignment =? 0).

Definition InvalidBegin (message : list Z) : BeginUploadResult :=
  MkOutcome kInvalidArgument kBeginCreated None message.
Definition InvalidChunk (message : list Z) : UploadChunkResult :=
  MkOutcome kInvalidArgument kChunkStored None message.
Definition ProgressFailure (status : FileApplicationStatus) (message : list Z)
  : GetUploadProgressResult := MkFound status None message.
Definition FinalizeFailure (status : FileApplicationStatus) (message : list Z)
  : FinalizeUploadResult := MkFinalize status kFinalizeNotReady None None [] message.
Definition DownloadInfoFailure (status : FileApplicationStatus) (message : list Z)
  : GetDownloadInfoResult := MkFound status None message.
Definition RangeFailure (status : FileApplicationStatus) (message : list Z)
  : ReadFileRangeResult := MkRangeResult status None 0 [] [] false 0 message.

(** [message.empty() ? otherwise : message]. *)
Definition or_message (message otherwise : list Z) : list Z :=
  if bempty message then otherwise else message.

(** ** Progress *)

(** [AppendMissingRange]; the newest range is the head of the list here. *)
Definition AppendMissingRange (ranges : list ChunkIndexRange) (start_index0 end_index0 : Z)
  : list ChunkIndexRange :=
  if end_index0 <? start_index0 then ranges
  else match ranges with
  | back :: rest =>
      if negb (end_index back =? 2 ^ 64 - 1) && (u64 (end_index back + 1) =? start_index0)
      then MkRange (start_index back) end_index0 :: rest
      else MkRange start_index0 end_index0 :: ranges
  | [] => [MkRange start_index0 end_index0]
  end.

Record Scan := MkScan {
  scan_ranges : list ChunkIndexRange;   (* newest first *)
  scan_stored : Z;
  scan_reserved : Z;
  cursor : Z;
  previous_index : option Z;            (* [first] is [None] *)
}.

(** The offset and the size of a chunk of an upload. *)
Definition expected_offset (session : UploadSessionView) (index : Z) : Z :=
  u64 (index * session_chunk session).
Definition expected_size (session : UploadSessionView) (index : Z) : Z :=
  Z.min (session_chunk session) (u64 (session_size session - expected_offset session index)).

Definition chunk_refused (file : FileView) (session : UploadSessionView) (expected_count : Z)
    (previous : option Z) (chunk : UploadChunkView) : bool :=
  match previous with Some p => chunk_index chunk <=? p | None => false end ||
  (expected_count <=? chunk_index chunk) ||
  negb (chunk_upload chunk =? upload_id session) || negb (chunk_file chunk =? file_id file) ||
  negb (chunk_owner chunk =? session_owner session) ||
  negb (bool_decide (chunk_algorithm chunk = str "sha256")) ||
  negb (bsize (chunk_checksum chunk) =? 64).

(** The loop over the chunks. *)
Fixpoint ScanChunks (file : FileView) (session : UploadSessionView) (expected_count : Z)
    (chunks : list UploadChunkView) (s : Scan) : option Scan :=
  match chunks with
  | [] => Some s
  | chunk :: rest =>
      if chunk_refused file session expected_count (previous_index s) chunk then None
      else if negb (byte_offset chunk =? expected_offset session (chunk_index chunk)) ||
              negb (chunk_size chunk =? expected_size session (chunk_index chunk)) then None
      else
        let ranges :=
          if cursor s <? chunk_index chunk
          then AppendMissingRange (scan_ranges s) (cursor s) (u64 (chunk_index chunk - 1))
          else scan_ranges s in
        let next := u64 (chunk_index chunk + 1) in
        match chunk_status chunk with
        | kStored =>
            ScanChunks file session expected_count rest
              (MkScan ranges (u64 (scan_stored s + 1)) (scan_reserved s) next
                 (Some (chunk_index chunk)))
        | kReserved =>
            ScanChunks file session expected_count rest
              (MkScan (AppendMissingRange ranges (chunk_index chunk) (chunk_index chunk))
                 (scan_stored s) (u64 (scan_reserved s + 1)) next (Some (chunk_index chunk)))
        | kChunkOther _ => None
        end
  end.

Definition bundle_refused (file : FileView) (session : UploadSessionView) : bool :=
  (file_id file =? 0) || (upload_id session =? 0) || negb (file_id file =? session_file session) ||
  (file_owner file =? 0) || negb (file_owner file =? session_owner session) ||
  (file_size file =? 0) || negb (file_size file =? session_size session) ||
  (session_chunk session =? 0).

Definition chunk_count (session : UploadSessionView) : Z :=
  u64 (1 + (session_size session - 1) `div` session_chunk session).

Definition mutable_or_finalizing (file : FileView) (session : UploadSessionView) : bool :=
  (bool_decide (session_status session = kActive) && bool_decide (file_status file = kUploading)) ||
  (bool_decide (session_status session = kFinalizing) && bool_decide (file_status file = kVerifying)).

Definition BuildProgress (snapshot : UploadSnapshotView) : option UploadProgressView :=
  let file := bundle_file (snapshot_bundle snapshot) in
  let session := bundle_session (snapshot_bundle snapshot) in
  if bundle_refused file session then None
  else
    let expected := chunk_count session in
    match ScanChunks file session expected (snapshot_chunks snapshot) (MkScan [] 0 0 0 None) with
    | None => None
    | Some s =>
        let ranges :=
          if cursor s <? expected
          then AppendMissingRange (scan_ranges s) (cursor s) (u64 (expected - 1))
          else scan_ranges s in
        Some (MkProgress (snapshot_bundle snapshot) expected (scan_stored s) (scan_reserved s)
                (rev ranges)
                (mutable_or_finalizing file session &&
                 match ranges with [] => true | _ => false end && (scan_stored s =? expected)))
    end.

Definition BuildDownloadInfo (file : FileView) : option DownloadInfoView :=
  if (file_id file =? 0) || (file_owner file =? 0) || (file_size file =? 0) ||
     negb (bool_decide (file_status file = kAvailable)) ||
     negb (bool_decide (checksum_algorithm file = str "sha256")) ||
     negb (ValidSha256Hex (expected_checksum file)) ||
     negb (ValidSha256Hex (verified_checksum file)) ||
     negb (bool_decide (expected_checksum file = verified_checksum file)) ||
     bempty (storage_backend file) || bempty (storage_key file) || (file_version file =? 0) ||
     bempty (available_at file)
  then None
  else Some (MkInfo (file_id file) (file_name file) (content_type file) (file_size file)
               (checksum_algorithm file) (verified_checksum file) (file_version file)
               (available_at file)).

(** ** The service *)

Record Service := MkService { repository_ : bool; storage_ : bool }.   (* not null *)

Section Service.
Context {W : Type} `{Repo : FileRepositoryPort W} `{Store : FileStoragePort W} `{Sha256}.

Definition BeginUpload (svc : Service) (w : W) (c : BeginUploadCommand) : W * BeginUploadResult :=
  let client := Trim (begin_client c) in
  let name := Trim (begin_name c) in
  let type := Lower (Trim (begin_type c)) in
  let algorithm := Lower (Trim (begin_algorithm c)) in
  let checksum := Lower (Trim (begin_checksum c)) in
  if begin_actor c =? 0 then (w, InvalidBegin (str "actor_user_id must be non-zero"))
  else if bempty client || (64 <? bsize client)
  then (w, InvalidBegin (str "client_upload_id must contain 1..64 characters"))
  else if negb (SafeMetadataFileName name)
  then (w, InvalidBegin (str "file_name is invalid or unsafe"))
  else
    let type := if bempty type then str "application/octet-stream" else type in
    if 128 <? bsize type then (w, InvalidBegin (str "content_type exceeds 128 characters"))
    else if begin_size c =? 0 then (w, InvalidBegin (str "total_size must be greater than zero"))
    else if negb (bool_decide (algorithm = str "sha256")) || negb (ValidSha256Hex checksum)
    then (w, InvalidBegin (str "M18-A1 requires a valid SHA-256 whole-file checksum"))
    else
      let chunk := if begin_chunk c =? 0 then kDefaultChunkSize else begin_chunk c in
      if negb (ValidChunkSize chunk)
      then (w, InvalidBegin
                 (str "preferred_chunk_size must be 256KiB..8MiB and aligned to 64KiB"))
      else if negb (repository_ svc)
      then (w, MkOutcome kStorageError kBeginCreated None (str "file repository port is unavailable"))
      else repo_BeginUpload w
             (MkBegin (begin_actor c) client name type (begin_size c) algorithm checksum chunk).

Definition identity_message : list Z := str "actor_user_id and upload_id must be non-zero".
Definition repository_missing : list Z := str "file repository port is unavailable".

Definition query_refused (q : UploadQuery) : bool := (query_actor q =? 0) || (query_upload q =? 0).

Definition GetUploadSession (svc : Service) (w : W) (q : UploadQuery) : W * GetUploadSessionResult :=
  if query_refused q then (w, MkFound kInvalidArgument None identity_message)
  else if negb (repository_ svc) then (w, MkFound kStorageError None repository_missing)
  else repo_GetUploadSession w q.

Definition CancelUpload (svc : Service) (w : W) (c : UploadQuery) : W * CancelUploadResult :=
  if query_refused c then (w, MkOutcome kInvalidArgument kApplied None identity_message)
  else if negb (repository_ svc) then (w, MkOutcome kStorageError kApplied None repository_missing)
  else repo_CancelUpload w c.

(** [reserved.outcome == kCreated ? kStored : kReused]. *)
Definition stored_or_reused (outcome : ReserveChunkOutcome) : UploadChunkOutcome :=
  match outcome with kReserveCreated => kChunkStored | _ => kChunkReused end.

Definition UploadChunk (svc : Service) (evp : bool) (w : W) (c : UploadChunkCommand)
  : W * UploadChunkResult :=
  let algorithm := Lower (Trim (up_algorithm c)) in
  let checksum := Lower (Trim (up_checksum c)) in
  if (up_actor c =? 0) || (up_upload c =? 0) then (w, InvalidChunk identity_message)
  else if bempty (up_data c) then (w, InvalidChunk (str "chunk data must not be empty"))
  else if kMaxChunkSize <? bsize (up_data c)
  then (w, InvalidChunk (str "chunk data exceeds the M18-B1 8MiB chunk limit"))
  else if negb (bool_decide (algorithm = str "sha256")) || negb (ValidSha256Hex checksum)
  then (w, InvalidChunk (str "UploadChunk requires a valid SHA-256 chunk checksum"))
  else
    let actual := Sha256Hex evp (up_data c) in
    if bempty actual
    then (w, MkOutcome kStorageError kChunkStored None (str "failed to compute chunk SHA-256"))
    else if negb (bool_decide (actual = checksum))
    then (w, InvalidChunk (str "chunk payload SHA-256 does not match request checksum"))
    else if negb (repository_ svc) || negb (storage_ svc)
    then (w, MkOutcome kStorageError kChunkStored None
               (str "chunk repository/storage dependency is unavailable"))
    else
      let '(w, reserved) := repo_ReserveChunk w
        (MkReserve (up_actor c) (up_upload c) (up_index c) (up_offset c) (bsize (up_data c))
           algorithm checksum) in
      match reserve_accepted reserved with
      | None =>
          (w, MkOutcome (o_status reserved)
                (match o_outcome reserved with kReserveConflict => kChunkConflict | _ => kChunkReused end)
                (o_value reserved) (o_message reserved))
      | Some chunk =>
          let '(w, stored) := storage_StoreChunkAtomically w
            (MkStore (storage_part_key chunk) (up_data c) checksum) in
          if negb (st_succeeded (st_status stored)) || negb (st_bytes stored =? bsize (up_data c)) ||
             negb (bool_decide (st_sha256 stored = checksum))
          then (w, MkOutcome
                     (match st_status stored with
                      | kStorageInvalidArgument => kInvalidArgument
                      | _ => kStorageError
                      end)
                     (stored_or_reused (o_outcome reserved)) (Some chunk)
                     (or_message (st_message stored) (str "chunk storage write failed")))
          else
            let '(w, marked) := repo_MarkChunkStored w
              (MkMark (up_actor c) (up_upload c) (up_index c) (bsize (up_data c)) checksum) in
            match found marked with
            | None =>
                (w, MkOutcome (f_status marked) (stored_or_reused (o_outcome reserved))
                      (match f_value marked with Some v => Some v | None => Some chunk end)
                      (f_message marked))
            | Some chunk =>
                (w, MkOutcome kSucceeded (stored_or_reused (o_outcome reserved)) (Some chunk)
                      (match o_outcome reserved with
                       | kReserveCreated => str "chunk durably stored"
                       | _ => str "chunk retry safely reused durable identity"
                       end))
            end
      end.

Definition GetUploadProgress (svc : Service) (w : W) (q : UploadQuery)
  : W * GetUploadProgressResult :=
  if query_refused q then (w, ProgressFailure kInvalidArgument identity_message)
  else if negb (repository_ svc) then (w, ProgressFailure kStorageError repository_missing)
  else
    let '(w, snapshot) := repo_GetUploadSnapshot w q in
    match found snapshot with
    | None => (w, ProgressFailure (f_status snapshot) (f_message snapshot))
    | Some view =>
        match BuildProgress view with
        | None => (w, ProgressFailure kInvalidRecord
                        (str "upload snapshot violates durable chunk geometry"))
        | Some progress =>
            (w, MkFound kSucceeded (Some progress)
                  (if ready_to_finalize progress then str "all durable chunks are stored"
                   else str "upload progress derived from durable chunk manifest"))
        end
    end.

(** The parts of the request that composes the object; [None] at a chunk that is
    not stored. *)
Fixpoint ComposeParts (chunks : list UploadChunkView) : option (list StoredChunkPart) :=
  match chunks with
  | [] => Some []
  | chunk :: rest =>
      if negb (bool_decide (chunk_status chunk = kStored)) then None
      else match ComposeParts rest with
           | None => None
           | Some parts =>
               Some (MkPart (storage_part_key chunk) (chunk_size chunk) (chunk_checksum chunk) :: parts)
           end
  end.

(** The progress returned with the bundle of a finished upload. *)
Definition final_progress (progress : UploadProgressView) (bundle : UploadBundleView)
  : UploadProgressView :=
  MkProgress bundle (expected_chunk_count progress) (stored_chunk_count progress)
    (reserved_chunk_count progress) (missing_ranges progress) false.

(** The rest of [FinalizeUpload] once the upload is being finalized. *)
Definition ComposeAndComplete (w : W) (c : UploadQuery) (snapshot : UploadSnapshotView)
    (progress : UploadProgressView) : W * FinalizeUploadResult :=
  let file := bundle_file (snapshot_bundle snapshot) in
  match ComposeParts (snapshot_chunks snapshot) with
  | None => (w, FinalizeFailure kInvalidRecord
                  (str "FinalizeUpload encountered non-STORED chunk after preparation"))
  | Some parts =>
      let '(w, composed) := storage_ComposeObjectAtomically w
        (MkCompose (storage_key file) (file_size file) (expected_checksum file) parts) in
      if bool_decide (st_status composed = kChecksumMismatch) then
        let '(w, failed) := repo_FailFinalizeChecksum w
          (MkChecksum (query_actor c) (query_upload c) (st_sha256 composed)) in
        match found failed with
        | None => (w, FinalizeFailure (f_status failed) (f_message failed))
        | Some bundle =>
            (w, MkFinalize kSucceeded kFinalizeMismatch (Some (final_progress progress bundle))
                  (Some bundle) (st_sha256 composed)
                  (str "whole-file SHA-256 mismatch recorded as terminal FAILED file state"))
        end
      else if negb (st_succeeded (st_status composed)) || negb (st_bytes composed =? file_size file) ||
              negb (bool_decide (st_sha256 composed = expected_checksum file))
      then (w, FinalizeFailure
                 (match st_status composed with
                  | kStorageInvalidArgument => kInvalidArgument
                  | _ => kStorageError
                  end)
                 (or_message (st_message composed) (str "final object assembly failed")))
      else
        let '(w, completed) := repo_CompleteFinalize w
          (MkChecksum (query_actor c) (query_upload c) (st_sha256 composed)) in
        match complete_completed completed with
        | None => (w, FinalizeFailure (o_status completed) (o_message completed))
        | Some bundle =>
            (w, MkFinalize kSucceeded
                  (match o_outcome completed with
                   | kCompleteCompleted => kFinalizeCompleted
                   | kCompleteReused => kFinalizeReused
                   end)
                  (Some (final_progress progress bundle)) (Some bundle) (st_sha256 composed)
                  (match o_outcome completed with
                   | kCompleteCompleted =>
                       str "final object atomically published and durable state marked AVAILABLE"
                   | kCompleteReused =>
                       str "FinalizeUpload response-loss retry reused COMPLETED/AVAILABLE state"
                   end))
        end
  end.

Definition FinalizeUpload (svc : Service) (w : W) (c : UploadQuery) : W * FinalizeUploadResult :=
  if query_refused c then (w, FinalizeFailure kInvalidArgument identity_message)
  else if negb (repository_ svc) || negb (storage_ svc)
  then (w, FinalizeFailure kStorageError
             (str "finalize repository/storage dependency is unavailable"))
  else
    let '(w, prepared) := repo_PrepareFinalize w c in
    if negb (completed prepared) then (w, FinalizeFailure (o_status prepared) (o_message prepared))
    else match o_value prepared with
    | None => (w, FinalizeFailure kInvalidRecord
                    (str "FinalizeUpload preparation returned no durable snapshot"))
    | Some snapshot =>
        match BuildProgress snapshot with
        | None => (w, FinalizeFailure kInvalidRecord
                        (str "FinalizeUpload snapshot violates durable chunk geometry"))
        | Some progress =>
            let bundle := snapshot_bundle snapshot in
            match o_outcome prepared with
            | kPrepareNotReady =>
                (w, MkFinalize kSucceeded kFinalizeNotReady (Some progress) (Some bundle) []
                      (str "FinalizeUpload requires every expected chunk to be STORED"))
            | kPrepareMismatch =>
                (w, MkFinalize kSucceeded kFinalizeMismatch (Some progress) (Some bundle)
                      (verified_checksum (bundle_file bundle))
                      (str "upload is durably failed because whole-file SHA-256 mismatched"))
            | kAlreadyCompleted =>
                (w, MkFinalize kSucceeded kFinalizeReused (Some progress) (Some bundle)
                      (verified_checksum (bundle_file bundle))
                      (str "FinalizeUpload safely reused AVAILABLE durable state"))
            | kStarted | kResumed =>
                if negb (ready_to_finalize progress)
                then (w, FinalizeFailure kInvalidRecord
                           (str "FINALIZING upload no longer has a complete STORED manifest"))
                else ComposeAndComplete w c snapshot progress
            end
        end
    end.

Definition download_missing : list Z := str "download repository/storage dependency is unavailable".

(** The file a download is about: the checks both handlers make. *)
Definition DownloadFile (w : W) (q : GetDownloadInfoQuery)
  : W * (FileView * DownloadInfoView + FileApplicationStatus * list Z) :=
  let '(w, result) := repo_GetDownloadFile w q in
  (w, match found result with
      | None => inr (f_status result, f_message result)
      | Some file =>
          if negb (file_id file =? download_file q) || negb (file_owner file =? download_actor q)
          then inr (kInvalidRecord, str "download repository returned mismatched file ownership")
          else if negb (bool_decide (file_status file = kAvailable))
          then inr (kFailedPrecondition, str "only AVAILABLE files may be downloaded")
          else match BuildDownloadInfo file with
               | None => inr (kInvalidRecord,
                              str "AVAILABLE file metadata/checksum invariants are invalid")
               | Some info => inl (file, info)
               end
      end).

Definition GetDownloadInfo (svc : Service) (w : W) (q : GetDownloadInfoQuery)
  : W * GetDownloadInfoResult :=
  if (download_actor q =? 0) || (download_file q =? 0)
  then (w, DownloadInfoFailure kInvalidArgument (str "actor_user_id and file_id must be non-zero"))
  else if negb (repository_ svc) || negb (storage_ svc)
  then (w, DownloadInfoFailure kStorageError download_missing)
  else match DownloadFile w q with
  | (w, inr (status, message)) => (w, DownloadInfoFailure status message)
  | (w, inl (file, info)) =>
      let '(w, verified) := storage_VerifyObject w
        (MkVerify (storage_key file) (info_size info) (info_checksum info)) in
      (w, match st_status verified with
          | kStorageSucceeded =>
              if negb (st_bytes verified =? info_size info) ||
                 negb (bool_decide (st_sha256 verified = info_checksum info))
              then DownloadInfoFailure kInvalidRecord
                     (str "storage verification result disagrees with durable AVAILABLE metadata")
              else MkFound kSucceeded (Some info) (str "download metadata authorized")
          | kIoError =>
              DownloadInfoFailure kStorageError
                (or_message (st_message verified) (str "final object verification failed"))
          | _ =>
              DownloadInfoFailure kInvalidRecord
                (or_message (st_message verified)
                   (str "AVAILABLE final object failed integrity verification"))
          end)
  end.

Definition ReadFileRange (svc : Service) (evp : bool) (w : W) (q : ReadFileRangeQuery)
  : W * ReadFileRangeResult :=
  let if_match := Lower (Trim (if_match_sha256 q)) in
  if (read_actor q =? 0) || (read_file q =? 0)
  then (w, RangeFailure kInvalidArgument (str "actor_user_id and file_id must be non-zero"))
  else if (read_length q =? 0) || (kMaxDownloadRangeSize <? read_length q)
  then (w, RangeFailure kInvalidArgument (str "download range length must be 1..1MiB"))
  else if negb (bempty if_match) && negb (ValidSha256Hex if_match)
  then (w, RangeFailure kInvalidArgument
             (str "if_match_sha256 must be empty or a 64-character SHA-256 digest"))
  else if negb (repository_ svc) || negb (storage_ svc)
  then (w, RangeFailure kStorageError download_missing)
  else match DownloadFile w (MkDownload (read_actor q) (read_file q)) with
  | (w, inr (status, message)) => (w, RangeFailure status message)
  | (w, inl (file, info)) =>
      if negb (bempty if_match) && negb (bool_decide (if_match = info_checksum info))
      then (w, RangeFailure kFailedPrecondition
                 (str "download validator no longer matches the AVAILABLE object"))
      else if info_size info <=? read_offset q
      then (w, RangeFailure kOutOfRange (str "download offset must be smaller than total_size"))
      else
        let effective_length := Z.min (read_length q) (u64 (info_size info - read_offset q)) in
        let '(w, read) := storage_ReadObjectRange w
          (MkObjectRange (storage_key file) (read_offset q) effective_length (info_size info)
             (info_checksum info)) in
        (w, match ob_status read with
            | kStorageSucceeded =>
                let bytes_read := bsize (ob_data read) in
                let actual := Sha256Hex evp (ob_data read) in
                let next := u64 (read_offset q + bytes_read) in
                if negb (ob_offset read =? read_offset q) || negb (bytes_read =? effective_length) ||
                   (bytes_read =? 0) || negb (ValidSha256Hex (ob_sha256 read)) || bempty actual ||
                   negb (bool_decide (actual = ob_sha256 read)) ||
                   negb (Bool.eqb (ob_eof read) (next =? info_size info))
                then RangeFailure kInvalidRecord
                       (str "storage range result violates immutable object invariants")
                else MkRangeResult kSucceeded (Some info) (read_offset q) (ob_data read)
                       (ob_sha256 read) (ob_eof read) next
                       (if ob_eof read then str "final download range read"
                        else str "download range read; resume from next_offset after reconnect")
            | kStorageInvalidArgument => RangeFailure kInvalidArgument (ob_message read)
            | kIoError =>
                RangeFailure kStorageError
                  (or_message (ob_message read) (str "storage range read failed"))
            | _ =>
                RangeFailure kInvalidRecord
                  (or_message (ob_message read)
                     (str "AVAILABLE storage object is missing or corrupt"))
            end)
  end.

End Service.
