(* ===== verification/FileProgress.v ===== *)
(** * The progress of an upload

    What [BuildProgress] of the file application service computes: the snapshots it
    accepts are those with the geometry of the upload, the missing ranges are exactly
    the chunks that are not stored, and an upload is ready exactly when its stored
    chunks tile the file. *)
From Stdlib Require Import ZArith Lia String.
From stdpp Require Import base list numbers sorting.
From S2P Require Import Prelude ByteStrings FileTypes FileApplicationService.

Local Open Scope Z_scope.

(** ** Geometry *)

(** The number of chunks of an upload; each covers the bytes from its index times the
    chunk size on, the last one what is left. *)
Definition chunks_of (session : UploadSessionView) : Z :=
  1 + (session_size session - 1) `div` session_chunk session.
Definition offset_of (session : UploadSessionView) (i : Z) : Z := i * session_chunk session.
Definition size_of (session : UploadSessionView) (i : Z) : Z :=
  Z.min (session_chunk session) (session_size session - offset_of session i).

Definition bundle_fits (b : UploadBundleView) : Prop :=
  file_id (bundle_file b) ≠ 0 ∧ upload_id (bundle_session b) ≠ 0 ∧
  file_id (bundle_file b) = session_file (bundle_session b) ∧
  file_owner (bundle_file b) ≠ 0 ∧ file_owner (bundle_file b) = session_owner (bundle_session b) ∧
  file_size (bundle_file b) ≠ 0 ∧ file_size (bundle_file b) = session_size (bundle_session b) ∧
  session_chunk (bundle_session b) ≠ 0.

Definition chunk_fits (b : UploadBundleView) (c : UploadChunkView) : Prop :=
  chunk_index c < chunks_of (bundle_session b) ∧
  chunk_upload c = upload_id (bundle_session b) ∧ chunk_file c = file_id (bundle_file b) ∧
  chunk_owner c = session_owner (bundle_session b) ∧
  chunk_algorithm c = str "sha256" ∧ bsize (chunk_checksum c) = 64 ∧
  byte_offset c = offset_of (bundle_session b) (chunk_index c) ∧
  chunk_size c = size_of (bundle_session b) (chunk_index c) ∧
  (chunk_status c = kStored ∨ chunk_status c = kReserved).

Definition geometry (s : UploadSnapshotView) : Prop :=
  bundle_fits (snapshot_bundle s) ∧
  StronglySorted (λ c d, chunk_index c < chunk_index d) (snapshot_chunks s) ∧
  Forall (chunk_fits (snapshot_bundle s)) (snapshot_chunks s).

(** The numbers of a snapshot have their width. *)
Definition snapshot_typed (s : UploadSnapshotView) : Prop :=
  is_u64 (session_size (bundle_session (snapshot_bundle s))) ∧
  is_u64 (session_chunk (bundle_session (snapshot_bundle s))) ∧
  Forall (λ c, is_u64 (chunk_index c)) (snapshot_chunks s).

Definition stored_at_index (cs : list UploadChunkView) (i : Z) : Prop :=
  ∃ c, c ∈ cs ∧ chunk_index c = i ∧ chunk_status c = kStored.

(** Chunks that lie one behind the other up to [size]. *)
Fixpoint tiles (offset : Z) (cs : list UploadChunkView) (size : Z) : Prop :=
  match cs with
  | [] => offset = size
  | c :: cs => byte_offset c = offset ∧ tiles (offset + chunk_size c) cs size
  end.

(** ** Ranges *)

Definition in_range (i : Z) (r : ChunkIndexRange) : Prop := start_index r ≤ i ≤ end_index r.
Definition covered (l : list ChunkIndexRange) (i : Z) : Prop := ∃ r, r ∈ l ∧ in_range i r.

(** Ranges in order with a gap between each two. *)
Definition separated (l : list ChunkIndexRange) : Prop :=
  Forall (λ r, start_index r ≤ end_index r) l ∧
  StronglySorted (λ r r', end_index r + 1 < start_index r') l.

(** The ranges of the loop, newest first, all below [b]. *)
Fixpoint ranges_ok (b : Z) (l : list ChunkIndexRange) : Prop :=
  match l with
  | [] => True
  | r :: l => 0 ≤ start_index r ≤ end_index r ∧ end_index r < b ∧ ranges_ok (start_index r - 1) l
  end.

Lemma ranges_ok_weaken b b' l : b ≤ b' → ranges_ok b l → ranges_ok b' l.
Proof. destruct l as [|r l]; [done|]. cbn. intros ? (? & ? & ?). split_and!; try done; lia. Qed.

Lemma ranges_ok_below b l : ranges_ok b l → Forall (λ r, end_index r < b) l.
Proof.
  revert b. induction l as [|r l IH]; intros b; [constructor|]. cbn. intros (? & ? & Hl).
  constructor; [done|]. eapply Forall_impl; [by apply IH|]. cbn. lia.
Qed.

Lemma ranges_ok_separated b l : ranges_ok b l → separated (rev l).
Proof.
  intros Hl. split.
  - apply Forall_rev. revert b Hl. induction l as [|r l IH]; intros b; [constructor|].
    cbn. intros (? & ? & Hl). constructor; [lia|]. by eapply IH.
  - revert b Hl. induction l as [|r l IH]; intros b; [constructor|]. cbn. intros (? & ? & Hl).
    apply StronglySorted_app. split_and!; [|by eapply IH|repeat constructor].
    intros r1 r2 H1 ->%list_elem_of_singleton. apply ranges_ok_below in Hl.
    apply list_elem_of_In, in_rev, list_elem_of_In in H1.
    pose proof (proj1 (list.Forall_forall _ _) Hl r1 H1). cbn in *. lia.
Qed.

Lemma covered_cons r l i : covered (r :: l) i ↔ in_range i r ∨ covered l i.
Proof.
  unfold covered. split.
  - intros (r' & [->|Hr]%elem_of_cons & Hi); eauto.
  - intros [Hi|(r' & Hr & Hi)]; [exists r|exists r']; rewrite elem_of_cons; eauto.
Qed.

Lemma covered_nil i : ¬ covered [] i.
Proof. by intros (r & Hr%not_elem_of_nil & _). Qed.

Lemma covered_rev l i : covered (rev l) i ↔ covered l i.
Proof. unfold covered. setoid_rewrite list_elem_of_In. by setoid_rewrite <- in_rev. Qed.

(** Appending a range above the others adds exactly its indices. *)
Lemma append_range b l s e :
  ranges_ok b l → b ≤ s → 0 ≤ s ≤ e → is_u64 s →
  ranges_ok (e + 1) (AppendMissingRange l s e) ∧
  (∀ i, covered (AppendMissingRange l s e) i ↔ covered l i ∨ s ≤ i ≤ e) ∧
  AppendMissingRange l s e ≠ [].
Proof.
  unfold is_u64. intros Hl Hb Hse Hs. unfold AppendMissingRange.
  rewrite (proj2 (Z.ltb_ge e s)) by lia.
  assert (Hnew : ranges_ok (s - 1) l → ranges_ok (e + 1) (MkRange s e :: l) ∧
    (∀ i, covered (MkRange s e :: l) i ↔ covered l i ∨ s ≤ i ≤ e) ∧ MkRange s e :: l ≠ []).
  { intros Hok. split_and!; [cbn; split_and!; try done; lia| |done].
    intros i. rewrite covered_cons. unfold in_range. cbn. tauto. }
  destruct l as [|r l]; [by apply Hnew|]. cbn in Hl. destruct Hl as (? & ? & Hl).
  rewrite (proj2 (Z.eqb_neq (end_index r) (2 ^ 64 - 1))) by lia. cbn [negb andb].
  rewrite u64_small by (unfold is_u64; lia).
  destruct (Z.eqb_spec (end_index r + 1) s) as [Heq|Hne].
  - split_and!; [cbn; split_and!; try done; lia| |done].
    intros i. rewrite !covered_cons. unfold in_range. cbn. split.
    + intros [?|?]; [|tauto]. destruct (Z_le_gt_dec s i); [right; lia|left; left; lia].
    + intros [[?|?]|?]; [left; lia|tauto|left; lia].
  - apply Hnew. cbn. split_and!; try done; lia.
Qed.

(** ** The scan *)

Section Scan.
Context (bundle : UploadBundleView).
Local Abbreviation file := (bundle_file bundle).
Local Abbreviation session := (bundle_session bundle).
Hypothesis Hbundle : bundle_fits bundle.
Hypothesis Hsize : is_u64 (session_size session).
Hypothesis Hchunk : is_u64 (session_chunk session).

Lemma session_numbers : 0 < session_size session < 2 ^ 64 ∧ 0 < session_chunk session < 2 ^ 64.
Proof.
  destruct Hbundle as (_ & _ & _ & _ & _ & H1 & H2 & H3). unfold is_u64 in *.
  lia.
Qed.

Lemma chunks_range : 1 ≤ chunks_of session ≤ session_size session.
Proof.
  pose proof session_numbers. unfold chunks_of.
  assert (0 ≤ (session_size session - 1) `div` session_chunk session) by (apply Z.div_pos; lia).
  assert ((session_size session - 1) `div` session_chunk session ≤ session_size session - 1)
    by (apply Z.div_le_upper_bound; nia).
  lia.
Qed.

Lemma chunk_count_eq : chunk_count session = chunks_of session.
Proof.
  pose proof session_numbers. pose proof chunks_range. unfold chunk_count.
  apply u64_small. unfold is_u64, chunks_of in *. lia.
Qed.

(** An index below the number of chunks starts inside the file. *)
Lemma index_inside i : 0 ≤ i < chunks_of session →
  0 ≤ offset_of session i < session_size session ∧ 0 < size_of session i.
Proof.
  pose proof session_numbers. unfold chunks_of, size_of, offset_of. intros Hi.
  pose proof (Z.mul_div_le (session_size session - 1) (session_chunk session)).
  assert (i * session_chunk session ≤ session_size session - 1) by nia. nia.
Qed.

Lemma expected_eq i : 0 ≤ i < chunks_of session →
  expected_offset session i = offset_of session i ∧ expected_size session i = size_of session i.
Proof.
  intros Hi. pose proof (index_inside i Hi) as [Ho _]. pose proof session_numbers.
  assert (expected_offset session i = offset_of session i) as Eo
    by (apply u64_small; unfold is_u64, offset_of in *; lia).
  split; [done|]. unfold expected_size, size_of. rewrite Eo, u64_small by (unfold is_u64; lia). done.
Qed.

Lemma refused_spec previous c : 0 ≤ chunk_index c →
  chunk_refused file session (chunks_of session) previous c = false ↔
  (∀ p, previous = Some p → p < chunk_index c) ∧ chunk_index c < chunks_of session ∧
  chunk_upload c = upload_id session ∧ chunk_file c = file_id file ∧
  chunk_owner c = session_owner session ∧ chunk_algorithm c = str "sha256" ∧
  bsize (chunk_checksum c) = 64.
Proof.
  intros Hc. unfold chunk_refused.
  rewrite !orb_false_iff, !negb_false_iff, Z.leb_gt, !Z.eqb_eq, bool_decide_eq_true.
  assert (Hp : (match previous with Some p => chunk_index c <=? p | None => false end) = false ↔
               ∀ p, previous = Some p → p < chunk_index c).
  { destruct previous as [p|]; [rewrite Z.leb_gt|]; naive_solver. }
  rewrite Hp. tauto.
Qed.

Definition count_status (st : UploadChunkStatus) (cs : list UploadChunkView) : Z :=
  Z.of_nat (length (filter (λ c, chunk_status c = st) cs)).

(** The state after the chunks [done]. *)
Record scanned (done : list UploadChunkView) (s : Scan) : Prop := {
  sc_cursor : 0 ≤ cursor s ≤ chunks_of session;
  sc_previous c : cursor s ≤ c ↔ 0 ≤ c ∧ (∀ p, previous_index s = Some p → p < c);
  sc_below : Forall (λ c, chunk_index c < cursor s) done;
  sc_ranges : ranges_ok (cursor s) (scan_ranges s);
  sc_covered i : covered (scan_ranges s) i ↔ 0 ≤ i < cursor s ∧ ¬ stored_at_index done i;
  sc_stored : scan_stored s = count_status kStored done;
  sc_reserved : scan_reserved s = count_status kReserved done;
  sc_total : Z.of_nat (length done) ≤ cursor s;
}.

Lemma scanned_init : scanned [] (MkScan [] 0 0 0 None).
Proof.
  pose proof chunks_range. split; cbn; [lia|naive_solver|constructor|done| |done|done|lia].
  intros i. split; [by intros ?%covered_nil|lia].
Qed.

Lemma stored_snoc done c i :
  stored_at_index (done ++ [c]) i ↔
  stored_at_index done i ∨ chunk_index c = i ∧ chunk_status c = kStored.
Proof.
  unfold stored_at_index. setoid_rewrite elem_of_app. setoid_rewrite list_elem_of_singleton.
  naive_solver.
Qed.

Lemma count_snoc st done c :
  count_status st (done ++ [c]) = count_status st done + ind (chunk_status c = st).
Proof.
  unfold count_status. rewrite filter_app, length_app, filter_cons, filter_nil. unfold ind.
  destruct (decide (chunk_status c = st)); cbn [length]; lia.
Qed.

Lemma count_le st done : 0 ≤ count_status st done ≤ Z.of_nat (length done).
Proof. unfold count_status. pose proof (length_filter (λ c, chunk_status c = st) done). lia. Qed.

(** The ranges up to [n] when the loop is at the chunk [n]. *)
Definition ranges_to (s : Scan) (n : Z) : list ChunkIndexRange :=
  if cursor s <? n then AppendMissingRange (scan_ranges s) (cursor s) (u64 (n - 1)) else scan_ranges s.

Lemma ranges_to_ok done s n : scanned done s → cursor s ≤ n ≤ chunks_of session →
  ranges_ok n (ranges_to s n) ∧
  (∀ i, covered (ranges_to s n) i ↔ 0 ≤ i < n ∧ ¬ stored_at_index done i).
Proof.
  intros Hs Hn. pose proof session_numbers. pose proof chunks_range. pose proof (sc_cursor _ _ Hs).
  unfold ranges_to. destruct (Z.ltb_spec (cursor s) n) as [Hlt|Hge].
  - rewrite u64_small by (unfold is_u64; lia).
    destruct (append_range (cursor s) (scan_ranges s) (cursor s) (n - 1)) as (Hok & Hcov & _);
      try lia; [by apply Hs|unfold is_u64; lia|]. split; [eapply ranges_ok_weaken; [|exact Hok]; lia|].
    intros i. rewrite Hcov, (sc_covered _ _ Hs). split.
    + intros [[? ?]|?]; [split; [lia|done]|]. split; [lia|]. intros (c & Hc & <- & _).
      pose proof (proj1 (list.Forall_forall _ _) (sc_below _ _ Hs) c Hc). cbn in *. lia.
    + intros [? ?]. destruct (Z_lt_ge_dec i (cursor s)); [left; split; [lia|done]|right; lia].
  - replace n with (cursor s) by lia. split; [by apply Hs|]. apply Hs.
Qed.

(** One turn of the loop. *)
Lemma scanned_step done s c ranges :
  scanned done s → cursor s ≤ chunk_index c < chunks_of session →
  ranges_ok (chunk_index c + 1) ranges →
  (∀ i, covered ranges i ↔ 0 ≤ i < chunk_index c + 1 ∧ ¬ stored_at_index (done ++ [c]) i) →
  scanned (done ++ [c])
    (MkScan ranges (scan_stored s + ind (chunk_status c = kStored))
       (scan_reserved s + ind (chunk_status c = kReserved))
       (u64 (chunk_index c + 1)) (Some (chunk_index c))).
Proof.
  intros Hs Hc Hok Hcov. pose proof session_numbers. pose proof chunks_range.
  pose proof (sc_cursor _ _ Hs). pose proof (sc_total _ _ Hs).
  rewrite (sc_stored _ _ Hs), (sc_reserved _ _ Hs), u64_small by (unfold is_u64; lia).
  split; cbn; try done.
  - lia.
  - intros d. split; [intros ?; split; [lia|intros ? [= <-]; lia]|]. intros [_ Hp].
    specialize (Hp _ eq_refl). lia.
  - apply Forall_app. split; [|constructor; [lia|constructor]].
    eapply Forall_impl; [apply Hs|]. cbn. lia.
  - by rewrite count_snoc.
  - by rewrite count_snoc.
  - rewrite length_app. cbn. lia.
Qed.

Lemma scanned_counts done s : scanned done s → cursor s < chunks_of session →
  u64 (scan_stored s + 1) = scan_stored s + 1 ∧ u64 (scan_reserved s + 1) = scan_reserved s + 1.
Proof.
  intros Hs ?. pose proof session_numbers. pose proof chunks_range.
  pose proof (sc_cursor _ _ Hs). pose proof (sc_total _ _ Hs).
  pose proof (count_le kStored done). pose proof (count_le kReserved done).
  rewrite (sc_stored _ _ Hs), (sc_reserved _ _ Hs), !u64_small by (unfold is_u64; lia). done.
Qed.

Lemma scanned_turn done s c :
  scanned done s → cursor s ≤ chunk_index c < chunks_of session →
  (chunk_status c = kStored →
   scanned (done ++ [c])
     (MkScan (ranges_to s (chunk_index c)) (u64 (scan_stored s + 1)) (scan_reserved s)
        (u64 (chunk_index c + 1)) (Some (chunk_index c)))) ∧
  (chunk_status c = kReserved →
   scanned (done ++ [c])
     (MkScan (AppendMissingRange (ranges_to s (chunk_index c)) (chunk_index c) (chunk_index c))
        (scan_stored s) (u64 (scan_reserved s + 1)) (u64 (chunk_index c + 1)) (Some (chunk_index c)))).
Proof.
  intros Hs Hc. pose proof session_numbers. pose proof chunks_range. pose proof (sc_cursor _ _ Hs).
  destruct (scanned_counts done s Hs) as [-> ->]; [lia|].
  destruct (ranges_to_ok done s (chunk_index c)) as [Hok Hcov]; [done|lia|].
  destruct (append_range (chunk_index c) (ranges_to s (chunk_index c)) (chunk_index c) (chunk_index c))
    as (Hok' & Hcov' & _); [done|lia|lia|unfold is_u64; lia|].
  assert (Hnew : ¬ stored_at_index done (chunk_index c)).
  { intros (d & Hd & Heq & _).
    pose proof (proj1 (list.Forall_forall _ _) (sc_below _ _ Hs) d Hd). cbn in *. lia. }
  split; intros Hst.
  - pose proof (scanned_step done s c (ranges_to s (chunk_index c)) Hs Hc) as Hstep.
    rewrite ind_true, ind_false, Z.add_0_r in Hstep by congruence. apply Hstep.
    + eapply ranges_ok_weaken; [|exact Hok]; lia.
    + intros i. rewrite Hcov, stored_snoc. split; [|intros [? ?]; split; [|tauto]].
      * intros [? ?]. split; [lia|]. intros [?|[? _]]; [done|lia].
      * destruct (decide (i = chunk_index c)) as [->|]; [tauto|lia].
  - pose proof (scanned_step done s c _ Hs Hc Hok') as Hstep.
    rewrite ind_false, ind_true, Z.add_0_r in Hstep by congruence. apply Hstep.
    intros i. rewrite Hcov', Hcov, stored_snoc, Hst. split.
    + intros [[? ?]|?]; (split; [lia|]); [intros [?|[_ ?]]; done|].
      replace i with (chunk_index c) by lia. intros [?|[_ ?]]; done.
    + intros [? ?]. destruct (decide (i = chunk_index c)); [right; lia|left]. split; [lia|tauto].
Qed.

(** What the loop accepts from [n] on. *)
Definition acceptable (n : Z) (cs : list UploadChunkView) : Prop :=
  StronglySorted (λ c d, chunk_index c < chunk_index d) cs ∧
  Forall (chunk_fits bundle) cs ∧ Forall (λ c, n ≤ chunk_index c) cs.

Lemma acceptable_cons n c cs :
  acceptable n (c :: cs) ↔ n ≤ chunk_index c ∧ chunk_fits bundle c ∧ acceptable (chunk_index c + 1) cs.
Proof.
  unfold acceptable. rewrite StronglySorted_cons, !list.Forall_cons. split.
  - intros ((Hc & Hs) & (Hf & Hfs) & (Hn & _)). split_and!; try done.
    eapply Forall_impl; [exact Hc|]. cbn. lia.
  - intros (Hn & Hf & Hs & Hfs & Hi). split_and!; try done.
    + eapply Forall_impl; [exact Hi|]. cbn. lia.
    + eapply Forall_impl; [exact Hi|]. cbn. lia.
Qed.

Lemma ScanChunks_spec cs : ∀ done s,
  scanned done s → Forall (λ c, is_u64 (chunk_index c)) cs →
  match ScanChunks file session (chunks_of session) cs s with
  | Some s' => acceptable (cursor s) cs ∧ scanned (done ++ cs) s'
  | None => ¬ acceptable (cursor s) cs
  end.
Proof.
  induction cs as [|c cs IH]; intros done s Hs Hu.
  { cbn. rewrite app_nil_r. split; [|done]. repeat constructor. }
  apply list.Forall_cons in Hu as [Hc Hu]. cbn [ScanChunks].
  assert (Hidx : 0 ≤ chunk_index c < 2 ^ 64) by exact Hc.
  destruct (chunk_refused file session (chunks_of session) (previous_index s) c) eqn:Hr.
  { rewrite acceptable_cons. intros (Hn & (? & ? & ? & ? & ? & ? & _) & _).
    apply not_false_iff_true in Hr. apply Hr, refused_spec; [lia|].
    apply (sc_previous _ _ Hs) in Hn as [_ Hn]. done. }
  apply refused_spec in Hr as (Hp & Hlt & Hup & Hfi & How & Hal & Hck); [|lia].
  assert (Hcur : cursor s ≤ chunk_index c) by (apply (sc_previous _ _ Hs); split; [lia|done]).
  destruct (expected_eq (chunk_index c)) as [-> ->]; [lia|].
  destruct (negb (byte_offset c =? offset_of session (chunk_index c)) ||
            negb (chunk_size c =? size_of session (chunk_index c))) eqn:Hg.
  { rewrite acceptable_cons. intros (_ & (_ & _ & _ & _ & _ & _ & Ho & Hz & _) & _).
    rewrite Ho, Hz, !Z.eqb_refl in Hg. done. }
  reflect_guards. fold (ranges_to s (chunk_index c)).
  destruct (scanned_turn done s c Hs) as [Hstored Hreserved]; [lia|].
  assert (Hnext : u64 (chunk_index c + 1) = chunk_index c + 1)
    by (pose proof session_numbers; pose proof chunks_range; apply u64_small; unfold is_u64; lia).
  assert (Hfits : chunk_status c = kStored ∨ chunk_status c = kReserved → chunk_fits bundle c)
    by (intros ?; split_and!; done).
  destruct (chunk_status c) as [| |v] eqn:Hst.
  - specialize (IH _ _ (Hreserved eq_refl) Hu). cbn [cursor] in IH. rewrite Hnext in IH |- *.
    rewrite <- app_assoc in IH. case_goal; rewrite acceptable_cons; [|tauto].
    destruct IH as [? ?]. split; [|done]. split_and!; [lia|tauto|done].
  - specialize (IH _ _ (Hstored eq_refl) Hu). cbn [cursor] in IH. rewrite Hnext in IH |- *.
    rewrite <- app_assoc in IH. case_goal; rewrite acceptable_cons; [|tauto].
    destruct IH as [? ?]. split; [|done]. split_and!; [lia|tauto|done].
  - rewrite acceptable_cons. intros (_ & (_ & _ & _ & _ & _ & _ & _ & _ & [Hx|Hx]) & _); congruence.
Qed.

(** ** Complete uploads *)

(** Chunks in order that leave no index out. *)
Lemma dense_indices cs : ∀ k n,
  StronglySorted (λ c d, chunk_index c < chunk_index d) cs →
  Forall (λ c, k ≤ chunk_index c < n) cs →
  (∀ i, k ≤ i < n → ∃ c, c ∈ cs ∧ chunk_index c = i) →
  chunk_index <$> cs = seqZ k (n - k).
Proof.
  induction cs as [|c cs IH]; intros k n Hs Hr Hall.
  - destruct (Z_lt_ge_dec k n) as [Hk|Hk].
    + destruct (Hall k) as (c & Hc%not_elem_of_nil & _); [lia|done].
    + by rewrite seqZ_nil by lia.
  - apply StronglySorted_cons in Hs as [Hc Hs]. apply list.Forall_cons in Hr as [Hk Hr].
    assert (chunk_index c = k) as Hck.
    { destruct (Hall k) as (d & Hd & Hi); [lia|]. apply elem_of_cons in Hd as [->|Hd]; [done|].
      pose proof (proj1 (list.Forall_forall _ _) Hc d Hd). cbn in *. lia. }
    rewrite seqZ_cons by lia. cbn [fmap list_fmap]. rewrite Hck. f_equal.
    replace (Z.pred (n - k)) with (n - Z.succ k) by lia. apply IH; [done| |].
    + apply list.Forall_forall. intros d Hd.
      pose proof (proj1 (list.Forall_forall _ _) Hc d Hd).
      pose proof (proj1 (list.Forall_forall _ _) Hr d Hd). cbn in *. lia.
    + intros i Hi. destruct (Hall i) as (d & Hd & Hdi); [lia|].
      apply elem_of_cons in Hd as [->|Hd]; [lia|]. eauto.
Qed.

Lemma acceptable_range cs : acceptable 0 cs → Forall (λ c, 0 ≤ chunk_index c < chunks_of session) cs.
Proof.
  intros (_ & Hf & Hn). apply list.Forall_forall. intros c Hc.
  pose proof (proj1 (list.Forall_forall _ _) Hf c Hc) as [? _].
  pose proof (proj1 (list.Forall_forall _ _) Hn c Hc). cbn in *. lia.
Qed.

Lemma complete_stored cs : acceptable 0 cs →
  (∀ i, 0 ≤ i < chunks_of session → stored_at_index cs i) →
  chunk_index <$> cs = seqZ 0 (chunks_of session) ∧ Forall (λ c, chunk_status c = kStored) cs ∧
  count_status kStored cs = chunks_of session.
Proof.
  intros Hcs Hall. pose proof (acceptable_range _ Hcs) as Hr. destruct Hcs as (Hs & _ & _).
  pose proof chunks_range.
  assert (Hd : ∀ l, l `sublist_of` cs →
    (∀ i, 0 ≤ i < chunks_of session → ∃ c, c ∈ l ∧ chunk_index c = i) →
    chunk_index <$> l = seqZ 0 (chunks_of session)).
  { intros l Hl Hi. rewrite (dense_indices l 0 (chunks_of session)); [f_equal; lia| | |done].
    - by eapply sorted_sublist.
    - apply list.Forall_forall. intros c Hc.
      apply (proj1 (list.Forall_forall _ _) Hr c). by eapply elem_of_sublist. }
  pose proof (Hd cs (reflexivity _)) as Hdense.
  pose proof (Hd (filter (λ c, chunk_status c = kStored) cs) (sublist_filter _ _)) as Hfilter.
  rewrite Hdense in *.
  2: { intros i Hi. destruct (Hall i Hi) as (c & ? & ? & ?). eauto. }
  assert (Hl : length (filter (λ c, chunk_status c = kStored) cs) = length cs).
  { rewrite <- (length_fmap chunk_index (filter _ cs)), <- (length_fmap chunk_index cs).
    rewrite Hfilter, Hdense; [done|..]; intros i Hi; destruct (Hall i Hi) as (c & ? & ? & ?);
      exists c; rewrite ?list_elem_of_filter; done. }
  split; [done|]. split.
  - apply list.Forall_forall. intros c Hc.
    destruct (decide (chunk_status c = kStored)) as [|Hne]; [done|].
    pose proof (length_filter_lt (λ c, chunk_status c = kStored) cs c Hc Hne). lia.
  - unfold count_status. rewrite Hl, <- (length_fmap chunk_index), Hdense.
    + rewrite length_seqZ. lia.
    + intros i Hi; destruct (Hall i Hi) as (c & ? & ? & ?); eauto.
Qed.

(** Chunks without a gap lie one behind the other up to the end of the file. *)
Lemma dense_tiles cs : ∀ k, 0 ≤ k ≤ chunks_of session → Forall (chunk_fits bundle) cs →
  chunk_index <$> cs = seqZ k (chunks_of session - k) →
  tiles (Z.min (offset_of session k) (session_size session)) cs (session_size session).
Proof.
  pose proof session_numbers as Hn. induction cs as [|c cs IH]; intros k Hk Hf Hd.
  - destruct (Z_lt_ge_dec k (chunks_of session)); [by rewrite seqZ_cons in Hd by lia|].
    cbn. unfold offset_of. assert (k = chunks_of session) as -> by lia. unfold chunks_of.
    pose proof (Z.mod_pos_bound (session_size session - 1) (session_chunk session)).
    pose proof (Z.div_mod (session_size session - 1) (session_chunk session)). nia.
  - destruct (Z_lt_ge_dec k (chunks_of session)); [|by rewrite seqZ_nil in Hd by lia].
    rewrite seqZ_cons in Hd by lia. injection Hd as Hc Hd. apply list.Forall_cons in Hf as [Hcf Hf].
    destruct Hcf as (_ & _ & _ & _ & _ & _ & Ho & Hz & _). rewrite Hc in Ho, Hz.
    destruct (index_inside k) as [? ?]; [lia|]. cbn [tiles]. split; [lia|].
    replace (Z.pred (chunks_of session - k)) with (chunks_of session - Z.succ k) in Hd by lia.
    specialize (IH (Z.succ k)). rewrite Hz. unfold size_of, offset_of in *.
    replace (Z.min (k * session_chunk session) (session_size session) +
             Z.min (session_chunk session) (session_size session - k * session_chunk session))
      with (Z.min (Z.succ k * session_chunk session) (session_size session)) by lia.
    apply IH; [lia|done|done].
Qed.

End Scan.

(** ** The progress *)

(** What a progress says about a snapshot. *)
Record progress_of (s : UploadSnapshotView) (p : UploadProgressView) : Prop := {
  po_bundle : progress_bundle p = snapshot_bundle s;
  po_expected : expected_chunk_count p = chunks_of (bundle_session (snapshot_bundle s));
  po_stored : stored_chunk_count p = count_status kStored (snapshot_chunks s);
  po_reserved : reserved_chunk_count p = count_status kReserved (snapshot_chunks s);
  po_separated : separated (missing_ranges p);
  po_missing i : covered (missing_ranges p) i ↔
    0 ≤ i < chunks_of (bundle_session (snapshot_bundle s)) ∧ ¬ stored_at_index (snapshot_chunks s) i;
  po_ready : ready_to_finalize p = true ↔
    mutable_or_finalizing (bundle_file (snapshot_bundle s)) (bundle_session (snapshot_bundle s)) = true ∧
    ∀ i, 0 ≤ i < chunks_of (bundle_session (snapshot_bundle s)) → stored_at_index (snapshot_chunks s) i;
}.

Lemma bundle_refused_spec b :
  bundle_refused (bundle_file b) (bundle_session b) = false ↔ bundle_fits b.
Proof.
  unfold bundle_refused, bundle_fits. rewrite !orb_false_iff, !negb_false_iff, !Z.eqb_neq, !Z.eqb_eq.
  tauto.
Qed.

Lemma stored_dec cs i : Decision (stored_at_index cs i).
Proof.
  refine (cast_if (decide (Exists (λ c, chunk_index c = i ∧ chunk_status c = kStored) cs)));
    unfold stored_at_index; rewrite <- Exists_exists; done.
Defined.

Lemma ranges_empty b l P : ranges_ok b l → (∀ i, covered l i ↔ P i) → l = [] ↔ ∀ i, ¬ P i.
Proof.
  intros Hok Hcov. split.
  - intros -> i Hi%Hcov. by apply covered_nil in Hi.
  - intros Hn. destruct l as [|r l]; [done|]. destruct Hok as (? & _ & _).
    destruct (Hn (start_index r)). apply Hcov, covered_cons. left. unfold in_range. lia.
Qed.

Lemma BuildProgress_spec s : snapshot_typed s →
  match BuildProgress s with
  | None => ¬ geometry s
  | Some p => geometry s ∧ progress_of s p
  end.
Proof.
  intros (Hsize & Hchunk & Hidx). unfold BuildProgress, geometry.
  destruct (bundle_refused _ _) eqn:Hb.
  { intros (Hfit%bundle_refused_spec & _). congruence. }
  apply bundle_refused_spec in Hb. rewrite chunk_count_eq by done.
  set (b := snapshot_bundle s) in *. set (cs := snapshot_chunks s) in *.
  pose proof (ScanChunks_spec b Hb Hsize Hchunk cs [] _ (scanned_init b Hb Hsize Hchunk) Hidx) as Hscan.
  assert (Hacc : acceptable b 0 cs ↔
    StronglySorted (λ c d, chunk_index c < chunk_index d) cs ∧ Forall (chunk_fits b) cs).
  { unfold acceptable. split; [tauto|]. intros [? ?]. split_and!; try done.
    eapply Forall_impl; [exact Hidx|]. unfold is_u64. cbn. lia. }
  destruct (ScanChunks _ _ _ cs _) as [sc|]; cbn [cursor] in Hscan; [|tauto].
  destruct Hscan as [Ha Hsc]. cbn in Hsc. split; [tauto|].
  pose proof (chunks_range b Hb Hsize Hchunk) as Hcr. pose proof (sc_cursor _ _ _ Hsc) as Hcur.
  destruct (ranges_to_ok b Hb Hsize Hchunk cs sc (chunks_of (bundle_session b)) Hsc) as [Hok Hcov]; [lia|].
  fold (ranges_to sc (chunks_of (bundle_session b))).
  set (ranges := ranges_to sc (chunks_of (bundle_session b))) in *.
  split; cbn; try done.
  - by apply (sc_stored b).
  - by apply (sc_reserved b).
  - by eapply ranges_ok_separated.
  - intros i. by rewrite covered_rev.
  - pose proof (ranges_empty _ _ _ Hok Hcov) as Hempty. rewrite !andb_true_iff, Z.eqb_eq.
    rewrite (sc_stored _ _ _ Hsc).
    assert (Hr : (match ranges with [] => true | _ => false end) = true ↔ ranges = []).
    { destruct ranges; done. }
    rewrite Hr, Hempty. split.
    + intros [[Hm Hn] _]. split; [done|]. intros i Hi.
      destruct (stored_dec cs i) as [|Hno]; [done|]. by destruct (Hn i).
    + intros [Hm Hall]. split_and!; [done|intros i [? Hno]; by apply Hno, Hall|].
      by apply (complete_stored b Hb Hsize Hchunk).
Qed.

(** A complete snapshot tiles the file. *)
Lemma complete_tiles s : snapshot_typed s → geometry s →
  (∀ i, 0 ≤ i < chunks_of (bundle_session (snapshot_bundle s)) → stored_at_index (snapshot_chunks s) i) →
  Forall (λ c, chunk_status c = kStored) (snapshot_chunks s) ∧
  tiles 0 (snapshot_chunks s) (file_size (bundle_file (snapshot_bundle s))).
Proof.
  intros (Hsize & Hchunk & Hidx) (Hb & Hs & Hf) Hall.
  destruct (complete_stored (snapshot_bundle s) Hb Hsize Hchunk (snapshot_chunks s)) as (Hd & Hst & _).
  { unfold acceptable. split_and!; try done. eapply Forall_impl; [exact Hidx|]. unfold is_u64. cbn. lia. }
  { done. }
  split; [done|]. pose proof (chunks_range _ Hb Hsize Hchunk).
  pose proof (dense_tiles _ Hb Hsize Hchunk (snapshot_chunks s) 0) as Ht.
  destruct Hb as (_ & _ & _ & _ & _ & ? & -> & _). unfold offset_of in Ht.
  unfold is_u64 in Hsize.
  rewrite Z.mul_0_l, Z.min_l, Z.sub_0_r in Ht by lia. apply Ht; [lia|done|done].
Qed.

(** C25: the progress of an upload is exact.  A snapshot is refused exactly when its
    chunks do not have the geometry of the upload; otherwise the missing ranges are in
    order, with a gap between each two, and cover exactly the chunks that are not stored,
    the counters count, and the upload is ready exactly when it is open and every chunk is
    stored, in which case the chunks lie one behind the other from the first byte of the
    file to the last. *)
Theorem progress_exact (s : UploadSnapshotView) (Hs : snapshot_typed s) :
  match BuildProgress s with
  | None => ¬ geometry s
  | Some p =>
      let session := bundle_session (snapshot_bundle s) in
      let file := bundle_file (snapshot_bundle s) in
      geometry s ∧ expected_chunk_count p = chunks_of session ∧
      stored_chunk_count p = count_status kStored (snapshot_chunks s) ∧
      reserved_chunk_count p = count_status kReserved (snapshot_chunks s) ∧
      separated (missing_ranges p) ∧
      (∀ i, covered (missing_ranges p) i ↔
            0 ≤ i < chunks_of session ∧ ¬ stored_at_index (snapshot_chunks s) i) ∧
      (ready_to_finalize p = true ↔
       mutable_or_finalizing file session = true ∧
       ∀ i, 0 ≤ i < chunks_of session → stored_at_index (snapshot_chunks s) i) ∧
      (ready_to_finalize p = true → tiles 0 (snapshot_chunks s) (file_size file))
  end.
Proof.
  pose proof (BuildProgress_spec s Hs) as H. destruct (BuildProgress s) as [p|]; [|done].
  destruct H as [Hg Hp]. split; [done|].
  split_and!; try by apply Hp. intros [_ Hall]%(po_ready _ _ Hp). by apply complete_tiles.
Qed.

(** ** An example *)

(** An upload of 600 KiB in chunks of 256 KiB with the first chunk stored and the last
    reserved. *)
Definition example_digest : list Z := replicate 64 97.
Definition example_file : FileView :=
  MkFile 7 3 (str "a.txt") (str "text/plain") 614400 (str "sha256") example_digest []
    (str "local_fs") (str "files/7") kUploading 1 [] [] [] [].
Definition example_session : UploadSessionView :=
  MkSession 9 7 3 (str "u") 614400 262144 kActive 1 [] [] [] [].
Definition example_chunk (i offset size : Z) (status : UploadChunkStatus) : UploadChunkView :=
  MkChunk 9 i 7 3 offset size (str "sha256") example_digest (str "part") status 1 [] [] [].
Definition example_snapshot : UploadSnapshotView :=
  MkSnapshot (MkBundle example_file example_session)
    [example_chunk 0 0 262144 kStored; example_chunk 2 524288 90112 kReserved].

Lemma progress_exact_witness :
  snapshot_typed example_snapshot ∧
  BuildProgress example_snapshot =
    Some (MkProgress (snapshot_bundle example_snapshot) 3 1 1 [MkRange 1 2] false) ∧
  (∀ i, covered [MkRange 1 2] i ↔ 0 ≤ i < 3 ∧ ¬ stored_at_index (snapshot_chunks example_snapshot) i).
Proof.
  assert (Ht : snapshot_typed example_snapshot).
  { unfold snapshot_typed, is_u64. cbn. split_and!; try lia. repeat constructor; cbn; lia. }
  pose proof (progress_exact example_snapshot Ht) as H.
  split; [exact Ht|]. split; [vm_compute; reflexivity|].
  replace (BuildProgress example_snapshot)
    with (Some (MkProgress (snapshot_bundle example_snapshot) 3 1 1 [MkRange 1 2] false)) in H
    by (vm_compute; reflexivity).
  destruct H as (_ & _ & _ & _ & _ & Hc & _). exact Hc.
Defined.
