(* ===== verification/FileWorld.v ===== *)
(** * The world of the file service

    The state the file service shares with the rest of the system: the tables of the
    database (a parameter here, [FileRepository] says what they are), the files of the
    disk and the cache of verified objects.  Each call of the system, of the database
    or of a lock is one step.  A [Moment] is what the world does at such a step: the
    changes others made since the last one, whether the call fails, how many bytes it
    moves, and the values it reports.

    A verification computes digests of what it read, and a range is compared with them.
    The strings these digests are of are remembered in [digested], which no computation
    looks at: it is there to say which strings SHA-256 has to tell apart.

    A call that a signal interrupts is repeated by the loops of the source without any
    effect; a call here is its last repetition.  Paths have no NUL bytes; there are no
    links.  A directory that is missing is a call that fails. *)
From Stdlib Require Import ZArith Lia String.
From stdpp Require Import base list numbers gmap.
From S2P Require Import Prelude ByteStrings FileTypes.

Local Open Scope Z_scope.

(** ** Files *)

(** The fields of [struct stat] the source uses, but for the size. *)
Record Stamp := MkStamp {
  st_dev : Z;
  st_regular : bool;                   (* S_ISREG *)
  st_mtim_sec : Z;
  st_mtim_nsec : Z;
  st_ctim_sec : Z;
  st_ctim_nsec : Z;
}.

Record Inode := MkInode { data : list Z; stamp : Stamp }.

(** A file is a number; the names of the disk lead to files. *)
Record Disk := MkDisk { names : gmap (list Z) nat; inodes : gmap nat Inode }.

Definition data_of (d : Disk) (i : nat) : list Z := from_option data [] (inodes d !! i).

(** What a path leads to. *)
Definition content_at (d : Disk) (p : list Z) : option (list Z) :=
  match names d !! p with Some i => data <$> inodes d !! i | None => None end.

Record VerifiedObjectCacheEntry := MkEntry {
  fingerprint : list Z;
  whole_sha256 : list Z;
  block_sha256 : list (list Z);
}.
Notation Cache := (gmap (list Z) VerifiedObjectCacheEntry).

(** ** The world *)

Inductive CommitOutcome := Committed | LostCommitted | LostAborted.

Section World.
Context {Db : Type}.

Record Shared := MkShared {
  tables : Db;
  disk : Disk;
  verified_objects_ : Cache;
  digested : list (list Z);            (* ghost: what digests were computed of *)
}.

Record Moment := MkMoment {
  others : Shared → Shared;
  fails : bool;
  error_text : list Z;                 (* strerror, LastError *)
  count : nat;                         (* what a transfer moves *)
  stamped : Stamp;
  sequence : Z;                        (* g_temp_sequence.fetch_add *)
  victim : nat;                        (* the element of an unordered map begin() is at *)
  evp : bool;                          (* OpenSSL works *)
  now : list Z;                        (* CURRENT_TIMESTAMP(3) *)
  commit : CommitOutcome;
}.

Record World := MkWorld { shared : Shared; ticks : nat }.

Definition IO (A : Type) : Type := World → World * A.
#[export] Instance io_ret : MRet IO := λ A a w, (w, a).
#[export] Instance io_bind : MBind IO := λ A B f e w, let '(w, a) := e w in f a w.

Context (moment : nat → Moment).

(** The next step: first the others, then the caller, who learns the moment. *)
Definition tick : IO Moment := λ w,
  let m := moment (ticks w) in
  (MkWorld (others m (shared w)) (S (ticks w)), m).

Definition on_disk (f : Disk → Disk) : IO () := λ w,
  (MkWorld (MkShared (tables (shared w)) (f (disk (shared w))) (verified_objects_ (shared w))
     (digested (shared w)))
     (ticks w), ()).
Definition on_cache (f : Cache → Cache) : IO () := λ w,
  (MkWorld (MkShared (tables (shared w)) (disk (shared w)) (f (verified_objects_ (shared w)))
     (digested (shared w)))
     (ticks w), ()).
(** The string a digest is computed of, at this step. *)
Definition logged (s : Shared) (x : list Z) : Shared :=
  MkShared (tables s) (disk s) (verified_objects_ s) (x :: digested s).
Definition digest (x : list Z) : IO Moment := λ w,
  let '(w, m) := tick w in (MkWorld (logged (shared w) x) (ticks w), m).

Definition get_disk : IO Disk := λ w, (w, disk (shared w)).
Definition get_cache : IO Cache := λ w, (w, verified_objects_ (shared w)).

(** ** System calls *)

(** [open(O_WRONLY | O_CREAT | O_EXCL)]: a new empty file. *)
Definition sys_create (p : list Z) : IO (list Z + nat) :=
  m ← tick; d ← get_disk;
  if fails m then mret (inl (error_text m))
  else match names d !! p with
  | Some _ => mret (inl (error_text m))
  | None =>
      let i := fresh (dom (inodes d) ∪ map_img (names d)) in
      on_disk (λ d, MkDisk (<[p := i]> (names d)) (<[i := MkInode [] (stamped m)]> (inodes d)));;
      mret (inr i)
  end.

(** [open(O_RDONLY)]; a failure says whether it is [ENOENT]. *)
Definition sys_open (p : list Z) : IO (bool * list Z + nat) :=
  m ← tick; d ← get_disk;
  mret (if fails m then inl (false, error_text m)
        else match names d !! p with
             | Some i => inr i
             | None => inl (true, error_text m)
             end).

(** [xs] written over [old] from the position [pos] on. *)
Definition write_at (pos : nat) (xs old : list Z) : list Z :=
  splice pos xs (old ++ replicate (pos - length old) 0).

(** [write] of the bytes at [pos]: the number of bytes it took. *)
Definition sys_write (i : nat) (pos : nat) (bytes : list Z) : IO (list Z + nat) :=
  m ← tick;
  if fails m then mret (inl (error_text m))
  else
    let n := Nat.min (length bytes) (count m) in
    on_disk (λ d, MkDisk (names d)
      (alter (λ nd, MkInode (write_at pos (take n bytes) (data nd)) (stamped m)) i (inodes d)));;
    mret (inr n).

(** [read] or [pread] of at most [size] bytes at [pos]; at least one if there are any. *)
Definition sys_read (i : nat) (pos : nat) (size : nat) : IO (list Z + list Z) :=
  m ← tick; d ← get_disk;
  mret (if fails m then inl (error_text m)
        else inr (take (Nat.min size (S (count m))) (drop pos (data_of d i)))).

(** A call that changes nothing here: [fsync], [close], [create_directories]. *)
Definition sys_plain : IO (option (list Z)) :=
  m ← tick; mret (if fails m then Some (error_text m) else None).

Definition sys_rename (from to : list Z) : IO (option (list Z)) :=
  m ← tick; d ← get_disk;
  if fails m then mret (Some (error_text m))
  else match names d !! from with
  | None => mret (Some (error_text m))
  | Some i =>
      on_disk (λ d, MkDisk (<[to := i]> (delete from (names d))) (inodes d));; mret None
  end.

Definition sys_remove (p : list Z) : IO () :=
  m ← tick;
  if fails m then mret () else on_disk (λ d, MkDisk (delete p (names d)) (inodes d)).

(** [fstat]: the stamp and the size. *)
Definition sys_fstat (i : nat) : IO (list Z + Stamp * Z) :=
  m ← tick; d ← get_disk;
  mret (if fails m then inl (error_text m)
        else match inodes d !! i with
             | Some nd => inr (stamp nd, bsize (data nd))
             | None => inl (error_text m)
             end).

(** A section under the mutex of the cache. *)
Definition with_cache {A} (f : Moment → Cache → Cache * A) : IO A :=
  m ← tick; c ← get_cache;
  on_cache (λ _, (f m c).1);; mret (f m c).2.

(** ** Reasoning about computations *)

(** From a state with [P] the computation ends in one with [Q]. *)
Definition triple {A} (P : Shared → Prop) (e : IO A) (Q : A → Shared → Prop) : Prop :=
  ∀ w, P (shared w) → Q (e w).2 (shared (e w).1).

Lemma triple_ret {A} (P : Shared → Prop) (a : A) (Q : A → Shared → Prop) :
  (∀ s, P s → Q a s) → triple P (mret a) Q.
Proof. intros H w Hw. by apply H. Qed.

Lemma triple_bind {A B} (P : Shared → Prop) (e : IO A) (f : A → IO B) R Q :
  triple P e R → (∀ a, triple (R a) (f a) Q) → triple P (e ≫= f) Q.
Proof.
  intros He Hf w Hw. specialize (He w Hw). unfold mbind, io_bind in *.
  destruct (e w) as [w' a]. by apply Hf.
Qed.

Lemma triple_weaken {A} (P P' : Shared → Prop) (e : IO A) (Q Q' : A → Shared → Prop) :
  triple P e Q → (∀ s, P' s → P s) → (∀ a s, Q a s → Q' a s) → triple P' e Q'.
Proof. intros He HP HQ w Hw. by apply HQ, He, HP. Qed.

Lemma triple_pre {A} (P P' : Shared → Prop) (e : IO A) (Q : A → Shared → Prop) :
  triple P e Q → (∀ s, P' s → P s) → triple P' e Q.
Proof. intros He HP w Hw. by apply He, HP. Qed.

(** What others do keeps [P]. *)
Definition stable (P : Shared → Prop) : Prop := ∀ n s, P s → P (others (moment n) s).

Lemma triple_tick P : stable P → triple P tick (λ m s, (∃ n, m = moment n) ∧ P s).
Proof. intros HP w Hw. cbn. eauto. Qed.

Lemma triple_tick_bind {A} (P : Shared → Prop) (f : Moment → IO A) (Q : A → Shared → Prop) :
  stable P → (∀ n, triple P (f (moment n)) Q) → triple P (tick ≫= f) Q.
Proof.
  intros HP Hf. eapply triple_bind; [by apply triple_tick|]. intros m w [[n ->] Hw]. by apply Hf.
Qed.

Lemma triple_digest (P : Shared → Prop) x (Q : Shared → Prop) :
  stable P → (∀ s, P s → Q (logged s x)) → triple P (digest x) (λ m s, (∃ n, m = moment n) ∧ Q s).
Proof. intros HP HQ w Hw. split; [by eexists|]. apply HQ, HP, Hw. Qed.

(** Computations that keep [I] whatever happens, with a fact about their results. *)
Definition keeps {A} (I : Shared → Prop) (e : IO A) (φ : A → Prop) : Prop :=
  triple I e (λ a s, φ a ∧ I s).

Lemma keeps_ret {A} I (a : A) (φ : A → Prop) : φ a → keeps I (mret a) φ.
Proof. intros H. apply triple_ret. done. Qed.

Lemma keeps_bind {A B} I (e : IO A) (f : A → IO B) φ ψ :
  keeps I e φ → (∀ a, φ a → keeps I (f a) ψ) → keeps I (e ≫= f) ψ.
Proof.
  intros He Hf. eapply triple_bind; [exact He|]. intros a w [Ha Hw]. by apply Hf.
Qed.

Lemma keeps_weaken {A} I (e : IO A) (φ ψ : A → Prop) : keeps I e φ → (∀ a, φ a → ψ a) → keeps I e ψ.
Proof. intros He H. eapply triple_weaken; [exact He|done|]. naive_solver. Qed.

Lemma keeps_tick I : stable I → keeps I tick (λ m, ∃ n, m = moment n).
Proof. intros HI. by apply triple_tick. Qed.

Lemma keeps_get_disk I : keeps I get_disk (λ _, True).
Proof. intros w Hw. done. Qed.

(** Another cache. *)
Definition recached (s : Shared) (c : Cache) : Shared := MkShared (tables s) (disk s) c (digested s).

Lemma keeps_with_cache {A} (I : Shared → Prop) (f : Moment → Cache → Cache * A) (φ : A → Prop) :
  stable I →
  (∀ m s, I s → φ (f m (verified_objects_ s)).2 ∧
                I (recached s (f m (verified_objects_ s)).1)) →
  keeps I (with_cache f) φ.
Proof.
  intros HI Hf w Hw. cbn. apply (Hf (moment (ticks w)) (others (moment (ticks w)) (shared w))).
  by apply HI.
Qed.

(** Invariants that say nothing about the disk. *)
Definition off_disk (I : Shared → Prop) : Prop :=
  ∀ s d, I s → I (MkShared (tables s) d (verified_objects_ s) (digested s)).

End World.

Arguments Shared : clear implicits.
Arguments Moment : clear implicits.
Arguments World : clear implicits.
Arguments IO : clear implicits.

(** Goes through the binds of a computation that keeps an invariant. *)
Ltac keep_step :=
  match goal with
  | |- keeps _ (mret _) _ => apply keeps_ret
  | |- keeps _ (_ ≫= _) _ => eapply keeps_bind; [|intros ? ?]
  end.

(** Computes a primitive on a world. *)
Ltac io_simpl :=
  cbv beta iota zeta delta [mbind io_bind mret io_ret tick get_disk on_disk];
  cbn [fst snd shared ticks disk tables verified_objects_ digested].
