(* ===== verification/LocalFilesystemStorage.v ===== *)
(** * Files on the local disk

    Models [src/services/file/storage/LocalFilesystemStorage.h] and
    [LocalFilesystemStorage.cpp]: chunks and objects are written to a temporary file
    and renamed, and ranges are read from objects whose blocks were verified.  The
    system calls are those of [FileWorld]; [std::filesystem::path] is the string of a
    POSIX path. *)
From Stdlib Require Import ZArith Lia String.
From stdpp Require Import base list numbers gmap.
From S2P Require Import Prelude ByteStrings FileTypes FileWorld.

Local Open Scope Z_scope.

(** ** Paths *)

Definition slash : Z := 47.

(** The names of a relative path; a slash at the end gives an empty name. *)
Fixpoint names_of (cur s : list Z) : list (list Z) :=
  match s with
  | [] => [cur]
  | c :: s =>
      if c =? slash
      then if bempty cur then names_of [] s else cur :: names_of [] s
      else names_of (cur ++ [c]) s
  end.

Definition is_absolute (s : list Z) : bool :=
  match s with c :: _ => c =? slash | [] => false end.

Fixpoint join (ns : list (list Z)) : list Z :=
  match ns with
  | [] => []
  | [n] => n
  | n :: ns => n ++ slash :: join ns
  end.

(** The loop of [lexically_normal]: the names that are kept, newest first, and whether
    the last name was dropped. *)
Fixpoint normal_names (absolute : bool) (stack : list (list Z)) (trail : bool)
    (ns : list (list Z)) : list (list Z) * bool :=
  match ns with
  | [] => (stack, trail)
  | n :: ns =>
      if bempty n || bool_decide (n = str ".") then normal_names absolute stack true ns
      else if bool_decide (n = str "..") then
        match stack with
        | [] => if absolute then normal_names absolute [] true ns
                else normal_names absolute [n] false ns
        | top :: rest =>
            if bool_decide (top = str "..") then normal_names absolute (n :: stack) false ns
            else normal_names absolute rest true ns
        end
      else normal_names absolute (n :: stack) false ns
  end.

Definition lexically_normal (s : list Z) : list Z :=
  if bempty s then []
  else
    let absolute := is_absolute s in
    let '(stack, trail) := normal_names absolute [] false (names_of [] s) in
    let root := if absolute then [slash] else [] in
    match stack with
    | [] => if absolute then [slash] else str "."
    | top :: _ =>
        root ++ join (rev stack) ++
        (if trail && negb (bool_decide (top = str "..")) then [slash] else [])
    end.

(** [root / relative]. *)
Definition path_append (root relative : list Z) : list Z :=
  root ++ (if bool_decide (last root = Some slash) then [] else [slash]) ++ relative.

(** ** Helpers *)

Definition kIntegrityBlockSize : Z := 1024 * 1024.
Definition kMaxVerifiedObjectCacheEntries : nat := 64.
Definition max_off_t : Z := 2 ^ 63 - 1.

Definition InvalidChunk (message : list Z) : StorageResult :=
  MkStorage kStorageInvalidArgument 0 [] message.
Definition ChunkIoFailure (message : list Z) : StorageResult := MkStorage kIoError 0 [] message.
Definition InvalidCompose (message : list Z) : StorageResult :=
  MkStorage kStorageInvalidArgument 0 [] message.
Definition ComposeIoFailure (message : list Z) : StorageResult := MkStorage kIoError 0 [] message.
Definition RangeFailure (status : FileStorageStatus) (message : list Z) : ReadObjectRangeResult :=
  MkObjectRead status 0 [] [] false message.
Definition VerifyFailure (status : FileStorageStatus) (message : list Z) : StorageResult :=
  MkStorage status 0 [] message.

(** [std::to_string] of a signed number. *)
Definition signed_string (z : Z) : list Z := if z <? 0 then 45 :: to_string (- z) else to_string z.

Definition StatFingerprint (i : nat) (s : Stamp) (size : Z) : list Z :=
  to_string (st_dev s) ++ str ":" ++ to_string (Z.of_nat i) ++ str ":" ++ to_string size ++ str ":" ++
  signed_string (st_mtim_sec s) ++ str ":" ++ signed_string (st_mtim_nsec s) ++ str ":" ++
  signed_string (st_ctim_sec s) ++ str ":" ++ signed_string (st_ctim_nsec s).

(** What [open_checked] gives: a failed [open], a file of the wrong kind or size, or a
    descriptor with the fingerprint of the file. *)
Inductive Opened :=
| OpenFailed (enoent : bool) (text : list Z)
| OpenRefused
| OpenedFile (fd : nat) (fp : list Z).

Section Storage.
Context {Db : Type} (moment : nat → Moment Db) `{Sha256}.
Context (root_ pid : list Z).

(** [ResolveSafePath]: the path, or [None]. *)
Definition ResolveSafePath (key : list Z) : option (list Z) :=
  if bempty root_ || bempty key then None
  else if is_absolute key then None
  else if existsb (λ text, bempty text || bool_decide (text = str ".") ||
                           bool_decide (text = str "..") || existsb (λ c, c =? 92) text)
            (names_of [] key)
  then None
  else Some (lexically_normal (path_append root_ key)).

Definition TemporarySibling (destination : list Z) (sequence : Z) : list Z :=
  destination ++ str ".tmp." ++ pid ++ str "." ++ to_string sequence.

(** [WriteAll]: the bytes that are left, from the position [pos] on.  Every turn
    writes a byte or ends; the error, if any. *)
Fixpoint WriteAll (fuel : nat) (fd pos : nat) (bytes : list Z) : IO Db (option (list Z)) :=
  match bytes, fuel with
  | [], _ => mret None
  | _, O => mret (Some [])
  | _, S fuel =>
      r ← sys_write moment fd pos bytes;
      match r with
      | inl text => mret (Some (str "write failed: " ++ text))
      | inr O => mret (Some (str "write returned zero bytes"))
      | inr n => WriteAll fuel fd (pos + n) (drop n bytes)
      end
  end.

(** [ReadExactAt]: [size] bytes at [offset]. *)
Fixpoint ReadLoop (fuel : nat) (fd pos size : nat) (acc : list Z) : IO Db (list Z + list Z) :=
  match size, fuel with
  | O, _ => mret (inr acc)
  | _, O => mret (inl [])
  | _, S fuel =>
      r ← sys_read moment fd pos size;
      match r with
      | inl text => mret (inl (str "pread failed: " ++ text))
      | inr [] => mret (inl (str "unexpected EOF during positioned read"))
      | inr bytes =>
          ReadLoop fuel fd (pos + length bytes) (size - length bytes) (acc ++ bytes)
      end
  end.
Definition ReadExactAt (fd : nat) (offset size : Z) : IO Db (list Z + list Z) :=
  if negb (size =? 0) && ((max_off_t <? offset) || (u64 (max_off_t - offset) <? size - 1))
  then mret (inl (str "positioned read exceeds filesystem offset range"))
  else ReadLoop (Z.to_nat size) fd (Z.to_nat offset) (Z.to_nat size) [].

Definition RemoveNoThrow (p : list Z) : IO Db () := sys_remove moment p.

(** [FsyncDirectoryNoThrow]: three calls whose results are ignored. *)
Definition FsyncDirectoryNoThrow : IO Db () :=
  opened ← sys_plain moment;
  match opened with
  | Some _ => mret ()
  | None => _ ← sys_plain moment; _ ← sys_plain moment; mret ()
  end.

(** Writes, [fsync] and [close] of a temporary file; the first error. *)
Definition WriteAndClose (fd : nat) (bytes : list Z) : IO Db (option (list Z)) :=
  written ← WriteAll (length bytes) fd 0 bytes;
  synced ← (match written with
            | Some e => mret (Some e)
            | None =>
                r ← sys_plain moment;
                mret ((λ text, str "fsync chunk failed: " ++ text) <$> r)
            end);
  closed ← sys_plain moment;
  mret (match synced with
        | Some e => Some e
        | None => (λ text, str "close chunk failed: " ++ text) <$> closed
        end).

Definition StoreChunkAtomically (r : StoreChunkRequest) : IO Db StorageResult :=
  if bempty (store_data r) then mret (InvalidChunk (str "chunk data must not be empty"))
  else if negb (ValidSha256Hex (store_sha256 r))
  then mret (InvalidChunk (str "expected chunk SHA-256 must contain 64 hex characters"))
  else
    m ← tick moment;
    let actual := Sha256Hex (evp m) (store_data r) in
    if bempty actual then mret (ChunkIoFailure (str "failed to compute chunk SHA-256"))
    else if negb (bool_decide (actual = store_sha256 r))
    then mret (InvalidChunk (str "chunk payload does not match expected SHA-256"))
    else match ResolveSafePath (store_key r) with
    | None => mret (InvalidChunk (str "storage_part_key is unsafe"))
    | Some destination =>
        made ← sys_plain moment;
        match made with
        | Some text => mret (ChunkIoFailure (str "create chunk directory failed: " ++ text))
        | None =>
            m ← tick moment;
            let temporary := TemporarySibling destination (sequence m) in
            opened ← sys_create moment temporary;
            match opened with
            | inl text => mret (ChunkIoFailure (str "open temporary chunk failed: " ++ text))
            | inr fd =>
                written ← WriteAndClose fd (store_data r);
                match written with
                | Some e => RemoveNoThrow temporary;; mret (ChunkIoFailure e)
                | None =>
                    renamed ← sys_rename moment temporary destination;
                    match renamed with
                    | Some text =>
                        RemoveNoThrow temporary;;
                        mret (ChunkIoFailure (str "atomic chunk rename failed: " ++ text))
                    | None =>
                        FsyncDirectoryNoThrow;;
                        mret (MkStorage kStorageSucceeded (bsize (store_data r)) actual
                                (str "chunk atomically stored"))
                    end
                end
            end
        end
    end.

(** The paths of the parts of an object, or the refusal. *)
Fixpoint ResolveParts (destination : list Z) (parts : list StoredChunkPart)
  : list Z + list (list Z) :=
  match parts with
  | [] => inr []
  | part :: parts =>
      if (part_size part =? 0) || negb (ValidSha256Hex (part_sha256 part))
      then inl (str "final object contains invalid chunk descriptor")
      else match ResolveSafePath (part_key part) with
      | None => inl (str "final object contains unsafe storage_part_key")
      | Some path =>
          if bool_decide (path = destination)
          then inl (str "final object cannot overwrite one of its source parts")
          else match ResolveParts destination parts with
               | inl e => inl e
               | inr paths => inr (path :: paths)
               end
      end
  end.

Definition kBuffer : nat := 64 * 1024.

(** The loop that copies a part to the object: the bytes of the part.  Every turn reads a
    byte or ends, so that a part with as many bytes as its descriptor says is read to its
    end within that many turns and one more ([ComposePart]).  Of a longer one the rest is
    not read: the comparison with the descriptor refuses it in either case. *)
Fixpoint CopyPart (fuel : nat) (input output pos : nat) (key part : list Z)
  : IO Db (list Z + list Z) :=
  match fuel with
  | O => mret (inr part)
  | S fuel =>
      r ← sys_read moment input (length part) kBuffer;
      match r with
      | inl text =>
          mret (inl (str "read stored chunk failed for " ++ key ++ str ": " ++ text))
      | inr [] => mret (inr part)
      | inr bytes =>
          written ← WriteAll (length bytes) output (pos + length part) bytes;
          match written with
          | Some e => mret (inl e)
          | None =>
              m ← tick moment;
              if negb (evp m)
              then mret (inl (str "update SHA-256 failed while composing final object"))
              else CopyPart fuel input output pos key (part ++ bytes)
          end
      end
  end.

(** A part: opened, copied, closed and compared with its descriptor. *)
Definition ComposePart (output pos : nat) (part : StoredChunkPart) (path : list Z)
  : IO Db (list Z + list Z) :=
  opened ← sys_open moment path;
  match opened with
  | inl (_, text) =>
      mret (inl (str "open stored chunk failed for " ++ part_key part ++ str ": " ++ text))
  | inr input =>
      m ← tick moment;
      if negb (evp m) then
        _ ← sys_plain moment;
        mret (inl (str "initialize chunk SHA-256 failed for " ++ part_key part))
      else
        copied ← CopyPart (S (Z.to_nat (part_size part))) input output pos (part_key part) [];
        _ ← sys_plain moment;
        match copied with
        | inl e => mret (inl e)
        | inr bytes =>
            m ← tick moment;
            if negb (evp m)
            then mret (inl (str "finalize chunk SHA-256 failed for " ++ part_key part))
            else if negb (bsize bytes =? part_size part) ||
                    negb (bool_decide (Sha256Hex true bytes = part_sha256 part))
            then mret (inl (str "stored chunk size/checksum mismatch for " ++ part_key part))
            else mret (inr bytes)
        end
  end.

Fixpoint ComposeLoop (output : nat) (whole : list Z) (parts : list StoredChunkPart)
    (paths : list (list Z)) : IO Db (list Z + list Z) :=
  match parts, paths with
  | part :: parts, path :: paths =>
      r ← ComposePart output (length whole) part path;
      match r with
      | inr bytes => ComposeLoop output (whole ++ bytes) parts paths
      | inl e => mret (inl e)
      end
  | _, _ => mret (inr whole)
  end.

(** [close] and removal of the temporary file of an object that is given up. *)
Definition GiveUp (temporary : list Z) (result : StorageResult) : IO Db StorageResult :=
  _ ← sys_plain moment; RemoveNoThrow temporary;; mret result.

Definition ComposeObjectAtomically (r : ComposeObjectRequest) : IO Db StorageResult :=
  if (compose_size r =? 0) || match compose_parts r with [] => true | _ => false end
  then mret (InvalidCompose (str "final object requires non-empty parts and total size"))
  else if negb (ValidSha256Hex (compose_sha256 r))
  then mret (InvalidCompose
                     (str "expected whole-file SHA-256 must contain 64 hex characters"))
  else match ResolveSafePath (compose_key r) with
  | None => mret (InvalidCompose (str "storage_key is unsafe"))
  | Some destination =>
      match ResolveParts destination (compose_parts r) with
      | inl e => mret (InvalidCompose e)
      | inr paths =>
          made ← sys_plain moment;
          match made with
          | Some text =>
              mret (ComposeIoFailure (str "create final-object directory failed: " ++ text))
          | None =>
              m ← tick moment;
              let temporary := TemporarySibling destination (sequence m) in
              opened ← sys_create moment temporary;
              match opened with
              | inl text =>
                  mret (ComposeIoFailure (str "open temporary final object failed: " ++ text))
              | inr output =>
                  m ← tick moment;
                  if negb (evp m)
                  then GiveUp temporary (ComposeIoFailure (str "initialize whole-file SHA-256 failed"))
                  else
                    composed ← ComposeLoop output [] (compose_parts r) paths;
                    match composed with
                    | inl e => GiveUp temporary (ComposeIoFailure e)
                    | inr whole =>
                        m ← tick moment;
                        if negb (evp m)
                        then GiveUp temporary
                               (ComposeIoFailure (str "finalize whole-file SHA-256 failed"))
                        else if negb (bsize whole =? compose_size r)
                        then GiveUp temporary
                               (ComposeIoFailure
                                  (str "composed byte count does not match expected total size"))
                        else
                          let actual := Sha256Hex true whole in
                          if negb (bool_decide (actual = compose_sha256 r))
                          then GiveUp temporary
                                 (MkStorage kChecksumMismatch (bsize whole) actual
                                    (str "whole-file SHA-256 does not match BeginUpload expectation"))
                          else
                            synced ← sys_plain moment;
                            match synced with
                            | Some text =>
                                GiveUp temporary
                                  (ComposeIoFailure (str "fsync final object failed: " ++ text))
                            | None =>
                                closed ← sys_plain moment;
                                match closed with
                                | Some text =>
                                    RemoveNoThrow temporary;;
                                    mret (ComposeIoFailure
                                                  (str "close final object failed: " ++ text))
                                | None =>
                                    renamed ← sys_rename moment temporary destination;
                                    match renamed with
                                    | Some text =>
                                        RemoveNoThrow temporary;;
                                        mret (ComposeIoFailure
                                          (str "atomic final-object rename failed: " ++ text))
                                    | None =>
                                        FsyncDirectoryNoThrow;;
                                        mret (MkStorage kStorageSucceeded (bsize whole) actual
                                          (str "final object assembled, verified, and atomically published"))
                                    end
                                end
                            end
                    end
              end
          end
      end
  end.

(** [verified_objects_.erase(cache_key)] under the mutex, then the failure. *)
Definition EraseVerified (key : list Z) : IO Db () :=
  with_cache moment (λ _ c, (delete key c, ())).

Definition close {A} (result : A) : IO Db A := _ ← sys_plain moment; mret result.

(** The loop of [VerifyObject]: the whole object and the digests of its blocks. *)
Fixpoint VerifyLoop (fuel : nat) (fd : nat) (size : Z) (whole : list Z) (blocks : list (list Z))
  : IO Db (StorageResult + list Z * list (list Z)) :=
  if size <=? bsize whole then mret (inr (whole, blocks))
  else match fuel with
  | O => mret (inr (whole, blocks))
  | S fuel =>
      let block_size := Z.min kIntegrityBlockSize (size - bsize whole) in
      r ← ReadExactAt fd (bsize whole) block_size;
      match r with
      | inl e => mret (inl (VerifyFailure kDataLoss
                              (str "read final object for verification failed: " ++ e)))
      | inr block =>
          m ← tick moment;
          if negb (evp m)
          then mret (inl (VerifyFailure kIoError (str "update final-object SHA-256 failed")))
          else
            m ← digest moment block;
            let block_sha256 := Sha256Hex (evp m) block in
            if bempty block_sha256
            then mret (inl (VerifyFailure kIoError (str "compute integrity block SHA-256 failed")))
            else VerifyLoop fuel fd size (whole ++ block) (blocks ++ [block_sha256])
      end
  end.

(** The number of blocks of an object. *)
Definition block_count (size : Z) : Z := 1 + (size - 1) `div` kIntegrityBlockSize.

(** The entry of a verified object; when the cache is full another one leaves it. *)
Definition InsertVerified (key : list Z) (entry : VerifiedObjectCacheEntry) (victim : nat)
    (c : Cache) : Cache :=
  let c :=
    match c !! key with
    | None =>
        if (kMaxVerifiedObjectCacheEntries <=? base.size c)%nat
        then match map_to_list c !! victim with
             | Some (k, _) => delete k c
             | None => c
             end
        else c
    | Some _ => c
    end in
  <[key := entry]> c.

Definition VerifyObject (r : VerifyObjectRequest) : IO Db StorageResult :=
  if (verify_size r =? 0) || negb (ValidSha256Hex (verify_sha256 r))
  then mret (VerifyFailure kStorageInvalidArgument
               (str "invalid immutable object verification request"))
  else match ResolveSafePath (verify_key r) with
  | None => mret (VerifyFailure kStorageInvalidArgument (str "storage_key is unsafe"))
  | Some source =>
      opened ← sys_open moment source;
      match opened with
      | inl (true, _) =>
          EraseVerified source;;
          mret (VerifyFailure kStorageNotFound (str "AVAILABLE final object is missing"))
      | inl (false, text) =>
          mret (VerifyFailure kIoError
                  (str "open final object for verification failed: " ++ text))
      | inr fd =>
          before ← sys_fstat moment fd;
          match before with
          | inl text => close (VerifyFailure kIoError (str "fstat final object failed: " ++ text))
          | inr (before, size) =>
              if negb (st_regular before) || negb (size =? verify_size r) then
                _ ← sys_plain moment; EraseVerified source;;
                mret (VerifyFailure kDataLoss
                  (str "AVAILABLE final object type/size disagrees with durable metadata"))
              else
                let before_fingerprint := StatFingerprint fd before size in
                m ← tick moment;
                if negb (evp m)
                then close (VerifyFailure kIoError (str "initialize final-object SHA-256 failed"))
                else
                  read ← VerifyLoop (Z.to_nat (block_count (verify_size r))) fd (verify_size r) [] [];
                  match read with
                  | inl failure => close failure
                  | inr (whole, blocks) =>
                      after ← sys_fstat moment fd;
                      match after with
                      | inl text =>
                          close (VerifyFailure kIoError
                                   (str "final fstat final object failed: " ++ text))
                      | inr (after, size) =>
                          _ ← sys_plain moment;
                          let after_fingerprint := StatFingerprint fd after size in
                          if negb (bsize whole =? verify_size r) ||
                             negb (bool_decide (before_fingerprint = after_fingerprint)) then
                            EraseVerified source;;
                            mret (VerifyFailure kDataLoss
                              (str "final object changed during whole-object verification"))
                          else
                            m ← digest moment whole;
                            if negb (evp m)
                            then mret (VerifyFailure kIoError
                                         (str "finalize final-object SHA-256 failed"))
                            else
                              let actual := Sha256Hex true whole in
                              if negb (bool_decide (actual = verify_sha256 r)) then
                                EraseVerified source;;
                                mret (MkStorage kChecksumMismatch (bsize whole) actual
                                  (str "AVAILABLE final object SHA-256 disagrees with durable metadata"))
                              else
                                with_cache moment (λ m c,
                                  (InsertVerified source
                                     (MkEntry after_fingerprint actual blocks) (victim m) c, ()));;
                                mret (MkStorage kStorageSucceeded (bsize whole) actual
                                        (str "final object size and SHA-256 verified"))
                      end
                  end
          end
      end
  end.

(** [open_checked]. *)
Definition open_checked (source : list Z) (expected_total_size : Z) : IO Db Opened :=
  opened ← sys_open moment source;
  match opened with
  | inl (enoent, text) => mret (OpenFailed enoent text)
  | inr fd =>
      metadata ← sys_fstat moment fd;
      match metadata with
      | inl _ => close OpenRefused
      | inr (s, size) =>
          if negb (st_regular s) || negb (size =? expected_total_size) then close OpenRefused
          else mret (OpenedFile fd (StatFingerprint fd s size))
      end
  end.

(** The entry of the cache for this fingerprint and digest. *)
Definition cache_entry (source fp sha : list Z) (c : Cache) : option VerifiedObjectCacheEntry :=
  match c !! source with
  | Some e =>
      if bool_decide (fingerprint e = fp) && bool_decide (whole_sha256 e = sha) then Some e else None
  | None => None
  end.

(** The blocks [block .. end_block] of a range, each compared with its digest; [hashes]
    are the digests that are left. *)
Fixpoint ReadBlocks (hashes : list (list Z)) (fd : nat) (source : list Z) (size offset request_end : Z)
    (block : Z) (acc : list Z) : IO Db (ReadObjectRangeResult + list Z) :=
  match hashes with
  | [] => mret (inr acc)
  | hash :: hashes =>
      let block_offset := block * kIntegrityBlockSize in
      let block_size := Z.min kIntegrityBlockSize (size - block_offset) in
      r ← ReadExactAt fd block_offset block_size;
      match r with
      | inl e =>
          _ ← sys_plain moment; EraseVerified source;;
          mret (inl (RangeFailure kDataLoss (str "read verified integrity block failed: " ++ e)))
      | inr bytes =>
          m ← digest moment bytes;
          let actual := Sha256Hex (evp m) bytes in
          if bempty actual || negb (bool_decide (actual = hash)) then
            _ ← sys_plain moment; EraseVerified source;;
            mret (inl (RangeFailure kChecksumMismatch
              (str "final object integrity block changed after whole-object verification")))
          else
            let slice_begin := Z.max offset block_offset in
            let slice_end := Z.min request_end (block_offset + block_size) in
            ReadBlocks hashes fd source size offset request_end (block + 1)
              (acc ++ slice (Z.to_nat (slice_begin - block_offset))
                        (Z.to_nat (slice_end - block_offset)) bytes)
      end
  end.

(** The rest of [ReadObjectRange] on a descriptor whose fingerprint was verified. *)
Definition ReadVerifiedRange (r : ReadObjectRangeRequest) (source : list Z) (fd : nat) (fp : list Z)
  : IO Db ReadObjectRangeResult :=
  let wanted := Z.min (or_length r) (or_size r - or_offset r) in
  if (max_off_t <? or_offset r) || (u64 (max_off_t - or_offset r) <? wanted - 1)
  then close (RangeFailure kStorageInvalidArgument
                (str "range offset cannot be represented by this filesystem backend"))
  else
    let request_end := or_offset r + wanted in
    let start_block := or_offset r `div` kIntegrityBlockSize in
    let end_block := (request_end - 1) `div` kIntegrityBlockSize in
    hashes ← with_cache moment (λ _ c,
      (c, match cache_entry source fp (or_sha256 r) c with
          | Some e =>
              if Z.of_nat (length (block_sha256 e)) =? block_count (or_size r)
              then Some (slice (Z.to_nat start_block) (S (Z.to_nat end_block)) (block_sha256 e))
              else None
          | None => None
          end));
    match hashes with
    | None => close (RangeFailure kDataLoss (str "verified object cache is inconsistent"))
    | Some hashes =>
        blocks ← ReadBlocks hashes fd source (or_size r) (or_offset r) request_end start_block [];
        match blocks with
        | inl failure => mret failure
        | inr bytes =>
            if negb (bsize bytes =? wanted)
            then close (RangeFailure kDataLoss (str "verified range produced unexpected byte count"))
            else
              after ← sys_fstat moment fd;
              match after with
              | inl text =>
                  close (RangeFailure kIoError (str "post-read fstat final object failed: " ++ text))
              | inr (after, size) =>
                  _ ← sys_plain moment;
                  if negb (bool_decide (StatFingerprint fd after size = fp)) then
                    EraseVerified source;;
                    mret (RangeFailure kDataLoss (str "final object changed during range read"))
                  else
                    m ← tick moment;
                    let range_sha256 := Sha256Hex (evp m) bytes in
                    if bempty range_sha256
                    then mret (RangeFailure kIoError (str "compute range SHA-256 failed"))
                    else
                      let eof := request_end =? or_size r in
                      mret (MkObjectRead kStorageSucceeded (or_offset r) bytes range_sha256 eof
                              (if eof then str "final object EOF range read"
                               else str "final object range read"))
              end
        end
    end.

Definition ReadObjectRange (r : ReadObjectRangeRequest) : IO Db ReadObjectRangeResult :=
  if (or_length r =? 0) || (or_size r =? 0) || (or_size r <=? or_offset r) ||
     negb (ValidSha256Hex (or_sha256 r))
  then mret (RangeFailure kStorageInvalidArgument (str "invalid immutable object range"))
  else match ResolveSafePath (or_key r) with
  | None => mret (RangeFailure kStorageInvalidArgument (str "storage_key is unsafe"))
  | Some source =>
      opened ← open_checked source (or_size r);
      match opened with
      | OpenFailed true _ =>
          mret (RangeFailure kStorageNotFound (str "AVAILABLE final object is missing"))
      | OpenFailed false text =>
          mret (RangeFailure kIoError (str "open final object failed: " ++ text))
      | OpenRefused =>
          mret (RangeFailure kDataLoss
                  (str "AVAILABLE final object type/size disagrees with durable metadata"))
      | OpenedFile fd fp =>
          hit ← with_cache moment (λ _ c, (c, cache_entry source fp (or_sha256 r) c));
          match hit with
          | Some _ => ReadVerifiedRange r source fd fp
          | None =>
              _ ← sys_plain moment;
              verified ← VerifyObject (MkVerify (or_key r) (or_size r) (or_sha256 r));
              if negb (st_succeeded (st_status verified))
              then mret (RangeFailure (st_status verified) (st_message verified))
              else
                opened ← open_checked source (or_size r);
                match opened with
                | OpenedFile fd fp =>
                    same ← with_cache moment (λ _ c, (c, cache_entry source fp (or_sha256 r) c));
                    match same with
                    | Some _ => ReadVerifiedRange r source fd fp
                    | None =>
                        close (RangeFailure kDataLoss
                          (str "final object fingerprint changed after integrity verification"))
                    end
                | _ =>
                    mret (RangeFailure kDataLoss
                      (str "final object changed immediately after integrity verification"))
                end
          end
      end
  end.

End Storage.
