(* ===== verification/LocalStorageReads.v ===== *)
(** * Verified reads

    A range that [ReadObjectRange] returns is that range of a string with the digest and
    the size the caller asked for, whatever happens to the disk meanwhile, as long as
    SHA-256 tells apart the strings it was computed of ([digested]).  The invariant is
    that every entry of the cache describes a string that was read once and whose digest,
    like those of its blocks, was computed then. *)
From Stdlib Require Import ZArith Lia String.
From stdpp Require Import base list numbers gmap.
From S2P Require Import Prelude ByteStrings FileTypes FileWorld LocalFilesystemStorage.

Local Open Scope Z_scope.

(** ** Fingerprints *)

Lemma to_string_no_colon n : 58 ∉ to_string n.
Proof. apply to_string_no. lia. Qed.

(** A fingerprint determines the size of the file. *)
Lemma fingerprint_size i j s t n m : is_u64 n → is_u64 m →
  StatFingerprint i s n = StatFingerprint j t m → n = m.
Proof.
  unfold StatFingerprint. intros Hn Hm Heq. change (str ":") with [58] in Heq. cbn [app] in Heq.
  apply split_at in Heq as [_ Heq]; [|apply to_string_no_colon..].
  apply split_at in Heq as [_ Heq]; [|apply to_string_no_colon..].
  apply split_at in Heq as [Heq _]; [|apply to_string_no_colon..].
  by apply to_string_inj.
Qed.

(** ** Blocks *)

Definition block (whole : list Z) (k : nat) : list Z :=
  let b := Z.to_nat kIntegrityBlockSize in slice (k * b) ((k + 1) * b) whole.

Definition blocks_of (whole : list Z) : list (list Z) :=
  block whole <$> seq 0 (Z.to_nat (block_count (bsize whole))).

(** Blocks read so far: all but the last one are full. *)
Lemma slice_all {A} (l : list A) n : (length l ≤ n)%nat → slice 0 n l = l.
Proof. intros. unfold slice. by rewrite drop_0, Nat.sub_0_r, take_ge. Qed.

Lemma slice_join {A} (l : list A) i j k : (i ≤ j ≤ k)%nat → slice i j l ++ slice j k l = slice i k l.
Proof.
  intros Hj. unfold slice. replace (k - i)%nat with (j - i + (k - j))%nat by lia.
  rewrite <- take_take_drop, drop_drop. by replace (i + (j - i))%nat with j by lia.
Qed.

Lemma slice_slice {A} (l : list A) a b i j : (j ≤ b - a)%nat →
  slice i j (slice a b l) = slice (a + i) (a + j) l.
Proof.
  intros Hj. unfold slice. rewrite skipn_firstn_comm, take_take, drop_drop.
  f_equal. lia.
Qed.

Lemma slice_fmap_seq {A} (f : nat → A) a b n : (b ≤ n)%nat →
  slice a b (f <$> seq 0 n) = f <$> seq a (b - a).
Proof.
  intros Hb. unfold slice. rewrite <- fmap_drop, <- fmap_take, drop_seq, take_seq. f_equal. f_equal. lia.
Qed.

Lemma block_length whole k : (k < Z.to_nat (block_count (bsize whole)))%nat → (0 < length whole)%nat →
  Z.of_nat (length (block whole k)) =
  Z.min kIntegrityBlockSize (bsize whole - Z.of_nat k * kIntegrityBlockSize).
Proof.
  unfold block, block_count, slice, kIntegrityBlockSize, bsize. intros Hk Hl.
  rewrite length_take, length_drop.
  pose proof (Z.mul_div_le (Z.of_nat (length whole) - 1) (1024 * 1024)).
  assert (0 ≤ (Z.of_nat (length whole) - 1) `div` (1024 * 1024)) by (apply Z.div_pos; lia).
  assert (Z.of_nat k ≤ (Z.of_nat (length whole) - 1) `div` (1024 * 1024)) by lia. lia.
Qed.

(** A full or last block read behind the whole blocks before it. *)
Lemma block_snoc whole bytes k :
  length whole = (k * Z.to_nat kIntegrityBlockSize)%nat →
  (length bytes ≤ Z.to_nat kIntegrityBlockSize)%nat →
  block (whole ++ bytes) k = bytes ∧ (∀ j, (j < k)%nat → block (whole ++ bytes) j = block whole j).
Proof.
  intros Hk Hb. unfold block, slice. set (b := Z.to_nat kIntegrityBlockSize) in *. split.
  - rewrite drop_app_length' by done. apply take_ge. lia.
  - intros j Hj. assert (j * b + b ≤ k * b)%nat by nia.
    rewrite drop_app_le by lia. rewrite take_app_le; [done|]. rewrite length_drop. lia.
Qed.

(** What a block adds to the part of a range that lies before it. *)
Lemma range_step whole offset request_end (k : nat) :
  0 ≤ offset < request_end → offset `div` kIntegrityBlockSize ≤ Z.of_nat k →
  Z.of_nat k * kIntegrityBlockSize ≤ request_end - 1 → request_end ≤ bsize whole →
  let b := Z.of_nat k * kIntegrityBlockSize in
  slice (Z.to_nat offset) (Z.to_nat (Z.min request_end (Z.max offset b))) whole ++
  slice (Z.to_nat (Z.max offset b - b))
    (Z.to_nat (Z.min request_end (b + Z.min kIntegrityBlockSize (bsize whole - b)) - b)) (block whole k) =
  slice (Z.to_nat offset) (Z.to_nat (Z.min request_end (Z.max offset (Z.of_nat (S k) * kIntegrityBlockSize)))) whole.
Proof.
  intros Ho Hstart Hkb Hre b. subst b. pose proof (eq_refl : kIntegrityBlockSize = 1048576) as HB.
  unfold block. rewrite slice_slice by lia.
  assert (offset < (Z.of_nat k + 1) * kIntegrityBlockSize).
  { pose proof (Z.mod_pos_bound offset kIntegrityBlockSize).
    pose proof (Z.div_mod offset kIntegrityBlockSize). nia. }
  rewrite (Z.min_r request_end (Z.max offset _)) by lia.
  match goal with |- slice ?i ?j _ ++ slice ?j' ?k' _ = _ => replace j' with j by lia end.
  rewrite slice_join by lia. f_equal. lia.
Qed.

Section Reads.
Context {Db : Type} (moment : nat → Moment Db) `{Sha256Laws}.
Context (root_ : list Z).

(** What is known in a state of the strings that were digested. *)
Context (known : Shared Db → list Z → Prop).

(** ** The cache *)

(** An entry describes a known string: its size, its digest and those of its blocks. *)
Definition entry_ok (P : list Z → Prop) (e : VerifiedObjectCacheEntry) : Prop :=
  ∃ whole i s, fingerprint e = StatFingerprint i s (bsize whole) ∧ is_u64 (bsize whole) ∧
    P whole ∧ Forall P (blocks_of whole) ∧
    whole_sha256 e = Sha256Hex true whole ∧ block_sha256 e = Sha256Hex true <$> blocks_of whole.

Definition entries_ok (s : Shared Db) : Prop :=
  ∀ k e, verified_objects_ s !! k = Some e → entry_ok (known s) e.

(** The invariant of the reads: the entries of the cache, and anything else that does not
    depend on the cache. *)
Context (J : Shared Db → Prop).

Definition cache_ok (s : Shared Db) : Prop := entries_ok s ∧ J s.

(** A state in which the strings [K] are known. *)
Definition knowing (K : list (list Z)) (s : Shared Db) : Prop := cache_ok s ∧ Forall (known s) K.

(** What is digested becomes known, and nothing is forgotten. *)
Record knowledge : Prop := {
  know_digested s x : known (logged s x) x;
  know_logged s x y : known s y → known (logged s x) y;
  know_recached s c y : known s y → known (recached s c) y;
  know_J_logged s x : J s → J (logged s x);
  know_J_recached s c : J s → J (recached s c);
  know_others K : stable moment (knowing K);
}.

Hypothesis Hknow : knowledge.

Lemma entry_ok_mono (P Q : list Z → Prop) e : (∀ x, P x → Q x) → entry_ok P e → entry_ok Q e.
Proof.
  intros HPQ (whole & i & s & H1 & H2 & H3 & H4 & H5 & H6). exists whole, i, s. split_and!; try done; [by apply HPQ|].
  by eapply list.Forall_impl.
Qed.

Lemma knowing_logged K s x : knowing K s → knowing (x :: K) (logged s x).
Proof.
  intros [[He Hj] HK]. split; [split|].
  - intros k e Hk. eapply entry_ok_mono; [|by apply (He k e)]. intros y. apply Hknow.
  - by apply Hknow.
  - apply list.Forall_cons. split; [apply Hknow|]. eapply list.Forall_impl; [exact HK|]. intros y. apply Hknow.
Qed.

Lemma knowing_recached K s c : (∀ k e, c !! k = Some e → entry_ok (known s) e) → knowing K s → knowing K (recached s c).
Proof.
  intros Hc [[_ Hj] HK]. split; [split|].
  - intros k e Hk. eapply entry_ok_mono; [|by apply (Hc k e)]. intros y. apply Hknow.
  - by apply Hknow.
  - eapply list.Forall_impl; [exact HK|]. intros y. apply Hknow.
Qed.

(** ** Computations that learn *)

(** From a state in which [K] is known the computation ends in one in which more is, with
    a fact about its result that may depend on it. *)
Definition learns {A} (K : list (list Z)) (e : IO Db A) (φ : list (list Z) → A → Prop) : Prop :=
  triple (knowing K) e (λ a s, ∃ K', K ⊆ K' ∧ knowing K' s ∧ φ K' a).

Lemma learns_ret {A} K (a : A) (φ : list (list Z) → A → Prop) : φ K a → learns K (mret a) φ.
Proof. intros Ha. apply triple_ret. intros s Hs. by exists K. Qed.

Lemma learns_bind {A B} K (e : IO Db A) (f : A → IO Db B) φ ψ :
  learns K e φ → (∀ K' a, K ⊆ K' → φ K' a → learns K' (f a) ψ) → learns K (e ≫= f) ψ.
Proof.
  intros He Hf. eapply triple_bind; [exact He|]. intros a w (K1 & Hsub & Hw & Ha).
  destruct (Hf K1 a Hsub Ha w Hw) as (K2 & Hsub' & Hr). exists K2. split; [set_solver|done].
Qed.

Lemma learns_step {A B} K (e : IO Db A) (f : A → IO Db B) φ ψ :
  keeps (knowing K) e φ → (∀ a, φ a → learns K (f a) ψ) → learns K (e ≫= f) ψ.
Proof. intros He Hf. eapply triple_bind; [exact He|]. intros a w [Ha Hw]. by apply Hf. Qed.

Lemma learns_digest {B} K x (f : Moment Db → IO Db B) ψ :
  (∀ m, learns (x :: K) (f m) ψ) → learns K (digest moment x ≫= f) ψ.
Proof.
  intros Hf. eapply triple_bind; [apply (triple_digest moment (knowing K) x (knowing (x :: K))); [apply Hknow|intros s; apply knowing_logged]|].
  intros m w [_ Hw]. destruct (Hf m w Hw) as (K' & Hsub & Hr). exists K'. split; [set_solver|done].
Qed.

Local Ltac learn_step := eapply learns_step; [|intros ? ?].

Lemma keeps_tick_known K : keeps (knowing K) (tick moment) (λ _, True).
Proof. eapply keeps_weaken; [apply keeps_tick, Hknow|done]. Qed.

Lemma keeps_plain K : keeps (knowing K) (sys_plain moment) (λ _, True).
Proof. unfold sys_plain. keep_step; [apply keeps_tick_known|]. by apply keeps_ret. Qed.

Lemma learns_close {A} K (a : A) (φ : list (list Z) → A → Prop) : φ K a → learns K (close moment a) φ.
Proof. intros Ha. unfold close. learn_step; [apply keeps_plain|]. by apply learns_ret. Qed.

Lemma keeps_erase K k : keeps (knowing K) (EraseVerified moment k) (λ _, True).
Proof.
  apply keeps_with_cache; [apply Hknow|]. intros m s Hs. split; [done|]. apply knowing_recached; [|done].
  intros k' e. cbn [fst]. intros [_ He]%lookup_delete_Some. by eapply (proj1 (proj1 Hs)).
Qed.

Lemma keeps_look {A} (K : list (list Z)) (f : Cache → A) :
  keeps (knowing K) (with_cache moment (λ _ c, (c, f c))) (λ _, True).
Proof. apply keeps_with_cache; [apply Hknow|]. intros m [t d c l] Hs. done. Qed.

Lemma keeps_open K p : keeps (knowing K) (sys_open moment p) (λ _, True).
Proof.
  unfold sys_open. keep_step; [apply keeps_tick_known|]. keep_step; [apply keeps_get_disk|]. by apply keeps_ret.
Qed.

Lemma keeps_fstat K i : keeps (knowing K) (sys_fstat moment i) (λ _, True).
Proof.
  unfold sys_fstat. keep_step; [apply keeps_tick_known|]. keep_step; [apply keeps_get_disk|]. by apply keeps_ret.
Qed.

Lemma keeps_read K i pos size :
  keeps (knowing K) (sys_read moment i pos size)
    (λ r, match r with inl _ => True | inr bytes => (length bytes ≤ size)%nat end).
Proof.
  unfold sys_read. keep_step; [apply keeps_tick_known|]. keep_step; [apply keeps_get_disk|]. apply keeps_ret.
  case_goal; [done|]. rewrite length_take. lia.
Qed.

(** A positioned read that succeeds has read what was asked for. *)
Lemma keeps_read_loop K fuel : ∀ fd pos size acc,
  keeps (knowing K) (ReadLoop moment fuel fd pos size acc)
    (λ r, match r with inl _ => True | inr bytes => length bytes = (length acc + size)%nat end).
Proof.
  induction fuel as [|fuel IH]; intros fd pos size acc; cbn [ReadLoop].
  { destruct size; apply keeps_ret; [lia|done]. }
  destruct size as [|size]; [apply keeps_ret; lia|].
  keep_step; [apply keeps_read|]. destruct a as [e|[|x bytes]]; [by apply keeps_ret..|].
  eapply keeps_weaken; [apply IH|]. intros [|r]; [done|]. rewrite length_app. cbn [length] in *. lia.
Qed.

Lemma keeps_read_exact K fd offset size : 0 ≤ size →
  keeps (knowing K) (ReadExactAt moment fd offset size)
    (λ r, match r with inl _ => True | inr bytes => bsize bytes = size end).
Proof.
  intros Hs. unfold ReadExactAt. case_goal; [by apply keeps_ret|].
  eapply keeps_weaken; [apply keeps_read_loop|]. intros [|r]; [done|]. unfold bsize. cbn. lia.
Qed.

(** ** Verification *)

(** The blocks of [whole] so far, each digested. *)
Definition verifying (size : Z) (K : list (list Z)) (whole : list Z) (blocks : list (list Z)) : Prop :=
  ∃ k, blocks = Sha256Hex true <$> (block whole <$> seq 0 k) ∧ (block whole <$> seq 0 k) ⊆ K ∧
    (bsize whole = Z.of_nat k * kIntegrityBlockSize ∧ bsize whole < size ∨
     bsize whole = size ∧ k = Z.to_nat (block_count size)).

Lemma learns_verify_loop fuel : ∀ K fd size whole blocks, 0 < size → verifying size K whole blocks →
  learns K (VerifyLoop moment fuel fd size whole blocks)
    (λ K r, match r with
            | inl f => st_succeeded (st_status f) = false
            | inr (whole, blocks) => bsize whole = size → verifying size K whole blocks
            end).
Proof.
  induction fuel as [|fuel IH]; intros K fd size whole blocks Hsize Hv; cbn [VerifyLoop].
  { case_goal; by apply learns_ret. }
  case_goal; [by apply learns_ret|]. reflect_guards.
  destruct Hv as (k & -> & HK & [[Hk Hlt]|[Heq _]]); [|lia].
  pose proof (eq_refl : kIntegrityBlockSize = 1048576) as HB.
  assert (0 ≤ bsize whole) by (unfold bsize; lia).
  learn_step; [apply keeps_read_exact; lia|]. destruct a as [e|bytes]; [by apply learns_ret|].
  match goal with Hr : bsize bytes = _ |- _ => rename Hr into Hbs end.
  learn_step; [apply keeps_tick_known|]. case_goal; [by apply learns_ret|].
  apply learns_digest. intros m. rewrite Sha256Hex_empty.
  destruct (evp m) eqn:Hevp; [|by apply learns_ret]. cbn [negb].
  apply IH; [done|].
  assert (length whole = k * Z.to_nat kIntegrityBlockSize)%nat as Hlen by (unfold bsize in *; lia).
  destruct (block_snoc whole bytes k Hlen) as [Hlast Hold]; [unfold bsize in *; lia|].
  assert (block (whole ++ bytes) <$> seq 0 (S k) = (block whole <$> seq 0 k) ++ [bytes]) as Hblocks.
  { rewrite seq_S, fmap_app. cbn [fmap list_fmap Nat.add]. rewrite Hlast. f_equal.
    apply list_fmap_ext. intros i j [-> Hj]%lookup_seq. by apply Hold. }
  exists (S k). rewrite Hblocks, fmap_app. split; [done|]. split; [set_solver|].
  assert (bsize (whole ++ bytes) = bsize whole + bsize bytes) as ->
    by (unfold bsize; rewrite length_app; lia).
  destruct (Z_lt_ge_dec kIntegrityBlockSize (size - bsize whole)) as [Hmore|Hdone].
  - left. lia.
  - right. split; [lia|]. unfold block_count.
    assert ((size - 1) `div` kIntegrityBlockSize = Z.of_nat k) as ->; [|lia].
    symmetry. apply (Z.div_unique _ _ _ (size - 1 - Z.of_nat k * kIntegrityBlockSize)); lia.
Qed.

Lemma insert_verified_ok (P : list Z → Prop) (key : list Z) (e : VerifiedObjectCacheEntry) (v : nat) (c : Cache) :
  (∀ k e, c !! k = Some e → entry_ok P e) → entry_ok P e →
  ∀ (k : list Z) (e' : VerifiedObjectCacheEntry), InsertVerified key e v c !! k = Some e' → entry_ok P e'.
Proof.
  intros Hc He k e'. unfold InsertVerified. cbv zeta. rewrite lookup_insert_Some. intros [[_ <-]|[_ Hk]]; [done|].
  repeat case_match; try (by eapply Hc).
  apply lookup_delete_Some in Hk as [_ Hk]. by eapply Hc.
Qed.

Lemma keeps_insert K key e : (∀ P : list Z → Prop, Forall P K → entry_ok P e) →
  keeps (knowing K) (with_cache moment (λ m c, (InsertVerified key e (victim m) c, ()))) (λ _, True).
Proof.
  intros He. apply keeps_with_cache; [apply Hknow|]. intros m s Hs. split; [done|].
  apply knowing_recached; [|done]. apply insert_verified_ok; [apply Hs|]. apply He, Hs.
Qed.

Lemma verifying_done size K whole blocks : bsize whole = size → 0 < size → verifying size K whole blocks →
  blocks = Sha256Hex true <$> blocks_of whole ∧ blocks_of whole ⊆ K.
Proof. intros <- Hs (k & -> & HK & [[_ ?]|[_ ->]]); [lia|done]. Qed.

Create HintDb keeps.
#[local] Hint Resolve keeps_tick_known keeps_plain keeps_erase keeps_open keeps_fstat keeps_insert : keeps.

(** [VerifyObject] keeps the cache. *)
Lemma learns_verify K r : is_u64 (verify_size r) → learns K (VerifyObject moment root_ r) (λ _ _, True).
Proof.
  intros Hu. unfold VerifyObject. case_goal; [by apply learns_ret|]. reflect_guards.
  case_goal; [|by apply learns_ret].
  learn_step; [auto with keeps|]. destruct a as [[[] e]|fd].
  - learn_step; [auto with keeps|]. by apply learns_ret.
  - by apply learns_ret.
  - learn_step; [auto with keeps|]. destruct a as [e|[before size]]; [by apply learns_close|].
    case_goal.
    + learn_step; [auto with keeps|]. learn_step; [auto with keeps|]. by apply learns_ret.
    + reflect_guards. learn_step; [auto with keeps|]. case_goal; [by apply learns_close|].
      eapply learns_bind; [apply (learns_verify_loop _ _ _ _ [] []); [unfold is_u64 in Hu; lia|]|].
      { exists 0%nat. split; [done|]. split; [set_solver|]. left. unfold is_u64 in Hu. change (bsize []) with 0. lia. }
      intros K1 [f|[whole blocks]] _ Hv; [by apply learns_close|].
      learn_step; [auto with keeps|]. destruct a0 as [e|[after size']]; [by apply learns_close|].
      learn_step; [auto with keeps|]. case_goal.
      * learn_step; [auto with keeps|]. by apply learns_ret.
      * apply learns_digest. intros m. case_goal; [by apply learns_ret|]. case_goal.
        -- learn_step; [auto with keeps|]. by apply learns_ret.
        -- reflect_guards. learn_step; [|by apply learns_ret]. apply keeps_insert.
           intros P [HP HK]%list.Forall_cons. exists whole, fd, before. cbn [fingerprint whole_sha256 block_sha256].
           match goal with Hb : bsize whole = _ |- _ => specialize (Hv Hb) end.
           apply verifying_done in Hv as [-> Hsub]; [|done|unfold is_u64 in Hu; lia].
           split_and!; [congruence|congruence|done| |done|done].
           apply list.Forall_forall. intros x Hx%Hsub. by apply (proj1 (list.Forall_forall _ _) HK).
Qed.

Lemma keeps_open_checked K source size :
  keeps (knowing K) (open_checked moment source size)
    (λ o, match o with OpenedFile fd fp => ∃ s, fp = StatFingerprint fd s size | _ => True end).
Proof.
  unfold open_checked. keep_step; [auto with keeps|]. destruct a as [[e t]|fd]; [by apply keeps_ret|].
  keep_step; [auto with keeps|].
  assert (Hclose : keeps (knowing K) (close moment OpenRefused)
    (λ o, match o with OpenedFile fd fp => ∃ s, fp = StatFingerprint fd s size | _ => True end))
    by (unfold close; keep_step; [auto with keeps|by apply keeps_ret]).
  destruct a as [e|[s size']]; [exact Hclose|].
  case_goal; [exact Hclose|]. reflect_guards. apply keeps_ret. exists s. congruence.
Qed.

(** ** Ranges *)

(** The entry a fingerprint of an open file leads to. *)
Lemma entry_whole (P : list Z → Prop) (source fp sha : list Z) (c : Cache) (e : VerifiedObjectCacheEntry) (fd : nat)
    (s : Stamp) (size : Z) : is_u64 size →
  (∀ k e, c !! k = Some e → entry_ok P e) → fp = StatFingerprint fd s size →
  cache_entry source fp sha c = Some e →
  ∃ whole, bsize whole = size ∧ P whole ∧ Forall P (blocks_of whole) ∧ Sha256Hex true whole = sha ∧
           block_sha256 e = Sha256Hex true <$> blocks_of whole.
Proof.
  intros Hu Hc -> He. unfold cache_entry in He. case_hyps He. reflect_guards. simplify_eq.
  destruct (Hc source e) as (whole & i & t & Hfp & Hw & HP & HPs & Hsha & Hb); [done|].
  exists whole. split_and!; [|done|done|by rewrite Hsha|done].
  apply (fingerprint_size i fd t s); [done|done|congruence].
Qed.

(** What the blocks before [k] contribute to the range. *)
Lemma learns_read_blocks whole source offset request_end fd n : ∀ K (k : nat) acc,
  (block whole <$> seq k n) ⊆ K → 0 ≤ offset < request_end → request_end ≤ bsize whole →
  (k + n)%nat = S (Z.to_nat ((request_end - 1) `div` kIntegrityBlockSize)) →
  offset `div` kIntegrityBlockSize ≤ Z.of_nat k →
  (tells_apart K →
   acc = slice (Z.to_nat offset)
           (Z.to_nat (Z.min request_end (Z.max offset (Z.of_nat k * kIntegrityBlockSize)))) whole) →
  learns K
    (ReadBlocks moment (Sha256Hex true <$> (block whole <$> seq k n)) fd source (bsize whole)
       offset request_end (Z.of_nat k) acc)
    (λ K r, match r with
            | inl f => ob_status f ≠ kStorageSucceeded
            | inr bytes => tells_apart K → bytes = slice (Z.to_nat offset) (Z.to_nat request_end) whole
            end).
Proof.
  pose proof (eq_refl : kIntegrityBlockSize = 1048576) as HB.
  induction n as [|n IH]; intros K k acc HK Ho Hre Hk Hstart Hacc.
  - cbn [seq fmap list_fmap ReadBlocks]. apply learns_ret. intros ->%Hacc. f_equal.
    pose proof (Z.mod_pos_bound (request_end - 1) kIntegrityBlockSize).
    pose proof (Z.div_mod (request_end - 1) kIntegrityBlockSize). lia.
  - cbn [seq fmap list_fmap ReadBlocks].
    pose proof (Z.div_mod (request_end - 1) kIntegrityBlockSize).
    pose proof (Z.mod_pos_bound (request_end - 1) kIntegrityBlockSize).
    assert (0 ≤ (request_end - 1) `div` kIntegrityBlockSize) by (apply Z.div_pos; lia).
    assert (Hkb : Z.of_nat k * kIntegrityBlockSize ≤ request_end - 1) by nia.
    learn_step; [apply keeps_read_exact; lia|]. destruct a as [e|bytes].
    { learn_step; [auto with keeps|]. learn_step; [auto with keeps|]. by apply learns_ret. }
    apply learns_digest. intros m. case_goal.
    { learn_step; [auto with keeps|]. learn_step; [auto with keeps|]. by apply learns_ret. }
    reflect_guards. rewrite Sha256Hex_empty in *. reflect_guards.
    assert (evp m = true) as Hevp by done. rewrite Hevp in *.
    replace (Z.of_nat k + 1) with (Z.of_nat (S k)) by lia.
    cbn [seq fmap list_fmap] in HK.
    apply IH; [set_solver|done|done|lia|lia|]. intros Hap.
    rewrite (Hacc (tells_apart_sub K (bytes :: K) ltac:(set_solver) Hap)).
    assert (bytes = block whole k) as -> by (apply (tells_apart_hex _ _ _ Hap); [set_solver|set_solver|done]).
    apply range_step; lia.
Qed.

Definition range_typed (r : ReadObjectRangeRequest) : Prop :=
  0 ≤ or_offset r ∧ 0 ≤ or_length r ∧ is_u64 (or_size r).

(** What a successful read returns. *)
Definition range_ok (r : ReadObjectRangeRequest) (K : list (list Z)) (res : ReadObjectRangeResult) : Prop :=
  ob_status res = kStorageSucceeded →
  let wanted := Z.min (or_length r) (or_size r - or_offset r) in
  ob_offset res = or_offset r ∧ 0 < wanted ∧ bsize (ob_data res) = wanted ∧
  ob_sha256 res = Sha256Hex true (ob_data res) ∧
  (ob_eof res = true ↔ or_offset r + wanted = or_size r) ∧
  ∃ whole, bsize whole = or_size r ∧ whole ∈ K ∧ Sha256Hex true whole = or_sha256 r ∧
    (tells_apart K → ob_data res = slice (Z.to_nat (or_offset r)) (Z.to_nat (or_offset r + wanted)) whole).

Lemma range_failure r K status message : status ≠ kStorageSucceeded → range_ok r K (RangeFailure status message).
Proof. intros Hne Heq. by destruct Hne. Qed.

(** The digests of the blocks of the range. *)
Lemma learns_hashes K r source fd fp s : is_u64 (or_size r) → 0 ≤ or_offset r → fp = StatFingerprint fd s (or_size r) →
  let wanted := Z.min (or_length r) (or_size r - or_offset r) in
  let start := or_offset r `div` kIntegrityBlockSize in
  let last := (or_offset r + wanted - 1) `div` kIntegrityBlockSize in
  0 < wanted →
  learns K
    (with_cache moment (λ _ c,
      (c, match cache_entry source fp (or_sha256 r) c with
          | Some e =>
              if Z.of_nat (length (block_sha256 e)) =? block_count (or_size r)
              then Some (slice (Z.to_nat start) (S (Z.to_nat last)) (block_sha256 e))
              else None
          | None => None
          end)))
    (λ K h, match h with
            | None => True
            | Some h => ∃ whole, bsize whole = or_size r ∧ whole ∈ K ∧ Sha256Hex true whole = or_sha256 r ∧
                (block whole <$> seq (Z.to_nat start) (S (Z.to_nat last) - Z.to_nat start)) ⊆ K ∧
                h = Sha256Hex true <$> (block whole <$> seq (Z.to_nat start) (S (Z.to_nat last) - Z.to_nat start))
            end).
Proof.
  intros Hu Ho Hfp wanted start last Hw w Hk0.
  pose proof (know_others Hknow K (ticks w) (shared w) Hk0) as Hk.
  cbv beta iota zeta delta [mbind io_bind mret io_ret with_cache tick get_cache on_cache].
  cbn [fst snd shared ticks]. set (sh := others (moment (ticks w)) (shared w)) in *.
  replace (MkShared _ _ _ _) with sh by (by destruct sh).
  destruct (cache_entry _ _ _ _) as [e|] eqn:He; [|by exists K].
  destruct (entry_whole (known sh) source fp (or_sha256 r) (verified_objects_ sh) e fd s (or_size r))
    as (whole & Hsize & HP & HPs & Hsha & Hb); [done|apply Hk|done|done|].
  case_goal; [|by exists K]. exists (whole :: blocks_of whole ++ K). split; [set_solver|]. split.
  { destruct Hk as [Hc HK]. split; [done|]. apply list.Forall_cons. split; [done|]. by apply Forall_app. }
  assert (last ≤ (or_size r - 1) `div` kIntegrityBlockSize)
    by (apply Z.div_le_mono; [done|]; subst wanted; lia).
  assert (0 ≤ last) by (apply Z.div_pos; [lia|done]).
  exists whole. split_and!; [done|set_solver|done| |].
  - intros x Hx. apply elem_of_cons. right. apply elem_of_app. left.
    apply list_elem_of_fmap in Hx as (j & -> & Hj). apply list_elem_of_fmap_2, elem_of_seq.
    apply elem_of_seq in Hj. rewrite Hsize. unfold block_count. lia.
  - rewrite Hb. unfold blocks_of. rewrite <- !list_fmap_compose. apply slice_fmap_seq. rewrite Hsize.
    unfold block_count. lia.
Qed.

Lemma learns_verified_range K r source fd fp s : range_typed r → or_offset r < or_size r → or_length r ≠ 0 →
  fp = StatFingerprint fd s (or_size r) →
  learns K (ReadVerifiedRange moment r source fd fp) (range_ok r).
Proof.
  intros (Ho & Hl & Hu) Hlt Hne Hfp. unfold ReadVerifiedRange. cbv zeta.
  set (wanted := Z.min (or_length r) (or_size r - or_offset r)).
  assert (Hw : 0 < wanted) by lia. pose proof (eq_refl : kIntegrityBlockSize = 1048576) as HB.
  case_goal; [apply learns_close; by apply range_failure|].
  eapply learns_bind; [by apply (learns_hashes K r source fd fp s)|].
  intros K1 [hashes|] _ Hh; [|apply learns_close; by apply range_failure].
  destruct Hh as (whole & Hsize & Hof & Hsha & Hsub & ->). fold wanted in Hsub |- *.
  set (start := or_offset r `div` kIntegrityBlockSize) in *.
  set (fin := (or_offset r + wanted - 1) `div` kIntegrityBlockSize) in *.
  assert (0 ≤ start) by (apply Z.div_pos; lia).
  assert (start ≤ fin) by (apply Z.div_le_mono; lia).
  eapply learns_bind.
  { pose proof (learns_read_blocks whole source (or_offset r) (or_offset r + wanted) fd
      (S (Z.to_nat fin) - Z.to_nat start) K1 (Z.to_nat start) []) as Hblocks.
    rewrite Z2Nat.id, Hsize in Hblocks by done. apply Hblocks; [done|lia|lia|lia|lia|].
    intros _. rewrite Z.max_l, Z.min_r by (pose proof (Z.mul_div_le (or_offset r) kIntegrityBlockSize); lia).
    unfold slice. by rewrite Nat.sub_diag. }
  intros K2 [f|bytes] HK2 Hbytes; [by apply learns_ret|].
  case_goal; [apply learns_close; by apply range_failure|]. reflect_guards.
  learn_step; [auto with keeps|]. destruct a as [e|[after size]]; [apply learns_close; by apply range_failure|].
  learn_step; [auto with keeps|]. case_goal.
  { learn_step; [auto with keeps|]. apply learns_ret. by apply range_failure. }
  learn_step; [auto with keeps|]. rewrite Sha256Hex_empty. destruct (evp a0); cbn [negb];
    [|apply learns_ret; by apply range_failure].
  apply learns_ret. intros _. cbn [ob_offset ob_data ob_sha256 ob_eof]. fold wanted.
  split_and!; [done|done|done|done|by rewrite Z.eqb_eq|].
  exists whole. split_and!; [done|set_solver|done|done].
Qed.

(** A read under any interference keeps the cache and returns what it promises. *)
Lemma learns_read_range K r : range_typed r →
  learns K (ReadObjectRange moment root_ r) (range_ok r).
Proof.
  intros Ht. pose proof Ht as (Ho & Hl & Hu). unfold ReadObjectRange.
  case_goal; [apply learns_ret; by apply range_failure|]. reflect_guards.
  case_goal; [|apply learns_ret; by apply range_failure].
  learn_step; [apply keeps_open_checked|]. destruct a as [[] e| |fd fp].
  1,2,3: apply learns_ret; by apply range_failure.
  match goal with Hs : ∃ _, _ |- _ => destruct Hs as [s Hs] end.
  learn_step; [apply keeps_look|].
  destruct a as [e|]; [by eapply learns_verified_range|].
  learn_step; [auto with keeps|]. eapply learns_bind; [by apply learns_verify|].
  intros K1 v _ _. case_goal.
  { apply learns_ret. intros Hst. cbn in Hst. unfold st_succeeded in *. reflect_guards. congruence. }
  learn_step; [apply keeps_open_checked|]. destruct a0 as [[] e| |fd' fp'].
  1,2,3: apply learns_ret; by apply range_failure.
  match goal with Hs : ∃ _, fp' = _ |- _ => destruct Hs as [s' Hs'] end.
  learn_step; [apply keeps_look|].
  destruct a0 as [e|]; [by eapply learns_verified_range|]. apply learns_close. by apply range_failure.
Qed.

End Reads.
