(* ===== verification/LocalStorageWrites.v ===== *)
(** * Atomic publication

    What [StoreChunkAtomically] and [ComposeObjectAtomically] do to the disk while others
    work on it: a file appears under its final name whole and verified, in one step, or
    not at all.  The only assumption on the others is that they leave the temporary files
    of this process step alone, whose names carry its process id and a sequence number.

    An invariant is [steady] when the others keep it and temporary files do not matter to
    it; the rules say that an operation keeps a steady invariant which the publication of
    its file keeps. *)
From Stdlib Require Import ZArith Lia String.
From stdpp Require Import base list numbers gmap.
From S2P Require Import Prelude ByteStrings FileTypes FileWorld LocalFilesystemStorage.

Local Open Scope Z_scope.

(** The file [i] has the name [p], no other one, and the content [x]. *)
Definition owns (d : Disk) (p : list Z) (i : nat) (x : list Z) : Prop :=
  names d !! p = Some i ∧ data <$> inodes d !! i = Some x ∧ ∀ q, names d !! q = Some i → q = p.

Lemma owns_content d p i x : owns d p i x → content_at d p = Some x.
Proof. intros (Hp & Hx & _). unfold content_at. by rewrite Hp. Qed.

(** A change of a file does not show under other names. *)
Lemma owns_alter d p i x f q : owns d p i x → q ≠ p →
  content_at (MkDisk (names d) (alter f i (inodes d))) q = content_at d q.
Proof.
  intros (_ & _ & Hsole) Hq. unfold content_at. cbn.
  destruct (names d !! q) as [j|] eqn:Hj; [|done].
  destruct (decide (i = j)) as [<-|Hne]; [by destruct Hq; apply Hsole|].
  by rewrite lookup_alter_ne.
Qed.

Lemma write_at_end xs old : write_at (length old) xs old = old ++ xs.
Proof.
  unfold write_at, splice. rewrite Nat.sub_diag, app_nil_r. cbn [replicate].
  rewrite take_ge, drop_ge, app_nil_r by lia. done.
Qed.

Section Writes.
Context {Db : Type} (moment : nat → Moment Db) `{Sha256Laws}.
Context (root_ pid : list Z).

(** The names of the temporary files of this computation. *)
Definition mine (p : list Z) : Prop :=
  ∃ n destination, p = TemporarySibling pid destination (sequence (moment n)).

Definition leave_mine : Prop :=
  ∀ n s p i x, mine p → owns (disk s) p i x → owns (disk (others (moment n) s)) p i x.

(** Disks that differ in temporary files only. *)
Definition public_eq (d d' : Disk) : Prop := ∀ q, ¬ mine q → content_at d' q = content_at d q.

Definition on (s : Shared Db) (d : Disk) : Shared Db := MkShared (tables s) d (verified_objects_ s) (digested s).

Definition steady (P : Shared Db → Prop) : Prop :=
  stable moment P ∧ ∀ s d, P s → public_eq (disk s) d → P (on s d).

(** [d'] is [d] with the content [x] under the name [p]. *)
Definition publish (p x : list Z) (d d' : Disk) : Prop :=
  content_at d' p = Some x ∧ ∀ q, q ≠ p → ¬ mine q → content_at d' q = content_at d q.

Hypothesis Hmine : leave_mine.

(** ** System calls *)

Lemma stable_owns P p i x : stable moment P → mine p →
  stable moment (λ s, P s ∧ owns (disk s) p i x).
Proof. intros HP Hp n s [Hs Ho]. split; [by apply HP|]. by apply Hmine. Qed.

Lemma triple_plain (Q : Shared Db → Prop) :
  stable moment Q → triple Q (sys_plain moment) (λ _ s, Q s).
Proof.
  intros HQ. eapply triple_bind; [by apply triple_tick|]. intros m. apply triple_ret. naive_solver.
Qed.

Lemma triple_open (Q : Shared Db → Prop) p :
  stable moment Q → triple Q (sys_open moment p) (λ _ s, Q s).
Proof. intros HQ w Hw. exact (HQ _ _ Hw). Qed.

Lemma triple_read (Q : Shared Db → Prop) i pos size :
  stable moment Q → triple Q (sys_read moment i pos size) (λ _ s, Q s).
Proof. intros HQ w Hw. exact (HQ _ _ Hw). Qed.

Lemma triple_create P p : steady P → mine p →
  triple P (sys_create moment p)
    (λ r s, P s ∧ match r with inr i => owns (disk s) p i [] | inl _ => True end).
Proof.
  intros [HP Hpub] Hp w Hw. apply (HP (ticks w)) in Hw. unfold sys_create. io_simpl.
  set (m := moment (ticks w)) in *. set (s := others m (shared w)) in *.
  destruct (fails m); [done|]. destruct (names (disk s) !! p) as [j|] eqn:Hj; [done|]. io_simpl.
  set (i := fresh (dom (inodes (disk s)) ∪ map_img (names (disk s)))).
  assert (Hi : i ∉ dom (inodes (disk s)) ∪ map_img (names (disk s))) by apply is_fresh.
  apply not_elem_of_union in Hi as [Hi Hin].
  assert (Hno : ∀ q, names (disk s) !! q ≠ Some i).
  { intros q Hq. by apply Hin, elem_of_map_img; exists q. }
  split.
  - apply (Hpub s); [done|]. intros q Hq. unfold content_at. cbn.
    rewrite lookup_insert_ne by (by intros ->). destruct (names (disk s) !! q) as [j|] eqn:Hjq; [|done].
    rewrite lookup_insert_ne; [done|]. intros <-. by apply (Hno q).
  - split_and!; cbn; [by rewrite lookup_insert_eq|by rewrite lookup_insert_eq|].
    intros q. rewrite lookup_insert_Some. intros [[<- _]|[_ Hq]]; [done|]. by destruct (Hno q).
Qed.

Lemma triple_write P p i x bytes : steady P → mine p →
  triple (λ s, P s ∧ owns (disk s) p i x) (sys_write moment i (length x) bytes)
    (λ r s, P s ∧ match r with
                  | inl _ => owns (disk s) p i x
                  | inr n => owns (disk s) p i (x ++ take n bytes)
                  end).
Proof.
  intros [HP Hpub] Hp w [Hw Ho]. apply (HP (ticks w)) in Hw. apply (Hmine (ticks w)) in Ho; [|done].
  unfold sys_write. io_simpl. set (m := moment (ticks w)) in *. set (s := others m (shared w)) in *.
  destruct (fails m); [done|]. io_simpl. set (n := Nat.min (length bytes) (count m)). split.
  - apply (Hpub s); [done|]. intros q Hq. eapply owns_alter; [exact Ho|]. by intros ->.
  - destruct Ho as (Hn & Hx & Hsole). split_and!; cbn; [done| |done].
    rewrite lookup_alter_eq. destruct (inodes (disk s) !! i) as [nd|]; [|done].
    cbn in *. simplify_eq. by rewrite write_at_end.
Qed.

Lemma triple_rename P (R : Shared Db → Prop) p destination i x :
  steady P → mine p → ¬ mine destination →
  (∀ s d, P s → publish destination x (disk s) d → R (on s d)) →
  triple (λ s, P s ∧ owns (disk s) p i x) (sys_rename moment p destination)
    (λ r s, match r with None => R s | Some _ => P s end).
Proof.
  intros [HP Hpub] Hp Hd HR w [Hw Ho]. apply (HP (ticks w)) in Hw. apply (Hmine (ticks w)) in Ho; [|done].
  unfold sys_rename. io_simpl. set (m := moment (ticks w)) in *. set (s := others m (shared w)) in *.
  destruct (fails m); [done|]. destruct Ho as (Hn & Hx & Hsole). rewrite Hn. io_simpl.
  apply (HR s); [done|]. split.
  - unfold content_at. cbn. by rewrite lookup_insert_eq.
  - intros q Hq Hqm. unfold content_at. cbn.
    rewrite lookup_insert_ne, lookup_delete_ne by congruence. done.
Qed.

Lemma triple_remove P p : steady P → mine p → triple P (RemoveNoThrow moment p) (λ _ s, P s).
Proof.
  intros [HP Hpub] Hp w Hw. apply (HP (ticks w)) in Hw. unfold RemoveNoThrow, sys_remove. io_simpl.
  destruct (fails _); [done|]. io_simpl. apply (Hpub (others (moment (ticks w)) (shared w))); [done|].
  intros q Hq. unfold content_at. cbn. rewrite lookup_delete_ne by congruence. done.
Qed.

Lemma triple_fsync_directory (Q : Shared Db → Prop) :
  stable moment Q → triple Q (FsyncDirectoryNoThrow moment) (λ _ s, Q s).
Proof.
  intros HQ. unfold FsyncDirectoryNoThrow. eapply triple_bind; [by apply triple_plain|].
  intros [e|]; [by apply triple_ret|]. eapply triple_bind; [by apply triple_plain|]. intros ?.
  eapply triple_bind; [by apply triple_plain|]. intros ?. by apply triple_ret.
Qed.

(** ** Writing a temporary file *)

Section Temporary.
Context (P : Shared Db → Prop) (p : list Z) (i : nat).
Hypothesis HP : steady P.
Hypothesis Hp : mine p.

(** The temporary file with some content. *)
Definition holds (x : list Z) (s : Shared Db) : Prop := P s ∧ owns (disk s) p i x.
Definition holds_some (s : Shared Db) : Prop := ∃ x, holds x s.

Lemma stable_holds x : stable moment (holds x).
Proof. apply stable_owns; [apply HP|done]. Qed.

Lemma stable_holds_some : stable moment holds_some.
Proof. intros n s [x Hx]. exists x. by apply stable_holds. Qed.

Lemma holds_drop s : holds_some s → P s.
Proof. by intros (x & Hs & _). Qed.

(** What a step that may fail leaves: [x] when it succeeded. *)
Definition after {A} (ok : A → Prop) (x : A → list Z) (r : A) (s : Shared Db) : Prop :=
  holds_some s ∧ (ok r → holds (x r) s).

Lemma triple_write_all fuel : ∀ bytes x, (length bytes ≤ fuel)%nat →
  triple (holds x) (WriteAll moment fuel i (length x) bytes)
    (after (λ r, r = None) (λ _, x ++ bytes)).
Proof.
  induction fuel as [|fuel IH]; intros bytes x Hfuel.
  { destruct bytes; [|cbn in Hfuel; lia]. cbn. apply triple_ret. rewrite app_nil_r.
    intros s Hs. split; [by exists x|done]. }
  destruct bytes as [|b bytes].
  { cbn. apply triple_ret. rewrite app_nil_r. intros s Hs. split; [by exists x|done]. }
  cbn [WriteAll]. eapply triple_bind; [by apply triple_write|]. cbn beta. intros [e|[|n]].
  - apply triple_ret. intros s Hs. split; [by exists x|done].
  - apply triple_ret. cbn [take]. rewrite app_nil_r. intros s Hs. split; [by exists x|done].
  - set (bs := b :: bytes) in *. specialize (IH (drop (S n) bs) (x ++ take (S n) bs)).
    destruct (Nat.le_gt_cases (S n) (length bs)) as [Hle|Hgt].
    + rewrite length_app, length_take, Nat.min_l, <- app_assoc, take_drop in IH by done.
      eapply triple_weaken; [apply IH; rewrite length_drop; subst bs; cbn in *; lia|done|done].
    + rewrite drop_ge, take_ge in * by lia.
      destruct fuel; cbn [WriteAll]; apply triple_ret; intros s Hs; (split; [by exists (x ++ bs)|done]).
Qed.

Lemma triple_write_close bytes :
  triple (holds []) (WriteAndClose moment i bytes) (after (λ r, r = None) (λ _, bytes)).
Proof.
  unfold WriteAndClose. eapply triple_bind; [by apply (triple_write_all _ bytes [])|]. intros written.
  cbn [app].
  eapply triple_bind with (R := after (λ r, r = None) (λ _, bytes)).
  { destruct written as [e|].
    - apply triple_ret. intros s [Hs _]. split; [done|discriminate].
    - eapply triple_bind with (R := λ _, holds bytes).
      { eapply triple_weaken; [apply triple_plain, (stable_holds bytes)| |done]. intros s [_ Hs]. by apply Hs. }
      intros r. apply triple_ret. intros s Hs. split; [by exists bytes|done]. }
  intros synced. eapply triple_bind with (R := λ _, after (λ r, r = None) (λ _, bytes) synced).
  { apply triple_plain. intros n s [Hs Hok]. split; [by apply stable_holds_some|].
    intros Hr. by apply stable_holds, Hok. }
  intros closed. apply triple_ret. intros s [Hs Hok]. split; [done|].
  destruct synced; [discriminate|]. intros ?. by apply Hok.
Qed.

(** ** Composing an object *)

Definition extends (whole : list Z) (r : list Z + list Z) (s : Shared Db) : Prop :=
  holds_some s ∧ match r with inr bytes => holds (whole ++ bytes) s | inl _ => True end.

Lemma triple_copy_part fuel : ∀ input key whole part,
  triple (holds (whole ++ part)) (CopyPart moment fuel input i (length whole) key part) (extends whole).
Proof.
  induction fuel as [|fuel IH]; intros input key whole part; cbn [CopyPart].
  { apply triple_ret. intros s Hs. split; [by exists (whole ++ part)|done]. }
  eapply triple_bind; [apply triple_read, stable_holds|]. intros [e|[|b bytes]].
  - apply triple_ret. intros s Hs. split; [by exists (whole ++ part)|done].
  - apply triple_ret. intros s Hs. split; [by exists (whole ++ part)|done].
  - set (bs := b :: bytes). rewrite <- length_app.
    eapply triple_bind; [by apply (triple_write_all _ bs (whole ++ part))|]. intros [e|].
    { apply triple_ret. by intros s [Hs _]. }
    eapply triple_bind with (R := λ _, holds (whole ++ (part ++ bs))).
    { eapply triple_weaken; [apply triple_tick, (stable_holds (whole ++ (part ++ bs)))| |by intros m s [_ Hs]].
      intros s [_ Hs]. rewrite app_assoc. by apply Hs. }
    intros m. case_goal; [|apply IH].
    apply triple_ret. intros s Hs. split; [by exists (whole ++ (part ++ bs))|done].
Qed.

Lemma triple_compose_part whole part path :
  triple (holds whole) (ComposePart moment i (length whole) part path) (extends whole).
Proof.
  unfold ComposePart. eapply triple_bind; [apply triple_open, stable_holds|].
  assert (Hend : ∀ e, triple (holds whole) (mret (inl e)) (extends whole)).
  { intros e. apply triple_ret. intros s Hs. split; [by exists whole|done]. }
  intros [[b e]|input]; [apply Hend|].
  eapply triple_bind with (R := λ _, holds whole).
  { eapply triple_weaken; [apply triple_tick, (stable_holds whole)|done|by intros m s [_ Hs]]. }
  intros m. case_goal.
  { eapply triple_bind; [apply triple_plain, stable_holds|]. intros ?. apply Hend. }
  eapply triple_bind.
  { eapply triple_weaken; [apply (triple_copy_part _ input (part_key part) whole [])| |done].
    by rewrite app_nil_r. }
  assert (Hst : ∀ r, stable moment (extends whole r)).
  { intros r n s [Hs Hr]. split; [by apply stable_holds_some|].
    destruct r; [done|]. by apply stable_holds. }
  intros copied. eapply triple_bind; [apply triple_plain, Hst|]. intros ?.
  destruct copied as [e|bytes]; [by apply triple_ret|].
  eapply triple_bind with (R := λ _, extends whole (inr bytes)).
  { eapply triple_weaken; [apply triple_tick, Hst|done|by intros m' s [_ Hs]]. }
  intros m'. repeat case_goal; apply triple_ret; intros s Hs; try done; by destruct Hs.
Qed.

Lemma triple_compose_loop parts : ∀ whole paths,
  triple (holds whole) (ComposeLoop moment i whole parts paths) (extends []).
Proof.
  induction parts as [|part parts IH]; intros whole paths; cbn [ComposeLoop].
  { apply triple_ret. intros s Hs. split; [by exists whole|done]. }
  destruct paths as [|path paths].
  { apply triple_ret. intros s Hs. split; [by exists whole|done]. }
  eapply triple_bind; [apply triple_compose_part|]. intros [e|bytes].
  - apply triple_ret. by intros s [Hs _].
  - eapply triple_weaken; [apply IH| |done]. by intros s [_ Hs].
Qed.

End Temporary.

(** ** The operations *)

Lemma triple_give_up P p result : steady P → mine p →
  triple P (GiveUp moment p result) (λ r s, r = result ∧ P s).
Proof.
  intros HP Hp. unfold GiveUp. eapply triple_bind; [apply triple_plain, HP|]. intros ?.
  eapply triple_bind; [by apply triple_remove|]. intros ?. by apply triple_ret.
Qed.

Section Rules.
Context (I Q : Shared Db → Prop).
Hypothesis HI : steady I.
Hypothesis HQ : steady Q.

(** Storing a chunk keeps [I] if its publication does, and ends with [Q] if it succeeds
    and the publication establishes [Q]. *)
Lemma store_rule r destination :
  ResolveSafePath root_ (store_key r) = Some destination → ¬ mine destination →
  (∀ s d, Sha256Hex true (store_data r) = store_sha256 r → I s →
          publish destination (store_data r) (disk s) d → I (on s d) ∧ Q (on s d)) →
  triple I (StoreChunkAtomically moment root_ pid r)
    (λ res s, I s ∧ (st_succeeded (st_status res) = true →
       st_bytes res = bsize (store_data r) ∧ st_sha256 res = store_sha256 r ∧ Q s)).
Proof.
  intros Hres Hd Hpub. unfold StoreChunkAtomically.
  assert (Hend : ∀ res, st_succeeded (st_status res) = false →
    triple I (mret res) (λ res s, I s ∧ (st_succeeded (st_status res) = true →
       st_bytes res = bsize (store_data r) ∧ st_sha256 res = store_sha256 r ∧ Q s))).
  { intros res Hf. apply triple_ret. intros s Hs. split; [done|congruence]. }
  case_goal; [by apply Hend|]. case_goal; [by apply Hend|].
  apply triple_tick_bind; [apply HI|]. intros n0.
  rewrite Sha256Hex_empty. destruct (evp (moment n0)); cbn [negb]; [|by apply Hend].
  case_goal; [by apply Hend|]. reflect_guards. rewrite Hres.
  eapply triple_bind; [apply triple_plain, HI|]. intros [e|]; [by apply Hend|].
  apply triple_tick_bind; [apply HI|]. intros n.
  set (p := TemporarySibling pid destination (sequence (moment n))).
  assert (Hp : mine p) by (by exists n, destination).
  eapply triple_bind; [by apply triple_create|]. intros [e|fd].
  { eapply triple_pre; [by apply Hend|]. by intros s [Hs _]. }
  eapply triple_bind; [by apply (triple_write_close I p fd)|]. intros [e|].
  { apply (triple_pre I); [|by intros s [Hs%holds_drop _]].
    eapply triple_bind; [by apply triple_remove|]. intros ?. by apply Hend. }
  eapply triple_bind with (R := λ r s, match r with None => I s ∧ Q s | Some _ => I s end).
  { eapply triple_weaken; [apply (triple_rename I (λ s, I s ∧ Q s) p destination fd (store_data r))| |done]; try done.
    - intros s d Hs Hdisk. by apply Hpub.
    - intros s [_ Hs]. by apply Hs. }
  intros [e|].
  { eapply triple_bind; [by apply triple_remove|]. intros ?. by apply Hend. }
  eapply triple_bind; [apply triple_fsync_directory|].
  { intros k s [Hs HQs]. split; [by apply HI|by apply HQ]. }
  intros ?. apply triple_ret. intros s [Hs HQs]. split; [done|]. intros _. by cbn.
Qed.

(** The same for the composition of an object, whose content is known when its digest
    and its size are. *)
Lemma compose_rule r destination :
  ResolveSafePath root_ (compose_key r) = Some destination → ¬ mine destination →
  (∀ s d whole, Sha256Hex true whole = compose_sha256 r → bsize whole = compose_size r → I s →
          publish destination whole (disk s) d → I (on s d) ∧ Q (on s d)) →
  triple I (ComposeObjectAtomically moment root_ pid r)
    (λ res s, I s ∧
       (st_succeeded (st_status res) = true →
        st_bytes res = compose_size r ∧ st_sha256 res = compose_sha256 r ∧ Q s) ∧
       (st_status res = kChecksumMismatch →
        ∃ whole, st_sha256 res = Sha256Hex true whole ∧ st_sha256 res ≠ compose_sha256 r)).
Proof.
  intros Hres Hd Hpub. unfold ComposeObjectAtomically.
  set (post := λ res s, _ ∧ _ ∧ _).
  assert (Hfail : ∀ res s, st_status res ≠ kStorageSucceeded → st_status res ≠ kChecksumMismatch →
                           I s → post res s).
  { intros res s H1 H2 Hs. unfold post, st_succeeded. split_and!; [done| |done].
    by intros ?%bool_decide_eq_true. }
  assert (Hend : ∀ res, st_status res ≠ kStorageSucceeded → st_status res ≠ kChecksumMismatch →
    triple I (mret res) post).
  { intros res H1 H2. apply triple_ret. intros s. by apply Hfail. }
  destruct (_ || _); [by apply Hend|]. case_goal; [by apply Hend|]. rewrite Hres.
  destruct (ResolveParts _ _ _) as [e|paths]; [by apply Hend|].
  eapply triple_bind; [apply triple_plain, HI|]. intros [e|]; [by apply Hend|].
  apply triple_tick_bind; [apply HI|]. intros n.
  set (p := TemporarySibling pid destination (sequence (moment n))).
  assert (Hp : mine p) by (by exists n, destination).
  eapply triple_bind; [by apply triple_create|]. intros [e|fd].
  { eapply triple_pre; [by apply Hend|]. by intros s [Hs _]. }
  assert (Hgive : ∀ res P, (∀ s, P s → I s) → (∀ s, I s → post res s) →
    triple P (GiveUp moment p res) post).
  { intros res P HPI Hpost. eapply triple_weaken; [by apply (triple_give_up I p res)|done|].
    intros r' s [-> Hs]. by apply Hpost. }
  cbn beta iota. change (λ s, I s ∧ owns (disk s) p fd []) with (holds I p fd []).
  apply triple_tick_bind; [by apply stable_holds|]. intros n1. case_goal.
  { apply Hgive; [by intros s [Hs _]|]. intros s. by apply Hfail. }
  eapply triple_bind; [by apply (triple_compose_loop I p fd)|]. intros [e|whole].
  { apply Hgive; [by intros s [Hs%holds_drop _]|]. intros s. by apply Hfail. }
  apply (triple_pre (holds I p fd whole)); [|by intros s [_ Hs]].
  apply triple_tick_bind; [by apply stable_holds|]. intros n2.
  assert (HhI : ∀ s, holds I p fd whole s → I s) by (by intros s [Hs _]).
  case_goal; [apply Hgive; [done|]; intros s; by apply Hfail|].
  case_goal; [apply Hgive; [done|]; intros s; by apply Hfail|]. case_goal.
  { reflect_guards. apply Hgive; [done|]. intros s Hs. unfold post. split_and!; [done|done|].
    intros _. by exists whole. }
  reflect_guards.
  eapply triple_bind; [by apply triple_plain, stable_holds|]. intros [e|].
  { apply Hgive; [done|]. intros s. by apply Hfail. }
  eapply triple_bind; [by apply triple_plain, stable_holds|].
  assert (Hremove : ∀ res P, (∀ s, P s → I s) → st_status res = kIoError →
    triple P (RemoveNoThrow moment p;; mret res) post).
  { intros res P HPI Hst. apply (triple_pre I); [|done].
    eapply triple_bind; [by apply triple_remove|]. intros ?. apply Hend; congruence. }
  intros [e|]; [by apply Hremove|].
  eapply triple_bind with (R := λ r s, match r with None => I s ∧ Q s | Some _ => I s end).
  { eapply triple_weaken; [apply (triple_rename I (λ s, I s ∧ Q s) p destination fd whole)| |done]; try done.
    intros s d Hs Hdisk. by eapply Hpub. }
  intros [e|]; [by apply Hremove|].
  eapply triple_bind; [apply triple_fsync_directory|].
  { intros k s [Hs HQs]. split; [by apply HI|by apply HQ]. }
  intros ?. apply triple_ret. intros s [Hs HQs]. unfold post. split_and!; [done|done|done].
Qed.

End Rules.

End Writes.
