(* ===== verification/LocalStoragePaths.v ===== *)
(** * Paths below the root

    The paths [ResolveSafePath] of the local storage gives: they lie below the root, one
    component per name of the key, and two keys lead to one path only if they have the
    same names. *)
From Stdlib Require Import ZArith Lia String.
From stdpp Require Import base list numbers gmap.
From S2P Require Import Prelude ByteStrings FileTypes FileWorld LocalFilesystemStorage.

Local Open Scope Z_scope.

(** A name that is kept as it is. *)
Definition plain_name (n : list Z) : Prop := n ≠ [] ∧ slash ∉ n ∧ n ≠ str "." ∧ n ≠ str "..".

(** A root such as [/var/lib/files] or [data/files]. *)
Definition plain_root (root : list Z) : Prop :=
  ∃ (absolute : bool) ns, ns ≠ [] ∧ Forall plain_name ns ∧
    root = (if absolute then [slash] else []) ++ join ns.

(** ** Names *)

Lemma names_of_app cur n s : slash ∉ n → names_of cur (n ++ s) = names_of (cur ++ n) s.
Proof.
  revert cur. induction n as [|c n IH]; intros cur Hn; [by rewrite app_nil_r|].
  apply not_elem_of_cons in Hn as [Hc Hn]. cbn [app names_of].
  rewrite (proj2 (Z.eqb_neq c slash)) by done. rewrite IH by done. by rewrite <- app_assoc.
Qed.

Lemma names_of_slash n s : plain_name n → names_of n (slash :: s) = n :: names_of [] s.
Proof. intros (Hn & _). by destruct n. Qed.

Lemma join_cons n ns : ns ≠ [] → join (n :: ns) = n ++ slash :: join ns.
Proof. by destruct ns. Qed.

Lemma join_app ns ms : ns ≠ [] → ms ≠ [] → join (ns ++ ms) = join ns ++ slash :: join ms.
Proof.
  intros Hns Hms. induction ns as [|n ns IH]; [done|]. destruct ns as [|n' ns].
  - cbn [app]. by rewrite join_cons.
  - rewrite <- app_comm_cons, !join_cons by done. rewrite IH by done. by rewrite <- app_assoc.
Qed.

Lemma names_of_join ns : Forall plain_name ns → ns ≠ [] → names_of [] (join ns) = ns.
Proof.
  intros Hf Hne. induction ns as [|n ns IH]; [done|]. apply list.Forall_cons in Hf as [Hn Hf].
  destruct ns as [|n' ns].
  - cbn [join]. rewrite <- (app_nil_r n) at 1. rewrite names_of_app by apply Hn. done.
  - rewrite join_cons, names_of_app by (done || apply Hn). cbn [app].
    by rewrite names_of_slash, IH by done.
Qed.

Lemma names_of_no_slash s : ∀ cur, slash ∉ cur → Forall (λ n, slash ∉ n) (names_of cur s).
Proof.
  induction s as [|c s IH]; intros cur Hc; cbn [names_of]; [by constructor|].
  destruct (Z.eqb_spec c slash) as [->|Hne].
  - case_goal; [apply IH; set_solver|]. constructor; [done|]. apply IH. set_solver.
  - apply IH. rewrite elem_of_app, list_elem_of_singleton. naive_solver.
Qed.

Lemma names_of_not_nil s cur : names_of cur s ≠ [].
Proof. revert cur. induction s as [|c s IH]; intros cur; cbn; repeat case_goal; done || apply IH. Qed.

Lemma plain_not_slash n : plain_name n → head n ≠ Some slash ∧ last n ≠ Some slash.
Proof.
  intros (_ & Hs & _). split.
  - destruct n as [|c n]; [done|]. cbn. intros [= ->]. set_solver.
  - intros Hl%last_Some_elem_of. done.
Qed.

Lemma head_join ns : Forall plain_name ns → ns ≠ [] → head (join ns) ≠ Some slash ∧ join ns ≠ [].
Proof.
  intros Hf Hne. destruct ns as [|n ns]; [done|]. apply list.Forall_cons in Hf as [Hn _].
  pose proof (plain_not_slash n Hn) as [Hh _]. destruct Hn as (Hn & _).
  destruct ns; cbn [join]; destruct n; done.
Qed.

Lemma last_join ns : Forall plain_name ns → ns ≠ [] → last (join ns) ≠ Some slash.
Proof.
  intros Hf Hne. induction ns as [|n ns IH]; [done|]. apply list.Forall_cons in Hf as [Hn Hf].
  destruct ns as [|n' ns]; [cbn [join]; by apply plain_not_slash|].
  rewrite join_cons by done. pose proof (head_join (n' :: ns) Hf ltac:(done)) as [_ Hj].
  rewrite last_app. destruct (join (n' :: ns)) as [|c j] eqn:E; [done|].
  rewrite last_cons. cbn [last] in *. destruct (last (c :: j)) eqn:El; [|by rewrite last_None in El].
  by apply IH.
Qed.

(** ** Normal forms *)

Lemma normal_plain absolute stack trail ns : Forall plain_name ns → ns ≠ [] →
  normal_names absolute stack trail ns = (rev ns ++ stack, false).
Proof.
  revert stack trail. induction ns as [|n ns IH]; intros stack trail Hf Hne; [done|].
  apply list.Forall_cons in Hf as [(H1 & H2 & H3 & H4) Hf]. cbn [normal_names].
  rewrite !bool_decide_false by done. replace (bempty n) with false by (by destruct n). cbn [orb].
  destruct ns as [|n' ns]; [done|]. rewrite IH by done.
  cbn [rev]. by rewrite <- !app_assoc.
Qed.

Lemma normal_of_plain (absolute : bool) ns : Forall plain_name ns → ns ≠ [] →
  lexically_normal ((if absolute then [slash] else []) ++ join ns) =
  (if absolute then [slash] else []) ++ join ns.
Proof.
  intros Hf Hne. pose proof (head_join ns Hf Hne) as [Hh Hj]. unfold lexically_normal.
  assert (is_absolute ((if absolute then [slash] else []) ++ join ns) = absolute) as ->.
  { destruct absolute; [done|]. cbn. destruct (join ns) as [|c j]; [done|]. cbn in *.
    apply Z.eqb_neq. congruence. }
  replace (bempty _) with false by (by destruct absolute, (join ns)).
  assert (names_of [] ((if absolute then [slash] else []) ++ join ns) = ns) as ->.
  { destruct absolute; cbn; by apply names_of_join. }
  rewrite normal_plain by done. rewrite app_nil_r, rev_involutive.
  destruct (rev ns) as [|top rest] eqn:E; [by apply (f_equal (@rev _)) in E; rewrite rev_involutive in E|].
  cbn [andb]. by rewrite app_nil_r.
Qed.

Definition bad_name (text : list Z) : bool :=
  bempty text || bool_decide (text = str ".") || bool_decide (text = str "..") ||
  existsb (λ c, c =? 92) text.

Lemma good_names s : existsb bad_name (names_of [] s) = false → Forall plain_name (names_of [] s).
Proof.
  intros Hb. apply list.Forall_forall. intros n Hn.
  pose proof (names_of_no_slash s [] ltac:(set_solver)) as Hs.
  pose proof (proj1 (list.Forall_forall _ _) Hs n Hn) as Hns.
  assert (bad_name n = false) as Hbn.
  { destruct (bad_name n) eqn:E; [|done]. rewrite <- Hb. symmetry. apply existsb_exists. exists n.
    split; [by apply list_elem_of_In|done]. }
  unfold bad_name in Hbn. reflect_guards. split_and!; try done. by intros ->.
Qed.

Lemma normal_root root ns : plain_root root → Forall plain_name ns → ns ≠ [] →
  lexically_normal (root ++ slash :: join ns) = root ++ slash :: join ns.
Proof.
  intros (absolute & rs & Hrs & Hrf & ->) Hf Hne.
  rewrite <- app_assoc, <- join_app by done. apply normal_of_plain.
  - by apply Forall_app.
  - by destruct rs.
Qed.

(** The names between the slashes of a key that runs of slashes separate. *)
Lemma resolve_names root key : plain_root root → key ≠ [] →
  existsb bad_name (names_of [] key) = false →
  lexically_normal (root ++ slash :: key) = root ++ slash :: join (names_of [] key).
Proof.
  intros Hroot Hkey Hb%good_names. rewrite <- (normal_root root (names_of [] key)); [|done..|apply names_of_not_nil].
  destruct Hroot as (absolute & rs & Hrs & Hrf & ->).
  unfold lexically_normal.
  assert (Hn : ∀ k, names_of [] (((if absolute then [slash] else []) ++ join rs) ++ slash :: k) = rs ++ names_of [] k).
  { intros k. destruct absolute; cbn [app names_of Z.eqb]; unfold slash; cbn.
    all: clear -Hrs Hrf; induction rs as [|r rs IH]; [done|]; apply list.Forall_cons in Hrf as [Hr Hrf];
      destruct rs as [|r' rs]; cbn [join];
      [rewrite names_of_app by apply Hr; by rewrite names_of_slash|];
      rewrite <- app_assoc, names_of_app by apply Hr; cbn [app]; rewrite names_of_slash by done;
      cbn [app]; f_equal; by apply IH. }
  rewrite !Hn, names_of_join by (done || apply names_of_not_nil).
  assert (Ha : ∀ k, is_absolute (((if absolute then [slash] else []) ++ join rs) ++ slash :: k) = absolute).
  { intros k. pose proof (head_join rs Hrf Hrs) as [Hh Hj]. destruct absolute; [done|]. cbn.
    destruct (join rs) as [|c j]; [done|]. cbn in *. apply Z.eqb_neq. congruence. }
  rewrite !Ha. pose proof (head_join rs Hrf Hrs) as [_ Hj].
  assert (Hb' : ∀ k, bempty (((if absolute then [slash] else []) ++ join rs) ++ slash :: k) = false).
  { intros k. by destruct absolute, (join rs). }
  by rewrite !Hb'.
Qed.

(** A key that is accepted leads below the root, by its names. *)
Lemma resolve_spec root key : plain_root root →
  ResolveSafePath root key =
  if bempty key || is_absolute key || existsb bad_name (names_of [] key) then None
  else Some (root ++ slash :: join (names_of [] key)).
Proof.
  intros Hroot. pose proof Hroot as (absolute & rs & Hrs & Hrf & Heq).
  pose proof (head_join rs Hrf Hrs) as [_ Hj].
  unfold ResolveSafePath. replace (bempty root) with false by (subst; by destruct absolute, (join rs)).
  cbn [orb]. destruct (bempty key) eqn:Hk; [done|]. destruct (is_absolute key); [done|]. cbn [orb].
  fold bad_name. change (λ text, _ || _ || _ || _) with bad_name.
  destruct (existsb bad_name (names_of [] key)) eqn:Hb; [done|]. f_equal.
  unfold path_append. rewrite bool_decide_false.
  - apply resolve_names; [done| |done]. by intros ->.
  - rewrite Heq. pose proof (last_join rs Hrf Hrs) as Hl. rewrite last_app.
    destruct (last (join rs)) eqn:E; [done|]. by apply last_None in E.
Qed.

(** Keys made of good names. *)
Definition key_name (n : list Z) : Prop := plain_name n ∧ 92 ∉ n.

Lemma resolve_join root ns : plain_root root → Forall key_name ns → ns ≠ [] →
  ResolveSafePath root (join ns) = Some (root ++ slash :: join ns).
Proof.
  intros Hroot Hf Hne.
  assert (Hp : Forall plain_name ns) by (eapply Forall_impl; [exact Hf|by intros n [? _]]).
  rewrite resolve_spec, names_of_join by done.
  pose proof (head_join ns Hp Hne) as [Hh Hj].
  replace (bempty (join ns)) with false by (by destruct (join ns)).
  replace (is_absolute (join ns)) with false
    by (destruct (join ns) as [|c j]; [done|]; cbn in *; symmetry; apply Z.eqb_neq; congruence).
  replace (existsb bad_name ns) with false; [done|]. symmetry. apply not_true_iff_false.
  intros (n & Hn & Hbad)%existsb_exists. apply list_elem_of_In in Hn.
  pose proof (proj1 (list.Forall_forall _ _) Hf n Hn) as ((H1 & H2 & H3 & H4) & H5).
  unfold bad_name in Hbad. rewrite !bool_decide_false in Hbad by done.
  destruct n as [|c n]; [done|]. cbn [bempty orb] in Hbad.
  apply existsb_exists in Hbad as (x & Hx & ->%Z.eqb_eq). by apply H5, list_elem_of_In.
Qed.
