(* ===== verification/FileRepository.v ===== *)
(** * The tables of the file service

    Models [src/services/repository/FileRepository.h] and [FileRepository.cpp], the
    checks of [src/common/db/LogicalReferences.h] they use, and the tables of
    [src/db/migrations/009_create_file_domain.sql] and [010_create_file_upload_chunks.sql].

    MySQL executes the statements of the source: a statement reads or changes the rows
    its text says, keeps the unique keys, and counts the rows it changed (the connection
    does not ask for found rows).  It may fail at any time, without an effect.  Text is
    compared by the collation of the tables, which is a parameter ([weight]: texts with
    the same weight are equal to MySQL), as is the sum of a time and a day.  Identifiers
    come from counters that a rollback does not set back.  Rows come back as text, as in
    the client library.

    A method on a connection is a computation on the tables as the transaction sees
    them.  Values fit their columns. *)
From Stdlib Require Import ZArith Lia String.
From stdpp Require Import base list numbers gmap sorting.
From S2P Require Import Prelude ByteStrings FileTypes FileWorld.

Local Open Scope Z_scope.

(** ** Tables *)

Record FileRow := MkFileRow {
  fr_id : Z;
  fr_owner : Z;
  fr_name : list Z;
  fr_type : list Z;
  fr_size : Z;
  fr_algorithm : list Z;
  fr_expected : list Z;
  fr_verified : option (list Z);
  fr_backend : list Z;
  fr_key : option (list Z);
  fr_status : Z;
  fr_version : Z;
  fr_created : list Z;
  fr_updated : list Z;
  fr_available : option (list Z);
  fr_expires : option (list Z);
}.

Record SessionRow := MkSessionRow {
  sr_upload : Z;
  sr_file : Z;
  sr_owner : Z;
  sr_client : list Z;
  sr_fingerprint : list Z;
  sr_size : Z;
  sr_chunk : Z;
  sr_status : Z;
  sr_version : Z;
  sr_created : list Z;
  sr_updated : list Z;
  sr_expires : list Z;
  sr_completed : option (list Z);
}.

Record ChunkRow := MkChunkRow {
  cr_upload : Z;
  cr_index : Z;
  cr_file : Z;
  cr_owner : Z;
  cr_offset : Z;
  cr_size : Z;
  cr_algorithm : list Z;
  cr_checksum : list Z;
  cr_key : list Z;
  cr_status : Z;
  cr_version : Z;
  cr_created : list Z;
  cr_updated : list Z;
  cr_stored : option (list Z);
}.

Record Db := MkDb {
  files : gmap Z FileRow;                (* im_files *)
  sessions : gmap Z SessionRow;          (* im_file_upload_sessions *)
  chunks : gmap (Z * Z) ChunkRow;        (* im_file_upload_chunks *)
  users : gset Z;                        (* im_users *)
  next_file : Z;                         (* AUTO_INCREMENT *)
  next_upload : Z;
}.

Definition set_files (f : gmap Z FileRow → gmap Z FileRow) (d : Db) : Db :=
  MkDb (f (files d)) (sessions d) (chunks d) (users d) (next_file d) (next_upload d).
Definition set_sessions (f : gmap Z SessionRow → gmap Z SessionRow) (d : Db) : Db :=
  MkDb (files d) (f (sessions d)) (chunks d) (users d) (next_file d) (next_upload d).
Definition set_chunks (f : gmap (Z * Z) ChunkRow → gmap (Z * Z) ChunkRow) (d : Db) : Db :=
  MkDb (files d) (sessions d) (f (chunks d)) (users d) (next_file d) (next_upload d).
Definition set_next_file (n : Z) (d : Db) : Db :=
  MkDb (files d) (sessions d) (chunks d) (users d) n (next_upload d).
Definition set_next_upload (n : Z) (d : Db) : Db :=
  MkDb (files d) (sessions d) (chunks d) (users d) (next_file d) n.

(** ** Results *)

Inductive FileRepositoryStatus :=
| kRepoSucceeded | kRepoInvalidArgument | kRepoNotFound | kRepoInvalidRecord | kRepoStorageError.
#[export] Instance FileRepositoryStatus_eq_dec : EqDecision FileRepositoryStatus.
Proof. solve_decision. Defined.

Definition Succeeded (s : FileRepositoryStatus) : bool := bool_decide (s = kRepoSucceeded).

Record FileRecord := MkFileRecord {
  rec_file_id : Z;
  rec_file_owner : Z;
  rec_file_name : list Z;
  rec_content_type : list Z;
  rec_file_size : Z;
  rec_algorithm : list Z;
  rec_expected : list Z;
  rec_verified : list Z;
  rec_backend : list Z;
  rec_key : list Z;
  rec_file_status : Z;
  rec_file_version : Z;
  rec_file_created : list Z;
  rec_file_updated : list Z;
  rec_available : list Z;
  rec_file_expires : list Z;
}.

Record FileUploadSessionRecord := MkSessionRecord {
  rec_upload_id : Z;
  rec_session_file : Z;
  rec_session_owner : Z;
  rec_client : list Z;
  rec_fingerprint : list Z;
  rec_session_size : Z;
  rec_session_chunk : Z;
  rec_session_status : Z;
  rec_session_version : Z;
  rec_session_created : list Z;
  rec_session_updated : list Z;
  rec_session_expires : list Z;
  rec_completed : list Z;
}.

Record FileUploadBundleRecord := MkBundleRecord {
  rec_file : FileRecord;
  rec_session : FileUploadSessionRecord;
}.

Record FileUploadChunkRecord := MkChunkRecord {
  rec_chunk_upload : Z;
  rec_chunk_index : Z;
  rec_chunk_file : Z;
  rec_chunk_owner : Z;
  rec_chunk_offset : Z;
  rec_chunk_size : Z;
  rec_chunk_algorithm : list Z;
  rec_chunk_checksum : list Z;
  rec_chunk_key : list Z;
  rec_chunk_status : Z;
  rec_chunk_version : Z;
  rec_chunk_created : list Z;
  rec_chunk_updated : list Z;
  rec_chunk_stored : list Z;
}.

(** [FileFindResult], [FileUploadBundleFindResult], [FileUploadChunkFindResult]: [found]
    with [record] is an option.  The other results have their value in [q_value]. *)
Record RepoResult (A : Type) := MkRepo {
  q_status : FileRepositoryStatus;
  q_value : A;
  q_message : list Z;
}.
Arguments MkRepo {_} _ _ _.
Arguments q_status {_} _.
Arguments q_value {_} _.
Arguments q_message {_} _.

Definition FileFindResult := RepoResult (option FileRecord).
Definition FileUploadBundleFindResult := RepoResult (option FileUploadBundleRecord).
Definition FileUploadChunkFindResult := RepoResult (option FileUploadChunkRecord).
Definition FileUploadChunkListResult := RepoResult (list FileUploadChunkRecord).
Definition FileBooleanResult := RepoResult bool.
Definition FileInsertResult := RepoResult Z.                   (* file_id *)
Definition UploadSessionInsertResult := RepoResult (bool * Z). (* inserted, upload_id *)
Definition FileUploadChunkInsertResult := RepoResult bool.     (* inserted *)
Definition FileMutationResult := RepoResult Z.                 (* affected_rows *)

(** ** Rows as text *)

Definition Row : Type := list (list Z).
Definition col (row : Row) (i : nat) : list Z := nth i row [].
Definition ifnull (v : option (list Z)) : list Z := from_option Datatypes.id [] v.

(** The loop of [std::from_chars]: [None] on a character that is not a digit. *)
Fixpoint parse_digits (acc : Z) (text : list Z) : option Z :=
  match text with
  | [] => Some acc
  | c :: text =>
      if (48 <=? c) && (c <=? 57) then parse_digits (10 * acc + (c - 48)) text else None
  end.

Definition ParseU64 (text : list Z) : option Z :=
  if bempty text then None
  else match parse_digits 0 text with
       | Some v => if v <? 2 ^ 64 then Some v else None
       | None => None
       end.
Definition ParseU32 (text : list Z) : option Z :=
  match ParseU64 text with
  | Some v => if v <? 2 ^ 32 then Some v else None
  | None => None
  end.

(** The columns of the statements. *)
Definition file_columns (r : FileRow) : Row :=
  [to_string (fr_id r); to_string (fr_owner r); fr_name r; fr_type r; to_string (fr_size r);
   fr_algorithm r; fr_expected r; ifnull (fr_verified r); fr_backend r; ifnull (fr_key r);
   to_string (fr_status r); to_string (fr_version r); fr_created r; fr_updated r;
   ifnull (fr_available r); ifnull (fr_expires r)].
Definition session_columns (r : SessionRow) : Row :=
  [to_string (sr_upload r); to_string (sr_file r); to_string (sr_owner r); sr_client r;
   sr_fingerprint r; to_string (sr_size r); to_string (sr_chunk r); to_string (sr_status r);
   to_string (sr_version r); sr_created r; sr_updated r; sr_expires r; ifnull (sr_completed r)].
Definition chunk_columns (r : ChunkRow) : Row :=
  [to_string (cr_upload r); to_string (cr_index r); to_string (cr_file r); to_string (cr_owner r);
   to_string (cr_offset r); to_string (cr_size r); cr_algorithm r; cr_checksum r; cr_key r;
   to_string (cr_status r); to_string (cr_version r); cr_created r; cr_updated r;
   ifnull (cr_stored r)].

(** [BundleSelectPrefix]: the join of a session with its file. *)
Definition bundle_columns (f : FileRow) (s : SessionRow) : Row :=
  file_columns f ++ session_columns s ++ [to_string (fr_owner f); to_string (fr_size f)].

(** The record of a row of sixteen columns of a file. *)
Definition file_fields (row : Row) : option FileRecord :=
  id ← ParseU64 (col row 0); owner ← ParseU64 (col row 1); size ← ParseU64 (col row 4);
  status ← ParseU32 (col row 10); version ← ParseU64 (col row 11);
  Some (MkFileRecord id owner (col row 2) (col row 3) size (col row 5) (col row 6) (col row 7)
          (col row 8) (col row 9) status version (col row 12) (col row 13) (col row 14) (col row 15)).

Definition session_fields (row : Row) : option FileUploadSessionRecord :=
  upload ← ParseU64 (col row 16); file ← ParseU64 (col row 17); owner ← ParseU64 (col row 18);
  size ← ParseU64 (col row 21); chunk ← ParseU64 (col row 22); status ← ParseU32 (col row 23);
  version ← ParseU64 (col row 24);
  Some (MkSessionRecord upload file owner (col row 19) (col row 20) size chunk status version
          (col row 25) (col row 26) (col row 27) (col row 28)).

Definition invalid_record {A} (message : list Z) : RepoResult (option A) :=
  MkRepo kRepoInvalidRecord None message.

Definition ParseFileResult (rows : list Row) : FileFindResult :=
  match rows with
  | [] => MkRepo kRepoSucceeded None (str "file not found")
  | [row] =>
      if negb (length row =? 16)%nat then invalid_record (str "file query returned invalid shape")
      else match file_fields row with
      | None => invalid_record (str "file query contains invalid numeric fields")
      | Some file =>
          if (rec_file_id file =? 0) || (rec_file_owner file =? 0) || (rec_file_size file =? 0) ||
             (rec_file_status file <? 1) || (7 <? rec_file_status file)
          then invalid_record (str "file query violates durable invariants")
          else MkRepo kRepoSucceeded (Some file) (str "file found")
      end
  | _ => invalid_record (str "file query returned invalid shape")
  end.

Definition ParseBundleResult (rows : list Row) : FileUploadBundleFindResult :=
  match rows with
  | [] => MkRepo kRepoSucceeded None (str "file upload bundle not found")
  | [row] =>
      if negb (length row =? 31)%nat
      then invalid_record (str "file upload bundle query returned invalid shape")
      else match file_fields row, session_fields row with
      | Some file, Some session =>
          match ParseU64 (col row 29), ParseU64 (col row 30) with
          | Some owner, Some size =>
              if (rec_file_id file =? 0) || (rec_upload_id session =? 0) ||
                 negb (rec_file_id file =? rec_session_file session) ||
                 negb (rec_file_owner file =? rec_session_owner session) ||
                 negb (rec_file_owner file =? owner) ||
                 negb (rec_file_size file =? rec_session_size session) ||
                 negb (rec_file_size file =? size)
              then invalid_record (str "file/upload durable invariants are inconsistent")
              else MkRepo kRepoSucceeded (Some (MkBundleRecord file session))
                     (str "file upload bundle found")
          | _, _ => invalid_record (str "file/upload durable invariants are inconsistent")
          end
      | _, _ => invalid_record (str "file upload bundle contains invalid numeric fields")
      end
  | _ => invalid_record (str "file upload bundle query returned invalid shape")
  end.

Definition chunk_fields (row : Row) : option FileUploadChunkRecord :=
  upload ← ParseU64 (col row 0); index ← ParseU64 (col row 1); file ← ParseU64 (col row 2);
  owner ← ParseU64 (col row 3); offset ← ParseU64 (col row 4); size ← ParseU64 (col row 5);
  status ← ParseU32 (col row 9); version ← ParseU64 (col row 10);
  Some (MkChunkRecord upload index file owner offset size (col row 6) (col row 7) (col row 8)
          status version (col row 11) (col row 12) (col row 13)).

Definition ParseChunkResult (rows : list Row) : FileUploadChunkFindResult :=
  match rows with
  | [] => MkRepo kRepoSucceeded None (str "file upload chunk not found")
  | [row] =>
      if negb (length row =? 14)%nat
      then invalid_record (str "file upload chunk query returned invalid shape")
      else match chunk_fields row with
      | None => invalid_record (str "file upload chunk contains invalid numeric fields")
      | Some chunk =>
          if (rec_chunk_upload chunk =? 0) || (rec_chunk_file chunk =? 0) ||
             (rec_chunk_owner chunk =? 0) || (rec_chunk_size chunk =? 0) ||
             negb (bool_decide (rec_chunk_algorithm chunk = str "sha256")) ||
             negb (bsize (rec_chunk_checksum chunk) =? 64) || bempty (rec_chunk_key chunk) ||
             (negb (rec_chunk_status chunk =? 1) && negb (rec_chunk_status chunk =? 2))
          then invalid_record (str "file upload chunk violates durable invariants")
          else MkRepo kRepoSucceeded (Some chunk) (str "file upload chunk found")
      end
  | _ => invalid_record (str "file upload chunk query returned invalid shape")
  end.

(** The order of the chunks of an upload. *)
Definition index_le (c c' : ChunkRow) : Prop := cr_index c ≤ cr_index c'.
#[export] Instance index_le_dec : RelDecision index_le.
Proof. unfold index_le. solve_decision. Defined.

(** ** Statements *)

(** A computation inside a transaction: the tables it sees and the number of the next
    call. *)
Definition Tx (A : Type) : Type := Db * nat → (Db * nat) * A.
#[export] Instance tx_ret : MRet Tx := λ A a s, (s, a).
#[export] Instance tx_bind : MBind Tx := λ A B f e s, let '(s, a) := e s in f a s.

(** [version + 1]; out of range is an error of the statement. *)
Definition next_version (v : Z) : option Z := if v <? 2 ^ 64 - 1 then Some (v + 1) else None.

Section Repository.
Context (moment : nat → Moment Db).
Context (weight : list Z → list Z) (add_day : list Z → list Z).

(** [Query] and [Execute]: the error, or what the statement returned. *)
Definition Query {A} (select : Db → A) : Tx (list Z + A) := λ '(d, n),
  let m := moment n in
  ((d, S n), if fails m then inl (error_text m) else inr (select d)).
Definition Execute {A} (statement : Moment Db → Db → option (Db * A)) : Tx (list Z + A) := λ '(d, n),
  let m := moment n in
  if fails m then ((d, S n), inl (error_text m))
  else match statement m d with
       | Some (d', a) => ((d', S n), inr a)
       | None => ((d, S n), inl (error_text m))
       end.

Definition failed {A} (value : A) (text error : list Z) : RepoResult A :=
  MkRepo kRepoStorageError value (text ++ error).
Definition invalid_arguments {A} (value : A) (name : list Z) : RepoResult A :=
  MkRepo kRepoInvalidArgument value (str "invalid " ++ name ++ str " arguments").

(** [CheckReferences] for the references of the file service, all in one statement. *)
Inductive LogicalReference := RefUser (id : Z) | RefFile (id owner : Z) | RefUpload (id file : Z).
Definition reference_valid (r : LogicalReference) : bool :=
  match r with
  | RefUser id => negb (id =? 0)
  | RefFile id o | RefUpload id o => negb (id =? 0) && negb (o =? 0)
  end.
Definition reference_exists (d : Db) (r : LogicalReference) : bool :=
  match r with
  | RefUser id => bool_decide (id ∈ users d)
  | RefFile id owner =>
      match files d !! id with Some f => fr_owner f =? owner | None => false end
  | RefUpload id file =>
      match sessions d !! id with Some s => sr_file s =? file | None => false end
  end.
Definition ReferencesExist (refs : list LogicalReference) : Tx bool :=
  if negb (forallb reference_valid refs) then mret false
  else
    r ← Query (λ d, forallb (reference_exists d) refs);
    mret (match r with inr present => present | inl _ => false end).

Definition UserExistsOnConnection (user_id : Z) : Tx FileBooleanResult :=
  if user_id =? 0 then mret (invalid_arguments false (str "UserExistsOnConnection"))
  else
    r ← Query (λ d, bool_decide (user_id ∈ users d));
    mret (match r with
          | inl e => failed false (str "UserExistsOnConnection query failed: ") e
          | inr v => MkRepo kRepoSucceeded v (if v : bool then str "user exists" else str "user not found")
          end).

Definition missing_reference {A} (value : A) : RepoResult A :=
  MkRepo kRepoStorageError value (str "logical reference missing or storage unavailable").

Definition insert_file (owner : Z) (name type : list Z) (size : Z) (expected : list Z)
    (m : Moment Db) (d : Db) : option (Db * Z) :=
  let id := next_file d in
  if 2 ^ 64 <=? id then None
  else Some (set_files <[id := MkFileRow id owner name type size (str "sha256") expected None
                               (str "local_fs") None 1 1 (now m) (now m) None None]>
               (set_next_file (id + 1) d), id).

Definition InsertFileOnConnection (owner : Z) (name type : list Z) (size : Z)
    (algorithm expected : list Z) : Tx FileInsertResult :=
  if (owner =? 0) || bempty name || bempty type || (size =? 0) ||
     negb (bool_decide (algorithm = str "sha256")) || negb (bsize expected =? 64)
  then mret (invalid_arguments 0 (str "InsertFileOnConnection"))
  else
    present ← ReferencesExist [RefUser owner];
    if negb present then mret (missing_reference 0)
    else
      r ← Execute (insert_file owner name type size expected);
      mret (match r with
            | inl e => failed 0 (str "insert file failed: ") e
            | inr id =>
                if id =? 0 then MkRepo kRepoInvalidRecord 0 (str "insert file returned zero file_id")
                else MkRepo kRepoSucceeded id (str "file metadata inserted")
            end).

(** An update of a file row: the new row and whether it differs. *)
Definition update_file (id : Z) (where_ : FileRow → bool) (set : FileRow → option (FileRow * bool))
    (d : Db) : option (Db * Z) :=
  match files d !! id with
  | Some r =>
      if where_ r then
        match set r with
        | None => None
        | Some (r', changed) =>
            if changed : bool then Some (set_files <[id := r']> d, 1) else Some (d, 0)
        end
      else Some (d, 0)
  | None => Some (d, 0)
  end.
Definition update_session (id : Z) (where_ : SessionRow → bool) (set : SessionRow → option SessionRow)
    (d : Db) : option (Db * Z) :=
  match sessions d !! id with
  | Some r =>
      if where_ r then
        match set r with
        | None => None
        | Some r' => Some (set_sessions <[id := r']> d, 1)
        end
      else Some (d, 0)
  | None => Some (d, 0)
  end.

(** The key is unique among the files of a backend. *)
Definition storage_key_taken (d : Db) (id : Z) (backend key : list Z) : bool :=
  existsb (λ '(id', f),
    negb (id' =? id) && bool_decide (weight (fr_backend f) = weight backend) &&
    match fr_key f with Some key' => bool_decide (weight key' = weight key) | None => false end)
    (map_to_list (files d)).

Definition set_storage_key (id : Z) (key : list Z) (m : Moment Db) (d : Db) : option (Db * Z) :=
  update_file id (λ r, fr_status r =? 1)
    (λ r, if storage_key_taken d id (fr_backend r) key then None
          else Some (MkFileRow (fr_id r) (fr_owner r) (fr_name r) (fr_type r) (fr_size r)
                       (fr_algorithm r) (fr_expected r) (fr_verified r) (fr_backend r) (Some key)
                       (fr_status r) (fr_version r) (fr_created r) (now m) (fr_available r)
                       (fr_expires r), negb (bool_decide (fr_key r = Some key)))) d.

Definition SetStorageKeyOnConnection (file_id : Z) (storage_key : list Z) : Tx FileMutationResult :=
  if (file_id =? 0) || bempty storage_key
  then mret (invalid_arguments 0 (str "SetStorageKeyOnConnection"))
  else
    r ← Execute (set_storage_key file_id storage_key);
    mret (match r with
          | inl e => failed 0 (str "set storage key failed: ") e
          | inr n =>
              if negb (n =? 1)
              then MkRepo kRepoInvalidRecord n (str "set storage key affected unexpected row count")
              else MkRepo kRepoSucceeded n (str "storage key set")
          end).

(** The session of a user with this client identifier; the one of a file. *)
Definition client_session (d : Db) (owner : Z) (client : list Z) : option SessionRow :=
  snd <$> List.find (λ '(_, s), (sr_owner s =? owner) &&
                                bool_decide (weight (sr_client s) = weight client))
            (map_to_list (sessions d)).
Definition file_session (d : Db) (file : Z) : option SessionRow :=
  snd <$> List.find (λ '(_, s), sr_file s =? file) (map_to_list (sessions d)).

(** [INSERT ... ON DUPLICATE KEY UPDATE upload_id = LAST_INSERT_ID(upload_id)]: whether a
    row was inserted, and the identifier. *)
Definition insert_session (file owner : Z) (client fp : list Z) (size chunk : Z) (m : Moment Db)
    (d : Db) : option (Db * (bool * Z)) :=
  let id := next_upload d in
  if 2 ^ 64 <=? id then None
  else
    let d := set_next_upload (id + 1) d in
    match client_session d owner client with
    | Some s => Some (d, (false, sr_upload s))
    | None =>
        match file_session d file with
        | Some s => Some (d, (false, sr_upload s))
        | None =>
            Some (set_sessions <[id := MkSessionRow id file owner client fp size chunk 1 1 (now m)
                                         (now m) (add_day (now m)) None]> d, (true, id))
        end
    end.

Definition InsertUploadSessionIdempotentOnConnection (file owner : Z) (client fp : list Z)
    (size chunk : Z) : Tx UploadSessionInsertResult :=
  if (file =? 0) || (owner =? 0) || bempty client || negb (bsize fp =? 64) || (size =? 0) ||
     (chunk =? 0)
  then mret (invalid_arguments (false, 0) (str "InsertUploadSessionIdempotentOnConnection"))
  else
    present ← ReferencesExist [RefFile file owner; RefUser owner];
    if negb present then mret (missing_reference (false, 0))
    else
      r ← Execute (insert_session file owner client fp size chunk);
      mret (match r with
            | inl e => failed (false, 0) (str "insert upload session failed: ") e
            | inr (inserted, id) =>
                if id =? 0
                then MkRepo kRepoInvalidRecord (inserted, id)
                       (str "insert upload session returned zero upload_id")
                else MkRepo kRepoSucceeded (inserted, id)
                       (if inserted : bool then str "upload session inserted"
                        else str "upload session already exists")
            end).

(** The row of the join, if the file exists. *)
Definition joined (d : Db) (s : option SessionRow) : list Row :=
  match s with
  | Some s => match files d !! sr_file s with Some f => [bundle_columns f s] | None => [] end
  | None => []
  end.

Definition FindByClientUploadIdOnConnection (owner : Z) (client : list Z)
  : Tx FileUploadBundleFindResult :=
  if (owner =? 0) || bempty client
  then mret (invalid_arguments None (str "FindByClientUploadIdOnConnection"))
  else
    r ← Query (λ d, joined d (client_session d owner client));
    mret (match r with
          | inl e => failed None (str "FindByClientUploadIdOnConnection query failed: ") e
          | inr rows => ParseBundleResult rows
          end).

(** The session with this identifier if it is the user's. *)
Definition owned_session (d : Db) (owner upload : Z) : option SessionRow :=
  match sessions d !! upload with
  | Some s => if sr_owner s =? owner then Some s else None
  | None => None
  end.

Definition FindUploadBundleOnConnection (owner upload : Z) : Tx FileUploadBundleFindResult :=
  if (owner =? 0) || (upload =? 0)
  then mret (invalid_arguments None (str "FindUploadBundleOnConnection"))
  else
    r ← Query (λ d, joined d (owned_session d owner upload));
    mret (match r with
          | inl e => failed None (str "FindUploadBundleOnConnection query failed: ") e
          | inr rows => ParseBundleResult rows
          end).

(** The key of a part is unique. *)
Definition part_key_taken (d : Db) (key : list Z) : bool :=
  existsb (λ '(_, c), bool_decide (weight (cr_key c) = weight key)) (map_to_list (chunks d)).

Definition insert_chunk (upload index file owner offset size : Z) (checksum key : list Z)
    (m : Moment Db) (d : Db) : option (Db * bool) :=
  match chunks d !! (upload, index) with
  | Some _ => Some (d, false)
  | None =>
      if part_key_taken d key then Some (d, false)
      else Some (set_chunks <[(upload, index) := MkChunkRow upload index file owner offset size
                   (str "sha256") checksum key 1 1 (now m) (now m) None]> d, true)
  end.

Definition InsertChunkIdempotentOnConnection (upload index file owner offset size : Z)
    (algorithm checksum key : list Z) : Tx FileUploadChunkInsertResult :=
  if (upload =? 0) || (file =? 0) || (owner =? 0) || (size =? 0) ||
     negb (bool_decide (algorithm = str "sha256")) || negb (bsize checksum =? 64) || bempty key
  then mret (invalid_arguments false (str "InsertChunkIdempotentOnConnection"))
  else
    present ← ReferencesExist [RefUpload upload file; RefFile file owner; RefUser owner];
    if negb present then mret (missing_reference false)
    else
      r ← Execute (insert_chunk upload index file owner offset size checksum key);
      mret (match r with
            | inl e => failed false (str "insert upload chunk failed: ") e
            | inr inserted =>
                MkRepo kRepoSucceeded inserted
                  (if inserted : bool then str "upload chunk reserved"
                   else str "upload chunk already reserved")
            end).

Definition owned_chunk (d : Db) (owner upload index : Z) : list Row :=
  match chunks d !! (upload, index) with
  | Some c => if cr_owner c =? owner then [chunk_columns c] else []
  | None => []
  end.

Definition FindChunkOnConnection (owner upload index : Z) : Tx FileUploadChunkFindResult :=
  if (owner =? 0) || (upload =? 0) then mret (invalid_arguments None (str "FindChunkOnConnection"))
  else
    r ← Query (λ d, owned_chunk d owner upload index);
    mret (match r with
          | inl e => failed None (str "FindChunkOnConnection query failed: ") e
          | inr rows => ParseChunkResult rows
          end).

(** The chunks of an upload, [ORDER BY chunk_index]. *)
Definition upload_chunks (d : Db) (owner upload : Z) : list ChunkRow :=
  merge_sort index_le
    (filter (λ c, cr_upload c = upload ∧ cr_owner c = owner) ((map_to_list (chunks d)).*2)).

(** The loop of [FindChunksOnConnection]. *)
Fixpoint ParseChunks (rows : list Row) : FileUploadChunkListResult :=
  match rows with
  | [] => MkRepo kRepoSucceeded [] (str "file upload chunks listed")
  | row :: rows =>
      let parsed := ParseChunkResult [row] in
      match Succeeded (q_status parsed), q_value parsed with
      | true, Some record =>
          match ParseChunks rows with
          | MkRepo kRepoSucceeded records message =>
              MkRepo kRepoSucceeded (record :: records) message
          | failure => failure
          end
      | _, _ => MkRepo (q_status parsed) [] (q_message parsed)
      end
  end.

Definition FindChunksOnConnection (owner upload : Z) : Tx FileUploadChunkListResult :=
  if (owner =? 0) || (upload =? 0) then mret (invalid_arguments [] (str "FindChunksOnConnection"))
  else
    r ← Query (λ d, chunk_columns <$> upload_chunks d owner upload);
    mret (match r with
          | inl e => failed [] (str "FindChunksOnConnection query failed: ") e
          | inr rows => ParseChunks rows
          end).

Definition mark_chunk (owner upload index size : Z) (checksum : list Z) (m : Moment Db) (d : Db)
  : option (Db * Z) :=
  match chunks d !! (upload, index) with
  | Some c =>
      if (cr_owner c =? owner) && (cr_size c =? size) &&
         bool_decide (weight (cr_checksum c) = weight checksum) && (cr_status c =? 1)
      then match next_version (cr_version c) with
           | None => None
           | Some v =>
               Some (set_chunks <[(upload, index) :=
                       MkChunkRow (cr_upload c) (cr_index c) (cr_file c) (cr_owner c) (cr_offset c)
                         (cr_size c) (cr_algorithm c) (cr_checksum c) (cr_key c) 2 v (cr_created c)
                         (now m) (Some (default (now m) (cr_stored c)))]> d, 1)
           end
      else Some (d, 0)
  | None => Some (d, 0)
  end.

Definition MarkChunkStoredOnConnection (owner upload index size : Z) (checksum : list Z)
  : Tx FileMutationResult :=
  if (owner =? 0) || (upload =? 0) || (size =? 0) || negb (bsize checksum =? 64)
  then mret (invalid_arguments 0 (str "MarkChunkStoredOnConnection"))
  else
    r ← Execute (mark_chunk owner upload index size checksum);
    mret (match r with
          | inl e => failed 0 (str "mark upload chunk stored failed: ") e
          | inr n =>
              if 1 <? n
              then MkRepo kRepoInvalidRecord n
                     (str "mark upload chunk stored affected unexpected row count")
              else MkRepo kRepoSucceeded n
                     (if n =? 1 then str "upload chunk marked stored"
                      else str "upload chunk already stored")
          end).

(** [status] and [version] of a session or a file. *)
Definition session_to (status : Z) (completed : SessionRow → option (list Z)) (m : Moment Db)
    (r : SessionRow) : option SessionRow :=
  match next_version (sr_version r) with
  | None => None
  | Some v =>
      Some (MkSessionRow (sr_upload r) (sr_file r) (sr_owner r) (sr_client r) (sr_fingerprint r)
              (sr_size r) (sr_chunk r) status v (sr_created r) (now m) (sr_expires r) (completed r))
  end.
Definition file_to (status : Z) (verified available : FileRow → option (list Z)) (m : Moment Db)
    (r : FileRow) : option (FileRow * bool) :=
  match next_version (fr_version r) with
  | None => None
  | Some v =>
      Some (MkFileRow (fr_id r) (fr_owner r) (fr_name r) (fr_type r) (fr_size r) (fr_algorithm r)
              (fr_expected r) (verified r) (fr_backend r) (fr_key r) status v (fr_created r) (now m)
              (available r) (fr_expires r), true)
  end.

(** An update that has to change one row; [next] runs after it. *)
Definition exactly_one (update : Moment Db → Db → option (Db * Z)) (what : list Z)
    (next : Tx FileMutationResult) : Tx FileMutationResult :=
  r ← Execute update;
  match r with
  | inl e => mret (failed 0 (what ++ str " failed: ") e)
  | inr n =>
      if negb (n =? 1)
      then mret (MkRepo kRepoInvalidRecord 0 (what ++ str " affected unexpected row count"))
      else next
  end.

Definition BeginFinalizeOnConnection (owner upload file : Z) : Tx FileMutationResult :=
  if (owner =? 0) || (upload =? 0) || (file =? 0)
  then mret (invalid_arguments 0 (str "BeginFinalizeOnConnection"))
  else
    exactly_one (λ m, update_session upload (λ r, (sr_owner r =? owner) && (sr_status r =? 1))
                        (session_to 2 sr_completed m)) (str "begin finalize session")
    (exactly_one (λ m, update_file file (λ r, (fr_owner r =? owner) && (fr_status r =? 1))
                         (file_to 2 fr_verified fr_available m)) (str "begin finalize file")
      (mret (MkRepo kRepoSucceeded 2 (str "upload entered FINALIZING/VERIFYING")))).

Definition CompleteFinalizeOnConnection (owner upload file : Z) (checksum : list Z)
  : Tx FileMutationResult :=
  if (owner =? 0) || (upload =? 0) || (file =? 0) || negb (bsize checksum =? 64)
  then mret (invalid_arguments 0 (str "CompleteFinalizeOnConnection"))
  else
    exactly_one (λ m, update_file file
                        (λ r, (fr_owner r =? owner) && (fr_status r =? 2) &&
                              bool_decide (weight (fr_expected r) = weight checksum))
                        (file_to 3 (λ _, Some checksum)
                           (λ r, Some (default (now m) (fr_available r))) m))
      (str "complete finalize file")
    (exactly_one (λ m, update_session upload (λ r, (sr_owner r =? owner) && (sr_status r =? 2))
                         (session_to 3 (λ r, Some (default (now m) (sr_completed r))) m))
       (str "complete finalize session")
      (mret (MkRepo kRepoSucceeded 2 (str "upload completed and file marked AVAILABLE")))).

Definition FailFinalizeChecksumOnConnection (owner file : Z) (checksum : list Z)
  : Tx FileMutationResult :=
  if (owner =? 0) || (file =? 0) || negb (bsize checksum =? 64)
  then mret (invalid_arguments 0 (str "FailFinalizeChecksumOnConnection"))
  else
    r ← Execute (λ m, update_file file (λ r, (fr_owner r =? owner) && (fr_status r =? 2))
                        (file_to 4 (λ _, Some checksum) fr_available m));
    mret (match r with
          | inl e => failed 0 (str "mark finalize checksum failure failed: ") e
          | inr n =>
              if negb (n =? 1)
              then MkRepo kRepoInvalidRecord n
                     (str "mark finalize checksum failure affected unexpected row count")
              else MkRepo kRepoSucceeded n (str "whole-file checksum mismatch recorded")
          end).

Definition CancelUploadOnConnection (owner upload file : Z) : Tx FileMutationResult :=
  if (owner =? 0) || (upload =? 0) || (file =? 0)
  then mret (invalid_arguments 0 (str "CancelUploadOnConnection"))
  else
    exactly_one (λ m, update_session upload (λ r, (sr_owner r =? owner) && (sr_status r =? 1))
                        (session_to 4 sr_completed m)) (str "cancel upload session")
    (exactly_one (λ m, update_file file (λ r, (fr_owner r =? owner) && (fr_status r =? 1))
                         (file_to 5 fr_verified fr_available m)) (str "cancel file metadata")
      (mret (MkRepo kRepoSucceeded 2 (str "upload and file metadata canceled")))).

(** ** Methods with a connection of their own *)

(** A computation on a connection from the pool, without a transaction: it only reads. *)
Definition WithConnection {A} (no_connection : A) (body : Tx A) : IO Db A :=
  m ← tick moment;
  if fails m then mret no_connection
  else λ w,
    let '((_, n), a) := body (tables (shared w), ticks w) in
    (MkWorld (shared w) n, a).

Definition acquire_failed {A} (name : list Z) : RepoResult (option A) :=
  MkRepo kRepoStorageError None (name ++ str " failed to acquire connection").

Definition FindByClientUploadId (owner : Z) (client : list Z) : IO Db FileUploadBundleFindResult :=
  if (owner =? 0) || bempty client
  then mret (invalid_arguments None (str "FindByClientUploadId"))
  else WithConnection (acquire_failed (str "FindByClientUploadId"))
         (FindByClientUploadIdOnConnection owner client).

Definition FindUploadBundle (owner upload : Z) : IO Db FileUploadBundleFindResult :=
  if (owner =? 0) || (upload =? 0) then mret (invalid_arguments None (str "FindUploadBundle"))
  else WithConnection (acquire_failed (str "FindUploadBundle"))
         (FindUploadBundleOnConnection owner upload).

Definition FindChunk (owner upload index : Z) : IO Db FileUploadChunkFindResult :=
  if (owner =? 0) || (upload =? 0) then mret (invalid_arguments None (str "FindChunk"))
  else WithConnection (acquire_failed (str "FindChunk"))
         (FindChunkOnConnection owner upload index).

Definition FindChunks (owner upload : Z) : IO Db FileUploadChunkListResult :=
  if (owner =? 0) || (upload =? 0) then mret (invalid_arguments [] (str "FindChunks"))
  else WithConnection (MkRepo kRepoStorageError [] (str "FindChunks failed to acquire connection"))
         (FindChunksOnConnection owner upload).

Definition FindFileById (owner file : Z) : IO Db FileFindResult :=
  if (owner =? 0) || (file =? 0) then mret (invalid_arguments None (str "FindFileById"))
  else WithConnection (acquire_failed (str "FindFileById"))
    (r ← Query (λ d, match files d !! file with
                     | Some f => if fr_owner f =? owner then [file_columns f] else []
                     | None => []
                     end);
     mret (match r with
           | inl e => failed None (str "FindFileById query failed: ") e
           | inr rows => ParseFileResult rows
           end)).

End Repository.
