(* ===== verification/FileRepositoryAdapter.v ===== *)
(** * The repository of the file service

    Models [src/services/file/repository/FileRepositoryAdapter.h] and
    [FileRepositoryAdapter.cpp]: the operations of [FileRepositoryPort], each one
    transaction on the tables of [FileRepository], with what is read again when the
    outcome of a commit is unknown.

    The rows an operation works on are locked from its first statement on, so the
    others act before a transaction and after it.  A commit that reports an error may
    have been carried out or not ([CommitOutcome]); a transaction that is given up
    leaves nothing behind but the identifiers it drew. *)
From Stdlib Require Import ZArith Lia String.
From stdpp Require Import base list numbers gmap.
From S2P Require Import Prelude ByteStrings FileTypes FileWorld FileRepository.

Local Open Scope Z_scope.

(** ** Views of records *)

Definition MapStorageStatus (s : FileRepositoryStatus) : FileApplicationStatus :=
  match s with
  | kRepoSucceeded => kSucceeded
  | kRepoInvalidArgument => kInvalidArgument
  | kRepoNotFound => kNotFound
  | kRepoInvalidRecord => kInvalidRecord
  | kRepoStorageError => kStorageError
  end.

Definition MapFileStatus (s : Z) : option FileStatus :=
  match s with
  | 1 => Some kUploading | 2 => Some kVerifying | 3 => Some kAvailable | 4 => Some kFailed
  | 5 => Some kFileCanceled | 6 => Some kFileExpired | 7 => Some kDeleted | _ => None
  end.
Definition MapUploadStatus (s : Z) : option UploadSessionStatus :=
  match s with
  | 1 => Some kActive | 2 => Some kFinalizing | 3 => Some kCompleted | 4 => Some kSessionCanceled
  | 5 => Some kSessionExpired | _ => None
  end.
Definition MapChunkStatus (s : Z) : option UploadChunkStatus :=
  match s with 1 => Some kReserved | 2 => Some kStored | _ => None end.

(** The fields of a file view. *)
Definition file_view (r : FileRecord) (status : FileStatus) : FileView :=
  MkFile (rec_file_id r) (rec_file_owner r) (rec_file_name r) (rec_content_type r) (rec_file_size r)
    (rec_algorithm r) (rec_expected r) (rec_verified r) (rec_backend r) (rec_key r) status
    (rec_file_version r) (rec_file_created r) (rec_file_updated r) (rec_available r)
    (rec_file_expires r).

Definition ToFileView (r : FileRecord) : option FileView :=
  match MapFileStatus (rec_file_status r) with
  | None => None
  | Some status =>
      if (rec_file_id r =? 0) || (rec_file_owner r =? 0) || (rec_file_size r =? 0) then None
      else Some (file_view r status)
  end.

Definition ToChunkView (r : FileUploadChunkRecord) : option UploadChunkView :=
  match MapChunkStatus (rec_chunk_status r) with
  | None => None
  | Some status =>
      if (rec_chunk_upload r =? 0) || (rec_chunk_file r =? 0) || (rec_chunk_owner r =? 0) ||
         (rec_chunk_size r =? 0) || negb (bool_decide (rec_chunk_algorithm r = str "sha256")) ||
         negb (bsize (rec_chunk_checksum r) =? 64) || bempty (rec_chunk_key r)
      then None
      else Some (MkChunk (rec_chunk_upload r) (rec_chunk_index r) (rec_chunk_file r)
                   (rec_chunk_owner r) (rec_chunk_offset r) (rec_chunk_size r)
                   (rec_chunk_algorithm r) (rec_chunk_checksum r) (rec_chunk_key r) status
                   (rec_chunk_version r) (rec_chunk_created r) (rec_chunk_updated r)
                   (rec_chunk_stored r))
  end.

Definition ToView (r : FileUploadBundleRecord) : option UploadBundleView :=
  let f := rec_file r in
  let s := rec_session r in
  match MapFileStatus (rec_file_status f), MapUploadStatus (rec_session_status s) with
  | Some file_status, Some upload_status =>
      if (rec_file_id f =? 0) || (rec_upload_id s =? 0) ||
         negb (rec_file_id f =? rec_session_file s) ||
         negb (rec_file_owner f =? rec_session_owner s) ||
         negb (rec_file_size f =? rec_session_size s)
      then None
      else Some (MkBundle (file_view f file_status)
                   (MkSession (rec_upload_id s) (rec_session_file s) (rec_session_owner s)
                      (rec_client s) (rec_session_size s) (rec_session_chunk s) upload_status
                      (rec_session_version s) (rec_session_created s) (rec_session_updated s)
                      (rec_session_expires s) (rec_completed s)))
  | _, _ => None
  end.

(** The loop of [ToSnapshot]. *)
Fixpoint SnapshotChunks (bundle : UploadBundleView) (records : list FileUploadChunkRecord)
  : option (list UploadChunkView) :=
  match records with
  | [] => Some []
  | r :: records =>
      match ToChunkView r with
      | None => None
      | Some chunk =>
          if negb (chunk_upload chunk =? upload_id (bundle_session bundle)) ||
             negb (chunk_file chunk =? file_id (bundle_file bundle)) ||
             negb (chunk_owner chunk =? file_owner (bundle_file bundle))
          then None
          else match SnapshotChunks bundle records with
               | None => None
               | Some chunks => Some (chunk :: chunks)
               end
      end
  end.
Definition ToSnapshot (r : FileUploadBundleRecord) (records : list FileUploadChunkRecord)
  : option UploadSnapshotView :=
  match ToView r with
  | None => None
  | Some bundle =>
      match SnapshotChunks bundle records with
      | None => None
      | Some chunks => Some (MkSnapshot bundle chunks)
      end
  end.

(** The loop of [ManifestReadyForFinalize] from [index] on. *)
Fixpoint ManifestLoop (session : UploadSessionView) (index : Z) (cs : list UploadChunkView) : bool :=
  match cs with
  | [] => true
  | c :: cs =>
      let offset := u64 (index * session_chunk session) in
      let size := Z.min (session_chunk session) (u64 (session_size session - offset)) in
      if negb (chunk_index c =? index) || negb (byte_offset c =? offset) ||
         negb (chunk_size c =? size) || negb (bool_decide (chunk_status c = kStored))
      then false
      else ManifestLoop session (index + 1) cs
  end.
Definition ManifestReadyForFinalize (s : UploadSnapshotView) : bool :=
  let session := bundle_session (snapshot_bundle s) in
  let file := bundle_file (snapshot_bundle s) in
  if (session_size session =? 0) || (session_chunk session =? 0) ||
     negb (session_size session =? file_size file)
  then false
  else
    let expected_count := u64 (1 + (session_size session - 1) `div` session_chunk session) in
    if negb (Z.of_nat (length (snapshot_chunks s)) =? expected_count) then false
    else ManifestLoop session 0 (snapshot_chunks s).

(** ** Keys and fingerprints *)

Definition AppendField (value : list Z) : list Z :=
  to_string (bsize value) ++ str ":" ++ value ++ str "|".

Definition canonical (c : BeginUploadCommand) : list Z :=
  str "begin_upload|" ++ to_string (begin_actor c) ++ str "|" ++ AppendField (begin_name c) ++
  AppendField (begin_type c) ++ to_string (begin_size c) ++ str "|" ++
  AppendField (begin_algorithm c) ++ AppendField (begin_checksum c) ++ to_string (begin_chunk c).

Definition BuildStorageKey (file : Z) : list Z := str "files/" ++ to_string file.
Definition BuildStoragePartKey (upload index : Z) : list Z :=
  str "uploads/" ++ to_string upload ++ str "/chunks/" ++ to_string index ++ str ".part".

(** ** Failures *)

Definition BeginStorageFailure (status : FileApplicationStatus) (message : list Z)
  : BeginUploadResult := MkOutcome status kBeginCreated None message.
Definition CancelStorageFailure (status : FileApplicationStatus) (message : list Z)
  : CancelUploadResult := MkOutcome status kApplied None message.
Definition ReserveFailure (status : FileApplicationStatus) (message : list Z)
  : ReserveChunkResult := MkOutcome status kReserveCreated None message.
Definition PrepareFailure (status : FileApplicationStatus) (message : list Z)
  : FinalizePreparationResult := MkOutcome status kPrepareNotReady None message.
Definition CompleteFailure (status : FileApplicationStatus) (message : list Z)
  : CompleteFinalizeResult := MkOutcome status kCompleteCompleted None message.
(** [GetStorageFailure], [MarkFailure], [SnapshotFailure], [FinalizeChecksumFailure] and
    [DownloadFileFailure]. *)
Definition FoundFailure {A} (status : FileApplicationStatus) (message : list Z) : Found A :=
  MkFound status None message.

(** [r.Succeeded() && r.found]; otherwise the status, with [missing] when nothing was
    found, and the message. *)
Definition found_record {A} (r : RepoResult (option A)) (missing : FileApplicationStatus)
    (text : list Z) : FileApplicationStatus * list Z + A :=
  if negb (Succeeded (q_status r)) then inl (MapStorageStatus (q_status r), q_message r)
  else match q_value r with Some a => inr a | None => inl (missing, text) end.

Definition is_session (b : UploadBundleView) (s : UploadSessionStatus) : bool :=
  bool_decide (session_status (bundle_session b) = s).
Definition is_file (b : UploadBundleView) (s : FileStatus) : bool :=
  bool_decide (file_status (bundle_file b) = s).

(** [canceled], [completed] and the like: the pair of states of an upload. *)
Definition in_state (b : UploadBundleView) (s : UploadSessionStatus) (f : FileStatus) : bool :=
  is_session b s && is_file b f.

(** What a transaction ends with: it is rolled back, or it is committed and, if the
    commit reports an error, something else is tried. *)
Inductive Ending (R : Type) :=
| Rollback (r : R)
| Commit (r : R) (recover : list Z → IO Db R).
Arguments Rollback {_} _.
Arguments Commit {_} _ _.

Definition reject {R} (r : R) : Tx (Ending R) := mret (Rollback r).
Definition accept {R} (r : R) (recover : list Z → IO Db R) : Tx (Ending R) := mret (Commit r recover).

Definition rolled_back (before d : Db) : Db :=
  set_next_file (next_file d) (set_next_upload (next_upload d) before).

Definition inconsistent : list Z := str "upload session contains inconsistent durable records".
Definition session_missing : list Z := str "upload session not found".
Definition unavailable : list Z := str "file repository adapter dependencies are unavailable".

Section Adapter.
Context (moment : nat → Moment Db) `{Sha256}.
Context (weight : list Z → list Z) (add_day : list Z → list Z).
Context (repository_ pool_ : bool).      (* not null *)
Context (begin_snapshot : bool).         (* FileBeginSnapshotEnabled *)

(** [Acquire], [BeginTransaction], the statements and the end of a transaction. *)
Definition Transaction {R} (failure : FileApplicationStatus → list Z → R) (name : list Z)
    (body : Tx (Ending R)) : IO Db R :=
  m ← tick moment;
  if fails m then mret (failure kStorageError (name ++ str " failed to acquire database connection"))
  else λ w,
    let m := moment (ticks w) in
    let set (d : Db) (n : nat) : World Db :=
      MkWorld (MkShared d (disk (shared w)) (verified_objects_ (shared w)) (digested (shared w))) n in
    let before := tables (shared w) in
    if fails m
    then (set before (S (ticks w)),
          failure kStorageError (name ++ str " failed to begin transaction: " ++ error_text m))
    else
      let '((d, n), ending) := body (before, S (ticks w)) in
      match ending with
      | Rollback r => (set (rolled_back before d) n, r)
      | Commit r recover =>
          match commit (moment n) with
          | Committed => (set d (S n), r)
          | LostCommitted => recover (error_text (moment n)) (set d (S n))
          | LostAborted => recover (error_text (moment n)) (set (rolled_back before d) (S n))
          end
      end.

(** *** Beginning an upload *)

Definition ResolveExistingUploadResult (existing : FileUploadBundleFindResult) (fp : list Z)
  : BeginUploadResult :=
  match found_record existing kNotFound (str "upload operation not found") with
  | inl (status, message) => BeginStorageFailure status message
  | inr record =>
      match ToView record with
      | None => BeginStorageFailure kInvalidRecord
                  (str "upload operation points to invalid file/session records")
      | Some view =>
          if negb (bool_decide (rec_fingerprint (rec_session record) = fp))
          then MkOutcome kSucceeded kBeginConflict None
                 (str "client_upload_id was already used for a different file upload")
          else MkOutcome kSucceeded kBeginReused (Some view)
                 (str "upload safely reused from durable session")
      end
  end.

Definition ResolveExistingUpload (actor : Z) (client fp : list Z) : IO Db BeginUploadResult :=
  if negb repository_ then mret (BeginStorageFailure kStorageError (str "file repository is unavailable"))
  else
    existing ← FindByClientUploadId moment weight actor client;
    mret (ResolveExistingUploadResult existing fp).

(** After a commit with an unknown outcome. *)
Definition RecoverBegin (actor : Z) (client fp : list Z) (commit_error : list Z)
  : IO Db BeginUploadResult :=
  recovered ← ResolveExistingUpload actor client fp;
  mret (match o_status recovered, o_outcome recovered with
        | kSucceeded, kBeginReused =>
            MkOutcome kSucceeded kBeginReused (o_value recovered)
              (str "ambiguous commit recovered from durable upload session")
        | _, _ =>
            BeginStorageFailure kStorageError
              (str "BeginUpload transaction commit failed" ++
               (if bempty commit_error then [] else str ": " ++ commit_error))
        end).

(** The transaction of [BeginUpload]; the result of losing the race for the client
    identifier is read after the rollback, so the transaction says [None]. *)
Definition BeginUploadBody (c : BeginUploadCommand) (fp : list Z) : Tx (Ending (option BeginUploadResult)) :=
  let fail status message := reject (Some (BeginStorageFailure status message)) in
  user ← UserExistsOnConnection moment (begin_actor c);
  if negb (Succeeded (q_status user)) then fail (MapStorageStatus (q_status user)) (q_message user)
  else if negb (q_value user) then fail kNotFound (str "BeginUpload owner user does not exist")
  else
    file ← InsertFileOnConnection moment (begin_actor c) (begin_name c) (begin_type c) (begin_size c)
             (begin_algorithm c) (begin_checksum c);
    if negb (Succeeded (q_status file)) then fail (MapStorageStatus (q_status file)) (q_message file)
    else
      key ← SetStorageKeyOnConnection moment weight (q_value file) (BuildStorageKey (q_value file));
      if negb (Succeeded (q_status key)) then fail (MapStorageStatus (q_status key)) (q_message key)
      else
        session ← InsertUploadSessionIdempotentOnConnection moment weight add_day (q_value file)
                    (begin_actor c) (begin_client c) fp (begin_size c) (begin_chunk c);
        if negb (Succeeded (q_status session))
        then fail (MapStorageStatus (q_status session)) (q_message session)
        else if negb (q_value session).1 then reject None
        else
          created ← FindUploadBundleOnConnection moment (begin_actor c) (q_value session).2;
          match found_record created kInvalidRecord (str "new upload session could not be re-read") with
          | inl (status, message) => fail status message
          | inr record =>
              match ToView record with
              | None => fail kInvalidRecord (str "new upload bundle is invalid")
              | Some view =>
                  accept
                    (Some (MkOutcome kSucceeded kBeginCreated (Some view)
                             (str "file metadata and upload session committed atomically")))
                    (λ error, r ← RecoverBegin (begin_actor c) (begin_client c) fp error; mret (Some r))
              end
          end.

Definition BeginUpload (c : BeginUploadCommand) : IO Db BeginUploadResult :=
  if negb repository_ || negb pool_ then mret (BeginStorageFailure kStorageError unavailable)
  else
    m ← tick moment;
    let fp := Sha256Hex (evp m) (canonical c) in
    if negb (bsize fp =? 64)
    then mret (BeginStorageFailure kStorageError (str "failed to fingerprint BeginUpload request"))
    else
      precheck ← FindByClientUploadId moment weight (begin_actor c) (begin_client c);
      if negb (Succeeded (q_status precheck))
      then mret (BeginStorageFailure (MapStorageStatus (q_status precheck)) (q_message precheck))
      else match q_value precheck with
      | Some _ =>
          if begin_snapshot then mret (ResolveExistingUploadResult precheck fp)
          else ResolveExistingUpload (begin_actor c) (begin_client c) fp
      | None =>
          r ← Transaction (λ status message, Some (BeginStorageFailure status message))
                (str "BeginUpload") (BeginUploadBody c fp);
          match r with
          | Some r => mret r
          | None => ResolveExistingUpload (begin_actor c) (begin_client c) fp
          end
      end.

(** *** Reading and cancelling *)

Definition GetUploadSession (q : UploadQuery) : IO Db GetUploadSessionResult :=
  if negb repository_ then mret (FoundFailure kStorageError (str "file repository is unavailable"))
  else
    r ← FindUploadBundle moment (query_actor q) (query_upload q);
    mret (match found_record r kNotFound session_missing with
          | inl (status, message) => FoundFailure status message
          | inr record =>
              match ToView record with
              | None => FoundFailure kInvalidRecord inconsistent
              | Some view => MkFound kSucceeded (Some view) (str "upload session found")
              end
          end).

(** The bundle an operation starts with: locked, found and consistent. *)
Definition locked_bundle {R} (actor upload : Z)
    (fail : FileApplicationStatus → list Z → Tx (Ending R)) (text : list Z)
    (next : FileUploadBundleRecord → UploadBundleView → Tx (Ending R)) : Tx (Ending R) :=
  current ← FindUploadBundleOnConnection moment actor upload;
  match found_record current kNotFound session_missing with
  | inl (status, message) => fail status message
  | inr record =>
      match ToView record with
      | None => fail kInvalidRecord text
      | Some view => next record view
      end
  end.

(** The bundle as it is after the changes of the transaction. *)
Definition updated_bundle {R} (actor upload : Z)
    (fail : FileApplicationStatus → list Z → Tx (Ending R)) (text : list Z)
    (next : FileUploadBundleRecord → Tx (Ending R)) : Tx (Ending R) :=
  updated ← FindUploadBundleOnConnection moment actor upload;
  match found_record updated kInvalidRecord text with
  | inl (status, message) => fail status message
  | inr record => next record
  end.

Definition CancelUpload (c : UploadQuery) : IO Db CancelUploadResult :=
  if negb repository_ || negb pool_ then mret (CancelStorageFailure kStorageError unavailable)
  else
    Transaction CancelStorageFailure (str "CancelUpload")
      (let fail status message := reject (CancelStorageFailure status message) in
       locked_bundle (query_actor c) (query_upload c) fail inconsistent (λ _ view,
         if in_state view kSessionCanceled kFileCanceled
         then reject (MkOutcome kSucceeded kCancelReused (Some view)
                                (str "CancelUpload safely reused canceled durable state"))
         else if negb (in_state view kActive kUploading)
         then fail kFailedPrecondition
                (str "only an active upload with UPLOADING file state can be canceled")
         else
           canceled ← CancelUploadOnConnection moment (query_actor c) (query_upload c)
                        (file_id (bundle_file view));
           if negb (Succeeded (q_status canceled))
           then fail (MapStorageStatus (q_status canceled)) (q_message canceled)
           else
             updated_bundle (query_actor c) (query_upload c) fail
               (str "canceled upload could not be re-read") (λ record,
               match ToView record with
               | Some view =>
                   if in_state view kSessionCanceled kFileCanceled
                   then accept
                     (MkOutcome kSucceeded kApplied (Some view) (str "upload canceled atomically"))
                     (λ error,
                        recovered ← GetUploadSession c;
                        mret (match found recovered with
                              | Some view =>
                                  if in_state view kSessionCanceled kFileCanceled
                                  then MkOutcome kSucceeded kCancelReused (Some view)
                                         (str "ambiguous cancel commit recovered from durable state")
                                  else CancelStorageFailure kStorageError
                                         (str "CancelUpload transaction commit failed" ++
                                          (if bempty error then [] else str ": " ++ error))
                              | None => CancelStorageFailure kStorageError
                                         (str "CancelUpload transaction commit failed" ++
                                          (if bempty error then [] else str ": " ++ error))
                              end))
                   else fail kInvalidRecord
                          (str "cancel transaction produced invalid file/session state")
               | None => fail kInvalidRecord
                           (str "cancel transaction produced invalid file/session state")
               end))).

(** *** Chunks *)

(** The row of a chunk is the one the command asks for. *)
Definition same_identity (chunk : UploadChunkView) (view : UploadBundleView) (c : ReserveChunkCommand)
    (key : list Z) : bool :=
  (chunk_file chunk =? file_id (bundle_file view)) && (chunk_owner chunk =? rc_actor c) &&
  (byte_offset chunk =? rc_offset c) && (chunk_size chunk =? rc_size c) &&
  bool_decide (chunk_algorithm chunk = rc_algorithm c) &&
  bool_decide (chunk_checksum chunk = rc_checksum c) && bool_decide (storage_part_key chunk = key).

Definition conflict (chunk : option UploadChunkView) (message : list Z) : ReserveChunkResult :=
  MkOutcome kSucceeded kReserveConflict chunk message.

Definition RecoverReserve (c : ReserveChunkCommand) : IO Db ReserveChunkResult :=
  recovered ← FindChunk moment (rc_actor c) (rc_upload c) (rc_index c);
  mret (match found_record recovered kNotFound [] with
        | inr record =>
            match ToChunkView record with
            | Some view =>
                if (byte_offset view =? rc_offset c) && (chunk_size view =? rc_size c) &&
                   bool_decide (chunk_checksum view = rc_checksum c)
                then MkOutcome kSucceeded kReserveReused (Some view)
                       (str "ambiguous chunk reservation commit recovered from durable manifest")
                else ReserveFailure kStorageError (str "ReserveChunk transaction commit failed")
            | None => ReserveFailure kStorageError (str "ReserveChunk transaction commit failed")
            end
        | inl _ => ReserveFailure kStorageError (str "ReserveChunk transaction commit failed")
        end).

(** The rest of [ReserveChunk] on an upload that is being finalized. *)
Definition RepairChunk (c : ReserveChunkCommand) (view : UploadBundleView) (key : list Z)
  : Tx (Ending ReserveChunkResult) :=
  let fail status message := reject (ReserveFailure status message) in
  existing ← FindChunkOnConnection moment (rc_actor c) (rc_upload c) (rc_index c);
  match found_record existing kFailedPrecondition
          (str "FINALIZING repair cannot introduce a new chunk identity") with
  | inl (status, message) => fail status message
  | inr record =>
      match ToChunkView record with
      | Some chunk =>
          if bool_decide (chunk_status chunk = kStored) && same_identity chunk view c key
          then reject (MkOutcome kSucceeded kReserveReused (Some chunk)
                 (str "FINALIZING exact chunk replay admitted for storage repair"))
          else reject (conflict (Some chunk)
                 (str "FINALIZING allows only exact replay of an existing STORED chunk"))
      | None => reject (conflict None
                 (str "FINALIZING allows only exact replay of an existing STORED chunk"))
      end
  end.

(** The rest of [ReserveChunk] on an active upload. *)
Definition InsertReservation (c : ReserveChunkCommand) (view : UploadBundleView) (key : list Z)
  : Tx (Ending ReserveChunkResult) :=
  let fail status message := reject (ReserveFailure status message) in
  inserted ← InsertChunkIdempotentOnConnection moment weight (rc_upload c) (rc_index c)
               (file_id (bundle_file view)) (rc_actor c) (rc_offset c) (rc_size c) (rc_algorithm c)
               (rc_checksum c) key;
  if negb (Succeeded (q_status inserted))
  then fail (MapStorageStatus (q_status inserted)) (q_message inserted)
  else
    current ← FindChunkOnConnection moment (rc_actor c) (rc_upload c) (rc_index c);
    match found_record current kInvalidRecord (str "reserved chunk could not be re-read") with
    | inl (status, message) => fail status message
    | inr record =>
        match ToChunkView record with
        | None => fail kInvalidRecord (str "reserved chunk contains invalid durable fields")
        | Some chunk =>
            if negb (same_identity chunk view c key)
            then reject (conflict (Some chunk)
                   (str "chunk_index was already reserved for different bytes or geometry"))
            else accept
              (MkOutcome kSucceeded (if (q_value inserted : bool) then kReserveCreated else kReserveReused)
                 (Some chunk)
                 (if (q_value inserted : bool) then str "chunk identity durably reserved"
                  else str "chunk identity safely reused"))
              (λ _, RecoverReserve c)
        end
    end.

Definition ReserveChunk (c : ReserveChunkCommand) : IO Db ReserveChunkResult :=
  if negb repository_ || negb pool_ then mret (ReserveFailure kStorageError unavailable)
  else
    Transaction ReserveFailure (str "ReserveChunk")
      (let fail status message := reject (ReserveFailure status message) in
       locked_bundle (rc_actor c) (rc_upload c) fail inconsistent (λ _ view,
         let session := bundle_session view in
         let active_write := in_state view kActive kUploading in
         let finalize_repair := in_state view kFinalizing kVerifying in
         if negb active_write && negb finalize_repair
         then fail kFailedPrecondition
                (str "UploadChunk requires ACTIVE/UPLOADING or exact FINALIZING repair")
         else if (session_chunk session =? 0) || (session_size session =? 0)
         then fail kInvalidRecord (str "upload session has invalid chunk geometry")
         else if (2 ^ 64 - 1) `div` session_chunk session <? rc_index c
         then fail kInvalidArgument (str "chunk index overflows byte offset")
         else
           let expected_offset := u64 (rc_index c * session_chunk session) in
           if session_size session <=? expected_offset
           then fail kInvalidArgument (str "chunk index is outside upload size")
           else
             let expected_size :=
               Z.min (session_chunk session) (u64 (session_size session - expected_offset)) in
             if negb (rc_offset c =? expected_offset) || negb (rc_size c =? expected_size)
             then fail kInvalidArgument
                    (str "chunk offset/size does not match durable upload geometry")
             else
               let key := BuildStoragePartKey (rc_upload c) (rc_index c) in
               if finalize_repair then RepairChunk c view key else InsertReservation c view key)).

Definition RecoverMark (c : MarkChunkStoredCommand) : IO Db MarkChunkStoredResult :=
  recovered ← FindChunk moment (mc_actor c) (mc_upload c) (mc_index c);
  mret (match found_record recovered kNotFound [] with
        | inr record =>
            match ToChunkView record with
            | Some view =>
                if bool_decide (chunk_status view = kStored) &&
                   bool_decide (chunk_checksum view = mc_checksum c)
                then MkFound kSucceeded (Some view)
                       (str "ambiguous stored commit recovered from durable manifest")
                else FoundFailure kStorageError (str "MarkChunkStored transaction commit failed")
            | None => FoundFailure kStorageError (str "MarkChunkStored transaction commit failed")
            end
        | inl _ => FoundFailure kStorageError (str "MarkChunkStored transaction commit failed")
        end).

Definition MarkChunkStored (c : MarkChunkStoredCommand) : IO Db MarkChunkStoredResult :=
  if negb repository_ || negb pool_ then mret (FoundFailure kStorageError unavailable)
  else
    Transaction FoundFailure (str "MarkChunkStored")
      (let fail status message := reject (FoundFailure status message) in
       locked_bundle (mc_actor c) (mc_upload c) fail inconsistent (λ _ view,
         let active_write := in_state view kActive kUploading in
         let finalize_repair := in_state view kFinalizing kVerifying in
         if negb active_write && negb finalize_repair
         then fail kFailedPrecondition (str "upload state changed before chunk storage commit")
         else
           current ← FindChunkOnConnection moment (mc_actor c) (mc_upload c) (mc_index c);
           match found_record current kNotFound (str "chunk reservation not found") with
           | inl (status, message) => fail status message
           | inr record =>
               match ToChunkView record with
               | None => fail kInvalidRecord
                           (str "chunk storage commit does not match durable reservation")
               | Some chunk =>
                   if negb (chunk_size chunk =? mc_size c) ||
                      negb (bool_decide (chunk_checksum chunk = mc_checksum c))
                   then fail kInvalidRecord
                          (str "chunk storage commit does not match durable reservation")
                   else if bool_decide (chunk_status chunk = kStored)
                   then reject (MkFound kSucceeded (Some chunk)
                          (if finalize_repair
                           then str "FINALIZING exact replay repaired storage for already STORED chunk"
                           else str "chunk was already durably stored"))
                   else if finalize_repair
                   then fail kInvalidRecord (str "FINALIZING manifest cannot contain a RESERVED chunk")
                   else
                     mutation ← MarkChunkStoredOnConnection moment weight (mc_actor c) (mc_upload c)
                                  (mc_index c) (mc_size c) (mc_checksum c);
                     if negb (Succeeded (q_status mutation))
                     then fail (MapStorageStatus (q_status mutation)) (q_message mutation)
                     else
                       updated ← FindChunkOnConnection moment (mc_actor c) (mc_upload c) (mc_index c);
                       match found_record updated kInvalidRecord
                               (str "stored chunk could not be re-read") with
                       | inl (status, message) => fail status message
                       | inr record =>
                           match ToChunkView record with
                           | Some chunk =>
                               if bool_decide (chunk_status chunk = kStored)
                               then accept
                                      (MkFound kSucceeded (Some chunk)
                                         (str "chunk storage completion committed"))
                                      (λ _, RecoverMark c)
                               else fail kInvalidRecord (str "stored chunk durable state is invalid")
                           | None =>
                               fail kInvalidRecord (str "stored chunk durable state is invalid")
                           end
                       end
               end
           end)).

(** *** Finalization *)

Definition GetUploadSnapshot (q : UploadQuery) : IO Db GetUploadSnapshotResult :=
  if negb repository_ || negb pool_ then mret (FoundFailure kStorageError unavailable)
  else
    Transaction FoundFailure (str "GetUploadSnapshot")
      (let fail status message := reject (FoundFailure status message) in
       bundle ← FindUploadBundleOnConnection moment (query_actor q) (query_upload q);
       match found_record bundle kNotFound session_missing with
       | inl (status, message) => fail status message
       | inr record =>
           chunks ← FindChunksOnConnection moment (query_actor q) (query_upload q);
           if negb (Succeeded (q_status chunks))
           then fail (MapStorageStatus (q_status chunks)) (q_message chunks)
           else match ToSnapshot record (q_value chunks) with
           | None => fail kInvalidRecord (str "upload snapshot contains inconsistent durable records")
           | Some snapshot =>
               accept
                 (MkFound kSucceeded (Some snapshot)
                    (str "upload bundle and durable chunk manifest snapshotted"))
                 (λ _, mret (FoundFailure kStorageError
                               (str "GetUploadSnapshot transaction commit failed")))
           end
       end).

Definition RecoverPrepare (c : UploadQuery) : IO Db FinalizePreparationResult :=
  recovered ← GetUploadSnapshot c;
  mret (match found recovered with
        | Some snapshot =>
            if in_state (snapshot_bundle snapshot) kFinalizing kVerifying
            then MkOutcome kSucceeded kResumed (Some snapshot)
                   (str "ambiguous finalize-start commit recovered from durable state")
            else if in_state (snapshot_bundle snapshot) kCompleted kAvailable
            then MkOutcome kSucceeded kAlreadyCompleted (Some snapshot)
                   (str "ambiguous finalize-start commit recovered completed state")
            else PrepareFailure kStorageError (str "PrepareFinalize transaction commit failed")
        | None => PrepareFailure kStorageError (str "PrepareFinalize transaction commit failed")
        end).

(** The end of [PrepareFinalize] on an active upload with a complete manifest. *)
Definition StartFinalize (c : UploadQuery) (snapshot : UploadSnapshotView)
    (records : list FileUploadChunkRecord) : Tx (Ending FinalizePreparationResult) :=
  let fail status message := reject (PrepareFailure status message) in
  mutation ← BeginFinalizeOnConnection moment (query_actor c) (query_upload c)
               (file_id (bundle_file (snapshot_bundle snapshot)));
  if negb (Succeeded (q_status mutation))
  then fail (MapStorageStatus (q_status mutation)) (q_message mutation)
  else
    updated_bundle (query_actor c) (query_upload c) fail
      (str "FINALIZING upload could not be re-read") (λ record,
      match ToSnapshot record records with
      | Some snapshot =>
          if in_state (snapshot_bundle snapshot) kFinalizing kVerifying
          then accept
                 (MkOutcome kSucceeded kStarted (Some snapshot)
                    (str "upload durably entered FINALIZING/VERIFYING before storage assembly"))
                 (λ _, RecoverPrepare c)
          else fail kInvalidRecord (str "prepare finalize transaction produced invalid state")
      | None => fail kInvalidRecord (str "prepare finalize transaction produced invalid state")
      end).

Definition PrepareFinalize (c : UploadQuery) : IO Db FinalizePreparationResult :=
  if negb repository_ || negb pool_ then mret (PrepareFailure kStorageError unavailable)
  else
    Transaction PrepareFailure (str "PrepareFinalize")
      (let fail status message := reject (PrepareFailure status message) in
       bundle ← FindUploadBundleOnConnection moment (query_actor c) (query_upload c);
       match found_record bundle kNotFound session_missing with
       | inl (status, message) => fail status message
       | inr record =>
           chunks ← FindChunksOnConnection moment (query_actor c) (query_upload c);
           if negb (Succeeded (q_status chunks))
           then fail (MapStorageStatus (q_status chunks)) (q_message chunks)
           else match ToSnapshot record (q_value chunks) with
           | None => fail kInvalidRecord
                       (str "FinalizeUpload snapshot contains inconsistent durable records")
           | Some snapshot =>
               let bundle := snapshot_bundle snapshot in
               let done outcome message :=
                 reject (MkOutcome kSucceeded outcome (Some snapshot) message) in
               if in_state bundle kCompleted kAvailable
               then done kAlreadyCompleted
                      (str "FinalizeUpload reused COMPLETED/AVAILABLE durable state")
               else if in_state bundle kFinalizing kFailed
               then done kPrepareMismatch
                      (str "FinalizeUpload previously failed whole-file checksum verification")
               else if in_state bundle kFinalizing kVerifying
               then if negb (ManifestReadyForFinalize snapshot)
                    then fail kInvalidRecord
                           (str "FINALIZING/VERIFYING upload has incomplete durable manifest")
                    else done kResumed
                           (str "FinalizeUpload resumed durable FINALIZING/VERIFYING state")
               else if negb (in_state bundle kActive kUploading)
               then fail kFailedPrecondition
                      (str "FinalizeUpload requires ACTIVE/UPLOADING, FINALIZING/VERIFYING, or completed state")
               else if negb (ManifestReadyForFinalize snapshot)
               then done kPrepareNotReady (str "durable manifest is not complete enough to finalize")
               else StartFinalize c snapshot (q_value chunks)
           end
       end).

Definition RecoverComplete (c : ChecksumCommand) : IO Db CompleteFinalizeResult :=
  recovered ← GetUploadSession (MkQuery (cc_actor c) (cc_upload c));
  mret (match found recovered with
        | Some view =>
            if in_state view kCompleted kAvailable &&
               bool_decide (verified_checksum (bundle_file view) = cc_checksum c)
            then MkOutcome kSucceeded kCompleteReused (Some view)
                   (str "ambiguous complete-finalize commit recovered from durable state")
            else CompleteFailure kStorageError (str "CompleteFinalize transaction commit failed")
        | None => CompleteFailure kStorageError (str "CompleteFinalize transaction commit failed")
        end).

(** The end of [CompleteFinalize] once the manifest was checked. *)
Definition FinishFinalize (c : ChecksumCommand) (view : UploadBundleView)
  : Tx (Ending CompleteFinalizeResult) :=
  let fail status message := reject (CompleteFailure status message) in
  let invalid := fail kInvalidRecord (str "complete finalize transaction produced invalid state") in
  mutation ← CompleteFinalizeOnConnection moment weight (cc_actor c) (cc_upload c)
               (file_id (bundle_file view)) (cc_checksum c);
  if negb (Succeeded (q_status mutation))
  then fail (MapStorageStatus (q_status mutation)) (q_message mutation)
  else
    updated_bundle (cc_actor c) (cc_upload c) fail (str "completed upload could not be re-read") (λ record,
      match ToView record with
      | Some view =>
          if in_state view kCompleted kAvailable &&
             bool_decide (verified_checksum (bundle_file view) = cc_checksum c)
          then accept
                 (MkOutcome kSucceeded kCompleteCompleted (Some view)
                    (str "upload completed and file marked AVAILABLE atomically"))
                 (λ _, RecoverComplete c)
          else invalid
      | None => invalid
      end).

Definition CompleteFinalize (c : ChecksumCommand) : IO Db CompleteFinalizeResult :=
  if negb repository_ || negb pool_ || negb (bsize (cc_checksum c) =? 64)
  then mret (CompleteFailure (if bsize (cc_checksum c) =? 64 then kStorageError else kInvalidArgument)
               (str "invalid CompleteFinalize dependencies or checksum"))
  else
    Transaction CompleteFailure (str "CompleteFinalize")
      (let fail status message := reject (CompleteFailure status message) in
       locked_bundle (cc_actor c) (cc_upload c) fail (str "complete finalize bundle is invalid")
         (λ record view,
         let file := bundle_file view in
         if in_state view kCompleted kAvailable then
           if negb (bool_decide (verified_checksum file = cc_checksum c)) ||
              negb (bool_decide (expected_checksum file = cc_checksum c))
           then fail kInvalidRecord (str "AVAILABLE file checksum disagrees with finalize retry")
           else reject (MkOutcome kSucceeded kCompleteReused (Some view)
                  (str "complete finalize safely reused AVAILABLE state"))
         else if negb (in_state view kFinalizing kVerifying) ||
                 negb (bool_decide (expected_checksum file = cc_checksum c))
         then fail kFailedPrecondition
                (str "CompleteFinalize requires FINALIZING/VERIFYING with matching checksum")
         else
           chunks ← FindChunksOnConnection moment (cc_actor c) (cc_upload c);
           if negb (Succeeded (q_status chunks))
           then fail (MapStorageStatus (q_status chunks)) (q_message chunks)
           else match ToSnapshot record (q_value chunks) with
           | Some snapshot =>
               if ManifestReadyForFinalize snapshot then FinishFinalize c view
               else fail kInvalidRecord (str "CompleteFinalize durable manifest is no longer complete")
           | None => fail kInvalidRecord (str "CompleteFinalize durable manifest is no longer complete")
           end)).

Definition RecoverFail (c : ChecksumCommand) : IO Db FailFinalizeChecksumResult :=
  recovered ← GetUploadSession (MkQuery (cc_actor c) (cc_upload c));
  mret (match found recovered with
        | Some view =>
            if in_state view kFinalizing kFailed &&
               bool_decide (verified_checksum (bundle_file view) = cc_checksum c)
            then MkFound kSucceeded (Some view)
                   (str "ambiguous checksum-failure commit recovered from durable state")
            else FoundFailure kStorageError (str "FailFinalizeChecksum transaction commit failed")
        | None => FoundFailure kStorageError (str "FailFinalizeChecksum transaction commit failed")
        end).

Definition FailFinalizeChecksum (c : ChecksumCommand) : IO Db FailFinalizeChecksumResult :=
  if negb repository_ || negb pool_ || negb (bsize (cc_checksum c) =? 64)
  then mret (FoundFailure (if bsize (cc_checksum c) =? 64 then kStorageError else kInvalidArgument)
               (str "invalid FailFinalizeChecksum dependencies or checksum"))
  else
    Transaction FoundFailure (str "FailFinalizeChecksum")
      (let fail status message := reject (FoundFailure status message) in
       let invalid := fail kInvalidRecord (str "checksum-failure transaction produced invalid state") in
       locked_bundle (cc_actor c) (cc_upload c) fail (str "checksum-failure bundle is invalid")
         (λ _ view,
         let file := bundle_file view in
         if in_state view kFinalizing kFailed then
           if negb (bool_decide (verified_checksum file = cc_checksum c))
           then fail kInvalidRecord (str "durable FAILED checksum disagrees with finalize retry")
           else reject (MkFound kSucceeded (Some view)
                  (str "checksum failure safely reused durable FAILED state"))
         else if negb (in_state view kFinalizing kVerifying) ||
                 bool_decide (expected_checksum file = cc_checksum c)
         then fail kFailedPrecondition
                (str "checksum failure requires FINALIZING/VERIFYING and mismatching digest")
         else
           mutation ← FailFinalizeChecksumOnConnection moment (cc_actor c) (file_id file)
                        (cc_checksum c);
           if negb (Succeeded (q_status mutation))
           then fail (MapStorageStatus (q_status mutation)) (q_message mutation)
           else
             updated_bundle (cc_actor c) (cc_upload c) fail
               (str "FAILED finalize state could not be re-read") (λ record,
               match ToView record with
               | Some view =>
                   if in_state view kFinalizing kFailed &&
                      bool_decide (verified_checksum (bundle_file view) = cc_checksum c)
                   then accept
                          (MkFound kSucceeded (Some view)
                             (str "whole-file checksum mismatch durably marked FAILED"))
                          (λ _, RecoverFail c)
                   else invalid
               | None => invalid
               end))).

Definition GetDownloadFile (q : GetDownloadInfoQuery) : IO Db GetDownloadFileResult :=
  if negb repository_ then mret (FoundFailure kStorageError (str "file repository is unavailable"))
  else
    r ← FindFileById moment (download_actor q) (download_file q);
    mret (match found_record r kNotFound (str "download file not found") with
          | inl (status, message) => FoundFailure status message
          | inr record =>
              match ToFileView record with
              | None => FoundFailure kInvalidRecord
                          (str "download file metadata violates durable invariants")
              | Some view => MkFound kSucceeded (Some view) (str "download file metadata found")
              end
          end).

End Adapter.
