(* ===== verification/FileTables.v ===== *)
(** * What the tables of the file service hold

    The invariant of the tables ([db_ok]), rows as the repository reads them back, and
    the rules for computations inside a transaction. *)
From Stdlib Require Import ZArith Lia String.
From stdpp Require Import base list numbers gmap sorting.
From S2P Require Import Prelude ByteStrings FileTypes FileWorld FileRepository FileRepositoryAdapter.

Local Open Scope Z_scope.

(** ** The invariant *)

(** The states an upload goes through, as the pair of the states of session and file. *)
Definition states_ok (session file : Z) : Prop :=
  session = 1 ∧ file = 1 ∨ session = 2 ∧ file = 2 ∨ session = 3 ∧ file = 3 ∨
  session = 2 ∧ file = 4 ∨ session = 4 ∧ file = 5.

Record file_ok (id : Z) (f : FileRow) : Prop := {
  fo_id : fr_id f = id;
  fo_owner : is_u64 (fr_owner f) ∧ fr_owner f ≠ 0;
  fo_size : is_u64 (fr_size f) ∧ fr_size f ≠ 0;
  fo_algorithm : fr_algorithm f = str "sha256";
  fo_expected : bsize (fr_expected f) = 64;
  fo_backend : fr_backend f = str "local_fs";
  fo_key : fr_key f = Some (BuildStorageKey id);
  fo_version : is_u64 (fr_version f);
  fo_status : 1 ≤ fr_status f ≤ 5;
  fo_verified : match fr_status f with
                | 3 => fr_verified f = Some (fr_expected f)
                | 4 => ∃ x, fr_verified f = Some x ∧ x ≠ fr_expected f
                | _ => fr_verified f = None
                end;
}.

Record session_ok (d : Db) (id : Z) (s : SessionRow) : Prop := {
  so_id : sr_upload s = id;
  so_client : sr_client s ≠ [];
  so_chunk : is_u64 (sr_chunk s) ∧ sr_chunk s ≠ 0;
  so_version : is_u64 (sr_version s);
  so_file : ∃ f, files d !! sr_file s = Some f ∧ fr_owner f = sr_owner s ∧ fr_size f = sr_size s ∧
                 states_ok (sr_status s) (fr_status f);
}.

(** The number of chunks of a session, and where a chunk lies. *)
Definition row_count (s : SessionRow) : Z := 1 + (sr_size s - 1) `div` sr_chunk s.

Record chunk_ok (d : Db) (k : Z * Z) (c : ChunkRow) : Prop := {
  co_key : cr_upload c = k.1 ∧ cr_index c = k.2;
  co_part : cr_key c = BuildStoragePartKey k.1 k.2;
  co_algorithm : cr_algorithm c = str "sha256";
  co_checksum : bsize (cr_checksum c) = 64;
  co_status : cr_status c = 1 ∨ cr_status c = 2;
  co_version : is_u64 (cr_version c);
  co_session : ∃ s, sessions d !! k.1 = Some s ∧ cr_file c = sr_file s ∧ cr_owner c = sr_owner s ∧
    0 ≤ k.2 < row_count s ∧ cr_offset c = k.2 * sr_chunk s ∧
    cr_size c = Z.min (sr_chunk s) (sr_size s - k.2 * sr_chunk s) ∧
    (sr_status s ≠ 1 → sr_status s ≠ 4 → cr_status c = 2);
}.

Section Tables.
Context (weight : list Z → list Z).

Record db_ok (d : Db) : Prop := {
  ok_next_file : 1 ≤ next_file d ≤ 2 ^ 64;
  ok_next_upload : 1 ≤ next_upload d ≤ 2 ^ 64;
  ok_file id f : files d !! id = Some f → 1 ≤ id < next_file d ∧ file_ok id f;
  ok_session id s : sessions d !! id = Some s → 1 ≤ id < next_upload d ∧ session_ok d id s;
  ok_chunk k c : chunks d !! k = Some c → chunk_ok d k c;
  ok_client id id' s s' : sessions d !! id = Some s → sessions d !! id' = Some s' →
    sr_owner s = sr_owner s' → weight (sr_client s) = weight (sr_client s') → id = id';
  ok_one_session id id' s s' : sessions d !! id = Some s → sessions d !! id' = Some s' →
    sr_file s = sr_file s' → id = id';
  ok_complete id s : sessions d !! id = Some s → sr_status s = 2 ∨ sr_status s = 3 →
    ∀ i, 0 ≤ i < row_count s → is_Some (chunks d !! (id, i));
}.

(** ** Rows read back *)

Lemma parse_digits_app acc ds v :
  Forall (λ d, 48 ≤ d ≤ 57) ds →
  parse_digits acc ds = Some v ↔ foldl (λ v d, 10 * v + (d - 48)) acc ds = v.
Proof.
  revert acc. induction ds as [|c ds IH]; intros acc Hf; cbn [parse_digits foldl]; [naive_solver|].
  apply list.Forall_cons in Hf as [Hc Hf].
  rewrite (proj2 (Z.leb_le 48 c)), (proj2 (Z.leb_le c 57)) by lia. cbn [andb]. by apply IH.
Qed.

Lemma ParseU64_to_string n : is_u64 n → ParseU64 (to_string n) = Some n.
Proof.
  intros Hn. pose proof (to_string_length n Hn) as Hl. unfold ParseU64.
  replace (bempty (to_string n)) with false by (by destruct (to_string n); cbn in *; lia).
  assert (parse_digits 0 (to_string n) = Some n) as ->.
  { apply parse_digits_app; [by apply to_string_digits|]. unfold to_string.
    destruct (digits_value 20 n []) as (ds & -> & Hv & _); [unfold is_u64 in Hn; lia|].
    by rewrite app_nil_r. }
  rewrite (proj2 (Z.ltb_lt n (2 ^ 64))); [done|]. unfold is_u64 in Hn. lia.
Qed.

Lemma ParseU32_to_string n : is_u32 n → ParseU32 (to_string n) = Some n.
Proof.
  unfold is_u32, ParseU32. intros Hn. rewrite ParseU64_to_string by (unfold is_u64; lia).
  rewrite (proj2 (Z.ltb_lt n (2 ^ 32))); [done|lia].
Qed.

Definition file_record (f : FileRow) : FileRecord :=
  MkFileRecord (fr_id f) (fr_owner f) (fr_name f) (fr_type f) (fr_size f) (fr_algorithm f)
    (fr_expected f) (ifnull (fr_verified f)) (fr_backend f) (ifnull (fr_key f)) (fr_status f)
    (fr_version f) (fr_created f) (fr_updated f) (ifnull (fr_available f)) (ifnull (fr_expires f)).
Definition session_record (s : SessionRow) : FileUploadSessionRecord :=
  MkSessionRecord (sr_upload s) (sr_file s) (sr_owner s) (sr_client s) (sr_fingerprint s) (sr_size s)
    (sr_chunk s) (sr_status s) (sr_version s) (sr_created s) (sr_updated s) (sr_expires s)
    (ifnull (sr_completed s)).
Definition chunk_record (c : ChunkRow) : FileUploadChunkRecord :=
  MkChunkRecord (cr_upload c) (cr_index c) (cr_file c) (cr_owner c) (cr_offset c) (cr_size c)
    (cr_algorithm c) (cr_checksum c) (cr_key c) (cr_status c) (cr_version c) (cr_created c)
    (cr_updated c) (ifnull (cr_stored c)).

(** The views of rows; the states are those of the tables. *)
Definition file_state (s : Z) : FileStatus :=
  match s with 1 => kUploading | 2 => kVerifying | 3 => kAvailable | 4 => kFailed | _ => kFileCanceled end.
Definition session_state (s : Z) : UploadSessionStatus :=
  match s with 1 => kActive | 2 => kFinalizing | 3 => kCompleted | _ => kSessionCanceled end.
Definition chunk_state (s : Z) : UploadChunkStatus := if s =? 2 then kStored else kReserved.

Definition file_row_view (f : FileRow) : FileView := file_view (file_record f) (file_state (fr_status f)).
Definition bundle_row_view (f : FileRow) (s : SessionRow) : UploadBundleView :=
  MkBundle (file_row_view f)
    (MkSession (sr_upload s) (sr_file s) (sr_owner s) (sr_client s) (sr_size s) (sr_chunk s)
       (session_state (sr_status s)) (sr_version s) (sr_created s) (sr_updated s) (sr_expires s)
       (ifnull (sr_completed s))).
Definition chunk_row_view (c : ChunkRow) : UploadChunkView :=
  MkChunk (cr_upload c) (cr_index c) (cr_file c) (cr_owner c) (cr_offset c) (cr_size c)
    (cr_algorithm c) (cr_checksum c) (cr_key c) (chunk_state (cr_status c)) (cr_version c)
    (cr_created c) (cr_updated c) (ifnull (cr_stored c)).

Lemma states_small s f : states_ok s f → is_u32 s ∧ is_u32 f ∧ 1 ≤ s ≤ 5 ∧ 1 ≤ f ≤ 7.
Proof. unfold states_ok, is_u32. lia. Qed.

Lemma file_fields_row f rest : is_u64 (fr_id f) → is_u64 (fr_owner f) → is_u64 (fr_size f) →
  is_u32 (fr_status f) → is_u64 (fr_version f) →
  file_fields (file_columns f ++ rest) = Some (file_record f).
Proof.
  intros. unfold file_fields, file_columns, col. cbn [app nth].
  rewrite !ParseU64_to_string, ParseU32_to_string by done. done.
Qed.

Lemma session_fields_row f s rest : is_u64 (sr_upload s) → is_u64 (sr_file s) → is_u64 (sr_owner s) →
  is_u64 (sr_size s) → is_u64 (sr_chunk s) → is_u32 (sr_status s) → is_u64 (sr_version s) →
  session_fields (file_columns f ++ session_columns s ++ rest) = Some (session_record s).
Proof.
  intros. unfold session_fields, file_columns, session_columns, col. cbn [app nth].
  rewrite !ParseU64_to_string, ParseU32_to_string by done. done.
Qed.

Lemma chunk_fields_row c : is_u64 (cr_upload c) → is_u64 (cr_index c) → is_u64 (cr_file c) →
  is_u64 (cr_owner c) → is_u64 (cr_offset c) → is_u64 (cr_size c) → is_u32 (cr_status c) →
  is_u64 (cr_version c) → chunk_fields (chunk_columns c) = Some (chunk_record c).
Proof.
  intros. unfold chunk_fields, chunk_columns, col. cbn [nth].
  rewrite !ParseU64_to_string, ParseU32_to_string by done. done.
Qed.

(** ** Results of the statements that read *)

(** The session of a user and its file. *)
Definition has_bundle (d : Db) (owner upload : Z) (s : SessionRow) (f : FileRow) : Prop :=
  sessions d !! upload = Some s ∧ sr_owner s = owner ∧ files d !! sr_file s = Some f.

Lemma bundle_ok d owner upload s f : db_ok d → has_bundle d owner upload s f →
  file_ok (sr_file s) f ∧ fr_owner f = sr_owner s ∧ fr_size f = sr_size s ∧
  states_ok (sr_status s) (fr_status f) ∧ 1 ≤ sr_file s < 2 ^ 64 ∧ 1 ≤ upload < 2 ^ 64 ∧
  session_ok d upload s.
Proof.
  intros Hd (Hs & Ho & Hf). destruct (ok_session _ Hd _ _ Hs) as [Hu Hso].
  destruct (ok_file _ Hd _ _ Hf) as [Hi Hfo]. destruct (so_file _ _ _ Hso) as (f' & Hf' & H1 & H2 & H3).
  rewrite Hf in Hf'. injection Hf' as <-. pose proof (ok_next_file _ Hd). pose proof (ok_next_upload _ Hd).
  split_and!; try done; lia.
Qed.

Lemma owned_bundle d owner upload s : db_ok d → owned_session d owner upload = Some s →
  ∃ f, has_bundle d owner upload s f.
Proof.
  intros Hd. unfold owned_session. destruct (sessions d !! upload) as [s'|] eqn:Hs; [|done].
  case_match eqn:Ho; [|done]. intros [= <-]. apply Z.eqb_eq in Ho.
  destruct (ok_session _ Hd _ _ Hs) as [_ Hso]. destruct (so_file _ _ _ Hso) as (f & Hf & _). by exists f.
Qed.

Definition bundle_record (f : FileRow) (s : SessionRow) : FileUploadBundleRecord :=
  MkBundleRecord (file_record f) (session_record s).

(** A row of the join is read back. *)
Lemma parse_bundle d owner upload s f : db_ok d → has_bundle d owner upload s f →
  ParseBundleResult [bundle_columns f s] =
  MkRepo kRepoSucceeded (Some (bundle_record f s)) (str "file upload bundle found").
Proof.
  intros Hd Hb. destruct (bundle_ok _ _ _ _ _ Hd Hb) as (Hfo & Ho & Hz & Hst & Hfi & Hui & Hso).
  destruct (states_small _ _ Hst) as (Hs32 & Hf32 & _). destruct (fo_owner _ _ Hfo) as [Hou _].
  destruct (fo_size _ _ Hfo) as [Hsu _]. destruct (so_chunk _ _ _ Hso) as [Hcu _].
  pose proof (fo_id _ _ Hfo) as Hid. pose proof (so_id _ _ _ Hso) as Hup.
  assert (is_u64 (sr_file s)) by (unfold is_u64; lia). assert (is_u64 upload) by (unfold is_u64; lia).
  unfold ParseBundleResult. change (length (bundle_columns f s)) with 31%nat. cbn [Nat.eqb negb].
  unfold bundle_columns at 1. rewrite file_fields_row by (try apply fo_version in Hfo; congruence).
  unfold bundle_columns at 1. rewrite session_fields_row by (try apply so_version in Hso; congruence).
  change (col (bundle_columns f s) 29) with (to_string (fr_owner f)).
  change (col (bundle_columns f s) 30) with (to_string (fr_size f)).
  rewrite !ParseU64_to_string by done.
  cbn [file_record session_record rec_file_id rec_upload_id rec_session_file rec_file_owner
       rec_session_owner rec_file_size rec_session_size].
  rewrite Hid, Hup, Ho, Hz, !Z.eqb_refl, !(proj2 (Z.eqb_neq _ 0)) by lia. done.
Qed.

Lemma view_bundle d owner upload s f : db_ok d → has_bundle d owner upload s f →
  ToView (bundle_record f s) = Some (bundle_row_view f s).
Proof.
  intros Hd Hb. destruct (bundle_ok _ _ _ _ _ Hd Hb) as (Hfo & Ho & Hz & Hst & Hfi & Hui & Hso).
  pose proof (fo_id _ _ Hfo) as Hid. pose proof (so_id _ _ _ Hso) as Hup.
  unfold ToView, bundle_record. cbn [rec_file rec_session file_record session_record rec_file_id
    rec_upload_id rec_session_file rec_file_owner rec_session_owner rec_file_size rec_session_size
    rec_file_status rec_session_status].
  rewrite (proj2 (Z.eqb_neq (fr_id f) 0)), (proj2 (Z.eqb_neq (sr_upload s) 0)) by lia.
  rewrite (proj2 (Z.eqb_eq (fr_id f) _) Hid), (proj2 (Z.eqb_eq (fr_owner f) _) Ho),
    (proj2 (Z.eqb_eq (fr_size f) _) Hz). unfold bundle_row_view, file_row_view.
  destruct Hst as [[-> ->]|[[-> ->]|[[-> ->]|[[-> ->]|[-> ->]]]]]; reflexivity.
Qed.

Lemma parse_file id f : 1 ≤ id < 2 ^ 64 → file_ok id f →
  ParseFileResult [file_columns f] = MkRepo kRepoSucceeded (Some (file_record f)) (str "file found").
Proof.
  intros Hid Hfo. pose proof (fo_id _ _ Hfo). destruct (fo_owner _ _ Hfo), (fo_size _ _ Hfo).
  pose proof (fo_status _ _ Hfo). unfold ParseFileResult. change (length (file_columns f)) with 16%nat.
  cbn [Nat.eqb negb]. rewrite <- (app_nil_r (file_columns f)), file_fields_row;
    [|unfold is_u64; lia|done|done|unfold is_u32; lia|apply Hfo].
  cbn [file_record rec_file_id rec_file_owner rec_file_size rec_file_status].
  rewrite !(proj2 (Z.eqb_neq _ 0)), (proj2 (Z.ltb_ge _ 1)), (proj2 (Z.ltb_ge 7 _)) by lia. done.
Qed.

Lemma view_file id f : 1 ≤ id → file_ok id f → ToFileView (file_record f) = Some (file_row_view f).
Proof.
  intros Hid Hfo. pose proof (fo_id _ _ Hfo). destruct (fo_owner _ _ Hfo), (fo_size _ _ Hfo).
  pose proof (fo_status _ _ Hfo) as Hst. unfold ToFileView, file_row_view.
  cbn [file_record rec_file_id rec_file_owner rec_file_size rec_file_status].
  rewrite !(proj2 (Z.eqb_neq _ 0)) by lia.
  assert (fr_status f = 1 ∨ fr_status f = 2 ∨ fr_status f = 3 ∨ fr_status f = 4 ∨ fr_status f = 5) as Hc by lia.
  by destruct Hc as [-> |[-> |[-> |[-> | ->]]]].
Qed.

(** The chunk of a user. *)
Definition has_chunk (d : Db) (owner upload index : Z) (c : ChunkRow) : Prop :=
  chunks d !! (upload, index) = Some c ∧ cr_owner c = owner.

Lemma row_count_bound s i : 0 < sr_chunk s → 0 ≤ i < row_count s → 0 ≤ i * sr_chunk s < sr_size s.
Proof.
  unfold row_count. intros Hc Hi. pose proof (Z.mul_div_le (sr_size s - 1) (sr_chunk s) Hc). nia.
Qed.

(** What the columns of a chunk row are like. *)
Record chunk_typed (c : ChunkRow) : Prop := {
  ct_upload : is_u64 (cr_upload c) ∧ cr_upload c ≠ 0;
  ct_index : is_u64 (cr_index c);
  ct_file : is_u64 (cr_file c) ∧ cr_file c ≠ 0;
  ct_owner : is_u64 (cr_owner c) ∧ cr_owner c ≠ 0;
  ct_offset : is_u64 (cr_offset c);
  ct_size : is_u64 (cr_size c) ∧ cr_size c ≠ 0;
  ct_algorithm : cr_algorithm c = str "sha256";
  ct_checksum : bsize (cr_checksum c) = 64;
  ct_key : cr_key c ≠ [];
  ct_status : cr_status c = 1 ∨ cr_status c = 2;
  ct_version : is_u64 (cr_version c);
}.

Lemma chunk_ok_typed d k c : db_ok d → chunks d !! k = Some c → chunk_typed c.
Proof.
  intros Hd Hc. pose proof (ok_chunk _ Hd _ _ Hc) as Ho. destruct k as [u i].
  destruct (co_session _ _ _ Ho) as (s & Hs & Hf & How & Hi & Hoff & Hsz & _). cbn [fst snd] in *.
  destruct (ok_session _ Hd _ _ Hs) as [Hu Hso]. destruct (so_file _ _ _ Hso) as (f & Hff & H1 & H2 & H3).
  destruct (ok_file _ Hd _ _ Hff) as [Hfi Hfo]. destruct (co_key _ _ _ Ho) as [E1 E2]. cbn [fst snd] in *.
  destruct (fo_owner _ _ Hfo), (fo_size _ _ Hfo) as [Hz Hz0], (so_chunk _ _ _ Hso) as [Hcz Hcz0].
  pose proof (ok_next_file _ Hd). pose proof (ok_next_upload _ Hd).
  assert (Hpos : 0 < sr_chunk s) by (unfold is_u64 in *; lia).
  pose proof (row_count_bound s i Hpos Hi) as Hb. unfold is_u64 in *.
  split; rewrite ?E1, ?E2, ?Hf, ?How, ?Hoff, ?Hsz, <- ?H1, <- ?H2 in *; unfold is_u64; try lia; try nia.
  - apply Ho.
  - apply Ho.
  - rewrite (co_part _ _ _ Ho). discriminate.
  - apply Ho.
  - destruct (co_version _ _ _ Ho). lia.
Qed.

Lemma parse_chunk c : chunk_typed c →
  ParseChunkResult [chunk_columns c] =
  MkRepo kRepoSucceeded (Some (chunk_record c)) (str "file upload chunk found").
Proof.
  intros [Hu Hi Hf Ho Hoff Hz Ha Hk Hp Hst Hv]. unfold ParseChunkResult.
  change (length (chunk_columns c)) with 14%nat. cbn [Nat.eqb negb].
  rewrite chunk_fields_row by (try (by apply Hu || by apply Hf || by apply Ho || by apply Hz);
    try done; unfold is_u32; lia).
  cbn [chunk_record rec_chunk_upload rec_chunk_file rec_chunk_owner rec_chunk_size rec_chunk_algorithm
       rec_chunk_checksum rec_chunk_key rec_chunk_status].
  rewrite !(proj2 (Z.eqb_neq _ 0)) by (apply Hu || apply Hf || apply Ho || apply Hz).
  rewrite Ha, Hk, bool_decide_true, Z.eqb_refl by done. destruct (cr_key c); [done|].
  by destruct Hst as [-> | ->].
Qed.

Lemma view_chunk c : chunk_typed c → ToChunkView (chunk_record c) = Some (chunk_row_view c).
Proof.
  intros [Hu Hi Hf Ho Hoff Hz Ha Hk Hp Hst Hv]. unfold ToChunkView.
  cbn [chunk_record rec_chunk_upload rec_chunk_file rec_chunk_owner rec_chunk_size rec_chunk_algorithm
       rec_chunk_checksum rec_chunk_key rec_chunk_status].
  rewrite !(proj2 (Z.eqb_neq _ 0)) by (apply Hu || apply Hf || apply Ho || apply Hz).
  rewrite (bool_decide_true (cr_algorithm c = _)), (proj2 (Z.eqb_eq (bsize (cr_checksum c)) 64) Hk) by done.
  unfold chunk_row_view. destruct (cr_key c); [done|]. by destruct Hst as [-> | ->].
Qed.

Lemma parse_chunks cs : Forall chunk_typed cs →
  ParseChunks (chunk_columns <$> cs) =
  MkRepo kRepoSucceeded (chunk_record <$> cs) (str "file upload chunks listed").
Proof.
  induction 1 as [|c cs Hc _ IH]; [done|]. rewrite !fmap_cons. cbn [ParseChunks].
  rewrite parse_chunk by done. cbn [q_status q_value]. by rewrite IH.
Qed.

(** ** The chunks of an upload *)

Lemma elem_of_upload_chunks d owner upload c : db_ok d →
  c ∈ upload_chunks d owner upload ↔ ∃ i, chunks d !! (upload, i) = Some c ∧ cr_owner c = owner.
Proof.
  intros Hd. unfold upload_chunks. rewrite merge_sort_Permutation, list_elem_of_filter.
  rewrite list_elem_of_fmap. split.
  - intros [[Hu Ho] ([[u i] c'] & -> & Hk%elem_of_map_to_list)]. cbn [snd] in *.
    pose proof (ok_chunk _ Hd _ _ Hk) as Hc. destruct (co_key _ _ _ Hc) as [E _]. cbn in E.
    exists i. split; [|done]. congruence.
  - intros (i & Hc & Ho). pose proof (ok_chunk _ Hd _ _ Hc) as Hk. destruct (co_key _ _ _ Hk) as [E _].
    split; [done|]. exists ((upload, i), c). split; [done|]. by apply elem_of_map_to_list.
Qed.

#[local] Instance index_le_total : Total index_le.
Proof. intros c c'. unfold index_le. lia. Qed.
#[local] Instance index_le_trans : Transitive index_le.
Proof. intros c c' c''. unfold index_le. lia. Qed.

(** Their indices go up. *)
Lemma upload_chunks_sorted d owner upload : db_ok d →
  StronglySorted Z.lt (cr_index <$> upload_chunks d owner upload).
Proof.
  intros Hd. set (cs := upload_chunks d owner upload).
  assert (Hs : StronglySorted index_le cs) by apply (StronglySorted_merge_sort index_le).
  assert (Hnd : NoDup cs).
  { unfold cs, upload_chunks. rewrite merge_sort_Permutation. apply NoDup_filter.
    rewrite <- (list_fmap_id ((map_to_list (chunks d)).*2)).
    apply NoDup_fmap_2_strong with (f := Datatypes.id); [done|].
    apply NoDup_fmap_2_strong; [|apply NoDup_map_to_list].
    intros [k c] [k' c'] Hk%elem_of_map_to_list Hk'%elem_of_map_to_list Heq. cbn in Heq. subst c'.
    pose proof (co_key _ _ _ (ok_chunk _ Hd _ _ Hk)) as [E1 E2].
    pose proof (co_key _ _ _ (ok_chunk _ Hd _ _ Hk')) as [E3 E4].
    destruct k, k'; cbn in *; congruence. }
  assert (Hin : ∀ c, c ∈ cs → chunks d !! (upload, cr_index c) = Some c).
  { intros c (i & Hc & _)%elem_of_upload_chunks; [|done].
    destruct (co_key _ _ _ (ok_chunk _ Hd _ _ Hc)) as [_ E]. cbn in E. by rewrite E. }
  clearbody cs. induction Hs as [|c cs Hs IH Hall]; [constructor|]. rewrite fmap_cons.
  apply NoDup_cons in Hnd as [Hni Hnd]. constructor.
  - apply IH; [done|]. intros. apply Hin. by right.
  - apply list.Forall_forall. intros i (c' & -> & Hc')%list_elem_of_fmap.
    pose proof (proj1 (list.Forall_forall _ _) Hall c' Hc') as Hle. unfold index_le in Hle.
    assert (cr_index c ≠ cr_index c'); [|lia]. intros E.
    pose proof (Hin c ltac:(by left)) as H1. pose proof (Hin c' ltac:(by right)) as H2.
    rewrite E in H1. rewrite H1 in H2. injection H2 as ->. done.
Qed.

End Tables.
