(* ===== verification/FileExample.v ===== *)
(** * A small world for the file service

    A hash function, a collation and a world without failures and without other users,
    on which the theorems about the file service are evaluated. *)
From Stdlib Require Import ZArith Lia String.
From stdpp Require Import base list numbers gmap sorting.
From S2P Require Import Prelude ByteStrings FileTypes FileWorld FileRepository FileRepositoryAdapter FileTables.

Local Open Scope Z_scope.

(** A function of the length and of the sum of the bytes, on 32 bytes. *)
Definition toy_sha256 : Sha256 := λ s,
  (λ i, (Z.of_nat i + foldr Z.add 0 s + Z.of_nat (length s)) `mod` 256) <$> seq 0 32.

Lemma toy_laws : @Sha256Laws toy_sha256.
Proof.
  split; intros s; [done|]. apply list.Forall_forall. intros b (i & -> & _)%list_elem_of_fmap.
  by apply Z.mod_pos_bound.
Qed.

(** Every call succeeds, moves what it is asked for, and nobody else is there. *)
Definition quiet (n : nat) : Moment Db :=
  MkMoment Datatypes.id false (str "none") 100 (MkStamp 1 true 0 0 0 0) (Z.of_nat n) 0 true
    (str "2026-01-01 00:00:00.000") Committed.

Definition same_text (s : list Z) : list Z := s.
Definition next_day (s : list Z) : list Z := s.

(** The tables with one user and no files. *)
Definition empty_db : Db := MkDb ∅ ∅ ∅ {[7]} 1 1.

Definition empty_world : World Db := MkWorld (MkShared empty_db (MkDisk ∅ ∅) ∅ []) 0.

Lemma empty_db_ok : db_ok same_text empty_db.
Proof. by split; cbn; try (intros; by rewrite lookup_empty in *). Qed.

(** The file of eight bytes user 7 declares. *)
Definition example_file : list Z := [104; 101; 108; 108; 111; 33; 33; 10].
Definition example_begin : BeginUploadCommand :=
  MkBegin 7 (str "client-1") (str "a.txt") (str "text/plain") 8 (str "sha256")
    (@Sha256Hex toy_sha256 true example_file) 262144.
