(* ===== verification/FileMoves.v ===== *)
(** * The changes of the tables of the file service

    Every transaction of [FileRepositoryAdapter] makes at most one of eight changes to
    the tables ([moves]); each of them keeps the invariant [db_ok]. *)
From Stdlib Require Import ZArith Lia String.
From stdpp Require Import base list numbers gmap sorting.
From S2P Require Import Prelude ByteStrings FileTypes FileWorld FileRepository FileRepositoryAdapter FileTables.

Local Open Scope Z_scope.

(** ** Rows with new states *)

Definition session_as (s : SessionRow) (status version : Z) (updated : list Z)
    (completed : option (list Z)) : SessionRow :=
  MkSessionRow (sr_upload s) (sr_file s) (sr_owner s) (sr_client s) (sr_fingerprint s) (sr_size s)
    (sr_chunk s) status version (sr_created s) updated (sr_expires s) completed.
Definition file_as (f : FileRow) (status : Z) (verified : option (list Z)) (version : Z)
    (updated : list Z) (available : option (list Z)) : FileRow :=
  MkFileRow (fr_id f) (fr_owner f) (fr_name f) (fr_type f) (fr_size f) (fr_algorithm f)
    (fr_expected f) verified (fr_backend f) (fr_key f) status version (fr_created f) updated
    available (fr_expires f).
Definition chunk_as (c : ChunkRow) (status version : Z) (updated : list Z) (stored : option (list Z))
  : ChunkRow :=
  MkChunkRow (cr_upload c) (cr_index c) (cr_file c) (cr_owner c) (cr_offset c) (cr_size c)
    (cr_algorithm c) (cr_checksum c) (cr_key c) status version (cr_created c) updated stored.

(** The rows of a new upload. *)
Definition new_file (id : Z) (c : BeginUploadCommand) (created updated : list Z) : FileRow :=
  MkFileRow id (begin_actor c) (begin_name c) (begin_type c) (begin_size c) (str "sha256")
    (begin_checksum c) None (str "local_fs") (Some (BuildStorageKey id)) 1 1 created updated None None.
Definition new_session (id file : Z) (c : BeginUploadCommand) (fp created expires : list Z) : SessionRow :=
  MkSessionRow id file (begin_actor c) (begin_client c) fp (begin_size c) (begin_chunk c) 1 1 created
    created expires None.
Definition new_chunk (upload index : Z) (s : SessionRow) (checksum created : list Z) : ChunkRow :=
  MkChunkRow upload index (sr_file s) (sr_owner s) (index * sr_chunk s)
    (Z.min (sr_chunk s) (sr_size s - index * sr_chunk s)) (str "sha256") checksum
    (BuildStoragePartKey upload index) 1 1 created created None.

(** The numbers of a command that begins an upload. *)
Definition begin_typed (c : BeginUploadCommand) : Prop :=
  is_u64 (begin_actor c) ∧ is_u64 (begin_size c) ∧ is_u64 (begin_chunk c).
Definition begin_sound (c : BeginUploadCommand) : Prop :=
  begin_typed c ∧ begin_actor c ≠ 0 ∧ begin_size c ≠ 0 ∧ begin_chunk c ≠ 0 ∧ begin_client c ≠ [] ∧
  bsize (begin_checksum c) = 64 ∧ begin_algorithm c = str "sha256".

(** Both rows of an upload replaced. *)
Definition advance (d : Db) (upload file : Z) (s : SessionRow) (f : FileRow) : Db :=
  set_files <[file := f]> (set_sessions <[upload := s]> d).

(** Every chunk is there and stored. *)
Definition all_stored (d : Db) (upload : Z) (s : SessionRow) : Prop :=
  ∀ i, 0 ≤ i < row_count s → ∃ c, chunks d !! (upload, i) = Some c ∧ cr_status c = 2.

Inductive Change :=
| Draw
| Create (c : BeginUploadCommand)
| Reserve (upload index : Z) (checksum : list Z)
| Store (upload index : Z) (checksum : list Z)
| Freeze (upload : Z)
| Complete (upload : Z) (checksum : list Z)
| Fail_ (upload : Z) (checksum : list Z)
| Cancel (upload : Z).

Section Moves.
Context (weight : list Z → list Z) `{Hash : Sha256}.

Inductive moves : Change → Db → Db → Prop :=
| moves_draw d nf nu :
    next_file d ≤ nf ≤ 2 ^ 64 → next_upload d ≤ nu ≤ 2 ^ 64 →
    moves Draw d (set_next_file nf (set_next_upload nu d))
| moves_create d c t t' e e' :
    begin_sound c → next_file d < 2 ^ 64 → next_upload d < 2 ^ 64 →
    client_session weight d (begin_actor c) (begin_client c) = None →
    moves (Create c) d
      (MkDb (<[next_file d := new_file (next_file d) c t t']> (files d))
         (<[next_upload d := new_session (next_upload d) (next_file d) c
                               (Sha256Hex true (canonical c)) e e']> (sessions d))
         (chunks d) (users d) (next_file d + 1) (next_upload d + 1))
| moves_reserve d upload index checksum s t :
    sessions d !! upload = Some s → sr_status s = 1 → 0 ≤ index < row_count s →
    bsize checksum = 64 → chunks d !! (upload, index) = None →
    moves (Reserve upload index checksum) d
      (set_chunks <[(upload, index) := new_chunk upload index s checksum t]> d)
| moves_store d upload index s c v t t' :
    sessions d !! upload = Some s → sr_status s = 1 → chunks d !! (upload, index) = Some c →
    cr_status c = 1 → is_u64 v →
    moves (Store upload index (cr_checksum c)) d
      (set_chunks <[(upload, index) := chunk_as c 2 v t t']> d)
| moves_freeze d upload s f v v' t t' :
    sessions d !! upload = Some s → files d !! sr_file s = Some f → sr_status s = 1 → fr_status f = 1 →
    all_stored d upload s → is_u64 v → is_u64 v' →
    moves (Freeze upload) d
      (advance d upload (sr_file s) (session_as s 2 v t (sr_completed s))
         (file_as f 2 (fr_verified f) v' t' (fr_available f)))
| moves_complete d upload s f v v' t t' e e' :
    sessions d !! upload = Some s → files d !! sr_file s = Some f → sr_status s = 2 → fr_status f = 2 →
    is_u64 v → is_u64 v' →
    moves (Complete upload (fr_expected f)) d
      (advance d upload (sr_file s) (session_as s 3 v t e)
         (file_as f 3 (Some (fr_expected f)) v' t' e'))
| moves_fail d upload checksum s f v t :
    sessions d !! upload = Some s → files d !! sr_file s = Some f → sr_status s = 2 → fr_status f = 2 →
    checksum ≠ fr_expected f → is_u64 v →
    moves (Fail_ upload checksum) d
      (set_files <[sr_file s := file_as f 4 (Some checksum) v t (fr_available f)]> d)
| moves_cancel d upload s f v v' t t' :
    sessions d !! upload = Some s → files d !! sr_file s = Some f → sr_status s = 1 → fr_status f = 1 →
    is_u64 v → is_u64 v' →
    moves (Cancel upload) d
      (advance d upload (sr_file s) (session_as s 4 v t (sr_completed s))
         (file_as f 5 (fr_verified f) v' t' (fr_available f))).

(** ** The invariant is kept *)

Lemma find_none {K A} `{Countable K} (m : gmap K A) (g : K * A → bool) k x :
  List.find g (map_to_list m) = None → m !! k = Some x → g (k, x) = false.
Proof.
  intros Hf Hk. eapply List.find_none; [exact Hf|]. apply list_elem_of_In. by apply elem_of_map_to_list.
Qed.

Lemma client_none d owner client id s :
  client_session weight d owner client = None → sessions d !! id = Some s → sr_owner s = owner →
  weight (sr_client s) ≠ weight client.
Proof.
  unfold client_session. destruct (List.find _ _) eqn:Hf; [done|]. intros _ Hs <- Hw.
  pose proof (find_none _ _ _ _ Hf Hs) as Hb. cbn in Hb.
  by rewrite Z.eqb_refl, bool_decide_true in Hb.
Qed.

Lemma draw_ok d nf nu : db_ok weight d → next_file d ≤ nf ≤ 2 ^ 64 → next_upload d ≤ nu ≤ 2 ^ 64 →
  db_ok weight (set_next_file nf (set_next_upload nu d)).
Proof.
  intros [] Hf Hu. split; cbn; try done; try lia.
  - intros id f Hid. split; [|by apply ok_file]. apply ok_file in Hid. lia.
  - intros id s Hid. apply ok_session in Hid as [Hi Hs]. split; [lia|]. by destruct Hs.
  - intros k c Hk. apply ok_chunk in Hk. by destruct Hk.
Qed.

(** A session or a chunk row says the same of tables with the same rows it refers to. *)
Lemma chunk_ok_sessions d d' k c :
  (∀ s, sessions d !! k.1 = Some s → sessions d' !! k.1 = Some s) →
  chunk_ok d k c → chunk_ok d' k c.
Proof.
  intros Hs []. split; try done. destruct co_session as (s & Hk & Hrest). exists s. split; [by apply Hs|done].
Qed.

Lemma session_ok_files d d' id s :
  (∀ f, files d !! sr_file s = Some f → files d' !! sr_file s = Some f) →
  session_ok d id s → session_ok d' id s.
Proof.
  intros Hf []. split; try done. destruct so_file as (f & Hk & Hrest). exists f. split; [by apply Hf|done].
Qed.

Lemma create_ok d c fp t t' e e' : db_ok weight d → begin_sound c → next_file d < 2 ^ 64 →
  next_upload d < 2 ^ 64 → client_session weight d (begin_actor c) (begin_client c) = None →
  db_ok weight
    (MkDb (<[next_file d := new_file (next_file d) c t t']> (files d))
       (<[next_upload d := new_session (next_upload d) (next_file d) c fp e e']> (sessions d))
       (chunks d) (users d) (next_file d + 1) (next_upload d + 1)).
Proof.
  intros Hd ((Ta & Ts & Tc) & Ha & Hs & Hc & Hcl & Hck & _) Hnf Hnu Hnone.
  pose proof (ok_next_file _ _ Hd) as Bf. pose proof (ok_next_upload _ _ Hd) as Bu.
  assert (Hold : ∀ id s, sessions d !! id = Some s → id ≠ next_upload d ∧ sr_file s ≠ next_file d).
  { intros id s Hid. destruct (ok_session _ _ Hd _ _ Hid) as [Hi Hso].
    destruct (so_file _ _ _ Hso) as (f & Hf & _). apply (ok_file _ _ Hd) in Hf. lia. }
  assert (Hkeep : ∀ id s, sessions d !! id = Some s →
    <[next_upload d := new_session (next_upload d) (next_file d) c fp e e']> (sessions d) !! id = Some s).
  { intros id s Hid. destruct (Hold _ _ Hid). by rewrite lookup_insert_ne. }
  split; cbn -[Z.pow]; try lia.
  - intros id f. rewrite lookup_insert_Some. intros [[<- <-]|[_ Hf]].
    + split; [lia|]. split; cbn; try done.
    + apply (ok_file _ _ Hd) in Hf as [Hi Hf]. split; [lia|done].
  - intros id s. rewrite lookup_insert_Some. intros [[<- <-]|[_ Hid]].
    + split; [lia|]. split; cbn; try done.
      eexists. split; [by apply lookup_insert_eq|]. cbn. unfold states_ok. split_and!; try done. lia.
    + destruct (Hold _ _ Hid). destruct (ok_session _ _ Hd _ _ Hid) as [Hi Hso]. split; [lia|].
      eapply session_ok_files; [|exact Hso]. intros f Hf. cbn. by rewrite lookup_insert_ne.
  - intros k r Hk. eapply chunk_ok_sessions; [|by apply (ok_chunk _ _ Hd)]. cbn. apply Hkeep.
  - intros id id' s s'. rewrite !lookup_insert_Some.
    intros [[<- <-]|[_ H1]] [[<- <-]|[_ H2]] Ho Hw; cbn in *; [done|..].
    + by destruct (client_none _ _ _ _ _ Hnone H2).
    + by destruct (client_none _ _ _ _ _ Hnone H1).
    + by eapply (ok_client _ _ Hd).
  - intros id id' s s'. rewrite !lookup_insert_Some.
    intros [[<- <-]|[_ H1]] [[<- <-]|[_ H2]] Hf; cbn in *; [done|..].
    + by destruct (Hold _ _ H2) as [_ []].
    + by destruct (Hold _ _ H1) as [_ []].
    + by eapply (ok_one_session _ _ Hd).
  - intros id s. rewrite lookup_insert_Some. intros [[<- <-]|[_ H1]] Hst; [cbn in Hst; lia|].
    by apply (ok_complete _ _ Hd).
Qed.

(** A chunk row added or replaced. *)
Lemma set_chunk_ok d k c : db_ok weight d → chunk_ok d k c →
  db_ok weight (set_chunks <[k := c]> d).
Proof.
  intros [] Hc. split; cbn; try done.
  - intros id s Hs. apply ok_session in Hs as [Hi Hs]. split; [done|]. by destruct Hs.
  - intros k' c'. rewrite lookup_insert_Some. intros [[<- <-]|[_ Hk]].
    + by destruct Hc.
    + by destruct (ok_chunk _ _ Hk).
  - intros id s Hs Hst i Hi. destruct (decide (k = (id, i))) as [-> |Hne].
    + by rewrite lookup_insert_eq.
    + rewrite lookup_insert_ne by done. by eapply ok_complete.
Qed.

Lemma advance_ok d upload s f status version t e status' verified version' t' e' :
  db_ok weight d → sessions d !! upload = Some s → files d !! sr_file s = Some f →
  states_ok status status' → is_u64 version → is_u64 version' →
  match status' with
  | 3 => verified = Some (fr_expected f)
  | 4 => ∃ x, verified = Some x ∧ x ≠ fr_expected f
  | _ => verified = None
  end →
  (status = 2 ∨ status = 3 → all_stored d upload s) →
  db_ok weight (advance d upload (sr_file s) (session_as s status version t e)
                  (file_as f status' verified version' t' e')).
Proof.
  intros Hd Hs Hf Hst Hv Hv' Hver Hall.
  destruct (ok_session _ _ Hd _ _ Hs) as [Hui Hso]. destruct (ok_file _ _ Hd _ _ Hf) as [Hfi Hfo].
  destruct (so_file _ _ _ Hso) as (f' & Hf' & Ho & Hz & _). rewrite Hf in Hf'. injection Hf' as <-.
  assert (Hrow : ∀ id s', <[upload := session_as s status version t e]> (sessions d) !! id = Some s' →
    ∃ s0, sessions d !! id = Some s0 ∧ sr_owner s' = sr_owner s0 ∧ sr_client s' = sr_client s0 ∧
          sr_file s' = sr_file s0).
  { intros id s'. rewrite lookup_insert_Some. intros [[<- <-]|[_ H]]; [by exists s|by exists s']. }
  split; cbn -[Z.pow]; [apply Hd|apply Hd|..].
  - intros id f'. rewrite lookup_insert_Some. intros [[<- <-]|[_ H]]; [|by apply (ok_file _ _ Hd)].
    split; [done|]. destruct Hfo. split; try done. cbn. unfold states_ok in Hst. lia.
  - intros id s'. rewrite lookup_insert_Some. intros [[<- <-]|[Hne H]].
    + split; [done|]. destruct Hso. split; cbn; try done. eexists. split; [by apply lookup_insert_eq|done].
    + destruct (ok_session _ _ Hd _ _ H) as [Hi Hso']. split; [done|].
      eapply session_ok_files; [|exact Hso']. cbn. intros f' Hf'. rewrite lookup_insert_ne; [done|].
      intros E. by destruct Hne; eapply (ok_one_session _ _ Hd).
  - intros k c Hk. pose proof (ok_chunk _ _ Hd _ _ Hk) as Hc.
    destruct (decide (k.1 = upload)) as [E|Hne].
    + destruct Hc as [H1 H2 H3 H4 H5 H6 (s0 & Hs0 & Hrest)]. split; try done.
      rewrite E in *. rewrite Hs in Hs0. injection Hs0 as <-. exists (session_as s status version t e).
      cbn. rewrite lookup_insert_eq. destruct Hrest as (R1 & R2 & R3 & R4 & R5 & R6). split_and!; try done.
      1, 2: apply R3. cbn. intros N1 N4. assert (status = 2 ∨ status = 3) as Hc by (unfold states_ok in Hst; lia).
      destruct (Hall Hc k.2 R3) as (c' & Hc' & Hst'). rewrite <- E, <- surjective_pairing, Hk in Hc'.
      congruence.
    + eapply chunk_ok_sessions; [|exact Hc]. intros s0 Hs0. cbn. by rewrite lookup_insert_ne.
  - intros id id' s1 s2 (s1' & H1 & O1 & C1 & _)%Hrow (s2' & H2 & O2 & C2 & _)%Hrow. rewrite O1, O2, C1, C2.
    by apply (ok_client _ _ Hd).
  - intros id id' s1 s2 (s1' & H1 & _ & _ & F1)%Hrow (s2' & H2 & _ & _ & F2)%Hrow. rewrite F1, F2.
    by apply (ok_one_session _ _ Hd).
  - intros id s'. rewrite lookup_insert_Some. intros [[<- <-]|[_ H]] Hc i Hi; [|by eapply (ok_complete _ _ Hd)].
    destruct (Hall Hc i Hi) as (c & Hc' & _). by exists c.
Qed.

(** A session that is not active has its chunks. *)
Lemma frozen_stored d upload s : db_ok weight d → sessions d !! upload = Some s →
  sr_status s = 2 ∨ sr_status s = 3 → all_stored d upload s.
Proof.
  intros Hd Hs Hst i Hi. destruct (ok_complete _ _ Hd _ _ Hs Hst i Hi) as [c Hc]. exists c. split; [done|].
  destruct (co_session _ _ _ (ok_chunk _ _ Hd _ _ Hc)) as (s' & Hs' & _ & _ & _ & _ & _ & Hstored).
  cbn in Hs'. rewrite Hs in Hs'. injection Hs' as <-. apply Hstored; lia.
Qed.

Lemma file_verified d upload s f : db_ok weight d → sessions d !! upload = Some s →
  files d !! sr_file s = Some f → fr_status f = 1 → fr_verified f = None.
Proof.
  intros Hd Hs Hf Hst. destruct (ok_file _ _ Hd _ _ Hf) as [_ Hfo]. pose proof (fo_verified _ _ Hfo) as Hv.
  by rewrite Hst in Hv.
Qed.

Lemma moves_ok l d d' : db_ok weight d → moves l d d' → db_ok weight d'.
Proof.
  intros Hd. destruct 1 as [|?|d u i ck s t Hs Hst Hi Hck Hno|d u i s c v t t' Hs Hst Hc Hcs Hv
    |d u s f v v' t t' Hs Hf Hst Hft Hall|d u s f v v' t t' e e' Hs Hf Hst Hft
    |d u ck s f v t Hs Hf Hst Hft Hck|d u s f v v' t t' Hs Hf Hst Hft].
  - by apply draw_ok.
  - by apply create_ok.
  - apply set_chunk_ok; [done|]. split; cbn; try done; [by left|].
    exists s. by split_and!; try lia.
  - apply set_chunk_ok; [done|]. destruct (ok_chunk _ _ Hd _ _ Hc). split; cbn; try done; [by right|].
    destruct co_session as (s' & ? & ? & ? & ? & ? & ? & ?). exists s'. split_and!; try done; cbn in *; lia.
  - eapply advance_ok; try done; [unfold states_ok; lia|]. by eapply file_verified.
  - eapply advance_ok; try done; [unfold states_ok; lia|]. intros _. apply (frozen_stored d); auto.
  - assert (session_as s 2 (sr_version s) (sr_updated s) (sr_completed s) = s) as E
      by (destruct s; cbn in *; by subst).
    pose proof (advance_ok d u s f 2 (sr_version s) (sr_updated s) (sr_completed s) 4 (Some ck) v t
                  (fr_available f)) as Hadv. rewrite E in Hadv.
    unfold advance, set_sessions in Hadv. rewrite insert_id in Hadv by done.
    destruct (ok_session _ _ Hd _ _ Hs) as [_ Hso].
    apply Hadv; try done; [unfold states_ok; lia|apply Hso|by exists ck|].
    intros _. apply (frozen_stored d); auto.
  - eapply advance_ok; try done; [unfold states_ok; lia| |lia]. by eapply file_verified.
Qed.

End Moves.
