(* ===== verification/FileOperations.v ===== *)
(** * What the operations of the file repository do

    Rules for the operations of [FileRepositoryAdapter]: an operation keeps every
    invariant of the shared state that the others keep, that implies [db_ok], and that
    the one change of the tables the operation makes keeps; and what it answers is what
    the tables hold. *)
From Stdlib Require Import ZArith Lia String.
From stdpp Require Import base list numbers gmap sorting.
From S2P Require Import Prelude ByteStrings FileTypes FileWorld FileRepository FileRepositoryAdapter FileTables FileMoves.

Local Open Scope Z_scope.

(** The state with other tables. *)
Definition retable (s : Shared Db) (d : Db) : Shared Db := MkShared d (disk s) (verified_objects_ s) (digested s).

(** The counters are as they were. *)
Definition same_ids (d d' : Db) : Prop := next_file d' = next_file d ∧ next_upload d' = next_upload d.

Lemma rolled_back_same d d' : same_ids d d' → rolled_back d d' = d.
Proof. intros [E1 E2]. unfold rolled_back, set_next_file, set_next_upload. rewrite E1, E2. by destruct d. Qed.

Lemma retable_same s : retable s (tables s) = s.
Proof. by destruct s. Qed.

(** ** Computations inside a transaction *)

Definition wp {A} (e : Tx A) (Q : A → Db → Prop) (d : Db) : Prop :=
  ∀ n, Q (e (d, n)).2 (e (d, n)).1.1.

Lemma tx_wp_ret {A} (a : A) (Q : A → Db → Prop) d : Q a d → wp (mret a) Q d.
Proof. by intros H n. Qed.

Lemma tx_wp_bind {A B} (e : Tx A) (f : A → Tx B) Q d : wp e (λ a d', wp (f a) Q d') d → wp (e ≫= f) Q d.
Proof.
  intros H n. specialize (H n). unfold mbind, tx_bind. destruct (e (d, n)) as [[d' n'] a]. apply H.
Qed.

Lemma tx_wp_mono {A} (e : Tx A) (Q Q' : A → Db → Prop) d : wp e Q d → (∀ a d', Q a d' → Q' a d') → wp e Q' d.
Proof. intros H HQ n. apply HQ, H. Qed.

Section Operations.
Context (moment : nat → Moment Db) `{Hash : Sha256}.
Context (weight : list Z → list Z) (add_day : list Z → list Z).
Context (repository_ pool_ begin_snapshot : bool).

Local Abbreviation db_ok := (db_ok weight).
Local Abbreviation moves := (moves weight).

Lemma wp_query {A} (select : Db → A) (Q : list Z + A → Db → Prop) d :
  (∀ e, Q (inl e) d) → Q (inr (select d)) d → wp (Query moment select) Q d.
Proof. intros He Hs n. cbn. by destruct (fails (moment n)). Qed.

Lemma wp_execute {A} (statement : Moment Db → Db → option (Db * A)) (Q : list Z + A → Db → Prop) d :
  (∀ e, Q (inl e) d) → (∀ m d' a, statement m d = Some (d', a) → Q (inr a) d') →
  wp (Execute moment statement) Q d.
Proof.
  intros He Hs n. cbn. destruct (fails (moment n)); [apply He|].
  destruct (statement (moment n) d) as [[d' a]|] eqn:E; [by eapply Hs|apply He].
Qed.

(** ** Transactions *)

Section Transactions.
Context {R : Type} (I : Shared Db → Prop) (Q : R → Shared Db → Prop).
Hypothesis HI : stable moment I.

(** What the end of a transaction on the state [s] has to satisfy. *)
Definition ends (s : Shared Db) (e : Ending R) (d : Db) : Prop :=
  match e with
  | Rollback r => Q r (retable s (rolled_back (tables s) d))
  | Commit r recover =>
      Q r (retable s d) ∧ I (retable s d) ∧ I (retable s (rolled_back (tables s) d)) ∧
      ∀ text, triple I (recover text) Q
  end.

Lemma triple_transaction (failure : FileApplicationStatus → list Z → R) name body :
  (∀ text s, I s → Q (failure kStorageError text) s) →
  (∀ s, I s → wp body (ends s) (tables s)) →
  triple I (Transaction moment failure name body) Q.
Proof.
  intros Hfail Hbody. unfold Transaction. apply triple_tick_bind; [done|]. intros n0.
  destruct (fails (moment n0)); [apply triple_ret; intros s; by apply Hfail|].
  intros w Hw. specialize (Hbody _ Hw (S (ticks w))).
  destruct (fails (moment (ticks w))).
  { cbn. change (MkShared _ _ _ _) with (retable (shared w) (tables (shared w))).
    rewrite retable_same. by apply Hfail. }
  destruct (body _) as [[d n] [r|r recover]]; cbn [fst snd ends] in Hbody; [done|].
  destruct Hbody as (H1 & H2 & H3 & H4).
  destruct (commit (moment n)); [done| |]; by apply H4.
Qed.

Lemma ends_rollback s r d : same_ids (tables s) d → Q r s → ends s (Rollback r) d.
Proof. intros Hd Hr. cbn. by rewrite rolled_back_same, retable_same. Qed.

Lemma ends_commit s r recover d : same_ids (tables s) d → I s → I (retable s d) →
  Q r (retable s d) → (∀ text, triple I (recover text) Q) → ends s (Commit r recover) d.
Proof. intros Hd Hs Hi Hr Hrec. cbn. rewrite rolled_back_same, retable_same by done. by split_and!. Qed.

(** Reads on a connection of their own. *)
Lemma triple_connection (none : R) (body : Tx R) :
  (∀ s, I s → Q none s) → (∀ s, I s → wp body (λ r _, Q r s) (tables s)) →
  triple I (WithConnection moment none body) Q.
Proof.
  intros Hnone Hbody. unfold WithConnection. apply triple_tick_bind; [done|]. intros n0.
  destruct (fails (moment n0)); [by apply triple_ret|]. intros w Hw.
  specialize (Hbody _ Hw (ticks w)). by destruct (body _) as [[d n] r].
Qed.

End Transactions.

(** ** Reads *)

Lemma wp_find_bundle d owner upload (Q : FileUploadBundleFindResult → Db → Prop) : db_ok d →
  (∀ st text, Succeeded st = false → Q (MkRepo st None text) d) →
  (∀ text, Q (MkRepo kRepoSucceeded None text) d) →
  (∀ s f text, has_bundle d owner upload s f →
     Q (MkRepo kRepoSucceeded (Some (bundle_record f s)) text) d) →
  wp (FindUploadBundleOnConnection moment owner upload) Q d.
Proof.
  intros Hd Hfail Hno Hyes. unfold FindUploadBundleOnConnection.
  destruct (_ || _); [by apply tx_wp_ret, Hfail|]. apply tx_wp_bind, wp_query.
  - intros e. by apply tx_wp_ret, Hfail.
  - apply tx_wp_ret. unfold joined. destruct (owned_session d owner upload) as [s|] eqn:Hs; [|apply Hno].
    destruct (owned_bundle _ _ _ _ _ Hd Hs) as [f Hb]. pose proof Hb as (_ & _ & Hf). rewrite Hf.
    rewrite (parse_bundle _ _ _ _ _ _ Hd Hb). by apply Hyes.
Qed.

Lemma client_bundle d owner client s : db_ok d → client_session weight d owner client = Some s →
  weight (sr_client s) = weight client ∧ ∃ f, has_bundle d owner (sr_upload s) s f.
Proof.
  intros Hd. unfold client_session. destruct (List.find _ _) as [[id s']|] eqn:Hf; [|done]. intros [= <-].
  apply List.find_some in Hf as [Hin Hb]. apply list_elem_of_In, elem_of_map_to_list in Hin.
  apply andb_true_iff in Hb as [Ho%Z.eqb_eq Hw%bool_decide_eq_true]. split; [done|].
  destruct (ok_session _ _ Hd _ _ Hin) as [_ Hso]. destruct (so_file _ _ _ Hso) as (f & Hf & _).
  exists f. split; [by rewrite (so_id _ _ _ Hso)|done].
Qed.

Lemma wp_find_client d owner client (Q : FileUploadBundleFindResult → Db → Prop) : db_ok d →
  (∀ st text, Succeeded st = false → Q (MkRepo st None text) d) →
  (∀ text, owner ≠ 0 → client ≠ [] → client_session weight d owner client = None →
           Q (MkRepo kRepoSucceeded None text) d) →
  (∀ s f text, has_bundle d owner (sr_upload s) s f → weight (sr_client s) = weight client →
     Q (MkRepo kRepoSucceeded (Some (bundle_record f s)) text) d) →
  wp (FindByClientUploadIdOnConnection moment weight owner client) Q d.
Proof.
  intros Hd Hfail Hno Hyes. unfold FindByClientUploadIdOnConnection.
  destruct (_ || _) eqn:Hg; [by apply tx_wp_ret, Hfail|]. apply tx_wp_bind, wp_query.
  - intros e. by apply tx_wp_ret, Hfail.
  - apply tx_wp_ret. unfold joined. reflect_guards.
    destruct (client_session weight d owner client) as [s|] eqn:Hs.
    + destruct (client_bundle _ _ _ _ Hd Hs) as (Hw & f & Hb). pose proof Hb as (_ & _ & Hf). rewrite Hf.
      rewrite (parse_bundle _ _ _ _ _ _ Hd Hb). by apply Hyes.
    + apply Hno; try done. by intros ->.
Qed.

Lemma wp_find_chunk d owner upload index (Q : FileUploadChunkFindResult → Db → Prop) : db_ok d →
  (∀ st text, Succeeded st = false → Q (MkRepo st None text) d) →
  (∀ text, Q (MkRepo kRepoSucceeded None text) d) →
  (∀ c text, has_chunk d owner upload index c →
     Q (MkRepo kRepoSucceeded (Some (chunk_record c)) text) d) →
  wp (FindChunkOnConnection moment owner upload index) Q d.
Proof.
  intros Hd Hfail Hno Hyes. unfold FindChunkOnConnection.
  destruct (_ || _); [by apply tx_wp_ret, Hfail|]. apply tx_wp_bind, wp_query.
  - intros e. by apply tx_wp_ret, Hfail.
  - apply tx_wp_ret. unfold owned_chunk. destruct (chunks d !! (upload, index)) as [c|] eqn:Hc; [|apply Hno].
    destruct (Z.eqb_spec (cr_owner c) owner) as [Ho|]; [|apply Hno].
    rewrite parse_chunk by (by eapply chunk_ok_typed). by apply Hyes.
Qed.

Lemma wp_find_chunks d owner upload (Q : FileUploadChunkListResult → Db → Prop) : db_ok d →
  (∀ st text, Succeeded st = false → Q (MkRepo st [] text) d) →
  (∀ text, Q (MkRepo kRepoSucceeded (chunk_record <$> upload_chunks d owner upload) text) d) →
  wp (FindChunksOnConnection moment owner upload) Q d.
Proof.
  intros Hd Hfail Hyes. unfold FindChunksOnConnection.
  destruct (_ || _); [by apply tx_wp_ret, Hfail|]. apply tx_wp_bind, wp_query.
  - intros e. by apply tx_wp_ret, Hfail.
  - apply tx_wp_ret. rewrite parse_chunks; [by apply Hyes|]. apply list.Forall_forall.
    intros c Hc. apply (elem_of_upload_chunks _ _ _ _ _ Hd) in Hc as (i & Hc & _). by eapply chunk_ok_typed.
Qed.

Lemma map_failed st : Succeeded st = false → MapStorageStatus st ≠ kSucceeded.
Proof. by destruct st. Qed.

Lemma found_failed {A} st (v : option A) text missing other : Succeeded st = false →
  found_record (MkRepo st v text) missing other = inl (MapStorageStatus st, text).
Proof. intros Hst. unfold found_record. cbn [q_status q_message]. by rewrite Hst. Qed.

Lemma found_some {A} (a : A) text missing other :
  found_record (MkRepo kRepoSucceeded (Some a) text) missing other = inr a.
Proof. done. Qed.

(** The bundle an operation starts with. *)
Lemma wp_locked_bundle {R} d owner upload (fail : FileApplicationStatus → list Z → R) text
    (next : FileUploadBundleRecord → UploadBundleView → Tx (Ending R)) Q : db_ok d →
  (∀ st message, st ≠ kSucceeded → wp (reject (fail st message)) Q d) →
  (∀ s f, has_bundle d owner upload s f → wp (next (bundle_record f s) (bundle_row_view f s)) Q d) →
  wp (locked_bundle moment owner upload (λ st m, reject (fail st m)) text next) Q d.
Proof.
  intros Hd Hfail Hnext. unfold locked_bundle. apply tx_wp_bind, wp_find_bundle; [done|..].
  - intros st m Hst. rewrite found_failed by done. by apply Hfail, map_failed.
  - intros m. by apply Hfail.
  - intros s f m Hb. rewrite found_some, (view_bundle _ _ _ _ _ _ Hd Hb).
    by apply Hnext.
Qed.

Lemma wp_updated_bundle {R} d owner upload (fail : FileApplicationStatus → list Z → R) text
    (next : FileUploadBundleRecord → Tx (Ending R)) Q : db_ok d →
  (∀ st message, st ≠ kSucceeded → wp (reject (fail st message)) Q d) →
  (∀ s f, has_bundle d owner upload s f → wp (next (bundle_record f s)) Q d) →
  wp (updated_bundle moment owner upload (λ st m, reject (fail st m)) text next) Q d.
Proof.
  intros Hd Hfail Hnext. unfold updated_bundle. apply tx_wp_bind, wp_find_bundle; [done|..].
  - intros st m Hst. rewrite found_failed by done. by apply Hfail, map_failed.
  - intros m. by apply Hfail.
  - intros s f m Hb. rewrite found_some. by apply Hnext.
Qed.

(** The states of an upload are those of its file. *)
Lemma in_states d owner upload s f : db_ok d → has_bundle d owner upload s f →
  in_state (bundle_row_view f s) kActive kUploading = (fr_status f =? 1) ∧
  in_state (bundle_row_view f s) kFinalizing kVerifying = (fr_status f =? 2) ∧
  in_state (bundle_row_view f s) kCompleted kAvailable = (fr_status f =? 3) ∧
  in_state (bundle_row_view f s) kFinalizing kFailed = (fr_status f =? 4) ∧
  in_state (bundle_row_view f s) kSessionCanceled kFileCanceled = (fr_status f =? 5).
Proof.
  intros Hd Hb. destruct (bundle_ok _ _ _ _ _ _ Hd Hb) as (_ & _ & _ & Hst & _).
  unfold in_state, is_session, is_file. cbn [bundle_row_view bundle_session bundle_file session_status
    file_row_view file_view file_status].
  by destruct Hst as [[-> ->]|[[-> ->]|[[-> ->]|[[-> ->]|[-> ->]]]]].
Qed.

(** ** Changes *)

Lemma next_version_u64 v v' : is_u64 v → next_version v = Some v' → is_u64 v'.
Proof.
  unfold next_version, is_u64. destruct (Z.ltb_spec v (2 ^ 64 - 1)); [|done]. intros ? [= <-]. lia.
Qed.

Lemma wp_exact_session d upload where_ set what next (Q : FileMutationResult → Db → Prop) :
  (∀ st text, Succeeded st = false → Q (MkRepo st 0 text) d) →
  (∀ s m s', sessions d !! upload = Some s → where_ s = true → set m s = Some s' →
             wp next Q (set_sessions <[upload := s']> d)) →
  wp (exactly_one moment (λ m, update_session upload where_ (set m)) what next) Q d.
Proof.
  intros Hfail Hnext. unfold exactly_one. apply tx_wp_bind, wp_execute.
  - intros e. by apply tx_wp_ret, Hfail.
  - intros m d' n. unfold update_session. destruct (sessions d !! upload) as [s|] eqn:Hs.
    + destruct (where_ s) eqn:Hw; [destruct (set m s) as [s'|] eqn:Hset|]; intros [= <- <-]; cbn [Z.eqb negb].
      * by eapply Hnext.
      * by apply tx_wp_ret, Hfail.
    + intros [= <- <-]. by apply tx_wp_ret, Hfail.
Qed.

Lemma wp_exact_file d file where_ status verified available what next (Q : FileMutationResult → Db → Prop) :
  (∀ st text, Succeeded st = false → Q (MkRepo st 0 text) d) →
  (∀ f m v, files d !! file = Some f → where_ f = true → next_version (fr_version f) = Some v →
     wp next Q (set_files <[file := file_as f status (verified f) v (now m) (available m f)]> d)) →
  wp (exactly_one moment (λ m, update_file file where_ (file_to status verified (available m) m))
        what next) Q d.
Proof.
  intros Hfail Hnext. unfold exactly_one. apply tx_wp_bind, wp_execute.
  - intros e. by apply tx_wp_ret, Hfail.
  - intros m d' n. unfold update_file, file_to. destruct (files d !! file) as [f|] eqn:Hf.
    + destruct (where_ f) eqn:Hw; [destruct (next_version (fr_version f)) as [v|] eqn:Hv|];
        intros [= <- <-]; cbn [Z.eqb negb].
      * by apply Hnext.
      * by apply tx_wp_ret, Hfail.
    + intros [= <- <-]. by apply tx_wp_ret, Hfail.
Qed.

Ltac solve_version := eapply next_version_u64; [|eassumption]; assumption.

(** The rows a change is about, for the proofs below. *)
Ltac bundle_facts Hd Hb :=
  let Hfo := fresh "Hfo" in let Hso := fresh "Hso" in
  pose proof (bundle_ok _ _ _ _ _ _ Hd Hb) as (Hfo & _ & _ & _ & _ & _ & Hso);
  pose proof (fo_version _ _ Hfo); pose proof (so_version _ _ _ Hso);
  pose proof (fo_id _ _ Hfo); destruct Hb as (Hs & Ho & Hf).

Lemma wp_cancel d owner upload s f (Q : FileMutationResult → Db → Prop) :
  db_ok d → has_bundle d owner upload s f → sr_status s = 1 → fr_status f = 1 →
  (∀ r d', same_ids d d' → Succeeded (q_status r) = false → Q r d') →
  (∀ r d', same_ids d d' → moves (Cancel upload) d d' → Q r d') →
  wp (CancelUploadOnConnection moment owner upload (fr_id f)) Q d.
Proof.
  intros Hd Hb Hst Hft Hfail Hok. bundle_facts Hd Hb.
  unfold CancelUploadOnConnection. destruct (_ || _); [by apply tx_wp_ret, Hfail|].
  apply wp_exact_session; [intros; by apply Hfail|]. intros s0 m s' Hs0 _ Hto. rewrite Hs in Hs0.
  injection Hs0 as <-. unfold session_to in Hto. destruct (next_version (sr_version s)) as [v|] eqn:Hv; [|done].
  injection Hto as <-. apply (wp_exact_file _ _ _ _ _ (λ _, fr_available)); [intros; by apply Hfail|].
  cbn [files set_sessions]. intros f0 m' v' Hf0 _ Hv'. replace (fr_id f) with (sr_file s) in * by done.
  rewrite Hf in Hf0. injection Hf0 as <-. apply tx_wp_ret, Hok; [done|].
  apply (moves_cancel weight d upload s f v v'); try done; solve_version.
Qed.

Lemma wp_begin_finalize d owner upload s f (Q : FileMutationResult → Db → Prop) :
  db_ok d → has_bundle d owner upload s f → sr_status s = 1 → fr_status f = 1 → all_stored d upload s →
  (∀ r d', same_ids d d' → Succeeded (q_status r) = false → Q r d') →
  (∀ r d', same_ids d d' → chunks d' = chunks d → moves (Freeze upload) d d' → Q r d') →
  wp (BeginFinalizeOnConnection moment owner upload (fr_id f)) Q d.
Proof.
  intros Hd Hb Hst Hft Hall Hfail Hok. bundle_facts Hd Hb.
  unfold BeginFinalizeOnConnection. destruct (_ || _); [by apply tx_wp_ret, Hfail|].
  apply wp_exact_session; [intros; by apply Hfail|]. intros s0 m s' Hs0 _ Hto. rewrite Hs in Hs0.
  injection Hs0 as <-. unfold session_to in Hto. destruct (next_version (sr_version s)) as [v|] eqn:Hv; [|done].
  injection Hto as <-. apply (wp_exact_file _ _ _ _ _ (λ _, fr_available)); [intros; by apply Hfail|].
  cbn [files set_sessions]. intros f0 m' v' Hf0 _ Hv'. replace (fr_id f) with (sr_file s) in * by done.
  rewrite Hf in Hf0. injection Hf0 as <-. apply tx_wp_ret, Hok; [done|done|].
  apply (moves_freeze weight d upload s f v v'); try done; solve_version.
Qed.

Lemma wp_complete d owner upload s f (Q : FileMutationResult → Db → Prop) :
  db_ok d → has_bundle d owner upload s f → sr_status s = 2 → fr_status f = 2 →
  (∀ r d', same_ids d d' → Succeeded (q_status r) = false → Q r d') →
  (∀ r d', same_ids d d' → moves (Complete upload (fr_expected f)) d d' → Q r d') →
  wp (CompleteFinalizeOnConnection moment weight owner upload (fr_id f) (fr_expected f)) Q d.
Proof.
  intros Hd Hb Hst Hft Hfail Hok. bundle_facts Hd Hb.
  unfold CompleteFinalizeOnConnection. destruct (_ || _); [by apply tx_wp_ret, Hfail|].
  apply (wp_exact_file _ _ _ _ (λ _, Some (fr_expected f)) (λ m r, Some (default (now m) (fr_available r))));
    [intros; by apply Hfail|].
  intros f0 m' v' Hf0 _ Hv'. replace (fr_id f) with (sr_file s) in * by done.
  rewrite Hf in Hf0. injection Hf0 as <-. apply wp_exact_session; [intros; by apply Hfail|].
  cbn [sessions set_files]. intros s0 m s' Hs0 _ Hto. rewrite Hs in Hs0. injection Hs0 as <-.
  unfold session_to in Hto. destruct (next_version (sr_version s)) as [v|] eqn:Hv; [|done].
  injection Hto as <-. apply tx_wp_ret, Hok; [done|].
  eapply (moves_complete weight d upload s f v v'); try done; solve_version.
Qed.

Lemma wp_fail_checksum d owner upload s f checksum (Q : FileMutationResult → Db → Prop) :
  db_ok d → has_bundle d owner upload s f → sr_status s = 2 → fr_status f = 2 → checksum ≠ fr_expected f →
  (∀ r d', same_ids d d' → Succeeded (q_status r) = false → Q r d') →
  (∀ r d', same_ids d d' → moves (Fail_ upload checksum) d d' → Q r d') →
  wp (FailFinalizeChecksumOnConnection moment owner (fr_id f) checksum) Q d.
Proof.
  intros Hd Hb Hst Hft Hck Hfail Hok. bundle_facts Hd Hb.
  unfold FailFinalizeChecksumOnConnection. destruct (_ || _); [by apply tx_wp_ret, Hfail|].
  apply tx_wp_bind, wp_execute; [intros e; by apply tx_wp_ret, Hfail|].
  replace (fr_id f) with (sr_file s) in * by done. intros m d' n. unfold update_file, file_to. rewrite Hf.
  destruct (_ && _); [destruct (next_version (fr_version f)) as [v|] eqn:Hv|]; intros [= <- <-].
  - apply tx_wp_ret, Hok; [done|].
    apply (moves_fail weight d upload checksum s f v); try done. solve_version.
  - by apply tx_wp_ret, Hfail.
Qed.

Lemma wp_mark d owner upload index s c size checksum (Q : FileMutationResult → Db → Prop) :
  db_ok d → sessions d !! upload = Some s → sr_status s = 1 → has_chunk d owner upload index c →
  cr_checksum c = checksum →
  (∀ r d', same_ids d d' → Succeeded (q_status r) = false → Q r d') →
  (∀ r, Q r d) → (∀ r d', same_ids d d' → moves (Store upload index checksum) d d' → Q r d') →
  wp (MarkChunkStoredOnConnection moment weight owner upload index size checksum) Q d.
Proof.
  intros Hd Hs Hst [Hc Ho] Hck Hfail Hsame Hok.
  unfold MarkChunkStoredOnConnection. destruct (_ || _); [by apply tx_wp_ret, Hfail|].
  apply tx_wp_bind, wp_execute; [intros e; by apply tx_wp_ret, Hfail|]. intros m d' n. unfold mark_chunk. rewrite Hc.
  destruct (_ && _) eqn:Hg; [destruct (next_version (cr_version c)) as [v|] eqn:Hv|]; intros [= <- <-].
  - apply tx_wp_ret, Hok; [done|]. reflect_guards. subst checksum.
    eapply (moves_store weight d upload index s c v); try done.
    eapply next_version_u64; [|done]. apply (co_version _ _ _ (ok_chunk _ _ Hd _ _ Hc)).
  - apply tx_wp_ret, Hsame.
Qed.

Lemma wp_insert_chunk d owner upload index s f algorithm checksum (Q : FileUploadChunkInsertResult → Db → Prop) :
  db_ok d → has_bundle d owner upload s f → sr_status s = 1 → 0 ≤ index < row_count s →
  (∀ r d', same_ids d d' → Succeeded (q_status r) = false → Q r d') →
  (∀ r, Q r d) → (∀ r d', same_ids d d' → moves (Reserve upload index checksum) d d' → Q r d') →
  wp (InsertChunkIdempotentOnConnection moment weight upload index (fr_id f) owner (index * sr_chunk s)
        (Z.min (sr_chunk s) (sr_size s - index * sr_chunk s)) algorithm checksum
        (BuildStoragePartKey upload index)) Q d.
Proof.
  intros Hd Hb Hst Hi Hfail Hsame Hok. bundle_facts Hd Hb.
  unfold InsertChunkIdempotentOnConnection. destruct (_ || _) eqn:Hg; [by apply tx_wp_ret, Hfail|]. reflect_guards.
  apply tx_wp_bind. unfold ReferencesExist. case_goal; [by apply tx_wp_ret, tx_wp_ret, Hfail|].
  apply tx_wp_bind, wp_query; [intros e; by apply tx_wp_ret, tx_wp_ret, Hfail|]. apply tx_wp_ret.
  case_goal; [by apply tx_wp_ret, Hfail|].
  apply tx_wp_bind, wp_execute; [intros e; by apply tx_wp_ret, Hfail|]. intros m d' n. unfold insert_chunk.
  destruct (chunks d !! (upload, index)) eqn:Hc; [intros [= <- <-]; apply tx_wp_ret, Hsame|].
  destruct (part_key_taken _ _ _); intros [= <- <-]; apply tx_wp_ret; [apply Hsame|].
  apply Hok; [done|].
  assert (E : ∀ t, MkChunkRow upload index (fr_id f) owner (index * sr_chunk s)
            (Z.min (sr_chunk s) (sr_size s - index * sr_chunk s)) (str "sha256") checksum
            (BuildStoragePartKey upload index) 1 1 t t None = new_chunk upload index s checksum t)
    by (intros t; unfold new_chunk; congruence).
  rewrite E. by apply (moves_reserve weight d upload index checksum s).
Qed.

End Operations.
