(* ===== verification/FileRules.v ===== *)
(** * Rules for the operations of the file repository

    One rule per operation of [FileRepositoryAdapter]: the invariants it keeps and what
    its answer says of the tables at its end. *)
From Stdlib Require Import ZArith Lia String.
From stdpp Require Import base list numbers gmap sorting.
From S2P Require Import Prelude ByteStrings FileTypes FileWorld FileRepository FileRepositoryAdapter FileTables FileMoves FileOperations.

Local Open Scope Z_scope.

(** The snapshot of an upload as the tables have it. *)
Definition snapshot_rows (d : Db) (owner upload : Z) (s : SessionRow) (f : FileRow) : UploadSnapshotView :=
  MkSnapshot (bundle_row_view f s) (chunk_row_view <$> upload_chunks d owner upload).

(** ** What answers say *)

Definition bundle_shown (d : Db) (owner upload session file : Z) (view : UploadBundleView) : Prop :=
  ∃ s f, has_bundle d owner upload s f ∧ view = bundle_row_view f s ∧
         sr_status s = session ∧ fr_status f = file.

Definition session_answer (q : UploadQuery) (r : GetUploadSessionResult) (d : Db) : Prop :=
  ∀ view, found r = Some view →
    ∃ s f, has_bundle d (query_actor q) (query_upload q) s f ∧ view = bundle_row_view f s.

Definition cancel_answer (c : UploadQuery) (r : CancelUploadResult) (d : Db) : Prop :=
  completed r = true → ∃ view, o_value r = Some view ∧
    bundle_shown d (query_actor c) (query_upload c) 4 5 view.

Definition chunk_answer (owner upload index : Z) (P : ChunkRow → Prop) (d : Db) (view : UploadChunkView) : Prop :=
  ∃ c, has_chunk d owner upload index c ∧ view = chunk_row_view c ∧ P c.

Definition reserve_answer (c : ReserveChunkCommand) (r : ReserveChunkResult) (d : Db) : Prop :=
  ∀ view, reserve_accepted r = Some view →
    chunk_answer (rc_actor c) (rc_upload c) (rc_index c)
      (λ row, cr_offset row = rc_offset c ∧ cr_size row = rc_size c ∧ cr_checksum row = rc_checksum c) d view.

Definition mark_answer (c : MarkChunkStoredCommand) (r : MarkChunkStoredResult) (d : Db) : Prop :=
  ∀ view, found r = Some view →
    chunk_answer (mc_actor c) (mc_upload c) (mc_index c)
      (λ row, cr_status row = 2 ∧ cr_checksum row = mc_checksum c) d view.

Definition snapshot_answer (q : UploadQuery) (r : GetUploadSnapshotResult) (d : Db) : Prop :=
  ∀ view, found r = Some view →
    ∃ s f, has_bundle d (query_actor q) (query_upload q) s f ∧
           view = snapshot_rows d (query_actor q) (query_upload q) s f.

(** The states that go with the outcomes of a preparation. *)
Definition prepared_states (o : FinalizePreparationOutcome) (s : SessionRow) (f : FileRow) : Prop :=
  match o with
  | kStarted | kResumed => sr_status s = 2 ∧ fr_status f = 2
  | kAlreadyCompleted => sr_status s = 3 ∧ fr_status f = 3
  | kPrepareMismatch => sr_status s = 2 ∧ fr_status f = 4
  | kPrepareNotReady => sr_status s = 1 ∧ fr_status f = 1
  end.
Definition prepare_answer (q : UploadQuery) (r : FinalizePreparationResult) (d : Db) : Prop :=
  completed r = true → ∃ s f, has_bundle d (query_actor q) (query_upload q) s f ∧
    o_value r = Some (snapshot_rows d (query_actor q) (query_upload q) s f) ∧
    prepared_states (o_outcome r) s f.

Definition complete_answer (c : ChecksumCommand) (r : CompleteFinalizeResult) (d : Db) : Prop :=
  ∀ view, complete_completed r = Some view →
    bundle_shown d (cc_actor c) (cc_upload c) 3 3 view ∧
    verified_checksum (bundle_file view) = cc_checksum c.

Definition fail_answer (c : ChecksumCommand) (r : FailFinalizeChecksumResult) (d : Db) : Prop :=
  ∀ view, found r = Some view →
    bundle_shown d (cc_actor c) (cc_upload c) 2 4 view ∧
    verified_checksum (bundle_file view) = cc_checksum c.

Definition download_answer (q : GetDownloadInfoQuery) (r : GetDownloadFileResult) (d : Db) : Prop :=
  match found r with
  | Some view => ∃ f, files d !! download_file q = Some f ∧ fr_owner f = download_actor q ∧ view = file_row_view f
  | None => f_status r ≠ kSucceeded
  end.

Section Rules.
Context (moment : nat → Moment Db) `{Hash : Sha256}.
Context (weight : list Z → list Z) (add_day : list Z → list Z).
Context (repository_ pool_ begin_snapshot : bool).

Local Abbreviation db_ok := (db_ok weight).
Local Abbreviation moves := (moves weight).

(** [I] is kept by a change of the tables. *)
Definition closed (I : Shared Db → Prop) (l : Change) : Prop :=
  ∀ s d, I s → moves l (tables s) d → I (retable s d).

Section Invariant.
Context (I : Shared Db → Prop).
Hypothesis HI : stable moment I.
Hypothesis Hok : ∀ s, I s → db_ok (tables s).

(** What a computation with the answer [P] ends with. *)
Definition keeping {R} (P : R → Db → Prop) (r : R) (s : Shared Db) : Prop := I s ∧ P r (tables s).

Lemma triple_answer {R} (P : R → Db → Prop) r : (∀ d, P r d) → triple I (mret r) (keeping P).
Proof. intros Hr. apply triple_ret. intros s Hs. by split. Qed.

(** *** Reading *)

Lemma find_bundle_rule {R} owner upload (next : FileUploadBundleFindResult → R) (P : R → Db → Prop) :
  (∀ st text d, Succeeded st = false → P (next (MkRepo st None text)) d) →
  (∀ text d, P (next (MkRepo kRepoSucceeded None text)) d) →
  (∀ d s f text, db_ok d → has_bundle d owner upload s f →
     P (next (MkRepo kRepoSucceeded (Some (bundle_record f s)) text)) d) →
  triple I (r ← FindUploadBundle moment owner upload; mret (next r)) (keeping P).
Proof.
  intros Hfail Hno Hyes.
  apply triple_bind with (R := λ r s, I s ∧ P (next r) (tables s)); [|intros r; by apply triple_ret].
  unfold FindUploadBundle. destruct (_ || _); [apply triple_ret; intros s Hs; split; [done|by apply Hfail]|].
  apply triple_connection; [done|intros s Hs; split; [done|by apply Hfail]|].
  intros s Hs. apply (wp_find_bundle _ weight); [by apply Hok|..].
  - intros st text Hst. split; [done|]. by apply Hfail.
  - intros text. split; [done|]. by apply Hno.
  - intros se f text Hb. split; [done|]. apply Hyes; [by apply Hok|done].
Qed.

Lemma get_session_rule q :
  triple I (GetUploadSession moment repository_ q) (keeping (session_answer q)).
Proof.
  unfold GetUploadSession. destruct (negb repository_); [by apply triple_answer|].
  apply find_bundle_rule.
  - intros st text d Hst. rewrite found_failed by done. intros view. by destruct st.
  - by intros text d view.
  - intros d s f text Hd Hb. rewrite found_some, (view_bundle _ _ _ _ _ _ Hd Hb).
    intros view [= <-]. by exists s, f.
Qed.

Lemma find_chunk_rule {R} owner upload index (next : FileUploadChunkFindResult → R) (P : R → Db → Prop) :
  (∀ st text d, Succeeded st = false → P (next (MkRepo st None text)) d) →
  (∀ text d, P (next (MkRepo kRepoSucceeded None text)) d) →
  (∀ d c text, db_ok d → has_chunk d owner upload index c →
     P (next (MkRepo kRepoSucceeded (Some (chunk_record c)) text)) d) →
  triple I (r ← FindChunk moment owner upload index; mret (next r)) (keeping P).
Proof.
  intros Hfail Hno Hyes.
  apply triple_bind with (R := λ r s, I s ∧ P (next r) (tables s)); [|intros r; by apply triple_ret].
  unfold FindChunk. destruct (_ || _); [apply triple_ret; intros s Hs; split; [done|by apply Hfail]|].
  apply triple_connection; [done|intros s Hs; split; [done|by apply Hfail]|].
  intros s Hs. apply (wp_find_chunk _ weight); [by apply Hok|..].
  - intros st text Hst. split; [done|]. by apply Hfail.
  - intros text. split; [done|]. by apply Hno.
  - intros c text Hb. split; [done|]. apply Hyes; [by apply Hok|done].
Qed.

(** *** Transactions *)

(** A transaction that gives up, in a body that changed rows or not. *)
Lemma wp_reject {R} (P : R → Db → Prop) s d r : I s → same_ids (tables s) d → (∀ d, P r d) →
  wp (reject r) (ends I (keeping P) s) d.
Proof. intros Hs Hd Hr. apply tx_wp_ret, ends_rollback; [done|]. by split. Qed.

(** One that ends without a change. *)
Lemma wp_done {R} (P : R → Db → Prop) s r : I s → P r (tables s) →
  wp (reject r) (ends I (keeping P) s) (tables s).
Proof. intros Hs Hr. apply tx_wp_ret, ends_rollback; [done|]. by split. Qed.

(** One that commits its changes. *)
Lemma wp_accept {R} (P : R → Db → Prop) s d r recover : I s → I (retable s d) → same_ids (tables s) d →
  P r d → (∀ text, triple I (recover text) (keeping P)) →
  wp (accept r recover) (ends I (keeping P) s) d.
Proof. intros Hs Hi Hd Hr Hrec. apply tx_wp_ret, ends_commit; try done. Qed.

Lemma same_ids_refl d : same_ids d d.
Proof. done. Qed.

(** Answers that are failures. *)
Lemma refused_outcome {O A} st (o : O) (v : option A) text : st ≠ kSucceeded →
  completed (MkOutcome st o v text) = false.
Proof. intros Hst. unfold completed, is_status. by apply bool_decide_false. Qed.

Lemma refused_found {A} st (v : option A) text : st ≠ kSucceeded → found (MkFound st v text) = None.
Proof. intros Hst. unfold found, is_status. by rewrite bool_decide_false. Qed.

(** The tests on the states of a bundle, as statuses of the rows. *)
Ltac states Hd Hb :=
  let H1 := fresh in let H2 := fresh in let H3 := fresh in let H4 := fresh in let H5 := fresh in
  pose proof (in_states _ _ _ _ _ _ Hd Hb) as (H1 & H2 & H3 & H4 & H5);
  rewrite ?H1, ?H2, ?H3, ?H4, ?H5; clear H1 H2 H3 H4 H5.

Lemma shown d owner upload s f session file : db_ok d → has_bundle d owner upload s f →
  fr_status f = file → states_ok session file → file ≠ 4 ∧ file ≠ 2 ∨ session = 2 →
  bundle_shown d owner upload session file (bundle_row_view f s).
Proof.
  intros Hd Hb Hf Hst Hne. destruct (bundle_ok _ _ _ _ _ _ Hd Hb) as (_ & _ & _ & Hst' & _).
  exists s, f. split_and!; try done. unfold states_ok in *. lia.
Qed.

Lemma session_of_file d owner upload s f : db_ok d → has_bundle d owner upload s f →
  (fr_status f = 1 → sr_status s = 1) ∧ (fr_status f = 2 → sr_status s = 2) ∧
  (fr_status f = 3 → sr_status s = 3) ∧ (fr_status f = 4 → sr_status s = 2) ∧
  (fr_status f = 5 → sr_status s = 4).
Proof.
  intros Hd Hb. destruct (bundle_ok _ _ _ _ _ _ Hd Hb) as (_ & _ & _ & Hst & _). unfold states_ok in Hst. lia.
Qed.

Lemma cancel_recover_rule c (next : GetUploadSessionResult → CancelUploadResult) :
  (∀ r d, session_answer c r d → db_ok d → cancel_answer c (next r) d) →
  triple I (r ← GetUploadSession moment repository_ c; mret (next r)) (keeping (cancel_answer c)).
Proof.
  intros Hnext. eapply triple_bind; [apply get_session_rule|]. intros r. apply triple_ret.
  intros s [Hs Ha]. split; [done|]. apply Hnext; [done|by apply Hok].
Qed.

Lemma cancel_rule c : closed I (Cancel (query_upload c)) →
  triple I (CancelUpload moment repository_ pool_ c) (keeping (cancel_answer c)).
Proof.
  intros Hcl. unfold CancelUpload. destruct (_ || _); [by apply triple_answer|].
  apply triple_transaction; [done|by intros text s Hs|]. intros s Hs. pose proof (Hok _ Hs) as Hd.
  assert (Hrej : ∀ d st text, same_ids (tables s) d → st ≠ kSucceeded →
    wp (reject (CancelStorageFailure st text)) (ends I (keeping (cancel_answer c)) s) d).
  { intros d st text Hids Hst. apply wp_reject; [done..|]. intros d'. unfold cancel_answer, CancelStorageFailure.
    by rewrite refused_outcome. }
  apply (wp_locked_bundle _ weight); [done|intros; by apply Hrej|]. intros se f Hb. states Hd Hb.
  destruct (Z.eqb_spec (fr_status f) 5).
  { apply wp_done; [done|]. intros _. eexists. split; [done|]. apply shown; try done; unfold states_ok; lia. }
  destruct (Z.eqb_spec (fr_status f) 1) as [Hft|]; [|by apply Hrej]. cbn [negb].
  destruct (session_of_file _ _ _ _ _ Hd Hb) as [Hst _].
  apply tx_wp_bind, (wp_cancel _ weight _ _ _ se); try done; [by apply Hst| |].
  { intros r d Hids Hr. rewrite Hr. apply Hrej; [done|by apply map_failed]. }
  intros r d Hids Hmv. destruct (Succeeded (q_status r)) eqn:Hr; cbn [negb]; [|apply Hrej; [done|by apply map_failed]].
  pose proof (moves_ok _ _ _ _ Hd Hmv) as Hd'.
  apply (wp_updated_bundle _ weight); [done|intros; by apply Hrej|]. intros se' f' Hb'.
  rewrite (view_bundle _ _ _ _ _ _ Hd' Hb'). states Hd' Hb'.
  destruct (Z.eqb_spec (fr_status f') 5); [|by apply Hrej].
  apply wp_accept; try done; [by apply Hcl| |].
  { intros _. eexists. split; [done|]. apply shown; try done; unfold states_ok; lia. }
  intros text. apply cancel_recover_rule. intros r' d0 Ha Hd0. destruct (found r') as [view|] eqn:Hv; [|done].
  destruct (Ha _ Hv) as (s0 & f0 & Hb0 & ->). states Hd0 Hb0.
  destruct (Z.eqb_spec (fr_status f0) 5); [|done].
  intros _. eexists. split; [done|]. apply shown; try done; unfold states_ok; lia.
Qed.

(** *** Chunks *)

Lemma same_identity_row c view d owner upload index key row : has_chunk d owner upload index row →
  same_identity (chunk_row_view row) view c key = true →
  cr_offset row = rc_offset c ∧ cr_size row = rc_size c ∧ cr_checksum row = rc_checksum c.
Proof. intros _ Hi. unfold same_identity in Hi. reflect_guards. done. Qed.

Lemma recover_reserve_rule c : triple I (RecoverReserve moment c) (keeping (reserve_answer c)).
Proof.
  unfold RecoverReserve. apply find_chunk_rule.
  - intros st text d Hst. rewrite found_failed by done. by intros view.
  - by intros text d view.
  - intros d row text Hd Hc. rewrite found_some, view_chunk by (eapply chunk_ok_typed; [done|apply Hc]).
    destruct (_ && _) eqn:Hg; [|done]. reflect_guards. intros view [= <-]. by exists row.
Qed.

(** The geometry of a chunk that was checked. *)
Lemma geometry_checked s index : 0 < sr_chunk s → is_u64 (sr_size s) → is_u64 index →
  index ≤ (2 ^ 64 - 1) `div` sr_chunk s → u64 (index * sr_chunk s) < sr_size s →
  u64 (index * sr_chunk s) = index * sr_chunk s ∧
  u64 (sr_size s - index * sr_chunk s) = sr_size s - index * sr_chunk s ∧ 0 ≤ index < row_count s.
Proof.
  intros Hc Hs Hi Hle Hlt.
  assert (index * sr_chunk s ≤ 2 ^ 64 - 1).
  { pose proof (Z.mul_div_le (2 ^ 64 - 1) (sr_chunk s) Hc). nia. }
  assert (E : u64 (index * sr_chunk s) = index * sr_chunk s) by (apply u64_small; unfold is_u64 in *; nia).
  rewrite E in *. split_and!; [done|apply u64_small; unfold is_u64 in *; nia|unfold is_u64 in Hi; lia|].
  unfold row_count. unfold is_u64 in *.
  enough (index ≤ (sr_size s - 1) `div` sr_chunk s) by lia. apply Z.div_le_lower_bound; lia.
Qed.

Lemma reserve_rule c : is_u64 (rc_index c) →
  closed I (Reserve (rc_upload c) (rc_index c) (rc_checksum c)) →
  triple I (ReserveChunk moment weight repository_ pool_ c) (keeping (reserve_answer c)).
Proof.
  intros Tix Hcl. unfold ReserveChunk. destruct (_ || _); [by apply triple_answer|].
  apply triple_transaction; [done|by intros text s Hs|]. intros s Hs. pose proof (Hok _ Hs) as Hd.
  assert (Hrej : ∀ d st text, same_ids (tables s) d → st ≠ kSucceeded →
    wp (reject (ReserveFailure st text)) (ends I (keeping (reserve_answer c)) s) d).
  { intros d st text Hids Hst. apply wp_reject; [done..|]. intros d' view. unfold reserve_accepted, ReserveFailure.
    by rewrite refused_outcome. }
  assert (Hcon : ∀ d v text, same_ids (tables s) d →
    wp (reject (conflict v text)) (ends I (keeping (reserve_answer c)) s) d).
  { intros d v text Hids. by apply wp_reject. }
  apply (wp_locked_bundle _ weight); [done|intros; by apply Hrej|]. intros se f Hb. states Hd Hb.
  destruct (bundle_ok _ _ _ _ _ _ Hd Hb) as (Hfo & _ & Hz & _ & _ & _ & Hso).
  destruct (fo_size _ _ Hfo) as [Tsz Nsz]. rewrite Hz in Tsz, Nsz.
  destruct (so_chunk _ _ _ Hso) as [Tch Nch].
  assert (Hpos : 0 < sr_chunk se) by (unfold is_u64 in Tch; lia).
  cbn [bundle_row_view bundle_session session_chunk session_size].
  destruct (_ && _) eqn:Hact; [by apply Hrej|].
  assert (Hft : fr_status f = 1 ∨ fr_status f = 2)
    by (apply andb_false_iff in Hact as [Hact|Hact]; apply negb_false_iff, Z.eqb_eq in Hact; lia).
  clear Hact. rewrite (proj2 (Z.eqb_neq _ 0) Nch), (proj2 (Z.eqb_neq _ 0) Nsz).
  cbn [orb]. destruct (Z.ltb_spec ((2 ^ 64 - 1) `div` sr_chunk se) (rc_index c)); [by apply Hrej|].
  destruct (Z.leb_spec (sr_size se) (u64 (rc_index c * sr_chunk se))); [by apply Hrej|].
  destruct (geometry_checked se (rc_index c)) as (E1 & E2 & Hi); [done..|]. rewrite E1, E2.
  destruct (_ || _) eqn:Hgeo; [by apply Hrej|]. apply orb_false_iff in Hgeo as [G1 G2].
  apply negb_false_iff, Z.eqb_eq in G1, G2.
  destruct (fr_status f =? 2) eqn:Hfin.
  - unfold RepairChunk. apply tx_wp_bind, (wp_find_chunk _ weight); [done|..].
    { intros st text Hst. rewrite found_failed by done. apply Hrej; [done|by apply map_failed]. }
    { intros text. by apply Hrej. }
    intros row text Hc. rewrite found_some, view_chunk by (eapply chunk_ok_typed; [done|apply Hc]).
    destruct (_ && _) eqn:Hsame; [|by apply Hcon]. apply andb_true_iff in Hsame as [_ Hsame].
    apply wp_done; [done|]. intros view [= <-]. exists row. by split_and!; try eapply same_identity_row.
  - apply Z.eqb_neq in Hfin. assert (Hft1 : fr_status f = 1) by lia.
    destruct (session_of_file _ _ _ _ _ Hd Hb) as [Hst _]. unfold InsertReservation.
    change (file_id (bundle_file (bundle_row_view f se))) with (fr_id f). rewrite G1, G2.
    apply tx_wp_bind. match goal with |- wp _ ?K _ => set (Q := K) end.
    assert (Hread : ∀ r d, same_ids (tables s) d → db_ok d → I (retable s d) → Q r d).
    { intros r d Hids Hd' Hi'. unfold Q.
      destruct (Succeeded (q_status r)) eqn:Hr; cbn [negb]; [|apply Hrej; [done|by apply map_failed]].
      apply tx_wp_bind, (wp_find_chunk _ weight); [done|..].
      { intros st text Hst'. rewrite found_failed by done. apply Hrej; [done|by apply map_failed]. }
      { intros text. by apply Hrej. }
      intros row text Hc. rewrite found_some, view_chunk by (eapply chunk_ok_typed; [done|apply Hc]).
      destruct (same_identity _ _ _ _) eqn:Hsame; [|by apply Hcon]. cbn [negb].
      apply wp_accept; try done.
      - intros view. destruct (q_value r); intros [= <-]; exists row; by split_and!; try eapply same_identity_row.
      - intros text'. apply recover_reserve_rule. }
    apply (wp_insert_chunk _ weight _ _ _ _ se); try done; [by apply Hst|..].
    + intros r d Hids Hr. unfold Q. rewrite Hr. apply Hrej; [done|by apply map_failed].
    + intros r. apply Hread; [done..|]. by rewrite retable_same.
    + intros r d Hids Hmv. apply Hread; [done|by eapply moves_ok|by apply Hcl].
Qed.

Lemma recover_mark_rule c : triple I (RecoverMark moment c) (keeping (mark_answer c)).
Proof.
  unfold RecoverMark. apply find_chunk_rule.
  - intros st text d Hst. rewrite found_failed by done. by intros view.
  - by intros text d view.
  - intros d row text Hd Hc. pose proof (chunk_ok_typed _ _ _ _ Hd (proj1 Hc)) as Ht.
    rewrite found_some, view_chunk by done.
    destruct (_ && _) eqn:Hg; [|done]. reflect_guards. intros view [= <-]. exists row. split_and!; try done.
    destruct (ct_status _ Ht) as [E|E]; [|done]. cbn in *. by rewrite E in *.
Qed.

Lemma stored_row row : chunk_typed row → chunk_status (chunk_row_view row) = kStored ↔ cr_status row = 2.
Proof. intros Ht. cbn. unfold chunk_state. by destruct (ct_status _ Ht) as [-> | ->]. Qed.

Lemma mark_rule c : closed I (Store (mc_upload c) (mc_index c) (mc_checksum c)) →
  triple I (MarkChunkStored moment weight repository_ pool_ c) (keeping (mark_answer c)).
Proof.
  intros Hcl. unfold MarkChunkStored. destruct (_ || _); [by apply triple_answer|].
  apply triple_transaction; [done|by intros text s Hs|]. intros s Hs. pose proof (Hok _ Hs) as Hd.
  assert (Hrej : ∀ d st text, same_ids (tables s) d → st ≠ kSucceeded →
    wp (reject (FoundFailure st text)) (ends I (keeping (mark_answer c)) s) d).
  { intros d st text Hids Hst. apply wp_reject; [done..|]. intros d' view. unfold FoundFailure.
    by rewrite refused_found. }
  apply (wp_locked_bundle _ weight); [done|intros; by apply Hrej|]. intros se f Hb. states Hd Hb.
  destruct (_ && _) eqn:Hact; [by apply Hrej|].
  assert (Hft : fr_status f = 1 ∨ fr_status f = 2)
    by (apply andb_false_iff in Hact as [Hact|Hact]; apply negb_false_iff, Z.eqb_eq in Hact; lia).
  clear Hact. apply tx_wp_bind, (wp_find_chunk _ weight); [done|..].
  { intros st text Hst. rewrite found_failed by done. apply Hrej; [done|by apply map_failed]. }
  { intros text. by apply Hrej. }
  intros row text Hc. pose proof (chunk_ok_typed _ _ _ _ Hd (proj1 Hc)) as Ht.
  rewrite found_some, view_chunk by done. destruct (_ || _) eqn:Hck; [by apply Hrej|]. reflect_guards.
  case_bool_decide as Hstored.
  { apply wp_done; [done|]. intros view [= <-]. exists row. split_and!; try done. by apply stored_row. }
  destruct (Z.eqb_spec (fr_status f) 2); [by apply Hrej|].
  destruct (session_of_file _ _ _ _ _ Hd Hb) as [Hst _]. apply tx_wp_bind.
  match goal with |- wp _ ?K _ => set (Q := K) end.
  assert (Hread : ∀ r d, same_ids (tables s) d → db_ok d → I (retable s d) →
    (∀ row', has_chunk d (mc_actor c) (mc_upload c) (mc_index c) row' → cr_checksum row' = mc_checksum c) → Q r d).
  { intros r d Hids Hd' Hi' Hsum. unfold Q.
    destruct (Succeeded (q_status r)) eqn:Hr; cbn [negb]; [|apply Hrej; [done|by apply map_failed]].
    apply tx_wp_bind, (wp_find_chunk _ weight); [done|..].
    { intros st text' Hst'. rewrite found_failed by done. apply Hrej; [done|by apply map_failed]. }
    { intros text'. by apply Hrej. }
    intros row' text' Hc'. pose proof (chunk_ok_typed _ _ _ _ Hd' (proj1 Hc')) as Ht'.
    rewrite found_some, view_chunk by done. case_bool_decide as Hs2; [|by apply Hrej].
    apply wp_accept; try done; [|intros ?; apply recover_mark_rule].
    intros view [= <-]. exists row'. split_and!; try done; [by apply stored_row|by apply Hsum]. }
  apply (wp_mark _ weight _ _ _ _ se row); try done; [apply Hb|apply Hst; lia|..].
  - intros r d Hids Hr. unfold Q. rewrite Hr. apply Hrej; [done|by apply map_failed].
  - intros r. apply Hread; [done|done|by rewrite retable_same|].
    intros row' [Hc' _]. destruct Hc as [Hc _]. rewrite Hc in Hc'. by injection Hc' as <-.
  - intros r d Hids Hmv. apply Hread; [done|by eapply moves_ok|by apply Hcl|].
    inversion Hmv; subst. intros row' [Hc' _]. cbn in Hc'. rewrite lookup_insert_eq in Hc'. by injection Hc' as <-.
Qed.

(** *** Snapshots *)

Lemma snapshot_view d owner upload s f : db_ok d → has_bundle d owner upload s f →
  ToSnapshot (bundle_record f s) (chunk_record <$> upload_chunks d owner upload) =
  Some (snapshot_rows d owner upload s f).
Proof.
  intros Hd Hb. unfold ToSnapshot. rewrite (view_bundle _ _ _ _ _ _ Hd Hb). unfold snapshot_rows.
  assert (Hall : Forall (λ c, chunk_typed c ∧ cr_upload c = upload ∧ cr_file c = sr_file s ∧ cr_owner c = owner)
            (upload_chunks d owner upload)).
  { apply list.Forall_forall. intros c Hc.
    apply (elem_of_upload_chunks _ _ _ _ _ Hd) in Hc as (i & Hc & Ho).
    split; [by eapply chunk_ok_typed|]. pose proof (ok_chunk _ _ Hd _ _ Hc) as Hco.
    destruct (co_key _ _ _ Hco) as [E _]. destruct (co_session _ _ _ Hco) as (s' & Hs' & Hf' & _).
    cbn in *. destruct Hb as (Hs & _). rewrite Hs in Hs'. by injection Hs' as <-. }
  destruct (bundle_ok _ _ _ _ _ _ Hd Hb) as (Hfo & Ho & _ & _ & _ & _ & Hso). destruct Hb as (_ & Hso' & _).
  pose proof (fo_id _ _ Hfo) as Hid. pose proof (so_id _ _ _ Hso) as Hup.
  assert (SnapshotChunks (bundle_row_view f s) (chunk_record <$> upload_chunks d owner upload) =
          Some (chunk_row_view <$> upload_chunks d owner upload)) as ->; [|done].
  induction Hall as [|c cs (Ht & Hu & Hf & Hc) _ IH]; [done|]. rewrite !fmap_cons. cbn [SnapshotChunks].
  rewrite view_chunk, IH by done.
  cbn [chunk_row_view chunk_upload chunk_file chunk_owner bundle_row_view bundle_session bundle_file upload_id
       file_row_view file_view file_id file_owner file_record rec_file_id rec_file_owner].
  rewrite Hup, Hu, Hf, Hc, Hid, Ho, Hso', !Z.eqb_refl. done.
Qed.

Lemma manifest_loop session cs : ∀ index, ManifestLoop session index cs = true →
  ∀ k c, cs !! k = Some c → chunk_index c = index + Z.of_nat k ∧ chunk_status c = kStored.
Proof.
  induction cs as [|c cs IH]; intros index; [done|]. cbn [ManifestLoop].
  destruct (_ || _) eqn:Hg; [done|]. reflect_guards. intros Hl [|k] c'.
  - intros [= <-]. split; [lia|done].
  - cbn. intros Hk. destruct (IH _ Hl k c' Hk). split; [lia|done].
Qed.

Lemma row_count_range d owner upload s f : db_ok d → has_bundle d owner upload s f →
  1 ≤ row_count s ≤ sr_size s ∧ sr_size s < 2 ^ 64 ∧ 0 < sr_chunk s.
Proof.
  intros Hd Hb. destruct (bundle_ok _ _ _ _ _ _ Hd Hb) as (Hfo & _ & Hz & _ & _ & _ & Hso).
  destruct (fo_size _ _ Hfo) as [Tsz Nsz]. rewrite Hz in Tsz, Nsz. destruct (so_chunk _ _ _ Hso) as [Tch Nch].
  unfold is_u64, row_count in *. assert (0 < sr_chunk s) by lia.
  pose proof (Z.div_pos (sr_size s - 1) (sr_chunk s)).
  pose proof (Z.div_le_upper_bound (sr_size s - 1) (sr_chunk s) (sr_size s - 1)). nia.
Qed.

(** A manifest that is ready has every chunk, stored. *)
Lemma manifest_stored d owner upload s f : db_ok d → has_bundle d owner upload s f →
  ManifestReadyForFinalize (snapshot_rows d owner upload s f) = true → all_stored d upload s.
Proof.
  intros Hd Hb. destruct (row_count_range _ _ _ _ _ Hd Hb) as (Hr & Hsz & _).
  unfold ManifestReadyForFinalize, snapshot_rows.
  cbn [snapshot_bundle snapshot_chunks bundle_row_view bundle_session bundle_file session_size session_chunk
       file_row_view file_view file_size].
  destruct (_ || _); [done|]. change (1 + (sr_size s - 1) `div` sr_chunk s) with (row_count s).
  rewrite u64_small by (unfold is_u64; lia). destruct (negb _) eqn:Hn; [done|]. reflect_guards.
  intros Hl i Hi. rewrite length_fmap in *.
  destruct (lookup_lt_is_Some_2 (upload_chunks d owner upload) (Z.to_nat i) ltac:(lia)) as [c Hc].
  destruct (manifest_loop _ _ _ Hl (Z.to_nat i) (chunk_row_view c)) as [Hidx Hst].
  { by rewrite list_lookup_fmap, Hc. }
  apply list_elem_of_lookup_2 in Hc. apply (elem_of_upload_chunks _ _ _ _ _ Hd) in Hc as (j & Hc & _).
  pose proof (co_key _ _ _ (ok_chunk _ _ Hd _ _ Hc)) as [_ Hj]. cbn in Hj, Hidx.
  exists c. split; [by replace i with j by lia|]. apply stored_row; [by eapply chunk_ok_typed|done].
Qed.

(** The reads of a snapshot. *)
Lemma wp_snapshot {R} d owner upload (fail : FileApplicationStatus → list Z → R) text
    (next : FileUploadBundleRecord → list FileUploadChunkRecord → UploadSnapshotView → Tx (Ending R)) Q : db_ok d →
  (∀ st message, st ≠ kSucceeded → wp (reject (fail st message)) Q d) →
  (∀ s f, has_bundle d owner upload s f →
     wp (next (bundle_record f s) (chunk_record <$> upload_chunks d owner upload)
           (snapshot_rows d owner upload s f)) Q d) →
  wp (bundle ← FindUploadBundleOnConnection moment owner upload;
      match found_record bundle kNotFound session_missing with
      | inl (status, message) => reject (fail status message)
      | inr record =>
          chunks ← FindChunksOnConnection moment owner upload;
          if negb (Succeeded (q_status chunks))
          then reject (fail (MapStorageStatus (q_status chunks)) (q_message chunks))
          else match ToSnapshot record (q_value chunks) with
               | None => reject (fail kInvalidRecord text)
               | Some snapshot => next record (q_value chunks) snapshot
               end
      end) Q d.
Proof.
  intros Hd Hfail Hnext. apply tx_wp_bind, (wp_find_bundle _ weight); [done|..].
  - intros st m Hst. rewrite found_failed by done. by apply Hfail, map_failed.
  - intros m. by apply Hfail.
  - intros s f m Hb. rewrite found_some. apply tx_wp_bind, (wp_find_chunks _ weight); [done|..].
    + intros st m' Hst. cbn [q_status]. rewrite Hst. by apply Hfail, map_failed.
    + intros m'. cbn [q_status q_value]. change (negb (Succeeded kRepoSucceeded)) with false. cbv iota.
      rewrite (snapshot_view _ _ _ _ _ Hd Hb). by apply Hnext.
Qed.

Lemma snapshot_rule q :
  triple I (GetUploadSnapshot moment repository_ pool_ q) (keeping (snapshot_answer q)).
Proof.
  unfold GetUploadSnapshot. destruct (_ || _); [by apply triple_answer|].
  apply triple_transaction; [done|by intros text s Hs|]. intros s Hs. pose proof (Hok _ Hs) as Hd.
  apply (wp_snapshot _ _ _ FoundFailure _ (λ _ _ snapshot, accept (MkFound kSucceeded (Some snapshot) _) _)); [done|..].
  - intros st text Hst. apply wp_reject; [done..|]. intros d' view. unfold FoundFailure. by rewrite refused_found.
  - intros se f Hb. apply wp_accept; [done|by rewrite retable_same|done| |].
    + intros view [= <-]. by exists se, f.
    + intros ?. by apply triple_answer.
Qed.

End Invariant.

End Rules.
