(* ===== verification/FileFinalizeRules.v ===== *)
(** * Rules for finalization, downloads and beginnings

    The rest of the rules of the operations of [FileRepositoryAdapter] (see [FileRules]):
    [PrepareFinalize], [CompleteFinalize], [FailFinalizeChecksum], [GetDownloadFile] and
    [BeginUpload]. *)
From Stdlib Require Import ZArith Lia String.
From stdpp Require Import base list numbers gmap sorting.
From S2P Require Import Prelude ByteStrings FileTypes FileWorld FileRepository FileRepositoryAdapter FileTables FileMoves FileOperations FileRules.

Local Open Scope Z_scope.

Section Rules.
Context (moment : nat → Moment Db) `{Hash : Sha256}.
Context (weight : list Z → list Z) (add_day : list Z → list Z).
Context (repository_ pool_ begin_snapshot : bool).

Local Abbreviation db_ok := (db_ok weight).
Local Abbreviation moves := (moves weight).
Local Abbreviation closed := (closed weight).

Context (I : Shared Db → Prop).
Hypothesis HI : stable moment I.
Hypothesis Hok : ∀ s, I s → db_ok (tables s).

Ltac states Hd Hb :=
  let H1 := fresh in let H2 := fresh in let H3 := fresh in let H4 := fresh in let H5 := fresh in
  pose proof (in_states _ _ _ _ _ _ Hd Hb) as (H1 & H2 & H3 & H4 & H5);
  rewrite ?H1, ?H2, ?H3, ?H4, ?H5; clear H1 H2 H3 H4 H5.

(** ** Preparation *)

Lemma recover_prepare_rule c : triple I (RecoverPrepare moment repository_ pool_ c) (keeping I (prepare_answer c)).
Proof.
  unfold RecoverPrepare. eapply triple_bind; [by apply (snapshot_rule moment weight)|]. intros r. apply triple_ret.
  intros s [Hs Ha]. split; [done|]. destruct (found r) as [view|] eqn:Hv; [|done].
  destruct (Ha _ Hv) as (se & f & Hb & ->). pose proof (Hok _ Hs) as Hd. cbn [snapshot_bundle snapshot_rows].
  destruct (session_of_file _ _ _ _ _ _ Hd Hb) as (_ & S2 & S3 & _). states Hd Hb.
  destruct (Z.eqb_spec (fr_status f) 2); [intros _; exists se, f; cbn; auto|].
  destruct (Z.eqb_spec (fr_status f) 3); [intros _; exists se, f; cbn; auto|done].
Qed.

Lemma same_chunks d d' owner upload : chunks d' = chunks d → upload_chunks d' owner upload = upload_chunks d owner upload.
Proof. intros E. unfold upload_chunks. by rewrite E. Qed.

Lemma prepare_rule c : closed I (Freeze (query_upload c)) →
  triple I (PrepareFinalize moment repository_ pool_ c) (keeping I (prepare_answer c)).
Proof.
  intros Hcl. unfold PrepareFinalize. destruct (_ || _); [by apply triple_answer|].
  apply triple_transaction; [done|by intros text s Hs|]. intros s Hs. pose proof (Hok _ Hs) as Hd.
  assert (Hrej : ∀ d st text, same_ids (tables s) d → st ≠ kSucceeded →
    wp (reject (PrepareFailure st text)) (ends I (keeping I (prepare_answer c)) s) d).
  { intros d st text Hids Hst. apply wp_reject; [done..|]. intros d'. unfold prepare_answer, PrepareFailure.
    by rewrite refused_outcome. }
  apply (wp_snapshot moment weight _ _ _ PrepareFailure _ (λ _ records snapshot,
    let bundle := snapshot_bundle snapshot in
    let done outcome message := reject (MkOutcome kSucceeded outcome (Some snapshot) message) in
    if in_state bundle kCompleted kAvailable then done kAlreadyCompleted _
    else if in_state bundle kFinalizing kFailed then done kPrepareMismatch _
    else if in_state bundle kFinalizing kVerifying
    then if negb (ManifestReadyForFinalize snapshot) then reject (PrepareFailure kInvalidRecord _)
         else done kResumed _
    else if negb (in_state bundle kActive kUploading) then reject (PrepareFailure kFailedPrecondition _)
    else if negb (ManifestReadyForFinalize snapshot) then done kPrepareNotReady _
    else StartFinalize moment repository_ pool_ c snapshot records)); [done|intros; by apply Hrej|].
  intros se f Hb. cbv zeta. cbn [snapshot_bundle snapshot_rows].
  destruct (session_of_file _ _ _ _ _ _ Hd Hb) as (S1 & S2 & S3 & S4 & _). states Hd Hb.
  assert (Hend : ∀ o text, prepared_states o se f →
    wp (reject (MkOutcome kSucceeded o (Some (snapshot_rows (tables s) (query_actor c) (query_upload c) se f)) text))
      (ends I (keeping I (prepare_answer c)) s) (tables s)).
  { intros o text Ho. apply wp_done; [done|]. intros _. by exists se, f. }
  destruct (Z.eqb_spec (fr_status f) 3); [apply Hend; cbn; auto|].
  destruct (Z.eqb_spec (fr_status f) 4); [apply Hend; cbn; auto|].
  destruct (Z.eqb_spec (fr_status f) 2); [destruct (negb _); [by apply Hrej|apply Hend; cbn; auto]|].
  destruct (Z.eqb_spec (fr_status f) 1) as [Hft|]; [|by apply Hrej]. cbn [negb].
  destruct (ManifestReadyForFinalize _) eqn:Hm; cbn [negb]; [|apply Hend; cbn; auto].
  unfold StartFinalize. change (file_id (bundle_file _)) with (fr_id f).
  apply tx_wp_bind, (wp_begin_finalize _ weight _ _ _ se f); auto.
  { by eapply manifest_stored. }
  { intros r d Hids Hr. rewrite Hr. apply Hrej; [done|by apply map_failed]. }
  intros r d Hids Hch Hmv. destruct (Succeeded (q_status r)) eqn:Hr; cbn [negb];
    [|apply Hrej; [done|by apply map_failed]].
  pose proof (moves_ok _ _ _ _ Hd Hmv) as Hd'.
  apply (wp_updated_bundle _ weight); [done|intros; by apply Hrej|]. intros se' f' Hb'.
  rewrite <- (same_chunks _ _ _ _ Hch), (snapshot_view _ _ _ _ _ _ Hd' Hb'). cbn [snapshot_bundle snapshot_rows].
  destruct (session_of_file _ _ _ _ _ _ Hd' Hb') as (_ & S2' & _). states Hd' Hb'.
  destruct (Z.eqb_spec (fr_status f') 2); [|by apply Hrej].
  apply wp_accept; [done|by apply Hcl|done| |intros ?; apply recover_prepare_rule].
  intros _. exists se', f'. cbn. auto.
Qed.

(** ** Completion *)

Lemma complete_shown c d s f o text : db_ok d → has_bundle d (cc_actor c) (cc_upload c) s f → fr_status f = 3 →
  verified_checksum (bundle_file (bundle_row_view f s)) = cc_checksum c →
  complete_answer c (MkOutcome kSucceeded o (Some (bundle_row_view f s)) text) d.
Proof.
  intros Hd Hb Hf Hv view [= <-]. split; [|done]. eapply shown; try done; unfold states_ok; lia.
Qed.

Lemma recover_complete_rule c : triple I (RecoverComplete moment repository_ c) (keeping I (complete_answer c)).
Proof.
  unfold RecoverComplete. eapply triple_bind; [by apply (get_session_rule moment weight)|]. intros r.
  apply triple_ret. intros s [Hs Ha]. split; [done|]. destruct (found r) as [view|] eqn:Hv; [|done].
  destruct (Ha _ Hv) as (se & f & Hb & ->). pose proof (Hok _ Hs) as Hd. states Hd Hb.
  destruct (_ && _) eqn:Hg; [|done]. reflect_guards. by apply complete_shown.
Qed.

Lemma complete_rule c : closed I (Complete (cc_upload c) (cc_checksum c)) →
  triple I (CompleteFinalize moment weight repository_ pool_ c) (keeping I (complete_answer c)).
Proof.
  intros Hcl. unfold CompleteFinalize. destruct (_ || _).
  { apply triple_answer. intros d view. unfold complete_completed, CompleteFailure.
    by rewrite refused_outcome by (by case_match). }
  apply triple_transaction; [done|by intros text s Hs|]. intros s Hs. pose proof (Hok _ Hs) as Hd.
  assert (Hrej : ∀ d st text, same_ids (tables s) d → st ≠ kSucceeded →
    wp (reject (CompleteFailure st text)) (ends I (keeping I (complete_answer c)) s) d).
  { intros d st text Hids Hst. apply wp_reject; [done..|]. intros d' view.
    unfold complete_completed, CompleteFailure. by rewrite refused_outcome. }
  apply (wp_locked_bundle _ weight); [done|intros; by apply Hrej|]. intros se f Hb.
  destruct (session_of_file _ _ _ _ _ _ Hd Hb) as (_ & S2 & S3 & _). states Hd Hb.
  destruct (Z.eqb_spec (fr_status f) 3) as [Hft|_].
  { destruct (_ || _) eqn:Hg; [by apply Hrej|]. reflect_guards. apply wp_done; [done|]. by apply complete_shown. }
  destruct (_ || _) eqn:Hg; [by apply Hrej|]. reflect_guards.
  change (expected_checksum (bundle_file (bundle_row_view f se))) with (fr_expected f) in *.
  apply tx_wp_bind, (wp_find_chunks _ weight); [done|..].
  { intros st text Hst. cbn [q_status]. rewrite Hst. apply Hrej; [done|by apply map_failed]. }
  intros text. cbn [q_status q_value]. change (negb (Succeeded kRepoSucceeded)) with false. cbv iota.
  rewrite (snapshot_view _ _ _ _ _ _ Hd Hb). destruct (ManifestReadyForFinalize _); [|by apply Hrej].
  unfold FinishFinalize. change (file_id (bundle_file _)) with (fr_id f).
  replace (cc_checksum c) with (fr_expected f) at 1 by done.
  apply tx_wp_bind, (wp_complete _ weight _ _ _ se f); auto.
  { intros r d Hids Hr. rewrite Hr. apply Hrej; [done|by apply map_failed]. }
  intros r d Hids Hmv. destruct (Succeeded (q_status r)) eqn:Hr; cbn [negb];
    [|apply Hrej; [done|by apply map_failed]].
  pose proof (moves_ok _ _ _ _ Hd Hmv) as Hd'.
  apply (wp_updated_bundle _ weight); [done|intros; by apply Hrej|]. intros se' f' Hb'.
  rewrite (view_bundle _ _ _ _ _ _ Hd' Hb'). states Hd' Hb'. destruct (_ && _) eqn:Hg; [|by apply Hrej].
  reflect_guards. apply wp_accept; [done| |done|by apply complete_shown|intros ?; apply recover_complete_rule].
  apply Hcl; [done|]. by replace (cc_checksum c) with (fr_expected f).
Qed.

(** ** Failure *)

Lemma fail_shown c d s f text : db_ok d → has_bundle d (cc_actor c) (cc_upload c) s f → fr_status f = 4 →
  verified_checksum (bundle_file (bundle_row_view f s)) = cc_checksum c →
  fail_answer c (MkFound kSucceeded (Some (bundle_row_view f s)) text) d.
Proof.
  intros Hd Hb Hf Hv view [= <-]. split; [|done]. eapply shown; try done; unfold states_ok; lia.
Qed.

Lemma recover_fail_rule c : triple I (RecoverFail moment repository_ c) (keeping I (fail_answer c)).
Proof.
  unfold RecoverFail. eapply triple_bind; [by apply (get_session_rule moment weight)|]. intros r.
  apply triple_ret. intros s [Hs Ha]. split; [done|]. destruct (found r) as [view|] eqn:Hv; [|done].
  destruct (Ha _ Hv) as (se & f & Hb & ->). pose proof (Hok _ Hs) as Hd. states Hd Hb.
  destruct (_ && _) eqn:Hg; [|done]. reflect_guards. by apply fail_shown.
Qed.

Lemma fail_rule c : closed I (Fail_ (cc_upload c) (cc_checksum c)) →
  triple I (FailFinalizeChecksum moment repository_ pool_ c) (keeping I (fail_answer c)).
Proof.
  intros Hcl. unfold FailFinalizeChecksum. destruct (_ || _).
  { apply triple_answer. intros d view. unfold FoundFailure. by rewrite refused_found by (by case_match). }
  apply triple_transaction; [done|by intros text s Hs|]. intros s Hs. pose proof (Hok _ Hs) as Hd.
  assert (Hrej : ∀ d st text, same_ids (tables s) d → st ≠ kSucceeded →
    wp (reject (FoundFailure st text)) (ends I (keeping I (fail_answer c)) s) d).
  { intros d st text Hids Hst. apply wp_reject; [done..|]. intros d' view. unfold FoundFailure.
    by rewrite refused_found. }
  apply (wp_locked_bundle _ weight); [done|intros; by apply Hrej|]. intros se f Hb.
  destruct (session_of_file _ _ _ _ _ _ Hd Hb) as (_ & S2 & _). states Hd Hb.
  destruct (Z.eqb_spec (fr_status f) 4) as [Hft|_].
  { destruct (negb _) eqn:Hg; [by apply Hrej|]. reflect_guards. apply wp_done; [done|]. by apply fail_shown. }
  destruct (_ || _) eqn:Hg; [by apply Hrej|]. reflect_guards.
  change (expected_checksum (bundle_file (bundle_row_view f se))) with (fr_expected f) in *.
  change (file_id (bundle_file _)) with (fr_id f).
  apply tx_wp_bind, (wp_fail_checksum _ weight _ _ (cc_upload c) se f); auto.
  { intros r d Hids Hr. rewrite Hr. apply Hrej; [done|by apply map_failed]. }
  intros r d Hids Hmv. destruct (Succeeded (q_status r)) eqn:Hr; cbn [negb];
    [|apply Hrej; [done|by apply map_failed]].
  pose proof (moves_ok _ _ _ _ Hd Hmv) as Hd'.
  apply (wp_updated_bundle _ weight); [done|intros; by apply Hrej|]. intros se' f' Hb'.
  rewrite (view_bundle _ _ _ _ _ _ Hd' Hb'). states Hd' Hb'. destruct (_ && _) eqn:Hg; [|by apply Hrej].
  reflect_guards. apply wp_accept; [done|by apply Hcl|done|by apply fail_shown|intros ?; apply recover_fail_rule].
Qed.

(** ** Downloads *)

Lemma download_rule q : triple I (GetDownloadFile moment repository_ q) (keeping I (download_answer q)).
Proof.
  unfold GetDownloadFile. destruct (negb repository_); [by apply triple_answer|].
  match goal with |- triple I (FindFileById _ _ _ ≫= ?K) _ => set (k := K) end.
  eapply triple_bind with (R := λ r s, I s ∧ download_answer q (k r ({| shared := s; ticks := 0 |})).2 (tables s));
    [|intros r; apply triple_ret; intros s [Hs Hr]; by split].
  unfold FindFileById. destruct (_ || _); [by apply triple_ret|].
  apply triple_connection; [done|by intros s Hs|]. intros s Hs. pose proof (Hok _ Hs) as Hd.
  apply tx_wp_bind, wp_query; [by intros e|]. apply tx_wp_ret. split; [done|].
  destruct (files (tables s) !! download_file q) as [f|] eqn:Hf; [|done].
  destruct (Z.eqb_spec (fr_owner f) (download_actor q)) as [Ho|]; [|done].
  destruct (ok_file _ _ Hd _ _ Hf) as [Hi Hfo]. pose proof (ok_next_file _ _ Hd).
  rewrite (parse_file (download_file q) f); [|lia|done]. unfold k, mret, io_ret. cbn [snd].
  rewrite found_some, (view_file (download_file q) f); [|lia|done]. unfold download_answer.
  change (found _) with (Some (file_row_view f)). by exists f.
Qed.

(** ** Beginning an upload *)

(** The upload a command is answered with is the one of its client identifier; it was
    begun with the same fingerprint, or the answer is a conflict. *)
Definition begin_answer (c : BeginUploadCommand) (r : BeginUploadResult) (d : Db) : Prop :=
  completed r = true → ∃ s f, has_bundle d (begin_actor c) (sr_upload s) s f ∧
    weight (sr_client s) = weight (begin_client c) ∧
    match o_outcome r with
    | kBeginConflict => sr_fingerprint s ≠ Sha256Hex true (canonical c)
    | _ => sr_fingerprint s = Sha256Hex true (canonical c) ∧ o_value r = Some (bundle_row_view f s)
    end.

Lemma find_client_rule owner client (P : FileUploadBundleFindResult → Db → Prop) :
  (∀ st text d, Succeeded st = false → P (MkRepo st None text) d) →
  (∀ text d, owner ≠ 0 → client ≠ [] → P (MkRepo kRepoSucceeded None text) d) →
  (∀ d s f text, db_ok d → has_bundle d owner (sr_upload s) s f → weight (sr_client s) = weight client →
     P (MkRepo kRepoSucceeded (Some (bundle_record f s)) text) d) →
  triple I (FindByClientUploadId moment weight owner client) (keeping I P).
Proof.
  intros Hfail Hno Hyes. unfold FindByClientUploadId.
  destruct (_ || _); [apply triple_ret; intros s Hs; split; [done|by apply Hfail]|].
  apply triple_connection; [done|intros s Hs; split; [done|by apply Hfail]|].
  intros s Hs. apply (wp_find_client _ weight); [by apply Hok|..].
  - intros st text Hst. split; [done|]. by apply Hfail.
  - intros text ? ? ?. split; [done|]. by apply Hno.
  - intros se f text Hb Hw. split; [done|]. apply Hyes; [by apply Hok|done|done].
Qed.

Lemma resolved_answer c s f text d : db_ok d → has_bundle d (begin_actor c) (sr_upload s) s f →
  weight (sr_client s) = weight (begin_client c) →
  begin_answer c (ResolveExistingUploadResult (MkRepo kRepoSucceeded (Some (bundle_record f s)) text)
                    (Sha256Hex true (canonical c))) d.
Proof.
  intros Hd Hb Hw. unfold ResolveExistingUploadResult.
  rewrite found_some, (view_bundle _ _ _ _ _ _ Hd Hb).
  change (rec_fingerprint (rec_session (bundle_record f s))) with (sr_fingerprint s).
  case_bool_decide as Hfp; intros _; by exists s, f.
Qed.

Lemma resolve_rule c : triple I (ResolveExistingUpload moment weight repository_ (begin_actor c) (begin_client c)
    (Sha256Hex true (canonical c))) (keeping I (begin_answer c)).
Proof.
  unfold ResolveExistingUpload. destruct (negb repository_); [by apply triple_answer|].
  eapply triple_bind; [apply find_client_rule with (P := λ r d,
    begin_answer c (ResolveExistingUploadResult r (Sha256Hex true (canonical c))) d)|].
  - intros st text d Hst. unfold ResolveExistingUploadResult. rewrite found_failed by done. unfold begin_answer.
    unfold BeginStorageFailure. by rewrite refused_outcome by (by apply map_failed).
  - by intros text d.
  - intros d s f text. by apply resolved_answer.
  - intros r. by apply triple_ret.
Qed.

Lemma recover_begin_rule c text : triple I (RecoverBegin moment weight repository_ (begin_actor c) (begin_client c)
    (Sha256Hex true (canonical c)) text) (keeping I (begin_answer c)).
Proof.
  unfold RecoverBegin. eapply triple_bind; [apply resolve_rule|]. intros r. apply triple_ret.
  intros s [Hs Ha]. split; [done|]. unfold begin_answer, completed in *.
  destruct r as [[] [] v t]; try done.
Qed.

(** The statements of [BeginUpload]. *)

Lemma wp_user_exists d user (Q : FileBooleanResult → Db → Prop) :
  (∀ r, Succeeded (q_status r) = false → Q r d) → (∀ b text, Q (MkRepo kRepoSucceeded b text) d) →
  wp (UserExistsOnConnection moment user) Q d.
Proof.
  intros Hfail Hyes. unfold UserExistsOnConnection. destruct (user =? 0); [by apply tx_wp_ret, Hfail|].
  apply tx_wp_bind, wp_query; [intros e; by apply tx_wp_ret, Hfail|]. apply tx_wp_ret, Hyes.
Qed.

(** A check of references changes nothing. *)
Lemma wp_references d refs (Q : bool → Db → Prop) : (∀ b, Q b d) → wp (ReferencesExist moment refs) Q d.
Proof.
  intros HQ. unfold ReferencesExist. destruct (negb _); [by apply tx_wp_ret|].
  apply tx_wp_bind, wp_query; intros; by apply tx_wp_ret.
Qed.

Lemma wp_insert_file d c (Q : FileInsertResult → Db → Prop) : db_ok d →
  (∀ r, Succeeded (q_status r) = false → Q r d) →
  (∀ t text, begin_actor c ≠ 0 → begin_size c ≠ 0 → bsize (begin_checksum c) = 64 →
     begin_algorithm c = str "sha256" → next_file d < 2 ^ 64 →
     let id := next_file d in
     Q (MkRepo kRepoSucceeded id text)
       (set_files <[id := MkFileRow id (begin_actor c) (begin_name c) (begin_type c) (begin_size c) (str "sha256")
                            (begin_checksum c) None (str "local_fs") None 1 1 t t None None]>
          (set_next_file (id + 1) d))) →
  wp (InsertFileOnConnection moment (begin_actor c) (begin_name c) (begin_type c) (begin_size c)
        (begin_algorithm c) (begin_checksum c)) Q d.
Proof.
  intros Hd Hfail Hyes. pose proof (ok_next_file _ _ Hd). unfold InsertFileOnConnection.
  destruct (_ || _) eqn:Hg; [by apply tx_wp_ret, Hfail|]. reflect_guards.
  apply tx_wp_bind, wp_references. intros present. destruct (negb present); [by apply tx_wp_ret, Hfail|].
  apply tx_wp_bind, wp_execute; [intros e; by apply tx_wp_ret, Hfail|]. intros m d' id. unfold insert_file.
  destruct (Z.leb_spec (2 ^ 64) (next_file d)); [done|]. intros [= <- <-].
  rewrite (proj2 (Z.eqb_neq _ 0)) by lia. by apply tx_wp_ret, Hyes.
Qed.

Lemma wp_set_key d id f key (Q : FileMutationResult → Db → Prop) : files d !! id = Some f →
  (∀ r, Succeeded (q_status r) = false → Q r d) →
  (∀ r t, Q r (set_files <[id := MkFileRow (fr_id f) (fr_owner f) (fr_name f) (fr_type f) (fr_size f)
                  (fr_algorithm f) (fr_expected f) (fr_verified f) (fr_backend f) (Some key) (fr_status f)
                  (fr_version f) (fr_created f) t (fr_available f) (fr_expires f)]> d)) →
  wp (SetStorageKeyOnConnection moment weight id key) Q d.
Proof.
  intros Hf Hfail Hyes. unfold SetStorageKeyOnConnection. destruct (_ || _); [by apply tx_wp_ret, Hfail|].
  apply tx_wp_bind, wp_execute; [intros e; by apply tx_wp_ret, Hfail|]. intros m d' n.
  unfold set_storage_key, update_file. rewrite Hf. destruct (fr_status f =? 1); [|intros [= <- <-]; by apply tx_wp_ret, Hfail].
  destruct (storage_key_taken _ _ _ _ _); [done|]. destruct (negb _); intros [= <- <-]; apply tx_wp_ret; [apply Hyes|by apply Hfail].
Qed.

Lemma wp_insert_session d file c fp (Q : UploadSessionInsertResult → Db → Prop) : 1 ≤ next_upload d →
  (∀ r, Succeeded (q_status r) = false → Q r d) →
  (∀ r, (q_value r).1 = false → next_upload d < 2 ^ 64 → Q r (set_next_upload (next_upload d + 1) d)) →
  (∀ t e text, begin_chunk c ≠ 0 → next_upload d < 2 ^ 64 →
     client_session weight d (begin_actor c) (begin_client c) = None →
     Q (MkRepo kRepoSucceeded (true, next_upload d) text)
       (set_sessions <[next_upload d := new_session (next_upload d) file c fp t e]>
          (set_next_upload (next_upload d + 1) d))) →
  wp (InsertUploadSessionIdempotentOnConnection moment weight add_day file (begin_actor c) (begin_client c) fp
        (begin_size c) (begin_chunk c)) Q d.
Proof.
  intros Hn Hfail Hold Hyes. unfold InsertUploadSessionIdempotentOnConnection.
  destruct (_ || _) eqn:Hg; [by apply tx_wp_ret, Hfail|]. reflect_guards.
  apply tx_wp_bind, wp_references. intros present. destruct (negb present); [by apply tx_wp_ret, Hfail|].
  apply tx_wp_bind, wp_execute; [intros e; by apply tx_wp_ret, Hfail|]. intros m d' n. unfold insert_session.
  destruct (Z.leb_spec (2 ^ 64) (next_upload d)); [done|].
  change (client_session weight (set_next_upload _ d)) with (client_session weight d).
  destruct (client_session weight d _ _) eqn:Hc.
  { intros [= <- <-]. apply tx_wp_ret. case_goal; by apply Hold. }
  destruct (file_session _ _).
  { intros [= <- <-]. apply tx_wp_ret. case_goal; by apply Hold. }
  intros [= <- <-]. rewrite (proj2 (Z.eqb_neq _ 0)) by lia. by apply tx_wp_ret, Hyes.
Qed.

(** The counters went up, by rows that are forgotten. *)
Definition drawn (d d' : Db) : Prop :=
  next_file d ≤ next_file d' ≤ 2 ^ 64 ∧ next_upload d ≤ next_upload d' ≤ 2 ^ 64.

Lemma wp_begin_body c d (Q : Ending (option BeginUploadResult) → Db → Prop) :
  db_ok d → begin_typed c → begin_client c ≠ [] →
  (∀ d' st text, drawn d d' → st ≠ kSucceeded → wp (reject (Some (BeginStorageFailure st text))) Q d') →
  (∀ d', drawn d d' → wp (reject None) Q d') →
  (∀ d' s f text, drawn d d' → moves (Create c) d d' → has_bundle d' (begin_actor c) (sr_upload s) s f →
     weight (sr_client s) = weight (begin_client c) → sr_fingerprint s = Sha256Hex true (canonical c) →
     wp (accept (Some (MkOutcome kSucceeded kBeginCreated (Some (bundle_row_view f s)) text))
           (λ error, r ← RecoverBegin moment weight repository_ (begin_actor c) (begin_client c)
                           (Sha256Hex true (canonical c)) error; mret (Some r))) Q d') →
  wp (BeginUploadBody moment weight add_day repository_ c (Sha256Hex true (canonical c))) Q d.
Proof.
  intros Hd Tc Hcl Hrej Hlost Hacc. pose proof (ok_next_file _ _ Hd) as Bf. pose proof (ok_next_upload _ _ Hd) as Bu.
  assert (Hfail : ∀ d' st text, drawn d d' → Succeeded st = false →
    wp (reject (Some (BeginStorageFailure (MapStorageStatus st) text))) Q d').
  { intros. apply Hrej; [done|by apply map_failed]. }
  assert (D0 : drawn d d) by (unfold drawn; lia).
  unfold BeginUploadBody. apply tx_wp_bind, wp_user_exists; [intros r Hr; rewrite Hr; by apply Hfail|].
  intros b text. destruct b; [|by apply Hrej]. cbn [q_status q_value negb Succeeded].
  change (Succeeded kRepoSucceeded) with true. cbn [negb].
  apply tx_wp_bind, wp_insert_file; [done|intros r Hr; rewrite Hr; by apply Hfail|].
  intros t text' Na Nz Hck Halg Hlt id. cbn [q_status q_value]. change (Succeeded kRepoSucceeded) with true. cbn [negb].
  set (d1 := set_files _ _). assert (D1 : drawn d d1) by (unfold drawn; cbn; lia).
  apply tx_wp_bind. eapply wp_set_key; [by apply lookup_insert_eq|intros r Hr; rewrite Hr; by apply Hfail|].
  intros r t'. cbn [fr_id fr_owner fr_name fr_type fr_size fr_algorithm fr_expected fr_verified fr_backend
    fr_status fr_version fr_created fr_available fr_expires].
  set (d2 := set_files _ d1). assert (D2 : drawn d d2) by (unfold drawn; cbn; lia).
  destruct (Succeeded (q_status r)) eqn:Hr; cbn [negb]; [|by apply Hfail]. apply tx_wp_bind, wp_insert_session.
  - cbn. lia.
  - intros r' Hr'. rewrite Hr'. by apply Hfail.
  - intros r' Hr' Hu. assert (D3 : drawn d (set_next_upload (next_upload d2 + 1) d2)) by (unfold drawn; cbn in *; lia).
    destruct (Succeeded (q_status r')) eqn:Hq; cbn [negb]; [|by apply Hfail]. rewrite Hr'. by apply Hlost.
  - intros e e' text'' Nc Hu Hnone. cbn [q_status q_value fst snd]. change (Succeeded kRepoSucceeded) with true. cbn [negb].
    set (d3 := set_sessions _ _). assert (D3 : drawn d d3) by (unfold drawn; cbn in *; lia).
    assert (Hmv : moves (Create c) d d3).
    { subst d3 d2 d1. unfold set_files, set_sessions, set_next_upload, set_next_file. cbn [files sessions chunks users next_file next_upload] in *.
      rewrite insert_insert_eq. apply moves_create; [|done|done|done]. by split_and!. }
    apply tx_wp_bind, (wp_find_bundle _ weight); [by eapply moves_ok|..].
    + intros st m Hst. rewrite found_failed by done. by apply Hfail.
    + intros m. by apply Hrej.
    + intros s f m Hb. rewrite found_some, (view_bundle weight _ _ _ _ _ (moves_ok _ _ _ _ Hd Hmv) Hb).
      assert (s = new_session (next_upload d2) id c (Sha256Hex true (canonical c)) e e') as ->.
      { destruct Hb as (Hb & _). unfold d3 in Hb. cbn [sessions set_sessions] in Hb.
        rewrite lookup_insert_eq in Hb. congruence. }
      by apply Hacc.
Qed.

Lemma begin_rule c : begin_typed c → closed I Draw → closed I (Create c) →
  triple I (BeginUpload moment weight add_day repository_ pool_ begin_snapshot c) (keeping I (begin_answer c)).
Proof.
  intros Tc Hdraw Hcreate. unfold BeginUpload. destruct (_ || _); [by apply triple_answer|].
  apply triple_tick_bind; [done|]. intros n0. destruct (negb _) eqn:Hfp; [by apply triple_answer|].
  assert (Sha256Hex (evp (moment n0)) (canonical c) = Sha256Hex true (canonical c)) as ->
    by (by destruct (evp (moment n0))). clear Hfp.
  eapply triple_bind; [apply find_client_rule with (P := λ r d,
    match q_value r with
    | Some _ => Succeeded (q_status r) = true ∧
                begin_answer c (ResolveExistingUploadResult r (Sha256Hex true (canonical c))) d
    | None => Succeeded (q_status r) = true → begin_client c ≠ []
    end)|].
  - intros st text d Hst. cbn. congruence.
  - intros text d _ Hc _. exact Hc.
  - intros d s f text Hd Hb Hw. split; [done|]. by apply resolved_answer.
  - intros r. destruct (Succeeded (q_status r)) eqn:Hr; cbn [negb].
    2: { apply triple_ret. intros s [Hs _]. split; [done|]. unfold begin_answer, BeginStorageFailure.
         by rewrite refused_outcome by (by apply map_failed). }
    destruct (q_value r) as [record|] eqn:Hv.
    { destruct begin_snapshot; [apply triple_ret; intros s [Hs Ha]; rewrite Hv in Ha; destruct Ha; by split|].
      eapply triple_pre; [apply resolve_rule|]. by intros s [Hs _]. }
    intros w [Hw Hcl]. rewrite Hv in Hcl. specialize (Hcl Hr). revert w Hw.
    eapply (triple_bind I _ _ (λ o s, I s ∧ match o with Some r => begin_answer c r (tables s) | None => True end)).
    2: { intros [r'|]; [apply triple_ret; intros s [Hs Ha]; by split|].
         eapply triple_pre; [apply resolve_rule|]. by intros s [Hs _]. }
    apply triple_transaction; [done|by intros text s Hs|]. intros s Hs.
    assert (Hdr : ∀ d, drawn (tables s) d → I (retable s (rolled_back (tables s) d))).
    { intros d [H1 H2]. apply Hdraw; [done|]. by apply moves_draw. }
    apply wp_begin_body; [by apply Hok|done|done|..].
    + intros d st text Hd Hst. apply tx_wp_ret. split; [by apply Hdr|]. unfold begin_answer, BeginStorageFailure.
      by rewrite refused_outcome.
    + intros d Hd. apply tx_wp_ret. split; [by apply Hdr|done].
    + intros d s' f text Hd Hmv Hb Hwt Hfp. apply tx_wp_ret. split_and!.
      * by apply Hcreate.
      * intros _. by exists s', f.
      * by apply Hcreate.
      * by apply Hdr.
      * intros error. eapply triple_bind; [apply recover_begin_rule|]. intros r'. by apply triple_ret.
Qed.

End Rules.
