(* ===== verification/FileUploads.v ===== *)
(** * Uploads as a state machine

    What the file repository promises: a map of uploads, each with what was declared
    when it began, the parts reserved and stored so far and a phase, and seven steps.
    [refines] says that every operation of [FileRepositoryAdapter], whatever fails and
    whatever the other users of the tables do between its statements, takes the uploads
    through such steps and answers what the tables then hold. *)
From Stdlib Require Import ZArith Lia String Relations.
From stdpp Require Import base list numbers gmap sorting relations.
From S2P Require Import Prelude ByteStrings FileTypes FileWorld FileRepository FileRepositoryAdapter FileTables FileMoves FileOperations FileRules FileFinalizeRules FileExample.

Local Open Scope Z_scope.

(** ** The machine *)

Inductive Phase := Uploading | Verifying | Available | Failed (actual : list Z) | Canceled.

Record Part := MkUploadPart { part_checksum : list Z; part_stored : bool }.

Record Upload := MkUpload {
  u_owner : Z;
  u_client : list Z;
  u_file : Z;
  u_size : Z;
  u_chunk : Z;
  u_declared : list Z;                 (* the SHA-256 of the whole *)
  u_phase : Phase;
  u_parts : gmap Z Part;
}.

Notation Uploads := (gmap Z Upload).

Definition part_count (u : Upload) : Z := 1 + (u_size u - 1) `div` u_chunk u.
Definition with_phase (p : Phase) (u : Upload) : Upload :=
  MkUpload (u_owner u) (u_client u) (u_file u) (u_size u) (u_chunk u) (u_declared u) p (u_parts u).
Definition with_part (i : Z) (p : Part) (u : Upload) : Upload :=
  MkUpload (u_owner u) (u_client u) (u_file u) (u_size u) (u_chunk u) (u_declared u) (u_phase u)
    (<[i := p]> (u_parts u)).
Definition complete (u : Upload) : Prop :=
  ∀ i, 0 ≤ i < part_count u → ∃ x, u_parts u !! i = Some (MkUploadPart x true).

Section Machine.
Context (weight : list Z → list Z).

Inductive ustep (us : Uploads) : Uploads → Prop :=
| u_create id u :
    us !! id = None → u_phase u = Uploading → u_parts u = ∅ →
    (∀ id' u', us !! id' = Some u' →
       u_file u' ≠ u_file u ∧ (u_owner u' = u_owner u → weight (u_client u') ≠ weight (u_client u))) →
    ustep us (<[id := u]> us)
| u_reserve id u i x :
    us !! id = Some u → u_phase u = Uploading → 0 ≤ i < part_count u → u_parts u !! i = None →
    ustep us (<[id := with_part i (MkUploadPart x false) u]> us)
| u_store id u i x :
    us !! id = Some u → u_phase u = Uploading → u_parts u !! i = Some (MkUploadPart x false) →
    ustep us (<[id := with_part i (MkUploadPart x true) u]> us)
| u_freeze id u :
    us !! id = Some u → u_phase u = Uploading → complete u →
    ustep us (<[id := with_phase Verifying u]> us)
| u_finish id u :
    us !! id = Some u → u_phase u = Verifying → ustep us (<[id := with_phase Available u]> us)
| u_fail id u x :
    us !! id = Some u → u_phase u = Verifying → x ≠ u_declared u →
    ustep us (<[id := with_phase (Failed x) u]> us)
| u_cancel id u :
    us !! id = Some u → u_phase u = Uploading → ustep us (<[id := with_phase Canceled u]> us).

(** ** What the machine promises *)

(** [u'] is a later state of the upload [u]. *)
Record later (u u' : Upload) : Prop := {
  la_owner : u_owner u' = u_owner u;
  la_client : u_client u' = u_client u;
  la_file : u_file u' = u_file u;
  la_size : u_size u' = u_size u;
  la_chunk : u_chunk u' = u_chunk u;
  la_declared : u_declared u' = u_declared u;
  la_parts i x b : u_parts u !! i = Some (MkUploadPart x b) →
    ∃ b', u_parts u' !! i = Some (MkUploadPart x b') ∧ (b = true → b' = true);
  la_frozen : u_phase u ≠ Uploading → u_parts u' = u_parts u;
  la_final : u_phase u ≠ Uploading → u_phase u ≠ Verifying → u_phase u' = u_phase u;
  la_forward : u_phase u ≠ Uploading → u_phase u' ≠ Uploading ∧ u_phase u' ≠ Canceled ∨ u_phase u' = u_phase u;
}.

Lemma uploads_later_refl u : later u u.
Proof. split; eauto. Qed.

Lemma uploads_later_trans u u' u'' : later u u' → later u' u'' → later u u''.
Proof.
  intros [] []. split; try congruence.
  - intros i x b (b' & H1 & H2)%la_parts0. apply la_parts1 in H1 as (b'' & H3 & H4). eauto.
  - intros Hp. rewrite la_frozen1; [auto|]. destruct (la_forward0 Hp) as [[? ?]|E]; congruence.
  - intros Hp Hv. pose proof (la_final0 Hp Hv) as E. rewrite <- E. apply la_final1; congruence.
  - intros Hp. destruct (la_forward0 Hp) as [[H1 H2]|E].
    + destruct (la_forward1 H1) as [?|E]; [by left|left; by rewrite E].
    + destruct (la_forward1 ltac:(congruence)) as [?|E']; [by left|right; congruence].
Qed.

Lemma ustep_later us us' id u : ustep us us' → us !! id = Some u → ∃ u', us' !! id = Some u' ∧ later u u'.
Proof.
  intros Hs Hu.
  assert (Hins : ∀ id0 u0 v, us !! id0 = Some u0 → later u0 v →
    ∃ u', <[id0 := v]> us !! id = Some u' ∧ later u u').
  { intros id0 u0 v Hu0 Hv. destruct (decide (id0 = id)) as [-> |Hne].
    - rewrite Hu in Hu0. injection Hu0 as <-. exists v. by rewrite lookup_insert_eq.
    - exists u. rewrite lookup_insert_ne by done. split; [done|]. apply uploads_later_refl. }
  destruct Hs as [id0 u0 Hno _ _ _|id0 u0 i x H0 Hp Hi Hn|id0 u0 i x H0 Hp Hi|id0 u0 H0 Hp Hc|id0 u0 H0 Hp
    |id0 u0 x H0 Hp Hx|id0 u0 H0 Hp].
  - exists u. rewrite lookup_insert_ne by congruence. split; [done|]. apply uploads_later_refl.
  - eapply Hins; [done|]. split; cbn; try done. intros j y b Hj. rewrite lookup_insert_ne by congruence. eauto.
  - eapply Hins; [done|]. split; cbn; try done. intros j y b Hj. destruct (decide (i = j)) as [-> |].
    + rewrite lookup_insert_eq. rewrite Hi in Hj. injection Hj as <- <-. eauto.
    + rewrite lookup_insert_ne by done. eauto.
  - eapply Hins; [done|]. split; cbn; eauto; congruence.
  - eapply Hins; [done|]. split; cbn; eauto; congruence.
  - eapply Hins; [done|]. split; cbn; eauto; congruence.
  - eapply Hins; [done|]. split; cbn; eauto; congruence.
Qed.

Lemma usteps_later us us' id u : rtc ustep us us' → us !! id = Some u → ∃ u', us' !! id = Some u' ∧ later u u'.
Proof.
  intros Hs. revert u. induction Hs as [us|us us1 us2 H1 _ IH]; intros u Hu.
  - exists u. split; [done|]. apply uploads_later_refl.
  - destruct (ustep_later _ _ _ _ H1 Hu) as (u1 & Hu1 & L1). destruct (IH _ Hu1) as (u2 & Hu2 & L2).
    exists u2. split; [done|]. by eapply uploads_later_trans.
Qed.

(** ** The tables as uploads *)

Definition phase_of (f : FileRow) : Phase :=
  match fr_status f with
  | 1 => Uploading
  | 2 => Verifying
  | 3 => Available
  | 4 => Failed (ifnull (fr_verified f))
  | _ => Canceled
  end.
Definition part_of (c : ChunkRow) : Part := MkUploadPart (cr_checksum c) (cr_status c =? 2).
Definition parts_of (d : Db) (upload : Z) : gmap Z Part :=
  part_of <$> default ∅ (map_curry (M1 := gmap Z) (M2 := gmap Z) (chunks d) !! upload).
Definition upload_of (d : Db) (id : Z) (s : SessionRow) (f : FileRow) : Upload :=
  MkUpload (sr_owner s) (sr_client s) (sr_file s) (sr_size s) (sr_chunk s) (fr_expected f) (phase_of f)
    (parts_of d id).
Definition uploads (d : Db) : Uploads :=
  map_imap (λ id s, upload_of d id s <$> files d !! sr_file s) (sessions d).

Lemma lookup_parts d id i : parts_of d id !! i = part_of <$> chunks d !! (id, i).
Proof.
  unfold parts_of. rewrite lookup_fmap. f_equal. rewrite <- (lookup_map_curry (M1 := gmap Z) (M2 := gmap Z)).
  by destruct (_ !! id).
Qed.

Lemma lookup_uploads d id :
  uploads d !! id = s ← sessions d !! id; f ← files d !! sr_file s; Some (upload_of d id s f).
Proof.
  unfold uploads. rewrite map_lookup_imap. destruct (sessions d !! id) as [s|]; [|done]. cbn.
  by destruct (files d !! sr_file s).
Qed.

Lemma uploads_row d id s f : sessions d !! id = Some s → files d !! sr_file s = Some f →
  uploads d !! id = Some (upload_of d id s f).
Proof. intros Hs Hf. rewrite lookup_uploads, Hs. cbn. by rewrite Hf. Qed.

(** A row of the map says where it comes from. *)
Lemma uploads_inv d id u : uploads d !! id = Some u →
  ∃ s f, sessions d !! id = Some s ∧ files d !! sr_file s = Some f ∧ u = upload_of d id s f.
Proof.
  rewrite lookup_uploads. destruct (sessions d !! id) as [s|]; [|done]. cbn.
  destruct (files d !! sr_file s) as [f|] eqn:Hf; [|done]. intros [= <-]. by exists s, f.
Qed.

Lemma parts_same d d' id : chunks d' = chunks d → parts_of d' id = parts_of d id.
Proof. intros E. apply map_eq. intros i. by rewrite !lookup_parts, E. Qed.

(** *** The changes are steps *)

Context `{Hash : Sha256}.

(** Both rows of an upload replaced. *)
Lemma uploads_advance d id s f s' f' : db_ok weight d →
  sessions d !! id = Some s → files d !! sr_file s = Some f →
  sr_owner s' = sr_owner s → sr_client s' = sr_client s → sr_file s' = sr_file s → sr_size s' = sr_size s →
  sr_chunk s' = sr_chunk s → fr_expected f' = fr_expected f →
  uploads (advance d id (sr_file s) s' f') = <[id := with_phase (phase_of f') (upload_of d id s f)]> (uploads d).
Proof.
  intros Hd Hs Hf E1 E2 E3 E4 E5 E6. apply map_eq. intros j. rewrite lookup_uploads. cbn [sessions files advance set_files set_sessions].
  destruct (decide (id = j)) as [<-|Hne].
  - rewrite !lookup_insert_eq. cbn [mbind option_bind]. rewrite E3, lookup_insert_eq. cbn [mbind option_bind].
    unfold with_phase, upload_of. cbn. by rewrite E1, E2, E3, E4, E5, E6.
  - rewrite !lookup_insert_ne, lookup_uploads by done. destruct (sessions d !! j) as [s0|] eqn:Hj; [|done].
    cbn [mbind option_bind]. rewrite lookup_insert_ne; [done|]. intros E. by destruct Hne; eapply (ok_one_session _ _ Hd).
Qed.

(** A chunk row added or replaced. *)
Lemma uploads_chunk d id i c s f : sessions d !! id = Some s → files d !! sr_file s = Some f →
  uploads (set_chunks <[(id, i) := c]> d) = <[id := with_part i (part_of c) (upload_of d id s f)]> (uploads d).
Proof.
  intros Hs Hf. apply map_eq. intros j. rewrite lookup_uploads. cbn [sessions files set_chunks].
  destruct (decide (id = j)) as [<-|Hne].
  - rewrite Hs. cbn [mbind option_bind]. rewrite Hf, lookup_insert_eq. cbn [mbind option_bind]. f_equal.
    unfold with_part, upload_of. cbn. f_equal. apply map_eq. intros k. rewrite lookup_parts. cbn.
    destruct (decide (i = k)) as [<-|]; [by rewrite !lookup_insert_eq|].
    rewrite !lookup_insert_ne, lookup_parts by congruence. done.
  - rewrite lookup_insert_ne, lookup_uploads by done. destruct (sessions d !! j) as [s0|]; [|done]. cbn.
    destruct (files d !! sr_file s0) as [f0|]; [|done]. cbn. f_equal. unfold upload_of. f_equal.
    apply map_eq. intros k. rewrite !lookup_parts. cbn. by rewrite lookup_insert_ne by congruence.
Qed.

Lemma uploads_draw d nf nu : uploads (set_next_file nf (set_next_upload nu d)) = uploads d.
Proof. done. Qed.

Lemma uploads_create d c t t' e e' fp : db_ok weight d →
  let f := new_file (next_file d) c t t' in
  let s := new_session (next_upload d) (next_file d) c fp e e' in
  uploads (MkDb (<[next_file d := f]> (files d)) (<[next_upload d := s]> (sessions d)) (chunks d) (users d)
             (next_file d + 1) (next_upload d + 1)) =
  <[next_upload d := upload_of d (next_upload d) s f]> (uploads d) ∧
  uploads d !! next_upload d = None ∧ parts_of d (next_upload d) = ∅.
Proof.
  intros Hd f s.
  assert (Hno : sessions d !! next_upload d = None).
  { destruct (sessions d !! next_upload d) as [s0|] eqn:E; [|done]. apply (ok_session _ _ Hd) in E. lia. }
  split_and!.
  - apply map_eq. intros j. rewrite lookup_uploads. cbn [sessions files].
    destruct (decide (next_upload d = j)) as [<-|Hne].
    + rewrite !lookup_insert_eq. cbn [mbind option_bind]. change (sr_file s) with (next_file d).
      by rewrite lookup_insert_eq.
    + rewrite !lookup_insert_ne, lookup_uploads by done. destruct (sessions d !! j) as [s0|] eqn:Hj; [|done].
      cbn [mbind option_bind]. rewrite lookup_insert_ne; [done|].
      destruct (ok_session _ _ Hd _ _ Hj) as [_ Hso]. destruct (so_file _ _ _ Hso) as (f0 & Hf0 & _).
      apply (ok_file _ _ Hd) in Hf0. lia.
  - by rewrite lookup_uploads, Hno.
  - apply map_eq. intros i. rewrite lookup_parts, lookup_empty.
    destruct (chunks d !! _) as [c0|] eqn:Hc; [|done].
    destruct (co_session _ _ _ (ok_chunk _ _ Hd _ _ Hc)) as (s0 & Hs0 & _). cbn in Hs0. congruence.
Qed.

Lemma moves_ustep l d d' : db_ok weight d → moves weight l d d' → rtc ustep (uploads d) (uploads d').
Proof.
  intros Hd. destruct 1 as [d nf nu Hf Hu|d c t t' e e' Hc Hf Hu Hnone|d u i ck s t Hs Hst Hi Hck Hno
    |d u i s c v t t' Hs Hst Hc Hcs Hv|d u s f v v' t t' Hs Hf Hst Hft Hall|d u s f v v' t t' e e' Hs Hf Hst Hft
    |d u ck s f v t Hs Hf Hst Hft Hck|d u s f v v' t t' Hs Hf Hst Hft].
  - by rewrite uploads_draw.
  - destruct (uploads_create d c t t' e e' (Sha256Hex true (canonical c)) Hd) as (-> & Hn & Hp).
    apply rtc_once, u_create; [done|done|done|].
    intros id u (s0 & f0 & Hs0 & Hf0 & ->)%uploads_inv. cbn. split.
    + apply (ok_file _ _ Hd) in Hf0. lia.
    + by eapply client_none.
  - destruct (ok_session _ _ Hd _ _ Hs) as [_ Hso]. destruct (so_file _ _ _ Hso) as (f & Hf & _ & _ & Hstates).
    rewrite (uploads_chunk _ _ _ _ s f) by done. apply rtc_once, u_reserve; try done.
    + by apply uploads_row.
    + unfold states_ok in Hstates. cbn. unfold phase_of. by replace (fr_status f) with 1 by lia.
    + cbn. by rewrite lookup_parts, Hno.
  - destruct (ok_session _ _ Hd _ _ Hs) as [_ Hso]. destruct (so_file _ _ _ Hso) as (f & Hf & _ & _ & Hstates).
    rewrite (uploads_chunk _ _ _ _ s f) by done. apply rtc_once, u_store; try done.
    + by apply uploads_row.
    + unfold states_ok in Hstates. cbn. unfold phase_of. by replace (fr_status f) with 1 by lia.
    + cbn. rewrite lookup_parts, Hc. cbn. unfold part_of. by rewrite Hcs.
  - rewrite (uploads_advance _ _ _ f) by done. apply rtc_once, u_freeze; [by apply uploads_row|cbn; unfold phase_of; by rewrite Hft|].
    intros i Hi. destruct (Hall i Hi) as (c & Hc & Hcs). exists (cr_checksum c). cbn.
    rewrite lookup_parts, Hc. cbn. unfold part_of. by rewrite Hcs.
  - rewrite (uploads_advance _ _ _ f) by done. apply rtc_once, u_finish; [by apply uploads_row|cbn; unfold phase_of; by rewrite Hft].
  - assert (set_files <[sr_file s := file_as f 4 (Some ck) v t (fr_available f)]> d =
            advance d u (sr_file s) s (file_as f 4 (Some ck) v t (fr_available f))) as ->.
    { unfold advance, set_sessions. by rewrite insert_id by done. }
    rewrite (uploads_advance _ _ _ f) by done. apply rtc_once, u_fail; [by apply uploads_row|cbn; unfold phase_of; by rewrite Hft|done].
  - rewrite (uploads_advance _ _ _ f) by done. apply rtc_once, u_cancel; [by apply uploads_row|cbn; unfold phase_of; by rewrite Hft].
Qed.

End Machine.

(** ** The refinement *)

Inductive Operation :=
| OpBegin (c : BeginUploadCommand)
| OpSession (q : UploadQuery)
| OpCancel (c : UploadQuery)
| OpReserve (c : ReserveChunkCommand)
| OpMark (c : MarkChunkStoredCommand)
| OpSnapshot (q : UploadQuery)
| OpPrepare (c : UploadQuery)
| OpComplete (c : ChecksumCommand)
| OpFail (c : ChecksumCommand)
| OpDownload (q : GetDownloadInfoQuery).

Inductive Response :=
| AnBegin (r : BeginUploadResult)
| AnSession (r : GetUploadSessionResult)
| AnCancel (r : CancelUploadResult)
| AnReserve (r : ReserveChunkResult)
| AnMark (r : MarkChunkStoredResult)
| AnSnapshot (r : GetUploadSnapshotResult)
| AnPrepare (r : FinalizePreparationResult)
| AnComplete (r : CompleteFinalizeResult)
| AnFail (r : FailFinalizeChecksumResult)
| AnDownload (r : GetDownloadFileResult).

(** Numbers of commands that a 64-bit field can hold. *)
Definition operation_typed (op : Operation) : Prop :=
  match op with
  | OpBegin c => begin_typed c
  | OpReserve c => is_u64 (rc_index c)
  | _ => True
  end.

Section Refinement.
Context (moment : nat → Moment Db) `{Hash : Sha256}.
Context (weight : list Z → list Z) (add_day : list Z → list Z).
Context (repository_ pool_ begin_snapshot : bool).

(** An operation of the repository on the world. *)
Definition perform (op : Operation) : IO Db Response :=
  match op with
  | OpBegin c => r ← BeginUpload moment weight add_day repository_ pool_ begin_snapshot c; mret (AnBegin r)
  | OpSession q => r ← GetUploadSession moment repository_ q; mret (AnSession r)
  | OpCancel c => r ← CancelUpload moment repository_ pool_ c; mret (AnCancel r)
  | OpReserve c => r ← ReserveChunk moment weight repository_ pool_ c; mret (AnReserve r)
  | OpMark c => r ← MarkChunkStored moment weight repository_ pool_ c; mret (AnMark r)
  | OpSnapshot q => r ← GetUploadSnapshot moment repository_ pool_ q; mret (AnSnapshot r)
  | OpPrepare c => r ← PrepareFinalize moment repository_ pool_ c; mret (AnPrepare r)
  | OpComplete c => r ← CompleteFinalize moment weight repository_ pool_ c; mret (AnComplete r)
  | OpFail c => r ← FailFinalizeChecksum moment repository_ pool_ c; mret (AnFail r)
  | OpDownload q => r ← GetDownloadFile moment repository_ q; mret (AnDownload r)
  end.

(** A success answers what the tables hold. *)
Definition truthful (op : Operation) (r : Response) (d : Db) : Prop :=
  match op, r with
  | OpBegin c, AnBegin r => begin_answer weight c r d
  | OpSession q, AnSession r => session_answer q r d
  | OpCancel c, AnCancel r => cancel_answer c r d
  | OpReserve c, AnReserve r => reserve_answer c r d
  | OpMark c, AnMark r => mark_answer c r d
  | OpSnapshot q, AnSnapshot r => snapshot_answer q r d
  | OpPrepare c, AnPrepare r => prepare_answer c r d
  | OpComplete c, AnComplete r => complete_answer c r d
  | OpFail c, AnFail r => fail_answer c r d
  | OpDownload q, AnDownload r => download_answer q r d
  | _, _ => False
  end.

(** Every operation keeps what its change of the tables keeps. *)
Lemma perform_rule (I : Shared Db → Prop) op : stable moment I → (∀ s, I s → db_ok weight (tables s)) →
  (∀ l, closed weight I l) → operation_typed op →
  triple I (perform op) (keeping I (truthful op)).
Proof.
  intros HI Hok Hcl Hop.
  assert (Hlift : ∀ {R} (e : IO Db R) (P : R → Db → Prop) (an : R → Response),
    triple I e (keeping I P) → (∀ r d, P r d → truthful op (an r) d) →
    triple I (r ← e; mret (an r)) (keeping I (truthful op))).
  { intros R e P an He Han. eapply triple_bind; [exact He|]. intros r. apply triple_ret.
    intros s [Hs Hr]. split; [done|]. by apply Han. }
  destruct op; cbn [perform]; eapply Hlift.
  all: try (eapply begin_rule || eapply get_session_rule || eapply cancel_rule || eapply reserve_rule ||
            eapply mark_rule || eapply snapshot_rule || eapply prepare_rule || eapply complete_rule ||
            eapply fail_rule || eapply download_rule); try done; try apply Hcl.
Qed.

(** The other users of the tables work on the uploads as the machine does. *)
Definition others_refine : Prop := ∀ n s, db_ok weight (tables s) →
  db_ok weight (tables (others (moment n) s)) ∧
  rtc (ustep weight) (uploads (tables s)) (uploads (tables (others (moment n) s))).

(** C23: Whatever an operation of the file repository is asked, whatever statements fail,
    and whether a commit is carried out, lost or reported as failed though it was carried
    out: the uploads go through steps of the upload machine (begin, reserve a part, store
    it, freeze a complete upload, finish, fail, cancel) interleaved with those of the
    others, the tables stay well-formed, and a success answers what the tables hold at
    that time, in the phase the operation promises.  So what an upload was declared to be
    never changes, its reserved parts keep their checksums and its stored parts stay
    stored, its parts are frozen once it left the first phase, and a finished, failed or
    canceled upload stays as it is ([later]). *)
Theorem uploads_refine op w :
  others_refine → operation_typed op → db_ok weight (tables (shared w)) →
  let '(w', r) := perform op w in
  db_ok weight (tables (shared w')) ∧
  rtc (ustep weight) (uploads (tables (shared w))) (uploads (tables (shared w'))) ∧
  truthful op r (tables (shared w')) ∧
  ∀ id u, uploads (tables (shared w)) !! id = Some u →
          ∃ u', uploads (tables (shared w')) !! id = Some u' ∧ later u u'.
Proof.
  intros Hothers Hop Hd.
  set (I := λ s, db_ok weight (tables s) ∧
                 rtc (ustep weight) (uploads (tables (shared w))) (uploads (tables s))).
  assert (HI : stable moment I).
  { intros n s [Hs Hr]. destruct (Hothers n s Hs). split; [done|]. by etrans. }
  assert (Hcl : ∀ l, closed weight I l).
  { intros l s d [Hs Hr] Hmv. split; [by eapply moves_ok|]. cbn. etrans; [done|]. by eapply moves_ustep. }
  pose proof (perform_rule I op HI ltac:(by intros s [Hs _]) Hcl Hop w ltac:(by split)) as [[H1 H2] H3].
  destruct (perform op w) as [w' r]. split_and!; try done. intros id u Hu. by eapply usteps_later.
Qed.

End Refinement.

(** A first upload in the example world. *)
Lemma uploads_refine_witness :
  let '(w', r) := @perform quiet toy_sha256 same_text next_day true true true (OpBegin example_begin)
                    empty_world in
  db_ok same_text (tables (shared w')) ∧
  rtc (ustep same_text) ∅ (uploads (tables (shared w'))) ∧
  @truthful toy_sha256 same_text (OpBegin example_begin) r (tables (shared w')) ∧
  u_phase <$> uploads (tables (shared w')) !! 1 = Some Uploading.
Proof.
  pose proof (@uploads_refine quiet toy_sha256 same_text next_day true true true (OpBegin example_begin)
    empty_world ltac:(intros n s Hs; split; [exact Hs|apply rtc_refl])
    ltac:(vm_compute; split_and!; congruence) empty_db_ok) as Hr.
  assert (Hp : u_phase <$> uploads (tables (shared (@perform quiet toy_sha256 same_text next_day true true true
    (OpBegin example_begin) empty_world).1)) !! 1 = Some Uploading) by (vm_compute; reflexivity).
  destruct (@perform _ _ _ _ _ _ _ _ _) as [w' r]. destruct Hr as (H1 & H2 & H3 & _).
  split; [exact H1|split; [exact H2|split; [exact H3|exact Hp]]].
Defined.
