(* ===== verification/FileBegin.v ===== *)
(** * Beginning an upload again

    The fingerprint of a session is the SHA-256 of the declaration it was begun with, so
    a client that repeats [BeginUpload] gets its upload back, or a conflict if it declares
    something else. *)
From Stdlib Require Import ZArith Lia String.
From stdpp Require Import base list numbers gmap sorting.
From S2P Require Import Prelude ByteStrings FileTypes FileWorld FileRepository FileRepositoryAdapter FileTables FileMoves FileOperations FileRules FileFinalizeRules FileExample.

Local Open Scope Z_scope.

(** ** Declarations *)

(** What the fingerprint covers: all but the identifier of the client. *)
Definition same_declaration (a b : BeginUploadCommand) : Prop :=
  begin_actor a = begin_actor b ∧ begin_name a = begin_name b ∧ begin_type a = begin_type b ∧
  begin_size a = begin_size b ∧ begin_algorithm a = begin_algorithm b ∧
  begin_checksum a = begin_checksum b ∧ begin_chunk a = begin_chunk b.

Definition printable (c : BeginUploadCommand) : Prop :=
  begin_typed c ∧ is_u64 (bsize (begin_name c)) ∧ is_u64 (bsize (begin_type c)) ∧
  is_u64 (bsize (begin_algorithm c)) ∧ is_u64 (bsize (begin_checksum c)).

(** A field with its length in front can be split off. *)
Lemma append_field_inj v v' t t' : is_u64 (bsize v) → is_u64 (bsize v') →
  AppendField v ++ t = AppendField v' ++ t' → v = v' ∧ t = t'.
Proof.
  intros Hv Hv'. unfold AppendField. rewrite <- !app_assoc. change (str ":") with [58]. change (str "|") with [124].
  cbn [app]. intros Heq. apply split_at in Heq as [Hn Heq]; [|apply to_string_no; lia..].
  apply to_string_inj in Hn; [|done..]. unfold bsize in Hn. apply app_inj_1 in Heq as [-> Heq]; [|lia].
  by injection Heq.
Qed.

Lemma number_inj n n' t t' : is_u64 n → is_u64 n' →
  to_string n ++ str "|" ++ t = to_string n' ++ str "|" ++ t' → n = n' ∧ t = t'.
Proof.
  intros Hn Hn'. change (str "|") with [124]. cbn [app]. intros Heq.
  apply split_at in Heq as [E ->]; [|apply to_string_no; lia..]. by apply to_string_inj in E.
Qed.

Lemma canonical_inj a b : printable a → printable b → canonical a = canonical b → same_declaration a b.
Proof.
  intros ((A1 & A2 & A3) & A4 & A5 & A6 & A7) ((B1 & B2 & B3) & B4 & B5 & B6 & B7). unfold canonical. intros Heq.
  apply app_inv_head in Heq. apply number_inj in Heq as [E1 Heq]; [|done..].
  apply append_field_inj in Heq as [E2 Heq]; [|done..]. apply append_field_inj in Heq as [E3 Heq]; [|done..].
  apply number_inj in Heq as [E4 Heq]; [|done..]. apply append_field_inj in Heq as [E5 Heq]; [|done..].
  apply append_field_inj in Heq as [E6 Heq]; [|done..]. apply to_string_inj in Heq; [|done..]. by split_and!.
Qed.

Lemma canonical_same a b : same_declaration a b → canonical a = canonical b.
Proof. unfold canonical. by intros (-> & -> & -> & -> & -> & -> & ->). Qed.

(** What the rows of an upload declare. *)
Definition declared (s : SessionRow) (f : FileRow) : BeginUploadCommand :=
  MkBegin (sr_owner s) (sr_client s) (fr_name f) (fr_type f) (fr_size f) (fr_algorithm f) (fr_expected f)
    (sr_chunk s).

Section Begin.
Context (moment : nat → Moment Db) `{Laws : Sha256Laws}.
Context (weight : list Z → list Z) (add_day : list Z → list Z).
Context (repository_ pool_ begin_snapshot : bool).

Definition prints_ok (d : Db) : Prop := ∀ id s f, sessions d !! id = Some s → files d !! sr_file s = Some f →
  printable (declared s f) ∧ sr_fingerprint s = Sha256Hex true (canonical (declared s f)).

Lemma prints_advance d id s f status v t e status' verified v' t' e' : db_ok weight d → prints_ok d →
  sessions d !! id = Some s → files d !! sr_file s = Some f →
  prints_ok (advance d id (sr_file s) (session_as s status v t e) (file_as f status' verified v' t' e')).
Proof.
  intros Hd Hp Hs Hf j s0 f0. cbn [advance sessions files set_files set_sessions]. rewrite lookup_insert_Some.
  intros [[<- <-]|[Hne Hj]].
  - cbn [session_as sr_file]. rewrite lookup_insert_eq. intros [= <-]. by apply (Hp id s f).
  - rewrite lookup_insert_ne; [intros Hf0; by apply (Hp j s0 f0)|]. intros E. by destruct Hne; eapply (ok_one_session _ _ Hd).
Qed.

Lemma prints_moves l d d' : db_ok weight d → (∀ c, l = Create c → printable c) → prints_ok d →
  moves weight l d d' → prints_ok d'.
Proof.
  intros Hd Hl Hp. destruct 1 as [|d c t t' e e' Hc Hf Hu Hnone|d u i ck s t Hs Hst Hi Hck Hno
    |d u i s c v t t' Hs Hst Hc Hcs Hv|d u s f v v' t t' Hs Hf Hst Hft Hall|d u s f v v' t t' e e' Hs Hf Hst Hft
    |d u ck s f v t Hs Hf Hst Hft Hck|d u s f v v' t t' Hs Hf Hst Hft];
    [exact Hp| |exact Hp|exact Hp|by apply prints_advance|by apply prints_advance| |by apply prints_advance].
  - intros id s f. cbn [sessions files]. rewrite lookup_insert_Some. intros [[<- <-]|[_ Hs]].
    + change (sr_file (new_session _ _ _ _ _ _)) with (next_file d). rewrite lookup_insert_eq. intros [= <-].
      assert (E : same_declaration c (declared (new_session (next_upload d) (next_file d) c
                 (Sha256Hex true (canonical c)) e e') (new_file (next_file d) c t t'))).
      { destruct Hc as (_ & _ & _ & _ & _ & _ & Ha). by split_and!. }
      rewrite <- (canonical_same _ _ E). split; [|done]. specialize (Hl c eq_refl).
      destruct Hl as (? & ? & ? & Hal & ?). destruct E as (E1 & E2 & E3 & E4 & E5 & E6 & E7).
      unfold printable, begin_typed. by rewrite <- E1, <- E2, <- E3, <- E4, <- E5, <- E6, <- E7.
    + rewrite lookup_insert_ne; [intros Hf0; by apply (Hp id s f)|]. destruct (ok_session _ _ Hd _ _ Hs) as [_ Hso].
      destruct (so_file _ _ _ Hso) as (f0 & Hf0 & _). apply (ok_file _ _ Hd) in Hf0. lia.
  - intros id s0 f0. cbn. intros Hs0. rewrite lookup_insert_Some. intros [[E <-]|[_ Hf0]]; [|by apply (Hp id s0 f0)].
    assert (id = u) as -> by (by eapply (ok_one_session _ _ Hd)).
    rewrite Hs in Hs0. injection Hs0 as <-. by apply (Hp u s f).
Qed.

(** Tables whose fingerprints are right. *)
Definition printed (s : Shared Db) : Prop := db_ok weight (tables s) ∧ prints_ok (tables s).

Lemma begin_printed c : stable moment printed → printable c →
  triple printed (BeginUpload moment weight add_day repository_ pool_ begin_snapshot c)
    (keeping printed (begin_answer weight c)).
Proof.
  intros Hothers Hc.
  assert (Hcl : ∀ l, (∀ c, l = Create c → printable c) → closed weight printed l).
  { intros l Hl s d [Hs Hps] Hmv. split; [by eapply moves_ok|]. by eapply prints_moves. }
  apply begin_rule; [done|by intros s [Hs _]|apply Hc|by apply Hcl|]. apply Hcl. by intros c' [= <-].
Qed.

(** C24: Repeating [BeginUpload] is safe.  A success other than a conflict returns the
    upload of the client identifier, and that upload was declared exactly as the command
    declares it: the same user, name, type, size, checksum and chunk size (or the texts of
    the two declarations differ and have one SHA-256).  A conflict says that the identifier is
    taken by an upload declared otherwise.  This holds whatever fails, also when the
    outcome of the commit is unknown or another request wins the race for the
    identifier. *)
Theorem begin_again_same c w :
  stable moment printed → printable c → printed (shared w) →
  let '(w', r) := BeginUpload moment weight add_day repository_ pool_ begin_snapshot c w in
  completed r = true →
  ∃ s f, has_bundle (tables (shared w')) (begin_actor c) (sr_upload s) s f ∧
    weight (sr_client s) = weight (begin_client c) ∧
    match o_outcome r with
    | kBeginConflict => ¬ same_declaration (declared s f) c
    | _ => o_value r = Some (bundle_row_view f s) ∧ (same_declaration (declared s f) c ∨ collide (canonical (declared s f)) (canonical c))
    end.
Proof.
  intros Hothers Hc Hp. pose proof (begin_printed c Hothers Hc w Hp) as [[_ Hp'] Ha].
  destruct (BeginUpload _ _ _ _ _ _ c w) as [w' r]. intros Hr. destruct (Ha Hr) as (s & f & Hb & Hw & Hout).
  exists s, f. split; [done|]. split; [done|]. pose proof Hb as (Hs & _ & Hf).
  destruct (Hp' _ _ _ Hs Hf) as [Hpr Hfp]. cbn [fst snd] in *.
  assert (Hsame : sr_fingerprint s = Sha256Hex true (canonical c) →
    same_declaration (declared s f) c ∨ collide (canonical (declared s f)) (canonical c)).
  { rewrite Hfp. intros [E|?]%Sha256Hex_eq; [|by right]. left. by apply canonical_inj. }
  destruct (o_outcome r); [destruct Hout; by auto|destruct Hout; by auto|].
  intros E. apply Hout. by rewrite Hfp, (canonical_same _ _ E).
Qed.

End Begin.

(** The example upload is begun twice. *)
Definition begin_example : World Db → World Db * BeginUploadResult :=
  @BeginUpload quiet toy_sha256 same_text next_day true true true example_begin.

Lemma begin_again_same_witness :
  let '(w2, r) := begin_example (begin_example empty_world).1 in
  o_outcome r = kBeginReused ∧
  ∃ s f, has_bundle (tables (shared w2)) 7 (sr_upload s) s f ∧
         (same_declaration (declared s f) example_begin ∨ @collide toy_sha256 (canonical (declared s f)) (canonical example_begin)).
Proof.
  set (w1 := (begin_example empty_world).1).
  assert (Hr : o_outcome (begin_example w1).2 = kBeginReused ∧ completed (begin_example w1).2 = true)
    by (vm_compute; split; reflexivity).
  assert (Hpr : printable example_begin) by (vm_compute; repeat split; congruence).
  assert (Hst : stable quiet (@printed toy_sha256 same_text)) by (intros n s Hs; exact Hs).
  assert (H1 : @printed toy_sha256 same_text (shared w1)).
  { apply (@begin_printed quiet toy_sha256 same_text next_day true true true _ Hst Hpr empty_world).
    split; [exact empty_db_ok|]. intros id s f Hs. discriminate Hs. }
  pose proof (@begin_again_same quiet toy_sha256 toy_laws same_text next_day true true true example_begin w1
    Hst Hpr H1) as Ht.
  change (BeginUpload _ _ _ _ _ _ _ _) with (begin_example w1) in Ht.
  destruct (begin_example w1) as [w2 r]. destruct Hr as [Ho Hc]. destruct (Ht Hc) as (s & f & Hb & _ & Hout).
  cbn [snd] in Ho. rewrite Ho in Hout. split; [exact Ho|]. exists s, f. split; [exact Hb|apply Hout].
Defined.
