(* ===== verification/FileReadiness.v ===== *)
(** * Two tests for a complete upload

    The application service derives from a snapshot whether an upload can be finalized
    ([BuildProgress]); the repository tests the manifest again inside its transaction
    ([ManifestReadyForFinalize]).  The two agree on every snapshot of the tables, and the
    application service accepts every snapshot of the tables. *)
From Stdlib Require Import ZArith Lia String.
From stdpp Require Import base list numbers gmap sorting.
From S2P Require Import Prelude ByteStrings FileTypes FileApplicationService FileProgress FileWorld FileRepository FileRepositoryAdapter FileTables FileMoves FileOperations FileRules FileExample.

Local Open Scope Z_scope.

Section Manifest.
Context (s : UploadSnapshotView).
Hypothesis Hs : snapshot_typed s.
Hypothesis Hg : geometry s.

Local Abbreviation bundle := (snapshot_bundle s).
Local Abbreviation session := (bundle_session (snapshot_bundle s)).

Lemma manifest_loop_complete cs : ∀ k, 0 ≤ k → Forall (chunk_fits bundle) cs →
  Forall (λ c, chunk_status c = kStored) cs → chunk_index <$> cs = seqZ k (Z.of_nat (length cs)) →
  k + Z.of_nat (length cs) ≤ chunks_of session → ManifestLoop session k cs = true.
Proof.
  destruct Hs as (Tsz & Tch & _), Hg as (Hb & _).
  induction cs as [|c cs IH]; intros k Hk Hf Hst Hi Hle; [done|]. cbn [ManifestLoop].
  apply list.Forall_cons in Hf as [Hc Hf], Hst as [Hcs Hst]. cbn [length] in *.
  rewrite fmap_cons, seqZ_cons in Hi by lia. injection Hi as Hi Hrest.
  destruct Hc as (_ & _ & _ & _ & _ & _ & Hoff & Hsz & _).
  destruct (expected_eq bundle Hb Tsz Tch k) as [E1 E2]; [lia|]. unfold expected_offset, expected_size in *.
  rewrite Hi in *. rewrite Z.eqb_refl, Hoff, Hsz, Hcs, <- E1, <- E2, !Z.eqb_refl, bool_decide_true by done.
  cbn [negb orb]. apply IH; [lia|done|done| |lia]. rewrite Hrest. f_equal; lia.
Qed.

Lemma manifest_complete : ManifestReadyForFinalize s = true ↔
  ∀ i, 0 ≤ i < chunks_of session → stored_at_index (snapshot_chunks s) i.
Proof.
  destruct Hs as (Tsz & Tch & Tix), Hg as (Hb & Hsorted & Hf). pose proof (chunks_range _ Hb Tsz Tch) as Hr.
  unfold ManifestReadyForFinalize. pose proof Hb as (_ & _ & _ & _ & _ & Nsz & Esz & Nch).
  rewrite Esz in Nsz. rewrite (proj2 (Z.eqb_neq _ 0) Nsz), (proj2 (Z.eqb_neq _ 0) Nch), Esz, Z.eqb_refl. cbn [negb orb].
  change (1 + _ `div` _) with (chunks_of session). rewrite u64_small by (unfold is_u64 in *; lia).
  split.
  - destruct (negb _) eqn:Hn; [done|]. reflect_guards. intros Hl i Hi.
    destruct (lookup_lt_is_Some_2 (snapshot_chunks s) (Z.to_nat i) ltac:(lia)) as [c Hc].
    destruct (manifest_loop _ _ _ Hl _ _ Hc) as [E Hst]. exists c. split; [by eapply list_elem_of_lookup_2|].
    split; [lia|done].
  - intros Hall. destruct (complete_stored bundle Hb Tsz Tch (snapshot_chunks s)) as (Hd & Hst & _); [|done|].
    { unfold acceptable. split_and!; try done. eapply Forall_impl; [exact Tix|]. unfold is_u64. cbn. lia. }
    assert (Hl : Z.of_nat (length (snapshot_chunks s)) = chunks_of session).
    { rewrite <- (length_fmap chunk_index), Hd, length_seqZ. lia. }
    rewrite Hl, Z.eqb_refl. cbn [negb]. apply manifest_loop_complete; [lia|done|done| |lia]. by rewrite Hl.
Qed.

End Manifest.

(** ** Snapshots of the tables *)

Section Rows.
Context (weight : list Z → list Z) (d : Db) (owner upload : Z) (s : SessionRow) (f : FileRow).
Hypothesis Hd : db_ok weight d.
Hypothesis Hb : has_bundle d owner upload s f.

Local Abbreviation snapshot := (snapshot_rows d owner upload s f).

Lemma rows_typed : snapshot_typed snapshot.
Proof.
  destruct (bundle_ok _ _ _ _ _ _ Hd Hb) as (Hfo & _ & Hz & _ & _ & _ & Hso).
  unfold snapshot_typed, snapshot_rows. cbn. rewrite <- Hz. split_and!; [apply Hfo|apply Hso|].
  apply list.Forall_forall. intros c (row & -> & Hc)%list_elem_of_fmap.
  apply (elem_of_upload_chunks _ _ _ _ _ Hd) in Hc as (i & Hc & _).
  apply (ct_index _ (chunk_ok_typed _ _ _ _ Hd Hc)).
Qed.

Lemma rows_geometry : geometry snapshot.
Proof.
  destruct (bundle_ok _ _ _ _ _ _ Hd Hb) as (Hfo & Ho & Hz & _ & Hfi & Hui & Hso).
  pose proof (fo_id _ _ Hfo). pose proof (so_id _ _ _ Hso). destruct (fo_owner _ _ Hfo), (fo_size _ _ Hfo), (so_chunk _ _ _ Hso).
  destruct Hb as (Hs & Hown & Hf).
  split_and!.
  - unfold bundle_fits. cbn. split_and!; try done; lia.
  - pose proof (upload_chunks_sorted _ d owner upload Hd) as Hsorted. cbn [snapshot_chunks snapshot_rows].
    induction (upload_chunks d owner upload) as [|c cs IH]; [constructor|]. rewrite fmap_cons in *.
    apply StronglySorted_inv in Hsorted as [Hsorted Hall]. constructor; [by apply IH|].
    apply list.Forall_forall. intros x (c' & -> & Hc')%list_elem_of_fmap.
    by apply (proj1 (list.Forall_forall _ _) Hall (cr_index c')), list_elem_of_fmap_2.
  - apply Forall_fmap, list.Forall_forall. intros c Hc. cbn [compose].
    apply (elem_of_upload_chunks _ _ _ _ _ Hd) in Hc as (i & Hc & Hco).
    pose proof (chunk_ok_typed _ _ _ _ Hd Hc) as Ht. pose proof (ok_chunk _ _ Hd _ _ Hc) as Hok.
    destruct (co_key _ _ _ Hok) as [E1 E2]. destruct (co_session _ _ _ Hok) as (s' & Hs' & F1 & F2 & Hi & Hoff & Hsz & _).
    cbn [fst snd] in *. rewrite Hs in Hs'. injection Hs' as <-.
    unfold chunk_fits. cbn. unfold chunks_of, offset_of, size_of. cbn. unfold row_count in Hi.
    rewrite E2. split_and!; try congruence; try lia; [apply Ht|apply Ht|exact Hsz|].
    unfold chunk_state. destruct (ct_status _ Ht) as [-> | ->]; auto.
Qed.

End Rows.

(** C26: The two tests for a complete upload agree.  For every upload of well-formed
    tables the application service accepts the snapshot (never the answer that it violates
    the geometry), and says that the upload is ready exactly when the upload is open or
    being finalized and the test of the repository inside the transaction succeeds. *)
Theorem readiness_agrees weight d owner upload s f : db_ok weight d → has_bundle d owner upload s f →
  let snapshot := snapshot_rows d owner upload s f in
  ∃ p, BuildProgress snapshot = Some p ∧
       ready_to_finalize p =
         mutable_or_finalizing (bundle_file (snapshot_bundle snapshot)) (bundle_session (snapshot_bundle snapshot)) &&
         ManifestReadyForFinalize snapshot.
Proof.
  intros Hd Hb snapshot. pose proof (rows_typed weight d owner upload s f Hd Hb) as Ht.
  pose proof (rows_geometry weight d owner upload s f Hd Hb) as Hg.
  pose proof (BuildProgress_spec _ Ht) as Hp. fold snapshot in Ht, Hg, Hp.
  destruct (BuildProgress snapshot) as [p|]; [|done]. exists p. split; [done|]. destruct Hp as [_ Hp].
  apply eq_true_iff_eq. rewrite (po_ready _ _ Hp), andb_true_iff, (manifest_complete _ Ht Hg). done.
Qed.

(** Tables with one upload of one chunk, which is stored. *)
Definition one_file : FileRow :=
  MkFileRow 1 7 (str "a") (str "b") 8 (str "sha256") (replicate 64 97) None (str "local_fs")
    (Some (BuildStorageKey 1)) 1 1 [] [] None None.
Definition one_session : SessionRow := MkSessionRow 1 1 7 (str "c") (replicate 64 97) 8 262144 1 1 [] [] [] None.
Definition one_chunk : ChunkRow :=
  MkChunkRow 1 0 1 7 0 8 (str "sha256") (replicate 64 97) (BuildStoragePartKey 1 0) 2 2 [] [] None.
Definition one_upload : Db := MkDb {[1 := one_file]} {[1 := one_session]} {[(1, 0) := one_chunk]} {[7]} 2 2.

Lemma one_upload_ok : db_ok same_text one_upload.
Proof.
  split; cbn -[Z.pow]; try lia.
  - intros id f [<- <-]%lookup_singleton_Some. split; [lia|].
    split; try done; unfold is_u64; cbn -[Z.pow]; lia.
  - intros id s [<- <-]%lookup_singleton_Some. split; [lia|]. split; try done; unfold is_u64; cbn -[Z.pow]; try lia.
    exists one_file. split; [by rewrite lookup_singleton_eq|]. unfold states_ok. cbn. split_and!; try done. lia.
  - intros k c [<- <-]%lookup_singleton_Some. split; try done; try (by right).
    exists one_session. split; [apply lookup_singleton_eq|]. split_and!; try done; vm_compute; congruence.
  - by intros id id' s s' [<- _]%lookup_singleton_Some [<- _]%lookup_singleton_Some.
  - by intros id id' s s' [<- _]%lookup_singleton_Some [<- _]%lookup_singleton_Some.
  - intros id s [_ <-]%lookup_singleton_Some. cbn. lia.
Qed.

Lemma readiness_agrees_witness :
  let snapshot := snapshot_rows one_upload 7 1 one_session one_file in
  ManifestReadyForFinalize snapshot = true ∧
  ∃ p, BuildProgress snapshot = Some p ∧ ready_to_finalize p = true.
Proof.
  assert (Hb : has_bundle one_upload 7 1 one_session one_file) by (vm_compute; auto).
  destruct (readiness_agrees same_text one_upload 7 1 one_session one_file one_upload_ok Hb) as (p & Hp & Hr).
  split; [vm_compute; reflexivity|]. exists p. split; [exact Hp|]. rewrite Hr. vm_compute. reflexivity.
Defined.
