(* ===== verification/FileService.v ===== *)
(** * The file service as a whole

    The paths of parts and objects below the root of the storage: every part of every
    upload and every object has a path of its own, and none of them is the name of a
    temporary file.  [FileApplicationService] on [FileRepositoryAdapter] and
    [LocalFilesystemStorage]: the two ports as instances on one world, the invariant that
    ties the tables to the disk ([intact]), and what one call leaves to the calls that run
    beside it ([respects]). *)
From Stdlib Require Import ZArith Lia String.
From stdpp Require Import base list numbers gmap sorting.
From S2P Require Import Prelude ByteStrings FileTypes FileApplicationService FileWorld LocalFilesystemStorage LocalStorageReads LocalStorageWrites LocalStoragePaths FileRepository FileRepositoryAdapter FileTables FileMoves FileOperations FileRules FileFinalizeRules.

Local Open Scope Z_scope.

Definition part_path (root : list Z) (upload index : Z) : list Z :=
  root ++ slash :: BuildStoragePartKey upload index.
Definition object_path (root : list Z) (file : Z) : list Z := root ++ slash :: BuildStorageKey file.

(** Names made of digits and of letters. *)
Lemma number_name n t : (∀ c, c ∈ t → 97 ≤ c ≤ 122 ∨ c = 46) → key_name (to_string n ++ t).
Proof.
  intros Ht. pose proof (to_string_not_nil n) as Hn.
  pose proof (digits_chars 20 n [] ltac:(constructor)) as Hf. fold (to_string n) in Hf.
  assert (Hall : ∀ c, c ∈ to_string n ++ t → c ≠ 47 ∧ c ≠ 92).
  { intros c [Hc|Hc%Ht]%elem_of_app; [|lia]. pose proof (proj1 (list.Forall_forall _ _) Hf c Hc). cbn in *. lia. }
  assert (Hhead : ∀ s, to_string n ++ t ≠ 46 :: s).
  { intros s E. destruct (to_string n) as [|d ds]; [done|]. injection E as -> _.
    apply list.Forall_cons in Hf as [Hd _]. lia. }
  split; [split_and!|].
  - by destruct (to_string n).
  - intros Hc. by destruct (Hall _ Hc).
  - apply Hhead.
  - apply Hhead.
  - intros Hc. by destruct (Hall _ Hc).
Qed.

Lemma word_name t : t ≠ [] → Forall (λ c, 97 ≤ c ≤ 122) t → key_name t.
Proof.
  intros Hn Hf. assert (Hc : ∀ c, c ∈ t → 97 ≤ c ≤ 122) by (by apply list.Forall_forall).
  split; [split_and!; [done|..]|]; try (intros Hin%Hc; unfold slash in *; lia).
  all: intros E; rewrite E in Hc; specialize (Hc 46 ltac:(left)); lia.
Qed.

Lemma part_key_join upload index :
  BuildStoragePartKey upload index =
  join [str "uploads"; to_string upload; str "chunks"; to_string index ++ str ".part"].
Proof.
  unfold BuildStoragePartKey. cbn [join]. change (str "uploads/") with (str "uploads" ++ [slash]).
  change (str "/chunks/") with (slash :: str "chunks" ++ [slash]). by rewrite <- !app_assoc.
Qed.

Lemma object_key_join file : BuildStorageKey file = join [str "files"; to_string file].
Proof.
  unfold BuildStorageKey. cbn [join]. change (str "files/") with (str "files" ++ [slash]).
  by rewrite <- !app_assoc.
Qed.

Lemma plain_number n : key_name (to_string n).
Proof. rewrite <- (app_nil_r (to_string n)). apply number_name. by intros c ?%not_elem_of_nil. Qed.

Lemma part_names upload index :
  Forall key_name [str "uploads"; to_string upload; str "chunks"; to_string index ++ str ".part"].
Proof.
  apply list.Forall_cons; split; [|apply list.Forall_cons; split; [apply plain_number|
    apply list.Forall_cons; split; [|apply list.Forall_cons; split; [|apply list.Forall_nil; done]]]].
  - apply word_name; [done|]. vm_compute. repeat constructor; congruence.
  - apply word_name; [done|]. vm_compute. repeat constructor; congruence.
  - apply number_name. intros c. change (str ".part") with [46; 112; 97; 114; 116].
    rewrite !elem_of_cons, elem_of_nil. lia.
Qed.

Lemma object_names file : Forall key_name [str "files"; to_string file].
Proof.
  apply list.Forall_cons; split; [|apply list.Forall_cons; split; [apply plain_number|apply list.Forall_nil; done]].
  apply word_name; [done|]. vm_compute. repeat constructor; congruence.
Qed.

Section Paths.
Context (root : list Z).
Hypothesis Hroot : plain_root root.

Lemma resolve_part upload index :
  ResolveSafePath root (BuildStoragePartKey upload index) = Some (part_path root upload index).
Proof. unfold part_path. rewrite part_key_join. by apply resolve_join; [|apply part_names|]. Qed.

Lemma resolve_object file : ResolveSafePath root (BuildStorageKey file) = Some (object_path root file).
Proof. unfold object_path. rewrite object_key_join. by apply resolve_join; [|apply object_names|]. Qed.

Lemma part_path_inj u i u' i' : is_u64 u → is_u64 i → is_u64 u' → is_u64 i' →
  part_path root u i = part_path root u' i' → u = u' ∧ i = i'.
Proof.
  intros Hu Hi Hu' Hi' E. apply app_inv_head, (f_equal tail) in E.
  change (BuildStoragePartKey u i = BuildStoragePartKey u' i') in E. unfold BuildStoragePartKey in E.
  apply app_inv_head in E.
  change (str "/chunks/") with (slash :: str "chunks/") in E. cbn [app] in E.
  apply split_at in E as [E1 E]; [|apply to_string_no; unfold slash; lia..].
  apply app_inv_head in E. apply app_inv_tail in E. by apply to_string_inj in E1, E.
Qed.

Lemma object_path_inj a b : is_u64 a → is_u64 b → object_path root a = object_path root b → a = b.
Proof.
  intros Ha Hb E. apply app_inv_head, (f_equal tail) in E.
  change (BuildStorageKey a = BuildStorageKey b) in E. apply app_inv_head in E. by apply to_string_inj in E.
Qed.

Lemma part_object_ne u i f : part_path root u i ≠ object_path root f.
Proof.
  unfold part_path, object_path, BuildStoragePartKey, BuildStorageKey. intros E. apply app_inv_head in E.
  by injection E.
Qed.

(** ** Temporary names *)

Context {Db : Type} (moment : nat → Moment Db) (pid : list Z).

(** Lists that end in digits are cut before them. *)
Lemma split_digits (a a' : list Z) c c' ds ds' :
  Forall (λ d, 48 ≤ d ≤ 57) ds → Forall (λ d, 48 ≤ d ≤ 57) ds' → ¬ 48 ≤ c ≤ 57 → ¬ 48 ≤ c' ≤ 57 →
  a ++ c :: ds = a' ++ c' :: ds' → c = c'.
Proof.
  revert ds'. induction ds as [|d ds IH] using rev_ind; intros ds' Hd Hd' Hc Hc' E.
  - destruct ds' as [|d' ds' _] using rev_ind; [by apply app_inj_tail in E as [_ ->]|].
    rewrite app_comm_cons, app_assoc in E. apply app_inj_tail in E as [_ ->].
    apply Forall_app in Hd' as [_ [Hd' _]%list.Forall_cons]. lia.
  - destruct ds' as [|d' ds' _] using rev_ind.
    + rewrite app_comm_cons, app_assoc in E. apply app_inj_tail in E as [_ <-].
      apply Forall_app in Hd as [_ [Hd _]%list.Forall_cons]. lia.
    + rewrite !app_comm_cons, !app_assoc in E. apply app_inj_tail in E as [E _].
      apply Forall_app in Hd as [Hd _], Hd' as [Hd' _]. by apply (IH ds').
Qed.

Lemma object_not_mine f : ¬ mine moment pid (object_path root f).
Proof.
  intros (n & destination & E). unfold object_path, BuildStorageKey, TemporarySibling in E.
  change (str "files/") with (str "files" ++ [slash]) in E. change (str ".") with [46] in E.
  rewrite <- app_assoc, app_comm_cons, !app_assoc in E. rewrite <- !(app_assoc _ [_]) in E. cbn [app] in E.
  assert (slash = 46); [|done].
  eapply split_digits; [| | | |exact E]; try (unfold slash; lia); by apply (digits_chars 20 _ []).
Qed.

Lemma part_not_mine u i : ¬ mine moment pid (part_path root u i).
Proof.
  intros (n & destination & E). unfold part_path, BuildStoragePartKey, TemporarySibling in E.
  change (str ".part") with ([46; 112; 97; 114] ++ [116]) in E.
  pose proof (to_string_not_nil (sequence (moment n))) as Hn.
  pose proof (digits_chars 20 (sequence (moment n)) [] ltac:(constructor)) as Hf.
  fold (to_string (sequence (moment n))) in Hf.
  destruct (to_string (sequence (moment n))) as [|d ds _] using rev_ind; [done|].
  apply Forall_app in Hf as [_ [Hd _]%list.Forall_cons].
  rewrite app_comm_cons, !app_assoc in E. apply app_inj_tail in E as [_ <-]. lia.
Qed.

End Paths.

(** ** The ports *)

Section Ports.
Context (moment : nat → Moment Db) `{Hash : Sha256}.
Context (weight : list Z → list Z) (add_day : list Z → list Z).
Context (repository pool begin_snapshot : bool).
Context (root_ pid : list Z).

#[export] Instance tables_repository : FileRepositoryPort (World Db) := {
  repo_BeginUpload w c := FileRepositoryAdapter.BeginUpload moment weight add_day repository pool begin_snapshot c w;
  repo_GetUploadSession w q := FileRepositoryAdapter.GetUploadSession moment repository q w;
  repo_CancelUpload w c := FileRepositoryAdapter.CancelUpload moment repository pool c w;
  repo_ReserveChunk w c := ReserveChunk moment weight repository pool c w;
  repo_MarkChunkStored w c := MarkChunkStored moment weight repository pool c w;
  repo_GetUploadSnapshot w q := GetUploadSnapshot moment repository pool q w;
  repo_PrepareFinalize w c := PrepareFinalize moment repository pool c w;
  repo_CompleteFinalize w c := CompleteFinalize moment weight repository pool c w;
  repo_FailFinalizeChecksum w c := FailFinalizeChecksum moment repository pool c w;
  repo_GetDownloadFile w q := GetDownloadFile moment repository q w;
}.

#[export] Instance disk_storage : FileStoragePort (World Db) := {
  storage_StoreChunkAtomically w r := StoreChunkAtomically moment root_ pid r w;
  storage_ComposeObjectAtomically w r := ComposeObjectAtomically moment root_ pid r w;
  storage_VerifyObject w r := VerifyObject moment root_ r w;
  storage_ReadObjectRange w r := ReadObjectRange moment root_ r w;
}.

End Ports.

(** ** Tables and disk *)

Section Invariant.
Context `{Hash : Sha256} (weight : list Z → list Z) (root_ : list Z).

(** The path has a content of this size and with this checksum. *)
Definition has_content (d : Disk) (path : list Z) (size : Z) (checksum : list Z) : Prop :=
  ∃ x, content_at d path = Some x ∧ bsize x = size ∧ Sha256Hex true x = checksum.

Definition part_present (s : Shared Db) (u i : Z) (c : ChunkRow) : Prop :=
  has_content (disk s) (part_path root_ u i) (cr_size c) (cr_checksum c).
Definition object_present (s : Shared Db) (id : Z) (f : FileRow) : Prop :=
  has_content (disk s) (object_path root_ id) (fr_size f) (fr_expected f).

Record intact (s : Shared Db) : Prop := {
  in_tables : db_ok weight (tables s);
  in_parts u i c : chunks (tables s) !! (u, i) = Some c → cr_status c = 2 → part_present s u i c;
  in_objects id f : files (tables s) !! id = Some f → fr_status f = 3 → object_present s id f;
}.

(** What a later state keeps of an earlier one. *)
Record respects (s s' : Shared Db) : Prop := {
  re_chunk u i c : chunks (tables s) !! (u, i) = Some c →
    ∃ c', chunks (tables s') !! (u, i) = Some c' ∧ cr_size c' = cr_size c ∧ cr_checksum c' = cr_checksum c;
  re_file id f : files (tables s) !! id = Some f →
    ∃ f', files (tables s') !! id = Some f' ∧ fr_owner f' = fr_owner f ∧ fr_size f' = fr_size f ∧
          fr_expected f' = fr_expected f ∧ (fr_status f = 3 → fr_status f' = 3);
  re_session u x : sessions (tables s) !! u = Some x →
    ∃ x', sessions (tables s') !! u = Some x' ∧ sr_file x' = sr_file x;
  re_part u i c : chunks (tables s) !! (u, i) = Some c → part_present s u i c → part_present s' u i c;
  re_object id f : files (tables s) !! id = Some f → object_present s id f → object_present s' id f;
}.

Lemma respects_refl s : respects s s.
Proof. split; eauto 10. Qed.

Lemma respects_trans s1 s2 s3 : respects s1 s2 → respects s2 s3 → respects s1 s3.
Proof.
  intros H1 H2. split.
  - intros u i c Hc. destruct (re_chunk _ _ H1 _ _ _ Hc) as (c' & Hc' & ? & ?).
    destruct (re_chunk _ _ H2 _ _ _ Hc') as (c'' & Hc'' & ? & ?). exists c''. split_and!; congruence.
  - intros id f Hf. destruct (re_file _ _ H1 _ _ Hf) as (f' & Hf' & ? & ? & ? & ?).
    destruct (re_file _ _ H2 _ _ Hf') as (f'' & Hf'' & ? & ? & ? & ?). exists f''.
    split_and!; try congruence. auto.
  - intros u x Hx. destruct (re_session _ _ H1 _ _ Hx) as (x' & Hx' & ?).
    destruct (re_session _ _ H2 _ _ Hx') as (x'' & Hx'' & ?). exists x''. split; congruence.
  - intros u i c Hc Hp. pose proof (re_part _ _ H1 _ _ _ Hc Hp) as Hp'.
    destruct (re_chunk _ _ H1 _ _ _ Hc) as (c' & Hc' & E1 & E2).
    unfold part_present in *. rewrite <- E1, <- E2 in *. by apply (re_part _ _ H2 _ _ _ Hc').
  - intros id f Hf Hp. pose proof (re_object _ _ H1 _ _ Hf Hp) as Hp'.
    destruct (re_file _ _ H1 _ _ Hf) as (f' & Hf' & _ & E1 & E2 & _).
    unfold object_present in *. rewrite <- E1, <- E2 in *. by apply (re_object _ _ H2 _ _ Hf').
Qed.

#[export] Instance respects_preorder : PreOrder respects.
Proof. split; [exact respects_refl|exact respects_trans]. Qed.

(** *** Changes of the tables *)

(** What has to be on the disk before a change. *)
Definition ready (l : Change) (s : Shared Db) : Prop :=
  match l with
  | Store u i _ => ∀ c, chunks (tables s) !! (u, i) = Some c → part_present s u i c
  | Complete u _ => ∀ x f, sessions (tables s) !! u = Some x → files (tables s) !! sr_file x = Some f →
                           object_present s (sr_file x) f
  | _ => True
  end.

Lemma present_retable s d u i c : part_present s u i c → part_present (retable s d) u i c.
Proof. done. Qed.

(** The rows of an upload get new states. *)
Lemma intact_advance s u x f status v t e status' verified v' t' e' :
  let d' := advance (tables s) u (sr_file x) (session_as x status v t e) (file_as f status' verified v' t' e') in
  intact s → db_ok weight d' → sessions (tables s) !! u = Some x → files (tables s) !! sr_file x = Some f →
  fr_status f ≠ 3 → (status' = 3 → object_present s (sr_file x) f) →
  intact (retable s d') ∧ respects s (retable s d').
Proof.
  intros d' Hg Hd' Hx Hf Hst Hready. subst d'. split; [split|split]; cbn -[part_path object_path] in *; try done.
  - apply Hg.
  - intros id f0. rewrite lookup_insert_Some. intros [[<- <-]|[_ Hf0]]; cbn; [apply Hready|by apply Hg].
  - intros u' i c Hc. by exists c.
  - intros id f0 Hf0. destruct (decide (sr_file x = id)) as [<-|Hne].
    + rewrite lookup_insert_eq. eexists. split; [done|]. rewrite Hf in Hf0. by injection Hf0 as <-.
    + rewrite lookup_insert_ne by done. by exists f0.
  - intros u' x0 Hx0. destruct (decide (u = u')) as [<-|Hne].
    + rewrite lookup_insert_eq. eexists. split; [done|]. rewrite Hx in Hx0. by injection Hx0 as <-.
    + rewrite lookup_insert_ne by done. by exists x0.
Qed.

(** A chunk row is added or stored. *)
Lemma intact_chunk s u i c : intact s → db_ok weight (set_chunks <[(u, i) := c]> (tables s)) →
  (∀ c0, chunks (tables s) !! (u, i) = Some c0 → cr_size c = cr_size c0 ∧ cr_checksum c = cr_checksum c0) →
  (cr_status c = 2 → part_present s u i c) →
  intact (retable s (set_chunks <[(u, i) := c]> (tables s))) ∧
  respects s (retable s (set_chunks <[(u, i) := c]> (tables s))).
Proof.
  intros Hg Hd' Hold Hready. split; [split|split]; cbn -[part_path object_path] in *; try done.
  - intros u' i' c'. rewrite lookup_insert_Some. intros [[[= <- <-] <-]|[_ Hc]]; [apply Hready|by apply Hg].
  - intros id f Hf Hst. by apply Hg.
  - intros u' i' c' Hc. destruct (decide ((u, i) = (u', i'))) as [[= <- <-]|Hne].
    + rewrite lookup_insert_eq. exists c. split; [done|]. by apply Hold.
    + rewrite lookup_insert_ne by done. by exists c'.
  - intros id f Hf. by exists f.
  - intros u' x Hx. by exists x.
Qed.

Lemma intact_moves s l d' : intact s → moves weight l (tables s) d' → ready l s →
  intact (retable s d') ∧ respects s (retable s d').
Proof.
  intros Hg Hmv Hready. pose proof (in_tables _ Hg) as Hd. pose proof (moves_ok _ _ _ _ Hd Hmv) as Hd'.
  remember (tables s) as d eqn:E.
  destruct Hmv as [d nf nu Hf Hu|d c t t' e e' Hc Hf Hu Hnone|d u i ck x t Hs Hst Hi Hck Hno
    |d u i x c v t t' Hs Hst Hc Hcs Hv|d u x f v v' t t' Hs Hf Hst Hft Hall|d u x f v v' t t' e e' Hs Hf Hst Hft
    |d u ck x f v t Hs Hf Hst Hft Hck|d u x f v v' t t' Hs Hf Hst Hft]; subst d.
  - split; [|split; cbn; eauto 10]. split; [done|apply Hg|apply Hg].
  - assert (Hne : ∀ id f, files (tables s) !! id = Some f → next_file (tables s) ≠ id).
    { intros id f Hid. apply (ok_file _ _ Hd) in Hid. lia. }
    assert (Hne' : ∀ id x, sessions (tables s) !! id = Some x → next_upload (tables s) ≠ id).
    { intros id x Hid. apply (ok_session _ _ Hd) in Hid. lia. }
    split; [split|split]; cbn -[part_path object_path] in *; try done.
    + apply Hg.
    + intros id f. rewrite lookup_insert_Some. intros [[<- <-]|[_ Hid]]; [done|by apply Hg].
    + intros u i c0 Hc0. by exists c0.
    + intros id f Hid. exists f. rewrite lookup_insert_ne by (by eapply Hne). done.
    + intros u x Hx. exists x. rewrite lookup_insert_ne by (by eapply Hne'). done.
  - apply intact_chunk; [done|done| |done]. intros c0 Hc0. congruence.
  - apply intact_chunk; [done|done| |]; [intros c0 Hc0; rewrite Hc in Hc0; by injection Hc0 as <-|].
    intros _. by apply (Hready c).
  - apply intact_advance; try done. lia.
  - apply intact_advance; try done; [lia|]. intros _. by apply Hready.
  - assert (session_as x (sr_status x) (sr_version x) (sr_updated x) (sr_completed x) = x) as Ex by (by destruct x).
    pose proof (intact_advance s u x f (sr_status x) (sr_version x) (sr_updated x) (sr_completed x) 4 (Some ck) v t
                  (fr_available f)) as Hadv. rewrite Ex in Hadv.
    unfold advance, set_sessions in Hadv. rewrite insert_id in Hadv by done. apply Hadv; try done. lia.
  - apply intact_advance; try done. lia.
Qed.

(** *** Changes of the disk *)

Lemma has_content_eq d d' path size x : content_at d' path = content_at d path →
  has_content d path size x → has_content d' path size x.
Proof. unfold has_content. by intros ->. Qed.

(** A disk on which the parts and the objects of the tables are as they were. *)
Lemma intact_on s d : intact s →
  (∀ u i c, chunks (tables s) !! (u, i) = Some c → part_present s u i c → part_present (on s d) u i c) →
  (∀ id f, files (tables s) !! id = Some f → object_present s id f → object_present (on s d) id f) →
  intact (on s d) ∧ respects s (on s d).
Proof.
  intros Hg Hparts Hobjects. split; [split|split]; cbn -[part_path object_path] in *; eauto 10.
  - apply Hg.
  - intros u i c Hc Hst. apply Hparts; [done|]. by apply Hg.
  - intros id f Hf Hst. apply Hobjects; [done|]. by apply Hg.
Qed.

Section Disk.
Context (moment : nat → Moment Db) (pid : list Z).

Lemma intact_public s d : intact s → public_eq moment pid (disk s) d → intact (on s d) ∧ respects s (on s d).
Proof.
  intros Hg Hp. apply intact_on; [done|..].
  - intros u i c _. apply has_content_eq, Hp. apply part_not_mine.
  - intros id f _. apply has_content_eq, Hp. apply object_not_mine.
Qed.

Lemma chunk_numbers s u i c : intact s → chunks (tables s) !! (u, i) = Some c → is_u64 u ∧ is_u64 i.
Proof.
  intros Hg Hc. pose proof (in_tables _ Hg) as Hd. pose proof (chunk_ok_typed _ _ _ _ Hd Hc) as Ht.
  destruct (co_key _ _ _ (ok_chunk _ _ Hd _ _ Hc)) as [E1 E2]. cbn [fst snd] in *.
  rewrite <- E1, <- E2. split; apply Ht.
Qed.

Lemma file_number s id f : intact s → files (tables s) !! id = Some f → is_u64 id.
Proof.
  intros Hg Hf. pose proof (in_tables _ Hg) as Hd. apply (ok_file _ _ Hd) in Hf as [Hi _].
  pose proof (ok_next_file _ _ Hd). unfold is_u64. lia.
Qed.

Lemma publish_part s d u i c x : intact s → chunks (tables s) !! (u, i) = Some c →
  bsize x = cr_size c → Sha256Hex true x = cr_checksum c →
  publish moment pid (part_path root_ u i) x (disk s) d →
  intact (on s d) ∧ respects s (on s d) ∧ part_present (on s d) u i c.
Proof.
  intros Hg Hc Hsize Hsum [Hx Hq]. assert (Hpp : part_present (on s d) u i c) by (by exists x).
  assert (intact (on s d) ∧ respects s (on s d)) as []; [|done]. apply intact_on; [done|..].
  - intros u' i' c' Hc' Hp. destruct (decide ((u', i') = (u, i))) as [[= -> ->]|Hne].
    + rewrite Hc in Hc'. by injection Hc' as <-.
    + destruct (chunk_numbers _ _ _ _ Hg Hc), (chunk_numbers _ _ _ _ Hg Hc').
      revert Hp. apply has_content_eq, Hq; [|apply part_not_mine].
      intros E. apply part_path_inj in E as [-> ->]; done.
  - intros id f Hf. apply has_content_eq, Hq; [|apply object_not_mine]. intros E. by apply (part_object_ne root_ u i id).
Qed.

Lemma publish_object s d id f x : intact s → files (tables s) !! id = Some f →
  bsize x = fr_size f → Sha256Hex true x = fr_expected f →
  publish moment pid (object_path root_ id) x (disk s) d →
  intact (on s d) ∧ respects s (on s d) ∧ object_present (on s d) id f.
Proof.
  intros Hg Hf Hsize Hsum [Hx Hq]. assert (Hpp : object_present (on s d) id f) by (by exists x).
  assert (intact (on s d) ∧ respects s (on s d)) as []; [|done]. apply intact_on; [done|..].
  - intros u i c Hc. apply has_content_eq, Hq; [|apply part_not_mine]. apply part_object_ne.
  - intros id' f' Hf' Hp. destruct (decide (id' = id)) as [-> |Hne].
    + rewrite Hf in Hf'. by injection Hf' as <-.
    + pose proof (file_number _ _ _ Hg Hf). pose proof (file_number _ _ _ Hg Hf').
      revert Hp. apply has_content_eq, Hq; [|apply object_not_mine]. intros E. by apply object_path_inj in E.
Qed.

End Disk.

End Invariant.
