(* ===== verification/FileDownload.v ===== *)
(** * Downloads

    What the handlers for downloads answer, however the files on the disk are changed
    behind the service: the ranges of a download are those of a string with the declared
    size and SHA-256, so a client that reads a file to its end has the declared bytes, as
    long as SHA-256 tells apart the strings whose digests were computed for it. *)
From Stdlib Require Import ZArith Lia String.
From stdpp Require Import base list numbers gmap sorting.
From S2P Require Import Prelude ByteStrings FileTypes FileApplicationService FileWorld LocalFilesystemStorage LocalStorageReads FileRepository FileRepositoryAdapter FileTables FileMoves FileOperations FileRules FileFinalizeRules FileService.

Local Open Scope Z_scope.

(** The file a download is about, as the tables have it. *)
Definition download_row (d : Db) (q : GetDownloadInfoQuery) (info : DownloadInfoView) : Prop :=
  ∃ f, files d !! download_file q = Some f ∧ fr_owner f = download_actor q ∧ fr_status f = 3 ∧
       info_size info = fr_size f ∧ info_checksum info = fr_expected f ∧ is_u64 (fr_size f).

(** The numbers of a query. *)
Definition read_typed (q : ReadFileRangeQuery) : Prop := is_u64 (read_offset q) ∧ is_u64 (read_length q).

Section Download.
Context (moment : nat → Moment Db) `{Laws : Sha256Laws}.
Context (weight : list Z → list Z) (add_day : list Z → list Z).
Context (repository pool begin_snapshot : bool).
Context (root_ pid : list Z).

#[local] Instance the_repository : FileRepositoryPort (World Db) :=
  tables_repository moment weight add_day repository pool begin_snapshot.
#[local] Instance the_storage : FileStoragePort (World Db) := disk_storage moment root_ pid.

Section Rules.
Context (known : Shared Db → list Z → Prop) (J : Shared Db → Prop).
Local Abbreviation knowing := (knowing known J).
Hypothesis Hknow : knowledge moment known J.
Hypothesis Hdb : ∀ s, J s → db_ok weight (tables s).

Lemma download_file_rule K q : triple (knowing K) (λ w, DownloadFile w q)
  (λ r s, knowing K s ∧ match r with
                       | inl (file, info) => download_row (tables s) q info
                       | inr (status, _) => status ≠ kSucceeded
                       end).
Proof.
  intros w Hw. unfold DownloadFile.
  destruct (download_rule moment weight repository (knowing K) (know_others _ _ _ Hknow K) ltac:(intros s [[_ Hs] _]; by apply Hdb) q w Hw) as [H1 Ha].
  change (repo_GetDownloadFile w q) with (GetDownloadFile moment repository q w).
  destruct (GetDownloadFile _ _ q w) as [w1 r]. cbn [fst snd] in *. split; [exact H1|].
  unfold download_answer in Ha. destruct (found r) as [file|]; [|done]. destruct Ha as (f & Hf & Ho & ->).
  destruct (_ || _); [done|]. case_bool_decide as Hs; cbn [negb]; [|done].
  destruct (BuildDownloadInfo (file_row_view f)) as [info|] eqn:Hi; [|done].
  unfold BuildDownloadInfo in Hi. destruct (_ || _); [done|]. injection Hi as <-.
  destruct (ok_file _ _ (Hdb _ (proj2 (proj1 H1))) _ _ Hf) as [_ Hfo].
  assert (H3 : fr_status f = 3).
  { change (file_state (fr_status f) = kAvailable) in Hs. pose proof (fo_status _ _ Hfo).
    assert (fr_status f = 1 ∨ fr_status f = 2 ∨ fr_status f = 3 ∨ fr_status f = 4 ∨ fr_status f = 5) as Hc by lia.
    by destruct Hc as [E|[E|[E|[E|E]]]]; rewrite E in Hs. }
  pose proof (fo_verified _ _ Hfo) as Hv. rewrite H3 in Hv. exists f. split_and!; try done.
  - change (ifnull (fr_verified f) = fr_expected f). by rewrite Hv.
  - apply Hfo.
Qed.

Lemma download_info_rule K svc q : learns known J K (λ w, GetDownloadInfo svc w q) (λ _ _, True).
Proof.
  intros w Hw. unfold GetDownloadInfo. destruct (_ || _); [by exists K|]. destruct (_ || _); [by exists K|].
  destruct (download_file_rule K q w Hw) as [H1 Hrow].
  destruct (DownloadFile w q) as [w1 [[file info]|[st text]]]; [|by exists K]. cbn [fst snd] in *.
  destruct Hrow as (f & _ & _ & _ & Hsz & _ & Tsz). set (r := MkVerify _ _ _).
  destruct (learns_verify moment root_ known J Hknow K r ltac:(cbn; congruence) w1 H1) as (K' & Hsub & H2 & _).
  change (storage_VerifyObject w1 r) with (VerifyObject moment root_ r w1).
  destruct (VerifyObject _ _ r w1) as [w2 res]. cbn [fst snd] in H2. exists K'. by split_and!.
Qed.

(** A successful answer: a range of a string with the size and the checksum that some row
    of the file says. *)
Definition range_answer (q : ReadFileRangeQuery) (K : list (list Z)) (r : ReadFileRangeResult) : Prop :=
  rr_status r = kSucceeded →
  ∃ s info, J s ∧ rr_info r = Some info ∧
    download_row (tables s) (MkDownload (read_actor q) (read_file q)) info ∧
    rr_offset r = read_offset q ∧ rr_next r = read_offset q + bsize (rr_data r) ∧ 0 < bsize (rr_data r) ∧
    rr_next r ≤ info_size info ∧ (rr_eof r = true ↔ rr_next r = info_size info) ∧
    ∃ whole, bsize whole = info_size info ∧ whole ∈ K ∧ Sha256Hex true whole = info_checksum info ∧
      (tells_apart K → rr_data r = slice (Z.to_nat (read_offset q)) (Z.to_nat (rr_next r)) whole).

Lemma range_answer_failed q K status text : status ≠ kSucceeded → range_answer q K (FileApplicationService.RangeFailure status text).
Proof. intros Hne Heq. by destruct Hne. Qed.

Lemma read_range_rule K svc evp q : read_typed q →
  learns known J K (λ w, ReadFileRange svc evp w q) (range_answer q).
Proof.
  intros [To Tl] w Hw. unfold ReadFileRange. cbv zeta.
  repeat (match goal with |- context [if ?b then (w, _) else _] =>
            destruct b; [exists K; split_and!; [done|exact Hw|by apply range_answer_failed]|] end).
  destruct (download_file_rule K (MkDownload (read_actor q) (read_file q)) w Hw) as [H1 Hrow].
  destruct (DownloadFile w _) as [w1 [[file info]|[st text]]]; cbn [fst snd] in *;
    [|exists K; split_and!; [done|exact H1|by apply range_answer_failed]].
  destruct (_ && _); [exists K; split_and!; [done|exact H1|by apply range_answer_failed]|].
  destruct (Z.leb_spec (info_size info) (read_offset q));
    [exists K; split_and!; [done|exact H1|by apply range_answer_failed]|].
  pose proof Hrow as (f & _ & _ & _ & Hsz & _ & Tsz). rewrite <- Hsz in Tsz.
  rewrite (u64_small (info_size info - _)) by (unfold is_u64 in *; lia).
  set (r := MkObjectRange _ _ _ _ _).
  assert (Hr : range_typed r) by (unfold range_typed, is_u64 in *; cbn; lia).
  destruct (learns_read_range moment root_ known J Hknow K r Hr w1 H1) as (K' & Hsub & H2 & Hok).
  change (storage_ReadObjectRange w1 r) with (ReadObjectRange moment root_ r w1).
  destruct (ReadObjectRange _ _ r w1) as [w2 res]. cbn [fst snd] in *. exists K'. split; [exact Hsub|].
  split; [exact H2|].
  unfold range_ok in Hok.
  destruct (ob_status res); try (by apply range_answer_failed).
  destruct (_ || _) eqn:Hg; [by apply range_answer_failed|].
  destruct (Hok eq_refl) as (_ & Hpos & Hlen & _ & _ & whole & H3 & Hof & H4 & H5). cbn [or_length or_size or_offset or_sha256 r] in *.
  intros _. exists (shared w1), info. cbn [rr_info rr_offset rr_next rr_data rr_eof].
  set (wanted := Z.min (Z.min (read_length q) (info_size info - read_offset q)) (info_size info - read_offset q)) in *.
  assert (Hnext : u64 (read_offset q + bsize (ob_data res)) = read_offset q + bsize (ob_data res))
    by (apply u64_small; unfold is_u64 in *; lia).
  rewrite Hnext in *. split_and!; try done; [apply H1|lia|lia| |].
  - reflect_guards. match goal with He : Bool.eqb _ _ = true |- _ => apply eqb_prop in He; rewrite He end.
    by rewrite Z.eqb_eq.
  - exists whole. split_and!; [done|done|done|]. by rewrite Hlen.
Qed.

End Rules.

(** ** A whole download *)

(** A client that reads a file from [offset] on, [length] bytes at a time, until the
    answer says that it was the last range; [fuel] bounds the number of requests.  [None]
    when a request fails. *)
Fixpoint Download (svc : Service) (actor file length : Z) (validator : list Z) (evp : nat → bool) (fuel : nat)
    (offset : Z) (acc : list Z) (w : World Db) : World Db * option (list Z) :=
  match fuel with
  | O => (w, None)
  | S fuel =>
      let '(w, r) := ReadFileRange svc (evp fuel) w (MkRead actor file offset length validator) in
      if is_status (rr_status r) kSucceeded then
        if rr_eof r then (w, Some (acc ++ rr_data r))
        else Download svc actor file length validator evp fuel (rr_next r) (acc ++ rr_data r) w
      else (w, None)
  end.

(** The rows of files stay, with the size and the checksum that were declared. *)
Definition files_kept (s s' : Shared Db) : Prop := ∀ id f, files (tables s) !! id = Some f →
  ∃ f', files (tables s') !! id = Some f' ∧ fr_size f' = fr_size f ∧ fr_expected f' = fr_expected f.

(** The digest of the string was computed. *)
Definition seen (s : Shared Db) (x : list Z) : Prop := x ∈ digested s.

(** What the others may do: anything to the disk, and to the tables and the cache what
    keeps them well-formed. *)
Definition keep_rows : Prop := ∀ n s, entries_ok seen s → db_ok weight (tables s) →
  entries_ok seen (others (moment n) s) ∧ db_ok weight (tables (others (moment n) s)) ∧
  digested s ⊆ digested (others (moment n) s) ∧ files_kept s (others (moment n) s).

Definition downloading (s0 s : Shared Db) : Prop := db_ok weight (tables s) ∧ files_kept s0 s.

Lemma seen_knowledge s0 : keep_rows → knowledge moment seen (downloading s0).
Proof.
  intros Hk. split; try done.
  - intros s x. apply elem_of_cons. by left.
  - intros s x y Hy. apply elem_of_cons. by right.
  - intros K n s [(He & Hd & Hf) HK]. destruct (Hk n s He Hd) as (He' & Hd' & Hl & Hf'). split; [split; [done|split; [done|]]|].
    + intros id f (f1 & H1 & E1 & E2)%Hf. destruct (Hf' _ _ H1) as (f2 & H2 & E3 & E4). exists f2. split_and!; congruence.
    + eapply list.Forall_impl; [exact HK|]. intros x. apply Hl.
Qed.

(** The bytes read so far. *)
Definition read_so_far (f : FileRow) (K : list (list Z)) (offset : Z) (acc : list Z) : Prop :=
  offset = 0 ∧ acc = [] ∨
  ∃ whole, bsize whole = fr_size f ∧ whole ∈ K ∧ Sha256Hex true whole = fr_expected f ∧
    (tells_apart K → acc = slice 0 (Z.to_nat offset) whole).

Lemma read_more f K offset acc whole data n : 0 ≤ offset ≤ n → read_so_far f K offset acc →
  whole ∈ K → Sha256Hex true whole = fr_expected f →
  (tells_apart K → data = slice (Z.to_nat offset) (Z.to_nat n) whole) →
  tells_apart K → acc ++ data = slice 0 (Z.to_nat n) whole.
Proof.
  intros Hn Hacc Hs Hx Hd Hap. rewrite (Hd Hap). destruct Hacc as [[-> ->]|(whole' & H1 & Ho & H2 & E)]; [done|].
  rewrite (E Hap), (tells_apart_hex K whole' whole Hap Ho Hs) by congruence. apply slice_join. lia.
Qed.

Lemma read_so_far_mono f K K' offset acc : K ⊆ K' → read_so_far f K offset acc → read_so_far f K' offset acc.
Proof.
  intros Hsub [?|(whole & H1 & H2 & H3 & H4)]; [by left|right]. exists whole. split_and!; [done|by apply Hsub|done|].
  intros Hap. by apply H4, (tells_apart_sub K K').
Qed.

(** What a whole download returns, with the strings that were digested for it. *)
Definition downloaded (f : FileRow) (K : list (list Z)) (r : option (list Z)) : Prop :=
  ∀ bytes, r = Some bytes → tells_apart K → bsize bytes = fr_size f ∧ Sha256Hex true bytes = fr_expected f.

Lemma download_loop svc actor file length validator evp s0 f : keep_rows → is_u64 length →
  files (tables s0) !! file = Some f → ∀ fuel K offset acc, is_u64 offset → read_so_far f K offset acc →
  learns seen (downloading s0) K (Download svc actor file length validator evp fuel offset acc) (downloaded f).
Proof.
  intros Hk Tl Hf. induction fuel as [|fuel IH]; intros K offset acc To Hacc w Hw; [by exists K|]. cbn [Download].
  set (q := MkRead _ _ _ _ _).
  destruct (read_range_rule seen (downloading s0) (seen_knowledge s0 Hk) ltac:(by intros s [? _])
    K svc (evp fuel) q ltac:(done) w Hw) as (K1 & Hsub & H1 & Ha).
  destruct (ReadFileRange _ _ w q) as [w1 r]. cbn [fst snd] in *.
  destruct (is_status _ _) eqn:Hs; [|by exists K1]. apply bool_decide_eq_true in Hs.
  destruct (Ha Hs) as (s & info & (_ & Hkept) & _ & (f' & Hf' & _ & _ & E1 & E2 & Tsz) & _ & Hnext & Hpos & Hle & Heof &
    whole & H2 & Hof & H3 & H4).
  cbn [q download_file read_file read_offset] in *.
  destruct (Hkept _ _ Hf) as (f'' & Hf'' & E3 & E4). rewrite Hf' in Hf''. injection Hf'' as <-. rewrite E3 in *.
  apply (read_so_far_mono f K K1) in Hacc; [|done].
  pose proof (read_more f K1 offset acc whole (rr_data r) (rr_next r) ltac:(unfold is_u64 in *; lia) Hacc Hof
    ltac:(congruence) H4) as Hmore.
  destruct (rr_eof r).
  - exists K1. split_and!; [done|done|]. intros bytes [= <-] Hap. rewrite (Hmore Hap).
    destruct Heof as [Heof _]. rewrite (Heof eq_refl), <- H2.
    rewrite slice_all by (unfold bsize; lia). split; congruence.
  - destruct (IH K1 (rr_next r) (acc ++ rr_data r)) with (w := w1) as (K2 & Hsub2 & Hr); [| |done|].
    + unfold is_u64 in *. lia.
    + right. exists whole. split_and!; [congruence|done|congruence|done].
    + exists K2. split; [set_solver|done].
Qed.

(** C21: However the files below the root are replaced, overwritten or mixed up in the
    meantime, a client that reads a file range by range until the last one has bytes of the
    declared size and with the declared SHA-256, though the service verifies blocks and
    not the whole file at every request; and bytes the owner had in mind with the declared
    checksum are these bytes, or the two collide.  SHA-256 is assumed to tell apart the
    strings it was computed of to verify files and to compare ranges with them, up to the
    end of the download; of the contents of the disk nothing is assumed. *)
Theorem download_declared svc actor file length validator evp fuel w f w' bytes :
  keep_rows → is_u64 length →
  entries_ok seen (shared w) → db_ok weight (tables (shared w)) →
  files (tables (shared w)) !! file = Some f →
  Download svc actor file length validator evp fuel 0 [] w = (w', Some bytes) →
  tells_apart (digested (shared w')) →
  bsize bytes = fr_size f ∧ Sha256Hex true bytes = fr_expected f ∧
  ∀ content, Sha256Hex true content = fr_expected f → bytes = content ∨ collide bytes content.
Proof.
  intros Hk Tl He Hd Hf Hb Hap.
  destruct (download_loop svc actor file length validator evp (shared w) f Hk Tl Hf fuel [] 0 []) with (w := w)
    as (K & _ & [_ HK] & Hr); [done|by left| |].
  { split; [|done]. split; [done|]. split; [done|]. intros id f0 Hf0. by exists f0. }
  rewrite Hb in HK, Hr. cbn [fst snd] in HK, Hr.
  destruct (Hr bytes eq_refl) as [Hs Hx].
  { apply (tells_apart_sub _ _ (proj1 (list.Forall_forall _ _) HK)), Hap. }
  split_and!; [done..|]. intros content Hc. apply Sha256Hex_eq. congruence.
Qed.

End Download.
