(* ===== verification/FileAvailability.v ===== *)
(** * Downloads complete

    A file that is available and whose object nobody disturbs is handed out: as long as
    the calls succeed, a client that asks for it range by range has all of its bytes after
    as many requests as it has ranges. *)
From Stdlib Require Import ZArith Lia String.
From stdpp Require Import base list numbers gmap sorting.
From S2P Require Import Prelude ByteStrings FileTypes FileApplicationService FileWorld LocalFilesystemStorage LocalStorageReads LocalStorageWrites LocalStoragePaths FileRepository FileRepositoryAdapter FileTables FileMoves FileOperations FileRules FileFinalizeRules FileService FileDownload.

Local Open Scope Z_scope.

(** No call fails. *)
Definition calm (moment : nat → Moment Db) : Prop :=
  ∀ n, fails (moment n) = false ∧ evp (moment n) = true.

(** The others leave a row of the files, the object at a path, its file and its entry of
    the cache alone. *)
Definition undisturbed (moment : nat → Moment Db) (file : Z) (source : list Z) (i : nat) : Prop :=
  ∀ n s, let s' := others (moment n) s in
  files (tables s') !! file = files (tables s) !! file ∧
  names (disk s') !! source = names (disk s) !! source ∧
  inodes (disk s') !! i = inodes (disk s) !! i ∧
  verified_objects_ s' !! source = verified_objects_ s !! source.

Lemma keeps_then {A B} (I : Shared Db → Prop) (e : IO Db A) (f : A → IO Db B) φ Q :
  keeps I e φ → (∀ a, φ a → triple I (f a) Q) → triple I (e ≫= f) Q.
Proof. intros He Hf. eapply triple_bind; [exact He|]. intros a w [Ha Hw]. by apply Hf. Qed.

Lemma triple_pure {A} (φ : Prop) (P : Shared Db → Prop) (e : IO Db A) Q :
  (φ → triple P e Q) → triple (λ s, φ ∧ P s) e Q.
Proof. intros H w [Hφ Hw]. by apply H. Qed.

Section Storage.
Context (moment : nat → Moment Db) `{Laws : Sha256Laws}.
Context (root_ : list Z).
Context (file : Z) (row : FileRow) (source : list Z) (i : nat) (nd : Inode).
Hypothesis Hcalm : calm moment.
Hypothesis Hrest : undisturbed moment file source i.
Hypothesis Hregular : st_regular (stamp nd) = true.
Hypothesis Hsize : 0 < bsize (data nd) ≤ max_off_t.

Local Abbreviation size := (bsize (data nd)).
Local Abbreviation fp := (StatFingerprint i (stamp nd) size).

(** The row, the object and the entry as they are. *)
Definition rest (c : option VerifiedObjectCacheEntry) (s : Shared Db) : Prop :=
  files (tables s) !! file = Some row ∧ names (disk s) !! source = Some i ∧
  inodes (disk s) !! i = Some nd ∧ verified_objects_ s !! source = c.

Lemma stable_rest c : stable moment (rest c).
Proof.
  intros n s (H1 & H2 & H3 & H4). destruct (Hrest n s) as (E1 & E2 & E3 & E4).
  unfold rest. by rewrite E1, E2, E3, E4.
Qed.

(** Computations that leave all this alone. *)
Local Abbreviation returns c := (keeps (rest c)).

Lemma returns_tick c : returns c (tick moment) (λ m, fails m = false ∧ evp m = true).
Proof. eapply keeps_weaken; [apply keeps_tick, stable_rest|]. intros m [n ->]. apply Hcalm. Qed.

Lemma returns_digest c x : returns c (digest moment x) (λ m, fails m = false ∧ evp m = true).
Proof.
  intros w Hw. destruct (triple_digest moment (rest c) x (rest c) (stable_rest c) ltac:(done) w Hw) as [[n E] Hr].
  split; [rewrite E; apply Hcalm|done].
Qed.

Lemma returns_plain c : returns c (sys_plain moment) (λ _, True).
Proof. unfold sys_plain. keep_step; [apply returns_tick|]. by apply keeps_ret. Qed.

Local Ltac calmly :=
  cbv beta in *;
  repeat match goal with
         | H : _ = inr _ |- _ => subst
         | H : fails _ = false ∧ evp _ = true |- _ => let H' := fresh in destruct H as [H' H]; rewrite ?H', ?H
         end; cbn [negb].

Lemma returns_open c : returns c (sys_open moment source) (λ r, r = inr i).
Proof.
  unfold sys_open. keep_step; [apply returns_tick|]. intros w Hw. split; [|exact Hw]. io_simpl. calmly.
  by destruct Hw as (_ & -> & _).
Qed.

Lemma returns_fstat c : returns c (sys_fstat moment i) (λ r, r = inr (stamp nd, size)).
Proof.
  unfold sys_fstat. keep_step; [apply returns_tick|]. intros w Hw. split; [|exact Hw]. io_simpl. calmly.
  by destruct Hw as (_ & _ & -> & _).
Qed.

(** A read makes progress. *)
Lemma returns_read c pos n : (pos < length (data nd))%nat → (0 < n)%nat →
  returns c (sys_read moment i pos n)
    (λ r, ∃ k, (0 < k ≤ n)%nat ∧ (k ≤ length (data nd) - pos)%nat ∧ r = inr (slice pos (pos + k) (data nd))).
Proof.
  intros Hpos Hn. unfold sys_read. keep_step; [apply returns_tick|]. intros w Hw. split; [|exact Hw]. io_simpl. calmly.
  destruct Hw as (_ & _ & Hi & _).
  unfold data_of. rewrite Hi. cbn [from_option].
  exists (Nat.min (Nat.min n (S (count a))) (length (data nd) - pos)). split; [lia|]. split; [lia|].
  f_equal. unfold slice. replace (pos + _ - pos)%nat with (Nat.min (Nat.min n (S (count a))) (length (data nd) - pos)) by lia.
  by rewrite <- (take_take _ _ (length (data nd) - pos)), (take_ge (drop pos (data nd)) (length (data nd) - pos))
    by (rewrite length_drop; lia).
Qed.

Lemma returns_read_loop c fuel : ∀ pos n acc, (n ≤ fuel)%nat → (pos + n ≤ length (data nd))%nat →
  returns c (ReadLoop moment fuel i pos n acc) (λ r, r = inr (acc ++ slice pos (pos + n) (data nd))).
Proof.
  induction fuel as [|fuel IH]; intros pos [|n] acc Hf Hp; cbn [ReadLoop]; try lia.
  1,2: apply keeps_ret; unfold slice; by rewrite Nat.add_0_r, Nat.sub_diag, take_0, app_nil_r.
  keep_step; [by apply (returns_read c pos (S n)); lia|].
  calmly. match goal with H : ∃ _, _ |- _ => destruct H as (k & Hk & Hk' & ->) end.
  assert (length (slice pos (pos + k) (data nd)) = k) as Hl
    by (unfold slice; rewrite length_take, length_drop; lia).
  destruct (slice pos (pos + k) (data nd)) as [|x bytes] eqn:Hs; [cbn in Hl; lia|]. rewrite <- Hs in *. rewrite Hl.
  eapply keeps_weaken; [apply IH; lia|]. intros r ->. f_equal. rewrite <- app_assoc. f_equal.
  rewrite slice_join by lia. f_equal. lia.
Qed.

Lemma returns_read_exact c offset n : 0 ≤ offset → 0 ≤ n → offset + n ≤ size →
  returns c (ReadExactAt moment i offset n)
    (λ r, r = inr (slice (Z.to_nat offset) (Z.to_nat (offset + n)) (data nd))).
Proof.
  intros Ho Hn Hle. unfold ReadExactAt, max_off_t in *.
  destruct (negb (n =? 0) && _) eqn:Hg.
  { exfalso. apply andb_true_iff in Hg as [Hz Hg]. apply negb_true_iff, Z.eqb_neq in Hz.
    apply orb_true_iff in Hg as [Hg|Hg]; apply Z.ltb_lt in Hg; [lia|]. rewrite u64_small in Hg by (unfold is_u64; lia). lia. }
  eapply keeps_weaken; [apply returns_read_loop; unfold bsize in *; lia|]. intros r ->. f_equal. cbn [app].
  f_equal. lia.
Qed.

(** The entry of the object. *)
Definition entry : VerifiedObjectCacheEntry :=
  MkEntry fp (Sha256Hex true (data nd)) (Sha256Hex true <$> blocks_of (data nd)).

Lemma block_read k : Z.of_nat k * kIntegrityBlockSize < size →
  let b := Z.of_nat k * kIntegrityBlockSize in
  slice (Z.to_nat b) (Z.to_nat (b + Z.min kIntegrityBlockSize (size - b))) (data nd) = block (data nd) k.
Proof.
  intros Hk b. subst b. pose proof (eq_refl : kIntegrityBlockSize = 1048576) as HB. unfold block, slice, bsize in *.
  replace (Z.to_nat (Z.of_nat k * kIntegrityBlockSize)) with (k * Z.to_nat kIntegrityBlockSize)%nat by lia.
  destruct (Z.le_ge_cases kIntegrityBlockSize (Z.of_nat (length (data nd)) - Z.of_nat k * kIntegrityBlockSize)).
  - f_equal. lia.
  - rewrite !take_ge by (rewrite length_drop; lia). done.
Qed.

Lemma returns_verify_loop c fuel : ∀ k : nat, (k ≤ Z.to_nat (block_count size) ≤ k + fuel)%nat →
  returns c (VerifyLoop moment fuel i size (take (k * Z.to_nat kIntegrityBlockSize) (data nd))
               (Sha256Hex true <$> (block (data nd) <$> seq 0 k)))
    (λ r, r = inr (data nd, Sha256Hex true <$> blocks_of (data nd))).
Proof.
  pose proof (eq_refl : kIntegrityBlockSize = 1048576) as HB.
  pose proof (Z.div_mod (size - 1) kIntegrityBlockSize) as Hdm.
  pose proof (Z.mod_pos_bound (size - 1) kIntegrityBlockSize) as Hmp.
  assert (0 ≤ (size - 1) `div` kIntegrityBlockSize) by (apply Z.div_pos; lia).
  induction fuel as [|fuel IH]; intros k Hk; cbn [VerifyLoop].
  - rewrite (proj2 (Z.leb_le _ _)); [|unfold bsize, block_count in *; rewrite length_take; nia].
    apply keeps_ret. unfold blocks_of. replace k with (Z.to_nat (block_count size)) by lia.
    rewrite take_ge; [done|]. unfold bsize, block_count in *. nia.
  - destruct (Z.leb_spec size (bsize (take (k * Z.to_nat kIntegrityBlockSize) (data nd)))) as [Hge|Hlt].
    + apply keeps_ret. assert (k = Z.to_nat (block_count size)) as ->.
      { unfold bsize, block_count in *. rewrite length_take in Hge. nia. }
      rewrite take_ge; [done|]. unfold bsize in *. rewrite length_take in Hge. lia.
    + assert (Hkl : Z.of_nat k * kIntegrityBlockSize < size)
        by (unfold bsize in *; rewrite length_take in Hlt; lia).
      assert (bsize (take (k * Z.to_nat kIntegrityBlockSize) (data nd)) = Z.of_nat k * kIntegrityBlockSize) as ->
        by (unfold bsize in *; rewrite length_take; lia).
      keep_step; [apply returns_read_exact; lia|]. calmly. rewrite block_read by done.
      keep_step; [apply returns_tick|]. calmly. keep_step; [apply returns_digest|]. calmly.
      rewrite Sha256Hex_empty. cbn [negb].
      assert (block (data nd) k = take (Z.to_nat kIntegrityBlockSize) (drop (k * Z.to_nat kIntegrityBlockSize) (data nd))) as Hb.
      { unfold block, slice. f_equal. lia. }
      rewrite Hb at 1. rewrite take_take_drop.
      specialize (IH (S k)). rewrite seq_S, !fmap_app in IH. cbn [fmap list_fmap Nat.add] in IH.
      replace (k * Z.to_nat kIntegrityBlockSize + Z.to_nat kIntegrityBlockSize)%nat
        with (S k * Z.to_nat kIntegrityBlockSize)%nat by lia.
      apply IH. unfold block_count in *. nia.
Qed.

Context (key : list Z).
Hypothesis Hkey : ResolveSafePath root_ key = Some source.

Lemma returns_open_checked c : returns c (open_checked moment source size) (λ r, r = OpenedFile i fp).
Proof.
  unfold open_checked. keep_step; [apply returns_open|]. calmly. keep_step; [apply returns_fstat|]. calmly.
  rewrite Hregular, Z.eqb_refl. by apply keeps_ret.
Qed.

(** A verification succeeds, and the cache has the entry. *)
Lemma verify_completes c :
  triple (rest c) (VerifyObject moment root_ (MkVerify key size (Sha256Hex true (data nd))))
    (λ r s, st_status r = kStorageSucceeded ∧ rest (Some entry) s).
Proof.
  unfold VerifyObject. cbn [verify_size verify_sha256 verify_key]. rewrite Sha256Hex_valid, Hkey.
  rewrite (proj2 (Z.eqb_neq size 0)) by lia. cbn [orb negb].
  eapply keeps_then; [apply returns_open|]. intros a Ha. calmly.
  eapply keeps_then; [apply returns_fstat|]. intros a Ha. calmly.
  rewrite Hregular, Z.eqb_refl. cbn [orb negb].
  eapply keeps_then; [apply returns_tick|]. intros m Hm. calmly.
  eapply keeps_then; [apply (returns_verify_loop c _ 0); unfold block_count; lia|]. intros a Ha. calmly.
  eapply keeps_then; [apply returns_fstat|]. intros a Ha. calmly.
  eapply keeps_then; [apply returns_plain|]. intros a _.
  rewrite Z.eqb_refl, bool_decide_true by done. cbn [orb negb].
  eapply keeps_then; [apply returns_digest|]. intros m' Hm'. calmly.
  rewrite bool_decide_true by done. cbn [orb negb].
  intros w Hw. cbv beta iota zeta delta [mbind io_bind mret io_ret with_cache tick get_cache on_cache].
  cbn [fst snd shared ticks st_status]. split; [done|].
  destruct (stable_rest c (ticks w) (shared w) Hw) as (E1 & E2 & E3 & _). split_and!; [done..|].
  cbn [verified_objects_]. unfold InsertVerified. apply lookup_insert_eq.
Qed.

(** The blocks of a range. *)
Lemma returns_read_blocks c offset request_end n : ∀ (k : nat),
  0 ≤ offset < request_end → request_end ≤ size →
  (k + n)%nat = S (Z.to_nat ((request_end - 1) `div` kIntegrityBlockSize)) →
  offset `div` kIntegrityBlockSize ≤ Z.of_nat k →
  returns c
    (ReadBlocks moment (Sha256Hex true <$> (block (data nd) <$> seq k n)) i source size offset request_end (Z.of_nat k)
       (slice (Z.to_nat offset)
          (Z.to_nat (Z.min request_end (Z.max offset (Z.of_nat k * kIntegrityBlockSize)))) (data nd)))
    (λ r, r = inr (slice (Z.to_nat offset) (Z.to_nat request_end) (data nd))).
Proof.
  pose proof (eq_refl : kIntegrityBlockSize = 1048576) as HB.
  induction n as [|n IH]; intros k Ho Hre Hk Hstart; cbn [seq fmap list_fmap ReadBlocks].
  - apply keeps_ret. do 2 f_equal. pose proof (Z.mod_pos_bound (request_end - 1) kIntegrityBlockSize).
    pose proof (Z.div_mod (request_end - 1) kIntegrityBlockSize). lia.
  - pose proof (Z.div_mod (request_end - 1) kIntegrityBlockSize).
    pose proof (Z.mod_pos_bound (request_end - 1) kIntegrityBlockSize).
    assert (0 ≤ (request_end - 1) `div` kIntegrityBlockSize) by (apply Z.div_pos; lia).
    assert (Hkb : Z.of_nat k * kIntegrityBlockSize ≤ request_end - 1) by nia.
    keep_step; [apply returns_read_exact; lia|]. calmly. rewrite block_read by lia.
    keep_step; [apply returns_digest|]. calmly. rewrite Sha256Hex_empty, bool_decide_true by done. cbn [orb negb].
    rewrite range_step by lia. replace (Z.of_nat k + 1) with (Z.of_nat (S k)) by lia. apply IH; lia.
Qed.

(** ** Ranges *)

Section Range.
Context (offset length : Z).
Hypothesis Hoffset : 0 ≤ offset < size.
Hypothesis Hlength : 0 < length.

Local Abbreviation request := (MkObjectRange key offset length size (Sha256Hex true (data nd))).
Local Abbreviation wanted := (Z.min length (size - offset)).

Definition range_read (r : ReadObjectRangeResult) : Prop :=
  ob_status r = kStorageSucceeded ∧ ob_offset r = offset ∧
  ob_data r = slice (Z.to_nat offset) (Z.to_nat (offset + wanted)) (data nd) ∧
  ob_sha256 r = Sha256Hex true (ob_data r) ∧ ob_eof r = (offset + wanted =? size).

Lemma returns_look {A} c (f : option VerifiedObjectCacheEntry → A) :
  returns c (with_cache moment (λ _ m, (m, f (m !! source)))) (λ r, r = f c).
Proof.
  apply keeps_with_cache; [apply stable_rest|]. intros m [t d v l] (E1 & E2 & E3 & E4). cbn in *.
  rewrite E4. done.
Qed.

Lemma entry_blocks : Z.of_nat (Datatypes.length (block_sha256 entry)) = block_count size.
Proof.
  unfold entry, blocks_of. cbn [block_sha256]. rewrite !length_fmap, length_seq. unfold block_count.
  assert (0 ≤ (size - 1) `div` kIntegrityBlockSize) by (apply Z.div_pos; [lia|done]). lia.
Qed.

Lemma verified_range_completes :
  returns (Some entry) (ReadVerifiedRange moment request source i fp) range_read.
Proof.
  pose proof (eq_refl : kIntegrityBlockSize = 1048576) as HB.
  unfold ReadVerifiedRange. cbn [or_length or_size or_offset or_sha256].
  set (start := offset `div` kIntegrityBlockSize). set (fin := (offset + wanted - 1) `div` kIntegrityBlockSize).
  assert (0 ≤ start) by (apply Z.div_pos; lia).
  assert (start ≤ fin) by (apply Z.div_le_mono; lia).
  assert (Hfin : fin ≤ (size - 1) `div` kIntegrityBlockSize) by (apply Z.div_le_mono; lia).
  rewrite (proj2 (Z.ltb_ge _ _)) by lia.
  rewrite (proj2 (Z.ltb_ge _ _)) by (rewrite u64_small by (unfold is_u64, max_off_t in *; lia); lia). cbn [orb].
  pose proof (returns_look (Some entry) (λ c, match (match c with Some e =>
      if bool_decide (fingerprint e = fp) && bool_decide (whole_sha256 e = Sha256Hex true (data nd)) then Some e else None
      | None => None end) with
    | Some e => if Z.of_nat (Datatypes.length (block_sha256 e)) =? block_count size
                then Some (slice (Z.to_nat start) (S (Z.to_nat fin)) (block_sha256 e)) else None
    | None => None end)) as Hlook.
  eapply keeps_bind; [exact Hlook|]. clear Hlook. intros a ->.
  rewrite !bool_decide_true by done. cbn [andb]. rewrite entry_blocks, Z.eqb_refl.
  assert (slice (Z.to_nat start) (S (Z.to_nat fin)) (block_sha256 entry) =
          Sha256Hex true <$> (block (data nd) <$> seq (Z.to_nat start) (S (Z.to_nat fin) - Z.to_nat start))) as ->.
  { unfold entry, blocks_of. cbn [block_sha256]. rewrite <- !list_fmap_compose. apply slice_fmap_seq.
    unfold block_count. lia. }
  keep_step.
  { pose proof (returns_read_blocks (Some entry) offset (offset + wanted) (S (Z.to_nat fin) - Z.to_nat start) (Z.to_nat start)
      ltac:(lia) ltac:(lia) ltac:(lia) ltac:(lia)) as Hblocks.
    rewrite Z2Nat.id in Hblocks by done.
    rewrite (Z.max_l offset), (Z.min_r (offset + wanted) offset) in Hblocks
      by (pose proof (Z.mul_div_le offset kIntegrityBlockSize); lia).
    unfold slice in Hblocks at 1. rewrite Nat.sub_diag, take_0 in Hblocks. exact Hblocks. }
  calmly.
  assert (bsize (slice (Z.to_nat offset) (Z.to_nat (offset + wanted)) (data nd)) = wanted) as ->.
  { unfold bsize, slice in *. rewrite length_take, length_drop. lia. }
  rewrite Z.eqb_refl. cbn [negb]. keep_step; [apply returns_fstat|]. calmly. keep_step; [apply returns_plain|].
  rewrite bool_decide_true by done. cbn [negb]. keep_step; [apply returns_tick|]. calmly.
  rewrite Sha256Hex_empty. cbn [negb]. apply keeps_ret. split_and!; done.
Qed.

(** An entry with the fingerprint and the digest of the object has the digests of its
    blocks. *)
Definition honest (c : option VerifiedObjectCacheEntry) : Prop :=
  ∀ e, c = Some e → fingerprint e = fp → whole_sha256 e = Sha256Hex true (data nd) → e = entry.

Lemma read_range_completes c : honest c →
  triple (rest c) (ReadObjectRange moment root_ request)
    (λ r s, range_read r ∧ ∃ c', honest c' ∧ rest c' s).
Proof.
  intros Hc. unfold ReadObjectRange. cbn [or_length or_size or_offset or_sha256 or_key].
  rewrite !(proj2 (Z.eqb_neq _ 0)), (proj2 (Z.leb_gt _ _)), Sha256Hex_valid, Hkey by lia. cbn [orb negb].
  assert (Hend : triple (rest (Some entry)) (ReadVerifiedRange moment request source i fp)
                   (λ r s, range_read r ∧ ∃ c', honest c' ∧ rest c' s)).
  { eapply triple_weaken; [apply verified_range_completes|done|]. intros r s [Hr Hs]. split; [done|].
    exists (Some entry). split; [by intros e [= <-]|done]. }
  eapply keeps_then; [apply returns_open_checked|]. intros a ->.
  pose proof (λ c, returns_look c (λ c, match c with Some e =>
      if bool_decide (fingerprint e = fp) && bool_decide (whole_sha256 e = Sha256Hex true (data nd)) then Some e else None
      | None => None end)) as Hlook.
  eapply keeps_then; [exact (Hlook c)|]. intros a Ha. cbv beta in Ha.
  destruct a as [e|].
  - destruct c as [e'|]; [|done]. destruct (_ && _) eqn:Hg in Ha; [|done]. injection Ha as ->. reflect_guards.
    by rewrite (Hc e') by done.
  - eapply keeps_then; [apply returns_plain|]. intros _ _.
    eapply triple_bind; [apply verify_completes|]. intros v.
    apply triple_pure. intros Hv.
    rewrite Hv. unfold st_succeeded. rewrite bool_decide_true by done. cbn [negb].
    eapply keeps_then; [apply returns_open_checked|]. intros a ->.
    eapply keeps_then; [exact (Hlook (Some entry))|]. intros a ->. rewrite !bool_decide_true by done. exact Hend.
Qed.
End Range.
End Storage.

(** ** The service *)

Section Service.
Context (moment : nat → Moment Db) `{Laws : Sha256Laws}.
Context (weight : list Z → list Z) (add_day : list Z → list Z).
Context (pool begin_snapshot : bool).
Context (root_ pid : list Z).

#[local] Instance the_repository : FileRepositoryPort (World Db) :=
  tables_repository moment weight add_day true pool begin_snapshot.
#[local] Instance the_storage : FileStoragePort (World Db) := disk_storage moment root_ pid.

Context (file : Z) (row : FileRow) (i : nat) (nd : Inode).

(** A file that can be downloaded: its row says so, and its object has the declared size
    and checksum. *)
Record downloadable : Prop := {
  dl_row : 1 ≤ file < 2 ^ 64 ∧ file_ok file row;
  dl_status : fr_status row = 3;
  dl_version : fr_version row ≠ 0;
  dl_available : ifnull (fr_available row) ≠ [];
  dl_regular : st_regular (stamp nd) = true;
  dl_size : bsize (data nd) = fr_size row;
  dl_limit : fr_size row ≤ max_off_t;
  dl_checksum : Sha256Hex true (data nd) = fr_expected row;
}.

Hypothesis Hroot : plain_root root_.
Hypothesis Hcalm : calm moment.
Hypothesis Hrest : undisturbed moment file (object_path root_ file) i.
Hypothesis Hdl : downloadable.

Local Abbreviation rest := (rest file row (object_path root_ file) i nd).
Local Abbreviation info := (MkInfo (fr_id row) (fr_name row) (fr_type row) (fr_size row) (fr_algorithm row)
  (fr_expected row) (fr_version row) (ifnull (fr_available row))).

Lemma info_row : BuildDownloadInfo (file_row_view row) = Some info.
Proof.
  destruct Hdl as [[Hid Hfo] H3 Hv Ha _ _ _ Hx]. destruct (fo_owner _ _ Hfo), (fo_size _ _ Hfo).
  pose proof (fo_id _ _ Hfo). pose proof (fo_verified _ _ Hfo) as Hver. rewrite H3 in Hver.
  unfold BuildDownloadInfo, file_row_view, file_view, file_record.
  cbn [file_id file_owner file_name content_type file_size file_status checksum_algorithm expected_checksum
       verified_checksum storage_backend storage_key file_version available_at rec_file_id rec_file_owner
       rec_file_name rec_content_type rec_file_size rec_algorithm rec_expected rec_verified rec_backend rec_key
       rec_file_version rec_available].
  rewrite H3, Hver. rewrite (fo_algorithm _ _ Hfo), (fo_backend _ _ Hfo), (fo_key _ _ Hfo).
  change (ifnull (Some (fr_expected row))) with (fr_expected row).
  change (ifnull (Some (BuildStorageKey file))) with (BuildStorageKey file). cbn [file_state]. rewrite !(proj2 (Z.eqb_neq _ 0)) by lia. rewrite !bool_decide_true by done.
  rewrite <- Hx at 1 2. rewrite Sha256Hex_valid. cbn [negb orb].
  destruct (ifnull (fr_available row)) as [|x a] eqn:Hav; [done|]. reflexivity.
Qed.

Lemma download_file_completes c :
  triple (rest c) (λ w, DownloadFile w (MkDownload (fr_owner row) file))
    (λ r s, r = inl (file_row_view row, info) ∧ rest c s).
Proof.
  destruct (dl_row Hdl) as [Hid Hfo]. destruct (fo_owner _ _ Hfo) as [_ Ho]. intros w Hw. unfold DownloadFile.
  change (repo_GetDownloadFile w _) with (GetDownloadFile moment true (MkDownload (fr_owner row) file) w).
  assert (HI : triple (rest c) (GetDownloadFile moment true (MkDownload (fr_owner row) file))
    (λ r s, found r = Some (file_row_view row) ∧ rest c s)).
  { unfold GetDownloadFile, FindFileById. cbn [negb download_actor download_file].
    rewrite !(proj2 (Z.eqb_neq _ 0)) by lia. cbn [orb].
    intros w0 Hw0. unfold WithConnection, Query.
    cbv beta iota zeta delta [mbind io_bind mret io_ret tick tx_bind tx_ret].
    destruct (Hcalm (ticks w0)) as [-> _]. cbn [shared ticks]. destruct (Hcalm (S (ticks w0))) as [-> _].
    pose proof (stable_rest moment file row (object_path root_ file) i nd Hrest c (ticks w0) (shared w0) Hw0) as Hs.
    pose proof Hs as (-> & _). rewrite Z.eqb_refl, (parse_file file row Hid Hfo). cbn [fst snd shared].
    split; [|exact Hs]. rewrite found_some, (view_file file row) by (lia || done). reflexivity. }
  specialize (HI w Hw). destruct (GetDownloadFile _ _ _ w) as [w1 r]. cbn [fst snd] in *. destruct HI as [-> Hs].
  split; [|exact Hs]. rewrite info_row. change (file_id (file_row_view row)) with (fr_id row).
  change (file_owner (file_row_view row)) with (fr_owner row). cbn [download_file download_actor].
  rewrite (fo_id _ _ Hfo), !Z.eqb_refl. change (file_status (file_row_view row)) with (file_state (fr_status row)).
  rewrite (dl_status Hdl). rewrite bool_decide_true by done. done.
Qed.

Context (length : Z) (validator : list Z).
Hypothesis Hlength : 0 < length ≤ kMaxDownloadRangeSize.
(** The client names no version of the file, or the one there is. *)
Hypothesis Hvalidator : Lower (Trim validator) = [] ∨ Lower (Trim validator) = fr_expected row.

Local Abbreviation honest := (honest i nd).

Lemma file_range_completes c offset : honest c → 0 ≤ offset < fr_size row →
  let wanted := Z.min length (fr_size row - offset) in
  triple (rest c)
    (λ w, ReadFileRange (MkService true true) true w (MkRead (fr_owner row) file offset length validator))
    (λ r s, (rr_status r = kSucceeded ∧ rr_next r = offset + wanted ∧ rr_eof r = (offset + wanted =? fr_size row) ∧
             rr_data r = slice (Z.to_nat offset) (Z.to_nat (offset + wanted)) (data nd)) ∧
            ∃ c', honest c' ∧ rest c' s).
Proof.
  intros Hc Hoff wanted w Hw. destruct (dl_row Hdl) as [Hid Hfo]. destruct (fo_owner _ _ Hfo) as [_ Ho].
  pose proof (dl_limit Hdl) as Hlim. unfold max_off_t in Hlim.
  assert (Hif : ∀ x, Lower (Trim validator) = [] ∨ Lower (Trim validator) = x →
    negb (bempty (Lower (Trim validator))) && negb (bool_decide (Lower (Trim validator) = x)) = false).
  { intros x [-> | ->]; [done|]. rewrite bool_decide_true by done. apply andb_false_r. }
  assert (Hval : negb (bempty (Lower (Trim validator))) && negb (ValidSha256Hex (Lower (Trim validator))) = false).
  { destruct Hvalidator as [-> | ->]; [done|]. rewrite <- (dl_checksum Hdl), Sha256Hex_valid. apply andb_false_r. }
  unfold ReadFileRange. cbn [read_actor read_file read_offset read_length if_match_sha256 repository_ storage_].
  rewrite Hval. rewrite !(proj2 (Z.eqb_neq _ 0)), (proj2 (Z.ltb_ge _ _)) by lia. cbn [orb negb].
  destruct (download_file_completes c w Hw) as [Hr Hs]. destruct (DownloadFile w _) as [w1 r1]. cbn [fst snd] in *.
  subst r1. cbn [info_checksum info_size]. rewrite Hif by done. rewrite (proj2 (Z.leb_gt _ _)) by lia.
  rewrite (u64_small (fr_size row - offset)) by (unfold is_u64; lia).
  change (storage_key (file_row_view row)) with (ifnull (fr_key row)). rewrite (fo_key _ _ Hfo).
  change (ifnull (Some (BuildStorageKey file))) with (BuildStorageKey file).
  rewrite <- (dl_checksum Hdl), <- (dl_size Hdl). rewrite <- (dl_size Hdl) in Hoff, Hlim.
  change (storage_ReadObjectRange w1 ?r) with (ReadObjectRange moment root_ r w1).
  assert (Hsz : 0 < bsize (data nd) ≤ max_off_t) by (unfold max_off_t; lia).
  pose proof (read_range_completes moment root_ file row (object_path root_ file) i nd Hcalm Hrest (dl_regular Hdl) Hsz
    (BuildStorageKey file) (resolve_object root_ Hroot file) offset (Z.min length (bsize (data nd) - offset))
    Hoff ltac:(lia) c Hc w1 Hs) as [(R1 & R2 & R3 & R4 & R5) Hc'].
  destruct (ReadObjectRange _ _ _ w1) as [w2 r]. cbn [fst snd] in *. split; [|exact Hc'].
  replace (Z.min (Z.min length (bsize (data nd) - offset)) (bsize (data nd) - offset))
    with (Z.min length (bsize (data nd) - offset)) in R3, R5 by lia.
  subst wanted. rewrite <- (dl_size Hdl). set (wanted := Z.min length (bsize (data nd) - offset)) in *.
  assert (Hb : bsize (ob_data r) = wanted).
  { rewrite R3. unfold bsize, slice in *. rewrite length_take, length_drop. lia. }
  rewrite R1, R4, R2, Hb, !Z.eqb_refl, Sha256Hex_valid, Sha256Hex_empty, bool_decide_true by done.
  rewrite (proj2 (Z.eqb_neq wanted 0)), (u64_small (offset + wanted)) by (unfold is_u64; lia).
  rewrite R5, eqb_reflx. cbn [orb negb rr_status rr_next rr_eof rr_data]. done.
Qed.

Lemma download_loop_completes fuel : ∀ c offset w, honest c → rest c (shared w) → 0 ≤ offset < fr_size row →
  fr_size row - offset ≤ Z.of_nat fuel * length →
  (Download moment weight add_day true pool begin_snapshot root_ pid (MkService true true) (fr_owner row) file length
     validator (λ _, true) fuel offset (slice 0 (Z.to_nat offset) (data nd)) w).2 = Some (data nd).
Proof.
  induction fuel as [|fuel IH]; intros c offset w Hc Hw Hoff Hfuel; [lia|]. cbn [Download].
  destruct (file_range_completes c offset Hc Hoff w Hw) as [(R1 & R2 & R3 & R4) (c' & Hc' & Hw')].
  change (ReadFileRange _ _ _ _) with
    (ReadFileRange (MkService true true) true w (MkRead (fr_owner row) file offset length validator)).
  destruct (ReadFileRange _ _ w _) as [w1 r]. cbn [fst snd] in *. rewrite R1, R3, R4, R2.
  cbn [is_status]. set (wanted := Z.min length (fr_size row - offset)) in *.
  unfold is_status. rewrite bool_decide_true by done. rewrite slice_join by lia.
  destruct (Z.eqb_spec (offset + wanted) (fr_size row)) as [E|Hne].
  - cbn [snd]. rewrite E, <- (dl_size Hdl). unfold bsize. by rewrite slice_all by lia.
  - apply (IH c'); [done|done|lia|lia].
Qed.
End Service.

(** C22: A download completes.  When no call fails and the others leave the row of an
    available file, its object and its entry of the cache alone, a client that asks for
    the file in ranges of [length] bytes has exactly the bytes of the object after at most
    as many requests as there are ranges, whatever part of a block or how many blocks a
    range spans, and whether or not the object was verified before. *)
Theorem download_completes moment `{Laws : Sha256Laws} weight add_day pool begin_snapshot root_ pid
    file row i nd length validator fuel w :
  plain_root root_ → calm moment → undisturbed moment file (object_path root_ file) i →
  downloadable file row nd → 0 < length ≤ kMaxDownloadRangeSize →
  Lower (Trim validator) = [] ∨ Lower (Trim validator) = fr_expected row →
  rest file row (object_path root_ file) i nd (verified_objects_ (shared w) !! object_path root_ file) (shared w) →
  honest i nd (verified_objects_ (shared w) !! object_path root_ file) →
  fr_size row ≤ Z.of_nat fuel * length →
  (Download moment weight add_day true pool begin_snapshot root_ pid (MkService true true) (fr_owner row) file length
     validator (λ _, true) fuel 0 [] w).2 = Some (data nd).
Proof.
  intros Hroot Hcalm Hrest Hdl Hlength Hvalidator Hw Hc Hfuel.
  pose proof (fo_size _ _ (proj2 (dl_row _ _ _ Hdl))) as [Hu Hz]. unfold is_u64 in Hu.
  apply (download_loop_completes moment weight add_day pool begin_snapshot root_ pid file row i nd Hroot Hcalm Hrest Hdl
    length validator Hlength Hvalidator fuel _ 0 w Hc Hw); lia.
Qed.
