(* ===== verification/FileServiceSafety.v ===== *)
(** * Requests to the file service

    Every handler of the file service keeps the tables and the disk in agreement, beside
    other requests that do the same: an available file has its object with the declared
    size and checksum, a stored chunk its part. *)
From Stdlib Require Import ZArith Lia String.
From stdpp Require Import base list numbers gmap sorting.
From S2P Require Import Prelude ByteStrings FileTypes FileApplicationService FileWorld LocalFilesystemStorage LocalStorageReads LocalStorageWrites LocalStoragePaths FileRepository FileRepositoryAdapter FileTables FileMoves FileOperations FileRules FileFinalizeRules FileService FileDownload.

Local Open Scope Z_scope.

Section Service.
Context (moment : nat → Moment Db) `{Laws : Sha256Laws}.
Context (weight : list Z → list Z) (add_day : list Z → list Z).
Context (repository pool begin_snapshot : bool).
Context (root_ pid : list Z).

Local Abbreviation intact := (intact weight root_).
Local Abbreviation respects := (respects root_).
Local Abbreviation part_present := (part_present root_).
Local Abbreviation object_present := (object_present root_).

#[local] Instance the_repository : FileRepositoryPort (World Db) :=
  tables_repository moment weight add_day repository pool begin_snapshot.
#[local] Instance the_storage : FileStoragePort (World Db) := disk_storage moment root_ pid.

(** ** The invariant over time *)

(** Nothing is asked of the digests here. *)
Local Abbreviation anything := (λ (_ : Shared Db) (_ : list Z), True).

Definition good (s : Shared Db) : Prop := entries_ok anything s ∧ intact s.

(** A good state that keeps what [s0] had. *)
Definition since (s0 : Shared Db) : Shared Db → Prop := cache_ok anything (λ s, intact s ∧ respects s0 s).

(** What the requests beside this one, and other processes, do. *)
Definition civil : Prop :=
  ∀ n s, good s → good (others (moment n) s) ∧ respects s (others (moment n) s).

Hypothesis Hroot : plain_root root_.
Hypothesis Hmine : leave_mine moment pid.
Hypothesis Hothers : civil.

Lemma since_refl s : good s → since s s.
Proof. intros [He Hi]. split; [done|]. split; [done|]. apply respects_refl. Qed.

Lemma since_good s0 s : since s0 s → good s.
Proof. by intros (He & Hi & _). Qed.

Lemma since_trans s0 s1 s2 : since s0 s1 → since s1 s2 → since s0 s2.
Proof. intros (_ & _ & H1) (He & Hi & H2). split; [done|]. split; [done|]. by eapply respects_trans. Qed.

Lemma stable_since s0 : stable moment (since s0).
Proof.
  intros n s Hs. destruct (Hothers n s (since_good _ _ Hs)) as [Hg Hr]. eapply since_trans; [done|].
  destruct Hg. by split.
Qed.

Lemma since_knowledge s0 : knowledge moment anything (λ s, intact s ∧ respects s0 s).
Proof.
  split; [done..| | |].
  1,2: by intros s ? [[] []]; split; split.
  intros K n s [Hs HK]. split; [by apply stable_since|done].
Qed.

Lemma since_tables s0 s : since s0 s → db_ok weight (tables s).
Proof. intros (_ & [] & _). done. Qed.

(** A state after [s0] with other tables or another disk. *)
Lemma since_next s0 s s' : since s0 s → verified_objects_ s' = verified_objects_ s → intact s' ∧ respects s s' →
  since s0 s'.
Proof.
  intros (He & _ & H1) E [Hi H2]. split; [unfold entries_ok; by rewrite E|]. split; [done|].
  by eapply respects_trans.
Qed.

Lemma since_closed s0 (P : Shared Db → Prop) l : (∀ s, since s0 s → P s → ready root_ l s) →
  (∀ s d, P s → P (retable s d)) → closed weight (λ s, since s0 s ∧ P s) l.
Proof.
  intros Hready HP s d [Hs Hp] Hmv. split; [|by apply HP]. eapply since_next; [done|done|].
  eapply intact_moves; [apply Hs|done|]. by apply Hready.
Qed.

Lemma closed_since s0 l : (∀ s, ready root_ l s) → closed weight (since s0) l.
Proof.
  intros Hready s d Hs Hmv. eapply since_next; [done|done|]. eapply intact_moves; [apply Hs|done|done].
Qed.

Lemma steady_since s0 : steady moment pid (since s0).
Proof.
  split; [apply stable_since|]. intros s d Hs Hp. eapply since_next; [done|done|].
  eapply intact_public; [apply Hs|done].
Qed.

(** ** Parts and objects that stay *)

Lemma since_chunk s0 s u i c : since s0 s → chunks (tables s0) !! (u, i) = Some c →
  ∃ c', chunks (tables s) !! (u, i) = Some c' ∧ cr_size c' = cr_size c ∧ cr_checksum c' = cr_checksum c.
Proof. intros (_ & _ & Hr) Hc. by eapply re_chunk. Qed.

Lemma since_file s0 s id f : since s0 s → files (tables s0) !! id = Some f →
  ∃ f', files (tables s) !! id = Some f' ∧ fr_size f' = fr_size f ∧ fr_expected f' = fr_expected f.
Proof. intros (_ & _ & Hr) Hf. destruct (re_file _ _ _ Hr _ _ Hf) as (f' & ? & ? & ? & ? & ?). by exists f'. Qed.

(** The part of a row of [s0] is on the disk. *)
Definition since_part (s0 : Shared Db) (u i : Z) (c : ChunkRow) (s : Shared Db) : Prop :=
  since s0 s ∧ part_present s u i c.
Definition since_object (s0 : Shared Db) (id : Z) (f : FileRow) (s : Shared Db) : Prop :=
  since s0 s ∧ object_present s id f.

Lemma steady_part s0 u i c : chunks (tables s0) !! (u, i) = Some c → steady moment pid (since_part s0 u i c).
Proof.
  intros Hc. split.
  - intros n s [Hs Hp]. split; [by apply stable_since|].
    destruct (since_chunk _ _ _ _ _ Hs Hc) as (c' & Hc' & E1 & E2).
    destruct (Hothers n s (since_good _ _ Hs)) as [_ Hr]. unfold FileService.part_present in *.
    rewrite <- E1, <- E2 in *. by apply (re_part _ _ _ Hr _ _ _ Hc').
  - intros s d [Hs Hp] Hpub. split; [by apply steady_since|].
    revert Hp. apply has_content_eq, Hpub. apply part_not_mine.
Qed.

Lemma steady_object s0 id f : files (tables s0) !! id = Some f → steady moment pid (since_object s0 id f).
Proof.
  intros Hf. split.
  - intros n s [Hs Hp]. split; [by apply stable_since|].
    destruct (since_file _ _ _ _ Hs Hf) as (f' & Hf' & E1 & E2).
    destruct (Hothers n s (since_good _ _ Hs)) as [_ Hr]. unfold FileService.object_present in *.
    rewrite <- E1, <- E2 in *. by apply (re_object _ _ _ Hr _ _ Hf').
  - intros s d [Hs Hp] Hpub. split; [by apply steady_since|].
    revert Hp. apply has_content_eq, Hpub. apply object_not_mine.
Qed.

(** Storing the bytes of a reserved chunk. *)
Lemma store_part s0 u i c data : chunks (tables s0) !! (u, i) = Some c → bsize data = cr_size c →
  triple (since s0)
    (StoreChunkAtomically moment root_ pid (MkStore (BuildStoragePartKey u i) data (cr_checksum c)))
    (λ r s, since s0 s ∧ (st_succeeded (st_status r) = true → since_part s0 u i c s)).
Proof.
  intros Hc Hsize. eapply triple_weaken; [|by intros s Hs; exact Hs|].
  - apply (store_rule moment root_ pid Hmine (since s0) (since_part s0 u i c) (steady_since s0) (steady_part _ _ _ _ Hc)
             _ (part_path root_ u i)); [by apply resolve_part|apply part_not_mine|].
    intros s d Hsum Hs Hpub. destruct (since_chunk _ _ _ _ _ Hs Hc) as (c' & Hc' & E1 & E2). cbn [store_data store_sha256] in Hsum, Hpub.
    destruct (publish_part weight root_ moment pid s d u i c' data) as (Hi & Hr & Hp);
      [apply Hs|done|congruence|congruence|done|].
    assert (since s0 (on s d)) by (by eapply since_next). unfold since_part, FileService.part_present in *.
    rewrite E1, E2 in Hp. done.
  - cbn beta. intros r s (Hs & Hst). split; [done|]. intros Hok. by apply Hst.
Qed.

(** Composing the object of a file. *)
Lemma compose_object s0 id f parts : files (tables s0) !! id = Some f →
  triple (since s0)
    (ComposeObjectAtomically moment root_ pid (MkCompose (BuildStorageKey id) (fr_size f) (fr_expected f) parts))
    (λ r s, since s0 s ∧ (st_succeeded (st_status r) = true → since_object s0 id f s)).
Proof.
  intros Hf. eapply triple_weaken; [|by intros s Hs; exact Hs|].
  - apply (compose_rule moment root_ pid Hmine (since s0) (since_object s0 id f) (steady_since s0) (steady_object _ _ _ Hf)
             _ (object_path root_ id)); [by apply resolve_object|apply object_not_mine|].
    intros s d x Hsum Hsize Hs Hpub. destruct (since_file _ _ _ _ Hs Hf) as (f' & Hf' & E1 & E2). cbn [compose_size compose_sha256] in Hsum, Hsize.
    destruct (publish_object weight root_ moment pid s d id f' x) as (Hi & Hr & Hp);
      [apply Hs|done|congruence|congruence|done|].
    assert (since s0 (on s d)) by (by eapply since_next). unfold since_object, FileService.object_present in *.
    rewrite E1, E2 in Hp. done.
  - cbn beta. intros r s (Hs & Hst & _). split; [done|]. intros Hok. by apply Hst.
Qed.

(** ** Requests *)

(** What a computation on the world leaves. *)
Definition leaves {A} (w : World Db) (e : World Db * A) : Prop := since (shared w) (shared e.1).

Lemma leaves_ret {A} w (a : A) : good (shared w) → leaves w (w, a).
Proof. intros Hg. by apply since_refl. Qed.

Lemma leaves_trans {A} w w1 (e : World Db * A) : since (shared w) (shared w1) → leaves w1 e → leaves w e.
Proof. apply since_trans. Qed.

(** An operation of the repository in the world [w]. *)
Lemma repo_step {A} (P : A → Db → Prop) (e : IO Db A) w : good (shared w) →
  triple (since (shared w)) e (keeping (since (shared w)) P) →
  leaves w (e w) ∧ good (shared (e w).1) ∧ P (e w).2 (tables (shared (e w).1)).
Proof.
  intros Hg He. destruct (He w (since_refl _ Hg)) as [Hs Hp]. split_and!; [done|by eapply since_good|done].
Qed.

(** The guards at the start of a handler. *)
Ltac guards Hg :=
  repeat match goal with |- leaves _ (if ?b then _ else _) => destruct b; [by apply leaves_ret|] end.

Lemma begin_leaves svc w c : begin_typed c → good (shared w) → leaves w (FileApplicationService.BeginUpload svc w c).
Proof.
  intros Tc Hg. unfold FileApplicationService.BeginUpload. cbv zeta. guards Hg.
  eapply (repo_step _ (FileRepositoryAdapter.BeginUpload moment weight add_day repository pool begin_snapshot _));
    [done|]. apply begin_rule; [apply stable_since|apply since_tables| |by apply closed_since|by apply closed_since].
  destruct Tc as (? & ? & ?). unfold begin_typed. cbn. split_and!; [done|done|]. by case_match.
Qed.

Lemma get_session_leaves svc w q : good (shared w) → leaves w (FileApplicationService.GetUploadSession svc w q).
Proof.
  intros Hg. unfold FileApplicationService.GetUploadSession. guards Hg.
  eapply (repo_step _ (FileRepositoryAdapter.GetUploadSession moment repository q)); [done|].
  apply (get_session_rule _ weight); [apply stable_since|apply since_tables].
Qed.

Lemma cancel_leaves svc w c : good (shared w) → leaves w (FileApplicationService.CancelUpload svc w c).
Proof.
  intros Hg. unfold FileApplicationService.CancelUpload. guards Hg.
  eapply (repo_step _ (FileRepositoryAdapter.CancelUpload moment repository pool c)); [done|].
  apply (cancel_rule _ weight); [apply stable_since|apply since_tables|by apply closed_since].
Qed.

Lemma progress_leaves svc w q : good (shared w) → leaves w (GetUploadProgress svc w q).
Proof.
  intros Hg. unfold GetUploadProgress. guards Hg.
  destruct (repo_step _ (GetUploadSnapshot moment repository pool q) w Hg
    (snapshot_rule _ weight _ _ _ (stable_since _) (since_tables _) q)) as (H1 & _ & _).
  change (repo_GetUploadSnapshot w q) with (GetUploadSnapshot moment repository pool q w).
  destruct (GetUploadSnapshot _ _ _ _ w) as [w1 r]. destruct (found r); [destruct (BuildProgress _)|]; exact H1.
Qed.

(** The key of a chunk row that was shown. *)
Lemma chunk_answer_key s owner u i P view : good s → chunk_answer owner u i P (tables s) view →
  ∃ c, chunks (tables s) !! (u, i) = Some c ∧ storage_part_key view = BuildStoragePartKey u i ∧ P c.
Proof.
  intros [_ Hi] (c & [Hc _] & -> & HP). exists c. split_and!; [done| |done].
  by apply (co_part _ _ _ (ok_chunk _ _ (in_tables _ _ _ Hi) _ _ Hc)).
Qed.

(** A chunk whose part is on the disk is marked. *)
Lemma mark_leaves s0 u i c owner size w : chunks (tables s0) !! (u, i) = Some c →
  since_part s0 u i c (shared w) →
  since s0 (shared (MarkChunkStored moment weight repository pool (MkMark owner u i size (cr_checksum c)) w).1).
Proof.
  intros Hc Hw. pose proof (steady_part _ _ _ _ Hc) as [Hst _].
  assert (Hcl : closed weight (since_part s0 u i c) (Store u i (cr_checksum c))).
  { apply since_closed; [|done]. intros s Hs Hp c' Hc'. destruct (since_chunk _ _ _ _ _ Hs Hc) as (c0 & Hc0 & E1 & E2).
    rewrite Hc' in Hc0. injection Hc0 as ->. unfold FileService.part_present in *. by rewrite E1, E2. }
  apply (mark_rule moment weight repository pool (since_part s0 u i c) Hst
           ltac:(intros s [Hs _]; by eapply since_tables) (MkMark owner u i size (cr_checksum c)) Hcl w Hw).
Qed.

Lemma upload_chunk_leaves svc evp w c : is_u64 (up_index c) → good (shared w) →
  leaves w (UploadChunk svc evp w c).
Proof.
  intros Ti Hg. unfold UploadChunk. cbv zeta. guards Hg.
  set (checksum := Lower (Trim (up_checksum c))) in *. set (cmd := MkReserve _ _ _ _ _ _ _).
  destruct (repo_step _ (ReserveChunk moment weight repository pool cmd) w Hg
    (reserve_rule _ weight _ _ _ (stable_since _) (since_tables _) cmd Ti
      (closed_since _ (Reserve _ _ _) (λ _, Logic.I)))) as (H1 & Hg1 & Ha).
  change (repo_ReserveChunk w cmd) with (ReserveChunk moment weight repository pool cmd w).
  destruct (ReserveChunk _ _ _ _ cmd w) as [w1 reserved]. cbn [fst snd] in Ha, Hg1.
  destruct (reserve_accepted reserved) as [chunk|] eqn:Hacc; [|exact H1].
  destruct (chunk_answer_key _ _ _ _ _ _ Hg1 (Ha _ Hacc)) as (row & Hc & Hkey & _ & Hsize & Hsum).
  cbn [cmd rc_upload rc_index rc_size rc_checksum] in *. rewrite Hkey, <- Hsum.
  eapply leaves_trans; [exact H1|].
  destruct (store_part _ _ _ row (up_data c) Hc ltac:(congruence) w1 (since_refl _ Hg1)) as [H2 H3].
  change (storage_StoreChunkAtomically w1 ?r) with (StoreChunkAtomically moment root_ pid r w1).
  destruct (StoreChunkAtomically _ _ _ _ w1) as [w2 stored]. cbn [fst snd] in H2, H3.
  destruct (_ || _) eqn:Hfail; [exact H2|].
  assert (Hok : st_succeeded (st_status stored) = true).
  { apply orb_false_iff in Hfail as [Hfail _]. apply orb_false_iff in Hfail as [Hfail _]. by apply negb_false_iff. }
  pose proof (mark_leaves _ _ _ _ (up_actor c) (bsize (up_data c)) w2 Hc (H3 Hok)) as H4.
  change (repo_MarkChunkStored w2 ?r) with (MarkChunkStored moment weight repository pool r w2).
  destruct (MarkChunkStored _ _ _ _ _ w2) as [w3 marked]. by destruct (found marked).
Qed.

(** An upload whose object is on the disk is completed. *)
Lemma complete_leaves s0 u x f owner w : sessions (tables s0) !! u = Some x →
  files (tables s0) !! sr_file x = Some f → since_object s0 (sr_file x) f (shared w) →
  since s0 (shared (CompleteFinalize moment weight repository pool (MkChecksum owner u (fr_expected f)) w).1).
Proof.
  intros Hx Hf Hw. pose proof (steady_object _ _ _ Hf) as [Hst _].
  assert (Hcl : closed weight (since_object s0 (sr_file x) f) (Complete u (fr_expected f))).
  { apply since_closed; [|done]. intros s Hs Hp x' f' Hx' Hf'.
    destruct (re_session _ _ _ (proj2 (proj2 Hs)) _ _ Hx) as (x0 & Hx0 & E). rewrite Hx' in Hx0. injection Hx0 as ->.
    rewrite E in *. destruct (since_file _ _ _ _ Hs Hf) as (f0 & Hf0 & E1 & E2).
    rewrite Hf' in Hf0. injection Hf0 as ->. unfold FileService.object_present in *. by rewrite E1, E2. }
  apply (complete_rule moment weight repository pool (since_object s0 (sr_file x) f) Hst
           ltac:(intros s [Hs _]; by eapply since_tables) (MkChecksum owner u (fr_expected f)) Hcl w Hw).
Qed.

Lemma compose_leaves w c progress x f :
  good (shared w) → has_bundle (tables (shared w)) (query_actor c) (query_upload c) x f →
  leaves w (ComposeAndComplete w c (snapshot_rows (tables (shared w)) (query_actor c) (query_upload c) x f) progress).
Proof.
  intros Hg Hb. pose proof Hb as (Hx & _ & Hf). unfold ComposeAndComplete. cbv zeta.
  cbn [snapshot_bundle snapshot_chunks snapshot_rows bundle_row_view bundle_file].
  destruct (ComposeParts _) as [parts|]; [|by apply leaves_ret].
  destruct (ok_file _ _ (in_tables _ _ _ (proj2 Hg)) _ _ Hf) as [_ Hfo].
  assert (storage_key (file_row_view f) = BuildStorageKey (sr_file x)) as ->.
  { change (storage_key (file_row_view f)) with (ifnull (fr_key f)). by rewrite (fo_key _ _ Hfo). }
  change (file_size (file_row_view f)) with (fr_size f).
  change (expected_checksum (file_row_view f)) with (fr_expected f).
  destruct (compose_object (shared w) (sr_file x) f parts Hf w (since_refl _ Hg)) as [H1 H2].
  change (storage_ComposeObjectAtomically w ?r) with (ComposeObjectAtomically moment root_ pid r w).
  destruct (ComposeObjectAtomically _ _ _ _ w) as [w1 composed]. cbn [fst snd] in H1, H2.
  case_bool_decide as Hmis.
  - set (cmd := MkChecksum _ _ _).
    destruct (fail_rule moment weight repository pool (since (shared w)) (stable_since _) (since_tables _) cmd
      (closed_since _ (Fail_ _ _) (λ _, Logic.I)) w1 H1) as [H3 _].
    change (repo_FailFinalizeChecksum w1 cmd) with (FailFinalizeChecksum moment repository pool cmd w1).
    destruct (FailFinalizeChecksum _ _ _ cmd w1) as [w2 r]. by destruct (found r).
  - destruct (negb (st_succeeded (st_status composed))) eqn:Hs; [exact H1|].
    destruct (negb (st_bytes composed =? fr_size f)); [exact H1|]. cbn [orb].
    case_bool_decide as Hsum; cbn [negb]; [|exact H1]. rewrite Hsum.
    pose proof (complete_leaves _ _ _ _ (query_actor c) w1 Hx Hf (H2 ltac:(by apply negb_false_iff))) as H3.
    change (repo_CompleteFinalize w1 ?r) with (CompleteFinalize moment weight repository pool r w1).
    destruct (CompleteFinalize _ _ _ _ _ w1) as [w2 r]. by destruct (complete_completed r).
Qed.

Lemma finalize_leaves svc w c : good (shared w) → leaves w (FinalizeUpload svc w c).
Proof.
  intros Hg. unfold FinalizeUpload. guards Hg.
  destruct (repo_step _ (PrepareFinalize moment repository pool c) w Hg
    (prepare_rule _ weight _ _ _ (stable_since _) (since_tables _) c (closed_since _ (Freeze _) (λ _, Logic.I))))
    as (H1 & Hg1 & Ha).
  change (repo_PrepareFinalize w c) with (PrepareFinalize moment repository pool c w).
  destruct (PrepareFinalize _ _ _ c w) as [w1 prepared]. cbn [fst snd] in Ha, Hg1.
  destruct (completed prepared) eqn:Hc; cbn [negb]; [|exact H1].
  destruct (Ha Hc) as (x & f & Hb & -> & _). destruct (BuildProgress _) as [progress|]; [|exact H1].
  eapply leaves_trans; [exact H1|].
  destruct (o_outcome prepared); try (by apply leaves_ret); (destruct (negb _); [by apply leaves_ret|by apply compose_leaves]).
Qed.

(** ** Downloads *)

Lemma download_info_leaves svc w q : good (shared w) → leaves w (GetDownloadInfo svc w q).
Proof.
  intros Hg.
  destruct (download_info_rule moment weight add_day repository pool begin_snapshot root_ pid anything _
    (since_knowledge (shared w)) ltac:(by intros s [[] _]) [] svc q w) as (K & _ & [Hs _] & _); [|exact Hs].
  split; [by apply since_refl|done].
Qed.

Lemma read_range_leaves svc evp w q : read_typed q → good (shared w) → leaves w (ReadFileRange svc evp w q).
Proof.
  intros Hq Hg.
  destruct (read_range_rule moment weight add_day repository pool begin_snapshot root_ pid anything _
    (since_knowledge (shared w)) ltac:(by intros s [[] _]) [] svc evp q Hq w) as (K & _ & [Hs _] & _); [|exact Hs].
  split; [by apply since_refl|done].
Qed.

Inductive Request :=
| RqBegin (c : BeginUploadCommand)
| RqSession (q : UploadQuery)
| RqCancel (c : UploadQuery)
| RqUpload (evp : bool) (c : UploadChunkCommand)
| RqProgress (q : UploadQuery)
| RqFinalize (c : UploadQuery)
| RqInfo (q : GetDownloadInfoQuery)
| RqRead (evp : bool) (q : ReadFileRangeQuery).

(** Numbers that a 64-bit field can hold. *)
Definition request_typed (rq : Request) : Prop :=
  match rq with
  | RqBegin c => begin_typed c
  | RqUpload _ c => is_u64 (up_index c)
  | RqRead _ q => read_typed q
  | _ => True
  end.

Definition serve (svc : Service) (w : World Db) (rq : Request) : World Db :=
  match rq with
  | RqBegin c => (FileApplicationService.BeginUpload svc w c).1
  | RqSession q => (FileApplicationService.GetUploadSession svc w q).1
  | RqCancel c => (FileApplicationService.CancelUpload svc w c).1
  | RqUpload evp c => (UploadChunk svc evp w c).1
  | RqProgress q => (GetUploadProgress svc w q).1
  | RqFinalize c => (FinalizeUpload svc w c).1
  | RqInfo q => (GetDownloadInfo svc w q).1
  | RqRead evp q => (ReadFileRange svc evp w q).1
  end.

Lemma serve_leaves svc w rq : request_typed rq → good (shared w) → since (shared w) (shared (serve svc w rq)).
Proof.
  intros Ht Hg. destruct rq; cbn [serve request_typed] in *.
  - by apply begin_leaves.
  - by apply get_session_leaves.
  - by apply cancel_leaves.
  - by apply upload_chunk_leaves.
  - by apply progress_leaves.
  - by apply finalize_leaves.
  - by apply download_info_leaves.
  - by apply read_range_leaves.
Qed.

End Service.

(** A run of requests. *)
Lemma run_leaves moment `{Laws : Sha256Laws} weight add_day repository pool begin_snapshot root_ pid svc rqs :
  plain_root root_ → leave_mine moment pid → civil moment weight root_ → Forall request_typed rqs →
  ∀ w, good weight root_ (shared w) →
  since weight root_ (shared w)
    (shared (foldl (serve moment weight add_day repository pool begin_snapshot root_ pid svc) w rqs)).
Proof.
  intros Hroot Hmine Hothers Ht. induction Ht as [|rq rqs Hrq _ IH]; intros w Hg; [by apply since_refl|]. cbn [foldl].
  pose proof (serve_leaves moment weight add_day repository pool begin_snapshot root_ pid Hroot Hmine Hothers svc w rq Hrq Hg) as H1.
  eapply since_trans; [exact H1|]. apply IH. by eapply since_good.
Qed.

(** C20: Requests to the file service keep tables, disk and cache in agreement, whatever
    calls, statements and commits fail, and however they are interleaved with other
    requests that do so: a chunk the tables call stored has its part on the disk, an
    available file its object, each with the declared size and SHA-256 ([intact]); rows,
    parts and objects that are there stay, and an available file stays available
    ([respects]).  So a request is to the requests beside it what it expects of them. *)
Theorem requests_keep_files moment `{Laws : Sha256Laws} weight add_day repository pool begin_snapshot root_ pid svc rqs w :
  plain_root root_ → leave_mine moment pid → civil moment weight root_ →
  Forall request_typed rqs → good weight root_ (shared w) →
  let w' := foldl (serve moment weight add_day repository pool begin_snapshot root_ pid svc) w rqs in
  good weight root_ (shared w') ∧ respects root_ (shared w) (shared w').
Proof.
  intros Hroot Hmine Hothers Ht Hg. cbv zeta.
  destruct (run_leaves moment weight add_day repository pool begin_snapshot root_ pid svc rqs Hroot Hmine Hothers Ht w Hg)
    as (He & Hi & Hr). by split.
Qed.
