(* ===== verification/FileServiceExample.v ===== *)
(** * An upload and a download

    The example file goes through the service: begun, uploaded in one chunk, finalized and
    read back in two ranges.  The theorems about the service are applied to this run. *)
From Stdlib Require Import ZArith Lia String.
From stdpp Require Import base list numbers gmap sorting.
From S2P Require Import Prelude ByteStrings FileTypes FileApplicationService FileWorld LocalFilesystemStorage LocalStorageReads LocalStorageWrites LocalStoragePaths FileRepository FileRepositoryAdapter FileTables FileMoves FileOperations FileRules FileFinalizeRules FileExample FileService FileDownload FileAvailability FileServiceSafety.

Local Open Scope Z_scope.

#[local] Existing Instance toy_sha256.
#[local] Existing Instance toy_laws.

Definition example_root : list Z := str "data".
Definition example_pid : list Z := str "42".
Definition example_service : Service := MkService true true.

Definition example_requests : list Request :=
  [RqBegin example_begin;
   RqUpload true (MkUpload 7 1 0 0 example_file (str "sha256") (Sha256Hex true example_file));
   RqFinalize (MkQuery 7 1)].

Definition example_serve : World Db → Request → World Db :=
  serve quiet same_text next_day true true true example_root example_pid example_service.

(** The world after the upload. *)
Definition uploaded : World Db := foldl example_serve empty_world example_requests.

Local Abbreviation example_download w :=
  (Download quiet same_text next_day true true true example_root example_pid example_service 7 1 5
    (Sha256Hex true example_file) (λ _, true) 4 0 [] w).

Example uploaded_available : fr_status <$> files (tables (shared uploaded)) !! 1 = Some 3.
Proof. vm_compute. reflexivity. Qed.

Example downloaded_again : (example_download uploaded).2 = Some example_file.
Proof. vm_compute. reflexivity. Qed.

(** ** The theorems on this run *)

Lemma example_root_plain : plain_root example_root.
Proof.
  exists false, [str "data"]. split; [done|]. split; [|done]. apply list.Forall_cons. split; [|by apply list.Forall_nil].
  unfold plain_name. split_and!; [done| |done|done]. vm_compute. intros Hin.
  repeat (apply elem_of_cons in Hin as [Hin|Hin]; [discriminate Hin|]). by apply elem_of_nil in Hin.
Qed.

Lemma empty_good : good same_text example_root (shared empty_world).
Proof.
  split; [intros k e He; discriminate He|]. split; [exact empty_db_ok|..].
  - intros u i c Hc. discriminate Hc.
  - intros id f Hf. discriminate Hf.
Qed.

Lemma quiet_civil : civil quiet same_text example_root.
Proof. intros n s Hs. split; [exact Hs|apply respects_refl]. Qed.

Lemma quiet_leaves : leave_mine quiet example_pid.
Proof. intros n s p i x _ Ho. exact Ho. Qed.

Lemma example_typed : Forall request_typed example_requests.
Proof. repeat constructor; vm_compute; congruence. Qed.

(** After the upload the object of the file is on the disk, with its checksum. *)
Lemma requests_keep_files_witness :
  fr_status <$> files (tables (shared uploaded)) !! 1 = Some 3 ∧ good same_text example_root (shared uploaded).
Proof.
  split; [vm_compute; reflexivity|].
  exact (proj1 (requests_keep_files quiet same_text next_day true true true example_root example_pid example_service
    example_requests empty_world example_root_plain quiet_leaves quiet_civil example_typed empty_good)).
Defined.

Lemma uploaded_good : good same_text example_root (shared uploaded).
Proof.
  exact (since_good _ _ _ _ (run_leaves quiet same_text next_day true true true example_root example_pid example_service
    example_requests example_root_plain quiet_leaves quiet_civil example_typed empty_world empty_good)).
Qed.

(** ** A file that is overwritten meanwhile *)

(** A file of 300 bytes. *)
Definition long_file : list Z := (λ i, Z.of_nat i `mod` 256) <$> seq 0 300.

Definition long_uploaded : World Db := foldl example_serve empty_world
  [RqBegin (MkBegin 7 (str "client-1") (str "b.bin") (str "text/plain") 300 (str "sha256")
     (Sha256Hex true long_file) 262144);
   RqUpload true (MkUpload 7 1 0 0 long_file (str "sha256") (Sha256Hex true long_file));
   RqFinalize (MkQuery 7 1)].

(** Every byte of every file is overwritten; the stamps stay. *)
Definition overwritten (s : Shared Db) : Shared Db :=
  MkShared (tables s)
    (MkDisk (names (disk s)) ((λ i, MkInode ((λ b, 255 - b) <$> data i) (stamp i)) <$> inodes (disk s)))
    (verified_objects_ s) (digested s).

(** Somebody overwrites the files between the first two ranges, and puts them back
    later. *)
Definition meddling (n : nat) : Moment Db :=
  let q := quiet n in
  MkMoment (if Nat.eqb n 115 || Nat.eqb n 130 then overwritten else Datatypes.id)
    false (error_text q) (count q) (stamped q) (sequence q) (victim q) true (now q) Committed.

Local Abbreviation long_download w :=
  (Download meddling same_text next_day true true true example_root example_pid example_service 7 1 128
    (Sha256Hex true long_file) (λ _, true) 4 0 [] w).

(** The first download is refused on the way; the next one starts after it. *)
Definition refused : World Db := (long_download long_uploaded).1.
Definition read_again : World Db := (long_download refused).1.

Example first_refused : (long_download long_uploaded).2 = None.
Proof. vm_compute. reflexivity. Qed.

Example second_downloads : (long_download refused).2 = Some long_file.
Proof. vm_compute. reflexivity. Qed.

(** What was overwritten was read and digested: it is told apart from the file. *)
Example both_digested : ((λ b, 255 - b) <$> long_file) ∈ digested (shared read_again) ∧
  long_file ∈ digested (shared read_again).
Proof. split; refine (bool_decide_unpack _ _); vm_compute; exact I. Qed.

Lemma read_again_apart : tells_apart (digested (shared read_again)).
Proof. refine (bool_decide_unpack _ _). vm_compute. exact I. Qed.

Lemma meddling_rows : keep_rows meddling same_text.
Proof.
  intros n s He Hd. cbn [others meddling]. destruct (_ || _).
  all: (split; [exact He|split; [exact Hd|split; [set_solver|]]]; intros id f Hf; exists f; auto).
Qed.

Lemma long_good : good same_text example_root (shared long_uploaded).
Proof.
  refine (since_good _ _ _ _ (run_leaves quiet same_text next_day true true true example_root example_pid example_service
    _ example_root_plain quiet_leaves quiet_civil _ empty_world empty_good)).
  repeat constructor; vm_compute; congruence.
Qed.

(** The tables are those after the upload, and the cache is empty. *)
Lemma refused_state : tables (shared refused) = tables (shared long_uploaded) ∧ verified_objects_ (shared refused) = ∅.
Proof. split; vm_compute; reflexivity. Qed.

Lemma long_rows : ∃ f, files (tables (shared refused)) !! 1 = Some f ∧
  fr_size f = 300 ∧ fr_expected f = Sha256Hex true long_file.
Proof. eexists. split; [|split]; vm_compute; reflexivity. Qed.

Lemma download_declared_witness :
  (long_download refused).2 = Some long_file ∧
  ∀ content, Sha256Hex true content = Sha256Hex true long_file → long_file = content ∨ collide long_file content.
Proof.
  destruct long_rows as (f & Hf & _ & Hx). split; [exact second_downloads|]. intros content Hc.
  refine (proj2 (proj2 (download_declared meddling same_text next_day true true true example_root example_pid
    example_service 7 1 128 (Sha256Hex true long_file) (λ _, true) 4 refused f read_again long_file
    meddling_rows _ _ _ Hf _ read_again_apart)) content (eq_trans Hc (eq_sym Hx))).
  - vm_compute. split; congruence.
  - intros k e. rewrite (proj2 refused_state). intros He. discriminate He.
  - rewrite (proj1 refused_state). exact (in_tables _ _ _ (proj2 long_good)).
  - rewrite <- second_downloads. apply surjective_pairing.
Defined.

(** ** Availability *)

Lemma uploaded_object : ∃ row i nd,
  files (tables (shared uploaded)) !! 1 = Some row ∧
  names (disk (shared uploaded)) !! object_path example_root 1 = Some i ∧
  inodes (disk (shared uploaded)) !! i = Some nd ∧ data nd = example_file ∧ fr_owner row = 7 ∧
  fr_status row = 3 ∧ fr_version row ≠ 0 ∧ ifnull (fr_available row) ≠ [] ∧ st_regular (stamp nd) = true ∧
  fr_size row = 8 ∧ fr_expected row = Sha256Hex true example_file.
Proof. do 3 eexists. vm_compute. repeat (split; [reflexivity|]). repeat split; congruence. Qed.

Lemma quiet_calm : calm quiet.
Proof. intros n. split; reflexivity. Qed.

Lemma quiet_undisturbed file source i : undisturbed quiet file source i.
Proof. intros n s. repeat split. Qed.

Lemma download_completes_witness :
  (Download quiet same_text next_day true true true example_root example_pid (MkService true true) 7 1 3 []
     (λ _, true) 3 0 [] uploaded).2 = Some example_file.
Proof.
  destruct uploaded_object as (row & i & nd & Hf & Hn & Hi & Hd & Ho & H3 & Hv & Ha & Hr & Hs & Hx).
  rewrite <- Hd, <- Ho.
  refine (download_completes quiet same_text next_day true true example_root example_pid 1 row i nd 3 [] 3 uploaded
    example_root_plain quiet_calm (quiet_undisturbed _ _ _) _ _ (or_introl eq_refl) _ _ _).
  - destruct (ok_file _ _ (in_tables _ _ _ (proj2 uploaded_good)) _ _ Hf) as [_ Hfo].
    split; [split; [lia|exact Hfo]|exact H3|exact Hv|exact Ha|exact Hr|rewrite Hd, Hs; reflexivity|rewrite Hs; vm_compute; congruence|].
    rewrite Hd, Hx. reflexivity.
  - split; [reflexivity|vm_compute; congruence].
  - split; [exact Hf|]. split; [exact Hn|]. split; [exact Hi|reflexivity].
  - intros e He. exfalso. revert He. vm_compute. discriminate.
  - rewrite Hs. vm_compute. congruence.
Defined.

(** Another request that verifies an object of its own while the cache is full may take the
    entry of this one out, here between the verification and the second look at the cache. *)
Definition evicting (n : nat) : Moment Db :=
  let q := quiet n in
  MkMoment (λ s, if Nat.eqb n 91
                 then MkShared (tables s) (disk s) (delete (object_path example_root 1) (verified_objects_ s)) (digested s) else s)
    false (error_text q) (count q) (stamped q) (sequence q) (victim q) true (now q) Committed.

(** The request is then answered as if the object were corrupt, though it is intact. *)
Example evicted_called_corrupt :
  rr_status (@ReadFileRange _ (tables_repository evicting same_text next_day true true true)
    (disk_storage evicting example_root example_pid) toy_sha256 example_service true uploaded (MkRead 7 1 0 5 [])).2 = kInvalidRecord.
Proof. vm_compute. reflexivity. Qed.
